(* ===== verification/_CoqProject ===== *)
-Q . S2P
Prelude.v
Fnv.v
Keys.v
Errors.v
Retry.v
Message.v
Merge.v
Wire.v
ProtoInstance.v
MergeWitnesses.v
Rocks.v
RocksInstances.v
Version.v
World.v
Files.v
RangeReader.v
Storage.v
Wp.v
Safety.v
StorageSpec.v
StorageProps.v
LiveSize.v
SizeProps.v
Cas.v
CasSpec.v
CasProps.v
Rely.v
Listing.v
ListingProps.v
DeleteBatch.v
Eviction.v
EvictionProps.v
DiskLimit.v
Cleaner.v
TtlProps.v
ReconcileProps.v
CleanerSafe.v
TraceProps.v
StorageWitnesses.v
CleanerWitnesses.v
SegmentFormat.v
Segments.v
SegmentProps.v
SegmentRecovery.v
SegmentStoreProps.v
SegmentWitnesses.v
SegmentInv.v
Compaction.v
CompactionInv.v
CompactionProps.v
CompactionWitnesses.v
Recompaction.v
RecompactionInv.v
RecompactionProps.v
RecompactionSafe.v
RecompactionWitnesses.v
FileRecovery.v
FileRecoveryProps.v
FdCache.v
FdCacheProps.v
Heap.v
ClusterList.v
ClusterListProps.v
ClusterWitnesses.v
TokenRing.v
Ring.v
Router.v
RouterProps.v
RouterRace.v
Rpc.v
StreamReader.v
Operations.v
Service.v
ServiceProps.v
Topology.v
Client.v
ServiceWitnesses.v
AccessUpdater.v
MemoryCache.v
Embedded.v
