(* ===== verification/Prelude.v ===== *)
(** * OCache: a verification library for the cache node

    OCache is a distributed blob cache. A node keeps the rows of its values in one
    RocksDB, small values inline in the row, larger ones in raw files, which a
    background process packs into append-only segments. Nodes find each other by
    gossip; a consistent-hash ring assigns keys to nodes, and a node that is asked for a
    key of another node routes the request to it. Clients route by the same ring. This
    library models the node's storage engine and its background work, the ring, the
    router, the request handlers of a cluster of nodes and the clients as Rocq functions
    and step relations, and proves what makes them correct.

    ** How the program is modelled

    A Go function is a definition of the same name. Code that changes state is a
    transformer of [World] (World.v) in the order of its statements: each database
    call, file operation, clock reading and counter update. What the operating system,
    the context and the other goroutines decide is an [Env] read at a tick that advances
    with every reading, so that any call may fail at any time and a cancellation may come
    at any point; theorems quantify over it. A [(T, error)] result is [error + T].
    Integers are [Z] with the wrap-around of their width written out; strings and byte
    slices are [string].

    Third-party code is an interface: protobuf ([Protobuf], [ProtobufLaws] in Message.v),
    RocksDB ([RocksDB], [RocksLaws] in Rocks.v, [RelyLaws] in Rely.v when others write in
    between), dskit's ring, gRPC connections and the JSON and base64 of page tokens.
    Instances (ProtoInstance.v, RocksInstances.v and the witness files) show that the laws
    can hold; that a store which stacks merge operands and folds them lazily satisfies
    the laws of an eager one, for batches without the exception of
    [merge_schedule_divergence], is the theorem [lazy_merge_refines_eager].

    ** Files and the code they model (paths under src/)

    Shared vocabulary
    - Prelude.v: machine integers, strings, lists, the hint databases and tactics.
    - Fnv.v: Go's hash/fnv.  Heap.v: Go's container/heap.
    - Keys.v: storage/keys/keys.go, every key and parser byte for byte.
    - Errors.v: storage/errors.  Retry.v: storage/retry/retry.go.

    Rows and their merge
    - Message.v, ProtoInstance.v: the messages of storage/proto.
    - Wire.v: storage/value_wire.go, the partial decoders.
    - Merge.v, MergeWitnesses.v: storage/merge, the operator that serialises every
      conditional write.
    - Rocks.v, RocksInstances.v: what the engine relies on of RocksDB.

    The engine
    - World.v: the state of an instance ([Storage] of storage/storage.go and the managers
      it holds) and its environment.  Wp.v: weakest preconditions for its commands.
    - Files.v: storage/files/manager.go, payload.go and storage/deletion/queue.go.
    - RangeReader.v: the readers of storage.go.
    - Storage.v: Put, Get, DeleteKey and the delete index of storage.go; StorageSpec.v has
      the rule of each helper.
    - Safety.v, StorageProps.v, TraceProps.v: reference safety of the raw files.
    - LiveSize.v, SizeProps.v: the size counter.
    - Cas.v, CasSpec.v, CasProps.v: storage/cas.go run alone; Rely.v: among other writers;
      Version.v: nextVersion under concurrency and crashes.
    - Listing.v, ListingProps.v: the listings of storage.go.
    - StorageWitnesses.v: concrete runs.

    Eviction and cleaning
    - Eviction.v, EvictionProps.v, DiskLimit.v: eviction.go, fifo.go, lru.go,
      access_index_bucketed.go, diskspace.go.  DeleteBatch.v: what their batches do.
    - AccessUpdater.v: access_updater.go.
    - Cleaner.v, TtlProps.v, ReconcileProps.v, CleanerSafe.v, CleanerWitnesses.v:
      cleaner.go and orphan_sweep.go.

    Segments
    - SegmentFormat.v: segment/builder.go.  Segments.v: segment/segment.go, manager.go.
    - SegmentProps.v, SegmentRecovery.v, SegmentStoreProps.v, SegmentInv.v,
      SegmentWitnesses.v: their properties.
    - Compaction.v, CompactionInv.v, CompactionProps.v, CompactionWitnesses.v:
      compaction/compactor.go.
    - Recompaction.v, RecompactionInv.v, RecompactionProps.v, RecompactionSafe.v,
      RecompactionWitnesses.v: compaction/recompactor.go, walker.go.
    - FileRecovery.v, FileRecoveryProps.v: files/recovery.go.
    - FdCache.v, FdCacheProps.v: storage/fd.

    The cluster
    - TokenRing.v: client/tokenring.go.  Ring.v: coordinator/ring.
    - Router.v, RouterProps.v, RouterRace.v: coordinator/router.go.
    - ClusterList.v, ClusterListProps.v, ClusterWitnesses.v: server/operations/list.go,
      list_with_values.go.
    - Topology.v: what coordinator/coordinator.go publishes and validation.go checks.

    Requests and clients
    - Rpc.v: coordinator/interceptors.go (hop count, epochs, recovery) and the statuses of
      server/service/service.go and server/operations/put.go.
    - StreamReader.v: the reader of a peer's answer in server/operations/get.go.
    - Operations.v: server/operations, local and remote.  [Cluster] is the storage of
      every node, [ClusterEnv] what the network, the coordinators and the contexts decide.
    - Service.v: the handlers of server/service. [serve] is a cluster: a node that
      forwards calls the handler of its peer.
    - ServiceProps.v, ServiceWitnesses.v: their properties and runs of two nodes.
    - Topology.v: client/topology.go, connection.go, errors.go and the routing of
      cluster_client.go and simple_client.go, the choice between the two (client.go,
      config.go) and the seeds of the gossip (coordinator/gossip/dns_provider.go).
    - Client.v: client/operations.go, cas.go and the retries of cluster_client.go.
    - MemoryCache.v: client/memory.go.
    - Embedded.v: embedded/client.go and the defaults of storage.go.

    ** What the theorems show

    - No live value loses its bytes: along any sequence of engine operations and cleaner
      ticks ([raw_files_stay_referenced]), in compaction ([compaction_keeps_values]),
      recompaction ([recompaction_keeps_values]) and orphan sweeps ([orphan_sweep_exact]),
      whatever fails; the exception, a stored empty value, is
      [compaction_destroys_empty_value]. The two recoveries at startup keep what is intact
      if their own reads work ([recovery_keeps_intact], [recovery_sound]).
    - What is put is read back ([put_get_roundtrip], [segment_append_readback],
      [range_read_correct]), by the readers the code runs; a range that ends at the largest
      int64 panics.
    - Rows keep the invariant of the stored messages ([merge_preserves_row_wf]).
    - Conditional writes are compare-and-swaps ([cas_put_iff_admitted],
      [cas_put_success_is_a_win], [delete_fences_older_tokens], [fence_holds]) over stamps
      that never repeat ([stamps_strictly_increase]).
    - Space is accounted for and bounded ([size_counter_exact],
      [reconcile_makes_counter_exact], [disk_limit_enforced], [evicts_oldest_first],
      [ttl_sweep_exact], [reconcile_restores_coverage], [walk_exact]), and the order of
      eviction follows the reads ([access_times_follow_reads]).
    - Listings are complete and in order: of one node from the client down to the store
      ([client_lists_every_live_key]), of a page over many nodes ([kWayMerge_correct]).
    - The optimised decoders agree with the full ones ([extractors_agree_with_unmarshal]).
    - Shared objects survive every interleaving ([descriptors_safe],
      [no_connection_leaks], [reservation_exclusive]).
    - Keys go to one owner, and a failing owner costs little ([ring_consistent],
      [epoch_canonical], [routing_bounded], [dead_node_dials], [retry_stops]).
    - A request ends and acts once wherever it enters the cluster
      ([forwarding_terminates], [cas_applied_at_most_once], [forwarding_transparent]); a
      streamed answer arrives whole ([remote_read_exact], [read_is_one_answer]).
    - The in-memory client decides like storage ([memory_follows_storage_rules]), and the
      embedded client like the one over the network ([embedded_agrees_with_client]).
    - Where the code departs from its intent, a theorem shows the run
      ([bucket_cleanup_hides_cold_keys], [compaction_destroys_empty_value],
      [failed_read_destroys_file], [cluster_listing_never_ends],
      [breaker_opens_too_late], [interrupted_upload_is_stored],
      [forwarded_miss_is_unavailable], [client_hides_failures],
      [same_epoch_is_ignored]).

    ** Fuel and bounds

    Loops over bytes (Wire.v, SegmentRecovery.v, the walk of Recompaction.v) have the
    length of the buffer or file as fuel: every turn consumes a byte at least. Loops over
    an iterator are structural on the rows of its snapshot. The retry loops of Retry.v
    and Router.v are structural on the attempts left. Heap.v recurs at most as often as
    the heap has elements. A cluster's [serve] has the number of nodes a request may
    still visit as fuel, and the readers of a streamed answer its bytes;
    [forwarding_terminates] and [remote_read_exact] say that this is enough. The theorems
    that say a loop ends state it of these bounds; where the code has no bound of its own (the CAS loop on stamps, the worker pipeline
    of recovery, the loops on a reference count) it is a step relation or a schedule.
    [cluster_listing_never_ends] is about every number of pages.

    ** Concurrency

    Version.v (the stamp source), Rely.v (conditional puts among writers), RouterRace.v
    (connections and breakers) and FdCache.v (descriptors) are interleavings of atomic
    actions; FileRecovery.v has the schedule of the recovery workers
    and AccessUpdater.v the events of its goroutine. Elsewhere an
    operation runs alone with an environment that changes under it. Shutdown is the
    environment's [closed] or [cancelled]. A Go map that is iterated is given in an
    arbitrary order, which the theorems quantify over.

    ** Not modelled

    Metrics, logging, tracing, test hooks and page-cache advice have no effect on the
    state. The goroutines that wake up a worker (tickers and channels) are left out; what
    a tick does is modelled. Construction and shutdown of an instance, the settings of
    the background workers, the rate limiter, [Manager.Close] and the floating-point
    fragmentation ratio of a segment (a parameter where it decides something) are left
    out. RocksDB, dskit, memberlist and gRPC are third-party. The
    segment files have their own disk in [SegWorld], next to the raw files of [World].
    A call between nodes is one step that may fail to start, or lose its answer; within a
    stream the sender's failures are those of [ClusterEnv], and the messages of an upload
    arrive in order. Sends of the client's PutStream succeed, and the writer given to the
    cluster client's reads takes everything. Response headers other than the epoch check are dropped. The list
    calls of the embedded client pass through to ClusterList.v; the gateway, flags and the
    start of servers are left out, and so are the metrics and buffer pools of common/ and
    the test and benchmark drivers. *)

From Stdlib Require Export ZArith Lia Ascii.
From stdpp Require Export base gmap strings list fin_maps sorting.

(** ** Notation scope and hint database of the development *)

Declare Scope ocache_scope.
Delimit Scope ocache_scope with ocache.
Create HintDb ocache.
Create Rewrite HintDb ocache_int.
Create Rewrite HintDb ocache_str.

(** Go [string] and [[]byte] are both byte sequences; one type stands for both,
    so that the conversions between them are the identity. *)
Abbreviation bytes := string (only parsing).

(** Length of a byte sequence as a Go [int]. *)
Definition slen (s : bytes) : Z := Z.of_nat (String.length s).

(** ** Machine integers

    A Go integer of width [w] is a [Z] in the range of its type; every place
    where the source adds, subtracts or converts goes through one of the
    functions below, which write the wrap-around out. *)

Definition two64 : Z := 18446744073709551616.
Definition two63 : Z := 9223372036854775808.
Definition two32 : Z := 4294967296.
Definition two31 : Z := 2147483648.

Definition u64 (z : Z) : Z := z mod two64.
Definition i64 (z : Z) : Z := (z + two63) mod two64 - two63.
Definition u32 (z : Z) : Z := z mod two32.
Definition i32 (z : Z) : Z := (z + two31) mod two32 - two31.

(** Durations saturate ([time.Time.Sub]). *)
Definition sat64 (z : Z) : Z := Z.max (- two63) (Z.min (two63 - 1) z).

Definition is_u64 (z : Z) : Prop := (0 <= z < two64)%Z.
Definition is_i64 (z : Z) : Prop := (- two63 <= z < two63)%Z.
Definition is_u32 (z : Z) : Prop := (0 <= z < two32)%Z.
Definition is_i32 (z : Z) : Prop := (- two31 <= z < two31)%Z.

(** Reduces every integer operation of the development to [mod] by a literal. *)
Ltac unfold_ints :=
  unfold u64, i64, u32, i32, is_u64, is_i64, is_u32, is_i32,
         two64, two63, two32, two31 in *.

Ltac int_solve :=
  unfold_ints; intros; Z.div_mod_to_equations; lia.

Lemma u64_small z : is_u64 z -> u64 z = z.
Proof. unfold is_u64, u64. intros. apply Z.mod_small. lia. Qed.

Lemma i64_small z : is_i64 z -> i64 z = z.
Proof. int_solve. Qed.

Lemma u64_range z : is_u64 (u64 z).
Proof. unfold is_u64, u64. apply Z.mod_pos_bound. reflexivity. Qed.

Lemma i64_range z : is_i64 (i64 z).
Proof. int_solve. Qed.

Lemma i32_range z : is_i32 (i32 z).
Proof. int_solve. Qed.

Lemma u32_range z : is_u32 (u32 z).
Proof. int_solve. Qed.

Lemma u64_i64 z : u64 (i64 z) = u64 z.
Proof. int_solve. Qed.

Lemma i64_u64 z : i64 (u64 z) = i64 z.
Proof. int_solve. Qed.

Lemma i64_add_l a b : i64 (i64 a + b) = i64 (a + b).
Proof. int_solve. Qed.

Lemma i64_add_r a b : i64 (a + i64 b) = i64 (a + b).
Proof. int_solve. Qed.

Lemma i64_sub_r a b : i64 (a - i64 b) = i64 (a - b).
Proof. int_solve. Qed.

Lemma i64_sub_l a b : i64 (i64 a - b) = i64 (a - b).
Proof. int_solve. Qed.

Lemma i64_opp a : i64 (- i64 a) = i64 (- a).
Proof. int_solve. Qed.

#[export] Hint Resolve u64_range i64_range i32_range u32_range : ocache.
#[export] Hint Rewrite u64_i64 i64_u64 i64_add_l i64_add_r i64_sub_r : ocache_int.

(** ** Byte sequences *)

(** [stake n s] is Go's [s[:n]] and [sdrop n s] is [s[n:]], for [n <= len(s)]. *)
Fixpoint stake (n : nat) (s : bytes) : bytes :=
  match n, s with
  | S n, String c s => String c (stake n s)
  | _, _ => EmptyString
  end.

Fixpoint sdrop (n : nat) (s : bytes) : bytes :=
  match n, s with
  | O, _ => s
  | S n, String _ s => sdrop n s
  | S _, EmptyString => EmptyString
  end.

(** [s[i]], [None] when Go would panic. *)
Fixpoint sget (n : nat) (s : bytes) : option ascii :=
  match n, s with
  | _, EmptyString => None
  | O, String c _ => Some c
  | S n, String _ s => sget n s
  end.

(** [strings.HasPrefix(s, p)] and [bytes.HasPrefix(s, p)]. *)
Fixpoint has_prefix (p s : bytes) : bool :=
  match p, s with
  | EmptyString, _ => true
  | String a p, String b s => bool_decide (a = b) && has_prefix p s
  | String _ _, EmptyString => false
  end.

(** [bytes.IndexByte(s, c)]: the first occurrence, [None] for -1. *)
Fixpoint index_byte (s : bytes) (c : ascii) : option nat :=
  match s with
  | EmptyString => None
  | String a s => if decide (a = c) then Some O else S <$> index_byte s c
  end.

(** Lexicographic order on bytes: Go's [<] on strings and RocksDB's
    default comparator. *)
Fixpoint slt (a b : bytes) : bool :=
  match a, b with
  | _, EmptyString => false
  | EmptyString, String _ _ => true
  | String x a, String y b =>
      if decide (x = y) then slt a b else (N_of_ascii x <? N_of_ascii y)%N
  end.

Definition sle (a b : bytes) : bool := negb (slt b a).

Lemma sapp_assoc (a b c : bytes) : (a +:+ b) +:+ c = a +:+ (b +:+ c).
Proof. induction a as [|x a IH]; simpl; [done|]. unfold String.app in *. simpl. by rewrite IH. Qed.

Lemma sapp_cons x (a b : bytes) : String x a +:+ b = String x (a +:+ b).
Proof. reflexivity. Qed.

(** The concatenation of chunks. *)
Fixpoint sconcat (l : list bytes) : bytes :=
  match l with [] => EmptyString | s :: l => s +:+ sconcat l end.

Lemma sapp_nil_l (a : bytes) : EmptyString +:+ a = a.
Proof. reflexivity. Qed.

Lemma sapp_nil_r (a : bytes) : a +:+ EmptyString = a.
Proof. induction a as [|x a IH]; [done|]. by rewrite sapp_cons, IH. Qed.

Lemma slength_app (a b : bytes) :
  String.length (a +:+ b) = String.length a + String.length b.
Proof. induction a as [|x a IH]; [done|]. rewrite sapp_cons. simpl. by rewrite IH. Qed.

Lemma stake_app (a b : bytes) : stake (String.length a) (a +:+ b) = a.
Proof. induction a as [|x a IH]; [done|]. rewrite sapp_cons. simpl. by rewrite IH. Qed.

Lemma sdrop_app (a b : bytes) : sdrop (String.length a) (a +:+ b) = b.
Proof. induction a as [|x a IH]; [done|]. by rewrite sapp_cons. Qed.

Lemma sdrop_app_cons (a b : bytes) c : sdrop (S (String.length a)) (a +:+ String c b) = b.
Proof. induction a as [|x a IH]; [done|]. by rewrite sapp_cons. Qed.

Lemma stake_sdrop n (s : bytes) : stake n s +:+ sdrop n s = s.
Proof.
  revert s. induction n as [|n IH]; intros [|x s]; try done.
  simpl. by rewrite sapp_cons, IH.
Qed.

Lemma slength_sdrop n (s : bytes) : String.length (sdrop n s) = String.length s - n.
Proof. revert s. induction n as [|n IH]; intros [|x s]; simpl; auto with lia. Qed.

Lemma slength_stake n (s : bytes) : String.length (stake n s) = n `min` String.length s.
Proof. revert s. induction n as [|n IH]; intros [|x s]; simpl; auto with lia. Qed.

Lemma sdrop_sdrop n m (s : bytes) : sdrop n (sdrop m s) = sdrop (m + n) s.
Proof.
  revert s. induction m as [|m IH]; intros [|x s]; simpl; try done.
  by destruct n.
Qed.

Lemma stake_plus n m (s : bytes) : stake (n + m) s = stake n s +:+ stake m (sdrop n s).
Proof.
  revert s. induction n as [|n IH]; intros s; [done|].
  destruct s; simpl; [by destruct m|]. by rewrite sapp_cons, IH.
Qed.

Lemma sdrop_stake_app n (s c : bytes) :
  n <= String.length s -> sdrop n (stake n s +:+ c) = c.
Proof.
  intros Hn. rewrite <- (sdrop_app (stake n s) c) at 2.
  by rewrite slength_stake, Nat.min_l.
Qed.

Lemma stake_all n (s : bytes) : String.length s <= n -> stake n s = s.
Proof.
  revert s. induction n as [|n IH]; intros [|x s]; simpl; try done; try lia.
  intros. by rewrite IH by lia.
Qed.

Lemma sdrop_all n (s : bytes) : String.length s <= n -> sdrop n s = EmptyString.
Proof.
  revert s. induction n as [|n IH]; intros [|x s]; simpl; try done; try lia.
  intros. by apply IH; lia.
Qed.

Lemma sget_app_r (a b : bytes) n : sget (String.length a + n) (a +:+ b) = sget n b.
Proof. induction a as [|x a IH]; [done|]. by rewrite sapp_cons. Qed.

Lemma has_prefix_app p s : has_prefix p (p +:+ s) = true.
Proof. induction p as [|x p IH]; [done|]. rewrite sapp_cons. simpl. by rewrite bool_decide_true. Qed.

Lemma has_prefix_true p s : has_prefix p s = true <-> exists t, s = p +:+ t.
Proof.
  split.
  - revert s. induction p as [|x p IH]; intros [|y s]; simpl; try done; eauto.
    intros [->%bool_decide_eq_true Hp]%andb_true_iff.
    destruct (IH _ Hp) as [t ->]. by exists t.
  - intros [t ->]. apply has_prefix_app.
Qed.

Lemma index_byte_app (a b : bytes) c :
  index_byte a c = None -> index_byte (a +:+ String c b) c = Some (String.length a).
Proof.
  induction a as [|x a IH]; intros Ha.
  - simpl. by rewrite decide_True.
  - rewrite sapp_cons. simpl in *. case_decide; [done|].
    destruct (index_byte a c); [done|]. by rewrite IH.
Qed.

(** *** The lexicographic order is a strict total order *)

Lemma slt_irrefl a : slt a a = false.
Proof. induction a as [|x a IH]; simpl; [done|]. by rewrite decide_True. Qed.

Lemma slt_app_l p a b : slt (p +:+ a) (p +:+ b) = slt a b.
Proof. induction p as [|x p IH]; [done|]. rewrite !sapp_cons. simpl. by rewrite decide_True. Qed.

Lemma slt_trans a b c : slt a b = true -> slt b c = true -> slt a c = true.
Proof.
  revert b c. induction a as [|x a IH]; intros [|y b] [|z c]; simpl; try done.
  repeat case_decide; subst; try done; eauto;
    rewrite ?N.ltb_lt; intros; [lia | etrans; eauto].
Qed.

Lemma slt_total a b : slt a b = false -> slt b a = false -> a = b.
Proof.
  revert b. induction a as [|x a IH]; intros [|y b]; simpl; try done.
  repeat case_decide; subst; try done.
  - intros. f_equal. eauto.
  - rewrite !N.ltb_ge. intros. exfalso.
    assert (N_of_ascii x = N_of_ascii y) as E by lia.
    apply (f_equal ascii_of_N) in E. by rewrite !ascii_N_embedding in E.
Qed.

Lemma slt_asym a b : slt a b = true -> slt b a = false.
Proof.
  intros H. destruct (slt b a) eqn:E; [|done].
  pose proof (slt_trans _ _ _ H E) as F. by rewrite slt_irrefl in F.
Qed.

Lemma sle_refl a : sle a a = true.
Proof. unfold sle. by rewrite slt_irrefl. Qed.

Lemma slt_sle a b : slt a b = true -> sle a b = true.
Proof. unfold sle. intros. by rewrite slt_asym. Qed.

Lemma sle_trans a b c : sle a b = true -> sle b c = true -> sle a c = true.
Proof.
  unfold sle. rewrite !negb_true_iff. intros H1 H2.
  destruct (slt c a) eqn:E; [|done]. exfalso.
  destruct (slt a b) eqn:E1.
  - by rewrite (slt_trans _ _ _ E E1) in H2.
  - by rewrite (slt_total _ _ E1 H1), H2 in E.
Qed.

Lemma sle_total a b : sle a b = true \/ sle b a = true.
Proof.
  unfold sle. destruct (slt b a) eqn:E; [right|left; done].
  by rewrite slt_asym.
Qed.

Lemma sle_antisym a b : sle a b = true -> sle b a = true -> a = b.
Proof. unfold sle. rewrite !negb_true_iff. intros. by apply slt_total. Qed.

Lemma sle_slt_or_eq a b : sle a b = true -> a = b \/ slt a b = true.
Proof.
  unfold sle. intros H. destruct (slt a b) eqn:E; [by right|left]. apply slt_total; [done|by apply negb_true_iff].
Qed.

Lemma sle_false_slt a b : sle a b = false -> slt b a = true.
Proof. unfold sle. by rewrite negb_false_iff. Qed.

Lemma slt_sle_trans a b c : slt a b = true -> sle b c = true -> slt a c = true.
Proof.
  intros H1 H2. destruct (sle_slt_or_eq b c H2) as [<-|H3]; [done|]. by eapply slt_trans.
Qed.

Lemma sle_slt_trans a b c : sle a b = true -> slt b c = true -> slt a c = true.
Proof.
  intros H1 H2. destruct (sle_slt_or_eq a b H1) as [->|H3]; [done|]. by eapply slt_trans.
Qed.

(** The smallest string with prefix [p] is [p] itself. *)
Lemma sle_app_r p s : sle p (p +:+ s) = true.
Proof.
  unfold sle. rewrite <- (sapp_nil_r p) at 2. rewrite slt_app_l. by destruct s.
Qed.

#[export] Hint Rewrite slength_app sapp_assoc : ocache_str.
#[export] Hint Resolve sle_refl slt_sle has_prefix_app : ocache.

(** ** A state monad

    Stateful code is written with stdpp's monad notation: [x ← c; k] runs [c],
    passes its result and the new state to [k]. Fallible code returns a sum
    (or option) in that monad, as Go returns an error value. *)

Definition ST (W A : Type) : Type := W -> A * W.

#[export] Instance ST_ret W : MRet (ST W) := fun A a w => (a, w).
#[export] Instance ST_bind W : MBind (ST W) := fun A B k c w =>
  let '(a, w') := c w in k a w'.

Definition st_get {W} : ST W W := fun w => (w, w).
Definition st_modify {W} (f : W -> W) : ST W () := fun w => ((), f w).

Lemma ST_bind_eq {W A B} (c : ST W A) (k : A -> ST W B) w a w' :
  c w = (a, w') -> (c ≫= k) w = k a w'.
Proof. intros E. unfold mbind, ST_bind. by rewrite E. Qed.

Lemma ST_ret_eq {W A} (a : A) (w : W) : (mret a : ST W A) w = (a, w).
Proof. reflexivity. Qed.

(** ** Weakest preconditions

    [wp c Q w]: running [c] in the state [w] ends in a result and a state that satisfy
    [Q]. Every command terminates (the model is total), so this is total correctness. *)

Section Wp.

Context {W : Type}.

Definition wp {A} (c : ST W A) (Q : A -> W -> Prop) (w : W) : Prop := Q (c w).1 (c w).2.

Lemma wp_ret {A} (a : A) (Q : A -> W -> Prop) w : Q a w -> wp (mret a) Q w.
Proof. done. Qed.

Lemma wp_bind {A B} (c : ST W A) (k : A -> ST W B) Q w :
  wp c (fun a w' => wp (k a) Q w') w -> wp (c ≫= k) Q w.
Proof. unfold wp, mbind, ST_bind. by destruct (c w). Qed.

Lemma wp_mono {A} (c : ST W A) (Q1 Q2 : A -> W -> Prop) w :
  wp c Q1 w -> (forall a w', Q1 a w' -> Q2 a w') -> wp c Q2 w.
Proof. unfold wp. eauto. Qed.

Lemma wp_run {A} (c : ST W A) Q w a w' : c w = (a, w') -> wp c Q w -> Q a w'.
Proof. unfold wp. by intros ->. Qed.

Lemma wp_fun {A} (f : W -> A * W) (Q : A -> W -> Prop) w : Q (f w).1 (f w).2 -> wp (f : ST W A) Q w.
Proof. done. Qed.

End Wp.

Ltac wp_bind := apply wp_bind.

(** ** Big-endian integers (encoding/binary) *)

Open Scope Z_scope.

Fixpoint be_bytes (n : nat) (z : Z) : bytes :=
  match n with
  | O => EmptyString
  | S n => String (ascii_of_N (Z.to_N (z / 256 ^ Z.of_nat n mod 256))) (be_bytes n z)
  end.

Fixpoint be_value (s : bytes) : Z :=
  match s with
  | EmptyString => 0
  | String c s => Z.of_N (N_of_ascii c) * 256 ^ Z.of_nat (String.length s) + be_value s
  end.

Lemma be_bytes_length n z : String.length (be_bytes n z) = n.
Proof. induction n as [|n IH]; cbn; [done|]. by rewrite IH. Qed.

Lemma be_value_bytes n z : be_value (be_bytes n z) = z mod 256 ^ Z.of_nat n.
Proof.
  induction n as [|n IH]; cbn [be_bytes be_value]; [by rewrite Z.mod_1_r|].
  rewrite be_bytes_length, IH, N_ascii_embedding.
  2: { assert (0 <= z / 256 ^ Z.of_nat n mod 256 < 256) by (apply Z.mod_pos_bound; lia). lia. }
  rewrite Z2N.id by (apply Z.mod_pos_bound; lia). rewrite Nat2Z.inj_succ, Z.pow_succ_r by lia.
  rewrite (Z.mul_comm 256), Z.rem_mul_r by (try apply Z.pow_nonzero; lia). lia.
Qed.

Lemma be_bytes_add n m a v : (n <= m)%nat -> be_bytes n (a * 256 ^ Z.of_nat m + v) = be_bytes n v.
Proof.
  induction n as [|n IH]; intros Hn; [done|]. cbn [be_bytes]. rewrite IH by lia. do 3 f_equal.
  replace (256 ^ Z.of_nat m) with (256 ^ Z.of_nat (m - S n) * 256 * 256 ^ Z.of_nat n).
  2: { rewrite <- (Z.pow_1_r 256) at 2. rewrite <- !Z.pow_add_r by lia. f_equal. lia. }
  rewrite !Z.mul_assoc, Z.div_add_l by (apply Z.pow_nonzero; lia). rewrite Z.add_comm. apply Z_mod_plus_full.
Qed.

Lemma be_value_bound s : 0 <= be_value s < 256 ^ slen s.
Proof.
  unfold slen. induction s as [|c s IH]; cbn [be_value String.length]; [lia|].
  rewrite Nat2Z.inj_succ, Z.pow_succ_r by lia. pose proof (N_ascii_bounded c).
  set (p := 256 ^ Z.of_nat (String.length s)) in *. nia.
Qed.

Lemma be_bytes_value s : be_bytes (String.length s) (be_value s) = s.
Proof.
  induction s as [|c s IH]; [done|]. cbn [String.length be_value be_bytes]. rewrite be_bytes_add, IH by lia. f_equal.
  pose proof (be_value_bound s) as Hb. unfold slen in Hb. rewrite Z.div_add_l by (apply Z.pow_nonzero; lia).
  rewrite (Z.div_small (be_value s)) by done. pose proof (N_ascii_bounded c). rewrite Z.add_0_r, Z.mod_small by lia.
  rewrite N2Z.id. apply ascii_N_embedding.
Qed.

(** ** Zero bytes *)

Fixpoint szeros (n : nat) : bytes :=
  match n with O => EmptyString | S n => String zero (szeros n) end.

Lemma szeros_length n : String.length (szeros n) = n.
Proof. induction n; cbn; congruence. Qed.

Lemma slen_app a b : slen (a +:+ b) = slen a + slen b.
Proof. unfold slen. rewrite slength_app. lia. Qed.

Lemma slen_nonneg s : 0 <= slen s.
Proof. unfold slen. lia. Qed.

Close Scope Z_scope.

(** ** Tactics *)

(** Case analysis on every [match], [if] and [decide] of the goal or of the
    hypotheses, with substitution, until none is left. *)
Ltac crush_match :=
  repeat (case_match; simplify_eq/=; try done).

(** Turns boolean comparisons of hypotheses into propositions. *)
Ltac bool_facts :=
  repeat match goal with
  | H : andb _ _ = true |- _ => apply andb_true_iff in H as [? ?]
  | H : orb _ _ = false |- _ => apply orb_false_iff in H as [? ?]
  | H : negb _ = true |- _ => apply negb_true_iff in H
  | H : negb _ = false |- _ => apply negb_false_iff in H
  | H : Z.ltb _ _ = true |- _ => apply Z.ltb_lt in H
  | H : Z.ltb _ _ = false |- _ => apply Z.ltb_ge in H
  | H : Z.leb _ _ = true |- _ => apply Z.leb_le in H
  | H : Z.leb _ _ = false |- _ => apply Z.leb_gt in H
  | H : Z.eqb _ _ = true |- _ => apply Z.eqb_eq in H
  | H : Z.eqb _ _ = false |- _ => apply Z.eqb_neq in H
  | H : bool_decide _ = true |- _ => apply bool_decide_eq_true in H
  | H : bool_decide _ = false |- _ => apply bool_decide_eq_false in H
  end.
