(* ===== verification/Fnv.v ===== *)
(** * hash/fnv: the 32 and 64 bit FNV-1a hashes of Go's standard library *)

From S2P Require Import Prelude.

Open Scope Z_scope.

(** Each byte is xored in and the state multiplied by the prime, modulo [2^width]. *)
Fixpoint fnv_loop (width prime h : Z) (s : bytes) : Z :=
  match s with
  | EmptyString => h
  | String c s => fnv_loop width prime ((Z.lxor h (Z.of_N (N_of_ascii c)) * prime) mod 2 ^ width) s
  end.

Definition fnv32a (s : bytes) : Z := fnv_loop 32 16777619 2166136261 s.
Definition fnv64a (s : bytes) : Z := fnv_loop 64 1099511628211 14695981039346656037 s.

Example fnv32a_hello : fnv32a "hello" = 1335831723.
Proof. vm_compute. reflexivity. Qed.

Example fnv64a_hello : fnv64a "hello" = 11831194018420276491.
Proof. vm_compute. reflexivity. Qed.

Lemma fnv_loop_bound width prime h s : 0 <= width -> 0 <= h < 2 ^ width -> 0 <= fnv_loop width prime h s < 2 ^ width.
Proof.
  intros Hw. revert h. induction s as [|c s IH]; intros h Hh; cbn [fnv_loop]; [done|].
  apply IH, Z.mod_pos_bound. apply Z.pow_pos_nonneg; lia.
Qed.

Lemma fnv32a_u32 s : is_u32 (fnv32a s).
Proof. pose proof (fnv_loop_bound 32 16777619 2166136261 s ltac:(lia) ltac:(lia)). unfold is_u32, two32, fnv32a. lia. Qed.
