(* ===== verification/Keys.v ===== *)
(** * Key layout of the metadata database (storage/keys/keys.go)

    Every row of the one RocksDB instance lives under a prefix that names its
    role. This file translates the constructors, recognisers and parsers of
    those keys, with the parts of [fmt], [strings] and [time] they use
    ([%0*d], [Sscanf], [SplitN], [Time.Format]), and proves the round trips, the
    disjointness of the name spaces and the order of timestamped keys. *)

From S2P Require Import Prelude.

Open Scope Z_scope.

(** ** Prefixes *)

Definition MetadataPrefix : bytes := "!meta/".
Definition VersionHWMKey : bytes := "!verhwm".
Definition AccessBucketPrefix : bytes := "!access_bucket/".
Definition AccessBucketIndexPrefix : bytes := "!access_bucket_index/".
Definition CompactionIndexPrefix : bytes := "!compact/".
Definition SyncIndexPrefix : bytes := "!sync/".
Definition DeletionQueuePrefix : bytes := "!del/".
Definition DeleteIndexPrefix : bytes := "!delete:segment/".
Definition FifoIndexPrefix : bytes := "!fifo/".
Definition FifoBackrefPrefix : bytes := "!fifo_ref/".

(** ** The parts of Go's [fmt] the keys use *)

Definition digit (d : Z) : ascii := ascii_of_N (Z.to_N (48 + d)).

(** The [n] low decimal digits of [z], most significant first. *)
Fixpoint fixed_digits (n : nat) (z : Z) : bytes :=
  match n with
  | O => EmptyString
  | S n' => String (digit ((z / 10 ^ Z.of_nat n') mod 10)) (fixed_digits n' z)
  end.

Fixpoint ndigits_from (fuel n : nat) (z : Z) : nat :=
  match fuel with
  | O => n
  | S fuel => if z <? 10 ^ Z.of_nat n then n else ndigits_from fuel (S n) z
  end.

(** Number of decimal digits of a non-negative number. *)
Definition ndigits (z : Z) : nat := ndigits_from (S (Z.to_nat (Z.log2 z))) 1 z.

(** [fmt]'s [%0wd]: zero-padded to width [w], the sign counted in the width,
    never truncated. *)
Definition fmt_int (w : nat) (z : Z) : bytes :=
  if z <? 0
  then String "-" (fixed_digits ((w - 1) `max` ndigits (- z)) (- z))
  else fixed_digits (w `max` ndigits z) z.

Definition is_digit (c : ascii) : bool :=
  ((48 <=? N_of_ascii c) && (N_of_ascii c <=? 57))%N.
Definition digit_val (c : ascii) : Z := Z.of_N (N_of_ascii c) - 48.

(** [fmt]'s SkipSpace: skips Go's white-space runes (written here as their
    UTF-8 bytes); a newline is an error ([None]). *)
Fixpoint skip_space (s : bytes) : option bytes :=
  match s with
  | EmptyString => Some EmptyString
  | String a s1 =>
      let n := N_of_ascii a in
      if decide (n = 10)%N then None
      else if ((n =? 9) || (n =? 11) || (n =? 12) || (n =? 13) || (n =? 32))%N
      then skip_space s1
      else match s1 with
      | EmptyString => Some s
      | String b s2 =>
          let m := N_of_ascii b in
          if ((n =? 194) && ((m =? 133) || (m =? 160)))%N then skip_space s2
          else match s2 with
          | EmptyString => Some s
          | String c s3 =>
              let k := N_of_ascii c in
              if (((n =? 225) && (m =? 154) && (k =? 128))
                  || ((n =? 226) && (m =? 128)
                      && (((128 <=? k) && (k <=? 138)) || (k =? 168) || (k =? 169) || (k =? 175)))
                  || ((n =? 226) && (m =? 129) && (k =? 159))
                  || ((n =? 227) && (m =? 128) && (k =? 128)))%N
              then skip_space s3
              else Some s
          end
      end
  end.

Fixpoint digits_value (w : nat) (acc : Z) (s : bytes) : Z :=
  match w, s with
  | S w, String c s =>
      if is_digit c then digits_value w (acc * 10 + digit_val c) s else acc
  | _, _ => acc
  end.

(** At least one digit within the width, else "expected integer". *)
Definition scan_number (w : nat) (s : bytes) : option Z :=
  match w, s with
  | S _, String c _ => if is_digit c then Some (digits_value w 0 s) else None
  | _, _ => None
  end.

(** [fmt.Sscanf(s, "%<w>d", &x)] for an int64 [x]: [None] on error. Input after
    the number is ignored. Without a width, [w] is any number >= len(s). *)
Definition sscan_int (w : nat) (s : bytes) : option Z :=
  s ← skip_space s;
  match s with
  | EmptyString => None
  | String c r =>
      v ← (if decide (c = "-"%char) then Z.opp <$> scan_number (w - 1) r
           else if decide (c = "+"%char) then scan_number (w - 1) r
           else scan_number w s);
      if (- two63 <=? v) && (v <? two63) then Some v else None
  end.

(** [strings.SplitN(s, sep, 2)]: the parts before and after the first [sep]. *)
Definition split2 (s : bytes) (sep : ascii) : option (bytes * bytes) :=
  (fun i => (stake i s, sdrop (S i) s)) <$> index_byte s sep.

(** ** Metadata, compaction-index and delete-index keys *)

Definition MakeMetadataKey (userKey : bytes) : bytes := MetadataPrefix +:+ userKey.

Definition MakeCompactionKey (ts : Z) (key : bytes) : bytes :=
  "!compact/" +:+ fmt_int 20 ts +:+ String "|" key.

Definition ParseCompactionIndexRow (k v : bytes) : bytes * bytes * bool :=
  match index_byte k "|" with
  | None | Some O => (EmptyString, EmptyString, false)
  | Some pipeIdx => (sdrop (S pipeIdx) k, v, true)
  end.

Definition ExtractUserKey (metadataKey : bytes) : bytes :=
  if has_prefix MetadataPrefix metadataKey
  then sdrop (String.length MetadataPrefix) metadataKey
  else metadataKey.

Definition IsMetadataKey (key : bytes) : bool := has_prefix MetadataPrefix key.

Definition IsInternalKey (key : bytes) : bool :=
  match key with String c _ => bool_decide (c = "!"%char) | EmptyString => false end.

(** ** File sync keys *)

(** [now] is the reading of [time.Now().UnixNano()]. *)
Definition MakeSyncKey (now : Z) (filepath : bytes) : bytes :=
  SyncIndexPrefix +:+ fmt_int 20 now +:+ String "/" filepath.

Definition ParseSyncKey (key : bytes) : string + Z * bytes :=
  if negb (has_prefix SyncIndexPrefix key) then inl "invalid sync key prefix"
  else
    let remainder := sdrop (String.length SyncIndexPrefix) key in
    match split2 remainder "/" with
    | None => inl "invalid sync key format"
    | Some (p0, p1) =>
        match sscan_int 20 p0 with
        | None => inl "failed to parse timestamp"
        | Some timestamp => inr (timestamp, p1)
        end
    end.

Definition IsSyncKey (key : bytes) : bool := has_prefix SyncIndexPrefix key.

(** ** Deletion queue keys *)

Definition MakeDeletionQueueKey (timestamp : Z) (filepath : bytes) : bytes :=
  DeletionQueuePrefix +:+ fmt_int 20 timestamp +:+ String "/" filepath.

Definition ParseDeletionQueueKey (key : bytes) : string + Z * bytes :=
  if negb (has_prefix DeletionQueuePrefix key) then inl "invalid deletion queue key prefix"
  else
    let remainder := sdrop (String.length DeletionQueuePrefix) key in
    match split2 remainder "/" with
    | None => inl "invalid deletion queue key format"
    | Some (p0, p1) =>
        match sscan_int 20 p0 with
        | None => inl "failed to parse timestamp"
        | Some timestamp => inr (timestamp, p1)
        end
    end.

Definition IsDeletionQueueKey (key : bytes) : bool := has_prefix DeletionQueuePrefix key.

Definition MakeDeleteIndexKey (segmentPath : bytes) : bytes := DeleteIndexPrefix +:+ segmentPath.

Definition ExtractSegmentPath (deleteIndexKey : bytes) : bytes :=
  if has_prefix DeleteIndexPrefix deleteIndexKey
  then sdrop (String.length DeleteIndexPrefix) deleteIndexKey
  else EmptyString.

Definition IsDeleteIndexKey (key : bytes) : bool := has_prefix DeleteIndexPrefix key.

(** ** Calendar: [Time.Format("2006010215")]

    Go renders an instant in its location; the location's offset (seconds east
    of UTC at that instant) is host configuration and is a parameter. *)

Record civil := Civil { year : Z; month : Z; day : Z; hour : Z }.

(** Proleptic Gregorian date of a day number (0 is 1970-01-01). *)
Definition civil_from_days (days : Z) : Z * Z * Z :=
  let z := days + 719468 in
  let era := z / 146097 in
  let doe := z mod 146097 in
  let yoe := (doe - doe / 1460 + doe / 36524 - doe / 146096) / 365 in
  let doy := doe - (365 * yoe + yoe / 4 - yoe / 100) in
  let mp := (5 * doy + 2) / 153 in
  let d := doy - (153 * mp + 2) / 5 + 1 in
  let m := if mp <? 10 then mp + 3 else mp - 9 in
  ((if m <=? 2 then yoe + era * 400 + 1 else yoe + era * 400), m, d).

Definition civil_of_unix (sec : Z) : civil :=
  let '(y, m, d) := civil_from_days (sec / 86400) in
  Civil y m d ((sec mod 86400) / 3600).

Section AccessKeys.

(** UTC offset of the local time zone, in seconds, at a Unix second. *)
Context (tz : Z -> Z).

(** [timestamp.Format(AccessBucketFormat)]; years of an int64 nanosecond
    timestamp have four digits. *)
Definition format_bucket (nanos : Z) : bytes :=
  let sec := nanos / 1000000000 in
  let c := civil_of_unix (sec + tz sec) in
  fixed_digits 4 (year c) +:+ fixed_digits 2 (month c)
    +:+ fixed_digits 2 (day c) +:+ fixed_digits 2 (hour c).

Definition GetBucketedAccessKey (timestamp : Z) : bytes :=
  AccessBucketPrefix +:+ format_bucket timestamp +:+ "/".

Definition MakeBucketedAccessKey (key : bytes) (accessTime : Z) : bytes :=
  GetBucketedAccessKey accessTime +:+ fmt_int 19 accessTime +:+ String "/" key.

End AccessKeys.

Definition MakeBucketedAccessIndexKey (key : bytes) : bytes := AccessBucketIndexPrefix +:+ key.

Definition IsBucketedAccessKey (key : bytes) : bool :=
  (String.length AccessBucketPrefix <=? String.length key)%nat
  && bool_decide (stake (String.length AccessBucketPrefix) key = AccessBucketPrefix).

(** Times are Unix nanoseconds: [time.Unix(0, nanos)] is [nanos]. *)
Definition ParseBucketedAccessKey (bucketedKey : bytes) : string + bytes * Z :=
  let prefixLen := String.length AccessBucketPrefix in
  if (String.length bucketedKey <? prefixLen)%nat then inl "invalid bucketed key: too short"
  else
    let remaining := sdrop prefixLen bucketedKey in
    if (String.length remaining <? 11)%nat then inl "invalid bucketed key: missing bucket"
    else
      let remaining := sdrop 11 remaining in
      if (String.length remaining <? 20)%nat then inl "invalid bucketed key: missing timestamp"
      else match sscan_int 19 (stake 19 remaining) with
      | None => inl "invalid timestamp in bucketed key"
      | Some timestamp => inr (sdrop 20 remaining, timestamp)
      end.

Definition ExtractAccessBucketFromKey (key : bytes) : bytes :=
  let prefixLen := String.length AccessBucketPrefix in
  if (String.length key <? prefixLen + 11)%nat then EmptyString
  else stake (prefixLen + 11) key.

(** ** FIFO eviction index keys *)

Definition MakeFifoIndexKey (key : bytes) (writeTime : Z) : bytes :=
  FifoIndexPrefix +:+ fmt_int 19 writeTime +:+ String "/" key.

Definition GetFifoIndexPrefix : bytes := FifoIndexPrefix.

Definition MakeFifoBackrefKey (key : bytes) : bytes := FifoBackrefPrefix +:+ key.

Definition ParseFifoIndexTime (fifoKey : bytes) : string + Z :=
  let l := String.length FifoIndexPrefix in
  if (String.length fifoKey <? l + 20)%nat
     || bool_decide (stake l fifoKey <> FifoIndexPrefix)
     || bool_decide (sget (l + 19) fifoKey <> Some "/"%char)
  then inl "invalid fifo index key: bad prefix or timestamp"
  else match sscan_int 19 (stake 19 (sdrop l fifoKey)) with
  | None => inl "invalid fifo index key: bad timestamp"
  | Some nanos => inr nanos
  end.

Definition ParseFifoIndexKey (fifoKey : bytes) : string + bytes :=
  let l := String.length FifoIndexPrefix in
  if (String.length fifoKey <? l)%nat || bool_decide (stake l fifoKey <> FifoIndexPrefix)
  then inl "invalid fifo index key: bad prefix"
  else
    let rest := sdrop l fifoKey in
    if (String.length rest <? 20)%nat || bool_decide (sget 19 rest <> Some "/"%char)
    then inl "invalid fifo index key: missing timestamp separator"
    else inr (sdrop 20 rest).

(** ** Lemmas on decimal rendering *)

Lemma fixed_digits_length n z : String.length (fixed_digits n z) = n.
Proof. induction n; simpl; auto. Qed.

Lemma digit_code d : 0 <= d < 10 -> N_of_ascii (digit d) = Z.to_N (48 + d).
Proof. intros. unfold digit. apply N_ascii_embedding. lia. Qed.

Lemma is_digit_digit d : 0 <= d < 10 -> is_digit (digit d) = true.
Proof.
  intros H. unfold is_digit. rewrite digit_code by done.
  apply andb_true_iff. rewrite !N.leb_le. lia.
Qed.

Lemma digit_val_digit d : 0 <= d < 10 -> digit_val (digit d) = d.
Proof. intros H. unfold digit_val. rewrite digit_code by done. lia. Qed.

Lemma ndigits_from_le f n k z :
  z < 10 ^ Z.of_nat k -> (n <= k)%nat -> (ndigits_from f n z <= k)%nat.
Proof.
  revert n. induction f as [|f IH]; intros n Hz Hn; simpl; [done|].
  destruct (z <? 10 ^ Z.of_nat n) eqn:E; [done|]. apply Z.ltb_ge in E.
  apply IH; [done|]. destruct (decide (n = k)); subst; lia.
Qed.

Lemma fmt_int_nonneg w z :
  (1 <= w)%nat -> 0 <= z < 10 ^ Z.of_nat w -> fmt_int w z = fixed_digits w z.
Proof.
  intros Hw Hz. unfold fmt_int, ndigits.
  destruct (z <? 0) eqn:E; [apply Z.ltb_lt in E; lia|].
  rewrite Nat.max_l; [done|]. by apply ndigits_from_le; lia.
Qed.

Lemma fmt_int_neg w z :
  (2 <= w)%nat -> - 10 ^ Z.of_nat (w - 1) < z < 0 ->
  fmt_int w z = String "-" (fixed_digits (w - 1) (- z)).
Proof.
  intros Hw Hz. unfold fmt_int, ndigits.
  destruct (z <? 0) eqn:E; [|apply Z.ltb_ge in E; lia].
  rewrite Nat.max_l; [done|]. by apply ndigits_from_le; lia.
Qed.

Lemma pow10_pos n : 0 < 10 ^ Z.of_nat n.
Proof. apply Z.pow_pos_nonneg; lia. Qed.

Lemma pow10_S n : 10 ^ Z.of_nat (S n) = 10 * 10 ^ Z.of_nat n.
Proof. rewrite Nat2Z.inj_succ. apply Z.pow_succ_r. lia. Qed.

Lemma digits_value_fixed n acc z s :
  digits_value n acc (fixed_digits n z +:+ s)
  = acc * 10 ^ Z.of_nat n + z mod 10 ^ Z.of_nat n.
Proof.
  revert acc. induction n as [|n IH]; intros acc.
  - simpl. rewrite Z.mod_1_r. lia.
  - pose proof (pow10_pos n). rewrite pow10_S. cbn [fixed_digits].
    rewrite sapp_cons. cbn [digits_value].
    assert (0 <= (z / 10 ^ Z.of_nat n) mod 10 < 10) as Hd by (apply Z.mod_pos_bound; lia).
    rewrite is_digit_digit, digit_val_digit, IH by done.
    replace (10 * 10 ^ Z.of_nat n) with (10 ^ Z.of_nat n * 10) by lia.
    rewrite Z.rem_mul_r by lia. lia.
Qed.

Lemma scan_number_fixed n z s :
  (1 <= n)%nat -> 0 <= z < 10 ^ Z.of_nat n ->
  scan_number n (fixed_digits n z +:+ s) = Some z.
Proof.
  intros Hn Hz. destruct n as [|n]; [lia|].
  assert (scan_number (S n) (fixed_digits (S n) z +:+ s)
    = Some (digits_value (S n) 0 (fixed_digits (S n) z +:+ s))) as ->.
  { cbn [fixed_digits]. rewrite sapp_cons. unfold scan_number.
    rewrite is_digit_digit; [done|]. apply Z.mod_pos_bound. lia. }
  rewrite digits_value_fixed, Z.mod_small by done. done.
Qed.

Lemma fixed_digits_S_app n z s :
  exists d r, 0 <= d < 10 /\ fixed_digits (S n) z +:+ s = String (digit d) r.
Proof.
  eexists _, _. split; [|reflexivity]. apply Z.mod_pos_bound. lia.
Qed.

(** A non-negative number is what its digits spell: the rendering is injective. *)
Lemma ndigits_from_gt f n z : z < 10 ^ Z.of_nat (n + f) -> z < 10 ^ Z.of_nat (ndigits_from f n z).
Proof.
  revert n. induction f as [|f IH]; intros n Hz; cbn [ndigits_from]; [by rewrite Nat.add_0_r in Hz|].
  destruct (z <? 10 ^ Z.of_nat n) eqn:E; bool_facts; [done|]. apply IH. by rewrite Nat.add_succ_comm.
Qed.

Lemma ndigits_gt z : 0 <= z -> z < 10 ^ Z.of_nat (ndigits z).
Proof.
  intros Hz. apply ndigits_from_gt. destruct (decide (z = 0)) as [->|]; [done|].
  destruct (Z.log2_spec z) as [_ Hl]; [lia|]. eapply Z.lt_le_trans; [exact Hl|]. pose proof (Z.log2_nonneg z).
  etransitivity; [apply (Z.pow_le_mono_l 2 10); lia|]. apply Z.pow_le_mono_r; lia.
Qed.

Lemma fmt_int_inj z1 z2 : 0 <= z1 -> 0 <= z2 -> fmt_int 1 z1 = fmt_int 1 z2 -> z1 = z2.
Proof.
  intros H1 H2. unfold fmt_int. rewrite !(proj2 (Z.ltb_ge _ 0)) by done. pose proof (ndigits_gt z1 H1) as G1. pose proof (ndigits_gt z2 H2) as G2.
  assert (forall z, z < 10 ^ Z.of_nat (ndigits z) -> z < 10 ^ Z.of_nat (1 `max` ndigits z)) as Hw.
  { intros z Hz. eapply Z.lt_le_trans; [exact Hz|]. apply Z.pow_le_mono_r; lia. }
  apply Hw in G1, G2. set (n1 := (1 `max` ndigits z1)%nat) in *. set (n2 := (1 `max` ndigits z2)%nat) in *. intros E.
  assert (n1 = n2) as En by (rewrite <- (fixed_digits_length n1 z1), E; apply fixed_digits_length). rewrite <- En in *.
  apply (f_equal (fun s => digits_value n1 0 (s +:+ EmptyString))) in E. rewrite !digits_value_fixed, !Z.mod_small in E by done. lia.
Qed.

Lemma skip_space_stop c s :
  (33 <=? N_of_ascii c)%N && (N_of_ascii c <? 128)%N = true ->
  skip_space (String c s) = Some (String c s).
Proof.
  intros [H1%N.leb_le H2%N.ltb_lt]%andb_true_iff. cbn [skip_space].
  repeat match goal with
  | |- context [decide (?x = ?y)] => destruct (decide (x = y)); [lia|]
  | |- context [N.eqb (N_of_ascii c) ?y] =>
      destruct (N.eqb_spec (N_of_ascii c) y); [lia|]
  end.
  destruct s as [|? [|? ?]]; done.
Qed.

Lemma skip_space_digit d s :
  0 <= d < 10 -> skip_space (String (digit d) s) = Some (String (digit d) s).
Proof.
  intros H. apply skip_space_stop. rewrite digit_code by done.
  apply andb_true_iff. rewrite N.leb_le, N.ltb_lt. lia.
Qed.

(** A rendered int64 is read back by [Sscanf] with the same width. *)
Lemma sscan_fmt_int w z s :
  (2 <= w)%nat -> - 10 ^ Z.of_nat (w - 1) < z < 10 ^ Z.of_nat w -> is_i64 z ->
  sscan_int w (fmt_int w z +:+ s) = Some z.
Proof.
  intros Hw Hz Hi. unfold sscan_int, is_i64 in *.
  destruct (decide (z < 0)).
  - rewrite fmt_int_neg by lia. rewrite sapp_cons, skip_space_stop by reflexivity.
    cbn [mbind option_bind]. rewrite decide_True by done.
    rewrite scan_number_fixed by lia. cbn -[two63]. rewrite Z.opp_involutive.
    destruct (- two63 <=? z) eqn:E1; bool_facts; [|lia].
    destruct (z <? two63) eqn:E2; bool_facts; [done|lia].
  - rewrite fmt_int_nonneg by lia. destruct w as [|w]; [lia|].
    destruct (fixed_digits_S_app w z s) as (d & r & Hd & E). rewrite E.
    rewrite skip_space_digit by done. cbn [mbind option_bind].
    assert (digit d <> "-"%char /\ digit d <> "+"%char) as [Hm Hp].
    { split; intros F%(f_equal N_of_ascii); rewrite digit_code in F by done; simpl in F; lia. }
    rewrite !decide_False by done. rewrite <- E, scan_number_fixed by lia.
    cbn [mbind option_bind].
    destruct (- two63 <=? z) eqn:E1; bool_facts; [|lia].
    destruct (z <? two63) eqn:E2; bool_facts; [done|lia].
Qed.

Lemma fixed_digits_index n z c :
  is_digit c = false -> index_byte (fixed_digits n z) c = None.
Proof.
  intros Hc. induction n as [|n IH]; [done|]. cbn [fixed_digits index_byte].
  case_decide as E; [|by rewrite IH]. subst c.
  rewrite is_digit_digit in Hc; [done|]. apply Z.mod_pos_bound. lia.
Qed.

Lemma fmt_int_index w z c :
  is_digit c = false -> c <> "-"%char -> index_byte (fmt_int w z) c = None.
Proof.
  intros Hc Hm. unfold fmt_int. case_match.
  - cbn [index_byte]. rewrite decide_False by done. by rewrite fixed_digits_index.
  - by apply fixed_digits_index.
Qed.

Lemma split2_app a b c : index_byte a c = None -> split2 (a +:+ String c b) c = Some (a, b).
Proof.
  intros H. unfold split2. rewrite index_byte_app by done.
  unfold fmap, option_fmap, option_map. by rewrite stake_app, sdrop_app_cons.
Qed.

(** *** Fixed-width rendering is order preserving *)

Lemma digit_lt d e : 0 <= d < 10 -> 0 <= e < 10 -> d < e ->
  forall a b, slt (String (digit d) a) (String (digit e) b) = true.
Proof.
  intros Hd He Hlt a b. cbn [slt].
  rewrite decide_False, !digit_code by (done || (intros F%(f_equal N_of_ascii); rewrite !digit_code in F by done; lia)).
  apply N.ltb_lt. lia.
Qed.

Lemma fixed_digits_lt n z1 z2 a b :
  z1 mod 10 ^ Z.of_nat n < z2 mod 10 ^ Z.of_nat n ->
  slt (fixed_digits n z1 +:+ a) (fixed_digits n z2 +:+ b) = true.
Proof.
  induction n as [|n IH]; intros H.
  - simpl in H. rewrite !Z.mod_1_r in H. lia.
  - pose proof (pow10_pos n). rewrite pow10_S in H.
    replace (10 * 10 ^ Z.of_nat n) with (10 ^ Z.of_nat n * 10) in H by lia.
    rewrite !Z.rem_mul_r in H by lia. cbn [fixed_digits]. rewrite !sapp_cons.
    pose proof (Z.mod_pos_bound (z1 / 10 ^ Z.of_nat n) 10).
    pose proof (Z.mod_pos_bound (z2 / 10 ^ Z.of_nat n) 10).
    pose proof (Z.mod_pos_bound z1 (10 ^ Z.of_nat n)).
    pose proof (Z.mod_pos_bound z2 (10 ^ Z.of_nat n)).
    set (d1 := (z1 / 10 ^ Z.of_nat n) mod 10) in *.
    set (d2 := (z2 / 10 ^ Z.of_nat n) mod 10) in *.
    destruct (Z.lt_trichotomy d1 d2) as [Hlt|[Heq|Hgt]].
    + by apply digit_lt; try lia.
    + rewrite Heq in *. cbn [slt]. rewrite decide_True by done. apply IH. lia.
    + exfalso. nia.
Qed.

Lemma fmt_int_lt w z1 z2 a b :
  (1 <= w)%nat -> 0 <= z1 -> z1 < z2 -> z2 < 10 ^ Z.of_nat w ->
  slt (fmt_int w z1 +:+ a) (fmt_int w z2 +:+ b) = true.
Proof.
  intros. rewrite !fmt_int_nonneg by lia. apply fixed_digits_lt.
  rewrite !Z.mod_small by lia. done.
Qed.

(** ** Name spaces *)

(** Every prefix under which the engine stores rows. *)
Definition key_prefixes : list bytes :=
  [MetadataPrefix; VersionHWMKey; AccessBucketPrefix; AccessBucketIndexPrefix;
   CompactionIndexPrefix; SyncIndexPrefix; DeletionQueuePrefix; DeleteIndexPrefix;
   FifoIndexPrefix; FifoBackrefPrefix].

Lemma has_prefix_comparable p q s :
  has_prefix p s = true -> has_prefix q s = true ->
  has_prefix p q || has_prefix q p = true.
Proof.
  revert q s. induction p as [|x p IH]; intros [|y q] [|z s]; simpl; try done.
  intros [->%bool_decide_eq_true Hp]%andb_true_iff [->%bool_decide_eq_true Hq]%andb_true_iff.
  rewrite bool_decide_true by done. simpl. eauto.
Qed.

(** Two keys under incomparable prefixes differ. *)
Lemma key_space_ne p q a b :
  has_prefix p a = true -> has_prefix q b = true ->
  has_prefix p q || has_prefix q p = false -> a <> b.
Proof. intros Ha Hb Hpq ->. rewrite (has_prefix_comparable p q b) in Hpq; done. Qed.

Lemma MakeMetadataKey_inj a b : MakeMetadataKey a = MakeMetadataKey b -> a = b.
Proof. apply String.app_inj. Qed.

Lemma ExtractUserKey_Make k : ExtractUserKey (MakeMetadataKey k) = k.
Proof. unfold ExtractUserKey, MakeMetadataKey. by rewrite has_prefix_app, sdrop_app. Qed.

Lemma IsMetadataKey_Make k : IsMetadataKey (MakeMetadataKey k) = true.
Proof. apply has_prefix_app. Qed.

Lemma IsMetadataKey_inv s : IsMetadataKey s = true -> s = MakeMetadataKey (ExtractUserKey s).
Proof.
  unfold IsMetadataKey, ExtractUserKey. intros H. rewrite H.
  apply has_prefix_true in H as [t ->]. by rewrite sdrop_app.
Qed.

#[export] Hint Rewrite ExtractUserKey_Make : ocache_str.

(** Solves [k1 <> k2] for keys built by constructors of different name spaces. *)
Ltac key_ne :=
  unfold MakeMetadataKey, MakeDeleteIndexKey, MakeDeletionQueueKey, MakeFifoIndexKey,
    MakeFifoBackrefKey, MakeBucketedAccessIndexKey, MakeBucketedAccessKey,
    GetBucketedAccessKey, MakeCompactionKey, MakeSyncKey;
  rewrite ?sapp_assoc;
  first [ eapply key_space_ne; [apply has_prefix_app | apply has_prefix_app | reflexivity]
        | eapply key_space_ne; [apply has_prefix_app | | reflexivity]; reflexivity
        | eapply key_space_ne; [| apply has_prefix_app | reflexivity]; reflexivity ].

(** ** Properties *)

(** the key name spaces are pairwise disjoint. No byte string is recognised
    by the prefixes of two different roles, so a scan over one role's prefix never
    meets a row of another role, and writes to one never touch another. *)
Theorem key_spaces_disjoint p q s :
  p ∈ key_prefixes -> q ∈ key_prefixes ->
  has_prefix p s = true -> has_prefix q s = true -> p = q.
Proof.
  intros Hp Hq Hps Hqs.
  assert (Forall (fun p => Forall (fun q =>
    has_prefix p q || has_prefix q p = true -> p = q) key_prefixes) key_prefixes) as HF.
  { apply (bool_decide_unpack _). vm_compute. exact I. }
  rewrite Forall_forall in HF. specialize (HF p Hp). rewrite Forall_forall in HF.
  eapply HF; [done|]. by eapply has_prefix_comparable.
Qed.

Lemma key_spaces_disjoint_witness :
  has_prefix FifoIndexPrefix (MakeFifoIndexKey "k" 5) = true /\ FifoIndexPrefix = FifoIndexPrefix.
Proof.
  split; [reflexivity|].
  apply (key_spaces_disjoint FifoIndexPrefix FifoIndexPrefix (MakeFifoIndexKey "k" 5));
    [unfold key_prefixes; set_solver | unfold key_prefixes; set_solver | reflexivity | reflexivity].
Defined.

Lemma is_i64_width20 ts : is_i64 ts -> - 10 ^ Z.of_nat (20 - 1) < ts < 10 ^ Z.of_nat 20.
Proof. unfold is_i64, two63. simpl Z.of_nat. intros. split; nia. Qed.

Lemma deletion_queue_key_parse ts path :
  is_i64 ts -> ParseDeletionQueueKey (MakeDeletionQueueKey ts path) = inr (ts, path).
Proof.
  intros Hts. unfold ParseDeletionQueueKey, MakeDeletionQueueKey.
  rewrite has_prefix_app. cbn [negb]. rewrite sdrop_app.
  rewrite split2_app by (by apply fmt_int_index).
  rewrite <- (sapp_nil_r (fmt_int 20 ts)), sscan_fmt_int; auto using is_i64_width20; lia.
Qed.

Lemma sync_key_parse ts path :
  is_i64 ts -> ParseSyncKey (MakeSyncKey ts path) = inr (ts, path).
Proof.
  intros Hts. unfold ParseSyncKey, MakeSyncKey.
  rewrite has_prefix_app. cbn [negb]. rewrite sdrop_app.
  rewrite split2_app by (by apply fmt_int_index).
  rewrite <- (sapp_nil_r (fmt_int 20 ts)), sscan_fmt_int; auto using is_i64_width20; lia.
Qed.

Lemma compaction_row_parse ts key path :
  ParseCompactionIndexRow (MakeCompactionKey ts key) path = (key, path, true).
Proof.
  unfold ParseCompactionIndexRow, MakeCompactionKey. rewrite <- sapp_assoc.
  rewrite index_byte_app.
  - rewrite sdrop_app_cons. reflexivity.
  - change ("!compact/" +:+ fmt_int 20 ts) with
      (String "!" (String "c" (String "o" (String "m" (String "p" (String "a" (String "c"
        (String "t" (String "/" (fmt_int 20 ts)))))))))).
    cbn [index_byte]. rewrite !decide_False by done. by rewrite fmt_int_index.
Qed.

(** A non-negative int64 in nanoseconds is rendered on exactly 19 digits. *)
Lemma fmt_nanos t : 0 <= t < two63 ->
  fmt_int 19 t = fixed_digits 19 t /\ 0 <= t < 10 ^ Z.of_nat 19.
Proof. unfold two63. intros. split; [apply fmt_int_nonneg|]; simpl Z.of_nat; lia. Qed.

Lemma sscan_nanos t : 0 <= t < two63 -> sscan_int 19 (fixed_digits 19 t) = Some t.
Proof.
  intros Ht. destruct (fmt_nanos t Ht) as [<- Hb].
  rewrite <- (sapp_nil_r (fmt_int 19 t)).
  apply sscan_fmt_int; [lia| |unfold is_i64; lia]. pose proof (pow10_pos (19 - 1)). lia.
Qed.

Lemma fifo_key_parse key t :
  0 <= t < two63 ->
  ParseFifoIndexKey (MakeFifoIndexKey key t) = inr key
  /\ ParseFifoIndexTime (MakeFifoIndexKey key t) = inr t.
Proof.
  intros Ht. destruct (fmt_nanos t Ht) as [E _].
  unfold ParseFifoIndexKey, ParseFifoIndexTime, MakeFifoIndexKey. rewrite E.
  set (D := fixed_digits 19 t).
  assert (String.length D = 19%nat) as HD by apply fixed_digits_length.
  rewrite !stake_app, !sdrop_app, !slength_app, HD.
  rewrite (bool_decide_false (FifoIndexPrefix <> FifoIndexPrefix)) by naive_solver.
  rewrite sget_app_r. rewrite <- HD, stake_app. rewrite HD.
  assert (sget 19 (D +:+ String "/" key) = Some "/"%char) as ->.
  { rewrite <- HD. rewrite <- (Nat.add_0_r (String.length D)), sget_app_r. done. }
  rewrite !(bool_decide_false (Some "/"%char <> Some "/"%char)) by naive_solver.
  split.
  - destruct (Nat.ltb_spec (String.length FifoIndexPrefix + (19 + String.length (String "/" key)))
      (String.length FifoIndexPrefix)); [lia|].
    destruct (Nat.ltb_spec (19 + String.length (String "/" key)) 20); [simpl in *; lia|].
    cbn [orb]. reflexivity.
  - destruct (Nat.ltb_spec (String.length FifoIndexPrefix + (19 + String.length (String "/" key)))
      (String.length FifoIndexPrefix + 20)); [simpl in *; lia|].
    cbn [orb]. unfold D. by rewrite sscan_nanos.
Qed.

Lemma format_bucket_length tz t : String.length (format_bucket tz t) = 10%nat.
Proof. unfold format_bucket. by rewrite !slength_app, !fixed_digits_length. Qed.

Lemma bucketed_key_parse tz key t :
  0 <= t < two63 ->
  ParseBucketedAccessKey (MakeBucketedAccessKey tz key t) = inr (key, t)
  /\ ExtractAccessBucketFromKey (MakeBucketedAccessKey tz key t) = GetBucketedAccessKey tz t.
Proof.
  intros Ht. destruct (fmt_nanos t Ht) as [E _].
  unfold ParseBucketedAccessKey, ExtractAccessBucketFromKey, MakeBucketedAccessKey,
    GetBucketedAccessKey. rewrite E.
  set (D := fixed_digits 19 t).
  assert (String.length D = 19%nat) as HD by apply fixed_digits_length.
  set (B := format_bucket tz t +:+ "/").
  assert (String.length B = 11%nat) as HB by (unfold B; by rewrite slength_app, format_bucket_length).
  rewrite !sapp_assoc. fold B. rewrite <- (sapp_assoc AccessBucketPrefix B).
  rewrite !slength_app, HB, HD.
  rewrite sapp_assoc, sdrop_app, !slength_app, HD, HB.
  assert (sdrop 11 (B +:+ (D +:+ String "/" key)) = D +:+ String "/" key) as ->
    by (rewrite <- HB; apply sdrop_app).
  rewrite slength_app, HD.
  assert (stake 19 (D +:+ String "/" key) = D) as -> by (rewrite <- HD; apply stake_app).
  assert (sdrop 20 (D +:+ String "/" key) = key) as -> by (rewrite <- HD; apply sdrop_app_cons).
  split.
  - repeat match goal with |- context [Nat.ltb ?a ?b] =>
      destruct (Nat.ltb_spec a b); [simpl in *; lia|] end.
    unfold D. by rewrite sscan_nanos.
  - repeat match goal with |- context [Nat.ltb ?a ?b] =>
      destruct (Nat.ltb_spec a b); [simpl in *; lia|] end.
    rewrite <- HB, <- slength_app, <- sapp_assoc. apply stake_app.
Qed.

(** Every key constructor is inverted by its parser. User keys, file paths and
    timestamps survive the trip through the database key unchanged, for any
    bytes in the key or path (including '/' and '|') and any timestamp the
    engine issues. *)
Theorem key_roundtrips tz ts t key path :
  is_i64 ts -> 0 <= t < two63 ->
  ExtractUserKey (MakeMetadataKey key) = key
  /\ ParseCompactionIndexRow (MakeCompactionKey ts key) path = (key, path, true)
  /\ ParseSyncKey (MakeSyncKey ts path) = inr (ts, path)
  /\ ParseDeletionQueueKey (MakeDeletionQueueKey ts path) = inr (ts, path)
  /\ ExtractSegmentPath (MakeDeleteIndexKey path) = path
  /\ ParseFifoIndexKey (MakeFifoIndexKey key t) = inr key
  /\ ParseFifoIndexTime (MakeFifoIndexKey key t) = inr t
  /\ ParseBucketedAccessKey (MakeBucketedAccessKey tz key t) = inr (key, t)
  /\ ExtractAccessBucketFromKey (MakeBucketedAccessKey tz key t) = GetBucketedAccessKey tz t.
Proof.
  intros Hts Ht. destruct (fifo_key_parse key t Ht), (bucketed_key_parse tz key t Ht).
  split_and!; auto using ExtractUserKey_Make, compaction_row_parse, sync_key_parse,
    deletion_queue_key_parse.
Qed.

Lemma key_roundtrips_witness :
  ParseDeletionQueueKey (MakeDeletionQueueKey (-5) "files/a|b") = inr (-5, "files/a|b").
Proof.
  apply (key_roundtrips (fun _ => 0) (-5) 1700000000000000000 "k" "files/a|b");
    unfold is_i64, two63; lia.
Defined.

(** *** Order of timestamped keys *)

(** Year of the era and day of the (March-based) year, as [civil_from_days]
    computes them. *)
Definition yoe_of (doe : Z) : Z := (doe - doe / 1460 + doe / 36524 - doe / 146096) / 365.
Definition doy_of (doe : Z) : Z :=
  doe - (365 * yoe_of doe + yoe_of doe / 4 - yoe_of doe / 100).

Lemma doy_range doe : 0 <= doe < 146097 -> 0 <= doy_of doe <= 365.
Proof. unfold doy_of, yoe_of. intros. Z.div_mod_to_equations. lia. Qed.

Lemma yoe_range doe : 0 <= doe < 146097 -> 0 <= yoe_of doe <= 399.
Proof. unfold yoe_of. intros. Z.div_mod_to_equations. lia. Qed.

Lemma yoe_mono d1 d2 : 0 <= d1 -> d1 < d2 -> d2 < 146097 -> yoe_of d1 <= yoe_of d2.
Proof. unfold yoe_of. intros. Z.div_mod_to_equations. lia. Qed.

Lemma doy_mono d1 d2 : yoe_of d1 = yoe_of d2 -> d1 < d2 -> doy_of d1 < doy_of d2.
Proof. unfold doy_of. intros ->. lia. Qed.

(** [(y, m, d)] before [(y', m', d')] in the calendar. *)
Definition date_lt (a b : Z * Z * Z) : Prop :=
  let '(y, m, d) := a in let '(y', m', d') := b in
  y < y' \/ (y = y' /\ (m < m' \/ (m = m' /\ d < d'))).

Lemma civil_range days :
  0 <= days + 719468 -> let '(y, m, d) := civil_from_days days in
  1 <= m <= 12 /\ 1 <= d <= 31 /\ 0 <= y.
Proof.
  intros Hd. unfold civil_from_days. cbv zeta.
  set (era := (days + 719468) / 146097). set (doe := (days + 719468) mod 146097).
  assert (0 <= doe < 146097) as Hdoe by (apply Z.mod_pos_bound; lia).
  assert (0 <= era) by (apply Z.div_pos; lia).
  pose proof (doy_range doe Hdoe) as Hdoy. pose proof (yoe_range doe Hdoe) as Hyoe.
  unfold doy_of in Hdoy. fold (yoe_of doe).
  set (doy := doe - (365 * yoe_of doe + yoe_of doe / 4 - yoe_of doe / 100)) in *.
  clearbody doy era. destruct ((5 * doy + 2) / 153 <? 10) eqn:E; bool_facts;
    [destruct ((5 * doy + 2) / 153 + 3 <=? 2) eqn:E2
    |destruct ((5 * doy + 2) / 153 - 9 <=? 2) eqn:E2]; bool_facts;
    Z.div_mod_to_equations; lia.
Qed.

Lemma civil_mono d1 d2 : d1 < d2 -> date_lt (civil_from_days d1) (civil_from_days d2).
Proof.
  intros Hlt. unfold civil_from_days. cbv zeta.
  set (era1 := (d1 + 719468) / 146097). set (doe1 := (d1 + 719468) mod 146097).
  set (era2 := (d2 + 719468) / 146097). set (doe2 := (d2 + 719468) mod 146097).
  assert (0 <= doe1 < 146097) as H1 by (apply Z.mod_pos_bound; lia).
  assert (0 <= doe2 < 146097) as H2 by (apply Z.mod_pos_bound; lia).
  assert (era1 < era2 \/ (era1 = era2 /\ doe1 < doe2)) as Hera.
  { unfold era1, era2, doe1, doe2. Z.div_mod_to_equations. lia. }
  pose proof (doy_range doe1 H1). pose proof (doy_range doe2 H2).
  pose proof (yoe_range doe1 H1). pose proof (yoe_range doe2 H2).
  assert (era1 * 400 + yoe_of doe1 < era2 * 400 + yoe_of doe2
    \/ (era1 * 400 + yoe_of doe1 = era2 * 400 + yoe_of doe2 /\ doy_of doe1 < doy_of doe2)) as Hyd.
  { destruct Hera as [|[-> Hdoe]]; [left; lia|].
    pose proof (yoe_mono doe1 doe2 ltac:(lia) Hdoe ltac:(lia)).
    destruct (decide (yoe_of doe1 = yoe_of doe2)) as [E|]; [|left; lia].
    right. split; [lia|]. by apply doy_mono. }
  fold (yoe_of doe1) (yoe_of doe2). fold (doy_of doe1) (doy_of doe2).
  generalize dependent (doy_of doe1). generalize dependent (doy_of doe2).
  generalize dependent (yoe_of doe1). generalize dependent (yoe_of doe2).
  clearbody era1 era2. intros y2 Hy2 y1 Hy1 n2 Hn2 n1 Hn1 Hyd. unfold date_lt.
  repeat match goal with
  | |- context [?a <? ?b] => destruct (Z.ltb_spec a b)
  | |- context [?a <=? ?b] => destruct (Z.leb_spec a b)
  end; Z.div_mod_to_equations; lia.
Qed.

Lemma fixed_digits_lex n z1 z2 a b :
  0 <= z1 -> 0 <= z2 < 10 ^ Z.of_nat n ->
  z1 < z2 \/ (z1 = z2 /\ slt a b = true) ->
  slt (fixed_digits n z1 +:+ a) (fixed_digits n z2 +:+ b) = true.
Proof.
  intros Hz1 Hz2 [Hlt|[-> Hlt]].
  - apply fixed_digits_lt. rewrite !Z.mod_small; lia.
  - by rewrite slt_app_l.
Qed.

(** Under a fixed UTC offset the bucket of a later instant never sorts earlier. *)
Lemma format_bucket_lex tz0 t1 t2 a b :
  0 <= t1 -> t1 < t2 -> t2 < two63 -> - 86400 <= tz0 <= 86400 ->
  slt a b = true ->
  slt (format_bucket (fun _ => tz0) t1 +:+ a) (format_bucket (fun _ => tz0) t2 +:+ b) = true.
Proof.
  intros H1 Hlt H2 Htz Hab. unfold format_bucket, civil_of_unix. cbv zeta.
  set (s1 := t1 / 1000000000 + tz0). set (s2 := t2 / 1000000000 + tz0).
  assert (s1 <= s2 /\ -86400 <= s1 /\ s2 <= 9300000000) as (Hs & Hs1 & Hs2).
  { unfold s1, s2, two63 in *. Z.div_mod_to_equations. lia. }
  clearbody s1 s2.
  assert (s1 / 86400 <= s2 / 86400) as Hd by (apply Z.div_le_mono; lia).
  pose proof (civil_range (s1 / 86400)) as R1. pose proof (civil_range (s2 / 86400)) as R2.
  assert (s2 / 86400 < s1 / 86400 + 1 -> (s1 mod 86400) / 3600 <= (s2 mod 86400) / 3600) as Hh.
  { intros. apply Z.div_le_mono; [lia|]. Z.div_mod_to_equations. lia. }
  assert (0 <= (s1 mod 86400) / 3600 < 24 /\ 0 <= (s2 mod 86400) / 3600 < 24) as [Hh1 Hh2].
  { Z.div_mod_to_equations. lia. }
  assert (date_lt (civil_from_days (s2 / 86400)) (civil_from_days (150000))) as HY.
  { apply civil_mono. Z.div_mod_to_equations. lia. }
  change (civil_from_days 150000) with (2380, 9, 8) in HY.
  assert (civil_from_days (s1 / 86400) = civil_from_days (s2 / 86400)
    /\ (s1 mod 86400) / 3600 <= (s2 mod 86400) / 3600
    \/ date_lt (civil_from_days (s1 / 86400)) (civil_from_days (s2 / 86400))) as Hcase.
  { destruct (decide (s1 / 86400 = s2 / 86400)) as [E|].
    - left. rewrite E. split; [done|]. apply Hh. lia.
    - right. apply civil_mono. lia. }
  destruct (civil_from_days (s1 / 86400)) as [[y1 m1] d1],
    (civil_from_days (s2 / 86400)) as [[y2 m2] d2]. cbn [year month day hour].
  destruct R1 as (?&?&?), R2 as (?&?&?); [Z.div_mod_to_equations; lia..|].
  rewrite !sapp_assoc. unfold date_lt in *.
  set (h1 := (s1 mod 86400) / 3600) in *. set (h2 := (s2 mod 86400) / 3600) in *.
  clearbody h1 h2. clear Hh Hd.
  apply fixed_digits_lex; [lia | simpl Z.of_nat; lia |].
  destruct (decide (y1 = y2)) as [->|]; [right; split; [done|]|left; naive_solver lia].
  apply fixed_digits_lex; [lia | simpl Z.of_nat; lia |].
  destruct (decide (m1 = m2)) as [->|]; [right; split; [done|]|left; naive_solver lia].
  apply fixed_digits_lex; [lia | simpl Z.of_nat; lia |].
  destruct (decide (d1 = d2)) as [->|]; [right; split; [done|]|left; naive_solver lia].
  apply fixed_digits_lex; [lia | simpl Z.of_nat; lia |].
  destruct (decide (h1 = h2)) as [->|]; [right; done|left; naive_solver lia].
Qed.

(** keys of the timestamped indexes sort by time. Under the byte order RocksDB
    iterates in, a deletion-queue entry, a FIFO eviction entry and (under a fixed
    UTC offset) an LRU access-bucket entry of an earlier instant come before those
    of a later one, whatever the file path or user key. *)
Theorem timestamped_keys_ordered tz0 t1 t2 k1 k2 :
  0 <= t1 -> t1 < t2 -> t2 < two63 -> - 86400 <= tz0 <= 86400 ->
  slt (MakeDeletionQueueKey t1 k1) (MakeDeletionQueueKey t2 k2) = true
  /\ slt (MakeFifoIndexKey k1 t1) (MakeFifoIndexKey k2 t2) = true
  /\ slt (MakeBucketedAccessKey (fun _ => tz0) k1 t1) (MakeBucketedAccessKey (fun _ => tz0) k2 t2) = true.
Proof.
  intros H1 Hlt H2 Htz.
  unfold MakeDeletionQueueKey, MakeFifoIndexKey, MakeBucketedAccessKey, GetBucketedAccessKey.
  rewrite !sapp_assoc, !slt_app_l. unfold two63 in H2.
  split_and!.
  - apply fmt_int_lt; simpl Z.of_nat; lia.
  - apply fmt_int_lt; simpl Z.of_nat; lia.
  - apply format_bucket_lex; try done. rewrite slt_app_l.
    apply fmt_int_lt; simpl Z.of_nat; lia.
Qed.

Lemma timestamped_keys_ordered_witness :
  slt (MakeFifoIndexKey "z" 9) (MakeFifoIndexKey "a" 10) = true.
Proof. apply (timestamped_keys_ordered 0 9 10 "z" "a"); unfold two63; lia. Defined.
