(* ===== verification/Errors.v ===== *)
(** * Storage errors (storage/errors/errors.go, storage/errors/cas.go)

    Go error values with their [Unwrap] chains, the constructors the engine
    uses, and the classification predicates ([errors.As] / [errors.Is] walks)
    that retry loops and callers branch on. *)

From S2P Require Import Prelude Keys.

Open Scope Z_scope.

Inductive ErrorType :=
  | TypeNotFound
  | TypeInvalidRequest
  | TypeStorageFull
  | TypeCorruption
  | TypeTemporary
  | TypeIO
  | TypeLock
  | TypeTimeout
  | TypeInternal.

#[export] Instance ErrorType_eq_dec : EqDecision ErrorType.
Proof. solve_decision. Defined.

(** Sentinel error variables, compared by identity. *)
Inductive sentinel :=
  | ErrOverBudget      (** errors.go *)
  | ErrFileLocked      (** files/manager.go *)
  | OsErrNotExist      (** os.ErrNotExist *)
  | ContextCanceled    (** context.Canceled *)
  | IoErrUnexpectedEOF (** io.ErrUnexpectedEOF *)
  | ErrMetadataNotFound | ErrAlreadyCompacted | ErrNotRawFile | ErrFilePathMismatch
  | ErrFileNotExist.   (** utils/errors.go *)

#[export] Instance sentinel_eq_dec : EqDecision sentinel.
Proof. solve_decision. Defined.

(** [syscall.Errno], as far as the engine tells its values apart. *)
Inductive Errno := ENOENT | EACCES | EPERM | ENOSPC | EIO | EROFS | EBADF | EINVAL | EFBIG.

#[export] Instance Errno_eq_dec : EqDecision Errno.
Proof. solve_decision. Defined.

(** A Go error value: a [*StorageError], a [*VersionMismatchError], a sentinel,
    an [*os.PathError] around an errno, an error that wraps another
    ([fmt.Errorf("...%w")]) or an error known only by its text. *)
Inductive error :=
  | EStorage (Type_ : ErrorType) (Op Key Message : bytes) (Retryable : bool)
      (underlying : option error)
  | EVersionMismatch (Op Key : bytes) (CurrentVersion : Z)
  | ESentinel (s : sentinel)
  | EPathError (Op Path : bytes) (errno : Errno)
  | EWrap (msg : bytes) (err : error)
  | EText (msg : bytes).

(** [Error()] of the two structured errors; [%d] of a uint64 is [fmt_int 1]. *)
Definition sentinel_text (s : sentinel) : bytes :=
  match s with
  | ErrOverBudget => "store over disk shed ratio"
  | ErrFileLocked => "file is locked for reading"
  | OsErrNotExist => "file does not exist"
  | ContextCanceled => "context canceled"
  | IoErrUnexpectedEOF => "unexpected EOF"
  | ErrMetadataNotFound => "metadata not found"
  | ErrAlreadyCompacted => "already compacted"
  | ErrNotRawFile => "not raw file"
  | ErrFilePathMismatch => "file path mismatch"
  | ErrFileNotExist => "file does not exist"
  end.

Definition errno_text (e : Errno) : bytes :=
  match e with
  | ENOENT => "no such file or directory"
  | EACCES => "permission denied"
  | EPERM => "operation not permitted"
  | ENOSPC => "no space left on device"
  | EIO => "input/output error"
  | EROFS => "read-only file system"
  | EBADF => "bad file descriptor"
  | EINVAL => "invalid argument"
  | EFBIG => "file too large"
  end.

Fixpoint Error (e : error) : bytes :=
  match e with
  | EStorage _ op key msg _ _ =>
      if decide (key <> EmptyString)
      then op +:+ " " +:+ key +:+ ": " +:+ msg
      else op +:+ ": " +:+ msg
  | EVersionMismatch op key v =>
      op +:+ " " +:+ key +:+ ": version mismatch (current version " +:+ fmt_int 1 v +:+ ")"
  | ESentinel s => sentinel_text s
  | EPathError op path errno => op +:+ " " +:+ path +:+ ": " +:+ errno_text errno
  | EWrap msg err => msg +:+ ": " +:+ Error err
  | EText msg => msg
  end.

(** [(e *StorageError).Unwrap] and the unwrapping of wrapped errors. *)
Definition Unwrap (e : error) : option error :=
  match e with
  | EStorage _ _ _ _ _ underlying => underlying
  | EWrap _ err => Some err
  | EVersionMismatch _ _ _ | ESentinel _ | EPathError _ _ _ | EText _ => None
  end.

(** [errors.As(err, &storageErr)]: the first [*StorageError] of the chain, as its
    type and retryable flag. *)
Fixpoint as_storage (e : error) : option (ErrorType * bool) :=
  match e with
  | EStorage ty _ _ _ r _ => Some (ty, r)
  | EWrap _ err => as_storage err
  | EVersionMismatch _ _ _ | ESentinel _ | EPathError _ _ _ | EText _ => None
  end.

(** [errors.Is(err, target)] for a sentinel target; the chain of an
    [*os.PathError] ends in its errno, whose [Is] knows [os.ErrNotExist]. *)
Fixpoint errors_Is (e : error) (target : sentinel) : bool :=
  match e with
  | ESentinel s => bool_decide (s = target)
  | EPathError _ _ errno => bool_decide (target = OsErrNotExist /\ errno = ENOENT)
  | EStorage _ _ _ _ _ (Some u) => errors_Is u target
  | EWrap _ err => errors_Is err target
  | _ => false
  end.

(** ** Constructors *)

Definition NewNotFoundError (op key : bytes) : error :=
  EStorage TypeNotFound op key "key not found" false None.

Definition NewInvalidRequestError (op message : bytes) : error :=
  EStorage TypeInvalidRequest op EmptyString message false None.

Definition NewStorageFullError (op : bytes) (underlying : error) : error :=
  EStorage TypeStorageFull op EmptyString "storage capacity exceeded" false (Some underlying).

Definition NewOverBudgetError (op : bytes) : error :=
  NewStorageFullError op (ESentinel ErrOverBudget).

Definition IsOverBudget (err : error) : bool := errors_Is err ErrOverBudget.

Definition NewCorruptionError (op key : bytes) (underlying : error) : error :=
  EStorage TypeCorruption op key "data corruption detected" false (Some underlying).

Definition NewTemporaryError (op key : bytes) (underlying : error) : error :=
  EStorage TypeTemporary op key "temporary storage error" true (Some underlying).

Definition NewIOError (op key : bytes) (underlying : error) : error :=
  EStorage TypeIO op key "storage I/O error" false (Some underlying).

Definition NewIORetryableError (op key : bytes) (underlying : error) : error :=
  EStorage TypeIO op key "storage I/O error" true (Some underlying).

Definition NewLockError (op key : bytes) (underlying : error) : error :=
  EStorage TypeLock op key "resource is temporarily locked" true (Some underlying).

Definition NewTimeoutError (op key : bytes) : error :=
  EStorage TypeTimeout op key "operation timed out" true None.

Definition NewInternalError (op : bytes) (underlying : error) : error :=
  EStorage TypeInternal op EmptyString "internal storage error" false (Some underlying).

Definition NewVersionMismatchError (op key : bytes) (current : Z) : error :=
  EVersionMismatch op key current.

(** ** Classification *)

Definition has_type (ty : ErrorType) (err : error) : bool :=
  match as_storage err with Some (t, _) => bool_decide (t = ty) | None => false end.

Definition IsNotFound (err : error) : bool := has_type TypeNotFound err.
Definition IsStorageFull (err : error) : bool := has_type TypeStorageFull err.
Definition IsCorruption (err : error) : bool := has_type TypeCorruption err.
Definition IsTimeout (err : error) : bool := has_type TypeTimeout err.

Definition IsRetryable (err : error) : bool :=
  match as_storage err with Some (_, r) => r | None => false end.

Definition GetType (err : error) : ErrorType * bool :=
  match as_storage err with Some (t, _) => (t, true) | None => (TypeInternal, false) end.

(** [errors.As] for [*VersionMismatchError]; the walk passes through the
    [Unwrap] of a [*StorageError]. *)
Fixpoint IsVersionMismatch (err : error) : option Z :=
  match err with
  | EVersionMismatch _ _ v => Some v
  | EStorage _ _ _ _ _ (Some u) => IsVersionMismatch u
  | EWrap _ e => IsVersionMismatch e
  | _ => None
  end.

(** [os.IsNotExist] and [os.IsPermission]: unlike [errors.Is] they look inside an
    [*os.PathError] but not inside a [fmt.Errorf] wrapper. *)
Definition os_IsNotExist (err : error) : bool :=
  match err with
  | EPathError _ _ errno => bool_decide (errno = ENOENT)
  | ESentinel s => bool_decide (s = OsErrNotExist)
  | _ => false
  end.

Definition os_IsPermission (err : error) : bool :=
  match err with
  | EPathError _ _ errno => bool_decide (errno = EACCES \/ errno = EPERM)
  | _ => false
  end.

(** [isNoSpaceError] of storage.go: a type assertion on the error itself. *)
Definition isNoSpaceError (err : error) : bool :=
  match err with
  | EPathError _ _ errno => bool_decide (errno = ENOSPC)
  | _ => false
  end.

(** [utils.WrapError]. *)
Definition WrapError (op path : bytes) (err : error) : error :=
  EWrap (op +:+ " " +:+ path) err.

(** [mapRocksDBError] of storage.go; [err] is the non-nil RocksDB error. *)
Definition mapRocksDBError (op key : bytes) (err : error) : error :=
  let errStr := Error err in
  if decide (errStr = "rocksdb: not found") then NewNotFoundError op key
  else if decide (errStr = "rocksdb: corruption") then NewCorruptionError op key err
  else if decide (errStr = "rocksdb: io error") then NewIOError op key err
  else NewTemporaryError op key err.

(** [casStatus] of cas.go: the metrics label of an outcome ([None] is nil). *)
Definition casStatus (err : option error) : bytes :=
  match err with
  | None => "success"
  | Some e => match IsVersionMismatch e with Some _ => "mismatch" | None => "error" end
  end.

(** ** Properties *)

(** What a caller may retry. Of the errors the engine builds, exactly the
    temporary, lock, timeout and retryable I/O ones are retryable; wrapping an error
    in more context does not change the answer, and a lost compare-and-swap is
    never retryable and is still recognised with its current version through
    wrapping. *)
Theorem retryable_classification op key msg u cur ctx :
  IsRetryable (NewTemporaryError op key u) = true
  /\ IsRetryable (NewLockError op key u) = true
  /\ IsRetryable (NewTimeoutError op key) = true
  /\ IsRetryable (NewIORetryableError op key u) = true
  /\ IsRetryable (NewNotFoundError op key) = false
  /\ IsRetryable (NewInvalidRequestError op msg) = false
  /\ IsRetryable (NewStorageFullError op u) = false
  /\ IsRetryable (NewCorruptionError op key u) = false
  /\ IsRetryable (NewIOError op key u) = false
  /\ IsRetryable (NewInternalError op u) = false
  /\ IsOverBudget (EWrap ctx (NewOverBudgetError op)) = true
  /\ IsRetryable (EWrap ctx u) = IsRetryable u
  /\ IsRetryable (EWrap ctx (NewVersionMismatchError op key cur)) = false
  /\ IsVersionMismatch (EWrap ctx (NewVersionMismatchError op key cur)) = Some cur
  /\ GetType (mapRocksDBError op key (EText msg)) <> (TypeTimeout, true)
  /\ (IsRetryable (mapRocksDBError op key (EText msg)) = true <->
        msg <> "rocksdb: not found" /\ msg <> "rocksdb: corruption" /\ msg <> "rocksdb: io error").
Proof.
  split_and!; try reflexivity.
  - unfold mapRocksDBError. cbn [Error]. by repeat case_decide.
  - unfold mapRocksDBError. cbn [Error]. repeat case_decide; subst; cbn; naive_solver.
Qed.
