(* ===== verification/Retry.v ===== *)
(** * Retry with exponential backoff (storage/retry/retry.go)

    The retried operation is an arbitrary state transformer that returns a Go
    error; the two [select]s on the context and the random jitter are parameters
    indexed by the attempt. Durations are int64 nanoseconds; the float factors of
    the configuration are rationals (exact for the dyadic multipliers 2.0 and 1.5
    and delays below 2^53 ns, which covers both configurations). *)

From S2P Require Import Prelude Keys Errors.

Open Scope Z_scope.

Record frac := Frac { num : Z; den : Z }.

(** [time.Duration(float64(d) * f)]: truncation toward zero. *)
Definition scale (f : frac) (d : Z) : Z := Z.quot (d * num f) (den f).

Record Config := MkConfig {
  InitialDelay : Z;
  MaxDelay : Z;
  MaxRetries : Z;
  Multiplier : frac;
  JitterFactor : frac
}.

Definition Millisecond : Z := 1000000.
Definition Second : Z := 1000000000.

Definition DefaultConfig : Config :=
  MkConfig (100 * Millisecond) (10 * Second) 5 (Frac 2 1) (Frac 1 10).

Definition FastConfig : Config :=
  MkConfig (10 * Millisecond) (1 * Second) 10 (Frac 3 2) (Frac 1 5).

(** One draw of the jitter: [rand.Float64()] as a fraction in [0, 1) and
    [rand.Intn(2) == 0]. *)
Record draw := Draw { rand_float : frac; rand_plus : bool }.

Definition calculateDelay (currentDelay maxDelay : Z) (multiplier jitterFactor : frac)
    (r : draw) : Z :=
  let nextDelay := scale multiplier currentDelay in
  let nextDelay := if nextDelay >? maxDelay then maxDelay else nextDelay in
  if 0 <? num jitterFactor then
    let jitter := scale (Frac (num (rand_float r) * num jitterFactor)
                              (den (rand_float r) * den jitterFactor)) nextDelay in
    let nextDelay := if rand_plus r then nextDelay + jitter else nextDelay - jitter in
    if nextDelay <? 0 then Millisecond else nextDelay
  else nextDelay.

Section Do.

Context {St : Type} (fn : ST St (option error)).
(** Which branch the [select] before attempt [i], and the one during the backoff
    after attempt [i], take: [true] is [ctx.Done()]. *)
Context (done_before done_wait : nat -> bool).
(** The jitter drawn after attempt [i]. *)
Context (rnd : nat -> draw).

(** The loop [for attempt := 0; attempt <= cfg.MaxRetries; attempt++]; [rem] is
    the number of iterations the bound still allows. *)
Fixpoint do_loop (cfg : Config) (op key : bytes) (rem : nat) (attempt : nat) (delay : Z)
    (lastErr : option error) : ST St (option error) := fun s =>
  match rem with
  | O => (lastErr, s)
  | S rem =>
      if done_before attempt then (Some (NewTimeoutError op key), s)
      else
        let '(err, s) := fn s in
        match err with
        | None => (None, s)
        | Some e =>
            if negb (IsRetryable e) then (Some e, s)
            else if Z.of_nat attempt =? MaxRetries cfg then (Some e, s)
            else
              let nextDelay := calculateDelay delay (MaxDelay cfg) (Multiplier cfg)
                                 (JitterFactor cfg) (rnd attempt) in
              if done_wait attempt then (Some (NewTimeoutError op key), s)
              else do_loop cfg op key rem (S attempt) nextDelay (Some e) s
        end
  end.

Definition DoWithKey (cfg : Config) (op key : bytes) : ST St (option error) :=
  do_loop cfg op key (Z.to_nat (MaxRetries cfg + 1)) 0 (InitialDelay cfg) None.

Definition Do (cfg : Config) (op : bytes) : ST St (option error) :=
  DoWithKey cfg op EmptyString.

(** The errors [n] successive runs of [fn] return, and the state after them. *)
Fixpoint runs (n : nat) (s : St) : list (option error) * St :=
  match n with
  | O => ([], s)
  | S n => let '(e, s1) := fn s in let '(es, s2) := runs n s1 in (e :: es, s2)
  end.

End Do.

(** ** Backoff iterator *)

Record Backoff := MkBackoff { b_cfg : Config; b_attempt : Z; b_delay : Z }.

Definition NewBackoff (cfg : Config) : Backoff := MkBackoff cfg 0 (InitialDelay cfg).

Definition Next (b : Backoff) (r : draw) : (Z * bool) * Backoff :=
  if MaxRetries (b_cfg b) <=? b_attempt b then ((0, false), b)
  else
    let cfg := b_cfg b in
    ((b_delay b, true),
     MkBackoff cfg (b_attempt b + 1)
       (calculateDelay (b_delay b) (MaxDelay cfg) (Multiplier cfg) (JitterFactor cfg) r)).

Definition Reset_ (b : Backoff) : Backoff := MkBackoff (b_cfg b) 0 (InitialDelay (b_cfg b)).

Definition Attempts (b : Backoff) : Z := b_attempt b.

(** ** Properties *)

(** A configuration and draw with sane factors: positive denominators,
    non-negative factors, jitter factor and draw at most one. *)
Definition frac_unit (f : frac) : Prop := 0 <= num f <= den f /\ 0 < den f.

Lemma scale_bound f d : frac_unit f -> 0 <= d -> 0 <= scale f d <= d.
Proof.
  intros [Hn Hd] H0. unfold scale. rewrite Z.quot_div_nonneg by nia.
  split; [apply Z.div_pos; nia|]. apply Z.div_le_upper_bound; nia.
Qed.

(** A backoff delay is never negative and never exceeds the configured maximum
    by more than the jitter: for a non-negative current delay, multiplier and
    maximum, and a jitter factor and draw in [0, 1], the next delay lies between 0
    and twice the maximum. *)
Theorem calculateDelay_bounds d m mult jf r :
  0 <= d -> 0 <= m -> 0 <= num mult -> 0 < den mult -> frac_unit jf -> frac_unit (rand_float r) ->
  0 <= calculateDelay d m mult jf r <= 2 * m.
Proof.
  intros Hd Hm Hn Hde Hj Hr. unfold calculateDelay.
  assert (0 <= scale mult d) as H0.
  { unfold scale. rewrite Z.quot_div_nonneg by nia. apply Z.div_pos; nia. }
  set (nd := if scale mult d >? m then m else scale mult d).
  assert (0 <= nd <= m) as Hnd.
  { unfold nd. destruct (scale mult d >? m) eqn:E; [lia|]. rewrite Z.gtb_ltb in E. bool_facts. lia. }
  pose proof (scale_bound (Frac (num (rand_float r) * num jf) (den (rand_float r) * den jf)) nd)
    as Hb. unfold frac_unit in *. cbn [num den] in Hb.
  destruct (0 <? num jf); [|lia].
  destruct Hb; [nia|lia|].
  destruct (rand_plus r).
  - destruct (_ <? 0) eqn:E; bool_facts; lia.
  - destruct (_ <? 0) eqn:E; bool_facts; lia.
Qed.

Lemma calculateDelay_bounds_witness :
  0 <= calculateDelay (100 * Millisecond) (10 * Second) (Frac 2 1) (Frac 1 10)
         (Draw (Frac 1 2) false) <= 20 * Second.
Proof.
  apply (calculateDelay_bounds (100 * Millisecond) (10 * Second) (Frac 2 1) (Frac 1 10)
    (Draw (Frac 1 2) false)); unfold frac_unit, Millisecond, Second; cbn; lia.
Defined.

(** What a finished retry loop means, after [n] runs with outcomes [es]. *)
Definition retry_outcome (cfg : Config) (op key : bytes) (es : list (option error))
    (r : option error) : Prop :=
  let n := length es in
  (n <= Z.to_nat (MaxRetries cfg + 1))%nat
  /\ (forall i, (S i < n)%nat -> exists e, es !! i = Some (Some e) /\ IsRetryable e = true)
  /\ match r with
     | None => n = O /\ MaxRetries cfg < 0 \/ last es = Some None
     | Some e =>
         (last es = Some (Some e) /\ (IsRetryable e = false \/ n = Z.to_nat (MaxRetries cfg + 1)))
         \/ e = NewTimeoutError op key
     end.

Lemma do_loop_spec {St} (fn : ST St (option error)) db dw rnd cfg op key rem attempt delay lastErr s :
  (0 < rem)%nat -> (rem + attempt)%nat = Z.to_nat (MaxRetries cfg + 1) ->
  exists n, let '(es, s') := runs fn n s in
  snd (do_loop fn db dw rnd cfg op key rem attempt delay lastErr s) = s'
  /\ length es = n /\ (n <= rem)%nat
  /\ (forall i, (S i < n)%nat -> exists e, es !! i = Some (Some e) /\ IsRetryable e = true)
  /\ match fst (do_loop fn db dw rnd cfg op key rem attempt delay lastErr s) with
     | None => last es = Some None
     | Some e => (last es = Some (Some e) /\ (IsRetryable e = false \/ n = rem))
                 \/ e = NewTimeoutError op key
     end.
Proof.
  revert attempt delay lastErr s. induction rem as [|rem IH];
    intros attempt delay lastErr s Hpos Hsum; [lia|].
  cbn [do_loop]. destruct (db attempt).
  { exists O. cbn. split_and!; auto with lia; intros; lia. }
  destruct (fn s) as [[e|] s1] eqn:E; cycle 1.
  { exists 1%nat. cbn. rewrite E. cbn. split_and!; auto with lia; intros; lia. }
  destruct (IsRetryable e) eqn:Er; cbn [negb]; cycle 1.
  { exists 1%nat. cbn. rewrite E. cbn. split_and!; auto with lia; intros; lia. }
  destruct (Z.of_nat attempt =? MaxRetries cfg) eqn:Ea; bool_facts.
  { exists 1%nat. cbn. rewrite E. cbn. split_and!; auto with lia; try (intros; lia). }
  destruct (dw attempt).
  { exists 1%nat. cbn. rewrite E. cbn. split_and!; auto with lia; intros; lia. }
  destruct (IH (S attempt)
    (calculateDelay delay (MaxDelay cfg) (Multiplier cfg) (JitterFactor cfg) (rnd attempt))
    (Some e) s1) as [n Hn]; [lia|lia|].
  exists (S n). cbn [runs]. rewrite E. destruct (runs fn n s1) as [es s2].
  destruct Hn as (-> & Hlen & Hle & Hall & Hres). cbn [length]. split_and!; auto with lia.
  - intros [|i] Hi; [eauto|]. cbn. apply Hall. lia.
  - destruct (fst (do_loop _ _ _ _ _ _ _ _ _ _ _ _)) as [e'|].
    + destruct Hres as [[Hl Hr]|Hr]; [left|right; done].
      split; [|destruct Hr; [left|right]; auto with lia].
      destruct es; [done|]. done.
    + destruct es; [done|]. done.
Qed.

(** The retry loop runs the operation at most [MaxRetries + 1] times and stops for a
    reason: it returns success only when the last run succeeded (or the bound is
    negative and nothing ran), an error only when the last run returned that error
    and it is not retryable or the attempts are exhausted, and a timeout otherwise;
    every run before the last failed with a retryable error. The loop always
    returns. *)
Theorem retry_stops {St} (fn : ST St (option error)) db dw rnd cfg op key s :
  exists n, let '(es, s') := runs fn n s in
  snd (DoWithKey fn db dw rnd cfg op key s) = s'
  /\ retry_outcome cfg op key es (fst (DoWithKey fn db dw rnd cfg op key s)).
Proof.
  unfold DoWithKey, retry_outcome.
  destruct (decide (MaxRetries cfg < 0)) as [Hneg|Hneg].
  - exists O. replace (Z.to_nat (MaxRetries cfg + 1)) with O by lia. cbn.
    split_and!; auto with lia; intros; lia.
  - destruct (do_loop_spec fn db dw rnd cfg op key (Z.to_nat (MaxRetries cfg + 1)) 0
      (InitialDelay cfg) None s) as [n Hn]; [lia|lia|].
    exists n. destruct (runs fn n s) as [es s'].
    destruct Hn as (-> & <- & Hle & Hall & Hres). split_and!; auto.
    destruct (fst _); naive_solver.
Qed.

(** the backoff iterator allows exactly [MaxRetries] delays after construction or
    a reset, then refuses. *)
Theorem backoff_bounded cfg (rnd : nat -> draw) n :
  let fix iter k b := match k with O => b | S k => iter k (snd (Next b (rnd k))) end in
  0 <= MaxRetries cfg ->
  Attempts (iter n (NewBackoff cfg)) = Z.min (Z.of_nat n) (MaxRetries cfg)
  /\ (snd (fst (Next (iter n (NewBackoff cfg)) (rnd n))) = true <-> Z.of_nat n < MaxRetries cfg).
Proof.
  intros iter H0.
  assert (forall n b, b_cfg b = cfg -> 0 <= b_attempt b <= MaxRetries cfg ->
    b_cfg (iter n b) = cfg
    /\ b_attempt (iter n b) = Z.min (b_attempt b + Z.of_nat n) (MaxRetries cfg)) as Hit.
  { clear n. induction n as [|n IH]; intros b Hc Hb; [cbn; split; [done|lia]|].
    cbn. unfold Next. destruct (_ <=? _) eqn:E; bool_facts; rewrite Hc in *; cbn [snd].
    - destruct (IH b) as [-> ->]; try done. split; [done|lia].
    - destruct (IH (MkBackoff cfg (b_attempt b + 1)
        (calculateDelay (b_delay b) (MaxDelay cfg) (Multiplier cfg) (JitterFactor cfg) (rnd n))))
        as [-> ->]; cbn; try done; try lia. split; [done|lia]. }
  destruct (Hit n (NewBackoff cfg)) as [Hc Ha]; [done|cbn; lia|]. cbn in Ha.
  unfold Attempts. split; [done|]. unfold Next.
  destruct (_ <=? _) eqn:E; bool_facts; rewrite Hc in *; cbn; split; intros; try done; lia.
Qed.

Lemma backoff_bounded_witness :
  Attempts (snd (Next (NewBackoff DefaultConfig) (Draw (Frac 0 1) true))) = 1.
Proof.
  pose proof (backoff_bounded DefaultConfig (fun _ => Draw (Frac 0 1) true) 1) as H.
  cbn in H. apply H. lia.
Defined.
