(* ===== verification/Message.v ===== *)
(** * Stored messages and the protobuf interface (storage/proto/storage.pb.go)

    The messages the engine stores, and the interface of the protobuf runtime
    (google.golang.org/protobuf) it encodes them with: [proto.Marshal],
    [proto.Unmarshal] and the [protowire] consumers. The runtime is third-party
    code, so it is a class of operations ([Protobuf]) with a class of laws
    ([ProtobufLaws]) stating the documented behaviour the engine relies on; file
    ProtoInstance.v gives a concrete codec that satisfies them. *)

From S2P Require Import Prelude.

Open Scope Z_scope.

(** ** Enumerations (open, as proto3 enums are: an int32) *)

Definition INLINE : Z := 0.
Definition RAW_FILE : Z := 1.
Definition SEGMENT : Z := 2.

Definition META_OP_NONE : Z := 0.
Definition META_OP_CAS_PUT : Z := 1.
Definition META_OP_CAS_DELETE : Z := 2.

(** ** Messages *)

Record ValueMessage := MkVM {
  ValueType : Z;
  Data : bytes;
  Expiry : Z;
  RawFilePath : bytes;
  SegmentPath : bytes;
  SegmentOffset : Z;
  ValueLength : Z;
  Checksum : Z;
  Version : Z;
  OpType : Z;
  CasExpectedVersion : Z
}.

#[export] Instance ValueMessage_eq_dec : EqDecision ValueMessage.
Proof. solve_decision. Defined.

(** The zero value, [pb.ValueMessage{}]. *)
Definition vm_zero : ValueMessage := MkVM 0 EmptyString 0 EmptyString EmptyString 0 0 0 0 0 0.

(** [pb.ValueMessage{Expiry: e, Version: v}], every other field zero. *)
Definition vm_expiry_version (e v : Z) : ValueMessage :=
  MkVM 0 EmptyString e EmptyString EmptyString 0 0 0 v 0 0.

Record DeleteIndexEntry := MkDI { DeletedEntries : Z; DeletedBytes : Z }.

#[export] Instance DeleteIndexEntry_eq_dec : EqDecision DeleteIndexEntry.
Proof. solve_decision. Defined.

Definition di_zero : DeleteIndexEntry := MkDI 0 0.

(** ** UTF-8 validity, [unicode/utf8.Valid] *)

Definition cont (c : ascii) : bool := ((128 <=? N_of_ascii c) && (N_of_ascii c <=? 191))%N.
Definition in_range (lo hi : N) (c : ascii) : bool :=
  ((lo <=? N_of_ascii c) && (N_of_ascii c <=? hi))%N.

Fixpoint utf8_valid (s : bytes) : bool :=
  match s with
  | EmptyString => true
  | String a s1 =>
      if in_range 0 127 a then utf8_valid s1
      else if in_range 194 223 a then
        match s1 with
        | String b s2 => cont b && utf8_valid s2
        | EmptyString => false
        end
      else if in_range 224 239 a then
        match s1 with
        | String b (String c s3) =>
            (if decide (N_of_ascii a = 224%N) then in_range 160 191 b
             else if decide (N_of_ascii a = 237%N) then in_range 128 159 b
             else cont b) && cont c && utf8_valid s3
        | _ => false
        end
      else if in_range 240 244 a then
        match s1 with
        | String b (String c (String d s4)) =>
            (if decide (N_of_ascii a = 240%N) then in_range 144 191 b
             else if decide (N_of_ascii a = 244%N) then in_range 128 143 b
             else cont b) && cont c && cont d && utf8_valid s4
        | _ => false
        end
      else false
  end.

(** A message a Go program can hold and protobuf can encode: every field in the
    range of its type, the string fields valid UTF-8. *)
Record vm_ok (m : ValueMessage) : Prop := {
  ok_type : is_i32 (ValueType m);
  ok_expiry : is_i64 (Expiry m);
  ok_raw : utf8_valid (RawFilePath m) = true;
  ok_seg : utf8_valid (SegmentPath m) = true;
  ok_off : is_i64 (SegmentOffset m);
  ok_len : is_i64 (ValueLength m);
  ok_sum : is_u32 (Checksum m);
  ok_ver : is_u64 (Version m);
  ok_op : is_i32 (OpType m);
  ok_cas : is_u64 (CasExpectedVersion m)
}.

Definition di_ok (e : DeleteIndexEntry) : Prop :=
  is_i64 (DeletedEntries e) /\ is_i64 (DeletedBytes e).

(** ** The protobuf runtime as an interface

    [None] is an error ([err != nil], or a negative length for the consumers).
    Wire types are numbered as in protowire. *)

Definition VarintType : Z := 0.
Definition Fixed64Type : Z := 1.
Definition BytesType : Z := 2.
Definition StartGroupType : Z := 3.
Definition EndGroupType : Z := 4.
Definition Fixed32Type : Z := 5.

Class Protobuf := {
  proto_Marshal : ValueMessage -> option bytes;
  proto_Unmarshal : bytes -> option ValueMessage;
  proto_Marshal_DI : DeleteIndexEntry -> option bytes;
  proto_Unmarshal_DI : bytes -> option DeleteIndexEntry;
  ConsumeTag : bytes -> option (Z * Z * nat);
  ConsumeVarint : bytes -> option (Z * nat);
  ConsumeBytes : bytes -> option (bytes * nat);
  ConsumeFieldValue : Z -> Z -> bytes -> option nat
}.

(** [protowire.Number.IsValid]. *)
Definition num_IsValid (num : Z) : bool := (1 <=? num) && (num <=? 536870911).

(** How [proto.Unmarshal] merges one known field into the message (last one
    wins); a field of another number or wire type is unknown and skipped. [v] is
    the varint, [b] the length-delimited payload. *)
Definition set_varint (num v : Z) (m : ValueMessage) : ValueMessage :=
  match m with
  | MkVM ty da ex ra se so vl ck ve op ca =>
      if num =? 1 then MkVM (i32 v) da ex ra se so vl ck ve op ca
      else if num =? 3 then MkVM ty da (i64 v) ra se so vl ck ve op ca
      else if num =? 6 then MkVM ty da ex ra se (i64 v) vl ck ve op ca
      else if num =? 7 then MkVM ty da ex ra se so (i64 v) ck ve op ca
      else if num =? 8 then MkVM ty da ex ra se so vl (u32 v) ve op ca
      else if num =? 9 then MkVM ty da ex ra se so vl ck (u64 v) op ca
      else if num =? 10 then MkVM ty da ex ra se so vl ck ve (i32 v) ca
      else if num =? 11 then MkVM ty da ex ra se so vl ck ve op (u64 v)
      else m
  end.

Definition is_varint_field (num : Z) : bool :=
  (num =? 1) || (num =? 3) || ((6 <=? num) && (num <=? 11)).

Definition set_bytes (num : Z) (b : bytes) (m : ValueMessage) : ValueMessage :=
  match m with
  | MkVM ty da ex ra se so vl ck ve op ca =>
      if num =? 2 then MkVM ty b ex ra se so vl ck ve op ca
      else if num =? 4 then MkVM ty da ex b se so vl ck ve op ca
      else if num =? 5 then MkVM ty da ex ra b so vl ck ve op ca
      else m
  end.

(** One step of decoding at the head of [buf]: the number of bytes consumed and
    the effect on the message; [None] when [proto.Unmarshal] would fail. *)
Definition unmarshal_field `{Protobuf} (buf : bytes) (m : ValueMessage)
    : option (nat * ValueMessage) :=
  '(num, typ, n) ← ConsumeTag buf;
  if negb (num_IsValid num) then None
  else
    let rest := sdrop n buf in
    if is_varint_field num && (typ =? VarintType) then
      '(v, vn) ← ConsumeVarint rest; Some ((n + vn)%nat, set_varint num v m)
    else if ((num =? 2) || (num =? 4) || (num =? 5)) && (typ =? BytesType) then
      '(b, vn) ← ConsumeBytes rest;
      if (num =? 2) || utf8_valid b then Some ((n + vn)%nat, set_bytes num b m) else None
    else vn ← ConsumeFieldValue num typ rest; Some ((n + vn)%nat, m).

Fixpoint unmarshal_fields `{Protobuf} (fuel : nat) (buf : bytes) (m : ValueMessage)
    : option ValueMessage :=
  match buf with
  | EmptyString => Some m
  | _ => match fuel with
         | O => None
         | S fuel => '(n, m) ← unmarshal_field buf m; unmarshal_fields fuel (sdrop n buf) m
         end
  end.

(** Every decoded field takes at least one byte, so fuel beyond the length of the
    buffer does not matter. *)
Section Fuel.

Context `{Protobuf}.
Context (tag_pos : forall b num typ n,
  ConsumeTag b = Some (num, typ, n) -> (0 < n <= String.length b)%nat).

Lemma unmarshal_field_pos buf m n m' :
  unmarshal_field buf m = Some (n, m') -> (0 < n)%nat.
Proof using tag_pos.
  unfold unmarshal_field. destruct (ConsumeTag buf) as [[[num typ] k]|] eqn:T; cbn; [|done].
  apply tag_pos in T. intros. repeat (case_match || simplify_option_eq); lia.
Qed.

Lemma unmarshal_fields_S fuel c s m :
  unmarshal_fields (S fuel) (String c s) m
  = '(k, m') ← unmarshal_field (String c s) m; unmarshal_fields fuel (sdrop k (String c s)) m'.
Proof using. reflexivity. Qed.

Lemma unmarshal_fields_enough fuel buf m :
  (String.length buf <= fuel)%nat ->
  unmarshal_fields fuel buf m = unmarshal_fields (String.length buf) buf m.
Proof using tag_pos.
  revert buf m. induction fuel as [fuel IH] using lt_wf_ind.
  intros [|c s] m Hl; [by destruct fuel|]. destruct fuel as [|fuel]; cbn in Hl; [lia|].
  cbn [unmarshal_fields String.length].
  destruct (unmarshal_field (String c s) m) as [[n m']|] eqn:E; cbn; [|done].
  apply unmarshal_field_pos in E. pose proof (slength_sdrop n (String c s)) as L. cbn in L.
  rewrite (IH fuel), (IH (String.length s)) by lia. done.
Qed.

End Fuel.

(** Documented behaviour of the runtime:
    - a marshalled message decodes to itself, and every in-range message with
      valid UTF-8 strings marshals; decoding yields in-range messages;
    - decoding goes field by field, last one wins, unknown fields are skipped
      ([unmarshal_fields]; each field takes at least one byte, so the length of
      the buffer bounds the number of steps);
    - the consumers report lengths within the buffer, agree with
      [ConsumeFieldValue] on the length of a value, and depend only on the
      bytes they consume. *)
Class ProtobufLaws `{Protobuf} : Prop := {
  marshal_unmarshal m b : vm_ok m -> proto_Marshal m = Some b -> proto_Unmarshal b = Some m;
  marshal_total m : vm_ok m -> is_Some (proto_Marshal m);
  unmarshal_ok b m : proto_Unmarshal b = Some m -> vm_ok m;
  unmarshal_spec b : proto_Unmarshal b = unmarshal_fields (String.length b) b vm_zero;
  marshal_di_unmarshal e b : di_ok e -> proto_Marshal_DI e = Some b -> proto_Unmarshal_DI b = Some e;
  marshal_di_total e : di_ok e -> is_Some (proto_Marshal_DI e);
  unmarshal_di_ok b e : proto_Unmarshal_DI b = Some e -> di_ok e;
  unmarshal_di_empty : proto_Unmarshal_DI EmptyString = Some di_zero;
  tag_len b num typ n : ConsumeTag b = Some (num, typ, n) -> (0 < n <= String.length b)%nat;
  varint_len b v n : ConsumeVarint b = Some (v, n) -> (0 < n <= String.length b)%nat;
  bytes_len b p n : ConsumeBytes b = Some (p, n) -> (0 < n <= String.length b)%nat;
  value_len num typ b n : ConsumeFieldValue num typ b = Some n -> (n <= String.length b)%nat;
  value_varint num b : ConsumeFieldValue num VarintType b = snd <$> ConsumeVarint b;
  value_bytes num b : ConsumeFieldValue num BytesType b = snd <$> ConsumeBytes b;
  tag_local b num typ n c : ConsumeTag b = Some (num, typ, n) ->
    ConsumeTag (stake n b +:+ c) = Some (num, typ, n);
  varint_local b v n c : ConsumeVarint b = Some (v, n) ->
    ConsumeVarint (stake n b +:+ c) = Some (v, n);
  bytes_local b p n c : ConsumeBytes b = Some (p, n) ->
    ConsumeBytes (stake n b +:+ c) = Some (p, n);
  value_local num typ b n c : ConsumeFieldValue num typ b = Some n ->
    ConsumeFieldValue num typ (stake n b +:+ c) = Some n
}.

Lemma utf8_valid_nil : utf8_valid EmptyString = true.
Proof. reflexivity. Qed.

Lemma vm_ok_expiry_version e v : is_i64 e -> is_u64 v -> vm_ok (vm_expiry_version e v).
Proof. intros. split; cbn; try done; unfold_ints; lia. Qed.

Lemma unmarshal_empty `{ProtobufLaws} : proto_Unmarshal EmptyString = Some vm_zero.
Proof. by rewrite unmarshal_spec. Qed.

#[export] Hint Resolve unmarshal_ok unmarshal_di_ok vm_ok_expiry_version utf8_valid_nil : ocache.
