(* ===== verification/Merge.v ===== *)
(** * The multiplexing merge operator (storage/merge/operator.go, operands.go)

    RocksDB resolves the operands stacked on a key with [FullMerge]. This is the
    serialization point of every conditional write of the engine: user
    compare-and-swap ([META_OP_CAS_PUT], [META_OP_CAS_DELETE]), the compactor's
    path-preconditioned migrations, the read path's purge of dangling files, and
    the per-segment delete counters. *)

From S2P Require Import Prelude Keys Message.

Open Scope Z_scope.

(** ** Constants and row classification *)

(** Wire bytes 0x18 0x01 of a message with only Expiry = 1. *)
Definition expiredSentinel : bytes :=
  String (ascii_of_nat 24) (String (ascii_of_nat 1) EmptyString).

Definition VersionLegacy : Z := 1.
Definition tombstoneExpiry : Z := 1.

(** A nil pointer is [None]. *)
Definition IsTombstone (vm : option ValueMessage) : bool :=
  match vm with
  | None => false
  | Some vm => (Expiry vm =? tombstoneExpiry)
      && bool_decide (RawFilePath vm = EmptyString) && bool_decide (SegmentPath vm = EmptyString)
  end.

Definition EffectiveRowVersion (vm : option ValueMessage) : Z :=
  match vm with
  | None => 0
  | Some vm =>
      if Expiry vm =? tombstoneExpiry then Version vm
      else if Version vm =? 0 then VersionLegacy
      else Version vm
  end.

Definition fenceAdmits (tombstone : ValueMessage) (expected : Z) : bool :=
  (expected =? 0) || (Version tombstone <=? expected).

(** [pb.ValueMessage{Expiry: tombstoneExpiry, Version: v}]. *)
Definition tombstone (v : Z) : ValueMessage := vm_expiry_version tombstoneExpiry v.

(** The operand adopted as the new row, without its operand-only fields. *)
Definition adopt (op : ValueMessage) : ValueMessage :=
  MkVM (ValueType op) (Data op) (Expiry op) (RawFilePath op) (SegmentPath op)
    (SegmentOffset op) (ValueLength op) (Checksum op) (Version op) 0 0.

(** The migrated row: the operand's location, the base's version, and no
    raw-file path (on the operand it was the precondition). *)
Definition migrate (base op : ValueMessage) : ValueMessage :=
  MkVM (ValueType op) (Data op) (Expiry op) EmptyString (SegmentPath op)
    (SegmentOffset op) (ValueLength op) (Checksum op) (Version base) 0 0.

(** ** One operand against the current base

    [base] is [None] while [hadBase] is false. The four groups follow the
    source: CAS put, CAS delete, purge of a dangling raw file, migration. *)
Definition apply_operand (base : option ValueMessage) (op : ValueMessage) : option ValueMessage :=
  if OpType op =? META_OP_CAS_PUT then
    let apply := match base with
      | None => true
      | Some b =>
          if Expiry b =? tombstoneExpiry then fenceAdmits b (CasExpectedVersion op)
          else EffectiveRowVersion base =? CasExpectedVersion op
      end in
    if apply then Some (adopt op) else base
  else if OpType op =? META_OP_CAS_DELETE then
    match base with
    | None =>
        if CasExpectedVersion op =? 0 then Some (tombstone (Version op)) else Some (tombstone 0)
    | Some b =>
        if Expiry b =? tombstoneExpiry then
          if fenceAdmits b (CasExpectedVersion op) then Some (tombstone (Version op)) else base
        else if EffectiveRowVersion base =? CasExpectedVersion op then Some (tombstone (Version op))
        else base
    end
  else if (ValueType op =? RAW_FILE) && bool_decide (RawFilePath op <> EmptyString) then
    match base with
    | Some b =>
        if (ValueType b =? RAW_FILE) && bool_decide (RawFilePath b = RawFilePath op)
        then Some (tombstone 0) else base
    | None => None
    end
  else
    match base with
    | None => None
    | Some b =>
        if negb (ValueType op =? SEGMENT) || bool_decide (RawFilePath op = EmptyString) then base
        else
          let rawMatch := (ValueType b =? RAW_FILE) && bool_decide (RawFilePath b = RawFilePath op) in
          let segMatch := (ValueType b =? SEGMENT) && bool_decide (SegmentPath b = RawFilePath op) in
          if negb rawMatch && negb segMatch then base
          else Some (migrate b op)
    end.

Section Operator.

Context `{Protobuf}.

(** An operand that does not decode is skipped. *)
Definition apply_bytes (base : option ValueMessage) (operand : bytes) : option ValueMessage :=
  match proto_Unmarshal operand with
  | None => base
  | Some op => apply_operand base op
  end.

Definition apply_all (base : option ValueMessage) (operands : list bytes) : option ValueMessage :=
  fold_left apply_bytes operands base.

(** [(nil, false)] is [None]. *)
Definition mergeMetadataCAS (existingValue : bytes) (operands : list bytes) : option bytes :=
  let run base :=
    match apply_all base operands with
    | None => Some expiredSentinel
    | Some vm => proto_Marshal vm
    end in
  if decide (existingValue = EmptyString) then run None
  else match proto_Unmarshal existingValue with
       | None => Some existingValue
       | Some base => run (Some base)
       end.

(** ** Little-endian counters of the delete index *)

Fixpoint le_bytes (n : nat) (z : Z) : bytes :=
  match n with
  | O => EmptyString
  | S n => String (ascii_of_N (Z.to_N (z mod 256))) (le_bytes n (z / 256))
  end.

Fixpoint le_value (s : bytes) : Z :=
  match s with
  | EmptyString => 0
  | String c s => Z.of_N (N_of_ascii c) + 256 * le_value s
  end.

(** [binary.LittleEndian.PutUint64(operand[0:8], uint64(deletedEntries))], then the bytes. *)
Definition MakeDeleteIndexOperand (deletedEntries deletedBytes : Z) : bytes :=
  le_bytes 8 (u64 deletedEntries) +:+ le_bytes 8 (u64 deletedBytes).

Definition add_operand (entry : DeleteIndexEntry) (operand : bytes) : DeleteIndexEntry :=
  if decide (String.length operand = 16%nat) then
    let entryIncr := i64 (le_value (stake 8 operand)) in
    let byteIncr := i64 (le_value (sdrop 8 operand)) in
    MkDI (i64 (DeletedEntries entry + entryIncr)) (i64 (DeletedBytes entry + byteIncr))
  else entry.

Definition mergeDeleteIndex (existingValue : bytes) (operands : list bytes) : option bytes :=
  let entry :=
    if decide (existingValue = EmptyString) then di_zero
    else default di_zero (proto_Unmarshal_DI existingValue) in
  proto_Marshal_DI (fold_left add_operand operands entry).

Definition FullMerge (key existingValue : bytes) (operands : list bytes) : option bytes :=
  if IsDeleteIndexKey key then mergeDeleteIndex existingValue operands
  else if IsMetadataKey key then mergeMetadataCAS existingValue operands
  else match last operands with
       | Some operand => Some operand
       | None => Some existingValue
       end.

Definition MakeRawFilePurgeOperand (rawFilePath : bytes) : option bytes :=
  proto_Marshal (MkVM RAW_FILE EmptyString 0 rawFilePath EmptyString 0 0 0 0 0 0).

End Operator.

(** ** The fence rule and the shape of stored rows *)

(** The invariant proto/storage.proto states for stored values: the operand-only
    fields are zero, a raw-file path is present exactly for RAW_FILE rows, a segment
    path exactly for SEGMENT rows, and a tombstone carries no location. *)
Record row_wf (m : ValueMessage) : Prop := {
  wf_op : OpType m = 0;
  wf_cas : CasExpectedVersion m = 0;
  wf_raw : RawFilePath m <> EmptyString <-> ValueType m = RAW_FILE;
  wf_seg : SegmentPath m <> EmptyString <-> ValueType m = SEGMENT;
  wf_tomb : Expiry m = tombstoneExpiry -> ValueType m = INLINE
}.

(** Operands the engine writes, by their fields: a CAS put describes a live value in the
    row or in a raw file, a CAS delete carries only its stamp and expectation, a purge a
    raw path, and a migration a segment location together with the path it expects. *)
Definition operand_wf (op : ValueMessage) : Prop :=
  (OpType op = META_OP_CAS_PUT /\ Expiry op <> tombstoneExpiry /\ SegmentPath op = EmptyString
     /\ ((ValueType op = INLINE /\ RawFilePath op = EmptyString) \/ (ValueType op = RAW_FILE /\ RawFilePath op <> EmptyString)))
  \/ OpType op = META_OP_CAS_DELETE
  \/ (OpType op = META_OP_NONE /\ ValueType op = RAW_FILE)
  \/ (OpType op = META_OP_NONE /\ ValueType op = SEGMENT /\ SegmentPath op <> EmptyString /\ Expiry op <> tombstoneExpiry).

Lemma tombstone_wf v : row_wf (tombstone v).
Proof. split; cbn; try done. Qed.

Lemma vm_ok_tombstone v : is_u64 v -> vm_ok (tombstone v).
Proof. intros. apply vm_ok_expiry_version; [unfold tombstoneExpiry; unfold_ints; lia|done]. Qed.

Lemma vm_ok_adopt op : vm_ok op -> vm_ok (adopt op).
Proof. intros []. split; cbn; try done; unfold_ints; lia. Qed.

Lemma vm_ok_migrate b op : vm_ok b -> vm_ok op -> vm_ok (migrate b op).
Proof. intros [] []. split; cbn; try done; unfold_ints; lia. Qed.

#[export] Hint Resolve tombstone_wf vm_ok_tombstone vm_ok_adopt vm_ok_migrate : ocache.

Lemma is_u64_0 : is_u64 0.
Proof. unfold_ints. lia. Qed.
#[export] Hint Resolve is_u64_0 : ocache.

(** Unfolds one application of the operator into its branches. *)
Ltac operand_cases :=
  unfold apply_operand; repeat (case_match; simplify_eq/=); try done.

Lemma apply_operand_ok base op m :
  vm_ok op -> (forall b, base = Some b -> vm_ok b) ->
  apply_operand base op = Some m -> vm_ok m.
Proof.
  intros Hop Hb. operand_cases; intros; simplify_eq;
    try (apply vm_ok_tombstone; apply Hop || auto with ocache);
    eauto with ocache.
Qed.

(** ** Lemmas on the little-endian counters *)

Lemma le_bytes_length n z : String.length (le_bytes n z) = n.
Proof. revert z. induction n; intros; simpl; auto. Qed.

Lemma le_value_bytes n z : 0 <= z < 256 ^ Z.of_nat n -> le_value (le_bytes n z) = z.
Proof.
  revert z. induction n as [|n IH]; intros z Hz; [simpl in *; lia|].
  rewrite Nat2Z.inj_succ, Z.pow_succ_r in Hz by lia. cbn [le_bytes le_value].
  pose proof (Z.mod_pos_bound z 256 ltac:(lia)).
  rewrite N_ascii_embedding by lia. rewrite IH by (Z.div_mod_to_equations; lia).
  rewrite Z2N.id by lia. pose proof (Z.div_mod z 256). lia.
Qed.

Lemma delete_operand_length a b : String.length (MakeDeleteIndexOperand a b) = 16%nat.
Proof. unfold MakeDeleteIndexOperand. by rewrite slength_app, !le_bytes_length. Qed.

Lemma add_delete_operand e a b :
  add_operand e (MakeDeleteIndexOperand a b)
  = MkDI (i64 (DeletedEntries e + a)) (i64 (DeletedBytes e + b)).
Proof.
  unfold add_operand. rewrite decide_True by apply delete_operand_length.
  unfold MakeDeleteIndexOperand.
  rewrite <- (le_bytes_length 8 (u64 a)) at 1. rewrite stake_app.
  rewrite <- (le_bytes_length 8 (u64 a)) at 2. rewrite sdrop_app.
  rewrite !le_value_bytes by (pose proof (u64_range a); pose proof (u64_range b);
    unfold is_u64, two64 in *; simpl Z.of_nat; lia).
  by rewrite !i64_u64, !i64_add_r.
Qed.

Lemma add_operand_ok e o : di_ok e -> di_ok (add_operand e o).
Proof. intros. unfold add_operand. case_decide; [split; apply i64_range|done]. Qed.

Lemma fold_add_ok ops e : di_ok e -> di_ok (fold_left add_operand ops e).
Proof. revert e. induction ops; simpl; auto using add_operand_ok. Qed.

Lemma di_zero_ok : di_ok di_zero.
Proof. split; unfold_ints; simpl; lia. Qed.

(** The base the delete-index merge starts from. *)
Definition di_base `{Protobuf} (existing : bytes) : DeleteIndexEntry :=
  if decide (existing = EmptyString) then di_zero
  else default di_zero (proto_Unmarshal_DI existing).

Lemma di_base_ok `{ProtobufLaws} v : di_ok (di_base v).
Proof.
  unfold di_base. case_decide; [apply di_zero_ok|].
  destruct (proto_Unmarshal_DI v) eqn:E; simpl; [by eapply unmarshal_di_ok|apply di_zero_ok].
Qed.

Section Props.

Context `{ProtobufLaws}.

(** [init] panics unless the precomputed sentinel is what [proto.Marshal] yields. *)
Context (init_ok : proto_Marshal (tombstone 0) = Some expiredSentinel).

Lemma apply_all_ok ops base m :
  (forall b, base = Some b -> vm_ok b) -> apply_all base ops = Some m -> vm_ok m.
Proof.
  revert base. induction ops as [|o ops IH]; intros base Hb; simpl; [eauto|].
  apply IH. unfold apply_bytes. intros b E.
  destruct (proto_Unmarshal o) eqn:Eo; [|eauto].
  eapply apply_operand_ok; eauto using unmarshal_ok.
Qed.

Lemma apply_operand_some b op : exists b', apply_operand (Some b) op = Some b'.
Proof. operand_cases; eauto. Qed.

Lemma apply_all_some ops b : exists b', apply_all (Some b) ops = Some b'.
Proof.
  revert b. induction ops as [|o ops IH]; intros b; [eauto|].
  change (exists b', apply_all (apply_bytes (Some b) o) ops = Some b').
  unfold apply_bytes. destruct (proto_Unmarshal o) as [op|]; [|eauto].
  destruct (apply_operand_some b op) as [b' ->]. eauto.
Qed.

(** The decoded base the metadata merge works on. *)
Lemma merge_present existing base ops :
  existing <> EmptyString -> proto_Unmarshal existing = Some base ->
  mergeMetadataCAS existing ops = apply_all (Some base) ops ≫= proto_Marshal.
Proof.
  intros Hne E. unfold mergeMetadataCAS. rewrite decide_False by done. rewrite E.
  destruct (apply_all_some ops base) as [b' ->]. done.
Qed.

(** An operand that is a CAS delete guarded by a nonzero version. *)
Definition guarded_delete (operand : bytes) : Prop :=
  exists op, proto_Unmarshal operand = Some op
    /\ OpType op = META_OP_CAS_DELETE /\ CasExpectedVersion op <> 0.

(** "No row" and the unstamped tombstone written for it are equivalent to every
    operand except a guarded delete. *)
Definition absent_like (a b : option ValueMessage) : Prop :=
  a = b \/ (a = None /\ b = Some (tombstone 0)).

Lemma apply_bytes_absent a b o :
  absent_like a b -> ~ guarded_delete o -> absent_like (apply_bytes a o) (apply_bytes b o).
Proof.
  intros [->|[-> ->]] Hg; [by left|]. unfold apply_bytes.
  destruct (proto_Unmarshal o) as [op|] eqn:E; [|by right].
  unfold apply_operand, fenceAdmits, tombstone, vm_expiry_version, tombstoneExpiry. cbn.
  assert (is_u64 (CasExpectedVersion op)) as Hu by (apply unmarshal_ok in E; apply E).
  destruct (OpType op =? META_OP_CAS_PUT) eqn:E1.
  { rewrite (proj2 (Z.leb_le _ _)), orb_true_r by apply Hu. by left. }
  destruct (OpType op =? META_OP_CAS_DELETE) eqn:E2; bool_facts.
  { destruct (decide (CasExpectedVersion op = 0)) as [->|]; [by left|].
    exfalso. apply Hg. by exists op. }
  repeat case_match; try (by right); bool_facts; naive_solver.
Qed.

Lemma apply_all_absent ops a b :
  absent_like a b -> Forall (fun o => ~ guarded_delete o) ops ->
  absent_like (apply_all a ops) (apply_all b ops).
Proof.
  intros Hab Hall. revert a b Hab. induction Hall as [|o ops Ho Hall IH]; intros; [done|].
  simpl. apply IH. by apply apply_bytes_absent.
Qed.

Lemma marshal_inj m m' : vm_ok m -> vm_ok m' -> proto_Marshal m = proto_Marshal m' -> m = m'.
Proof.
  intros Hm Hm' E. destruct (marshal_total m Hm) as [b Hb].
  pose proof (marshal_unmarshal m b Hm Hb) as E1. rewrite E in Hb.
  pose proof (marshal_unmarshal m' b Hm' Hb). congruence.
Qed.

Lemma unmarshal_sentinel : proto_Unmarshal expiredSentinel = Some (tombstone 0).
Proof. eapply marshal_unmarshal; [|exact init_ok]. auto with ocache. Qed.

Lemma merge_schedule existing ops1 ops2 mid :
  mergeMetadataCAS existing ops1 = Some mid -> mid <> EmptyString ->
  existing <> EmptyString \/ apply_all None ops1 <> None \/ Forall (fun o => ~ guarded_delete o) ops2 ->
  mergeMetadataCAS mid ops2 = mergeMetadataCAS existing (ops1 ++ ops2).
Proof.
  intros Hmid Hne Hcase. unfold mergeMetadataCAS in *.
  rewrite (decide_False (P := mid = EmptyString)) by done.
  unfold apply_all in *.
  case_decide as Hex; [|destruct (proto_Unmarshal existing) as [base|] eqn:Eb];
    rewrite ?fold_left_app.
  - destruct (fold_left apply_bytes ops1 None) as [vm|] eqn:E.
    + assert (vm_ok vm) by (eapply (apply_all_ok ops1 None); [done|exact E]).
      by rewrite (marshal_unmarshal vm mid).
    + simplify_eq. rewrite unmarshal_sentinel.
      destruct Hcase as [?|[?|Hall]]; [done|done|].
      destruct (apply_all_absent ops2 None (Some (tombstone 0))) as [HE|[HE HE']];
        [by right|done|unfold apply_all in *; by rewrite HE|].
      unfold apply_all in *. by rewrite HE, HE', init_ok.
  - destruct (apply_all_some ops1 base) as [vm Hvm]. unfold apply_all in Hvm. rewrite Hvm in *.
    assert (vm_ok vm) by (eapply (apply_all_ok ops1 (Some base)); [|exact Hvm];
      intros ? [= <-]; by eapply unmarshal_ok).
    by rewrite (marshal_unmarshal vm mid).
  - simplify_eq. by rewrite Eb.
Qed.

(** When RocksDB resolves operands does not matter. Folding a prefix of the operands
    into a row (a background compaction) and merging the rest into the result gives
    what merging all of them at once gives (a read), so a CAS decided at read time is
    decided the same way at compaction time. It holds for any existing row, and on
    a missing row unless the later operands contain a delete guarded by a version. *)
Theorem merge_schedule_independent existing ops1 ops2 mid :
  mergeMetadataCAS existing ops1 = Some mid -> mid <> EmptyString ->
  existing <> EmptyString \/ apply_all None ops1 <> None \/ Forall (fun o => ~ guarded_delete o) ops2 ->
  mergeMetadataCAS mid ops2 = mergeMetadataCAS existing (ops1 ++ ops2).
Proof. apply merge_schedule. Qed.

(** The one schedule-dependent case. On a missing row, a stale migration operand
    followed by a guarded delete resolves to the unstamped tombstone when both are
    merged at once, but to a tombstone carrying the delete's stamp when a compaction
    resolved the stale operand first: the same delete reports a mismatch on one
    schedule and success on the other. *)
Theorem merge_schedule_divergence path seg op1 op2 stamp expected :
  0 < stamp < two64 -> 0 < expected < two64 -> path <> EmptyString ->
  utf8_valid path = true -> utf8_valid seg = true ->
  proto_Marshal (MkVM SEGMENT EmptyString 0 path seg 0 0 0 0 META_OP_NONE 0) = Some op1 ->
  proto_Marshal (MkVM 0 EmptyString 0 EmptyString EmptyString 0 0 0 stamp META_OP_CAS_DELETE expected)
    = Some op2 ->
  exists mid, mergeMetadataCAS EmptyString [op1] = Some mid
    /\ mergeMetadataCAS mid [op2] = proto_Marshal (tombstone stamp)
    /\ mergeMetadataCAS EmptyString [op1; op2] = proto_Marshal (tombstone 0)
    /\ proto_Marshal (tombstone stamp) <> proto_Marshal (tombstone 0).
Proof.
  intros Hs He Hp Hu1 Hu2 E1 E2.
  apply marshal_unmarshal in E1; [|split; cbn; try done; unfold SEGMENT, META_OP_NONE; unfold_ints; lia].
  apply marshal_unmarshal in E2; [|split; cbn; try done; unfold META_OP_CAS_DELETE; unfold_ints; lia].
  exists expiredSentinel. unfold mergeMetadataCAS, apply_all. cbn [fold_left decide_rel].
  rewrite !decide_True by done. rewrite decide_False by done. rewrite unmarshal_sentinel.
  unfold apply_bytes. rewrite E1, E2. unfold apply_operand, fenceAdmits, tombstone, vm_expiry_version.
  cbn [ValueType Data Expiry RawFilePath SegmentPath OpType CasExpectedVersion Version].
  cbn -[two64]. assert ((expected =? 0) = false) as -> by (apply Z.eqb_neq; lia).
  assert ((0 <=? expected) = true) as -> by (apply Z.leb_le; lia). cbn -[two64].
  split_and!; try done.
  intros F. apply (marshal_inj (tombstone stamp) (tombstone 0)) in F;
    [|apply vm_ok_tombstone; unfold is_u64; lia..]. by injection F; lia.
Qed.

(** An operand that orders itself before the fence [v], or does not order itself
    at all because it is not a user CAS. *)
Definition before_fence (v : Z) (operand : bytes) : Prop :=
  forall op, proto_Unmarshal operand = Some op ->
    (OpType op = META_OP_CAS_PUT \/ OpType op = META_OP_CAS_DELETE) ->
    0 < CasExpectedVersion op < v.

Lemma fence_step v o :
  before_fence v o -> apply_bytes (Some (tombstone v)) o = Some (tombstone v).
Proof.
  intros Hf. unfold apply_bytes. destruct (proto_Unmarshal o) as [op|] eqn:E; [|done].
  specialize (Hf op E). unfold apply_operand, fenceAdmits, tombstone, vm_expiry_version. cbn.
  destruct (OpType op =? META_OP_CAS_PUT) eqn:E1; bool_facts.
  { rewrite (proj2 (Z.eqb_neq _ _)), (proj2 (Z.leb_gt _ _)); [done|lia|]; naive_solver lia. }
  destruct (OpType op =? META_OP_CAS_DELETE) eqn:E2; bool_facts.
  { rewrite (proj2 (Z.eqb_neq _ _)), (proj2 (Z.leb_gt _ _)); [done|lia|]; naive_solver lia. }
  repeat case_match; bool_facts; done.
Qed.

(** C32: a fence holds. Once a delete stamped [v] is the row, no sequence of stale
    operands changes it: user CAS operations whose token predates the delete are
    dropped, and neither in-flight migrations nor purges, whatever they carry, can
    resurrect the key. *)
Theorem fence_holds v ops :
  Forall (before_fence v) ops -> apply_all (Some (tombstone v)) ops = Some (tombstone v).
Proof.
  induction 1 as [|o ops Ho _ IH]; [done|].
  change (apply_all (apply_bytes (Some (tombstone v)) o) ops = Some (tombstone v)).
  by rewrite fence_step.
Qed.

(** A compaction or recompaction operand. *)
Definition migration (operand : bytes) : Prop :=
  forall op, proto_Unmarshal operand = Some op ->
    OpType op = META_OP_NONE /\ ValueType op = SEGMENT /\ Expiry op <> tombstoneExpiry.

Lemma migration_step b o :
  migration o -> Expiry b <> tombstoneExpiry ->
  exists b', apply_bytes (Some b) o = Some b' /\ Version b' = Version b
    /\ Expiry b' <> tombstoneExpiry
    /\ (b' = b \/ ValueType b' = SEGMENT /\ RawFilePath b' = EmptyString
        /\ exists op, proto_Unmarshal o = Some op /\ SegmentPath b' = SegmentPath op
           /\ (RawFilePath op = RawFilePath b \/ RawFilePath op = SegmentPath b)).
Proof.
  intros Hm Hb. unfold apply_bytes. destruct (proto_Unmarshal o) as [op|] eqn:E; [|by eauto 10].
  destruct (Hm op E) as (H1 & H2 & H3). unfold apply_operand. rewrite H1, H2. cbn.
  destruct (bool_decide (RawFilePath op = EmptyString)); [by eauto 10|]. cbn.
  destruct (negb _ && negb _) eqn:Em; [by eauto 10|].
  exists (migrate b op). split; [done|]. cbn. split; [done|]. split; [done|].
  right. split; [done|]. split; [done|]. exists op. split_and!; [done|done|].
  apply andb_false_iff in Em as [Em|Em]; bool_facts; eauto.
Qed.

(** storage migration is invisible to versions. Any sequence of compaction and
    recompaction operands on a live row keeps its version (hence every CAS token a
    client holds for it) and keeps it live, and either leaves the row alone or
    replaces its location by one whose precondition named the row's current raw
    file or segment. *)
Theorem migration_preserves_version b ops :
  Expiry b <> tombstoneExpiry -> Forall migration ops ->
  exists b', apply_all (Some b) ops = Some b' /\ Version b' = Version b
    /\ EffectiveRowVersion (Some b') = EffectiveRowVersion (Some b).
Proof.
  intros Hb Hall.
  assert (exists b', apply_all (Some b) ops = Some b' /\ Version b' = Version b
    /\ Expiry b' <> tombstoneExpiry) as (b' & E & Hv & He).
  { revert b Hb. induction Hall as [|o ops Ho Hall IH]; intros b Hb; [by eauto|].
    destruct (migration_step b o Ho Hb) as (b1 & E1 & Hv1 & He1 & _).
    destruct (IH b1 He1) as (b' & E & Hv & He). exists b'. rewrite <- Hv1, <- Hv.
    split; [|done]. change (apply_all (apply_bytes (Some b) o) ops = Some b'). by rewrite E1. }
  exists b'. split_and!; [done|done|]. unfold EffectiveRowVersion.
  by rewrite (proj2 (Z.eqb_neq _ _) He), (proj2 (Z.eqb_neq _ _) Hb), Hv.
Qed.

(** Every row there is, is well formed. *)
Definition base_wf (base : option ValueMessage) : Prop := forall b, base = Some b -> row_wf b.

Lemma adopt_wf op : operand_wf op -> OpType op = META_OP_CAS_PUT -> row_wf (adopt op).
Proof.
  intros [(_ & He & Hs & Hloc)|[E|[[E _]|[E _]]]] Ho; try (by rewrite E in Ho).
  destruct Hloc as [[Ht Hr]|[Ht Hr]]; split; cbn; rewrite ?Hs, ?Ht, ?Hr; done.
Qed.

Lemma migrate_wf b op : operand_wf op -> OpType op = META_OP_NONE -> ValueType op = SEGMENT -> row_wf (migrate b op).
Proof.
  intros [[E _]|[E|[[_ E]|(_ & _ & Hs & He)]]] Ho Ht; try (by rewrite E in Ho); [by rewrite E in Ht|].
  split; cbn; rewrite ?Ht; naive_solver.
Qed.

Lemma apply_operand_wf base op : base_wf base -> operand_wf op -> base_wf (apply_operand base op).
Proof.
  intros Hb Hop b'. assert (OpType op = META_OP_CAS_PUT \/ OpType op = META_OP_CAS_DELETE \/ OpType op = META_OP_NONE) as Ho
    by (unfold operand_wf in Hop; tauto).
  pose proof (adopt_wf op Hop) as Ha. pose proof (fun b => migrate_wf b op Hop) as Hm.
  unfold apply_operand. destruct Ho as [E|[E|E]]; rewrite E in *; cbn.
  - repeat case_match; intros; simplify_eq; eauto.
  - repeat case_match; intros; simplify_eq; eauto with ocache.
  - repeat case_match; intros; simplify_eq; bool_facts; eauto with ocache.
Qed.

(** C35: merging keeps the invariant proto/storage.proto states for stored values. Over no
    row or a well-formed one, whatever operands the engine writes are stacked on a metadata
    key, in any order and number and together with operands that do not decode, what
    [mergeMetadataCAS] stores decodes to a row without operand-only fields, with a raw-file
    path exactly when it is a RAW_FILE row and a segment path exactly when it is a SEGMENT
    row, whose tombstones carry no location. ([operand_wf] lists the fields of the operands;
    [cas_put_operand_wf], [cas_delete_operand_wf] and [migration_operands_wf] show it of
    those that the engine builds.) *)
Theorem merge_preserves_row_wf existing ops res :
  existing = EmptyString \/ (exists b, proto_Unmarshal existing = Some b /\ row_wf b) ->
  Forall (fun o => forall op, proto_Unmarshal o = Some op -> operand_wf op) ops ->
  mergeMetadataCAS existing ops = Some res -> exists b', proto_Unmarshal res = Some b' /\ row_wf b'.
Proof.
  intros Hex Hall. assert (forall base, base_wf base -> (forall b, base = Some b -> vm_ok b) ->
    match apply_all base ops with None => Some expiredSentinel | Some vm => proto_Marshal vm end = Some res ->
    exists b', proto_Unmarshal res = Some b' /\ row_wf b') as Hrun.
  { intros base Hb Hk E. assert (base_wf (apply_all base ops)) as Hw.
    { clear E Hk. revert base Hb. induction Hall as [|o ops Ho _ IH]; intros base Hb; [done|]. apply IH. unfold apply_bytes.
      destruct (proto_Unmarshal o) as [op|]; [|done]. apply apply_operand_wf; eauto. }
    destruct (apply_all base ops) as [m|] eqn:Em; simplify_eq.
    - exists m. split; [|by apply Hw]. eapply marshal_unmarshal; [|done]. by eapply apply_all_ok.
    - exists (tombstone 0). split; [|apply tombstone_wf]. eapply marshal_unmarshal, init_ok. apply vm_ok_tombstone, is_u64_0. }
  unfold mergeMetadataCAS. case_decide; [by apply Hrun|]. destruct Hex as [|(b & E & Hb)]; [done|]. rewrite E.
  apply Hrun; intros ? [= <-]; [done|]. by eapply unmarshal_ok.
Qed.

Lemma FullMerge_total key existing operands : is_Some (FullMerge key existing operands).
Proof.
  unfold FullMerge. case_match.
  { apply marshal_di_total. apply fold_add_ok. apply di_base_ok. }
  case_match; [|by case_match; eauto].
  unfold mergeMetadataCAS. case_decide.
  - destruct (apply_all None operands) as [m|] eqn:E; [|eauto].
    apply marshal_total. by eapply apply_all_ok in E.
  - destruct (proto_Unmarshal existing) as [b|] eqn:Eb; [|eauto].
    destruct (apply_all (Some b) operands) as [m|] eqn:E; [|eauto].
    apply marshal_total. eapply apply_all_ok in E; [done|].
    intros ? [= <-]. by eapply unmarshal_ok.
Qed.

(** the operator never fails. Whatever bytes are stored and stacked on any key,
    FullMerge returns a value, so RocksDB never reports corruption from it (which
    would fail every read of the key and stall compactions). *)
Theorem FullMerge_never_fails key existing operands :
  is_Some (FullMerge key existing operands).
Proof. apply FullMerge_total. Qed.

(** A user CAS guarded by version [e], with a fresh stamp. *)
Definition contender (e : Z) (op : ValueMessage) : Prop :=
  (OpType op = META_OP_CAS_PUT /\ Expiry op <> tombstoneExpiry \/ OpType op = META_OP_CAS_DELETE)
  /\ CasExpectedVersion op = e /\ e < Version op.

(** What a contender leaves behind. *)
Definition cas_result (op : ValueMessage) : ValueMessage :=
  if OpType op =? META_OP_CAS_PUT then adopt op else tombstone (Version op).

Lemma contender_wins e b op :
  contender e op -> Expiry b <> tombstoneExpiry -> EffectiveRowVersion (Some b) = e ->
  apply_operand (Some b) op = Some (cas_result op).
Proof.
  intros ([[H1 H2]|H1] & H3 & H4) Hb He; unfold apply_operand, cas_result; rewrite H1; cbn -[EffectiveRowVersion];
    rewrite (proj2 (Z.eqb_neq _ _) Hb), He, H3, Z.eqb_refl; done.
Qed.

Lemma contender_loses e w op :
  0 < e -> contender e w -> contender e op ->
  apply_operand (Some (cas_result w)) op = Some (cas_result w).
Proof.
  intros He ([[H1 H2]|H1] & H3 & H4) ([[G1 G2]|G1] & G3 & G4); unfold cas_result, apply_operand; rewrite H1, G1; cbn;
    rewrite ?(proj2 (Z.eqb_neq _ _) H2); cbn.
  1,2: rewrite (proj2 (Z.eqb_neq (Version w) 0)) by lia;
       rewrite (proj2 (Z.eqb_neq (Version w) _)) by lia; done.
  all: unfold fenceAdmits; rewrite (proj2 (Z.eqb_neq _ _)) by lia;
       rewrite (proj2 (Z.leb_gt _ _)) by (cbn; lia); done.
Qed.

(** Exactly one of the writers that race on one version wins. When several puts and
    deletes guarded by the live row's version are stacked in any order, the first
    takes effect and every later one is dropped, so the row ends as the first
    writer left it and carries its stamp. *)
Theorem first_cas_wins b e w rest :
  0 < e -> Expiry b <> tombstoneExpiry -> EffectiveRowVersion (Some b) = e ->
  contender e w -> Forall (contender e) rest ->
  fold_left apply_operand (w :: rest) (Some b) = Some (cas_result w)
  /\ Version (cas_result w) = Version w.
Proof.
  intros He Hb Hv Hw Hrest. split.
  - cbn [fold_left]. rewrite (contender_wins e) by done. clear b Hb Hv.
    induction Hrest as [|op rest Hop Hrest IH]; [done|]. cbn [fold_left].
    by rewrite (contender_loses e).
  - unfold cas_result. by destruct (_ =? _).
Qed.

(** Sum of the increments of [(entries, bytes)] pairs. *)
Definition sum_pairs (l : list (Z * Z)) : Z * Z :=
  (foldr Z.add 0 l.*1, foldr Z.add 0 l.*2).

Lemma fold_add_pairs l e : di_ok e ->
  fold_left add_operand ((fun p => MakeDeleteIndexOperand p.1 p.2) <$> l) e
  = MkDI (i64 (DeletedEntries e + (sum_pairs l).1)) (i64 (DeletedBytes e + (sum_pairs l).2)).
Proof.
  revert e. induction l as [|[a b] l IH]; intros e [Ha Hb]; cbn [fmap list_fmap fold_left].
  - unfold sum_pairs. cbn. rewrite !Z.add_0_r, !i64_small by done. by destruct e.
  - rewrite IH by (apply add_operand_ok; done). rewrite add_delete_operand.
    unfold sum_pairs. cbn. rewrite !i64_add_l. f_equal; f_equal; lia.
Qed.

(** Delete-index credits add up. Merging the operands of any number of deletions
    yields the previous counters plus the sums of their entry and byte counts (as
    int64), and resolving them in two steps yields the same counters as in one. *)
Theorem delete_index_counts existing l1 l2 :
  let ops l := (fun p : Z * Z => MakeDeleteIndexOperand p.1 p.2) <$> l in
  exists mid res,
    mergeDeleteIndex existing (ops l1) = Some mid
    /\ mergeDeleteIndex existing (ops (l1 ++ l2)) = Some res
    /\ proto_Unmarshal_DI res
       = Some (MkDI (i64 (DeletedEntries (di_base existing) + (sum_pairs (l1 ++ l2)).1))
                    (i64 (DeletedBytes (di_base existing) + (sum_pairs (l1 ++ l2)).2)))
    /\ mergeDeleteIndex mid (ops l2) = Some res.
Proof.
  intros ops. pose proof (di_base_ok existing) as Hb.
  unfold mergeDeleteIndex. fold (di_base existing).
  set (e1 := fold_left add_operand (ops l1) (di_base existing)).
  set (e2 := fold_left add_operand (ops (l1 ++ l2)) (di_base existing)).
  assert (di_ok e1) as H1 by by apply fold_add_ok.
  assert (di_ok e2) as H2 by by apply fold_add_ok.
  destruct (marshal_di_total e1 H1) as [mid Hmid], (marshal_di_total e2 H2) as [res Hres].
  exists mid, res. split_and!; try done.
  - rewrite (marshal_di_unmarshal e2 res H2 Hres). unfold e2, ops. by rewrite fold_add_pairs.
  - rewrite <- Hres. f_equal. unfold e2, ops. rewrite fmap_app, fold_left_app. fold (ops l1).
    fold e1. f_equal. pose proof (marshal_di_unmarshal e1 mid H1 Hmid) as E.
    case_decide as Hd; [|by rewrite E]. subst mid. rewrite unmarshal_di_empty in E. congruence.
Qed.

End Props.
