(* ===== verification/Wire.v ===== *)
(** * Wire-level field extractors (storage/value_wire.go)

    Hot scans read single fields of a stored message straight off the wire
    instead of decoding it. Each loop below follows the source's loop; [fuel]
    bounds its iterations (every iteration consumes at least one byte, so the
    length of the buffer is enough) and [None] is [ok == false]. The theorems
    show that each extractor returns exactly the fields [proto.Unmarshal] would. *)

From S2P Require Import Prelude Message.

Open Scope Z_scope.

Definition valueTypeField : Z := 1.
Definition valueDataField : Z := 2.
Definition valueExpiryField : Z := 3.
Definition valueRawPathField : Z := 4.
Definition valueSegPathField : Z := 5.
Definition valueLengthField : Z := 7.
Definition valueVersionField : Z := 9.

Record valueMessageCleanupFields := MkCleanup {
  cf_valueType : Z;
  cf_valueLength : Z;
  cf_rawFilePath : bytes;
  cf_segmentPath : bytes
}.

Definition cleanup_zero : valueMessageCleanupFields := MkCleanup 0 0 EmptyString EmptyString.

Section Extractors.

Context `{Protobuf}.

Fixpoint varint_field_loop (fuel : nat) (buf : bytes) (want val : Z) : option Z :=
  match buf with
  | EmptyString => Some val
  | _ => match fuel with O => None | S fuel =>
      '(num, typ, n) ← ConsumeTag buf;
      if negb (num_IsValid num) then None
      else
        let buf := sdrop n buf in
        if (num =? want) && (typ =? VarintType) then
          '(v, vn) ← ConsumeVarint buf;
          varint_field_loop fuel (sdrop vn buf) want (i64 v)
        else if ((num =? valueRawPathField) || (num =? valueSegPathField)) && (typ =? BytesType) then
          '(v, vn) ← ConsumeBytes buf;
          if negb (utf8_valid v) then None
          else varint_field_loop fuel (sdrop vn buf) want val
        else
          n ← ConsumeFieldValue num typ buf;
          varint_field_loop fuel (sdrop n buf) want val
      end
  end.

Definition valueMessageVarintField (buf : bytes) (want : Z) : option Z :=
  varint_field_loop (String.length buf) buf want 0.

Fixpoint segment_ref_loop (fuel : nat) (buf segmentPath : bytes) (valueLength : Z)
    : option (bytes * Z) :=
  match buf with
  | EmptyString => Some (segmentPath, valueLength)
  | _ => match fuel with O => None | S fuel =>
      '(num, typ, n) ← ConsumeTag buf;
      if negb (num_IsValid num) then None
      else
        let buf := sdrop n buf in
        if (num =? valueLengthField) && (typ =? VarintType) then
          '(v, vn) ← ConsumeVarint buf;
          segment_ref_loop fuel (sdrop vn buf) segmentPath (i64 v)
        else if ((num =? valueRawPathField) || (num =? valueSegPathField)) && (typ =? BytesType) then
          '(v, vn) ← ConsumeBytes buf;
          if negb (utf8_valid v) then None
          else segment_ref_loop fuel (sdrop vn buf)
                 (if num =? valueSegPathField then v else segmentPath) valueLength
        else
          n ← ConsumeFieldValue num typ buf;
          segment_ref_loop fuel (sdrop n buf) segmentPath valueLength
      end
  end.

Definition valueMessageSegmentRef (buf : bytes) : option (bytes * Z) :=
  segment_ref_loop (String.length buf) buf EmptyString 0.

Fixpoint size_raw_loop (fuel : nat) (buf : bytes) (valueLength : Z) (rawPath : bytes)
    : option (Z * bytes) :=
  match buf with
  | EmptyString => Some (valueLength, rawPath)
  | _ => match fuel with O => None | S fuel =>
      '(num, typ, n) ← ConsumeTag buf;
      if negb (num_IsValid num) then None
      else
        let buf := sdrop n buf in
        if (num =? valueLengthField) && (typ =? VarintType) then
          '(v, vn) ← ConsumeVarint buf;
          size_raw_loop fuel (sdrop vn buf) (i64 v) rawPath
        else if ((num =? valueRawPathField) || (num =? valueSegPathField)) && (typ =? BytesType) then
          '(v, vn) ← ConsumeBytes buf;
          if negb (utf8_valid v) then None
          else size_raw_loop fuel (sdrop vn buf) valueLength
                 (if num =? valueRawPathField then v else rawPath)
        else
          n ← ConsumeFieldValue num typ buf;
          size_raw_loop fuel (sdrop n buf) valueLength rawPath
      end
  end.

Definition valueMessageSizeAndRawPath (buf : bytes) : option (Z * bytes) :=
  size_raw_loop (String.length buf) buf 0 EmptyString.

Definition valueMessageValueLength (buf : bytes) : option Z :=
  valueMessageVarintField buf valueLengthField.

Definition valueMessageVersion (buf : bytes) : option Z :=
  v ← valueMessageVarintField buf valueVersionField; Some (u64 v).

Definition valueMessageExpiry (buf : bytes) : option Z :=
  valueMessageVarintField buf valueExpiryField.

Fixpoint cleanup_loop (fuel : nat) (buf : bytes) (fields : valueMessageCleanupFields)
    : option valueMessageCleanupFields :=
  match buf with
  | EmptyString => Some fields
  | _ => match fuel with O => None | S fuel =>
      '(num, typ, n) ← ConsumeTag buf;
      if negb (num_IsValid num) then None
      else
        let buf := sdrop n buf in
        let 'MkCleanup ty len raw seg := fields in
        if (num =? valueTypeField) && (typ =? VarintType) then
          '(v, vn) ← ConsumeVarint buf;
          cleanup_loop fuel (sdrop vn buf) (MkCleanup (i32 v) len raw seg)
        else if (num =? valueLengthField) && (typ =? VarintType) then
          '(v, vn) ← ConsumeVarint buf;
          cleanup_loop fuel (sdrop vn buf) (MkCleanup ty (i64 v) raw seg)
        else if (num =? valueRawPathField) && (typ =? BytesType) then
          '(v, vn) ← ConsumeBytes buf;
          if negb (utf8_valid v) then None
          else cleanup_loop fuel (sdrop vn buf) (MkCleanup ty len v seg)
        else if (num =? valueSegPathField) && (typ =? BytesType) then
          '(v, vn) ← ConsumeBytes buf;
          if negb (utf8_valid v) then None
          else cleanup_loop fuel (sdrop vn buf) (MkCleanup ty len raw v)
        else
          n ← ConsumeFieldValue num typ buf;
          cleanup_loop fuel (sdrop n buf) fields
      end
  end.

Definition decodeValueMessageCleanupFields (buf : bytes) : option valueMessageCleanupFields :=
  cleanup_loop (String.length buf) buf cleanup_zero.

(** The message rebuilt without field 2. *)
Fixpoint strip_loop (fuel : nat) (buf stripped : bytes) : option bytes :=
  match buf with
  | EmptyString => Some stripped
  | _ => match fuel with O => None | S fuel =>
      '(num, typ, tn) ← ConsumeTag buf;
      if negb (num_IsValid num) then None
      else
        vn ← ConsumeFieldValue num typ (sdrop tn buf);
        strip_loop fuel (sdrop (tn + vn) buf)
          (if num =? valueDataField then stripped else stripped +:+ stake (tn + vn) buf)
      end
  end.

Definition unmarshalValueMessageSkippingData (buf : bytes) : option ValueMessage :=
  stripped ← strip_loop (String.length buf) buf EmptyString;
  proto_Unmarshal stripped.

End Extractors.

(** ** Equivalence with [proto.Unmarshal] *)

Lemma sdrop_add n m (s : bytes) : sdrop m (sdrop n s) = sdrop (n + m) s.
Proof. apply sdrop_sdrop. Qed.

(** The setters change only the field they name. *)
Lemma set_varint_proj num v m :
  (num <> 1 -> ValueType (set_varint num v m) = ValueType m)
  /\ (num <> 3 -> Expiry (set_varint num v m) = Expiry m)
  /\ (num <> 7 -> ValueLength (set_varint num v m) = ValueLength m)
  /\ (num <> 9 -> Version (set_varint num v m) = Version m)
  /\ RawFilePath (set_varint num v m) = RawFilePath m
  /\ SegmentPath (set_varint num v m) = SegmentPath m.
Proof.
  destruct m. unfold set_varint.
  repeat match goal with |- context [num =? ?k] => destruct (Z.eqb_spec num k); subst end;
    cbn; split_and!; try done; lia.
Qed.

Lemma set_bytes_proj num b m :
  (num <> 4 -> RawFilePath (set_bytes num b m) = RawFilePath m)
  /\ (num <> 5 -> SegmentPath (set_bytes num b m) = SegmentPath m)
  /\ ValueType (set_bytes num b m) = ValueType m
  /\ Expiry (set_bytes num b m) = Expiry m
  /\ ValueLength (set_bytes num b m) = ValueLength m
  /\ Version (set_bytes num b m) = Version m.
Proof.
  destruct m. unfold set_bytes.
  repeat match goal with |- context [num =? ?k] => destruct (Z.eqb_spec num k); subst end;
    cbn; split_and!; try done; lia.
Qed.

Section Equiv.

Context `{ProtobufLaws}.

(** How one loop iteration of any extractor relates to one decoded field: the
    same bytes are consumed, the same inputs are refused. *)
Lemma field_cases buf m :
  match ConsumeTag buf with
  | None => unmarshal_field buf m = None
  | Some (num, typ, n) =>
      if negb (num_IsValid num) then unmarshal_field buf m = None
      else if ((num =? 4) || (num =? 5)) && (typ =? BytesType) then
        match ConsumeBytes (sdrop n buf) with
        | None => unmarshal_field buf m = None
        | Some (b, vn) =>
            unmarshal_field buf m
            = if utf8_valid b then Some ((n + vn)%nat, set_bytes num b m) else None
        end
      else if is_varint_field num && (typ =? VarintType) then
        match ConsumeVarint (sdrop n buf) with
        | None => unmarshal_field buf m = None
        | Some (v, vn) => unmarshal_field buf m = Some ((n + vn)%nat, set_varint num v m)
        end
      else match ConsumeFieldValue num typ (sdrop n buf) with
        | None => unmarshal_field buf m = None
        | Some vn => exists b, unmarshal_field buf m
            = Some ((n + vn)%nat, if (num =? 2) && (typ =? BytesType) then set_bytes 2 b m else m)
        end
  end.
Proof.
  unfold unmarshal_field. destruct (ConsumeTag buf) as [[[num typ] n]|]; cbn; [|done].
  destruct (num_IsValid num); cbn; [|done].
  destruct (typ =? BytesType) eqn:Et; bool_facts; subst.
  - rewrite !andb_true_r, !andb_false_r.
    destruct (num =? 2) eqn:E2; bool_facts; subst; cbn.
    + rewrite value_bytes. destruct (ConsumeBytes (sdrop n buf)) as [[b vn]|]; cbn; eauto.
    + destruct ((num =? 4) || (num =? 5)); cbn.
      * destruct (ConsumeBytes (sdrop n buf)) as [[b vn]|]; cbn; eauto.
      * destruct (ConsumeFieldValue _ _ _) as [vn|]; cbn; eauto using EmptyString.
  - rewrite !andb_false_r. destruct (is_varint_field num && (typ =? VarintType)).
    + destruct (ConsumeVarint (sdrop n buf)) as [[v vn]|]; cbn; eauto.
    + destruct (ConsumeFieldValue _ _ _) as [vn|]; cbn; eauto using EmptyString.
Qed.

(** Simulation of an extractor loop by the decoder: a loop whose iterations
    follow the decoded fields computes a projection of the decoded message. *)
Lemma extractor_equiv {A} (L : nat -> bytes -> A -> option A) (proj : ValueMessage -> A) :
  (forall fuel acc, L fuel EmptyString acc = Some acc) ->
  (forall c s acc, L O (String c s) acc = None) ->
  (forall fuel c s m, L (S fuel) (String c s) (proj m)
     = '(n, m') ← unmarshal_field (String c s) m; L fuel (sdrop n (String c s)) (proj m')) ->
  forall fuel buf m, L fuel buf (proj m) = proj <$> unmarshal_fields fuel buf m.
Proof.
  intros L0 L1 LS. induction fuel as [|fuel IH]; intros [|c s] m; cbn [unmarshal_fields];
    rewrite ?L0, ?L1, ?LS; try done.
  destruct (unmarshal_field (String c s) m) as [[n m']|]; cbn; [|done]. apply IH.
Qed.

(** One iteration: case analysis on the tag, following [field_cases]. *)
Ltac wire_iter buf m :=
  pose proof (field_cases buf m) as F;
  destruct (ConsumeTag buf) as [[[num typ] n]|]; cbn in F |- *; [|by rewrite F];
  destruct (num_IsValid num); cbn in F |- *; [|by rewrite F];
  unfold valueTypeField, valueLengthField, valueRawPathField, valueSegPathField in *;
  destruct (Z.eqb_spec typ VarintType) as [->|Hv];
    [| destruct (Z.eqb_spec typ BytesType) as [->|Hb]];
  rewrite ?andb_true_r, ?andb_false_r in *; cbn [BytesType VarintType Z.eqb] in F |- *;
  rewrite ?andb_true_r, ?andb_false_r in *.

Ltac wire_value :=
  match goal with
  | F : match ?c with Some _ => _ | None => _ end |- _ =>
      destruct c as [[? ?]|] eqn:?; cbn in F |- *
  | F : match ?c with Some _ => _ | None => _ end |- _ =>
      destruct c eqn:?; cbn in F |- *
  end.

Ltac wire_done :=
  rewrite ?value_varint, ?value_bytes;
  repeat match goal with E : _ = Some _ |- _ => rewrite E | E : _ = None |- _ => rewrite E end;
  cbn; rewrite ?sdrop_add; try done.

Ltac wire_utf8 :=
  match goal with |- context [utf8_valid ?b] => destruct (utf8_valid b) end; cbn; wire_done.

Ltac wire_decoded :=
  try match goal with F : exists _, unmarshal_field _ _ = _ |- _ => destruct F as [? F] end;
  match goal with F : unmarshal_field _ _ = _ |- _ => rewrite F; cbn end.

(** [pj] rewrites the projections of an updated message; the branches of an
    iteration are: a varint value, a UTF-8 checked string, anything else. *)
Ltac wire_step buf m pj :=
  wire_iter buf m;
  [ match goal with F : context [if is_varint_field ?k then _ else _] |- _ => destruct (is_varint_field k) eqn:Ei end
  | match goal with F : context [(?k =? 4) || _] |- _ => destruct ((k =? 4) || (k =? 5)) eqn:E45 end
  |];
  wire_value; wire_decoded; wire_done; try wire_utf8; pj.

Lemma varint_loop_step want proj fuel c s m :
  is_varint_field want = true ->
  (forall v, proj (set_varint want v m) = i64 v) ->
  (forall num v, num <> want -> proj (set_varint num v m) = proj m) ->
  (forall num b, proj (set_bytes num b m) = proj m) ->
  varint_field_loop (S fuel) (String c s) want (proj m)
  = '(n, m') ← unmarshal_field (String c s) m; varint_field_loop fuel (sdrop n (String c s)) want (proj m').
Proof.
  intros Hw P1 P2 P3. cbn [varint_field_loop]. set (buf := String c s). clearbody buf.
  wire_step buf m ltac:(
    try match goal with |- context [?k =? want] =>
      destruct (Z.eqb_spec k want) as [->|]; [try congruence|]; wire_done end;
    repeat case_match; rewrite ?P1, ?P2, ?P3 by done; done).
Qed.

(** Splits on the field numbers the goal tests, then computes the projections. *)
Ltac wire_proj :=
  repeat match goal with
  | |- context [?k =? ?f] => destruct (Z.eqb_spec k f) as [->|]; cbn in *; try discriminate
  end;
  wire_done;
  repeat match goal with
  | |- context [set_varint ?k ?v ?m] => destruct (set_varint_proj k v m) as (P1 & P3 & P7 & P9 & Pr & Ps);
      rewrite ?Pr, ?Ps, ?P1, ?P7 by done; clear P1 P3 P7 P9 Pr Ps
  | |- context [set_bytes ?k ?v ?m] => destruct (set_bytes_proj k v m) as (P4 & P5 & P1 & P3 & P7 & P9);
      rewrite ?P1, ?P7, ?P4, ?P5 by done; clear P1 P3 P4 P5 P7 P9
  end;
  try done; match goal with m : ValueMessage |- _ => by destruct m end.

Lemma segment_ref_loop_step fuel c s m :
  segment_ref_loop (S fuel) (String c s) (SegmentPath m) (ValueLength m)
  = '(n, m') ← unmarshal_field (String c s) m;
    segment_ref_loop fuel (sdrop n (String c s)) (SegmentPath m') (ValueLength m').
Proof.
  cbn [segment_ref_loop]. set (buf := String c s). clearbody buf.
  wire_step buf m wire_proj.
Qed.

Lemma size_raw_loop_step fuel c s m :
  size_raw_loop (S fuel) (String c s) (ValueLength m) (RawFilePath m)
  = '(n, m') ← unmarshal_field (String c s) m;
    size_raw_loop fuel (sdrop n (String c s)) (ValueLength m') (RawFilePath m').
Proof.
  cbn [size_raw_loop]. set (buf := String c s). clearbody buf.
  wire_step buf m wire_proj.
Qed.

Definition cleanup_fields (m : ValueMessage) : valueMessageCleanupFields :=
  MkCleanup (ValueType m) (ValueLength m) (RawFilePath m) (SegmentPath m).

Lemma cleanup_loop_step fuel c s m :
  cleanup_loop (S fuel) (String c s) (cleanup_fields m)
  = '(n, m') ← unmarshal_field (String c s) m;
    cleanup_loop fuel (sdrop n (String c s)) (cleanup_fields m').
Proof.
  cbn [cleanup_loop]. set (buf := String c s). clearbody buf. unfold cleanup_fields.
  wire_step buf m wire_proj.
Qed.

Lemma varint_field_equiv want proj buf :
  is_varint_field want = true -> proj vm_zero = 0 ->
  (forall v m, proj (set_varint want v m) = i64 v) ->
  (forall num v m, num <> want -> proj (set_varint num v m) = proj m) ->
  (forall num b m, proj (set_bytes num b m) = proj m) ->
  valueMessageVarintField buf want = proj <$> proto_Unmarshal buf.
Proof.
  intros Hw P0 P1 P2 P3. unfold valueMessageVarintField. rewrite unmarshal_spec, <- P0.
  apply (extractor_equiv (fun fuel buf acc => varint_field_loop fuel buf want acc) proj).
  - by intros [].
  - done.
  - intros. apply varint_loop_step; auto.
Qed.

Lemma expiry_spec buf : valueMessageExpiry buf = Expiry <$> proto_Unmarshal buf.
Proof.
  apply varint_field_equiv; try done; intros; try (by destruct m).
  - by apply set_varint_proj.
  - apply set_bytes_proj.
Qed.

Lemma value_length_spec buf : valueMessageValueLength buf = ValueLength <$> proto_Unmarshal buf.
Proof.
  apply varint_field_equiv; try done; intros; try (by destruct m).
  - by apply set_varint_proj.
  - apply set_bytes_proj.
Qed.

Lemma version_spec buf : valueMessageVersion buf = Version <$> proto_Unmarshal buf.
Proof.
  unfold valueMessageVersion.
  rewrite (varint_field_equiv _ (fun m => i64 (Version m))); try done; intros.
  - destruct (proto_Unmarshal buf) as [m|] eqn:E; cbn; [|done].
    apply unmarshal_ok in E. f_equal. rewrite u64_i64. apply u64_small, E.
  - destruct m. cbn. apply i64_u64.
  - f_equal. by apply set_varint_proj.
  - f_equal. apply set_bytes_proj.
Qed.

Lemma segment_ref_spec buf :
  valueMessageSegmentRef buf = (fun m => (SegmentPath m, ValueLength m)) <$> proto_Unmarshal buf.
Proof.
  unfold valueMessageSegmentRef. rewrite unmarshal_spec.
  apply (extractor_equiv (fun fuel buf acc => segment_ref_loop fuel buf acc.1 acc.2)
           (fun m => (SegmentPath m, ValueLength m)) ltac:(by intros [] []) ltac:(done)
           ltac:(intros; apply segment_ref_loop_step) _ buf vm_zero).
Qed.

Lemma size_raw_spec buf :
  valueMessageSizeAndRawPath buf = (fun m => (ValueLength m, RawFilePath m)) <$> proto_Unmarshal buf.
Proof.
  unfold valueMessageSizeAndRawPath. rewrite unmarshal_spec.
  apply (extractor_equiv (fun fuel buf acc => size_raw_loop fuel buf acc.1 acc.2)
           (fun m => (ValueLength m, RawFilePath m)) ltac:(by intros [] []) ltac:(done)
           ltac:(intros; apply size_raw_loop_step) _ buf vm_zero).
Qed.

Lemma cleanup_spec buf : decodeValueMessageCleanupFields buf = cleanup_fields <$> proto_Unmarshal buf.
Proof.
  unfold decodeValueMessageCleanupFields. rewrite unmarshal_spec.
  apply (extractor_equiv cleanup_loop cleanup_fields ltac:(by intros []) ltac:(done)
           ltac:(intros; apply cleanup_loop_step) _ buf vm_zero).
Qed.

(** C34: each hot-path extractor of value_wire.go (expiry, value length, version,
    segment reference, size with raw path, cleanup fields) returns exactly the
    fields a full [proto.Unmarshal] of the same bytes yields, and fails exactly
    when it fails: same fields, last one wins, malformed and non-UTF-8 messages
    refused. *)
Theorem extractors_agree_with_unmarshal buf :
  valueMessageExpiry buf = Expiry <$> proto_Unmarshal buf
  /\ valueMessageValueLength buf = ValueLength <$> proto_Unmarshal buf
  /\ valueMessageVersion buf = Version <$> proto_Unmarshal buf
  /\ valueMessageSegmentRef buf
     = (fun m => (SegmentPath m, ValueLength m)) <$> proto_Unmarshal buf
  /\ valueMessageSizeAndRawPath buf
     = (fun m => (ValueLength m, RawFilePath m)) <$> proto_Unmarshal buf
  /\ decodeValueMessageCleanupFields buf = cleanup_fields <$> proto_Unmarshal buf.
Proof.
  split_and!; [apply expiry_spec|apply value_length_spec|apply version_spec|apply segment_ref_spec
    |apply size_raw_spec|apply cleanup_spec].
Qed.

(** ** Stripping the inline payload *)

Definition clear_data (m : ValueMessage) : ValueMessage := set_bytes 2 EmptyString m.

(** A field read in front of other bytes decodes as it does alone. *)
Lemma unmarshal_field_local buf m n num typ vn c :
  ConsumeTag buf = Some (num, typ, n) -> ConsumeFieldValue num typ (sdrop n buf) = Some vn ->
  unmarshal_field (stake (n + vn) buf +:+ c) m = unmarshal_field buf m.
Proof.
  intros T V. unfold unmarshal_field. pose proof (tag_len _ _ _ _ T) as [_ Ln].
  rewrite stake_plus, sapp_assoc, (tag_local _ _ _ _ _ T), T. cbn.
  rewrite sdrop_stake_app by lia.
  destruct (negb _); [done|].
  destruct (Z.eqb_spec typ VarintType) as [->|]; [|destruct (Z.eqb_spec typ BytesType) as [->|]].
  - rewrite !andb_true_r, !andb_false_r. destruct (is_varint_field num).
    + rewrite value_varint in V. destruct (ConsumeVarint (sdrop n buf)) as [[v k]|] eqn:E; [|done].
      cbn in V. simplify_eq. by rewrite (varint_local _ _ _ _ E).
    + by rewrite (value_local _ _ _ _ _ V), V.
  - rewrite !andb_false_r, !andb_true_r. destruct (_ || _).
    + rewrite value_bytes in V. destruct (ConsumeBytes (sdrop n buf)) as [[v k]|] eqn:E; [|done].
      cbn in V. simplify_eq. by rewrite (bytes_local _ _ _ _ E).
    + by rewrite (value_local _ _ _ _ _ V), V.
  - rewrite !andb_false_r. by rewrite (value_local _ _ _ _ _ V), V.
Qed.

(** What one field does to the message, up to its payload field. *)
Lemma unmarshal_field_strip buf m num typ n :
  ConsumeTag buf = Some (num, typ, n) -> num_IsValid num = true ->
  match ConsumeFieldValue num typ (sdrop n buf) with
  | None => unmarshal_field buf m = None
  | Some vn =>
      if num =? valueDataField then
        exists m', unmarshal_field buf m = Some ((n + vn)%nat, m') /\ clear_data m' = clear_data m
      else match unmarshal_field buf m with
           | None => unmarshal_field buf (clear_data m) = None
           | Some (k, m') => k = (n + vn)%nat
               /\ unmarshal_field buf (clear_data m) = Some (k, clear_data m')
           end
  end.
Proof.
  intros T V. unfold unmarshal_field, valueDataField. rewrite T. cbn. rewrite V. cbn.
  destruct (Z.eqb_spec typ VarintType) as [->|]; [|destruct (Z.eqb_spec typ BytesType) as [->|]];
    rewrite ?andb_true_r, ?andb_false_r, ?value_varint, ?value_bytes.
  - destruct (ConsumeVarint (sdrop n buf)) as [[v k]|]; cbn.
    + destruct (Z.eqb_spec num 2) as [->|]; [cbn; eauto|].
      destruct (is_varint_field num); cbn; split; try done.
      do 2 f_equal. destruct m. unfold set_varint. cbn. by repeat case_match.
    + by destruct (is_varint_field num).
  - destruct (ConsumeBytes (sdrop n buf)) as [[v k]|]; cbn.
    + destruct (Z.eqb_spec num 2) as [->|]; cbn; [eexists; split; [done|by destruct m]|].
      destruct (_ || _) eqn:E; cbn; [|done]. destruct (utf8_valid v); cbn; [|done].
      split; [done|]. do 2 f_equal. destruct m. unfold clear_data, set_bytes.
      cbn. by repeat case_match; bool_facts; subst.
    + by destruct (_ || _).
  - destruct (ConsumeFieldValue num typ (sdrop n buf)) as [k|]; cbn; [|done].
    destruct (Z.eqb_spec num 2) as [->|]; cbn; eauto.
Qed.

Lemma unmarshal_field_len buf m n m' :
  unmarshal_field buf m = Some (n, m') -> (0 < n)%nat.
Proof. apply unmarshal_field_pos, tag_len. Qed.

Lemma unmarshal_fields_fuel fuel buf m :
  (String.length buf <= fuel)%nat ->
  unmarshal_fields fuel buf m = unmarshal_fields (String.length buf) buf m.
Proof. apply unmarshal_fields_enough, tag_len. Qed.

Lemma strip_loop_acc fuel buf acc :
  strip_loop fuel buf acc = (fun t => acc +:+ t) <$> strip_loop fuel buf EmptyString.
Proof.
  revert buf acc. induction fuel as [|fuel IH]; intros [|c s] acc; cbn [strip_loop];
    try (cbn; by rewrite ?sapp_nil_r); try done.
  destruct (ConsumeTag _) as [[[num typ] n]|]; cbn [mbind option_bind]; [|done].
  destruct (negb _); [done|].
  destruct (ConsumeFieldValue _ _ _) as [vn|]; cbn [mbind option_bind]; [|done].
  rewrite IH. destruct (num =? valueDataField); [done|]. rewrite (IH _ (EmptyString +:+ _)).
  destruct (strip_loop _ _ _); cbn [fmap option_fmap option_map]; [|done].
  by rewrite sapp_nil_l, sapp_assoc.
Qed.

Lemma unmarshal_fields_cons fuel buf c n m :
  (0 < n <= String.length buf)%nat -> (String.length c + n <= fuel)%nat ->
  unmarshal_fields fuel (stake n buf +:+ c) m
  = '(k, m') ← unmarshal_field (stake n buf +:+ c) m;
    unmarshal_fields fuel (sdrop k (stake n buf +:+ c)) m'.
Proof.
  intros Hn Hf. set (b := stake n buf +:+ c).
  assert (Hb : String.length b = (n + String.length c)%nat).
  { unfold b. rewrite slength_app, slength_stake. lia. }
  clearbody b. destruct b as [|x b]; cbn in Hb; [lia|]. destruct fuel as [|fuel]; [lia|].
  rewrite unmarshal_fields_S.
  destruct (unmarshal_field (String x b) m) as [[k m']|] eqn:E; [|done].
  cbn [mbind option_bind]. apply unmarshal_field_len in E.
  pose proof (slength_sdrop k (String x b)) as L. cbn in L.
  by rewrite (unmarshal_fields_fuel fuel), (unmarshal_fields_fuel (S fuel)) by lia.
Qed.

Lemma strip_loop_spec fuel buf m :
  (String.length buf <= fuel)%nat ->
  match strip_loop fuel buf EmptyString with
  | None => unmarshal_fields fuel buf m = None
  | Some t => (String.length t <= String.length buf)%nat
      /\ clear_data <$> unmarshal_fields fuel buf m = unmarshal_fields fuel t (clear_data m)
  end.
Proof.
  revert buf m. induction fuel as [|fuel IH]; intros [|c s] m Hl; cbn [strip_loop];
    try done.
  rewrite unmarshal_fields_S. set (buf := String c s) in *.
  destruct (ConsumeTag buf) as [[[num typ] n]|] eqn:T; cbn [mbind option_bind].
  2: { unfold unmarshal_field. by rewrite T. }
  destruct (num_IsValid num) eqn:V; cbn [negb].
  2: { unfold unmarshal_field. rewrite T. cbn. by rewrite V. }
  pose proof (unmarshal_field_strip buf m _ _ _ T V) as S1.
  pose proof (tag_len _ _ _ _ T) as Ln.
  destruct (ConsumeFieldValue num typ (sdrop n buf)) as [vn|] eqn:E; cbn [mbind option_bind].
  2: { by rewrite S1. }
  pose proof (value_len _ _ _ _ E) as Lv. rewrite slength_sdrop in Lv.
  rewrite strip_loop_acc.
  assert (Hd : (String.length (sdrop (n + vn) buf) <= fuel)%nat) by (rewrite slength_sdrop; lia).
  destruct (num =? valueDataField); cbn [mbind option_bind].
  - destruct S1 as (m' & -> & Hc). cbn [mbind option_bind]. specialize (IH _ m' Hd).
    destruct (strip_loop _ _ _) as [t|]; cbn [fmap option_fmap option_map]; [|done].
    rewrite sapp_nil_l. destruct IH as [Hlt IH]. rewrite slength_sdrop in Hlt, Hd. split; [lia|].
    rewrite <- Hc, IH, unmarshal_fields_fuel, (unmarshal_fields_fuel (S fuel)) by lia. done.
  - rewrite sapp_nil_l.
    pose proof (unmarshal_field_local buf (clear_data m) n num typ vn) as Loc.
    destruct (unmarshal_field buf m) as [[k m']|] eqn:Em; cbn [mbind option_bind].
    + destruct S1 as [-> S1]. specialize (IH _ m' Hd).
      destruct (strip_loop _ _ _) as [t|]; cbn [fmap option_fmap option_map]; [|done].
      destruct IH as [Hlt IH]. rewrite slength_sdrop in Hlt, Hd.
      assert (String.length buf = S (String.length s)) as Lb by done.
      split; [rewrite slength_app, slength_stake; lia|].
      rewrite unmarshal_fields_cons, Loc, S1 by (done || lia).
      cbn [mbind option_bind]. rewrite sdrop_stake_app by lia.
      by rewrite (unmarshal_fields_fuel (S fuel)), <- (unmarshal_fields_fuel fuel) by lia.
    + specialize (IH _ m Hd).
      destruct (strip_loop _ _ _) as [t|]; cbn [fmap option_fmap option_map]; [|done].
      destruct IH as [Hlt _]. rewrite slength_sdrop in Hlt, Hd.
      assert (String.length buf = S (String.length s)) as Lb by done.
      split; [rewrite slength_app, slength_stake; lia|].
      by rewrite unmarshal_fields_cons, Loc, S1 by (done || lia).
Qed.

Lemma skipping_spec buf : unmarshalValueMessageSkippingData buf = clear_data <$> proto_Unmarshal buf.
Proof.
  unfold unmarshalValueMessageSkippingData. rewrite unmarshal_spec.
  pose proof (strip_loop_spec (String.length buf) buf vm_zero (le_n _)) as S1.
  destruct (strip_loop _ _ _) as [t|]; cbn [mbind option_bind]; [|by rewrite S1].
  destruct S1 as [Hl ->]. by rewrite unmarshal_spec, (unmarshal_fields_fuel (String.length buf)).
Qed.

(** Dropping the inline payload before decoding
    ([unmarshalValueMessageSkippingData]) yields the decoded message with an empty
    [Data] and every other field intact, and fails exactly when a full decode
    would. *)
Theorem skipping_data_agrees buf :
  unmarshalValueMessageSkippingData buf = clear_data <$> proto_Unmarshal buf.
Proof. apply skipping_spec. Qed.

End Equiv.
