(* ===== verification/ProtoInstance.v ===== *)
(** * A concrete protobuf codec

    Shows that the protobuf interface of Message.v is consistent: a codec for the
    two stored messages with base-128 varints, one-byte tags and length-delimited
    fields in ascending order, zero fields omitted. It is a reference instance, not
    a model of the Go runtime: varints may have any length and groups are refused.
    The witnesses of the codec-dependent theorems compute with it. *)

From S2P Require Import Prelude Keys Message Merge Wire.

Open Scope Z_scope.

Definition byte (z : Z) : ascii := ascii_of_N (Z.to_N z).
Definition byte_val (c : ascii) : Z := Z.of_N (N_of_ascii c).

(** ** Varints *)

Fixpoint dec_varint (b : bytes) : option (Z * nat) :=
  match b with
  | EmptyString => None
  | String c r =>
      if byte_val c <? 128 then Some (byte_val c, 1%nat)
      else '(v, n) ← dec_varint r; Some (byte_val c - 128 + 128 * v, S n)
  end.

Fixpoint enc_varint_loop (fuel : nat) (v : Z) : bytes :=
  match fuel with
  | O => EmptyString
  | S fuel =>
      if v <? 128 then String (byte v) EmptyString
      else String (byte (v mod 128 + 128)) (enc_varint_loop fuel (v / 128))
  end.

Definition enc_varint (v : Z) : bytes := enc_varint_loop (S (Z.to_nat (Z.log2 v))) v.

(** ** Consumers *)

Definition dec_tag (b : bytes) : option (Z * Z * nat) :=
  '(v, n) ← dec_varint b;
  if v / 8 <? 1 then None else Some (v / 8, v mod 8, n).

Definition dec_bytes (b : bytes) : option (bytes * nat) :=
  '(v, n) ← dec_varint b;
  let k := Z.to_nat v in
  if decide (n + k <= String.length b)%nat then Some (stake k (sdrop n b), (n + k)%nat) else None.

Definition dec_value (num typ : Z) (b : bytes) : option nat :=
  if typ =? VarintType then snd <$> dec_varint b
  else if typ =? BytesType then snd <$> dec_bytes b
  else if typ =? Fixed64Type then if decide (8 <= String.length b)%nat then Some 8%nat else None
  else if typ =? Fixed32Type then if decide (4 <= String.length b)%nat then Some 4%nat else None
  else None.

(** ** Encoders *)

Definition enc_tag (num typ : Z) : bytes := String (byte (8 * num + typ)) EmptyString.

Definition enc_int (num v : Z) : bytes :=
  if v =? 0 then EmptyString else enc_tag num VarintType +:+ enc_varint (u64 v).

Definition enc_str (num : Z) (s : bytes) : bytes :=
  if decide (s = EmptyString) then EmptyString
  else enc_tag num BytesType +:+ enc_varint (Z.of_nat (String.length s)) +:+ s.

Definition enc_message (m : ValueMessage) : bytes :=
  enc_int 1 (ValueType m) +:+ enc_str 2 (Data m) +:+ enc_int 3 (Expiry m)
  +:+ enc_str 4 (RawFilePath m) +:+ enc_str 5 (SegmentPath m)
  +:+ enc_int 6 (SegmentOffset m) +:+ enc_int 7 (ValueLength m) +:+ enc_int 8 (Checksum m)
  +:+ enc_int 9 (Version m) +:+ enc_int 10 (OpType m) +:+ enc_int 11 (CasExpectedVersion m).

Definition enc_vm (m : ValueMessage) : option bytes :=
  if utf8_valid (RawFilePath m) && utf8_valid (SegmentPath m) then Some (enc_message m) else None.

Definition enc_di (e : DeleteIndexEntry) : option bytes :=
  Some (enc_int 1 (DeletedEntries e) +:+ enc_int 2 (DeletedBytes e)).

(** The delete-index codec reads its two fields by their numbers. *)
Fixpoint dec_di_loop (fuel : nat) (buf : bytes) (e : DeleteIndexEntry) : option DeleteIndexEntry :=
  match buf with
  | EmptyString => Some e
  | _ => match fuel with
    | O => None
    | S fuel =>
        '(num, typ, n) ← dec_tag buf;
        if typ =? VarintType then
          '(v, vn) ← dec_varint (sdrop n buf);
          dec_di_loop fuel (sdrop vn (sdrop n buf))
            (if num =? 1 then MkDI (i64 v) (DeletedBytes e)
             else if num =? 2 then MkDI (DeletedEntries e) (i64 v) else e)
        else
          vn ← dec_value num typ (sdrop n buf); dec_di_loop fuel (sdrop vn (sdrop n buf)) e
    end
  end.

Definition dec_di (b : bytes) : option DeleteIndexEntry := dec_di_loop (String.length b) b di_zero.

(** The decoder, through the consumers; a first dictionary carries them. *)
Definition consumers : Protobuf :=
  Build_Protobuf enc_vm (fun _ => None) enc_di dec_di dec_tag dec_varint dec_bytes dec_value.

Definition dec_vm (b : bytes) : option ValueMessage :=
  unmarshal_fields (H := consumers) (String.length b) b vm_zero.

#[export] Instance codec : Protobuf :=
  Build_Protobuf enc_vm dec_vm enc_di dec_di dec_tag dec_varint dec_bytes dec_value.

(** ** Laws *)

Lemma byte_val_byte z : 0 <= z < 256 -> byte_val (byte z) = z.
Proof. intros. unfold byte_val, byte. rewrite N_ascii_embedding by lia. lia. Qed.

Lemma dec_varint_len b v n : dec_varint b = Some (v, n) -> (0 < n <= String.length b)%nat.
Proof.
  revert v n. induction b as [|c b IH]; intros v n; [done|]. cbn. case_match.
  - intros. simplify_eq. lia.
  - destruct (dec_varint b) as [[v' n']|]; [|done]. intros. simplify_eq/=.
    specialize (IH _ _ eq_refl). lia.
Qed.

Lemma dec_varint_local b v n c :
  dec_varint b = Some (v, n) -> dec_varint (stake n b +:+ c) = Some (v, n).
Proof.
  revert v n. induction b as [|x b IH]; intros v n; [done|]. cbn. case_match eqn:E.
  - intros. simplify_eq. cbn [stake]. rewrite sapp_cons. cbn. by rewrite E.
  - destruct (dec_varint b) as [[v' n']|]; [|done]. cbn [mbind option_bind].
    intros. simplify_eq. cbn [stake]. rewrite sapp_cons. cbn. rewrite E, (IH _ _ eq_refl). done.
Qed.

Lemma enc_varint_loop_S fuel v :
  enc_varint_loop (S fuel) v
  = if v <? 128 then String (byte v) EmptyString
    else String (byte (v mod 128 + 128)) (enc_varint_loop fuel (v / 128)).
Proof. reflexivity. Qed.

Lemma dec_enc_varint_loop fuel v c :
  0 <= v < 2 ^ (1 + Z.of_nat fuel) ->
  dec_varint (enc_varint_loop (S fuel) v +:+ c)
  = Some (v, String.length (enc_varint_loop (S fuel) v)).
Proof.
  revert v. induction fuel as [|fuel IH]; intros v Hv; rewrite enc_varint_loop_S;
    destruct (Z.ltb_spec v 128) as [Hs|Hs]; rewrite sapp_cons.
  1,3: cbn; rewrite byte_val_byte by lia; by rewrite (proj2 (Z.ltb_lt v 128)) by lia.
  - cbn in Hv. lia.
  - rewrite Nat2Z.inj_succ, Z.add_succ_r, Z.pow_succ_r in Hv by lia.
    cbn [dec_varint String.length]. rewrite byte_val_byte by (Z.div_mod_to_equations; lia).
    rewrite (proj2 (Z.ltb_ge _ 128)) by (Z.div_mod_to_equations; lia).
    rewrite IH by (Z.div_mod_to_equations; lia).
    cbn -[enc_varint_loop]. do 2 f_equal. Z.div_mod_to_equations; lia.
Qed.

Lemma dec_enc_varint v c :
  0 <= v -> dec_varint (enc_varint v +:+ c) = Some (v, String.length (enc_varint v)).
Proof.
  intros Hv. apply dec_enc_varint_loop. rewrite Z2Nat.id, Z.add_1_l by apply Z.log2_nonneg.
  destruct (decide (v = 0)) as [->|]; [done|]. split; [done|]. apply Z.log2_spec. lia.
Qed.

Lemma dec_bytes_len b p n : dec_bytes b = Some (p, n) -> (0 < n <= String.length b)%nat.
Proof.
  unfold dec_bytes. destruct (dec_varint b) as [[v k]|] eqn:E; cbn; [|done].
  apply dec_varint_len in E. case_decide; intros; simplify_eq; lia.
Qed.

Lemma dec_bytes_local b p n c :
  dec_bytes b = Some (p, n) -> dec_bytes (stake n b +:+ c) = Some (p, n).
Proof.
  unfold dec_bytes. destruct (dec_varint b) as [[v k]|] eqn:E; cbn; [|done].
  pose proof (dec_varint_len _ _ _ E). case_decide as Hd; intros; simplify_eq.
  rewrite stake_plus, sapp_assoc, (dec_varint_local _ _ _ _ E). cbn.
  rewrite decide_True by (rewrite !slength_app, !slength_stake, slength_sdrop; lia).
  rewrite sdrop_stake_app by lia. do 2 f_equal.
  assert (String.length (stake (Z.to_nat v) (sdrop k b)) = Z.to_nat v) as L
    by (rewrite slength_stake, slength_sdrop; lia).
  by rewrite <- L at 1; rewrite stake_app.
Qed.

Lemma dec_value_local num typ b n c :
  dec_value num typ b = Some n -> dec_value num typ (stake n b +:+ c) = Some n.
Proof.
  unfold dec_value. repeat case_match; try done; intros; simplify_eq.
  - destruct (dec_varint b) as [[v k]|] eqn:E; cbn in *; simplify_eq. by rewrite (dec_varint_local _ _ _ _ E).
  - destruct (dec_bytes b) as [[v k]|] eqn:E; cbn in *; simplify_eq. by rewrite (dec_bytes_local _ _ _ _ E).
  - exfalso. match goal with H : ~ _ |- _ => apply H end. rewrite slength_app, slength_stake. lia.
  - exfalso. match goal with H : ~ _ |- _ => apply H end. rewrite slength_app, slength_stake. lia.
Qed.

Lemma dec_tag_enc num typ c :
  1 <= num <= 15 -> 0 <= typ <= 7 -> dec_tag (enc_tag num typ +:+ c) = Some (num, typ, 1%nat).
Proof.
  intros. unfold enc_tag, dec_tag. rewrite sapp_cons. cbn.
  rewrite byte_val_byte by lia. rewrite (proj2 (Z.ltb_lt _ 128)) by lia. cbn.
  replace ((8 * num + typ) / 8) with num by (Z.div_mod_to_equations; lia).
  replace ((8 * num + typ) mod 8) with typ by (Z.div_mod_to_equations; lia).
  by rewrite (proj2 (Z.ltb_ge _ _)) by lia.
Qed.

Lemma sdrop_1 x (s : bytes) : sdrop 1 (String x s) = s.
Proof. by destruct s. Qed.

(** Decoding a value written by the encoders at the head of a buffer. *)
Lemma field_enc_int num v c m :
  is_varint_field num = true ->
  exists n, unmarshal_field (H := codec) (enc_tag num VarintType +:+ enc_varint (u64 v) +:+ c) m
    = Some (n, set_varint num (u64 v) m)
  /\ sdrop n (enc_tag num VarintType +:+ enc_varint (u64 v) +:+ c) = c
  /\ n = S (String.length (enc_varint (u64 v))).
Proof.
  intros Hn. assert (1 <= num <= 11) as R by (unfold is_varint_field in Hn; lia).
  assert (num_IsValid num = true) as Hv by (unfold num_IsValid; lia).
  eexists. unfold unmarshal_field. cbn [ConsumeTag codec].
  rewrite dec_tag_enc by (unfold VarintType; lia). cbn [mbind option_bind].
  rewrite Hv, Hn. cbn [negb andb]. unfold enc_tag at 1. rewrite sapp_cons, sapp_nil_l, sdrop_1.
  cbn [VarintType Z.eqb ConsumeVarint codec].
  rewrite dec_enc_varint by apply u64_range. split; [done|]. split; [|done].
  unfold enc_tag. rewrite sapp_cons, sapp_nil_l. cbn [sdrop Nat.add]. apply sdrop_app.
Qed.

Lemma field_enc_str num s c m :
  num = 2 \/ (num = 4 \/ num = 5) /\ utf8_valid s = true ->
  exists n, unmarshal_field (H := codec)
      (enc_tag num BytesType +:+ enc_varint (Z.of_nat (String.length s)) +:+ s +:+ c) m
    = Some (n, set_bytes num s m)
  /\ sdrop n (enc_tag num BytesType +:+ enc_varint (Z.of_nat (String.length s)) +:+ s +:+ c) = c
  /\ n = S (String.length (enc_varint (Z.of_nat (String.length s))) + String.length s).
Proof.
  intros Hn. assert (1 <= num <= 11) as R by naive_solver lia.
  assert (num_IsValid num = true) as Hv by (unfold num_IsValid; lia).
  eexists. unfold unmarshal_field. cbn [ConsumeTag codec].
  rewrite dec_tag_enc by (unfold BytesType; lia). cbn [mbind option_bind]. rewrite Hv.
  assert ((num =? 2) || (num =? 4) || (num =? 5) = true) as -> by naive_solver lia.
  cbn [negb andb BytesType VarintType Z.eqb]. rewrite andb_false_r.
  unfold enc_tag at 1. rewrite sapp_cons, sapp_nil_l, sdrop_1.
  cbn [Pos.eqb ConsumeBytes codec]. unfold dec_bytes.
  rewrite dec_enc_varint by lia. cbn [mbind option_bind]. rewrite Nat2Z.id.
  rewrite decide_True by (rewrite !slength_app; lia).
  rewrite sdrop_app, stake_app. cbn [mbind option_bind].
  assert ((num =? 2) || utf8_valid s = true) as -> by naive_solver lia.
  split; [done|]. split; [|cbn; lia].
  unfold enc_tag. rewrite sapp_cons, sapp_nil_l, <- sapp_assoc. cbn [sdrop Nat.add].
  rewrite <- slength_app. apply sdrop_app.
Qed.

Lemma dec_tag_len b num typ n : dec_tag b = Some (num, typ, n) -> (0 < n <= String.length b)%nat.
Proof.
  unfold dec_tag. destruct (dec_varint b) as [[v k]|] eqn:E; cbn; [|done].
  case_match; intros; simplify_eq. by eapply dec_varint_len.
Qed.

(** The decoder with as much fuel as the buffer needs. *)
Definition decode (b : bytes) (m : ValueMessage) : option ValueMessage :=
  unmarshal_fields (H := codec) (String.length b) b m.

Lemma decode_field x r m n m' c :
  unmarshal_field (H := codec) (String x r) m = Some (n, m') -> sdrop n (String x r) = c ->
  decode (String x r) m = decode c m'.
Proof.
  intros E D. unfold decode. cbn [String.length]. rewrite unmarshal_fields_S, E. cbn [mbind option_bind].
  rewrite D. apply unmarshal_fields_enough; [apply dec_tag_len|].
  rewrite <- D, slength_sdrop. cbn.
  assert (0 < n)%nat by (eapply unmarshal_field_pos; [apply dec_tag_len|exact E]). lia.
Qed.

Lemma decode_int num v c m :
  is_varint_field num = true ->
  decode (enc_int num v +:+ c) m = decode c (if v =? 0 then m else set_varint num (u64 v) m).
Proof.
  intros Hn. unfold enc_int. destruct (v =? 0); [done|]. rewrite sapp_assoc.
  destruct (field_enc_int num v c m Hn) as (n & E & D & _).
  unfold enc_tag in *. rewrite sapp_cons in *. by eapply decode_field.
Qed.

Lemma decode_str num s c m :
  num = 2 \/ (num = 4 \/ num = 5) /\ utf8_valid s = true ->
  decode (enc_str num s +:+ c) m
  = decode c (if decide (s = EmptyString) then m else set_bytes num s m).
Proof.
  intros Hn. unfold enc_str. case_decide; [done|]. rewrite !sapp_assoc.
  destruct (field_enc_str num s c m Hn) as (n & E & D & _).
  unfold enc_tag in *. rewrite sapp_cons in *. by eapply decode_field.
Qed.

Lemma i32_u64 v : i32 (u64 v) = i32 v.
Proof. unfold i32, u64, two64, two32. unfold_ints. Z.div_mod_to_equations; lia. Qed.

Lemma u32_u64 v : u32 (u64 v) = u32 v.
Proof. unfold u32, u64. unfold_ints. Z.div_mod_to_equations; lia. Qed.

Lemma i32_small z : is_i32 z -> i32 z = z.
Proof. unfold_ints. intros. Z.div_mod_to_equations; lia. Qed.

Lemma u32_small z : is_u32 z -> u32 z = z.
Proof. unfold_ints. intros. Z.div_mod_to_equations; lia. Qed.

(** Decodes one encoded field: the next message is the current one with the field set. *)
Ltac next_message m' :=
  match goal with |- decode _ ?x = _ => replace x with m' end;
  [|case_match; bool_facts; subst; [done|];
    cbn; f_equal; rewrite ?i64_u64, ?i32_u64, ?u32_u64, ?i64_small, ?i32_small, ?u32_small by done;
    rewrite ?u64_small by (apply u64_range || done); done].

Ltac int_step m' := rewrite decode_int by done; next_message m'.
Ltac str_step m' := rewrite decode_str by naive_solver; next_message m'.

Lemma decode_message m : vm_ok m -> decode (enc_message m) vm_zero = Some m.
Proof.
  intros [H1 H2 H3 H4 H5 H6 H7 H8 H9 H10]. destruct m as [ty da ex ra se so vl ck ve op ca].
  unfold enc_message. cbn in *. rewrite <- (sapp_nil_r (enc_int 11 ca)).
  pose (e := EmptyString).
  int_step (MkVM ty e 0 e e 0 0 0 0 0 0).
  str_step (MkVM ty da 0 e e 0 0 0 0 0 0).
  int_step (MkVM ty da ex e e 0 0 0 0 0 0).
  str_step (MkVM ty da ex ra e 0 0 0 0 0 0).
  str_step (MkVM ty da ex ra se 0 0 0 0 0 0).
  int_step (MkVM ty da ex ra se so 0 0 0 0 0).
  int_step (MkVM ty da ex ra se so vl 0 0 0 0).
  int_step (MkVM ty da ex ra se so vl ck 0 0 0).
  int_step (MkVM ty da ex ra se so vl ck ve 0 0).
  int_step (MkVM ty da ex ra se so vl ck ve op 0).
  int_step (MkVM ty da ex ra se so vl ck ve op ca).
  done.
Qed.

(** Decoding keeps every field in the range of its type. *)
Lemma set_varint_ok num v m : vm_ok m -> vm_ok (set_varint num v m).
Proof.
  intros []. destruct m. unfold set_varint.
  repeat case_match; split; cbn in *; try done;
    auto using i32_range, i64_range, u32_range, u64_range.
Qed.

Lemma field_ok b m n m' : vm_ok m -> unmarshal_field (H := codec) b m = Some (n, m') -> vm_ok m'.
Proof.
  intros Hm. unfold unmarshal_field. cbn.
  destruct (dec_tag b) as [[[num typ] k]|]; cbn; [|done]. case_match; [done|].
  case_match; [destruct (dec_varint _) as [[]|]; cbn; [|done]; intros; simplify_eq; by apply set_varint_ok|].
  case_match; [|destruct (dec_value _ _ _); cbn; intros; by simplify_eq].
  destruct (dec_bytes _) as [[p ?]|]; cbn; [|done]. case_match eqn:U; [|done]. intros; simplify_eq.
  destruct Hm, m. unfold set_bytes. repeat case_match; split; cbn in *; try done; bool_facts; naive_solver.
Qed.

Lemma fields_ok fuel b m m' :
  vm_ok m -> unmarshal_fields (H := codec) fuel b m = Some m' -> vm_ok m'.
Proof.
  revert b m. induction fuel as [|fuel IH]; intros [|c b] m Hm; cbn [unmarshal_fields];
    try (intros; by simplify_eq).
  destruct (unmarshal_field _ m) as [[n m1]|] eqn:E; cbn; [|done].
  apply IH. by eapply field_ok.
Qed.

Lemma vm_zero_ok : vm_ok vm_zero.
Proof. split; cbn; try done; unfold_ints; lia. Qed.

Lemma dec_di_nil fuel e : dec_di_loop fuel EmptyString e = Some e.
Proof. by destruct fuel. Qed.

Lemma dec_di_int num v c e fuel :
  num = 1 \/ num = 2 -> is_i64 v ->
  (if num =? 1 then DeletedEntries e = 0 else DeletedBytes e = 0) ->
  (String.length (enc_int num v) <= fuel)%nat ->
  exists fuel', (fuel <= fuel' + String.length (enc_int num v))%nat
    /\ dec_di_loop fuel (enc_int num v +:+ c) e
       = dec_di_loop fuel' c (if num =? 1 then MkDI v (DeletedBytes e) else MkDI (DeletedEntries e) v).
Proof.
  intros Hn Hv He. unfold enc_int. destruct (Z.eqb_spec v 0) as [->|Hz].
  { exists fuel. rewrite sapp_nil_l. split; [lia|]. f_equal. destruct e, (num =? 1); cbn in *; by subst. }
  rewrite slength_app. intros Hf. destruct fuel as [|fuel]; [cbn in Hf; lia|].
  exists fuel. rewrite sapp_assoc. unfold enc_tag in *. rewrite sapp_cons. cbn [dec_di_loop].
  pose proof (dec_tag_enc num VarintType (enc_varint (u64 v) +:+ c)) as T.
  unfold enc_tag in T. rewrite sapp_cons in T. rewrite T by (unfold VarintType; naive_solver lia).
  cbn [mbind option_bind]. change (VarintType =? VarintType) with true. cbn iota.
  rewrite sapp_nil_l, sdrop_1, dec_enc_varint by apply u64_range. cbn [mbind option_bind].
  rewrite sdrop_app, i64_u64, i64_small by done. split; [cbn in *; lia|].
  by destruct Hn as [->| ->].
Qed.

Lemma dec_enc_di e b : di_ok e -> enc_di e = Some b -> dec_di b = Some e.
Proof.
  intros [H1 H2] [= <-]. unfold dec_di. destruct e as [a d]. cbn in H1, H2. rewrite slength_app.
  cbn [DeletedEntries DeletedBytes].
  destruct (dec_di_int 1 a (enc_int 2 d) di_zero (String.length (enc_int 1 a) + String.length (enc_int 2 d)))
    as (f & Hf & ->); [by left|done..|lia|]. cbn [Z.eqb Pos.eqb].
  rewrite <- (sapp_nil_r (enc_int 2 d)) at 1.
  destruct (dec_di_int 2 d EmptyString (MkDI a 0) f) as (f' & _ & E); [by right|done..|lia|].
  cbn [DeletedBytes di_zero]. rewrite E. apply dec_di_nil.
Qed.

Lemma dec_di_loop_ok fuel b e e' : di_ok e -> dec_di_loop fuel b e = Some e' -> di_ok e'.
Proof.
  revert b e. induction fuel as [|fuel IH]; intros [|c b] e [H1 H2]; cbn [dec_di_loop];
    try (intros; by simplify_eq).
  destruct (dec_tag _) as [[[num typ] n]|]; cbn; [|done]. case_match.
  - destruct (dec_varint _) as [[v vn]|]; cbn; [|done]. apply IH.
    repeat case_match; split; cbn; auto using i64_range.
  - destruct (dec_value _ _ _); cbn; [|done]. by apply IH.
Qed.

Lemma dec_value_len num typ b n : dec_value num typ b = Some n -> (n <= String.length b)%nat.
Proof.
  unfold dec_value. repeat case_match; try done; intros; simplify_eq; try done.
  - destruct (dec_varint b) as [[v k]|] eqn:E; cbn in *; simplify_eq. apply dec_varint_len in E; lia.
  - destruct (dec_bytes b) as [[v k]|] eqn:E; cbn in *; simplify_eq. apply dec_bytes_len in E; lia.
Qed.

Lemma dec_tag_local b num typ n c :
  dec_tag b = Some (num, typ, n) -> dec_tag (stake n b +:+ c) = Some (num, typ, n).
Proof.
  unfold dec_tag. destruct (dec_varint b) as [[v k]|] eqn:E; cbn; [|done].
  case_match eqn:E1; intros; simplify_eq. rewrite (dec_varint_local _ _ _ _ E). cbn. by rewrite E1.
Qed.

Lemma dec_vm_codec b : dec_vm b = decode b vm_zero.
Proof.
  unfold dec_vm, decode. generalize (String.length b), vm_zero. intros fuel. revert b.
  induction fuel as [|fuel IH]; intros [|c b] m; try done.
  rewrite !unmarshal_fields_S. change (unmarshal_field (H := consumers)) with (unmarshal_field (H := codec)).
  destruct (unmarshal_field _ _) as [[n m']|]; cbn [mbind option_bind]; [apply IH|done].
Qed.

#[export] Instance codec_laws : ProtobufLaws (H := codec).
Proof.
  split; cbn.
  - unfold enc_vm. intros m b Hm. case_match; [|done]. intros [= <-].
    rewrite dec_vm_codec. by apply decode_message.
  - intros m Hm. unfold enc_vm. rewrite (ok_raw _ Hm), (ok_seg _ Hm). by eexists.
  - intros b m E. rewrite dec_vm_codec in E. eapply fields_ok; [apply vm_zero_ok|exact E].
  - apply dec_vm_codec.
  - apply dec_enc_di.
  - by eexists.
  - intros b e. apply dec_di_loop_ok. split; cbn; unfold_ints; lia.
  - done.
  - apply dec_tag_len.
  - apply dec_varint_len.
  - apply dec_bytes_len.
  - apply dec_value_len.
  - done.
  - done.
  - apply dec_tag_local.
  - apply dec_varint_local.
  - apply dec_bytes_local.
  - apply dec_value_local.
Qed.

(** The codec passes the consistency check of the operator's [init]. *)
Lemma codec_init_ok : proto_Marshal (tombstone 0) = Some expiredSentinel.
Proof. reflexivity. Qed.
