(* ===== verification/MergeWitnesses.v ===== *)
(** * Concrete instances of the merge and wire theorems

    Each witness applies a theorem to concrete rows and operands, encoded with the
    reference codec of ProtoInstance.v. *)

From S2P Require Import Prelude Keys Message Merge Wire ProtoInstance.

Open Scope Z_scope.

(** A live inline row at version 5, and operands against it. *)
Definition w_row : ValueMessage := MkVM INLINE "x" 0 "" "" 0 1 7 5 0 0.
Definition w_raw : ValueMessage := MkVM RAW_FILE "" 0 "d/f" "" 0 9 7 5 0 0.
Definition w_put (v e : Z) : ValueMessage := MkVM INLINE "y" 0 "" "" 0 1 8 v META_OP_CAS_PUT e.
Definition w_del (v e : Z) : ValueMessage := MkVM 0 "" 0 "" "" 0 0 0 v META_OP_CAS_DELETE e.
Definition w_mig : ValueMessage := MkVM SEGMENT "" 0 "d/f" "seg" 0 9 7 0 META_OP_NONE 0.
Definition enc (m : ValueMessage) : bytes := enc_message m.

Ltac all_operands := repeat (apply Forall_cons; split); try apply Forall_nil_2.

Lemma merge_schedule_independent_witness :
  mergeMetadataCAS (H := codec) (enc w_row) [enc (w_put 8 5); enc (w_del 9 5)] = Some (enc (adopt (w_put 8 5)))
  /\ mergeMetadataCAS (H := codec) (enc (adopt (w_put 8 5))) [enc (w_del 10 8)]
     = mergeMetadataCAS (H := codec) (enc w_row) ([enc (w_put 8 5); enc (w_del 9 5)] ++ [enc (w_del 10 8)]).
Proof.
  split; [vm_compute; reflexivity|].
  apply (merge_schedule_independent codec_init_ok (enc w_row)).
  - vm_compute; reflexivity.
  - vm_compute; discriminate.
  - left. vm_compute; discriminate.
Defined.

Definition w_mig0 : ValueMessage := MkVM SEGMENT "" 0 "d/f" "seg" 0 0 0 0 META_OP_NONE 0.

Lemma merge_schedule_divergence_witness :
  exists mid, mergeMetadataCAS (H := codec) EmptyString [enc w_mig0] = Some mid
    /\ mergeMetadataCAS (H := codec) mid [enc (w_del 9 5)] = proto_Marshal (Protobuf := codec) (tombstone 9)
    /\ mergeMetadataCAS (H := codec) EmptyString [enc w_mig0; enc (w_del 9 5)]
       = proto_Marshal (Protobuf := codec) (tombstone 0)
    /\ proto_Marshal (Protobuf := codec) (tombstone 9) <> proto_Marshal (Protobuf := codec) (tombstone 0).
Proof.
  apply (merge_schedule_divergence codec_init_ok "d/f" "seg" (enc w_mig0) (enc (w_del 9 5)) 9 5).
  - vm_compute; split; reflexivity.
  - vm_compute; split; reflexivity.
  - discriminate.
  - reflexivity.
  - reflexivity.
  - vm_compute; reflexivity.
  - vm_compute; reflexivity.
Defined.

Lemma fence_holds_witness :
  apply_all (H := codec) (Some (tombstone 9)) [enc (w_put 12 5); enc w_mig; enc (w_del 13 8)]
  = Some (tombstone 9).
Proof.
  apply (fence_holds (H := codec)). all_operands; intros op E T; vm_compute in E;
    injection E as <-; (vm_compute; split; reflexivity) || (exfalso; destruct T; discriminate).
Defined.

Lemma migration_preserves_version_witness :
  Expiry w_raw <> tombstoneExpiry
  /\ exists b', apply_all (H := codec) (Some w_raw) [enc w_mig; enc w_mig] = Some b'
    /\ Version b' = Version w_raw
    /\ EffectiveRowVersion (Some b') = EffectiveRowVersion (Some w_raw).
Proof.
  split; [discriminate|].
  apply (migration_preserves_version (H := codec)); [discriminate|].
  all_operands; intros op E; vm_compute in E; injection E as <-; vm_compute; split_and!;
    (reflexivity || discriminate).
Defined.

Definition w_putraw (v e : Z) : ValueMessage := MkVM RAW_FILE "" 0 "d/f" "" 0 9 7 v META_OP_CAS_PUT e.

(** A conditional put into a raw file, then the migration of that file. *)
Lemma merge_preserves_row_wf_witness :
  mergeMetadataCAS (H := codec) (enc w_row) [enc (w_putraw 8 5); "junk"; enc w_mig] = Some (enc (migrate (adopt (w_putraw 8 5)) w_mig))
  /\ exists b', proto_Unmarshal (Protobuf := codec) (enc (migrate (adopt (w_putraw 8 5)) w_mig)) = Some b' /\ row_wf b'.
Proof.
  split; [vm_compute; reflexivity|].
  apply (merge_preserves_row_wf codec_init_ok (enc w_row) [enc (w_putraw 8 5); "junk"; enc w_mig]).
  - right. exists w_row. split; [vm_compute; reflexivity|]. split; cbn; try done.
  - all_operands; intros op E; vm_compute in E; try discriminate; injection E as <-; vm_compute.
    + left. split_and!; try done. right. done.
    + right. right. right. done.
  - vm_compute; reflexivity.
Defined.

Lemma FullMerge_never_fails_witness :
  is_Some (FullMerge (H := codec) "!meta/k" "junk" ["more junk"; enc w_mig]).
Proof. apply (FullMerge_never_fails (H := codec)). Defined.

Lemma first_cas_wins_witness :
  fold_left apply_operand [w_put 8 5; w_del 9 5; w_put 10 5] (Some w_row)
    = Some (cas_result (w_put 8 5))
  /\ Version (cas_result (w_put 8 5)) = Version (w_put 8 5).
Proof.
  apply (first_cas_wins w_row 5 (w_put 8 5) [w_del 9 5; w_put 10 5]); try done.
  - split; [left; split; [done|discriminate]|done].
  - all_operands; repeat split; try done; [by right|left; split; [done|discriminate]].
Defined.

Lemma delete_index_counts_witness :
  exists mid res,
    mergeDeleteIndex (H := codec) EmptyString [MakeDeleteIndexOperand 1 10] = Some mid
    /\ mergeDeleteIndex (H := codec) EmptyString [MakeDeleteIndexOperand 1 10; MakeDeleteIndexOperand 2 5] = Some res
    /\ proto_Unmarshal_DI res = Some (MkDI 3 15)
    /\ mergeDeleteIndex (H := codec) mid [MakeDeleteIndexOperand 2 5] = Some res.
Proof. exact (delete_index_counts (H := codec) EmptyString [(1, 10)] [(2, 5)]). Defined.

Lemma extractors_agree_witness :
  valueMessageExpiry (H := codec) (enc w_raw) = Expiry <$> proto_Unmarshal (Protobuf := codec) (enc w_raw)
  /\ valueMessageSizeAndRawPath (H := codec) (enc w_raw) = Some (9, "d/f"%string).
Proof.
  destruct (extractors_agree_with_unmarshal (H := codec) (enc w_raw)) as (E1 & _ & _ & _ & E5 & _).
  split; [exact E1|]. rewrite E5. vm_compute. reflexivity.
Defined.

Lemma skipping_data_witness :
  unmarshalValueMessageSkippingData (H := codec) (enc w_row) = Some (clear_data w_row).
Proof. rewrite (skipping_data_agrees (H := codec)). vm_compute. reflexivity. Defined.
