(* ===== verification/Rocks.v ===== *)
(** * The metadata store as an interface

    RocksDB (through grocksdb) is third-party code: the engine's theorems are
    proved against the class [RocksDB] of the operations it calls and the class
    [RocksLaws] of what RocksDB documents about them: point reads and iterators
    see the committed rows, a write batch is applied atomically or not at all, and
    a merge operand takes effect through the registered operator
    ([MultiplexOperator.FullMerge]).

    Two instances show the laws can hold: [Faulty], a store with a fault schedule,
    and [Stacked], which keeps operands unresolved and folds them at arbitrary
    times, as RocksDB does. For [Stacked] the laws are a refinement theorem: they
    hold because the merge operator is schedule independent. *)

From S2P Require Import Prelude Keys Errors Message Merge.

Open Scope Z_scope.

(** ** Operations *)

Inductive batch_op :=
  | BPut (key value : bytes)
  | BDelete (key : bytes)
  | BMerge (key operand : bytes).

(** [db_Get] is [Handle().Get] (an error, or the row if it exists), [db_Write] is
    [Handle().Write] of a batch, and [db_Iterate seek] is a new iterator moved to
    [seek]: the rows it yields in order and its final [Err()]. The single-row
    writes [Put], [Delete] and [Merge] are batches of one. *)
Class RocksDB (DB : Type) := {
  db_Get : bytes -> ST DB (error + option bytes);
  db_Write : list batch_op -> ST DB (option error);
  db_Iterate : bytes -> ST DB (list (bytes * bytes) * option error)
}.

Definition db_Put `{RocksDB DB} (k v : bytes) : ST DB (option error) := db_Write [BPut k v].
Definition db_Delete `{RocksDB DB} (k : bytes) : ST DB (option error) := db_Write [BDelete k].
Definition db_Merge `{RocksDB DB} (k o : bytes) : ST DB (option error) := db_Write [BMerge k o].

(** ** What the committed rows are *)

Section View.

Context `{Protobuf}.

Definition apply_op (m : gmap bytes bytes) (op : batch_op) : gmap bytes bytes :=
  match op with
  | BPut k v => <[k := v]> m
  | BDelete k => delete k m
  | BMerge k o =>
      match FullMerge k (default EmptyString (m !! k)) [o] with
      | Some v => <[k := v]> m
      | None => m
      end
  end.

Definition apply_batch (m : gmap bytes bytes) (ops : list batch_op) : gmap bytes bytes :=
  fold_left apply_op ops m.

(** The merges whose outcome does not depend on when RocksDB resolves them: not a
    guarded delete on a row that reads as the unstamped tombstone (the exception
    of [merge_schedule_divergence]), and none that leaves empty bytes behind, which
    the operator would take for a missing row. *)
Definition op_regular (m : gmap bytes bytes) (op : batch_op) : Prop :=
  match op with
  | BMerge k o => IsMetadataKey k = true -> IsDeleteIndexKey k = false ->
      (guarded_delete o -> m !! k <> Some expiredSentinel)
      /\ FullMerge k (default EmptyString (m !! k)) [o] <> Some EmptyString
  | _ => True
  end.

Fixpoint batch_regular (m : gmap bytes bytes) (ops : list batch_op) : Prop :=
  match ops with
  | [] => True
  | op :: ops => op_regular m op /\ batch_regular (apply_op m op) ops
  end.

End View.

(** Rows in key order, as an iterator yields them. *)
Definition row_le (a b : bytes * bytes) : Prop := sle a.1 b.1 = true.

#[export] Instance row_le_dec : RelDecision row_le.
Proof. intros a b. unfold row_le. apply _. Defined.

Definition sorted_rows (m : gmap bytes bytes) : list (bytes * bytes) :=
  merge_sort row_le (map_to_list m).

Definition rows_from (seek : bytes) (m : gmap bytes bytes) : list (bytes * bytes) :=
  filter (fun r => sle seek r.1 = true) (sorted_rows m).

(** The rows a loop [for it.Seek(p); it.ValidForPrefix(p); it.Next()] visits. *)
Fixpoint prefix_rows (p : bytes) (rows : list (bytes * bytes)) : list (bytes * bytes) :=
  match rows with
  | [] => []
  | r :: rows => if has_prefix p r.1 then r :: prefix_rows p rows else []
  end.

(** Where that loop leaves the iterator. *)
Fixpoint prefix_rest (p : bytes) (rows : list (bytes * bytes)) : list (bytes * bytes) :=
  match rows with
  | [] => []
  | r :: rows' => if has_prefix p r.1 then prefix_rest p rows' else rows
  end.

(** [it.Err()] of an iterator with the rows [rest] ahead of it: an error shows only
    once the iterator has run into it. *)
Definition iter_Err {E} (rest : list (bytes * bytes)) (err : option E) : option E :=
  match rest with [] => err | _ => None end.

(** ** What the engine relies on *)

(** [represents db m]: the store [db] holds the committed rows [m]. *)
Class RocksLaws (DB : Type) `{Protobuf} `{RocksDB DB} := {
  represents : DB -> gmap bytes bytes -> Prop;
  rdb_get k db m r db' : represents db m -> db_Get k db = (r, db') ->
    represents db' m /\ (forall v, r = inr v -> v = m !! k);
  rdb_write ops db m db' : represents db m -> db_Write ops db = (None, db') ->
    batch_regular m ops -> represents db' (apply_batch m ops);
  rdb_write_failed ops db m e db' : represents db m -> db_Write ops db = (Some e, db') ->
    represents db' m;
  rdb_iterate seek db m l err db' : represents db m -> db_Iterate seek db = ((l, err), db') ->
    represents db' m /\ exists rest, l ++ rest = rows_from seek m /\ (err = None -> rest = [])
}.

(** ** Facts on sorted rows *)

#[global] Instance row_le_total : Total row_le.
Proof. intros a b. apply sle_total. Qed.

#[global] Instance row_le_trans : Transitive row_le.
Proof. intros a b c. apply sle_trans. Qed.

Lemma sorted_rows_perm m : sorted_rows m ≡ₚ map_to_list m.
Proof. apply merge_sort_Permutation. Qed.

Lemma elem_of_sorted_rows m k v : (k, v) ∈ sorted_rows m <-> m !! k = Some v.
Proof. rewrite sorted_rows_perm. apply elem_of_map_to_list. Qed.

Lemma NoDup_sorted_rows m : NoDup (sorted_rows m).*1.
Proof. rewrite sorted_rows_perm. apply NoDup_fst_map_to_list. Qed.

Lemma elem_of_rows_from m seek k v :
  (k, v) ∈ rows_from seek m <-> m !! k = Some v /\ sle seek k = true.
Proof. unfold rows_from. rewrite list_elem_of_filter, elem_of_sorted_rows. cbn. tauto. Qed.

Lemma prefix_rows_sub p rows r : r ∈ prefix_rows p rows -> r ∈ rows /\ has_prefix p r.1 = true.
Proof.
  induction rows as [|r' rows IH]; cbn; [set_solver|]. case_match; [|set_solver].
  intros [->|Hr]%elem_of_cons; [split; [left|done]|]. destruct (IH Hr). split; [by right|done].
Qed.
