(* ===== verification/RocksInstances.v ===== *)
(** * Two stores that satisfy the RocksDB laws

    [Faulty] resolves merges at once and fails the operations its schedule names;
    the witnesses run the engine on it. [Stacked] keeps the operands of a row on a
    stack and folds any number of the oldest into the base at any time, as RocksDB's
    flushes and compactions do; that it satisfies the same laws is the refinement
    theorem for the merge operator. *)

From S2P Require Import Prelude Keys Errors Message Merge Rocks.

Open Scope Z_scope.

(** ** A store with a fault schedule *)

Record Faulty := MkFaulty { f_rows : gmap bytes bytes; f_faults : list (option error) }.

(** The next scheduled fault, if any; an exhausted schedule never fails. *)
Definition pop_fault (db : Faulty) : option error * Faulty :=
  match f_faults db with
  | [] => (None, db)
  | f :: fs => (f, MkFaulty (f_rows db) fs)
  end.

Definition faulty_get (k : bytes) : ST Faulty (error + option bytes) := fun db =>
  match pop_fault db with
  | (Some e, db') => (inl e, db')
  | (None, db') => (inr (f_rows db' !! k), db')
  end.

Definition faulty_write `{Protobuf} (ops : list batch_op) : ST Faulty (option error) := fun db =>
  match pop_fault db with
  | (Some e, db') => (Some e, db')
  | (None, db') => (None, MkFaulty (apply_batch (f_rows db') ops) (f_faults db'))
  end.

Definition faulty_iterate (seek : bytes) : ST Faulty (list (bytes * bytes) * option error) := fun db =>
  match pop_fault db with
  | (Some e, db') => (([], Some e), db')
  | (None, db') => ((rows_from seek (f_rows db'), None), db')
  end.

#[export] Instance faulty_rocks `{Protobuf} : RocksDB Faulty :=
  {| db_Get := faulty_get; db_Write := faulty_write; db_Iterate := faulty_iterate |}.

Lemma pop_fault_rows db f db' : pop_fault db = (f, db') -> f_rows db' = f_rows db.
Proof. unfold pop_fault. case_match; intros; simplify_eq; done. Qed.

#[export] Instance faulty_laws `{Protobuf} : RocksLaws Faulty.
Proof.
  refine {| represents db m := f_rows db = m |}; cbn.
  - intros k db m r db' <-. unfold faulty_get. destruct (pop_fault db) as [[e|] db1] eqn:E;
      apply pop_fault_rows in E; intros; simplify_eq; rewrite ?E; split; try done; naive_solver congruence.
  - intros ops db m db' <-. unfold faulty_write. destruct (pop_fault db) as [[e|] db1] eqn:E;
      apply pop_fault_rows in E; intros; simplify_eq; cbn; by rewrite E.
  - intros ops db m e db' <-. unfold faulty_write. destruct (pop_fault db) as [[e'|] db1] eqn:E;
      apply pop_fault_rows in E; intros; by simplify_eq.
  - intros seek db m l err db' <-. unfold faulty_iterate. destruct (pop_fault db) as [[e|] db1] eqn:E;
      apply pop_fault_rows in E; intros; simplify_eq; rewrite ?E; split; try done.
    + by exists (rows_from seek (f_rows db)).
    + exists []. by rewrite app_nil_r.
Defined.

(** ** A store that resolves operands lazily *)

Record Row := MkRow { r_base : option bytes; r_ops : list bytes }.

Section Stacked.

Context `{ProtobufLaws}.
Context (init_ok : proto_Marshal (tombstone 0) = Some expiredSentinel).

(** What a read of the row returns. *)
Definition resolve (k : bytes) (r : Row) : option bytes :=
  match r_ops r with
  | [] => r_base r
  | ops => FullMerge k (default EmptyString (r_base r)) ops
  end.

(** Folding the [n] oldest operands into the base. *)
Definition fold_row (k : bytes) (n : nat) (r : Row) : Row :=
  match take n (r_ops r) with
  | [] => r
  | o1 => MkRow (FullMerge k (default EmptyString (r_base r)) o1) (drop n (r_ops r))
  end.

Definition push (r : option Row) (o : bytes) : Row :=
  match r with
  | None => MkRow None [o]
  | Some r => MkRow (r_base r) (r_ops r ++ [o])
  end.

Lemma mergeDeleteIndex_app existing ops o mid :
  mergeDeleteIndex existing ops = Some mid ->
  mergeDeleteIndex existing (ops ++ [o]) = mergeDeleteIndex mid [o].
Proof using H0.
  unfold mergeDeleteIndex. fold (di_base existing) (di_base mid).
  set (e1 := fold_left add_operand ops (di_base existing)).
  assert (di_ok e1) as H1 by apply fold_add_ok, di_base_ok.
  intros Hmid. pose proof (marshal_di_unmarshal e1 mid H1 Hmid) as E.
  rewrite fold_left_app. fold e1. do 2 f_equal. unfold di_base.
  case_decide; [subst mid; rewrite unmarshal_di_empty in E; congruence|by rewrite E].
Qed.

(** Appending one operand: resolving it against the resolved row is resolving the
    whole stack, for the merges [op_regular] admits. *)
Lemma FullMerge_app k base ops o mid :
  ops <> [] -> FullMerge k base ops = Some mid ->
  (IsMetadataKey k = true -> IsDeleteIndexKey k = false ->
     mid <> EmptyString /\ (guarded_delete o -> mid <> expiredSentinel)) ->
  FullMerge k base (ops ++ [o]) = FullMerge k mid [o].
Proof using init_ok H0.
  intros Hne. unfold FullMerge. destruct (IsDeleteIndexKey k) eqn:E1.
  { intros. by apply mergeDeleteIndex_app. }
  destruct (IsMetadataKey k) eqn:E2; [|rewrite last_snoc; done].
  intros Hm Hr. destruct (Hr eq_refl eq_refl) as [Hmid Hg]. symmetry.
  apply (merge_schedule init_ok); try done.
  destruct (decide (base = EmptyString)) as [->|]; [|by left]. right.
  destruct (apply_all None ops) eqn:Ea; [by left|]. right.
  apply Forall_singleton. intros G. apply Hg; [done|].
  unfold mergeMetadataCAS in Hm. rewrite decide_True, Ea in Hm by done. congruence.
Qed.

(** The value a row reaches by resolving its operands one at a time, every step
    being one [op_regular] admits. *)
Definition step_ok (k b o e : bytes) : Prop :=
  FullMerge k b [o] = Some e
  /\ (IsMetadataKey k = true -> IsDeleteIndexKey k = false ->
        (guarded_delete o -> b <> expiredSentinel) /\ e <> EmptyString).

Fixpoint chain (k b : bytes) (ops : list bytes) (v : bytes) : Prop :=
  match ops with
  | [] => v = b
  | o :: ops => exists e, step_ok k b o e /\ chain k e ops v
  end.

Lemma chain_app k b o1 o2 v : chain k b (o1 ++ o2) v <-> exists e, chain k b o1 e /\ chain k e o2 v.
Proof using.
  revert b. induction o1 as [|o o1 IH]; intros b; cbn; [naive_solver|].
  setoid_rewrite IH. naive_solver.
Qed.

(** Resolving all operands of a chain at once reaches the same value. *)
Lemma chain_resolve k b ops v : ops <> [] -> chain k b ops v -> FullMerge k b ops = Some v.
Proof using init_ok H0.
  revert v. induction ops as [|o ops IH] using rev_ind; intros v Hne; [done|].
  rewrite chain_app. intros (mid & Hmid & e & [He Hs] & Hv). cbn in Hv. subst v.
  destruct (decide (ops = [])) as [->|Hops].
  { cbn in Hmid. by subst mid. }
  rewrite <- He. apply FullMerge_app; [done|by apply IH|].
  intros Hk Hd. destruct (Hs Hk Hd) as [Hg _]. split; [|done].
  destruct ops as [|o' ops' _] using rev_ind; [done|].
  apply chain_app in Hmid as (e1 & _ & e2 & [_ Hs'] & Hv). cbn in Hv. subst mid.
  by apply (Hs' Hk Hd).
Qed.

Definition row_ok (k : bytes) (r : Row) : Prop :=
  exists v, chain k (default EmptyString (r_base r)) (r_ops r) v.

(** What a well-formed row reads as. *)
Lemma resolve_chain k r v :
  chain k (default EmptyString (r_base r)) (r_ops r) v ->
  resolve k r = if decide (r_ops r = []) then r_base r else Some v.
Proof using init_ok H0.
  intros Hc. unfold resolve. destruct (r_ops r) as [|o ops] eqn:E; [done|].
  rewrite decide_False by done. by apply chain_resolve.
Qed.

Lemma fold_row_ok k n r : row_ok k r -> row_ok k (fold_row k n r) /\ resolve k (fold_row k n r) = resolve k r.
Proof using init_ok H0.
  intros [v Hc]. unfold fold_row. destruct (take n (r_ops r)) as [|o o1] eqn:E; [by split; [exists v|]|].
  rewrite <- (take_drop n (r_ops r)), E in Hc. apply chain_app in Hc as (e & H1 & H2).
  assert (o :: o1 <> []) as Hne by done. rewrite (chain_resolve _ _ _ _ Hne H1).
  assert (chain k (default EmptyString (r_base r)) (r_ops r) v) as Hc.
  { rewrite <- (take_drop n (r_ops r)), E. apply chain_app. eauto. }
  split; [by exists v|].
  rewrite (resolve_chain k (MkRow (Some e) _) v) by done. rewrite (resolve_chain k r v Hc). cbn.
  rewrite (decide_False (P := r_ops r = [])) by (intros F; by rewrite F, take_nil in E).
  case_decide as Hd; [|done]. rewrite Hd in H2. cbn in H2. congruence.
Qed.

(** The rows of a store against the values it holds. *)
Definition row_rep (k : bytes) (r : option Row) (v : option bytes) : Prop :=
  match r with
  | None => v = None
  | Some r => row_ok k r /\ v = resolve k r
  end.

Definition rows_rep (rows : gmap bytes Row) (m : gmap bytes bytes) : Prop :=
  forall k, row_rep k (rows !! k) (m !! k).

Definition stack_op (rows : gmap bytes Row) (op : batch_op) : gmap bytes Row :=
  match op with
  | BPut k v => <[k := MkRow (Some v) []]> rows
  | BDelete k => delete k rows
  | BMerge k o => <[k := push (rows !! k) o]> rows
  end.

Lemma push_rep k r v o e :
  row_rep k r v -> step_ok k (default EmptyString v) o e -> row_rep k (Some (push r o)) (Some e).
Proof using init_ok H0.
  intros Hr Hs. destruct r as [r|]; cbn in Hr |- *; [destruct Hr as [[u Hc] Hv]|subst v].
  - rewrite (resolve_chain k r u Hc) in Hv.
    assert (chain k (default EmptyString (r_base r)) (r_ops r ++ [o]) e) as Hc'.
    { apply chain_app. exists u. split; [done|]. exists e. split; [|done].
      case_decide as Hd; [|by subst v]. rewrite Hd in Hc. cbn in Hc. by subst u v. }
    split; [by exists e|].
    rewrite (resolve_chain k (MkRow (r_base r) (r_ops r ++ [o])) e) by done. cbn.
    by rewrite decide_False by (by destruct (r_ops r)).
  - assert (chain k EmptyString [o] e) as Hc by (exists e; done).
    split; [by exists e|].
    symmetry. apply (resolve_chain k (MkRow None [o]) e Hc).
Qed.

Lemma stack_op_rep rows m op :
  rows_rep rows m -> op_regular m op -> rows_rep (stack_op rows op) (apply_op m op).
Proof using init_ok H0.
  intros Hr Hop k'. specialize (Hr k') as Hk'. destruct op as [k v|k|k o]; cbn.
  - destruct (decide (k = k')) as [->|]; [rewrite !lookup_insert_eq|by rewrite !lookup_insert_ne].
    cbn. split; [by eexists|done].
  - destruct (decide (k = k')) as [->|]; [rewrite !lookup_delete_eq|by rewrite !lookup_delete_ne]. done.
  - destruct (FullMerge_total k (default EmptyString (m !! k)) [o]) as [e He]. rewrite He.
    destruct (decide (k = k')) as [->|]; [rewrite !lookup_insert_eq|by rewrite !lookup_insert_ne].
    apply (push_rep _ _ (m !! k')); [done|]. split; [done|].
    intros Hm Hd. destruct (Hop Hm Hd) as [Hg Hne]. rewrite He in Hne. split; [|congruence].
    intros G E. destruct (m !! k') as [b|] eqn:Eb; cbn in E; [|done]. subst b. by apply Hg.
Qed.

Lemma stack_batch_rep ops rows m :
  rows_rep rows m -> batch_regular m ops ->
  rows_rep (fold_left stack_op ops rows) (apply_batch m ops).
Proof using init_ok H0.
  revert rows m. induction ops as [|op ops IH]; intros rows m Hr; cbn; [done|].
  intros [Hop Hops]. apply IH; [by apply stack_op_rep|done].
Qed.

(** Background compaction: for each named row, fold that many operands. *)
Definition compact_one (rows : gmap bytes Row) (c : bytes * nat) : gmap bytes Row :=
  alter (fold_row c.1 c.2) c.1 rows.

Lemma compact_rep cs rows m : rows_rep rows m -> rows_rep (fold_left compact_one cs rows) m.
Proof using init_ok H0.
  revert rows. induction cs as [|[k n] cs IH]; intros rows Hr; cbn; [done|].
  apply IH. intros k'. specialize (Hr k') as Hk'. unfold compact_one. cbn.
  destruct (decide (k = k')) as [->|]; [|by rewrite lookup_alter_ne].
  rewrite lookup_alter_eq. destruct (rows !! k') as [r|]; [|done]. cbn in *.
  destruct Hk' as [H1 ->]. by destruct (fold_row_ok k' n r H1) as [? ->].
Qed.

End Stacked.

(** The store: its rows and a schedule of background compactions, one entry of
    which happens before each operation. *)
Record Stacked := MkStacked { s_rows : gmap bytes Row; s_sched : list (list (bytes * nat)) }.

Section StackedStore.

Context `{Protobuf}.

Definition compact (db : Stacked) : Stacked :=
  match s_sched db with
  | [] => db
  | cs :: sched => MkStacked (fold_left compact_one cs (s_rows db)) sched
  end.

Definition stacked_values (db : Stacked) : gmap bytes bytes := map_imap resolve (s_rows db).

Definition stacked_get (k : bytes) : ST Stacked (error + option bytes) := fun db =>
  let db := compact db in (inr (s_rows db !! k ≫= resolve k), db).

Definition stacked_write (ops : list batch_op) : ST Stacked (option error) := fun db =>
  let db := compact db in (None, MkStacked (fold_left stack_op ops (s_rows db)) (s_sched db)).

Definition stacked_iterate (seek : bytes) : ST Stacked (list (bytes * bytes) * option error) := fun db =>
  let db := compact db in ((rows_from seek (stacked_values db), None), db).

#[export] Instance stacked_rocks : RocksDB Stacked :=
  {| db_Get := stacked_get; db_Write := stacked_write; db_Iterate := stacked_iterate |}.

End StackedStore.

Section StackedLaws.

Context `{ProtobufLaws}.
Context (init_ok : proto_Marshal (tombstone 0) = Some expiredSentinel).

Lemma compact_keeps db m : rows_rep (s_rows db) m -> rows_rep (s_rows (compact db)) m.
Proof using init_ok H0. unfold compact. case_match; [done|]. by apply compact_rep. Qed.

Lemma rows_rep_values db m : rows_rep (s_rows db) m -> stacked_values db = m.
Proof using.
  intros Hr. apply map_eq. intros k. unfold stacked_values. rewrite map_lookup_imap.
  specialize (Hr k). destruct (s_rows db !! k); cbn in *; naive_solver.
Qed.

Lemma stacked_laws : RocksLaws Stacked.
Proof using init_ok H0.
  refine {| represents db m := rows_rep (s_rows db) m |}; cbn.
  - intros k db m r db' Hr [= <- <-]. apply compact_keeps in Hr. split; [done|].
    intros v [= <-]. specialize (Hr k). destruct (s_rows (compact db) !! k); cbn in *; naive_solver.
  - intros ops db m db' Hr [= <-] Hreg. apply compact_keeps in Hr. by apply stack_batch_rep.
  - done.
  - intros seek db m l err db' Hr [= <- <- <-]. apply compact_keeps in Hr. split; [done|].
    exists []. rewrite app_nil_r. by rewrite (rows_rep_values _ m).
Defined.

(** A client's sequence of writes. *)
Definition write_all (batches : list (list batch_op)) (db : Stacked) : Stacked :=
  fold_left (fun db ops => snd (stacked_write ops db)) batches db.

Fixpoint batches_regular (m : gmap bytes bytes) (batches : list (list batch_op)) : Prop :=
  match batches with
  | [] => True
  | ops :: batches => batch_regular m ops /\ batches_regular (apply_batch m ops) batches
  end.

Lemma write_all_rep batches db m :
  rows_rep (s_rows db) m -> batches_regular m batches ->
  rows_rep (s_rows (write_all batches db)) (fold_left apply_batch batches m).
Proof using init_ok H0.
  revert db m. induction batches as [|ops batches IH]; intros db m Hr; cbn; [done|].
  intros [Ho Hb]. apply IH; [|done]. apply stack_batch_rep; [done| |done]. by apply compact_keeps.
Qed.

(** C30: operands may be resolved lazily. Start from a store that holds the rows
    [m], apply any sequence of write batches, and let background compactions fold any
    operands of any rows into their bases before any of the operations: every later read
    returns what applying each merge at once with [FullMerge] yields. The condition is
    [batches_regular]: along the eager run, no batch merges a delete with a nonzero
    expected version into a metadata row that is the unstamped tombstone, and no merge of a
    metadata row yields empty bytes. The first exception is real: for such a delete the
    outcome does depend on the schedule ([merge_schedule_divergence]). Puts, deletes,
    conditional puts, deletes without an expectation, purges, migrations and the counters
    of the delete index are all covered. *)
Theorem lazy_merge_refines_eager batches db m k :
  rows_rep (s_rows db) m -> batches_regular m batches ->
  fst (stacked_get k (write_all batches db)) = inr (fold_left apply_batch batches m !! k).
Proof using init_ok H0.
  intros Hr Hb. apply (write_all_rep batches) in Hr; [|done]. apply compact_keeps in Hr.
  unfold stacked_get. cbn. f_equal. specialize (Hr k).
  destruct (s_rows (compact (write_all batches db)) !! k); cbn in *; naive_solver.
Qed.

End StackedLaws.
