(* ===== verification/Version.v ===== *)
(** * The version stamp source under concurrency and crashes (storage/cas.go)

    [nextVersion] issues the node's CAS stamps without a lock: a load of
    [lastVersion], a check against the durably reserved ceiling [versionHi], an
    occasional extension of that ceiling under [versionMu], and a
    compare-and-swap. The step relation below interleaves any number of callers at
    the granularity of those atomic operations; [s_crash] loses everything but the
    persisted row and restarts through [loadVersionReservation]. *)

From S2P Require Import Prelude Merge.

Open Scope Z_scope.

Definition versionReservationBlock : Z := 60 * 1000000000.

(** Where a call of [nextVersion] stands. *)
Inductive pc :=
  | PStart                        (** top of the loop *)
  | PNow (now : Z)                (** the clock has been read *)
  | PCheck (last next : Z)        (** [next] computed, ceiling not yet loaded *)
  | PExtend (last next : Z)       (** calling extendVersionReservation, lock not held *)
  | PLocked (last next : Z)       (** versionMu held *)
  | PWrite (last next : Z)        (** about to persist the new ceiling *)
  | PStored (last next newHi : Z) (** persisted, [versionHi] not yet stored *)
  | PUnlock (last next : Z)       (** about to release versionMu, returning nil *)
  | PFail                         (** about to release versionMu, returning the error *)
  | PCas (last next : Z).         (** about to compare-and-swap *)

Record vstate := MkV {
  lastVersion : Z;
  versionHi : Z;
  hwm : option Z;           (** the persisted VersionHWMKey row *)
  versionMu : option nat;   (** the caller holding the mutex *)
  callers : gmap nat pc;
  issued : list Z           (** stamps returned so far, the latest first *)
}.

Definition hwm_value (s : vstate) : Z := default 0 (hwm s).

Definition set_pc (t : nat) (p : pc) (s : vstate) : vstate :=
  MkV (lastVersion s) (versionHi s) (hwm s) (versionMu s) (<[t := p]> (callers s)) (issued s).

Definition next_stamp (now last : Z) : Z := if now <=? last then u64 (last + 1) else now.

Section Steps.

(** The readings of [uint64(time.Now().UnixNano())] the environment may return. *)
Context (clock_ok : Z -> Prop).

Inductive vstep : vstate -> vstate -> Prop :=
  | s_call s t : callers s !! t = None -> vstep s (set_pc t PStart s)
  | s_now s t now : callers s !! t = Some PStart -> clock_ok now -> vstep s (set_pc t (PNow now) s)
  | s_load s t now : callers s !! t = Some (PNow now) ->
      vstep s (set_pc t (PCheck (lastVersion s) (next_stamp now (lastVersion s))) s)
  | s_check s t last next : callers s !! t = Some (PCheck last next) ->
      vstep s (set_pc t (if versionHi s <? next then PExtend last next else PCas last next) s)
  | s_lock s t last next : callers s !! t = Some (PExtend last next) -> versionMu s = None ->
      vstep s (MkV (lastVersion s) (versionHi s) (hwm s) (Some t)
                 (<[t := PLocked last next]> (callers s)) (issued s))
  | s_recheck s t last next : callers s !! t = Some (PLocked last next) ->
      vstep s (set_pc t (if next <=? versionHi s then PUnlock last next else PWrite last next) s)
  | s_persist s t last next : callers s !! t = Some (PWrite last next) ->
      let newHi := u64 (next + versionReservationBlock) in
      vstep s (MkV (lastVersion s) (versionHi s) (Some newHi) (versionMu s)
                 (<[t := PStored last next newHi]> (callers s)) (issued s))
  | s_persist_failed s t last next : callers s !! t = Some (PWrite last next) ->
      vstep s (set_pc t PFail s)
  | s_store s t last next newHi : callers s !! t = Some (PStored last next newHi) ->
      vstep s (MkV (lastVersion s) newHi (hwm s) (versionMu s)
                 (<[t := PUnlock last next]> (callers s)) (issued s))
  | s_unlock s t last next : callers s !! t = Some (PUnlock last next) ->
      vstep s (MkV (lastVersion s) (versionHi s) (hwm s) None
                 (<[t := PCas last next]> (callers s)) (issued s))
  | s_fail s t : callers s !! t = Some PFail ->
      vstep s (MkV (lastVersion s) (versionHi s) (hwm s) None (delete t (callers s)) (issued s))
  | s_cas_won s t last next : callers s !! t = Some (PCas last next) -> lastVersion s = last ->
      vstep s (MkV next (versionHi s) (hwm s) (versionMu s) (delete t (callers s)) (next :: issued s))
  | s_cas_lost s t last next : callers s !! t = Some (PCas last next) -> lastVersion s <> last ->
      vstep s (set_pc t PStart s)
  | s_crash s :
      vstep s (MkV (hwm_value s) (hwm_value s) (hwm s) None ∅ (issued s)).

End Steps.

Definition vinit : vstate := MkV 0 0 None None ∅ [].

(** No stamp has come within one reservation of the end of the uint64 range (about
    the year 2554). *)
Definition in_range (s : vstate) : Prop :=
  lastVersion s + 1 + versionReservationBlock < two64
  /\ forall t last next, callers s !! t = Some (PWrite last next) ->
       next + versionReservationBlock < two64.

Definition bstep (clock_ok : Z -> Prop) (s s' : vstate) : Prop :=
  in_range s /\ vstep clock_ok s s'.

(** ** The invariant *)

(** What each control point knows. [lo] bounds every clock reading from below. *)
Definition pc_ok (lo : Z) (s : vstate) (t : nat) (p : pc) : Prop :=
  match p with
  | PStart => True
  | PNow now => lo <= now
  | PCheck last next | PExtend last next => last < next /\ lo <= next /\ last <= lastVersion s
  | PLocked last next | PWrite last next =>
      last < next /\ lo <= next /\ last <= lastVersion s /\ versionMu s = Some t
  | PStored last next newHi =>
      last < next /\ lo <= next /\ last <= lastVersion s /\ versionMu s = Some t
      /\ next <= newHi /\ versionHi s <= newHi /\ hwm s = Some newHi
  | PUnlock last next =>
      last < next /\ lo <= next /\ last <= lastVersion s /\ versionMu s = Some t /\ next <= versionHi s
  | PFail => versionMu s = Some t
  | PCas last next => last < next /\ lo <= next /\ last <= lastVersion s /\ next <= versionHi s
  end.

(** Writing the ceiling requires that it be below the new one. *)
Definition write_ok (s : vstate) : Prop :=
  forall t last next, callers s !! t = Some (PWrite last next) -> versionHi s < next.

Record vinv (lo : Z) (s : vstate) : Prop := {
  inv_last : 0 <= lastVersion s <= versionHi s;
  inv_hwm : versionHi s <= hwm_value s;
  inv_issued : Forall (fun v => lo <= v <= lastVersion s) (issued s);
  inv_sorted : StronglySorted (fun newer older => older < newer) (issued s);
  inv_pcs : map_Forall (pc_ok lo s) (callers s);
  inv_write : write_ok s
}.

Lemma vinit_inv lo : vinv lo vinit.
Proof. split; try done; try (constructor; fail); unfold write_ok; cbn; by intros. Qed.

(** The other callers keep what they know when the shared variables only grow and
    the mutex stays with its holder. *)
Definition keeps (s s' : vstate) (t : nat) : Prop :=
  lastVersion s <= lastVersion s' /\ versionHi s <= versionHi s'
  /\ (forall t', t' <> t -> versionMu s = Some t' ->
        versionMu s' = Some t' /\ hwm s' = hwm s /\ versionHi s' = versionHi s).

Lemma keeps_pc lo s s' t t' p : keeps s s' t -> t' <> t -> pc_ok lo s t' p -> pc_ok lo s' t' p.
Proof.
  intros (K1 & K2 & K3) Hne. specialize (K3 t' Hne).
  destruct p; cbn; intros; destruct_and?; try (destruct K3 as (? & ? & ?); [done|]);
    split_and?; try done; try congruence; lia.
Qed.

Lemma keeps_insert lo s s' t p :
  keeps s s' t -> map_Forall (pc_ok lo s) (callers s) -> pc_ok lo s' t p ->
  map_Forall (pc_ok lo s') (<[t := p]> (callers s)).
Proof.
  intros K Hpc Hp t' p' E. destruct (decide (t = t')) as [<-|Hne].
  - rewrite lookup_insert_eq in E. by simplify_eq.
  - rewrite lookup_insert_ne in E by done. eapply keeps_pc; [done|done|]. by apply Hpc.
Qed.

Lemma keeps_delete lo s s' t :
  keeps s s' t -> map_Forall (pc_ok lo s) (callers s) ->
  map_Forall (pc_ok lo s') (delete t (callers s)).
Proof.
  intros K Hpc t' p' E. apply lookup_delete_Some in E as [Hne E].
  eapply keeps_pc; [done|done|]. by apply Hpc.
Qed.

(** The pending ceiling writes after caller [t] moved to [p]. *)
Lemma write_ok_insert lo s s' t p :
  callers s' = <[t := p]> (callers s) -> keeps s s' t ->
  map_Forall (pc_ok lo s) (callers s) -> write_ok s ->
  (forall last next, p = PWrite last next -> versionHi s' < next) -> write_ok s'.
Proof.
  intros Ec (_ & _ & K) Hpc Hw Hp t' last next E. rewrite Ec in E.
  destruct (decide (t = t')) as [<-|Hne].
  - rewrite lookup_insert_eq in E. simplify_eq. by eapply Hp.
  - rewrite lookup_insert_ne in E by done. pose proof (Hpc _ _ E) as P. cbn in P.
    destruct (K t') as (_ & _ & ->); [done|naive_solver|]. by eapply Hw.
Qed.

Lemma write_ok_delete lo s s' t :
  callers s' = delete t (callers s) -> keeps s s' t ->
  map_Forall (pc_ok lo s) (callers s) -> write_ok s -> write_ok s'.
Proof.
  intros Ec (_ & _ & K) Hpc Hw t' last next E. rewrite Ec in E.
  apply lookup_delete_Some in E as [Hne E]. pose proof (Hpc _ _ E) as P. cbn in P.
  destruct (K t') as (_ & _ & ->); [done|naive_solver|]. by eapply Hw.
Qed.

Lemma issued_mono (lo l l' : Z) (vs : list Z) :
  l <= l' -> Forall (fun v => lo <= v <= l) vs -> Forall (fun v => lo <= v <= l') vs.
Proof. intros. eapply Forall_impl; [done|]. cbn. lia. Qed.

(** A step of caller [t] to the control point [p]. *)
Lemma vinv_move lo s s' t p :
  vinv lo s -> keeps s s' t ->
  callers s' = <[t := p]> (callers s) -> issued s' = issued s -> lastVersion s' = lastVersion s ->
  versionHi s' <= hwm_value s' -> pc_ok lo s' t p ->
  (forall last next, p = PWrite last next -> versionHi s' < next) ->
  vinv lo s'.
Proof.
  intros [] K Ec Ei El Hh Hp Hw. destruct (K) as (K1 & K2 & _). split.
  - lia.
  - done.
  - rewrite Ei, El. done.
  - by rewrite Ei.
  - rewrite Ec. by eapply keeps_insert.
  - by eapply (write_ok_insert lo s).
Qed.

(** A step in which caller [t] returns, possibly issuing a stamp. *)
Lemma vinv_return lo s s' t new :
  vinv lo s -> keeps s s' t ->
  callers s' = delete t (callers s) -> issued s' = new ++ issued s ->
  (new = [] /\ lastVersion s' = lastVersion s
   \/ new = [lastVersion s'] /\ lastVersion s < lastVersion s' /\ lo <= lastVersion s') ->
  lastVersion s' <= versionHi s' <= hwm_value s' ->
  vinv lo s'.
Proof.
  intros [] K Ec Ei Hnew Hh. destruct (K) as (K1 & K2 & _). split.
  - lia.
  - lia.
  - rewrite Ei. destruct Hnew as [[-> ->]|(-> & Hl & Hlo)]; [done|].
    apply Forall_cons. split; [lia|]. eapply issued_mono; [|done]. lia.
  - rewrite Ei. destruct Hnew as [[-> _]|(-> & Hl & Hlo)]; [done|].
    constructor; [done|]. eapply Forall_impl; [done|]. cbn. lia.
  - rewrite Ec. by eapply keeps_delete.
  - by eapply (write_ok_delete lo s).
Qed.

Ltac keeps_tac := unfold keeps; cbn; split_and!; try lia; try (intros; exfalso; congruence); auto.
Ltac move_tac t := eapply (vinv_move _ _ _ t); [done|keeps_tac|cbn; try done..]; cbn; try (split_and?; try done; lia);
  try (intros ? ? [=]; subst; lia).

Lemma vinv_step lo clock_ok s s' :
  0 <= lo -> (forall now, clock_ok now -> lo <= now) -> vinv lo s -> bstep clock_ok s s' -> vinv lo s'.
Proof.
  intros Hlo Hc Hinv [[R1 R2] Hst]. pose proof Hinv as [I1 I2 I3 I4 I5 I6].
  unfold versionReservationBlock in *.
  destruct Hst as [s t E|s t now E Hn|s t now E|s t last next E|s t last next E Hm|s t last next E
    |s t last next E|s t last next E|s t last next newHi E|s t last next E|s t E
    |s t last next E El|s t last next E El|s];
    try (pose proof (I5 _ _ E) as P; cbn in P); destruct_and?.
  - move_tac t.
  - apply Hc in Hn. move_tac t.
  - unfold next_stamp. destruct (Z.leb_spec now (lastVersion s)).
    + rewrite u64_small by (unfold is_u64; lia). move_tac t.
    + move_tac t.
  - destruct (Z.ltb_spec (versionHi s) next); move_tac t.
  - move_tac t.
  - destruct (Z.leb_spec next (versionHi s)); move_tac t.
  - pose proof (I6 _ _ _ E). specialize (R2 _ _ _ E). subst newHi.
    rewrite u64_small by (unfold is_u64, versionReservationBlock; lia).
    unfold versionReservationBlock. move_tac t.
  - move_tac t.
  - move_tac t. unfold hwm_value. cbn. match goal with H : hwm s = _ |- _ => rewrite H end. cbn. lia.
  - move_tac t.
  - eapply (vinv_return lo _ _ t []); [done|keeps_tac|done|done|by left|cbn; unfold hwm_value in *; cbn; lia].
  - eapply (vinv_return lo _ _ t [next]); [done|keeps_tac|done|done| |cbn; unfold hwm_value in *; cbn; lia].
    right. cbn. split_and!; [done|lia|lia].
  - move_tac t.
  - split; cbn; unfold hwm_value in *; cbn; try lia; try done.
    eapply issued_mono; [|done]. lia.
Qed.

(** C31: versions are never reused. Starting from an empty store, whatever the number
    of concurrent callers, their interleaving, the clock readings (backward steps
    included), failed reservation writes and crashes at any point: the stamps
    [nextVersion] returns are strictly increasing in the order they are issued, hence
    distinct, also across restarts; each is at least as large as some clock reading
    bound, in particular never 0 nor [VersionLegacy]; and every issued stamp is
    covered by the persisted reservation. *)
Theorem stamps_strictly_increase lo clock_ok s :
  VersionLegacy < lo -> (forall now, clock_ok now -> lo <= now) -> rtc (bstep clock_ok) vinit s ->
  StronglySorted (fun newer older => older < newer) (issued s)
  /\ NoDup (issued s)
  /\ Forall (fun v => VersionLegacy < v <= hwm_value s) (issued s).
Proof.
  intros Hlo Hc Hr. unfold VersionLegacy in Hlo.
  assert (vinv lo s) as [I1 I2 I3 I4 _ _].
  { revert s Hr. apply rtc_ind_r; [apply vinit_inv|].
    intros s1 s2 _ Hst IH. eapply vinv_step; [lia|done..]. }
  split_and!; [done| |].
  - clear -I4. induction I4 as [|v vs _ IH Hf]; constructor; [|done].
    intros Hin. rewrite Forall_forall in Hf. specialize (Hf _ Hin). lia.
  - eapply Forall_impl; [exact I3|]. cbn. unfold VersionLegacy. lia.
Qed.

(** ** Running a schedule *)

Inductive vlabel :=
  | LCall (t : nat) | LNow (t : nat) (now : Z) | LStep (t : nat) | LWriteFails (t : nat) | LCrash.

(** The step a label names, if it is enabled. *)
Definition vexec (l : vlabel) (s : vstate) : option vstate :=
  match l with
  | LCall t => if decide (callers s !! t = None) then Some (set_pc t PStart s) else None
  | LNow t now => match callers s !! t with Some PStart => Some (set_pc t (PNow now) s) | _ => None end
  | LWriteFails t => match callers s !! t with Some (PWrite _ _) => Some (set_pc t PFail s) | _ => None end
  | LCrash => Some (MkV (hwm_value s) (hwm_value s) (hwm s) None ∅ (issued s))
  | LStep t =>
      let put p s := <[t := p]> (callers s) in
      match callers s !! t with
      | Some (PNow now) =>
          Some (set_pc t (PCheck (lastVersion s) (next_stamp now (lastVersion s))) s)
      | Some (PCheck last next) =>
          Some (set_pc t (if versionHi s <? next then PExtend last next else PCas last next) s)
      | Some (PExtend last next) =>
          if decide (versionMu s = None)
          then Some (MkV (lastVersion s) (versionHi s) (hwm s) (Some t) (put (PLocked last next) s) (issued s))
          else None
      | Some (PLocked last next) =>
          Some (set_pc t (if next <=? versionHi s then PUnlock last next else PWrite last next) s)
      | Some (PWrite last next) =>
          let newHi := u64 (next + versionReservationBlock) in
          Some (MkV (lastVersion s) (versionHi s) (Some newHi) (versionMu s)
                  (put (PStored last next newHi) s) (issued s))
      | Some (PStored last next newHi) =>
          Some (MkV (lastVersion s) newHi (hwm s) (versionMu s) (put (PUnlock last next) s) (issued s))
      | Some (PUnlock last next) =>
          Some (MkV (lastVersion s) (versionHi s) (hwm s) None (put (PCas last next) s) (issued s))
      | Some PFail =>
          Some (MkV (lastVersion s) (versionHi s) (hwm s) None (delete t (callers s)) (issued s))
      | Some (PCas last next) =>
          if decide (lastVersion s = last)
          then Some (MkV next (versionHi s) (hwm s) (versionMu s) (delete t (callers s)) (next :: issued s))
          else Some (set_pc t PStart s)
      | _ => None
      end
  end.

Definition pc_in_range (p : pc) : bool :=
  match p with PWrite _ next => next + versionReservationBlock <? two64 | _ => true end.

Definition range_ok (s : vstate) : bool :=
  (lastVersion s + 1 + versionReservationBlock <? two64)
  && forallb (fun tp => pc_in_range tp.2) (map_to_list (callers s)).

Fixpoint vrun (ls : list vlabel) (s : vstate) : option vstate :=
  match ls with
  | [] => Some s
  | l :: ls => if range_ok s then s' ← vexec l s; vrun ls s' else None
  end.

Lemma range_ok_sound s : range_ok s = true -> in_range s.
Proof.
  intros [H1 H2]%andb_true_iff. split; [lia|].
  intros t last next E. rewrite forallb_forall in H2. specialize (H2 (t, PWrite last next)).
  cbn in H2. apply elem_of_map_to_list, list_elem_of_In in E. apply H2 in E. lia.
Qed.

Lemma vexec_sound clock_ok l s s' :
  (forall t now, l = LNow t now -> clock_ok now) -> vexec l s = Some s' -> vstep clock_ok s s'.
Proof.
  intros Hc. destruct l as [t|t now|t|t|]; cbn.
  5: { intros [= <-]. constructor. }
  all: try destruct (callers s !! t) as [[]|] eqn:E; try done; try case_decide; try done;
    intros; simplify_eq;
    solve [by eapply s_call | by eapply s_now; eauto | by eapply s_load | by eapply s_check
          | by eapply s_lock | by eapply s_recheck | by eapply s_persist | by eapply s_persist_failed
          | by eapply s_store | by eapply s_unlock | by eapply s_fail | by eapply s_cas_won
          | by eapply s_cas_lost].
Qed.

Lemma vrun_sound clock_ok ls s s' :
  Forall (fun l => forall t now, l = LNow t now -> clock_ok now) ls ->
  vrun ls s = Some s' -> rtc (bstep clock_ok) s s'.
Proof.
  intros Hls. revert s. induction Hls as [|l ls Hl Hls IH]; intros s; cbn.
  { intros [= <-]. apply rtc_refl. }
  destruct (range_ok s) eqn:Er; [|done]. destruct (vexec l s) as [s1|] eqn:E; cbn; [|done].
  intros Hr. eapply rtc_l; [|by apply IH]. split; [by apply range_ok_sound|]. by eapply vexec_sound.
Qed.

(** Two callers race, the second loses the compare-and-swap and retries; then the
    node crashes and a third stamp is issued with the clock gone backward. *)
Definition w_clock (now : Z) : Prop := 5 <= now.

Definition w_schedule : list vlabel :=
  [LCall 1; LCall 2; LNow 1 7; LNow 2 7; LStep 1; LStep 2]
  ++ replicate 7 (LStep 1) ++ [LStep 2; LStep 2; LNow 2 7; LStep 2; LStep 2; LStep 2; LCrash; LCall 3; LNow 3 5]
  ++ replicate 8 (LStep 3).

Lemma stamps_strictly_increase_witness :
  exists s, vrun w_schedule vinit = Some s /\ issued s = [60000000008; 8; 7]
    /\ StronglySorted (fun newer older => older < newer) (issued s) /\ NoDup (issued s)
    /\ Forall (fun v => VersionLegacy < v <= hwm_value s) (issued s).
Proof.
  eexists. split; [vm_compute; reflexivity|]. split; [reflexivity|].
  apply (stamps_strictly_increase 5 w_clock).
  - reflexivity.
  - done.
  - apply (vrun_sound _ w_schedule); [|vm_compute; reflexivity].
    repeat (apply Forall_cons; split); try apply Forall_nil_2; intros ? ? [=]; subst; done.
Defined.
