(* ===== verification/World.v ===== *)
(** * The state of a storage instance and its environment

    The engine's operations are state transformers over [World]: the metadata
    store, the segment store, the raw files on disk, the cleaner's size counter, the
    stamp source, the set of in-flight raw files and the access-update channel.
    [Env] is what the operating system and the other goroutines decide: clock
    readings, random file names, failures of system calls, locks held by readers.
    Every consultation of the environment advances [w_tick], so successive calls may
    see different answers. *)

From S2P Require Import Prelude Keys Errors Message Merge Rocks.

Open Scope Z_scope.

(** ** Environment and configuration *)

Record Env := MkEnv {
  env_now : nat -> Z;                  (** time.Now().UnixNano() *)
  env_uuid : nat -> bytes;             (** uuid.New().String() *)
  env_fault : nat -> option Errno;     (** failure of a system call *)
  env_locked : nat -> bytes -> bool;   (** the file's lock is held by a reader *)
  env_tz : Z -> Z                      (** zone offset of the bucket names, by unix time *)
}.

Definition EvictionPolicyLRU : bytes := "lru".
Definition EvictionPolicyFIFO : bytes := "fifo".

(** The fields of [Storage] fixed at construction. *)
Record Config := MkConfig {
  inlineThreshold : Z;
  defaultTTL : Z;
  compactThreshold : Z;
  maxDiskUsage : Z;
  evictionPolicy : bytes;
  filesPath : bytes
}.

Definition is_fifo (c : Config) : bool := bool_decide (evictionPolicy c = EvictionPolicyFIFO).

(** The access updater exists only under LRU with a disk cap. *)
Definition has_updater (c : Config) : bool :=
  (0 <? maxDiskUsage c) && bool_decide (evictionPolicy c = EvictionPolicyLRU).

(** [segmentManager.ReadEntry], the one operation of the segment store on the read
    path: an error, no reader, or the entry's bytes. *)
Class SegmentStore (SM : Type) := {
  sm_ReadEntry : bytes -> bytes -> Z -> Z -> ST SM (error + option bytes)
}.

(** ** The world *)

Record World (DB SM : Type) := MkWorld {
  w_db : DB;
  w_sm : SM;
  w_disk : gmap bytes bytes;          (** raw files by path *)
  w_tick : nat;
  w_size : Z;                         (** cleaner.totalSize *)
  w_last : Z;                         (** lastVersion *)
  w_hi : Z;                           (** versionHi *)
  w_inflight : gset bytes;            (** inflightRaw *)
  w_access : list (bytes * Z);        (** accessUpdater.updates, oldest first *)
  w_cleaned : Z;                      (** cleaner.cleanedKeys *)
  w_evicted : Z                       (** cleaner.evictedKeys *)
}.
Arguments MkWorld {_ _}.
Arguments w_db {_ _}. Arguments w_sm {_ _}. Arguments w_disk {_ _}. Arguments w_tick {_ _}.
Arguments w_size {_ _}. Arguments w_last {_ _}. Arguments w_hi {_ _}. Arguments w_inflight {_ _}.
Arguments w_access {_ _}. Arguments w_cleaned {_ _}. Arguments w_evicted {_ _}.

Section Setters.

Context {DB SM : Type}.
Implicit Types w : World DB SM.

Definition set_db x w : World DB SM := MkWorld x (w_sm w) (w_disk w) (w_tick w) (w_size w) (w_last w) (w_hi w) (w_inflight w) (w_access w) (w_cleaned w) (w_evicted w).
Definition set_sm x w : World DB SM := MkWorld (w_db w) x (w_disk w) (w_tick w) (w_size w) (w_last w) (w_hi w) (w_inflight w) (w_access w) (w_cleaned w) (w_evicted w).
Definition set_disk x w : World DB SM := MkWorld (w_db w) (w_sm w) x (w_tick w) (w_size w) (w_last w) (w_hi w) (w_inflight w) (w_access w) (w_cleaned w) (w_evicted w).
Definition tick w : World DB SM := MkWorld (w_db w) (w_sm w) (w_disk w) (S (w_tick w)) (w_size w) (w_last w) (w_hi w) (w_inflight w) (w_access w) (w_cleaned w) (w_evicted w).
Definition set_size x w : World DB SM := MkWorld (w_db w) (w_sm w) (w_disk w) (w_tick w) x (w_last w) (w_hi w) (w_inflight w) (w_access w) (w_cleaned w) (w_evicted w).
Definition set_stamps l h w : World DB SM := MkWorld (w_db w) (w_sm w) (w_disk w) (w_tick w) (w_size w) l h (w_inflight w) (w_access w) (w_cleaned w) (w_evicted w).
Definition set_inflight x w : World DB SM := MkWorld (w_db w) (w_sm w) (w_disk w) (w_tick w) (w_size w) (w_last w) (w_hi w) x (w_access w) (w_cleaned w) (w_evicted w).
Definition set_access x w : World DB SM := MkWorld (w_db w) (w_sm w) (w_disk w) (w_tick w) (w_size w) (w_last w) (w_hi w) (w_inflight w) x (w_cleaned w) (w_evicted w).
Definition set_counters c e w : World DB SM := MkWorld (w_db w) (w_sm w) (w_disk w) (w_tick w) (w_size w) (w_last w) (w_hi w) (w_inflight w) (w_access w) c e.

End Setters.

Section Ops.

Context {DB SM : Type} `{RocksDB DB} `{SegmentStore SM} (env : Env).

Definition M (A : Type) : Type := ST (World DB SM) A.

(** [time.Now()], as unix nanoseconds. *)
Definition time_Now : M Z := fun w => (env_now env (w_tick w), tick w).
Definition new_uuid : M bytes := fun w => (env_uuid env (w_tick w), tick w).
(** The outcome of a system call. *)
Definition syscall : M (option Errno) := fun w => (env_fault env (w_tick w), tick w).
(** [lock.TryLock()] of a file: fails when a reader holds it. *)
Definition TryLock (path : bytes) : M bool := fun w => (negb (env_locked env (w_tick w) path), tick w).

Definition on_db {A} (c : ST DB A) : M A := fun w =>
  let '(a, db) := c (w_db w) in (a, set_db db w).
Definition on_sm {A} (c : ST SM A) : M A := fun w =>
  let '(a, sm) := c (w_sm w) in (a, set_sm sm w).

Definition Get_ (k : bytes) : M (error + option bytes) := on_db (db_Get k).
Definition Write_ (ops : list batch_op) : M (option error) := on_db (db_Write ops).
Definition Iterate_ (seek : bytes) : M (list (bytes * bytes) * option error) := on_db (db_Iterate seek).

(** [cleaner.UpdateSize]: an atomic add of int64. *)
Definition UpdateSize (delta : Z) : M () := fun w => ((), set_size (i64 (w_size w + delta)) w).
Definition notifyPut (size : Z) : M () := UpdateSize size.
Definition notifyDelete (size : Z) : M () := UpdateSize (- size).

End Ops.

(** [t.Unix()] of a clock reading in nanoseconds. *)
Definition unix_of (nanos : Z) : Z := nanos / 1000000000.
