(* ===== verification/Files.v ===== *)
(** * Raw files and the deletion queue
    (storage/files/manager.go, payload.go; storage/deletion/queue.go)

    The file manager writes each large value to a fresh file and reads it back; the
    deletion queue is the durable list of files to remove, kept in the metadata
    store and drained by a background worker. *)

From S2P Require Import Prelude Keys Errors Message Merge Rocks World.

Open Scope Z_scope.

(** ** CRC-32 (hash/crc32, IEEE polynomial) *)

Definition crc_bit (c : Z) : Z :=
  if Z.testbit c 0 then Z.lxor 3988292384 (Z.shiftr c 1) else Z.shiftr c 1.

Definition crc_byte (c : Z) (b : ascii) : Z :=
  Nat.iter 8 crc_bit (Z.lxor c (Z.of_N (N_of_ascii b))).

Fixpoint crc_loop (c : Z) (s : bytes) : Z :=
  match s with
  | EmptyString => c
  | String b s => crc_loop (crc_byte c b) s
  end.

Definition crc32 (s : bytes) : Z := Z.lxor (crc_loop 4294967295 s) 4294967295.

(** ** Readers *)

(** An [io.Reader] as the bytes it yields and the error it ends with ([None] is
    end of file). *)
Record Body := MkBody { b_data : bytes; b_err : option error }.

(** A body ends at the end of file; [ErrUnexpectedEOF] is the error of a body that breaks
    off, and that of [io.ReadFull] when the end of file comes early. *)
Definition unexpected_eof : error := ESentinel IoErrUnexpectedEOF.

(** [io.ReadFull(body, buf)] with [len(buf) = n]: the bytes read, the error unless it
    is [io.EOF] or [io.ErrUnexpectedEOF], and what is left of the body. *)
Definition ReadFull (body : Body) (n : nat) : bytes * option error * Body :=
  let chunk := stake n (b_data body) in
  if decide (n <= String.length (b_data body))%nat
  then (chunk, None, MkBody (sdrop n (b_data body)) (b_err body))
  else (chunk, match b_err body with
               | Some (ESentinel IoErrUnexpectedEOF) => None
               | err => err
               end, MkBody EmptyString (b_err body)).

(** [joinPrefix(prefix, reader)]. *)
Definition joinPrefix (prefix : bytes) (reader : Body) : Body :=
  MkBody (prefix +:+ b_data reader) (b_err reader).

(** [filepath.Join] of a clean directory and a plain name. *)
Definition filepath_Join (dir name : bytes) : bytes := dir +:+ "/" +:+ name.

(** [filepath.Base]: the last element, without trailing slashes. *)
Fixpoint strip_slashes (path : bytes) : bytes :=
  match path with
  | EmptyString => EmptyString
  | String c rest =>
      match strip_slashes rest with
      | EmptyString => if decide (c = "/"%char) then EmptyString else String c EmptyString
      | rest => String c rest
      end
  end.

Fixpoint after_slash (path : bytes) : bytes :=
  match path with
  | EmptyString => EmptyString
  | String c rest => match index_byte path "/"%char with Some _ => after_slash rest | None => path end
  end.

Definition filepath_Base (path : bytes) : bytes :=
  if decide (path = EmptyString) then "."
  else match strip_slashes path with EmptyString => "/" | path => after_slash path end.

(** The files of a directory, by name, as [os.ReadDir] lists them. *)
Definition dir_entries (disk : gmap bytes bytes) (dir : bytes) : list bytes :=
  omap (fun r => let prefix := filepath_Join dir EmptyString in
                 let name := sdrop (String.length prefix) r.1 in
                 if has_prefix prefix r.1 && bool_decide (name <> EmptyString)
                    && bool_decide (index_byte name "/"%char = None)
                 then Some name else None) (sorted_rows disk).

Section FileManager.

Context {DB SM : Type} `{RocksDB DB} `{SegmentStore SM} (env : Env) (cfg : Config).
Notation M := (M (DB := DB) (SM := SM)).

(** [os.Remove]: nil, or the error of the failed call. *)
Definition os_Remove (path : bytes) : M (option error) :=
  f ← syscall env;
  match f with
  | Some e => mret (Some (EPathError "remove" path e))
  | None => fun w =>
      match w_disk w !! path with
      | None => (Some (EPathError "remove" path ENOENT), w)
      | Some _ => (None, set_disk (delete path (w_disk w)) w)
      end
  end.

Definition create_file (path content : bytes) : M () := fun w =>
  ((), set_disk (<[path := content]> (w_disk w)) w).

(** [FileManager.Write]: path, checksum and byte count of a fresh file, or the
    error; a file that could not be completed is removed. *)
Definition fm_Write (key : bytes) (reader : Body) : M (error + bytes * Z * Z) :=
  random ← new_uuid env;
  let filePath := filepath_Join (filesPath cfg) random in
  opened ← syscall env;
  match opened with
  | Some e => mret (inl (WrapError "failed to create file for key" key (EPathError "open" filePath e)))
  | None =>
      _ ← create_file filePath (b_data reader);
      copied ← syscall env;
      let copy_err := match copied with
        | Some e => Some (EPathError "write" filePath e)
        | None => b_err reader
        end in
      match copy_err with
      | Some e => _ ← os_Remove filePath; mret (inl (WrapError "copy payload" key e))
      | None =>
          let checksum := crc32 (b_data reader) in
          let bytesWritten := slen (b_data reader) in
          if compactThreshold cfg <? bytesWritten then
            synced ← syscall env;
            match synced with
            | Some e =>
                _ ← os_Remove filePath;
                mret (inl (WrapError "failed to sync large file" key (EPathError "sync" filePath e)))
            | None => mret (inr (filePath, checksum, bytesWritten))
            end
          else mret (inr (filePath, checksum, bytesWritten))
      end
  end.

(** [FileManager.Read]: the bytes of the file's first [length] bytes, through the
    descriptor cache's [Acquire]. *)
Definition fm_Read (filePath : bytes) (length : Z) : M (error + option bytes) :=
  if bool_decide (filePath = EmptyString) || (length <=? 0)
  then mret (inl (EText "invalid file path or length"))
  else
    opened ← syscall env;
    match opened with
    | Some ENOENT =>
        mret (inl (WrapError "raw file not found" filePath (EPathError "open" filePath ENOENT)))
    | Some e =>
        mret (inl (WrapError "failed to open raw file" filePath (EPathError "open" filePath e)))
    | None => fun w =>
        match w_disk w !! filePath with
        | None =>
            (inl (WrapError "raw file not found" filePath (EPathError "open" filePath ENOENT)), w)
        | Some content => (inr (Some (stake (Z.to_nat length) content)), w)
        end
    end.

(** [FileManager.Remove]. *)
Definition fm_Remove (filePath : bytes) : M (option error) :=
  locked ← TryLock env filePath;
  if negb locked then mret (Some (ESentinel ErrFileLocked))
  else
    r ← os_Remove filePath;
    match r with
    | Some err =>
        if os_IsNotExist err then mret None
        else mret (Some (WrapError "failed to delete file" filePath err))
    | None => mret None
    end.

(** ** The deletion queue *)

(** [Queue.Add]. *)
Definition Queue_Add (filepath : bytes) : M (option error) :=
  if decide (filepath = EmptyString) then mret (Some (EText "empty filepath"))
  else
    now ← time_Now env;
    Write_ [BPut (MakeDeletionQueueKey now filepath) (String (ascii_of_nat 1) EmptyString)].

(** [Queue.tryDelete]: true when the file is gone. *)
Definition tryDelete (filepath : bytes) : M bool :=
  locked ← TryLock env filepath;
  if negb locked then mret false
  else
    r ← os_Remove filepath;
    match r with
    | None => mret true
    | Some err => mret (os_IsNotExist err)
    end.

(** The scan of [ProcessBatch]: distinct due paths with their earliest queue key,
    at most [BatchSize] of them, oldest first. The first entry that is not due ends
    it. *)
Fixpoint collect_due (rows : list (bytes * bytes)) (batchSize : nat) (nowNanos : Z)
    (seen : list (bytes * bytes)) : list (bytes * bytes) :=
  match rows with
  | [] => seen
  | (keyData, _) :: rows =>
      if (batchSize <=? List.length seen)%nat then seen
      else match ParseDeletionQueueKey keyData with
        | inl _ => collect_due rows batchSize nowNanos seen
        | inr (ts, filepath) =>
            if nowNanos <? ts then seen
            else if bool_decide (filepath ∈ seen.*1) then collect_due rows batchSize nowNanos seen
            else collect_due rows batchSize nowNanos (seen ++ [(filepath, keyData)])
        end
  end.

(** The deletion attempts of [ProcessBatch]: the operations staged in its batch. The
    map [seen] is ranged over in the order of collection; Go's order is unspecified. *)
Fixpoint attempt_deletions (retryDelay : Z) (seen : list (bytes * bytes)) (batch : list batch_op)
    : M (list batch_op) :=
  match seen with
  | [] => mret batch
  | (filepath, queueKey) :: seen =>
      ok ← tryDelete filepath;
      if (ok : bool) then attempt_deletions retryDelay seen (batch ++ [BDelete queueKey])
      else
        now ← time_Now env;
        attempt_deletions retryDelay seen
          (batch ++ [BDelete queueKey;
                     BPut (MakeDeletionQueueKey (now + retryDelay) filepath)
                       (String (ascii_of_nat 1) EmptyString)])
  end.

(** [Queue.ProcessBatch]. *)
Definition ProcessBatch (batchSize : nat) (retryDelay : Z) : M () :=
  it ← Iterate_ DeletionQueuePrefix;
  nowNanos ← time_Now env;
  let seen := collect_due (prefix_rows DeletionQueuePrefix it.1) batchSize nowNanos [] in
  match seen with
  | [] => mret ()
  | _ =>
      batch ← attempt_deletions retryDelay seen [];
      _ ← Write_ batch;
      mret ()
  end.

(** [os.Stat(path)] reports [os.IsNotExist]. *)
Definition stat_missing (path : bytes) : M bool :=
  f ← syscall env;
  match f with
  | Some e => mret (bool_decide (e = ENOENT))
  | None => fun w => (bool_decide (w_disk w !! path = None), w)
  end.

(** [pruneOldEntries]: batches of 100. *)
Fixpoint prune_rows (rows : list (bytes * bytes)) (cutoff : Z) (batch : list batch_op) : M () :=
  match rows with
  | [] =>
      match batch with [] => mret () | _ => _ ← Write_ batch; mret () end
  | (keyData, _) :: rows =>
      batch ← match ParseDeletionQueueKey keyData with
        | inr (timestamp, filepath) =>
            if (0 <? timestamp) && (timestamp <? cutoff) then
              missing ← stat_missing filepath;
              mret (if (missing : bool) then batch ++ [BDelete keyData] else batch)
            else mret batch
        | inl _ => mret batch
        end;
      if (100 <=? List.length batch)%nat
      then _ ← Write_ batch; prune_rows rows cutoff []
      else prune_rows rows cutoff batch
  end.

Definition pruneOldEntries (pruneAge : Z) : M () :=
  now ← time_Now env;
  it ← Iterate_ DeletionQueuePrefix;
  prune_rows (prefix_rows DeletionQueuePrefix it.1) (now - pruneAge) [].

(** [GetQueueDepth]. *)
Definition GetQueueDepth : M Z :=
  it ← Iterate_ DeletionQueuePrefix;
  mret (Z.of_nat (List.length (prefix_rows DeletionQueuePrefix it.1))).

(** What wakes [processingLoop]: one of its tickers, or the end of its context. *)
Inductive queue_event := QProcess | QPrune | QDepth | QStop.

Fixpoint processingLoop (batchSize : nat) (retryDelay pruneAge : Z) (evs : list queue_event) : M () :=
  match evs with
  | [] | QStop :: _ => mret ()
  | QProcess :: evs => _ ← ProcessBatch batchSize retryDelay; processingLoop batchSize retryDelay pruneAge evs
  | QPrune :: evs => _ ← pruneOldEntries pruneAge; processingLoop batchSize retryDelay pruneAge evs
  | QDepth :: evs => _ ← GetQueueDepth; processingLoop batchSize retryDelay pruneAge evs
  end.

End FileManager.
