(* ===== verification/RangeReader.v ===== *)
(** * Byte-range and prefix readers (storage/storage.go)

    [byteRangeReader] restricts a reader to the bytes [start..end]; [prefixReader]
    puts back the bytes a write consumed to choose between inline and file storage.
    The underlying [io.Reader] may return short reads: [short pos] is how many bytes
    it offers at position [pos]. *)

From S2P Require Import Prelude Keys Errors.

Open Scope Z_scope.

(** ** The underlying reader *)

Record reader := MkReader { r_data : bytes; r_pos : nat; r_seekable : bool }.

Section Readers.

Context (short : nat -> nat).

(** [Read] of a buffer of length [n]: [None] is [(0, io.EOF)]. *)
Definition u_Read (r : reader) (n : nat) : option bytes * reader :=
  let avail := sdrop (r_pos r) (r_data r) in
  match avail with
  | EmptyString => (None, r)
  | _ =>
      let got := stake (n `min` (1 `max` short (r_pos r))) avail in
      (Some got, MkReader (r_data r) (r_pos r + String.length got) (r_seekable r))
  end.

(** [Seek(start, io.SeekStart)] of a seekable reader. *)
Definition u_Seek (r : reader) (start : Z) : reader := MkReader (r_data r) (Z.to_nat start) (r_seekable r).

Record byteRangeReader := MkBR {
  br_reader : reader; br_start : Z; br_end : Z; br_pos : Z; br_seeked : bool
}.

Definition applyByteRange (r : reader) (start end_ : Z) : byteRangeReader := MkBR r start end_ 0 false.

(** The read-and-discard loop for a reader without [Seek]: [inl] when it hits end
    of file. Each iteration discards at least a byte. *)
Fixpoint skip_loop (fuel : nat) (r : reader) (pos toSkip : Z) : (reader * Z) + (reader * Z) :=
  if toSkip <=? 0 then inr (r, pos)
  else match fuel with
  | O => inl (r, pos)
  | S fuel =>
      let readLen := Z.min 1048576 toSkip in
      match u_Read r (Z.to_nat readLen) with
      | (None, r) => inl (r, pos)
      | (Some b, r) => skip_loop fuel r (pos + slen b) (toSkip - slen b)
      end
  end.

(** What a [Read] call returns. *)
Inductive read_result := ROk (b : bytes) | REOF | RPanic.

(** [Read] of a buffer of length (and capacity) [n]; a slice expression out of range
    panics. *)
Definition br_Read (br : byteRangeReader) (n : nat) : read_result * byteRangeReader :=
  let 'MkBR r start end_ pos seeked := br in
  let positioned :=
    if negb seeked && (0 <? start) then
      if r_seekable r then inr (u_Seek r start, start, true)
      else match skip_loop (Z.to_nat start) r pos start with
        | inl (r, pos) => inl (MkBR r start end_ pos seeked)
        | inr (r, pos) => inr (r, pos, true)
        end
    else inr (r, pos, seeked) in
  match positioned with
  | inl br => (REOF, br)
  | inr (r, pos, seeked) =>
      let br := MkBR r start end_ pos seeked in
      if (0 <? end_) && (end_ <? pos) then (REOF, br)
      else
        let limit := i64 (i64 (end_ - pos) + 1) in
        let capped := (0 <? end_) && (i64 (end_ + 1) <? i64 (pos + Z.of_nat n)) in
        if capped && ((limit <? 0) || (Z.of_nat n <? limit)) then (RPanic, br)
        else
          let n := if capped then Z.to_nat limit else n in
          match u_Read r n with
          | (None, r) => (REOF, MkBR r start end_ pos seeked)
          | (Some b, r) => (ROk b, MkBR r start end_ (i64 (pos + slen b)) seeked)
          end
  end.

(** The reader [Get] hands out: the value's own, or one restricted to a range. *)
Inductive value_reader := WholeValue (r : reader) | RangeOf (br : byteRangeReader).

Definition vr_Read (vr : value_reader) (n : nat) : read_result * value_reader :=
  match vr with
  | WholeValue r => let '(b, r) := u_Read r n in (match b with Some b => ROk b | None => REOF end, WholeValue r)
  | RangeOf br => let '(b, br) := br_Read br n in (b, RangeOf br)
  end.

(** The value it reads from. *)
Definition vr_value (vr : value_reader) : bytes :=
  match vr with WholeValue r => r_data r | RangeOf br => r_data (br_reader br) end.

(** How reading to the end stops: at the end of the file, by a panic, or not yet. *)
Inductive read_end := AtEOF | AtPanic | NotYet.

(** Reading to the end with buffers of the given sizes ([io.ReadAll], or the loop of a
    handler): what each call returned, and how it stopped. *)
Fixpoint read_chunks (sizes : list nat) (vr : value_reader) : list bytes * read_end :=
  match sizes with
  | [] => ([], NotYet)
  | n :: sizes =>
      match vr_Read vr n with
      | (REOF, _) => ([], AtEOF)
      | (RPanic, _) => ([], AtPanic)
      | (ROk b, vr) => let '(chunks, e) := read_chunks sizes vr in (b :: chunks, e)
      end
  end.

(** [prefixReader]: an already-read prefix, then the stream. *)
Record prefixReader := MkPrefix { px_prefix : bytes; px_reader : reader }.

Definition px_Read (r : prefixReader) (n : nat) : option bytes * prefixReader :=
  match px_prefix r with
  | EmptyString => let '(b, u) := u_Read (px_reader r) n in (b, MkPrefix EmptyString u)
  | p => (Some (stake n p), MkPrefix (sdrop n p) (px_reader r))
  end.

Fixpoint px_read_all (sizes : list nat) (r : prefixReader) : option bytes :=
  match sizes with
  | [] => None
  | n :: sizes =>
      match px_Read r n with
      | (None, _) => Some EmptyString
      | (Some b, r) => rest ← px_read_all sizes r; Some (b +:+ rest)
      end
  end.

(** [prefixWriterToReader.WriteTo]: [write] is [writer.Write], [writerTo] the
    remainder's own [WriteTo]; the result, its error and the prefix left. *)
Definition px_WriteTo (write : bytes -> Z * option error) (writerTo : Z * option error) (prefix : bytes)
    : Z * option error * bytes :=
  let continue_ rest := let '(bytesWritten, err) := writerTo in (slen prefix + bytesWritten, err, rest) in
  if decide (prefix = EmptyString) then continue_ prefix
  else
    let '(n, err) := write prefix in
    if (n <? 0) || (slen prefix <? n) then (0, Some (EText "short write"), prefix)
    else
      let rest := sdrop (Z.to_nat n) prefix in
      match err with
      | Some e => (n, Some e, rest)
      | None => if negb (n =? slen prefix) then (n, Some (EText "short write"), rest) else continue_ rest
      end.

End Readers.

(** The bytes a range request should return: from [start] (or the beginning) up to and
    including [end_], or to the end when [end_ <= 0]. *)
Definition byte_range (data : bytes) (start end_ : Z) : bytes :=
  let from := Z.max 0 start in
  let tail := sdrop (Z.to_nat from) data in
  if 0 <? end_ then stake (Z.to_nat (end_ - from + 1)) tail else tail.

(** ** Correctness *)

Lemma sapp_stake_sdrop n m (s : bytes) : (n <= m)%nat ->
  stake n s +:+ stake (m - n) (sdrop n s) = stake m s.
Proof. intros. rewrite <- stake_plus. f_equal. lia. Qed.

Lemma sdrop_nil n : sdrop n EmptyString = EmptyString.
Proof. by destruct n. Qed.

Section Correct.

Context (short : nat -> nat).

(** What one read of the underlying reader delivers. *)
Lemma u_Read_spec r n :
  (0 < n)%nat ->
  match u_Read short r n with
  | (None, r') => r' = r /\ sdrop (r_pos r) (r_data r) = EmptyString
  | (Some b, r') =>
      exists k, (0 < k <= n)%nat /\ b = stake k (sdrop (r_pos r) (r_data r))
        /\ (0 < String.length b)%nat
        /\ r' = MkReader (r_data r) (r_pos r + String.length b) (r_seekable r)
  end.
Proof.
  intros Hn. unfold u_Read. destruct (sdrop _ _) as [|c s] eqn:E; [done|].
  eexists. split_and!; [| |reflexivity| |reflexivity]; [lia|lia|].
  rewrite slength_stake. cbn. lia.
Qed.

(** A positioned reader delivers the rest of the range. *)
Definition at_range (r : reader) (start end_ pos : Z) (seeked : bool) : Prop :=
  Z.of_nat (r_pos r) = pos /\ (seeked = true \/ start <= 0).

Lemma i64_id z : - two63 <= z < two63 -> i64 z = z.
Proof. intros. by apply i64_small. Qed.

Definition rest_of (r : reader) (end_ pos : Z) : bytes :=
  let tail := sdrop (r_pos r) (r_data r) in
  if 0 <? end_ then stake (Z.to_nat (end_ - pos + 1)) tail else tail.

(** The reader after it delivered [b]. *)
Definition advance (r : reader) (b : bytes) : reader :=
  MkReader (r_data r) (r_pos r + String.length b) (r_seekable r).

Lemma stake_split k (s : bytes) : s = stake k s +:+ sdrop (String.length (stake k s)) s.
Proof.
  rewrite slength_stake. destruct (decide (k <= String.length s)%nat).
  - rewrite Nat.min_l by lia. by rewrite stake_sdrop.
  - rewrite Nat.min_r, (sdrop_all (String.length s)), sapp_nil_r by lia. by rewrite stake_all by lia.
Qed.

Lemma rest_of_advance r end_ pos k b :
  b = stake k (sdrop (r_pos r) (r_data r)) ->
  (0 < end_ -> (k <= Z.to_nat (end_ - pos + 1))%nat /\ pos <= end_) ->
  rest_of r end_ pos = b +:+ rest_of (advance r b) end_ (pos + slen b).
Proof.
  intros Hb Hk. unfold rest_of. cbn [advance r_pos r_data]. rewrite <- sdrop_sdrop.
  set (s := sdrop (r_pos r) (r_data r)) in *. pose proof (stake_split k s) as E. rewrite <- Hb in E.
  destruct (Z.ltb_spec 0 end_) as [H0|]; [|done]. destruct (Hk H0) as [Hk1 Hp].
  assert (String.length b <= k)%nat by (subst b; rewrite slength_stake; lia).
  rewrite E at 1. replace (Z.to_nat (end_ - pos + 1)) with
    (String.length b + Z.to_nat (end_ - (pos + slen b) + 1))%nat by (unfold slen; lia).
  rewrite stake_plus, stake_app, sdrop_app. do 2 f_equal.
Qed.

(** Reading [n'] bytes of an underlying reader at [pos] stays within the range. *)
Lemma u_Read_range r start end_ pos seeked n' :
  at_range r start end_ pos seeked -> (0 < n')%nat -> slen (r_data r) < two63 ->
  (0 < end_ -> (n' <= Z.to_nat (end_ - pos + 1))%nat /\ pos <= end_) ->
  match u_Read short r n' with
  | (None, _) => rest_of r end_ pos = EmptyString
  | (Some b, r') =>
      let pos' := i64 (pos + slen b) in
      at_range r' start end_ pos' seeked /\ r_data r' = r_data r
      /\ (0 < String.length b)%nat /\ pos' = pos + slen b /\ pos' <= slen (r_data r)
      /\ rest_of r end_ pos = b +:+ rest_of r' end_ pos'
  end.
Proof.
  intros [Hpos Hs] Hn Hd Hk. pose proof (u_Read_spec r n' Hn) as U.
  destruct (u_Read short r n') as [[b|] r'].
  2: { destruct U as [_ U]. unfold rest_of. rewrite U. by destruct (0 <? end_), (Z.to_nat (end_ - pos + 1)). }
  destruct U as (k & Hkn & Hb & Hl & ->). fold (advance r b).
  assert (Z.of_nat (r_pos r) + slen b <= slen (r_data r)) as Hin.
  { unfold slen. subst b. rewrite slength_stake, slength_sdrop in *. lia. }
  cbn zeta. rewrite i64_id by (unfold slen in *; lia). split_and!; try done; try lia.
  - split; [cbn [advance r_pos]; unfold slen in *; lia|done].
  - apply (rest_of_advance r end_ pos k b); [done|]. intros H0. destruct (Hk H0). lia.
Qed.

Lemma br_Read_step r start end_ pos seeked n :
  at_range r start end_ pos seeked -> (0 < n)%nat ->
  end_ < two63 - 1 -> pos + Z.of_nat n < two63 -> slen (r_data r) < two63 ->
  match br_Read short (MkBR r start end_ pos seeked) n with
  | (RPanic, _) => False
  | (REOF, _) => rest_of r end_ pos = EmptyString
  | (ROk b, br) => exists r' pos', br = MkBR r' start end_ pos' seeked
      /\ at_range r' start end_ pos' seeked /\ r_data r' = r_data r
      /\ (0 < String.length b)%nat /\ pos' = pos + slen b /\ pos' <= slen (r_data r)
      /\ rest_of r end_ pos = b +:+ rest_of r' end_ pos'
  end.
Proof.
  intros Ha Hn He Hp Hd. destruct (Ha) as [Hpos Hs]. unfold br_Read.
  assert (negb seeked && (0 <? start) = false) as -> by (destruct Hs as [->|]; [done|]; destruct seeked; cbn; lia).
  destruct (Z.ltb_spec 0 end_) as [H0|H0]; cbn [andb].
  2: { pose proof (u_Read_range r start end_ pos seeked n Ha Hn Hd ltac:(lia)) as U.
    destruct (u_Read short r n) as [[b|] r']; [|done]. by eexists _, _. }
  destruct (Z.ltb_spec end_ pos) as [H1|H1].
  { unfold rest_of. rewrite (proj2 (Z.ltb_lt 0 end_)) by lia.
    by replace (Z.to_nat (end_ - pos + 1)) with O by lia. }
  rewrite (i64_id (end_ - pos)), (i64_id (end_ - pos + 1)), (i64_id (end_ + 1)),
    (i64_id (pos + Z.of_nat n)) by (unfold two63 in *; lia).
  set (capped := end_ + 1 <? pos + Z.of_nat n).
  assert (capped && ((end_ - pos + 1 <? 0) || (Z.of_nat n <? end_ - pos + 1)) = false) as ->
    by (unfold capped; lia).
  set (n' := if capped then Z.to_nat (end_ - pos + 1) else n).
  assert (0 < n' <= Z.to_nat (end_ - pos + 1))%nat as Hn' by (unfold n', capped; case_match; lia).
  pose proof (u_Read_range r start end_ pos seeked n' Ha ltac:(lia) Hd ltac:(lia)) as U.
  destruct (u_Read short r n') as [[b|] r']; [|done]. by eexists _, _.
Qed.

(** Buffers a caller may use: not empty, and nowhere near the int64 range. *)
Definition buffer_ok (data : bytes) (start : Z) (n : nat) : Prop :=
  (0 < n)%nat /\ slen data + Z.max 0 start + Z.of_nat n < two63.

(** Reading yields [data] and stops at the end of the file. *)
Definition yields (sizes : list nat) (vr : value_reader) (data : bytes) : Prop :=
  exists chunks, read_chunks short sizes vr = (chunks, AtEOF) /\ sconcat chunks = data.

Lemma yields_cons n sizes vr vr' b data :
  vr_Read short vr n = (ROk b, vr') -> yields sizes vr' data -> yields (n :: sizes) vr (b +:+ data).
Proof. intros E (chunks & Ec & <-). exists (b :: chunks). cbn [read_chunks]. by rewrite E, Ec. Qed.

Lemma yields_end n sizes vr vr' : vr_Read short vr n = (REOF, vr') -> yields (n :: sizes) vr EmptyString.
Proof. intros E. exists []. cbn [read_chunks]. by rewrite E. Qed.

Lemma range_rest sizes r start end_ pos seeked :
  at_range r start end_ pos seeked -> end_ < two63 - 1 ->
  pos <= slen (r_data r) + Z.max 0 start ->
  Forall (buffer_ok (r_data r) start) sizes ->
  (String.length (rest_of r end_ pos) < List.length sizes)%nat ->
  yields sizes (RangeOf (MkBR r start end_ pos seeked)) (rest_of r end_ pos).
Proof.
  intros Ha He Hp Hs. revert r pos Ha Hp Hs. induction sizes as [|n sizes IH]; intros r pos Ha Hp Hs Hl.
  { cbn in Hl. lia. }
  apply Forall_cons in Hs as [[Hn Hb] Hs].
  pose proof (br_Read_step r start end_ pos seeked n Ha Hn He) as R.
  destruct (br_Read short (MkBR r start end_ pos seeked) n) as [[b| |] br] eqn:E;
    try specialize (R ltac:(lia) ltac:(lia)).
  - destruct R as (r' & pos' & -> & Ha' & Hd & Hlb & Hpos & Hle & Hrest).
    rewrite Hrest, slength_app in Hl. cbn in Hl. rewrite Hrest. eapply yields_cons; [cbn [vr_Read]; by rewrite E|].
    apply IH; [done|rewrite Hd; lia|by rewrite Hd|lia].
  - rewrite R. eapply yields_end. cbn [vr_Read]. by rewrite E.
  - done.
Qed.

Lemma whole_rest sizes r :
  Forall (fun n => 0 < n)%nat sizes -> (String.length (sdrop (r_pos r) (r_data r)) < List.length sizes)%nat ->
  yields sizes (WholeValue r) (sdrop (r_pos r) (r_data r)).
Proof.
  intros Hs. revert r. induction Hs as [|n sizes Hn Hs IH]; intros r Hl; [cbn in Hl; lia|].
  pose proof (u_Read_spec r n Hn) as U. destruct (u_Read short r n) as [[b|] r'] eqn:E.
  - destruct U as (k & Hk & Hb & Hlb & ->).
    assert (sdrop (r_pos r) (r_data r) = b +:+ sdrop (r_pos r + String.length b) (r_data r)) as Ed
      by (rewrite <- sdrop_sdrop; subst b; apply stake_split).
    rewrite Ed in *. rewrite slength_app in Hl. cbn in Hl. eapply yields_cons; [cbn [vr_Read]; by rewrite E|].
    apply (IH (MkReader (r_data r) (r_pos r + String.length b) (r_seekable r))). cbn. lia.
  - destruct U as [-> U]. rewrite U. eapply yields_end. cbn [vr_Read]. by rewrite E.
Qed.

Lemma skip_loop_spec fuel r pos toSkip :
  0 <= toSkip <= Z.of_nat fuel ->
  match skip_loop short fuel r pos toSkip with
  | inl _ => sdrop (r_pos r + Z.to_nat toSkip) (r_data r) = EmptyString
  | inr (r', pos') =>
      r' = MkReader (r_data r) (r_pos r + Z.to_nat toSkip) (r_seekable r) /\ pos' = pos + toSkip
  end.
Proof.
  revert r pos toSkip. induction fuel as [|fuel IH]; intros r pos toSkip Hf; cbn [skip_loop];
    destruct (Z.leb_spec toSkip 0).
  1,3: assert (toSkip = 0) as -> by lia; rewrite Z2Nat.inj_0, Nat.add_0_r, Z.add_0_r; by destruct r.
  { lia. }
  pose proof (u_Read_spec r (Z.to_nat (Z.min 1048576 toSkip)) ltac:(lia)) as U.
  destruct (u_Read short r _) as [[b|] r'].
  - destruct U as (k & Hk & Hb & Hl & ->).
    assert (slen b <= toSkip) by (unfold slen; subst b; rewrite slength_stake; lia).
    unfold slen in *. specialize (IH (MkReader (r_data r) (r_pos r + String.length b) (r_seekable r))
      (pos + Z.of_nat (String.length b)) (toSkip - Z.of_nat (String.length b)) ltac:(lia)).
    destruct (skip_loop _ _ _ _ _) as [?|[r' pos']]; cbn [r_data r_pos r_seekable] in IH.
    + rewrite <- IH. f_equal. lia.
    + destruct IH as [-> ->]. split; [f_equal; lia|lia].
  - destruct U as [_ U]. by rewrite <- sdrop_sdrop, U, sdrop_nil.
Qed.

(** It gives up exactly when the value is shorter. *)
Lemma skip_loop_short fuel r pos toSkip :
  0 <= toSkip <= Z.of_nat fuel ->
  match skip_loop short fuel r pos toSkip with
  | inl _ => slen (sdrop (r_pos r) (r_data r)) < toSkip
  | inr _ => toSkip <= slen (sdrop (r_pos r) (r_data r))
  end.
Proof.
  revert r pos toSkip. induction fuel as [|fuel IH]; intros r pos toSkip Hf; cbn [skip_loop];
    destruct (Z.leb_spec toSkip 0); try (unfold slen; lia).
  pose proof (u_Read_spec r (Z.to_nat (Z.min 1048576 toSkip)) ltac:(lia)) as U.
  destruct (u_Read short r _) as [[b|] r'].
  - destruct U as (k & Hk & Hb & Hl & ->).
    assert (slen b <= toSkip) by (unfold slen; subst b; rewrite slength_stake; lia).
    assert (String.length b <= String.length (sdrop (r_pos r) (r_data r)))%nat by (subst b; rewrite slength_stake; lia).
    unfold slen in *. specialize (IH (MkReader (r_data r) (r_pos r + String.length b) (r_seekable r))
      (pos + Z.of_nat (String.length b)) (toSkip - Z.of_nat (String.length b)) ltac:(lia)).
    cbn [r_data r_pos] in IH. rewrite !slength_sdrop in *. destruct (skip_loop _ _ _ _ _); lia.
  - destruct U as [_ ->]. cbn. unfold slen. cbn. lia.
Qed.

(** A request that ends at the largest int64 overflows [br.end+1]: a reader that gets past
    its start truncates its buffer to [br.end-br.pos+1] bytes, which no buffer has, and the
    slice expression panics. *)
Lemma br_Read_max_panics r start pos seeked n :
  seeked = true \/ start <= 0 -> 0 <= pos -> pos + Z.of_nat n < two63 -> (0 < n)%nat ->
  (br_Read short (MkBR r start (two63 - 1) pos seeked) n).1 = RPanic.
Proof.
  intros Hs H0 Hn Hp. unfold br_Read.
  assert (negb seeked && (0 <? start) = false) as -> by (destruct Hs as [->|]; [done|]; destruct seeked; cbn; lia).
  assert (i64 (two63 - 1 + 1) = - two63) as Ew by (vm_compute; reflexivity).
  assert ((0 <? two63 - 1) = true) as -> by (vm_compute; reflexivity). cbn [andb].
  rewrite (proj2 (Z.ltb_ge (two63 - 1) pos)) by lia. rewrite Ew, (i64_id (pos + Z.of_nat n)) by (unfold two63 in *; lia).
  assert ((- two63 <? pos + Z.of_nat n) = true) as -> by (unfold two63; lia). cbn [andb].
  destruct (decide (pos = 0)) as [->|Hne].
  - rewrite (i64_id (two63 - 1 - 0)), Z.sub_0_r, Ew by (unfold two63; lia).
    by assert ((- two63 <? 0) = true) as -> by (unfold two63; lia).
  - rewrite (i64_id (two63 - 1 - pos)), (i64_id (two63 - 1 - pos + 1)) by (unfold two63 in *; lia).
    by assert ((two63 - 1 - pos + 1 <? 0) || (Z.of_nat n <? two63 - 1 - pos + 1) = true) as -> by lia.
Qed.

(** The first call positions the reader; without [Seek] a value shorter than the start
    ends it. *)
Lemma br_Read_position data start end_ seekable n : 0 < start ->
  br_Read short (applyByteRange (MkReader data 0 seekable) start end_) n
  = if negb seekable && (slen data <? start) then (REOF, (br_Read short (applyByteRange (MkReader data 0 seekable) start end_) n).2)
    else br_Read short (MkBR (MkReader data (Z.to_nat start) seekable) start end_ start true) n.
Proof.
  intros H0. unfold br_Read at 1, applyByteRange at 1. cbn [negb andb r_seekable].
  rewrite (proj2 (Z.ltb_lt 0 start)) by lia. destruct seekable; cbn [negb andb]; [done|].
  pose proof (skip_loop_spec (Z.to_nat start) (MkReader data 0 false) 0 start ltac:(lia)) as S1.
  pose proof (skip_loop_short (Z.to_nat start) (MkReader data 0 false) 0 start ltac:(cbn; lia)) as S2.
  unfold br_Read, applyByteRange. cbn [negb andb r_seekable r_data r_pos Nat.add] in *. rewrite (proj2 (Z.ltb_lt 0 start)) by lia.
  destruct (skip_loop short (Z.to_nat start) (MkReader data 0 false) 0 start) as [[r p]|[r p]].
  - by rewrite (proj2 (Z.ltb_lt (slen data) start)) by exact S2.
  - destruct S1 as [-> ->]. by rewrite (proj2 (Z.ltb_ge (slen data) start)) by exact S2.
Qed.

(** Where a range read panics instead. *)
Definition range_panics (data : bytes) (start end_ : Z) (seekable : bool) : bool :=
  (end_ =? two63 - 1) && (seekable || (start <=? slen data)).

(** C36: a range read returns the range, or panics at the largest end. Whatever short reads
    the underlying reader makes and whatever non-empty buffers the caller uses (small enough
    that positions stay within int64), reading a value of [data] through [applyByteRange] to
    end of file yields exactly the bytes from [start] to [end] inclusive (to the end of the
    value when [end <= 0], nothing when the range lies beyond it), whether the reader can
    seek or the bytes before [start] must be discarded. The one exception is an [end] of the
    largest int64, where the first call panics, unless the reader cannot seek and the value
    ends before [start]. *)
Theorem range_read_correct data start end_ seekable sizes :
  end_ < two63 -> slen data < two63 -> start < two63 ->
  Forall (buffer_ok data start) sizes -> (String.length data < List.length sizes)%nat ->
  let vr := RangeOf (applyByteRange (MkReader data 0 seekable) start end_) in
  if range_panics data start end_ seekable then read_chunks short sizes vr = ([], AtPanic)
  else yields sizes vr (byte_range data start end_).
Proof.
  intros He Hd Hst Hs Hl vr. assert (0 <= slen data) as Hd0 by (unfold slen; lia). destruct sizes as [|n sizes]; [cbn in Hl; lia|].
  apply Forall_cons in Hs as Hs'. destruct Hs' as [[Hn Hb] _].
  assert (forall sk, negb sk && (slen data <? start) = true -> byte_range data start end_ = EmptyString) as Hbeyond.
  { intros sk Hx. unfold byte_range. rewrite (sdrop_all (Z.to_nat (Z.max 0 start))) by (destruct sk; cbn in Hx; [done|]; unfold slen in *; lia).
    by destruct (0 <? end_), (Z.to_nat (end_ - Z.max 0 start + 1)). }
  assert (0 < start -> forall k, vr_Read short vr k = (REOF, RangeOf (br_Read short (applyByteRange (MkReader data 0 seekable) start end_) k).2)
    /\ negb seekable && (slen data <? start) = true
    \/ vr_Read short vr k = vr_Read short (RangeOf (MkBR (MkReader data (Z.to_nat start) seekable) start end_ start true)) k
    /\ negb seekable && (slen data <? start) = false) as Hpos.
  { intros H0 k. unfold vr, vr_Read. rewrite br_Read_position at 1 3 by done. destruct (negb seekable && (slen data <? start)); [by left|by right]. }
  unfold range_panics. destruct (Z.eqb_spec end_ (two63 - 1)) as [->|Hne]; cbn [andb].
  - assert (forall r st pos seeked, seeked = true \/ st <= 0 -> 0 <= pos -> pos + Z.of_nat n < two63 ->
      read_chunks short (n :: sizes) (RangeOf (MkBR r st (two63 - 1) pos seeked)) = ([], AtPanic)) as Hp.
    { intros r st pos seeked Hsk H0 H1. pose proof (br_Read_max_panics r st pos seeked n Hsk H0 H1 Hn) as E. cbn [read_chunks vr_Read].
      destruct (br_Read _ _ n) as [x br]. cbn in E. by subst x. }
    destruct (Z.ltb_spec 0 start) as [H0|H0].
    + destruct (Hpos H0 n) as [[E Hx]|[E Hx]].
      * assert (seekable || (start <=? slen data) = false) as -> by (destruct seekable; cbn in *; [done|lia]).
        rewrite (Hbeyond _ Hx). by eapply yields_end.
      * assert (seekable || (start <=? slen data) = true) as -> by (destruct seekable; cbn in *; [done|lia]).
        rewrite <- (Hp (MkReader data (Z.to_nat start) seekable) start start true); [cbn [read_chunks]; by rewrite E|by left|lia|lia].
    + assert (seekable || (start <=? slen data) = true) as -> by (unfold slen; destruct seekable; cbn; lia).
      apply Hp; [by right|lia|lia].
  - assert (forall r pos seeked, at_range r start end_ pos seeked -> r_data r = data ->
            pos = Z.max 0 start -> rest_of r end_ pos = byte_range data start end_ ->
            yields (n :: sizes) (RangeOf (MkBR r start end_ pos seeked)) (byte_range data start end_)) as K.
    { intros r pos seeked Ha <- Hpo Hr. rewrite <- Hr. apply range_rest; try done; [lia|unfold slen; lia|].
      rewrite Hr. eapply Nat.le_lt_trans; [|exact Hl]. unfold byte_range.
      case_match; rewrite ?slength_stake, slength_sdrop; lia. }
    destruct (Z.ltb_spec 0 start) as [H0|H0].
    + destruct (Hpos H0 n) as [[E Hx]|[E Hx]]; [rewrite (Hbeyond _ Hx); by eapply yields_end|].
      destruct (K (MkReader data (Z.to_nat start) seekable) start true) as (chunks & Ec & Hc); [split; [cbn; lia|by left]|done|lia| |].
      * unfold rest_of, byte_range. cbn [r_data r_pos]. by rewrite Z.max_r by lia.
      * exists chunks. split; [|done]. rewrite <- Ec. cbn [read_chunks]. by rewrite E.
    + apply K; [by split; [|right]|done|lia|]. unfold rest_of, byte_range. cbn [r_data r_pos]. by rewrite Z.max_l by lia.
Qed.

Lemma px_read_all_spec sizes prefix r :
  Forall (fun n => 0 < n)%nat sizes ->
  (String.length prefix + String.length (sdrop (r_pos r) (r_data r)) < List.length sizes)%nat ->
  px_read_all short sizes (MkPrefix prefix r) = Some (prefix +:+ sdrop (r_pos r) (r_data r)).
Proof.
  intros Hs. revert prefix r. induction Hs as [|n sizes Hn Hs IH]; intros prefix r Hl; [cbn in Hl; lia|].
  cbn [px_read_all List.length] in *. unfold px_Read. cbn [px_prefix px_reader].
  destruct prefix as [|c p].
  - pose proof (u_Read_spec r n Hn) as U. destruct (u_Read short r n) as [[b|] r'].
    + destruct U as (k & Hk & Hb & Hlb & ->).
      assert (sdrop (r_pos r) (r_data r) = b +:+ sdrop (r_pos r + String.length b) (r_data r)) as E
        by (rewrite <- sdrop_sdrop; subst b; apply stake_split).
      rewrite E, slength_app in Hl. cbn in Hl. rewrite sapp_nil_l, E, IH by (cbn; lia). done.
    + destruct U as [-> ->]. done.
  - set (pre := String c p) in *.
    assert (0 < String.length pre)%nat by (cbn; lia).
    rewrite IH by (rewrite slength_sdrop; lia). cbn [mbind option_bind].
    by rewrite <- sapp_assoc, stake_sdrop.
Qed.

(** nothing of a value is lost between deciding where to store it and storing
    it. A reader built by [joinPrefix] yields the bytes already taken from the stream
    followed by the rest of the stream, through [Read] with any buffer sizes and short
    reads; through [WriteTo] a complete write reports the total length and leaves no
    prefix behind, and an incomplete one is reported as an error with exactly the
    unwritten prefix kept. *)
Theorem prefix_reader_lossless prefix r sizes write n err m werr :
  Forall (fun n => 0 < n)%nat sizes ->
  (String.length prefix + String.length (sdrop (r_pos r) (r_data r)) < List.length sizes)%nat ->
  prefix <> EmptyString -> write prefix = (n, err) -> 0 <= n <= slen prefix ->
  px_read_all short sizes (MkPrefix prefix r) = Some (prefix +:+ sdrop (r_pos r) (r_data r))
  /\ (n = slen prefix -> err = None ->
        px_WriteTo write (m, werr) prefix = (slen prefix + m, werr, EmptyString))
  /\ (n < slen prefix -> exists e,
        px_WriteTo write (m, werr) prefix = (n, Some e, sdrop (Z.to_nat n) prefix)).
Proof.
  intros Hs Hl Hp Hw Hn. split; [by apply px_read_all_spec|].
  unfold px_WriteTo. rewrite decide_False by done. rewrite Hw.
  assert ((n <? 0) || (slen prefix <? n) = false) as -> by lia. split.
  - intros -> ->. rewrite Z.eqb_refl. cbn [negb]. do 2 f_equal. apply sdrop_all. unfold slen. lia.
  - intros Hlt. destruct err as [e|]; [by exists e|].
    rewrite (proj2 (Z.eqb_neq n (slen prefix))) by lia. eexists. done.
Qed.

End Correct.

(** ** The reader of a value *)

(** What [Get] returns for a value: its own reader, which can seek, or a range of it. *)
Definition get_reader (data : bytes) (start end_ : Z) : value_reader :=
  let r := MkReader data 0 true in
  if (0 <? start) || (0 <? end_) then RangeOf (applyByteRange r start end_) else WholeValue r.

(** Reading it to the end yields the range of [data], with any buffers and short reads,
    unless the range ends at the largest int64, where the first call panics. *)
Definition reads_as (vr : value_reader) (data : bytes) (start end_ : Z) : Prop :=
  forall short sizes, Forall (buffer_ok data start) sizes -> (String.length data < List.length sizes)%nat ->
    if end_ =? two63 - 1 then read_chunks short sizes vr = ([], AtPanic)
    else yields short sizes vr (byte_range data start end_).

Lemma get_reader_reads data start end_ :
  is_i64 start -> is_i64 end_ -> slen data < two63 -> reads_as (get_reader data start end_) data start end_.
Proof.
  intros [_ Hst] [_ He] Hd short sizes Hs Hl. unfold get_reader.
  destruct ((0 <? start) || (0 <? end_)) eqn:E.
  - pose proof (range_read_correct short data start end_ true sizes He Hd Hst Hs Hl) as R. unfold range_panics in R. by rewrite andb_true_r in R.
  - apply orb_false_iff in E as [E1 E2]. rewrite (proj2 (Z.eqb_neq end_ (two63 - 1))) by (unfold two63; lia).
    assert (byte_range data start end_ = data) as -> by (unfold byte_range; rewrite E2, Z.max_l by lia; done).
    apply (whole_rest short sizes (MkReader data 0 true)); [|done]. eapply Forall_impl; [exact Hs|]. by intros n [? _].
Qed.

(** ** Concrete instances *)

Lemma range_read_correct_witness :
  yields (fun _ => 2%nat) (replicate 8 3%nat) (RangeOf (applyByteRange (MkReader "abcdef" 0 false) 2 4)) "cde"
  /\ read_chunks (fun _ => 2%nat) (replicate 8 3%nat) (RangeOf (applyByteRange (MkReader "abcdef" 0 true) 2 (two63 - 1))) = ([], AtPanic).
Proof.
  split.
  - apply (range_read_correct (fun _ => 2%nat) "abcdef" 2 4 false (replicate 8 3%nat)); try reflexivity.
    + apply Forall_replicate. split; [lia|reflexivity].
    + cbn. lia.
  - apply (range_read_correct (fun _ => 2%nat) "abcdef" 2 (two63 - 1) true (replicate 8 3%nat)); try reflexivity.
    + apply Forall_replicate. split; [lia|reflexivity].
    + cbn. lia.
Defined.

Lemma prefix_reader_lossless_witness :
  px_read_all (fun _ => 2%nat) (replicate 8 3%nat) (MkPrefix "ab" (MkReader "cde" 0 false))
    = Some "abcde"%string
  /\ px_WriteTo (fun b => (slen b, None)) (3, None) "ab" = (5, None, EmptyString).
Proof.
  destruct (prefix_reader_lossless (fun _ => 2%nat) "ab" (MkReader "cde" 0 false) (replicate 8 3%nat)
    (fun b => (slen b, None)) 2 None 3 None) as (E1 & E2 & _).
  - apply Forall_replicate. lia.
  - cbn. lia.
  - discriminate.
  - reflexivity.
  - split; [lia|reflexivity].
  - split; [exact E1|exact (E2 eq_refl eq_refl)].
Defined.
