(* ===== verification/Storage.v ===== *)
(** * The storage engine's plain operations (storage/storage.go)

    Put, Get, DeleteKey and their helpers as state transformers over [World]. Each
    definition follows one Go function statement by statement: every database call,
    clock reading, file operation and counter update is there, in order; metrics and
    log lines are not. A Go [(T, error)] result is [error + T]. *)

From S2P Require Import Prelude Keys Errors Message Merge Wire Rocks World Files RangeReader.

Open Scope Z_scope.

Section Storage.

Context {DB SM : Type} `{Protobuf} `{RocksDB DB} `{SegmentStore SM} (env : Env) (cfg : Config).
Notation M := (M (DB := DB) (SM := SM)).

(** ** Helpers *)

Definition stageRawFileDeletion (rawFilePath : bytes) : M () :=
  _ ← Queue_Add env rawFilePath; mret ().

Definition updateDeleteIndex (segmentPath : bytes) (deletedBytes : Z) : M () :=
  if decide (segmentPath = EmptyString) then mret ()
  else _ ← Write_ [BMerge (MakeDeleteIndexKey segmentPath) (MakeDeleteIndexOperand 1 deletedBytes)];
       mret ().

Definition stageFileDeletion (vm : ValueMessage) : M () :=
  if ValueType vm =? RAW_FILE then stageRawFileDeletion (RawFilePath vm)
  else if ValueType vm =? SEGMENT then updateDeleteIndex (SegmentPath vm) (ValueLength vm)
  else mret ().

(** [compaction.PrepareEntryForCompaction]. *)
Definition PrepareEntryForCompaction (key filePath : bytes) : M (bytes * bytes) :=
  ts ← time_Now env; mret (MakeCompactionKey ts key, filePath).

Definition existingValue (metaKey : bytes) : M (option valueMessageCleanupFields) :=
  r ← Get_ metaKey;
  match r with
  | inl _ | inr None => mret None
  | inr (Some v) => mret (decodeValueMessageCleanupFields v)
  end.

(** The operations [writeFifoIndexEntry] adds to the batch. *)
Definition writeFifoIndexEntry (key : bytes) (now : Z) : M (list batch_op) :=
  let backref := MakeFifoBackrefKey key in
  r ← Get_ backref;
  let dels := match r with inr (Some prev) => [BDelete prev] | _ => [] end in
  let fifoKey := MakeFifoIndexKey key now in
  mret (dels ++ [BPut fifoKey EmptyString; BPut backref fifoKey]).

(** The eviction-index entries of a write, under the active policy (no cap, none). *)
Definition eviction_index_ops (key : bytes) : M (list batch_op) :=
  if 0 <? maxDiskUsage cfg then
    now ← time_Now env;
    if is_fifo cfg then writeFifoIndexEntry key now
    else
      let accessKey := MakeBucketedAccessKey (env_tz env) key now in
      mret [BPut accessKey EmptyString; BPut (MakeBucketedAccessIndexKey key) accessKey]
  else mret [].

Definition backrefKey (key : bytes) : bytes :=
  if is_fifo cfg then MakeFifoBackrefKey key else MakeBucketedAccessIndexKey key.

Definition stageEvictionIndexDeletes (key : bytes) : M (list batch_op) :=
  let backref := backrefKey key in
  r ← Get_ backref;
  mret (match r with inr (Some prev) => [BDelete prev] | _ => [] end ++ [BDelete backref]).

(** The dead-byte credit of a replaced or deleted segment value. *)
Definition segment_credit (f : valueMessageCleanupFields) : list batch_op :=
  if (cf_valueType f =? SEGMENT) && bool_decide (cf_segmentPath f <> EmptyString)
  then [BMerge (MakeDeleteIndexKey (cf_segmentPath f)) (MakeDeleteIndexOperand 1 (cf_valueLength f))]
  else [].

(** ** Put *)

Definition medium (n : Z) : bool := (inlineThreshold cfg <? n) && (n <=? compactThreshold cfg).

(** [putLow]: the length of the replaced row's value, or the write error. *)
Definition putLow (key val filePath : bytes) (bytesWritten : Z) : M (error + Z) :=
  batch ← (if medium bytesWritten
           then '(cIdxKey, cIdxVal) ← PrepareEntryForCompaction key filePath;
                mret [BPut cIdxKey cIdxVal]
           else mret []);
  let metaKey := MakeMetadataKey key in
  prev ← existingValue metaKey;
  let prevSize := match prev with Some f => cf_valueLength f | None => 0 end in
  let batch := batch ++ [BPut metaKey val]
    ++ match prev with Some f => segment_credit f | None => [] end in
  idx ← eviction_index_ops key;
  r ← Write_ (batch ++ idx);
  match r with
  | Some e => mret (inl e)
  | None =>
      _ ← match prev with
          | Some f => if cf_valueType f =? RAW_FILE then stageRawFileDeletion (cf_rawFilePath f) else mret ()
          | None => mret ()
          end;
      mret (inr prevSize)
  end.

(** The expiry of a write with the given TTL. *)
Definition expiry_of (ttl : Z) : M Z :=
  let ttl := if ttl <=? 0 then defaultTTL cfg else ttl in
  if 0 <? ttl then now ← time_Now env; mret (unix_of (now + i64 (ttl * 1000000000)))
  else mret 0.

(** How [Put] and [PutIfVersion] report a failed file write. *)
Definition mapFileError (op key : bytes) (err : error) : error :=
  if isNoSpaceError err then NewStorageFullError op err
  else if os_IsNotExist err || os_IsPermission err then NewIORetryableError op key err
  else NewIOError op key err.

Definition firstReadSize : nat :=
  let n := inlineThreshold cfg + 1 in Z.to_nat (if n <=? 0 then 1 else n).

Definition inflight_add (path : bytes) : M () := fun w => ((), set_inflight ({[path]} ∪ w_inflight w) w).
Definition inflight_del (path : bytes) : M () := fun w => ((), set_inflight (w_inflight w ∖ {[path]}) w).

Definition raw_row (filePath : bytes) (expiry bytesWritten checksum : Z) : ValueMessage :=
  MkVM RAW_FILE EmptyString expiry filePath EmptyString 0 bytesWritten checksum 0 0 0.

Definition inline_row (data : bytes) (expiry : Z) : ValueMessage :=
  MkVM INLINE data expiry EmptyString EmptyString 0 (slen data) 0 0 0 0.

(** The part of [Put] after the file is written; [inflightRaw] is cleared by the
    deferred delete on every way out. *)
Definition put_raw (key filePath : bytes) (expiry bytesWritten checksum : Z) : M (option error) :=
  _ ← inflight_add filePath;
  r ← match proto_Marshal (raw_row filePath expiry bytesWritten checksum) with
      | None => _ ← stageRawFileDeletion filePath; mret (Some (NewInternalError "Put" (EText "proto: marshal")))
      | Some val =>
          r ← putLow key val filePath bytesWritten;
          match r with
          | inr prevSize => _ ← notifyPut (bytesWritten - prevSize); mret None
          | inl err => _ ← stageRawFileDeletion filePath; mret (Some (mapRocksDBError "Put" key err))
          end
      end;
  _ ← inflight_del filePath;
  mret r.

Definition put_inline (key data : bytes) (expiry : Z) : M (option error) :=
  match proto_Marshal (inline_row data expiry) with
  | None => mret (Some (NewInternalError "Put" (EText "proto: marshal")))
  | Some val =>
      r ← putLow key val EmptyString (slen data);
      match r with
      | inr prevSize => _ ← notifyPut (slen data - prevSize); mret None
      | inl err => mret (Some (mapRocksDBError "Put" key err))
      end
  end.

Definition Put (key : bytes) (body : Body) (ttl : Z) : M (option error) :=
  let '(firstChunk, err, rest) := ReadFull body firstReadSize in
  match err with
  | Some e => mret (Some (NewIOError "Put" key e))
  | None =>
      expiry ← expiry_of ttl;
      if inlineThreshold cfg <? slen firstChunk then
        r ← fm_Write env cfg key (joinPrefix firstChunk rest);
        match r with
        | inl err => mret (Some (mapFileError "Put" key err))
        | inr (filePath, checksum, bytesWritten) => put_raw key filePath expiry bytesWritten checksum
        end
      else put_inline key firstChunk expiry
  end.

(** ** Delete *)

Definition DeleteKey (key : bytes) : M (option error) :=
  let metaKey := MakeMetadataKey key in
  r ← Get_ metaKey;
  match r with
  | inl err => mret (Some (mapRocksDBError "DeleteKey" key err))
  | inr None => mret None
  | inr (Some v) =>
      let decoded := decodeValueMessageCleanupFields v in
      _ ← match decoded with Some f => notifyDelete (cf_valueLength f) | None => mret () end;
      idx ← stageEvictionIndexDeletes key;
      let batch := [BDelete metaKey] ++ idx
        ++ match decoded with Some f => segment_credit f | None => [] end in
      r ← Write_ batch;
      match r with
      | Some err => mret (Some (mapRocksDBError "DeleteKey" key err))
      | None =>
          _ ← match decoded with
              | Some f => if cf_valueType f =? RAW_FILE then stageRawFileDeletion (cf_rawFilePath f) else mret ()
              | None => mret ()
              end;
          mret None
      end
  end.

(** ** Get *)

(** [accessUpdater.UpdateNow]: queued unless the channel is full. *)
Definition accessBufferSize : nat := Z.to_nat 100000.

Definition Update (key : bytes) (t : Z) : M () := fun w =>
  ((), if (List.length (w_access w) <? accessBufferSize)%nat
       then set_access (w_access w ++ [(key, t)]) w else w).

Definition refresh_access (key : bytes) : M () :=
  if has_updater cfg then now ← time_Now env; Update key now else mret ().

Definition purgeDanglingRawFile (key rawFilePath : bytes) : M () :=
  match MakeRawFilePurgeOperand rawFilePath with
  | None => mret ()
  | Some operand => _ ← Write_ [BMerge (MakeMetadataKey key) operand]; mret ()
  end.

(** Whether a row with this expiry reads as expired at a clock reading. *)
Definition expired_at (expiry now : Z) : bool := (0 <? expiry) && (expiry <=? unix_of now).

(** [Expiry > 0 && time.Now().Unix() >= Expiry]: the clock is read only for a row
    that has an expiry. *)
Definition check_expired (expiry : Z) : M bool :=
  if 0 <? expiry then now ← time_Now env; mret (expired_at expiry now) else mret false.

(** [Get] without the byte range: the value, nothing, or the error. *)
Definition get_value (key : bytes) : M (error + option bytes) :=
  let metaKey := MakeMetadataKey key in
  r ← Get_ metaKey;
  match r with
  | inl err => mret (inl (mapRocksDBError "Get" key err))
  | inr None => mret (inr None)
  | inr (Some v) =>
      match proto_Unmarshal v with
      | None => mret (inl (NewCorruptionError "Get" key (EText "proto: cannot parse")))
      | Some vm =>
          expired ← check_expired (Expiry vm);
          if (expired : bool) then mret (inr None)
          else
            _ ← refresh_access key;
            if ValueType vm =? INLINE then mret (inr (Some (Data vm)))
            else if ValueType vm =? SEGMENT then
              r ← on_sm (sm_ReadEntry key (SegmentPath vm) (SegmentOffset vm) (ValueLength vm));
              match r with
              | inl err => mret (inl (NewIORetryableError "Get" key err))
              | inr ob => mret (inr ob)
              end
            else if ValueType vm =? RAW_FILE then
              r ← fm_Read env (RawFilePath vm) (ValueLength vm);
              match r with
              | inl err =>
                  if errors_Is err OsErrNotExist && (compactThreshold cfg <? ValueLength vm) then
                    _ ← purgeDanglingRawFile key (RawFilePath vm);
                    mret (inl (NewIORetryableError "Get" key err))
                  else match err with
                    | ESentinel ErrFileLocked => mret (inl (NewLockError "Get" key err))
                    | _ => mret (inl (NewIORetryableError "Get" key err))
                    end
              | inr ob => mret (inr ob)
              end
            else mret (inl (NewCorruptionError "Get" key (EText "unknown value type")))
      end
  end.

(** [Get]: the reader of the value, of which only the range is read if one is given. The
    three kinds of readers can seek. *)
Definition Get (key : bytes) (start end_ : Z) : M (error + option value_reader) :=
  r ← get_value key;
  mret match r with
       | inl err => inl err
       | inr None => inr None
       | inr (Some data) => inr (Some (get_reader data start end_))
       end.

(** ** The delete index *)

Definition deleteIndexStats (deleteIndexKey : bytes) : M (error + Z * Z) :=
  r ← Get_ deleteIndexKey;
  match r with
  | inl err => mret (inl err)
  | inr None => mret (inr (0, 0))
  | inr (Some v) =>
      match proto_Unmarshal_DI v with
      | None => mret (inl (EText "proto: cannot parse"))
      | Some e => mret (inr (DeletedEntries e, DeletedBytes e))
      end
  end.

Definition GetDeleteIndexStats (segmentPath : bytes) : M (error + Z * Z) :=
  if decide (segmentPath = EmptyString) then mret (inr (0, 0))
  else deleteIndexStats (MakeDeleteIndexKey segmentPath).

Definition RemoveDeleteIndex (segmentPath : bytes) : M (option error) :=
  if decide (segmentPath = EmptyString) then mret None
  else Write_ [BDelete (MakeDeleteIndexKey segmentPath)].

Fixpoint delete_stats_rows (rows : list (bytes * bytes)) : list (bytes * Z * Z) :=
  match rows with
  | [] => []
  | (k, v) :: rows =>
      match proto_Unmarshal_DI v with
      | None => delete_stats_rows rows
      | Some e => (ExtractSegmentPath k, DeletedEntries e, DeletedBytes e) :: delete_stats_rows rows
      end
  end.

Definition ListSegmentDeleteStats : M (error + list (bytes * Z * Z)) :=
  it ← Iterate_ DeleteIndexPrefix;
  mret match iter_Err (prefix_rest DeleteIndexPrefix it.1) it.2 with
       | Some err => inl err
       | None => inr (delete_stats_rows (prefix_rows DeleteIndexPrefix it.1))
       end.

End Storage.
