(* ===== verification/Wp.v ===== *)
(** * Weakest preconditions for the engine's operations

    The rules that execute the commands of World.v symbolically against the laws of the
    metadata store. *)

From S2P Require Import Prelude Keys Errors Message Merge Rocks World.

Open Scope Z_scope.

Section Rules.

Context {DB SM : Type} `{Protobuf} `{RocksDB DB} `{!RocksLaws DB} (env : Env).
Implicit Types w : World DB SM.

Lemma wp_time_Now (Q : Z -> World DB SM -> Prop) w :
  Q (env_now env (w_tick w)) (tick w) -> wp (time_Now env) Q w.
Proof. done. Qed.

Lemma wp_syscall (Q : option Errno -> World DB SM -> Prop) w :
  Q (env_fault env (w_tick w)) (tick w) -> wp (syscall env) Q w.
Proof. done. Qed.

Lemma wp_syscall_any (Q : option Errno -> World DB SM -> Prop) w :
  (forall f, Q f (tick w)) -> wp (syscall env) Q w.
Proof. intros HQ. apply HQ. Qed.

Lemma wp_Get m k (Q : error + option bytes -> World DB SM -> Prop) w :
  represents (w_db w) m ->
  (forall e db, represents db m -> Q (inl e) (set_db db w)) ->
  (forall db, represents db m -> Q (inr (m !! k)) (set_db db w)) ->
  wp (Get_ k) Q w.
Proof.
  intros Hm H1 H2. unfold wp, Get_, on_db. destruct (db_Get k (w_db w)) as [r db] eqn:E.
  destruct (rdb_get _ _ _ _ _ Hm E) as [Hm' Hv]. cbn. destruct r as [e|v]; [by apply H1|].
  rewrite (Hv v eq_refl). by apply H2.
Qed.

Lemma wp_Write m ops (Q : option error -> World DB SM -> Prop) w :
  represents (w_db w) m -> batch_regular m ops ->
  (forall e db, represents db m -> Q (Some e) (set_db db w)) ->
  (forall db, represents db (apply_batch m ops) -> Q None (set_db db w)) ->
  wp (Write_ ops) Q w.
Proof.
  intros Hm Hr H1 H2. unfold wp, Write_, on_db. destruct (db_Write ops (w_db w)) as [[e|] db] eqn:E; cbn.
  - apply H1. by eapply rdb_write_failed.
  - apply H2. by eapply rdb_write.
Qed.

Lemma wp_Iterate m seek (Q : list (bytes * bytes) * option error -> World DB SM -> Prop) w :
  represents (w_db w) m ->
  (forall l err rest db, represents db m -> l ++ rest = rows_from seek m -> (err = None -> rest = []) ->
     Q (l, err) (set_db db w)) ->
  wp (Iterate_ seek) Q w.
Proof.
  intros Hm H1. unfold wp, Iterate_, on_db. destruct (db_Iterate seek (w_db w)) as [[l err] db] eqn:E.
  destruct (rdb_iterate _ _ _ _ _ _ Hm E) as (Hm' & rest & Hl & He). cbn. by eapply H1.
Qed.

Lemma wp_UpdateSize delta (Q : () -> World DB SM -> Prop) w :
  Q () (set_size (i64 (w_size w + delta)) w) -> wp (UpdateSize delta) Q w.
Proof. done. Qed.

End Rules.

(** ** Batches *)

Section Batches.

Context `{Protobuf}.

Definition op_key (op : batch_op) : bytes :=
  match op with BPut k _ | BDelete k | BMerge k _ => k end.

Lemma apply_batch_app m o1 o2 : apply_batch m (o1 ++ o2) = apply_batch (apply_batch m o1) o2.
Proof. apply fold_left_app. Qed.

Lemma apply_op_other m op k : op_key op <> k -> apply_op m op !! k = m !! k.
Proof.
  destruct op; cbn; intros Hne; [by rewrite lookup_insert_ne|by rewrite lookup_delete_ne|].
  case_match; [by rewrite lookup_insert_ne|done].
Qed.

Lemma apply_batch_other ops m k :
  Forall (fun op => op_key op <> k) ops -> apply_batch m ops !! k = m !! k.
Proof.
  intros Hf. revert m. induction Hf as [|op ops Ho Hf IH]; intros m; [done|].
  cbn. fold (apply_batch (apply_op m op) ops). rewrite IH. by apply apply_op_other.
Qed.

Lemma batch_regular_app m o1 o2 :
  batch_regular m (o1 ++ o2) <-> batch_regular m o1 /\ batch_regular (apply_batch m o1) o2.
Proof.
  revert m. induction o1 as [|op o1 IH]; intros m; cbn; [tauto|].
  fold (apply_batch (apply_op m op) o1). rewrite IH. tauto.
Qed.

(** Puts, deletes and delete-index credits are always regular. *)
Definition plain_op (op : batch_op) : Prop :=
  match op with BMerge k _ => IsDeleteIndexKey k = true | _ => True end.

Lemma plain_regular ops m : Forall plain_op ops -> batch_regular m ops.
Proof.
  intros Hf. revert m. induction Hf as [|op ops Ho Hf IH]; intros m; cbn; [done|].
  split; [|apply IH]. destruct op; cbn in *; try done. congruence.
Qed.

End Batches.

#[export] Hint Resolve wp_ret : ocache.

