(* ===== verification/Safety.v ===== *)
(** * Reference safety of the raw files

    The invariant that ties the metadata rows, the raw files on disk and the
    deletion queue together: every RAW_FILE row has its file on disk with the
    recorded length, no two rows share a file, and no file that a row references is
    queued for deletion. The engine's operations preserve it under every failure of
    the store and of the file system, so a queued deletion never removes live data. *)

From S2P Require Import Prelude Keys Errors Message Merge Wire Rocks World Files RangeReader Storage Wp.

Open Scope Z_scope.

(** ** Rows, files and queue entries *)

Section Rows.

Context `{Protobuf}.
Implicit Types m : gmap bytes bytes.

Definition row_at m (key : bytes) (vm : ValueMessage) : Prop :=
  exists v, m !! MakeMetadataKey key = Some v /\ proto_Unmarshal v = Some vm.

Definition raw_at m (key path : bytes) (len : Z) : Prop :=
  exists vm, row_at m key vm /\ ValueType vm = RAW_FILE /\ RawFilePath vm = path /\ ValueLength vm = len.

Definition unreferenced m (path : bytes) : Prop := forall key len, ~ raw_at m key path len.

Definition is_backref (k : bytes) : bool :=
  has_prefix FifoBackrefPrefix k || has_prefix AccessBucketIndexPrefix k.

Definition is_index_entry (k : bytes) : bool :=
  has_prefix FifoIndexPrefix k || has_prefix AccessBucketPrefix k.

(** The path of the file the [n]-th consultation of the environment would name. *)
Definition path_of (env : Env) (cfg : Config) (n : nat) : bytes :=
  filepath_Join (filesPath cfg) (env_uuid env n).

Record ref_safe (env : Env) (cfg : Config) m (disk : gmap bytes bytes) (t : nat) : Prop := {
  rs_file key path len : raw_at m key path len -> exists c, disk !! path = Some c /\ slen c = len;
  rs_uniq k1 k2 path l1 l2 : raw_at m k1 path l1 -> raw_at m k2 path l2 -> k1 = k2;
  rs_queue k v : m !! k = Some v -> has_prefix DeletionQueuePrefix k = true ->
    exists ts path, is_i64 ts /\ k = MakeDeletionQueueKey ts path /\ unreferenced m path
      /\ (forall n, (t <= n)%nat -> path <> path_of env cfg n);
  rs_fresh n : (t <= n)%nat -> unreferenced m (path_of env cfg n);
  rs_backref k e : m !! k = Some e -> is_backref k = true -> is_index_entry e = true;
  rs_new n : (t <= n)%nat -> disk !! path_of env cfg n = None
}.

(** ** Operations that touch neither rows nor the queue *)

Definition quiet_key (k : bytes) : bool :=
  negb (has_prefix MetadataPrefix k) && negb (has_prefix DeletionQueuePrefix k).

Definition index_op (op : batch_op) : Prop :=
  match op with
  | BPut k v => quiet_key k = true /\ (is_backref k = true -> is_index_entry v = true)
  | BDelete k => quiet_key k = true
  | BMerge k _ => IsDeleteIndexKey k = true
  end.

Lemma prefix_excl p q k :
  has_prefix p q || has_prefix q p = false -> has_prefix p k = true -> has_prefix q k = false.
Proof.
  intros Hpq Hp. destruct (has_prefix q k) eqn:E; [|done].
  by rewrite (has_prefix_comparable p q k) in Hpq.
Qed.

Lemma quiet_incomparable p k :
  has_prefix p MetadataPrefix || has_prefix MetadataPrefix p = false ->
  has_prefix p DeletionQueuePrefix || has_prefix DeletionQueuePrefix p = false ->
  has_prefix p k = true -> quiet_key k = true.
Proof.
  intros H1 H2 Hk. unfold quiet_key.
  by rewrite (prefix_excl p MetadataPrefix), (prefix_excl p DeletionQueuePrefix).
Qed.

Lemma delete_index_quiet k : IsDeleteIndexKey k = true -> quiet_key k = true.
Proof. by apply quiet_incomparable. Qed.

Lemma index_op_key op : index_op op -> quiet_key (op_key op) = true.
Proof. destruct op; cbn; [by intros []|done|apply delete_index_quiet]. Qed.

Lemma index_op_plain ops : Forall index_op ops -> Forall plain_op ops.
Proof. intros Hf. eapply Forall_impl; [exact Hf|]. by intros []. Qed.

Lemma quiet_metadata k key : quiet_key k = true -> k <> MakeMetadataKey key.
Proof. intros Hq ->. unfold quiet_key, MakeMetadataKey in Hq. by rewrite has_prefix_app in Hq. Qed.

Lemma quiet_row_at m m' key vm :
  m' !! MakeMetadataKey key = m !! MakeMetadataKey key -> row_at m' key vm <-> row_at m key vm.
Proof. intros E. unfold row_at. by rewrite E. Qed.

Lemma raw_at_ext m m' key path len :
  m' !! MakeMetadataKey key = m !! MakeMetadataKey key -> raw_at m' key path len <-> raw_at m key path len.
Proof. intros E. unfold raw_at. by setoid_rewrite (quiet_row_at m m' key _ E). Qed.

(** A store that differs only in other rows, whose queue rows come from [m] and whose
    back-references are sound. *)
Lemma ref_safe_frame env cfg m m' disk t :
  ref_safe env cfg m disk t ->
  (forall key, m' !! MakeMetadataKey key = m !! MakeMetadataKey key) ->
  (forall k v, has_prefix DeletionQueuePrefix k = true -> m' !! k = Some v -> m !! k = Some v) ->
  (forall k e, m' !! k = Some e -> is_backref k = true -> is_index_entry e = true) ->
  ref_safe env cfg m' disk t.
Proof.
  intros [] Hrow Hq Hb.
  assert (forall key path len, raw_at m' key path len <-> raw_at m key path len) as Hr
    by (intros; by apply raw_at_ext).
  split; try done.
  - intros key path len. rewrite Hr. eauto.
  - intros k1 k2 path l1 l2. rewrite !Hr. eauto.
  - intros k v E Hp. apply Hq in E; [|done]. destruct (rs_queue0 k v E Hp) as (ts & p & H1 & H2 & H3 & H4).
    exists ts, p. split_and!; [done|done| |done]. intros key len. rewrite Hr. apply H3.
  - intros n Hn key len. rewrite Hr. by apply rs_fresh0.
Qed.

Lemma index_op_backrefs ops m :
  Forall index_op ops ->
  (forall k e, m !! k = Some e -> is_backref k = true -> is_index_entry e = true) ->
  forall k e, apply_batch m ops !! k = Some e -> is_backref k = true -> is_index_entry e = true.
Proof.
  intros Hf. revert m. induction Hf as [|op ops Ho Hf IH]; intros m Hm; [done|].
  cbn. fold (apply_batch (apply_op m op) ops). apply IH. intros k e E Hk.
  destruct op as [k' v|k'|k' o]; cbn in *.
  - destruct (decide (k' = k)) as [->|]; [rewrite lookup_insert_eq in E|rewrite lookup_insert_ne in E by done; eauto].
    simplify_eq. by apply Ho.
  - apply lookup_delete_Some in E as [_ E]. eauto.
  - case_match; [|eauto]. destruct (decide (k' = k)) as [->|]; [|rewrite lookup_insert_ne in E by done; eauto].
    exfalso. unfold is_backref in Hk.
    rewrite (prefix_excl DeleteIndexPrefix FifoBackrefPrefix), (prefix_excl DeleteIndexPrefix AccessBucketIndexPrefix) in Hk;
      done.
Qed.

Lemma ref_safe_index env cfg m disk t ops :
  ref_safe env cfg m disk t -> Forall index_op ops -> ref_safe env cfg (apply_batch m ops) disk t.
Proof.
  intros Hs Hf. eapply ref_safe_frame; [exact Hs| | |].
  - intros key. apply apply_batch_other. eapply Forall_impl; [exact Hf|].
    intros op Ho. apply quiet_metadata. by apply index_op_key.
  - intros k v Hk. rewrite apply_batch_other; [done|]. eapply Forall_impl; [exact Hf|].
    intros op Ho E. apply index_op_key in Ho. rewrite E in Ho. unfold quiet_key in Ho.
    rewrite Hk in Ho. by rewrite andb_false_r in Ho.
  - apply index_op_backrefs; [done|]. apply Hs.
Qed.

(** ** Changes of one row *)

Lemma ref_safe_tick env cfg m disk t t' :
  (t <= t')%nat -> ref_safe env cfg m disk t -> ref_safe env cfg m disk t'.
Proof.
  intros Ht []. split; try done.
  - intros k v E Hk. destruct (rs_queue0 k v E Hk) as (ts & p & H1 & H2 & H3 & H4).
    exists ts, p. split_and!; try done. intros n Hn. apply H4. lia.
  - intros n Hn. apply rs_fresh0. lia.
  - intros n Hn. apply rs_new0. lia.
Qed.

Lemma MakeMetadataKey_ne k k' : k <> k' -> MakeMetadataKey k <> MakeMetadataKey k'.
Proof. intros Hne E. by apply MakeMetadataKey_inj in E. Qed.

Lemma raw_at_insert m key val k path len :
  raw_at (<[MakeMetadataKey key := val]> m) k path len ->
  (k = key /\ exists vm, proto_Unmarshal val = Some vm /\ ValueType vm = RAW_FILE
     /\ RawFilePath vm = path /\ ValueLength vm = len)
  \/ (k <> key /\ raw_at m k path len).
Proof.
  intros (vm & (v & E & Hu) & H1 & H2 & H3). destruct (decide (k = key)) as [->|Hne].
  - rewrite lookup_insert_eq in E. simplify_eq. left. eauto 10.
  - rewrite lookup_insert_ne in E by (by apply not_eq_sym, MakeMetadataKey_ne). right. split; [done|].
    exists vm. split; [by exists v|done].
Qed.

Lemma raw_at_delete m key k path len :
  raw_at (delete (MakeMetadataKey key) m) k path len -> k <> key /\ raw_at m k path len.
Proof.
  intros (vm & (v & E & Hu) & H1). apply lookup_delete_Some in E as [Hne E].
  split; [congruence|]. exists vm. split; [by exists v|done].
Qed.

(** A path that may become a row's file: on disk with the right length, in no row,
    not queued, and not to be handed out again. *)
Definition adoptable env cfg m (disk : gmap bytes bytes) (t : nat) (path : bytes) (len : Z) : Prop :=
  (exists c, disk !! path = Some c /\ slen c = len) /\ unreferenced m path
  /\ (forall ts, is_i64 ts -> m !! MakeDeletionQueueKey ts path = None)
  /\ (forall n, (t <= n)%nat -> path <> path_of env cfg n).

Lemma metadata_not_queue key k :
  has_prefix DeletionQueuePrefix k = true -> MakeMetadataKey key <> k.
Proof. intros Hk. eapply key_space_ne; [apply has_prefix_app|exact Hk|reflexivity]. Qed.

Lemma metadata_not_backref key k : is_backref k = true -> MakeMetadataKey key <> k.
Proof.
  intros [Hk|Hk]%orb_true_iff; (eapply key_space_ne; [apply has_prefix_app|exact Hk|reflexivity]).
Qed.

Lemma ref_safe_put env cfg m disk t key val :
  ref_safe env cfg m disk t ->
  (forall vm, proto_Unmarshal val = Some vm -> ValueType vm = RAW_FILE ->
     adoptable env cfg m disk t (RawFilePath vm) (ValueLength vm)) ->
  ref_safe env cfg (<[MakeMetadataKey key := val]> m) disk t.
Proof.
  intros [] Hval. split.
  - intros k path len [(-> & vm & H1 & H2 & <- & <-)|(Hne & Hr)]%raw_at_insert; [|eauto].
    by apply (Hval vm H1 H2).
  - intros k1 k2 path l1 l2 H1%raw_at_insert H2%raw_at_insert.
    destruct H1 as [(-> & vm & U1 & U2 & U3 & _)|(N1 & R1)],
             H2 as [(-> & vm' & V1 & V2 & V3 & _)|(N2 & R2)]; try done; [| |eauto].
    + destruct (Hval vm U1 U2) as (_ & Hu & _). rewrite U3 in Hu. by apply Hu in R2.
    + destruct (Hval vm' V1 V2) as (_ & Hu & _). rewrite V3 in Hu. by apply Hu in R1.
  - intros k v E Hk. rewrite lookup_insert_ne in E by (by apply metadata_not_queue).
    destruct (rs_queue0 k v E Hk) as (ts & p & H1 & H2 & H3 & H4). exists ts, p. split_and!; try done.
    intros k' len [(-> & vm & U1 & U2 & U3 & _)|(_ & Hr)]%raw_at_insert; [|by eapply H3].
    destruct (Hval vm U1 U2) as (_ & _ & Hq & _). rewrite U3 in Hq. subst k. by rewrite Hq in E.
  - intros n Hn k len [(-> & vm & U1 & U2 & U3 & _)|(_ & Hr)]%raw_at_insert; [|by eapply rs_fresh0].
    destruct (Hval vm U1 U2) as (_ & _ & _ & Hf). rewrite U3 in Hf. by apply (Hf n Hn).
  - intros k e E Hk. rewrite lookup_insert_ne in E by (by apply metadata_not_backref). eauto.
  - done.
Qed.

Lemma ref_safe_delete env cfg m disk t key :
  ref_safe env cfg m disk t -> ref_safe env cfg (delete (MakeMetadataKey key) m) disk t.
Proof.
  intros []. split.
  - intros k path len [_ Hr]%raw_at_delete. eauto.
  - intros k1 k2 path l1 l2 [_ H1]%raw_at_delete [_ H2]%raw_at_delete. eauto.
  - intros k v [_ E]%lookup_delete_Some Hk. destruct (rs_queue0 k v E Hk) as (ts & p & H1 & H2 & H3 & H4).
    exists ts, p. split_and!; try done. intros k' len [_ Hr]%raw_at_delete. by eapply H3.
  - intros n Hn k len [_ Hr]%raw_at_delete. by eapply rs_fresh0.
  - intros k e [_ E]%lookup_delete_Some. eauto.
  - done.
Qed.

(** The file of a row that is gone or replaced is no longer referenced. *)
Lemma unreferenced_delete env cfg m disk t key path len :
  ref_safe env cfg m disk t -> raw_at m key path len ->
  unreferenced (delete (MakeMetadataKey key) m) path.
Proof.
  intros [] Hr k l [Hne Hr']%raw_at_delete. by rewrite (rs_uniq0 k key path l len) in Hne.
Qed.

Lemma unreferenced_put env cfg m disk t key path len val :
  ref_safe env cfg m disk t -> raw_at m key path len ->
  (forall vm, proto_Unmarshal val = Some vm -> ValueType vm = RAW_FILE -> unreferenced m (RawFilePath vm)) ->
  unreferenced (<[MakeMetadataKey key := val]> m) path.
Proof.
  intros [] Hr Hv k l [(-> & vm & U1 & U2 & U3 & _)|[Hne Hr']]%raw_at_insert.
  - specialize (Hv vm U1 U2). rewrite U3 in Hv. by apply Hv in Hr.
  - by rewrite (rs_uniq0 k key path l len) in Hne.
Qed.

(** ** The queue and the disk *)

Lemma queue_key_prefix ts path : has_prefix DeletionQueuePrefix (MakeDeletionQueueKey ts path) = true.
Proof. unfold MakeDeletionQueueKey. by rewrite has_prefix_app. Qed.

Lemma queue_key_inj ts path ts' path' :
  is_i64 ts -> is_i64 ts' -> MakeDeletionQueueKey ts path = MakeDeletionQueueKey ts' path' ->
  ts = ts' /\ path = path'.
Proof.
  intros H1 H2 E. pose proof (deletion_queue_key_parse ts path H1) as P.
  rewrite E, (deletion_queue_key_parse ts' path' H2) in P. by simplify_eq.
Qed.

Lemma queue_not_backref k : has_prefix DeletionQueuePrefix k = true -> is_backref k = false.
Proof.
  intros Hk. unfold is_backref.
  by rewrite (prefix_excl DeletionQueuePrefix FifoBackrefPrefix), (prefix_excl DeletionQueuePrefix AccessBucketIndexPrefix).
Qed.

Lemma raw_at_queue m k v key path len :
  has_prefix DeletionQueuePrefix k = true ->
  raw_at (<[k := v]> m) key path len <-> raw_at m key path len.
Proof. intros Hk. apply raw_at_ext, lookup_insert_ne. apply not_eq_sym. by apply metadata_not_queue. Qed.

Lemma ref_safe_enqueue env cfg m disk t ts path v :
  ref_safe env cfg m disk t -> is_i64 ts -> unreferenced m path ->
  (forall n, (t <= n)%nat -> path <> path_of env cfg n) ->
  ref_safe env cfg (<[MakeDeletionQueueKey ts path := v]> m) disk t.
Proof.
  intros [] Hts Hu Hf. pose proof (queue_key_prefix ts path) as Hq. split.
  - intros k p len Hr%raw_at_queue; eauto.
  - intros k1 k2 p l1 l2 H1%raw_at_queue H2%raw_at_queue; eauto.
  - intros k v' E Hk. destruct (decide (MakeDeletionQueueKey ts path = k)) as [<-|Hne].
    + exists ts, path. split_and!; try done. intros key len Hr%raw_at_queue; [|done]. by eapply Hu.
    + rewrite lookup_insert_ne in E by done. destruct (rs_queue0 k v' E Hk) as (ts' & p & H1 & H2 & H3 & H4).
      exists ts', p. split_and!; try done. intros key len Hr%raw_at_queue; [|done]. by eapply H3.
  - intros n Hn key len Hr%raw_at_queue; [|done]. by eapply rs_fresh0.
  - intros k e E Hk. destruct (decide (MakeDeletionQueueKey ts path = k)) as [<-|Hne].
    + by rewrite queue_not_backref in Hk.
    + rewrite lookup_insert_ne in E by done. eauto.
  - done.
Qed.

Lemma ref_safe_dequeue env cfg m disk t k :
  has_prefix DeletionQueuePrefix k = true ->
  ref_safe env cfg m disk t -> ref_safe env cfg (delete k m) disk t.
Proof.
  intros Hk Hs. eapply ref_safe_frame; [exact Hs| | |].
  - intros key. apply lookup_delete_ne. apply not_eq_sym. by apply metadata_not_queue.
  - by intros k' v _ [_ E]%lookup_delete_Some.
  - intros k' e [_ E]%lookup_delete_Some. by apply Hs.
Qed.

Lemma ref_safe_disk env cfg m disk disk' t t' path :
  ref_safe env cfg m disk t -> (t <= t')%nat -> unreferenced m path ->
  (forall p, p <> path -> disk' !! p = disk !! p) ->
  (forall n, (t' <= n)%nat -> path = path_of env cfg n -> disk' !! path = None) -> ref_safe env cfg m disk' t'.
Proof.
  intros Hs Ht Hu Hd Hn. destruct (ref_safe_tick env cfg m disk t t' Ht Hs). split; try done.
  - intros key p len Hr. rewrite Hd; [by eapply rs_file0|]. intros ->. by eapply Hu.
  - intros n Hle. destruct (decide (path = path_of env cfg n)) as [E|E]; [rewrite <- E; by apply (Hn n)|].
    rewrite Hd by done. by apply rs_new0.
Qed.

End Rows.
