(* ===== verification/StorageSpec.v ===== *)
(** * Specifications of the storage helpers

    What each helper of storage.go does to the committed rows and to the rest of the
    world, on success and on every failure, as rules for [wp]. The theorems about
    Put, DeleteKey and the CAS operations are proved from them. *)

From S2P Require Import Prelude Keys Errors Message Merge Wire Rocks World Files RangeReader Storage Wp Safety.

Open Scope Z_scope.

#[local] Arguments has_prefix : simpl never.

(** ** Frames *)

(** Only the store and the environment's counter changed. *)
Record frame {DB SM} (w w' : World DB SM) : Prop := {
  fr_sm : w_sm w' = w_sm w;
  fr_disk : w_disk w' = w_disk w;
  fr_size : w_size w' = w_size w;
  fr_last : w_last w' = w_last w;
  fr_hi : w_hi w' = w_hi w;
  fr_inflight : w_inflight w' = w_inflight w;
  fr_access : w_access w' = w_access w;
  fr_cleaned : w_cleaned w' = w_cleaned w;
  fr_evicted : w_evicted w' = w_evicted w;
  fr_tick : (w_tick w <= w_tick w')%nat
}.

#[export] Instance frame_refl {DB SM} : Reflexive (@frame DB SM).
Proof. intros w. by split. Qed.

#[export] Instance frame_trans {DB SM} : Transitive (@frame DB SM).
Proof. intros w1 w2 w3 [] []. split; try congruence. lia. Qed.

Lemma frame_set_db {DB SM} db (w : World DB SM) : frame w (set_db db w).
Proof. by split. Qed.

Lemma frame_tick {DB SM} (w : World DB SM) : frame w (tick w).
Proof. split; cbn; try done. lia. Qed.

#[export] Hint Resolve frame_refl frame_trans frame_set_db frame_tick : ocache.

(** Composes the frames of the context. *)
Ltac frames :=
  repeat match goal with F : frame _ _ |- _ => destruct F end; split; cbn in *; (congruence || lia).

Section Specs.

Context {DB SM : Type} {PB : Protobuf} {PL : ProtobufLaws} {RDB : RocksDB DB} {RL : RocksLaws DB}.
Context {SS : SegmentStore SM}.
Context (env : Env) (cfg : Config).
Context (clock_ok : forall n, is_i64 (env_now env n)).
Implicit Types w : World DB SM.
Implicit Types m : gmap bytes bytes.

(** A point read of a store that holds committed rows may fail. *)
Definition read_failed : Prop :=
  exists k db m e db', represents db m /\ db_Get k db = (inl e, db').

(** The entry [Queue.Add] stores. *)
Definition queue_mark : bytes := String (ascii_of_nat 1) EmptyString.

Definition enqueued (path : bytes) (q : list batch_op) : Prop :=
  q = [] \/ path <> EmptyString /\ exists ts, is_i64 ts /\ q = [BPut (MakeDeletionQueueKey ts path) queue_mark].

Lemma wp_Get_failing m k (Q : error + option bytes -> World DB SM -> Prop) w :
  represents (w_db w) m ->
  (forall e db, represents db m -> read_failed -> Q (inl e) (set_db db w)) ->
  (forall db, represents db m -> Q (inr (m !! k)) (set_db db w)) ->
  wp (Get_ k) Q w.
Proof.
  intros Hm H1 H2. unfold wp, Get_, on_db. destruct (db_Get k (w_db w)) as [r db] eqn:E.
  destruct (rdb_get _ _ _ _ _ Hm E) as [Hm' Hv]. cbn. destruct r as [e|v].
  - apply H1; [done|]. exists k, (w_db w), m, e, db. by split.
  - rewrite (Hv v eq_refl). by apply H2.
Qed.

(** The point read of this row fails in this state. *)
Definition row_read_failed (key : bytes) w : Prop := exists e db, db_Get (MakeMetadataKey key) (w_db w) = (inl e, db).

Lemma wp_Get_row m key (Q : error + option bytes -> World DB SM -> Prop) w :
  represents (w_db w) m ->
  (forall e db, represents db m -> row_read_failed key w -> Q (inl e) (set_db db w)) ->
  (forall db, represents db m -> Q (inr (m !! MakeMetadataKey key)) (set_db db w)) ->
  wp (Get_ (MakeMetadataKey key)) Q w.
Proof.
  intros Hm H1 H2. unfold wp, Get_, on_db. destruct (db_Get (MakeMetadataKey key) (w_db w)) as [r db] eqn:E.
  destruct (rdb_get _ _ _ _ _ Hm E) as [Hm' Hv]. cbn. destruct r as [e|v].
  - apply H1; [done|]. by exists e, db.
  - rewrite (Hv v eq_refl). by apply H2.
Qed.

Lemma wp_stageRawFileDeletion m path (Q : () -> World DB SM -> Prop) w :
  represents (w_db w) m ->
  (forall q w', represents (w_db w') (apply_batch m q) -> frame w w' -> enqueued path q -> Q () w') ->
  wp (stageRawFileDeletion env path) Q w.
Proof using clock_ok.
  intros Hm HQ. unfold stageRawFileDeletion, Queue_Add. apply wp_bind. case_decide as Hp.
  - apply wp_ret, wp_ret. apply (HQ []); [done|reflexivity|by left].
  - apply wp_bind, wp_time_Now. eapply wp_Write; [exact Hm|by apply plain_regular; repeat constructor|..].
    + intros e db Hdb. apply wp_ret. apply (HQ []); [done| |by left]. split; cbn; try done. lia.
    + intros db Hdb. apply wp_ret.
      apply (HQ [BPut (MakeDeletionQueueKey (env_now env (w_tick w)) path) queue_mark]); [done| |].
      * split; cbn; try done. lia.
      * right. split; [done|]. eexists. by split; [apply clock_ok|].
Qed.

(** What [existingValue] reports: the fields of the committed row, or nothing after a
    failed read. *)
Definition prev_of m (key : bytes) (prev : option valueMessageCleanupFields) : Prop :=
  prev = (v ← m !! MakeMetadataKey key; cleanup_fields <$> proto_Unmarshal v)
  \/ prev = None /\ read_failed.

Lemma wp_existingValue m key (Q : option valueMessageCleanupFields -> World DB SM -> Prop) w :
  represents (w_db w) m ->
  (forall prev db, represents db m -> prev_of m key prev -> Q prev (set_db db w)) ->
  wp (existingValue (MakeMetadataKey key)) Q w.
Proof.
  intros Hm HQ. unfold existingValue. apply wp_bind. eapply wp_Get_failing; [exact Hm|..].
  - intros e db Hdb Hf. apply wp_ret, HQ; [done|]. by right.
  - intros db Hdb. destruct (m !! MakeMetadataKey key) as [v|] eqn:E; apply wp_ret, HQ; try done.
    + left. rewrite E. cbn. apply cleanup_spec.
    + left. by rewrite E.
Qed.

Definition backrefs_ok m : Prop :=
  forall k e, m !! k = Some e -> is_backref k = true -> is_index_entry e = true.

Lemma index_entry_quiet e : is_index_entry e = true -> quiet_key e = true.
Proof. intros [Hk|Hk]%orb_true_iff; (eapply quiet_incomparable; [| |exact Hk]; reflexivity). Qed.

Lemma fifo_backref_key key : is_backref (MakeFifoBackrefKey key) = true.
Proof. unfold is_backref, MakeFifoBackrefKey. by rewrite has_prefix_app. Qed.

Lemma access_backref_key key : is_backref (MakeBucketedAccessIndexKey key) = true.
Proof. unfold is_backref, MakeBucketedAccessIndexKey. by rewrite has_prefix_app, orb_true_r. Qed.

Lemma backref_quiet k : is_backref k = true -> quiet_key k = true.
Proof. intros [Hk|Hk]%orb_true_iff; (eapply quiet_incomparable; [| |exact Hk]; reflexivity). Qed.

Lemma fifo_entry key now : is_index_entry (MakeFifoIndexKey key now) = true.
Proof. unfold is_index_entry, MakeFifoIndexKey. by rewrite has_prefix_app. Qed.

Lemma access_entry tz key now : is_index_entry (MakeBucketedAccessKey tz key now) = true.
Proof.
  unfold is_index_entry, MakeBucketedAccessKey, GetBucketedAccessKey.
  by rewrite !sapp_assoc, has_prefix_app, orb_true_r.
Qed.

Lemma index_entry_not_backref e : is_index_entry e = true -> is_backref e = false.
Proof.
  intros [Hk|Hk]%orb_true_iff; unfold is_backref.
  - by rewrite (prefix_excl FifoIndexPrefix FifoBackrefPrefix), (prefix_excl FifoIndexPrefix AccessBucketIndexPrefix).
  - by rewrite (prefix_excl AccessBucketPrefix FifoBackrefPrefix), (prefix_excl AccessBucketPrefix AccessBucketIndexPrefix).
Qed.

(** An ordered entry and the back-reference to it. *)
Lemma index_entry_ops entry backref :
  is_index_entry entry = true -> is_backref backref = true ->
  Forall index_op [BPut entry EmptyString; BPut backref entry].
Proof.
  intros He Hb. repeat (apply Forall_cons; split); cbn; [| |by apply Forall_nil_2].
  - split; [by apply index_entry_quiet|]. by rewrite index_entry_not_backref.
  - split; [by apply backref_quiet|done].
Qed.

Lemma backrefKey_ok key : is_backref (backrefKey cfg key) = true.
Proof. unfold backrefKey. case_match; [apply fifo_backref_key|apply access_backref_key]. Qed.

Lemma wp_eviction_index_ops m key (Q : list batch_op -> World DB SM -> Prop) w :
  represents (w_db w) m -> backrefs_ok m ->
  (forall ops w', represents (w_db w') m -> frame w w' -> Forall index_op ops -> Q ops w') ->
  wp (eviction_index_ops env cfg key) Q w.
Proof.
  intros Hm Hb HQ. unfold eviction_index_ops. case_match.
  2: { apply wp_ret, HQ; [done|reflexivity|by apply Forall_nil_2]. }
  apply wp_bind, wp_time_Now. case_match.
  - unfold writeFifoIndexEntry. apply wp_bind.
    eapply wp_Get; [exact Hm|..].
    + intros e db Hdb. apply wp_ret. apply HQ; [done|by split; cbn; try done; lia|].
      apply index_entry_ops; [apply fifo_entry|apply fifo_backref_key].
    + intros db Hdb. apply wp_ret. apply HQ; [done|by split; cbn; try done; lia|].
      apply Forall_app. split; [|apply index_entry_ops; [apply fifo_entry|apply fifo_backref_key]].
      destruct (m !! MakeFifoBackrefKey key) as [prev|] eqn:E; [|by apply Forall_nil_2].
      apply Forall_singleton. cbn. apply index_entry_quiet. eapply Hb; [exact E|apply fifo_backref_key].
  - apply wp_ret. apply HQ; [done|by split; cbn; try done; lia|].
    apply index_entry_ops; [apply access_entry|apply access_backref_key].
Qed.

Lemma wp_stageEvictionIndexDeletes m key (Q : list batch_op -> World DB SM -> Prop) w :
  represents (w_db w) m -> backrefs_ok m ->
  (forall ops w', represents (w_db w') m -> frame w w' -> Forall index_op ops -> Q ops w') ->
  wp (stageEvictionIndexDeletes cfg key) Q w.
Proof.
  intros Hm Hb HQ. unfold stageEvictionIndexDeletes. apply wp_bind.
  pose proof (backrefKey_ok key) as Hk.
  eapply wp_Get; [exact Hm|..]; intros; apply wp_ret; (apply HQ; [done|auto with ocache|]); cbn.
  - apply Forall_singleton. by apply backref_quiet.
  - destruct (m !! backrefKey cfg key) as [prev|] eqn:E; cbn.
    + apply Forall_cons. split; [apply index_entry_quiet; by eapply Hb|].
      apply Forall_singleton. by apply backref_quiet.
    + apply Forall_singleton. by apply backref_quiet.
Qed.

Lemma segment_credit_ops f : Forall index_op (segment_credit f).
Proof.
  unfold segment_credit. case_match; [|by apply Forall_nil_2].
  apply Forall_singleton. cbn. apply has_prefix_app.
Qed.

(** The rows a committed [putLow] or [DeleteKey] leaves: index entries, the new row,
    the credit of the replaced segment copy with more index entries, and the queue
    entry of the replaced raw file. *)
Definition credit_of (prev : option valueMessageCleanupFields) : list batch_op :=
  match prev with Some f => segment_credit f | None => [] end.

Definition reclaim_of (prev : option valueMessageCleanupFields) (q : list batch_op) : Prop :=
  match prev with
  | Some f => if cf_valueType f =? RAW_FILE then enqueued (cf_rawFilePath f) q else q = []
  | None => q = []
  end.

Definition size_of (prev : option valueMessageCleanupFields) : Z :=
  match prev with Some f => cf_valueLength f | None => 0 end.

Lemma wp_reclaim m prev (Q : () -> World DB SM -> Prop) w :
  represents (w_db w) m ->
  (forall q w', represents (w_db w') (apply_batch m q) -> frame w w' -> reclaim_of prev q -> Q () w') ->
  wp (match prev with
      | Some f => if cf_valueType f =? RAW_FILE then stageRawFileDeletion env (cf_rawFilePath f) else mret ()
      | None => mret ()
      end) Q w.
Proof using clock_ok.
  intros Hm HQ. destruct prev as [f|]; [|apply wp_ret; by apply (HQ [])].
  destruct (cf_valueType f =? RAW_FILE) eqn:E; [|apply wp_ret; apply (HQ []); cbn; rewrite ?E; done].
  eapply wp_stageRawFileDeletion; [exact Hm|]. intros q w' H1 H2 H3. apply (HQ q); [done|done|].
  cbn. by rewrite E.
Qed.

Lemma wp_putLow m key val filePath n (Q : error + Z -> World DB SM -> Prop) w :
  represents (w_db w) m -> backrefs_ok m ->
  (forall e w', represents (w_db w') m -> frame w w' -> Q (inl e) w') ->
  (forall prev o1 o2 q w',
     represents (w_db w') (apply_batch m (o1 ++ [BPut (MakeMetadataKey key) val] ++ (credit_of prev ++ o2) ++ q)) ->
     frame w w' -> Forall index_op o1 -> Forall index_op o2 -> prev_of m key prev -> reclaim_of prev q ->
     Q (inr (size_of prev)) w') ->
  wp (putLow env cfg key val filePath n) Q w.
Proof using clock_ok PL.
  intros Hm Hb HF HQ. unfold putLow. apply wp_bind.
  assert (forall o1 w1, represents (w_db w1) m -> frame w w1 -> Forall index_op o1 ->
    wp (prev ← existingValue (MakeMetadataKey key);
        idx ← eviction_index_ops env cfg key;
        r ← Write_ ((o1 ++ [BPut (MakeMetadataKey key) val] ++ credit_of prev) ++ idx);
        match r with
        | Some e => mret (inl e)
        | None =>
            _ ← match prev with
                | Some f => if cf_valueType f =? RAW_FILE then stageRawFileDeletion env (cf_rawFilePath f) else mret ()
                | None => mret ()
                end;
            mret (inr (size_of prev))
        end) Q w1) as K.
  { intros o1 w1 Hm1 F1 Ho1. apply wp_bind. eapply wp_existingValue; [exact Hm1|]. intros prev db Hdb Hprev.
    apply wp_bind. eapply wp_eviction_index_ops; [exact Hdb|done|]. intros o2 w2 Hm2 F2 Ho2.
    assert (frame w w2) as F by frames. apply wp_bind.
    eapply (wp_Write m); [exact Hm2| | |].
    - apply plain_regular. rewrite !Forall_app. split_and!; try (by apply index_op_plain);
        [by repeat constructor|].
      destruct prev; cbn; [apply index_op_plain, segment_credit_ops|by apply Forall_nil_2].
    - intros e db' Hdb'. apply wp_ret, HF; [done|]. frames.
    - intros db' Hdb'. apply wp_bind. eapply wp_reclaim; [exact Hdb'|]. intros q w3 Hm3 F3 Hq. apply wp_ret.
      apply (HQ prev o1 o2 q); try done.
      + rewrite <- apply_batch_app in Hm3. repeat rewrite <- app_assoc in Hm3. by repeat rewrite <- app_assoc.
      + frames. }
  case_match.
  - unfold PrepareEntryForCompaction. apply wp_bind, wp_bind, wp_time_Now, wp_ret, wp_ret.
    apply K; [done|auto with ocache|]. apply Forall_singleton. cbn. split; [|done].
    unfold MakeCompactionKey. eapply (quiet_incomparable "!compact/"); [reflexivity|reflexivity|].
    by rewrite has_prefix_app.
  - apply wp_ret, K; [done|reflexivity|by apply Forall_nil_2].
Qed.

End Specs.
