(* ===== verification/StorageProps.v ===== *)
(** * Properties of Put, Get, DeleteKey and the deletion queue

    Reference safety of the raw files under every failure of the plain operations and
    of the deletion worker, and the put/get round trip. *)

From S2P Require Import Prelude Keys Errors Message Merge Wire Rocks World Files RangeReader Storage Wp Safety StorageSpec.

Open Scope Z_scope.

#[local] Arguments has_prefix : simpl never.
#[local] Arguments crc32 : simpl never.

(** ** Checksums are 32-bit *)

Lemma lxor_u32 a b : is_u32 a -> is_u32 b -> is_u32 (Z.lxor a b).
Proof.
  intros Ha Hb. assert (0 <= Z.lxor a b) as Hn by (apply Z.lxor_nonneg; unfold is_u32 in *; lia).
  split; [done|]. destruct (decide (Z.lxor a b = 0)) as [->|Hz]; [reflexivity|].
  unfold two32. change 4294967296 with (2 ^ 32). apply Z.log2_lt_pow2; [lia|].
  eapply Z.le_lt_trans; [apply Z.log2_lxor; unfold is_u32 in *; lia|].
  assert (forall x, is_u32 x -> Z.log2 x < 32) as L.
  { intros x [H0 H1]. destruct (decide (x = 0)) as [->|]; [reflexivity|]. apply Z.log2_lt_pow2; [lia|done]. }
  apply Z.max_lub_lt; by apply L.
Qed.

Lemma shiftr_u32 a : is_u32 a -> is_u32 (Z.shiftr a 1).
Proof. unfold is_u32. rewrite Z.shiftr_div_pow2 by lia. intros. Z.div_mod_to_equations; lia. Qed.

Lemma crc_bit_u32 c : is_u32 c -> is_u32 (crc_bit c).
Proof.
  intros. unfold crc_bit. case_match; [apply lxor_u32; [by unfold_ints; lia|]|]; by apply shiftr_u32.
Qed.

Lemma crc_byte_u32 c b : is_u32 c -> is_u32 (crc_byte c b).
Proof.
  intros. unfold crc_byte.
  assert (is_u32 (Z.lxor c (Z.of_N (N_of_ascii b)))) as Hx.
  { apply lxor_u32; [done|]. pose proof (N_ascii_bounded b). unfold is_u32, two32. lia. }
  revert Hx. generalize (Z.lxor c (Z.of_N (N_of_ascii b))). intros z Hz.
  cbn. by repeat apply crc_bit_u32.
Qed.

Lemma crc32_u32 s : is_u32 (crc32 s).
Proof.
  unfold crc32. apply lxor_u32; [|unfold_ints; lia].
  assert (is_u32 4294967295) as Hi by (unfold_ints; lia). revert Hi. generalize 4294967295.
  induction s as [|b s IH]; intros c Hc; cbn; [done|]. apply IH. by apply crc_byte_u32.
Qed.

(** ** Errors of a failed write *)

Section Errors.

Context {DB SM : Type} {PB : Protobuf} {RDB : RocksDB DB} {SS : SegmentStore SM} (env : Env) (cfg : Config).
Implicit Types w : World DB SM.

Lemma wp_weaken {A} (c : ST (World DB SM) A) w : wp c (fun _ _ => True) w.
Proof. done. Qed.

(** Runs a command whose effect does not matter, and returns a wrapped error. *)
Ltac havoc :=
  apply wp_bind; eapply wp_mono; [apply wp_weaken|]; intros; apply wp_ret; intros ? [= <-]; eexists _, _.

(** Every error of [FileManager.Write] is wrapped. *)
Lemma fm_Write_wraps key reader w err w' :
  fm_Write env cfg key reader w = (inl err, w') -> exists msg e, err = EWrap msg e.
Proof.
  intros E. refine (wp_run _ (fun r _ => forall err, r = inl err -> exists msg e, err = EWrap msg e) _ _ _ E _ err eq_refl).
  unfold fm_Write. apply wp_bind, wp_fun. cbn.
  apply wp_bind, wp_syscall_any. intros [?|]; [apply wp_ret; intros ? [= <-]; by eexists _, _|].
  apply wp_bind, wp_fun. cbn. apply wp_bind, wp_syscall_any. intros [?|]; [by havoc|].
  destruct (b_err reader); [by havoc|]. case_match; [|by apply wp_ret].
  apply wp_bind, wp_syscall_any. intros [?|]; [by havoc|by apply wp_ret].
Qed.

Definition not_full (r : option error) : Prop := forall e, r = Some e -> IsStorageFull e = false.

Lemma mapRocksDBError_not_full op key err : IsStorageFull (mapRocksDBError op key err) = false.
Proof. unfold mapRocksDBError. by repeat case_decide. Qed.

Lemma put_raw_not_full key path expiry n sum w :
  wp (put_raw env cfg key path expiry n sum) (fun r _ => not_full r) w.
Proof.
  unfold put_raw. apply wp_bind, wp_fun. cbn. apply wp_bind.
  apply (wp_mono _ (fun r _ => not_full r)).
  - case_match.
    + apply wp_bind. eapply wp_mono; [apply wp_weaken|]. intros [e|sz] w1 _.
      * apply wp_bind. eapply wp_mono; [apply wp_weaken|]. intros ? ? _. apply wp_ret.
        intros ? [= <-]. apply mapRocksDBError_not_full.
      * apply wp_bind, wp_fun. by intros ?.
    + apply wp_bind. eapply wp_mono; [apply wp_weaken|]. intros ? ? _. apply wp_ret. by intros ? [= <-].
  - intros r w1 Hr. by apply wp_bind, wp_fun.
Qed.

Lemma put_inline_not_full key data expiry w :
  wp (put_inline env cfg key data expiry) (fun r _ => not_full r) w.
Proof.
  unfold put_inline. case_match; [|apply wp_ret; by intros ? [= <-]].
  apply wp_bind. eapply wp_mono; [apply wp_weaken|]. intros [e|sz] w1 _.
  - apply wp_ret. intros ? [= <-]. apply mapRocksDBError_not_full.
  - apply wp_bind, wp_fun. by intros ?.
Qed.

(** A full disk is never reported as such. [Put] tests the file manager's error
    with a type assertion ([isNoSpaceError]) and with [os.IsNotExist] and
    [os.IsPermission], none of which looks through the wrapping that
    [FileManager.Write] puts on every error: whatever fails, in particular with
    ENOSPC, the caller never gets a StorageFull error. *)
Theorem Put_never_reports_storage_full key body ttl w e w' :
  Put env cfg key body ttl w = (Some e, w') -> IsStorageFull e = false.
Proof.
  intros E. refine (wp_run _ (fun r _ => not_full r) _ _ _ E _ e eq_refl).
  unfold Put. destruct (ReadFull body (firstReadSize cfg)) as [[chunk err] rest].
  destruct err; [apply wp_ret; by intros ? [= <-]|].
  apply wp_bind. eapply wp_mono; [apply wp_weaken|]. intros expiry w1 _.
  case_match; [|apply put_inline_not_full].
  apply wp_bind. unfold wp at 1. destruct (fm_Write _ _ _ _ w1) as [[err|[[p c] n]] w2] eqn:Ew; cbn.
  - apply wp_ret. intros ? [= <-]. apply fm_Write_wraps in Ew as (msg & e0 & ->). done.
  - apply put_raw_not_full.
Qed.

End Errors.

Section Preserve.

Context {DB SM : Type} {PB : Protobuf} {PL : ProtobufLaws} {RDB : RocksDB DB} {RL : RocksLaws DB}.
Context {SS : SegmentStore SM} (env : Env) (cfg : Config).
Implicit Types w : World DB SM.
Implicit Types m : gmap bytes bytes.

(** The environment: readings of the clock are int64, file names are unique and
    valid UTF-8, no value is as large as the int64 range; and the inline threshold
    is not negative (NewStorageWithConfig makes it positive). *)
Record env_ok : Prop := {
  clock_i64 n : is_i64 (env_now env n);
  uuid_unique a b : env_uuid env a = env_uuid env b -> a = b;
  path_utf8 n : utf8_valid (path_of env cfg n) = true;
  threshold_pos : 0 <= inlineThreshold cfg
}.
Context (Henv : env_ok).

Lemma path_of_inj a b : path_of env cfg a = path_of env cfg b -> a = b.
Proof using Henv.
  unfold path_of, filepath_Join. intros E. apply (uuid_unique Henv).
  apply String.app_inj in E. by simplify_eq.
Qed.

Lemma wp_os_Remove path (Q : option error -> World DB SM -> Prop) w :
  (forall r d w', (forall p, p <> path -> d !! p = w_disk w !! p) ->
     (d !! path = w_disk w !! path \/ d !! path = None) -> frame (set_disk d w) w' ->
     w_db w' = w_db w -> Q r w') ->
  wp (os_Remove env path) Q w.
Proof.
  intros HQ. unfold os_Remove. apply wp_bind, wp_syscall_any. intros [e|].
  - apply wp_ret. apply (HQ _ (w_disk w)); try done; [by left|]. by split; cbn; try done; lia.
  - apply wp_fun. cbn. case_match; cbn.
    + eapply (HQ _ (delete path (w_disk w))); cbn; try done.
      * intros p Hp. by rewrite lookup_delete_ne.
      * right. apply lookup_delete_eq.
      * by split; cbn; try done; lia.
    + apply (HQ _ (w_disk w)); try done; [by left|]. by split; cbn; try done; lia.
Qed.

(** Some system call fails. *)
Definition io_failed : Prop := exists n e, env_fault env n = Some e.

(** The call a read of a value makes fails: it consults the clock at most twice before. *)
Definition read_call_failed (t : nat) : Prop := exists n e, (t <= n <= t + 2)%nat /\ env_fault env n = Some e.

Lemma wp_fm_Write key reader (Q : error + bytes * Z * Z -> World DB SM -> Prop) w :
  let p := path_of env cfg (w_tick w) in
  (forall err d w', (forall x, x <> p -> d !! x = w_disk w !! x) ->
     frame (set_disk d (tick w)) w' -> w_db w' = w_db w -> io_failed \/ b_err reader <> None -> Q (inl err) w') ->
  (forall w', b_err reader = None ->
     frame (set_disk (<[p := b_data reader]> (w_disk w)) (tick w)) w' -> w_db w' = w_db w ->
     Q (inr (p, crc32 (b_data reader), slen (b_data reader))) w') ->
  wp (fm_Write env cfg key reader) Q w.
Proof.
  intros p HF HQ. unfold fm_Write. apply wp_bind, wp_fun. cbn.
  change (filepath_Join (filesPath cfg) (env_uuid env (w_tick w))) with p.
  assert (forall (d' : gmap bytes bytes) x, (forall y, y <> p -> d' !! y = <[p := b_data reader]> (w_disk w) !! y) -> x <> p ->
            d' !! x = w_disk w !! x) as Hd.
  { intros d' x E Hx. rewrite E by done. by rewrite lookup_insert_ne. }
  assert (forall (w1 : World DB SM) e, w_disk w1 = <[p := b_data reader]> (w_disk w) ->
    frame (set_disk (w_disk w1) (tick w)) w1 -> w_db w1 = w_db w -> io_failed \/ b_err reader <> None ->
    wp (_ ← os_Remove env p; mret (inl e)) Q w1) as Hrm.
  { intros w1 e E1 F1 D1 Hio. apply wp_bind, wp_os_Remove. intros r d w' E _ F D. apply wp_ret.
    apply (HF _ d); [|frames|congruence|done]. intros x Hx. eapply Hd; [|done]. intros y Hy. by rewrite E, E1. }
  assert (forall n e, env_fault env n = Some e -> io_failed \/ b_err reader <> None) as Hio
    by (intros n e E; left; by exists n, e).
  apply wp_bind, wp_syscall. destruct (env_fault env _) as [e|] eqn:Ef.
  { apply wp_ret. apply (HF _ (w_disk w)); try done; [by split; cbn; try done; lia|eauto]. }
  apply wp_bind, wp_fun. cbn. apply wp_bind, wp_syscall. clear Ef. destruct (env_fault env _) as [e|] eqn:Ef.
  { apply Hrm; cbn; try done; [by split; cbn; try done; lia|eauto]. }
  destruct (b_err reader) as [e|] eqn:Eb.
  { apply Hrm; cbn; try done; [by split; cbn; try done; lia|by right]. }
  case_match; [|apply wp_ret; apply HQ; cbn; try done; by split; cbn; try done; lia].
  apply wp_bind, wp_syscall. clear Ef. destruct (env_fault env _) as [e|] eqn:Ef.
  { apply Hrm; cbn; try done; [by split; cbn; try done; lia|eauto]. }
  apply wp_ret; apply HQ; cbn; try done; by split; cbn; try done; lia.
Qed.

(** ** Reference safety of Put *)

Definition safe w : Prop :=
  exists m, represents (w_db w) m /\ ref_safe env cfg m (w_disk w) (w_tick w).

(** The files are untouched. *)
Definition quietly w w' : Prop := w_disk w' = w_disk w /\ (w_tick w <= w_tick w')%nat.

Lemma frame_quietly w w' : frame w w' -> quietly w w'.
Proof. by intros []. Qed.

Lemma ref_safe_quietly m w w' :
  quietly w w' -> ref_safe env cfg m (w_disk w) (w_tick w) -> ref_safe env cfg m (w_disk w') (w_tick w').
Proof. intros [E Ht] Hs. rewrite E. by eapply ref_safe_tick. Qed.

Lemma backrefs_of m disk t : ref_safe env cfg m disk t -> backrefs_ok m.
Proof. intros Hs k e. apply (rs_backref _ _ _ _ _ Hs). Qed.

Lemma ref_safe_enqueued m disk t path q :
  enqueued path q -> ref_safe env cfg m disk t -> unreferenced m path ->
  (forall n, (t <= n)%nat -> path <> path_of env cfg n) -> ref_safe env cfg (apply_batch m q) disk t.
Proof. intros [->|(Hp & ts & Hts & ->)] Hs Hu Hf; [done|]. by apply ref_safe_enqueue. Qed.

Lemma index_rows m ops key : Forall index_op ops ->
  apply_batch m ops !! MakeMetadataKey key = m !! MakeMetadataKey key.
Proof.
  intros Ho. apply apply_batch_other. eapply Forall_impl; [exact Ho|].
  intros op H1. by apply quiet_metadata, index_op_key.
Qed.

Lemma index_queue m ops k : Forall index_op ops -> has_prefix DeletionQueuePrefix k = true ->
  apply_batch m ops !! k = m !! k.
Proof.
  intros Ho Hk. apply apply_batch_other. eapply Forall_impl; [exact Ho|].
  intros op H1 E. apply index_op_key in H1. unfold quiet_key in H1. rewrite E, Hk in H1.
  by rewrite andb_false_r in H1.
Qed.

Lemma unreferenced_ext m m' path :
  (forall key, m' !! MakeMetadataKey key = m !! MakeMetadataKey key) ->
  unreferenced m path -> unreferenced m' path.
Proof. intros E Hu key len Hr. eapply Hu. eapply raw_at_ext; [|exact Hr]. by rewrite E. Qed.

Lemma adoptable_index m ops disk t path len :
  Forall index_op ops -> adoptable env cfg m disk t path len ->
  adoptable env cfg (apply_batch m ops) disk t path len.
Proof.
  intros Ho (H1 & H2 & H3 & H4). split_and!; try done.
  - eapply unreferenced_ext; [|exact H2]. intros. by apply index_rows.
  - intros ts Hts. rewrite index_queue by (done || apply queue_key_prefix). by apply H3.
Qed.

(** The fields [existingValue] found name the row's own file. *)
Lemma prev_raw m key f :
  prev_of (DB := DB) m key (Some f) -> cf_valueType f = RAW_FILE -> raw_at m key (cf_rawFilePath f) (cf_valueLength f).
Proof.
  intros [E|[E _]] Hr; [|done]. destruct (m !! MakeMetadataKey key) as [v|] eqn:Ev; cbn in E; [|done].
  destruct (proto_Unmarshal v) as [vm|] eqn:Eu; cbn in E; [|done]. simplify_eq.
  exists vm. split; [by exists v|done].
Qed.

Lemma raw_not_future m disk t key path len :
  ref_safe env cfg m disk t -> raw_at m key path len ->
  forall n, (t <= n)%nat -> path <> path_of env cfg n.
Proof. intros Hs Hr n Hn ->. by eapply (rs_fresh _ _ _ _ _ Hs n Hn). Qed.

(** Queueing the replaced file after the rows changed. *)
Lemma reclaim_safe m m' disk t prev q :
  ref_safe env cfg m' disk t -> reclaim_of prev q ->
  (forall f, prev = Some f -> cf_valueType f = RAW_FILE ->
     unreferenced m' (cf_rawFilePath f)
     /\ forall n, (t <= n)%nat -> cf_rawFilePath f <> path_of env cfg n) ->
  ref_safe env cfg (apply_batch m' q) disk t
  /\ forall key, apply_batch m' q !! MakeMetadataKey key = m' !! MakeMetadataKey key.
Proof.
  intros Hs Hq Hu. destruct prev as [f|]; [|by cbn in Hq; subst q].
  cbn in Hq. destruct (cf_valueType f =? RAW_FILE) eqn:E; [|by subst q]. bool_facts.
  destruct Hq as [->|(Hp & ts & Hts & ->)]; [done|]. destruct (Hu f eq_refl E) as [H1 H2]. cbn. split.
  - by apply ref_safe_enqueue.
  - intros key. apply lookup_insert_ne, not_eq_sym, metadata_not_queue, queue_key_prefix.
Qed.

(** Everything [putLow] does to the rows keeps the invariant, given a row whose file
    may be adopted. *)
Lemma rows_after_put m disk t key val prev o1 o2 q :
  ref_safe env cfg m disk t ->
  (forall vm, proto_Unmarshal val = Some vm -> ValueType vm = RAW_FILE ->
     adoptable env cfg m disk t (RawFilePath vm) (ValueLength vm)) ->
  Forall index_op o1 -> Forall index_op o2 -> prev_of (DB := DB) m key prev -> reclaim_of prev q ->
  let m' := apply_batch m (o1 ++ [BPut (MakeMetadataKey key) val] ++ (credit_of prev ++ o2) ++ q) in
  ref_safe env cfg m' disk t /\ m' !! MakeMetadataKey key = Some val.
Proof.
  intros Hs Hv Ho1 Ho2 Hprev Hq m'.
  set (m1 := apply_batch m o1). set (m2 := apply_batch m1 [BPut (MakeMetadataKey key) val]).
  assert (m' = apply_batch (apply_batch m2 (credit_of prev ++ o2)) q) as -> by (unfold m'; by rewrite !apply_batch_app).
  assert (Forall index_op (credit_of prev ++ o2)) as Ho3.
  { apply Forall_app. split; [|done]. destruct prev; [apply segment_credit_ops|by apply Forall_nil_2]. }
  assert (ref_safe env cfg m1 disk t) as Hs1 by by apply ref_safe_index.
  assert (ref_safe env cfg m2 disk t) as Hs2.
  { apply ref_safe_put; [done|]. intros vm E1 E2. by apply adoptable_index, Hv. }
  destruct (reclaim_safe m (apply_batch m2 (credit_of prev ++ o2)) disk t prev q) as [Hs3 Erow]; try done.
  - by apply ref_safe_index.
  - intros f -> Hf. pose proof (prev_raw _ _ _ Hprev Hf) as Hr. split; [|exact (raw_not_future m disk t key _ _ Hs Hr)].
    eapply (unreferenced_ext m2); [intros; by apply index_rows|].
    eapply (unreferenced_put env cfg m1); [exact Hs1| |].
    + eapply raw_at_ext; [|exact Hr]. by apply index_rows.
    + intros vm E1 E2. eapply unreferenced_ext; [intros; by apply index_rows|]. by apply (Hv vm).
  - split; [done|]. rewrite Erow, index_rows by done. apply lookup_insert_eq.
Qed.

(** ** Put *)

(** A file write that failed may leave a file under its fresh name. *)
Lemma ref_safe_failed_write m disk disk' t (w w2 : World DB SM) :
  ref_safe env cfg m disk t -> frame (set_disk disk' w) w2 -> w_tick w = S t ->
  (forall p, p <> path_of env cfg t -> disk' !! p = disk !! p) -> ref_safe env cfg m disk' (w_tick w2).
Proof using Henv.
  intros Hs F Et Hd. pose proof (fr_tick _ _ F) as Ht. cbn in Ht. rewrite Et in Ht.
  eapply (ref_safe_disk _ _ _ _ _ _ _ (path_of env cfg t)); [exact Hs|lia|apply (rs_fresh _ _ _ _ _ Hs); lia|exact Hd|]. intros n Hn E. apply path_of_inj in E. lia.
Qed.

(** A row that holds the value [data]. *)
Definition holds_value (vm : ValueMessage) (data : bytes) (disk : gmap bytes bytes) : Prop :=
  (ValueType vm = INLINE /\ Data vm = data)
  \/ (ValueType vm = RAW_FILE /\ RawFilePath vm <> EmptyString /\ 0 < slen data
      /\ ValueLength vm = slen data /\ disk !! RawFilePath vm = Some data).

(** The state after a command: consistent rows, and for a successful put the new row. *)
Definition put_post (key data : bytes) (expiry : Z) (r : option error) w' : Prop :=
  exists m', represents (w_db w') m' /\ ref_safe env cfg m' (w_disk w') (w_tick w')
    /\ (r = None -> exists vm, row_at m' key vm /\ holds_value vm data (w_disk w')
          /\ ValueLength vm = slen data /\ Expiry vm = expiry).

Lemma put_post_quietly key data expiry r w w' :
  quietly w w' -> w_db w' = w_db w -> put_post key data expiry r w -> put_post key data expiry r w'.
Proof.
  intros Q E (m & H1 & H2 & H3). exists m. rewrite E. split_and!; [done|by eapply ref_safe_quietly|].
  destruct Q as [-> _]. done.
Qed.

(** The adopted file of a fresh write. *)
Lemma fresh_adoptable m w w1 data :
  ref_safe env cfg m (w_disk w) (w_tick w) ->
  frame (set_disk (<[path_of env cfg (w_tick w) := data]> (w_disk w)) (tick w)) w1 ->
  ref_safe env cfg m (w_disk w1) (w_tick w1)
  /\ adoptable env cfg m (w_disk w1) (w_tick w1) (path_of env cfg (w_tick w)) (slen data).
Proof using Henv.
  intros Hs []. cbn in *. set (p := path_of env cfg (w_tick w)) in *.
  assert (unreferenced m p) as Hu by (apply (rs_fresh _ _ _ _ _ Hs); lia).
  assert (forall n, (w_tick w1 <= n)%nat -> p <> path_of env cfg n) as Hf.
  { intros n Hn E. apply path_of_inj in E. lia. }
  rewrite fr_disk. split.
  - eapply ref_safe_disk; [exact Hs|lia|exact Hu| |].
    + intros x Hx. by rewrite lookup_insert_ne.
    + intros n Hn E. by destruct (Hf n Hn).
  - split_and!; try done.
    + exists data. by rewrite lookup_insert_eq.
    + intros ts Hts. destruct (m !! MakeDeletionQueueKey ts p) as [v|] eqn:E; [|done]. exfalso.
      destruct (rs_queue _ _ _ _ _ Hs _ _ E (queue_key_prefix ts p)) as (ts' & p' & H1 & H2 & _ & H4).
      apply queue_key_inj in H2 as [_ <-]; [|done..]. by apply (H4 (w_tick w)).
Qed.

Lemma vm_ok_raw p expiry n sum :
  is_i64 expiry -> utf8_valid p = true -> is_i64 n -> is_u32 sum -> vm_ok (raw_row p expiry n sum).
Proof. intros. split; cbn; try done; unfold RAW_FILE; unfold_ints; lia. Qed.

Lemma vm_ok_inline data expiry : is_i64 expiry -> is_i64 (slen data) -> vm_ok (inline_row data expiry).
Proof. intros. split; cbn; try done; unfold INLINE; unfold_ints; lia. Qed.

(** A write that did not land: the file is queued, nothing references it. *)
Lemma put_failed_spec m key data expiry p len e w :
  ref_safe env cfg m (w_disk w) (w_tick w) -> adoptable env cfg m (w_disk w) (w_tick w) p len ->
  represents (w_db w) m ->
  wp (_ ← stageRawFileDeletion env p; mret (Some e)) (put_post key data expiry) w.
Proof using Henv.
  intros Hs (_ & Hu & _ & Hf) Hm. apply wp_bind.
  eapply wp_stageRawFileDeletion; [exact (clock_i64 Henv)|exact Hm|]. intros q w' Hm' F Hq. apply wp_ret.
  eexists. split; [exact Hm'|]. split; [|by intros].
  eapply ref_safe_quietly; [by apply frame_quietly|]. by eapply ref_safe_enqueued.
Qed.

Lemma adoptable_quietly m p len w w' :
  quietly w w' -> adoptable env cfg m (w_disk w) (w_tick w) p len ->
  adoptable env cfg m (w_disk w') (w_tick w') p len.
Proof.
  intros [E Ht] (H1 & H2 & H3 & H4). rewrite E. split_and!; try done. intros n Hn. apply H4. lia.
Qed.

(** A committed row: what [putLow] leaves and the size notification after it. *)
Lemma put_row_spec m key val vm data n size w (fail : error -> M (DB := DB) (SM := SM) (option error)) path :
  ref_safe env cfg m (w_disk w) (w_tick w) -> represents (w_db w) m ->
  proto_Unmarshal val = Some vm -> holds_value vm data (w_disk w) -> ValueLength vm = slen data ->
  (ValueType vm = RAW_FILE -> adoptable env cfg m (w_disk w) (w_tick w) (RawFilePath vm) (ValueLength vm)) ->
  (forall e w', frame w w' -> represents (w_db w') m -> wp (fail e) (put_post key data (Expiry vm)) w') ->
  wp (r ← putLow env cfg key val path n;
      match r with
      | inr prevSize => _ ← notifyPut (size - prevSize); mret None
      | inl err => fail err
      end) (put_post key data (Expiry vm)) w.
Proof using Henv PL.
  intros Hs Hm Hu Hh Hl Ha Hfail. apply wp_bind.
  eapply (wp_putLow env cfg (clock_i64 Henv) m); [exact Hm|by eapply backrefs_of| |].
  - intros e w' Hm' F. by apply Hfail.
  - intros prev o1 o2 q w' Hm' F Ho1 Ho2 Hprev Hq. apply wp_bind, wp_UpdateSize, wp_ret.
    destruct (rows_after_put m (w_disk w) (w_tick w) key val prev o1 o2 q) as [Hs' Erow]; try done.
    { intros vm' E. simplify_eq. done. }
    eapply (put_post_quietly _ _ _ _ w'); [done|done|].
    eexists. split; [exact Hm'|]. split; [by eapply ref_safe_quietly; [apply frame_quietly|]|].
    intros _. exists vm. rewrite (fr_disk _ _ F). split_and!; try done. by exists val.
Qed.

Lemma put_raw_spec m key data expiry w w1 :
  ref_safe env cfg m (w_disk w) (w_tick w) -> represents (w_db w1) m -> is_i64 expiry ->
  0 < slen data < two63 ->
  frame (set_disk (<[path_of env cfg (w_tick w) := data]> (w_disk w)) (tick w)) w1 ->
  wp (put_raw env cfg key (path_of env cfg (w_tick w)) expiry (slen data) (crc32 data))
    (put_post key data expiry) w1.
Proof using Henv PL.
  intros Hs Hm He Hd F. destruct (fresh_adoptable m w w1 data Hs F) as [Hs1 Ha].
  assert (w_disk w1 !! path_of env cfg (w_tick w) = Some data) as Hdisk.
  { rewrite (fr_disk _ _ F). apply lookup_insert_eq. }
  set (p := path_of env cfg (w_tick w)) in *.
  assert (vm_ok (raw_row p expiry (slen data) (crc32 data))) as Hok.
  { apply vm_ok_raw; [done|apply (path_utf8 Henv)|unfold is_i64; lia|apply crc32_u32]. }
  unfold put_raw. apply wp_bind, wp_fun. cbn. set (w2 := set_inflight _ w1).
  assert (quietly w1 w2) as Q by done. apply wp_bind.
  apply (wp_mono _ (put_post key data expiry)).
  2: { intros r w3 Hp. apply wp_bind, wp_fun, wp_ret. eapply put_post_quietly; [|done|exact Hp]. done. }
  destruct (marshal_total _ Hok) as [val Eval]. rewrite Eval.
  apply (put_row_spec m key val (raw_row p expiry (slen data) (crc32 data))); try done.
  - by apply (marshal_unmarshal _ _ Hok).
  - right. cbn. split_and!; try done; [|lia]. unfold p, path_of, filepath_Join. by destruct (filesPath cfg).
  - intros e w3 F3 Hm3. apply (put_failed_spec m _ _ _ p (slen data)); [..|done].
    + by eapply ref_safe_quietly; [apply frame_quietly|].
    + by eapply adoptable_quietly; [apply frame_quietly|].
Qed.

Lemma put_inline_spec m key data expiry w :
  ref_safe env cfg m (w_disk w) (w_tick w) -> represents (w_db w) m -> is_i64 expiry -> slen data < two63 ->
  wp (put_inline env cfg key data expiry) (put_post key data expiry) w.
Proof using Henv PL.
  intros Hs Hm He Hd. unfold put_inline.
  assert (vm_ok (inline_row data expiry)) as Hok.
  { apply vm_ok_inline; [done|]. unfold is_i64, slen in *. lia. }
  destruct (marshal_total _ Hok) as [val Eval]. rewrite Eval.
  apply (put_row_spec m key val (inline_row data expiry)); try done.
  - by apply (marshal_unmarshal _ _ Hok).
  - by left.
  - intros e w' F Hm'. apply wp_ret. exists m. split_and!; [done| |by intros].
    by eapply ref_safe_quietly; [apply frame_quietly|].
Qed.

(** The expiry [Put] stores: none, or the clock reading plus the TTL. *)
Definition expiry_at (now ttl : Z) : Z :=
  let ttl := if ttl <=? 0 then defaultTTL cfg else ttl in
  if 0 <? ttl then unix_of (now + i64 (ttl * 1000000000)) else 0.

Lemma expiry_at_i64 n ttl : is_i64 (expiry_at (env_now env n) ttl).
Proof using Henv.
  unfold expiry_at. case_match; [|unfold is_i64, two63; lia].
  pose proof (clock_i64 Henv n). pose proof (i64_range ((if ttl <=? 0 then defaultTTL cfg else ttl) * 1000000000)).
  unfold unix_of, is_i64, two63 in *. Z.div_mod_to_equations; lia.
Qed.

Lemma wp_expiry_of ttl (Q : Z -> World DB SM -> Prop) w :
  (forall w', frame w w' -> w_db w' = w_db w -> Q (expiry_at (env_now env (w_tick w)) ttl) w') ->
  wp (expiry_of env cfg ttl) Q w.
Proof.
  intros HQ. unfold expiry_of, expiry_at in *. case_match.
  - apply wp_bind, wp_time_Now, wp_ret. apply HQ; [apply frame_tick|done].
  - apply wp_ret. by apply HQ.
Qed.

(** Splitting the body at the inline threshold loses nothing. *)
Lemma ReadFull_spec body n chunk err rest :
  ReadFull body n = (chunk, err, rest) ->
  chunk +:+ b_data rest = b_data body /\ b_err rest = b_err body
  /\ ((String.length chunk < n)%nat -> chunk = b_data body /\ (err = None -> b_err body = None \/ b_err body = Some unexpected_eof))
  /\ (err <> None -> b_err body <> None).
Proof.
  unfold ReadFull. case_decide; intros; simplify_eq; cbn.
  - split_and!; [apply stake_sdrop|done| |done]. rewrite slength_stake. lia.
  - rewrite stake_all, sapp_nil_r by lia. split_and!; try done; [|by destruct (b_err body)].
    intros _. split; [done|]. destruct (b_err body) as [[]|]; auto; try done. destruct s; auto; done.
Qed.

(** The body was read to its end: to the end of file, or, if it fits into a row, to an
    [ErrUnexpectedEOF]. *)
Definition body_ended (body : Body) : Prop :=
  b_err body = None \/ b_err body = Some unexpected_eof /\ slen (b_data body) <= inlineThreshold cfg.

Lemma Put_spec m key body ttl w :
  represents (w_db w) m -> ref_safe env cfg m (w_disk w) (w_tick w) -> slen (b_data body) < two63 ->
  wp (Put env cfg key body ttl)
    (fun r w' => put_post key (b_data body) (expiry_at (env_now env (w_tick w)) ttl) r w'
       /\ (r = None -> body_ended body)) w.
Proof using Henv PL.
  intros Hm Hs Hd. unfold Put. destruct (ReadFull body (firstReadSize cfg)) as [[chunk err] rest] eqn:Er.
  apply ReadFull_spec in Er as (Hb & He & Hsmall & _). pose proof (threshold_pos Henv) as Ht.
  pose proof (expiry_at_i64 (w_tick w) ttl) as Hexp. set (expiry := expiry_at _ ttl) in *.
  assert (forall (r : option error) w', quietly w w' -> represents (w_db w') m -> r <> None ->
    put_post key (b_data body) expiry r w' /\ (r = None -> body_ended body)) as Hnone.
  { intros r w' Q Hm' Hr. split; [|done]. exists m. split_and!; [done|by eapply ref_safe_quietly|done]. }
  destruct err as [e|]; [apply wp_ret; by apply Hnone|].
  apply wp_bind, wp_expiry_of. intros w1 F1 D1. fold expiry. rewrite <- D1 in Hm.
  assert (ref_safe env cfg m (w_disk w1) (w_tick w1)) as Hs1 by by eapply ref_safe_quietly; [apply frame_quietly|].
  destruct (Z.ltb_spec (inlineThreshold cfg) (slen chunk)) as [Hc|Hc].
  - assert (joinPrefix chunk rest = body) as -> by (unfold joinPrefix; rewrite Hb, He; by destruct body).
    apply wp_bind, wp_fm_Write.
    + intros e d w2 Hdisk F2 D2 _. apply wp_ret. split; [|done]. exists m. rewrite D2. split_and!; [done| |by intros].
      rewrite (fr_disk _ _ F2). cbn. by eapply ref_safe_failed_write.
    + intros w2 Hberr F2 D2. eapply wp_mono; [eapply (put_raw_spec m _ _ _ w1); try done|intros; split; [done|by left]].
      * by rewrite D2.
      * split; [|done]. apply (f_equal slen) in Hb. unfold slen in *. rewrite slength_app in Hb. lia.
  - destruct Hsmall as [-> Hberr].
    { unfold firstReadSize, slen in *. case_match; lia. }
    eapply wp_mono; [by eapply (put_inline_spec m)|]. intros r w' Hp. split; [done|]. intros _. destruct (Hberr eq_refl); [by left|by right].
Qed.

(** ** Get *)

(** A read fails only by a call that it makes. *)
Definition get_post key w (data : bytes) (expiry : Z) (r : error + option bytes) : Prop :=
  match r with
  | inr (Some d) => d = data
  | inr None => expired_at expiry (env_now env (w_tick w)) = true
  | inl _ => row_read_failed key w \/ read_call_failed (w_tick w)
  end.

(** At most one consultation of the environment, and the segments untouched. *)
Definition one_call w w' : Prop := w_sm w' = w_sm w /\ (w_tick w' <= S (w_tick w))%nat.

Lemma wp_refresh_access key (Q : () -> World DB SM -> Prop) w :
  (forall w', quietly w w' -> w_db w' = w_db w -> one_call w w' -> Q () w') -> wp (refresh_access env cfg key) Q w.
Proof.
  intros HQ. unfold refresh_access. case_match; [|by apply wp_ret, HQ; [done..|split; [done|lia]]].
  apply wp_bind, wp_time_Now, wp_fun. cbn. case_match; apply HQ; try done; by split; cbn; try done; lia.
Qed.

Lemma wp_check_expired expiry (Q : bool -> World DB SM -> Prop) w :
  (forall w', quietly w w' -> w_db w' = w_db w -> one_call w w' -> Q (expired_at expiry (env_now env (w_tick w))) w') ->
  wp (check_expired env expiry) Q w.
Proof.
  intros HQ. unfold check_expired. destruct (0 <? expiry) eqn:E.
  - apply wp_bind, wp_time_Now, wp_ret. apply HQ; [|done|]; by split; cbn; try done; lia.
  - apply wp_ret. unfold expired_at in HQ. rewrite E in HQ. apply HQ; [done..|]. split; [done|lia].
Qed.

Lemma fm_Read_spec path data w :
  path <> EmptyString -> 0 < slen data -> w_disk w !! path = Some data ->
  wp (fm_Read env path (slen data)) (fun r _ => match r with inr ob => ob = Some data | inl _ => is_Some (env_fault env (w_tick w)) end) w.
Proof.
  intros Hp Hl Hd. unfold fm_Read.
  rewrite bool_decide_false, (proj2 (Z.leb_gt (slen data) 0)) by done. cbn [orb].
  apply wp_bind, wp_syscall. destruct (env_fault env (w_tick w)) as [e|] eqn:Ef.
  - destruct e; apply wp_ret; by eexists.
  - apply wp_fun. cbn. rewrite Hd. cbn. f_equal. apply stake_all. unfold slen. lia.
Qed.

Lemma get_value_spec m key vm data w :
  represents (w_db w) m -> row_at m key vm -> holds_value vm data (w_disk w) ->
  wp (get_value env cfg key) (fun r _ => get_post key w data (Expiry vm) r) w.
Proof.
  intros Hm (v & Ev & Eu) Hh. unfold get_value. apply wp_bind. eapply wp_Get_row; [exact Hm|..].
  { intros e db _ Hf. apply wp_ret. by left. }
  intros db Hdb. rewrite Ev, Eu. apply wp_bind, wp_check_expired. intros w1 [Q1 T1] _ [_ U1]. cbn in Q1, T1, U1 |- *.
  destruct (expired_at _ _) eqn:Ex; [by apply wp_ret|].
  apply wp_bind, wp_refresh_access. intros w2 [Q2 T2] _ [_ U2].
  destruct Hh as [[Ht Hd]|(Ht & Hp & Hl & Hlen & Hd)]; rewrite Ht; cbn [Z.eqb INLINE RAW_FILE SEGMENT Pos.eqb].
  { by apply wp_ret. }
  apply wp_bind. rewrite Hlen.
  eapply wp_mono; [apply fm_Read_spec; [done|done|by rewrite Q2, Q1]|].
  intros [e|ob] w3 Hr; [|apply wp_ret; by subst ob]. cbn in Hr.
  assert (read_call_failed (w_tick w)) as Hio by (destruct Hr as [f Ef]; exists (w_tick w2), f; split; [lia|done]).
  case_match; [apply wp_bind; eapply wp_mono; [apply wp_weaken|]; intros; apply wp_ret; by right|].
  repeat case_match; apply wp_ret; by right.
Qed.

(** C9: put then get. After a successful [Put] of a body, a [Get] of the same key (whole or
    a byte range) returns a reader that yields exactly those bytes (or that range of them)
    with any buffers and short reads, whether the value was stored inline or in a file; only
    a range that ends at the largest int64 makes the first read panic. The body was read to
    its end, where a small body that breaks off with [ErrUnexpectedEOF] counts as ended. The
    key reads as absent only once its expiry has passed, and an error is returned only if
    its own read of the row or its own opening of the file fails. *)
Theorem put_get_roundtrip m key body ttl start end_ w w1 r w2 :
  represents (w_db w) m -> ref_safe env cfg m (w_disk w) (w_tick w) -> slen (b_data body) < two63 ->
  is_i64 start -> is_i64 end_ ->
  Put env cfg key body ttl w = (None, w1) -> Get env cfg key start end_ w1 = (r, w2) ->
  body_ended body /\
  match r with
  | inr (Some rd) => reads_as rd (b_data body) start end_
  | inr None => expired_at (expiry_at (env_now env (w_tick w)) ttl) (env_now env (w_tick w1)) = true
  | inl _ => row_read_failed key w1 \/ read_call_failed (w_tick w1)
  end.
Proof using Henv PL.
  intros Hm Hs Hd Hst Hen Ep Eg. pose proof (wp_run _ _ _ _ _ Ep (Put_spec m key body ttl w Hm Hs Hd)) as [Hp Hb].
  split; [by apply Hb|]. destruct Hp as (m' & Hm' & _ & Hrow).
  destruct (Hrow eq_refl) as (vm & Hr & Hh & _ & He). rewrite <- He.
  unfold Get in Eg. refine (wp_run _ (fun r _ => _ : Prop) _ _ _ Eg _).
  apply wp_bind. eapply wp_mono; [by eapply (get_value_spec m')|].
  intros [e|[d|]] w' Hpost; apply wp_ret; cbn in Hpost |- *; [done| |done]. subst d. by apply get_reader_reads.
Qed.

(** ** Delete *)

Lemma rows_after_delete m disk t key prev idx q :
  ref_safe env cfg m disk t -> Forall index_op idx -> prev_of (DB := DB) m key prev -> reclaim_of prev q ->
  let m' := apply_batch m ([BDelete (MakeMetadataKey key)] ++ (idx ++ credit_of prev) ++ q) in
  ref_safe env cfg m' disk t /\ m' !! MakeMetadataKey key = None.
Proof.
  intros Hs Hi Hprev Hq m'. set (m1 := apply_batch m [BDelete (MakeMetadataKey key)]).
  assert (m' = apply_batch (apply_batch m1 (idx ++ credit_of prev)) q) as -> by (unfold m'; by rewrite !apply_batch_app).
  assert (Forall index_op (idx ++ credit_of prev)) as Hi'.
  { apply Forall_app. split; [done|]. destruct prev; [apply segment_credit_ops|by apply Forall_nil_2]. }
  assert (ref_safe env cfg m1 disk t) as Hs1 by by apply ref_safe_delete.
  destruct (reclaim_safe m (apply_batch m1 (idx ++ credit_of prev)) disk t prev q) as [Hs3 Erow]; try done.
  - by apply ref_safe_index.
  - intros f -> Hf. pose proof (prev_raw _ _ _ Hprev Hf) as Hr.
    split; [|exact (raw_not_future m disk t key _ _ Hs Hr)].
    eapply (unreferenced_ext m1); [intros; by apply index_rows|]. by eapply unreferenced_delete.
  - split; [done|]. rewrite Erow, index_rows by done. apply lookup_delete_eq.
Qed.

Definition delete_post (key : bytes) (r : option error) w' : Prop :=
  exists m', represents (w_db w') m' /\ ref_safe env cfg m' (w_disk w') (w_tick w')
    /\ (r = None -> m' !! MakeMetadataKey key = None).

Lemma DeleteKey_spec m key w :
  represents (w_db w) m -> ref_safe env cfg m (w_disk w) (w_tick w) ->
  wp (DeleteKey env cfg key) (delete_post key) w.
Proof using Henv PL.
  intros Hm Hs. unfold DeleteKey. apply wp_bind. eapply wp_Get; [exact Hm|..].
  { intros e db Hdb. apply wp_ret. exists m. by split_and!. }
  intros db Hdb. destruct (m !! MakeMetadataKey key) as [v|] eqn:Ev; [|apply wp_ret; exists m; by split_and!].
  rewrite cleanup_spec. set (prev := cleanup_fields <$> proto_Unmarshal v).
  assert (prev_of (DB := DB) m key prev) as Hprev by (left; rewrite Ev; done).
  apply wp_bind.
  apply (wp_mono _ (fun _ w1 => quietly w w1 /\ represents (w_db w1) m)).
  { destruct prev; [by apply wp_UpdateSize|by apply wp_ret]. }
  intros _ w1 [Q1 Hm1]. apply wp_bind.
  eapply wp_stageEvictionIndexDeletes; [exact Hm1|by eapply backrefs_of|]. intros idx w2 Hm2 F2 Hi.
  assert (quietly w w2) as Q2 by (destruct Q1, F2; split; [congruence|lia]).
  apply wp_bind. eapply (wp_Write m); [exact Hm2| | |].
  - apply plain_regular. rewrite !Forall_app. split_and!; [by repeat constructor|by apply index_op_plain|].
    destruct prev; [apply index_op_plain, segment_credit_ops|by apply Forall_nil_2].
  - intros e db' Hdb'. apply wp_ret. exists m. split_and!; [done| |done]. by eapply ref_safe_quietly.
  - intros db' Hdb'. apply wp_bind. eapply wp_reclaim; [exact (clock_i64 Henv)|exact Hdb'|].
    intros q w3 Hm3 F3 Hq. apply wp_ret.
    destruct (rows_after_delete m (w_disk w) (w_tick w) key prev idx q) as [Hs' Hn]; try done.
    rewrite <- apply_batch_app in Hm3. repeat rewrite <- app_assoc in Hm3.
    eexists. split; [exact Hm3|]. repeat rewrite <- app_assoc in Hs', Hn. split; [|done].
    eapply (ref_safe_quietly _ w); [|exact Hs']. destruct Q2, F3; cbn in *. split; [congruence|lia].
Qed.

(** ** Reads keep the invariant *)

Lemma metadata_not_delete_index key : IsDeleteIndexKey (MakeMetadataKey key) = false.
Proof.
  unfold IsDeleteIndexKey. apply (prefix_excl MetadataPrefix); [reflexivity|]. apply has_prefix_app.
Qed.

Lemma unmarshal_nonempty v vm : proto_Unmarshal v = Some vm -> vm <> vm_zero -> v <> EmptyString.
Proof using PL. intros E Hz ->. rewrite unmarshal_empty in E. by simplify_eq. Qed.

(** What purging a dangling file leaves: the unstamped tombstone. *)
Lemma purge_merge m key v vm operand :
  m !! MakeMetadataKey key = Some v -> proto_Unmarshal v = Some vm -> ValueType vm = RAW_FILE ->
  RawFilePath vm <> EmptyString -> MakeRawFilePurgeOperand (RawFilePath vm) = Some operand ->
  exists v', FullMerge (MakeMetadataKey key) v [operand] = Some v' /\ proto_Unmarshal v' = Some (tombstone 0)
    /\ op_regular m (BMerge (MakeMetadataKey key) operand).
Proof using PL.
  intros Ev Eu Ht Hp Ho. unfold MakeRawFilePurgeOperand in Ho.
  apply marshal_unmarshal in Ho as Eo.
  2: { pose proof (unmarshal_ok _ _ Eu) as [].
       split; cbn; try done; unfold RAW_FILE; unfold_ints; lia. }
  destruct (marshal_total (tombstone 0)) as [v' Ev']; [auto with ocache|].
  assert (v <> EmptyString) as Hne by (eapply unmarshal_nonempty; [exact Eu|]; intros ->; done).
  assert (FullMerge (MakeMetadataKey key) v [operand] = Some v') as Em.
  { unfold FullMerge. rewrite metadata_not_delete_index, IsMetadataKey_Make, (merge_present v vm) by done.
    unfold apply_all. cbn [fold_left]. unfold apply_bytes. rewrite Eo. unfold apply_operand. cbn.
    by rewrite (bool_decide_true (RawFilePath vm <> EmptyString)), Ht, bool_decide_true by done. }
  apply marshal_unmarshal in Ev' as Eu'; [|auto with ocache].
  exists v'. split_and!; [done|done|]. intros _ _. split.
  - intros (op & E1 & E2 & _). rewrite Eo in E1. by simplify_eq.
  - rewrite Ev. cbn. rewrite Em. intros [= ->]. rewrite unmarshal_empty in Eu'. done.
Qed.

Lemma purge_safe m key vm w :
  represents (w_db w) m -> ref_safe env cfg m (w_disk w) (w_tick w) ->
  row_at m key vm -> ValueType vm = RAW_FILE -> RawFilePath vm <> EmptyString ->
  wp (purgeDanglingRawFile key (RawFilePath vm)) (fun _ w' => safe w') w.
Proof using PL.
  intros Hm Hs (v & Ev & Eu) Ht Hp. unfold purgeDanglingRawFile.
  destruct (MakeRawFilePurgeOperand (RawFilePath vm)) as [operand|] eqn:Eo; [|apply wp_ret; by exists m].
  destruct (purge_merge m key v vm operand Ev Eu Ht Hp Eo) as (v' & Em & Eu' & Hreg).
  apply wp_bind. eapply (wp_Write m); [exact Hm|by split| |].
  - intros e db Hdb. apply wp_ret. by exists m.
  - intros db Hdb. apply wp_ret. eexists. split; [exact Hdb|]. cbn. rewrite Ev. cbn. rewrite Em.
    apply ref_safe_put; [done|]. intros vm' E. rewrite Eu' in E. by simplify_eq.
Qed.

Lemma fm_Read_quiet path n w :
  wp (fm_Read env path n) (fun _ w' => quietly w w' /\ w_db w' = w_db w) w.
Proof.
  unfold fm_Read. case_match; [by apply wp_ret|]. apply wp_bind, wp_syscall_any.
  assert (quietly w (tick w)) by (by split; cbn; try done; lia).
  intros [[]|]; try (by apply wp_ret). apply wp_fun. cbn. by case_match.
Qed.

Lemma get_value_safe m key w :
  represents (w_db w) m -> ref_safe env cfg m (w_disk w) (w_tick w) ->
  wp (get_value env cfg key) (fun _ w' => safe w') w.
Proof using PL.
  intros Hm Hs. unfold get_value. apply wp_bind.
  assert (forall w', quietly w w' -> represents (w_db w') m -> safe w') as Hsafe.
  { intros w' Q Hm'. exists m. split; [done|]. by eapply ref_safe_quietly. }
  eapply wp_Get; [exact Hm|intros; by apply wp_ret, Hsafe|]. intros db Hdb.
  destruct (m !! MakeMetadataKey key) as [v|] eqn:Ev; [|by apply wp_ret, Hsafe].
  destruct (proto_Unmarshal v) as [vm|] eqn:Eu; [|by apply wp_ret, Hsafe].
  apply wp_bind, wp_check_expired. intros w1 Q1 D1 _. cbn in D1.
  assert (quietly w w1) as Q1' by (destruct Q1; split; done). rewrite <- D1 in Hdb.
  case_match; [by apply wp_ret, Hsafe|]. apply wp_bind, wp_refresh_access. intros w2 Q2 D2 _.
  assert (quietly w w2) as Q2' by (destruct Q1', Q2; split; [congruence|lia]). rewrite <- D2 in Hdb.
  destruct (ValueType vm =? INLINE); [by apply wp_ret, Hsafe|]. destruct (ValueType vm =? SEGMENT).
  { apply wp_bind, wp_fun. unfold on_sm. destruct (sm_ReadEntry _ _ _ _ _) as [r sm]. cbn.
    destruct r; by apply wp_ret, Hsafe. }
  destruct (ValueType vm =? RAW_FILE) eqn:Et; [|by apply wp_ret, Hsafe]. bool_facts.
  apply wp_bind. destruct (decide (RawFilePath vm = EmptyString)) as [Hp|Hp].
  { unfold fm_Read. rewrite bool_decide_true by done. cbn [orb]. apply wp_ret. by apply wp_ret, Hsafe. }
  eapply wp_mono; [apply fm_Read_quiet|]. intros r w3 [Q3 D3].
  assert (quietly w w3) as Q3' by (destruct Q2', Q3; split; [congruence|lia]). rewrite <- D3 in Hdb.
  destruct r as [e|ob]; [|by apply wp_ret, Hsafe]. case_match; [|repeat case_match; by apply wp_ret, Hsafe].
  apply wp_bind. eapply wp_mono; [apply (purge_safe m key vm); try done|].
  - by eapply ref_safe_quietly.
  - by exists v.
  - intros ? w4 Hs4. by apply wp_ret.
Qed.

(** ** The deletion queue worker *)

(** Queue operations on files that no row references. *)
Definition queue_op m (t : nat) (op : batch_op) : Prop :=
  match op with
  | BDelete k => has_prefix DeletionQueuePrefix k = true
  | BPut k _ => exists ts path, is_i64 ts /\ k = MakeDeletionQueueKey ts path /\ unreferenced m path
      /\ forall n, (t <= n)%nat -> path <> path_of env cfg n
  | BMerge _ _ => False
  end.

Lemma ref_safe_queue_ops m0 m disk t ops :
  (forall key, m !! MakeMetadataKey key = m0 !! MakeMetadataKey key) ->
  ref_safe env cfg m disk t -> Forall (queue_op m0 t) ops -> ref_safe env cfg (apply_batch m ops) disk t.
Proof.
  intros E Hs Hf. revert m E Hs. induction Hf as [|op ops Ho Hf IH]; intros m E Hs; [done|].
  cbn. fold (apply_batch (apply_op m op) ops). destruct op as [k v|k|k o]; cbn in Ho |- *; [| |done].
  - destruct Ho as (ts & path & Hts & -> & Hu & Hn). apply IH.
    + intros key. rewrite lookup_insert_ne; [done|]. apply not_eq_sym, metadata_not_queue, queue_key_prefix.
    + apply ref_safe_enqueue; try done. by eapply unreferenced_ext.
  - apply IH.
    + intros key. rewrite lookup_delete_ne; [done|]. by apply not_eq_sym, metadata_not_queue.
    + by apply ref_safe_dequeue.
Qed.

Lemma queue_ops_plain m t ops : Forall (queue_op m t) ops -> Forall plain_op ops.
Proof. intros Hf. eapply Forall_impl; [exact Hf|]. by intros []. Qed.

(** An entry the worker picked: a queue key of the store and its path. *)
Definition picked m (t : nat) (e : bytes * bytes) : Prop :=
  has_prefix DeletionQueuePrefix e.2 = true /\ unreferenced m e.1
  /\ forall n, (t <= n)%nat -> e.1 <> path_of env cfg n.

Lemma queue_row_picked m disk t k v ts path :
  ref_safe env cfg m disk t -> m !! k = Some v -> has_prefix DeletionQueuePrefix k = true ->
  ParseDeletionQueueKey k = inr (ts, path) -> picked m t (path, k).
Proof.
  intros Hs E Hk Hp. destruct (rs_queue _ _ _ _ _ Hs k v E Hk) as (ts' & p & H1 & -> & H2 & H3).
  rewrite deletion_queue_key_parse in Hp by done. by simplify_eq.
Qed.

(** The rows of the queue an iterator yields are rows of the store. *)
Lemma queue_rows_of m l rest :
  l ++ rest = rows_from DeletionQueuePrefix m ->
  Forall (fun r => m !! r.1 = Some r.2 /\ has_prefix DeletionQueuePrefix r.1 = true)
    (prefix_rows DeletionQueuePrefix l).
Proof using.
  intros E. apply Forall_forall. intros [k v] [Hr Hp]%prefix_rows_sub. split; [|done].
  assert ((k, v) ∈ rows_from DeletionQueuePrefix m) as Hin by (rewrite <- E; apply elem_of_app; by left).
  by apply elem_of_rows_from in Hin as [? _].
Qed.

Lemma collect_due_picked m disk t rows batchSize now seen :
  ref_safe env cfg m disk t ->
  Forall (fun r => m !! r.1 = Some r.2 /\ has_prefix DeletionQueuePrefix r.1 = true) rows ->
  Forall (picked m t) seen -> Forall (picked m t) (collect_due rows batchSize now seen).
Proof.
  intros Hs Hf. revert seen. induction Hf as [|[k v] rows [Hr Hk] Hf IH]; intros seen Hseen; cbn; [done|].
  case_match; [done|]. destruct (ParseDeletionQueueKey k) as [?|[ts path]] eqn:Ep; [by apply IH|].
  case_match; [done|]. case_match; [by apply IH|]. apply IH. apply Forall_app. split; [done|].
  apply Forall_singleton. by eapply queue_row_picked.
Qed.

Lemma ref_safe_later m w w' :
  ref_safe env cfg m (w_disk w') (w_tick w) -> (w_tick w <= w_tick w')%nat ->
  ref_safe env cfg m (w_disk w') (w_tick w').
Proof. intros Hs Ht. by eapply ref_safe_tick. Qed.

Lemma tryDelete_spec m t path w :
  (t <= w_tick w)%nat -> ref_safe env cfg m (w_disk w) t -> unreferenced m path ->
  wp (tryDelete env path) (fun _ w' => w_db w' = w_db w /\ (t <= w_tick w')%nat
    /\ ref_safe env cfg m (w_disk w') t) w.
Proof.
  intros Ht Hs Hu. unfold tryDelete. apply wp_bind, wp_fun. cbn.
  destruct (negb (negb (env_locked env (w_tick w) path))).
  { apply wp_ret. cbn. split_and!; try done. lia. }
  apply wp_bind, wp_os_Remove. intros r d w' Hd Hp F D.
  assert (w_db w' = w_db w /\ (t <= w_tick w')%nat /\ ref_safe env cfg m (w_disk w') t) as K.
  { destruct F; cbn in *. split_and!; [done|lia|]. rewrite fr_disk. eapply ref_safe_disk; [exact Hs|lia|done|done|].
    intros n Hn ->. destruct Hp as [->|]; [|done]. by apply (rs_new _ _ _ _ _ Hs). }
  destruct r; by apply wp_ret.
Qed.

Context (retryDelay : Z) (retry_i64 : forall n, is_i64 (env_now env n + retryDelay)).

Lemma attempt_deletions_spec m t seen batch w :
  (t <= w_tick w)%nat -> ref_safe env cfg m (w_disk w) t ->
  Forall (picked m t) seen -> Forall (queue_op m t) batch ->
  wp (attempt_deletions env retryDelay seen batch) (fun ops w' => w_db w' = w_db w /\ (t <= w_tick w')%nat
    /\ ref_safe env cfg m (w_disk w') t /\ Forall (queue_op m t) ops) w.
Proof using retry_i64.
  intros Ht Hs Hf. revert batch w Ht Hs.
  induction Hf as [|[path k] seen (Hk & Hu & Hn) Hf IH]; intros batch w Ht Hs Hb; cbn.
  { apply wp_ret. done. }
  apply wp_bind. eapply wp_mono; [by apply (tryDelete_spec m t)|]. intros ok w1 (D1 & Ht1 & Hs1).
  destruct ok.
  - eapply wp_mono; [apply IH; try done|].
    { apply Forall_app. split; [done|]. by apply Forall_singleton. }
    intros ops w' (D2 & ?). by rewrite D2, D1.
  - apply wp_bind, wp_time_Now. eapply wp_mono; [apply IH; cbn; try done; [lia|]|].
    { apply Forall_app. split; [done|]. repeat (apply Forall_cons; split); [done| |by apply Forall_nil_2].
      cbn. eexists _, path. split_and!; [apply retry_i64|done..]. }
    intros ops w' (D2 & ?). cbn in D2. by rewrite D2, D1.
Qed.

Lemma ProcessBatch_safe batchSize w :
  safe w -> wp (ProcessBatch env batchSize retryDelay) (fun _ w' => safe w') w.
Proof using Henv PL retry_i64.
  intros (m & Hm & Hs). unfold ProcessBatch. apply wp_bind. eapply wp_Iterate; [exact Hm|].
  intros l err rest db Hdb Hl _. apply wp_bind, wp_time_Now. cbn [fst].
  set (w1 := tick (set_db db w)). set (seen := collect_due _ _ _ _).
  assert (Forall (picked m (w_tick w)) seen) as Hp.
  { eapply collect_due_picked; [exact Hs|by eapply queue_rows_of|by apply Forall_nil_2]. }
  assert (represents (w_db w1) m /\ (w_tick w <= w_tick w1)%nat /\ w_disk w1 = w_disk w) as (Hm1 & Ht1 & Ed1)
    by (split_and!; cbn; try done; lia).
  clearbody w1 seen. destruct seen as [|e seen].
  { apply wp_ret. exists m. split; [done|]. rewrite Ed1. by eapply ref_safe_tick. }
  apply wp_bind. eapply wp_mono.
  { eapply (attempt_deletions_spec m (w_tick w)); [done|by rewrite Ed1|done|by apply Forall_nil_2]. }
  intros ops w2 (D2 & Ht2 & Hs2 & Hops). apply wp_bind. rewrite <- D2 in Hm1.
  eapply (wp_Write m); [exact Hm1|by apply plain_regular; eapply queue_ops_plain| |].
  - intros e' db' Hdb'. apply wp_ret. exists m. split; [done|]. cbn. by eapply ref_safe_tick.
  - intros db' Hdb'. apply wp_ret. eexists. split; [exact Hdb'|]. cbn.
    eapply ref_safe_tick; [exact Ht2|]. by eapply (ref_safe_queue_ops m).
Qed.

Lemma prune_flush m t batch w :
  represents (w_db w) m -> (t <= w_tick w)%nat -> ref_safe env cfg m (w_disk w) t ->
  Forall (queue_op m t) batch ->
  wp (Write_ batch) (fun _ w' => exists m', represents (w_db w') m' /\ (t <= w_tick w')%nat
    /\ ref_safe env cfg m' (w_disk w') t /\ w_disk w' = w_disk w
    /\ forall k, has_prefix MetadataPrefix k = true -> m' !! k = m !! k) w.
Proof using.
  intros Hm Ht Hs Hb. eapply (wp_Write m); [exact Hm|by apply plain_regular; eapply queue_ops_plain| |].
  - intros e db Hdb. exists m. by split_and!.
  - intros db Hdb. eexists. split; [exact Hdb|]. split_and!; try done; [by eapply ref_safe_queue_ops|].
    intros k Hk. apply apply_batch_other. eapply Forall_impl; [exact Hb|]. intros op Ho E.
    assert (has_prefix DeletionQueuePrefix k = true) as Hq.
    { destruct op; cbn in *; subst; [|done|done]. destruct Ho as (? & ? & _ & -> & _). apply queue_key_prefix. }
    by rewrite (prefix_excl MetadataPrefix DeletionQueuePrefix k) in Hq.
Qed.

Lemma stat_missing_quiet path w :
  wp (stat_missing env path) (fun _ w' => quietly w w' /\ w_db w' = w_db w) w.
Proof using.
  unfold stat_missing. apply wp_bind, wp_syscall_any. intros [e|].
  - apply wp_ret. by split; cbn; try done; split; cbn; try done; lia.
  - apply wp_fun. cbn. split; [|done]. split; cbn; try done. lia.
Qed.

Lemma prune_rows_safe t rows cutoff batch w m :
  represents (w_db w) m -> (t <= w_tick w)%nat -> ref_safe env cfg m (w_disk w) t ->
  Forall (fun r => has_prefix DeletionQueuePrefix r.1 = true) rows ->
  Forall (fun op => exists k, op = BDelete k /\ has_prefix DeletionQueuePrefix k = true) batch ->
  wp (prune_rows env rows cutoff batch) (fun _ w' => safe w') w.
Proof using.
  assert (forall m batch, Forall (fun op => exists k, op = BDelete k /\ has_prefix DeletionQueuePrefix k = true) batch ->
    Forall (queue_op m t) batch) as Hq.
  { intros m' b Hb. eapply Forall_impl; [exact Hb|]. by intros ? (k & -> & ?). }
  intros Hm Ht Hs Hr. revert m batch w Hm Ht Hs. induction Hr as [|[k v] rows Hk Hr IH]; intros m batch w Hm Ht Hs Hb; cbn.
  - destruct batch as [|op batch]; [apply wp_ret; exists m; split; [done|by eapply ref_safe_tick]|].
    apply wp_bind. eapply wp_mono; [by eapply prune_flush; eauto|].
    intros r w' (m' & H1 & H2 & H3 & _). apply wp_ret. exists m'. split; [done|]. by eapply ref_safe_tick.
  - apply wp_bind.
    apply (wp_mono _ (fun b w' => quietly w w' /\ w_db w' = w_db w
      /\ Forall (fun op => exists k, op = BDelete k /\ has_prefix DeletionQueuePrefix k = true) b)).
    { destruct (ParseDeletionQueueKey k) as [?|[ts path]]; [by apply wp_ret|].
      case_match; [|by apply wp_ret]. apply wp_bind.
      eapply wp_mono; [apply stat_missing_quiet|]. intros missing w' [Q D]. apply wp_ret. split_and!; try done.
      destruct missing; [|done]. apply Forall_app. split; [done|]. apply Forall_singleton. by exists k. }
    intros b w1 ([Ed Ht1] & D1 & Hb1).
    assert (represents (w_db w1) m) as Hm1 by by rewrite D1.
    assert (ref_safe env cfg m (w_disk w1) t) as Hs1 by by rewrite Ed. assert (t <= w_tick w1)%nat by lia.
    case_match; [|by eapply IH]. apply wp_bind. eapply wp_mono; [by eapply prune_flush; eauto|].
    intros r w' (m' & H1 & H2 & H3 & _). by eapply IH.
Qed.

Lemma pruneOldEntries_safe pruneAge w :
  safe w -> wp (pruneOldEntries env pruneAge) (fun _ w' => safe w') w.
Proof using.
  intros (m & Hm & Hs). unfold pruneOldEntries. apply wp_bind, wp_time_Now, wp_bind.
  eapply wp_Iterate; [exact Hm|]. intros l err rest db Hdb Hl _.
  eapply (prune_rows_safe (w_tick w) _ _ _ _ m); cbn; try done; [lia|].
  eapply Forall_impl; [by eapply queue_rows_of|]. by intros ? [].
Qed.

(** The worker of the deletion queue, whatever wakes it and in whatever order. *)
Lemma processingLoop_safe batchSize pruneAge evs w :
  safe w -> wp (processingLoop env batchSize retryDelay pruneAge evs) (fun _ w' => safe w') w.
Proof using Henv PL retry_i64.
  revert w. induction evs as [|[] evs IH]; intros w Hs; cbn [processingLoop]; try by apply wp_ret.
  - apply wp_bind. eapply wp_mono; [by apply ProcessBatch_safe|]. intros [] w1 H1. by apply IH.
  - apply wp_bind. eapply wp_mono; [by apply pruneOldEntries_safe|]. intros [] w1 H1. by apply IH.
  - destruct Hs as (m & Hm & Hs). unfold GetQueueDepth. apply wp_bind, wp_bind. eapply wp_Iterate; [exact Hm|]. intros l err rest db Hdb _ _.
    apply wp_ret, IH. exists m. by split.
Qed.

End Preserve.
