(* ===== verification/LiveSize.v ===== *)
(** * The logical size of a store

    [live_size m] is the sum of the value lengths of the metadata rows, the figure
    the cleaner's [totalSize] tracks. This file relates it to changes of single
    rows. *)

From S2P Require Import Prelude Keys Errors Message Merge Rocks World Files Storage Wp Safety.

Open Scope Z_scope.

#[local] Arguments has_prefix : simpl never.

Section LiveSize.

Context `{Protobuf}.
Implicit Types m : gmap bytes bytes.

(** What a row contributes: its value length if it is a decodable metadata row. *)
Definition value_size (k v : bytes) : Z :=
  if has_prefix MetadataPrefix k then
    match proto_Unmarshal v with Some vm => ValueLength vm | None => 0 end
  else 0.

Definition live_size m : Z := map_fold (fun k v acc => value_size k v + acc) 0 m.

Definition entry_size m (k : bytes) : Z :=
  match m !! k with Some v => value_size k v | None => 0 end.

Lemma live_size_insert_new m k v : m !! k = None -> live_size (<[k := v]> m) = value_size k v + live_size m.
Proof. intros E. unfold live_size. rewrite map_fold_insert_L; [done| |done]. intros. lia. Qed.

Lemma live_size_delete m k : live_size (delete k m) = live_size m - entry_size m k.
Proof.
  unfold entry_size. destruct (m !! k) as [v|] eqn:E; [|rewrite delete_id by done; lia].
  rewrite <- (insert_delete_id m k v) at 2 by done.
  rewrite live_size_insert_new by apply lookup_delete_eq. lia.
Qed.

Lemma live_size_insert m k v : live_size (<[k := v]> m) = live_size m - entry_size m k + value_size k v.
Proof.
  rewrite <- insert_delete_eq, live_size_insert_new by apply lookup_delete_eq.
  rewrite live_size_delete. lia.
Qed.

Lemma entry_size_other m k : has_prefix MetadataPrefix k = false -> entry_size m k = 0.
Proof. intros E. unfold entry_size, value_size. rewrite E. by destruct (m !! k). Qed.

Lemma live_size_op m op :
  has_prefix MetadataPrefix (op_key op) = false -> live_size (apply_op m op) = live_size m.
Proof.
  destruct op as [k v|k|k o]; cbn; intros E.
  - rewrite live_size_insert, entry_size_other by done. unfold value_size. rewrite E. lia.
  - rewrite live_size_delete, entry_size_other by done. lia.
  - case_match; [|done]. rewrite live_size_insert, entry_size_other by done.
    unfold value_size. rewrite E. lia.
Qed.

Lemma live_size_batch m ops :
  Forall (fun op => has_prefix MetadataPrefix (op_key op) = false) ops ->
  live_size (apply_batch m ops) = live_size m.
Proof.
  intros Hf. revert m. induction Hf as [|op ops Ho Hf IH]; intros m; [done|].
  cbn. fold (apply_batch (apply_op m op) ops). rewrite IH. by apply live_size_op.
Qed.

Lemma index_ops_size m ops : Forall index_op ops -> live_size (apply_batch m ops) = live_size m.
Proof.
  intros Hf. apply live_size_batch. eapply Forall_impl; [exact Hf|]. intros op Ho%index_op_key.
  unfold quiet_key in Ho. bool_facts. done.
Qed.

Lemma queue_key_other k : has_prefix DeletionQueuePrefix k = true -> has_prefix MetadataPrefix k = false.
Proof. by apply prefix_excl. Qed.

(** Writing and deleting one row. *)
Lemma row_put_size m key v vm :
  proto_Unmarshal v = Some vm ->
  live_size (<[MakeMetadataKey key := v]> m)
  = live_size m - entry_size m (MakeMetadataKey key) + ValueLength vm.
Proof.
  intros E. rewrite live_size_insert. unfold value_size, MakeMetadataKey. by rewrite has_prefix_app, E.
Qed.

End LiveSize.
