(* ===== verification/SizeProps.v ===== *)
(** * The cleaner's size counter

    Put and DeleteKey keep [totalSize] equal to the logical size of the committed
    rows; a failed DeleteKey does not. The specifications here also say which rows
    an operation leaves alone and that the dead-byte credit of a replaced segment
    copy is committed with the row. *)

From S2P Require Import Prelude Keys Errors Message Merge Wire Rocks World Files RangeReader Storage Wp Safety StorageSpec StorageProps LiveSize.

Open Scope Z_scope.

#[local] Arguments has_prefix : simpl never.
#[local] Arguments crc32 : simpl never.

Section Rows.

Context {PB : Protobuf}.
Implicit Types m : gmap bytes bytes.

(** What the batch of a row change leaves in the other rows of the store. *)
Definition other_rows m m' (key : bytes) : Prop :=
  forall k, k <> key -> m' !! MakeMetadataKey k = m !! MakeMetadataKey k.

Lemma queue_ops_size m path q : enqueued path q -> live_size (apply_batch m q) = live_size m.
Proof.
  intros [->|(_ & ts & _ & ->)]; [done|]. apply live_size_batch. apply Forall_singleton. cbn.
  apply queue_key_other, queue_key_prefix.
Qed.

Lemma reclaim_size m prev q : reclaim_of prev q -> live_size (apply_batch m q) = live_size m.
Proof.
  destruct prev as [f|]; cbn; [|by intros ->]. case_match; [apply queue_ops_size|by intros ->].
Qed.

Lemma enqueued_rows m path q k : enqueued path q ->
  apply_batch m q !! MakeMetadataKey k = m !! MakeMetadataKey k.
Proof.
  intros [->|(_ & ts & _ & ->)]; [done|]. cbn.
  apply lookup_insert_ne, not_eq_sym, metadata_not_queue, queue_key_prefix.
Qed.

Lemma reclaim_rows m prev q k : reclaim_of prev q ->
  apply_batch m q !! MakeMetadataKey k = m !! MakeMetadataKey k.
Proof. destruct prev as [f|]; cbn; [|by intros ->]. case_match; [apply enqueued_rows|by intros ->]. Qed.

Lemma credit_ops prev : Forall index_op (credit_of prev).
Proof. destruct prev; [apply segment_credit_ops|by apply Forall_nil_2]. Qed.

(** Operations after which every back-reference still names an index entry. *)
Definition backref_op (op : batch_op) : Prop :=
  match op with
  | BPut k v => is_backref k = true -> is_index_entry v = true
  | BDelete _ => True
  | BMerge k _ => is_backref k = false
  end.

Lemma backref_batch ops m : Forall backref_op ops -> backrefs_ok m -> backrefs_ok (apply_batch m ops).
Proof.
  intros Hf. revert m. induction Hf as [|op ops Ho Hf IH]; intros m Hm; [done|].
  cbn. fold (apply_batch (apply_op m op) ops). apply IH. intros k e E Hk.
  destruct op as [k' v|k'|k' o]; cbn in *.
  - apply lookup_insert_Some in E as [[-> ->]|[_ E]]; eauto.
  - apply lookup_delete_Some in E as [_ E]. eauto.
  - case_match; [|eauto]. apply lookup_insert_Some in E as [[-> ->]|[_ E]]; [congruence|eauto].
Qed.

Lemma index_backref_op ops : Forall index_op ops -> Forall backref_op ops.
Proof.
  intros Hf. eapply Forall_impl; [exact Hf|]. intros [k v|k|k o]; cbn; [by intros []|done|].
  intros Hk. unfold is_backref.
  by rewrite (prefix_excl DeleteIndexPrefix FifoBackrefPrefix), (prefix_excl DeleteIndexPrefix AccessBucketIndexPrefix).
Qed.

Lemma enqueued_backref_op path q : enqueued path q -> Forall backref_op q.
Proof.
  intros [->|(_ & ts & _ & ->)]; [by apply Forall_nil_2|]. apply Forall_singleton. cbn.
  by rewrite (queue_not_backref _ (queue_key_prefix ts path)).
Qed.

Lemma reclaim_backref_op prev q : reclaim_of prev q -> Forall backref_op q.
Proof.
  destruct prev as [f|]; cbn; [|intros ->; by apply Forall_nil_2].
  case_match; [apply enqueued_backref_op|intros ->; by apply Forall_nil_2].
Qed.

Lemma metadata_backref_op key v : backref_op (BPut (MakeMetadataKey key) v).
Proof. cbn. intros Hk. by destruct (metadata_not_backref key _ Hk). Qed.

(** The rows after a put and after a delete. *)
Lemma put_rows m key val prev o1 o2 q :
  Forall index_op o1 -> Forall index_op o2 -> reclaim_of prev q ->
  let m' := apply_batch m (o1 ++ [BPut (MakeMetadataKey key) val] ++ (credit_of prev ++ o2) ++ q) in
  m' !! MakeMetadataKey key = Some val /\ other_rows m m' key /\ (backrefs_ok m -> backrefs_ok m')
  /\ forall vm, proto_Unmarshal val = Some vm ->
       live_size m' = live_size m - entry_size m (MakeMetadataKey key) + ValueLength vm.
Proof.
  intros Ho1 Ho2 Hq m'. unfold m'. rewrite !apply_batch_app.
  assert (Forall index_op (credit_of prev ++ o2)) as Ho3.
  { apply Forall_app. split; [apply credit_ops|done]. }
  split_and!.
  - rewrite (reclaim_rows _ prev), <- apply_batch_app, index_rows by done. apply lookup_insert_eq.
  - intros k Hk. rewrite (reclaim_rows _ prev), <- apply_batch_app, index_rows by done. cbn.
    rewrite lookup_insert_ne by (apply MakeMetadataKey_ne; congruence). by apply index_rows.
  - repeat rewrite <- apply_batch_app. apply backref_batch.
    repeat (apply Forall_app; split); try by apply index_backref_op. { by apply Forall_singleton, metadata_backref_op. }
    { apply index_backref_op, credit_ops. } by eapply reclaim_backref_op.
  - intros vm E. rewrite (reclaim_size _ prev), <- apply_batch_app, index_ops_size by done. cbn.
    rewrite (row_put_size _ _ _ vm) by done. rewrite index_ops_size by done. unfold entry_size.
    by rewrite index_rows.
Qed.

Lemma delete_rows m key prev idx q :
  Forall index_op idx -> reclaim_of prev q ->
  let m' := apply_batch m ([BDelete (MakeMetadataKey key)] ++ (idx ++ credit_of prev) ++ q) in
  m' !! MakeMetadataKey key = None /\ other_rows m m' key /\ (backrefs_ok m -> backrefs_ok m')
  /\ live_size m' = live_size m - entry_size m (MakeMetadataKey key).
Proof.
  intros Hi Hq m'. unfold m'. rewrite !apply_batch_app.
  assert (Forall index_op (idx ++ credit_of prev)) as Hi'.
  { apply Forall_app. split; [done|apply credit_ops]. }
  split_and!.
  - rewrite (reclaim_rows _ prev), <- apply_batch_app, index_rows by done. apply lookup_delete_eq.
  - intros k Hk. rewrite (reclaim_rows _ prev), <- apply_batch_app, index_rows by done. cbn.
    apply lookup_delete_ne, MakeMetadataKey_ne. congruence.
  - repeat rewrite <- apply_batch_app. apply backref_batch. repeat (apply Forall_app; split).
    { by apply Forall_singleton. } { by apply index_backref_op. }
    { apply index_backref_op, credit_ops. } by eapply reclaim_backref_op.
  - rewrite (reclaim_size _ prev), <- apply_batch_app, index_ops_size by done. apply live_size_delete.
Qed.

End Rows.

Section Accounting.

Context {DB SM : Type} {PB : Protobuf} {PL : ProtobufLaws} {RDB : RocksDB DB} {RL : RocksLaws DB}.
Context {SS : SegmentStore SM} (env : Env) (cfg : Config).
Context (Henv : env_ok env cfg).
Implicit Types w : World DB SM.
Implicit Types m : gmap bytes bytes.

(** The counter shows the logical size of the rows (as an int64). *)
Definition exact m w : Prop := w_size w = i64 (live_size m).

(** What a [Put] leaves: the new row or the old one, every other row, and an exact
    counter. *)
Definition put_acct m w (key : bytes) (len : Z) (r : option error) w' : Prop :=
  exists m', represents (w_db w') m' /\ other_rows m m' key /\ (backrefs_ok m -> backrefs_ok m')
    /\ (r = None -> exists vm, row_at m' key vm /\ ValueLength vm = len)
    /\ (r <> None -> m' !! MakeMetadataKey key = m !! MakeMetadataKey key)
    /\ (~ read_failed (DB := DB) -> exact m w -> exact m' w').

Lemma put_acct_weaken m w w1 key len r w' w2 :
  w_size w1 = w_size w -> w_db w2 = w_db w' -> w_size w2 = w_size w' ->
  put_acct m w1 key len r w' -> put_acct m w key len r w2.
Proof.
  intros E D S (m' & H1 & H2 & Hbr & H3 & H4 & H5). exists m'. rewrite D. split_and!; try done.
  intros Hr He. unfold exact in *. rewrite S. apply H5; [done|]. by rewrite E.
Qed.

(** The size [existingValue] reports is what the row contributes. *)
Lemma prev_size m key prev :
  prev_of (DB := DB) m key prev -> ~ read_failed (DB := DB) ->
  size_of prev = entry_size m (MakeMetadataKey key).
Proof.
  intros [->|[_ Hf]] Hr; [|done]. unfold entry_size, value_size, MakeMetadataKey. rewrite has_prefix_app.
  destruct (m !! _) as [v|]; cbn; [|done]. by destruct (proto_Unmarshal v).
Qed.

Lemma put_row_acct m key val vm size path n w (fail : error -> M (DB := DB) (SM := SM) (option error)) :
  represents (w_db w) m -> backrefs_ok m -> proto_Unmarshal val = Some vm -> ValueLength vm = size ->
  (forall e w', frame w w' -> represents (w_db w') m -> wp (fail e) (put_acct m w' key size) w') ->
  wp (r ← putLow env cfg key val path n;
      match r with
      | inr prevSize => _ ← notifyPut (size - prevSize); mret None
      | inl err => fail err
      end) (put_acct m w key size) w.
Proof using Henv PL.
  intros Hm Hb Hu Hl Hfail. apply wp_bind.
  eapply (wp_putLow env cfg (clock_i64 _ _ Henv) m); [exact Hm|done| |].
  - intros e w' Hm' F. eapply wp_mono; [by apply Hfail|]. intros r w2 Ha.
    eapply put_acct_weaken; [|done|done|exact Ha]. apply F.
  - intros prev o1 o2 q w' Hm' F Ho1 Ho2 Hprev Hq. apply wp_bind, wp_UpdateSize, wp_ret.
    destruct (put_rows m key val prev o1 o2 q) as (H1 & H2 & Hbr & H3); try done.
    eexists. split; [exact Hm'|]. split_and!; [done|done| |done|].
    + intros _. exists vm. split; [by exists val|done].
    + unfold exact. cbn [w_size set_size]. intros Hr He. rewrite (fr_size _ _ F), He, i64_add_l, (H3 vm), (prev_size m key) by done.
      f_equal. lia.
Qed.

(** A put that leaves only a queued file behind. *)
Lemma put_failed_acct m key len path e w :
  represents (w_db w) m ->
  wp (_ ← stageRawFileDeletion env path; mret (Some e)) (put_acct m w key len) w.
Proof using Henv.
  intros Hm. apply wp_bind. eapply wp_stageRawFileDeletion; [exact (clock_i64 _ _ Henv)|exact Hm|].
  intros q w' Hm' F Hq. apply wp_ret. eexists. split; [exact Hm'|]. split_and!; [| |done|..].
  - intros k _. by eapply enqueued_rows.
  - apply backref_batch. by eapply enqueued_backref_op.
  - intros _. by eapply enqueued_rows.
  - unfold exact. intros _ He. by rewrite (fr_size _ _ F), (queue_ops_size _ path).
Qed.

Lemma put_unchanged m w w' key len e :
  represents (w_db w') m -> w_size w' = w_size w -> put_acct m w key len (Some e) w'.
Proof. intros Hm E. exists m. split_and!; try done. unfold exact. by rewrite E. Qed.

Lemma Put_acct m key body ttl w :
  represents (w_db w) m -> backrefs_ok m -> slen (b_data body) < two63 ->
  wp (Put env cfg key body ttl) (put_acct m w key (slen (b_data body))) w.
Proof using Henv PL.
  intros Hm Hb Hd. unfold Put. destruct (ReadFull body (firstReadSize cfg)) as [[chunk err] rest] eqn:Er.
  apply ReadFull_spec in Er as (Hbd & He & Hsmall & _). pose proof (threshold_pos _ _ Henv) as Ht.
  destruct err as [e|]; [apply wp_ret; by apply put_unchanged|].
  pose proof (expiry_at_i64 env cfg Henv (w_tick w) ttl) as Hexp.
  apply wp_bind, wp_expiry_of. intros w1 F1 D1. rewrite <- D1 in Hm. set (expiry := expiry_at _ _ _) in *.
  eapply (wp_mono _ (put_acct m w1 key (slen (b_data body)))).
  2: { intros r w' Ha. eapply put_acct_weaken; [|done|done|exact Ha]. apply F1. }
  destruct (Z.ltb_spec (inlineThreshold cfg) (slen chunk)) as [Hc|Hc].
  - assert (joinPrefix chunk rest = body) as -> by (unfold joinPrefix; rewrite Hbd, He; by destruct body).
    apply wp_bind, wp_fm_Write.
    + intros e d w2 Hdisk F2 D2 _. apply wp_ret. apply put_unchanged; [by rewrite D2|apply F2].
    + intros w2 Hberr F2 D2. unfold put_raw. apply wp_bind, wp_fun. cbn. apply wp_bind.
      set (w3 := set_inflight _ w2).
      assert (vm_ok (raw_row (path_of env cfg (w_tick w1)) expiry (slen (b_data body)) (crc32 (b_data body)))) as Hok.
      { apply vm_ok_raw; [done|apply (path_utf8 _ _ Henv)|unfold is_i64, slen in *; lia|apply crc32_u32]. }
      apply (wp_mono _ (put_acct m w3 key (slen (b_data body)))).
      2: { intros r w4 Ha. apply wp_bind, wp_fun, wp_ret. eapply put_acct_weaken; [|done..|exact Ha].
           cbn. apply F2. }
      destruct (marshal_total _ Hok) as [val Eval]. rewrite Eval.
      eapply put_row_acct; [cbn; by rewrite D2|done|by apply (marshal_unmarshal _ _ Hok)|done|].
      intros e w' F Hm'. by apply put_failed_acct.
  - destruct Hsmall as [-> Hberr].
    { unfold firstReadSize, slen in *. case_match; lia. }
    unfold put_inline.
    assert (vm_ok (inline_row (b_data body) expiry)) as Hok.
    { apply vm_ok_inline; [done|]. unfold is_i64, slen in *. lia. }
    destruct (marshal_total _ Hok) as [val Eval]. rewrite Eval.
    eapply put_row_acct; [done|done|by apply (marshal_unmarshal _ _ Hok)|done|].
    intros e w' F Hm'. apply wp_ret. by apply put_unchanged.
Qed.

(** What a [DeleteKey] leaves; when it fails, the counter may already be reduced. *)
Definition delete_acct m w (key : bytes) (r : option error) w' : Prop :=
  exists m', represents (w_db w') m' /\ other_rows m m' key /\ (backrefs_ok m -> backrefs_ok m')
    /\ (r = None -> m' !! MakeMetadataKey key = None /\ (exact m w -> exact m' w'))
    /\ (r <> None -> m' = m).

Lemma DeleteKey_acct m key w :
  represents (w_db w) m -> backrefs_ok m -> wp (DeleteKey env cfg key) (delete_acct m w key) w.
Proof using Henv PL.
  intros Hm Hb. unfold DeleteKey. apply wp_bind. eapply wp_Get; [exact Hm|..].
  { intros e db Hdb. apply wp_ret. exists m. by split_and!. }
  intros db Hdb. destruct (m !! MakeMetadataKey key) as [v|] eqn:Ev; [|apply wp_ret; exists m; by split_and!].
  rewrite cleanup_spec. set (prev := cleanup_fields <$> proto_Unmarshal v).
  assert (size_of prev = entry_size m (MakeMetadataKey key)) as Hsize.
  { unfold entry_size, value_size, MakeMetadataKey. fold (MakeMetadataKey key). rewrite Ev, has_prefix_app.
    unfold prev. by destruct (proto_Unmarshal v). }
  apply wp_bind.
  apply (wp_mono _ (fun _ w1 => represents (w_db w1) m
    /\ (exact m w -> w_size w1 = i64 (live_size m - size_of prev)))).
  { destruct prev; [apply wp_UpdateSize; split; [done|]|apply wp_ret; split; [done|]]; unfold exact; cbn.
    - intros ->. rewrite i64_add_l. f_equal.
    - intros ->. f_equal. lia. }
  intros _ w1 [Hm1 Hsz]. apply wp_bind.
  eapply wp_stageEvictionIndexDeletes; [exact Hm1|done|]. intros idx w2 Hm2 F2 Hi.
  apply wp_bind. eapply (wp_Write m); [exact Hm2| | |].
  - apply plain_regular. rewrite !Forall_app. split_and!; [by repeat constructor|by apply index_op_plain|].
    apply index_op_plain, credit_ops.
  - intros e db' Hdb'. apply wp_ret. exists m. by split_and!.
  - intros db' Hdb'. apply wp_bind. eapply wp_reclaim; [exact (clock_i64 _ _ Henv)|exact Hdb'|].
    intros q w3 Hm3 F3 Hq. apply wp_ret.
    destruct (delete_rows m key prev idx q) as (H1 & H2 & Hbr & H3); try done.
    rewrite <- apply_batch_app in Hm3. repeat rewrite <- app_assoc in Hm3.
    repeat rewrite <- app_assoc in H1, H2, H3, Hbr.
    eexists. split; [exact Hm3|]. split_and!; try done. intros _. split; [done|].
    intros He. unfold exact. trans (i64 (live_size m - size_of prev)).
    { rewrite (fr_size _ _ F3). cbn. rewrite (fr_size _ _ F2). by apply Hsz. }
    f_equal. rewrite Hsize. symmetry. exact H3.
Qed.

(** ** Sequences of writes *)

Inductive write_command :=
  | WPut (key : bytes) (body : Body) (ttl : Z)
  | WDelete (key : bytes).

Definition exec (c : write_command) : M (DB := DB) (SM := SM) (option error) :=
  match c with
  | WPut key body ttl => Put env cfg key body ttl
  | WDelete key => DeleteKey env cfg key
  end.

(** The results of a sequence of writes and the final state. *)
Fixpoint exec_all (cs : list write_command) w : list (write_command * option error) * World DB SM :=
  match cs with
  | [] => ([], w)
  | c :: cs =>
      let '(r, w1) := exec c w in
      let '(rs, w2) := exec_all cs w1 in ((c, r) :: rs, w2)
  end.

(** Deletes commit; puts may fail in any way. *)
Definition deletes_commit (rs : list (write_command * option error)) : Prop :=
  Forall (fun cr => match cr.1 with WDelete _ => cr.2 = None | _ => True end) rs.

Definition small_body (c : write_command) : Prop :=
  match c with WPut _ body _ => slen (b_data body) < two63 | _ => True end.

Lemma exec_exact c w r w1 m :
  ~ read_failed (DB := DB) -> small_body c -> exec c w = (r, w1) ->
  (match c with WDelete _ => r = None | _ => True end) ->
  represents (w_db w) m -> backrefs_ok m -> exact m w ->
  exists m', represents (w_db w1) m' /\ backrefs_ok m' /\ exact m' w1.
Proof using Henv PL.
  intros Hr Hs E Hc Hm Hb He. destruct c as [key body ttl|key]; cbn in *.
  - destruct (wp_run _ _ _ _ _ E (Put_acct m key body ttl w Hm Hb Hs)) as (m' & H1 & _ & H2 & _ & _ & H3).
    exists m'. eauto.
  - destruct (wp_run _ _ _ _ _ E (DeleteKey_acct m key w Hm Hb)) as (m' & H1 & _ & H2 & H3 & _).
    exists m'. destruct (H3 Hc). eauto.
Qed.

(** C12: the size counter is exact. Start from a store whose counter shows the sum
    of the value lengths of its rows, run any sequence of puts (new keys,
    overwrites, inline or in files, failing at any point) and of deletes that commit:
    as long as reads of the store succeed, the counter shows the sum of the value
    lengths of the rows that are committed at the end, as an int64. *)
Theorem size_counter_exact cs w rs w' m :
  ~ read_failed (DB := DB) -> Forall small_body cs ->
  exec_all cs w = (rs, w') -> deletes_commit rs ->
  represents (w_db w) m -> backrefs_ok m -> exact m w ->
  exists m', represents (w_db w') m' /\ w_size w' = i64 (live_size m').
Proof using Henv PL.
  intros Hr Hs. revert w rs m. induction Hs as [|c cs Hc Hs IH]; intros w rs m E Hd Hm Hb He; cbn in E.
  { simplify_eq. by exists m. }
  destruct (exec c w) as [r w1] eqn:E1. destruct (exec_all cs w1) as [rs' w2] eqn:E2. simplify_eq.
  apply Forall_cons in Hd as [Hd1 Hd].
  destruct (exec_exact c w r w1 m) as (m1 & H1 & H2 & H3); try done. eauto.
Qed.

(** A delete that fails is still subtracted. [DeleteKey] reduces the counter when
    it has read the row and does not restore it when the batch fails to commit: after
    a [DeleteKey] of a stored value that returns an error although the reads of the
    store succeed, the row is still there and the counter understates the live data
    by the row's value length. *)
Theorem failed_delete_skews_counter m key vm w e w' :
  ~ read_failed (DB := DB) -> represents (w_db w) m -> backrefs_ok m -> row_at m key vm -> exact m w ->
  DeleteKey env cfg key w = (Some e, w') ->
  represents (w_db w') m /\ w_size w' = i64 (live_size m - ValueLength vm).
Proof using Henv PL.
  intros Hr Hm Hb (v & Ev & Eu) He E.
  refine (wp_run _ (fun r w' => r <> None ->
    represents (w_db w') m /\ w_size w' = i64 (live_size m - ValueLength vm)) _ _ _ E _ _); [|done].
  unfold DeleteKey. apply wp_bind. eapply wp_Get_failing; [exact Hm|done|].
  intros db Hdb. rewrite Ev, cleanup_spec, Eu. cbn [fmap option_fmap option_map].
  apply wp_bind, wp_UpdateSize, wp_bind. eapply wp_stageEvictionIndexDeletes; [exact Hdb|done|].
  intros idx w2 Hm2 F2 Hi. apply wp_bind. eapply (wp_Write m); [exact Hm2| | |].
  - apply plain_regular. rewrite !Forall_app. split_and!; [by repeat constructor|by apply index_op_plain|].
    apply index_op_plain, segment_credit_ops.
  - intros e' db' Hdb'. apply wp_ret. intros _. split; [done|]. cbn. rewrite (fr_size _ _ F2). cbn.
    rewrite He, i64_add_l. f_equal.
  - intros db' Hdb'. apply wp_bind. eapply wp_mono; [apply wp_weaken|]. intros ? w3 _. by apply wp_ret.
Qed.

(** Put, then delete, then get. A successful [DeleteKey] makes the key absent:
    every later read of it that reaches the store finds nothing, and no other key's
    row changed. *)
Theorem delete_get_absent m key w w1 start end_ r w2 :
  represents (w_db w) m -> backrefs_ok m ->
  DeleteKey env cfg key w = (None, w1) -> Get env cfg key start end_ w1 = (r, w2) ->
  (r = inr None \/ (exists e, r = inl e) /\ read_failed (DB := DB))
  /\ exists m', represents (w_db w1) m' /\ m' !! MakeMetadataKey key = None /\ other_rows m m' key.
Proof using Henv PL.
  intros Hm Hb Ed Eg.
  destruct (wp_run _ _ _ _ _ Ed (DeleteKey_acct m key w Hm Hb)) as (m' & H1 & H2 & _ & H3 & _).
  destruct (H3 eq_refl) as [H4 _]. split; [|by exists m'].
  refine (wp_run _ (fun r _ => r = inr None \/ (exists e, r = inl e) /\ read_failed (DB := DB)) _ _ _ Eg _).
  unfold Get, get_value. apply wp_bind, wp_bind. eapply wp_Get_failing; [exact H1|..].
  - intros e db _ Hf. apply wp_ret, wp_ret. right. split; [by eexists|done].
  - intros db _. rewrite H4. apply wp_ret, wp_ret. by left.
Qed.

End Accounting.
