(* ===== verification/Cas.v ===== *)
(** * Conditional operations (storage/cas.go)

    GetWithVersion, PutIfVersion and DeleteIfVersion with the stamp source and the
    helpers around them. A conditional write is one merge operand; its outcome is
    learned by reading the row back. The definitions run on any store: over the laws
    of Rocks.v nothing happens between two calls, over those of Rely.v other writers
    commit in between. *)

From S2P Require Import Prelude Version Keys Errors Message Merge Wire Rocks World Files RangeReader Storage.

Open Scope Z_scope.

(** ** Row states *)

Inductive casRowState := casAbsent | casFenced | casLive.

#[export] Instance casRowState_eq_dec : EqDecision casRowState.
Proof. solve_decision. Defined.

(** [casAdmits]. *)
Definition casAdmits (state : casRowState) (cur expected : Z) : bool :=
  match state with
  | casLive => cur =? expected
  | casFenced => (expected =? 0) || (cur <=? expected)
  | casAbsent => true
  end.

(** The state of a row ([None] is not found) and the version that goes with it, at a
    clock reading in nanoseconds. *)
Definition classify_at (vm : option ValueMessage) (now : Z) : casRowState * Z :=
  match vm with
  | None => (casAbsent, 0)
  | Some vm =>
      if Expiry vm =? tombstoneExpiry then
        if Version vm =? 0 then (casAbsent, 0) else (casFenced, Version vm)
      else if expired_at (Expiry vm) now then (casAbsent, 0)
      else (casLive, EffectiveRowVersion (Some vm))
  end.

(** [evictionEntryTime]: the write time of an ordered index entry, in nanoseconds. *)
Definition evictionEntryTime (entry : bytes) : option Z :=
  if IsBucketedAccessKey entry then
    match ParseBucketedAccessKey entry with inr (_, at_) => Some at_ | inl _ => None end
  else
    match ParseFifoIndexTime entry with inr at_ => Some at_ | inl _ => None end.

Section Cas.

Context {DB SM : Type} `{Protobuf} `{RocksDB DB} `{SegmentStore SM} (env : Env) (cfg : Config).
Notation M := (M (DB := DB) (SM := SM)).

(** ** The stamp source *)

Definition store_stamps (last hi : Z) : M () := fun w => ((), set_stamps last hi w).

Definition loadVersionReservation : M (option error) :=
  r ← Get_ VersionHWMKey;
  match r with
  | inl err => mret (Some err)
  | inr (Some data) =>
      if decide (String.length data = 8%nat)
      then _ ← store_stamps (be_value data) (be_value data); mret None
      else mret None
  | inr None => mret None
  end.

Definition load_last : M Z := fun w => (w_last w, w).
Definition load_hi : M Z := fun w => (w_hi w, w).
Definition store_hi (hi : Z) : M () := fun w => ((), set_stamps (w_last w) hi w).
Definition store_last (last : Z) : M () := fun w => ((), set_stamps last (w_hi w) w).

Definition extendVersionReservation (next : Z) : M (option error) :=
  hi ← load_hi;
  if next <=? hi then mret None
  else
    let newHi := u64 (next + versionReservationBlock) in
    r ← Write_ [BPut VersionHWMKey (be_bytes 8 newHi)];
    match r with
    | Some err => mret (Some err)
    | None => _ ← store_hi newHi; mret None
    end.

(** One call of [nextVersion] with no other caller in between: its compare-and-swap
    succeeds, so the loop runs once. Version.v interleaves the callers. *)
Definition nextVersion : M (error + Z) :=
  now ← time_Now env;
  last ← load_last;
  let next := next_stamp (u64 now) last in
  hi ← load_hi;
  err ← (if hi <? next then extendVersionReservation next else mret None);
  match err with
  | Some e => mret (inl e)
  | None => _ ← store_last next; mret (inr next)
  end.

(** ** Reading the row *)

Definition readRowForCAS (metaKey : bytes) : M (error + option ValueMessage) :=
  r ← Get_ metaKey;
  match r with
  | inl err => mret (inl err)
  | inr None => mret (inr None)
  | inr (Some data) =>
      match proto_Unmarshal data with
      | None => mret (inl (EText "proto: cannot parse"))
      | Some vm => mret (inr (Some vm))
      end
  end.

(** The loop of [readRowForCASRetry]; [err] is the error of the last attempt. *)
Fixpoint retry_read (attempts : nat) (metaKey : bytes) (err : error) : M (error + option ValueMessage) :=
  match attempts with
  | O => mret (inl err)
  | S attempts =>
      r ← readRowForCAS metaKey;
      match r with
      | inr vm => mret (inr vm)
      | inl err => retry_read attempts metaKey err
      end
  end.

Definition readRowForCASRetry (metaKey : bytes) : M (error + option ValueMessage) :=
  retry_read 4 metaKey (EText EmptyString).

(** [casClassify]: the clock is read only for a row that may have expired. *)
Definition casClassify (vm : option ValueMessage) : M (casRowState * Z) :=
  match vm with
  | None => mret (casAbsent, 0)
  | Some vm =>
      if Expiry vm =? tombstoneExpiry then
        mret (if Version vm =? 0 then (casAbsent, 0) else (casFenced, Version vm))
      else
        expired ← check_expired env (Expiry vm);
        mret (if (expired : bool) then (casAbsent, 0) else (casLive, EffectiveRowVersion (Some vm)))
  end.

Definition absenceToken (state : casRowState) (fence : Z) : M (error + Z) :=
  match state with
  | casFenced => mret (inr fence)
  | _ => nextVersion
  end.

Definition currentVersionOf (vm : option ValueMessage) : M Z :=
  '(_, v) ← casClassify vm; mret v.

(** [GetWithVersion]: the value (if any), the version or token, and found. *)
Definition GetWithVersion (key : bytes) : M (error + option bytes * Z * bool) :=
  r ← readRowForCAS (MakeMetadataKey key);
  match r with
  | inl err => mret (inl (mapRocksDBError "GetWithVersion" key err))
  | inr row =>
      '(state, cur) ← casClassify row;
      match state, row with
      | casLive, Some vm =>
          _ ← refresh_access env cfg key;
          if ValueType vm =? INLINE then mret (inr (Some (Data vm), cur, true))
          else if ValueType vm =? SEGMENT then
            r ← on_sm (sm_ReadEntry key (SegmentPath vm) (SegmentOffset vm) (ValueLength vm));
            match r with
            | inl err => mret (inl (NewIORetryableError "GetWithVersion" key err))
            | inr None => mret (inr (None, 0, false))
            | inr (Some data) => mret (inr (Some data, cur, true))
            end
          else if ValueType vm =? RAW_FILE then
            r ← fm_Read env (RawFilePath vm) (ValueLength vm);
            match r with
            | inl (ESentinel ErrFileLocked as err) => mret (inl (NewLockError "GetWithVersion" key err))
            | inl err => mret (inl (NewIORetryableError "GetWithVersion" key err))
            | inr None => mret (inr (None, 0, false))
            | inr (Some data) => mret (inr (Some data, cur, true))
            end
          else mret (inl (NewCorruptionError "GetWithVersion" key (EText "unknown value type")))
      | _, _ =>
          token ← absenceToken state cur;
          match token with
          | inl err => mret (inl (NewInternalError "GetWithVersion" err))
          | inr t => mret (inr (None, t, false))
          end
      end
  end.

(** ** PutIfVersion *)

Definition cas_put_operand (expiry stamp expected : Z) : ValueMessage :=
  MkVM INLINE EmptyString expiry EmptyString EmptyString 0 0 0 stamp META_OP_CAS_PUT expected.

Definition with_inline (data : bytes) (op : ValueMessage) : ValueMessage :=
  MkVM INLINE data (Expiry op) (RawFilePath op) (SegmentPath op) (SegmentOffset op)
    (slen data) (Checksum op) (Version op) (OpType op) (CasExpectedVersion op).

Definition with_raw (filePath : bytes) (checksum bytesWritten : Z) (op : ValueMessage) : ValueMessage :=
  MkVM RAW_FILE (Data op) (Expiry op) filePath (SegmentPath op) (SegmentOffset op)
    bytesWritten checksum (Version op) (OpType op) (CasExpectedVersion op).

Definition with_expected (expected : Z) (op : ValueMessage) : ValueMessage :=
  MkVM (ValueType op) (Data op) (Expiry op) (RawFilePath op) (SegmentPath op) (SegmentOffset op)
    (ValueLength op) (Checksum op) (Version op) (OpType op) expected.

(** Reclaims the spilled file of a put that did not win; no file, nothing. *)
Definition discard_spill (spilledPath : bytes) : M () :=
  if decide (spilledPath = EmptyString) then mret () else stageRawFileDeletion env spilledPath.

Definition reclaimReplacedValue (prev : ValueMessage) : M () :=
  if (ValueType prev =? SEGMENT) && bool_decide (SegmentPath prev <> EmptyString) then
    _ ← Write_ [BMerge (MakeDeleteIndexKey (SegmentPath prev)) (MakeDeleteIndexOperand 1 (ValueLength prev))];
    mret ()
  else if (ValueType prev =? RAW_FILE) && bool_decide (RawFilePath prev <> EmptyString) then
    stageRawFileDeletion env (RawFilePath prev)
  else mret ().

Definition finishWonCASPut (key : bytes) (newVM : ValueMessage) (prev : option ValueMessage) : M () :=
  batch ← (if (ValueType newVM =? RAW_FILE) && medium cfg (ValueLength newVM)
           then '(cIdxKey, cIdxVal) ← PrepareEntryForCompaction env key (RawFilePath newVM);
                mret [BPut cIdxKey cIdxVal]
           else mret []);
  idx ← eviction_index_ops env cfg key;
  _ ← match batch ++ idx with [] => mret None | ops => Write_ ops end;
  prevSize ← match prev with
             | Some p => _ ← reclaimReplacedValue p; mret (ValueLength p)
             | None => mret 0
             end;
  notifyPut (ValueLength newVM - prevSize).

(** The operand's precondition: an expired but unswept live row is matched by its
    stored version, since the operator is clock-blind. *)
Definition translate (state : casRowState) (prev : option ValueMessage) (op : ValueMessage) : ValueMessage :=
  match state, prev with
  | casAbsent, Some p =>
      if Expiry p =? tombstoneExpiry then op else with_expected (EffectiveRowVersion prev) op
  | _, _ => op
  end.

(** The recovery of a put whose outcome could not be read back. *)
Definition unreadable_put (key spilledPath : bytes) (operand : ValueMessage) (prev : option ValueMessage) : M () :=
  _ ← (if bool_decide (spilledPath <> EmptyString) && medium cfg (ValueLength operand)
       then '(cIdxKey, cIdxVal) ← PrepareEntryForCompaction env key spilledPath;
            _ ← Write_ [BPut cIdxKey cIdxVal]; mret ()
       else mret ());
  match prev with Some p => reclaimReplacedValue p | None => mret () end.

(** From the refresh of the previous row to the outcome. *)
Definition commit_cas_put (key spilledPath : bytes) (operand : ValueMessage) (expected : Z) : M (error + Z) :=
  let metaKey := MakeMetadataKey key in
  r ← readRowForCAS metaKey;
  match r with
  | inl err => _ ← discard_spill spilledPath; mret (inl (mapRocksDBError "PutIfVersion" key err))
  | inr prev =>
      '(state, cur) ← casClassify prev;
      if negb (casAdmits state cur expected) then
        _ ← discard_spill spilledPath;
        mret (inl (NewVersionMismatchError "PutIfVersion" key cur))
      else
        let operand := translate state prev operand in
        match proto_Marshal operand with
        | None => _ ← discard_spill spilledPath; mret (inl (NewInternalError "PutIfVersion" (EText "proto: marshal")))
        | Some operandBytes =>
            r ← Write_ [BMerge metaKey operandBytes];
            match r with
            | Some err => _ ← discard_spill spilledPath; mret (inl (mapRocksDBError "PutIfVersion" key err))
            | None =>
                r ← readRowForCASRetry metaKey;
                match r with
                | inl err =>
                    _ ← unreadable_put key spilledPath operand prev;
                    mret (inl (mapRocksDBError "PutIfVersion" key err))
                | inr got =>
                    if bool_decide (Version <$> got = Some (Version operand)) then
                      _ ← finishWonCASPut key operand prev;
                      mret (inr (Version operand))
                    else
                      _ ← discard_spill spilledPath;
                      v ← currentVersionOf got;
                      mret (inl (NewVersionMismatchError "PutIfVersion" key v))
                end
            end
        end
  end.

Definition PutIfVersion (key : bytes) (body : Body) (ttl expected : Z) : M (error + Z) :=
  r ← readRowForCAS (MakeMetadataKey key);
  match r with
  | inl err => mret (inl (mapRocksDBError "PutIfVersion" key err))
  | inr prev =>
      '(state, cur) ← casClassify prev;
      if negb (casAdmits state cur expected) then mret (inl (NewVersionMismatchError "PutIfVersion" key cur))
      else
        let '(firstChunk, err, rest) := ReadFull body (firstReadSize cfg) in
        match err with
        | Some e => mret (inl (NewIOError "PutIfVersion" key e))
        | None =>
            expiry ← expiry_of env cfg ttl;
            stamp ← nextVersion;
            match stamp with
            | inl err => mret (inl (NewInternalError "PutIfVersion" err))
            | inr newStamp =>
                let operand := cas_put_operand expiry newStamp expected in
                if inlineThreshold cfg <? slen firstChunk then
                  r ← fm_Write env cfg key (joinPrefix firstChunk rest);
                  match r with
                  | inl err => mret (inl (mapFileError "PutIfVersion" key err))
                  | inr (filePath, checksum, bytesWritten) =>
                      _ ← inflight_add filePath;
                      r ← commit_cas_put key filePath (with_raw filePath checksum bytesWritten operand) expected;
                      _ ← inflight_del filePath;
                      mret r
                  end
                else commit_cas_put key EmptyString (with_inline firstChunk operand) expected
            end
        end
  end.

(** ** DeleteIfVersion *)

Definition evictionEntryFor (key : bytes) : M (option bytes) :=
  r ← Get_ (backrefKey cfg key);
  mret match r with
       | inr (Some data) => if decide (data = EmptyString) then None else Some data
       | _ => None
       end.

Definition dropDeadEvictionGeneration (key : bytes) (cutoff : Z) (deadEntry : option bytes) : M () :=
  let backref := backrefKey cfg key in
  let batch := match deadEntry with Some e => [BDelete e] | None => [] end in
  r ← Get_ backref;
  let batch := batch ++
    match r with
    | inr (Some cur) =>
        match evictionEntryTime cur with
        | Some written => if written <? cutoff then [BDelete cur; BDelete backref] else []
        | None => []
        end
    | _ => []
    end in
  match batch with
  | [] => mret ()
  | ops => _ ← Write_ ops; mret ()
  end.

Definition cas_delete_operand (stamp expected : Z) : ValueMessage :=
  MkVM INLINE EmptyString 0 EmptyString EmptyString 0 0 0 stamp META_OP_CAS_DELETE expected.

(** What [DeleteIfVersion] lets pass: on a plainly absent key only [expected = 0]. *)
Definition delete_admits (state : casRowState) (cur expected : Z) : bool :=
  match state with
  | casLive => cur =? expected
  | casFenced => casAdmits state cur expected
  | casAbsent => expected =? 0
  end.

Definition DeleteIfVersion (key : bytes) (expected : Z) : M (option error) :=
  let metaKey := MakeMetadataKey key in
  r ← readRowForCAS metaKey;
  match r with
  | inl err => mret (Some (mapRocksDBError "DeleteIfVersion" key err))
  | inr prev =>
      '(state, cur) ← casClassify prev;
      if negb (delete_admits state cur expected) then
        mret (Some (NewVersionMismatchError "DeleteIfVersion" key cur))
      else
        deadEntry ← evictionEntryFor key;
        stamp ← nextVersion;
        match stamp with
        | inl err => mret (Some (NewInternalError "DeleteIfVersion" err))
        | inr newStamp =>
            match proto_Marshal (translate state prev (cas_delete_operand newStamp expected)) with
            | None => mret (Some (NewInternalError "DeleteIfVersion" (EText "proto: marshal")))
            | Some operandBytes =>
                cutoff ← time_Now env;
                r ← Write_ [BMerge metaKey operandBytes];
                match r with
                | Some err => mret (Some (mapRocksDBError "DeleteIfVersion" key err))
                | None =>
                    r ← readRowForCASRetry metaKey;
                    match r with
                    | inl err =>
                        _ ← match prev with Some p => reclaimReplacedValue p | None => mret () end;
                        mret (Some (mapRocksDBError "DeleteIfVersion" key err))
                    | inr None => mret (Some (NewVersionMismatchError "DeleteIfVersion" key 0))
                    | inr (Some got) =>
                        if Version got =? newStamp then
                          _ ← match prev with
                              | Some p => _ ← reclaimReplacedValue p; notifyDelete (ValueLength p)
                              | None => mret ()
                              end;
                          _ ← dropDeadEvictionGeneration key cutoff deadEntry;
                          mret None
                        else
                          v ← currentVersionOf (Some got);
                          mret (Some (NewVersionMismatchError "DeleteIfVersion" key v))
                    end
                end
            end
        end
  end.

End Cas.
