(* ===== verification/CasSpec.v ===== *)
(** * Specifications of the conditional operations

    What the helpers of cas.go and the two conditional writes do to the committed
    rows when nothing happens in between: an admitted put or delete always wins its
    merge, and its bookkeeping keeps every file referenced. *)

From S2P Require Import Prelude Version Keys Errors Message Merge Wire Rocks World Files RangeReader Storage Wp Safety StorageSpec StorageProps LiveSize SizeProps Cas.

Open Scope Z_scope.

#[local] Arguments has_prefix : simpl never.
#[local] Arguments crc32 : simpl never.

(** ** Admission and the merge *)

Section Admission.

Context {PB : Protobuf} {PL : ProtobufLaws}.
Implicit Types m : gmap bytes bytes.

(** The row a read of the key decodes to. *)
Definition row_of m (key : bytes) : option ValueMessage := m !! MakeMetadataKey key ≫= proto_Unmarshal.

Lemma row_at_of m key vm : row_at m key vm <-> row_of m key = Some vm.
Proof. unfold row_at, row_of. rewrite bind_Some. done. Qed.

Lemma translate_version state prev op : Version (translate state prev op) = Version op.
Proof. unfold translate. by repeat case_match. Qed.

Lemma translate_adopt state prev op : adopt (translate state prev op) = adopt op.
Proof. unfold translate. by repeat case_match. Qed.

Lemma translate_op state prev op : OpType (translate state prev op) = OpType op.
Proof. unfold translate. by repeat case_match. Qed.

Lemma EffectiveRowVersion_ok vm : vm_ok vm -> is_u64 (EffectiveRowVersion (Some vm)).
Proof. intros []. cbn. by repeat case_match. Qed.

Lemma translate_ok state prev op :
  vm_ok op -> (forall p, prev = Some p -> vm_ok p) -> vm_ok (translate state prev op).
Proof.
  intros [] Hp. unfold translate. repeat case_match; try (by split). split; cbn; try done.
  by apply EffectiveRowVersion_ok, Hp.
Qed.

(** What the pre-read admits, the merge operator applies: to a missing row and to the
    row that was read. *)
Lemma admitted_put_applies now prev op :
  OpType op = META_OP_CAS_PUT -> 0 <= CasExpectedVersion op ->
  casAdmits (classify_at prev now).1 (classify_at prev now).2 (CasExpectedVersion op) = true ->
  apply_operand prev (translate (classify_at prev now).1 prev op) = Some (adopt op)
  /\ apply_operand None (translate (classify_at prev now).1 prev op) = Some (adopt op).
Proof.
  intros Ho He Ha. unfold apply_operand. rewrite translate_op, Ho, translate_adopt. cbn [Z.eqb META_OP_CAS_PUT Pos.eqb].
  split; [|done]. destruct prev as [b|]; [|done]. cbn [classify_at] in *.
  destruct (Expiry b =? tombstoneExpiry) eqn:Et.
  - destruct (Version b =? 0) eqn:Ev; cbn in Ha |- *; rewrite ?Et; unfold fenceAdmits.
    + bool_facts. rewrite Ev, (proj2 (Z.leb_le 0 _)) by done. by rewrite orb_true_r.
    + by rewrite Ha.
  - destruct (expired_at (Expiry b) now); cbn in Ha |- *; rewrite Et; cbn; [by rewrite Z.eqb_refl|].
    rewrite Et in Ha. by rewrite Ha.
Qed.

(** The same for deletes; a missing row becomes a fence under [expected = 0] only. *)
Lemma admitted_delete_applies now prev op :
  OpType op = META_OP_CAS_DELETE -> 0 <= CasExpectedVersion op ->
  delete_admits (classify_at prev now).1 (classify_at prev now).2 (CasExpectedVersion op) = true ->
  apply_operand prev (translate (classify_at prev now).1 prev op) = Some (tombstone (Version op)).
Proof.
  intros Ho He Ha. unfold apply_operand. rewrite translate_op, Ho, translate_version.
  cbn [Z.eqb META_OP_CAS_PUT META_OP_CAS_DELETE Pos.eqb].
  destruct prev as [b|]; cbn [classify_at] in *; [|cbn in Ha |- *; by rewrite Ha].
  destruct (Expiry b =? tombstoneExpiry) eqn:Et.
  - destruct (Version b =? 0) eqn:Ev; cbn in Ha |- *; rewrite ?Et; unfold fenceAdmits; by rewrite Ha.
  - destruct (expired_at (Expiry b) now); cbn in Ha |- *; rewrite Et; cbn; [by rewrite Z.eqb_refl|].
    rewrite Et in Ha. by rewrite Ha.
Qed.

Lemma marshal_nonempty vm v : vm_ok vm -> vm <> vm_zero -> proto_Marshal vm = Some v -> v <> EmptyString.
Proof using PL.
  intros Hok Hz E ->. apply marshal_unmarshal in E; [|done]. rewrite unmarshal_empty in E. by simplify_eq.
Qed.

(** Resolving one operand against the stored bytes. *)
Lemma merge_one existing row operand op :
  proto_Unmarshal operand = Some op ->
  (existing = EmptyString /\ row = None \/ existing <> EmptyString /\ proto_Unmarshal existing = row /\ row <> None) ->
  mergeMetadataCAS existing [operand]
  = match apply_operand row op with None => Some expiredSentinel | Some vm => proto_Marshal vm end.
Proof.
  intros Eo [[-> ->]|(Hne & Er & Hr)].
  - unfold mergeMetadataCAS. rewrite decide_True by done. unfold apply_all. cbn. unfold apply_bytes. by rewrite Eo.
  - destruct row as [b|]; [|done]. rewrite (merge_present _ b) by done. unfold apply_all. cbn.
    unfold apply_bytes. rewrite Eo. by destruct (apply_operand_some b op) as [b' ->].
Qed.

Lemma FullMerge_metadata key existing ops :
  FullMerge (MakeMetadataKey key) existing ops = mergeMetadataCAS existing ops.
Proof. unfold FullMerge. by rewrite metadata_not_delete_index, IsMetadataKey_Make. Qed.

(** The row a merge that produced [vm] leaves; [vm] is not the zero message. *)
Lemma merge_row m key operand existing vm :
  default EmptyString (m !! MakeMetadataKey key) = existing ->
  mergeMetadataCAS existing [operand] = proto_Marshal vm -> vm_ok vm -> vm <> vm_zero ->
  (guarded_delete operand -> m !! MakeMetadataKey key <> Some expiredSentinel) ->
  exists v, proto_Marshal vm = Some v
    /\ apply_batch m [BMerge (MakeMetadataKey key) operand] = <[MakeMetadataKey key := v]> m
    /\ batch_regular m [BMerge (MakeMetadataKey key) operand].
Proof using PL.
  intros Ee Em Hok Hz Hg. destruct (marshal_total vm Hok) as [v Ev]. exists v.
  assert (FullMerge (MakeMetadataKey key) existing [operand] = Some v) as Ef by by rewrite FullMerge_metadata, Em.
  split_and!; [done| |].
  - cbn. by rewrite Ee, Ef.
  - split; [|done]. intros _ _. split; [done|]. rewrite Ee, Ef. intros [= ->].
    by eapply marshal_nonempty in Ev.
Qed.

End Admission.

(** ** Rules for the helpers *)

(** The files and the size counter are untouched. *)
Record calm {DB SM} (w w' : World DB SM) : Prop := {
  calm_disk : w_disk w' = w_disk w;
  calm_size : w_size w' = w_size w;
  calm_tick : (w_tick w <= w_tick w')%nat
}.

#[export] Instance calm_refl {DB SM} : Reflexive (@calm DB SM).
Proof. intros w. by split. Qed.

#[export] Instance calm_trans {DB SM} : Transitive (@calm DB SM).
Proof. intros w1 w2 w3 [] []. split; try congruence. lia. Qed.

Lemma frame_calm {DB SM} (w w' : World DB SM) : frame w w' -> calm w w'.
Proof. by intros []. Qed.

Lemma calm_quietly {DB SM} (w w' : World DB SM) : calm w w' -> quietly w w'.
Proof. by intros []. Qed.

Section Rules.

Context {DB SM : Type} {PB : Protobuf} {PL : ProtobufLaws} {RDB : RocksDB DB} {RL : RocksLaws DB}.
Context {SS : SegmentStore SM} (env : Env) (cfg : Config).
Implicit Types w : World DB SM.
Implicit Types m : gmap bytes bytes.

(** A write of a store that holds committed rows may fail. *)
Definition write_failed : Prop :=
  exists ops db m e db', represents db m /\ db_Write ops db = (Some e, db').

(** The row is there but does not decode. *)
Definition corrupt m (key : bytes) : Prop :=
  exists v, m !! MakeMetadataKey key = Some v /\ proto_Unmarshal v = None.

Lemma wp_Write_failing m ops (Q : option error -> World DB SM -> Prop) w :
  represents (w_db w) m -> batch_regular m ops ->
  (forall e db, represents db m -> write_failed -> Q (Some e) (set_db db w)) ->
  (forall db, represents db (apply_batch m ops) -> Q None (set_db db w)) ->
  wp (Write_ ops) Q w.
Proof.
  intros Hm Hr H1 H2. unfold wp, Write_, on_db. destruct (db_Write ops (w_db w)) as [[e|] db] eqn:E; cbn.
  - apply H1; [by eapply rdb_write_failed|]. exists ops, (w_db w), m, e, db. by split.
  - apply H2. by eapply rdb_write.
Qed.

Lemma wp_readRowForCAS m key (Q : error + option ValueMessage -> World DB SM -> Prop) w :
  represents (w_db w) m ->
  (forall e db, represents db m -> read_failed (DB := DB) \/ corrupt m key -> Q (inl e) (set_db db w)) ->
  (forall db, represents db m -> ~ corrupt m key -> Q (inr (row_of m key)) (set_db db w)) ->
  wp (readRowForCAS (MakeMetadataKey key)) Q w.
Proof.
  intros Hm H1 H2. unfold readRowForCAS. apply wp_bind. eapply wp_Get_failing; [exact Hm|..].
  { intros e db Hdb Hf. apply wp_ret. apply H1; auto. }
  intros db Hdb. unfold row_of, corrupt in *. destruct (m !! MakeMetadataKey key) as [v|] eqn:Ev; cbn in *.
  - destruct (proto_Unmarshal v) as [vm|] eqn:Eu; apply wp_ret; [apply H2|apply H1]; cbn; eauto.
    intros (? & [= <-] & ?). congruence.
  - apply wp_ret. apply H2; [done|]. by intros (? & ? & _).
Qed.

Lemma wp_retry_read m key n err (Q : error + option ValueMessage -> World DB SM -> Prop) w :
  represents (w_db w) m ->
  (forall e db, represents db m -> (n = O \/ read_failed (DB := DB) \/ corrupt m key) -> Q (inl e) (set_db db w)) ->
  (forall db, represents db m -> Q (inr (row_of m key)) (set_db db w)) ->
  wp (retry_read n (MakeMetadataKey key) err) Q w.
Proof.
  intros Hm H1 H2. revert err w Hm H1 H2. induction n as [|n IH]; intros err w Hm H1 H2; cbn.
  - apply wp_ret. specialize (H1 err (w_db w)). destruct w. apply H1; auto.
  - apply wp_bind. eapply wp_readRowForCAS; [exact Hm|..].
    + intros e db Hdb Hf. apply IH; [done|..].
      * intros e' db' Hdb' _. change (set_db db' (set_db db w)) with (set_db db' w). apply H1; auto.
      * intros db' Hdb'. change (set_db db' (set_db db w)) with (set_db db' w). by apply H2.
    + intros db Hdb _. apply wp_ret. by apply H2.
Qed.

Lemma wp_readRowForCASRetry m key (Q : error + option ValueMessage -> World DB SM -> Prop) w :
  represents (w_db w) m ->
  (forall e db, represents db m -> read_failed (DB := DB) \/ corrupt m key -> Q (inl e) (set_db db w)) ->
  (forall db, represents db m -> Q (inr (row_of m key)) (set_db db w)) ->
  wp (readRowForCASRetry (MakeMetadataKey key)) Q w.
Proof.
  intros Hm H1 H2. apply (wp_retry_read m); [done| |done]. intros e db Hdb [Hz|Hf]; [done|by apply H1].
Qed.

Lemma wp_casClassify row (Q : casRowState * Z -> World DB SM -> Prop) w :
  (forall w', frame w w' -> w_db w' = w_db w -> Q (classify_at row (env_now env (w_tick w))) w') ->
  wp (casClassify env row) Q w.
Proof.
  intros HQ. unfold casClassify, classify_at in *. destruct row as [vm|]; [|by apply wp_ret, HQ].
  destruct (Expiry vm =? tombstoneExpiry); [by apply wp_ret, HQ|].
  apply wp_bind. unfold check_expired, expired_at in *. destruct (0 <? Expiry vm); cbn [andb] in *.
  - apply wp_bind, wp_time_Now, wp_ret, wp_ret. apply HQ; [apply frame_tick|done].
  - apply wp_ret, wp_ret. by apply HQ.
Qed.

Lemma hwm_op v : index_op (BPut VersionHWMKey v).
Proof. split; [reflexivity|]. intros E. discriminate E. Qed.

(** The stamp [nextVersion] returns next. *)
Definition stamp_at w : Z := next_stamp (u64 (env_now env (w_tick w))) (w_last w).

Lemma wp_nextVersion m (Q : error + Z -> World DB SM -> Prop) w :
  represents (w_db w) m ->
  (forall e w', represents (w_db w') m -> calm w w' -> write_failed -> Q (inl e) w') ->
  (forall ops w', represents (w_db w') (apply_batch m ops) -> Forall index_op ops -> calm w w' ->
     w_last w' = stamp_at w -> Q (inr (stamp_at w)) w') ->
  wp (nextVersion env) Q w.
Proof.
  intros Hm H1 H2. unfold nextVersion. apply wp_bind, wp_time_Now, wp_bind, wp_fun. cbn.
  apply wp_bind, wp_fun. cbn. set (next := next_stamp _ _) in *.
  assert (calm w (tick w)) as C1 by (split; cbn; try done; lia).
  apply wp_bind. case_match.
  - unfold extendVersionReservation. apply wp_bind, wp_fun. cbn. case_match; [bool_facts; lia|].
    apply wp_bind. eapply (wp_Write_failing m); [exact Hm|by apply plain_regular; repeat constructor|..].
    + intros e db Hdb Hf. apply wp_ret, wp_ret. apply H1; [done| |done]. by destruct C1.
    + intros db Hdb. apply wp_bind, wp_fun, wp_ret. cbn. apply wp_bind, wp_fun, wp_ret. cbn.
      eapply H2; [exact Hdb| | |done]; [apply Forall_singleton, hwm_op|by destruct C1].
  - apply wp_ret, wp_bind, wp_fun, wp_ret. cbn. apply (H2 []); try done. by destruct C1.
Qed.

(** Stamps are never zero while the uint64 range lasts. *)
Definition stamp_room w : Prop := 0 <= w_last w < two64 - 1.

Lemma stamp_at_ok w : stamp_room w -> is_u64 (stamp_at w) /\ w_last w < stamp_at w.
Proof.
  intros Hr. unfold stamp_at, next_stamp, stamp_room in *. pose proof (u64_range (env_now env (w_tick w))).
  case_match; bool_facts; [|unfold is_u64 in *; lia].
  rewrite u64_small by (unfold is_u64; lia). unfold is_u64. lia.
Qed.

(** ** Reclaiming and bookkeeping *)

Context (Henv : env_ok env cfg).

(** What releases the bytes of a replaced value: the credit of its segment or the
    queue entry of its file. *)
Definition released (p : ValueMessage) (q : list batch_op) : Prop :=
  Forall index_op q \/ (ValueType p = RAW_FILE /\ enqueued (RawFilePath p) q).

Lemma wp_reclaimReplacedValue m p (Q : () -> World DB SM -> Prop) w :
  represents (w_db w) m ->
  (forall q w', represents (w_db w') (apply_batch m q) -> frame w w' -> released p q -> Q () w') ->
  wp (reclaimReplacedValue env p) Q w.
Proof using Henv.
  intros Hm HQ. unfold reclaimReplacedValue. case_match.
  - apply wp_bind. eapply (wp_Write m); [exact Hm| | |].
    + apply plain_regular. apply Forall_singleton. cbn. apply has_prefix_app.
    + intros e db Hdb. apply wp_ret. apply (HQ []); [done|auto with ocache|]. left. by apply Forall_nil_2.
    + intros db Hdb. apply wp_ret. eapply HQ; [exact Hdb|auto with ocache|]. left.
      apply Forall_singleton. cbn. apply has_prefix_app.
  - case_match; [|apply wp_ret; apply (HQ []); [done|reflexivity|left; by apply Forall_nil_2]].
    bool_facts. eapply wp_stageRawFileDeletion; [exact (clock_i64 _ _ Henv)|exact Hm|].
    intros q w' Hm' F Hq. eapply HQ; [exact Hm'|done|]. by right.
Qed.

Lemma wp_release m (prev : option ValueMessage) (Q : () -> World DB SM -> Prop) w :
  represents (w_db w) m ->
  (forall q w', represents (w_db w') (apply_batch m q) -> frame w w' ->
     (forall p, prev = Some p -> released p q) -> (prev = None -> q = []) -> Q () w') ->
  wp (match prev with Some p => reclaimReplacedValue env p | None => mret () end) Q w.
Proof using Henv.
  intros Hm HQ. destruct prev as [p|]; [|apply wp_ret; by apply (HQ [])].
  eapply wp_reclaimReplacedValue; [exact Hm|]. intros q w' H1 H2 H3. eapply HQ; [exact H1|done| |done].
  by intros ? [= <-].
Qed.

(** The rows of the metadata key space that a bookkeeping batch leaves. *)
Lemma released_rows m p q key : released p q ->
  apply_batch m q !! MakeMetadataKey key = m !! MakeMetadataKey key.
Proof.
  intros [Hq|[_ [->|(_ & ts & _ & ->)]]]; [by apply index_rows|done|]. cbn.
  apply lookup_insert_ne, not_eq_sym, metadata_not_queue, queue_key_prefix.
Qed.

Lemma released_safe m disk t p q :
  released p q -> ref_safe env cfg m disk t ->
  (ValueType p = RAW_FILE -> unreferenced m (RawFilePath p)
     /\ forall n, (t <= n)%nat -> RawFilePath p <> path_of env cfg n) ->
  ref_safe env cfg (apply_batch m q) disk t.
Proof.
  intros [Hq|[Ht Hq]] Hs Hu; [by apply ref_safe_index|]. destruct (Hu Ht). by eapply ref_safe_enqueued.
Qed.

Lemma compaction_op ts key path : index_op (BPut (MakeCompactionKey ts key) path).
Proof.
  assert (has_prefix "!compact/" (MakeCompactionKey ts key) = true) as Hk by apply has_prefix_app.
  split; [eapply (quiet_incomparable "!compact/"); [reflexivity|reflexivity|done]|].
  unfold is_backref. by rewrite (prefix_excl "!compact/" FifoBackrefPrefix), (prefix_excl "!compact/" AccessBucketIndexPrefix).
Qed.

(** The bookkeeping of a win: index entries, then the replaced value, then the size. *)
Lemma wp_finishWonCASPut m key newVM prev (Q : () -> World DB SM -> Prop) w :
  represents (w_db w) m -> backrefs_ok m ->
  (forall ops q w', represents (w_db w') (apply_batch (apply_batch m ops) q) -> Forall index_op ops ->
     (forall p, prev = Some p -> released p q) -> (prev = None -> q = []) ->
     quietly w w' ->
     w_size w' = i64 (w_size w + (ValueLength newVM - match prev with Some p => ValueLength p | None => 0 end)) ->
     Q () w') ->
  wp (finishWonCASPut env cfg key newVM prev) Q w.
Proof using Henv.
  intros Hm Hb HQ. unfold finishWonCASPut. apply wp_bind.
  assert (forall o1 w1, represents (w_db w1) m -> frame w w1 -> Forall index_op o1 ->
    wp (idx ← eviction_index_ops env cfg key;
        _ ← match o1 ++ idx with [] => mret None | ops => Write_ ops end;
        prevSize ← match prev with
             | Some p => _ ← reclaimReplacedValue env p; mret (ValueLength p)
             | None => mret 0
             end;
        notifyPut (ValueLength newVM - prevSize)) Q w1) as K.
  { intros o1 w1 Hm1 F1 Ho1. apply wp_bind. eapply wp_eviction_index_ops; [exact Hm1|done|].
    intros o2 w2 Hm2 F2 Ho2. apply wp_bind.
    apply (wp_mono _ (fun _ w3 => exists ops, represents (w_db w3) (apply_batch m ops) /\ frame w w3 /\ Forall index_op ops)).
    { assert (frame w w2) as F by frames. assert (Forall index_op (o1 ++ o2)) as Ho by by apply Forall_app.
      destruct (o1 ++ o2) as [|o os] eqn:E; [apply wp_ret; exists []; by split_and!|]. rewrite <- E in *.
      eapply (wp_Write m); [exact Hm2|by apply plain_regular, index_op_plain| |].
      - intros e db Hdb. exists []. split_and!; [done|frames|by apply Forall_nil_2].
      - intros db Hdb. eexists. split_and!; [exact Hdb|frames|done]. }
    intros _ w3 (ops & Hm3 & F3 & Hops). apply wp_bind. destruct prev as [p|].
    - apply wp_bind. eapply wp_reclaimReplacedValue; [exact Hm3|]. intros q w4 Hm4 F4 Hq. apply wp_ret, wp_UpdateSize.
      eapply (HQ ops q); cbn; try done; [by intros ? [= <-]| |].
      + destruct F3, F4. split; cbn; [congruence|lia].
      + by rewrite (fr_size _ _ F4), (fr_size _ _ F3).
    - apply wp_ret, wp_UpdateSize. apply (HQ ops []); cbn; try done.
      + by destruct F3.
      + by rewrite (fr_size _ _ F3). }
  destruct ((ValueType newVM =? RAW_FILE) && medium cfg (ValueLength newVM)).
  - unfold PrepareEntryForCompaction. apply wp_bind, wp_bind, wp_time_Now, wp_ret, wp_ret.
    apply K; [done|auto with ocache|]. apply Forall_singleton, compaction_op.
  - apply wp_ret, K; [done|reflexivity|by apply Forall_nil_2].
Qed.

Lemma wp_discard_spill m path (Q : () -> World DB SM -> Prop) w :
  represents (w_db w) m ->
  (forall q w', represents (w_db w') (apply_batch m q) -> frame w w' -> enqueued path q -> Q () w') ->
  wp (discard_spill env path) Q w.
Proof using Henv.
  intros Hm HQ. unfold discard_spill. case_decide.
  - apply wp_ret. apply (HQ []); [done|reflexivity|by left].
  - by eapply wp_stageRawFileDeletion; [exact (clock_i64 _ _ Henv)|..].
Qed.

End Rules.

(** ** PutIfVersion *)

Section Put.

Context {DB SM : Type} {PB : Protobuf} {PL : ProtobufLaws} {RDB : RocksDB DB} {RL : RocksLaws DB}.
Context {SS : SegmentStore SM} (env : Env) (cfg : Config) (Henv : env_ok env cfg).
Implicit Types w : World DB SM.
Implicit Types m : gmap bytes bytes.

(** Why a conditional put may fail: the store failed, the row does not decode, or the
    row did not admit the expectation at a clock reading of the call. *)
Definition rejected m (key op : bytes) (admits : casRowState -> Z -> bool) (t : nat) (e : error) : Prop :=
  exists n st cur, (t <= n)%nat /\ classify_at (row_of m key) (env_now env n) = (st, cur)
    /\ admits st cur = false /\ e = NewVersionMismatchError op key cur.

Definition store_failed m (key : bytes) : Prop :=
  read_failed (DB := DB) \/ write_failed (DB := DB) \/ corrupt m key.

Definition cas_post m w (key : bytes) (op : ValueMessage) (expected : Z) (r : error + Z) w' : Prop :=
  exists m', represents (w_db w') m' /\ ref_safe env cfg m' (w_disk w') (w_tick w')
    /\ other_rows m m' key /\ quietly w w'
    /\ match r with
       | inr v => v = Version op /\ row_of m' key = Some (adopt op) /\ (exact m w -> exact m' w')
       | inl e =>
           (row_of m' key = row_of m key /\ (exact m w -> exact m' w')
              /\ (store_failed m key \/ rejected m key "PutIfVersion" (fun st cur => casAdmits st cur expected) (w_tick w) e))
           \/ (row_of m' key = Some (adopt op) /\ read_failed (DB := DB))
       end.

Definition spill_ok m w (op : ValueMessage) (spilledPath : bytes) : Prop :=
  if decide (ValueType op = RAW_FILE) then
    spilledPath = RawFilePath op
    /\ adoptable env cfg m (w_disk w) (w_tick w) (RawFilePath op) (ValueLength op)
  else spilledPath = EmptyString.

Lemma spill_ok_quietly m w w' op path : quietly w w' -> spill_ok m w op path -> spill_ok m w' op path.
Proof.
  intros Q. unfold spill_ok. case_decide; [|done]. intros [-> Ha]. split; [done|].
  by eapply adoptable_quietly.
Qed.

(** Giving up before the merge. *)
Lemma abandon_put m w w1 key op expected path e :
  represents (w_db w1) m -> frame w w1 -> ref_safe env cfg m (w_disk w) (w_tick w) ->
  spill_ok m w op path ->
  store_failed m key \/ rejected m key "PutIfVersion" (fun st cur => casAdmits st cur expected) (w_tick w) e ->
  wp (_ ← discard_spill env path; mret (inl e)) (cas_post m w key op expected) w1.
Proof using Henv.
  intros Hm F Hs Hp He. apply wp_bind. eapply wp_discard_spill; [exact Henv|exact Hm|].
  intros q w' Hm' F' Hq. apply wp_ret. exists (apply_batch m q).
  assert (quietly w w') as Q by (destruct F, F'; split; [congruence|lia]).
  assert (forall k, apply_batch m q !! MakeMetadataKey k = m !! MakeMetadataKey k) as Er
    by (intros; by eapply enqueued_rows).
  split_and!; [done| |by intros k _|done|].
  - eapply ref_safe_quietly; [exact Q|]. unfold spill_ok in Hp. case_decide.
    + destruct Hp as [-> (_ & Hu & _ & Hf)]. by eapply ref_safe_enqueued.
    + subst path. by destruct Hq as [->|[? _]].
  - left. unfold row_of. rewrite Er. split_and!; [done| |done]. unfold exact.
    intros E. rewrite (queue_ops_size _ path) by done. by rewrite (fr_size _ _ F'), (fr_size _ _ F).
Qed.

(** The rows after an admitted put. *)
Lemma merged_put m key now op operand :
  ~ corrupt m key -> vm_ok op -> OpType op = META_OP_CAS_PUT -> Version op <> 0 ->
  casAdmits (classify_at (row_of m key) now).1 (classify_at (row_of m key) now).2 (CasExpectedVersion op) = true ->
  proto_Marshal (translate (classify_at (row_of m key) now).1 (row_of m key) op) = Some operand ->
  exists v, proto_Unmarshal v = Some (adopt op)
    /\ apply_batch m [BMerge (MakeMetadataKey key) operand] = <[MakeMetadataKey key := v]> m
    /\ batch_regular m [BMerge (MakeMetadataKey key) operand].
Proof using PL.
  intros Hc Hok Ho Hv Ha Eo.
  assert (forall p, row_of m key = Some p -> vm_ok p) as Hrow.
  { unfold row_of. intros p (v & _ & Ev)%bind_Some. by eapply unmarshal_ok. }
  apply marshal_unmarshal in Eo as Eu; [|by apply translate_ok].
  destruct (admitted_put_applies now (row_of m key) op) as [H1 H2]; [done|by destruct Hok as [? ? ? ? ? ? ? ? ? []]|done|].
  destruct (merge_row m key operand (default EmptyString (m !! MakeMetadataKey key)) (adopt op))
    as (v & E1 & E2 & E3); try done.
  - rewrite (merge_one _ (if decide (default EmptyString (m !! MakeMetadataKey key) = EmptyString) then None else row_of m key)
      _ _ Eu).
    + case_decide; [by rewrite H2|by rewrite H1].
    + case_decide as Hd; [by left|]. right. split; [done|]. unfold row_of, corrupt in *.
      destruct (m !! MakeMetadataKey key) as [b|]; cbn in *; [|done]. split; [done|].
      intros E. apply Hc. by exists b.
  - by apply vm_ok_adopt.
  - intros E. apply (f_equal Version) in E. by apply Hv.
  - intros (op' & E & E' & _). rewrite Eu in E. simplify_eq. rewrite translate_op, Ho in E'. done.
  - exists v. split_and!; try done. apply marshal_unmarshal; [by apply vm_ok_adopt|done].
Qed.

Lemma wp_unreadable_put m key path op prev (Q : () -> World DB SM -> Prop) w :
  represents (w_db w) m ->
  (forall ops q w', represents (w_db w') (apply_batch (apply_batch m ops) q) -> Forall index_op ops ->
     (forall p, prev = Some p -> released p q) -> (prev = None -> q = []) -> frame w w' -> Q () w') ->
  wp (unreadable_put env cfg key path op prev) Q w.
Proof using Henv.
  intros Hm HQ. unfold unreadable_put. apply wp_bind.
  apply (wp_mono _ (fun _ w1 => exists ops, represents (w_db w1) (apply_batch m ops) /\ frame w w1 /\ Forall index_op ops)).
  - case_match; [|apply wp_ret; exists []; split_and!; [done|reflexivity|by apply Forall_nil_2]].
    unfold PrepareEntryForCompaction. apply wp_bind, wp_bind, wp_time_Now, wp_ret, wp_bind.
    eapply (wp_Write m); [exact Hm|by apply plain_regular; repeat constructor|..].
    + intros e db Hdb. apply wp_ret. exists []. split_and!; [done|by split; cbn; try done; lia|by apply Forall_nil_2].
    + intros db Hdb. apply wp_ret. eexists. split_and!; [exact Hdb|by split; cbn; try done; lia|].
      apply Forall_singleton, compaction_op.
  - intros _ w1 (ops & Hm1 & F1 & Ho). eapply wp_release; [exact Henv|exact Hm1|]. intros q w2 Hm2 F2 Hq Hn.
    eapply (HQ ops q); try done. frames.
Qed.

(** The bookkeeping after a row change keeps the rows, their size and the files. *)
Lemma aftermath m disk t prev ops q :
  ref_safe env cfg m disk t -> Forall index_op ops ->
  (forall p, prev = Some p -> released p q) -> (prev = None -> q = []) ->
  (forall p, prev = Some p -> ValueType p = RAW_FILE ->
     unreferenced m (RawFilePath p) /\ forall n, (t <= n)%nat -> RawFilePath p <> path_of env cfg n) ->
  let m' := apply_batch (apply_batch m ops) q in
  ref_safe env cfg m' disk t /\ live_size m' = live_size m
  /\ forall k, m' !! MakeMetadataKey k = m !! MakeMetadataKey k.
Proof.
  intros Hs Ho Hq Hn Hp m'. unfold m'. destruct prev as [p|].
  - specialize (Hq p eq_refl). split_and!.
    + eapply released_safe; [exact Hq|by apply ref_safe_index|]. intros Ht. destruct (Hp p eq_refl Ht) as [H1 H2].
      split; [|done]. eapply (unreferenced_ext m); [|done]. intros. by apply index_rows.
    + destruct Hq as [Hq|[_ Hq]]; [rewrite (index_ops_size _ q) by done; by apply index_ops_size|].
      rewrite (queue_ops_size _ (RawFilePath p)) by done. by apply index_ops_size.
    + intros k. rewrite (released_rows _ p) by done. by apply index_rows.
  - rewrite Hn by done. change (apply_batch (apply_batch m ops) []) with (apply_batch m ops).
    split_and!; [by apply ref_safe_index|by apply index_ops_size|intros; by apply index_rows].
Qed.

Lemma row_raw m key p : row_of m key = Some p -> ValueType p = RAW_FILE -> raw_at m key (RawFilePath p) (ValueLength p).
Proof. intros E Ht. exists p. split; [by apply row_at_of|done]. Qed.

(** Replacing the row: the invariant holds, and the old file is free. *)
Lemma replaced_row m disk t key v vm :
  ref_safe env cfg m disk t -> proto_Unmarshal v = Some vm ->
  (ValueType vm = RAW_FILE -> adoptable env cfg m disk t (RawFilePath vm) (ValueLength vm)) ->
  ref_safe env cfg (<[MakeMetadataKey key := v]> m) disk t
  /\ forall p, row_of m key = Some p -> ValueType p = RAW_FILE ->
       unreferenced (<[MakeMetadataKey key := v]> m) (RawFilePath p)
       /\ forall n, (t <= n)%nat -> RawFilePath p <> path_of env cfg n.
Proof.
  intros Hs Ev Ha. split.
  - apply ref_safe_put; [done|]. intros vm' E. rewrite Ev in E. simplify_eq. done.
  - intros p Ep Ht. pose proof (row_raw _ _ _ Ep Ht) as Hr. split; [|by eapply raw_not_future].
    eapply (unreferenced_put env cfg m disk t); [done|exact Hr|]. intros vm' E Et. rewrite Ev in E. simplify_eq.
    by apply Ha.
Qed.

Lemma insert_row m key v vm : proto_Unmarshal v = Some vm ->
  row_of (<[MakeMetadataKey key := v]> m) key = Some vm /\ other_rows m (<[MakeMetadataKey key := v]> m) key
  /\ live_size (<[MakeMetadataKey key := v]> m)
     = live_size m - match row_of m key with Some p => ValueLength p | None => 0 end + ValueLength vm.
Proof.
  intros E. split_and!.
  - unfold row_of. by rewrite lookup_insert_eq.
  - intros k Hk. apply lookup_insert_ne, MakeMetadataKey_ne. congruence.
  - rewrite (row_put_size _ _ _ vm) by done. do 2 f_equal.
    unfold entry_size, row_of, value_size, MakeMetadataKey. destruct (m !! _); cbn; [|done].
    by rewrite has_prefix_app.
Qed.

Lemma commit_cas_put_spec m key path op w :
  represents (w_db w) m -> ref_safe env cfg m (w_disk w) (w_tick w) ->
  vm_ok op -> OpType op = META_OP_CAS_PUT -> Version op <> 0 -> spill_ok m w op path ->
  wp (commit_cas_put env cfg key path op (CasExpectedVersion op)) (cas_post m w key op (CasExpectedVersion op)) w.
Proof using Henv PL.
  intros Hm Hs Hok Ho Hv Hp. unfold commit_cas_put. apply wp_bind. eapply wp_readRowForCAS; [exact Hm|..].
  { intros e db Hdb Hf. eapply abandon_put; [exact Hdb|auto with ocache|done|done|]. left. unfold store_failed. tauto. }
  intros db Hdb Hc. apply wp_bind, wp_casClassify. intros w1 F1 D1. cbn [w_tick set_db].
  set (now := env_now env (w_tick w)). destruct (classify_at (row_of m key) now) as [st cur] eqn:Ecl.
  assert (represents (w_db w1) m) as Hm1 by by rewrite D1. assert (frame w w1) as F by frames.
  destruct (casAdmits st cur (CasExpectedVersion op)) eqn:Ea; cbn [negb].
  2: { eapply abandon_put; [exact Hm1|done|done|done|]. right. by eexists (w_tick w), st, cur. }
  destruct (proto_Marshal (translate st (row_of m key) op)) as [operand|] eqn:Eo.
  2: { exfalso. destruct (marshal_total (translate st (row_of m key) op)) as [? ?]; [|congruence].
       apply translate_ok; [done|]. unfold row_of. intros p (v & _ & Ev)%bind_Some. by eapply unmarshal_ok. }
  destruct (merged_put m key now op operand) as (v & Ev & Em & Hreg); try done; [by rewrite Ecl..|].
  apply wp_bind. eapply (wp_Write_failing m); [exact Hm1|done|..].
  { intros e db' Hdb' Hf. eapply abandon_put; [exact Hdb'|frames|done|done|]. left. unfold store_failed. tauto. }
  intros db' Hdb'. rewrite Em in Hdb'. set (w2 := set_db db' w1).
  destruct (insert_row m key v (adopt op) Ev) as (Hrow & Hother & Hsize).
  destruct (replaced_row m (w_disk w) (w_tick w) key v (adopt op) Hs Ev) as [Hs2 Hfree].
  { cbn. unfold spill_ok in Hp. case_decide; [|done]. by destruct Hp as [_ ?]. }
  set (m2 := <[MakeMetadataKey key := v]> m) in *.
  assert (frame w w2) as F2 by frames.
  apply wp_bind. eapply wp_readRowForCASRetry; [exact Hdb'|..].
  - intros e db3 Hdb3 Hf. apply wp_bind. eapply wp_unreadable_put; [exact Hdb3|].
    intros ops q w4 Hm4 Hops Hq Hn F4. apply wp_ret.
    destruct (aftermath m2 (w_disk w) (w_tick w) (row_of m key) ops q) as (H1 & H2 & H3); try done.
    assert (quietly w w4) as Q by (destruct F2, F4; cbn in *; split; [congruence|lia]).
    eexists. split; [exact Hm4|]. split_and!; [by eapply ref_safe_quietly| |done|].
    + intros k Hk. rewrite H3. by apply Hother.
    + right. split; [unfold row_of; rewrite H3; exact Hrow|].
      destruct Hf as [|(b & Eb & Eb')]; [done|]. unfold m2 in Eb. rewrite lookup_insert_eq in Eb. congruence.
  - intros db3 Hdb3. rewrite Hrow. cbn [fmap option_fmap option_map]. rewrite translate_version.
    rewrite bool_decide_true by done. apply wp_bind.
    eapply (wp_finishWonCASPut env cfg Henv m2); [exact Hdb3|by eapply backrefs_of|].
    intros ops q w4 Hm4 Hops Hq Hn Q4 Hsz. apply wp_ret.
    destruct (aftermath m2 (w_disk w) (w_tick w) (row_of m key) ops q) as (H1 & H2 & H3); try done.
    assert (quietly w w4) as Q by (destruct F2, Q4; cbn in *; split; [congruence|lia]).
    eexists. split; [exact Hm4|]. split_and!; [by eapply ref_safe_quietly| |done|done|..].
    + intros k Hk. rewrite H3. by apply Hother.
    + unfold row_of. rewrite H3. exact Hrow.
    + unfold exact. intros E. rewrite H2, Hsize, Hsz. cbn [w_size set_db w2]. rewrite (fr_size _ _ F), E, i64_add_l.
      f_equal. assert (ValueLength (translate st (row_of m key) op) = ValueLength op) as ->
        by (unfold translate; by repeat case_match). cbn. lia.
Qed.

(** The row a conditional put of [data] leaves under the stamp [v]. *)
Definition put_row m w' (key data : bytes) (ttl v : Z) (t : nat) : Prop :=
  exists vm n, row_of m key = Some vm /\ Version vm = v /\ holds_value vm data (w_disk w')
    /\ ValueLength vm = slen data /\ (t <= n)%nat /\ Expiry vm = expiry_at cfg (env_now env n) ttl.

(** The row admits the expectation at the call's first clock reading. *)
Definition admitted m (key : bytes) (admits : casRowState -> Z -> bool) (t : nat) : Prop :=
  exists st cur, classify_at (row_of m key) (env_now env t) = (st, cur) /\ admits st cur = true.

Definition putif_post m w (key : bytes) (body : Body) (ttl expected : Z) (r : error + Z) w' : Prop :=
  exists m', represents (w_db w') m' /\ ref_safe env cfg m' (w_disk w') (w_tick w') /\ other_rows m m' key
    /\ match r with
       | inr v => admitted m key (fun st cur => casAdmits st cur expected) (w_tick w)
                  /\ body_ended cfg body /\ w_last w < v /\ put_row m' w' key (b_data body) ttl v (w_tick w)
                  /\ (exact m w -> exact m' w')
       | inl e =>
           (row_of m' key = row_of m key /\ (exact m w -> exact m' w')
              /\ (store_failed m key \/ io_failed env \/ b_err body <> None
                  \/ rejected m key "PutIfVersion" (fun st cur => casAdmits st cur expected) (w_tick w) e))
           \/ (exists v, put_row m' w' key (b_data body) ttl v (w_tick w)) /\ read_failed (DB := DB)
       end.

(** Nothing but the stamp reservation happened so far. *)
Definition so_far m w m1 w1 : Prop :=
  represents (w_db w1) m1 /\ ref_safe env cfg m1 (w_disk w1) (w_tick w1)
  /\ (w_tick w <= w_tick w1)%nat /\ w_size w1 = w_size w /\ live_size m1 = live_size m
  /\ forall k, m1 !! MakeMetadataKey k = m !! MakeMetadataKey k.

Lemma so_far_row m w m1 w1 key : so_far m w m1 w1 -> row_of m1 key = row_of m key.
Proof. intros (_ & _ & _ & _ & _ & E). unfold row_of. by rewrite E. Qed.

Lemma so_far_stop m w m1 w1 key body ttl expected e :
  so_far m w m1 w1 ->
  store_failed m key \/ io_failed env \/ b_err body <> None
    \/ rejected m key "PutIfVersion" (fun st cur => casAdmits st cur expected) (w_tick w) e ->
  putif_post m w key body ttl expected (inl e) w1.
Proof.
  intros H He. pose proof (so_far_row _ _ _ _ key H) as Er. destruct H as (H1 & H2 & H3 & H4 & H5 & H6).
  exists m1. split_and!; [done|done|by intros k _|]. left. split_and!; [done| |done].
  unfold exact. by rewrite H4, H5.
Qed.

(** From the commit of the operand to the whole call. *)
Lemma commit_to_put m w m1 w1 key body ttl op n r w' :
  so_far m w m1 w1 -> cas_post m1 w1 key op (CasExpectedVersion op) r w' ->
  admitted m key (fun st cur => casAdmits st cur (CasExpectedVersion op)) (w_tick w) -> body_ended cfg body ->
  w_last w < Version op -> holds_value (adopt op) (b_data body) (w_disk w1) -> ValueLength op = slen (b_data body) ->
  (w_tick w <= n)%nat -> Expiry op = expiry_at cfg (env_now env n) ttl ->
  putif_post m w key body ttl (CasExpectedVersion op) r w'.
Proof.
  intros H (m' & P1 & P2 & P3 & P4 & P5) Had Hb Hl Hh Hlen Hn He.
  pose proof (so_far_row _ _ _ _ key H) as Er. destruct H as (_ & _ & H3 & H4 & H5 & H6).
  assert (row_of m' key = Some (adopt op) -> put_row m' w' key (b_data body) ttl (Version op) (w_tick w)) as Hrow.
  { intros E. exists (adopt op), n. split_and!; try done. by rewrite (proj1 P4). }
  assert ((exact m1 w1 -> exact m' w') -> exact m w -> exact m' w') as Hex.
  { intros Hx E. apply Hx. unfold exact in *. by rewrite H4, H5. }
  exists m'. split_and!; [done|done|intros k Hk; by rewrite P3|]. destruct r as [e|v].
  - destruct P5 as [(Q1 & Q2 & Q3)|[Q1 Q2]]; [left|right; by eauto].
    split_and!; [congruence|by apply Hex|]. destruct Q3 as [Q3|(n' & st & cur & E1 & E2 & E3 & E4)].
    + left. unfold store_failed, corrupt in *. by setoid_rewrite H6 in Q3.
    + right; right; right. exists n', st, cur. rewrite <- Er. split_and!; try done. lia.
  - destruct P5 as (-> & Q2 & Q3). split_and!; auto.
Qed.

Lemma PutIfVersion_spec m key body ttl expected w :
  represents (w_db w) m -> ref_safe env cfg m (w_disk w) (w_tick w) ->
  slen (b_data body) < two63 -> is_u64 expected -> stamp_room w ->
  wp (PutIfVersion env cfg key body ttl expected) (putif_post m w key body ttl expected) w.
Proof using Henv PL.
  intros Hm Hs Hd Hx Hroom. unfold PutIfVersion.
  assert (forall w1, frame w w1 -> represents (w_db w1) m -> so_far m w m w1) as Hfar.
  { intros w1 F Hm1. split_and!; try done; [|by destruct F..].
    by eapply ref_safe_quietly; [apply frame_quietly|]. }
  apply wp_bind. eapply wp_readRowForCAS; [exact Hm|..].
  { intros e db Hdb Hf. apply wp_ret. eapply so_far_stop; [by apply Hfar; [auto with ocache|]|].
    left. unfold store_failed. tauto. }
  intros db Hdb Hc. apply wp_bind, wp_casClassify. intros w1 F1 D1. cbn [w_tick set_db].
  destruct (classify_at (row_of m key) (env_now env (w_tick w))) as [st cur] eqn:Ecl.
  assert (represents (w_db w1) m) as Hm1 by by rewrite D1. assert (frame w w1) as F by frames.
  destruct (casAdmits st cur expected) eqn:Ea; cbn [negb].
  2: { apply wp_ret. eapply so_far_stop; [by apply Hfar|]. right; right; right. by eexists (w_tick w), st, cur. }
  assert (admitted m key (fun st cur => casAdmits st cur expected) (w_tick w)) as Had by by exists st, cur.
  destruct (ReadFull body (firstReadSize cfg)) as [[chunk err] rest] eqn:Er.
  apply ReadFull_spec in Er as Er'. destruct Er' as (Hbd & He & Hsmall & Hfail).
  pose proof (threshold_pos _ _ Henv) as Ht.
  destruct err as [e|].
  { apply wp_ret. eapply so_far_stop; [by apply Hfar|]. right; right; left.
    by apply Hfail. }
  pose proof (expiry_at_i64 env cfg Henv (w_tick w1) ttl) as Hexp.
  apply wp_bind, wp_expiry_of. intros w2 F2 D2. set (expiry := expiry_at _ _ _) in *.
  assert (frame w w2) as F' by frames. assert (represents (w_db w2) m) as Hm2 by by rewrite D2.
  apply wp_bind. eapply wp_nextVersion; [exact Hm2|..].
  { intros e w3 Hm3 C3 Hf. apply wp_ret. eapply (so_far_stop m w m w3).
    - destruct C3, F'. split_and!; try done; [|lia|congruence]. eapply ref_safe_quietly; [|exact Hs]. split; [congruence|lia].
    - left. unfold store_failed. tauto. }
  intros ops w3 Hm3 Hops C3 Hlast. destruct (stamp_at_ok env w2) as [Hv1 Hv2].
  { unfold stamp_room. by rewrite (fr_last _ _ F'). }
  rewrite (fr_last _ _ F') in Hv2. set (v := stamp_at env w2) in *.
  assert (Version (cas_put_operand expiry v expected) <> 0) as Hv0 by (cbn; unfold stamp_room in Hroom; lia).
  assert (so_far m w (apply_batch m ops) w3) as Hfar3.
  { destruct C3, F'. split_and!; try done; [|lia|congruence|by apply index_ops_size|intros; by apply index_rows].
    apply ref_safe_index; [|done]. eapply ref_safe_quietly; [|exact Hs]. split; [congruence|lia]. }
  set (m3 := apply_batch m ops) in *. destruct (Hfar3) as (_ & Hs3 & Ht3 & _).
  assert (w_tick w <= w_tick w1)%nat as Htick by apply F.
  destruct (Z.ltb_spec (inlineThreshold cfg) (slen chunk)) as [Hch|Hch].
  - assert (joinPrefix chunk rest = body) as -> by (unfold joinPrefix; rewrite Hbd, He; by destruct body).
    assert (0 < slen (b_data body)) as Hpos.
    { apply (f_equal slen) in Hbd. unfold slen in *. rewrite slength_app in Hbd. lia. }
    apply wp_bind, wp_fm_Write.
    + intros e d w4 Hdisk F4 D4 Hio. apply wp_ret. eapply (so_far_stop m w m3 w4); [|tauto].
      destruct Hfar3 as (H1 & H2 & H3 & H4 & H5 & H6). pose proof F4 as F4'. destruct F4. cbn in *.
      split_and!; try done; [by rewrite D4| |lia|congruence]. rewrite fr_disk. by eapply ref_safe_failed_write.
    + intros w4 Hberr F4 D4. set (p := path_of env cfg (w_tick w3)) in *.
      set (op := with_raw p _ _ _). destruct (fresh_adoptable env cfg Henv m3 w3 w4 (b_data body) Hs3 F4) as [Hs4 Ha4].
      apply wp_bind, wp_fun. cbn. set (w5 := set_inflight _ w4). apply wp_bind.
      assert (so_far m w m3 w5) as Hfar5.
      { destruct Hfar3 as (H1 & _ & H3 & H4 & H5 & H6). destruct F4. cbn in *.
        split_and!; cbn; try done; [by rewrite D4|lia|congruence]. }
      eapply wp_mono; [eapply (commit_cas_put_spec m3 key p op w5)|].
      * apply Hfar5.
      * done.
      * split; cbn; try done; unfold RAW_FILE, META_OP_CAS_PUT; unfold_ints; try lia; [apply (path_utf8 _ _ Henv)|apply crc32_u32].
      * done.
      * done.
      * unfold spill_ok. by rewrite decide_True.
      * intros r w6 Hpost. apply wp_bind, wp_fun, wp_ret. cbn.
        assert (putif_post m w key body ttl expected r w6) as (m' & G1 & G2 & G3 & G4).
        { eapply (commit_to_put m w m3 w5 key body ttl op (w_tick w1)); try done; [by left|].
          right. cbn. split_and!; try done; [unfold p, path_of, filepath_Join; by destruct (filesPath cfg)|].
          rewrite (fr_disk _ _ F4). cbn. apply lookup_insert_eq. }
        exists m'. split_and!; try done.
  - destruct Hsmall as [-> Hberr].
    { unfold firstReadSize, slen in *. case_match; lia. }
    set (op := with_inline _ _).
    eapply wp_mono; [eapply (commit_cas_put_spec m3 key EmptyString op w3)|]; try done.
    + split; cbn; try done; unfold INLINE, META_OP_CAS_PUT; unfold_ints; unfold slen in *; lia.
    + intros r w4 Hpost. eapply (commit_to_put m w m3 w3 key body ttl op (w_tick w1)); try done; [|by left].
      destruct (Hberr eq_refl); [by left|by right].
Qed.

End Put.

(** ** DeleteIfVersion *)

Section Delete.

Context {DB SM : Type} {PB : Protobuf} {PL : ProtobufLaws} {RDB : RocksDB DB} {RL : RocksLaws DB}.
Context {SS : SegmentStore SM} (env : Env) (cfg : Config) (Henv : env_ok env cfg).
(** The check [init] of operator.go makes at start-up. *)
Context (init_ok : proto_Marshal (tombstone 0) = Some expiredSentinel).
Implicit Types w : World DB SM.
Implicit Types m : gmap bytes bytes.

(** The entry a back-reference names, whose deletion touches neither rows nor queue. *)
Definition dead_entry_ok (e : option bytes) : Prop := forall k, e = Some k -> quiet_key k = true.

Lemma wp_evictionEntryFor m key (Q : option bytes -> World DB SM -> Prop) w :
  represents (w_db w) m -> backrefs_ok m ->
  (forall e db, represents db m -> dead_entry_ok e -> Q e (set_db db w)) ->
  wp (evictionEntryFor cfg key) Q w.
Proof.
  intros Hm Hb HQ. unfold evictionEntryFor. apply wp_bind. eapply wp_Get; [exact Hm|..].
  - intros e db Hdb. apply wp_ret. by apply HQ.
  - intros db Hdb. apply wp_ret. apply HQ; [done|]. intros k E. repeat case_match; simplify_eq.
    apply index_entry_quiet. eapply Hb; [done|apply backrefKey_ok].
Qed.

Lemma wp_dropDeadEvictionGeneration m key cutoff dead (Q : () -> World DB SM -> Prop) w :
  represents (w_db w) m -> backrefs_ok m -> dead_entry_ok dead ->
  (forall ops w', represents (w_db w') (apply_batch m ops) -> Forall index_op ops -> frame w w' -> Q () w') ->
  wp (dropDeadEvictionGeneration cfg key cutoff dead) Q w.
Proof.
  intros Hm Hb Hd HQ. unfold dropDeadEvictionGeneration.
  set (b1 := match dead with Some e => [BDelete e] | None => [] end).
  assert (Forall index_op b1) as Hb1.
  { unfold b1. destruct dead as [e|]; [|by apply Forall_nil_2]. apply Forall_singleton. by apply Hd. }
  clearbody b1.
  assert (forall ops w1, represents (w_db w1) m -> frame w w1 -> Forall index_op ops ->
    wp (match ops with [] => mret () | _ => _ ← Write_ ops; mret () end) Q w1) as K.
  { intros ops w1 Hm1 F Ho. destruct ops as [|o ops]; [apply wp_ret; by apply (HQ [])|].
    apply wp_bind. eapply (wp_Write m); [exact Hm1|by apply plain_regular, index_op_plain|..].
    - intros e db Hdb. apply wp_ret. apply (HQ []); [done|by apply Forall_nil_2|frames].
    - intros db Hdb. apply wp_ret. eapply HQ; [exact Hdb|done|frames]. }
  apply wp_bind. eapply wp_Get; [exact Hm|..].
  - intros e db Hdb. rewrite app_nil_r. apply K; [done|auto with ocache|done].
  - intros db Hdb. apply K; [done|auto with ocache|]. apply Forall_app. split; [done|].
    pose proof (backrefKey_ok cfg key) as Hk.
    destruct (m !! backrefKey cfg key) as [cur|] eqn:E; [|by apply Forall_nil_2].
    destruct (evictionEntryTime cur); [|by apply Forall_nil_2]. case_match; [|by apply Forall_nil_2].
    repeat (apply Forall_cons; split); try apply Forall_nil_2; cbn.
    + apply index_entry_quiet. by eapply Hb.
    + by apply backref_quiet.
Qed.

(** The rows after an admitted delete. A row stored as empty bytes (a plain put of
    an empty value) is one the operator does not see: it becomes the unstamped
    tombstone. *)
Lemma merged_delete m key now op operand :
  ~ corrupt m key -> vm_ok op -> OpType op = META_OP_CAS_DELETE -> Version op <> 0 ->
  delete_admits (classify_at (row_of m key) now).1 (classify_at (row_of m key) now).2 (CasExpectedVersion op) = true ->
  proto_Marshal (translate (classify_at (row_of m key) now).1 (row_of m key) op) = Some operand ->
  exists v, proto_Unmarshal v
      = Some (tombstone (if decide (m !! MakeMetadataKey key = Some EmptyString) then 0 else Version op))
    /\ apply_batch m [BMerge (MakeMetadataKey key) operand] = <[MakeMetadataKey key := v]> m
    /\ batch_regular m [BMerge (MakeMetadataKey key) operand].
Proof using PL init_ok.
  intros Hc Hok Ho Hv Ha Eo.
  assert (forall p, row_of m key = Some p -> vm_ok p) as Hrow.
  { unfold row_of. intros p (v & _ & Ev)%bind_Some. by eapply unmarshal_ok. }
  apply marshal_unmarshal in Eo as Eu; [|by apply translate_ok].
  assert (0 <= CasExpectedVersion op) as Hx by (by destruct Hok as [? ? ? ? ? ? ? ? ? []]).
  pose proof (admitted_delete_applies now (row_of m key) op Ho Hx Ha) as H1.
  set (vm := tombstone _).
  assert (vm_ok vm) as Hvm. { unfold vm. case_decide; [auto with ocache|]. apply vm_ok_tombstone, Hok. }
  destruct (merge_row m key operand (default EmptyString (m !! MakeMetadataKey key)) vm) as (v & E1 & E2 & E3); try done.
  - unfold vm. case_decide as Hd.
    + unfold row_of in Ha, Eo, Eu. rewrite Hd in *. cbn in *. rewrite unmarshal_empty in *. cbn in Ha, Eo, Eu.
      rewrite (merge_one _ None _ _ Eu) by by left. unfold apply_operand. rewrite Ho. cbn.
      by destruct (CasExpectedVersion op) as [|[]|].
    + rewrite (merge_one _ (row_of m key) _ _ Eu); [by rewrite H1|]. unfold row_of, corrupt in *.
      destruct (m !! MakeMetadataKey key) as [b|]; cbn in *; [|by left]. right. split_and!; [congruence|done|].
      intros E. apply Hc. by exists b.
  - intros (op' & E & _ & Hx') Es. rewrite Eu in E. simplify_eq. apply Hx'.
    unfold row_of in Ha |- *. rewrite Es in *. cbn in *. rewrite (unmarshal_sentinel init_ok) in *. cbn in *. by bool_facts.
  - exists v. split_and!; try done. by apply marshal_unmarshal.
Qed.

Definition deleteif_post m w (key : bytes) (expected : Z) (r : option error) w' : Prop :=
  exists m', represents (w_db w') m' /\ ref_safe env cfg m' (w_disk w') (w_tick w') /\ other_rows m m' key
    /\ match r with
       | None => admitted env m key (fun st cur => delete_admits st cur expected) (w_tick w)
                 /\ m !! MakeMetadataKey key <> Some EmptyString
                 /\ (exists v, w_last w < v /\ row_of m' key = Some (tombstone v)) /\ (exact m w -> exact m' w')
       | Some e =>
           (row_of m' key = row_of m key /\ (exact m w -> exact m' w')
              /\ (store_failed (DB := DB) m key
                  \/ rejected env m key "DeleteIfVersion" (fun st cur => delete_admits st cur expected) (w_tick w) e))
           \/ (exists v, row_of m' key = Some (tombstone v)) /\ read_failed (DB := DB)
           \/ row_of m' key = Some (tombstone 0) /\ m !! MakeMetadataKey key = Some EmptyString
              /\ e = NewVersionMismatchError "DeleteIfVersion" key 0
       end.

Lemma delete_stop m w m1 w1 key expected e :
  so_far env cfg m w m1 w1 ->
  store_failed (DB := DB) m key
    \/ rejected env m key "DeleteIfVersion" (fun st cur => delete_admits st cur expected) (w_tick w) e ->
  deleteif_post m w key expected (Some e) w1.
Proof.
  intros H He. pose proof (so_far_row _ _ _ _ _ _ key H) as Er. destruct H as (H1 & H2 & H3 & H4 & H5 & H6).
  exists m1. split_and!; [done|done|by intros k _|]. left. split_and!; [done| |done].
  unfold exact. by rewrite H4, H5.
Qed.

(** The steps after the merge of a delete, from the rows [m2] it left. *)
Lemma after_delete m w key expected prev stamp cutoff dead m2 w2 vm2 :
  represents (w_db w2) m2 -> ref_safe env cfg m2 (w_disk w2) (w_tick w2) ->
  (w_tick w <= w_tick w2)%nat -> w_size w2 = w_size w -> w_last w < stamp ->
  row_of m2 key = Some vm2 -> other_rows m m2 key -> dead_entry_ok dead ->
  live_size m2 = live_size m - match prev with Some p => ValueLength p | None => 0 end ->
  (forall p, prev = Some p -> ValueType p = RAW_FILE ->
     unreferenced m2 (RawFilePath p) /\ forall n, (w_tick w2 <= n)%nat -> RawFilePath p <> path_of env cfg n) ->
  (vm2 = tombstone stamp /\ m !! MakeMetadataKey key <> Some EmptyString
   \/ vm2 = tombstone 0 /\ 0 < stamp /\ m !! MakeMetadataKey key = Some EmptyString) ->
  admitted env m key (fun st cur => delete_admits st cur expected) (w_tick w) ->
  wp (r ← readRowForCASRetry (MakeMetadataKey key);
      match r with
      | inl err =>
          _ ← match prev with Some p => reclaimReplacedValue env p | None => mret () end;
          mret (Some (mapRocksDBError "DeleteIfVersion" key err))
      | inr None => mret (Some (NewVersionMismatchError "DeleteIfVersion" key 0))
      | inr (Some got) =>
          if Version got =? stamp then
            _ ← match prev with
                | Some p => _ ← reclaimReplacedValue env p; notifyDelete (ValueLength p)
                | None => mret ()
                end;
            _ ← dropDeadEvictionGeneration cfg key cutoff dead;
            mret None
          else
            v ← currentVersionOf env (Some got);
            mret (Some (NewVersionMismatchError "DeleteIfVersion" key v))
      end) (deleteif_post m w key expected) w2.
Proof using Henv PL.
  intros Hm Hs Ht Hsz Hst Hrow Hother Hdead Hlive Hfree Hvm Had.
  apply wp_bind. eapply wp_readRowForCASRetry; [exact Hm|..].
  - intros e db Hdb Hf. apply wp_bind. eapply wp_release; [exact Henv|exact Hdb|].
    intros q w3 Hm3 F3 Hq Hn. apply wp_ret.
    destruct (aftermath env cfg m2 (w_disk w2) (w_tick w2) prev [] q) as (H1 & H2 & H3); try done.
    exists (apply_batch m2 q). split_and!; [done| |intros k Hk; rewrite H3; by apply Hother|].
    { eapply ref_safe_quietly; [|exact H1]. destruct F3. by split. }
    right; left. split.
    + unfold row_of. rewrite H3. fold (row_of m2 key). rewrite Hrow. destruct Hvm as [[-> _]|[-> _]]; eauto.
    + destruct Hf as [|(b & Eb & Eb')]; [done|]. unfold row_of in Hrow. rewrite Eb in Hrow. cbn in Hrow. congruence.
  - intros db Hdb. rewrite Hrow. destruct Hvm as [[-> Hne]|(-> & Hpos & He)].
    + cbn [Version tombstone vm_expiry_version]. rewrite Z.eqb_refl. apply wp_bind.
      apply (wp_mono _ (fun _ w3 => exists q, represents (w_db w3) (apply_batch m2 q) /\ quietly w2 w3
        /\ (forall p, prev = Some p -> released p q) /\ (prev = None -> q = [])
        /\ (exact m w -> w_size w3 = i64 (live_size m2)))).
      { unfold exact. rewrite Hlive. destruct prev as [p|].
        - apply wp_bind. eapply wp_reclaimReplacedValue; [exact Henv|exact Hdb|]. intros q w3 Hm3 F3 Hq.
          apply wp_UpdateSize. exists q. split_and!; try done; [by destruct F3|by intros ? [= <-]|].
          intros E. cbn. rewrite (fr_size _ _ F3). cbn. rewrite Hsz, E, i64_add_l. done.
        - apply wp_ret. exists []. split_and!; try done. intros E. cbn. rewrite Hsz, E. f_equal. lia. }
      intros _ w3 (q & Hm3 & Q3 & Hq & Hn & Hx).
      destruct (aftermath env cfg m2 (w_disk w2) (w_tick w2) prev [] q) as (H1 & H2 & H3); try done.
      cbn in H1, H2, H3. apply wp_bind.
      eapply wp_dropDeadEvictionGeneration; [exact Hm3|by eapply backrefs_of|done|].
      intros ops w4 Hm4 Hops F4. apply wp_ret. eexists. split; [exact Hm4|].
      assert (forall k, apply_batch (apply_batch m2 q) ops !! MakeMetadataKey k = m2 !! MakeMetadataKey k) as Er.
      { intros k. rewrite index_rows by done. apply H3. }
      split_and!.
      * eapply ref_safe_quietly; [|by apply ref_safe_index]. destruct Q3, F4. split; [congruence|lia].
      * intros k Hk. rewrite Er. by apply Hother.
      * done.
      * done.
      * exists stamp. split; [done|]. unfold row_of. by rewrite Er.
      * intros E. unfold exact. rewrite (index_ops_size _ ops), H2 by done. rewrite (fr_size _ _ F4). by apply Hx.
    + assert ((Version (tombstone 0) =? stamp) = false) as -> by (apply Z.eqb_neq; cbn; lia).
      apply wp_bind. unfold currentVersionOf. apply wp_bind, wp_casClassify. intros w3 F3 D3.
      cbn. apply wp_ret, wp_ret. exists m2. rewrite D3. split_and!; try done.
      * eapply ref_safe_quietly; [|exact Hs]. by destruct F3.
      * right; right. done.
Qed.

Lemma DeleteIfVersion_spec m key expected w :
  represents (w_db w) m -> ref_safe env cfg m (w_disk w) (w_tick w) -> is_u64 expected -> stamp_room w ->
  wp (DeleteIfVersion env cfg key expected) (deleteif_post m w key expected) w.
Proof using Henv PL init_ok.
  intros Hm Hs Hx Hroom. unfold DeleteIfVersion.
  assert (forall w1, frame w w1 -> represents (w_db w1) m -> so_far env cfg m w m w1) as Hfar.
  { intros w1 F Hm1. split_and!; try done; [|by destruct F..].
    by eapply ref_safe_quietly; [apply frame_quietly|]. }
  apply wp_bind. eapply wp_readRowForCAS; [exact Hm|..].
  { intros e db Hdb Hf. apply wp_ret. eapply delete_stop; [by apply Hfar; [auto with ocache|]|].
    left. unfold store_failed. tauto. }
  intros db Hdb Hc. apply wp_bind, wp_casClassify. intros w1 F1 D1. cbn [w_tick set_db].
  set (now := env_now env (w_tick w)). destruct (classify_at (row_of m key) now) as [st cur] eqn:Ecl.
  assert (represents (w_db w1) m) as Hm1 by by rewrite D1. assert (frame w w1) as F by frames.
  destruct (delete_admits st cur expected) eqn:Ea; cbn [negb].
  2: { apply wp_ret. eapply delete_stop; [by apply Hfar|]. right. by eexists (w_tick w), st, cur. }
  apply wp_bind. eapply wp_evictionEntryFor; [exact Hm1|by eapply backrefs_of|]. intros dead db2 Hdb2 Hdead.
  set (w2 := set_db db2 w1). assert (frame w w2) as F2 by frames.
  apply wp_bind. eapply wp_nextVersion; [exact Hdb2|..].
  { intros e w3 Hm3 C3 Hf. apply wp_ret. eapply (delete_stop m w m w3).
    - destruct C3, F2. split_and!; try done; [|lia|congruence]. eapply ref_safe_quietly; [|exact Hs]. split; [congruence|lia].
    - left. unfold store_failed. tauto. }
  intros ops w3 Hm3 Hops C3 Hlast. destruct (stamp_at_ok env w2) as [Hv1 Hv2].
  { unfold stamp_room. by rewrite (fr_last _ _ F2). }
  rewrite (fr_last _ _ F2) in Hv2. set (v := stamp_at env w2) in *.
  set (op := cas_delete_operand v expected). assert (Version op <> 0) as Hv0 by (cbn; unfold stamp_room in Hroom; lia).
  assert (so_far env cfg m w (apply_batch m ops) w3) as Hfar3.
  { destruct C3, F2. split_and!; try done; [|lia|congruence|by apply index_ops_size|intros; by apply index_rows].
    apply ref_safe_index; [|done]. eapply ref_safe_quietly; [|exact Hs]. split; [congruence|lia]. }
  set (m3 := apply_batch m ops) in *. pose proof (so_far_row _ _ _ _ _ _ key Hfar3) as Er3.
  assert (vm_ok op) as Hok by (split; cbn; try done; unfold INLINE, META_OP_CAS_DELETE; unfold_ints; lia).
  destruct (proto_Marshal (translate st (row_of m key) op)) as [operand|] eqn:Eo.
  2: { exfalso. destruct (marshal_total (translate st (row_of m key) op)) as [? ?]; [|congruence].
       apply translate_ok; [done|]. unfold row_of. intros p (b & _ & Ev)%bind_Some. by eapply unmarshal_ok. }
  destruct Hfar3 as (_ & Hs3 & Ht3 & Hsz3 & Hlive3 & Hrows3).
  destruct (merged_delete m3 key now op operand) as (b & Eb & Em & Hreg); try done;
    [unfold corrupt; by rewrite Hrows3|rewrite Er3, Ecl; done..|].
  apply wp_bind, wp_time_Now, wp_bind.
  eapply (wp_Write_failing m3); [exact Hm3|done|..].
  { intros e db' Hdb' Hf. apply wp_ret. eapply (delete_stop m w m3); [|left; unfold store_failed; tauto].
    split_and!; try done; cbn; [|lia]. eapply ref_safe_tick; [apply Nat.le_succ_diag_r|]. done. }
  intros db' Hdb'. rewrite Em in Hdb'.
  destruct (insert_row m3 key b _ Eb) as (Hrow & Hother & Hsize).
  destruct (replaced_row env cfg m3 (w_disk w3) (w_tick w3) key b _ Hs3 Eb) as [Hs4 Hfree]; [done|].
  rewrite Er3 in Hsize, Hfree.
  eapply (after_delete m w key expected (row_of m key) v _ dead); [exact Hdb'|..]; cbn; try done.
  - eapply ref_safe_tick; [apply Nat.le_succ_diag_r|]. exact Hs4.
  - lia.
  - intros k Hk. rewrite Hother by done. apply Hrows3.
  - rewrite Hsize. cbn. lia.
  - intros p Hp1 Hp2. destruct (Hfree p Hp1 Hp2) as [H1 H2]. split; [done|]. intros n Hn. apply H2. lia.
  - rewrite Hrows3. destruct (decide (m !! MakeMetadataKey key = Some EmptyString)) as [Hd|Hd]; [right|by left].
    split_and!; [done|unfold stamp_room in Hroom; lia|done].
  - by exists st, cur.
Qed.

End Delete.
