(* ===== verification/CasProps.v ===== *)
(** * Properties of the conditional operations

    The compare-and-swap contract: a put succeeds exactly when the row admits the
    caller's expectation, what it stored reads back under the new version, and a
    delete fences out every older observation. *)

From S2P Require Import Prelude Version Keys Errors Message Merge Wire Rocks World Files RangeReader Storage Wp Safety StorageSpec StorageProps LiveSize SizeProps Cas CasSpec.

Open Scope Z_scope.

#[local] Arguments has_prefix : simpl never.
#[local] Arguments crc32 : simpl never.

(** The operands of [PutIfVersion] and [DeleteIfVersion] are those [merge_preserves_row_wf]
    is about, whatever expectation they are translated to. *)
Lemma cas_put_operand_wf expiry stamp expected state prev spilled data checksum n :
  expiry <> tombstoneExpiry -> spilled <> EmptyString ->
  operand_wf (translate state prev (with_inline data (cas_put_operand expiry stamp expected)))
  /\ operand_wf (translate state prev (with_raw spilled checksum n (cas_put_operand expiry stamp expected))).
Proof. intros He Hs. split; left; unfold translate; repeat case_match; cbn; split_and!; naive_solver. Qed.

Lemma cas_delete_operand_wf stamp expected state prev : operand_wf (translate state prev (cas_delete_operand stamp expected)).
Proof. right. left. unfold translate. by repeat case_match. Qed.

Section CasProps.

Context {DB SM : Type} {PB : Protobuf} {PL : ProtobufLaws} {RDB : RocksDB DB} {RL : RocksLaws DB}.
Context {SS : SegmentStore SM} (env : Env) (cfg : Config) (Henv : env_ok env cfg).
Implicit Types w : World DB SM.
Implicit Types m : gmap bytes bytes.

(** ** Reading a row with its version *)

(** Reading a row that holds [data]. *)
Lemma GetWithVersion_live m key vm data w :
  represents (w_db w) m -> row_of m key = Some vm -> holds_value vm data (w_disk w) -> Version vm <> 0 ->
  wp (GetWithVersion env cfg key) (fun r _ =>
    match r with
    | inr (Some d, v, true) => d = data /\ v = Version vm
    | inr (None, _, false) =>
        Expiry vm = tombstoneExpiry \/ expired_at (Expiry vm) (env_now env (w_tick w)) = true
    | inr _ => False
    | inl _ => read_failed (DB := DB) \/ write_failed (DB := DB) \/ io_failed env
    end) w.
Proof.
  intros Hm Hrow Hh Hv. unfold GetWithVersion. apply wp_bind. eapply wp_readRowForCAS; [exact Hm|..].
  { intros e db Hdb [Hf|(v & Ev & Eu)]; apply wp_ret; [by left|]. unfold row_of in Hrow. rewrite Ev in Hrow.
    cbn in Hrow. congruence. }
  intros db Hdb _. rewrite Hrow. apply wp_bind, wp_casClassify. intros w1 F1 D1. cbn [w_tick set_db classify_at].
  assert (represents (w_db w1) m) as Hm1 by by rewrite D1.
  assert (forall st cur (w2 : World DB SM), represents (w_db w2) m ->
    Expiry vm = tombstoneExpiry \/ expired_at (Expiry vm) (env_now env (w_tick w)) = true ->
    wp (token ← absenceToken env st cur;
        match token with
        | inl err => mret (inl (NewInternalError "GetWithVersion" err))
        | inr t => mret (inr (None, t, false))
        end) (fun r _ =>
      match r with
      | inr (Some d, v, true) => d = data /\ v = Version vm
      | inr (None, _, false) =>
          Expiry vm = tombstoneExpiry \/ expired_at (Expiry vm) (env_now env (w_tick w)) = true
      | inr _ => False
      | inl _ => read_failed (DB := DB) \/ write_failed (DB := DB) \/ io_failed env
      end) w2) as Habs.
  { intros st cur w2 Hm2 Hd. apply wp_bind. destruct st; cbn [absenceToken]; [| by apply wp_ret, wp_ret|];
      (eapply wp_nextVersion; [exact Hm2|intros; apply wp_ret; tauto|intros; by apply wp_ret]). }
  destruct (Expiry vm =? tombstoneExpiry) eqn:Et.
  { bool_facts. destruct (Version vm =? 0); apply Habs; auto. }
  destruct (expired_at _ _) eqn:Ex; [apply Habs; auto|].
  assert (EffectiveRowVersion (Some vm) = Version vm) as ->.
  { cbn. rewrite Et. by destruct (Z.eqb_spec (Version vm) 0). }
  apply wp_bind, wp_refresh_access. intros w2 [Q2 _] _ _.
  destruct Hh as [[Ht Hd]|(Ht & Hp & Hl & Hlen & Hd)]; rewrite Ht; cbn [Z.eqb INLINE RAW_FILE SEGMENT Pos.eqb].
  { by apply wp_ret. }
  apply wp_bind. rewrite Hlen.
  eapply wp_mono; [apply fm_Read_spec; [done|done|by rewrite Q2, (fr_disk _ _ F1)]|].
  intros [e|ob] w3 Hr; [|subst ob; by apply wp_ret]. cbn in Hr. assert (io_failed env) by (destruct Hr as [f Ef]; by eexists _, _). repeat case_match; apply wp_ret; tauto.
Qed.

(** A conditional put reads back under its version. After [PutIfVersion] returned
    the version [v], [GetWithVersion] of the key returns exactly the bytes put and
    [v] itself; the key reads as absent only once its expiry has passed (or an
    overflowing TTL produced the tombstone's expiry), and an error is returned only
    if the store or a system call fails. *)
Theorem cas_put_get_roundtrip m key body ttl expected w v w1 r w2 :
  represents (w_db w) m -> ref_safe env cfg m (w_disk w) (w_tick w) -> slen (b_data body) < two63 ->
  is_u64 expected -> stamp_room w ->
  PutIfVersion env cfg key body ttl expected w = (inr v, w1) -> GetWithVersion env cfg key w1 = (r, w2) ->
  match r with
  | inr (Some d, v', true) => d = b_data body /\ v' = v
  | inr (None, _, false) => exists n, (w_tick w <= n)%nat /\
      let expiry := expiry_at cfg (env_now env n) ttl in
      expiry = tombstoneExpiry \/ expired_at expiry (env_now env (w_tick w1)) = true
  | inr _ => False
  | inl _ => read_failed (DB := DB) \/ write_failed (DB := DB) \/ io_failed env
  end.
Proof using Henv PL.
  intros Hm Hs Hd Hx Hroom Ep Eg.
  destruct (wp_run _ _ _ _ _ Ep (PutIfVersion_spec env cfg Henv m key body ttl expected w Hm Hs Hd Hx Hroom))
    as (m' & Hm' & _ & _ & _ & _ & Hlast & (vm & n & Hrow & Hv & Hh & _ & Hn & He) & _).
  assert (Version vm <> 0) as Hv0 by (unfold stamp_room in Hroom; lia).
  pose proof (wp_run _ _ _ _ _ Eg (GetWithVersion_live m' key vm (b_data body) w1 Hm' Hrow Hh Hv0)) as Hr.
  cbn beta in Hr. rewrite He, Hv in Hr. destruct r as [|[[[d|] t] []]]; try done. exists n. by split.
Qed.

(** ** A put succeeds exactly when it is admitted *)

Context (clock_mono : forall a b, (a <= b)%nat -> env_now env a <= env_now env b).

Lemma expired_mono e a b : (a <= b)%nat -> expired_at e (env_now env a) = true -> expired_at e (env_now env b) = true.
Proof using clock_mono.
  intros Hab. unfold expired_at. rewrite !andb_true_iff, !Z.leb_le. intros [H1 H2]. split; [done|].
  etrans; [exact H2|]. unfold unix_of. apply Z.div_le_mono; [lia|]. by apply clock_mono.
Qed.

(** Time only moves a live row to absent. *)
Lemma classify_later row a b :
  (a <= b)%nat ->
  classify_at row (env_now env b) = classify_at row (env_now env a)
  \/ classify_at row (env_now env b) = (casAbsent, 0).
Proof using clock_mono.
  intros Hab. destruct row as [vm|]; cbn; [|by left]. case_match; [by left|].
  destruct (expired_at (Expiry vm) (env_now env a)) eqn:Ea; [rewrite (expired_mono _ a b) by done; by left|].
  destruct (expired_at (Expiry vm) (env_now env b)); [by right|by left].
Qed.

(** C3: a conditional put succeeds exactly when the row admits it. With a working
    store and disk, a body read to its end and a clock that does not run backward,
    [PutIfVersion] returns a new version, greater than every version issued before,
    if and only if the row admits the expectation (an exact version on a live row,
    0 or a token not older than the fence on a deleted one, anything on an absent
    one); otherwise it returns the version-mismatch error with the row's current
    version, and every row of the store is as it was. *)
Theorem cas_put_iff_admitted m key body ttl expected w r w' :
  represents (w_db w) m -> ref_safe env cfg m (w_disk w) (w_tick w) -> slen (b_data body) < two63 ->
  is_u64 expected -> stamp_room w ->
  ~ store_failed (DB := DB) m key -> ~ io_failed env -> b_err body = None ->
  PutIfVersion env cfg key body ttl expected w = (r, w') ->
  let '(st, cur) := classify_at (row_of m key) (env_now env (w_tick w)) in
  if casAdmits st cur expected
  then exists v, r = inr v /\ w_last w < v
  else r = inl (NewVersionMismatchError "PutIfVersion" key cur)
       /\ exists m', represents (w_db w') m' /\ forall k, row_of m' k = row_of m k.
Proof using Henv PL clock_mono.
  intros Hm Hs Hd Hx Hroom Hst Hio Hb E.
  destruct (wp_run _ _ _ _ _ E (PutIfVersion_spec env cfg Henv m key body ttl expected w Hm Hs Hd Hx Hroom))
    as (m' & Hm' & _ & Hother & Hr).
  destruct (classify_at (row_of m key) (env_now env (w_tick w))) as [st cur] eqn:Ecl.
  destruct r as [e|v].
  - destruct Hr as [(Hsame & _ & [?|[?|[?|Hrej]]])|[_ Hf]]; try done; [|by destruct Hst; left].
    destruct Hrej as (n & st' & cur' & Hn & Ec & Ha & ->).
    destruct (classify_later (row_of m key) (w_tick w) n Hn) as [El|El]; rewrite El, ?Ecl in Ec; simplify_eq.
    rewrite Ha. split; [done|]. exists m'. split; [done|]. intros k.
    destruct (decide (k = key)) as [->|Hk]; [done|]. unfold row_of. by rewrite Hother.
  - destruct Hr as ((st' & cur' & Ec & Ha) & _ & Hl & _). rewrite Ecl in Ec. simplify_eq. rewrite Ha. by exists v.
Qed.

End CasProps.

(** ** Deletes *)

Section CasDelete.

Context {DB SM : Type} {PB : Protobuf} {PL : ProtobufLaws} {RDB : RocksDB DB} {RL : RocksLaws DB}.
Context {SS : SegmentStore SM} (env : Env) (cfg : Config) (Henv : env_ok env cfg).
Context (init_ok : proto_Marshal (tombstone 0) = Some expiredSentinel).
Implicit Types w : World DB SM.
Implicit Types m : gmap bytes bytes.

(** C7: a conditional delete is a fence. After [DeleteIfVersion] succeeded there is a
    stamp [t], newer than every version issued before it, such that [GetWithVersion]
    reports the key absent with the token [t], and [PutIfVersion] with any
    observation older than [t] is refused with the current version [t], whatever the
    body and TTL (unless a read of the store fails). *)
Theorem delete_fences_older_tokens m key expected w w1 :
  represents (w_db w) m -> ref_safe env cfg m (w_disk w) (w_tick w) -> is_u64 expected -> stamp_room w ->
  DeleteIfVersion env cfg key expected w = (None, w1) ->
  exists t, w_last w < t
    /\ (forall r w2, GetWithVersion env cfg key w1 = (r, w2) ->
          r = inr (None, t, false) \/ (exists e, r = inl e) /\ read_failed (DB := DB))
    /\ (forall body ttl old r w2, 0 < old < t -> PutIfVersion env cfg key body ttl old w1 = (r, w2) ->
          r = inl (NewVersionMismatchError "PutIfVersion" key t)
          \/ (exists e, r = inl e) /\ read_failed (DB := DB)).
Proof using Henv PL init_ok.
  intros Hm Hs Hx Hroom E.
  destruct (wp_run _ _ _ _ _ E (DeleteIfVersion_spec env cfg Henv init_ok m key expected w Hm Hs Hx Hroom))
    as (m' & Hm' & _ & _ & _ & _ & (t & Hlt & Hrow) & _).
  exists t. split; [done|]. assert (t <> 0) as Ht0 by (unfold stamp_room in Hroom; lia).
  assert (~ corrupt m' key) as Hnc.
  { intros (v & Ev & Eu). unfold row_of in Hrow. rewrite Ev in Hrow. cbn in Hrow. congruence. }
  assert (forall now, classify_at (Some (tombstone t)) now = (casFenced, t)) as Hcl.
  { intros now. cbn. by destruct (Z.eqb_spec t 0). }
  split.
  - intros r w2 Eg. refine (wp_run _ (fun r _ => r = inr (None, t, false) \/ (exists e, r = inl e) /\ read_failed (DB := DB)) _ _ _ Eg _).
    unfold GetWithVersion. apply wp_bind. eapply wp_readRowForCAS; [exact Hm'|..].
    + intros e db _ [Hf|?]; [|done]. apply wp_ret. right. split; [by eexists|done].
    + intros db _ _. rewrite Hrow. apply wp_bind, wp_casClassify. intros w3 _ _. rewrite Hcl.
      apply wp_bind, wp_ret, wp_ret. by left.
  - intros body ttl old r w2 Hold Ep.
    refine (wp_run _ (fun r _ => r = inl (NewVersionMismatchError "PutIfVersion" key t)
      \/ (exists e, r = inl e) /\ read_failed (DB := DB)) _ _ _ Ep _).
    unfold PutIfVersion. apply wp_bind. eapply wp_readRowForCAS; [exact Hm'|..].
    + intros e db _ [Hf|?]; [|done]. apply wp_ret. right. split; [by eexists|done].
    + intros db _ _. rewrite Hrow. apply wp_bind, wp_casClassify. intros w3 _ _. rewrite Hcl.
      assert (casAdmits casFenced t old = false) as ->; [|apply wp_ret; by left].
      cbn. apply orb_false_iff. split; [apply Z.eqb_neq; lia|apply Z.leb_gt; lia].
Qed.

(** A conditional delete of an empty value is lost. A plain put of an empty value
    without TTL is stored as zero bytes, which the merge operator takes for a missing
    row. [DeleteIfVersion] with the version the read path reports for it (the legacy
    version 1) therefore reports a mismatch with current version 0, although the
    value is gone and no fence was left: the row becomes the unstamped tombstone. *)
Theorem empty_value_delete_reports_mismatch m key w r w' :
  represents (w_db w) m -> ref_safe env cfg m (w_disk w) (w_tick w) -> stamp_room w ->
  ~ store_failed (DB := DB) m key -> m !! MakeMetadataKey key = Some EmptyString ->
  DeleteIfVersion env cfg key VersionLegacy w = (r, w') ->
  r = Some (NewVersionMismatchError "DeleteIfVersion" key 0)
  /\ exists m', represents (w_db w') m' /\ row_of m' key = Some (tombstone 0).
Proof using Henv PL init_ok.
  intros Hm Hs Hroom Hst He E.
  assert (is_u64 VersionLegacy) as Hx by (unfold VersionLegacy; unfold_ints; lia).
  destruct (wp_run _ _ _ _ _ E (DeleteIfVersion_spec env cfg Henv init_ok m key VersionLegacy w Hm Hs Hx Hroom))
    as (m' & Hm' & _ & _ & Hr).
  destruct r as [e|]; [|by destruct Hr as (_ & Hne & _)].
  destruct Hr as [(_ & _ & [?|(n & st & cur & _ & Ec & Ha & _)])|[[_ Hf]|(Hrow & _ & ->)]]; [done| | |by eauto].
  - exfalso. unfold row_of in Ec. rewrite He in Ec. cbn in Ec. rewrite unmarshal_empty in Ec. cbn in Ec. by simplify_eq.
  - by destruct Hst; left.
Qed.

End CasDelete.
