(* ===== verification/Rely.v ===== *)
(** * Conditional puts among concurrent writers

    Here other writers may commit between any two calls an operation makes to the
    store: [rely] relates the rows before and after what they did. [RelyLaws] says
    what the store promises then; the theorem shows that the outcome PutIfVersion
    learns by reading the row back is the outcome the merge had. *)

From S2P Require Import Prelude Version Keys Errors Message Merge Wire Rocks World Files RangeReader Storage Wp Safety StorageSpec StorageProps LiveSize SizeProps Cas CasSpec.

Open Scope Z_scope.

#[local] Arguments has_prefix : simpl never.
#[local] Arguments crc32 : simpl never.

(** A call sees the rows after some interference; a batch is applied to them at one
    instant. *)
Class RelyLaws (DB : Type) `{Protobuf} `{RocksDB DB} (rely : relation (gmap bytes bytes)) := {
  holds : DB -> gmap bytes bytes -> Prop;
  rely_get k db m r db' : holds db m -> db_Get k db = (r, db') ->
    exists m', rely m m' /\ holds db' m' /\ (forall v, r = inr v -> v = m' !! k);
  rely_write ops db m db' : holds db m -> db_Write ops db = (None, db') ->
    exists m', rely m m' /\ (batch_regular m' ops -> holds db' (apply_batch m' ops));
  rely_write_failed ops db m e db' : holds db m -> db_Write ops db = (Some e, db') ->
    exists m', rely m m' /\ holds db' m'
}.

(** A store without interference is a special case. *)
Definition quiet_laws {DB} `{Protobuf} `{RocksDB DB} `{!RocksLaws DB} : RelyLaws DB eq.
Proof.
  refine {| holds := represents |}.
  - intros k db m r db' Hm E. destruct (rdb_get _ _ _ _ _ Hm E). eauto.
  - intros ops db m db' Hm E. exists m. split; [done|]. by eapply rdb_write.
  - intros ops db m e db' Hm E. exists m. split; [done|]. by eapply rdb_write_failed.
Defined.

Section Rely.

Context {DB SM : Type} {PB : Protobuf} {PL : ProtobufLaws} {RDB : RocksDB DB}.
Context {SS : SegmentStore SM} (env : Env) (cfg : Config) (Henv : env_ok env cfg).
Context (rely : relation (gmap bytes bytes)) {RL : RelyLaws DB rely}.
Implicit Types w : World DB SM.
Implicit Types m : gmap bytes bytes.

(** What happens to the rows during a call: interference, and the call's own writes
    outside the metadata rows. *)
Definition evolves : relation (gmap bytes bytes) :=
  rtc (fun a b => rely a b \/ exists ops, Forall index_op ops /\ b = apply_batch a ops).

Lemma evolves_rely a b c : evolves a b -> rely b c -> evolves a c.
Proof. intros H1 H2. etrans; [exact H1|]. apply rtc_once. by left. Qed.

Lemma evolves_own a b ops : evolves a b -> Forall index_op ops -> evolves a (apply_batch b ops).
Proof. intros H1 H2. etrans; [exact H1|]. apply rtc_once. right. by exists ops. Qed.

(** The key's stored version. *)
Definition version_at m (key : bytes) (v : Z) : Prop :=
  exists vm, row_of m key = Some vm /\ Version vm = v.

(** The key's row decodes, and to the zero message only if it has no bytes, as every
    writer of the engine leaves it. *)
Definition canon m (key : bytes) : Prop :=
  forall b, m !! MakeMetadataKey key = Some b -> b <> EmptyString ->
    exists vm, proto_Unmarshal b = Some vm /\ vm <> vm_zero.

(** The base the merge operator sees: a row of zero bytes is none. *)
Definition base_of m (key : bytes) : option ValueMessage :=
  if decide (m !! MakeMetadataKey key = Some EmptyString) then None else row_of m key.

Definition operand_admits (base : option ValueMessage) (e : Z) : bool :=
  match base with
  | None => true
  | Some b => if Expiry b =? tombstoneExpiry then fenceAdmits b e else EffectiveRowVersion base =? e
  end.

(** ** One conditional put at the merge *)

Lemma merge_put m key operand op :
  canon m key -> proto_Unmarshal operand = Some op -> vm_ok op -> OpType op = META_OP_CAS_PUT -> Version op <> 0 ->
  batch_regular m [BMerge (MakeMetadataKey key) operand]
  /\ row_of (apply_batch m [BMerge (MakeMetadataKey key) operand]) key
     = if operand_admits (base_of m key) (CasExpectedVersion op) then Some (adopt op) else base_of m key.
Proof using PL.
  intros Hc Eu Hok Ho Hv.
  assert (mergeMetadataCAS (default EmptyString (m !! MakeMetadataKey key)) [operand]
    = match apply_operand (base_of m key) op with None => Some expiredSentinel | Some vm => proto_Marshal vm end) as Em.
  { apply merge_one; [done|]. unfold base_of, row_of. case_decide as Hd; [left; by rewrite Hd|].
    destruct (m !! MakeMetadataKey key) as [b|] eqn:Eb; cbn; [|by left]. right.
    destruct (Hc b Eb) as (vm & -> & _); [congruence|]. split_and!; congruence. }
  assert (apply_operand (base_of m key) op
    = if operand_admits (base_of m key) (CasExpectedVersion op) then Some (adopt op) else base_of m key) as Ea.
  { unfold apply_operand. rewrite Ho. reflexivity. }
  rewrite Ea in Em.
  assert (exists vm, vm_ok vm /\ vm <> vm_zero
    /\ (if operand_admits (base_of m key) (CasExpectedVersion op) then Some (adopt op) else base_of m key) = Some vm)
    as (vm & Hvm & Hz & Er).
  { destruct (operand_admits _ _) eqn:Eb.
    - exists (adopt op). split_and!; auto with ocache. intros E. apply Hv. by apply (f_equal Version) in E.
    - unfold base_of, row_of in *. case_decide as Hd; [done|].
      destruct (m !! MakeMetadataKey key) as [b|] eqn:Ek; cbn in *; [|done].
      destruct (Hc b Ek) as (vm & Evm & Hz); [congruence|]. exists vm. rewrite Evm. split_and!; eauto with ocache. }
  rewrite Er in *.
  destruct (merge_row m key operand (default EmptyString (m !! MakeMetadataKey key)) vm) as (b & E1 & E2 & E3); try done.
  - intros (op' & E & E' & _). rewrite Eu in E. simplify_eq. rewrite Ho in E'. done.
  - split; [done|]. rewrite E2. unfold row_of. rewrite lookup_insert_eq. cbn. by apply marshal_unmarshal.
Qed.

(** ** Rules under interference *)

Lemma wp_Get_rely m0 m k (Q : error + option bytes -> World DB SM -> Prop) w :
  holds (w_db w) m -> evolves m0 m ->
  (forall e db m', evolves m0 m' -> holds db m' -> Q (inl e) (set_db db w)) ->
  (forall db m', evolves m0 m' -> rely m m' -> holds db m' -> Q (inr (m' !! k)) (set_db db w)) ->
  wp (Get_ k) Q w.
Proof.
  intros Hm Hev H1 H2. unfold wp, Get_, on_db. destruct (db_Get k (w_db w)) as [r db] eqn:E.
  destruct (rely_get _ _ _ _ _ Hm E) as (m' & Hr & Hm' & Hv). cbn.
  pose proof (evolves_rely _ _ _ Hev Hr). destruct r as [e|v]; [by eapply H1|].
  rewrite (Hv v eq_refl). by eapply H2.
Qed.

(** Reading the row: what matters is a successful read. *)
Lemma wp_readRow_rely m0 m key (Q : error + option ValueMessage -> World DB SM -> Prop) w :
  holds (w_db w) m -> evolves m0 m ->
  (forall e db m', evolves m0 m' -> holds db m' -> rely m m' -> Q (inl e) (set_db db w)) ->
  (forall db m', evolves m0 m' -> rely m m' -> holds db m' -> Q (inr (row_of m' key)) (set_db db w)) ->
  wp (readRowForCAS (MakeMetadataKey key)) Q w.
Proof.
  intros Hm Hev H1 H2. unfold readRowForCAS. apply wp_bind. unfold wp at 1, Get_, on_db.
  destruct (db_Get (MakeMetadataKey key) (w_db w)) as [r db] eqn:E.
  destruct (rely_get _ _ _ _ _ Hm E) as (m' & Hr & Hm' & Hv). cbn.
  pose proof (evolves_rely _ _ _ Hev Hr) as Hev'. destruct r as [e|v]; [apply wp_ret; by eapply H1|].
  specialize (Hv v eq_refl). specialize (H2 db m' Hev' Hr Hm'). unfold row_of in H2. rewrite <- Hv in H2.
  destruct v as [b|]; cbn in H2; [|by apply wp_ret]. destruct (proto_Unmarshal b); apply wp_ret; [done|by eapply H1].
Qed.

(** The retried read-back, followed through interference that cannot forge [v]. *)
Lemma wp_retry_rely v m1 m n key err (Q : error + option ValueMessage -> World DB SM -> Prop) w :
  (forall a b, rely a b -> version_at b key v -> version_at a key v) ->
  holds (w_db w) m -> (version_at m key v -> version_at m1 key v) ->
  (forall e w', Q (inl e) w') ->
  (forall db got, (Version <$> got = Some v -> version_at m1 key v) -> Q (inr got) (set_db db w)) ->
  wp (retry_read n (MakeMetadataKey key) err) Q w.
Proof.
  intros Hu. revert m err w. induction n as [|n IH]; intros m err w Hm Hb H1 H2; cbn.
  - apply wp_ret, H1.
  - apply wp_bind. eapply (wp_readRow_rely m); [exact Hm|reflexivity|..].
    + intros e db m' _ Hm' Hr. eapply (IH m'); [done| |done|].
      * intros Hv. apply Hb. by eapply Hu.
      * intros db' got Hg. change (set_db db' (set_db db w)) with (set_db db' w). by apply H2.
    + intros db m' _ Hr Hm'. apply wp_ret, H2. intros Hg. apply Hb. eapply Hu; [exact Hr|].
      destruct (row_of m' key) as [vm|] eqn:E; cbn in Hg; [|done]. simplify_eq. by exists vm.
Qed.

Lemma wp_nextVersion_rely m0 m (Q : error + Z -> World DB SM -> Prop) w :
  holds (w_db w) m -> evolves m0 m ->
  (forall e w', Q (inl e) w') ->
  (forall m' w', evolves m0 m' -> holds (w_db w') m' -> calm w w' -> Q (inr (stamp_at env w)) w') ->
  wp (nextVersion env) Q w.
Proof.
  intros Hm Hev H1 H2. unfold nextVersion. apply wp_bind, wp_time_Now, wp_bind, wp_fun. cbn.
  apply wp_bind, wp_fun. cbn. apply wp_bind. case_match.
  - unfold extendVersionReservation. apply wp_bind, wp_fun. cbn. case_match; [bool_facts; lia|].
    apply wp_bind. unfold wp at 1, Write_, on_db. cbn.
    match goal with |- context [db_Write ?o ?d] => destruct (db_Write o d) as [[e|] db] eqn:E end; cbn.
    { apply wp_ret, wp_ret, H1. }
    destruct (rely_write _ _ _ _ Hm E) as (m' & Hr & Hm'). apply wp_bind, wp_fun, wp_ret. cbn.
    apply wp_bind, wp_fun, wp_ret. cbn.
    eapply H2; [|cbn; apply Hm'; by apply plain_regular; repeat constructor|split; cbn; try done; lia].
    apply evolves_own; [by eapply evolves_rely|]. apply Forall_singleton, hwm_op.
  - apply wp_ret, wp_bind, wp_fun, wp_ret. cbn. eapply H2; [exact Hev|done|split; cbn; try done; lia].
Qed.

(** ** The theorem *)

(** The merge of [operand] was committed to rows that admitted it. *)
Definition won m (key : bytes) (expected v : Z) (data : bytes) : Prop :=
  exists db db' m2 operand op,
    evolves m m2 /\ db_Write [BMerge (MakeMetadataKey key) operand] db = (None, db')
    /\ holds db' (apply_batch m2 [BMerge (MakeMetadataKey key) operand])
    /\ row_of (apply_batch m2 [BMerge (MakeMetadataKey key) operand]) key = Some (adopt op)
    /\ Version op = v /\ ValueLength op = slen data /\ (ValueType op = INLINE -> Data op = data)
    /\ operand_admits (base_of m2 key) (CasExpectedVersion op) = true
    /\ (CasExpectedVersion op = expected
        \/ exists m1 prev n, evolves m m1 /\ row_of m1 key = Some prev /\ Expiry prev <> tombstoneExpiry
            /\ expired_at (Expiry prev) (env_now env n) = true
            /\ CasExpectedVersion op = EffectiveRowVersion (Some prev)).

Definition wins m (key : bytes) (expected : Z) (data : bytes) (v : Z) (r : error + Z) : Prop :=
  r = inr v -> won m key expected v data.

Lemma wins_inl m key expected data v e : wins m key expected data v (inl e).
Proof. done. Qed.

Lemma wp_fail m key expected data v (c : M (DB := DB) (SM := SM) ()) e w :
  wp (_ ← c; mret (inl e)) (fun r _ => wins m key expected data v r) w.
Proof. apply wp_bind. eapply wp_mono; [apply wp_weaken|]. intros. by apply wp_ret. Qed.

Context (key : bytes) (v : Z).
(** Stamps are unique: no other writer stores [v] at the key (see Version.v), and the
    others leave rows that decode. *)
Context (unique : forall a b, rely a b -> version_at b key v -> version_at a key v).
Context (keeps_canon : forall a b, rely a b -> canon a key -> canon b key).

Lemma evolves_unique a b : evolves a b -> version_at b key v -> version_at a key v.
Proof using unique.
  induction 1 as [|a b c [Hr|(ops & Ho & ->)] _ IH]; [done|eauto|].
  intros Hv%IH. unfold version_at, row_of in *. by rewrite index_rows in Hv.
Qed.

Lemma evolves_canon a b : evolves a b -> canon a key -> canon b key.
Proof using keeps_canon.
  induction 1 as [|a b c [Hr|(ops & Ho & ->)] _ IH]; [done|eauto|].
  intros Hc. apply IH. unfold canon in *. by rewrite index_rows.
Qed.

Lemma commit_wins m path op data w m0 :
  evolves m m0 -> holds (w_db w) m0 -> canon m key -> ~ version_at m key v ->
  vm_ok op -> OpType op = META_OP_CAS_PUT -> Version op <> 0 -> ValueLength op = slen data ->
  (ValueType op = INLINE -> Data op = data) ->
  wp (commit_cas_put env cfg key path op (CasExpectedVersion op))
    (fun r _ => wins m key (CasExpectedVersion op) data v r) w.
Proof using PL unique keeps_canon.
  intros Hev Hm Hc Hv Hok Ho Hv0 Hlen Hin. unfold commit_cas_put. apply wp_bind.
  eapply wp_readRow_rely; [exact Hm|exact Hev|intros; apply wp_fail|].
  intros db m1 Hev1 Hr1 Hm1. apply wp_bind, wp_casClassify. intros w1 F1 D1. cbn [w_tick set_db].
  destruct (classify_at (row_of m1 key) _) as [st cur] eqn:Ecl.
  destruct (negb (casAdmits st cur (CasExpectedVersion op))); [apply wp_fail|].
  set (op' := translate st (row_of m1 key) op).
  assert (vm_ok op') as Hok'.
  { apply translate_ok; [done|]. unfold row_of. intros p (b & _ & Eb)%bind_Some. by eapply unmarshal_ok. }
  destruct (proto_Marshal op') as [operand|] eqn:Eo; [|apply wp_fail].
  apply marshal_unmarshal in Eo as Eu; [|done].
  apply wp_bind. unfold wp at 1, Write_, on_db. rewrite D1. cbn [w_db set_db].
  destruct (db_Write [BMerge (MakeMetadataKey key) operand] db) as [[e|] db'] eqn:Ew; cbn [fst snd]; [apply wp_fail|].
  destruct (rely_write _ _ _ _ Hm1 Ew) as (m2 & Hr2 & Hm3).
  assert (evolves m m2) as Hev2 by by eapply evolves_rely.
  destruct (merge_put m2 key operand op') as [Hreg Erow]; try done.
  { by eapply evolves_canon. } { unfold op'. by rewrite translate_op. } { unfold op'. by rewrite translate_version. }
  specialize (Hm3 Hreg). set (m3 := apply_batch m2 _) in *.
  apply wp_bind. unfold readRowForCASRetry. eapply (wp_retry_rely v m3 m3); [done|exact Hm3|done|..].
  { intros e w'. apply wp_fail. }
  intros db3 got Hgot. case_bool_decide as Hb.
  2: { apply wp_bind. eapply wp_mono; [apply wp_weaken|]. intros _ w4 _.
       apply wp_bind. eapply wp_mono; [apply wp_weaken|]. intros. by apply wp_ret. }
  apply wp_bind. eapply wp_mono; [apply wp_weaken|]. intros _ w4 _. apply wp_ret. intros [= Ev].
  rewrite Ev in Hb. specialize (Hgot Hb) as (vm & Evm & Evv).
  destruct (operand_admits (base_of m2 key) (CasExpectedVersion op')) eqn:Ea.
  2: { exfalso. apply Hv. eapply evolves_unique; [exact Hev2|]. exists vm. split; [|done].
       rewrite Evm in Erow. unfold base_of in Erow. case_decide; [done|]. by rewrite Erow. }
  exists db, db', m2, operand, op'.
  assert (ValueLength op' = ValueLength op /\ ValueType op' = ValueType op /\ Data op' = Data op) as (E1 & E2 & E3).
  { unfold op', translate. by repeat case_match. }
  split_and!; try done; [congruence|intros; rewrite E3; apply Hin; congruence|].
  unfold op', translate in *. destruct st, (row_of m1 key) as [p|] eqn:Ep; try (by left).
  case_match eqn:Et; [by left|]. right. exists m1, p. eexists. cbn in Ecl. rewrite Et in Ecl.
  split_and!; [done|done|by bool_facts| |done]. by destruct (expired_at _ _) eqn:Ex in Ecl.
Qed.

(** C2: a reported win is a win. Other writers may change any rows between any two
    steps of [PutIfVersion], as long as they do not forge its stamp. If it returns the
    version [v], there was an instant at which its operand was merged into the row,
    the row at that instant admitted the operand (it was missing; or a fence the
    expectation is not older than; or had exactly the expected version), and the
    merge made the row the caller's value with version [v]. The expectation is the
    caller's, or the stored version of a row that had expired when it was read. *)
Theorem cas_put_success_is_a_win m body ttl expected w w' :
  holds (w_db w) m -> canon m key -> ~ version_at m key v ->
  slen (b_data body) < two63 -> is_u64 expected -> stamp_room w ->
  PutIfVersion env cfg key body ttl expected w = (inr v, w') ->
  won m key expected v (b_data body).
Proof using PL unique keeps_canon Henv.
  intros Hm Hc Hv Hd Hx Hroom E.
  refine (wp_run _ (fun r _ => wins m key expected (b_data body) v r) _ _ _ E _ eq_refl).
  unfold PutIfVersion. apply wp_bind.
  eapply (wp_readRow_rely m m); [exact Hm|reflexivity|intros; by apply wp_ret|].
  intros db m1 Hev1 _ Hm1. apply wp_bind, wp_casClassify. intros w1 F1 D1.
  destruct (classify_at _ _) as [st cur]. case_match; [by apply wp_ret|].
  destruct (ReadFull body (firstReadSize cfg)) as [[chunk err] rest] eqn:Er.
  apply ReadFull_spec in Er as (Hbd & He & Hsmall & _). pose proof (threshold_pos _ _ Henv) as Ht.
  destruct err as [e|]; [by apply wp_ret|].
  pose proof (expiry_at_i64 env cfg Henv (w_tick w1) ttl) as Hexp.
  apply wp_bind, wp_expiry_of. intros w2 F2 D2. set (expiry := expiry_at _ _ _) in *.
  apply wp_bind. eapply (wp_nextVersion_rely m m1); [by rewrite D2, D1|done|intros; by apply wp_ret|].
  intros m3 w3 Hev3 Hm3 C3. destruct (stamp_at_ok env w2) as [Hs1 Hs2].
  { unfold stamp_room in *. by rewrite (fr_last _ _ F2), (fr_last _ _ F1). }
  assert (w_last w2 = w_last w) as El by by rewrite (fr_last _ _ F2), (fr_last _ _ F1).
  rewrite El in Hs2. unfold stamp_room in Hroom.
  destruct (Z.ltb_spec (inlineThreshold cfg) (slen chunk)) as [Hch|Hch].
  - assert (joinPrefix chunk rest = body) as -> by (unfold joinPrefix; rewrite Hbd, He; by destruct body).
    apply wp_bind, wp_fm_Write; [intros; by apply wp_ret|]. intros w4 Hberr F4 D4.
    apply wp_bind, wp_fun. cbn. apply wp_bind.
    set (op := with_raw _ _ _ _). apply (wp_mono _ (fun r _ => wins m key expected (b_data body) v r)).
    2: { intros r w5 Hw. by apply wp_bind, wp_fun, wp_ret. }
    apply (commit_wins m _ op (b_data body) _ m3); try done.
    + cbn. by rewrite D4.
    + split; cbn; try done; unfold RAW_FILE, META_OP_CAS_PUT; unfold_ints; unfold slen in *; try lia;
        [apply (path_utf8 _ _ Henv)|apply crc32_u32].
    + cbn. lia.
  - destruct Hsmall as [-> Hberr].
    { unfold firstReadSize, slen in *. case_match; lia. }
    set (op := with_inline _ _). apply (commit_wins m _ op (b_data body) _ m3); try done.
    + split; cbn; try done; unfold INLINE, META_OP_CAS_PUT; unfold_ints; unfold slen in *; lia.
    + cbn. lia.
Qed.

End Rely.
