(* ===== verification/Listing.v ===== *)
(** * Listing (storage/storage.go)

    ListKeys and its two paginated forms: a scan of the metadata rows from a start
    key or a prefix, skipping expired rows. *)

From S2P Require Import Prelude Keys Errors Message Merge Wire Rocks World Files RangeReader Storage.

Open Scope Z_scope.

Definition MaxListValueSize : Z := 1048576.

(** A nil [Value] is the empty byte sequence. *)
Record KeyValue := MkKV { kv_Key : bytes; kv_Value : bytes; kv_ValueLength : Z; kv_ValueOmitted : bool }.

(** Where the scan starts and which rows belong to it. *)
Definition seekKey (userPrefix startKey : bytes) : bytes :=
  if decide (startKey <> EmptyString) then MakeMetadataKey startKey
  else if decide (userPrefix <> EmptyString) then MakeMetadataKey userPrefix
  else MetadataPrefix.

Definition prefixBoundary (userPrefix : bytes) : bytes :=
  if decide (userPrefix <> EmptyString) then MakeMetadataKey userPrefix else MetadataPrefix.

(** Pagination is exclusive: a row with the start key itself is skipped. *)
Definition skip_start (startKey : bytes) (rows : list (bytes * bytes)) : list (bytes * bytes) :=
  match rows with
  | (k, _) :: rest =>
      if bool_decide (startKey <> EmptyString) && bool_decide (ExtractUserKey k = startKey) then rest else rows
  | [] => []
  end.

(** Whether rows of the listing are ahead of the iterator. *)
Definition has_more (userPrefix : bytes) (rest : list (bytes * bytes)) : bool :=
  match rest with
  | (k, _) :: _ =>
      has_prefix (prefixBoundary userPrefix) k
      && (bool_decide (userPrefix = EmptyString) || has_prefix userPrefix (ExtractUserKey k))
  | [] => false
  end.

Definition at_limit {A} (limit : Z) (acc : list A) : bool := (0 <? limit) && (limit <=? Z.of_nat (List.length acc)).

Section Listing.

Context {DB SM : Type} `{Protobuf} `{RocksDB DB} `{SegmentStore SM} (env : Env) (cfg : Config).
Notation M := (M (DB := DB) (SM := SM)).

(** The collecting loop: the keys in reverse order and the rows left ahead. *)
Fixpoint list_loop (boundary : bytes) (limit : Z) (rows : list (bytes * bytes)) (acc : list bytes)
    : M (list bytes * list (bytes * bytes)) :=
  match rows with
  | [] => mret (acc, [])
  | (k, v) :: rest =>
      if negb (has_prefix boundary k) then mret (acc, rows)
      else if at_limit limit acc then mret (acc, rows)
      else
        expired ← match valueMessageExpiry v with
                  | Some expiry => check_expired env expiry
                  | None => mret false
                  end;
        if (expired : bool) then list_loop boundary limit rest acc
        else list_loop boundary limit rest (ExtractUserKey k :: acc)
  end.

(** The keys, the last key of the page (empty on the last page) and has-more. *)
Definition ListKeysWithPagination (userPrefix startKey : bytes) (limit : Z)
    : M (error + list bytes * bytes * bool) :=
  it ← Iterate_ (seekKey userPrefix startKey);
  '(acc, rest) ← list_loop (prefixBoundary userPrefix) limit (skip_start startKey it.1) [];
  match iter_Err rest it.2 with
  | Some err => mret (inl (mapRocksDBError "ListKeysWithPagination" EmptyString err))
  | None =>
      let more := has_more userPrefix rest in
      mret (inr (rev acc, if more then default EmptyString (head acc) else EmptyString, more))
  end.

Definition ListKeys (userPrefix : bytes) : M (error + list bytes) :=
  r ← ListKeysWithPagination userPrefix EmptyString 0;
  mret match r with
       | inl err => inl err
       | inr (keyList, _, _) => inr keyList
       end.

(** [io.ReadAll] of an opened value: nil if reading fails. *)
Definition read_or_nil (data : bytes) : M bytes :=
  f ← syscall env; mret match f with Some _ => EmptyString | None => data end.

(** The bytes of a listed value, and whether they were omitted. *)
Definition list_value (k : bytes) (vm : ValueMessage) : M (bytes * bool) :=
  if MaxListValueSize <? ValueLength vm then mret (EmptyString, true)
  else
    data ← (if ValueType vm =? INLINE then mret (Data vm)
            else if ValueType vm =? SEGMENT then
              r ← on_sm (sm_ReadEntry (ExtractUserKey k) (SegmentPath vm) (SegmentOffset vm) (ValueLength vm));
              match r with inr (Some data) => read_or_nil data | _ => mret EmptyString end
            else if ValueType vm =? RAW_FILE then
              r ← fm_Read env (RawFilePath vm) (ValueLength vm);
              match r with inr (Some data) => read_or_nil data | _ => mret EmptyString end
            else mret EmptyString);
    mret (data, false).

Fixpoint list_kv_loop (boundary : bytes) (limit : Z) (rows : list (bytes * bytes)) (acc : list KeyValue)
    : M (list KeyValue * list (bytes * bytes)) :=
  match rows with
  | [] => mret (acc, [])
  | (k, v) :: rest =>
      if negb (has_prefix boundary k) then mret (acc, rows)
      else if at_limit limit acc then mret (acc, rows)
      else
        match proto_Unmarshal v with
        | None => list_kv_loop boundary limit rest (MkKV (ExtractUserKey k) EmptyString 0 false :: acc)
        | Some vm =>
            expired ← check_expired env (Expiry vm);
            if (expired : bool) then list_kv_loop boundary limit rest acc
            else
              '(data, omitted) ← list_value k vm;
              list_kv_loop boundary limit rest (MkKV (ExtractUserKey k) data (ValueLength vm) omitted :: acc)
        end
  end.

Definition ListKeyValuesWithPagination (userPrefix startKey : bytes) (limit : Z)
    : M (error + list KeyValue * bytes * bool) :=
  it ← Iterate_ (seekKey userPrefix startKey);
  '(acc, rest) ← list_kv_loop (prefixBoundary userPrefix) limit (skip_start startKey it.1) [];
  match iter_Err rest it.2 with
  | Some err => mret (inl (mapRocksDBError "ListKeyValuesWithPagination" EmptyString err))
  | None =>
      let more := has_more userPrefix rest in
      mret (inr (rev acc, if more then default EmptyString (kv_Key <$> head acc) else EmptyString, more))
  end.

End Listing.
