(* ===== verification/ListingProps.v ===== *)
(** * Properties of listing

    One page is a segment of the sorted live keys after its start key, following the
    pages to the end yields every live key once and in order, and the two paginated
    listings agree on keys and page boundaries. *)

From S2P Require Import Prelude Keys Errors Message Merge Wire Rocks World Files RangeReader Storage Wp Safety StorageSpec StorageProps Listing.

Open Scope Z_scope.

#[local] Arguments has_prefix : simpl never.

(** ** Sorted byte sequences *)

(** What lies between [p] and an extension of [p] is an extension of [p]. *)
Lemma between_prefix p x t : sle p x = true -> sle x (p +:+ t) = true -> has_prefix p x = true.
Proof.
  revert x. induction p as [|a p IH]; intros x; [done|]. rewrite sapp_cons. unfold sle. destruct x as [|b x]; cbn; [done|].
  destruct (decide (b = a)) as [->|Hne].
  - rewrite !decide_True by done. intros H1 H2. unfold has_prefix; fold has_prefix.
    rewrite bool_decide_true by done. by apply IH.
  - rewrite decide_False by congruence. rewrite !negb_true_iff, !N.ltb_ge. intros H1 H2. exfalso. apply Hne.
    rewrite <- (ascii_N_embedding b), <- (ascii_N_embedding a). f_equal. lia.
Qed.

Lemma has_prefix_sle p x : has_prefix p x = true -> sle p x = true.
Proof. intros [t ->]%has_prefix_true. apply sle_app_r. Qed.

Definition row_lt (a b : bytes * bytes) : Prop := slt a.1 b.1 = true.

Lemma sorted_rows_strict m : StronglySorted row_lt (sorted_rows m).
Proof.
  assert (StronglySorted row_le (sorted_rows m)) as Hs by (apply (StronglySorted_merge_sort row_le); apply _).
  pose proof (NoDup_sorted_rows m) as Hn. revert Hs Hn. generalize (sorted_rows m) as L.
  induction L as [|r L IH]; intros Hs Hn; [constructor|]. apply StronglySorted_inv in Hs as [Hs Hf].
  cbn in Hn. apply NoDup_cons in Hn as [Hr Hn]. constructor; [by apply IH|].
  rewrite Forall_forall in Hf |- *. intros y Hy. destruct (sle_slt_or_eq _ _ (Hf y Hy)) as [E|]; [|done].
  exfalso. apply Hr. rewrite E. by apply list_elem_of_fmap_2.
Qed.

Lemma filter_sorted P `{!forall r, Decision (P r)} L : StronglySorted row_lt L -> StronglySorted row_lt (filter P L).
Proof.
  induction 1 as [|r L Hs IH Hf]; [constructor|]. rewrite filter_cons. case_decide; [|done]. constructor; [done|].
  apply Forall_forall. intros y [_ Hy]%list_elem_of_filter. rewrite Forall_forall in Hf. by apply Hf.
Qed.

Lemma prefix_split p rows : rows = prefix_rows p rows ++ prefix_rest p rows.
Proof. induction rows as [|r rows IH]; cbn; [done|]. case_match; [cbn; by f_equal|done]. Qed.

Lemma prefix_rest_head p rows r rest : prefix_rest p rows = r :: rest -> has_prefix p r.1 = false.
Proof. induction rows as [|r' rows IH]; cbn; [done|]. case_match; [done|]. intros. by simplify_eq. Qed.

(** In a sorted list above [p] the rows with prefix [p] come first. *)
Lemma prefix_rows_filter p L :
  StronglySorted row_lt L -> Forall (fun r => sle p r.1 = true) L ->
  prefix_rows p L = filter (fun r => has_prefix p r.1 = true) L.
Proof.
  induction 1 as [|r L Hs IH Hf]; intros Hp; [done|]. apply Forall_cons in Hp as [Hr Hp].
  cbn [prefix_rows]. rewrite filter_cons. destruct (has_prefix p r.1) eqn:E.
  - rewrite decide_True by done. f_equal. by apply IH.
  - rewrite decide_False by done. symmetry.
    destruct (filter _ L) as [|y l] eqn:Ef; [done|]. exfalso.
    assert (y ∈ filter (fun r => has_prefix p r.1 = true) L) as Hy by (rewrite Ef; left).
    apply list_elem_of_filter in Hy as [[t Et]%has_prefix_true Hy]. rewrite Forall_forall in Hf.
    specialize (Hf y Hy). apply slt_sle in Hf. rewrite Et in Hf. by rewrite (between_prefix p r.1 t) in E.
Qed.

(** ** The rows a scan visits *)

Section Scan.

Implicit Types m : gmap bytes bytes.

(** The rows of the listing, and those after a start key. *)
Definition listed (p : bytes) m : list (bytes * bytes) :=
  filter (fun r => has_prefix (MakeMetadataKey p) r.1 = true) (sorted_rows m).

Definition after (s : bytes) (rows : list (bytes * bytes)) : list (bytes * bytes) :=
  if decide (s = EmptyString) then rows else filter (fun r => slt (MakeMetadataKey s) r.1 = true) rows.

Lemma prefixBoundary_eq p : prefixBoundary p = MakeMetadataKey p.
Proof. unfold prefixBoundary. case_decide as H; [done|]. destruct p; [done|]. discriminate H. Qed.

Lemma seekKey_eq p s : seekKey p s = MakeMetadataKey (if decide (s = EmptyString) then p else s).
Proof.
  unfold seekKey. destruct (decide (s = EmptyString)) as [->|Hs].
  - rewrite decide_False by (intros H; by apply H). apply prefixBoundary_eq.
  - by rewrite decide_True.
Qed.

Lemma skip_start_filter P s L :
  StronglySorted row_lt L -> Forall (fun r => sle (MakeMetadataKey s) r.1 = true) L -> s <> EmptyString ->
  has_prefix MetadataPrefix P = true ->
  filter (fun r => has_prefix P r.1 = true) (skip_start s L)
  = filter (fun r => has_prefix P r.1 = true) (filter (fun r => slt (MakeMetadataKey s) r.1 = true) L).
Proof.
  intros Hs Hge Hne HP. destruct L as [|[k v] L]; [done|].
  apply StronglySorted_inv in Hs as [Hs Hf]. apply Forall_cons in Hge as [Hk _]. cbn in Hk.
  assert (filter (fun r => slt (MakeMetadataKey s) r.1 = true) L = L) as EL.
  { clear -Hf Hk. induction Hf as [|y L Hy Hf IH]; [done|]. rewrite filter_cons.
    rewrite decide_True; [by rewrite IH|]. unfold row_lt in Hy. cbn in Hy.
    destruct (sle_slt_or_eq _ _ Hk) as [->|Hlt]; [done|]. by eapply slt_trans. }
  unfold skip_start. rewrite bool_decide_true by done. cbn [andb].
  rewrite (filter_cons _ (k, v) L), EL. cbn [fst].
  destruct (sle_slt_or_eq _ _ Hk) as [<-|Hlt].
  - rewrite ExtractUserKey_Make, bool_decide_true by done.
    rewrite decide_False; [done|]. by rewrite slt_irrefl.
  - rewrite decide_True by done. case_bool_decide as He; [|done].
    rewrite filter_cons. cbn [fst]. rewrite decide_False; [done|]. intros Hp.
    assert (IsMetadataKey k = true) as Hm.
    { apply has_prefix_true in Hp as [t ->]. apply has_prefix_true in HP as [u ->]. unfold IsMetadataKey.
      rewrite sapp_assoc. apply has_prefix_app. }
    apply IsMetadataKey_inv in Hm. rewrite He in Hm. subst k. by rewrite slt_irrefl in Hlt.
Qed.

(** The scan visits exactly the rows of the listing after the start key. *)
Lemma scan_rows p s m :
  s = EmptyString \/ has_prefix p s = true ->
  prefix_rows (MakeMetadataKey p) (skip_start s (rows_from (seekKey p s) m)) = after s (listed p m).
Proof.
  intros Hs. rewrite seekKey_eq. pose proof (sorted_rows_strict m) as Hst.
  assert (forall k, StronglySorted row_lt (rows_from k m)) as Hrf by (intros; by apply filter_sorted).
  assert (forall k, Forall (fun r => sle k r.1 = true) (rows_from k m)) as Hge.
  { intros k. apply Forall_forall. by intros r [Hr _]%list_elem_of_filter. }
  unfold after. destruct (decide (s = EmptyString)) as [->|Hne].
  - assert (skip_start EmptyString (rows_from (MakeMetadataKey p) m) = rows_from (MakeMetadataKey p) m) as ->.
    { unfold skip_start. destruct (rows_from _ _) as [|[]]; [done|]. rewrite bool_decide_false; [done|]. intros H. by apply H. }
    rewrite prefix_rows_filter by done. unfold listed, rows_from. rewrite list_filter_filter. apply list_filter_iff.
    intros r. split; [tauto|]. intros H. split; [done|]. by apply has_prefix_sle.
  - destruct Hs as [|Hp]; [done|]. apply has_prefix_true in Hp as [u ->].
    assert (forall x, sle (MakeMetadataKey (p +:+ u)) x = true -> sle (MakeMetadataKey p) x = true) as Hle.
    { intros x. apply sle_trans. unfold MakeMetadataKey. rewrite <- sapp_assoc. apply sle_app_r. }
    assert (forall L, StronglySorted row_lt L -> Forall (fun r => sle (MakeMetadataKey (p +:+ u)) r.1 = true) L ->
      StronglySorted row_lt (skip_start (p +:+ u) L) /\ Forall (fun r => sle (MakeMetadataKey p) r.1 = true) (skip_start (p +:+ u) L)) as Hsk.
    { intros [|[k v] L] H1 H2; [done|]. assert (Forall (fun r => sle (MakeMetadataKey p) r.1 = true) ((k, v) :: L)) as H3.
      { eapply Forall_impl; [exact H2|]. intros; by apply Hle. }
      unfold skip_start. case_match; [|done]. apply StronglySorted_inv in H1 as [? _]. by apply Forall_cons in H3 as [_ ?]. }
    destruct (Hsk (rows_from (MakeMetadataKey (p +:+ u)) m)) as [H1 H2]; [done|done|].
    rewrite prefix_rows_filter by done. rewrite skip_start_filter; [|done..|apply has_prefix_app].
    unfold listed, rows_from. rewrite !list_filter_filter. apply list_filter_iff. intros r.
    split; [tauto|]. intros [H3 H4]. split_and!; try done. by apply slt_sle.
Qed.

(** The metadata rows, in order, as a scan with the metadata prefix visits them. *)
Definition meta_rows m : list (bytes * bytes) := prefix_rows MetadataPrefix (rows_from MetadataPrefix m).

Lemma meta_rows_listed m : meta_rows m = listed EmptyString m.
Proof. pose proof (scan_rows EmptyString EmptyString m (or_introl eq_refl)) as E. unfold after in E.
  rewrite decide_True in E by done. rewrite <- E. unfold skip_start. change (seekKey EmptyString EmptyString) with MetadataPrefix.
  unfold meta_rows. destruct (rows_from MetadataPrefix m) as [|[]]; [done|]. rewrite bool_decide_false; [done|]. intros H. by apply H.
Qed.

Lemma meta_rows_sorted m : StronglySorted row_lt (meta_rows m).
Proof. rewrite meta_rows_listed. apply filter_sorted, sorted_rows_strict. Qed.

Lemma elem_of_meta_rows m k v : (k, v) ∈ meta_rows m <-> m !! k = Some v /\ IsMetadataKey k = true.
Proof.
  rewrite meta_rows_listed. unfold listed. rewrite list_elem_of_filter, elem_of_sorted_rows. cbn [fst snd].
  change (MakeMetadataKey EmptyString) with MetadataPrefix. unfold IsMetadataKey. tauto.
Qed.

(** The user keys of a scan are distinct. *)
Lemma meta_keys_nodup m : NoDup (ExtractUserKey <$> (meta_rows m).*1).
Proof.
  pose proof (meta_rows_sorted m) as Hs.
  assert (Forall (fun r => IsMetadataKey r.1 = true) (meta_rows m)) as Hk.
  { apply Forall_forall. intros [k v] Hr. by apply elem_of_meta_rows in Hr as [_ ?]. }
  induction Hs as [|r L Hs IH Hf]; [constructor|]. apply Forall_cons in Hk as [H1 H2]. cbn. constructor; [|by apply IH].
  intros Hin. rewrite <- list_fmap_compose in Hin. apply list_elem_of_fmap in Hin as (r' & E & Hr'). cbn in E.
  rewrite Forall_forall in Hf, H2. specialize (Hf r' Hr'). specialize (H2 r' Hr'). unfold row_lt in Hf.
  rewrite (IsMetadataKey_inv r.1), (IsMetadataKey_inv r'.1), E, slt_irrefl in Hf by done. done.
Qed.

(** A scan whose iterator may fail visits a front part of them. *)
Lemma meta_rows_front m l tail :
  l ++ tail = rows_from MetadataPrefix m ->
  exists more, meta_rows m = prefix_rows MetadataPrefix l ++ more /\ (tail = [] -> more = []).
Proof.
  intros E. unfold meta_rows. rewrite <- E. clear E. induction l as [|r l (more & E & Hm)]; cbn.
  - exists (prefix_rows MetadataPrefix tail). split; [done|]. by intros ->.
  - destruct (has_prefix MetadataPrefix r.1); [|by exists []]. exists more. by rewrite E.
Qed.

End Scan.

(** ** What a scan collects *)

Section Pages.

Context {DB SM : Type} {PB : Protobuf} {PL : ProtobufLaws} {RDB : RocksDB DB} {RL : RocksLaws DB}.
Context {SS : SegmentStore SM} (env : Env).
Implicit Types w : World DB SM.
Implicit Types m : gmap bytes bytes.

(** Whether a row reads as expired at the [n]-th reading of the environment; a row
    that does not decode never does. *)
Definition row_expired (r : bytes * bytes) (n : nat) : bool :=
  match Expiry <$> proto_Unmarshal r.2 with Some e => expired_at e (env_now env n) | None => false end.

(** The rows a scan between the readings [t] and [t'] kept, each with what it
    returned for it: a row is kept or dropped by its expiry at one of the readings. *)
Inductive picked {A} (R : bytes * bytes -> A -> Prop) (t t' : nat) : list (bytes * bytes) -> list A -> Prop :=
  | picked_nil : picked R t t' [] []
  | picked_take r rows x xs n :
      (t <= n <= t')%nat -> row_expired r n = false -> R r x -> picked R t t' rows xs ->
      picked R t t' (r :: rows) (x :: xs)
  | picked_drop r rows xs n :
      (t <= n <= t')%nat -> row_expired r n = true -> picked R t t' rows xs -> picked R t t' (r :: rows) xs.

Lemma picked_mono {A} (R R' : bytes * bytes -> A -> Prop) t1 t1' t2 t2' rows xs :
  (t2 <= t1)%nat -> (t1' <= t2')%nat -> (forall r x, R r x -> R' r x) ->
  picked R t1 t1' rows xs -> picked R' t2 t2' rows xs.
Proof.
  intros H1 H2 HR. induction 1 as [|r rows x xs n Hn He Hx _ IH|r rows xs n Hn He _ IH]; [constructor| |].
  - apply (picked_take _ _ _ _ _ _ _ n); auto. lia.
  - apply (picked_drop _ _ _ _ _ _ n); auto. lia.
Qed.

Lemma picked_app {A} (R : bytes * bytes -> A -> Prop) t t' rows xs rows' xs' :
  picked R t t' rows xs -> picked R t t' rows' xs' -> picked R t t' (rows ++ rows') (xs ++ xs').
Proof. induction 1; cbn; eauto using picked. Qed.

Lemma picked_length {A} (R : bytes * bytes -> A -> Prop) t t' rows xs :
  picked R t t' rows xs -> (List.length xs <= List.length rows)%nat.
Proof. induction 1; cbn; lia. Qed.

(** The outcome of a collecting loop: [done] rows consumed, the rows [rest] ahead. A
    loop that stops with rows of the listing ahead stopped at the limit, right after
    the row of its last element. *)
Record scanned {A} (R : bytes * bytes -> A -> Prop) (boundary : bytes) (limit : Z)
    (rows : list (bytes * bytes)) (acc : list A) (res : list A * list (bytes * bytes)) w w' : Prop := {
  sc_quiet : quietly w w';
  sc_db : w_db w' = w_db w;
  sc_done : exists done xs, rows = done ++ res.2 /\ res.1 = rev xs ++ acc
    /\ picked R (w_tick w) (w_tick w') done xs /\ Forall (fun r => has_prefix boundary r.1 = true) done
    /\ (has_prefix boundary <$> (fst <$> head res.2) = Some true ->
        at_limit limit res.1 = true
        /\ (done = [] /\ xs = [] \/ exists done' r xs' x, done = done' ++ [r] /\ xs = xs' ++ [x] /\ R r x));
  sc_bound : 0 < limit -> Z.of_nat (List.length acc) <= limit -> Z.of_nat (List.length res.1) <= limit
}.

Section Steps.

Context {A : Type} (R : bytes * bytes -> A -> Prop) (boundary : bytes) (limit : Z).

Lemma scanned_stop rows acc w :
  (has_prefix boundary <$> (fst <$> head rows) = Some true -> at_limit limit acc = true) ->
  scanned R boundary limit rows acc (acc, rows) w w.
Proof.
  intros Hs. split; cbn; [by split|done| |done]. exists [], []. split_and!; try done; [constructor|].
  intros Hh. split; [by apply Hs|by left].
Qed.

Lemma scanned_skip r n rows acc res w w1 w2 :
  has_prefix boundary r.1 = true -> at_limit limit acc = false -> quietly w w1 -> w_db w1 = w_db w ->
  (w_tick w <= n <= w_tick w1)%nat -> row_expired r n = true ->
  scanned R boundary limit rows acc res w1 w2 -> scanned R boundary limit (r :: rows) acc res w w2.
Proof.
  intros Hb Hl [Q1 T1] D1 Hn He [[Q2 T2] D2 (done & xs & -> & Hacc & Hp & Hf & Hs) Hbd].
  split; [split; [congruence|lia]|congruence| |done].
  exists (r :: done), xs. split_and!; try done; [|by constructor|].
  - eapply (picked_drop _ _ _ _ _ _ n); [lia|done|]. eapply picked_mono; [..|exact Hp]; [lia|lia|done].
  - intros Hh. destruct (Hs Hh) as [H1 H2]. split; [done|]. right.
    destruct H2 as [[-> ->]|(done' & r' & xs' & x & -> & -> & Hr)]; [cbn in Hacc; congruence|]. by exists (r :: done'), r', xs', x.
Qed.

Lemma scanned_take r n x rows acc res w w1 w2 :
  has_prefix boundary r.1 = true -> at_limit limit acc = false -> quietly w w1 -> w_db w1 = w_db w ->
  (w_tick w <= n <= w_tick w1)%nat -> row_expired r n = false -> R r x ->
  scanned R boundary limit rows (x :: acc) res w1 w2 -> scanned R boundary limit (r :: rows) acc res w w2.
Proof.
  intros Hb Hl [Q1 T1] D1 Hn He HR [[Q2 T2] D2 (done & xs & -> & Hacc & Hp & Hf & Hs) Hbd].
  split; [split; [congruence|lia]|congruence| |].
  - exists (r :: done), (x :: xs). split_and!; try done; [by rewrite Hacc; cbn; rewrite <- app_assoc| |by constructor|].
    + eapply (picked_take _ _ _ _ _ _ _ n); [lia|done|done|]. eapply picked_mono; [..|exact Hp]; [lia|lia|done].
    + intros Hh. destruct (Hs Hh) as [H1 H2]. split; [done|]. right.
      destruct H2 as [[-> ->]|(done' & r' & xs' & x' & -> & -> & Hr)]; [by exists [], r, [], x|].
      by exists (r :: done'), r', (x :: xs'), x'.
  - intros H0 Ha. apply Hbd; [done|]. unfold at_limit in Hl. cbn [List.length].
    apply andb_false_iff in Hl as [Hl|Hl]; bool_facts; lia.
Qed.

End Steps.

(** ** The two loops *)

Definition key_row (r : bytes * bytes) (k : bytes) : Prop := k = ExtractUserKey r.1.

Lemma list_loop_scanned boundary limit rows acc w :
  wp (list_loop env boundary limit rows acc) (fun res w' => scanned key_row boundary limit rows acc res w w') w.
Proof.
  revert acc w. induction rows as [|[k v] rows IH]; intros acc w; cbn [list_loop]; [by apply wp_ret, scanned_stop|].
  destruct (has_prefix boundary k) eqn:Hb; cbn [negb]; [|apply wp_ret, scanned_stop; cbn; congruence].
  destruct (at_limit limit acc) eqn:Hl; [by apply wp_ret, scanned_stop|].
  apply wp_bind. rewrite expiry_spec. destruct (proto_Unmarshal v) as [vm|] eqn:Ev; cbn [fmap option_fmap option_map].
  - apply wp_check_expired. intros w1 Q1 D1 _. pose proof Q1 as [_ T1].
    destruct (expired_at (Expiry vm) (env_now env (w_tick w))) eqn:Ex; (eapply wp_mono; [apply IH|]); intros res w2 Hs.
    + eapply (scanned_skip _ _ _ _ (w_tick w)); try exact Hs; try done; try lia. unfold row_expired. cbn. by rewrite Ev.
    + eapply (scanned_take _ _ _ _ (w_tick w)); try exact Hs; try done; try lia. unfold row_expired. cbn. by rewrite Ev.
  - apply wp_ret. eapply wp_mono; [apply IH|]. intros res w2 Hs.
    eapply (scanned_take _ _ _ _ (w_tick w)); try exact Hs; try done; try lia. unfold row_expired. cbn. by rewrite Ev.
Qed.

(** The value a listing returns for a decoded row: omitted above the cap, otherwise
    the stored bytes (nothing if reading them failed). *)
Definition kv_value (disk : gmap bytes bytes) (vm : ValueMessage) (value : bytes) (omitted : bool) : Prop :=
  omitted = (MaxListValueSize <? ValueLength vm)
  /\ (omitted = true -> value = EmptyString)
  /\ (omitted = false -> forall data, holds_value vm data disk ->
        value = data \/ value = EmptyString /\ io_failed env).

Definition kv_row (disk : gmap bytes bytes) (r : bytes * bytes) (kv : KeyValue) : Prop :=
  kv_Key kv = ExtractUserKey r.1
  /\ match proto_Unmarshal r.2 with
     | None => kv = MkKV (kv_Key kv) EmptyString 0 false
     | Some vm => kv_ValueLength kv = ValueLength vm /\ kv_value disk vm (kv_Value kv) (kv_ValueOmitted kv)
     end.

Lemma wp_read_or_nil data (Q : bytes -> World DB SM -> Prop) w :
  (forall r, r = data \/ r = EmptyString /\ io_failed env -> Q r (tick w)) ->
  wp (read_or_nil env data) Q w.
Proof.
  intros HQ. apply wp_bind, wp_syscall. destruct (env_fault env (w_tick w)) as [e|] eqn:E; apply wp_ret, HQ; [|by left].
  right. split; [done|]. by eexists _, _.
Qed.

(** Refutes two different value types of one message. *)
Ltac value_types := unfold INLINE, SEGMENT, RAW_FILE in *; congruence.

Lemma wp_fm_Read_value vm w :
  ValueType vm = RAW_FILE ->
  wp (fm_Read env (RawFilePath vm) (ValueLength vm)) (fun r w' => (quietly w w' /\ w_db w' = w_db w)
    /\ forall data, holds_value vm data (w_disk w) -> match r with inr ob => ob = Some data | inl _ => io_failed env end) w.
Proof.
  intros Ht. split; [apply (fm_Read_quiet env)|]. intros data [[Hi _]|(_ & Hp & Hl & Hlen & Hd)]; [value_types|].
  rewrite Hlen. pose proof (fm_Read_spec env (RawFilePath vm) data w Hp Hl Hd) as Hr. unfold wp in Hr.
  destruct (fm_Read env (RawFilePath vm) (slen data) w) as [[e|ob] w']; [destruct Hr as [f Ef]; by eexists _, _|done].
Qed.

Lemma wp_list_value k vm w :
  wp (list_value env k vm)
    (fun r w' => quietly w w' /\ w_db w' = w_db w /\ kv_value (w_disk w) vm r.1 r.2) w.
Proof.
  unfold list_value. destruct (MaxListValueSize <? ValueLength vm) eqn:Ec.
  { apply wp_ret. by split_and!. }
  assert (forall r w', quietly w w' -> w_db w' = w_db w ->
    (forall data, holds_value vm data (w_disk w) -> r = data \/ r = EmptyString /\ io_failed env) ->
    wp (mret (r, false)) (fun r w' => quietly w w' /\ w_db w' = w_db w /\ kv_value (w_disk w) vm r.1 r.2) w') as Hret.
  { intros r w' Q D Hd. apply wp_ret. split_and!; try apply Q; try done. }
  apply wp_bind. destruct (ValueType vm =? INLINE) eqn:Ei; bool_facts.
  { apply wp_ret, Hret; [done|done|]. intros data [[_ Hd]|(Ht & _)]; [by left|value_types]. }
  destruct (ValueType vm =? SEGMENT) eqn:Es; bool_facts.
  { assert (forall data, ~ holds_value vm data (w_disk w)) as Hn by (intros data [[Ht _]|(Ht & _)]; value_types).
    apply wp_bind, wp_fun. unfold on_sm. destruct (sm_ReadEntry _ _ _ _ _) as [r sm]. cbn [fst snd].
    destruct r as [e|[data|]]; [by apply wp_ret, Hret; [..|intros d Hd; destruct (Hn d Hd)]| |
      by apply wp_ret, Hret; [..|intros d Hd; destruct (Hn d Hd)]].
    apply wp_read_or_nil. intros r _. apply Hret; [split; cbn; [done|lia]|done|]. intros d Hd. destruct (Hn d Hd). }
  destruct (ValueType vm =? RAW_FILE) eqn:Er; bool_facts.
  2: { apply wp_ret, Hret; [done|done|]. intros data [[Ht _]|(Ht & _)]; value_types. }
  apply wp_bind. eapply wp_mono; [by apply wp_fm_Read_value|]. intros r w1 [[[Q1 T1] D1] Hd]. cbn in Hd.
  destruct r as [e|[data|]].
  - apply wp_ret, Hret; [by split|done|]. intros d Hh. right. by split; [|apply (Hd d)].
  - apply wp_read_or_nil. intros r Hr. apply Hret; [split; cbn; [done|lia]|done|].
    intros d Hh. specialize (Hd d Hh). by simplify_eq.
  - apply wp_ret, Hret; [by split|done|]. intros d Hh. by specialize (Hd d Hh).
Qed.

Lemma list_kv_loop_scanned boundary limit rows acc w :
  wp (list_kv_loop env boundary limit rows acc)
    (fun res w' => scanned (kv_row (w_disk w)) boundary limit rows acc res w w') w.
Proof.
  revert acc w. induction rows as [|[k v] rows IH]; intros acc w; cbn [list_kv_loop]; [by apply wp_ret, scanned_stop|].
  destruct (has_prefix boundary k) eqn:Hb; cbn [negb]; [|apply wp_ret, scanned_stop; cbn; congruence].
  destruct (at_limit limit acc) eqn:Hl; [by apply wp_ret, scanned_stop|].
  destruct (proto_Unmarshal v) as [vm|] eqn:Ev.
  2: { eapply wp_mono; [apply IH|]. intros res w2 Hs. eapply (scanned_take _ _ _ _ (w_tick w)); try exact Hs; try done; try lia.
    - unfold row_expired. cbn. by rewrite Ev.
    - split; cbn; [done|]. by rewrite Ev. }
  apply wp_bind, wp_check_expired. intros w1 Q1 D1 _. pose proof Q1 as [Q1' T1].
  destruct (expired_at (Expiry vm) (env_now env (w_tick w))) eqn:Ex.
  - rewrite <- Q1'. eapply wp_mono; [apply IH|]. intros res w2 Hs.
    eapply (scanned_skip _ _ _ _ (w_tick w)); try exact Hs; try done; try lia. unfold row_expired. cbn. by rewrite Ev.
  - apply wp_bind. eapply wp_mono; [apply wp_list_value|]. intros [data omitted] w2 ([Q2 T2] & D2 & Hv). cbn in Hv.
    rewrite <- Q1', <- Q2. eapply wp_mono; [apply IH|]. intros res w3 Hs.
    eapply (scanned_take _ _ _ _ (w_tick w)); try exact Hs; try done; try lia; try congruence.
    + split; [congruence|lia].
    + unfold row_expired. cbn. by rewrite Ev.
    + split; cbn; [done|]. rewrite Ev. split; [done|]. by rewrite Q2.
Qed.

(** ** One page *)

Definition iter_failed : Prop :=
  exists seek db m l e db', represents (DB := DB) db m /\ db_Iterate seek db = ((l, Some e), db').

(** A page is what the scan picked from a front part of the rows after its start; it
    announces more exactly when rows are left, and then its continuation key is that
    of the last row it consumed. *)
Record page {A} (R : bytes * bytes -> A -> Prop) (key_of : A -> bytes) (p s : bytes) (limit : Z) m (t t' : nat)
    (xs : list A) (last : bytes) (more : bool) (done rest : list (bytes * bytes)) : Prop := {
  pg_rows : after s (listed p m) = done ++ rest;
  pg_picked : picked R t t' done xs;
  pg_limit : 0 < limit -> Z.of_nat (List.length xs) <= limit;
  pg_more : more = true <-> rest <> [];
  pg_last : more = true -> 0 < limit /\ Z.of_nat (List.length xs) = limit
    /\ exists done' r x, done = done' ++ [r] /\ R r x /\ last = key_of x;
  pg_end : more = false -> last = EmptyString
}.

Lemma has_more_spec p rest : has_more p rest = true <-> prefix_rows (MakeMetadataKey p) rest <> [].
Proof.
  unfold has_more. rewrite prefixBoundary_eq. destruct rest as [|[k v] rest]; [done|]. cbn [prefix_rows fst].
  destruct (has_prefix (MakeMetadataKey p) k) eqn:E; [|done]. split; [done|]. intros _. cbn [andb].
  apply has_prefix_true in E as [t ->]. unfold MakeMetadataKey. rewrite sapp_assoc.
  change (MetadataPrefix +:+ (p +:+ t)) with (MakeMetadataKey (p +:+ t)).
  by rewrite ExtractUserKey_Make, has_prefix_app, orb_true_r.
Qed.

Lemma prefix_rows_done p done rest :
  Forall (fun r => has_prefix p r.1 = true) done -> prefix_rows p (done ++ rest) = done ++ prefix_rows p rest.
Proof. induction 1 as [|r done Hr _ IH]; cbn; [done|]. by rewrite Hr, IH. Qed.

Lemma prefix_rows_nonempty p rest tail :
  rest <> [] -> prefix_rows p (rest ++ tail) <> [] <-> prefix_rows p rest <> [].
Proof. destruct rest as [|r rest]; cbn; [done|]. by case_match. Qed.

Lemma skip_start_app s l tail : l <> [] -> skip_start s (l ++ tail) = skip_start s l ++ tail.
Proof. destruct l as [|[k v] l]; [done|]. cbn. by case_match. Qed.

Lemma head_prefix p rest :
  prefix_rows p rest <> [] <-> has_prefix p <$> (fst <$> head rest) = Some true.
Proof. destruct rest as [|r rest]; cbn; [done|]. case_match; naive_solver. Qed.

Lemma scanned_page {A} (R : bytes * bytes -> A -> Prop) key_of p s limit m l tail err res w w' :
  l ++ tail = rows_from (seekKey p s) m -> (err = None -> tail = []) -> iter_Err res.2 err = None (A := error) ->
  s = EmptyString \/ has_prefix p s = true ->
  scanned R (prefixBoundary p) limit (skip_start s l) [] res w w' ->
  exists done rest, page R key_of p s limit m (w_tick w) (w_tick w') (rev res.1)
    (if has_more p res.2 then default EmptyString (key_of <$> head res.1) else EmptyString) (has_more p res.2) done rest.
Proof.
  intros Hl Ht He Hs [_ _ (done & xs & Hrows & Hacc & Hp & Hf & Hstop) Hbd].
  rewrite prefixBoundary_eq in Hf, Hstop. rewrite app_nil_r in Hacc.
  assert (skip_start s (l ++ tail) = done ++ (res.2 ++ tail) /\ (res.2 <> [] \/ tail = [])) as [Hsk Hne].
  { rewrite app_assoc, <- Hrows. destruct tail as [|r tail]; [rewrite !app_nil_r; auto|].
    destruct err as [e|]; [|by specialize (Ht eq_refl)]. destruct (res.2) eqn:E; [done|]. split; [|by left].
    apply skip_start_app. intros ->. by destruct done. }
  exists done, (prefix_rows (MakeMetadataKey p) (res.2 ++ tail)).
  split; [|by rewrite Hacc, rev_involutive| | | |by intros ->].
  - by rewrite <- scan_rows, <- Hl, Hsk, prefix_rows_done.
  - intros H0. rewrite length_rev. by apply Hbd; cbn; [|lia].
  - rewrite has_more_spec. destruct Hne as [Hne| ->]; [by rewrite prefix_rows_nonempty|by rewrite app_nil_r].
  - intros Hm. rewrite Hm. apply has_more_spec, head_prefix in Hm. destruct (Hstop Hm) as [Hlim Hlast].
    unfold at_limit in Hlim. bool_facts. split; [lia|]. split; [rewrite length_rev; specialize (Hbd ltac:(lia) ltac:(cbn; lia)); lia|].
    destruct Hlast as [[-> ->]|(done' & r & xs' & x & -> & -> & Hr)]; [rewrite Hacc in *; cbn in *; lia|].
    exists done', r, x. split_and!; [done|done|]. by rewrite Hacc, rev_app_distr.
Qed.

(** A page, or an error that comes from the iterator. *)
Definition page_post {A} (R : bytes * bytes -> A -> Prop) key_of p s limit m w
    (r : error + list A * bytes * bool) w' : Prop :=
  quietly w w' /\ represents (w_db w') m
  /\ match r with
     | inl _ => iter_failed
     | inr (xs, last, more) => exists done rest, page R key_of p s limit m (w_tick w) (w_tick w') xs last more done rest
     end.

Lemma wp_Iterate_failing m seek (Q : list (bytes * bytes) * option error -> World DB SM -> Prop) w :
  represents (w_db w) m ->
  (forall l err rest db, represents db m -> l ++ rest = rows_from seek m -> (err = None -> rest = []) ->
     (is_Some err -> iter_failed) -> Q (l, err) (set_db db w)) ->
  wp (Iterate_ seek) Q w.
Proof.
  intros Hm H1. unfold wp, Iterate_, on_db. destruct (db_Iterate seek (w_db w)) as [[l err] db] eqn:E.
  destruct (rdb_iterate _ _ _ _ _ _ Hm E) as (Hm' & rest & Hl & He). cbn. eapply H1; try done.
  intros [e ->]. by exists seek, (w_db w), m, l, e, db.
Qed.

Lemma ListKeysWithPagination_page p s limit m w :
  represents (w_db w) m -> s = EmptyString \/ has_prefix p s = true ->
  wp (ListKeysWithPagination env p s limit) (page_post key_row id p s limit m w) w.
Proof.
  intros Hm Hs. unfold ListKeysWithPagination. apply wp_bind. eapply wp_Iterate_failing; [exact Hm|].
  intros l err tail db Hdb Hl Ht Hf. apply wp_bind. eapply wp_mono; [apply list_loop_scanned|].
  intros [acc rest] w1 Hsc. cbn [fst snd] in *. pose proof Hsc as [Q1 D1 _ _]. cbn in Q1, D1.
  destruct (iter_Err rest err) as [e|] eqn:Ee; apply wp_ret; (split_and!; [apply Q1|by rewrite D1|]).
  - apply Hf. by destruct rest, err.
  - destruct (scanned_page key_row id p s limit m l tail err (acc, rest) (set_db db w) w1
      Hl Ht Ee Hs Hsc) as (done & rest' & Hpg).
    exists done, rest'. cbn [fst snd] in Hpg. by rewrite option_fmap_id in Hpg.
Qed.

Lemma ListKeyValuesWithPagination_page p s limit m w :
  represents (w_db w) m -> s = EmptyString \/ has_prefix p s = true ->
  wp (ListKeyValuesWithPagination env p s limit) (page_post (kv_row (w_disk w)) kv_Key p s limit m w) w.
Proof.
  intros Hm Hs. unfold ListKeyValuesWithPagination. apply wp_bind. eapply wp_Iterate_failing; [exact Hm|].
  intros l err tail db Hdb Hl Ht Hf. apply wp_bind. eapply wp_mono; [apply list_kv_loop_scanned|].
  intros [acc rest] w1 Hsc. cbn [fst snd] in *. pose proof Hsc as [Q1 D1 _ _]. cbn in Q1, D1.
  destruct (iter_Err rest err) as [e|] eqn:Ee; apply wp_ret; (split_and!; [apply Q1|by rewrite D1|]).
  - apply Hf. by destruct rest, err.
  - apply (scanned_page (kv_row (w_disk w)) kv_Key p s limit m l tail err (acc, rest) (set_db db w) w1 Hl Ht Ee Hs Hsc).
Qed.

(** ** Whole listings *)

Lemma listed_sorted p m : StronglySorted row_lt (listed p m).
Proof. apply filter_sorted, sorted_rows_strict. Qed.

Lemma elem_of_listed p m r :
  r ∈ listed p m <-> m !! r.1 = Some r.2 /\ exists key, r.1 = MakeMetadataKey key /\ has_prefix p key = true.
Proof.
  unfold listed. rewrite list_elem_of_filter. destruct r as [k v]. rewrite elem_of_sorted_rows. cbn. split.
  - intros [[t ->]%has_prefix_true Hk]. split; [done|]. exists (p +:+ t). split; [|apply has_prefix_app].
    unfold MakeMetadataKey. by rewrite sapp_assoc.
  - intros [Hk (key & -> & [t ->]%has_prefix_true)]. split; [|done]. unfold MakeMetadataKey.
    rewrite <- sapp_assoc. apply has_prefix_app.
Qed.

(** The keys of a listing: strictly increasing, each a stored key with the prefix
    that was unexpired at some reading, and every stored key with the prefix that was
    unexpired throughout. *)
Record lists (p : bytes) m (t t' : nat) (ks : list bytes) : Prop := {
  li_sorted : StronglySorted (fun a b => slt a b = true) ks;
  li_sound k : k ∈ ks -> exists v n, m !! MakeMetadataKey k = Some v /\ has_prefix p k = true
    /\ (t <= n <= t')%nat /\ row_expired (MakeMetadataKey k, v) n = false;
  li_complete k v : m !! MakeMetadataKey k = Some v -> has_prefix p k = true ->
    (forall n, (t <= n <= t')%nat -> row_expired (MakeMetadataKey k, v) n = false) -> k ∈ ks
}.

Lemma picked_in {A} (R : bytes * bytes -> A -> Prop) t t' rows xs x :
  picked R t t' rows xs -> x ∈ xs -> exists r n, r ∈ rows /\ R r x /\ (t <= n <= t')%nat /\ row_expired r n = false.
Proof.
  induction 1 as [|r rows y xs n Hn He Hr _ IH|r rows xs n Hn He _ IH]; intros Hx; [set_solver| |].
  - apply elem_of_cons in Hx as [->|Hx]; [exists r, n; split_and!; try done; [left|lia..]|].
    destruct (IH Hx) as (r' & n' & ? & ?). exists r', n'. split; [by right|done].
  - destruct (IH Hx) as (r' & n' & ? & ?). exists r', n'. split; [by right|done].
Qed.

Lemma picked_all {A} (R : bytes * bytes -> A -> Prop) t t' rows xs r :
  picked R t t' rows xs -> r ∈ rows -> (forall n, (t <= n <= t')%nat -> row_expired r n = false) ->
  exists x, x ∈ xs /\ R r x.
Proof.
  induction 1 as [|r' rows y xs n Hn He Hr _ IH|r' rows xs n Hn He _ IH]; intros Hx Hall; [set_solver| |].
  - apply elem_of_cons in Hx as [->|Hx]; [exists y; split; [left|done]|].
    destruct (IH Hx Hall) as (x & ? & ?). exists x. split; [by right|done].
  - apply elem_of_cons in Hx as [->|Hx]; [by rewrite Hall in He|]. by apply IH.
Qed.

Lemma picked_sorted t t' rows ks :
  picked key_row t t' rows ks -> StronglySorted row_lt rows ->
  Forall (fun r => r.1 = MakeMetadataKey (ExtractUserKey r.1)) rows ->
  StronglySorted (fun a b => slt a b = true) ks.
Proof.
  induction 1 as [|r rows y xs n Hn He Hr Hp IH|r rows xs n Hn He _ IH]; intros Hs Hf; [constructor| |];
    apply StronglySorted_inv in Hs as [Hs Hlt]; apply Forall_cons in Hf as [Hk Hf]; [|by apply IH].
  constructor; [by apply IH|]. apply Forall_forall. intros k Hin.
  destruct (picked_in _ _ _ _ _ _ Hp Hin) as (r' & _ & Hr' & Ek & _). rewrite Forall_forall in Hlt, Hf.
  specialize (Hlt r' Hr'). unfold row_lt in Hlt. rewrite Hk, (Hf r' Hr') in Hlt. unfold key_row in *. subst.
  by rewrite <- (slt_app_l MetadataPrefix).
Qed.

Lemma picked_lists p m t t' ks : picked key_row t t' (listed p m) ks -> lists p m t t' ks.
Proof.
  intros Hp. split.
  - eapply picked_sorted; [done|apply listed_sorted|]. apply Forall_forall.
    intros r (_ & key & -> & _)%elem_of_listed. by rewrite ExtractUserKey_Make.
  - intros k Hk. destruct (picked_in _ _ _ _ _ _ Hp Hk) as ([k' v] & n & Hr & E & Hn & He).
    apply elem_of_listed in Hr as (Hv & key & E' & Hpre). cbn in *. subst k'. unfold key_row in E. cbn in E.
    rewrite ExtractUserKey_Make in E. subst key. by exists v, n.
  - intros k v Hv Hpre Hall. destruct (picked_all _ _ _ _ _ (MakeMetadataKey k, v) Hp) as (x & Hx & E); [|done|].
    + apply elem_of_listed. cbn. eauto.
    + unfold key_row in E. cbn in E. rewrite ExtractUserKey_Make in E. by subst.
Qed.

(** The rows after the last row of a page are the rows the page left. *)
Lemma after_page s L done r rest key :
  StronglySorted row_lt L -> after s L = done ++ r :: rest -> r.1 = MakeMetadataKey key -> key <> EmptyString ->
  after key L = rest.
Proof.
  intros Hs Ha Er Hne. unfold after at 1. rewrite decide_False, <- Er by done.
  assert (StronglySorted row_lt (after s L)) as Hs' by (unfold after; case_decide; [done|by apply filter_sorted]).
  assert (filter (fun x => slt r.1 x.1 = true) L = filter (fun x => slt r.1 x.1 = true) (after s L)) as ->.
  { unfold after in *. case_decide as E; [done|]. rewrite list_filter_filter. apply list_filter_iff.
    intros x. split; [|by intros []]. intros Hx. split; [done|]. eapply slt_trans; [|exact Hx].
    assert (r ∈ filter (fun r => slt (MakeMetadataKey s) r.1 = true) L) as Hr by (rewrite Ha; apply elem_of_app; right; left).
    by apply list_elem_of_filter in Hr as [? _]. }
  rewrite Ha in *. clear Ha. induction done as [|x done IH]; cbn [app] in *;
    apply StronglySorted_inv in Hs' as [Hs' Hf]; rewrite filter_cons.
  - rewrite decide_False by (by rewrite slt_irrefl). clear -Hf. induction Hf as [|y L Hy Hf IH]; [done|].
    rewrite filter_cons, decide_True by done. by rewrite IH.
  - rewrite decide_False; [by apply IH|]. rewrite Forall_forall in Hf.
    assert (slt x.1 r.1 = true) as Hx by (apply Hf, elem_of_app; right; left). by rewrite slt_asym.
Qed.

Lemma after_listed s p m r : r ∈ after s (listed p m) -> r ∈ listed p m.
Proof. unfold after. case_decide; [done|]. by intros [_ ?]%list_elem_of_filter. Qed.

(** A page that announces more has a continuation key with the prefix, unless the empty
    key is stored. *)
Lemma page_token p s limit m ks last w w' :
  represents (w_db w) m -> m !! MetadataPrefix = None -> s = EmptyString \/ has_prefix p s = true ->
  ListKeysWithPagination env p s limit w = (inr (ks, last, true), w') ->
  represents (w_db w') m /\ last <> EmptyString /\ has_prefix p last = true.
Proof.
  intros Hm Hempty Hs E. pose proof (ListKeysWithPagination_page p s limit m w Hm Hs) as Hp.
  eapply wp_run in Hp; [|exact E]. destruct Hp as (_ & Hm1 & done & rest & [Hrows _ _ _ Hlast _]).
  destruct (Hlast eq_refl) as (_ & _ & done' & r & x & -> & Hx & ->). unfold key_row in Hx.
  assert (r ∈ listed p m) as Hr by (eapply after_listed; rewrite Hrows; set_solver).
  apply elem_of_listed in Hr as (Hv & key & Er & Hpre). rewrite Er, ExtractUserKey_Make in Hx. subst x.
  split_and!; [done| |done]. cbn. intros ->. change (MakeMetadataKey EmptyString) with MetadataPrefix in Er. congruence.
Qed.

(** A client that follows the continuation keys until a page reports no more. *)
Fixpoint list_pages (fuel : nat) (p s : bytes) (limit : Z) : M (DB := DB) (SM := SM) (option (list bytes)) :=
  match fuel with
  | O => mret None
  | S fuel =>
      r ← ListKeysWithPagination env p s limit;
      match r with
      | inl _ => mret None
      | inr (ks, last, more) =>
          if (more : bool) then rs ← list_pages fuel p last limit; mret (app ks <$> rs) else mret (Some ks)
      end
  end.

Lemma list_pages_picked fuel p s limit m w :
  represents (w_db w) m -> ~ iter_failed -> m !! MetadataPrefix = None -> 0 < limit ->
  s = EmptyString \/ has_prefix p s = true -> (List.length (after s (listed p m)) < fuel)%nat ->
  wp (list_pages fuel p s limit) (fun r w' => quietly w w'
    /\ exists ks, r = Some ks /\ picked key_row (w_tick w) (w_tick w') (after s (listed p m)) ks) w.
Proof.
  intros Hm Hit Hempty Hlim. revert s w Hm. induction fuel as [|fuel IH]; intros s w Hm Hs Hfuel; [lia|].
  cbn [list_pages]. apply wp_bind. eapply wp_mono; [by apply ListKeysWithPagination_page|].
  intros [e|[[ks last] more]] w1 (Q1 & Hm1 & Hr); [done|]. destruct Hr as (done & rest & [Hrows Hp _ Hmore Hlast _]).
  destruct more.
  2: { apply wp_ret. split; [done|]. exists ks. split; [done|]. destruct rest; [by rewrite Hrows, app_nil_r|].
       destruct Hmore as [_ Hmore]. by specialize (Hmore ltac:(done)). }
  destruct (Hlast eq_refl) as (_ & _ & done' & r & x & -> & Hx & ->). unfold key_row in Hx. cbn.
  assert (r ∈ listed p m) as Hr by (eapply after_listed; rewrite Hrows; set_solver).
  apply elem_of_listed in Hr as (Hv & key & Er & Hpre). rewrite Er, ExtractUserKey_Make in Hx. subst x.
  assert (key <> EmptyString) as Hne by (intros ->; change (MakeMetadataKey EmptyString) with MetadataPrefix in Er; congruence).
  rewrite <- app_assoc in Hrows. cbn in Hrows.
  assert (after key (listed p m) = rest) as Ha by (eapply after_page; eauto using listed_sorted).
  apply wp_bind. eapply wp_mono; [apply (IH key); [done|by right|rewrite Ha, Hrows, length_app in *; cbn in *; lia]|].
  intros rs w2 (Q2 & ks' & -> & Hp'). apply wp_ret. destruct Q1 as [Q1 T1], Q2 as [Q2 T2].
  split; [split; [congruence|lia]|]. exists (ks ++ ks'). split; [done|]. rewrite Hrows.
  change (r :: rest) with ([r] ++ rest). rewrite app_assoc. apply picked_app.
  - eapply picked_mono; [..|exact Hp]; [lia|lia|done].
  - rewrite <- Ha. eapply picked_mono; [..|exact Hp']; [lia|lia|done].
Qed.

(** Following the pages. With a positive limit, a client that starts without a
    continuation key and follows the returned ones reaches the last page (within as
    many calls as there are listed rows, plus one) unless the iterator fails, and has
    then seen, once and in increasing order, every stored key with the prefix that
    stayed unexpired, and no key that was absent or expired throughout. The empty key
    must not be stored: its page would return an empty continuation key. *)
Theorem pages_list_every_live_key p limit m w :
  represents (w_db w) m -> ~ iter_failed -> m !! MetadataPrefix = None -> 0 < limit ->
  let '(r, w') := list_pages (S (List.length (listed p m))) p EmptyString limit w in
  exists ks, r = Some ks /\ lists p m (w_tick w) (w_tick w') ks.
Proof.
  intros Hm Hit Hempty Hlim.
  pose proof (list_pages_picked (S (List.length (listed p m))) p EmptyString limit m w Hm Hit Hempty Hlim) as Hp.
  destruct (list_pages _ _ _ _ w) as [r w'] eqn:E. eapply wp_run in Hp; [|exact E|by left|].
  - destruct Hp as (_ & ks & -> & Hk). exists ks. split; [done|]. by apply picked_lists.
  - unfold after. rewrite decide_True by done. lia.
Qed.

(** Listing all keys. [ListKeys] returns, in increasing order and without
    repetition, every stored key with the prefix that stayed unexpired during the
    call and none that was absent or expired throughout; it leaves the committed rows
    and the files alone, and fails only when the iterator does. *)
Theorem list_keys_sorted_complete p m w :
  represents (w_db w) m ->
  let '(r, w') := ListKeys env p w in
  represents (w_db w') m /\ w_disk w' = w_disk w
  /\ match r with inl _ => iter_failed | inr ks => lists p m (w_tick w) (w_tick w') ks end.
Proof.
  intros Hm. assert (wp (ListKeys env p) (fun r w' => represents (w_db w') m /\ w_disk w' = w_disk w
    /\ match r with inl _ => iter_failed | inr ks => lists p m (w_tick w) (w_tick w') ks end) w) as Hp.
  { apply wp_bind. eapply wp_mono; [apply (ListKeysWithPagination_page p EmptyString 0 m); [done|by left]|].
    intros [e|[[ks last] more]] w1 ([Q1 _] & Hm1 & Hr); apply wp_ret; (split_and!; [done|done|]); [done|].
    destruct Hr as (done & rest & [Hrows Hp _ Hmore Hlast _]). apply picked_lists.
    destruct more; [destruct (Hlast eq_refl); lia|]. destruct rest; [|by specialize (proj2 Hmore ltac:(done))].
    rewrite app_nil_r in Hrows. unfold after in Hrows. rewrite decide_True in Hrows by done. by rewrite Hrows. }
  by destruct (ListKeys env p w) as [r w'] eqn:E; eapply wp_run in Hp.
Qed.

(** pages with values. [ListKeyValuesWithPagination] consumes a front part
    of the stored rows after the continuation key, returns an entry for each row not
    expired (at most [limit]), announces more exactly when rows are left, and then
    returns as continuation key the last key of a full page. Each entry carries the row's value length, omits values
    above 1 MiB, and otherwise returns the bytes the row stores inline or in its raw
    file (or nothing if reading the file failed). *)
Theorem key_value_page_matches_rows p s limit m w :
  represents (w_db w) m -> s = EmptyString \/ has_prefix p s = true ->
  let '(r, w') := ListKeyValuesWithPagination env p s limit w in
  page_post (kv_row (w_disk w)) kv_Key p s limit m w r w'.
Proof.
  intros Hm Hs. pose proof (ListKeyValuesWithPagination_page p s limit m w Hm Hs) as Hp.
  by destruct (ListKeyValuesWithPagination env p s limit w) as [r w'] eqn:E; eapply wp_run in Hp.
Qed.

End Pages.
