(* ===== verification/DeleteBatch.v ===== *)
(** * Batches that delete rows

    The cleaner's batches delete metadata rows together with their index entries and
    add delete-index credits. This file says what such a batch does to the rows, to
    the logical size and to the reference-safety invariant. *)

From S2P Require Import Prelude Keys Errors Message Merge Wire Rocks World Files RangeReader Storage Wp Safety StorageSpec StorageProps LiveSize SizeProps.

Open Scope Z_scope.

#[local] Arguments has_prefix : simpl never.

Lemma Forall_one {A} (P : A -> Prop) x : P x -> Forall P [x].
Proof. intros Hx. by apply Forall_cons_2; [|apply Forall_nil_2]. Qed.

Section DeleteBatch.

Context {PB : Protobuf}.
Implicit Types m : gmap bytes bytes.

(** Deletes of metadata rows, and operations on the index key spaces. *)
Definition del_op (op : batch_op) : Prop :=
  (exists key, op = BDelete (MakeMetadataKey key)) \/ index_op op.

(** The user keys whose rows a batch deletes. *)
Definition row_deletes (ops : list batch_op) : list bytes :=
  omap (fun op => match op with
                  | BDelete k => if IsMetadataKey k then Some (ExtractUserKey k) else None
                  | _ => None
                  end) ops.

Lemma row_deletes_app o1 o2 : row_deletes (o1 ++ o2) = row_deletes o1 ++ row_deletes o2.
Proof. apply omap_app. Qed.

Lemma row_deletes_meta key : row_deletes [BDelete (MakeMetadataKey key)] = [key].
Proof. cbn. unfold IsMetadataKey, MakeMetadataKey at 1. by rewrite has_prefix_app, ExtractUserKey_Make. Qed.

Lemma quiet_not_metadata k : quiet_key k = true -> IsMetadataKey k = false.
Proof. unfold quiet_key, IsMetadataKey. intros Hk. bool_facts. done. Qed.

Lemma row_deletes_index ops : Forall index_op ops -> row_deletes ops = [].
Proof.
  induction 1 as [|op ops Ho _ IH]; [done|]. cbn. destruct op as [k v|k|k o]; cbn; [done| |done].
  cbn in Ho. rewrite quiet_not_metadata by done. done.
Qed.

Lemma del_op_plain ops : Forall del_op ops -> Forall plain_op ops.
Proof.
  intros Hf. eapply Forall_impl; [exact Hf|]. intros op [[key ->]|Ho]; [done|]. by destruct op.
Qed.

Lemma apply_batch_snoc m ops op : apply_batch m (ops ++ [op]) = apply_op (apply_batch m ops) op.
Proof. by rewrite apply_batch_app. Qed.

(** The rows after the batch. *)
Lemma del_batch_rows m ops key : Forall del_op ops ->
  apply_batch m ops !! MakeMetadataKey key
  = if decide (key ∈ row_deletes ops) then None else m !! MakeMetadataKey key.
Proof.
  induction ops as [|op ops IH] using rev_ind; intros Hf; [done|].
  apply Forall_app in Hf as [Hf Ho]. rewrite Forall_singleton in Ho. specialize (IH Hf).
  rewrite apply_batch_snoc, row_deletes_app. destruct Ho as [[key' ->]|Ho].
  - rewrite (row_deletes_meta key'). cbn [apply_op]. destruct (decide (key = key')) as [->|Hne].
    + rewrite lookup_delete_eq, decide_True; [done|]. apply elem_of_app. right. left.
    + rewrite lookup_delete_ne, IH by (apply MakeMetadataKey_ne; congruence).
      apply decide_ext. rewrite elem_of_app, list_elem_of_singleton. tauto.
  - rewrite (row_deletes_index [op]), app_nil_r by (by apply Forall_one). rewrite apply_op_other; [done|].
    by apply quiet_metadata, index_op_key.
Qed.

(** What deleting one more row frees. *)
Lemma del_batch_size_step m ops key :
  live_size (apply_batch m (ops ++ [BDelete (MakeMetadataKey key)]))
  = live_size (apply_batch m ops) - entry_size (apply_batch m ops) (MakeMetadataKey key).
Proof. rewrite apply_batch_snoc. apply live_size_delete. Qed.

Lemma index_batch_size m ops1 ops2 : Forall index_op ops2 ->
  live_size (apply_batch m (ops1 ++ ops2)) = live_size (apply_batch m ops1).
Proof. intros Ho. rewrite apply_batch_app. by apply index_ops_size. Qed.

Lemma del_batch_safe env cfg m disk t ops :
  Forall del_op ops -> ref_safe env cfg m disk t -> ref_safe env cfg (apply_batch m ops) disk t.
Proof.
  intros Hf. revert m. induction Hf as [|op ops Ho Hf IH]; intros m Hs; [done|].
  cbn. fold (apply_batch (apply_op m op) ops). apply IH. destruct Ho as [[key ->]|Ho]; [by apply ref_safe_delete|].
  by apply (ref_safe_index env cfg m disk t [op]), Forall_one.
Qed.

(** The file of a deleted row is no longer referenced. *)
Lemma del_batch_unreferenced env cfg m disk t ops key path len :
  Forall del_op ops -> ref_safe env cfg m disk t -> key ∈ row_deletes ops -> raw_at m key path len ->
  unreferenced (apply_batch m ops) path.
Proof.
  intros Hf Hs Hk Hr k l (vm & (v & E & Hu) & H1 & H2 & H3). rewrite del_batch_rows in E by done.
  case_decide as Hd; [done|]. apply Hd. rewrite (rs_uniq _ _ _ _ _ Hs k key path l len); [done| |done].
  exists vm. split; [by exists v|done].
Qed.

Lemma del_batch_backrefs ops m : Forall del_op ops -> backrefs_ok m -> backrefs_ok (apply_batch m ops).
Proof.
  intros Hf. apply backref_batch. eapply Forall_impl; [exact Hf|]. intros op [[key ->]|Ho]; [done|].
  assert (Forall backref_op [op]) as Hb by (by apply index_backref_op, Forall_one). by rewrite Forall_singleton in Hb.
Qed.

(** Deletes remove keys and never write a row outside the delete index. *)
Definition pure_delete (op : batch_op) : Prop := match op with BDelete _ => True | _ => False end.

Lemma pure_delete_lookup m ops k v : Forall pure_delete ops -> apply_batch m ops !! k = Some v -> m !! k = Some v.
Proof.
  intros Hf. revert m. induction Hf as [|op ops Ho Hf IH]; intros m; [done|].
  cbn. fold (apply_batch (apply_op m op) ops). intros E%IH. destruct op; cbn in *; try done.
  by apply lookup_delete_Some in E as [_ E].
Qed.

End DeleteBatch.

(** ** Reclaiming the files of deleted rows *)

Section Reclaim.

Context {DB SM : Type} {PB : Protobuf} {PL : ProtobufLaws} {RDB : RocksDB DB} {RL : RocksLaws DB}.
Context {SS : SegmentStore SM} (env : Env) (cfg : Config).
Context (Henv : env_ok env cfg).
Implicit Types w : World DB SM.
Implicit Types m : gmap bytes bytes.

(** Operations that reclaim files: queue entries and delete-index credits. *)
Definition reclaim_op (op : batch_op) : Prop :=
  match op with
  | BPut k _ => has_prefix DeletionQueuePrefix k = true
  | BDelete _ => False
  | BMerge k _ => IsDeleteIndexKey k = true
  end.

Lemma reclaim_op_key op : reclaim_op op ->
  IsMetadataKey (op_key op) = false /\ is_backref (op_key op) = false /\ is_index_entry (op_key op) = false.
Proof.
  destruct op as [k v|k|k o]; cbn; [|done|]; intros Hk; unfold IsMetadataKey, is_backref, is_index_entry.
  - split_and!; rewrite ?orb_false_iff; split_and?; by apply (prefix_excl DeletionQueuePrefix).
  - split_and!; rewrite ?orb_false_iff; split_and?; by apply (prefix_excl DeleteIndexPrefix).
Qed.

(** Rows and index entries survive reclaiming. *)
Lemma reclaim_lookup m ops k :
  Forall reclaim_op ops -> IsMetadataKey k || is_backref k || is_index_entry k = true ->
  apply_batch m ops !! k = m !! k.
Proof.
  intros Hf Hk. apply apply_batch_other. eapply Forall_impl; [exact Hf|]. intros op Ho%reclaim_op_key <-.
  destruct Ho as (E1 & E2 & E3). by rewrite E1, E2, E3 in Hk.
Qed.

Lemma reclaim_batch_size m ops : Forall reclaim_op ops -> live_size (apply_batch m ops) = live_size m.
Proof.
  intros Hf. apply live_size_batch. eapply Forall_impl; [exact Hf|]. intros op Ho%reclaim_op_key. apply Ho.
Qed.

Lemma reclaim_rows_at m ops key : Forall reclaim_op ops ->
  apply_batch m ops !! MakeMetadataKey key = m !! MakeMetadataKey key.
Proof.
  intros Hf. apply reclaim_lookup; [done|]. unfold IsMetadataKey, MakeMetadataKey. by rewrite has_prefix_app.
Qed.

Lemma wp_stageFileDeletion m vm (Q : () -> World DB SM -> Prop) w :
  represents (w_db w) m ->
  (forall q w', represents (w_db w') (apply_batch m q) -> frame w w' -> Forall reclaim_op q ->
     (forall disk t, ref_safe env cfg m disk t ->
        (ValueType vm = RAW_FILE -> unreferenced m (RawFilePath vm)
           /\ forall n, (t <= n)%nat -> RawFilePath vm <> path_of env cfg n) ->
        ref_safe env cfg (apply_batch m q) disk t) -> Q () w') ->
  wp (stageFileDeletion env vm) Q w.
Proof using Henv.
  intros Hm HQ. unfold stageFileDeletion. destruct (ValueType vm =? RAW_FILE) eqn:Er; bool_facts.
  { eapply wp_stageRawFileDeletion; [exact (clock_i64 _ _ Henv)|exact Hm|]. intros q w' H1 H2 H3.
    apply (HQ q); try done.
    - destruct H3 as [->|(_ & ts & _ & ->)]; [by apply Forall_nil_2|]. apply Forall_one, queue_key_prefix.
    - intros disk t Hs Hu. destruct (Hu Er). by eapply ref_safe_enqueued. }
  destruct (ValueType vm =? SEGMENT) eqn:Es; bool_facts.
  2: { by apply wp_ret, (HQ []). }
  unfold updateDeleteIndex. case_decide as Hp.
  { by apply wp_ret, (HQ []). }
  assert (index_op (BMerge (MakeDeleteIndexKey (SegmentPath vm)) (MakeDeleteIndexOperand 1 (ValueLength vm)))) as Ho
    by (cbn; apply has_prefix_app).
  apply wp_bind. eapply (wp_Write m); [exact Hm|by apply plain_regular, index_op_plain, Forall_one|..].
  - intros e db Hdb. apply wp_ret, (HQ []); auto with ocache.
  - intros db Hdb. apply wp_ret. eapply HQ; [exact Hdb|auto with ocache|by apply Forall_one|].
    intros disk t Hs _. by apply ref_safe_index, Forall_one.
Qed.

End Reclaim.
