(* ===== verification/Eviction.v ===== *)
(** * Eviction by index (storage/eviction.go, fifo.go, lru.go, diskspace.go)

    The disk-limit eviction both policies share, the pruning of old access buckets,
    and the two triggers of eviction: the logical cap and the free-space reserve.
    The state of a run (its write batch, the bytes and files of the keys staged in
    it, the totals of the committed batches) is a record threaded through the loop;
    the deferred finalisation runs on every way out, shutdown included. *)

From S2P Require Import Prelude Keys Errors Message Merge Wire Rocks World Files RangeReader Storage.

Open Scope Z_scope.

(** ** Index descriptors *)

Record evictionIndex := MkIndex {
  ei_policy : bytes;
  ei_prefix : bytes;
  ei_parseKey : bytes -> string + bytes;
  ei_backrefKey : bytes -> bytes
}.

Definition fifoEvictionIndex : evictionIndex :=
  MkIndex EvictionPolicyFIFO GetFifoIndexPrefix ParseFifoIndexKey MakeFifoBackrefKey.

Definition GetOldestAccessBucketPrefix : bytes := AccessBucketPrefix.

Definition lru_parseKey (entryKey : bytes) : string + bytes :=
  match ParseBucketedAccessKey entryKey with inl e => inl e | inr (key, _) => inr key end.

Definition lruEvictionIndex : evictionIndex :=
  MkIndex EvictionPolicyLRU GetOldestAccessBucketPrefix lru_parseKey MakeBucketedAccessIndexKey.

(** ** The float in the eviction target

    [int64(float64(max) * 0.9)]: both factors are rounded to 53 bits, the product is
    rounded again and truncated. *)

(** Division by [2^e], to nearest with ties to even. *)
Definition rne (z e : Z) : Z :=
  let q := z / 2 ^ e in
  let r := z mod 2 ^ e in
  if 2 * r <? 2 ^ e then q
  else if 2 ^ e <? 2 * r then q + 1
  else if Z.even q then q else q + 1.

(** A non-negative integer rounded to a 53-bit significand. *)
Definition round53 (z : Z) : Z :=
  let e := Z.log2 z - 52 in
  if e <=? 0 then z else rne z e * 2 ^ e.

(** 0.9 as a float64 is [8106479329266893 / 2^53]. *)
Definition evict_target (maxDiskUsage : Z) : Z :=
  round53 (round53 maxDiskUsage * 8106479329266893) / 2 ^ 53.

(** ** Free space (diskspace.go) *)

(** The fields of [syscall.Statfs_t] the code reads. *)
Record Statfs := MkStatfs { st_Frsize : Z; st_Bsize : Z; st_Blocks : Z; st_Bavail : Z }.

Definition clampToInt64 (v : Z) : Z := if 2 ^ 62 <? v then 2 ^ 62 else v.

Definition statfsBlockSize (st : Statfs) : Z := if 0 <? st_Frsize st then st_Frsize st else st_Bsize st.

(** Free and total bytes, or nothing when the measurement is unavailable. *)
Definition diskUsage (st : option Statfs) : option (Z * Z) :=
  match st with
  | None => None
  | Some st =>
      let bs := statfsBlockSize st in
      let total := clampToInt64 (u64 (st_Blocks st * bs)) in
      if total <=? 0 then None else Some (clampToInt64 (u64 (st_Bavail st * bs)), total)
  end.

Definition defaultDiskReserveBytes : Z := 2147483648.
Definition reserveVolumeFraction : Z := 10.
Definition reserveEvictSliceFraction : Z := 4.

(** The reserve on a volume, and the bytes one pass evicts below it. *)
Definition effective_reserve (total : Z) : Z :=
  let volCap := total ÷ reserveVolumeFraction in
  if (0 <? total) && (volCap <? defaultDiskReserveBytes) then volCap else defaultDiskReserveBytes.

Definition reserve_slice (reserve free totalSize : Z) : Z :=
  let slice := i64 (reserve - free) in
  let maxSlice := totalSize ÷ reserveEvictSliceFraction in
  if (0 <? maxSlice) && (maxSlice <? slice) then maxSlice else slice.

Section Eviction.

Context {DB SM : Type} `{Protobuf} `{RocksDB DB} `{SegmentStore SM} (env : Env) (cfg : Config).
(** Whether [closeCh] is closed at a consultation of the environment. *)
Context (closed : nat -> bool).
Notation M := (M (DB := DB) (SM := SM)).

Definition closeCh : M bool := fun w => (closed (w_tick w), tick w).

(** ** One run *)

Record evict_state := MkEvict {
  es_batch : list batch_op;
  es_committedBytes : Z;
  es_pendingBytes : Z;
  es_pendingCount : Z;
  es_pendingFiles : list ValueMessage;
  es_evicted : Z
}.

Definition evict_init : evict_state := MkEvict [] 0 0 0 [] 0.

Definition stage (ops : list batch_op) (st : evict_state) : evict_state :=
  MkEvict (es_batch st ++ ops) (es_committedBytes st) (es_pendingBytes st) (es_pendingCount st)
    (es_pendingFiles st) (es_evicted st).

Definition stage_key (ops : list batch_op) (vm : ValueMessage) (st : evict_state) : evict_state :=
  MkEvict (es_batch st ++ ops) (es_committedBytes st) (i64 (es_pendingBytes st + ValueLength vm))
    (es_pendingCount st + 1) (es_pendingFiles st ++ [vm]) (es_evicted st).

Fixpoint stage_files (vms : list ValueMessage) : M () :=
  match vms with
  | [] => mret ()
  | vm :: vms => _ ← stageFileDeletion env vm; stage_files vms
  end.

Definition commit (st : evict_state) : M evict_state :=
  match es_batch st with
  | [] => mret st
  | batch =>
      r ← Write_ batch;
      match r with
      | Some _ => mret (MkEvict [] (es_committedBytes st) 0 0 [] (es_evicted st))
      | None =>
          _ ← stage_files (es_pendingFiles st);
          mret (MkEvict [] (i64 (es_committedBytes st + es_pendingBytes st)) 0 0 []
                  (es_evicted st + es_pendingCount st))
      end
  end.

(** What the loop does with one index entry. *)
Definition evict_entry (idx : evictionIndex) (keyBytes : bytes) (st : evict_state) : M evict_state :=
  match ei_parseKey idx keyBytes with
  | inl _ => mret st
  | inr originalKey =>
      let metaKey := MakeMetadataKey originalKey in
      let backref := ei_backrefKey idx originalKey in
      r ← Get_ metaKey;
      match r with
      | inl _ => mret st
      | inr None => mret (stage [BDelete keyBytes] st)
      | inr (Some v) =>
          match proto_Unmarshal v with
          | None => mret (stage [BDelete metaKey; BDelete keyBytes; BDelete backref] st)
          | Some vm =>
              now ← time_Now env;
              if expired_at (Expiry vm) now then mret st
              else
                cur ← Get_ backref;
                match cur with
                | inl _ => mret st
                | inr cur =>
                    if bool_decide (is_Some cur) && bool_decide (cur <> Some keyBytes)
                    then mret (stage [BDelete keyBytes] st)
                    else mret (stage_key [BDelete metaKey; BDelete keyBytes; BDelete backref] vm st)
                end
          end
      end
  end.

Fixpoint evict_loop (idx : evictionIndex) (targetBytes : Z) (rows : list (bytes * bytes)) (st : evict_state)
    : M evict_state :=
  match rows with
  | [] => mret st
  | (keyBytes, _) :: rows =>
      stop ← closeCh;
      if (stop : bool) then mret st
      else
        st ← (if (1000 <=? List.length (es_batch st))%nat then commit st else mret st);
        if targetBytes <=? i64 (es_committedBytes st + es_pendingBytes st) then mret st
        else
          st ← evict_entry idx keyBytes st;
          evict_loop idx targetBytes rows st
  end.

Definition add_evicted (n : Z) : M () := fun w => ((), set_counters (w_cleaned w) (i64 (w_evicted w + n)) w).

(** The deferred part: last flush, then the accounting. *)
Definition finalize (st : evict_state) : M Z :=
  st ← commit st;
  _ ← add_evicted (es_evicted st);
  _ ← UpdateSize (- es_committedBytes st);
  mret (es_evicted st).

Definition evictByIndex (idx : evictionIndex) (targetBytes : Z) : M Z :=
  it ← Iterate_ (ei_prefix idx);
  st ← evict_loop idx targetBytes (prefix_rows (ei_prefix idx) it.1) evict_init;
  finalize st.

(** ** Old access buckets *)

Fixpoint old_buckets_loop (cutoffBucket : bytes) (rows : list (bytes * bytes)) (batch : list batch_op)
    : M (list batch_op) :=
  match rows with
  | [] => mret batch
  | (keyBytes, _) :: rows =>
      let bucket := ExtractAccessBucketFromKey keyBytes in
      if bool_decide (bucket = EmptyString) || sle cutoffBucket bucket then mret batch
      else
        let batch := batch ++ [BDelete keyBytes] in
        if (1000 <=? List.length batch)%nat
        then _ ← Write_ batch; old_buckets_loop cutoffBucket rows []
        else old_buckets_loop cutoffBucket rows batch
  end.

Definition cleanupOldBuckets (olderThan : Z) : M () :=
  now ← time_Now env;
  let cutoffBucket := GetBucketedAccessKey (env_tz env) (now - olderThan) in
  it ← Iterate_ GetOldestAccessBucketPrefix;
  batch ← old_buckets_loop cutoffBucket (prefix_rows GetOldestAccessBucketPrefix it.1) [];
  match batch with [] => mret () | _ => _ ← Write_ batch; mret () end.

(** ** Triggers *)

Definition active_index : evictionIndex := if is_fifo cfg then fifoEvictionIndex else lruEvictionIndex.

(** [c.totalSize.Load()]. *)
Definition load_size : M Z := fun w => (w_size w, w).

Definition enforceDiskLimit : M () :=
  currentSize ← load_size;
  if currentSize <=? maxDiskUsage cfg then mret ()
  else
    let needToEvict := i64 (currentSize - evict_target (maxDiskUsage cfg)) in
    _ ← evictByIndex active_index needToEvict;
    mret ().

(** What [statfs] reports at a consultation. *)
Context (statfs : nat -> option Statfs).

Definition diskUsageFn : M (option (Z * Z)) := fun w => (diskUsage (statfs (w_tick w)), tick w).

Definition enforceFilesystemReserve : M () :=
  if maxDiskUsage cfg <=? 0 then mret ()
  else
    usage ← diskUsageFn;
    match usage with
    | None => mret ()
    | Some (free, total) =>
        let reserve := effective_reserve total in
        if reserve <=? free then mret ()
        else
          totalSize ← load_size;
          _ ← evictByIndex active_index (reserve_slice reserve free totalSize);
          mret ()
    end.

End Eviction.
