(* ===== verification/EvictionProps.v ===== *)
(** * Eviction is oldest-first, exact and safe

    One run of [evictByIndex] consumes a front part of the ordered index. Every row it
    removes belongs to an entry of that part, every current entry of that part loses
    its row (or the row has expired), the size counter is reduced by exactly the
    bytes removed, and no file of a surviving row is queued for deletion. *)

From S2P Require Import Prelude Keys Errors Message Merge Wire Rocks World Files RangeReader Storage Wp Safety StorageSpec StorageProps LiveSize SizeProps Version Cas CasSpec Listing ListingProps DeleteBatch Eviction.

Open Scope Z_scope.

#[local] Arguments has_prefix : simpl never.
#[local] Arguments apply_batch : simpl never.

(** ** What an index descriptor promises *)

Class IndexOk (idx : evictionIndex) : Prop := {
  ix_entry e : has_prefix (ei_prefix idx) e = true -> is_index_entry e = true;
  ix_backref k : is_backref (ei_backrefKey idx k) = true;
  ix_inj k k' : ei_backrefKey idx k = ei_backrefKey idx k' -> k = k'
}.

#[export] Instance fifo_index_ok : IndexOk fifoEvictionIndex.
Proof.
  split; cbn.
  - intros e He. unfold is_index_entry. unfold GetFifoIndexPrefix in He. by rewrite He.
  - apply fifo_backref_key.
  - intros k k' E. by apply String.app_inj in E.
Qed.

#[export] Instance lru_index_ok : IndexOk lruEvictionIndex.
Proof.
  split; cbn.
  - intros e He. unfold is_index_entry. unfold GetOldestAccessBucketPrefix in He. by rewrite He, orb_true_r.
  - apply access_backref_key.
  - intros k k' E. by apply String.app_inj in E.
Qed.

#[export] Instance active_index_ok cfg : IndexOk (active_index cfg).
Proof. unfold active_index. case_match; apply _. Qed.

Section Evict.

Context {DB SM : Type} {PB : Protobuf} {PL : ProtobufLaws} {RDB : RocksDB DB} {RL : RocksLaws DB}.
Context {SS : SegmentStore SM} (env : Env) (cfg : Config) (Henv : env_ok env cfg).
Context (closed : nat -> bool) (idx : evictionIndex) {Hidx : IndexOk idx}.
Implicit Types w : World DB SM.
Implicit Types m : gmap bytes bytes.

(** [e] is the entry eviction goes by for [key]: its back-reference points to it, or
    there is none. *)
Definition current m (e key : bytes) : Prop :=
  ei_parseKey idx e = inr key
  /\ (m !! ei_backrefKey idx key = Some e \/ m !! ei_backrefKey idx key = None).

(** A stored key without a back-reference has at most one entry. *)
Definition one_entry m (L : list bytes) : Prop :=
  forall key e1 e2, m !! MakeMetadataKey key <> None -> m !! ei_backrefKey idx key = None -> e1 ∈ L -> e2 ∈ L ->
    ei_parseKey idx e1 = inr key -> ei_parseKey idx e2 = inr key -> e1 = e2.

Lemma current_unique m L key e1 e2 :
  one_entry m L -> m !! MakeMetadataKey key <> None -> e1 ∈ L -> e2 ∈ L -> current m e1 key -> current m e2 key -> e1 = e2.
Proof.
  intros Ho Hrow H1 H2 [P1 B1] [P2 B2]. destruct B1 as [B1|B1], B2 as [B2|B2]; try congruence. by eapply Ho.
Qed.

Definition reliable : Prop := ~ read_failed (DB := DB) /\ ~ write_failed (DB := DB).

(** Reclaiming the files of rows that are gone. *)
Lemma wp_stage_files m vms (Q : () -> World DB SM -> Prop) w :
  represents (w_db w) m ->
  (forall q w', represents (w_db w') (apply_batch m q) -> frame w w' -> Forall reclaim_op q ->
     (forall disk t, ref_safe env cfg m disk t ->
        Forall (fun vm => ValueType vm = RAW_FILE -> unreferenced m (RawFilePath vm)
           /\ forall n, (t <= n)%nat -> RawFilePath vm <> path_of env cfg n) vms ->
        ref_safe env cfg (apply_batch m q) disk t) -> Q () w') ->
  wp (stage_files env vms) Q w.
Proof using Henv.
  revert m w. induction vms as [|vm vms IH]; intros m w Hm HQ; cbn [stage_files].
  { apply wp_ret, (HQ []); [done|reflexivity|by apply Forall_nil_2|done]. }
  apply wp_bind. eapply (wp_stageFileDeletion env cfg Henv m); [exact Hm|]. intros q1 w1 Hm1 F1 Hq1 Hs1.
  eapply IH; [exact Hm1|]. intros q2 w2 Hm2 F2 Hq2 Hs2. apply (HQ (q1 ++ q2)).
  - by rewrite apply_batch_app.
  - by etrans.
  - by apply Forall_app.
  - intros disk t Hs Hu. apply Forall_cons in Hu as [Hu1 Hu2]. rewrite apply_batch_app. apply Hs2; [by apply Hs1|].
    eapply Forall_impl; [exact Hu2|]. intros vm' Hv Ht. destruct (Hv Ht) as [H1 H2]. split; [|done].
    eapply unreferenced_ext; [|exact H1]. intros. by apply reclaim_rows_at.
Qed.

Section Run.

Context (m0 : gmap bytes bytes) (w0 : World DB SM) (L : list bytes) (targetBytes : Z).
Context (Hone : one_entry m0 L) (Hentries : Forall (fun e => has_prefix (ei_prefix idx) e = true) L).

(** The rows as they will be once the staged batch is written. *)
Definition after_batch m (st : evict_state) : gmap bytes bytes := apply_batch m (es_batch st).

(** The bytes freed before the last eviction were short of the target. *)
Definition needed (m : gmap bytes bytes) : Prop :=
  live_size m = live_size m0
  \/ exists key vm, row_at m0 key vm /\ i64 (live_size m0 - live_size m - ValueLength vm) < targetBytes.

(** Only whole keys disappear: a row is as it was or gone, and the back-reference of
    a row that is there is as it was. *)
Definition only_deletes (m : gmap bytes bytes) : Prop :=
  (forall key, m !! MakeMetadataKey key = m0 !! MakeMetadataKey key \/ m !! MakeMetadataKey key = None)
  /\ (forall key, m !! MakeMetadataKey key <> None -> m !! ei_backrefKey idx key = m0 !! ei_backrefKey idx key).

Definition gone_by (done : list bytes) (m : gmap bytes bytes) : Prop :=
  forall key, m0 !! MakeMetadataKey key <> None -> m !! MakeMetadataKey key = None ->
    exists e, e ∈ done /\ ei_parseKey idx e = inr key /\ (forall vm, row_at m0 key vm -> current m0 e key).

(** A row that was found expired is left to the TTL sweep. *)
Definition found_expired (key : bytes) : Prop :=
  exists vm n, row_at m0 key vm /\ (w_tick w0 <= n)%nat /\ expired_at (Expiry vm) (env_now env n) = true.

Definition cleared (done : list bytes) (m : gmap bytes bytes) : Prop :=
  forall e key, e ∈ done -> current m0 e key -> m !! MakeMetadataKey key = None \/ found_expired key.

Record evict_inv (done : list bytes) m (st : evict_state) w : Prop := {
  iv_rep : represents (w_db w) m;
  iv_safe : ref_safe env cfg m (w_disk w) (w_tick w);
  iv_frame : frame w0 w;
  iv_ops : Forall del_op (es_batch st) /\ Forall pure_delete (es_batch st);
  iv_files : Forall (fun vm => exists key, key ∈ row_deletes (es_batch st) /\ row_at m key vm) (es_pendingFiles st);
  iv_pending : es_pendingBytes st = i64 (live_size m - live_size (after_batch m st));
  iv_committed : es_committedBytes st = i64 (live_size m0 - live_size m);
  iv_deletes : only_deletes m /\ only_deletes (after_batch m st);
  iv_gone : gone_by done m /\ gone_by done (after_batch m st);
  iv_cleared : reliable -> cleared done (after_batch m st);
  iv_needed : needed m /\ needed (after_batch m st)
}.

Lemma gone_by_mono done e m : gone_by done m -> gone_by (done ++ [e]) m.
Proof.
  intros Hg key H1 H2. destruct (Hg key H1 H2) as (e' & He & Hp). exists e'. split; [|done]. apply elem_of_app. by left.
Qed.

Lemma only_deletes_refl : only_deletes m0.
Proof. split; auto. Qed.

(** Staging deletes that touch no row keeps everything. *)
Lemma stage_index done e m st w :
  evict_inv done m st w -> has_prefix (ei_prefix idx) e = true ->
  (forall key, current m0 e key -> reliable -> after_batch m st !! MakeMetadataKey key = None \/ found_expired key) ->
  evict_inv (done ++ [e]) m (stage [BDelete e] st) w.
Proof using Hidx.
  intros [Hrep Hsafe Hf [Ho1 Ho2] Hfiles Hp Hc [Hd1 Hd2] [Hg1 Hg2] Hcl [Hn1 Hn2]] He Hgone.
  assert (index_op (BDelete e)) as Hio by (cbn; apply index_entry_quiet, (ix_entry e He)).
  assert (after_batch m (stage [BDelete e] st) = delete e (after_batch m st)) as Eb
    by (unfold after_batch; cbn; by rewrite apply_batch_snoc).
  assert (forall key, delete e (after_batch m st) !! MakeMetadataKey key = after_batch m st !! MakeMetadataKey key) as Erow.
  { intros key. apply lookup_delete_ne. by apply quiet_metadata, index_entry_quiet, (ix_entry e He). }
  assert (live_size (delete e (after_batch m st)) = live_size (after_batch m st)) as Es.
  { apply (index_ops_size _ [BDelete e]), Forall_one, Hio. }
  split; try done.
  - split; (apply Forall_app; split; [done|]); apply Forall_one; [by right|done].
  - eapply Forall_impl; [exact Hfiles|]. intros vm (key & Hk & Hr). exists key. split; [|done]. cbn.
    rewrite row_deletes_app. apply elem_of_app. by left.
  - cbn. by rewrite Eb, Es.
  - split; [done|]. rewrite Eb. destruct Hd2 as [Hd2 Hd3]. split; intros key; rewrite ?Erow; [apply Hd2|].
    intros Hk. rewrite lookup_delete_ne; [by apply Hd3|]. intros E. pose proof (ix_backref key) as Hb.
    rewrite <- E, index_entry_not_backref in Hb; [done|by apply ix_entry].
  - split; [by apply gone_by_mono|]. rewrite Eb. intros key. rewrite Erow. by apply gone_by_mono.
  - intros Hrel e' key [He'|He']%elem_of_app Hcur; rewrite Eb, Erow; [by eapply Hcl|].
    apply list_elem_of_singleton in He' as ->. by apply Hgone.
  - split; [done|]. unfold needed. by rewrite Eb, Es.
Qed.

Lemma skip_entry done e m st w :
  evict_inv done m st w ->
  (forall key, current m0 e key -> reliable -> after_batch m st !! MakeMetadataKey key = None \/ found_expired key) ->
  evict_inv (done ++ [e]) m st w.
Proof.
  intros [Hrep Hsafe Hf Ho Hfiles Hp Hc Hd [Hg1 Hg2] Hcl Hn] Hgone. split; try done.
  - split; by apply gone_by_mono.
  - intros Hrel e' key [He'|He']%elem_of_app Hcur; [by eapply Hcl|].
    apply list_elem_of_singleton in He' as ->. by apply Hgone.
Qed.

(** Only the environment was consulted. *)
Lemma inv_quiet done m st w w' :
  evict_inv done m st w -> frame w w' -> represents (w_db w') m -> evict_inv done m st w'.
Proof.
  intros [Hrep Hsafe Hf Ho Hfiles Hp Hc Hd Hg Hcl Hn] F Hm. split; try done.
  - by eapply ref_safe_quietly; [apply frame_quietly|].
  - by etrans.
Qed.

Definition key_ops (key e : bytes) : list batch_op :=
  [BDelete (MakeMetadataKey key); BDelete e; BDelete (ei_backrefKey idx key)].

Lemma key_ops_del key e :
  has_prefix (ei_prefix idx) e = true ->
  Forall del_op (key_ops key e) /\ Forall pure_delete (key_ops key e).
Proof using Hidx.
  intros He. split; repeat (apply Forall_cons; split); try done; try by apply Forall_nil_2.
  - left. by exists key.
  - right. cbn. apply index_entry_quiet, (ix_entry e He).
  - right. cbn. apply backref_quiet, ix_backref.
Qed.

Lemma key_ops_rows key e m :
  has_prefix (ei_prefix idx) e = true ->
  apply_batch m (key_ops key e) !! MakeMetadataKey key = None
  /\ (forall k, k <> key -> apply_batch m (key_ops key e) !! MakeMetadataKey k = m !! MakeMetadataKey k)
  /\ (forall k, k <> key -> apply_batch m (key_ops key e) !! ei_backrefKey idx k = m !! ei_backrefKey idx k)
  /\ live_size (apply_batch m (key_ops key e)) = live_size m - entry_size m (MakeMetadataKey key).
Proof using Hidx.
  intros He. destruct (key_ops_del key e He) as [Hd _].
  assert (row_deletes (key_ops key e) = [key]) as Er.
  { unfold key_ops. change [?a; ?b; ?c] with ([a] ++ [b; c]). rewrite row_deletes_app, row_deletes_meta.
    rewrite row_deletes_index; [done|]. repeat (apply Forall_cons; split); try by apply Forall_nil_2.
    - apply index_entry_quiet, (ix_entry e He).
    - apply backref_quiet, ix_backref. }
  split_and!.
  - rewrite del_batch_rows, Er by done. rewrite decide_True; [done|left].
  - intros k Hk. rewrite del_batch_rows, Er by done. rewrite decide_False; [done|]. by rewrite list_elem_of_singleton.
  - intros k Hk. apply apply_batch_other. unfold key_ops. repeat (apply Forall_cons; split); try by apply Forall_nil_2.
    + apply metadata_not_backref, ix_backref.
    + cbn. intros ->. pose proof (ix_backref k) as Hb. by rewrite index_entry_not_backref in Hb by (by apply ix_entry).
    + cbn. intros E. by apply ix_inj in E.
  - unfold key_ops. change [?a; ?b; ?c] with ([a] ++ [b; c]). rewrite index_batch_size.
    + apply live_size_delete.
    + repeat (apply Forall_cons; split); try by apply Forall_nil_2.
      * apply index_entry_quiet, (ix_entry e He).
      * apply backref_quiet, ix_backref.
Qed.

Lemma key_ops_inv done e key m :
  has_prefix (ei_prefix idx) e = true -> ei_parseKey idx e = inr key ->
  (forall vm, row_at m0 key vm -> current m0 e key) ->
  only_deletes m -> gone_by done m -> (reliable -> cleared done m) ->
  only_deletes (apply_batch m (key_ops key e)) /\ gone_by (done ++ [e]) (apply_batch m (key_ops key e))
  /\ (reliable -> cleared (done ++ [e]) (apply_batch m (key_ops key e))).
Proof using Hidx.
  intros He Hp Hcur [Hd1 Hd2] Hg Hcl. destruct (key_ops_rows key e m He) as (E1 & E2 & E3 & _). split_and!.
  - split; intros k; (destruct (decide (k = key)) as [->|Hk]; [rewrite E1|rewrite E2 by done]); try rewrite E3 by done; auto. done.
  - intros k H1 H2. destruct (decide (k = key)) as [->|Hk].
    + exists e. split; [apply elem_of_app; right; left|done].
    + rewrite E2 in H2 by done. by apply (gone_by_mono done e m Hg).
  - intros Hrel e' k He' Hc. destruct (decide (k = key)) as [->|Hk]; [by left|]. rewrite E2 by done.
    apply elem_of_app in He' as [He'|He']; [by eapply Hcl|]. apply list_elem_of_singleton in He' as ->.
    destruct Hc as [Hc _]. congruence.
Qed.

(** Evicting the key of a current entry. *)
Lemma stage_key_inv done e key vm m st w :
  evict_inv done m st w -> e ∈ L -> e ∉ done -> (forall e', e' ∈ done -> e' ∈ L) ->
  ei_parseKey idx e = inr key -> row_at m key vm ->
  m !! ei_backrefKey idx key = Some e \/ m !! ei_backrefKey idx key = None ->
  i64 (es_committedBytes st + es_pendingBytes st) < targetBytes ->
  evict_inv (done ++ [e]) m (stage_key (key_ops key e) vm st) w.
Proof using Hidx Hone Hentries.
  intros [Hrep Hsafe Hf [Ho1 Ho2] Hfiles Hp Hc [Hd1 Hd2] [Hg1 Hg2] Hcl [Hn1 Hn2]] HeL Hnew Hsub Hpk Hrow Hb Ht.
  assert (has_prefix (ei_prefix idx) e = true) as He by (rewrite Forall_forall in Hentries; by apply Hentries).
  destruct (key_ops_del key e He) as [Ho3 Ho4]. pose proof Hrow as (v & Ev & Eu).
  assert (m0 !! MakeMetadataKey key = Some v) as E0.
  { destruct Hd1 as [Hd1 _]. destruct (Hd1 key) as [E|E]; rewrite E in Ev; done. }
  assert (row_at m0 key vm) as Hrow0 by by exists v.
  assert (m !! ei_backrefKey idx key = m0 !! ei_backrefKey idx key) as Eb by (apply Hd1; by rewrite Ev).
  assert (current m0 e key) as Hcur by (split; [done|]; by rewrite <- Eb).
  assert (after_batch m st !! MakeMetadataKey key = Some v) as Ea.
  { destruct Hd2 as [Hd2 _]. destruct (Hd2 key) as [E|E]; [by rewrite E|]. exfalso.
    destruct (Hg2 key ltac:(by rewrite E0) E) as (e' & He' & _ & Hc'). apply Hnew.
    rewrite (current_unique m0 L key e e'); eauto. by rewrite E0. }
  assert (after_batch m (stage_key (key_ops key e) vm st) = apply_batch (after_batch m st) (key_ops key e)) as Est
    by (unfold after_batch; cbn; by rewrite apply_batch_app).
  destruct (key_ops_inv done e key (after_batch m st)) as (H1 & H2 & H3); try done.
  destruct (key_ops_rows key e (after_batch m st) He) as (_ & _ & _ & Es).
  assert (entry_size (after_batch m st) (MakeMetadataKey key) = ValueLength vm) as Esz.
  { unfold entry_size, value_size. rewrite Ea. unfold MakeMetadataKey. by rewrite has_prefix_app, Eu. }
  split; try rewrite Est; try done.
  - cbn. split; by apply Forall_app.
  - cbn. apply Forall_app. split.
    + eapply Forall_impl; [exact Hfiles|]. intros vm' (key' & Hk & Hr). exists key'. split; [|done].
      rewrite row_deletes_app. apply elem_of_app. by left.
    + apply Forall_one. exists key. split; [|done]. rewrite row_deletes_app. apply elem_of_app. right.
      unfold key_ops. change [?a; ?b; ?c] with ([a] ++ [b; c]). rewrite row_deletes_app, row_deletes_meta. left.
  - cbn. rewrite Hp, i64_add_l, Es, Esz. f_equal. lia.
  - split; [by apply gone_by_mono|done].
  - split; [done|]. right. exists key, vm. split; [done|]. rewrite Es, Esz.
    rewrite Hp, Hc, i64_add_l, i64_add_r in Ht. eapply Z.le_lt_trans; [|exact Ht]. apply Z.eq_le_incl. f_equal. lia.
Qed.

(** Dropping a row that does not decode. *)
Lemma stage_corrupt_inv done e key v m st w :
  evict_inv done m st w -> e ∈ L -> ei_parseKey idx e = inr key ->
  m !! MakeMetadataKey key = Some v -> proto_Unmarshal v = None ->
  evict_inv (done ++ [e]) m (stage (key_ops key e) st) w.
Proof using Hidx Hentries.
  intros [Hrep Hsafe Hf [Ho1 Ho2] Hfiles Hp Hc [Hd1 Hd2] [Hg1 Hg2] Hcl [Hn1 Hn2]] HeL Hpk Ev Eu.
  assert (has_prefix (ei_prefix idx) e = true) as He by (rewrite Forall_forall in Hentries; by apply Hentries).
  destruct (key_ops_del key e He) as [Ho3 Ho4].
  assert (m0 !! MakeMetadataKey key = Some v) as E0.
  { destruct Hd1 as [Hd1 _]. destruct (Hd1 key) as [E|E]; rewrite E in Ev; done. }
  assert (forall vm, row_at m0 key vm -> current m0 e key) as Hno.
  { intros vm (v' & Ev' & Eu'). rewrite E0 in Ev'. by simplify_eq. }
  assert (after_batch m (stage (key_ops key e) st) = apply_batch (after_batch m st) (key_ops key e)) as Est
    by (unfold after_batch; cbn; by rewrite apply_batch_app).
  destruct (key_ops_inv done e key (after_batch m st)) as (H1 & H2 & H3); try done.
  destruct (key_ops_rows key e (after_batch m st) He) as (_ & _ & _ & Es).
  assert (entry_size (after_batch m st) (MakeMetadataKey key) = 0) as Esz.
  { unfold entry_size, value_size. destruct Hd2 as [Hd2 _]. destruct (Hd2 key) as [->| ->]; [|done].
    rewrite E0, Eu. by case_match. }
  rewrite Esz, Z.sub_0_r in Es.
  split; try rewrite Est; try done.
  - cbn. split; by apply Forall_app.
  - eapply Forall_impl; [exact Hfiles|]. intros vm' (key' & Hk & Hr). exists key'. split; [|done].
    cbn. rewrite row_deletes_app. apply elem_of_app. by left.
  - by rewrite Es.
  - split; [by apply gone_by_mono|done].
  - split; [done|]. unfold needed. by rewrite Es.
Qed.

(** Reclaiming changes neither rows nor back-references nor sizes. *)
Lemma reclaim_same q m :
  Forall reclaim_op q ->
  (forall key, apply_batch m q !! MakeMetadataKey key = m !! MakeMetadataKey key)
  /\ (forall key, apply_batch m q !! ei_backrefKey idx key = m !! ei_backrefKey idx key)
  /\ live_size (apply_batch m q) = live_size m.
Proof using Hidx.
  intros Hq. split_and!; [intros; by apply reclaim_rows_at| |by apply reclaim_batch_size].
  intros key. apply reclaim_lookup; [done|]. by rewrite ix_backref, orb_true_r.
Qed.

Lemma commit_inv done m st w :
  evict_inv done m st w ->
  wp (commit env st) (fun st' w' => exists m', evict_inv done m' st' w' /\ es_batch st' = []
    /\ (reliable -> live_size m' = live_size (after_batch m st))) w.
Proof using Henv Hidx.
  intros Hi. pose proof Hi as [Hrep Hsafe Hf [Ho1 Ho2] Hfiles Hp Hc [Hd1 Hd2] [Hg1 Hg2] Hcl [Hn1 Hn2]].
  unfold commit. destruct (es_batch st) as [|op ops] eqn:Eb.
  { apply wp_ret. exists m. unfold after_batch. by rewrite Eb. }
  rewrite <- Eb in *. clear op ops Eb.
  apply wp_bind. eapply (wp_Write_failing m); [exact Hrep|by apply plain_regular, del_op_plain| |].
  - intros e db Hdb Hfail. apply wp_ret. exists m. split; [|split; [done|by intros [_ Hw]]].
    assert (frame w0 (set_db db w)) as F by (etrans; [exact Hf|apply frame_set_db]).
    split; try done; try by split.
    + unfold after_batch. cbn. by rewrite Z.sub_diag.
    + by intros [_ Hw].
  - intros db Hdb. apply wp_bind.
    eapply (wp_stage_files (apply_batch m (es_batch st))); [exact Hdb|]. cbn.
    intros q w' Hm' F' Hq Hrs. destruct (reclaim_same q (apply_batch m (es_batch st)) Hq) as (E1 & E2 & E3).
    apply wp_ret. eexists. split; [|split; [done|by intros _]]. change (apply_batch m (es_batch st)) with (after_batch m st) in *.
    assert (only_deletes (apply_batch (after_batch m st) q)) as Hd.
    { destruct Hd2. split; intros key; rewrite ?E1, ?E2; auto. }
    assert (gone_by done (apply_batch (after_batch m st) q)) as Hg by (intros key; rewrite E1; apply Hg2).
    assert (needed (apply_batch (after_batch m st) q)) as Hn by (unfold needed; by rewrite E3).
    split; try done.
    + destruct F' as [F1 F2 F3 F4 F5 F6 F7 F8 F9 F10]. cbn in *. rewrite F2. eapply ref_safe_tick; [exact F10|].
      apply Hrs; [by apply del_batch_safe|]. eapply Forall_impl; [exact Hfiles|]. intros vm (key & Hk & Hr) Ht.
      assert (raw_at m key (RawFilePath vm) (ValueLength vm)) as Hraw by by exists vm.
      split; [by eapply (del_batch_unreferenced env cfg m)|]. by eapply raw_not_future.
    + etrans; [exact Hf|]. etrans; [apply (frame_set_db db)|done].
    + unfold after_batch. cbn. by rewrite Z.sub_diag.
    + cbn. rewrite Hc, Hp, i64_add_l, i64_add_r, E3. f_equal. lia.
    + intros Hrel. unfold after_batch at 1. cbn. intros e key He Hcur. rewrite E1. by eapply Hcl.
Qed.

(** One index entry. *)
Lemma evict_entry_inv done e m st w :
  evict_inv done m st w -> e ∈ L -> e ∉ done -> (forall e', e' ∈ done -> e' ∈ L) ->
  i64 (es_committedBytes st + es_pendingBytes st) < targetBytes ->
  wp (evict_entry env idx e st) (fun st' w' => evict_inv (done ++ [e]) m st' w') w.
Proof using Henv Hidx Hone Hentries.
  intros Hi HeL Hnew Hsub Ht. pose proof Hi as [Hrep _ Hf0 _ _ _ _ [Hd1 Hd2] _ _ _].
  assert (has_prefix (ei_prefix idx) e = true) as He by (rewrite Forall_forall in Hentries; by apply Hentries).
  unfold evict_entry. destruct (ei_parseKey idx e) as [err|key] eqn:Ep.
  { apply wp_ret, skip_entry; [done|]. intros key [E _]. congruence. }
  assert (forall key', current m0 e key' -> key' = key) as Hkey by (intros key' [E _]; congruence).
  apply wp_bind. eapply (wp_Get_failing m); [exact Hrep|..].
  { intros err db Hdb Hfail. apply wp_ret, skip_entry; [eapply inv_quiet; eauto with ocache|]. by intros ? _ [Hr _]. }
  intros db Hdb. assert (evict_inv done m st (set_db db w)) as Hi1 by (eapply inv_quiet; eauto with ocache).
  destruct (m !! MakeMetadataKey key) as [v|] eqn:Ev.
  2: { apply wp_ret, stage_index; [done|done|]. intros key' Hc _. rewrite (Hkey _ Hc). left.
       destruct (after_batch m st !! MakeMetadataKey key) as [x|] eqn:Ex; [|done].
       apply pure_delete_lookup in Ex; [congruence|apply Hi]. }
  destruct (proto_Unmarshal v) as [vm|] eqn:Eu; [|by apply wp_ret; eapply stage_corrupt_inv].
  assert (m0 !! MakeMetadataKey key = Some v) as E0.
  { destruct Hd1 as [Hd1 _]. destruct (Hd1 key) as [E|E]; rewrite E in Ev; done. }
  apply wp_bind, wp_time_Now.
  assert (evict_inv done m st (tick (set_db db w))) as Hi2 by (eapply inv_quiet; eauto with ocache).
  destruct (expired_at _ _) eqn:Ex.
  { apply wp_ret, skip_entry; [done|]. intros key' Hc _. rewrite (Hkey _ Hc). right.
    exists vm, (w_tick (set_db db w)). split; [by exists v|]. split; [|done]. cbn. apply (fr_tick _ _ Hf0). }
  apply wp_bind. eapply (wp_Get_failing m); [exact Hdb|..].
  { intros err db' Hdb' Hfail. apply wp_ret, skip_entry; [eapply inv_quiet; eauto with ocache|]. by intros ? _ [Hr _]. }
  intros db' Hdb'. assert (evict_inv done m st (set_db db' (tick (set_db db w)))) as Hi3 by (eapply inv_quiet; eauto with ocache).
  destruct (bool_decide _ && bool_decide _) eqn:Es.
  - apply wp_ret, stage_index; [done|done|]. intros key' Hc _. rewrite (Hkey _ Hc) in Hc. exfalso.
    apply andb_true_iff in Es as [E1%bool_decide_eq_true_1 E2%bool_decide_eq_true_1]. destruct E1 as [x E1].
    destruct Hc as [_ Hc]. destruct Hd1 as [_ Hd1]. rewrite <- (Hd1 key) in Hc by by rewrite Ev.
    rewrite E1 in *. destruct Hc as [Hc|Hc]; congruence.
  - apply wp_ret. eapply stage_key_inv; eauto; [by exists v|].
    destruct (m !! ei_backrefKey idx key) as [x|] eqn:E1; [|by right]. left.
    rewrite bool_decide_true in Es by eauto. cbn in Es. apply bool_decide_eq_false_1 in Es.
    destruct (decide (Some x = Some e)); [done|]. by destruct Es.
Qed.

Definition freed m : Z := live_size m0 - live_size m.

(** Why the loop ended. *)
Definition stopped (m : gmap bytes bytes) (rest : list bytes) : Prop :=
  rest = [] \/ targetBytes <= i64 (freed m) \/ (exists n, closed n = true) \/ iter_failed (DB := DB).

Lemma evict_loop_inv rows done m st w :
  evict_inv done m st w -> L = done ++ rows.*1 -> NoDup L ->
  wp (evict_loop env closed idx targetBytes rows st)
    (fun st' w' => exists m' done' rest, L = done' ++ rest /\ evict_inv done' m' st' w'
       /\ stopped (after_batch m' st') rest) w.
Proof using Henv Hidx Hone Hentries PL.
  revert done m st w. induction rows as [|[e v] rows IH]; intros done m st w Hi EL Hnd; cbn [evict_loop].
  { apply wp_ret. exists m, done, []. split_and!; [done|done|by left]. }
  apply wp_bind, wp_fun. cbn. assert (evict_inv done m st (tick w)) as Hi1.
  { eapply inv_quiet; [done|auto with ocache|apply Hi]. }
  destruct (closed (w_tick w)) eqn:Ec.
  { apply wp_ret. exists m, done, ((e :: rows.*1)). split_and!; [done|done|]. right. right. left. by exists (w_tick w). }
  apply wp_bind.
  eapply (wp_mono _ (fun st' w' => exists m', evict_inv done m' st' w')).
  { case_match; [|by apply wp_ret; exists m]. eapply wp_mono; [by apply (commit_inv done m)|].
    intros st' w' (m' & Hi' & _). by exists m'. }
  clear Hi Hi1. intros st1 w1 (m1 & Hi). destruct (Z.leb_spec targetBytes (i64 (es_committedBytes st1 + es_pendingBytes st1))) as [Hle|Hlt].
  { apply wp_ret. exists m1, done, ((e :: rows.*1)). split_and!; [done|done|]. right. left.
    rewrite (iv_committed _ _ _ _ Hi), (iv_pending _ _ _ _ Hi), i64_add_l, i64_add_r in Hle.
    eapply Z.le_trans; [exact Hle|]. apply Z.eq_le_incl. f_equal. unfold freed. lia. }
  cbn in EL. apply wp_bind. eapply wp_mono; [apply (evict_entry_inv done e m1); try done|].
  - rewrite EL. set_solver.
  - rewrite EL in Hnd. apply NoDup_app in Hnd as (_ & Hnd & _). intros Hin. by apply (Hnd e Hin); left.
  - rewrite EL. set_solver.
  - cbn. intros st2 w2 Hi2. eapply IH; [exact Hi2| |done]. by rewrite <- app_assoc.
Qed.

(** What a finished run leaves. *)
Record evicted (done rest : list bytes) m w : Prop := {
  ed_rep : represents (w_db w) m;
  ed_safe : ref_safe env cfg m (w_disk w) (w_tick w);
  ed_deletes : only_deletes m;
  ed_gone : gone_by done m;
  ed_cleared : reliable -> cleared done m;
  ed_needed : needed m;
  ed_size : w_size w = i64 (w_size w0 - freed m);
  ed_stopped : reliable -> stopped m rest
}.

Lemma finalize_inv done rest m st w :
  evict_inv done m st w -> stopped (after_batch m st) rest ->
  wp (finalize env st) (fun _ w' => exists m', evicted done rest m' w') w.
Proof using Henv Hidx.
  intros Hi Hstop. unfold finalize. apply wp_bind. eapply wp_mono; [by apply (commit_inv done m)|].
  intros st' w' (m' & Hi' & Eb & Hs'). apply wp_bind, wp_fun. cbn. apply wp_bind, wp_UpdateSize, wp_ret.
  pose proof Hi' as [Hrep Hsafe Hf _ _ _ Hc [Hd1 Hd2] [Hg1 Hg2] Hcl [Hn1 Hn2]].
  unfold after_batch in Hcl. rewrite Eb in Hcl. exists m'. split; try done.
  - cbn. rewrite (fr_size _ _ Hf), Hc. change (w_size w0 + - i64 (freed m')) with (w_size w0 - i64 (freed m')).
    apply i64_sub_r.
  - intros Hrel. unfold stopped, freed in *. by rewrite Hs'.
Qed.

Lemma evict_init_inv : ref_safe env cfg m0 (w_disk w0) (w_tick w0) -> forall w,
  frame w0 w -> represents (w_db w) m0 -> evict_inv [] m0 evict_init w.
Proof.
  intros Hs w F Hw. assert (only_deletes m0) as Hd by apply only_deletes_refl.
  assert (gone_by [] m0) as Hg by (intros key H1 H2; by destruct H1).
  assert (needed m0) as Hn by by left.
  split; try done; try by split.
  - by eapply ref_safe_quietly; [apply frame_quietly|].
  - cbn. by rewrite Z.sub_diag.
  - cbn. by rewrite Z.sub_diag.
  - by intros _ e key He%not_elem_of_nil.
Qed.

End Run.

(** ** A whole run *)

(** The entries of the index, oldest first. *)
Definition index_keys m : list bytes := (prefix_rows (ei_prefix idx) (rows_from (ei_prefix idx) m)).*1.

Lemma prefix_rows_front p l tail :
  exists more, prefix_rows p (l ++ tail) = prefix_rows p l ++ more /\ (tail = [] -> more = []).
Proof.
  induction l as [|r l (more & E & Hm)]; cbn; [by exists (prefix_rows p tail); split; [|intros ->]|].
  destruct (has_prefix p r.1); [|by exists []]. exists more. by rewrite E.
Qed.

Lemma index_keys_nodup m : NoDup (index_keys m).
Proof.
  unfold index_keys. destruct (prefix_rows_front (ei_prefix idx) (rows_from (ei_prefix idx) m) []) as (more & _ & _).
  assert (forall l : list (bytes * bytes), NoDup l.*1 -> NoDup (prefix_rows (ei_prefix idx) l).*1) as Hp.
  { intros l. rewrite (prefix_split (ei_prefix idx) l) at 1. rewrite fmap_app. intros Hn. by apply NoDup_app in Hn as [Hn _]. }
  apply Hp. unfold rows_from. pose proof (NoDup_sorted_rows m) as Hn. clear -Hn.
  induction (sorted_rows m) as [|r l IH]; [constructor|]. cbn in Hn. apply NoDup_cons in Hn as [H1 H2].
  rewrite filter_cons. case_decide; [|by apply IH]. cbn. constructor; [|by apply IH].
  intros Hin. apply H1. apply list_elem_of_fmap in Hin as (r' & E & [_ Hr']%list_elem_of_filter). rewrite E. by apply list_elem_of_fmap_2.
Qed.

Lemma index_keys_entries m : Forall (fun e => has_prefix (ei_prefix idx) e = true) (index_keys m).
Proof.
  apply Forall_forall. intros e He. unfold index_keys in He. apply list_elem_of_fmap in He as (r & -> & Hr).
  by apply prefix_rows_sub in Hr as [_ Hr].
Qed.

Lemma evictByIndex_spec m targetBytes w :
  represents (w_db w) m -> ref_safe env cfg m (w_disk w) (w_tick w) -> one_entry m (index_keys m) ->
  wp (evictByIndex env closed idx targetBytes) (fun _ w' => exists done rest m', index_keys m = done ++ rest
    /\ evicted m w targetBytes done rest m' w') w.
Proof using Henv Hidx PL.
  intros Hm Hs Ho. unfold evictByIndex. apply wp_bind. eapply wp_Iterate_failing; [exact Hm|].
  intros l err tail db Hdb Hl Ht Hf. cbn [fst].
  destruct (prefix_rows_front (ei_prefix idx) l tail) as (more & Emore & Hmore). rewrite Hl in Emore.
  set (L := (prefix_rows (ei_prefix idx) l).*1).
  assert (index_keys m = L ++ more.*1) as EL by (unfold index_keys; by rewrite Emore, fmap_app).
  assert (one_entry m L) as Ho'.
  { intros key e1 e2 Hrow Hb H1 H2. apply (Ho key e1 e2 Hrow Hb); rewrite EL; apply elem_of_app; by left. }
  assert (NoDup L) as Hnd by (pose proof (index_keys_nodup m) as Hn; rewrite EL in Hn; by apply NoDup_app in Hn as [? _]).
  assert (Forall (fun e => has_prefix (ei_prefix idx) e = true) L) as He.
  { pose proof (index_keys_entries m) as Hn. rewrite EL in Hn. by apply Forall_app in Hn as [? _]. }
  apply wp_bind. eapply wp_mono.
  { eapply (evict_loop_inv m w L targetBytes Ho' He _ [] m); [|done|done]. apply evict_init_inv; auto with ocache. }
  intros st w1 (m1 & done & rest & EL' & Hi & Hstop).
  eapply wp_mono; [eapply (finalize_inv m w targetBytes done (rest ++ more.*1)); [exact Hi|]|].
  - destruct Hstop as [->|[Hstop|[Hstop|Hstop]]]; [|by right; left|by right; right; left|by right; right; right].
    destruct err as [err|]; [right; right; right; apply Hf; by eexists|]. left. by rewrite Hmore by (by apply Ht).
  - intros _ w2 (m2 & Hev). exists done, (rest ++ more.*1), m2. split; [|done]. by rewrite EL, EL', <- app_assoc.
Qed.

(** C13: eviction goes oldest first, frees what it must and no more, and keeps the
    books. [evictByIndex] consumes a front part of the ordered index. A row it removed
    belongs to an entry of that part, by which the key was to be evicted; every key
    with its current entry in that part lost its row (or was found expired); all
    other rows and the back-references of the remaining keys are as they were. The
    run goes on until the target is reached, the index is exhausted, the iterator
    fails or the cleaner is closed; without its last eviction it would have freed less
    than the target. The counter is reduced by exactly the bytes removed, whatever
    fails, and no file of a remaining row is queued for deletion. A stored key without a
    back-reference must not have two entries. *)
Theorem evicts_oldest_first m targetBytes w :
  represents (w_db w) m -> ref_safe env cfg m (w_disk w) (w_tick w) -> one_entry m (index_keys m) ->
  let '(_, w') := evictByIndex env closed idx targetBytes w in
  exists done rest m', index_keys m = done ++ rest /\ evicted m w targetBytes done rest m' w'.
Proof using Henv Hidx PL.
  intros Hm Hs Ho. pose proof (evictByIndex_spec m targetBytes w Hm Hs Ho) as Hp.
  by destruct (evictByIndex env closed idx targetBytes w) as [r w'] eqn:E; eapply wp_run in Hp.
Qed.

End Evict.
