(* ===== verification/DiskLimit.v ===== *)
(** * The disk cap

    The eviction target computed in floating point, the logical size under eviction,
    the guarantee of [enforceDiskLimit], and the keys that escape it. *)

From S2P Require Import Prelude Keys Errors Message Merge Wire Rocks World Files RangeReader Storage Wp Safety StorageSpec StorageProps LiveSize SizeProps Version Cas CasSpec Listing ListingProps DeleteBatch Eviction EvictionProps.

Open Scope Z_scope.

#[local] Arguments has_prefix : simpl never.
#[local] Arguments apply_batch : simpl never.

(** ** The target *)

Lemma rne_bounds z e : 0 <= e -> - 2 ^ e <= 2 * (rne z e * 2 ^ e - z) <= 2 ^ e.
Proof.
  intros He. assert (0 < 2 ^ e) as Hp by (by apply Z.pow_pos_nonneg).
  unfold rne. pose proof (Z.div_mod z (2 ^ e) ltac:(lia)) as Hd. pose proof (Z.mod_pos_bound z (2 ^ e) Hp) as Hm.
  set (q := z / 2 ^ e) in *. set (r := z mod 2 ^ e) in *.
  repeat case_match; bool_facts; nia.
Qed.

Lemma round53_bounds z : 0 <= z -> z * (2 ^ 53 - 1) <= round53 z * 2 ^ 53 <= z * (2 ^ 53 + 1).
Proof.
  intros Hz. unfold round53. destruct (Z.leb_spec (Z.log2 z - 52) 0) as [Hl|Hl]; [lia|].
  assert (0 < z) as Hz' by (destruct (decide (z = 0)) as [->|]; [cbn in Hl; lia|lia]).
  pose proof (rne_bounds z (Z.log2 z - 52) ltac:(lia)) as Hr. pose proof (Z.log2_spec z Hz') as [Hlog _].
  assert (2 ^ Z.log2 z = 2 ^ (Z.log2 z - 52) * 2 ^ 52) as E by (rewrite <- Z.pow_add_r by lia; f_equal; lia).
  rewrite E in Hlog. set (x := rne z _ * _) in *. set (y := 2 ^ (Z.log2 z - 52)) in *. lia.
Qed.

(** The target lies within rounding of 90% of the cap, and below the cap. *)
Lemma evict_target_near maxDiskUsage :
  0 <= maxDiskUsage < two63 ->
  0 <= evict_target maxDiskUsage <= maxDiskUsage
  /\ 9 * maxDiskUsage - 30000 <= 10 * evict_target maxDiskUsage <= 9 * maxDiskUsage + 30000.
Proof.
  intros Hm. unfold two63 in Hm. unfold evict_target.
  pose proof (round53_bounds maxDiskUsage ltac:(lia)) as H1. set (x := round53 maxDiskUsage) in *.
  assert (0 <= x) as Hx by lia.
  pose proof (round53_bounds (x * 8106479329266893) ltac:(lia)) as H2. set (y := round53 _) in *.
  Z.div_mod_to_equations. lia.
Qed.

(** ** The logical size when rows disappear *)

Section Sizes.

Context {PB : Protobuf}.
Implicit Types m : gmap bytes bytes.

Definition lengths_ok m : Prop := forall key vm, row_at m key vm -> 0 <= ValueLength vm.

Lemma value_size_nonneg m k v : lengths_ok m -> m !! k = Some v -> 0 <= value_size k v.
Proof.
  intros Hl E. unfold value_size. destruct (has_prefix MetadataPrefix k) eqn:Hk; [|done].
  destruct (proto_Unmarshal v) as [vm|] eqn:Eu; [|done]. apply (Hl (ExtractUserKey k)). exists v.
  split; [|done]. by rewrite <- (IsMetadataKey_inv k Hk).
Qed.

Lemma lengths_ok_sub m m' : lengths_ok m ->
  (forall key v, m' !! MakeMetadataKey key = Some v -> m !! MakeMetadataKey key = Some v) -> lengths_ok m'.
Proof. intros Hl Hs key vm (v & E & Eu). apply (Hl key). exists v. auto. Qed.

Lemma live_size_nonneg m : lengths_ok m -> 0 <= live_size m.
Proof.
  induction m as [|k v m E IH] using map_ind; intros Hl; [done|]. rewrite live_size_insert_new by done.
  pose proof (value_size_nonneg _ k v Hl (lookup_insert_eq _ _ _)).
  assert (0 <= live_size m); [|lia]. apply IH. eapply lengths_ok_sub; [exact Hl|]. intros key v' E'.
  rewrite lookup_insert_ne; [done|congruence].
Qed.

Lemma live_size_sub m m' : lengths_ok m ->
  (forall key v, m' !! MakeMetadataKey key = Some v -> m !! MakeMetadataKey key = Some v) -> live_size m' <= live_size m.
Proof.
  revert m. induction m' as [|k v m' E IH] using map_ind; intros m Hl Hs; [by apply live_size_nonneg|].
  rewrite live_size_insert_new by done. destruct (has_prefix MetadataPrefix k) eqn:Hk.
  - pose proof (IsMetadataKey_inv k Hk) as Ek. assert (m !! k = Some v) as Em.
    { rewrite Ek. apply Hs. rewrite <- Ek. apply lookup_insert_eq. }
    assert (live_size m' <= live_size (delete k m)) as H1.
    { apply IH.
      - eapply lengths_ok_sub; [exact Hl|]. by intros key v' [_ ?]%lookup_delete_Some.
      - intros key v' E'. apply lookup_delete_Some. split; [congruence|]. apply Hs. rewrite lookup_insert_ne; [done|congruence]. }
    rewrite live_size_delete in H1. unfold entry_size in H1. rewrite Em in H1. lia.
  - assert (value_size k v = 0) as -> by (unfold value_size; by rewrite Hk). apply IH; [done|].
    intros key v' E'. apply Hs. rewrite lookup_insert_ne; [done|congruence].
Qed.

End Sizes.

(** ** Enforcement *)

Section Limit.

Context {DB SM : Type} {PB : Protobuf} {PL : ProtobufLaws} {RDB : RocksDB DB} {RL : RocksLaws DB}.
Context {SS : SegmentStore SM} (env : Env) (cfg : Config) (Henv : env_ok env cfg).
Context (closed : nat -> bool).
Implicit Types w : World DB SM.
Implicit Types m : gmap bytes bytes.

Notation idx := (active_index cfg).

(** Every stored value has an entry by which it can be evicted. *)
Definition covers m : Prop := forall key vm, row_at m key vm -> exists e, e ∈ index_keys idx m /\ current idx m e key.

(** C15: the cap holds. On a store whose size counter is exact, whose index covers
    every stored value, and where nothing fails, [enforceDiskLimit] ends with an exact
    counter that does not exceed the cap (if it exceeded it before, the counter is at
    most the 90% target), unless all that is left has expired. *)
Theorem disk_limit_enforced m w :
  represents (w_db w) m -> ref_safe env cfg m (w_disk w) (w_tick w) -> one_entry idx m (index_keys idx m) ->
  covers m -> lengths_ok m -> live_size m < two63 -> w_size w = live_size m ->
  reliable (DB := DB) -> ~ iter_failed (DB := DB) -> (forall n, closed n = false) ->
  0 <= maxDiskUsage cfg < two63 ->
  let '(_, w') := enforceDiskLimit env cfg closed w in
  exists m', represents (w_db w') m' /\ w_size w' = live_size m'
    /\ (live_size m' <= (if w_size w <=? maxDiskUsage cfg then maxDiskUsage cfg else evict_target (maxDiskUsage cfg))
        \/ forall key vm, row_at m' key vm -> found_expired env m w key).
Proof using Henv PL.
  intros Hm Hs Ho Hcov Hl Hsize Hex Hrel Hit Hopen Hmax.
  destruct (evict_target_near _ Hmax) as [Ht _]. pose proof (live_size_nonneg m Hl) as H0.
  enough (wp (enforceDiskLimit env cfg closed) (fun _ w' => exists m', represents (w_db w') m' /\ w_size w' = live_size m'
    /\ (live_size m' <= (if w_size w <=? maxDiskUsage cfg then maxDiskUsage cfg else evict_target (maxDiskUsage cfg))
        \/ forall key vm, row_at m' key vm -> found_expired env m w key)) w) as Hp.
  { by destruct (enforceDiskLimit env cfg closed w) as [r w'] eqn:E; eapply wp_run in Hp. }
  unfold enforceDiskLimit. apply wp_bind, wp_fun. cbn [fst snd load_size]. destruct (Z.leb_spec (w_size w) (maxDiskUsage cfg)) as [Hle|Hgt].
  { apply wp_ret. exists m. split_and!; try done. left. lia. }
  apply wp_bind. eapply wp_mono; [by apply (evictByIndex_spec env cfg Henv closed idx m)|].
  intros _ w' (done & rest & m' & Eidx & [Hm' _ Hd _ Hcl _ Hsz Hstop]). apply wp_ret. exists m'.
  assert (forall key v, m' !! MakeMetadataKey key = Some v -> m !! MakeMetadataKey key = Some v) as Hsub.
  { intros key v E. destruct Hd as [Hd _]. destruct (Hd key) as [E'|E']; rewrite E' in E; done. }
  pose proof (live_size_sub m m' Hl Hsub) as H1. pose proof (live_size_nonneg m' (lengths_ok_sub m m' Hl Hsub)) as H2.
  unfold freed in *. assert (w_size w' = live_size m') as E'.
  { rewrite Hsz, Hex. replace (live_size m - _) with (live_size m') by lia. apply i64_small. unfold is_i64, two63 in *. lia. }
  split_and!; [done|done|]. destruct (Hstop Hrel) as [->|[Hreach|[[n Hn]|Hf]]].
  - right. intros key vm Hrow. assert (row_at m key vm) as Hrow' by (destruct Hrow as (v & E & Eu); exists v; auto).
    destruct (Hcov key vm Hrow') as (e & He & Hcur). rewrite Eidx, app_nil_r in He.
    destruct (Hcl Hrel e key He Hcur) as [Hg|]; [|done]. destruct Hrow as (v & E & _). congruence.
  - left. rewrite Hex in Hreach, Hgt. unfold freed in Hreach. rewrite !i64_small in Hreach by (unfold is_i64, two63 in *; lia). lia.
  - by rewrite Hopen in Hn.
  - done.
Qed.

End Limit.
