(* ===== verification/Cleaner.v ===== *)
(** * The cleaner (storage/cleaner.go, orphan_sweep.go)

    The TTL sweep, the reconciliation of the size counter and of the eviction index
    with the metadata, the sweep of orphaned raw files, and one tick of the cleanup
    loop. Scans read the snapshot their iterator was opened on; point reads and
    writes go to the current store. The test hooks are nil. *)

From S2P Require Import Prelude Keys Errors Message Merge Wire Rocks World Files RangeReader Storage Eviction.

Open Scope Z_scope.

Definition accessBucketCleanupInterval : Z := 86400000000000.
Definition accessBucketCleanupThreshold : Z := 2592000000000000.
Definition totalSizeRecalcInterval : Z := 3600000000000.
Definition orphanSweepInterval : Z := 86400000000000.
Definition orphanGraceWindow : Z := 600000000000.
Definition DefaultFenceRetention : Z := 21600000000000.
Definition expiryFlushBatch : nat := 100.

Record expiryCandidate := MkCand { ec_key : bytes; ec_metaKey : bytes; ec_expiry : Z; ec_version : Z }.

(** Moves the back-reference iterator (the rows ahead and its final error) to
    [userKey]: whether an entry exists, whether the iterator is sound, the rows left. *)
Fixpoint advanceBackrefTo (rows : list (bytes * bytes)) (err : option error) (prefix userKey : bytes)
    : bool * bool * list (bytes * bytes) :=
  match rows with
  | [] => (false, bool_decide (err = None), [])
  | (k, _) :: rest =>
      if has_prefix prefix k then
        let suffix := sdrop (String.length prefix) k in
        if slt suffix userKey then advanceBackrefTo rest err prefix userKey
        else if decide (suffix = userKey) then (true, true, rest)
        else (false, true, rows)
      else (false, true, rows)
  end.

Section Cleaner.

Context {DB SM : Type} `{Protobuf} `{RocksDB DB} `{SegmentStore SM} (env : Env) (cfg : Config).
Context (closed : nat -> bool) (fenceRetention : Z).
Notation M := (M (DB := DB) (SM := SM)).

(** ** The TTL sweep *)

Record ttl_state := MkTtl {
  tt_batch : list batch_op;
  tt_pendingCleaned : Z;
  tt_pendingBytes : Z;
  tt_pendingFiles : list ValueMessage;
  tt_candidates : list expiryCandidate;
  tt_committedCleaned : Z
}.

Definition ttl_init : ttl_state := MkTtl [] 0 0 [] [] 0.

Definition tt_version (value : bytes) : Z := default 0 (valueMessageVersion value).

(** The re-check of one candidate, immediately before the batch is written. *)
Definition recheck (cand : expiryCandidate) (st : ttl_state) : M ttl_state :=
  r ← Get_ (ec_metaKey cand);
  match r with
  | inl _ | inr None => mret st
  | inr (Some value) =>
      let expiry := valueMessageExpiry value in
      if bool_decide (is_Some expiry) && bool_decide (expiry <> Some (ec_expiry cand)) then mret st
      else if bool_decide (is_Some expiry) && (ec_expiry cand =? tombstoneExpiry)
              && negb (tt_version value =? ec_version cand) then mret st
      else
        let decoded := match expiry with Some _ => unmarshalValueMessageSkippingData value | None => None end in
        idx ← stageEvictionIndexDeletes cfg (ec_key cand);
        let batch := tt_batch st ++ [BDelete (ec_metaKey cand)] ++ idx in
        let cleaned := tt_pendingCleaned st + 1 in
        match decoded with
        | None => mret (MkTtl batch cleaned (tt_pendingBytes st) (tt_pendingFiles st) (tt_candidates st) (tt_committedCleaned st))
        | Some vm =>
            let bytes := i64 (tt_pendingBytes st + ValueLength vm) in
            if (ValueType vm =? SEGMENT) && bool_decide (SegmentPath vm <> EmptyString)
            then mret (MkTtl (batch ++ [BMerge (MakeDeleteIndexKey (SegmentPath vm)) (MakeDeleteIndexOperand 1 (ValueLength vm))])
                         cleaned bytes (tt_pendingFiles st) (tt_candidates st) (tt_committedCleaned st))
            else mret (MkTtl batch cleaned bytes (tt_pendingFiles st ++ [vm]) (tt_candidates st) (tt_committedCleaned st))
        end
  end.

Fixpoint recheck_all (cands : list expiryCandidate) (st : ttl_state) : M ttl_state :=
  match cands with
  | [] => mret st
  | cand :: cands => st ← recheck cand st; recheck_all cands st
  end.

Definition clear_candidates (st : ttl_state) : ttl_state :=
  MkTtl (tt_batch st) (tt_pendingCleaned st) (tt_pendingBytes st) (tt_pendingFiles st) [] (tt_committedCleaned st).

Definition ttl_flush (st : ttl_state) : M ttl_state :=
  st ← recheck_all (tt_candidates st) st;
  let st := clear_candidates st in
  match tt_batch st with
  | [] => mret st
  | batch =>
      r ← Write_ batch;
      match r with
      | Some _ => mret (MkTtl [] 0 0 [] [] (tt_committedCleaned st))
      | None =>
          _ ← stage_files env (tt_pendingFiles st);
          _ ← (if 0 <? tt_pendingBytes st then UpdateSize (- tt_pendingBytes st) else mret ());
          mret (MkTtl [] 0 0 [] [] (tt_committedCleaned st + tt_pendingCleaned st))
      end
  end.

(** Whether a tombstone still fences its key: stamped within the retention horizon. *)
Definition fenced (version : Z) : M bool :=
  if version =? 0 then mret false
  else now ← time_Now env; mret (now - i64 version <? fenceRetention).

(** One scanned row: an invalid row is staged at once, an expired one becomes a
    candidate. *)
Definition ttl_row (now : Z) (keyBytes value : bytes) (st : ttl_state) : M (ttl_state * bool) :=
  let key := ExtractUserKey keyBytes in
  match valueMessageExpiry value with
  | None =>
      idx ← stageEvictionIndexDeletes cfg key;
      mret (MkTtl (tt_batch st ++ [BDelete keyBytes] ++ idx) (tt_pendingCleaned st + 1) (tt_pendingBytes st)
              (tt_pendingFiles st) (tt_candidates st) (tt_committedCleaned st), false)
  | Some expiry =>
      if (0 <? expiry) && (expiry <=? now) then
        let version := if expiry =? tombstoneExpiry then tt_version value else 0 in
        keep ← (if expiry =? tombstoneExpiry then fenced version else mret false);
        mret (if (keep : bool) then st
              else MkTtl (tt_batch st) (tt_pendingCleaned st) (tt_pendingBytes st) (tt_pendingFiles st)
                     (tt_candidates st ++ [MkCand key keyBytes expiry version]) (tt_committedCleaned st), true)
      else mret (st, true)
  end.

(** The scan; the flag says whether it ended without a shutdown. *)
Fixpoint ttl_loop (now : Z) (rows : list (bytes * bytes)) (st : ttl_state) : M (ttl_state * bool) :=
  match rows with
  | [] => mret (st, true)
  | (keyBytes, value) :: rows =>
      stop ← closeCh closed;
      if (stop : bool) then mret (st, false)
      else
        '(st, check) ← ttl_row now keyBytes value st;
        if check && ((1000 <=? List.length (tt_batch st))%nat || (expiryFlushBatch <=? List.length (tt_candidates st))%nat)
        then
          stop ← closeCh closed;
          if (stop : bool) then mret (st, false)
          else st ← ttl_flush st; ttl_loop now rows st
        else ttl_loop now rows st
  end.

Definition add_cleaned (n : Z) : M () := fun w => ((), set_counters (i64 (w_cleaned w + n)) (w_evicted w) w).

Definition cleanupExpiredKeys : M () :=
  it ← Iterate_ MetadataPrefix;
  nowNanos ← time_Now env;
  '(st, finished) ← ttl_loop (unix_of nowNanos) (prefix_rows MetadataPrefix it.1) ttl_init;
  if (finished : bool) then
    st ← match tt_batch st, tt_candidates st with
         | [], [] => mret st
         | _, _ => ttl_flush st
         end;
    add_cleaned (tt_committedCleaned st)
  else mret ().

(** ** The orphan sweep *)

(** [info.ModTime()] of a file, at a consultation of the environment. *)
Context (mtime : nat -> bytes -> Z).

Definition file_info (path : bytes) : M (option Z) :=
  f ← syscall env;
  match f with
  | Some _ => mret None
  | None => fun w => (match w_disk w !! path with Some _ => Some (mtime (w_tick w) path) | None => None end, tick w)
  end.

Definition is_inflight (path : bytes) : M bool := fun w => (bool_decide (path ∈ w_inflight w), w).

(** [i] counts the listed entries; the result is false on shutdown. *)
Fixpoint sweep_loop (referenced : gmap bytes Z) (cutoff : Z) (i : Z) (names : list bytes) : M bool :=
  match names with
  | [] => mret true
  | name :: names =>
      stop ← (if i mod 1000 =? 0 then closeCh closed else mret false);
      if (stop : bool) then mret false
      else match referenced !! name with
        | Some _ => sweep_loop referenced cutoff (i + 1) names
        | None =>
            let path := filepath_Join (filesPath cfg) name in
            info ← file_info path;
            match info with
            | None => sweep_loop referenced cutoff (i + 1) names
            | Some modTime =>
                if cutoff <? modTime then sweep_loop referenced cutoff (i + 1) names
                else
                  inflight ← is_inflight path;
                  if (inflight : bool) then sweep_loop referenced cutoff (i + 1) names
                  else
                    locked ← TryLock env path;
                    if negb locked then sweep_loop referenced cutoff (i + 1) names
                    else
                      _ ← stageRawFileDeletion env path;
                      sweep_loop referenced cutoff (i + 1) names
            end
        end
  end.

Definition ReadDir (dir : bytes) : M (option (list bytes)) :=
  f ← syscall env;
  match f with
  | Some _ => mret None
  | None => fun w => (Some (dir_entries (w_disk w) dir), w)
  end.

Definition sweepOrphanRawFiles (referenced : gmap bytes Z) (scanStart : Z) : M bool :=
  entries ← ReadDir (filesPath cfg);
  match entries with
  | None => mret false
  | Some names => sweep_loop referenced (scanStart - orphanGraceWindow) 0 names
  end.

(** ** Reconciliation *)

(** What the cleaner remembers between ticks; a zero time is [None]. *)
Record cleaner_state := MkCleaner {
  cs_backfillPending : bool;
  cs_lastSizeRecalc : Z;
  cs_lastOrphanSweep : option Z;
  cs_lastBucketCleanup : Z
}.

Definition set_pending (b : bool) (cs : cleaner_state) : cleaner_state :=
  MkCleaner b (cs_lastSizeRecalc cs) (cs_lastOrphanSweep cs) (cs_lastBucketCleanup cs).
Definition set_lastSweep (t : Z) (cs : cleaner_state) : cleaner_state :=
  MkCleaner (cs_backfillPending cs) (cs_lastSizeRecalc cs) (Some t) (cs_lastBucketCleanup cs).

Record scan_state := MkScan {
  sn_total : Z;
  sn_referenced : gmap bytes Z;
  sn_backrefs : list (bytes * bytes);
  sn_broken : bool;
  sn_batch : list batch_op;
  sn_writeErrs : Z
}.

Definition stageBackfillEntry (userKey : bytes) (now : Z) : M (list batch_op) :=
  if is_fifo cfg then writeFifoIndexEntry userKey now
  else
    let accessKey := MakeBucketedAccessKey (env_tz env) userKey now in
    mret [BPut accessKey EmptyString; BPut (MakeBucketedAccessIndexKey userKey) accessKey].

Definition scan_flush (st : scan_state) : M scan_state :=
  match sn_batch st with
  | [] => mret st
  | batch =>
      r ← Write_ batch;
      mret (MkScan (sn_total st) (sn_referenced st) (sn_backrefs st) (sn_broken st) []
              (sn_writeErrs st + match r with Some _ => 1 | None => 0 end))
  end.

Definition backrefPrefix : bytes := if is_fifo cfg then FifoBackrefPrefix else AccessBucketIndexPrefix.

(** The size and the raw file of one row. *)
Definition scan_size (sweepDue : bool) (value : bytes) (st : scan_state) : scan_state :=
  match valueMessageSizeAndRawPath value with
  | None => st
  | Some (length, rawPath) =>
      MkScan (i64 (sn_total st + length))
        (if sweepDue && bool_decide (rawPath <> EmptyString) then <[filepath_Base rawPath := length]> (sn_referenced st)
         else sn_referenced st)
        (sn_backrefs st) (sn_broken st) (sn_batch st) (sn_writeErrs st)
  end.

(** The index coverage of one row. *)
Definition scan_backfill (backrefErr : option error) (now : Z) (keyBytes : bytes) (st : scan_state) : M scan_state :=
  if sn_broken st then mret st
  else
    let userKey := ExtractUserKey keyBytes in
    let '(covered, ok, rest) := advanceBackrefTo (sn_backrefs st) backrefErr backrefPrefix userKey in
    if negb ok then mret (MkScan (sn_total st) (sn_referenced st) rest true (sn_batch st) (sn_writeErrs st))
    else if (covered : bool) then mret (MkScan (sn_total st) (sn_referenced st) rest false (sn_batch st) (sn_writeErrs st))
    else
      ops ← stageBackfillEntry userKey now;
      let st := MkScan (sn_total st) (sn_referenced st) rest false (sn_batch st ++ ops) (sn_writeErrs st) in
      if (1000 <=? List.length (sn_batch st))%nat then scan_flush st else mret st.

Fixpoint scan_loop (backfill sweepDue : bool) (backrefErr : option error) (now : Z) (rows : list (bytes * bytes))
    (st : scan_state) : M (scan_state * bool) :=
  match rows with
  | [] => mret (st, true)
  | (keyBytes, value) :: rows =>
      stop ← closeCh closed;
      if (stop : bool) then st ← scan_flush st; mret (st, false)
      else
        let st := scan_size sweepDue value st in
        st ← (if backfill then scan_backfill backrefErr now keyBytes st else mret st);
        scan_loop backfill sweepDue backrefErr now rows st
  end.

Definition sweep_is_due (cs : cleaner_state) : M bool :=
  match cs_lastOrphanSweep cs with
  | None => mret true
  | Some t => now ← time_Now env; mret (orphanSweepInterval <=? now - t)
  end.

Definition reconcileFromMetadata (cs : cleaner_state) : M cleaner_state :=
  start ← time_Now env;
  let backfill := 0 <? maxDiskUsage cfg in
  it ← Iterate_ MetadataPrefix;
  tracked ← load_size;
  '(now, backrefs, backrefErr) ← (if backfill then
      now ← time_Now env;
      bit ← Iterate_ backrefPrefix;
      mret (now, bit.1, bit.2)
    else mret (0, [], None));
  sweepDue ← sweep_is_due cs;
  '(st, finished) ← scan_loop backfill sweepDue backrefErr now (prefix_rows MetadataPrefix it.1)
                      (MkScan 0 ∅ backrefs false [] 0);
  if negb finished then mret cs
  else
    st ← scan_flush st;
    match iter_Err (prefix_rest MetadataPrefix it.1) it.2 with
    | Some _ => mret (if backfill then set_pending true cs else cs)
    | None =>
        let incomplete := (0 <? sn_writeErrs st) || sn_broken st
                          || bool_decide (is_Some (iter_Err (sn_backrefs st) backrefErr)) in
        let cs := if backfill then set_pending incomplete cs else cs in
        _ ← UpdateSize (i64 (sn_total st - tracked));
        if (sweepDue : bool) then
          completed ← sweepOrphanRawFiles (sn_referenced st) start;
          if (completed : bool) then now ← time_Now env; mret (set_lastSweep now cs) else mret cs
        else mret cs
    end.

(** ** The cleanup loop *)

Context (statfs : nat -> option Statfs).

(** One tick of [cleanupLoop]. *)
Definition cleanup_tick (cs : cleaner_state) : M cleaner_state :=
  due ← (if cs_backfillPending cs then mret true
         else now ← time_Now env; mret (totalSizeRecalcInterval <? now - cs_lastSizeRecalc cs));
  cs ← (if (due : bool) then
          cs ← reconcileFromMetadata cs;
          now ← time_Now env;
          mret (MkCleaner (cs_backfillPending cs) now (cs_lastOrphanSweep cs) (cs_lastBucketCleanup cs))
        else mret cs);
  _ ← cleanupExpiredKeys;
  _ ← (if 0 <? maxDiskUsage cfg then
         _ ← enforceDiskLimit env cfg closed;
         enforceFilesystemReserve env cfg closed statfs
       else mret ());
  if is_fifo cfg then mret cs
  else
    now ← time_Now env;
    if accessBucketCleanupInterval <? now - cs_lastBucketCleanup cs then
      _ ← cleanupOldBuckets env accessBucketCleanupThreshold;
      now ← time_Now env;
      mret (MkCleaner (cs_backfillPending cs) (cs_lastSizeRecalc cs) (cs_lastOrphanSweep cs) now)
    else mret cs.

(** [Start]: the synchronous first pass, and the times the loop begins with. *)
Definition Start : M cleaner_state :=
  cs ← reconcileFromMetadata (MkCleaner false 0 None 0);
  t1 ← time_Now env;
  t2 ← time_Now env;
  mret (MkCleaner (cs_backfillPending cs) t2 (cs_lastOrphanSweep cs) t1).

End Cleaner.
