(* ===== verification/TtlProps.v ===== *)
(** * The TTL sweep

    A flush deletes a row only if it is still the row the scan saw; a whole sweep
    removes exactly the invalid and the expired, unfenced rows, reduces the counter
    by exactly their bytes and reclaims only their files. *)

From S2P Require Import Prelude Keys Errors Message Merge Wire Rocks World Files RangeReader Storage Wp Safety StorageSpec StorageProps LiveSize SizeProps Version Cas CasSpec Listing ListingProps DeleteBatch Eviction EvictionProps DiskLimit Cleaner.

Open Scope Z_scope.

#[local] Arguments has_prefix : simpl never.
#[local] Arguments apply_batch : simpl never.

Section Ttl.

Context {DB SM : Type} {PB : Protobuf} {PL : ProtobufLaws} {RDB : RocksDB DB} {RL : RocksLaws DB}.
Context {SS : SegmentStore SM} (env : Env) (cfg : Config) (Henv : env_ok env cfg).
Context (closed : nat -> bool) (fenceRetention : Z).
Implicit Types w : World DB SM.
Implicit Types m : gmap bytes bytes.

(** ** Staged deletes *)

(** The row is the one the scan saw: same expiry and, for a tombstone, same stamp. *)
Definition same_row (cand : expiryCandidate) (v : bytes) : Prop :=
  forall vm, proto_Unmarshal v = Some vm ->
    Expiry vm = ec_expiry cand /\ (ec_expiry cand = tombstoneExpiry -> Version vm = ec_version cand).

Definition undecodable m (key : bytes) : Prop :=
  exists v, m !! MakeMetadataKey key = Some v /\ proto_Unmarshal v = None.

(** The staged batch of a sweep over the rows [m]. *)
Record staged m (st : ttl_state) : Prop := {
  sg_ops : Forall del_op (tt_batch st);
  sg_files : Forall (fun vm => exists key len, key ∈ row_deletes (tt_batch st)
    /\ (ValueType vm = RAW_FILE -> raw_at m key (RawFilePath vm) len)) (tt_pendingFiles st);
  sg_bytes : tt_pendingBytes st = i64 (live_size m - live_size (apply_batch m (tt_batch st)))
}.

(** A delete of one row with index deletes and a credit. *)
Lemma staged_row m st key ops :
  staged m st -> Forall index_op ops ->
  let batch := tt_batch st ++ [BDelete (MakeMetadataKey key)] ++ ops in
  Forall del_op batch /\ row_deletes batch = row_deletes (tt_batch st) ++ [key]
  /\ live_size (apply_batch m batch)
     = live_size (apply_batch m (tt_batch st)) - entry_size (apply_batch m (tt_batch st)) (MakeMetadataKey key).
Proof.
  intros Hs Ho batch. unfold batch. split_and!.
  - apply Forall_app. split; [apply Hs|]. apply Forall_app. split; [apply Forall_one; left; by exists key|].
    eapply Forall_impl; [exact Ho|]. by right.
  - rewrite !row_deletes_app, row_deletes_meta, (row_deletes_index ops) by done. by rewrite app_nil_r.
  - rewrite app_assoc, index_batch_size by done. apply del_batch_size_step.
Qed.

Lemma staged_files_mono m (batch : list batch_op) key ops (files : list ValueMessage) :
  Forall (fun vm => exists key len, key ∈ row_deletes batch
    /\ (ValueType vm = RAW_FILE -> raw_at m key (RawFilePath vm) len)) files ->
  row_deletes ops = row_deletes batch ++ [key] ->
  Forall (fun vm => exists key len, key ∈ row_deletes ops
    /\ (ValueType vm = RAW_FILE -> raw_at m key (RawFilePath vm) len)) files.
Proof.
  intros Hf E. eapply Forall_impl; [exact Hf|]. intros vm (k & len & Hk & Hr). exists k, len. split; [|done].
  rewrite E. apply elem_of_app. by left.
Qed.

(** The size a deleted row had, when it was not staged before. *)
Lemma unstaged_size m st key v :
  staged m st -> m !! MakeMetadataKey key = Some v ->
  key ∉ row_deletes (tt_batch st) \/ proto_Unmarshal v = None ->
  entry_size (apply_batch m (tt_batch st)) (MakeMetadataKey key)
  = match proto_Unmarshal v with Some vm => ValueLength vm | None => 0 end.
Proof.
  intros Hs Ev Hn. unfold entry_size, value_size. rewrite del_batch_rows, Ev by apply Hs. unfold MakeMetadataKey.
  rewrite has_prefix_app. destruct Hn as [Hn|Hn]; case_decide; try done. by rewrite Hn.
Qed.

(** What one re-check does: nothing, or one more staged row. *)
Lemma recheck_spec m cand st w :
  represents (w_db w) m -> backrefs_ok m -> ec_metaKey cand = MakeMetadataKey (ec_key cand) -> staged m st ->
  ec_key cand ∉ row_deletes (tt_batch st) \/ undecodable m (ec_key cand) ->
  wp (recheck cfg cand st) (fun st' w' => represents (w_db w') m /\ frame w w' /\ staged m st'
    /\ tt_candidates st' = tt_candidates st /\ tt_committedCleaned st' = tt_committedCleaned st
    /\ (row_deletes (tt_batch st') = row_deletes (tt_batch st)
        /\ (~ read_failed (DB := DB) -> forall v, m !! ec_metaKey cand = Some v -> ~ same_row cand v)
        \/ row_deletes (tt_batch st') = row_deletes (tt_batch st) ++ [ec_key cand]
           /\ exists v, m !! ec_metaKey cand = Some v /\ same_row cand v)) w.
Proof using PL.
  intros Hm Hb Hk Hs Hnew. unfold recheck. rewrite Hk. apply wp_bind. eapply (wp_Get_failing m); [exact Hm|..].
  { intros e db Hdb Hf. apply wp_ret. split_and!; auto with ocache. }
  intros db Hdb. destruct (m !! MakeMetadataKey (ec_key cand)) as [v|] eqn:Ev.
  2: { apply wp_ret. split_and!; auto with ocache. left. by split. }
  rewrite expiry_spec, skipping_spec. unfold tt_version. rewrite version_spec.
  assert (forall ops size files,
    Forall index_op ops -> size = match proto_Unmarshal v with Some vm => ValueLength vm | None => 0 end ->
    Forall (fun vm => ValueType vm = RAW_FILE -> raw_at m (ec_key cand) (RawFilePath vm) (ValueLength vm)) files ->
    same_row cand v ->
    forall w' cleaned, represents (w_db w') m -> frame w w' ->
    let st' := MkTtl (tt_batch st ++ [BDelete (MakeMetadataKey (ec_key cand))] ++ ops) cleaned
       (i64 (tt_pendingBytes st + size)) (tt_pendingFiles st ++ files) (tt_candidates st) (tt_committedCleaned st) in
    represents (w_db w') m /\ frame w w' /\ staged m st'
    /\ tt_candidates st' = tt_candidates st /\ tt_committedCleaned st' = tt_committedCleaned st
    /\ (row_deletes (tt_batch st') = row_deletes (tt_batch st)
        /\ (~ read_failed (DB := DB) -> forall v', Some v = Some v' -> ~ same_row cand v')
        \/ row_deletes (tt_batch st') = row_deletes (tt_batch st) ++ [ec_key cand]
           /\ exists v', Some v = Some v' /\ same_row cand v')) as K.
  { intros ops size files Hops Hsize Hfiles Hsame w' cleaned Hm' F st'.
    destruct (staged_row m st (ec_key cand) ops Hs Hops) as (H1 & H2 & H3). split_and!; try done; [|right; eauto].
    split; cbn [tt_batch tt_pendingFiles tt_pendingBytes st']; [done| |].
    - apply Forall_app. split; [eapply staged_files_mono; [apply Hs|exact H2]|].
      eapply Forall_impl; [exact Hfiles|]. intros vm Hvm. exists (ec_key cand), (ValueLength vm). split; [|done].
      rewrite H2. apply elem_of_app. right. left.
    - rewrite (sg_bytes _ _ Hs), i64_add_l, H3, (unstaged_size m st (ec_key cand) v), Hsize; try done.
      + f_equal. lia.
      + destruct Hnew as [|(v' & E & Eu)]; [by left|]. right. congruence. }
  assert (i64 (tt_pendingBytes st + 0) = tt_pendingBytes st) as Kb
    by (by rewrite (sg_bytes _ _ Hs), i64_add_l, Z.add_0_r).
  destruct (proto_Unmarshal v) as [vm|] eqn:Eu; cbn [fmap option_fmap option_map].
  - rewrite bool_decide_true by by eexists. cbn [andb from_option default id].
    destruct (decide (Some (Expiry vm) = Some (ec_expiry cand))) as [Ee|Ee].
    2: { rewrite bool_decide_true by done. apply wp_ret. split_and!; auto with ocache. left. split; [done|].
         intros _ v' [= <-] Hsame. destruct (Hsame vm Eu) as [Hx _]. congruence. }
    rewrite bool_decide_false by (intros Hx; by apply Hx). injection Ee as Ee.
    destruct ((ec_expiry cand =? tombstoneExpiry) && negb (Version vm =? ec_version cand)) eqn:Et.
    { apply wp_ret. split_and!; auto with ocache. left. split; [done|]. intros _ v' [= <-] Hsame.
      bool_facts. destruct (Hsame vm Eu) as [_ Hx]. by apply Hx in H. }
    assert (same_row cand v) as Hsame.
    { intros vm' Eu'. rewrite Eu in Eu'. injection Eu' as <-. split; [done|]. intros Ht.
      apply andb_false_iff in Et as [Et|Et]; bool_facts; done. }
    apply wp_bind. eapply wp_stageEvictionIndexDeletes; [exact Hdb|done|]. intros idx w1 Hm1 F1 Hidx.
    assert (frame w w1) as F by (etrans; [apply (frame_set_db db)|done]).
    destruct ((ValueType (clear_data vm) =? SEGMENT) && _) eqn:Eseg; apply wp_ret.
    + pose proof (K (idx ++ [BMerge (MakeDeleteIndexKey (SegmentPath (clear_data vm)))
        (MakeDeleteIndexOperand 1 (ValueLength (clear_data vm)))]) (ValueLength (clear_data vm)) []) as K'.
      rewrite app_nil_r in K'. rewrite <- !app_assoc. apply K'; try done; [|by destruct vm].
      apply Forall_app. split; [done|]. apply Forall_one. cbn. apply has_prefix_app.
    + apply K; try done; [by destruct vm|]. apply Forall_one. intros Hr. exists vm.
      split; [by exists v|]. by destruct vm.
  - rewrite bool_decide_false by (by intros [? ?]). cbn [andb].
    assert (same_row cand v) as Hsame by (intros vm' Eu'; congruence).
    apply wp_bind. eapply wp_stageEvictionIndexDeletes; [exact Hdb|done|]. intros idx w1 Hm1 F1 Hidx.
    assert (frame w w1) as F by (etrans; [apply (frame_set_db db)|done]). apply wp_ret.
    pose proof (K idx 0 []) as K'. rewrite app_nil_r in K'.
    specialize (K' Hidx eq_refl ltac:(by apply Forall_nil_2) Hsame w1 (tt_pendingCleaned st + 1) Hm1 F).
    by rewrite Kb in K'.
Qed.

(** ** Flushing *)

(** The candidates of a scan: one per key, with the row's key. *)
Definition cands_ok (cands : list expiryCandidate) : Prop :=
  Forall (fun c => ec_metaKey c = MakeMetadataKey (ec_key c)) cands /\ NoDup (ec_key <$> cands).

Definition due m (cands : list expiryCandidate) (key : bytes) : Prop :=
  exists c v, c ∈ cands /\ ec_key c = key /\ m !! MakeMetadataKey key = Some v /\ same_row c v.

Lemma recheck_all_spec m cands st w :
  represents (w_db w) m -> backrefs_ok m -> cands_ok cands -> staged m st ->
  Forall (fun c => ec_key c ∉ row_deletes (tt_batch st) \/ undecodable m (ec_key c)) cands ->
  wp (recheck_all cfg cands st) (fun st' w' => represents (w_db w') m /\ frame w w' /\ staged m st'
    /\ tt_committedCleaned st' = tt_committedCleaned st
    /\ (forall key, key ∈ row_deletes (tt_batch st) -> key ∈ row_deletes (tt_batch st'))
    /\ (forall key, key ∈ row_deletes (tt_batch st') -> key ∈ row_deletes (tt_batch st) \/ due m cands key)
    /\ (~ read_failed (DB := DB) -> forall key, due m cands key -> key ∈ row_deletes (tt_batch st'))) w.
Proof using PL.
  intros Hm Hb [Hwf Hnd]. revert st w Hm. induction cands as [|c cands IH]; intros st w Hm Hs Hnew; cbn [recheck_all].
  { apply wp_ret. split_and!; try done; [auto|]. intros _ key (c & v & Hc & _). by apply not_elem_of_nil in Hc. }
  apply Forall_cons in Hwf as [Hwf1 Hwf]. cbn in Hnd. apply NoDup_cons in Hnd as [Hc Hnd]. apply Forall_cons in Hnew as [Hn1 Hn2].
  apply wp_bind. eapply wp_mono; [by apply (recheck_spec m c)|]. intros st1 w1 (Hm1 & F1 & Hs1 & _ & Hcc & Hdel). rewrite Hwf1 in Hdel.
  assert (forall key, key ∈ row_deletes (tt_batch st) -> key ∈ row_deletes (tt_batch st1)) as Hmono.
  { intros key Hk. destruct Hdel as [[-> _]|[-> _]]; [done|]. apply elem_of_app. by left. }
  eapply wp_mono; [apply (IH Hwf Hnd st1 w1); try done|].
  - rewrite Forall_forall in Hn2 |- *. intros c' Hc'. destruct (Hn2 c' Hc') as [Hx|Hx]; [|by right]. left.
    destruct Hdel as [[-> _]|[-> _]]; [done|]. rewrite elem_of_app, list_elem_of_singleton. intros [Hy|Hy]; [done|].
    apply Hc. rewrite <- Hy. by apply list_elem_of_fmap_2.
  - intros st2 w2 (Hm2 & F2 & Hs2 & Hcc2 & H1 & H2 & H3). split_and!; try done; [by etrans|congruence|auto|..].
    + intros key Hk. destruct (H2 key Hk) as [Hx|(c' & v & Hc' & Hd)]; [|right; exists c', v; split; [by right|done]].
      destruct Hdel as [[E _]|[E (v & Ev & Hsame)]]; rewrite E in Hx; [by left|].
      apply elem_of_app in Hx as [Hx|Hx%list_elem_of_singleton]; [by left|]. subst key. right. exists c, v. split; [left|done].
    + intros Hr key (c' & v & Hc' & <- & Ev & Hsame). apply elem_of_cons in Hc' as [->|Hc'].
      * apply H1. destruct Hdel as [[_ Hno]|[-> _]]; [by destruct (Hno Hr v Ev)|]. apply elem_of_app. right. left.
      * apply H3; [done|]. by exists c', v.
Qed.

(** The rows of [m] that survive in [m'], and those that do not. *)
Definition removed_only m m' (P : bytes -> Prop) : Prop :=
  forall key, m' !! MakeMetadataKey key = m !! MakeMetadataKey key
    \/ m' !! MakeMetadataKey key = None /\ P key.

Record flushed m (st : ttl_state) w (st' : ttl_state) m' w' : Prop := {
  fl_rep : represents (w_db w') m';
  fl_safe : ref_safe env cfg m (w_disk w) (w_tick w) -> ref_safe env cfg m' (w_disk w') (w_tick w');
  fl_rows : removed_only m m' (fun key => key ∈ row_deletes (tt_batch st) \/ due m (tt_candidates st) key);
  fl_gone : reliable (DB := DB) -> forall key,
    key ∈ row_deletes (tt_batch st) \/ due m (tt_candidates st) key -> m' !! MakeMetadataKey key = None;
  fl_size : lengths_ok m -> live_size m < two63 -> i64 (w_size w') = i64 (w_size w - (live_size m - live_size m'));
  fl_empty : tt_batch st' = [] /\ tt_candidates st' = [] /\ tt_pendingFiles st' = [] /\ tt_pendingBytes st' = 0;
  fl_calm : quietly w w'
}.

(** Nothing was written. *)
Lemma flushed_none m st w st' w' :
  frame w w' -> represents (w_db w') m ->
  (reliable (DB := DB) -> forall key, ~ (key ∈ row_deletes (tt_batch st) \/ due m (tt_candidates st) key)) ->
  tt_batch st' = [] -> tt_candidates st' = [] -> tt_pendingFiles st' = [] -> tt_pendingBytes st' = 0 ->
  flushed m st w st' m w'.
Proof.
  intros F Hm' Hno E1 E2 E3 E4. split; try done.
  - intros Hsafe. by eapply ref_safe_quietly; [apply frame_quietly|].
  - by left.
  - intros Hrel key Hk. by destruct (Hno Hrel key).
  - intros _ _. by rewrite (fr_size _ _ F), Z.sub_diag, Z.sub_0_r.
  - by apply frame_quietly.
Qed.

(** The staged bytes are what the batch frees. *)
Lemma pending_freed m st m' :
  staged m st -> live_size m' = live_size (apply_batch m (tt_batch st)) ->
  (forall key v, m' !! MakeMetadataKey key = Some v -> m !! MakeMetadataKey key = Some v) ->
  lengths_ok m -> live_size m < two63 ->
  tt_pendingBytes st = live_size m - live_size m' /\ 0 <= live_size m - live_size m'.
Proof.
  intros Hs Esz Hsub Hl Hlt. pose proof (live_size_sub m m' Hl Hsub).
  pose proof (live_size_nonneg m' (lengths_ok_sub m m' Hl Hsub)).
  split; [|lia]. rewrite (sg_bytes _ _ Hs), <- Esz. apply i64_small. unfold is_i64, two63 in *. lia.
Qed.

(** The batch was written and the files reclaimed. *)
Lemma flushed_batch m st st1 q w w2 w3 st' :
  staged m st1 -> frame w w2 -> Forall reclaim_op q ->
  (forall key, key ∈ row_deletes (tt_batch st) -> key ∈ row_deletes (tt_batch st1)) ->
  (forall key, key ∈ row_deletes (tt_batch st1) -> key ∈ row_deletes (tt_batch st) \/ due m (tt_candidates st) key) ->
  (~ read_failed (DB := DB) -> forall key, due m (tt_candidates st) key -> key ∈ row_deletes (tt_batch st1)) ->
  let m1 := apply_batch m (tt_batch st1) in let m2 := apply_batch m1 q in
  represents (w_db w2) m2 ->
  (forall disk t, ref_safe env cfg m1 disk t ->
     Forall (fun vm => ValueType vm = RAW_FILE -> unreferenced m1 (RawFilePath vm)
       /\ forall n, (t <= n)%nat -> RawFilePath vm <> path_of env cfg n) (tt_pendingFiles st1) ->
     ref_safe env cfg m2 disk t) ->
  w3 = w2 /\ tt_pendingBytes st1 <= 0
  \/ w3 = set_size (i64 (w_size w2 + - tt_pendingBytes st1)) w2 /\ 0 < tt_pendingBytes st1 ->
  tt_batch st' = [] -> tt_candidates st' = [] -> tt_pendingFiles st' = [] -> tt_pendingBytes st' = 0 ->
  flushed m st w st' m2 w3.
Proof.
  intros Hs1 F Hq H1 H2 H3 m1 m2 Hm2 Hrs Hw3 E1 E2 E3 E4.
  assert (forall key, m2 !! MakeMetadataKey key
    = if decide (key ∈ row_deletes (tt_batch st1)) then None else m !! MakeMetadataKey key) as Erow.
  { intros key. unfold m2. rewrite reclaim_rows_at by done. apply del_batch_rows, Hs1. }
  assert (live_size m2 = live_size m1) as Esz by by apply reclaim_batch_size.
  assert (w_db w3 = w_db w2 /\ w_disk w3 = w_disk w2 /\ w_tick w3 = w_tick w2) as (D1 & D2 & D3)
    by (destruct Hw3 as [[-> _]|[-> _]]; done).
  split; try done.
  - by rewrite D1.
  - intros Hsafe. rewrite D2, D3, (fr_disk _ _ F). eapply ref_safe_tick; [exact (fr_tick _ _ F)|].
    apply Hrs; [by apply del_batch_safe; [apply Hs1|]|]. eapply Forall_impl; [apply (sg_files _ _ Hs1)|].
    intros vm (key & len & Hk & Hraw) Ht. specialize (Hraw Ht). split; [|by eapply raw_not_future].
    by eapply (del_batch_unreferenced env cfg m); [apply Hs1|..].
  - intros key. rewrite Erow. case_decide as Hd; [|by left]. right. split; [done|]. by apply H2.
  - intros [Hr _] key Hk. rewrite Erow, decide_True; [done|]. destruct Hk as [Hk|Hk]; [by apply H1|by apply H3].
  - intros Hl Hlt. destruct (pending_freed m st1 m2 Hs1 Esz) as [E Hge]; try done.
    { intros key v. rewrite Erow. by case_decide. }
    destruct Hw3 as [[-> Hp]|[-> Hp]]; cbn; rewrite (fr_size _ _ F), ?(i64_small _ (i64_range _)); f_equal; lia.
  - destruct F. split; [congruence|lia].
Qed.

Lemma ttl_flush_spec m st w :
  represents (w_db w) m -> backrefs_ok m -> cands_ok (tt_candidates st) -> staged m st ->
  Forall (fun c => ec_key c ∉ row_deletes (tt_batch st) \/ undecodable m (ec_key c)) (tt_candidates st) ->
  wp (ttl_flush env cfg st) (fun st' w' => exists m', flushed m st w st' m' w') w.
Proof using Henv PL.
  intros Hm Hb Hc Hs Hn. unfold ttl_flush. apply wp_bind.
  eapply wp_mono; [by apply (recheck_all_spec m (tt_candidates st) st)|].
  intros st1 w1 (Hm1 & F1 & Hs1 & Hcc & H1 & H2 & H3). cbn zeta.
  unfold clear_candidates. cbn [tt_batch tt_pendingFiles tt_pendingBytes tt_pendingCleaned tt_committedCleaned].
  destruct (tt_batch st1) as [|op ops] eqn:Eb.
  { apply wp_ret. exists m. pose proof Hs1 as [_ Hfiles Hbytes]. rewrite Eb in Hfiles, Hbytes.
    apply flushed_none; cbn; try done.
    - intros [Hr _] key [Hk|Hk]; [apply H1 in Hk|apply (H3 Hr) in Hk]; by apply not_elem_of_nil in Hk.
    - destruct (tt_pendingFiles st1) as [|vm l]; [done|]. apply Forall_cons in Hfiles as [(k & len & Hk & _) _].
      by apply not_elem_of_nil in Hk.
    - rewrite Hbytes. unfold apply_batch. cbn. by rewrite Z.sub_diag. }
  rewrite <- Eb in *. clear op ops Eb. apply wp_bind.
  eapply (wp_Write_failing m); [exact Hm1|by apply plain_regular, del_op_plain, Hs1| |].
  { intros e db Hdb Hf. apply wp_ret. exists m. apply flushed_none; try done; [by etrans; [|apply frame_set_db]|by intros [_ ?]]. }
  intros db Hdb. apply wp_bind.
  eapply (wp_stage_files env cfg Henv (apply_batch m (tt_batch st1))); [exact Hdb|].
  intros q w2 Hm2 F2 Hq Hrs.
  assert (frame w w2) as F by (etrans; [exact F1|]; etrans; [apply (frame_set_db db)|done]).
  apply wp_bind. destruct (Z.ltb_spec 0 (tt_pendingBytes st1)) as [Hp|Hp]; [apply wp_UpdateSize|apply wp_ret];
    apply wp_ret; eexists; eapply (flushed_batch m st st1 q w w2); eauto.
Qed.

(** The flush of the TTL sweep does not delete what was written since the scan.
    Whatever the rows are by now, and for any candidates of the scan, [flush] deletes
    only rows that still carry the expiry the scan saw, and a tombstone only if it
    also carries the stamp the scan saw: a row that expires later than the scan's
    clock, or never, and a fence that was moved, survive. Files of surviving rows are
    not queued, and the counter drops by exactly the bytes deleted. *)
Theorem ttl_flush_keeps_fresh now m cands w :
  represents (w_db w) m -> ref_safe env cfg m (w_disk w) (w_tick w) -> cands_ok cands ->
  Forall (fun c => 0 < ec_expiry c <= now) cands -> lengths_ok m -> live_size m < two63 ->
  let '(_, w') := ttl_flush env cfg (MkTtl [] 0 0 [] cands 0) w in
  exists m', represents (w_db w') m' /\ ref_safe env cfg m' (w_disk w') (w_tick w')
    /\ i64 (w_size w') = i64 (w_size w - (live_size m - live_size m'))
    /\ forall key vm, row_at m key vm ->
         (Expiry vm <= 0 \/ now < Expiry vm
          \/ Expiry vm = tombstoneExpiry /\ Forall (fun c => ec_key c = key -> ec_version c <> Version vm) cands) ->
         row_at m' key vm.
Proof using Henv PL.
  intros Hm Hs Hc He Hl Hsz. set (st := MkTtl [] 0 0 [] cands 0).
  assert (staged m st) as Hst.
  { split; cbn; [by apply Forall_nil_2|by apply Forall_nil_2|]. unfold apply_batch. cbn. by rewrite Z.sub_diag. }
  pose proof (ttl_flush_spec m st w Hm (backrefs_of env cfg m _ _ Hs) Hc Hst) as Hp.
  destruct (ttl_flush env cfg st w) as [r w'] eqn:E. eapply wp_run in Hp; [|exact E|].
  2: { apply Forall_forall. intros c _. left. apply not_elem_of_nil. }
  destruct Hp as (m' & [Hm' Hs' Hrows _ Hsize _ _]). exists m'. split_and!; auto.
  intros key vm (v & Ev & Eu) Hfresh. exists v. split; [|done].
  destruct (Hrows key) as [->|[_ [Hx%not_elem_of_nil|(c & v' & Hin & <- & Ev' & Hsame)]]]; [done|done|]. exfalso.
  rewrite Ev in Ev'. injection Ev' as <-. destruct (Hsame vm Eu) as [H1 H2]. rewrite Forall_forall in He.
  specialize (He c Hin). destruct Hfresh as [Hf|[Hf|[Ht Hf]]]; [lia|lia|].
  rewrite Forall_forall in Hf. apply (Hf c Hin eq_refl). symmetry. apply H2. congruence.
Qed.

(** ** A whole sweep *)

Section Sweep.

Context (m0 : gmap bytes bytes) (w0 : World DB SM) (now : Z).

(** An expired row that is not a fence within the horizon: at some reading of the
    clock ([removable]), at every reading ([must_go]). *)
Definition outdated (aged : Z -> Prop) (vm : ValueMessage) : Prop :=
  0 < Expiry vm <= now /\ (Expiry vm = tombstoneExpiry -> Version vm = 0 \/ aged (i64 (Version vm))).

Definition removable (key : bytes) : Prop :=
  undecodable m0 key
  \/ exists vm, row_at m0 key vm
       /\ outdated (fun stamp => exists n, (w_tick w0 <= n)%nat /\ fenceRetention <= env_now env n - stamp) vm.

Definition must_go (key : bytes) : Prop :=
  undecodable m0 key
  \/ exists vm, row_at m0 key vm
       /\ outdated (fun stamp => forall n, (w_tick w0 <= n)%nat -> fenceRetention <= env_now env n - stamp) vm.

(** A candidate is an outdated row of the scan. *)
Definition candidate_ok m (c : expiryCandidate) : Prop :=
  exists v, m !! MakeMetadataKey (ec_key c) = Some v /\ same_row c v /\ removable (ec_key c).

Record sweep_inv (done : list bytes) m (st : ttl_state) w : Prop := {
  si_rep : represents (w_db w) m;
  si_safe : ref_safe env cfg m (w_disk w) (w_tick w);
  si_staged : staged m st;
  si_cands : cands_ok (tt_candidates st)
    /\ Forall (fun c => ec_key c ∈ done /\ candidate_ok m c) (tt_candidates st);
  si_batch key : key ∈ row_deletes (tt_batch st) -> key ∈ done /\ undecodable m key;
  si_rows : removed_only m0 m (fun key => key ∈ done /\ removable key);
  si_must : reliable (DB := DB) -> forall key, key ∈ done -> must_go key ->
    m !! MakeMetadataKey key = None \/ key ∈ row_deletes (tt_batch st) \/ key ∈ ec_key <$> tt_candidates st;
  si_size : lengths_ok m0 -> live_size m0 < two63 ->
    i64 (w_size w) = i64 (w_size w0 - (live_size m0 - live_size m));
  si_quiet : quietly w0 w
}.

Lemma undecodable_back (done : list bytes) m key :
  removed_only m0 m (fun key => key ∈ done /\ removable key) -> undecodable m key -> undecodable m0 key.
Proof. intros Hr (v & Ev & Eu). exists v. split; [|done]. destruct (Hr key) as [<-|[E _]]; congruence. Qed.

Lemma sweep_flush done m st w :
  sweep_inv done m st w ->
  wp (ttl_flush env cfg st) (fun st' w' => exists m', sweep_inv done m' st' w'
    /\ tt_batch st' = [] /\ tt_candidates st' = []) w.
Proof using Henv PL.
  intros [Hrep Hsafe Hst [Hc Hcok] Hb Hrows Hmust Hsz Hq].
  eapply wp_mono; [apply (ttl_flush_spec m); try done|].
  { by eapply backrefs_of. }
  { apply Forall_forall. intros c Hin. destruct (decide (ec_key c ∈ row_deletes (tt_batch st))) as [Hd|]; [right|by left].
    by apply Hb. }
  intros st' w' (m' & [Hm' Hs' Hfr Hgone Hsize (E1 & E2 & E3 & E4) Hq']). exists m'. split; [|done].
  assert (forall key, key ∈ row_deletes (tt_batch st) \/ due m (tt_candidates st) key -> key ∈ done /\ removable key) as Hdue.
  { intros key [Hk|(c & v & Hin & <- & _)].
    - destruct (Hb key Hk) as [Hd Hu]. split; [done|]. left. by eapply undecodable_back.
    - rewrite Forall_forall in Hcok. destruct (Hcok c Hin) as [Hd (v' & _ & _ & Hr)]. done. }
  assert (forall key v, m' !! MakeMetadataKey key = Some v -> m !! MakeMetadataKey key = Some v) as Hsub.
  { intros key v E. destruct (Hfr key) as [<-|[E' _]]; congruence. }
  assert (forall key v, m !! MakeMetadataKey key = Some v -> m0 !! MakeMetadataKey key = Some v) as Hsub0.
  { intros key v E. destruct (Hrows key) as [<-|[E' _]]; congruence. }
  split; rewrite ?E1, ?E2; try done.
  - by apply Hs'.
  - split; rewrite ?E1, ?E3, ?E4; [by apply Forall_nil_2..|]. unfold apply_batch. cbn. by rewrite Z.sub_diag.
  - split; [split; [by apply Forall_nil_2|constructor]|by apply Forall_nil_2].
  - intros key Hk%not_elem_of_nil. done.
  - intros key. destruct (Hfr key) as [->|[-> Hd]]; [apply Hrows|]. right. auto.
  - intros Hrel key Hd Hgo. left. destruct (Hmust Hrel key Hd Hgo) as [Hx|[Hx|Hx]].
    + destruct (m' !! MakeMetadataKey key) eqn:E; [|done]. apply Hsub in E. congruence.
    + apply (Hgone Hrel). by left.
    + apply (Hgone Hrel). right. apply list_elem_of_fmap in Hx as (c & -> & Hin). rewrite Forall_forall in Hcok.
      destruct (Hcok c Hin) as [_ (v & Ev & Hsame & _)]. by exists c, v.
  - intros Hl Hlt. pose proof (live_size_sub m0 m Hl Hsub0).
    assert (lengths_ok m) as Hl' by by eapply lengths_ok_sub.
    rewrite (Hsize Hl' ltac:(lia)), <- i64_sub_l, (Hsz Hl Hlt), i64_sub_l. f_equal. lia.
  - destruct Hq, Hq'. split; [congruence|lia].
Qed.

Lemma removed_only_mono (done done' : list bytes) m :
  (forall key, key ∈ done -> key ∈ done') ->
  removed_only m0 m (fun key => key ∈ done /\ removable key) ->
  removed_only m0 m (fun key => key ∈ done' /\ removable key).
Proof. intros Hd Hr key. destruct (Hr key) as [E|[E [H1 H2]]]; [by left|right; auto]. Qed.

(** One more row was visited. *)
Lemma sweep_visit done key m st st' w w' :
  sweep_inv done m st w -> frame w w' -> represents (w_db w') m -> staged m st' ->
  cands_ok (tt_candidates st') ->
  (forall c, c ∈ tt_candidates st' -> c ∈ tt_candidates st \/ ec_key c = key /\ candidate_ok m c) ->
  (forall c, c ∈ tt_candidates st -> c ∈ tt_candidates st') ->
  (forall k, k ∈ row_deletes (tt_batch st') -> k ∈ row_deletes (tt_batch st) \/ k = key /\ undecodable m key) ->
  (forall k, k ∈ row_deletes (tt_batch st) -> k ∈ row_deletes (tt_batch st')) ->
  (must_go key -> key ∈ row_deletes (tt_batch st') \/ key ∈ ec_key <$> tt_candidates st') ->
  sweep_inv (done ++ [key]) m st' w'.
Proof.
  intros [Hrep Hsafe Hst [Hc Hcok] Hb Hrows Hmust Hsz Hq] F Hm' Hst' Hc' Hnew Hold Hbnew Hbold Hgo.
  assert (forall k, k ∈ done -> k ∈ done ++ [key]) as Hd by (intros k Hk; apply elem_of_app; by left).
  assert (key ∈ done ++ [key]) as Hkey by (apply elem_of_app; right; left).
  split; try done.
  - by eapply ref_safe_quietly; [apply frame_quietly|].
  - split; [done|]. rewrite Forall_forall in Hcok |- *. intros c Hin. destruct (Hnew c Hin) as [Hx|[<- Hx]]; [|done].
    destruct (Hcok c Hx). auto.
  - intros k Hk. destruct (Hbnew k Hk) as [Hx|[-> Hx]]; [|done]. destruct (Hb k Hx). auto.
  - by eapply removed_only_mono.
  - intros Hrel k [Hk|Hk%list_elem_of_singleton]%elem_of_app Hg; [|subst k; right; by apply Hgo].
    destruct (Hmust Hrel k Hk Hg) as [Hx|[Hx|Hx]]; [by left|right; left; auto|right; right].
    apply list_elem_of_fmap in Hx as (c & -> & Hin). apply list_elem_of_fmap_2. auto.
  - intros Hl Hlt. rewrite (fr_size _ _ F). by apply Hsz.
  - destruct Hq, F. split; [congruence|lia].
Qed.

(** A reading of the clock for the fence horizon. *)
Lemma wp_fenced version (Q : bool -> World DB SM -> Prop) w :
  (forall w', frame w w' -> w_db w' = w_db w ->
     Q (negb (version =? 0) && (env_now env (w_tick w) - i64 version <? fenceRetention)) w') ->
  wp (fenced env fenceRetention version) Q w.
Proof.
  intros HQ. unfold fenced. case_match; cbn in *; [by apply wp_ret, HQ|].
  apply wp_bind, wp_time_Now, wp_ret, HQ; auto with ocache.
Qed.

Lemma candidate_snoc done m st key (c : expiryCandidate) w :
  sweep_inv done m st w -> key ∉ done -> ec_key c = key -> ec_metaKey c = MakeMetadataKey key ->
  cands_ok (tt_candidates st ++ [c]).
Proof.
  intros Hi Hnew Ek Em. destruct (si_cands _ _ _ _ Hi) as [[H1 H2] H3]. split.
  - apply Forall_app. split; [done|]. apply Forall_one. by rewrite Ek.
  - rewrite fmap_app. apply NoDup_app. split_and!; [done| |cbn; constructor; [apply not_elem_of_nil|constructor]].
    intros k Hk Hx%list_elem_of_singleton. apply list_elem_of_fmap in Hk as (c' & -> & Hin). rewrite Forall_forall in H3.
    destruct (H3 c' Hin) as [Hd _]. apply Hnew. congruence.
Qed.

Lemma ttl_row_spec done key v m st w :
  sweep_inv done m st w -> key ∉ done -> m0 !! MakeMetadataKey key = Some v ->
  wp (ttl_row env cfg fenceRetention now (MakeMetadataKey key) v st)
    (fun r w' => sweep_inv (done ++ [key]) m r.1 w') w.
Proof using Henv PL.
  intros Hi Hnew E0. pose proof Hi as [Hrep Hsafe Hst [Hc Hcok] Hb Hrows _ _ _].
  assert (m !! MakeMetadataKey key = Some v) as Ev by (destruct (Hrows key) as [->|[_ [? _]]]; done).
  assert (forall st', tt_candidates st' = tt_candidates st -> tt_batch st' = tt_batch st -> staged m st' ->
    forall w', frame w w' -> represents (w_db w') m -> ~ must_go key -> sweep_inv (done ++ [key]) m st' w') as Hkeep.
  { intros st' E1 E2 Hst' w' F Hm' Hno. eapply (sweep_visit done key m st st' w w'); rewrite ?E1, ?E2; eauto. done. }
  unfold ttl_row. rewrite expiry_spec, ExtractUserKey_Make. destruct (proto_Unmarshal v) as [vm|] eqn:Eu; cbn [fmap option_fmap option_map].
  2: { assert (undecodable m key) as Hu by by exists v.
    apply wp_bind. eapply wp_stageEvictionIndexDeletes; [exact Hrep|by eapply backrefs_of|]. intros ops w1 Hm1 F1 Ho.
    apply wp_ret. destruct (staged_row m st key ops Hst Ho) as (H1 & H2 & H3).
    eapply (sweep_visit done key m st); cbn [fst tt_candidates tt_batch]; eauto.
    - split; cbn [tt_batch tt_pendingFiles tt_pendingBytes]; [done|by eapply staged_files_mono; [apply Hst|]|].
      rewrite H3, (unstaged_size m st key v), Eu by auto. rewrite (sg_bytes _ _ Hst). f_equal. lia.
    - intros k. rewrite H2, elem_of_app, list_elem_of_singleton. intros [Hk| ->]; auto.
    - intros k Hk. rewrite H2. apply elem_of_app. by left.
    - intros _. left. rewrite H2. apply elem_of_app. right. left. }
  assert (row_at m0 key vm) as Hrow by by exists v.
  assert (forall vm', row_at m0 key vm' -> vm' = vm) as Huniq by (intros vm' (v' & E & Eu'); congruence).
  assert (~ undecodable m0 key) as Hdec by (intros (v' & E & Eu'); congruence).
  destruct ((0 <? Expiry vm) && (Expiry vm <=? now)) eqn:Ex.
  2: { apply wp_ret. apply (Hkeep st eq_refl eq_refl Hst w); [reflexivity|done|]. intros [|(vm' & Hv & [Hx _])]; [done|].
       rewrite (Huniq vm' Hv) in Hx. apply andb_false_iff in Ex as [?|?]; bool_facts; lia. }
  bool_facts.
  assert (forall version w1, frame w w1 -> represents (w_db w1) m -> removable key ->
    (Expiry vm = tombstoneExpiry -> Version vm = version) ->
    sweep_inv (done ++ [key]) m (MkTtl (tt_batch st) (tt_pendingCleaned st) (tt_pendingBytes st) (tt_pendingFiles st)
      (tt_candidates st ++ [MkCand key (MakeMetadataKey key) (Expiry vm) version]) (tt_committedCleaned st)) w1) as Hcand.
  { intros version w1 F1 Hm1 Hr Hver. set (c := MkCand key (MakeMetadataKey key) (Expiry vm) version).
    assert (candidate_ok m c) as Hok.
    { exists v. split; [done|]. split; [|done]. intros vm' E'. rewrite Eu in E'. injection E' as <-. by split. }
    eapply (sweep_visit done key m st); cbn [tt_candidates tt_batch]; eauto.
    - by destruct Hst.
    - by eapply candidate_snoc.
    - intros c' [Hx|Hx%list_elem_of_singleton]%elem_of_app; [by left|]. subst c'. by right.
    - intros c' Hx. apply elem_of_app. by left.
    - intros _. right. rewrite fmap_app. apply elem_of_app. right. left. }
  destruct (Z.eqb_spec (Expiry vm) tombstoneExpiry) as [Et|Et].
  2: { apply wp_bind, wp_ret, wp_ret. cbn [fst]. apply Hcand; [reflexivity|done| |done]. right. exists vm. split; [done|]. by split. }
  unfold tt_version. rewrite version_spec, Eu. cbn [fmap option_fmap option_map default from_option id].
  apply wp_bind, wp_fenced. intros w1 F1 D1. rewrite <- D1 in Hrep. apply wp_ret.
  destruct (negb (Version vm =? 0) && _) eqn:Ef; cbn [fst].
  - apply (Hkeep st eq_refl eq_refl Hst w1); [done|done|]. intros [|(vm' & Hv & [_ Hx])]; [done|]. rewrite (Huniq vm' Hv) in Hx.
    bool_facts. destruct (Hx Et) as [|Hx']; [done|]. specialize (Hx' (w_tick w) (proj2 (si_quiet _ _ _ _ Hi))). lia.
  - apply Hcand; [done|done| |done]. right. exists vm. split; [done|]. split; [done|]. intros _.
    apply andb_false_iff in Ef as [Ef|Ef]; bool_facts; [by left|]. right. exists (w_tick w). split; [|done].
    apply (si_quiet _ _ _ _ Hi).
Qed.

Lemma sweep_tick done m st w : sweep_inv done m st w -> sweep_inv done m st (tick w).
Proof.
  intros []. split; try done; [by eapply ref_safe_quietly; [apply frame_quietly, frame_tick|]|].
  destruct si_quiet0. split; cbn; [done|lia].
Qed.

Lemma ttl_loop_spec rows done m st w :
  sweep_inv done m st w -> Forall (fun r => m0 !! r.1 = Some r.2 /\ IsMetadataKey r.1 = true) rows ->
  NoDup (done ++ (ExtractUserKey <$> rows.*1)) ->
  wp (ttl_loop env cfg closed fenceRetention now rows st) (fun r w' => exists m' done' rest,
    done ++ (ExtractUserKey <$> rows.*1) = done' ++ rest /\ sweep_inv done' m' r.1 w'
    /\ (r.2 = true -> rest = []) /\ (r.2 = false -> exists n, closed n = true)) w.
Proof using Henv PL.
  revert done m st w. induction rows as [|[k v] rows IH]; intros done m st w Hi Hf Hnd; cbn [ttl_loop].
  { apply wp_ret. exists m, done, []. by split_and!. }
  apply Forall_cons in Hf as [[E0 Hk] Hf]. cbn in E0, Hk, Hnd. pose proof (IsMetadataKey_inv k Hk) as Ek.
  set (key := ExtractUserKey k) in *.
  assert (forall m1 done1 st1 w1 n, sweep_inv done1 m1 st1 w1 -> closed n = true ->
    (exists rest, done ++ key :: (ExtractUserKey <$> rows.*1) = done1 ++ rest) ->
    wp (mret (st1, false)) (fun r w' => exists m' done' rest,
      done ++ (ExtractUserKey <$> ((k, v) :: rows).*1) = done' ++ rest /\ sweep_inv done' m' r.1 w'
      /\ (r.2 = true -> rest = []) /\ (r.2 = false -> exists n, closed n = true)) w1) as Hclosed.
  { intros m1 done1 st1 w1 n Hi1 Hcl (rest & E). apply wp_ret. exists m1, done1, rest. split_and!; try done. by exists n. }
  assert (forall m1 st1 w1, sweep_inv (done ++ [key]) m1 st1 w1 ->
    wp (ttl_loop env cfg closed fenceRetention now rows st1) (fun r w' => exists m' done' rest,
      done ++ (ExtractUserKey <$> ((k, v) :: rows).*1) = done' ++ rest /\ sweep_inv done' m' r.1 w'
      /\ (r.2 = true -> rest = []) /\ (r.2 = false -> exists n, closed n = true)) w1) as Hnext.
  { intros m1 st1 w1 Hi1. eapply wp_mono; [apply (IH (done ++ [key]) m1); try done; by rewrite <- app_assoc|].
    intros r w' (m' & done' & rest & E & H1). exists m', done', rest. split; [|done]. by rewrite <- app_assoc in E. }
  apply wp_bind, wp_fun. cbn [fst snd closeCh].
  pose proof (sweep_tick _ _ _ _ Hi) as Hi1.
  destruct (closed (w_tick w)) eqn:Ecl; [by eapply Hclosed; eauto|].
  apply wp_bind. rewrite Ek. eapply wp_mono; [apply (ttl_row_spec done key v m); try done|].
  { intros Hin. apply NoDup_app in Hnd as (_ & Hnd & _). by apply (Hnd key Hin); left. }
  { by rewrite <- Ek. }
  intros [st1 check] w1 Hi2. cbn [fst] in Hi2. destruct (check && _); [|by apply (Hnext m)].
  apply wp_bind, wp_fun. cbn [fst snd closeCh].
  pose proof (sweep_tick _ _ _ _ Hi2) as Hi3.
  destruct (closed (w_tick w1)) eqn:Ecl1.
  { eapply Hclosed; [done|done|]. exists (ExtractUserKey <$> rows.*1). by rewrite <- app_assoc. }
  apply wp_bind. eapply wp_mono; [by apply (sweep_flush (done ++ [key]) m)|]. intros st2 w2 (m2 & Hi4 & _). by apply (Hnext m2).
Qed.

Lemma sweep_start w : represents (w_db w) m0 -> ref_safe env cfg m0 (w_disk w0) (w_tick w0) -> frame w0 w ->
  sweep_inv [] m0 ttl_init w.
Proof.
  intros Hm Hs F. split; try done.
  - by eapply ref_safe_quietly; [apply frame_quietly|].
  - split; cbn; [by apply Forall_nil_2..|]. unfold apply_batch. cbn. by rewrite Z.sub_diag.
  - split; [split; [by apply Forall_nil_2|constructor]|by apply Forall_nil_2].
  - intros key Hk%not_elem_of_nil. done.
  - by left.
  - intros _ key Hk%not_elem_of_nil. done.
  - intros _ _. by rewrite (fr_size _ _ F), Z.sub_diag, Z.sub_0_r.
  - by apply frame_quietly.
Qed.

End Sweep.

(** What a sweep leaves; [now] is the reading of the clock it took at its start. *)
Record swept m w m' w' : Prop := {
  sw_rep : represents (w_db w') m';
  sw_safe : ref_safe env cfg m' (w_disk w') (w_tick w');
  sw_rows : removed_only m m' (removable m w (unix_of (env_now env (w_tick w))));
  sw_gone : reliable (DB := DB) -> ~ iter_failed (DB := DB) -> (forall n, closed n = false) ->
    forall key, must_go m w (unix_of (env_now env (w_tick w))) key -> m' !! MakeMetadataKey key = None;
  sw_size : lengths_ok m -> live_size m < two63 -> i64 (w_size w') = i64 (w_size w - (live_size m - live_size m'));
  sw_quiet : quietly w w'
}.

Lemma cleanupExpiredKeys_spec m w :
  represents (w_db w) m -> ref_safe env cfg m (w_disk w) (w_tick w) ->
  wp (cleanupExpiredKeys env cfg closed fenceRetention) (fun _ w' => exists m', swept m w m' w') w.
Proof using Henv PL.
  intros Hm Hs. unfold cleanupExpiredKeys. apply wp_bind. eapply wp_Iterate_failing; [exact Hm|].
  intros l err tail db Hdb Hl Ht Hf. apply wp_bind, wp_time_Now. cbn [fst w_tick set_db].
  set (now := unix_of (env_now env (w_tick w))). destruct (meta_rows_front m l tail Hl) as (more & Emore & Hmore).
  assert (sweep_inv m w now [] m ttl_init (tick (set_db db w))) as Hi.
  { apply sweep_start; [done|done|]. etrans; [apply frame_set_db|apply frame_tick]. }
  pose proof (meta_keys_nodup m) as Hnd. rewrite Emore, !fmap_app in Hnd. apply NoDup_app in Hnd as (Hnd & _ & _).
  apply wp_bind. eapply wp_mono; [apply (ttl_loop_spec m w now (prefix_rows MetadataPrefix l) [] m _ _ Hi)|]; [|done|].
  { apply Forall_forall. intros [k v] Hr. cbn. apply elem_of_meta_rows. rewrite Emore. apply elem_of_app. by left. }
  cbn [app]. intros [st fin] w1 (m1 & done & rest & Ed & Hi1 & Hfin & Hopen). cbn [fst snd] in *.
  assert (forall st' w2 m2, sweep_inv m w now done m2 st' w2 -> (fin = true -> tt_batch st' = [] /\ tt_candidates st' = []) ->
    swept m w m2 w2) as Hend.
  { intros st' w2 m2 Hi2 Hempty. destruct Hi2 as [Hrep Hsafe _ _ _ Hrows Hmust Hsz Hq]. split; try done.
    - intros key. destruct (Hrows key) as [|[? [_ ?]]]; auto.
    - intros Hrel Hit Hop key Hgo.
      destruct fin; [|destruct (Hopen eq_refl) as [n Hn]; by rewrite Hop in Hn].
      destruct (Hempty eq_refl) as [E1 E2]. rewrite E1, E2 in Hmust. rewrite (Hfin eq_refl), app_nil_r in Ed.
      assert (more = []) as Em by (apply Hmore, Ht; destruct err; [by destruct Hit; apply Hf|done]).
      assert (key ∈ done) as Hd.
      { rewrite <- Ed. assert (exists v, m !! MakeMetadataKey key = Some v) as [v Ev].
        { destruct Hgo as [(v & Ev & _)|(vm & (v & Ev & _) & _)]; by exists v. }
        apply list_elem_of_fmap. exists (MakeMetadataKey key). rewrite ExtractUserKey_Make. split; [done|].
        apply list_elem_of_fmap. exists (MakeMetadataKey key, v). split; [done|]. rewrite <- (app_nil_r (prefix_rows _ _)), <- Em, <- Emore.
        apply elem_of_meta_rows. split; [done|]. unfold IsMetadataKey, MakeMetadataKey. apply has_prefix_app. }
      destruct (Hmust Hrel key Hd Hgo) as [?|[Hx|Hx]]; [done|by apply not_elem_of_nil in Hx..]. }
  destruct fin; [|apply wp_ret; exists m1; by apply (Hend st)].
  apply wp_bind. eapply (wp_mono _ (fun st' w2 => exists m2, sweep_inv m w now done m2 st' w2 /\ tt_batch st' = [] /\ tt_candidates st' = [])).
  { assert (wp (ttl_flush env cfg st) (fun st' w2 => exists m2, sweep_inv m w now done m2 st' w2
      /\ tt_batch st' = [] /\ tt_candidates st' = []) w1) as Hflush by by apply (sweep_flush m w now done m1).
    destruct (tt_batch st) eqn:E1; [|done]. destruct (tt_candidates st) eqn:E2; [|done].
    apply wp_ret. by exists m1. }
  intros st2 w2 (m2 & Hi2 & E1 & E2). apply wp_fun. cbn. exists m2. specialize (Hend st2 w2 m2 Hi2 ltac:(done)).
  by destruct Hend.
Qed.

(** C16: the TTL sweep is exact. From any consistent store, [cleanupExpiredKeys] removes
    only rows that do not decode and rows that were expired at its start, and of the
    tombstones among them only the unstamped ones and those older than the retention
    horizon; every other row is as it was. If nothing fails and the cleaner is not
    closed, no row that was expired and (for a stamped tombstone) beyond the horizon
    throughout is left. The counter is reduced by exactly the bytes of the removed
    rows, and no file of a remaining row is queued for deletion. *)
Theorem ttl_sweep_exact m w :
  represents (w_db w) m -> ref_safe env cfg m (w_disk w) (w_tick w) ->
  let '(_, w') := cleanupExpiredKeys env cfg closed fenceRetention w in exists m', swept m w m' w'.
Proof using Henv PL.
  intros Hm Hs. pose proof (cleanupExpiredKeys_spec m w Hm Hs) as Hp.
  by destruct (cleanupExpiredKeys env cfg closed fenceRetention w) as [r w'] eqn:E; eapply wp_run in Hp.
Qed.

End Ttl.
