(* ===== verification/ReconcileProps.v ===== *)
(** * Reconciliation with the metadata

    The merge join of metadata rows and back-references agrees with looking each
    back-reference up; a complete pass makes the size counter exact whatever it was,
    gives every stored value an index entry, and its sweep of orphaned files queues
    no file that a row references. *)

From S2P Require Import Prelude Keys Errors Message Merge Wire Rocks World Files RangeReader Storage Wp Safety StorageSpec StorageProps LiveSize SizeProps Version Cas CasSpec Listing ListingProps DeleteBatch Eviction EvictionProps DiskLimit Cleaner.

Open Scope Z_scope.

#[local] Arguments has_prefix : simpl never.
#[local] Arguments apply_batch : simpl never.

(** ** The merge join *)

Lemma sle_app_l p a b : sle (p +:+ a) (p +:+ b) = sle a b.
Proof. unfold sle. by rewrite slt_app_l. Qed.

Lemma rows_from_sorted seek m : StronglySorted row_lt (rows_from seek m).
Proof. apply filter_sorted, sorted_rows_strict. Qed.

(** The position of the back-reference iterator: rows behind it sort before [k]. *)
Definition at_key m prefix (R tail : list (bytes * bytes)) (P : bytes -> Prop) : Prop :=
  exists D, rows_from prefix m = D ++ R ++ tail /\ Forall (fun r => P r.1) D.

(** A scan of a prefix finds every row with it. *)
Lemma prefix_scan p m k v : m !! k = Some v -> has_prefix p k = true -> (k, v) ∈ prefix_rows p (rows_from p m).
Proof.
  intros Hk Hp. rewrite prefix_rows_filter; [|apply rows_from_sorted|by apply Forall_forall; intros r [Hx _]%list_elem_of_filter].
  apply list_elem_of_filter. split; [done|]. apply elem_of_rows_from. split; [done|]. by apply has_prefix_sle.
Qed.

Lemma elem_of_rows_keys seek m k : sle seek k = true -> k ∈ (rows_from seek m).*1 <-> is_Some (m !! k).
Proof.
  intros Hk. rewrite list_elem_of_fmap. split.
  - intros ([k' v] & -> & Hr). apply elem_of_rows_from in Hr as [Hr _]. by exists v.
  - intros [v E]. exists (k, v). split; [done|]. by apply elem_of_rows_from.
Qed.

Lemma sorted_split_lt L D r R : L = D ++ r :: R -> StronglySorted row_lt L -> Forall (fun x => slt r.1 x.1 = true) R.
Proof.
  intros -> Hs. induction D as [|d D IH]; cbn in Hs; apply StronglySorted_inv in Hs as [Hs Hf]; [done|by apply IH].
Qed.

(** A key between the rows behind the iterator and the next one is not stored. *)
Lemma not_stored_between prefix m D R k :
  rows_from prefix m = D ++ R -> sle prefix k = true -> Forall (fun r => slt r.1 k = true) D ->
  (forall r, head R = Some r -> slt k r.1 = true) -> m !! k = None.
Proof.
  intros E Hk HD HR. destruct (m !! k) as [v|] eqn:Em; [|done]. exfalso.
  assert (k ∈ (rows_from prefix m).*1) as Hin by (apply elem_of_rows_keys; [done|by rewrite Em]).
  rewrite E, fmap_app in Hin. apply elem_of_app in Hin as [Hin|Hin]; apply list_elem_of_fmap in Hin as (r & Er & Hr).
  - rewrite Forall_forall in HD. specialize (HD r Hr). by rewrite Er, slt_irrefl in HD.
  - destruct R as [|r0 R]; [by apply not_elem_of_nil in Hr|]. specialize (HR r0 eq_refl).
    apply elem_of_cons in Hr as [->|Hr]; [by rewrite Er, slt_irrefl in HR|].
    pose proof (sorted_split_lt _ D r0 R E (rows_from_sorted prefix m)) as Hf. rewrite Forall_forall in Hf.
    specialize (Hf r Hr). rewrite Er in HR. by rewrite (slt_asym _ _ HR) in Hf.
Qed.

Lemma advance_spec prefix m u R tail err :
  at_key m prefix R tail (fun k => slt k (prefix +:+ u) = true) -> (err = None -> tail = []) ->
  let '(covered, ok, R') := advanceBackrefTo R err prefix u in
  (ok = true -> covered = bool_decide (is_Some (m !! (prefix +:+ u))))
  /\ at_key m prefix R' tail (fun k => sle k (prefix +:+ u) = true) /\ (ok = false -> is_Some err).
Proof.
  intros Hat Ht. induction R as [|[k v] R IH]; cbn [advanceBackrefTo].
  - destruct Hat as (D & E & HD). split_and!.
    + intros Hok%bool_decide_eq_true_1. rewrite bool_decide_false; [done|]. rewrite (Ht Hok), app_nil_r in E.
      rewrite (not_stored_between prefix m D [] (prefix +:+ u)); [by intros [? ?]|by rewrite E, app_nil_r|apply sle_app_r|done|done].
    + exists D. split; [done|]. eapply Forall_impl; [exact HD|]. intros r. apply slt_sle.
    + intros Hok%bool_decide_eq_false_1. destruct err; [by eexists|done].
  - destruct Hat as (D & E & HD). cbn in E.
    assert (forall x, x ∈ (k, v) :: R ++ tail -> sle prefix x.1 = true) as Hge.
    { intros x Hx. assert (x ∈ rows_from prefix m) as Hr by (rewrite E; apply elem_of_app; by right).
      unfold rows_from in Hr. by apply list_elem_of_filter in Hr as [? _]. }
    assert (slt (prefix +:+ u) k = true -> (true = true -> false = bool_decide (is_Some (m !! (prefix +:+ u))))
      /\ at_key m prefix ((k, v) :: R) tail (fun k => sle k (prefix +:+ u) = true) /\ (true = false -> is_Some err)) as Hpast.
    { intros Hk. split_and!; [intros _| |done].
      - rewrite bool_decide_false; [done|]. rewrite (not_stored_between prefix m D ((k, v) :: R ++ tail) (prefix +:+ u));
          [by intros [? ?]|done|apply sle_app_r|done|]. by intros r [= <-].
      - exists D. split; [done|]. eapply Forall_impl; [exact HD|]. intros r. apply slt_sle. }
    destruct (has_prefix prefix k) eqn:Hp.
    2: { apply Hpast. destruct (sle k (prefix +:+ u)) eqn:Hle; [|by apply sle_false_slt].
         rewrite (between_prefix prefix k u) in Hp; [done|apply (Hge (k, v)); left|done]. }
    apply has_prefix_true in Hp as [t ->]. rewrite sdrop_app. destruct (slt t u) eqn:Hlt.
    { apply IH. exists (D ++ [(prefix +:+ t, v)]). rewrite <- app_assoc. split; [done|]. apply Forall_app. split; [done|].
      apply Forall_one. cbn. by rewrite slt_app_l. }
    destruct (decide (t = u)) as [->|Hne].
    + split_and!; [intros _| |done].
      * rewrite bool_decide_true; [done|]. apply (elem_of_rows_keys prefix); [apply sle_app_r|].
        rewrite E, fmap_app. apply elem_of_app. right. left.
      * exists (D ++ [(prefix +:+ u, v)]). rewrite <- app_assoc. split; [done|]. apply Forall_app. split.
        -- eapply Forall_impl; [exact HD|]. intros r. apply slt_sle.
        -- apply Forall_one. apply sle_refl.
    + apply Hpast. rewrite slt_app_l. destruct (slt u t) eqn:Hx; [done|]. exfalso. apply Hne. by apply slt_total.
Qed.

(** ** The sum over the rows *)

Section Sums.

Context {PB : Protobuf}.
Implicit Types m : gmap bytes bytes.

Fixpoint rows_size (rows : list (bytes * bytes)) : Z :=
  match rows with [] => 0 | r :: rows => value_size r.1 r.2 + rows_size rows end.

Lemma rows_size_app a b : rows_size (a ++ b) = rows_size a + rows_size b.
Proof. induction a as [|r a IH]; cbn; [done|]. rewrite IH. lia. Qed.

#[export] Instance rows_size_perm : Proper (Permutation ==> eq) rows_size.
Proof. intros a b Hp. induction Hp; cbn; lia. Qed.

Lemma live_size_rows m : live_size m = rows_size (map_to_list m).
Proof.
  induction m as [|k v m E IH] using map_ind; [done|]. rewrite live_size_insert_new, IH by done.
  by rewrite map_to_list_insert.
Qed.

Lemma live_size_meta_rows m : live_size m = rows_size (meta_rows m).
Proof.
  rewrite live_size_rows, <- sorted_rows_perm, meta_rows_listed. unfold listed.
  induction (sorted_rows m) as [|r L IH]; [done|]. cbn [rows_size]. rewrite filter_cons, IH.
  change (MakeMetadataKey EmptyString) with MetadataPrefix. case_decide as Hk; [done|].
  unfold value_size. apply not_true_is_false in Hk. by rewrite Hk.
Qed.

End Sums.

(** ** Base names *)

Lemma index_byte_none_app a b c : index_byte (a +:+ b) c = None <-> index_byte a c = None /\ index_byte b c = None.
Proof.
  induction a as [|x a IH]; cbn [index_byte]; [by rewrite sapp_nil_l; intuition|]. rewrite sapp_cons. cbn [index_byte].
  case_decide; [intuition discriminate|]. destruct (index_byte (a +:+ b) c), (index_byte a c); cbn; intuition; try done.
Qed.

Lemma no_slash_cons c s : index_byte (String c s) "/"%char = None -> c <> "/"%char /\ index_byte s "/"%char = None.
Proof. cbn [index_byte]. case_decide; [done|]. by destruct (index_byte s _). Qed.

Lemma strip_no_slash s : index_byte s "/"%char = None -> strip_slashes s = s.
Proof.
  induction s as [|c s IH]; [done|]. intros [Hc Hs]%no_slash_cons. cbn [strip_slashes]. rewrite IH by done.
  destruct s; [by rewrite decide_False|done].
Qed.

Lemma strip_slashes_app a s : index_byte s "/"%char = None -> s <> EmptyString -> strip_slashes (a +:+ s) = a +:+ s.
Proof.
  intros Hs Hne. induction a as [|c a IH]; [rewrite sapp_nil_l; by apply strip_no_slash|].
  rewrite sapp_cons. cbn [strip_slashes]. rewrite IH. destruct (a +:+ s) eqn:E; [|done].
  destruct a; [by rewrite sapp_nil_l in E|done].
Qed.

Lemma after_slash_app a s : index_byte s "/"%char = None -> after_slash (a +:+ String "/" s) = s.
Proof.
  intros Hs. assert (after_slash s = s) as E by (destruct s as [|c s]; [done|]; cbn [after_slash]; by rewrite Hs).
  induction a as [|c a IH]; [rewrite sapp_nil_l; cbn [after_slash index_byte]; by rewrite decide_True|].
  rewrite sapp_cons. cbn [after_slash]. rewrite IH. case_match eqn:Ei; [done|]. exfalso.
  rewrite <- sapp_cons in Ei. apply index_byte_none_app in Ei as [_ Ei]. by apply no_slash_cons in Ei as [Ei _].
Qed.

Lemma Join_nonempty dir name : filepath_Join dir name <> EmptyString.
Proof. unfold filepath_Join. by destruct dir. Qed.

Lemma Base_Join dir name : index_byte name "/"%char = None -> name <> EmptyString ->
  filepath_Base (filepath_Join dir name) = name.
Proof.
  intros Hs Hne. unfold filepath_Base, filepath_Join.
  change ("/" +:+ name) with (String "/" name).
  assert (dir +:+ String "/" name <> EmptyString) as Hd by by destruct dir. rewrite decide_False by done.
  assert (strip_slashes (dir +:+ String "/" name) = dir +:+ String "/" name) as ->.
  { change (String "/" name) with (String "/" EmptyString +:+ name). rewrite <- sapp_assoc. by apply strip_slashes_app. }
  destruct (dir +:+ String "/" name) eqn:E; [done|]. rewrite <- E. by apply after_slash_app.
Qed.

Lemma elem_of_dir_entries disk dir name :
  name ∈ dir_entries disk dir -> name <> EmptyString /\ index_byte name "/"%char = None
    /\ is_Some (disk !! filepath_Join dir name).
Proof.
  unfold dir_entries. rewrite list_elem_of_omap. intros ([p c] & Hp & E). apply elem_of_sorted_rows in Hp. cbn in E.
  destruct (has_prefix _ p) eqn:Hpre; [|done]. apply has_prefix_true in Hpre as [t ->]. rewrite sdrop_app in E.
  repeat case_bool_decide; cbn in E; simplify_eq. split_and!; try done. exists c. rewrite <- Hp. f_equal.
  unfold filepath_Join. by rewrite <- !sapp_assoc, sapp_nil_r.
Qed.

(** ** The orphan sweep *)

Section Reconcile.

Context {DB SM : Type} {PB : Protobuf} {PL : ProtobufLaws} {RDB : RocksDB DB} {RL : RocksLaws DB}.
Context {SS : SegmentStore SM} (env : Env) (cfg : Config) (Henv : env_ok env cfg).
Context (closed : nat -> bool) (mtime : nat -> bytes -> Z).
Implicit Types w : World DB SM.
Implicit Types m : gmap bytes bytes.

Definition queued m (path : bytes) : Prop :=
  exists ts, is_i64 ts /\ m !! MakeDeletionQueueKey ts path = Some queue_mark.

(** The base names of the files that rows reference. *)
Definition references m (referenced : gmap bytes Z) : Prop :=
  forall key path len, raw_at m key path len -> path <> EmptyString -> is_Some (referenced !! filepath_Base path).

Lemma wp_stageRawFileDeletion_failing m path (Q : () -> World DB SM -> Prop) w :
  represents (w_db w) m ->
  (forall q w', represents (w_db w') (apply_batch m q) -> frame w w' -> enqueued path q ->
     (path <> EmptyString -> reliable (DB := DB) -> queued (apply_batch m q) path) -> Q () w') ->
  wp (stageRawFileDeletion env path) Q w.
Proof using Henv.
  intros Hm HQ. unfold stageRawFileDeletion, Queue_Add. apply wp_bind. case_decide as Hp.
  { apply wp_ret, wp_ret. apply (HQ []); [done|reflexivity|by left|done]. }
  apply wp_bind, wp_time_Now. eapply wp_Write_failing; [exact Hm|by apply plain_regular; repeat constructor|..].
  - intros e db Hdb Hf. apply wp_ret. apply (HQ []); [done| |by left|]. { split; cbn; try done. lia. }
    intros _ [_ Hn]. done.
  - intros db Hdb. apply wp_ret. pose proof (clock_i64 _ _ Henv (w_tick w)).
    apply (HQ [BPut (MakeDeletionQueueKey (env_now env (w_tick w)) path) queue_mark]); [done| | |].
    + split; cbn; try done. lia.
    + right. split; [done|]. by eexists.
    + intros _ _. exists (env_now env (w_tick w)). split; [done|]. apply lookup_insert_eq.
Qed.

(** The file stays put long enough to be swept: never locked, older than the cutoff. *)
Definition sweepable (cutoff : Z) w path : Prop :=
  path ∉ w_inflight w /\ forall n, (w_tick w <= n)%nat -> env_locked env n path = false /\ mtime n path <= cutoff.

Definition swept_clean (referenced : gmap bytes Z) (cutoff : Z) (names : list bytes) w m' : Prop :=
  reliable (DB := DB) -> ~ io_failed env -> forall name, name ∈ names -> referenced !! name = None ->
    sweepable cutoff w (filepath_Join (filesPath cfg) name) -> queued m' (filepath_Join (filesPath cfg) name).

(** Why a file is queued: it was listed and no row names it, it was not being written, at
    its check its modification lay before the cutoff, and then nobody held its lock. *)
Definition swept_file (cutoff : Z) w w' (name : bytes) : Prop :=
  let path := filepath_Join (filesPath cfg) name in
  path ∉ w_inflight w /\ exists n1 n2, (w_tick w <= n1 < n2)%nat /\ (n2 < w_tick w')%nat
    /\ mtime n1 path <= cutoff /\ env_locked env n2 path = false.

Definition swept_only (referenced : gmap bytes Z) (cutoff : Z) (names : list bytes) m w m' w' : Prop :=
  forall path, queued m' path -> queued m path \/ exists name, path = filepath_Join (filesPath cfg) name /\ name ∈ names
    /\ referenced !! name = None /\ swept_file cutoff w w' name.

Record sweep_post (referenced : gmap bytes Z) (cutoff : Z) (names : list bytes) m w (r : bool) w' : Prop := {
  so_ops : exists q, Forall reclaim_op q /\ represents (w_db w') (apply_batch m q)
    /\ ref_safe env cfg (apply_batch m q) (w_disk w') (w_tick w')
    /\ (r = true -> swept_clean referenced cutoff names w (apply_batch m q))
    /\ (forall path, queued m path -> queued (apply_batch m q) path)
    /\ swept_only referenced cutoff names m w (apply_batch m q) w';
  so_frame : frame w w';
  so_open : r = false -> exists n, closed n = true
}.

Lemma frame_tick_r w w' : frame w w' -> frame w (tick w').
Proof. intros F. etrans; [exact F|apply frame_tick]. Qed.

Lemma sweepable_later cutoff w w' path : frame w w' -> sweepable cutoff w path -> sweepable cutoff w' path.
Proof. intros [] [H1 H2]. split; [congruence|]. intros n Hn. apply H2. lia. Qed.

Lemma enqueued_reclaim path q : enqueued path q -> Forall reclaim_op q.
Proof. intros [->|(_ & ts & _ & ->)]; [by apply Forall_nil_2|]. apply Forall_one, queue_key_prefix. Qed.

Lemma queued_kept m path path' q : enqueued path q -> queued m path' -> queued (apply_batch m q) path'.
Proof.
  intros Hq (ts & Hts & E). exists ts. split; [done|]. destruct Hq as [->|(_ & ts' & _ & ->)]; [done|]. unfold apply_batch. cbn [fold_left apply_op].
  destruct (decide (MakeDeletionQueueKey ts' path = MakeDeletionQueueKey ts path')) as [->|Hne]; [apply lookup_insert_eq|].
  by rewrite lookup_insert_ne.
Qed.

Lemma queued_new m path path' q : enqueued path q -> queued (apply_batch m q) path' -> path' = path \/ queued m path'.
Proof.
  intros Hq (ts & Hts & E). destruct Hq as [->|(_ & ts' & Hts' & ->)]; [right; by exists ts|]. unfold apply_batch in E. cbn [fold_left apply_op] in E.
  apply lookup_insert_Some in E as [[E _]|[_ E]]; [left|right; by exists ts].
  apply (f_equal ParseDeletionQueueKey) in E. rewrite !deletion_queue_key_parse in E by done. by simplify_eq.
Qed.

Lemma swept_frame cutoff w w1 w2 w3 name : frame w w1 -> (w_tick w2 <= w_tick w3)%nat -> swept_file cutoff w1 w2 name -> swept_file cutoff w w3 name.
Proof.
  intros [] Ht [H1 (n1 & n2 & H2 & H3 & H4)]. split; [congruence|]. exists n1, n2. split; [lia|]. split; [lia|done].
Qed.

(** One entry was passed over or dealt with; the rest of the listing follows. *)
Lemma sweep_step referenced cutoff name names q m w w1 r w' :
  frame w w1 -> enqueued (filepath_Join (filesPath cfg) name) q ->
  (reliable (DB := DB) -> ~ io_failed env -> referenced !! name = None ->
     sweepable cutoff w (filepath_Join (filesPath cfg) name) -> queued (apply_batch m q) (filepath_Join (filesPath cfg) name)) ->
  (q <> [] -> referenced !! name = None /\ swept_file cutoff w w1 name) ->
  sweep_post referenced cutoff names (apply_batch m q) w1 r w' ->
  sweep_post referenced cutoff (name :: names) m w r w'.
Proof.
  intros F Hq Hnow Hwhy [(q' & Hq' & Hm & Hs & Hc & Hk & Hon) F' Ho]. split; [|by etrans|done].
  exists (q ++ q'). rewrite apply_batch_app. split_and!; try done.
  - apply Forall_app. split; [by eapply enqueued_reclaim|done].
  - intros Hr Hrel Hio n [->|Hn]%elem_of_cons Hnr Hsw; [by apply Hk, Hnow|].
    apply (Hc Hr Hrel Hio n Hn Hnr). by eapply sweepable_later.
  - intros path Hp. apply Hk. by eapply queued_kept.
  - intros path Hp. destruct (Hon path Hp) as [Hp1|(name' & -> & Hin & Hnr & Hsw)].
    + destruct (decide (q = [])) as [->|Hne]; [by left|]. destruct (queued_new m _ path q Hq Hp1) as [->|]; [|by left]. right. exists name.
      destruct (Hwhy Hne) as [H1 H2]. split_and!; [done|left|done|]. eapply swept_frame; [reflexivity|apply F'|exact H2].
    + right. exists name'. split_and!; [done|by right|done|]. by eapply swept_frame.
Qed.

Lemma sweep_done referenced cutoff m w r :
  represents (w_db w) m -> ref_safe env cfg m (w_disk w) (w_tick w) -> (r = false -> exists n, closed n = true) ->
  forall names, (r = true -> names = []) -> sweep_post referenced cutoff names m w r w.
Proof.
  intros Hm Hs Ho names Hn. split; [|reflexivity|done]. exists []. split_and!; try done; [|by left].
  intros Hr _ _ name Hin. rewrite (Hn Hr) in Hin. by apply not_elem_of_nil in Hin.
Qed.

(** A listed file whose name no row references is safe to queue. *)
Lemma unlisted_unreferenced m referenced name disk t :
  references m referenced -> referenced !! name = None -> name <> EmptyString -> index_byte name "/"%char = None ->
  ref_safe env cfg m disk t -> is_Some (disk !! filepath_Join (filesPath cfg) name) ->
  unreferenced m (filepath_Join (filesPath cfg) name)
  /\ forall n, (t <= n)%nat -> filepath_Join (filesPath cfg) name <> path_of env cfg n.
Proof.
  intros Href Hn Hne Hslash Hs [c Hd]. split.
  - intros key len Hr. destruct (Href key _ len Hr (Join_nonempty _ _)) as [x Hx].
    by rewrite Base_Join, Hn in Hx by done.
  - intros n Ht E. rewrite E, (rs_new _ _ _ _ _ Hs n Ht) in Hd. done.
Qed.

Lemma references_ext m m' referenced :
  (forall key, m' !! MakeMetadataKey key = m !! MakeMetadataKey key) -> references m referenced -> references m' referenced.
Proof. intros E Hr key path len Hx. apply (Hr key path len). by apply (raw_at_ext m m' key path len (E key)). Qed.

Lemma sweep_loop_spec referenced cutoff names i m w :
  represents (w_db w) m -> ref_safe env cfg m (w_disk w) (w_tick w) -> references m referenced ->
  Forall (fun name => name <> EmptyString /\ index_byte name "/"%char = None
    /\ is_Some (w_disk w !! filepath_Join (filesPath cfg) name)) names ->
  wp (sweep_loop env cfg closed mtime referenced cutoff i names) (sweep_post referenced cutoff names m w) w.
Proof using Henv.
  revert i m w. induction names as [|name names IH]; intros i m w Hm Hs Href Hf; cbn [sweep_loop].
  { apply wp_ret. by apply sweep_done. }
  apply Forall_cons in Hf as [(Hne & Hslash & Hd) Hf]. set (path := filepath_Join (filesPath cfg) name) in *.
  assert (forall q w1, frame w w1 -> enqueued path q -> represents (w_db w1) (apply_batch m q) ->
    ref_safe env cfg (apply_batch m q) (w_disk w1) (w_tick w1) ->
    (reliable (DB := DB) -> ~ io_failed env -> referenced !! name = None -> sweepable cutoff w path -> queued (apply_batch m q) path) ->
    (q <> [] -> referenced !! name = None /\ swept_file cutoff w w1 name) ->
    wp (sweep_loop env cfg closed mtime referenced cutoff (i + 1) names) (sweep_post referenced cutoff (name :: names) m w) w1) as Hnext.
  { intros q w1 F Hq Hm1 Hs1 Hnow Hwhy. eapply wp_mono; [apply (IH (i + 1) (apply_batch m q) w1); try done|].
    - eapply references_ext; [|exact Href]. intros. by eapply reclaim_rows_at, enqueued_reclaim.
    - by rewrite (fr_disk _ _ F).
    - intros r w'. by apply sweep_step. }
  assert (forall w1, frame w w1 -> w_db w1 = w_db w ->
    (reliable (DB := DB) -> ~ io_failed env -> referenced !! name = None -> sweepable cutoff w path -> False) ->
    wp (sweep_loop env cfg closed mtime referenced cutoff (i + 1) names) (sweep_post referenced cutoff (name :: names) m w) w1) as Hskip.
  { intros w1 F D Hno. apply (Hnext []); [done|by left|by rewrite D| |intros; by exfalso; apply Hno|done].
    by eapply ref_safe_quietly; [apply frame_quietly|]. }
  apply wp_bind. eapply (wp_mono _ (fun (b : bool) w1 => frame w w1 /\ w_db w1 = w_db w /\ (b = true -> exists n, closed n = true))).
  { case_match; [|by apply wp_ret]. apply wp_fun. cbn. split_and!; [apply frame_tick|done|]. intros Hc. by eexists. }
  intros stop w1 (F1 & D1 & Hc1). destruct stop.
  { apply wp_ret. assert (represents (w_db w1) m) as Hm1 by by rewrite D1. split; [|done|by intros _; apply Hc1].
    exists []. split_and!; try done; [|by left]. by eapply ref_safe_quietly; [apply frame_quietly|]. }
  destruct (referenced !! name) as [len|] eqn:Er; [by apply Hskip; intros|].
  apply wp_bind. unfold file_info. apply wp_bind, wp_syscall. destruct (env_fault env (w_tick w1)) as [e|] eqn:Ef.
  { apply wp_ret, Hskip; [by etrans; [|apply frame_tick]|done|]. intros _ Hio. destruct Hio. by exists (w_tick w1), e. }
  apply wp_fun. cbn [fst snd]. cbn [w_disk tick]. rewrite (fr_disk _ _ F1). destruct Hd as [c Hd]. rewrite Hd.
  assert (frame w (tick (tick w1))) as F2 by (do 2 apply frame_tick_r; done).
  pose proof (fr_tick _ _ F1) as Ht1.
  destruct (Z.ltb_spec cutoff (mtime (w_tick (tick w1)) path)) as [Hlt|Hge].
  { apply Hskip; [done|done|]. intros _ _ _ [_ Hsw]. destruct (Hsw (w_tick (tick w1)) ltac:(cbn; lia)). lia. }
  apply wp_bind, wp_fun. cbn [fst snd is_inflight]. case_bool_decide as Hin.
  { apply Hskip; [done|done|]. intros _ _ _ [Hni _]. apply Hni. by rewrite <- (fr_inflight _ _ F2). }
  apply wp_bind, wp_fun. cbn [fst snd TryLock]. assert (frame w (tick (tick (tick w1)))) as F3 by by apply frame_tick_r.
  destruct (env_locked env (w_tick (tick (tick w1))) path) eqn:El; cbn [negb].
  { apply Hskip; [done|done|]. intros _ _ _ [_ Hsw]. destruct (Hsw (w_tick (tick (tick w1))) ltac:(cbn; lia)). congruence. }
  apply wp_bind. eapply (wp_stageRawFileDeletion_failing m); [by cbn; rewrite D1|]. intros q w4 Hm4 F4 Hq Hqd.
  assert (frame w w4) as F5 by by etrans.
  destruct (unlisted_unreferenced m referenced name (w_disk w) (w_tick w)) as [Hu Hfut]; try done.
  apply (Hnext q); try done.
  - eapply ref_safe_quietly; [by apply frame_quietly|]. by eapply ref_safe_enqueued.
  - intros Hrel _ _ _. apply Hqd; [|done]. apply Join_nonempty.
  - intros _. split; [done|]. split; [by rewrite <- (fr_inflight _ _ F2)|]. exists (w_tick (tick w1)), (w_tick (tick (tick w1))).
    pose proof (fr_tick _ _ F4). cbn in *. split_and!; [lia..|done|done].
Qed.

(** ** The eviction index *)

Notation idx := (active_index cfg).

(** Every back-reference points to a stored entry of its key. *)
Definition index_sound m : Prop := forall key e, m !! ei_backrefKey idx key = Some e ->
  ei_parseKey idx e = inr key /\ has_prefix (ei_prefix idx) e = true /\ is_Some (m !! e).

(** The same for one key: it has no back-reference, or one to a stored entry of its own. *)
Definition sound_at m (key : bytes) : Prop := forall e, m !! ei_backrefKey idx key = Some e ->
  ei_parseKey idx e = inr key /\ has_prefix (ei_prefix idx) e = true /\ is_Some (m !! e).

Definition has_backref m (key : bytes) : Prop := is_Some (m !! ei_backrefKey idx key).

Lemma backrefPrefix_key u : backrefPrefix cfg +:+ u = ei_backrefKey idx u.
Proof. unfold backrefPrefix, active_index. by case_match. Qed.

Definition entry_ops (dels : list batch_op) (key e : bytes) : list batch_op :=
  dels ++ [BPut e EmptyString; BPut (ei_backrefKey idx key) e].

(** The entry that [dels] removes is the one its key had in [m]. *)
Definition replaces m (dels : list batch_op) (key : bytes) : Prop :=
  dels = [] \/ exists o, m !! ei_backrefKey idx key = Some o /\ dels = [BDelete o].

Lemma wp_stageBackfillEntry m key now (Q : list batch_op -> World DB SM -> Prop) w :
  represents (w_db w) m ->
  (forall dels e w', represents (w_db w') m -> frame w w' -> replaces m dels key ->
     has_prefix (ei_prefix idx) e = true -> (0 <= now < two63 -> ei_parseKey idx e = inr key) ->
     Q (entry_ops dels key e) w') ->
  wp (stageBackfillEntry env cfg key now) Q w.
Proof.
  intros Hm HQ. unfold stageBackfillEntry, entry_ops, replaces, active_index in *. destruct (is_fifo cfg); cbn in *.
  - unfold writeFifoIndexEntry. assert (has_prefix GetFifoIndexPrefix (MakeFifoIndexKey key now) = true) as Hp by apply has_prefix_app.
    assert (0 <= now < two63 -> ParseFifoIndexKey (MakeFifoIndexKey key now) = inr key) as Hk by apply fifo_key_parse.
    apply wp_bind. eapply wp_Get; [exact Hm|intros err db Hdb|intros db Hdb]; apply wp_ret.
    + apply (HQ []); auto with ocache.
    + apply HQ; auto with ocache. destruct (m !! _) as [o|]; [|by left]. right. by exists o.
  - apply wp_ret. apply (HQ []); [done|reflexivity|by left| |].
    + unfold GetOldestAccessBucketPrefix, MakeBucketedAccessKey, GetBucketedAccessKey. rewrite !sapp_assoc. apply has_prefix_app.
    + intros Hn. unfold lru_parseKey. by rewrite (proj1 (bucketed_key_parse _ _ _ Hn)).
Qed.

Lemma index_entry_ne_backref e key : is_index_entry e = true -> e <> ei_backrefKey idx key.
Proof. intros He ->. pose proof (ix_backref (idx := idx) key) as Hb. by rewrite index_entry_not_backref in Hb. Qed.

Lemma replaced_entry m dels key : backrefs_ok m -> replaces m dels key ->
  dels = [] \/ exists o, is_index_entry o = true /\ m !! ei_backrefKey idx key = Some o /\ dels = [BDelete o].
Proof.
  intros Hb [->|(o & E & ->)]; [by left|]. right. exists o. split_and!; [|done..]. eapply Hb; [exact E|]. apply ix_backref.
Qed.

Lemma entry_ops_index m dels key e :
  backrefs_ok m -> replaces m dels key -> has_prefix (ei_prefix idx) e = true -> Forall index_op (entry_ops dels key e).
Proof.
  intros Hb Hr He. apply Forall_app. split.
  - destruct (replaced_entry m dels key Hb Hr) as [->|(o & Ho & _ & ->)]; [by apply Forall_nil_2|].
    apply Forall_one. by apply index_entry_quiet.
  - apply index_entry_ops; [by apply (ix_entry (idx := idx))|apply ix_backref].
Qed.

(** What the operations of one entry leave. *)
Lemma entry_ops_lookup M dels key e : apply_batch M (entry_ops dels key e)
  = <[ei_backrefKey idx key := e]> (<[e := EmptyString]> (apply_batch M dels)).
Proof. unfold entry_ops. by rewrite apply_batch_app. Qed.

Lemma dels_lookup m M dels key k :
  replaces m dels key -> (forall o, m !! ei_backrefKey idx key = Some o -> o <> k) -> apply_batch M dels !! k = M !! k.
Proof. intros [->|(o & E & ->)] Hne; [done|]. apply lookup_delete_ne. by apply Hne. Qed.

Lemma entry_ops_backrefs m M dels key e :
  backrefs_ok m -> replaces m dels key -> has_prefix (ei_prefix idx) e = true ->
  apply_batch M (entry_ops dels key e) !! ei_backrefKey idx key = Some e
  /\ (forall k, k <> key -> apply_batch M (entry_ops dels key e) !! ei_backrefKey idx k = M !! ei_backrefKey idx k).
Proof.
  intros Hb Hr He. rewrite entry_ops_lookup. split; [apply lookup_insert_eq|]. intros k Hk.
  rewrite lookup_insert_ne by (intros E; by apply (ix_inj (idx := idx)) in E).
  rewrite lookup_insert_ne by (by apply index_entry_ne_backref, (ix_entry (idx := idx))).
  eapply dels_lookup; [exact Hr|]. intros o Eo. apply index_entry_ne_backref. eapply Hb; [exact Eo|]. apply ix_backref.
Qed.

Lemma entry_ops_sound m M dels key e :
  backrefs_ok m -> index_sound m -> replaces m dels key -> has_prefix (ei_prefix idx) e = true -> ei_parseKey idx e = inr key ->
  index_sound M -> index_sound (apply_batch M (entry_ops dels key e)).
Proof.
  intros Hb Hm Hr He Hp HM k x Hx. destruct (entry_ops_backrefs m M dels key e Hb Hr He) as [E1 E2].
  assert (forall y, is_index_entry y = true -> (forall o, m !! ei_backrefKey idx key = Some o -> o <> y) ->
    is_Some (M !! y) \/ y = e -> is_Some (apply_batch M (entry_ops dels key e) !! y)) as Hstored.
  { intros y Hy Ho [Hs| ->]; rewrite entry_ops_lookup; rewrite lookup_insert_ne by (apply not_eq_sym; by apply index_entry_ne_backref);
      [|rewrite lookup_insert_eq; by eexists].
    destruct (decide (e = y)) as [->|Hne]; [rewrite lookup_insert_eq; by eexists|]. rewrite lookup_insert_ne by done.
    by rewrite (dels_lookup m M dels key y). }
  destruct (decide (k = key)) as [->|Hk].
  - rewrite E1 in Hx. injection Hx as <-. split_and!; [done|done|]. rewrite entry_ops_lookup.
    rewrite lookup_insert_ne by (apply not_eq_sym; apply index_entry_ne_backref; by apply (ix_entry (idx := idx))).
    rewrite lookup_insert_eq. by eexists.
  - rewrite E2 in Hx by done. destruct (HM k x Hx) as (H1 & H2 & H3). split_and!; [done|done|].
    apply Hstored; [by apply (ix_entry (idx := idx))| |by left]. intros o Eo ->. destruct (Hm key x Eo) as [H4 _]. congruence.
Qed.

(** A new entry, for a key without one, leaves the other keys' alone. *)
Lemma entry_ops_sound_at M key e k :
  has_prefix (ei_prefix idx) e = true -> ei_parseKey idx e = inr key -> k = key \/ sound_at M k ->
  sound_at (apply_batch M (entry_ops [] key e)) k.
Proof.
  intros He Hp Hk x. rewrite entry_ops_lookup. change (apply_batch M []) with M. assert (is_index_entry e = true) as Hi by (by apply (ix_entry (idx := idx))).
  assert (forall y, is_index_entry y = true -> is_Some (M !! y) \/ y = e -> is_Some (<[ei_backrefKey idx key := e]> (<[e := EmptyString]> M) !! y)) as Hstored.
  { intros y Hy Hs. rewrite lookup_insert_ne by (apply not_eq_sym; by apply index_entry_ne_backref).
    destruct (decide (e = y)) as [->|Hne]; [rewrite lookup_insert_eq; by eexists|]. rewrite lookup_insert_ne by done. by destruct Hs as [|Hs]. }
  destruct (decide (k = key)) as [->|Hne].
  - rewrite lookup_insert_eq. intros [= <-]. split_and!; [done|done|]. apply Hstored; auto.
  - rewrite lookup_insert_ne by (intros E; by apply (ix_inj (idx := idx)) in E). rewrite lookup_insert_ne by (by apply index_entry_ne_backref).
    intros Hx. destruct Hk as [|Hk]; [done|]. destruct (Hk x Hx) as (H1 & H2 & H3). split_and!; [done|done|].
    apply Hstored; [by apply (ix_entry (idx := idx))|by left].
Qed.

(** An entry by which a key can be evicted. *)
Definition covered_at m (key : bytes) : Prop := exists e, e ∈ index_keys idx m /\ current idx m e key.

(** A sound back-reference is such an entry's. *)
Lemma sound_covered m key : sound_at m key -> has_backref m key -> covered_at m key.
Proof.
  intros Hs [e E]. destruct (Hs e E) as (H1 & H2 & [v H3]). exists e.
  split; [|split; [done|by left]]. unfold index_keys. apply list_elem_of_fmap. exists (e, v). split; [done|]. by apply prefix_scan.
Qed.

(** ** The scan *)

Section Scan.

Context (m0 : gmap bytes bytes) (w0 : World DB SM) (backfill sweepDue : bool).
Context (backrefErr : option error) (tail : list (bytes * bytes)) (Htail : backrefErr = None -> tail = []).
Context (now : Z).

Definition positioned (done : list (bytes * bytes)) (R : list (bytes * bytes)) : Prop :=
  forall u, Forall (fun r => slt (ExtractUserKey r.1) u = true) done ->
    at_key m0 (backrefPrefix cfg) R tail (fun k => slt k (backrefPrefix cfg +:+ u) = true).

Record scan_inv (sized done : list (bytes * bytes)) m (st : scan_state) w : Prop := {
  sc_rep : represents (w_db w) m;
  sc_frame : frame w0 w;
  sc_applied : exists ops, Forall index_op ops /\ m = apply_batch m0 ops;
  sc_batch : Forall index_op (sn_batch st);
  sc_total : sn_total st = i64 (rows_size sized);
  sc_refs : sweepDue = true -> forall r vm, r ∈ sized -> proto_Unmarshal r.2 = Some vm -> RawFilePath vm <> EmptyString ->
    is_Some (sn_referenced st !! filepath_Base (RawFilePath vm));
  sc_only : forall name, is_Some (sn_referenced st !! name) ->
    exists r vm, r ∈ sized /\ proto_Unmarshal r.2 = Some vm /\ filepath_Base (RawFilePath vm) = name;
  sc_sound : 0 <= now < two63 -> forall k, sound_at m0 k -> sound_at m k /\ sound_at (apply_batch m (sn_batch st)) k;
  sc_cover : backfill = true -> sn_broken st = false -> sn_writeErrs st = 0 ->
    forall r, r ∈ done -> has_backref (apply_batch m (sn_batch st)) (ExtractUserKey r.1);
  sc_keep : forall k e, m0 !! ei_backrefKey idx k = Some e ->
    m !! ei_backrefKey idx k = Some e /\ apply_batch m (sn_batch st) !! ei_backrefKey idx k = Some e;
  sc_fresh : forall k, Forall (fun r => ExtractUserKey r.1 <> k) done ->
    m !! ei_backrefKey idx k = m0 !! ei_backrefKey idx k /\ apply_batch m (sn_batch st) !! ei_backrefKey idx k = m0 !! ei_backrefKey idx k;
  sc_pos : sn_broken st = false -> backfill = true -> positioned done (sn_backrefs st);
  sc_errs : 0 <= sn_writeErrs st /\ (reliable (DB := DB) -> sn_writeErrs st = 0);
  sc_broken : sn_broken st = true -> is_Some backrefErr
}.

Lemma scan_backrefs_ok sized done m st w disk t : ref_safe env cfg m0 disk t -> scan_inv sized done m st w -> backrefs_ok m.
Proof.
  intros Hs Hi. destruct (sc_applied _ _ _ _ _ Hi) as (ops & Ho & ->).
  eapply (backrefs_of env cfg). by apply ref_safe_index.
Qed.

Lemma scan_flush_spec sized done m st w :
  scan_inv sized done m st w ->
  wp (scan_flush st) (fun st' w' => (exists m', scan_inv sized done m' st' w') /\ sn_batch st' = []) w.
Proof.
  intros Hi. unfold scan_flush. destruct (sn_batch st) as [|op batch] eqn:Eb.
  { apply wp_ret. split; [by exists m|done]. }
  destruct Hi as [Hrep Hf (ops & Ho & Em) Hb Ht Hr Hon Hs Hc Hk Hfr Hp [He1 He2] Hbr]. rewrite Eb in Hb, Hs, Hc, Hk, Hfr.
  apply wp_bind. eapply wp_Write_failing; [exact Hrep|by apply plain_regular, index_op_plain|..].
  - intros e db Hdb Hfail. apply wp_ret. split; [|done]. exists m. split; cbn; auto with ocache.
    + by etrans; [|apply frame_set_db].
    + by exists ops.
    + intros Hh k Hx. by destruct (Hs Hh k Hx).
    + intros _ _ Hz. lia.
    + intros k e' Hx. by destruct (Hk k e' Hx).
    + intros k Hx. by destruct (Hfr k Hx).
    + split; [lia|]. by intros [_ []].
  - intros db Hdb. apply wp_ret. split; [|done]. exists (apply_batch m (op :: batch)).
    split; cbn [sn_batch sn_total sn_referenced sn_backrefs sn_broken sn_writeErrs]; auto with ocache.
    + by etrans; [|apply frame_set_db].
    + exists (ops ++ op :: batch). split; [by apply Forall_app|]. by rewrite apply_batch_app, <- Em.
    + intros Hh k Hx. by destruct (Hs Hh k Hx).
    + rewrite Z.add_0_r. done.
    + intros k e' Hx. by destruct (Hk k e' Hx).
    + intros k Hx. by destruct (Hfr k Hx).
    + rewrite Z.add_0_r. done.
Qed.

Lemma seen_more (sized : list (bytes * bytes)) r0 name :
  (exists r vm, r ∈ sized /\ proto_Unmarshal r.2 = Some vm /\ filepath_Base (RawFilePath vm) = name) ->
  exists r vm, r ∈ sized ++ [r0] /\ proto_Unmarshal r.2 = Some vm /\ filepath_Base (RawFilePath vm) = name.
Proof. intros (r & vm & Hr & Hx). exists r, vm. split; [|done]. apply elem_of_app. by left. Qed.

Lemma scan_size_spec sized done m st key v w :
  scan_inv sized done m st w ->
  scan_inv (sized ++ [(MakeMetadataKey key, v)]) done m (scan_size sweepDue v st) w.
Proof using PL.
  intros [Hrep Hf Ha Hb Ht Hr Hon Hs Hc Hk Hfr Hp He Hbr]. unfold scan_size. rewrite size_raw_spec.
  assert (rows_size (sized ++ [(MakeMetadataKey key, v)])
    = rows_size sized + match proto_Unmarshal v with Some vm => ValueLength vm | None => 0 end) as Esz.
  { rewrite rows_size_app. cbn [rows_size fst snd]. unfold value_size, MakeMetadataKey. rewrite has_prefix_app. lia. }
  destruct (proto_Unmarshal v) as [vm|] eqn:Eu; cbn [fmap option_fmap option_map].
  - split; cbn [sn_batch sn_total sn_referenced sn_backrefs sn_broken sn_writeErrs]; try done.
    + by rewrite Esz, Ht, i64_add_l.
    + intros Hd r vm' [Hin|Hin]%elem_of_app Eu' Hne.
      * specialize (Hr Hd r vm' Hin Eu' Hne). case_match; [|done].
        destruct (decide (filepath_Base (RawFilePath vm) = filepath_Base (RawFilePath vm'))) as [->|Hx];
          [rewrite lookup_insert_eq; by eexists|by rewrite lookup_insert_ne].
      * apply list_elem_of_singleton in Hin as ->. cbn in Eu'. rewrite Eu in Eu'. injection Eu' as <-.
        rewrite Hd, bool_decide_true by done. cbn. rewrite lookup_insert_eq. by eexists.
    + intros name Hn. assert (forall name, is_Some (sn_referenced st !! name) -> exists r vm0, r ∈ sized ++ [(MakeMetadataKey key, v)]
        /\ proto_Unmarshal r.2 = Some vm0 /\ filepath_Base (RawFilePath vm0) = name) as Hold by (intros; by apply seen_more, Hon).
      case_match; [|by apply Hold]. destruct (decide (filepath_Base (RawFilePath vm) = name)) as [<-|Hx].
      * exists (MakeMetadataKey key, v), vm. split_and!; [apply elem_of_app; right; left|done|done].
      * rewrite lookup_insert_ne in Hn by done. by apply Hold.
  - rewrite Z.add_0_r in Esz. split; try done; [by rewrite Esz| |by intros name Hn; apply seen_more, Hon]. intros Hd r vm' [Hin|Hin]%elem_of_app; [by apply Hr|].
    apply list_elem_of_singleton in Hin as ->. cbn. congruence.
Qed.

(** The coverage of one more row: [rest] is where the join leaves the iterator. *)
Lemma scan_visit sized done key v m st w rest batch w' :
  scan_inv sized done m st w -> sn_broken st = false -> frame w w' -> represents (w_db w') m ->
  at_key m0 (backrefPrefix cfg) rest tail (fun k => sle k (backrefPrefix cfg +:+ key) = true) ->
  Forall index_op batch -> (0 <= now < two63 -> forall k, sound_at m0 k -> sound_at (apply_batch m batch) k) ->
  has_backref (apply_batch m batch) key ->
  (forall k e, m0 !! ei_backrefKey idx k = Some e -> apply_batch m batch !! ei_backrefKey idx k = Some e) ->
  (forall k, k <> key -> apply_batch m batch !! ei_backrefKey idx k = apply_batch m (sn_batch st) !! ei_backrefKey idx k) ->
  (forall k, has_backref (apply_batch m (sn_batch st)) k -> has_backref (apply_batch m batch) k) ->
  scan_inv sized (done ++ [(MakeMetadataKey key, v)]) m
    (MkScan (sn_total st) (sn_referenced st) rest false batch (sn_writeErrs st)) w'.
Proof.
  intros [Hrep Hf Ha Hb Ht Hr Hon Hs Hc Hk Hfr Hp He Hbr] Ebr F Hm Hpos Hbatch Hsound Hkey Hsame Hothers Hkeep.
  split; cbn [sn_batch sn_total sn_referenced sn_backrefs sn_broken sn_writeErrs]; try done.
  - by etrans.
  - intros Hh k Hx. split; [by apply Hs|auto].
  - intros Hbf _ Hz r [Hin|Hin]%elem_of_app; [auto|]. apply list_elem_of_singleton in Hin as ->. cbn. by rewrite ExtractUserKey_Make.
  - intros k e Hx. destruct (Hk k e Hx). auto.
  - intros k Hx. apply Forall_app in Hx as [Hx Hne]. rewrite Forall_singleton in Hne. cbn in Hne. rewrite ExtractUserKey_Make in Hne.
    destruct (Hfr k Hx) as [H1 H2]. split; [done|]. by rewrite Hothers.
  - intros _ _ u Hu. apply Forall_app in Hu as [_ Hu]. rewrite Forall_singleton in Hu. cbn in Hu. rewrite ExtractUserKey_Make in Hu.
    destruct Hpos as (D & E & HD). exists D. split; [done|]. eapply Forall_impl; [exact HD|]. cbn. intros r Hle.
    eapply sle_slt_trans; [exact Hle|]. by rewrite slt_app_l.
Qed.

(** Once the join has lost the iterator, rows are only counted. *)
Lemma scan_lost sized done r m st st' w :
  scan_inv sized done m st w -> sn_total st' = sn_total st -> sn_referenced st' = sn_referenced st ->
  sn_batch st' = sn_batch st -> sn_writeErrs st' = sn_writeErrs st -> sn_broken st' = true -> is_Some backrefErr ->
  scan_inv sized (done ++ [r]) m st' w.
Proof.
  intros [Hrep Hf Ha Hb Ht Hr Hon Hs Hc Hk Hfr Hp He Hbr] E1 E2 E3 E4 E5 Herr.
  split; rewrite ?E1, ?E2, ?E3, ?E4, ?E5; try done; try (by intros; congruence).
  intros k Hx. apply Forall_app in Hx as [Hx _]. by apply Hfr.
Qed.

Lemma scan_backfill_spec sized done key v m st w disk t :
  scan_inv sized done m st w -> backfill = true -> ref_safe env cfg m0 disk t ->
  Forall (fun r => slt (ExtractUserKey r.1) key = true) done ->
  wp (scan_backfill env cfg backrefErr now (MakeMetadataKey key) st)
    (fun st' w' => exists m', scan_inv sized (done ++ [(MakeMetadataKey key, v)]) m' st' w') w.
Proof using Htail.
  intros Hi Hbf Hsafe Hdone. unfold scan_backfill. rewrite ExtractUserKey_Make.
  destruct (sn_broken st) eqn:Ebr.
  { apply wp_ret. exists m. eapply (scan_lost sized done _ m st); try done. by apply (sc_broken _ _ _ _ _ Hi). }
  pose proof (advance_spec (backrefPrefix cfg) m0 key (sn_backrefs st) tail backrefErr
    (sc_pos _ _ _ _ _ Hi Ebr Hbf key Hdone) Htail) as Hadv.
  destruct (advanceBackrefTo _ _ _ _) as [[covered ok] rest]. destruct Hadv as (Hcov & Hpos & Hok).
  destruct ok; cbn [negb].
  2: { apply wp_ret. exists m. eapply (scan_lost sized done _ m st); try done. by apply Hok. }
  specialize (Hcov eq_refl). rewrite backrefPrefix_key in Hcov. pose proof (sc_rep _ _ _ _ _ Hi) as Hrep.
  destruct covered.
  { apply wp_ret. exists m. symmetry in Hcov. apply bool_decide_eq_true_1 in Hcov.
    destruct Hcov as [e0 Hcov]. apply (scan_visit sized done key v m st w); try done; [apply Hi| | |].
    - intros Hh k Hx. by destruct (sc_sound _ _ _ _ _ Hi Hh k Hx).
    - exists e0. by apply (sc_keep _ _ _ _ _ Hi).
    - intros k e Hx. by apply (sc_keep _ _ _ _ _ Hi). }
  assert (m0 !! ei_backrefKey idx key = None) as Hnone by (symmetry in Hcov; apply bool_decide_eq_false_1 in Hcov; by apply eq_None_not_Some).
  pose proof (scan_backrefs_ok _ _ _ _ _ _ _ Hsafe Hi) as Hb.
  apply wp_bind. eapply wp_stageBackfillEntry; [exact Hrep|]. intros dels e w1 Hm1 F1 Hr He Hpk.
  assert (dels = []) as ->.
  { destruct Hr as [->|(o & Eo & _)]; [done|]. exfalso. destruct (sc_fresh _ _ _ _ _ Hi key) as [E _]; [|congruence].
    eapply Forall_impl; [exact Hdone|]. intros r Hlt <-. by rewrite slt_irrefl in Hlt. }
  pose proof (entry_ops_index m [] key e Hb Hr He) as Ho.
  destruct (entry_ops_backrefs m (apply_batch m (sn_batch st)) [] key e Hb Hr He) as [E1 E2].
  assert (scan_inv sized (done ++ [(MakeMetadataKey key, v)]) m
    (MkScan (sn_total st) (sn_referenced st) rest false (sn_batch st ++ entry_ops [] key e) (sn_writeErrs st)) w1) as Hi'.
  { apply (scan_visit sized done key v m st w); try done.
    - apply Forall_app. split; [apply Hi|done].
    - intros Hh k Hx. rewrite apply_batch_app. destruct (sc_sound _ _ _ _ _ Hi Hh k Hx). apply entry_ops_sound_at; [done|by apply Hpk|by right].
    - rewrite apply_batch_app. unfold has_backref. rewrite E1. by eexists.
    - intros k x Hx. rewrite apply_batch_app, E2; [by apply (sc_keep _ _ _ _ _ Hi)|]. intros ->. congruence.
    - intros k Hne. by rewrite apply_batch_app, E2.
    - intros k Hk. rewrite apply_batch_app. unfold has_backref in *. destruct (decide (k = key)) as [->|Hne]; [rewrite E1; by eexists|].
      by rewrite E2. }
  case_match; [|apply wp_ret; by exists m].
  eapply wp_mono; [by eapply scan_flush_spec|]. intros st' w' [Hx _]. done.
Qed.

Lemma scan_tick sized done m st w : scan_inv sized done m st w -> scan_inv sized done m st (tick w).
Proof. intros []. split; try done. by etrans; [|apply frame_tick]. Qed.

(** Sorted metadata rows, behind and ahead. *)
Definition ascending (done rows : list (bytes * bytes)) : Prop :=
  Forall (fun r => IsMetadataKey r.1 = true) rows /\ StronglySorted (fun a b => slt (ExtractUserKey a.1) (ExtractUserKey b.1) = true) (done ++ rows).

Lemma scan_uncounted sized done r m st w :
  backfill = false -> scan_inv sized done m st w -> scan_inv sized (done ++ [r]) m st w.
Proof.
  intros Hb []. split; try done; try (by intros; congruence). intros k Hx. apply Forall_app in Hx as [Hx _]. auto.
Qed.

Lemma scan_loop_spec rows done m st w disk t :
  scan_inv done done m st w -> ref_safe env cfg m0 disk t -> ascending done rows ->
  wp (scan_loop env cfg closed backfill sweepDue backrefErr now rows st) (fun r w' => exists m' done' rest,
    done ++ rows = done' ++ rest /\ scan_inv done' done' m' r.1 w' /\ (r.2 = true -> rest = [])
    /\ (r.2 = false -> (exists n, closed n = true) /\ sn_batch r.1 = [])) w.
Proof using Htail PL.
  revert done m st w. induction rows as [|[k v] rows IH]; intros done m st w Hi Hs Hasc; cbn [scan_loop].
  { apply wp_ret. exists m, done, []. by split_and!. }
  destruct Hasc as [[Hk Hks]%Forall_cons Hsort]. cbn in Hk. pose proof (IsMetadataKey_inv k Hk) as Ek.
  apply wp_bind, wp_fun. cbn [fst snd closeCh]. apply scan_tick in Hi. destruct (closed (w_tick w)) eqn:Ec.
  { apply wp_bind. eapply wp_mono; [by eapply scan_flush_spec|]. intros st' w' [(m' & Hi') Eb]. apply wp_ret.
    exists m', done, ((k, v) :: rows). split_and!; try done. intros _. split; [by exists (w_tick w)|done]. }
  set (key := ExtractUserKey k) in *. rewrite Ek in Hsort |- *. apply (scan_size_spec done done m st key v) in Hi.
  apply wp_bind. eapply (wp_mono _ (fun st' w' => exists m', scan_inv (done ++ [(MakeMetadataKey key, v)]) (done ++ [(MakeMetadataKey key, v)]) m' st' w')).
  - destruct backfill eqn:Ebf.
    + eapply scan_backfill_spec; [exact Hi|done|exact Hs|]. clear -Hsort. induction done as [|d done IHd]; [by apply Forall_nil_2|].
      cbn in Hsort. apply StronglySorted_inv in Hsort as [Hsort Hf]. apply Forall_cons. split; [|by apply IHd].
      apply Forall_app in Hf as [_ Hf]. apply Forall_cons in Hf as [Hf _]. cbn in Hf. by rewrite ExtractUserKey_Make in Hf.
    + apply wp_ret. exists m. by apply scan_uncounted.
  - intros st' w' (m' & Hi'). eapply wp_mono; [apply (IH (done ++ [(MakeMetadataKey key, v)]) m'); try done|].
    + split; [done|]. by rewrite <- app_assoc.
    + intros r w2 (m2 & done2 & rest & E & Hx). exists m2, done2, rest. split; [|done]. by rewrite <- app_assoc in E.
Qed.

End Scan.

(** ** The whole pass *)

(** A scan whose iterator shows no error has seen every row of its prefix. *)
Lemma prefix_complete {E} p l (tail : list (bytes * bytes)) (err : option E) :
  iter_Err (prefix_rest p l) err = None -> (err = None -> tail = []) -> prefix_rows p (l ++ tail) = prefix_rows p l.
Proof.
  intros He Ht. induction l as [|r l IH]; cbn in *; [by rewrite (Ht He)|]. destruct (has_prefix p r.1); [|done]. by rewrite IH.
Qed.

Definition open_throughout : Prop := forall n, closed n = false.

(** The queue after a pass: what was in it, and files that were swept. *)
Definition queue_exact m w m' w' : Prop := forall path, queued m' path -> queued m path \/
  exists name, path = filepath_Join (filesPath cfg) name /\ name ∈ dir_entries (w_disk w) (filesPath cfg)
    /\ (forall key p len, raw_at m key p len -> p <> EmptyString -> filepath_Base p <> name)
    /\ swept_file (env_now env (w_tick w) - orphanGraceWindow) w w' name.

Record reconciled m cs w m' (cs' : cleaner_state) w' : Prop := {
  rc_rep : represents (w_db w') m';
  rc_safe : ref_safe env cfg m' (w_disk w') (w_tick w');
  rc_rows : forall key, m' !! MakeMetadataKey key = m !! MakeMetadataKey key;
  rc_size : w_size w' = w_size w \/ w_size w' = i64 (live_size m);
  rc_exact : ~ iter_failed (DB := DB) -> open_throughout -> w_size w' = i64 (live_size m);
  rc_sound : 0 < maxDiskUsage cfg -> (forall n, 0 <= env_now env n) -> forall key, sound_at m key -> sound_at m' key;
  rc_keep : forall key e, m !! ei_backrefKey idx key = Some e -> m' !! ei_backrefKey idx key = Some e;
  rc_cover : 0 < maxDiskUsage cfg -> open_throughout -> cs_backfillPending cs' = false ->
    forall key vm, row_at m' key vm -> has_backref m' key;
  rc_clean : 0 < maxDiskUsage cfg -> reliable (DB := DB) -> ~ iter_failed (DB := DB) -> open_throughout ->
    cs_backfillPending cs' = false;
  rc_only : queue_exact m w m' w';
  rc_sweep : cs_lastOrphanSweep cs = None -> reliable (DB := DB) -> ~ iter_failed (DB := DB) -> ~ io_failed env ->
    open_throughout -> forall name, name ∈ dir_entries (w_disk w) (filesPath cfg) ->
    (forall key vm, row_at m key vm -> filepath_Base (RawFilePath vm) <> name) ->
    sweepable (env_now env (w_tick w) - orphanGraceWindow) w (filepath_Join (filesPath cfg) name) ->
    queued m' (filepath_Join (filesPath cfg) name)
}.

Lemma meta_rows_ascending m rows more : meta_rows m = rows ++ more -> ascending [] rows.
Proof.
  intros E. assert (Forall (fun r => IsMetadataKey r.1 = true) (meta_rows m)) as Hk.
  { apply Forall_forall. intros [k v] Hr. by apply elem_of_meta_rows in Hr as [_ ?]. }
  pose proof (meta_rows_sorted m) as Hs. rewrite E in Hk, Hs. apply Forall_app in Hk as [Hk _]. split; [done|].
  clear E. induction rows as [|r rows IH]; [constructor|]. cbn in *. apply StronglySorted_inv in Hs as [Hs Hf].
  apply Forall_cons in Hk as [Hk Hks]. constructor; [by apply IH|]. apply Forall_app in Hf as [Hf _].
  rewrite Forall_forall in Hf, Hks |- *. intros r' Hr'. specialize (Hf r' Hr'). unfold row_lt in Hf.
  rewrite (IsMetadataKey_inv r.1 Hk), (IsMetadataKey_inv r'.1 (Hks r' Hr')) in Hf. unfold MakeMetadataKey in Hf. by rewrite slt_app_l in Hf.
Qed.

Lemma wp_open_backrefs m (Q : Z * list (bytes * bytes) * option error -> World DB SM -> Prop) w :
  represents (w_db w) m ->
  (forall now backrefs err tail w', represents (w_db w') m -> frame w w' -> (err = None -> tail = []) ->
     (is_Some err -> iter_failed (DB := DB)) -> (0 < maxDiskUsage cfg -> (exists n, now = env_now env n)
       /\ backrefs ++ tail = rows_from (backrefPrefix cfg) m) -> Q (now, backrefs, err) w') ->
  wp (if 0 <? maxDiskUsage cfg then now ← time_Now env; bit ← Iterate_ (backrefPrefix cfg); mret (now, bit.1, bit.2)
      else mret (0, [], None)) Q w.
Proof.
  intros Hm HQ. destruct (Z.ltb_spec 0 (maxDiskUsage cfg)) as [Hlt|Hge].
  - apply wp_bind, wp_time_Now, wp_bind. eapply (wp_Iterate_failing m); [exact Hm|]. intros l err tail db Hdb Hl Ht Hf.
    apply wp_ret. eapply HQ; [exact Hdb| |exact Ht|done|]. { split; cbn; try done. lia. }
    intros _. split; [by eexists|done].
  - apply wp_ret. apply (HQ 0 [] None []); try done; lia.
Qed.

Lemma wp_sweep_is_due cs (Q : bool -> World DB SM -> Prop) w :
  (forall b w', w_db w' = w_db w -> frame w w' -> (cs_lastOrphanSweep cs = None -> b = true) -> Q b w') ->
  wp (sweep_is_due env cs) Q w.
Proof.
  intros HQ. unfold sweep_is_due. destruct (cs_lastOrphanSweep cs); [|by apply wp_ret, HQ].
  apply wp_bind, wp_time_Now, wp_ret, HQ; [done|apply frame_tick|done].
Qed.

(** What a scan has established when it ends, [rows] being the rows it saw. *)
Record scanned m w (backfill sweepDue : bool) (rows : list (bytes * bytes)) m1 st w1 : Prop := {
  sd_rep : represents (w_db w1) m1;
  sd_frame : frame w w1;
  sd_safe : ref_safe env cfg m1 (w_disk w1) (w_tick w1);
  sd_rows : forall key, m1 !! MakeMetadataKey key = m !! MakeMetadataKey key;
  sd_queue : forall path, queued m1 path -> queued m path;
  sd_total : sn_total st = i64 (rows_size rows);
  sd_refs : sweepDue = true -> meta_rows m = rows -> references m1 (sn_referenced st);
  sd_only : forall name, is_Some (sn_referenced st !! name) -> exists key vm, row_at m key vm /\ filepath_Base (RawFilePath vm) = name;
  sd_sound : backfill = true -> (forall n, 0 <= env_now env n) -> forall key, sound_at m key -> sound_at m1 key;
  sd_keep : forall key e, m !! ei_backrefKey idx key = Some e -> m1 !! ei_backrefKey idx key = Some e;
  sd_cover : backfill = true -> sn_broken st = false -> sn_writeErrs st = 0 -> meta_rows m = rows ->
    forall key vm, row_at m key vm -> has_backref m1 key;
  sd_errs : 0 <= sn_writeErrs st /\ (reliable (DB := DB) -> sn_writeErrs st = 0)
}.

Lemma scan_finished m w backfill sweepDue backrefErr tail now done rest m1 st w1 :
  scan_inv m w backfill sweepDue backrefErr tail now done done m1 st w1 -> sn_batch st = [] ->
  meta_rows m = done ++ rest -> ref_safe env cfg m (w_disk w) (w_tick w) ->
  (backfill = true -> exists n, now = env_now env n) ->
  scanned m w backfill sweepDue done m1 st w1.
Proof using Henv.
  intros [Hrep Hf (ops & Ho & Em) _ Ht Hr Hon Hs Hc Hk _ _ He _] Eb Erows Hsafe Hnow. rewrite Eb in *.
  assert (forall key, m1 !! MakeMetadataKey key = m !! MakeMetadataKey key) as Hrows.
  { intros key. rewrite Em. by apply index_rows. }
  assert (forall r, r ∈ done -> m !! r.1 = Some r.2 /\ IsMetadataKey r.1 = true) as Hin.
  { intros [k v] Hx. apply elem_of_meta_rows. rewrite Erows. apply elem_of_app. by left. }
  assert (forall key v, meta_rows m = done -> m !! MakeMetadataKey key = Some v -> (MakeMetadataKey key, v) ∈ done) as Hall.
  { intros key v <- E. apply elem_of_meta_rows. split; [done|]. unfold IsMetadataKey, MakeMetadataKey. apply has_prefix_app. }
  split; try done.
  - eapply ref_safe_quietly; [by apply frame_quietly|]. rewrite Em. by apply ref_safe_index.
  - intros path (ts & Hts & Hq). exists ts. split; [done|]. rewrite Em in Hq. by rewrite index_queue in Hq by (done || apply queue_key_prefix).
  - intros Hd Hmr key path len (vm & (v & E & Eu) & _ & <- & _) Hne. rewrite Hrows in E.
    by apply (Hr Hd (MakeMetadataKey key, v) vm); [apply Hall|..].
  - intros name Hn. destruct (Hon name Hn) as (r & vm & Hx & Eu & Eb'). destruct (Hin r Hx) as [E Hmk].
    exists (ExtractUserKey r.1), vm. split; [|done]. exists r.2. by rewrite <- (IsMetadataKey_inv r.1 Hmk).
  - intros Hbf Hclk key Hsd. apply Hs; [|done]. destruct (Hnow Hbf) as [n ->]. pose proof (clock_i64 _ _ Henv n) as [_ Hlt].
    split; [apply Hclk|unfold two63 in *; lia].
  - intros key e Hx. by destruct (Hk key e Hx).
  - intros Hbf Hbr Hw Hmr key vm (v & E & _). specialize (Hc Hbf Hbr Hw (MakeMetadataKey key, v) (Hall key v Hmr E)). cbn in Hc.
    by rewrite ExtractUserKey_Make in Hc.
Qed.

Lemma sweepOrphanRawFiles_spec referenced scanStart m w :
  represents (w_db w) m -> ref_safe env cfg m (w_disk w) (w_tick w) -> references m referenced ->
  wp (sweepOrphanRawFiles env cfg closed mtime referenced scanStart) (fun r w' => exists q,
    Forall reclaim_op q /\ represents (w_db w') (apply_batch m q)
    /\ ref_safe env cfg (apply_batch m q) (w_disk w') (w_tick w') /\ frame w w'
    /\ swept_only referenced (scanStart - orphanGraceWindow) (dir_entries (w_disk w) (filesPath cfg)) m w (apply_batch m q) w'
    /\ (~ io_failed env -> open_throughout -> r = true)
    /\ (r = true -> swept_clean referenced (scanStart - orphanGraceWindow) (dir_entries (w_disk w) (filesPath cfg)) w (apply_batch m q))) w.
Proof using Henv.
  intros Hm Hs Href. unfold sweepOrphanRawFiles, ReadDir. apply wp_bind, wp_bind, wp_syscall.
  assert (ref_safe env cfg m (w_disk (tick w)) (w_tick (tick w))) as Hs1 by (eapply ref_safe_quietly; [apply frame_quietly, frame_tick|done]).
  destruct (env_fault env (w_tick w)) as [e|] eqn:Ef.
  { apply wp_ret, wp_ret. exists []. split_and!; try done; [apply frame_tick|by left|]. intros []. by exists (w_tick w), e. }
  apply wp_fun. cbn [fst snd w_disk tick].
  eapply wp_mono; [apply (sweep_loop_spec referenced (scanStart - orphanGraceWindow) _ 0 m); try done|].
  { apply Forall_forall. intros name. apply elem_of_dir_entries. }
  intros r w' [(q & H1 & H2 & H3 & H4 & _ & H5) F Ho]. exists q. split_and!; try done.
  - by etrans; [apply frame_tick|].
  - intros path Hp. destruct (H5 path Hp) as [|(name & E1 & E2 & E3 & E4)]; [by left|]. right. exists name. split_and!; try done.
    eapply swept_frame; [apply frame_tick|done|exact E4].
  - intros _ Hop. destruct r; [done|]. destruct (Ho eq_refl) as [n Hn]. by rewrite Hop in Hn.
  - intros Hr Hrel Hio name Hin Hn Hsw. apply H4; try done. eapply sweepable_later; [apply frame_tick|done].
Qed.

(** The counter after the correction. *)
Lemma corrected_size total tracked : i64 (tracked + i64 (i64 total - tracked)) = i64 total.
Proof. rewrite i64_add_r. replace (tracked + (i64 total - tracked)) with (i64 total) by lia. apply i64_small, i64_range. Qed.

Lemma reconciled_rows_kept m m1 q key : Forall reclaim_op q ->
  (forall key, m1 !! MakeMetadataKey key = m !! MakeMetadataKey key) ->
  apply_batch m1 q !! MakeMetadataKey key = m !! MakeMetadataKey key.
Proof. intros Hq Hr. by rewrite reclaim_rows_at. Qed.

Lemma reclaim_sound m q key : Forall reclaim_op q -> sound_at m key -> sound_at (apply_batch m q) key.
Proof.
  intros Hq Hs e E. rewrite reclaim_lookup in E; [|done|by rewrite (ix_backref (idx := idx)), orb_true_r].
  destruct (Hs e E) as (H1 & H2 & H3). split_and!; [done|done|].
  rewrite reclaim_lookup; [done|done|]. by rewrite (ix_entry (idx := idx) e H2), orb_true_r.
Qed.

Lemma reclaim_backref m q key : Forall reclaim_op q -> has_backref m key -> has_backref (apply_batch m q) key.
Proof.
  intros Hq. unfold has_backref. rewrite reclaim_lookup; [done|done|]. by rewrite (ix_backref (idx := idx)), orb_true_r.
Qed.

(** A pass that ended without changing anything but the index. *)
Lemma reconciled_early m cs w rows m1 st w1 cs' sweepDue :
  scanned m w (0 <? maxDiskUsage cfg) sweepDue rows m1 st w1 ->
  (~ iter_failed (DB := DB) -> open_throughout -> False) ->
  (open_throughout -> 0 < maxDiskUsage cfg -> cs_backfillPending cs' = true) -> reconciled m cs w m1 cs' w1.
Proof.
  intros [Hrep Hf Hsafe Hrows Hqu _ _ _ Hs Hk _ _] Hno Hp. split; try done.
  - left. apply Hf.
  - intros H1 H2. by destruct (Hno H1 H2).
  - intros Hmax. apply Hs. lia.
  - intros Hmax Hop Hx. rewrite Hp in Hx; done.
  - intros _ _ H1 H2. by destruct (Hno H1 H2).
  - intros path Hp'. left. by apply Hqu.
  - intros _ _ H1 _ H2. by destruct (Hno H1 H2).
Qed.

(** A pass that saw every row, with the operations [q] of its sweep. *)
Lemma reconciled_complete m cs w m1 st w1 (sweepDue : bool) q cs' w' :
  scanned m w (0 <? maxDiskUsage cfg) sweepDue (meta_rows m) m1 st w1 -> Forall reclaim_op q ->
  represents (w_db w') (apply_batch m1 q) -> ref_safe env cfg (apply_batch m1 q) (w_disk w') (w_tick w') ->
  queue_exact m w (apply_batch m1 q) w' -> w_size w' = i64 (live_size m) ->
  (0 < maxDiskUsage cfg -> cs_backfillPending cs' = false -> sn_broken st = false /\ sn_writeErrs st = 0) ->
  (0 < maxDiskUsage cfg -> reliable (DB := DB) -> ~ iter_failed (DB := DB) -> cs_backfillPending cs' = false) ->
  (cs_lastOrphanSweep cs = None -> ~ io_failed env -> open_throughout ->
     swept_clean (sn_referenced st) (env_now env (w_tick w) - orphanGraceWindow) (dir_entries (w_disk w) (filesPath cfg)) w (apply_batch m1 q)) ->
  reconciled m cs w (apply_batch m1 q) cs' w'.
Proof.
  intros [Hrep Hf Hsafe Hrows Hqu Ht Hrefs Honly Hs Hk Hc He] Hq Hm' Hs' Hqx Hsz Hpend Hclean Hsweep.
  split; try done.
  - intros key. by eapply reconciled_rows_kept.
  - by right.
  - intros Hmax Hclk key Hsd. apply reclaim_sound; [done|]. apply Hs; [lia|done..].
  - intros key e E. rewrite reclaim_lookup; [by apply Hk|done|]. by rewrite (ix_backref (idx := idx)), orb_true_r.
  - intros Hmax _ Hp key vm (v & E & Eu). rewrite (reconciled_rows_kept m m1 q key Hq Hrows) in E.
    destruct (Hpend Hmax Hp). apply reclaim_backref; [done|]. apply (Hc ltac:(lia) ltac:(done) ltac:(done) eq_refl key vm). by exists v.
  - auto.
  - intros Hcs Hrel Hit Hio Hop name Hin Hno Hsw. apply (Hsweep Hcs Hio Hop Hrel Hio name Hin); [|done].
    destruct (sn_referenced st !! name) eqn:E; [|done]. destruct (Honly name) as (key & vm & Hr & Eb); [by rewrite E; eexists|].
    by destruct (Hno key vm Hr).
Qed.

Lemma frame_swept w w1 referenced cutoff names m' : frame w w1 ->
  swept_clean referenced cutoff names w1 m' -> swept_clean referenced cutoff names w m'.
Proof. intros F Hc Hrel Hio name Hin Hn Hsw. apply Hc; try done. by eapply sweepable_later. Qed.

(** After the scan: the correction of the counter and the sweep. *)
Lemma reconcile_finish m cs w m1 st w1 (sweepDue : bool) cs1 :
  scanned m w (0 <? maxDiskUsage cfg) sweepDue (meta_rows m) m1 st w1 ->
  (cs_lastOrphanSweep cs = None -> sweepDue = true) ->
  (0 < maxDiskUsage cfg -> cs_backfillPending cs1 = false -> sn_broken st = false /\ sn_writeErrs st = 0) ->
  (0 < maxDiskUsage cfg -> reliable (DB := DB) -> ~ iter_failed (DB := DB) -> cs_backfillPending cs1 = false) ->
  wp (_ ← UpdateSize (i64 (sn_total st - w_size w));
      if sweepDue then
        completed ← sweepOrphanRawFiles env cfg closed mtime (sn_referenced st) (env_now env (w_tick w));
        if (completed : bool) then now ← time_Now env; mret (set_lastSweep now cs1) else mret cs1
      else mret cs1) (fun cs' w' => exists m', reconciled m cs w m' cs' w') w1.
Proof using Henv.
  intros Hsc Hdue Hpend Hclean. pose proof Hsc as [Hrep Hf Hsafe Hrows Hqu Ht Hrefs _ _ _ _ _].
  apply wp_bind, wp_UpdateSize. set (w2 := set_size _ w1).
  assert (w_size w2 = i64 (live_size m)) as Hsz.
  { cbn. rewrite (fr_size _ _ Hf), Ht, live_size_meta_rows. apply corrected_size. }
  destruct sweepDue.
  2: { apply wp_ret. exists (apply_batch m1 []). eapply reconciled_complete; try done; [|by intros Hx%Hdue]. intros path Hp. left. by apply Hqu. }
  apply wp_bind. eapply wp_mono; [apply (sweepOrphanRawFiles_spec (sn_referenced st) (env_now env (w_tick w)) m1); [done|done|by apply Hrefs]|].
  intros completed w3 (q & H1 & H2 & H3 & F3 & H6 & H4 & H5).
  assert (forall cs' w', cs_backfillPending cs' = cs_backfillPending cs1 -> frame w3 w' -> w_db w' = w_db w3 ->
    reconciled m cs w (apply_batch m1 q) cs' w') as Hend.
  { intros cs' w' Ep F D. eapply (reconciled_complete m cs w m1 st w1 true q); try done; rewrite ?Ep, ?D; try done.
    - by eapply ref_safe_quietly; [apply frame_quietly|].
    - intros path Hp. destruct (H6 path Hp) as [|(name & E1 & E2 & E3 & E4)]; [left; by apply Hqu|]. right. exists name.
      rewrite <- (fr_disk _ _ Hf). split_and!; [done|done| |].
      + intros key p len Hr Hne Eb. destruct (Hrefs eq_refl eq_refl key p len) as [x Hx]; [by apply (raw_at_ext m m1 key p len (Hrows key))|done|].
        rewrite Eb in Hx. congruence.
      + assert (frame w (set_size (w_size w) w2)) as Fw by (destruct Hf; by split).
        destruct E4 as [E4 (n1 & n2 & E5 & E6 & E7)]. split; [by rewrite <- (fr_inflight _ _ Hf)|]. exists n1, n2.
        pose proof (fr_tick _ _ Hf). pose proof (fr_tick _ _ F). cbn in E5. split; [lia|]. split; [lia|done].
    - by rewrite (fr_size _ _ F), (fr_size _ _ F3).
    - intros _ Hio Hop. rewrite <- (fr_disk _ _ Hf). assert (frame w (set_size (w_size w) w2)) as Fw.
      { destruct Hf. split; cbn; try done. }
      intros Hrel Hio' name Hin Hn Hsw. apply (H5 (H4 Hio Hop) Hrel Hio' name Hin Hn).
      by apply (sweepable_later _ w (set_size (w_size w) w2)). }
  destruct completed; [|by apply wp_ret; eexists; apply Hend].
  apply wp_bind, wp_time_Now, wp_ret. eexists. apply Hend; [done|apply frame_tick|done].
Qed.

Lemma reconcile_spec m cs w :
  represents (w_db w) m -> ref_safe env cfg m (w_disk w) (w_tick w) ->
  wp (reconcileFromMetadata env cfg closed mtime cs) (fun cs' w' => exists m', reconciled m cs w m' cs' w') w.
Proof using Henv PL.
  intros Hm Hs. unfold reconcileFromMetadata. apply wp_bind, wp_time_Now, wp_bind.
  eapply (wp_Iterate_failing m); [exact Hm|]. intros l err tail db Hdb Hl Ht Hfail. apply wp_bind, wp_fun. cbn [fst snd load_size].
  apply wp_bind. eapply (wp_open_backrefs m); [exact Hdb|]. intros now backrefs berr btail w1 Hm1 F1 Hbt Hbfail Hb.
  apply wp_bind, wp_sweep_is_due. intros sweepDue w2 D2 F2 Hdue. rewrite <- D2 in Hm1.
  assert (frame w w2) as F by (etrans; [|exact F2]; etrans; [|exact F1]; etrans; [apply frame_tick|apply frame_set_db]).
  destruct (meta_rows_front m l tail Hl) as (more & Emore & Hmore).
  assert (scan_inv m w (0 <? maxDiskUsage cfg) sweepDue berr btail now [] [] m (MkScan 0 ∅ backrefs false [] 0) w2) as Hi.
  { split; cbn [sn_batch sn_total sn_referenced sn_backrefs sn_broken sn_writeErrs]; try done.
    - by exists [].
    - intros _ r vm Hr%not_elem_of_nil. done.
    - intros name [? Hx]. by rewrite lookup_empty in Hx.
    - intros _ _ _ r Hr%not_elem_of_nil. done.
    - intros _ Hbf u _. exists []. split; [|by apply Forall_nil_2]. cbn. symmetry. apply Hb. lia. }
  apply wp_bind. eapply wp_mono.
  { eapply (scan_loop_spec m w (0 <? maxDiskUsage cfg) sweepDue berr btail Hbt now _ [] m _ w2); [exact Hi|exact Hs|]. by eapply meta_rows_ascending. }
  intros [st fin] w3 (m3 & done & rest & E & Hi3 & Hfin & Hopen). cbn [fst snd app] in *.
  assert (0 <? maxDiskUsage cfg = true -> exists n, now = env_now env n) as Hnow by (intros; apply Hb; lia).
  destruct fin; cbn [negb].
  2: { destruct (Hopen eq_refl) as [[n Hn] Eb]. apply wp_ret. exists m3. eapply reconciled_early.
       - eapply scan_finished; [exact Hi3|exact Eb|by rewrite Emore, E, <- app_assoc|exact Hs|exact Hnow].
       - intros _ Hop. by rewrite Hop in Hn.
       - intros Hop. by rewrite Hop in Hn. }
  rewrite (Hfin eq_refl), app_nil_r in E. subst done.
  apply wp_bind. eapply wp_mono; [by eapply scan_flush_spec|]. intros st4 w4 [(m4 & Hi4) Eb4].
  pose proof (scan_finished _ _ _ _ _ _ _ _ _ _ _ _ Hi4 Eb4 Emore Hs Hnow) as Hsc.
  destruct (iter_Err (prefix_rest MetadataPrefix l) err) as [e|] eqn:Eerr.
  { apply wp_ret. exists m4. eapply reconciled_early; [exact Hsc| |].
    - intros Hit _. apply Hit, Hfail. destruct err; [by eexists|]. by destruct (prefix_rest _ _).
    - intros _ Hmax. by rewrite (proj2 (Z.ltb_lt _ _) Hmax). }
  assert (meta_rows m = prefix_rows MetadataPrefix l) as Eall.
  { unfold meta_rows. rewrite <- Hl. by eapply prefix_complete. }
  rewrite <- Eall in Hsc. eapply wp_mono; [eapply (reconcile_finish m cs w m4 st4 w4 sweepDue); try done|done].
  - intros Hmax. rewrite (proj2 (Z.ltb_lt _ _) Hmax). cbn. rewrite !orb_false_iff. intros [[H1 H2] _].
    destruct (sc_errs _ _ _ _ _ _ _ _ _ _ _ _ Hi4). split; [done|lia].
  - intros Hmax Hrel Hit. rewrite (proj2 (Z.ltb_lt _ _) Hmax). cbn. destruct (sc_errs _ _ _ _ _ _ _ _ _ _ _ _ Hi4) as [_ He].
    rewrite (He Hrel). assert (berr = None) as -> by (destruct berr; [by destruct Hit; apply Hbfail|done]).
    destruct (sn_broken st4) eqn:Ebr; [by destruct (sc_broken _ _ _ _ _ _ _ _ _ _ _ _ Hi4 Ebr)|]. by destruct (sn_backrefs st4).
Qed.

(** C17: reconciliation makes the size counter exact. Whatever the counter was,
    [reconcileFromMetadata] leaves every row as it is, leaves the counter untouched
    when its scan is cut short, and otherwise sets it to the sum of the recorded
    lengths of all stored rows (as an int64); if the iterators do not fail and the
    cleaner is not closed, the scan is not cut short. *)
Theorem reconcile_makes_counter_exact m cs w :
  represents (w_db w) m -> ref_safe env cfg m (w_disk w) (w_tick w) ->
  let '(_, w') := reconcileFromMetadata env cfg closed mtime cs w in
  exists m', represents (w_db w') m' /\ (forall key, m' !! MakeMetadataKey key = m !! MakeMetadataKey key)
    /\ (w_size w' = w_size w \/ w_size w' = i64 (live_size m))
    /\ (~ iter_failed (DB := DB) -> open_throughout -> w_size w' = i64 (live_size m)).
Proof using Henv PL.
  intros Hm Hs. pose proof (reconcile_spec m cs w Hm Hs) as Hp.
  destruct (reconcileFromMetadata _ _ _ _ cs w) as [cs' w'] eqn:E. eapply wp_run in Hp as (m' & []); [|exact E]. by exists m'.
Qed.

(** C18: reconciliation gives every key an entry that has none. Under a disk cap and a
    clock after 1970, a pass that is not interrupted and ends with [backfillPending] unset
    leaves every stored value with an entry by which eviction will find it, if before the
    pass its key had no back-reference or one to a stored entry of its own; the pass only
    merges two sorted scans for this. Back-references that were there are kept as they are,
    also those whose entry is gone (as [cleanupOldBuckets] leaves them under LRU): their keys
    may stay without an entry, and [bucket_cleanup_hides_cold_keys] is such a case. No
    back-reference of a key becomes unsound. If nothing fails, the pass does end with
    [backfillPending] unset. *)
Theorem reconcile_restores_coverage m cs w :
  represents (w_db w) m -> ref_safe env cfg m (w_disk w) (w_tick w) ->
  0 < maxDiskUsage cfg -> (forall n, 0 <= env_now env n) -> open_throughout ->
  let '(cs', w') := reconcileFromMetadata env cfg closed mtime cs w in
  exists m', represents (w_db w') m' /\ (forall key, m' !! MakeMetadataKey key = m !! MakeMetadataKey key)
    /\ (forall key, sound_at m key -> sound_at m' key)
    /\ (forall key e, m !! ei_backrefKey idx key = Some e -> m' !! ei_backrefKey idx key = Some e)
    /\ (cs_backfillPending cs' = false -> forall key vm, row_at m key vm -> sound_at m key -> covered_at m' key)
    /\ (reliable (DB := DB) -> ~ iter_failed (DB := DB) -> cs_backfillPending cs' = false).
Proof using Henv PL.
  intros Hm Hs Hmax Hclk Hop. pose proof (reconcile_spec m cs w Hm Hs) as Hp.
  destruct (reconcileFromMetadata _ _ _ _ cs w) as [cs' w'] eqn:E. eapply wp_run in Hp as (m' & []); [|exact E].
  exists m'. split_and!; auto. intros Hpend key vm Hr Hsd. apply sound_covered; [auto|]. apply (rc_cover0 Hmax Hop Hpend key vm).
  destruct Hr as (v & Ev & Eu). exists v. by rewrite rc_rows0.
Qed.


End Reconcile.
