(* ===== verification/CleanerSafe.v ===== *)
(** * The cleaner is safe whatever the index looks like

    Reference safety of the raw files under eviction, bucket cleanup and a whole tick
    of the cleanup loop, without any assumption on the eviction index. *)

From S2P Require Import Prelude Keys Errors Message Merge Wire Rocks World Files RangeReader Storage Wp Safety StorageSpec StorageProps LiveSize SizeProps Version Cas CasSpec Listing ListingProps DeleteBatch Eviction EvictionProps DiskLimit Cleaner TtlProps ReconcileProps.

Open Scope Z_scope.

#[local] Arguments has_prefix : simpl never.
#[local] Arguments apply_batch : simpl never.

Section CleanerSafe.

Context {DB SM : Type} {PB : Protobuf} {PL : ProtobufLaws} {RDB : RocksDB DB} {RL : RocksLaws DB}.
Context {SS : SegmentStore SM} (env : Env) (cfg : Config) (Henv : env_ok env cfg).
Context (closed : nat -> bool).
Implicit Types w : World DB SM.
Implicit Types m : gmap bytes bytes.

Lemma safe_frame w w' : frame w w' -> w_db w' = w_db w -> safe env cfg w -> safe env cfg w'.
Proof.
  intros F D (m & Hm & Hs). exists m. rewrite D. split; [done|]. by eapply ref_safe_quietly; [apply frame_quietly|].
Qed.

Section Evict.

Context (idx : evictionIndex) {Hidx : IndexOk idx}.

(** The staged batch deletes rows and index entries, and the files to reclaim are
    those of rows it deletes. *)
Record evict_safe (st : evict_state) w : Prop := {
  vs_ops : Forall del_op (es_batch st);
  vs_rep : exists m, represents (w_db w) m /\ ref_safe env cfg m (w_disk w) (w_tick w)
    /\ Forall (fun vm => exists key, key ∈ row_deletes (es_batch st) /\ row_at m key vm) (es_pendingFiles st)
}.

Lemma staged_files_safe m disk t ops vms :
  Forall del_op ops -> ref_safe env cfg m disk t ->
  Forall (fun vm => exists key, key ∈ row_deletes ops /\ row_at m key vm) vms ->
  Forall (fun vm => ValueType vm = RAW_FILE -> unreferenced (apply_batch m ops) (RawFilePath vm)
    /\ forall n, (t <= n)%nat -> RawFilePath vm <> path_of env cfg n) vms.
Proof.
  intros Ho Hs Hf. eapply Forall_impl; [exact Hf|]. intros vm (key & Hk & Hr) Ht.
  assert (raw_at m key (RawFilePath vm) (ValueLength vm)) as Hraw by by exists vm. split.
  - by eapply del_batch_unreferenced.
  - by eapply raw_not_future.
Qed.

Lemma commit_safe st w : evict_safe st w -> wp (commit env st) evict_safe w.
Proof using Henv.
  intros Hi. unfold commit. destruct (es_batch st) as [|op ops] eqn:Eb; [by apply wp_ret|].
  destruct Hi as [Ho (m & Hm & Hs & Hf)]. rewrite Eb in Ho, Hf.
  apply wp_bind. eapply wp_Write; [exact Hm|by apply plain_regular, del_op_plain|..].
  - intros e db Hdb. apply wp_ret. split; [by apply Forall_nil_2|]. exists m. by split_and!.
  - intros db Hdb. apply wp_bind. eapply (wp_stage_files env cfg Henv); [exact Hdb|]. intros q w' Hm' F Hq Hsafe. apply wp_ret.
    split; [by apply Forall_nil_2|]. eexists. split_and!; [exact Hm'| |by apply Forall_nil_2].
    eapply ref_safe_quietly; [by apply frame_quietly|]. apply Hsafe; [by apply del_batch_safe|by eapply staged_files_safe].
Qed.

Lemma evict_safe_frame st w w' m : frame w w' -> represents (w_db w) m -> represents (w_db w') m ->
  ref_safe env cfg m (w_disk w) (w_tick w) ->
  Forall del_op (es_batch st) -> Forall (fun vm => exists key, key ∈ row_deletes (es_batch st) /\ row_at m key vm) (es_pendingFiles st) ->
  evict_safe st w'.
Proof.
  intros F _ Hm' Hs Ho Hf. split; [done|]. exists m. split_and!; try done. by eapply ref_safe_quietly; [apply frame_quietly|].
Qed.

Lemma evict_entry_safe e st w :
  has_prefix (ei_prefix idx) e = true -> evict_safe st w -> wp (evict_entry env idx e st) evict_safe w.
Proof using Hidx.
  intros He [Ho (m & Hm & Hs & Hf)]. unfold evict_entry. destruct (ei_parseKey idx e) as [err|key]; [by apply wp_ret; split; [|exists m]|].
  destruct (key_ops_del idx key e He) as [Hdel _].
  assert (forall ops, Forall del_op ops -> forall w', frame w w' -> represents (w_db w') m -> evict_safe (stage ops st) w') as Hstage.
  { intros ops Hops w' F Hm'. apply (evict_safe_frame _ w w' m); try done; cbn [stage es_batch es_pendingFiles]; [by apply Forall_app|].
    eapply Forall_impl; [exact Hf|]. intros vm (k & Hk & Hr). exists k. split; [|done]. rewrite row_deletes_app. apply elem_of_app. by left. }
  assert (del_op (BDelete e)) as Hde by (right; cbn; by apply index_entry_quiet, (ix_entry (idx := idx))).
  assert (forall w', frame w w' -> represents (w_db w') m -> evict_safe st w') as Hsame.
  { intros w' F Hm'. by apply (evict_safe_frame _ w w' m). }
  apply wp_bind. eapply (wp_Get m); [exact Hm|intros err db Hdb; apply wp_ret, Hsame; auto with ocache|]. intros db Hdb.
  destruct (m !! MakeMetadataKey key) as [v|] eqn:Ev; [|apply wp_ret, Hstage; auto with ocache; by apply Forall_one].
  destruct (proto_Unmarshal v) as [vm|] eqn:Eu; [|apply wp_ret, Hstage; auto with ocache].
  apply wp_bind, wp_time_Now. assert (frame w (tick (set_db db w))) as F by (split; cbn; try done; lia).
  case_match; [by apply wp_ret, Hsame|]. apply wp_bind.
  eapply (wp_Get m); [exact Hdb|intros err db' Hdb'; apply wp_ret, Hsame; [by etrans; [|apply frame_set_db]|done]|]. intros db' Hdb'.
  assert (frame w (set_db db' (tick (set_db db w)))) as F' by by etrans; [|apply frame_set_db].
  case_match; apply wp_ret; [by apply Hstage; [apply Forall_one|..]|].
  apply (evict_safe_frame _ w _ m); try done; cbn [stage_key es_batch es_pendingFiles]; [by apply Forall_app|].
  apply Forall_app. split.
  - eapply Forall_impl; [exact Hf|]. intros vm' (k & Hk & Hr). exists k. split; [|done]. rewrite row_deletes_app. apply elem_of_app. by left.
  - apply Forall_one. exists key. split; [|by exists v]. change [BDelete (MakeMetadataKey key); BDelete e; BDelete (ei_backrefKey idx key)]
      with ([BDelete (MakeMetadataKey key)] ++ [BDelete e; BDelete (ei_backrefKey idx key)]).
    rewrite !row_deletes_app, row_deletes_meta. apply elem_of_app. right. left.
Qed.

Lemma evict_loop_safe targetBytes rows st w :
  Forall (fun r => has_prefix (ei_prefix idx) r.1 = true) rows -> evict_safe st w ->
  wp (evict_loop env closed idx targetBytes rows st) evict_safe w.
Proof using Henv Hidx.
  revert st w. induction rows as [|[e v] rows IH]; intros st w Hf Hi; cbn [evict_loop]; [by apply wp_ret|].
  apply Forall_cons in Hf as [He Hf]. apply wp_bind, wp_fun. cbn [fst snd closeCh].
  assert (evict_safe st (tick w)) as Hi1.
  { destruct Hi as [Ho (m & Hm & Hs & Hfl)]. apply (evict_safe_frame _ w _ m); try done. apply frame_tick. }
  case_match; [by apply wp_ret|]. apply wp_bind. eapply (wp_mono _ evict_safe); [case_match; [by apply commit_safe|by apply wp_ret]|].
  intros st1 w1 Hi2. case_match; [by apply wp_ret|]. apply wp_bind. eapply wp_mono; [by apply evict_entry_safe|]. intros st2 w2 Hi3.
  by apply IH.
Qed.

Lemma evictByIndex_safe targetBytes w :
  safe env cfg w -> wp (evictByIndex env closed idx targetBytes) (fun _ w' => safe env cfg w') w.
Proof using Henv Hidx.
  intros (m & Hm & Hs). unfold evictByIndex. apply wp_bind. eapply (wp_Iterate m); [exact Hm|]. intros l err tail db Hdb Hl Ht.
  apply wp_bind. eapply wp_mono.
  { apply evict_loop_safe; [apply Forall_forall; by intros r [_ Hr]%prefix_rows_sub|]. split; [by apply Forall_nil_2|]. by exists m. }
  intros st w1 Hi. unfold finalize. apply wp_bind. eapply wp_mono; [by apply commit_safe|]. intros st' w2 [_ (m2 & Hm2 & Hs2 & _)].
  apply wp_bind, wp_fun, wp_bind, wp_UpdateSize, wp_ret. by exists m2.
Qed.

End Evict.

(** ** Bucket cleanup *)

Lemma write_index_safe ops w :
  Forall index_op ops -> safe env cfg w -> wp (Write_ ops) (fun _ w' => safe env cfg w') w.
Proof.
  intros Ho (m & Hm & Hs). eapply (wp_Write m); [exact Hm|by apply plain_regular, index_op_plain|..].
  - intros e db Hdb. by exists m.
  - intros db Hdb. exists (apply_batch m ops). split; [done|]. by apply ref_safe_index.
Qed.

Lemma old_buckets_loop_safe cutoff rows batch w :
  Forall (fun r => has_prefix AccessBucketPrefix r.1 = true) rows -> Forall index_op batch -> safe env cfg w ->
  wp (old_buckets_loop cutoff rows batch) (fun batch' w' => Forall index_op batch' /\ safe env cfg w') w.
Proof.
  revert batch w. induction rows as [|[e v] rows IH]; intros batch w Hf Hb Hs; cbn [old_buckets_loop]; [by apply wp_ret|].
  apply Forall_cons in Hf as [He Hf]. case_match; [by apply wp_ret|].
  assert (Forall index_op (batch ++ [BDelete e])) as Hb'.
  { apply Forall_app. split; [done|]. apply Forall_one. cbn. apply index_entry_quiet. unfold is_index_entry. cbn in He. by rewrite He, orb_true_r. }
  case_match; [|by apply IH]. apply wp_bind. eapply wp_mono; [by apply write_index_safe|]. intros r w' Hw'. apply IH; [done|by apply Forall_nil_2|done].
Qed.

Lemma cleanupOldBuckets_safe olderThan w :
  safe env cfg w -> wp (cleanupOldBuckets env olderThan) (fun _ w' => safe env cfg w') w.
Proof.
  intros Hs. unfold cleanupOldBuckets. apply wp_bind, wp_time_Now, wp_bind. destruct Hs as (m & Hm & Hs).
  eapply (wp_Iterate m); [exact Hm|]. intros l err tail db Hdb Hl Ht. apply wp_bind. eapply wp_mono.
  { apply old_buckets_loop_safe; [apply Forall_forall; by intros r [_ Hr]%prefix_rows_sub|by apply Forall_nil_2|].
    exists m. split; [done|]. eapply ref_safe_quietly; [|exact Hs]. apply frame_quietly. split; cbn; try done. lia. }
  intros batch w' [Hb Hs']. destruct batch; [by apply wp_ret|]. apply wp_bind. eapply wp_mono; [by apply write_index_safe|].
  intros r w2 Hw2. by apply wp_ret.
Qed.

(** ** A tick of the loop *)

Context (fenceRetention : Z) (mtime : nat -> bytes -> Z) (statfs : nat -> option Statfs).

Lemma safe_tick w : safe env cfg w -> safe env cfg (tick w).
Proof. by apply safe_frame; [apply frame_tick|]. Qed.

Lemma reconcile_safe cs w :
  safe env cfg w -> wp (reconcileFromMetadata env cfg closed mtime cs) (fun _ w' => safe env cfg w') w.
Proof using Henv PL.
  intros (m & Hm & Hs). eapply wp_mono; [by apply (reconcile_spec env cfg Henv closed mtime m)|]. intros cs' w' (m' & []). by exists m'.
Qed.

Lemma cleanupExpiredKeys_safe w :
  safe env cfg w -> wp (cleanupExpiredKeys env cfg closed fenceRetention) (fun _ w' => safe env cfg w') w.
Proof using Henv PL.
  intros (m & Hm & Hs). eapply wp_mono; [by apply (cleanupExpiredKeys_spec env cfg Henv closed fenceRetention m)|].
  intros cs' w' (m' & []). by exists m'.
Qed.

Lemma enforceDiskLimit_safe w : safe env cfg w -> wp (enforceDiskLimit env cfg closed) (fun _ w' => safe env cfg w') w.
Proof using Henv.
  intros Hs. unfold enforceDiskLimit. apply wp_bind, wp_fun. cbn [fst snd load_size]. case_match; [by apply wp_ret|].
  apply wp_bind. eapply wp_mono; [by apply (evictByIndex_safe (active_index cfg))|]. intros r w' Hw'. by apply wp_ret.
Qed.

Lemma enforceFilesystemReserve_safe w :
  safe env cfg w -> wp (enforceFilesystemReserve env cfg closed statfs) (fun _ w' => safe env cfg w') w.
Proof using Henv.
  intros Hs. unfold enforceFilesystemReserve. case_match; [by apply wp_ret|]. apply wp_bind, wp_fun. cbn [fst snd diskUsageFn].
  apply safe_tick in Hs. destruct (diskUsage _) as [[free total]|]; [|by apply wp_ret]. case_match; [by apply wp_ret|].
  apply wp_bind, wp_fun. cbn [fst snd load_size]. apply wp_bind. eapply wp_mono; [by apply (evictByIndex_safe (active_index cfg))|].
  intros r w' Hw'. by apply wp_ret.
Qed.

Lemma cleanup_tick_safe cs w :
  safe env cfg w -> wp (cleanup_tick env cfg closed fenceRetention mtime statfs cs) (fun _ w' => safe env cfg w') w.
Proof using Henv PL.
  intros Hs. unfold cleanup_tick. apply wp_bind. eapply (wp_mono _ (fun _ w' => safe env cfg w')).
  { case_match; [by apply wp_ret|]. by apply wp_bind, wp_time_Now, wp_ret, safe_tick. }
  clear w Hs. intros due w Hs. apply wp_bind. eapply (wp_mono _ (fun _ w' => safe env cfg w')).
  { case_match; [|by apply wp_ret]. apply wp_bind. eapply wp_mono; [by apply reconcile_safe|]. intros cs' w' Hw'.
    by apply wp_bind, wp_time_Now, wp_ret, safe_tick. }
  clear w Hs. intros cs' w Hs. apply wp_bind. eapply (wp_mono _ (fun _ w' => safe env cfg w')); [by apply cleanupExpiredKeys_safe|].
  intros ? w1 Hs1. apply wp_bind. eapply (wp_mono _ (fun _ w' => safe env cfg w')).
  { case_match; [|by apply wp_ret]. apply wp_bind. eapply wp_mono; [by apply enforceDiskLimit_safe|]. intros ? w' Hw'.
    by apply enforceFilesystemReserve_safe. }
  intros ? w2 Hs2. case_match; [by apply wp_ret|]. apply wp_bind, wp_time_Now. apply safe_tick in Hs2.
  case_match; [|by apply wp_ret]. apply wp_bind. eapply wp_mono; [by apply cleanupOldBuckets_safe|].
  intros ? w' Hw'. by apply wp_bind, wp_time_Now, wp_ret, safe_tick.
Qed.

Lemma Start_safe w : safe env cfg w -> wp (Start env cfg closed mtime) (fun _ w' => safe env cfg w') w.
Proof using Henv PL.
  intros Hs. unfold Start. apply wp_bind. eapply wp_mono; [by apply reconcile_safe|]. intros cs' w' Hw'.
  by apply wp_bind, wp_time_Now, wp_bind, wp_time_Now, wp_ret, safe_tick, safe_tick.
Qed.

End CleanerSafe.
