(* ===== verification/TraceProps.v ===== *)
(** * Sequences of engine operations

    Plain and conditional operations, reads, the deletion worker and the cleaner in any order,
    under any failures: no live value ever loses its file. *)

From S2P Require Import Prelude Version Keys Errors Message Merge Wire Rocks World Files RangeReader Storage Wp Safety StorageSpec StorageProps LiveSize SizeProps Cas CasSpec Eviction Cleaner CleanerSafe.

Open Scope Z_scope.

#[local] Arguments has_prefix : simpl never.
#[local] Arguments crc32 : simpl never.

Section Trace.

Context {DB SM : Type} {PB : Protobuf} {PL : ProtobufLaws} {RDB : RocksDB DB} {RL : RocksLaws DB}.
Context {SS : SegmentStore SM} (env : Env) (cfg : Config) (Henv : env_ok env cfg).
Context (init_ok : proto_Marshal (tombstone 0) = Some expiredSentinel).
Context (retryDelay : Z) (retry_i64 : forall n, is_i64 (env_now env n + retryDelay)).
Context (closed : nat -> bool) (fenceRetention : Z) (mtime : nat -> bytes -> Z) (statfs : nat -> option Statfs).
Implicit Types w : World DB SM.
Implicit Types m : gmap bytes bytes.

Lemma GetWithVersion_safe key w :
  safe env cfg w -> wp (GetWithVersion env cfg key) (fun _ w' => safe env cfg w') w.
Proof using.
  intros (m & Hm & Hs). unfold GetWithVersion.
  assert (forall w', quietly w w' -> represents (w_db w') m -> safe env cfg w') as Hsafe.
  { intros w' Q Hm'. exists m. split; [done|]. by eapply ref_safe_quietly. }
  apply wp_bind. eapply wp_readRowForCAS; [exact Hm|intros; by apply wp_ret, Hsafe|].
  intros db Hdb _. apply wp_bind, wp_casClassify. intros w1 F1 D1.
  assert (quietly w w1) as Q1 by by destruct F1. assert (represents (w_db w1) m) as Hm1 by by rewrite D1.
  assert (forall st cur, wp (token ← absenceToken env st cur;
        match token with
        | inl err => mret (inl (NewInternalError "GetWithVersion" err))
        | inr t => mret (inr (None, t, false))
        end) (fun (_ : error + option bytes * Z * bool) w' => safe env cfg w') w1) as Habs.
  { intros st cur. apply wp_bind.
    assert (wp (nextVersion env) (fun _ w' => safe env cfg w') w1) as Hn.
    { eapply wp_nextVersion; [exact Hm1|..].
      - intros e w' Hm' C _. apply Hsafe; [|done]. destruct C, Q1. split; [congruence|lia].
      - intros ops w' Hm' Ho C _. eexists. split; [exact Hm'|]. apply ref_safe_index; [|done].
        eapply ref_safe_quietly; [|exact Hs]. destruct C, Q1. split; [congruence|lia]. }
    destruct st; cbn [absenceToken]; [|apply wp_ret, wp_ret; by apply Hsafe|];
      (eapply wp_mono; [exact Hn|]; intros [|] w' Hw'; exact Hw'). }
  destruct (classify_at _ _) as [[] cur]; [apply Habs..|].
  destruct (row_of m key) as [vm|]; [|apply Habs].
  apply wp_bind, wp_refresh_access. intros w2 Q2 D2 _.
  assert (represents (w_db w2) m) as Hm2 by by rewrite D2.
  assert (quietly w w2) as Q2' by (destruct Q1, Q2; split; [congruence|lia]).
  destruct (ValueType vm =? INLINE); [by apply wp_ret, Hsafe|]. destruct (ValueType vm =? SEGMENT).
  { apply wp_bind, wp_fun. unfold on_sm. destruct (sm_ReadEntry _ _ _ _ _) as [[|[]] sm]; cbn;
      by apply wp_ret, Hsafe. }
  destruct (ValueType vm =? RAW_FILE); [|by apply wp_ret, Hsafe].
  apply wp_bind. eapply wp_mono; [apply fm_Read_quiet|]. intros r w3 [Q3 D3].
  assert (represents (w_db w3) m) as Hm3 by by rewrite D3.
  assert (quietly w w3) as Q3' by (destruct Q2', Q3; split; [congruence|lia]).
  repeat case_match; by apply wp_ret, Hsafe.
Qed.

(** ** Commands *)

Inductive command :=
  | CPut (key : bytes) (body : Body) (ttl : Z)
  | CDelete (key : bytes)
  | CGet (key : bytes) (start end_ : Z)
  | CGetWithVersion (key : bytes)
  | CPutIfVersion (key : bytes) (body : Body) (ttl expected : Z)
  | CDeleteIfVersion (key : bytes) (expected : Z)
  | CProcessQueue (batchSize : nat)
  | CPrune (pruneAge : Z)
  | CStart
  | CTick (cs : cleaner_state).

Definition run (c : command) w : World DB SM :=
  match c with
  | CPut key body ttl => (Put env cfg key body ttl w).2
  | CDelete key => (DeleteKey env cfg key w).2
  | CGet key start end_ => (Get env cfg key start end_ w).2
  | CGetWithVersion key => (GetWithVersion env cfg key w).2
  | CPutIfVersion key body ttl expected => (PutIfVersion env cfg key body ttl expected w).2
  | CDeleteIfVersion key expected => (DeleteIfVersion env cfg key expected w).2
  | CProcessQueue n => (ProcessBatch env n retryDelay w).2
  | CPrune age => (pruneOldEntries env age w).2
  | CStart => (Start env cfg closed mtime w).2
  | CTick cs => (cleanup_tick env cfg closed fenceRetention mtime statfs cs w).2
  end.

(** The arguments are in the range of their types, and stamps are not exhausted. *)
Definition command_ok (c : command) w : Prop :=
  match c with
  | CPut _ body _ => slen (b_data body) < two63
  | CPutIfVersion _ body _ expected => slen (b_data body) < two63 /\ is_u64 expected /\ stamp_room w
  | CDeleteIfVersion _ expected => is_u64 expected /\ stamp_room w
  | _ => True
  end.

Fixpoint run_all (cs : list command) w : World DB SM :=
  match cs with [] => w | c :: cs => run_all cs (run c w) end.

Fixpoint trace_ok (cs : list command) w : Prop :=
  match cs with [] => True | c :: cs => command_ok c w /\ trace_ok cs (run c w) end.

Lemma run_safe c w : command_ok c w -> safe env cfg w -> safe env cfg (run c w).
Proof using Henv PL init_ok retry_i64.
  intros Hc (m & Hm & Hs). destruct c as [key body ttl|key|key start end_|key|key body ttl expected|key expected|n|age| |cs]; cbn in *.
  - destruct (Put_spec env cfg Henv m key body ttl w Hm Hs Hc) as [(m' & H1 & H2 & _) _]. by exists m'.
  - destruct (DeleteKey_spec env cfg Henv m key w Hm Hs) as (m' & H1 & H2 & _). by exists m'.
  - apply (wp_bind (get_value env cfg key) _ (fun _ w' => safe env cfg w') w).
    eapply wp_mono; [by apply (get_value_safe env cfg m)|]. intros r w' Hsafe. done.
  - apply GetWithVersion_safe. by exists m.
  - destruct Hc as (H1 & H2 & H3).
    destruct (PutIfVersion_spec env cfg Henv m key body ttl expected w Hm Hs H1 H2 H3) as (m' & G1 & G2 & _). by exists m'.
  - destruct Hc as (H1 & H2).
    destruct (DeleteIfVersion_spec env cfg Henv init_ok m key expected w Hm Hs H1 H2) as (m' & G1 & G2 & _). by exists m'.
  - apply ProcessBatch_safe; try done. by exists m.
  - apply pruneOldEntries_safe. by exists m.
  - apply (Start_safe env cfg Henv closed mtime w). by exists m.
  - apply (cleanup_tick_safe env cfg Henv closed fenceRetention mtime statfs cs w). by exists m.
Qed.

Lemma run_all_safe cs w : trace_ok cs w -> safe env cfg w -> safe env cfg (run_all cs w).
Proof using Henv PL init_ok retry_i64.
  revert w. induction cs as [|c cs IH]; intros w; cbn; [done|]. intros [Hc Ht] Hs. apply IH; [done|].
  by apply run_safe.
Qed.

(** C1: live data is never deleted. From a consistent store, any sequence of puts,
    overwrites, deletes, conditional puts and deletes, reads (with their purge of
    dangling rows), deletion-queue batches and prunes, starts and ticks of the cleaner
    (reconciliation, orphan sweep, TTL sweep, eviction, bucket cleanup), under any
    failures of the store, of the file system and of the locks, leaves a store in which every row of
    type RAW_FILE still has its file on disk, with exactly the recorded length; the
    file belongs to that row alone and is not queued for deletion. *)
Theorem raw_files_stay_referenced cs w :
  trace_ok cs w -> safe env cfg w ->
  exists m, represents (w_db (run_all cs w)) m /\
    forall key vm, row_at m key vm -> ValueType vm = RAW_FILE ->
      (exists content, w_disk (run_all cs w) !! RawFilePath vm = Some content
         /\ slen content = ValueLength vm)
      /\ (forall key' vm', row_at m key' vm' -> ValueType vm' = RAW_FILE ->
            RawFilePath vm' = RawFilePath vm -> key' = key)
      /\ (forall ts, is_i64 ts -> m !! MakeDeletionQueueKey ts (RawFilePath vm) = None).
Proof using Henv PL init_ok retry_i64.
  intros Hc Hs. destruct (run_all_safe cs w Hc Hs) as (m & Hm & Hrs).
  exists m. split; [done|]. intros key vm Hrow Ht.
  assert (raw_at m key (RawFilePath vm) (ValueLength vm)) as Hr by by exists vm.
  split_and!.
  - by apply (rs_file _ _ _ _ _ Hrs key).
  - intros key' vm' Hrow' Ht' E. eapply (rs_uniq _ _ _ _ _ Hrs); [|exact Hr]. exists vm'. by rewrite E.
  - intros ts Hts. destruct (m !! _) as [v|] eqn:Ev; [|done]. exfalso.
    destruct (rs_queue _ _ _ _ _ Hrs _ _ Ev (queue_key_prefix _ _)) as (ts' & p & H1 & H2 & H3 & _).
    apply queue_key_inj in H2 as [_ <-]; [|done..]. by eapply H3.
Qed.

End Trace.
