(* ===== verification/StorageWitnesses.v ===== *)
(** * Concrete runs of the storage engine

    A store whose reads succeed and whose writes fail on schedule, a fixed
    environment and a small configuration. Each witness applies a theorem of the
    storage, size, CAS or trace files to a run of the engine on them. *)

From S2P Require Import Prelude Version Keys Errors Message Merge ProtoInstance Wire Rocks RocksInstances World Files RangeReader Storage Wp Safety StorageSpec StorageProps LiveSize SizeProps Cas CasSpec CasProps Rely Listing ListingProps DeleteBatch Eviction EvictionProps DiskLimit Cleaner TtlProps ReconcileProps CleanerSafe TraceProps.

Open Scope Z_scope.

(** ** A store with failing writes *)

Record Journal := MkJournal { j_rows : gmap bytes bytes; j_faults : list (option error) }.

Definition journal_write (ops : list batch_op) : ST Journal (option error) := fun db =>
  match j_faults db with
  | Some e :: fs => (Some e, MkJournal (j_rows db) fs)
  | None :: fs => (None, MkJournal (apply_batch (j_rows db) ops) fs)
  | [] => (None, MkJournal (apply_batch (j_rows db) ops) [])
  end.

#[export] Instance journal_rocks : RocksDB Journal :=
  {| db_Get k db := (inr (j_rows db !! k), db);
     db_Write := journal_write;
     db_Iterate seek db := ((rows_from seek (j_rows db), None), db) |}.

(** Stores whose remaining schedule satisfies [P], a property of suffixes. *)
Definition journal_laws_of (P : list (option error) -> Prop) (tl : forall f fs, P (f :: fs) -> P fs) :
  RocksLaws Journal.
Proof.
  refine {| represents db m := j_rows db = m /\ P (j_faults db) |}; cbn.
  - intros k db m r db' [<- Hp] [= <- <-]. split; [done|]. by intros v [= <-].
  - intros ops db m db' [<- Hp] E _. unfold journal_write in E.
    destruct (j_faults db) as [|[e|] fs]; simplify_eq; cbn; eauto.
  - intros ops db m e db' [<- Hp] E. unfold journal_write in E.
    destruct (j_faults db) as [|[e'|] fs]; simplify_eq; cbn; eauto.
  - intros seek db m l err db' [<- Hp] [= <- <- <-]. split; [done|]. exists []. by rewrite app_nil_r.
Defined.

#[export] Instance journal_laws : RocksLaws Journal := journal_laws_of (fun _ => True) (fun _ _ _ => I).

(** The same without write failures. *)
Definition reliable_laws : RocksLaws Journal.
Proof. refine (journal_laws_of (fun fs => fs = []) _). by intros f fs E. Defined.

Lemma journal_reads : ~ read_failed (DB := Journal).
Proof. by intros (k & db & m & e & db' & _ & E). Qed.

Lemma reliable_reads : ~ read_failed (DB := Journal) (RL := reliable_laws).
Proof. by intros (k & db & m & e & db' & _ & E). Qed.

Lemma reliable_writes : ~ write_failed (DB := Journal) (RL := reliable_laws).
Proof.
  intros (ops & db & m & e & db' & [_ Hf] & E). cbn in *. unfold journal_write in E. rewrite Hf in E. by simplify_eq.
Qed.

(** ** Environment and configuration *)

#[export] Instance no_segments : SegmentStore unit :=
  {| sm_ReadEntry _ _ _ _ w := (inr None, w) |}.

(** File names are runs of one letter, distinct for distinct draws. *)
Fixpoint name_of (n : nat) : bytes :=
  match n with O => EmptyString | S n => String "a"%char (name_of n) end.

Definition w_env : Env :=
  MkEnv (fun _ => 1700000000000000000) name_of (fun _ => None) (fun _ _ => false) (fun _ => 0).

Definition w_cfg : Config := MkConfig 4 0 10 1000 EvictionPolicyFIFO "/d".

Lemma name_of_inj a b : name_of a = name_of b -> a = b.
Proof. revert b. induction a as [|a IH]; intros [|b] E; cbn in E; simplify_eq; auto. Qed.

Lemma w_env_ok : env_ok w_env w_cfg.
Proof.
  split.
  - intros n. cbn. unfold is_i64, two63. lia.
  - intros a b. apply name_of_inj.
  - intros n. assert (utf8_valid (name_of n) = true) as E by (by induction n). cbn. exact E.
  - cbn. lia.
Qed.

Definition w_world (rows : gmap bytes bytes) (faults : list (option error)) (size : Z) : World Journal unit :=
  MkWorld (MkJournal rows faults) tt ∅ 0 size 0 0 ∅ [] 0 0.

Definition w_empty : World Journal unit := w_world ∅ [] 0.

Lemma ref_safe_empty t : ref_safe w_env w_cfg ∅ ∅ t.
Proof.
  assert (forall key path len, ~ raw_at ∅ key path len) as Hn.
  { intros key path len (vm & (v & E & _) & _). by rewrite lookup_empty in E. }
  split.
  - by intros key path len H%Hn.
  - by intros k1 k2 path l1 l2 H%Hn.
  - intros k v E. by rewrite lookup_empty in E.
  - intros n _ key len H. by eapply Hn.
  - intros k e E. by rewrite lookup_empty in E.
  - intros n _. by rewrite lookup_empty.
Qed.

Lemma backrefs_empty : backrefs_ok ∅.
Proof. intros k e E. by rewrite lookup_empty in E. Qed.

Lemma run_fst {A B} (c : A * B) a : c.1 = a -> c = (a, c.2).
Proof. destruct c. by intros [= <-]. Qed.

(** Runs a closed command to its result. *)
Ltac runs := apply run_fst; vm_compute; reflexivity.

Definition w_body : Body := MkBody "hello world" None.

(** Reads what [Get] returned to the end, four bytes at a time. *)
Definition w_drain (r : error + option value_reader) : option (bytes * read_end) :=
  match r with
  | inr (Some rd) => let '(chunks, e) := read_chunks (fun _ => 3%nat) (replicate 20 4%nat) rd in Some (sconcat chunks, e)
  | _ => None
  end.

Definition w_got (start end_ : Z) := Get w_env w_cfg "k" start end_ (Put w_env w_cfg "k" w_body 0 w_empty).2.

Lemma put_get_roundtrip_witness :
  w_drain (w_got 6 10).1 = Some ("world"%string, AtEOF)
  /\ (exists rd, (w_got 6 10).1 = inr (Some rd) /\ reads_as rd "hello world" 6 10)
  /\ w_drain (w_got 6 (two63 - 1)).1 = Some (EmptyString, AtPanic).
Proof.
  split; [vm_compute; reflexivity|]. split; [|vm_compute; reflexivity].
  destruct (put_get_roundtrip w_env w_cfg w_env_ok ∅ "k" w_body 0 6 10 w_empty
    (Put w_env w_cfg "k" w_body 0 w_empty).2 (w_got 6 10).1 (w_got 6 10).2) as [_ H].
  - by split.
  - apply ref_safe_empty.
  - vm_compute. reflexivity.
  - vm_compute. split; [discriminate|reflexivity].
  - vm_compute. split; [discriminate|reflexivity].
  - runs.
  - apply surjective_pairing.
  - assert ((w_got 6 10).1 = inr (Some (get_reader "hello world" 6 10))) as E by (vm_compute; reflexivity).
    rewrite E in *. eexists. split; [reflexivity|exact H].
Defined.

(** The disk is full: opening the new file fails with ENOSPC. *)
Definition full_env : Env :=
  MkEnv (env_now w_env) (env_uuid w_env) (fun _ => Some ENOSPC) (env_locked w_env) (env_tz w_env).

Lemma Put_never_reports_storage_full_witness :
  exists e, (Put full_env w_cfg "k" w_body 0 w_empty).1 = Some e /\ IsStorageFull e = false.
Proof.
  eexists. split; [vm_compute; reflexivity|].
  eapply (Put_never_reports_storage_full full_env w_cfg "k" w_body 0 w_empty
    _ (Put full_env w_cfg "k" w_body 0 w_empty).2). runs.
Defined.

(** ** The size counter *)

Definition w_writes : list write_command :=
  [WPut "a" w_body 0; WPut "b" (MkBody "xy" None) 0; WPut "a" (MkBody "0123456789ab" None) 0; WDelete "b"].

Lemma size_counter_exact_witness :
  w_size (exec_all w_env w_cfg w_writes w_empty).2 = 12
  /\ exists m', represents (w_db (exec_all w_env w_cfg w_writes w_empty).2) m'
    /\ w_size (exec_all w_env w_cfg w_writes w_empty).2 = i64 (live_size m').
Proof.
  split; [vm_compute; reflexivity|].
  apply (size_counter_exact w_env w_cfg w_env_ok w_writes w_empty
    (exec_all w_env w_cfg w_writes w_empty).1 (exec_all w_env w_cfg w_writes w_empty).2 ∅).
  - apply journal_reads.
  - repeat (apply Forall_cons; split); try apply Forall_nil_2; vm_compute; reflexivity || exact I.
  - apply surjective_pairing.
  - vm_compute. repeat constructor.
  - by split.
  - apply backrefs_empty.
  - reflexivity.
Defined.

(** One inline row of five bytes, and a store that fails the first write. *)
Definition w_vm : ValueMessage := MkVM INLINE "12345" 0 "" "" 0 5 0 0 0 0.
Definition w_rows : gmap bytes bytes := {[ MakeMetadataKey "k" := enc_message w_vm ]}.
Definition w_failing : World Journal unit := w_world w_rows [Some (EText "disk I/O error")] 5.

Lemma w_rows_backrefs : backrefs_ok w_rows.
Proof. unfold w_rows. intros k e E Hk. apply lookup_singleton_Some in E as [<- <-]. discriminate Hk. Qed.

Lemma failed_delete_skews_counter_witness :
  (exists e, (DeleteKey w_env w_cfg "k" w_failing).1 = Some e)
  /\ represents (w_db (DeleteKey w_env w_cfg "k" w_failing).2) w_rows
  /\ w_size (DeleteKey w_env w_cfg "k" w_failing).2 = i64 (live_size w_rows - ValueLength w_vm).
Proof.
  split; [eexists; vm_compute; reflexivity|].
  eapply (failed_delete_skews_counter w_env w_cfg w_env_ok w_rows "k" w_vm w_failing
    _ (DeleteKey w_env w_cfg "k" w_failing).2).
  - apply journal_reads.
  - by split.
  - apply w_rows_backrefs.
  - exists (enc_message w_vm). split; vm_compute; reflexivity.
  - vm_compute. reflexivity.
  - runs.
Defined.

Definition w_stored : World Journal unit := w_world w_rows [] 5.

Lemma delete_get_absent_witness :
  (Get w_env w_cfg "k" 0 0 (DeleteKey w_env w_cfg "k" w_stored).2).1 = inr None
  /\ exists m', represents (w_db (DeleteKey w_env w_cfg "k" w_stored).2) m'
     /\ m' !! MakeMetadataKey "k" = None /\ other_rows w_rows m' "k".
Proof.
  destruct (delete_get_absent w_env w_cfg w_env_ok w_rows "k" w_stored
    (DeleteKey w_env w_cfg "k" w_stored).2 0 0
    (Get w_env w_cfg "k" 0 0 (DeleteKey w_env w_cfg "k" w_stored).2).1
    (Get w_env w_cfg "k" 0 0 (DeleteKey w_env w_cfg "k" w_stored).2).2) as [_ H2].
  - by split.
  - apply w_rows_backrefs.
  - runs.
  - apply surjective_pairing.
  - split; [vm_compute; reflexivity|exact H2].
Defined.

(** ** Conditional operations *)

Lemma w_room rows faults size : stamp_room (w_world rows faults size).
Proof. split; cbn; [lia|reflexivity]. Qed.

Definition w_first : World Journal unit := (PutIfVersion w_env w_cfg "k" w_body 0 0 w_empty).2.

Lemma cas_put_get_roundtrip_witness :
  (PutIfVersion w_env w_cfg "k" w_body 0 0 w_empty).1 = inr 1700000000000000000
  /\ (GetWithVersion w_env w_cfg "k" w_first).1 = inr (Some "hello world"%string, 1700000000000000000, true)
  /\ "hello world"%string = b_data w_body.
Proof.
  split; [vm_compute; reflexivity|]. split; [vm_compute; reflexivity|].
  apply (cas_put_get_roundtrip w_env w_cfg w_env_ok ∅ "k" w_body 0 0 w_empty 1700000000000000000 w_first
    (inr (Some "hello world"%string, 1700000000000000000, true)) (GetWithVersion w_env w_cfg "k" w_first).2).
  - by split.
  - apply ref_safe_empty.
  - vm_compute. reflexivity.
  - vm_compute. split; [discriminate|reflexivity].
  - apply w_room.
  - unfold w_first. runs.
  - runs.
Defined.

Lemma cas_put_iff_admitted_witness :
  exists v, (PutIfVersion w_env w_cfg "k" w_body 0 0 w_empty).1 = inr v /\ 0 < v.
Proof.
  refine (cas_put_iff_admitted (RL := reliable_laws) w_env w_cfg w_env_ok _ ∅ "k" w_body 0 0 w_empty
    (PutIfVersion w_env w_cfg "k" w_body 0 0 w_empty).1 (PutIfVersion w_env w_cfg "k" w_body 0 0 w_empty).2
    _ _ _ _ _ _ _ _ _).
  - intros a b _. apply Z.le_refl.
  - by split.
  - apply ref_safe_empty.
  - vm_compute. reflexivity.
  - vm_compute. split; [discriminate|reflexivity].
  - apply w_room.
  - intros [Hf|[Hf|(v & E & _)]]; [by apply reliable_reads|by apply reliable_writes|done].
  - by intros (n & e & E).
  - reflexivity.
  - apply surjective_pairing.
Defined.

Lemma delete_fences_older_tokens_witness :
  exists t, 0 < t
    /\ (forall r w2, GetWithVersion w_env w_cfg "k" (DeleteIfVersion w_env w_cfg "k" 0 w_empty).2 = (r, w2) ->
          r = inr (None, t, false) \/ (exists e, r = inl e) /\ read_failed (DB := Journal))
    /\ (forall body ttl old r w2, 0 < old < t ->
          PutIfVersion w_env w_cfg "k" body ttl old (DeleteIfVersion w_env w_cfg "k" 0 w_empty).2 = (r, w2) ->
          r = inl (NewVersionMismatchError "PutIfVersion" "k" t)
          \/ (exists e, r = inl e) /\ read_failed (DB := Journal)).
Proof.
  apply (delete_fences_older_tokens w_env w_cfg w_env_ok codec_init_ok ∅ "k" 0 w_empty).
  - by split.
  - apply ref_safe_empty.
  - vm_compute. split; [discriminate|reflexivity].
  - apply w_room.
  - runs.
Defined.

(** The key holds an empty value put without TTL. *)
Definition w_empty_row : gmap bytes bytes := {[ MakeMetadataKey "k" := EmptyString ]}.

Lemma w_empty_row_safe : ref_safe w_env w_cfg w_empty_row ∅ 0.
Proof.
  change w_empty_row with (<[MakeMetadataKey "k" := EmptyString]> (∅ : gmap bytes bytes)).
  apply ref_safe_put; [apply ref_safe_empty|]. intros vm E. vm_compute in E. injection E as <-. discriminate.
Qed.

Lemma empty_value_delete_reports_mismatch_witness :
  (DeleteIfVersion w_env w_cfg "k" VersionLegacy (w_world w_empty_row [] 0)).1
    = Some (NewVersionMismatchError "DeleteIfVersion" "k" 0)
  /\ exists m', represents (RocksLaws := reliable_laws)
       (w_db (DeleteIfVersion w_env w_cfg "k" VersionLegacy (w_world w_empty_row [] 0)).2) m'
     /\ row_of m' "k" = Some (tombstone 0).
Proof.
  apply (empty_value_delete_reports_mismatch (RL := reliable_laws) w_env w_cfg w_env_ok codec_init_ok w_empty_row "k"
    (w_world w_empty_row [] 0)).
  - by split.
  - apply w_empty_row_safe.
  - apply w_room.
  - intros [Hf|[Hf|(v & E & Eu)]]; [by apply reliable_reads|by apply reliable_writes|].
    vm_compute in E. injection E as <-. discriminate Eu.
  - reflexivity.
  - apply surjective_pairing.
Defined.

(** ** A trace with every kind of command *)

Definition w_open : nat -> bool := fun _ => false.
Definition w_mtime : nat -> bytes -> Z := fun _ _ => 0.
Definition w_statfs : nat -> option Statfs := fun _ => None.

Definition w_trace : list command :=
  [CPut "a" w_body 0; CPutIfVersion "b" w_body 0 0; CGetWithVersion "b"; CPut "a" (MkBody "other value" None) 0;
   CDeleteIfVersion "b" 1700000000000000000; CProcessQueue 10; CGet "a" 0 0; CPrune 0; CStart; CDelete "c";
   CTick (MkCleaner true 0 None 0)].

Lemma raw_files_stay_referenced_witness :
  size (w_disk (run_all w_env w_cfg 1000000000 w_open 21600000000000 w_mtime w_statfs w_trace w_empty)) = 1%nat
  /\ exists m, represents (w_db (run_all w_env w_cfg 1000000000 w_open 21600000000000 w_mtime w_statfs w_trace w_empty)) m /\
    forall key vm, row_at m key vm -> ValueType vm = RAW_FILE ->
      (exists content, w_disk (run_all w_env w_cfg 1000000000 w_open 21600000000000 w_mtime w_statfs w_trace w_empty) !! RawFilePath vm = Some content
         /\ slen content = ValueLength vm)
      /\ (forall key' vm', row_at m key' vm' -> ValueType vm' = RAW_FILE ->
            RawFilePath vm' = RawFilePath vm -> key' = key)
      /\ (forall ts, is_i64 ts -> m !! MakeDeletionQueueKey ts (RawFilePath vm) = None).
Proof.
  split; [vm_compute; reflexivity|].
  apply (raw_files_stay_referenced w_env w_cfg w_env_ok codec_init_ok 1000000000 ltac:(intros n; cbn; unfold is_i64, two63; lia) w_open 21600000000000 w_mtime w_statfs).
  - vm_compute. repeat split; discriminate.
  - exists ∅. split; [by split|apply ref_safe_empty].
Defined.

(** ** Lazy merges *)

Definition lazy_store : Stacked := MkStacked ∅ [[]; []; [("!meta/k", 1%nat)]].

Definition lazy_batches : list (list batch_op) :=
  [[BPut "!meta/k" (enc_message w_vm)];
   [BMerge "!meta/k" (enc_message (MkVM INLINE "y" 0 "" "" 0 1 8 9 META_OP_CAS_PUT 1))];
   [BMerge "!meta/k" (enc_message (MkVM INLINE "z" 0 "" "" 0 1 8 10 META_OP_CAS_PUT 9))]].

Lemma lazy_merge_refines_eager_witness :
  fst (stacked_get "!meta/k" (write_all lazy_batches lazy_store))
  = inr (fold_left apply_batch lazy_batches (∅ : gmap bytes bytes) !! "!meta/k"%string).
Proof.
  apply (lazy_merge_refines_eager codec_init_ok lazy_batches lazy_store ∅).
  - intros k. cbn. by rewrite !lookup_empty.
  - cbn [lazy_batches batches_regular batch_regular op_regular apply_batch fold_left]. split_and!; try exact I.
    + intros _ _. split; [|vm_compute; discriminate].
      intros (op & E & T & _). vm_compute in E. injection E as <-. discriminate T.
    + intros _ _. split; [|vm_compute; discriminate].
      intros (op & E & T & _). vm_compute in E. injection E as <-. discriminate T.
Defined.

(** ** A store shared with another writer *)

(** The batches the other writer commits, one before each call. *)
Record Shared := MkShared { sh_rows : gmap bytes bytes; sh_others : list (list batch_op) }.

Definition interfere (db : Shared) : Shared :=
  match sh_others db with
  | [] => db
  | ops :: rest => MkShared (apply_batch (sh_rows db) ops) rest
  end.

#[export] Instance shared_rocks : RocksDB Shared :=
  {| db_Get k db := let db := interfere db in (inr (sh_rows db !! k), db);
     db_Write ops db := let db := interfere db in (None, MkShared (apply_batch (sh_rows db) ops) (sh_others db));
     db_Iterate seek db := let db := interfere db in ((rows_from seek (sh_rows db), None), db) |}.

Definition w_stamp : Z := 1700000000000000000.

(** The other writer never stores the stamp [w_stamp] at the key "k". *)
Definition foreign_op (op : batch_op) : Prop :=
  match op with
  | BPut k v => k = MakeMetadataKey "k" ->
      exists vm, proto_Unmarshal v = Some vm /\ vm <> vm_zero /\ Version vm <> w_stamp
  | BDelete _ => True
  | BMerge k _ => k <> MakeMetadataKey "k"
  end.

Definition foreign (a b : gmap bytes bytes) : Prop :=
  exists ops, Forall foreign_op ops /\ b = apply_batch a ops.

Definition shared_laws : RelyLaws Shared foreign.
Proof.
  assert (forall db, Forall (Forall foreign_op) (sh_others db) ->
    foreign (sh_rows db) (sh_rows (interfere db)) /\ Forall (Forall foreign_op) (sh_others (interfere db))) as K.
  { intros [rows others] Hf. unfold interfere. cbn in *. destruct Hf as [|ops rest Ho Hr]; cbn.
    - split; [exists []; split; [by apply Forall_nil_2|done]|by apply Forall_nil_2].
    - split; [by exists ops|done]. }
  refine {| holds db m := sh_rows db = m /\ Forall (Forall foreign_op) (sh_others db) |}; cbn.
  - intros k db m r db' [<- Hf] [= <- <-]. destruct (K db Hf). eexists. split; [done|]. split; [by split|].
    by intros v [= <-].
  - intros ops db m db' [<- Hf] [= <-]. destruct (K db Hf). eexists. split; [done|]. by split.
  - intros ops db m e db' _ E. discriminate E.
Defined.

Lemma foreign_row ops m :
  Forall foreign_op ops -> let r := apply_batch m ops !! MakeMetadataKey "k" in
  r = m !! MakeMetadataKey "k" \/ r = None
  \/ exists v vm, r = Some v /\ proto_Unmarshal v = Some vm /\ vm <> vm_zero /\ Version vm <> w_stamp.
Proof.
  intros Hf. revert m. induction Hf as [|op ops Ho Hf IH]; intros m; [by left|].
  cbn. fold (apply_batch (apply_op m op) ops). destruct (IH (apply_op m op)) as [E|[E|E]]; [|by right; left|by right; right].
  rewrite E. destruct (decide (op_key op = MakeMetadataKey "k")) as [Ek|Ek]; [|left; by apply apply_op_other].
  destruct op as [k v|k|k o]; cbn in *; subst k.
  - right; right. rewrite lookup_insert_eq. destruct (Ho eq_refl) as (vm & ?). eauto.
  - right; left. apply lookup_delete_eq.
  - done.
Qed.

(** The other writer puts a row with version 7 just before the first read. *)
Definition w_other : ValueMessage := MkVM INLINE "theirs" 0 "" "" 0 6 0 7 0 0.

Definition w_shared : World Shared unit :=
  MkWorld (MkShared ∅ [[BPut (MakeMetadataKey "k") (enc_message w_other)]; []; [BDelete "unrelated"]])
    tt ∅ 0 0 0 0 ∅ [] 0 0.

Lemma cas_put_success_is_a_win_witness :
  won (RL := shared_laws) w_env foreign ∅ "k" 7 w_stamp (b_data w_body).
Proof.
  apply (cas_put_success_is_a_win (RL := shared_laws) w_env w_cfg w_env_ok foreign "k" w_stamp)
    with (ttl := 0) (w := w_shared) (w' := (PutIfVersion w_env w_cfg "k" w_body 0 7 w_shared).2).
  - intros a b (ops & Ho & ->) (vm & E & Ev). unfold version_at, row_of in *.
    destruct (foreign_row ops a Ho) as [Er|[Er|(v & vm' & Er & Eu & _ & Hne)]]; rewrite Er in E; [by eauto|done|].
    change (proto_Unmarshal v = Some vm) in E. congruence.
  - intros a b (ops & Ho & ->) Hc v E Hv.
    destruct (foreign_row ops a Ho) as [Er|[Er|(v' & vm' & Er & Eu & Hz & _)]]; rewrite Er in E; [by eauto|done|].
    simplify_eq. eauto.
  - split; [done|]. cbn. repeat (apply Forall_cons; split); try apply Forall_nil_2; cbn; try done.
    intros _. exists w_other. split; [vm_compute; reflexivity|]. split; discriminate.
  - intros v E. by rewrite lookup_empty in E.
  - intros (vm & E & _). unfold row_of in E. by rewrite lookup_empty in E.
  - vm_compute. reflexivity.
  - vm_compute. split; [discriminate|reflexivity].
  - split; cbn; [lia|reflexivity].
  - runs.
Defined.

(** ** Listing *)

Definition w_inline (data : bytes) (expiry : Z) : ValueMessage :=
  MkVM INLINE data expiry EmptyString EmptyString 0 (slen data) 0 7 0 0.

(** Three keys with the prefix, one of them expired, and one without it. *)
Definition w_listing : gmap bytes bytes :=
  <[MakeMetadataKey "a1" := enc_message (w_inline "x" 0)]>
  (<[MakeMetadataKey "a2" := enc_message (w_inline "y" 5)]>
  (<[MakeMetadataKey "a3" := enc_message (w_inline "zz" 0)]>
  (<[MakeMetadataKey "b" := enc_message (w_inline "" 0)]> ∅))).

Definition w_list_world : World Journal unit := w_world w_listing [] 0.

Lemma journal_iterates : ~ iter_failed (DB := Journal).
Proof. by intros (seek & db & m & l & e & db' & _ & E). Qed.

Lemma pages_list_every_live_key_witness :
  (list_pages w_env 4 "a" EmptyString 1 w_list_world).1 = Some ["a1"; "a3"]%string
  /\ lists w_env "a" w_listing 0 (w_tick (list_pages w_env 4 "a" EmptyString 1 w_list_world).2) ["a1"; "a3"]%string.
Proof.
  pose proof (pages_list_every_live_key w_env "a" 1 w_listing w_list_world) as H.
  specialize (H (conj eq_refl I) journal_iterates eq_refl eq_refl).
  assert (List.length (listed "a" w_listing) = 3%nat) as E by (vm_compute; reflexivity). rewrite E in H.
  assert ((list_pages w_env 4 "a" EmptyString 1 w_list_world).1 = Some ["a1"; "a3"]%string) as E1
    by (vm_compute; reflexivity).
  split; [exact E1|]. destruct (list_pages w_env 4 "a" EmptyString 1 w_list_world) as [r w'].
  destruct H as (ks & -> & Hk). cbn in E1. injection E1 as ->. exact Hk.
Defined.

Lemma list_keys_sorted_complete_witness :
  (ListKeys w_env "" w_list_world).1 = inr ["a1"; "a3"; "b"]%string
  /\ lists w_env "" w_listing 0 (w_tick (ListKeys w_env "" w_list_world).2) ["a1"; "a3"; "b"]%string.
Proof.
  pose proof (list_keys_sorted_complete w_env "" w_listing w_list_world (conj eq_refl I)) as H.
  assert ((ListKeys w_env "" w_list_world).1 = inr ["a1"; "a3"; "b"]%string) as E1 by (vm_compute; reflexivity).
  split; [exact E1|]. destruct (ListKeys w_env "" w_list_world) as [r w']. cbn in E1. subst r. apply H.
Defined.

Lemma key_value_page_matches_rows_witness :
  (ListKeyValuesWithPagination w_env "a" "a1" 1 w_list_world).1
    = inr ([MkKV "a3" "zz" 2 false], EmptyString, false)
  /\ page_post w_env (kv_row w_env ∅) kv_Key "a" "a1" 1 w_listing w_list_world
      (inr ([MkKV "a3" "zz" 2 false], EmptyString, false))
      (ListKeyValuesWithPagination w_env "a" "a1" 1 w_list_world).2.
Proof.
  pose proof (key_value_page_matches_rows w_env "a" "a1" 1 w_listing w_list_world (conj eq_refl I) (or_intror eq_refl)) as H.
  assert ((ListKeyValuesWithPagination w_env "a" "a1" 1 w_list_world).1
    = inr ([MkKV "a3" "zz" 2 false], EmptyString, false)) as E1 by (vm_compute; reflexivity).
  split; [exact E1|]. destruct (ListKeyValuesWithPagination w_env "a" "a1" 1 w_list_world) as [r w']. cbn in E1. subst r.
  exact H.
Defined.
