(* ===== verification/CleanerWitnesses.v ===== *)
(** * Concrete runs of the cleaner

    A small store with two values over the cap, an expired value and an orphaned file;
    each witness applies a theorem on eviction, TTL sweep or reconciliation to it. *)

From S2P Require Import Prelude Version Keys Errors Message Merge ProtoInstance Wire Rocks RocksInstances World Files RangeReader Storage Wp Safety StorageSpec StorageProps LiveSize SizeProps Cas CasSpec CasProps Rely Listing ListingProps DeleteBatch Eviction EvictionProps DiskLimit Cleaner TtlProps ReconcileProps CleanerSafe TraceProps StorageWitnesses.

Open Scope Z_scope.

(** Values of recorded length 600. *)
Definition w_big (expiry : Z) : bytes := enc_message (MkVM INLINE "x" expiry EmptyString EmptyString 0 600 0 7 0 0).

Definition w_entry (key : bytes) (t : Z) : list batch_op :=
  [BPut (MakeFifoIndexKey key t) EmptyString; BPut (MakeFifoBackrefKey key) (MakeFifoIndexKey key t)].

Definition w_rows : gmap bytes bytes :=
  <[MakeMetadataKey "b" := w_big 0]> (<[MakeMetadataKey "a" := w_big 0]> ∅).

Definition w_index : list batch_op := w_entry "b" 2 ++ w_entry "a" 1.

Definition w_full : gmap bytes bytes := apply_batch w_rows w_index.

Lemma w_index_ops : Forall index_op w_index.
Proof. repeat (apply Forall_cons; split; [by vm_compute; repeat split|]). by apply Forall_nil_2. Qed.

(** Inserting a decodable inline row keeps the store consistent. *)
Lemma inline_row_safe m disk t key v :
  ref_safe w_env w_cfg m disk t -> ValueType <$> proto_Unmarshal v = Some INLINE ->
  ref_safe w_env w_cfg (<[MakeMetadataKey key := v]> m) disk t.
Proof.
  intros Hs Hv. apply ref_safe_put; [done|]. intros vm E Ht. rewrite E in Hv. cbn in Hv. injection Hv as Hv.
  rewrite Ht in Hv. discriminate Hv.
Qed.

Lemma w_full_safe t : ref_safe w_env w_cfg w_full ∅ t.
Proof.
  apply ref_safe_index; [|apply w_index_ops]. do 2 (apply inline_row_safe; [|vm_compute; reflexivity]). apply ref_safe_empty.
Qed.

Lemma w_full_world size : represents (RocksLaws := reliable_laws) (w_db (w_world w_full [] size)) w_full.
Proof. by split. Qed.

(** Distinct entries of the index parse to distinct keys. *)
Lemma w_one_entry : one_entry (active_index w_cfg) w_full (index_keys (active_index w_cfg) w_full).
Proof.
  intros key e1 e2 _ _. assert (index_keys (active_index w_cfg) w_full = [MakeFifoIndexKey "a" 1; MakeFifoIndexKey "b" 2]) as ->
    by (vm_compute; reflexivity).
  intros H1 H2. repeat (apply elem_of_cons in H1 as [->|H1]); repeat (apply elem_of_cons in H2 as [->|H2]);
    try (by apply not_elem_of_nil in H1); try (by apply not_elem_of_nil in H2); try done; vm_compute; congruence.
Qed.

Lemma evicts_oldest_first_witness :
  j_rows (w_db (evictByIndex w_env w_open (active_index w_cfg) 300 (w_world w_full [] 1200)).2) !! MakeMetadataKey "a" = None
  /\ let '(_, w') := evictByIndex w_env w_open (active_index w_cfg) 300 (w_world w_full [] 1200) in
     exists done rest m', index_keys (active_index w_cfg) w_full = done ++ rest
       /\ evicted (RL := reliable_laws) w_env w_cfg w_open (active_index w_cfg) w_full (w_world w_full [] 1200) 300 done rest m' w'.
Proof.
  split; [vm_compute; reflexivity|].
  apply (evicts_oldest_first (RL := reliable_laws) w_env w_cfg w_env_ok w_open (active_index w_cfg)
    w_full 300 (w_world w_full [] 1200) (w_full_world 1200) (w_full_safe 0) w_one_entry).
Defined.

Lemma w_full_row key vm : row_at w_full key vm ->
  (key = "a"%string \/ key = "b"%string) /\ ValueLength vm = 600 /\ Expiry vm = 0 /\ RawFilePath vm = EmptyString.
Proof.
  intros (v & E & Eu). unfold w_full in E. rewrite (index_rows w_rows w_index key w_index_ops) in E. unfold w_rows in E.
  apply lookup_insert_Some in E as [[Ek <-]|[_ E]]; [|apply lookup_insert_Some in E as [[Ek <-]|[_ E]]];
    [..|by rewrite lookup_empty in E]; apply MakeMetadataKey_inj in Ek as <-; vm_compute in Eu; injection Eu as <-; auto.
Qed.

Lemma w_full_covers : covers w_cfg w_full.
Proof.
  intros key vm [[-> | ->] _]%w_full_row; [exists (MakeFifoIndexKey "a" 1)|exists (MakeFifoIndexKey "b" 2)];
    (split; [apply (list_elem_of_In _ _); vm_compute; auto|split; [vm_compute; reflexivity|left; vm_compute; reflexivity]]).
Qed.

Lemma w_full_lengths : lengths_ok w_full.
Proof. intros key vm (_ & -> & _)%w_full_row. lia. Qed.

Lemma w_full_size : live_size w_full = 1200.
Proof. vm_compute. reflexivity. Qed.

Lemma disk_limit_enforced_witness :
  w_size (enforceDiskLimit w_env w_cfg w_open (w_world w_full [] 1200)).2 = 600
  /\ let '(_, w') := enforceDiskLimit w_env w_cfg w_open (w_world w_full [] 1200) in
     exists m', represents (RocksLaws := reliable_laws) (w_db w') m' /\ w_size w' = live_size m'
       /\ (live_size m' <= 900 \/ forall key vm, row_at m' key vm -> found_expired w_env w_full (w_world w_full [] 1200) key).
Proof.
  split; [vm_compute; reflexivity|].
  apply (disk_limit_enforced (RL := reliable_laws) w_env w_cfg w_env_ok w_open w_full (w_world w_full [] 1200)
    (w_full_world 1200) (w_full_safe 0) w_one_entry w_full_covers w_full_lengths).
  - rewrite w_full_size. unfold two63. lia.
  - by rewrite w_full_size.
  - split; [apply reliable_reads|apply reliable_writes].
  - by intros (seek & db & m & l & e & db' & _ & E).
  - done.
  - cbn. unfold two63. lia.
Defined.

(** ** The TTL sweep *)

(** ["a"] expired at second 5, ["b"] never does. *)
Definition w_ttl : gmap bytes bytes := <[MakeMetadataKey "b" := w_big 0]> (<[MakeMetadataKey "a" := w_big 5]> ∅).

Lemma w_ttl_safe t : ref_safe w_env w_cfg w_ttl ∅ t.
Proof. do 2 (apply inline_row_safe; [|vm_compute; reflexivity]). apply ref_safe_empty. Qed.

Lemma w_ttl_lengths : lengths_ok w_ttl.
Proof.
  intros key vm (v & E & Eu). unfold w_ttl in E.
  apply lookup_insert_Some in E as [[Ek <-]|[_ E]]; [|apply lookup_insert_Some in E as [[Ek <-]|[_ E]]];
    [..|by rewrite lookup_empty in E]; vm_compute in Eu; injection Eu as <-; cbn; lia.
Qed.

(** The scan saw both as expired; ["b"] was rewritten since. *)
Definition w_cands : list expiryCandidate :=
  [MkCand "a" (MakeMetadataKey "a") 5 0; MkCand "b" (MakeMetadataKey "b") 4 0].

Lemma ttl_flush_keeps_fresh_witness :
  (exists vm, row_at w_ttl "b" vm /\ Expiry vm <= 0)
  /\ let '(_, w') := ttl_flush w_env w_cfg (MkTtl [] 0 0 [] w_cands 0) (w_world w_ttl [] 1200) in
     exists m', represents (w_db w') m' /\ ref_safe w_env w_cfg m' (w_disk w') (w_tick w')
       /\ i64 (w_size w') = i64 (1200 - (live_size w_ttl - live_size m'))
       /\ forall key vm, row_at w_ttl key vm ->
            (Expiry vm <= 0 \/ 100 < Expiry vm
             \/ Expiry vm = tombstoneExpiry /\ Forall (fun c => ec_key c = key -> ec_version c <> Version vm) w_cands) ->
            row_at m' key vm.
Proof.
  split. { eexists. split; [eexists; split; [vm_compute; reflexivity|vm_compute; reflexivity]|]. cbn. lia. }
  apply (ttl_flush_keeps_fresh w_env w_cfg w_env_ok 100 w_ttl w_cands (w_world w_ttl [] 1200)).
  - by split.
  - apply w_ttl_safe.
  - split; [by repeat (apply Forall_cons; split; [done|]); apply Forall_nil_2|].
    apply NoDup_cons. split; [by intros ?%list_elem_of_singleton|apply NoDup_singleton].
  - repeat (apply Forall_cons; split; [cbn; lia|]). by apply Forall_nil_2.
  - apply w_ttl_lengths.
  - vm_compute. reflexivity.
Defined.

Lemma ttl_sweep_exact_witness :
  j_rows (w_db (cleanupExpiredKeys w_env w_cfg w_open 0 (w_world w_ttl [] 1200)).2) !! MakeMetadataKey "a" = None
  /\ let '(_, w') := cleanupExpiredKeys w_env w_cfg w_open 0 (w_world w_ttl [] 1200) in
     exists m', swept (RL := reliable_laws) w_env w_cfg w_open 0 w_ttl (w_world w_ttl [] 1200) m' w'.
Proof.
  split; [vm_compute; reflexivity|].
  apply (ttl_sweep_exact (RL := reliable_laws) w_env w_cfg w_env_ok w_open 0 w_ttl (w_world w_ttl [] 1200)); [by split|apply w_ttl_safe].
Defined.

(** ** Reconciliation *)

(** The values are stored, the index is empty and the counter is wrong; the directory
    holds a file that no row mentions. *)
Definition w_orphan : World Journal unit :=
  MkWorld (MkJournal w_rows []) tt {[ "/d/zz"%string := "left over"%string ]} 0 17 0 0 ∅ [] 0 0.

Lemma name_of_not_zz n : filepath_Join "/d" (name_of n) <> "/d/zz"%string.
Proof. by destruct n. Qed.

Lemma w_orphan_safe : ref_safe w_env w_cfg w_rows (w_disk w_orphan) 0.
Proof.
  do 2 (apply inline_row_safe; [|vm_compute; reflexivity]). destruct (ref_safe_empty 0). split; try done.
  - intros key path len (vm & (v & E & _) & _). by rewrite lookup_empty in E.
  - intros n _. apply lookup_singleton_ne, not_eq_sym, name_of_not_zz.
Qed.

Lemma w_orphan_world : represents (RocksLaws := reliable_laws) (w_db w_orphan) w_rows.
Proof. by split. Qed.

Lemma w_rows_sound : index_sound w_cfg w_rows.
Proof.
  intros key e E. exfalso. unfold w_rows in E. assert (is_backref (ei_backrefKey (active_index w_cfg) key) = true) as Hb by apply ix_backref.
  rewrite !lookup_insert_ne in E by (by apply metadata_not_backref). by rewrite lookup_empty in E.
Qed.

Definition w_cs : cleaner_state := MkCleaner false 0 None 0.

Lemma reconcile_makes_counter_exact_witness :
  w_size (reconcileFromMetadata w_env w_cfg w_open w_mtime w_cs w_orphan).2 = 1200
  /\ let '(_, w') := reconcileFromMetadata w_env w_cfg w_open w_mtime w_cs w_orphan in
     exists m', represents (RocksLaws := reliable_laws) (w_db w') m'
       /\ (forall key, m' !! MakeMetadataKey key = w_rows !! MakeMetadataKey key)
       /\ (w_size w' = w_size w_orphan \/ w_size w' = i64 (live_size w_rows))
       /\ (~ iter_failed (DB := Journal) (RL := reliable_laws) -> open_throughout w_open -> w_size w' = i64 (live_size w_rows)).
Proof.
  split; [vm_compute; reflexivity|].
  apply (reconcile_makes_counter_exact (RL := reliable_laws) w_env w_cfg w_env_ok w_open w_mtime w_rows w_cs w_orphan w_orphan_world w_orphan_safe).
Defined.

Lemma reconcile_restores_coverage_witness :
  index_keys (active_index w_cfg) w_rows = []
  /\ let '(cs', w') := reconcileFromMetadata w_env w_cfg w_open w_mtime w_cs w_orphan in
     exists m', represents (RocksLaws := reliable_laws) (w_db w') m'
       /\ (cs_backfillPending cs' = false -> forall key vm, row_at w_rows key vm -> covered_at w_cfg m' key).
Proof.
  split; [vm_compute; reflexivity|].
  pose proof (reconcile_restores_coverage (RL := reliable_laws) w_env w_cfg w_env_ok w_open w_mtime w_rows w_cs w_orphan w_orphan_world
    w_orphan_safe ltac:(reflexivity) ltac:(intros n; cbn; lia) ltac:(done)) as H.
  destruct (reconcileFromMetadata _ _ _ _ w_cs w_orphan) as [cs' w']. destruct H as (m' & Hm & _ & _ & _ & Hc & _).
  exists m'. split; [exact Hm|]. intros Hp key vm Hr. exact (Hc Hp key vm Hr (w_rows_sound key)).
Defined.


(** ** Cold keys under LRU *)

Definition lru_cfg : Config := MkConfig 4 0 10 1000 EvictionPolicyLRU "/d".

Definition lru_entry (key : bytes) (t : Z) : list batch_op :=
  let e := MakeBucketedAccessKey (env_tz w_env) key t in [BPut e EmptyString; BPut (MakeBucketedAccessIndexKey key) e].

(** Two values, last read more than thirty days ago, with their index entries. *)
Definition w_cold : gmap bytes bytes := apply_batch w_rows (lru_entry "b" 2 ++ lru_entry "a" 1).

Definition w_cold_world : World Journal unit := w_world w_cold [] 1200.

(** One bucket cleanup, one reconciliation, one enforcement of the cap. *)
Definition cold_run : cleaner_state * World Journal unit :=
  let w1 := (cleanupOldBuckets w_env accessBucketCleanupThreshold w_cold_world).2 in
  let '(cs, w2) := reconcileFromMetadata w_env lru_cfg w_open w_mtime w_cs w1 in
  (cs, (enforceDiskLimit w_env lru_cfg w_open w2).2).

(** Bucket cleanup takes cold keys out of reach of eviction. Under LRU, a store
    of 1200 bytes under a cap of 1000, with every value indexed: eviction alone brings
    it under the cap. After [cleanupOldBuckets] has pruned the access entries older
    than thirty days (it keeps their back-references), the next reconciliation regards
    both keys as covered and reports nothing pending, and enforcing the cap evicts
    nothing: no failure occurs, and the store stays over the cap. *)
Theorem bucket_cleanup_hides_cold_keys :
  w_size (enforceDiskLimit w_env lru_cfg w_open w_cold_world).2 = 600
  /\ cs_backfillPending cold_run.1 = false
  /\ w_size cold_run.2 = 1200 /\ maxDiskUsage lru_cfg = 1000
  /\ (forall key, j_rows (w_db cold_run.2) !! MakeMetadataKey key = w_rows !! MakeMetadataKey key)
  /\ index_keys (active_index lru_cfg) (j_rows (w_db cold_run.2)) = [].
Proof.
  split_and!; vm_compute; reflexivity.
Qed.
