(* ===== verification/SegmentFormat.v ===== *)
(** * The segment format (storage/segment/builder.go)

    Entry headers and the footer of a finalized segment, byte for byte, and their
    round trips. *)

From S2P Require Import Prelude Keys Errors.

Open Scope Z_scope.

Definition ValueHeaderSize : Z := 18.
Definition SegmentFooterMagicPrefix : bytes := "SEGEOF".
Definition SegmentFooterSize : Z := 20.
Definition CurrentSegmentVersion : Z := 1.
Definition CurrentValueHeaderVersion : Z := 1.

(** [io.EOF]. *)
Definition EOF : error := EText "EOF".

Definition BuildValueHeader (key : bytes) (valueLen checksum version : Z) : bytes :=
  be_bytes 8 (u64 valueLen) +:+ be_bytes 4 (u32 (slen key)) +:+ be_bytes 4 checksum +:+ be_bytes 2 version +:+ key.

Definition CalculateValueHeaderSize (key : bytes) : Z := ValueHeaderSize + slen key.

(** Bytes [a..b) of a buffer. *)
Definition sub (s : bytes) (a b : nat) : bytes := stake (b - a) (sdrop a s).

Fixpoint all_zero (s : bytes) : bool :=
  match s with EmptyString => true | String c s => bool_decide (c = zero) && all_zero s end.

(** What both readers do with the bytes they got: value length, header size, key
    length, version and checksum. *)
Definition parse_header (fixed : bytes) : error + Z * Z * Z * Z * Z :=
  if slen fixed <? ValueHeaderSize then inl EOF
  else if all_zero fixed then inl EOF
  else
    let valueLen := i64 (be_value (sub fixed 0 8)) in
    let keyLen := be_value (sub fixed 8 12) in
    let checksum := be_value (sub fixed 12 16) in
    let version := be_value (sub fixed 16 18) in
    if keyLen <=? 0 then inl (EText "invalid key length in header")
    else if valueLen <=? 0 then inl (EText "invalid value length in header")
    else if (version <=? 0) || (CurrentValueHeaderVersion <? version) then inl (EText "invalid header version")
    else inr (valueLen, ValueHeaderSize + keyLen, keyLen, version, checksum).

(** [unix.Pread] of a file's bytes; a negative offset fails. *)
Definition pread (content : bytes) (n : nat) (offset : Z) : error + bytes :=
  if offset <? 0 then inl (EText "invalid argument")
  else inr (stake n (sdrop (Z.to_nat offset) content)).

Definition ReadValueHeaderAt (content : bytes) (offset : Z) : error + Z * Z * Z * Z * Z :=
  match pread content 18 offset with
  | inl e => inl e
  | inr fixed => parse_header fixed
  end.

Definition ReadValueHeader (content : bytes) : error + Z * Z * Z * Z * Z := ReadValueHeaderAt content 0.

Definition UpdateValueHeader (header : bytes) (valueLen checksum : Z) : bytes :=
  be_bytes 8 (u64 valueLen) +:+ sub header 8 12 +:+ be_bytes 4 checksum +:+ sdrop 16 header.

Definition ascii_digit (d : Z) : ascii := ascii_of_N (Z.to_N (48 + d)).

Definition BuildSegmentFooterWithVersion (version entries dataBytes : Z) : bytes :=
  SegmentFooterMagicPrefix
  +:+ (if (version <? 0) || (99 <? version) then "00"
       else String (ascii_digit (version / 10 mod 10)) (String (ascii_digit (version mod 10)) EmptyString))
  +:+ be_bytes 4 entries +:+ be_bytes 8 (u64 dataBytes).

Definition ParseSegmentFooter (footer : bytes) : option (Z * Z * Z) :=
  if slen footer <? SegmentFooterSize then None
  else if bool_decide (sub footer 0 6 <> SegmentFooterMagicPrefix) then None
  else
    let v1 := be_value (sub footer 6 7) in
    let v2 := be_value (sub footer 7 8) in
    if (v1 <? 48) || (57 <? v1) || (v2 <? 48) || (57 <? v2) then None
    else Some ((v1 - 48) * 10 + (v2 - 48), be_value (sub footer 8 12), i64 (be_value (sub footer 12 20))).

(** ** Round trips *)

Lemma sub_mid a b c : sub (a +:+ b +:+ c) (String.length a) (String.length a + String.length b) = b.
Proof. unfold sub. rewrite sdrop_app. replace (_ + _ - _)%nat with (String.length b) by lia. apply stake_app. Qed.

Lemma sub_at a b c i j : String.length a = i -> (String.length a + String.length b)%nat = j -> sub (a +:+ b +:+ c) i j = b.
Proof. intros <- <-. apply sub_mid. Qed.

Lemma all_zero_value s : all_zero s = true -> be_value s = 0.
Proof.
  induction s as [|c s IH]; cbn; [done|]. intros [Hc Hs]%andb_true_iff. apply bool_decide_eq_true_1 in Hc as ->.
  rewrite IH by done. done.
Qed.

Lemma all_zero_app a b : all_zero (a +:+ b) = all_zero a && all_zero b.
Proof. induction a as [|c a IH]; [done|]. rewrite sapp_cons. cbn. by rewrite IH, andb_assoc. Qed.

(** The fixed part of a header. *)
Definition fixed_header (valueLen keyLen checksum version : Z) : bytes :=
  be_bytes 8 (u64 valueLen) +:+ be_bytes 4 (u32 keyLen) +:+ be_bytes 4 checksum +:+ be_bytes 2 version.

Lemma fixed_header_length a b c d : String.length (fixed_header a b c d) = 18%nat.
Proof. unfold fixed_header. by rewrite !slength_app, !be_bytes_length. Qed.

Lemma header_split key valueLen checksum version :
  BuildValueHeader key valueLen checksum version = fixed_header valueLen (slen key) checksum version +:+ key.
Proof. unfold BuildValueHeader, fixed_header. by rewrite !sapp_assoc. Qed.

Lemma header_length key valueLen checksum version :
  slen (BuildValueHeader key valueLen checksum version) = CalculateValueHeaderSize key.
Proof.
  rewrite header_split, slen_app. unfold CalculateValueHeaderSize, ValueHeaderSize, slen at 1. rewrite fixed_header_length. lia.
Qed.

Lemma be_field n z : 0 <= z < 256 ^ Z.of_nat n -> be_value (be_bytes n z) = z.
Proof. intros Hz. rewrite be_value_bytes. by apply Z.mod_small. Qed.

Lemma parse_fixed_header valueLen keyLen checksum version :
  0 < valueLen < two63 -> 0 < keyLen < two32 -> is_u32 checksum -> version = CurrentValueHeaderVersion ->
  parse_header (fixed_header valueLen keyLen checksum version)
  = inr (valueLen, ValueHeaderSize + keyLen, keyLen, version, checksum).
Proof.
  intros Hv Hk Hc ->. unfold parse_header. set (f := fixed_header _ _ _ _).
  assert (slen f = 18) as -> by (unfold slen, f; by rewrite fixed_header_length).
  assert (sub f 0 8 = be_bytes 8 (u64 valueLen)) as E1.
  { unfold f, fixed_header. apply (sub_at EmptyString); [done|]. by rewrite be_bytes_length. }
  assert (sub f 8 12 = be_bytes 4 (u32 keyLen)) as E2.
  { unfold f, fixed_header. apply sub_at; by rewrite ?be_bytes_length. }
  assert (sub f 12 16 = be_bytes 4 checksum) as E3.
  { unfold f, fixed_header. rewrite <- sapp_assoc. apply sub_at; by rewrite ?slength_app, ?be_bytes_length. }
  assert (sub f 16 18 = be_bytes 2 CurrentValueHeaderVersion) as E4.
  { unfold f, fixed_header. rewrite <- (sapp_nil_r (be_bytes 2 _)), <- !sapp_assoc, sapp_assoc.
    apply sub_at; by rewrite ?slength_app, ?be_bytes_length. }
  assert (all_zero f = false) as Hz.
  { apply not_true_is_false. intros Hz. unfold f, fixed_header in Hz. rewrite all_zero_app in Hz.
    apply andb_true_iff in Hz as [Hz _]. apply all_zero_value in Hz.
    rewrite be_value_bytes, u64_small in Hz by (unfold is_u64, two63, two64 in *; lia).
    rewrite Z.mod_small in Hz; [lia|]. unfold two63 in Hv. cbn. lia. }
  rewrite Hz, E1, E2, E3, E4. rewrite u64_small by (unfold is_u64, two63, two64 in *; lia).
  unfold u32. rewrite (Z.mod_small keyLen two32) by lia.
  rewrite !be_field; [|cbn; unfold is_u32, two63, two32, CurrentValueHeaderVersion in *; lia..].
  rewrite i64_small by (unfold is_i64; lia).
  destruct (Z.leb_spec keyLen 0); [lia|]. destruct (Z.leb_spec valueLen 0); [lia|]. done.
Qed.

Lemma stake_parts s : String.length s = 18%nat -> s = sub s 0 8 +:+ sub s 8 12 +:+ sub s 12 16 +:+ sub s 16 18.
Proof.
  intros Hl. unfold sub. cbn [Nat.sub sdrop]. rewrite <- (stake_sdrop 8 s) at 1. f_equal.
  rewrite <- (stake_sdrop 4 (sdrop 8 s)) at 1. f_equal. rewrite sdrop_sdrop. rewrite <- (stake_sdrop 4 (sdrop (8 + 4) s)) at 1.
  f_equal. rewrite sdrop_sdrop. symmetry. apply stake_all. rewrite slength_sdrop. lia.
Qed.

Lemma be_sub s a b : (b <= String.length s)%nat -> (a <= b)%nat -> be_bytes (b - a) (be_value (sub s a b)) = sub s a b.
Proof.
  intros Hb Hab. assert (String.length (sub s a b) = (b - a)%nat) as Hl.
  { unfold sub. rewrite slength_stake, slength_sdrop. lia. }
  rewrite <- Hl at 1. apply be_bytes_value.
Qed.

Lemma sub_bound s a b : (b <= String.length s)%nat -> (a <= b)%nat -> 0 <= be_value (sub s a b) < 256 ^ Z.of_nat (b - a).
Proof.
  intros Hb Hab. pose proof (be_value_bound (sub s a b)) as H. unfold slen in H.
  assert (String.length (sub s a b) = (b - a)%nat) as <-; [|done]. unfold sub. rewrite slength_stake, slength_sdrop. lia.
Qed.

(** A header that parses is the header of what it parses to. *)
Lemma parse_header_inv fixed valueLen headerSize keyLen version checksum :
  String.length fixed = 18%nat -> parse_header fixed = inr (valueLen, headerSize, keyLen, version, checksum) ->
  fixed = fixed_header valueLen keyLen checksum version /\ 0 < valueLen < two63 /\ 0 < keyLen < two32
  /\ is_u32 checksum /\ version = CurrentValueHeaderVersion /\ headerSize = ValueHeaderSize + keyLen.
Proof.
  intros Hl. unfold parse_header. destruct (slen fixed <? ValueHeaderSize); [done|]. destruct (all_zero fixed); [done|].
  pose proof (sub_bound fixed 0 8 ltac:(lia) ltac:(lia)) as B1. pose proof (sub_bound fixed 8 12 ltac:(lia) ltac:(lia)) as B2.
  pose proof (sub_bound fixed 12 16 ltac:(lia) ltac:(lia)) as B3.
  change (256 ^ Z.of_nat (8 - 0)) with two64 in B1. change (256 ^ Z.of_nat (12 - 8)) with two32 in B2.
  change (256 ^ Z.of_nat (16 - 12)) with two32 in B3.
  destruct (Z.leb_spec (be_value (sub fixed 8 12)) 0) as [|H1]; [done|].
  destruct (Z.leb_spec (i64 (be_value (sub fixed 0 8))) 0) as [|H2]; [done|].
  destruct (_ || _) eqn:Ev; [done|]. apply orb_false_iff in Ev as [Ev1 Ev2]. bool_facts. intros [= <- <- <- <- <-].
  unfold CurrentValueHeaderVersion in *. assert (be_value (sub fixed 16 18) = 1) as E1 by lia. split_and!; try done; try lia.
  - unfold fixed_header. rewrite u64_i64, u64_small by done. unfold u32.
    rewrite (Z.mod_small (be_value (sub fixed 8 12))) by lia.
    assert (be_bytes 8 (be_value (sub fixed 0 8)) = sub fixed 0 8) as -> by (apply (be_sub fixed 0 8); lia).
    assert (be_bytes 4 (be_value (sub fixed 8 12)) = sub fixed 8 12) as -> by (apply (be_sub fixed 8 12); lia).
    assert (be_bytes 4 (be_value (sub fixed 12 16)) = sub fixed 12 16) as -> by (apply (be_sub fixed 12 16); lia).
    assert (be_bytes 2 (be_value (sub fixed 16 18)) = sub fixed 16 18) as -> by (apply (be_sub fixed 16 18); lia).
    by apply stake_parts.
  - pose proof (i64_range (be_value (sub fixed 0 8))) as [_ Hi]. done.
Qed.

Lemma header_at_roundtrip before key valueLen checksum after :
  0 < valueLen < two63 -> 0 < slen key < two32 -> is_u32 checksum ->
  ReadValueHeaderAt (before +:+ BuildValueHeader key valueLen checksum CurrentValueHeaderVersion +:+ after) (slen before)
  = inr (valueLen, CalculateValueHeaderSize key, slen key, CurrentValueHeaderVersion, checksum).
Proof.
  intros Hv Hk Hc. unfold ReadValueHeaderAt, pread. pose proof (slen_nonneg before). destruct (Z.ltb_spec (slen before) 0); [lia|].
  unfold slen at 1. rewrite Nat2Z.id, sdrop_app, header_split, sapp_assoc.
  rewrite <- (fixed_header_length valueLen (slen key) checksum CurrentValueHeaderVersion), stake_app.
  by apply parse_fixed_header.
Qed.

(** An entry header parses back. Wherever in a segment file an entry lies, if its
    key and value are nonempty and within the format's widths, [ReadValueHeaderAt] at
    its offset returns the lengths, version and checksum it was built from. *)
Theorem value_header_roundtrip before key valueLen checksum after :
  0 < valueLen < two63 -> 0 < slen key < two32 -> is_u32 checksum ->
  ReadValueHeaderAt (before +:+ BuildValueHeader key valueLen checksum CurrentValueHeaderVersion +:+ after) (slen before)
  = inr (valueLen, CalculateValueHeaderSize key, slen key, CurrentValueHeaderVersion, checksum).
Proof. apply header_at_roundtrip. Qed.

Lemma value_header_roundtrip_witness :
  0 < 5 < two63 /\ ReadValueHeaderAt ("xyz" +:+ BuildValueHeader "k" 5 77 CurrentValueHeaderVersion +:+ "hello") 3
  = inr (5, 19, 1, 1, 77).
Proof.
  split; [unfold two63; lia|]. apply (value_header_roundtrip "xyz" "k" 5 77 "hello"); unfold is_u32, slen, two63, two32; cbn; lia.
Defined.

Lemma digit_value d : 0 <= d < 10 -> be_value (String (ascii_digit d) EmptyString) = 48 + d.
Proof. intros Hd. unfold ascii_digit. cbn [be_value String.length]. rewrite N_ascii_embedding by lia. rewrite Z2N.id by lia. cbn. lia. Qed.

(** A footer parses back. *)
Lemma footer_roundtrip version entries dataBytes :
  0 <= version <= 99 -> is_u32 entries -> is_i64 dataBytes ->
  ParseSegmentFooter (BuildSegmentFooterWithVersion version entries dataBytes) = Some (version, entries, dataBytes).
Proof.
  intros Hv He Hd. unfold BuildSegmentFooterWithVersion.
  destruct ((version <? 0) || (99 <? version)) eqn:E; [apply orb_true_iff in E; lia|]. clear E.
  set (t := ascii_digit (version / 10 mod 10)). set (o := ascii_digit (version mod 10)).
  set (f := _ +:+ _). assert (String.length f = 20%nat) as Hl by (unfold f; by rewrite !slength_app, !be_bytes_length).
  unfold ParseSegmentFooter. assert (slen f = 20) as -> by (unfold slen; by rewrite Hl). cbn [Z.ltb].
  assert (sub f 0 6 = SegmentFooterMagicPrefix) as -> by done.
  assert (sub f 6 7 = String t EmptyString) as -> by done. assert (sub f 7 8 = String o EmptyString) as -> by done.
  assert (sub f 8 12 = be_bytes 4 entries) as ->.
  { unfold f. rewrite <- sapp_assoc. apply sub_at; by rewrite ?slength_app, ?be_bytes_length. }
  assert (sub f 12 20 = be_bytes 8 (u64 dataBytes)) as ->.
  { unfold f. rewrite <- (sapp_nil_r (be_bytes 8 _)), <- !sapp_assoc, sapp_assoc. apply sub_at; by rewrite ?slength_app, ?be_bytes_length. }
  rewrite bool_decide_false by (intros H; by apply H). unfold t, o.
  pose proof (Z.mod_pos_bound (version / 10) 10 ltac:(lia)). pose proof (Z.mod_pos_bound version 10 ltac:(lia)).
  rewrite !digit_value by lia. destruct (_ || _ || _ || _) eqn:E; [rewrite !orb_true_iff in E; lia|].
  rewrite be_field by (cbn; unfold is_u32, two32 in *; lia).
  rewrite be_field by (pose proof (u64_range dataBytes); unfold is_u64, two64 in *; cbn; lia).
  rewrite i64_u64, i64_small by done. do 2 f_equal. f_equal. rewrite (Z.mod_small (version / 10)).
  - pose proof (Z.div_mod version 10 ltac:(lia)). lia.
  - split; [apply Z.div_pos; lia|]. apply Z.div_lt_upper_bound; lia.
Qed.
