(* ===== verification/Segments.v ===== *)
(** * Segments (storage/segment/segment.go, manager.go)

    A segment file holds entries one after the other; an open segment is appended to
    by the caller that reserved it, a finalized one ends with a footer. The first
    section models the operations on one segment and its open file, the second the
    manager with its shared segment objects. *)

From S2P Require Import Prelude Keys Errors Message Merge Rocks World Files SegmentFormat.

Open Scope Z_scope.

(** ** One segment *)

(** [sg_file] is the position of the read-write descriptor, if it is open. *)
Record Segment := MkSegment {
  sg_path : bytes;
  sg_size : Z;
  sg_file : option Z;
  sg_numEntries : Z;
  sg_dataBytes : Z;
  sg_version : Z;
  sg_maxSupportedSize : Z;
  sg_reservedBy : bytes
}.

Definition NewSegment (path : bytes) (entries dataBytes size maxSupportedSize : Z) : Segment :=
  MkSegment path size None entries dataBytes CurrentSegmentVersion maxSupportedSize EmptyString.

Definition NewSegmentWithReservation (path : bytes) (entries dataBytes size maxSupportedSize : Z) (callerID : bytes) : Segment :=
  MkSegment path size None entries dataBytes CurrentSegmentVersion maxSupportedSize callerID.

Definition Remaining (s : Segment) : Z := i64 (sg_maxSupportedSize s - sg_size s).

Definition SetOpenFile (f : option Z) (s : Segment) : Segment :=
  MkSegment (sg_path s) (sg_size s) f (sg_numEntries s) (sg_dataBytes s) (sg_version s) (sg_maxSupportedSize s) (sg_reservedBy s).
Definition set_reserved (caller : bytes) (s : Segment) : Segment :=
  MkSegment (sg_path s) (sg_size s) (sg_file s) (sg_numEntries s) (sg_dataBytes s) (sg_version s) (sg_maxSupportedSize s) caller.
Definition set_stats (size entries dataBytes : Z) (s : Segment) : Segment :=
  MkSegment (sg_path s) size (sg_file s) entries dataBytes (sg_version s) (sg_maxSupportedSize s) (sg_reservedBy s).
Definition set_version (v : Z) (s : Segment) : Segment :=
  MkSegment (sg_path s) (sg_size s) (sg_file s) (sg_numEntries s) (sg_dataBytes s) v (sg_maxSupportedSize s) (sg_reservedBy s).

(** [Reserve]: the segment if the reservation succeeds. *)
Definition Reserve (callerID : bytes) (s : Segment) : option Segment :=
  if decide (callerID = EmptyString) then None
  else match sg_file s with
    | None => None
    | Some _ =>
        if bool_decide (sg_reservedBy s <> EmptyString) && bool_decide (sg_reservedBy s <> callerID) then None
        else Some (set_reserved callerID s)
    end.

Definition Release (callerID : bytes) (s : Segment) : option error * Segment :=
  if decide (callerID = EmptyString) then (Some (EText "callerID cannot be empty"), s)
  else (None, if decide (sg_reservedBy s = callerID) then set_reserved EmptyString s else s).

Definition IsReservedBy (callerID : bytes) (s : Segment) : bool := bool_decide (sg_reservedBy s = callerID).
Definition IsReserved (s : Segment) : bool := bool_decide (sg_reservedBy s <> EmptyString).

(** ** File contents *)

Definition pad (n : nat) (s : bytes) : bytes := s +:+ szeros (n - String.length s).
Definition pwrite (content : bytes) (pos : nat) (data : bytes) : bytes :=
  stake pos (pad pos content) +:+ data +:+ sdrop (pos + String.length data) content.
Definition ftruncate (content : bytes) (n : nat) : bytes := stake n (pad n content).

(** The segment, the bytes of its file, and the consultations of the environment. *)
Record SegIO := MkIO { io_seg : Segment; io_content : bytes; io_tick : nat }.

Record EntryInfo := MkEntry {
  en_Key : bytes; en_Offset : Z; en_HeaderSize : Z; en_ValueLength : Z; en_Checksum : Z; en_Version : Z
}.

Record Iterator := MkIter { it_currentPos : Z; it_fileSize : Z; it_lastError : option error }.

(** What else the file system decides: how many bytes a write (of a given
    length) that fails at a consultation has written, and failures of [ftruncate] and [lseek] on an open segment,
    the calls that undo a write, apart from the others. *)
Record SegFaults := MkFaults { short : nat -> Z -> nat; pos_fault : nat -> option Errno }.

Section OneSegment.

Context (env : Env) (sf : SegFaults).
Notation IO := (ST SegIO).

Definition io_syscall : IO (option Errno) := fun w =>
  (env_fault env (io_tick w), MkIO (io_seg w) (io_content w) (S (io_tick w))).
Definition io_possyscall : IO (option Errno) := fun w =>
  (pos_fault sf (io_tick w), MkIO (io_seg w) (io_content w) (S (io_tick w))).
Definition the_seg : IO Segment := fun w => (io_seg w, w).
Definition update_seg (f : Segment -> Segment) : IO () := fun w => ((), MkIO (f (io_seg w)) (io_content w) (io_tick w)).

(** The failure of a write at a position: what the environment decides, or the end of
    what a file can hold. *)
Definition write_fault (t : nat) (pos : Z) (data : bytes) : option Errno :=
  match env_fault env t with
  | Some e => Some e
  | None => if two63 <=? pos + slen data then Some EFBIG else None
  end.

(** [file.Write]: the bytes written and the error. *)
Definition file_Write (data : bytes) : IO (Z * option error) := fun w =>
  match sg_file (io_seg w) with
  | None => ((0, Some (EPathError "write" (sg_path (io_seg w)) EBADF)), w)
  | Some pos =>
      let '(written, err) := match write_fault (io_tick w) pos data with
        | None => (data, None)
        | Some e => (stake (short sf (io_tick w) (slen data)) data, Some (EPathError "write" (sg_path (io_seg w)) e))
        end in
      ((slen written, err),
       MkIO (SetOpenFile (Some (pos + slen written)) (io_seg w))
         (pwrite (io_content w) (Z.to_nat pos) written) (S (io_tick w)))
  end.

Definition file_Truncate (n : Z) : IO (option error) :=
  f ← io_possyscall;
  s ← the_seg;
  match f with
  | Some e => mret (Some (EPathError "truncate" (sg_path s) e))
  | None =>
      if n <? 0 then mret (Some (EPathError "truncate" (sg_path s) EINVAL))
      else fun w => (None, MkIO (io_seg w) (ftruncate (io_content w) (Z.to_nat n)) (io_tick w))
  end.

Definition file_Seek (n : Z) : IO (option error) :=
  f ← io_possyscall;
  s ← the_seg;
  match f with
  | Some e => mret (Some (EPathError "seek" (sg_path s) e))
  | None =>
      if n <? 0 then mret (Some (EPathError "seek" (sg_path s) EINVAL))
      else _ ← update_seg (SetOpenFile (Some n)); mret None
  end.

Definition file_call (op : bytes) : IO (option error) :=
  f ← io_syscall;
  s ← the_seg;
  mret match f with Some e => Some (EPathError op (sg_path s) e) | None => None end.

(** ** Writing *)

Definition rollback (startOffset : Z) (writeErr : error) : IO (error + Z) :=
  s ← the_seg;
  r ← file_Truncate startOffset;
  match r with
  | Some e => mret (inl (WrapError "rollback failed after value write" (sg_path s) e))
  | None =>
      r ← file_Seek startOffset;
      match r with
      | Some e => mret (inl (WrapError "seek after value write rollback" (sg_path s) e))
      | None => mret (inl writeErr)
      end
  end.

(** [io.CopyBuffer(s.file, r, buf)]: bytes written and the error. *)
Definition copy_payload (r : Body) : IO (Z * option error) :=
  if decide (b_data r = EmptyString) then mret (0, b_err r)
  else
    '(n, err) ← file_Write (b_data r);
    mret (n, match err with Some e => Some e | None => b_err r end).

Definition WriteEntry (key : bytes) (r : Body) (vm : ValueMessage) : IO (error + Z) :=
  if negb (ValueType vm =? RAW_FILE) && negb (ValueType vm =? SEGMENT)
  then mret (inl (EText ("invalid value type for " +:+ key)))
  else
    let header := BuildValueHeader key (ValueLength vm) (Checksum vm) CurrentValueHeaderVersion in
    let needed := i64 (CalculateValueHeaderSize key + ValueLength vm) in
    s ← the_seg;
    match sg_file s with
    | None => mret (inl (EText ("segment file is closed: " +:+ sg_path s)))
    | Some _ =>
        let startOffset := sg_size s in
        '(headerWritten, err) ← file_Write header;
        match err with
        | Some e => rollback startOffset (WrapError "failed to write value header" (sg_path s) e)
        | None =>
            if negb (headerWritten =? slen header)
            then rollback startOffset (WrapError "short write for value header" (sg_path s) (EText "short write"))
            else
              '(bytesWritten, err) ← copy_payload r;
              match err with
              | Some e => rollback startOffset (WrapError "copy value to segment" key e)
              | None =>
                  if negb (bytesWritten =? ValueLength vm)
                  then rollback startOffset (EWrap ("copy value to segment " +:+ key +:+ ": wrote " +:+ fmt_int 1 bytesWritten
                         +:+ " bytes, expected " +:+ fmt_int 1 (ValueLength vm)) (EText "unexpected EOF"))
                  else
                    _ ← update_seg (fun s => set_stats (i64 (sg_size s + needed)) (u32 (sg_numEntries s + 1))
                                               (i64 (sg_dataBytes s + ValueLength vm)) s);
                    mret (inr startOffset)
              end
        end
    end.

Definition Finalize : IO (option error) :=
  s ← the_seg;
  match sg_file s with
  | None => mret None
  | Some _ =>
      let footer := BuildSegmentFooterWithVersion (sg_version s) (sg_numEntries s) (sg_dataBytes s) in
      '(_, err) ← file_Write footer;
      match err with
      | Some e => mret (Some (WrapError "failed to write segment footer" (sg_path s) e))
      | None =>
          _ ← update_seg (fun s => set_stats (i64 (sg_size s + slen footer)) (sg_numEntries s) (sg_dataBytes s) s);
          r ← file_Truncate (i64 (sg_size s + slen footer));
          match r with
          | Some e => mret (Some (WrapError "truncate segment" (sg_path s) e))
          | None =>
              r ← file_call "sync";
              match r with
              | Some e => mret (Some (WrapError "failed to sync segment" (sg_path s) e))
              | None =>
                  r ← file_call "close";
                  match r with
                  | Some e => mret (Some (WrapError "failed to close segment" (sg_path s) e))
                  | None => _ ← update_seg (fun s => set_reserved EmptyString (SetOpenFile None s)); mret None
                  end
              end
          end
      end
  end.

Definition Sync : IO (option error) :=
  s ← the_seg;
  match sg_file s with
  | None => mret None
  | Some _ =>
      r ← file_call "sync";
      mret match r with Some e => Some (WrapError "failed to sync current segment" (sg_path s) e) | None => None end
  end.

(** ** Iteration and recovery *)

(** [file.ReadAt]: all the bytes, or an error at end of file. *)
Definition file_ReadAt (n : Z) (offset : Z) : IO (error + bytes) :=
  f ← io_syscall;
  s ← the_seg;
  match f with
  | Some e => mret (inl (EPathError "read" (sg_path s) e))
  | None => fun w =>
      (if offset <? 0 then inl (EPathError "read" (sg_path s) EINVAL)
       else let got := stake (Z.to_nat n) (sdrop (Z.to_nat offset) (io_content w)) in
            if slen got <? n then inl EOF else inr got, w)
  end.

Definition read_header (offset : Z) : IO (error + Z * Z * Z * Z * Z) :=
  f ← io_syscall;
  s ← the_seg;
  match f with
  | Some e => mret (inl (EPathError "pread" (sg_path s) e))
  | None => fun w => (ReadValueHeaderAt (io_content w) offset, w)
  end.

Definition Next (it : Iterator) : IO ((error + EntryInfo) * Iterator) :=
  if it_fileSize it - SegmentFooterSize <=? it_currentPos it then mret (inl EOF, it)
  else
    h ← read_header (it_currentPos it);
    match h with
    | inl err => mret (inl err, MkIter (it_currentPos it) (it_fileSize it) (Some err))
    | inr (valLen, headerSize, keyLen, version, checksum) =>
        k ← file_ReadAt keyLen (i64 (it_currentPos it + ValueHeaderSize));
        match k with
        | inl err => mret (inl err, MkIter (it_currentPos it) (it_fileSize it) (Some err))
        | inr key =>
            mret (inr (MkEntry key (it_currentPos it) headerSize valLen checksum version),
                  MkIter (i64 (it_currentPos it + i64 (headerSize + valLen))) (it_fileSize it) (it_lastError it))
        end
    end.

(** [file.Stat().Size()]. *)
Definition file_Size : IO (error + Z) :=
  f ← io_syscall;
  s ← the_seg;
  match f with
  | Some e => mret (inl (EPathError "stat" (sg_path s) e))
  | None => fun w => (inr (slen (io_content w)), w)
  end.

Definition NewIterator : IO (error + Iterator) :=
  r ← file_Size;
  mret match r with inl e => inl e | inr n => inr (MkIter 0 n None) end.

(** The checksum of the [n] bytes at [offset], as [io.NewSectionReader] yields them. *)
Definition section_checksum (offset n : Z) : IO (error + Z) :=
  f ← io_syscall;
  s ← the_seg;
  match f with
  | Some e => mret (inl (EPathError "read" (sg_path s) e))
  | None => fun w => (inr (crc32 (stake (Z.to_nat n) (sdrop (Z.to_nat offset) (io_content w)))), w)
  end.

Definition truncate_at (what : bytes) (pos : Z) : IO (option error) :=
  s ← the_seg;
  r ← file_Truncate pos;
  mret match r with Some e => Some (WrapError what (sg_path s) e) | None => None end.

(** The scan of an open segment: the error, or entries, payload bytes and the end of
    the valid data. Every turn moves the iterator forward or ends the scan. *)
Fixpoint validate_loop (fuel : nat) (actualFileSize : Z) (it : Iterator) (entries dataBytes : Z)
    : IO (error + Z * Z * Z) :=
  match fuel with
  | O => mret (inl (EText "out of fuel"))
  | S fuel =>
      let currentPos := it_currentPos it in
      let stop (what : bytes) : IO (error + Z * Z * Z) :=
        r ← truncate_at what currentPos;
        mret match r with Some e => inl e | None => inr (entries, dataBytes, currentPos) end in
      '(r, it) ← Next it;
      match r with
      | inl _ => stop "truncate at read error"
      | inr entry =>
          if (en_ValueLength entry <=? 0) || (slen (en_Key entry) <=? 0) then stop "truncate invalid header"
          else if actualFileSize <? i64 (currentPos + i64 (en_HeaderSize entry + en_ValueLength entry))
          then stop "truncate partial entry"
          else
            sum ← (if en_Checksum entry =? 0 then mret (inr 0)
                   else section_checksum (i64 (currentPos + en_HeaderSize entry)) (en_ValueLength entry));
            s ← the_seg;
            match sum with
            | inl e => mret (inl (WrapError "checksum read" (sg_path s) e))
            | inr sum =>
                if negb (en_Checksum entry =? 0) && negb (sum =? en_Checksum entry)
                then stop "truncate after checksum mismatch"
                else validate_loop fuel actualFileSize it (u32 (entries + 1)) (i64 (dataBytes + en_ValueLength entry))
            end
      end
  end.

Definition validateOpenSegment : IO (option error) :=
  s ← the_seg;
  r ← file_Seek 0;
  match r with
  | Some e => mret (Some (WrapError "seek to start for validation" (sg_path s) e))
  | None =>
      size ← file_Size;
      match size with
      | inl e => mret (Some (WrapError "stat segment file" (sg_path s) e))
      | inr actualFileSize =>
          it ← NewIterator;
          match it with
          | inl e => mret (Some (WrapError "create iterator for validation" (sg_path s) e))
          | inr it =>
              r ← validate_loop (S (S (Z.to_nat actualFileSize))) actualFileSize it 0 0;
              match r with
              | inl e => mret (Some e)
              | inr (entries, dataBytes, lastValidPos) =>
                  _ ← update_seg (set_stats lastValidPos entries dataBytes);
                  r ← file_Seek lastValidPos;
                  mret match r with Some e => Some (WrapError "seek to end" (sg_path s) e) | None => None end
              end
          end
      end
  end.

End OneSegment.

(** ** The manager *)

(** Segment objects are shared by pointer: [sw_heap] holds them, the ordered list, the
    map by path and the list of open segments hold their locations. *)
Record SegWorld := MkSegWorld {
  sw_disk : gmap bytes bytes;
  sw_tick : nat;
  sw_heap : gmap nat Segment;
  sw_next : nat;
  sw_segments : list nat;
  sw_segMap : gmap bytes nat;
  sw_openSegments : list nat
}.

Definition nil_segment : Segment := NewSegment EmptyString 0 0 0 0.

(** [l[i] = l[len(l)-1]; l = l[:len(l)-1]] at the first element that satisfies [P]. *)
Fixpoint swap_remove {A} (P : A -> bool) (l : list A) : list A :=
  match l with
  | [] => []
  | x :: rest =>
      if P x then match rest with [] => [] | y :: _ => default y (last rest) :: removelast rest end
      else x :: swap_remove P rest
  end.

Section Manager.

Context (env : Env) (sf : SegFaults) (segmentsPath : bytes) (segmentSize : Z).
Notation S := (ST SegWorld).

Definition sw_setdisk d w := MkSegWorld d (sw_tick w) (sw_heap w) (sw_next w) (sw_segments w) (sw_segMap w) (sw_openSegments w).
Definition sw_settick t w := MkSegWorld (sw_disk w) t (sw_heap w) (sw_next w) (sw_segments w) (sw_segMap w) (sw_openSegments w).
Definition sw_setheap h w := MkSegWorld (sw_disk w) (sw_tick w) h (sw_next w) (sw_segments w) (sw_segMap w) (sw_openSegments w).
Definition sw_setopen o w := MkSegWorld (sw_disk w) (sw_tick w) (sw_heap w) (sw_next w) (sw_segments w) (sw_segMap w) o.

Definition seg_at (l : nat) (w : SegWorld) : Segment := default nil_segment (sw_heap w !! l).

(** Runs an operation of one segment on the object at [l] and its file. *)
Definition on_segment {A} (l : nat) (c : ST SegIO A) : S A := fun w =>
  let s := seg_at l w in
  let '(a, io) := c (MkIO s (default EmptyString (sw_disk w !! sg_path s)) (sw_tick w)) in
  (a, sw_setheap (<[l := io_seg io]> (sw_heap w))
        (sw_setdisk (<[sg_path s := io_content io]> (sw_disk w)) (sw_settick (io_tick io) w))).

Definition sw_syscall : S (option Errno) := fun w => (env_fault env (sw_tick w), sw_settick (Datatypes.S (sw_tick w)) w).
Definition sw_Now : S Z := fun w => (env_now env (sw_tick w), sw_settick (Datatypes.S (sw_tick w)) w).
(** [seg.mu.TryRLock()]: fails while a writer holds the segment. *)
Definition TryRLock (path : bytes) : S bool := fun w =>
  (negb (env_locked env (sw_tick w) path), sw_settick (Datatypes.S (sw_tick w)) w).

(** Appends a new object to the list and enters it in the map. *)
Definition add_segment (s : Segment) : S nat := fun w =>
  let l := sw_next w in
  (l, MkSegWorld (sw_disk w) (sw_tick w) (<[l := s]> (sw_heap w)) (Datatypes.S l) (sw_segments w ++ [l])
        (<[sg_path s := l]> (sw_segMap w)) (sw_openSegments w)).

Definition RegisterSegment (path : bytes) (entries bytes_ : Z) : S () :=
  _ ← add_segment (NewSegment path entries bytes_ bytes_ segmentSize); mret ().

(** [Segment.ReadEntry] through a descriptor of the cache: the bytes the reader yields. *)
Definition Segment_ReadEntry (s : Segment) (key : bytes) (offset length : Z) : S (error + bytes) :=
  if bool_decide (key = EmptyString) || (offset <? 0) || (length <=? 0)
  then mret (inl (EText ("invalid key, offset or length: key=" +:+ key +:+ ", offset=" +:+ fmt_int 1 offset +:+ ", length=" +:+ fmt_int 1 length)))
  else
    f ← sw_syscall;
    w ← st_get;
    mret match f, sw_disk w !! sg_path s with
         | Some e, _ => inl (EWrap "failed to acquire segment fd" (EPathError "open" (sg_path s) e))
         | None, None => inl (EWrap "failed to acquire segment fd" (EPathError "open" (sg_path s) ENOENT))
         | None, Some content =>
             let offset := i64 (offset + CalculateValueHeaderSize key) in
             inr (stake (Z.to_nat length) (sdrop (Z.to_nat offset) content))
         end.

Definition ReadEntry (userKey segPath : bytes) (offset length : Z) : S (error + bytes) :=
  if bool_decide (segPath = EmptyString) || (offset <? 0) || (length <=? 0)
  then mret (inl (EText ("invalid segment path, offset or length: path=" +:+ segPath +:+ ", offset=" +:+ fmt_int 1 offset +:+ ", length=" +:+ fmt_int 1 length)))
  else
    w ← st_get;
    match sw_segMap w !! segPath with
    | None => mret (inl (EText ("segment not found: " +:+ segPath)))
    | Some l => Segment_ReadEntry (seg_at l w) userKey offset length
    end.

Definition segment_name (nanos : Z) : bytes := "segment_" +:+ fmt_int 1 nanos +:+ ".seg".

Definition createNewSegmentWithReservationLocked (callerID : bytes) : S (error + nat) :=
  now ← sw_Now;
  let path := filepath_Join segmentsPath (segment_name now) in
  f ← sw_syscall;
  match f with
  | Some e => mret (inl (WrapError "failed to create segment file" path (EPathError "open" path e)))
  | None =>
      _ ← st_modify (fun w => sw_setdisk (<[path := default EmptyString (sw_disk w !! path)]> (sw_disk w)) w);
      f ← sw_syscall;
      match f with
      | Some e => mret (inl (WrapError "truncate segment file" path (EPathError "truncate" path e)))
      | None =>
          _ ← st_modify (fun w => sw_setdisk (<[path := ftruncate (default EmptyString (sw_disk w !! path))
                                                          (Z.to_nat segmentSize)]> (sw_disk w)) w);
          l ← add_segment (SetOpenFile (Some 0) (NewSegmentWithReservation path 0 0 0 segmentSize callerID));
          _ ← st_modify (fun w => sw_setopen (sw_openSegments w ++ [l]) w);
          mret (inr l)
      end
  end.

(** The search among the open segments. *)
Fixpoint find_open (callerID : bytes) (needed : Z) (open : list nat) : S (option nat) :=
  match open with
  | [] => mret None
  | l :: open =>
      w ← st_get;
      let s := seg_at l w in
      free ← TryRLock (sg_path s);
      if negb free then find_open callerID needed open
      else if bool_decide (is_Some (sg_file s)) && (needed <=? Remaining s)
              && (bool_decide (sg_reservedBy s = EmptyString) || bool_decide (sg_reservedBy s = callerID)) then
        match Reserve callerID s with
        | Some s => _ ← st_modify (fun w => sw_setheap (<[l := s]> (sw_heap w)) w); mret (Some l)
        | None => find_open callerID needed open
        end
      else find_open callerID needed open
  end.

Definition AcquireOpenSegmentWithReservation (callerID : bytes) (needed : Z) : S (error + nat) :=
  if decide (callerID = EmptyString) then mret (inl (EText "callerID cannot be empty"))
  else
    w ← st_get;
    r ← find_open callerID needed (sw_openSegments w);
    match r with
    | Some l => mret (inr l)
    | None => createNewSegmentWithReservationLocked callerID
    end.

Definition release_one (callerID : bytes) (l : nat) : S () :=
  st_modify (fun w => sw_setheap (<[l := (Release callerID (seg_at l w)).2]> (sw_heap w)) w).

Fixpoint release_each (callerID : bytes) (open : list nat) : S () :=
  match open with [] => mret () | l :: open => _ ← release_one callerID l; release_each callerID open end.

Definition ReleaseAllSegments (callerID : bytes) : S (option error) :=
  if decide (callerID = EmptyString) then mret (Some (EText "callerID cannot be empty"))
  else w ← st_get; _ ← release_each callerID (sw_openSegments w); mret None.

Definition FinalizeSegment (l : nat) : S (option error) :=
  r ← on_segment l (Finalize env sf);
  match r with
  | Some e => mret (Some e)
  | None =>
      _ ← st_modify (fun w => sw_setopen (swap_remove (fun x => bool_decide (x = l)) (sw_openSegments w)) w);
      mret None
  end.

Definition RemoveSegment (segmentPath : bytes) : S (option nat) := fun w =>
  let named l := bool_decide (sg_path (seg_at l w) = segmentPath) in
  (sw_segMap w !! segmentPath,
   MkSegWorld (sw_disk w) (sw_tick w) (sw_heap w) (sw_next w) (swap_remove named (sw_segments w))
     (delete segmentPath (sw_segMap w)) (swap_remove named (sw_openSegments w))).

Definition GetSegmentByPath (path : bytes) : S (option nat) := fun w => (sw_segMap w !! path, w).
Definition GetSegments : S (list nat) := fun w => (sw_segments w, w).

(** ** Loading at startup *)

Definition has_suffix (suffix s : bytes) : bool :=
  bool_decide (sdrop (String.length s - String.length suffix) s = suffix).

(** The footer of a finalized file, if its last bytes parse as one. *)
Definition footer_of (content : bytes) : option (Z * Z * Z) :=
  if SegmentFooterSize <=? slen content
  then ParseSegmentFooter (sdrop (Z.to_nat (slen content - SegmentFooterSize)) content)
  else None.

(** One directory entry: the open segment it is, if any. *)
Definition load_one (name : bytes) : S (error + option nat) :=
  let path := filepath_Join segmentsPath name in
  f ← sw_syscall;
  match f with
  | Some e => mret (inl (WrapError "failed to open segment" name (EPathError "open" path e)))
  | None =>
      f ← sw_syscall;
      match f with
      | Some e => mret (inl (WrapError "failed to stat segment" name (EPathError "stat" path e)))
      | None =>
          f ← sw_syscall;
          w ← st_get;
          let content := default EmptyString (sw_disk w !! path) in
          let segment := SetOpenFile (Some 0) (NewSegment path 0 0 0 segmentSize) in
          match (match f with Some _ => None | None => footer_of content end) with
          | Some (ver, ent, bytes_) =>
              _ ← add_segment (SetOpenFile None (set_version ver
                     (set_stats (slen content - SegmentFooterSize) ent bytes_ segment)));
              mret (inr None)
          | None =>
              let '(r, io) := validateOpenSegment env sf (MkIO segment content (sw_tick w)) in
              _ ← st_modify (fun w => sw_setdisk (<[path := io_content io]> (sw_disk w)) (sw_settick (io_tick io) w));
              match r with
              | Some e => mret (inl (WrapError "failed to validate open segment" name e))
              | None => l ← add_segment (io_seg io); mret (inr (Some l))
              end
          end
      end
  end.

Fixpoint load_all (names : list bytes) (openSegs : list nat) : S (error + list nat) :=
  match names with
  | [] => mret (inr openSegs)
  | name :: names =>
      if has_suffix ".seg" name then
        r ← load_one name;
        match r with
        | inl e => mret (inl e)
        | inr None => load_all names openSegs
        | inr (Some l) => load_all names (openSegs ++ [l])
        end
      else load_all names openSegs
  end.

(** Modification times order the open segments; only the newest stays open. *)
Context (mtime : nat -> bytes -> Z).

Definition older (w : SegWorld) (a b : nat) : Prop :=
  mtime (sw_tick w) (sg_path (seg_at a w)) <= mtime (sw_tick w) (sg_path (seg_at b w)).

#[local] Instance older_dec w : RelDecision (older w).
Proof. intros a b. unfold older. apply _. Defined.

Fixpoint finalize_each (segs : list nat) : S (option error) :=
  match segs with
  | [] => mret None
  | l :: segs => r ← FinalizeSegment l; match r with Some e => mret (Some e) | None => finalize_each segs end
  end.

Definition loadSegments : S (option error) :=
  f ← sw_syscall;
  match f with
  | Some e => mret (Some (WrapError "failed to read segment directory" segmentsPath (EPathError "open" segmentsPath e)))
  | None =>
      w ← st_get;
      r ← load_all (dir_entries (sw_disk w) segmentsPath) [];
      match r with
      | inl e => mret (Some e)
      | inr openSegs =>
          w ← st_get;
          let openSegs := if (1 <? Z.of_nat (List.length openSegs)) then merge_sort (older w) openSegs else openSegs in
          r ← finalize_each (removelast openSegs);
          match r with
          | Some e => mret (Some e)
          | None =>
              _ ← st_modify (fun w => sw_setopen (sw_openSegments w ++ match last openSegs with Some l => [l] | None => [] end) w);
              mret None
          end
      end
  end.

End Manager.

(** A manager starts with empty lists, on whatever files there are. *)
Definition NewManager (env : Env) (sf : SegFaults) (basePath : bytes) (segmentSize : Z) (mtime : nat -> bytes -> Z)
    : ST SegWorld (option error) :=
  let segmentsPath := filepath_Join basePath "segments" in
  f ← sw_syscall env;
  match f with
  | Some e => mret (Some (WrapError "failed to create segment directory" segmentsPath (EPathError "mkdir" segmentsPath e)))
  | None =>
      _ ← st_modify (fun w => MkSegWorld (sw_disk w) (sw_tick w) (sw_heap w) (sw_next w) [] ∅ []);
      loadSegments env sf segmentsPath segmentSize mtime
  end.
