(* ===== verification/SegmentRecovery.v ===== *)
(** * Recovery of open segments

    [validateOpenSegment] on an arbitrary file: it always ends, what it keeps is a
    sequence of complete entries with matching checksums, and a file of complete
    entries followed by the zeros of the preallocated space keeps all of them. *)

From S2P Require Import Prelude Keys Errors Message Merge Rocks World Files Wp StorageProps SegmentFormat Segments SegmentProps.

Open Scope Z_scope.

#[local] Arguments crc32 : simpl never.
#[local] Arguments BuildValueHeader : simpl never.
#[local] Arguments ReadValueHeaderAt : simpl never.

Definition two60 : Z := 1152921504606846976.

(** A call of the file system fails. *)
Definition seg_failed (env : Env) (sf : SegFaults) : Prop := io_failed env \/ exists n e, pos_fault sf n = Some e.

(** One of the calls between two instants does. *)
Definition failed_in (env : Env) (sf : SegFaults) (t t' : nat) : Prop :=
  exists n e, (t <= n < t')%nat /\ (env_fault env n = Some e \/ pos_fault sf n = Some e).

Lemma failed_in_seg env sf t t' : failed_in env sf t t' -> seg_failed env sf.
Proof. intros (n & e & _ & [E|E]); [left|right]; by exists n, e. Qed.

Section Recovery.

(** The recovery starts at the instant [t0]. *)
Context (env : Env) (sf : SegFaults) (t0 : nat).
Implicit Types io : SegIO.

Definition failed_by io : Prop := failed_in env sf t0 (io_tick io).

Lemma failed_by_mono io io' : (io_tick io <= io_tick io')%nat -> failed_by io -> failed_by io'.
Proof. intros Ht (n & e & Hn & E). exists n, e. split; [lia|done]. Qed.

Lemma failed_io io io' e : (t0 <= io_tick io)%nat -> env_fault env (io_tick io) = Some e -> io_tick io' = S (io_tick io) -> failed_by io'.
Proof. intros Ht E E'. exists (io_tick io), e. split; [lia|by left]. Qed.

Lemma failed_pos io io' e : (t0 <= io_tick io)%nat -> pos_fault sf (io_tick io) = Some e -> io_tick io' = S (io_tick io) -> failed_by io'.
Proof. intros Ht E E'. exists (io_tick io), e. split; [lia|by right]. Qed.

(** What stays of a file: the segment object with its descriptor and this content. *)
Definition at_rest (s : Segment) (c : bytes) io : Prop := same_stats s (io_seg io) /\ is_Some (sg_file (io_seg io)) /\ io_content io = c
  /\ (t0 <= io_tick io)%nat.

Lemma at_rest_tick s c io : at_rest s c io -> at_rest s c (MkIO (io_seg io) (io_content io) (S (io_tick io))).
Proof. intros (H1 & H2 & H3 & H4). split_and!; [done..|]. cbn. lia. Qed.

(** An error that wraps another, as every error of the recovery does. *)
Definition wrapped (e : error) : Prop := exists msg err, e = EWrap msg err.

(** The scan ends at [p], the front part of the file that is kept. *)
Lemma wp_stop s c p what entries dataBytes (Q : error + Z * Z * Z -> SegIO -> Prop) io :
  at_rest s c io -> stake (String.length p) c = p ->
  (forall e io', wrapped e -> failed_by io' -> Q (inl e) io') ->
  (forall io', at_rest s p io' -> (io_tick io <= io_tick io')%nat -> Q (inr (entries, dataBytes, slen p)) io') ->
  wp (r ← truncate_at sf what (slen p); mret match r with Some e => inl e | None => inr (entries, dataBytes, slen p) end) Q io.
Proof.
  intros (Hs & Hf & Hc & Ht) Hp H1 H2. unfold truncate_at, file_Truncate. apply wp_bind, wp_bind, wp_fun. cbn [fst snd the_seg].
  apply wp_bind, wp_bind, wp_fun. cbn [fst snd io_possyscall]. apply wp_bind, wp_fun. cbn [fst snd the_seg].
  destruct (pos_fault sf (io_tick io)) as [e|] eqn:Ef; [apply wp_ret, wp_ret, wp_ret, H1; [by eexists _, _|by eapply (failed_pos io)]|].
  pose proof (slen_nonneg p). destruct (Z.ltb_spec (slen p) 0); [lia|]. apply wp_fun. cbn [fst snd]. apply wp_ret, wp_ret, H2; [|cbn; lia].
  split_and!; [done|done| |cbn; lia]. cbn. rewrite slen_nat, Hc. by apply ftruncate_front.
Qed.

(** A negative position cannot be truncated to. *)
Lemma wp_stop_negative what pos entries dataBytes (Q : error + Z * Z * Z -> SegIO -> Prop) io :
  pos < 0 -> (forall e io', wrapped e -> Q (inl e) io') ->
  wp (r ← truncate_at sf what pos; mret match r with Some e => inl e | None => inr (entries, dataBytes, pos) end) Q io.
Proof.
  intros Hp H1. unfold truncate_at, file_Truncate. apply wp_bind, wp_bind, wp_fun. cbn [fst snd the_seg].
  apply wp_bind, wp_bind, wp_fun. cbn [fst snd io_possyscall]. apply wp_bind, wp_fun. cbn [fst snd the_seg].
  destruct (pos_fault sf (io_tick io)) as [e|]; [apply wp_ret, wp_ret, wp_ret, H1; by eexists _, _|].
  destruct (Z.ltb_spec pos 0); [|lia]. apply wp_ret, wp_ret, wp_ret, H1. by eexists _, _.
Qed.

(** The bytes [c] from [pos] on begin with a header for [key]. *)
Definition header_at (c : bytes) (pos : Z) (key : bytes) (valLen checksum : Z) : Prop :=
  exists rest, sdrop (Z.to_nat pos) c = BuildValueHeader key valLen checksum CurrentValueHeaderVersion +:+ rest.

Definition header_ok (key : bytes) (valLen checksum : Z) : Prop :=
  0 < slen key < two32 /\ 0 < valLen < two63 /\ is_u32 checksum.

Lemma sapp_inj_l (a a' b b' : bytes) : String.length a = String.length a' -> a +:+ b = a' +:+ b' -> a = a' /\ b = b'.
Proof.
  intros Hl E. assert (a = a') as ->.
  { rewrite <- (stake_app a b), E, Hl. apply stake_app. }
  split; [done|]. by apply String.app_inj in E.
Qed.

Lemma header_at_read c pos key valLen checksum : 0 <= pos -> header_ok key valLen checksum -> header_at c pos key valLen checksum ->
  ReadValueHeaderAt c pos = inr (valLen, CalculateValueHeaderSize key, slen key, CurrentValueHeaderVersion, checksum).
Proof.
  intros Hpos (Hk & Hv & Hc) [rest E]. pose proof (header_at_roundtrip EmptyString key valLen checksum rest Hv Hk Hc) as Hr.
  rewrite sapp_nil_l, <- E in Hr. unfold ReadValueHeaderAt, pread in *. cbn [slen String.length Z.of_nat Z.ltb Z.compare Z.to_nat sdrop] in Hr.
  destruct (Z.ltb_spec pos 0); [lia|]. done.
Qed.

(** There is one header at a position. *)
Lemma header_at_unique c pos k1 v1 c1 k2 v2 c2 : 0 <= pos -> header_ok k1 v1 c1 -> header_ok k2 v2 c2 ->
  header_at c pos k1 v1 c1 -> header_at c pos k2 v2 c2 -> k1 = k2 /\ v1 = v2 /\ c1 = c2.
Proof.
  intros Hp H1 H2 Ha1 Ha2. pose proof (header_at_read _ _ _ _ _ Hp H1 Ha1) as E1. rewrite (header_at_read _ _ _ _ _ Hp H2 Ha2) in E1.
  injection E1 as -> _ Ek ->. split; [|done]. destruct Ha1 as [r1 E1], Ha2 as [r2 E2]. rewrite E1 in E2. rewrite !header_split, !sapp_assoc in E2.
  apply sapp_inj_l in E2 as [_ E2]; [|by rewrite !fixed_header_length]. apply sapp_inj_l in E2 as [-> _]; [done|]. unfold slen in Ek. lia.
Qed.

Lemma header_at_key c pos key valLen checksum : 0 <= pos -> header_at c pos key valLen checksum ->
  stake (String.length key) (sdrop (Z.to_nat pos + 18) c) = key.
Proof.
  intros Hp [rest E]. rewrite <- sdrop_sdrop, E, header_split, sapp_assoc.
  rewrite <- (fixed_header_length valLen (slen key) checksum CurrentValueHeaderVersion), sdrop_app. apply stake_app.
Qed.

(** What one step of the iterator delivers. *)
Lemma wp_Next s c it (Q : (error + EntryInfo) * Iterator -> SegIO -> Prop) io :
  at_rest s c io -> 0 <= it_currentPos it -> slen c < two60 ->
  (forall e it' io', at_rest s c io' -> (~ failed_by io' -> it_fileSize it - SegmentFooterSize <= it_currentPos it
     \/ forall key valLen checksum, header_ok key valLen checksum -> ~ header_at c (it_currentPos it) key valLen checksum) ->
     Q (inl e, it') io') ->
  (forall key valLen checksum io', at_rest s c io' -> it_currentPos it < it_fileSize it - SegmentFooterSize ->
     header_ok key valLen checksum -> header_at c (it_currentPos it) key valLen checksum ->
     Q (inr (MkEntry key (it_currentPos it) (CalculateValueHeaderSize key) valLen checksum CurrentValueHeaderVersion),
        MkIter (i64 (it_currentPos it + i64 (CalculateValueHeaderSize key + valLen))) (it_fileSize it) (it_lastError it)) io') ->
  wp (Next env it) Q io.
Proof.
  intros Hr Hpos Hsmall H1 H2. unfold Next. destruct (Z.leb_spec (it_fileSize it - SegmentFooterSize) (it_currentPos it)) as [|Hlt];
    [apply wp_ret, H1; auto|].
  apply wp_bind. unfold read_header. apply wp_bind, wp_fun. cbn [fst snd io_syscall]. apply wp_bind, wp_fun. cbn [fst snd the_seg].
  pose proof Hr as (_ & _ & _ & Ht). apply at_rest_tick in Hr.
  destruct (env_fault env (io_tick io)) eqn:Ef1; [apply wp_ret, wp_ret, H1; [done|]; intros []; by eapply (failed_io io)|]. apply wp_fun. cbn [fst snd io_content].
  pose proof Hr as (Hs & Hf & Hc & _). cbn in Hc. rewrite Hc in Hr |- *.
  destruct (ReadValueHeaderAt c (it_currentPos it)) as [err|[[[[valLen headerSize] keyLen] version] checksum]] eqn:Eh.
  { apply wp_ret, H1; [done|]. intros _. right. intros k v ck Hok Ha. by rewrite (header_at_read _ _ _ _ _ Hpos Hok Ha) in Eh. }
  pose proof Eh as Eread.
  unfold ReadValueHeaderAt, pread in Eh. destruct (Z.ltb_spec (it_currentPos it) 0); [lia|].
  set (rest := sdrop (Z.to_nat (it_currentPos it)) c) in *.
  assert (String.length (stake 18 rest) = 18%nat) as Hl.
  { unfold parse_header in Eh. destruct (Z.ltb_spec (slen (stake 18 rest)) ValueHeaderSize); [done|].
    unfold slen, ValueHeaderSize in *. rewrite slength_stake in *. lia. }
  destruct (parse_header_inv _ _ _ _ _ _ Hl Eh) as (Ef & Hv & Hk & Hck & -> & ->).
  apply wp_bind. unfold file_ReadAt. apply wp_bind, wp_fun. cbn [fst snd io_syscall]. apply wp_bind, wp_fun. cbn [fst snd the_seg io_tick].
  apply at_rest_tick in Hr as Hr2. match goal with |- context [env_fault env ?t] => destruct (env_fault env t) eqn:Ef2 end.
  { apply wp_ret, wp_ret, H1; [done|]. intros []. eapply (failed_io (MkIO (io_seg io) c (S (io_tick io)))); [cbn; lia|exact Ef2|done]. }
  apply wp_fun. cbn [fst snd io_content].
  assert (it_currentPos it + ValueHeaderSize <= slen c) as Hle.
  { unfold rest in Hl. rewrite slength_stake, slength_sdrop in Hl. unfold slen, ValueHeaderSize. lia. }
  rewrite (i64_small (it_currentPos it + ValueHeaderSize)) by (unfold is_i64, two63, two60, ValueHeaderSize in *; lia).
  destruct (Z.ltb_spec (it_currentPos it + ValueHeaderSize) 0); [unfold ValueHeaderSize in *; lia|].
  replace (Z.to_nat (it_currentPos it + ValueHeaderSize)) with (Z.to_nat (it_currentPos it) + 18)%nat by (unfold ValueHeaderSize; lia).
  rewrite <- sdrop_sdrop. fold rest. set (key := stake (Z.to_nat keyLen) (sdrop 18 rest)).
  destruct (Z.ltb_spec (slen key) keyLen) as [Hshort|Hge].
  { apply wp_ret, H1; [done|]. intros _. right. intros k v ck Hok Ha. rewrite (header_at_read _ _ _ _ _ Hpos Hok Ha) in Eread.
    injection Eread as _ _ Ek _. pose proof (header_at_key _ _ _ _ _ Hpos Ha) as Hk'. rewrite <- sdrop_sdrop in Hk'. fold rest in Hk'.
    unfold key in Hshort. rewrite <- Ek, slen_nat, Hk' in Hshort. lia. }
  assert (slen key = keyLen) as Ek by (unfold key, slen in *; rewrite slength_stake in *; lia).
  apply wp_ret. rewrite <- Ek. change (ValueHeaderSize + slen key) with (CalculateValueHeaderSize key). apply H2; try done; [by split; [rewrite Ek|]|].
  exists (sdrop (Z.to_nat keyLen) (sdrop 18 rest)). fold rest. rewrite header_split, Ek, <- Ef, sapp_assoc.
  unfold key. by rewrite !stake_sdrop.
Qed.

(** From a negative position the scan only fails. *)
Lemma validate_negative fuel size it entries dataBytes io :
  it_currentPos it < 0 -> (0 < fuel)%nat ->
  wp (validate_loop env sf fuel size it entries dataBytes) (fun r _ => exists e, r = inl e /\ wrapped e) io.
Proof.
  intros Hneg Hfuel. destruct fuel as [|fuel]; [lia|]. cbn [validate_loop].
  assert (forall io', wp (r ← truncate_at sf "truncate at read error" (it_currentPos it);
    mret match r with Some e => inl e | None => inr (entries, dataBytes, it_currentPos it) end)
    (fun r _ => exists e, r = inl e /\ wrapped e) io') as Hstop.
  { intros io'. apply wp_stop_negative; [done|]. intros e io2 He. by exists e. }
  apply wp_bind. unfold Next. destruct (_ <=? _); [by apply wp_ret|]. apply wp_bind. unfold read_header. apply wp_bind, wp_fun.
  cbn [fst snd io_syscall]. apply wp_bind, wp_fun. cbn [fst snd the_seg]. destruct (env_fault env (io_tick io)); [by apply wp_ret, wp_ret|].
  apply wp_fun. cbn [fst snd]. unfold ReadValueHeaderAt, pread. destruct (Z.ltb_spec (it_currentPos it) 0); [|lia]. by apply wp_ret.
Qed.

(** ** The scan *)

(** No complete entry follows [es] in the file, except in its last twenty bytes. *)
Definition stuck (c : bytes) (es : list entry) : Prop := forall e rest, entry_ok e ->
  c = encode_all es +:+ encode e +:+ rest -> slen c - SegmentFooterSize <= slen (encode_all es).

Record kept (s : Segment) (c : bytes) (es : list entry) (n d pos : Z) io : Prop := {
  kp_ok : Forall entry_ok es;
  kp_front : stake (String.length (encode_all es)) c = encode_all es;
  kp_count : n = u32 (Z.of_nat (List.length es));
  kp_data : d = i64 (payload es);
  kp_pos : pos = slen (encode_all es);
  kp_rest : at_rest s (encode_all es) io;
  kp_stuck : ~ failed_by io -> stuck c es
}.

(** A header of the file announces a value longer than any file. *)
Definition oversized (c : bytes) : Prop := exists es k v ck, Forall entry_ok es /\ header_ok k v ck
  /\ stake (String.length (encode_all es)) c = encode_all es /\ header_at c (slen (encode_all es)) k v ck
  /\ two63 <= slen (encode_all es) + CalculateValueHeaderSize k + v.

Definition scan_post (s : Segment) (c : bytes) (r : error + Z * Z * Z) io : Prop :=
  match r with
  | inl e => wrapped e /\ (~ failed_by io -> oversized c)
  | inr (n, d, pos) => exists es, kept s c es n d pos io
  end.

(** An entry behind [es] has its header there. *)
Lemma entry_header c es e rest : entry_ok e -> c = encode_all es +:+ encode e +:+ rest ->
  header_ok (e_key e) (slen (e_value e)) (e_sum e) /\ header_at c (slen (encode_all es)) (e_key e) (slen (e_value e)) (e_sum e).
Proof.
  intros [] ->. split; [done|]. exists (e_value e +:+ rest). rewrite slen_nat, sdrop_app. unfold encode. by rewrite sapp_assoc.
Qed.

Lemma checksum_sub c es key valLen checksum rest :
  stake (String.length (encode_all es)) c = encode_all es ->
  sdrop (Z.to_nat (slen (encode_all es))) c = BuildValueHeader key valLen checksum CurrentValueHeaderVersion +:+ rest ->
  stake (Z.to_nat valLen) (sdrop (Z.to_nat (slen (encode_all es) + CalculateValueHeaderSize key)) c) = stake (Z.to_nat valLen) rest.
Proof.
  intros Hp E. rewrite slen_nat in E. pose proof (header_length key valLen checksum CurrentValueHeaderVersion) as Hl.
  replace (Z.to_nat (slen (encode_all es) + CalculateValueHeaderSize key)) with
    (String.length (encode_all es) + String.length (BuildValueHeader key valLen checksum CurrentValueHeaderVersion))%nat by (unfold slen in *; lia).
  rewrite <- sdrop_sdrop, E, sdrop_app. done.
Qed.

(** A header whose value fits in the file, with a matching checksum, is an entry. *)
Lemma entry_found c es key valLen checksum rest :
  stake (String.length (encode_all es)) c = encode_all es -> header_ok key valLen checksum ->
  sdrop (Z.to_nat (slen (encode_all es))) c = BuildValueHeader key valLen checksum CurrentValueHeaderVersion +:+ rest ->
  slen (encode_all es) + CalculateValueHeaderSize key + valLen <= slen c ->
  checksum = 0 \/ crc32 (stake (Z.to_nat valLen) rest) = checksum ->
  let e := MkE key (stake (Z.to_nat valLen) rest) checksum in
  entry_ok e /\ slen (encode e) = CalculateValueHeaderSize key + valLen
  /\ stake (String.length (encode_all (es ++ [e]))) c = encode_all (es ++ [e]).
Proof.
  intros Hp (Hk & Hv & Hc) E Hle Hsum e. rewrite slen_nat in E.
  pose proof (header_length key valLen checksum CurrentValueHeaderVersion) as Hl.
  assert (c = encode_all es +:+ BuildValueHeader key valLen checksum CurrentValueHeaderVersion +:+ rest) as Ec.
  { rewrite <- E, <- Hp at 1. symmetry. apply stake_sdrop. }
  assert (slen (stake (Z.to_nat valLen) rest) = valLen) as Ev.
  { rewrite Ec, !slen_app, Hl in Hle. unfold slen in *. rewrite slength_stake. lia. }
  assert (encode e = BuildValueHeader key valLen checksum CurrentValueHeaderVersion +:+ stake (Z.to_nat valLen) rest) as Ee.
  { unfold encode, e. cbn [e_key e_value e_sum]. by rewrite Ev. }
  split_and!.
  - split; cbn; rewrite ?Ev; try done. intuition.
  - rewrite slen_encode. cbn. by rewrite Ev.
  - rewrite encode_all_app. cbn [encode_all]. rewrite sapp_nil_r, Ee, Ec. rewrite <- (stake_sdrop (Z.to_nat valLen) rest) at 2.
    rewrite <- !sapp_assoc. apply stake_app.
Qed.
(** Why an entry that the scan refuses is not there. *)
Lemma stuck_by_header c es key valLen checksum :
  header_ok key valLen checksum -> header_at c (slen (encode_all es)) key valLen checksum ->
  slen c < slen (encode_all es) + CalculateValueHeaderSize key + valLen -> stuck c es.
Proof.
  intros Hok Ha Hlt e rest He Ec. exfalso. destruct (entry_header c es e rest He Ec) as [Hok' Ha'].
  destruct (header_at_unique _ _ _ _ _ _ _ _ (slen_nonneg _) Hok Hok' Ha Ha') as (-> & -> & ->).
  rewrite Ec, !slen_app, slen_encode in Hlt. pose proof (slen_nonneg rest). lia.
Qed.

Lemma stuck_by_checksum c es key valLen checksum rest :
  stake (String.length (encode_all es)) c = encode_all es -> header_ok key valLen checksum ->
  sdrop (Z.to_nat (slen (encode_all es))) c = BuildValueHeader key valLen checksum CurrentValueHeaderVersion +:+ rest ->
  checksum <> 0 -> crc32 (stake (Z.to_nat valLen) rest) <> checksum -> stuck c es.
Proof.
  intros Hp Hok E Hz Hsum e rest' He Ec. exfalso. destruct (entry_header c es e rest' He Ec) as [Hok' Ha'].
  destruct (header_at_unique c (slen (encode_all es)) key valLen checksum (e_key e) (slen (e_value e)) (e_sum e)) as (-> & -> & ->);
    try done; [apply slen_nonneg|by exists rest|].
  destruct (ok_crc _ He) as [|Hcrc]; [done|]. apply Hsum. rewrite Hcrc. f_equal.
  rewrite slen_nat, Ec, sdrop_app in E. unfold encode in E. rewrite sapp_assoc in E. apply sapp_inj_l in E as [_ E]; [|done].
  rewrite <- E, slen_nat. apply stake_app.
Qed.

Lemma wp_entry_checksum s c p key valLen checksum rest io :
  at_rest s c io -> stake (String.length (encode_all p)) c = encode_all p -> slen (encode_all p) < two60 -> header_ok key valLen checksum ->
  sdrop (Z.to_nat (slen (encode_all p))) c = BuildValueHeader key valLen checksum CurrentValueHeaderVersion +:+ rest ->
  wp (if checksum =? 0 then mret (inr 0) else section_checksum env (i64 (slen (encode_all p) + CalculateValueHeaderSize key)) valLen)
    (fun sum io' => at_rest s c io' /\ match sum with
       | inl e => failed_by io'
       | inr x => checksum = 0 \/ x = crc32 (stake (Z.to_nat valLen) rest) end) io.
Proof.
  intros Hr Hfront Hsm (Hk & _) Erest. destruct (Z.eqb_spec checksum 0); [apply wp_ret; auto|]. unfold section_checksum.
  apply wp_bind, wp_fun. cbn [fst snd io_syscall]. apply wp_bind, wp_fun. cbn [fst snd the_seg]. pose proof Hr as (_ & _ & _ & Ht). apply at_rest_tick in Hr.
  destruct (env_fault env (io_tick io)) eqn:Ef; [apply wp_ret; split; [done|by eapply (failed_io io)]|]. apply wp_fun. cbn [fst snd io_content].
  split; [done|]. right. f_equal. destruct Hr as (_ & _ & Hc' & _). cbn in Hc'. rewrite Hc'.
  rewrite i64_small; [by eapply checksum_sub|]. pose proof (slen_nonneg (encode_all p)).
  unfold is_i64, CalculateValueHeaderSize, ValueHeaderSize, two60, two63, two32 in *. lia.
Qed.

(** The statistics after one more entry. *)
Lemma stats_snoc es e : u32 (u32 (Z.of_nat (List.length es)) + 1) = u32 (Z.of_nat (List.length (es ++ [e])))
  /\ i64 (i64 (payload es) + slen (e_value e)) = i64 (payload (es ++ [e]))
  /\ slen (encode_all (es ++ [e])) = slen (encode_all es) + slen (encode e).
Proof.
  split_and!.
  - unfold u32. rewrite Zplus_mod_idemp_l, length_app. f_equal. cbn. lia.
  - rewrite i64_add_l, payload_app. cbn. f_equal. lia.
  - rewrite encode_all_app, slen_app. cbn [encode_all]. by rewrite sapp_nil_r.
Qed.

Lemma validate_loop_spec fuel s c es it io :
  at_rest s c io -> slen c < two60 -> it_currentPos it = slen (encode_all es) -> it_fileSize it = slen c ->
  stake (String.length (encode_all es)) c = encode_all es -> Forall entry_ok es -> slen c - slen (encode_all es) < Z.of_nat fuel ->
  wp (validate_loop env sf fuel (slen c) it (u32 (Z.of_nat (List.length es))) (i64 (payload es))) (scan_post s c) io.
Proof.
  revert es it io. induction fuel as [|fuel IH]; intros es it io Hr Hc62 Hpos Hsize Hfront Hok Hfuel; cbn [validate_loop].
  { exfalso. pose proof (stake_front _ _ _ Hfront eq_refl). unfold slen in Hfuel. lia. }
  pose proof (stake_front _ _ _ Hfront eq_refl) as Hlen. set (p := encode_all es) in *.
  assert (slen p <= slen c) as Hle by (unfold slen; lia). pose proof (slen_nonneg p) as Hp0.
  assert (forall what io', at_rest s c io' -> (~ failed_by io' -> stuck c es) ->
    wp (r ← truncate_at sf what (slen p);
        mret match r with Some e => inl e | None => inr (u32 (Z.of_nat (List.length es)), i64 (payload es), slen p) end)
      (scan_post s c) io') as Hstop.
  { intros what io' Hr' Hst. eapply (wp_stop s c p); [done|done|..].
    - intros e io2 He Hf. split; [done|]. by intros [].
    - intros io2 Hr2 Ht2. exists es. split; try done. intros Hno. apply Hst. intros Hf. by apply Hno, (failed_by_mono io'). }
  apply wp_bind. eapply (wp_Next s c); [done|lia|done|..].
  - intros e it' io' Hr' Hno. rewrite Hpos. apply Hstop; [done|]. intros Hio e' rest He' Ec. destruct (Hno Hio) as [Hend|Hnone]; [fold p; lia|].
    destruct (entry_header c es e' rest He' Ec) as [Hok' Ha']. rewrite Hpos in Hnone. by destruct (Hnone _ _ _ Hok' Ha').
  - intros key valLen checksum io' Hr' Hbefore Hhok Hat. cbn [en_ValueLength en_Key en_HeaderSize en_Checksum].
    pose proof Hhok as (Hk & Hv & Hck). rewrite Hpos in Hat |- *. rewrite Hpos, Hsize in Hbefore. rewrite i64_add_r.
    destruct (Z.leb_spec valLen 0); [lia|]. destruct (Z.leb_spec (slen key) 0); [lia|]. cbn [orb].
    set (N := slen p + (CalculateValueHeaderSize key + valLen)).
    assert (0 < N < two63 + two63) as HN.
    { unfold N, CalculateValueHeaderSize, ValueHeaderSize, two60, two63, two32 in *. lia. }
    destruct (Z.ltb_spec (slen c) (i64 N)) as [Hbig|Hfit].
    { apply Hstop; [done|]. intros _. eapply stuck_by_header; [exact Hhok|exact Hat|]. fold p.
      destruct (decide (N < two63)) as [|Hover]; [rewrite i64_small in Hbig by (unfold is_i64; lia); unfold N in *; lia|].
      unfold N, two60, two63 in *. lia. }
    pose proof Hat as [rest Erest]. apply wp_bind.
    eapply wp_mono; [eapply (wp_entry_checksum s c es); try done; fold p; lia|].
    intros sum io2 [Hr2 Hsum]. apply wp_bind, wp_fun. cbn [fst snd the_seg]. destruct sum as [e|x].
    { apply wp_ret. split; [by eexists _, _|]. by intros []. }
    destruct (negb (checksum =? 0) && negb (x =? checksum)) eqn:Emis.
    { bool_facts. destruct Hsum as [|Hsum]; [done|]. apply Hstop; [done|]. intros _. eapply stuck_by_checksum; try done. congruence. }
    assert (checksum = 0 \/ crc32 (stake (Z.to_nat valLen) rest) = checksum) as Hcrc.
    { apply andb_false_iff in Emis as [Em|Em]; bool_facts; [by left|]. destruct Hsum as [|Hsum]; [by left|]. right. congruence. }
    destruct (decide (N < two63)) as [Hsm|Hover].
    + rewrite i64_small in Hfit by (unfold is_i64; lia).
      destruct (entry_found c es key valLen checksum rest) as (Heok & Hel & Hef); try done; [unfold N in *; fold p; lia|].
      set (e := MkE key _ _) in *.
      destruct (stats_snoc es e) as (-> & E2 & EN). pose proof (slen_encode e) as El. rewrite Hel in El. cbn [e e_key e_value] in El.
      assert (slen (e_value e) = valLen) as Ev by (cbn; lia). rewrite Ev in E2. rewrite E2, Hel in *. fold p in EN.
      replace (slen p + (CalculateValueHeaderSize key + valLen)) with N in EN by done.
      apply IH; try done; cbn [it_currentPos it_fileSize].
      * by rewrite EN, i64_small by (unfold is_i64; lia).
      * apply Forall_app. split; [done|]. by constructor.
      * rewrite EN. unfold N, CalculateValueHeaderSize, ValueHeaderSize in *. lia.
    + assert (i64 N < 0) as Hneg.
      { clear -HN Hover. unfold i64, two63, two64 in *. Z.div_mod_to_equations. lia. }
      eapply wp_mono; [apply validate_negative; [done|unfold SegmentFooterSize in *; lia]|].
      intros r io3 (e & -> & He). split; [done|]. intros _. exists es, key, valLen, checksum. split_and!; try done.
      fold p. unfold N in *. lia.
Qed.

(** ** The whole recovery *)

Definition recovered (c : bytes) (r : option error) io' : Prop :=
  match r with
  | Some e => wrapped e /\ (~ failed_by io' -> oversized c)
  | None => exists es, Forall entry_ok es /\ holds es io' /\ io_content io' = encode_all es
      /\ (exists rest, c = encode_all es +:+ rest) /\ (~ failed_by io' -> stuck c es)
  end.

Lemma wp_file_Seek n (Q : option error -> SegIO -> Prop) io : 0 <= n -> (t0 <= io_tick io)%nat ->
  (forall e io', failed_by io' -> Q (Some e) io') ->
  (forall io', same_stats (io_seg io) (io_seg io') -> sg_file (io_seg io') = Some n -> io_content io' = io_content io ->
     (io_tick io <= io_tick io')%nat -> Q None io') ->
  wp (file_Seek sf n) Q io.
Proof.
  intros Hn Ht H1 H2. unfold file_Seek. apply wp_bind, wp_fun. cbn [fst snd io_possyscall]. apply wp_bind, wp_fun. cbn [fst snd the_seg].
  destruct (pos_fault sf (io_tick io)) as [e|] eqn:Ef; [apply wp_ret, H1; by eapply (failed_pos io)|].
  destruct (Z.ltb_spec n 0); [lia|]. apply wp_bind, wp_fun, wp_ret, H2; cbn; [apply same_stats_move|done|done|lia].
Qed.

Lemma wp_file_Size s c (Q : error + Z -> SegIO -> Prop) io : at_rest s c io ->
  (forall e io', failed_by io' -> Q (inl e) io') -> (forall io', at_rest s c io' -> Q (inr (slen c)) io') -> wp (file_Size env) Q io.
Proof.
  intros Hr H1 H2. pose proof Hr as (_ & _ & _ & Ht). unfold file_Size. apply wp_bind, wp_fun. cbn [fst snd io_syscall]. apply wp_bind, wp_fun. cbn [fst snd the_seg].
  destruct (env_fault env (io_tick io)) as [e|] eqn:Ef; [apply wp_ret, H1; by eapply (failed_io io)|]. apply wp_fun. cbn [fst snd io_content].
  pose proof Hr as (_ & _ & Ec & _). apply at_rest_tick in Hr. rewrite Ec in Hr |- *. by apply H2.
Qed.

Lemma validateOpenSegment_spec c io :
  io_content io = c -> is_Some (sg_file (io_seg io)) -> slen c < two60 -> io_tick io = t0 -> wp (validateOpenSegment env sf) (recovered c) io.
Proof.
  intros Hc Hf Hsm Ht0. unfold validateOpenSegment. apply wp_bind, wp_fun. cbn [fst snd the_seg].
  assert (forall what e io', failed_by io' -> wp (mret (M := ST SegIO) (Some (WrapError what (sg_path (io_seg io)) e))) (recovered c) io') as Hfail.
  { intros what e io' Hio. apply wp_ret. split; [by eexists _, _|]. by intros []. }
  apply wp_bind, wp_file_Seek; [done|lia|by auto|].
  intros io1 Hs1 Hf1 Hc1 Ht1. assert (at_rest (io_seg io) c io1) as Hr1 by (split_and!; [done|by rewrite Hf1; eexists|congruence|lia]).
  apply wp_bind. eapply (wp_file_Size (io_seg io) c); [done|by auto|]. intros io2 Hr2.
  apply wp_bind. unfold NewIterator. apply wp_bind. eapply (wp_file_Size (io_seg io) c); [done|intros e io' Hio; apply wp_ret; by auto|].
  intros io3 Hr3. apply wp_ret, wp_bind. eapply wp_mono.
  { apply (validate_loop_spec _ (io_seg io) c [] (MkIter 0 (slen c) None)); try done.
    pose proof (slen_nonneg c). change (slen (encode_all [])) with 0. lia. }
  intros [e|[[n d] pos]] io4 Hp; [by apply wp_ret|]. destruct Hp as (es & [Hok Hfront Hn Hd Hpos Hrest Hst]).
  apply wp_bind, wp_fun. cbn [fst snd update_seg]. destruct Hrest as (Hs & Hfile & Hcont & Ht4).
  pose proof (stake_front _ _ _ Hfront eq_refl) as Hle. pose proof (slen_nonneg (encode_all es)).
  apply wp_bind, wp_file_Seek; [lia|done|by auto|]. cbn [io_seg io_content io_tick].
  intros io5 Hs5 Hf5 Hc5 Ht5. apply wp_ret. exists es. rewrite Hcont in Hc5. split_and!; try done.
  - destruct io5 as [s5 c5 t5]. cbn in *. unfold same_stats in Hs5. assert (s5 = SetOpenFile (sg_file s5) (set_stats pos n d (io_seg io4))) as E5.
    { rewrite <- Hs5. by destruct s5. }
    rewrite E5. split; cbn; rewrite ?Hc5, ?Hf5, ?Hpos; try done; [by rewrite stake_all|]. unfold slen, two60, two63 in *. lia.
  - exists (sdrop (String.length (encode_all es)) c). rewrite <- Hfront at 1. symmetry. apply stake_sdrop.
  - intros Hno. apply Hst. intros Hx. by apply Hno, (failed_by_mono io4).
Qed.
End Recovery.

(** ** Unique decoding *)

Lemma szeros_cons n : szeros (S n) = String zero (szeros n).
Proof. done. Qed.

Lemma stake_szeros m n : stake m (szeros n) = szeros (m `min` n).
Proof. revert n. induction m as [|m IH]; intros [|n]; try done. cbn [Nat.min]. rewrite !szeros_cons. cbn. by rewrite IH. Qed.

Lemma all_zero_szeros n : all_zero (szeros n) = true.
Proof. induction n as [|n IH]; [done|]. rewrite szeros_cons. cbn. by rewrite IH. Qed.

(** Zeros hold no header. *)
Lemma zeros_no_header n key valLen checksum : header_ok key valLen checksum -> ~ header_at (szeros n) 0 key valLen checksum.
Proof.
  intros Hok Ha. pose proof (header_at_read _ _ _ _ _ (Z.le_refl 0) Hok Ha) as E. unfold ReadValueHeaderAt, pread in E.
  change (sdrop (Z.to_nat 0) (szeros n)) with (szeros n) in E. cbn [Z.ltb Z.compare] in E. unfold parse_header in E. rewrite stake_szeros, all_zero_szeros in E. by destruct (_ <? _).
Qed.

Lemma encode_header e rest : header_at (encode e +:+ rest) 0 (e_key e) (slen (e_value e)) (e_sum e).
Proof. exists (e_value e +:+ rest). cbn [Z.to_nat sdrop]. unfold encode. by rewrite sapp_assoc. Qed.

Lemma entry_ok_header e : entry_ok e -> header_ok (e_key e) (slen (e_value e)) (e_sum e).
Proof. by intros []. Qed.

(** A well-formed entry at the front of a file is the only one there. *)
Lemma encode_inj e e' r r' : entry_ok e -> entry_ok e' -> encode e +:+ r = encode e' +:+ r' -> e = e' /\ r = r'.
Proof.
  intros He He' E. destruct (header_at_unique (encode e +:+ r) 0 (e_key e) (slen (e_value e)) (e_sum e)
    (e_key e') (slen (e_value e')) (e_sum e')) as (Hk & Hv & Hs); try by auto using entry_ok_header.
  { apply encode_header. } { rewrite E. apply encode_header. }
  unfold encode in E. rewrite Hk, Hv, Hs, !sapp_assoc in E. apply sapp_inj_l in E as [_ E]; [|done].
  apply sapp_inj_l in E as [Ev ->]; [|unfold slen in Hv; lia]. split; [|done]. destruct e, e'. cbn in *. congruence.
Qed.

(** Well-formed entries that a file of entries and zeros starts with are the first of its entries. *)
Lemma decode_prefix es' es n rest : Forall entry_ok es' -> Forall entry_ok es ->
  encode_all es +:+ szeros n = encode_all es' +:+ rest -> exists post, es = es' ++ post /\ rest = encode_all post +:+ szeros n.
Proof.
  intros Hok'. revert es rest. induction Hok' as [|e' es' He' _ IH]; intros es rest Hok E; [by exists es|].
  cbn [encode_all] in E. rewrite sapp_assoc in E. destruct Hok as [|e es He Hes].
  { exfalso. cbn [encode_all] in E. rewrite sapp_nil_l in E. apply (zeros_no_header n _ _ _ (entry_ok_header _ He')).
    rewrite E. apply encode_header. }
  cbn [encode_all] in E. rewrite sapp_assoc in E. apply encode_inj in E as [-> E]; [|done..].
  destruct (IH _ _ Hes E) as (post & -> & ->). by exists post.
Qed.

(** A file of complete entries announces no oversized one. *)
Lemma not_oversized es n : Forall entry_ok es -> slen (encode_all es) < two60 -> ~ oversized (encode_all es +:+ szeros n).
Proof.
  intros Hok Hsm (es' & k & v & ck & Hok' & Hh & Hp & Ha & Hbig). set (c := _ +:+ szeros n) in *.
  assert (c = encode_all es' +:+ sdrop (String.length (encode_all es')) c) as Ec by (rewrite <- Hp at 1; symmetry; apply stake_sdrop).
  destruct (decode_prefix _ _ _ _ Hok' Hok Ec) as (post & -> & Er).
  assert (header_at (sdrop (String.length (encode_all es')) c) 0 k v ck) as Ha0.
  { destruct Ha as [rest Hr]. exists rest. rewrite slen_nat in Hr. by rewrite Hr. }
  rewrite Er in Ha0. destruct post as [|e post]; [by apply (zeros_no_header n _ _ _ Hh)|]. apply Forall_app in Hok as [_ Hpost].
  apply Forall_cons_1 in Hpost as [He _]. cbn [encode_all] in Ha0. rewrite sapp_assoc in Ha0.
  destruct (header_at_unique _ 0 _ _ _ _ _ _ (Z.le_refl 0) Hh (entry_ok_header _ He) Ha0 (encode_header _ _)) as (-> & -> & _).
  rewrite encode_all_app in Hsm. cbn [encode_all] in Hsm. rewrite !slen_app, slen_encode in Hsm.
  pose proof (slen_nonneg (encode_all post)). unfold two60, two63 in *. lia.
Qed.

(** Two readings of a file: one is a front part of the other. *)
Lemma readings_nested a b ra rb : Forall entry_ok a -> Forall entry_ok b -> encode_all a +:+ ra = encode_all b +:+ rb ->
  (exists post, a = b ++ post) \/ exists e post, b = a ++ e :: post.
Proof.
  intros Ha. revert b. induction Ha as [|x a Hx _ IH]; intros [|y b] Hb E; [by left; exists []|by right; exists y, b|by left; exists (x :: a)|].
  apply Forall_cons_1 in Hb as [Hy Hb]. cbn [encode_all] in E. rewrite !sapp_assoc in E. apply encode_inj in E as [-> E]; [|done..].
  destruct (IH b Hb E) as [[post ->]|(e & post & ->)]; [left; by exists post|right; by exists e, post].
Qed.

(** [es] is the longest sequence of complete, matching entries that the file starts with,
    not counting entries that begin in its last twenty bytes (where a footer is expected). *)
Definition longest (c : bytes) (es : list entry) : Prop := forall es' rest, Forall entry_ok es' -> c = encode_all es' +:+ rest ->
  (exists post, es = es' ++ post) \/ slen c - SegmentFooterSize <= slen (encode_all es).

Lemma stuck_longest c es rest : Forall entry_ok es -> c = encode_all es +:+ rest -> stuck c es -> longest c es.
Proof.
  intros Hok Ec Hst es' rest' Hok' Ec'. rewrite Ec in Ec'. destruct (readings_nested _ _ _ _ Hok Hok' Ec') as [?|(e & post & ->)]; [by left|].
  right. apply Forall_app in Hok' as [_ [He _]%Forall_cons_1]. apply (Hst e (encode_all post +:+ rest') He).
  rewrite Ec, Ec', encode_all_app. cbn [encode_all]. by rewrite !sapp_assoc.
Qed.

(** C28: recovery is sound. Whatever the bytes of a segment file and whichever system
    calls fail, [validateOpenSegment] ends. If it succeeds, the file has been cut to a
    sequence of complete entries that it started with (their checksums match, or are zero,
    which means unchecked), and the size,
    the counters and the write position are those of these entries; if moreover none of its
    own calls failed, this is the longest such sequence (what follows an incomplete or
    corrupt entry is dropped with it), except that entries which begin in the last twenty
    bytes of the file are not looked at. If it fails, one of its calls failed or a header
    announces a value of more than [2^63] bytes. *)
Theorem recovery_sound env sf io r io' :
  is_Some (sg_file (io_seg io)) -> slen (io_content io) < two60 -> validateOpenSegment env sf io = (r, io') ->
  match r with
  | Some e => wrapped e /\ (~ failed_in env sf (io_tick io) (io_tick io') -> oversized (io_content io))
  | None => exists es, Forall entry_ok es /\ holds es io' /\ io_content io' = encode_all es
      /\ (exists rest, io_content io = encode_all es +:+ rest)
      /\ (~ failed_in env sf (io_tick io) (io_tick io') -> longest (io_content io) es)
  end.
Proof.
  intros Hf Hsm E. pose proof (wp_run _ _ _ _ _ E (validateOpenSegment_spec env sf (io_tick io) (io_content io) io eq_refl Hf Hsm eq_refl)) as H.
  destruct r as [e|]; [exact H|]. destruct H as (es & H1 & H2 & H3 & [rest H4] & H5). exists es. split_and!; [done..|by exists rest|].
  intros Hno. eapply stuck_longest; [done|exact H4|by apply H5].
Qed.

(** Recovery loses nothing. From a file of complete entries followed by the zeros of
    its preallocated space, without failing calls, [validateOpenSegment] succeeds and
    keeps exactly these entries (provided that a zero follows, or that no entry is as
    short as a footer: those two cases are what separates them in the iterator). *)
Theorem recovery_complete env sf io es n :
  is_Some (sg_file (io_seg io)) -> ~ seg_failed env sf -> io_content io = encode_all es +:+ szeros n -> slen (io_content io) < two60 ->
  Forall entry_ok es -> ((0 < n)%nat \/ Forall (fun e => SegmentFooterSize < slen (encode e)) es) ->
  exists io', validateOpenSegment env sf io = (None, io') /\ io_content io' = encode_all es /\ holds es io'.
Proof.
  intros Hf Hio Hc Hsm Hok Hshort. destruct (validateOpenSegment env sf io) as [r io'] eqn:E. exists io'.
  pose proof (wp_run _ _ _ _ _ E (validateOpenSegment_spec env sf (io_tick io) (io_content io) io eq_refl Hf Hsm eq_refl)) as Hr. rewrite Hc in *.
  assert (~ failed_by env sf (io_tick io) io') as Hno by (intros Hx%failed_in_seg; done).
  assert (slen (encode_all es) < two60) as Hsm' by (rewrite slen_app in Hsm; pose proof (slen_nonneg (szeros n)); lia).
  destruct r as [e|]; [destruct Hr as [_ Hr]; by destruct (not_oversized es n Hok Hsm' (Hr Hno))|].
  destruct Hr as (es' & Hok' & Hh & Hc' & [rest Hrest] & Hst). destruct (decode_prefix _ _ _ _ Hok' Hok Hrest) as (post & -> & _).
  destruct post as [|e post]; [by rewrite app_nil_r|]. exfalso. apply Forall_app in Hok as [_ Hpost]. apply Forall_cons_1 in Hpost as [He _].
  rewrite encode_all_app in *. cbn [encode_all] in *. specialize (Hst Hno e (encode_all post +:+ szeros n) He).
  rewrite !sapp_assoc in Hst. specialize (Hst eq_refl). rewrite !slen_app in Hst. pose proof (slen_encode e) as El. destruct He.
  pose proof (slen_nonneg (encode_all post)). assert (slen (szeros n) = Z.of_nat n) as Hz by (unfold slen; by rewrite szeros_length).
  destruct Hshort as [|Hs]; [|apply Forall_app in Hs as [_ Hs]; apply Forall_cons_1 in Hs as [Hs _]];
    unfold CalculateValueHeaderSize, ValueHeaderSize, SegmentFooterSize in *; lia.
Qed.
