(* ===== verification/SegmentStoreProps.v ===== *)
(** * The segment manager: what is appended can be read, and writers keep apart

    Entries appended through a reserved segment are read back by [ReadEntry] at the
    offset the append returned, for as long as the segment is not removed; finalizing
    a segment and loading it again at startup recovers its counters; a reservation
    gives one caller exclusive use of a segment. *)

From S2P Require Import Prelude Keys Errors Message Merge Rocks World Files Wp StorageProps SegmentFormat Segments SegmentProps SegmentRecovery.

Open Scope Z_scope.

#[local] Arguments crc32 : simpl never.
#[local] Arguments BuildValueHeader : simpl never.
#[local] Arguments BuildSegmentFooterWithVersion : simpl never.

Section Manager.

Context (env : Env) (sf : SegFaults).
Implicit Types w : SegWorld.

(** The file of the registered segment [l] starts with the bytes [p], or with the
    entries [es]. *)
Definition fronted w (l : nat) (path p : bytes) : Prop :=
  sw_segMap w !! path = Some l /\ sg_path (seg_at l w) = path
  /\ (exists c, sw_disk w !! path = Some c /\ stake (String.length p) c = p) /\ slen p < two63.

Definition readable w (l : nat) (path : bytes) (es : list entry) : Prop := fronted w l path (encode_all es).

(** It is open for appending after these entries. *)
Definition appendable w (l : nat) (path : bytes) (es : list entry) : Prop :=
  readable w l path es /\ holds es (MkIO (seg_at l w) (default EmptyString (sw_disk w !! path)) (sw_tick w)).

(** The result of reading an entry of a readable segment: its value, unless the
    descriptor cannot be opened. *)
Lemma wp_ReadEntry l path pre e post (Q : error + bytes -> SegWorld -> Prop) w :
  fronted w l path (pre +:+ encode e +:+ post) -> path <> EmptyString -> e_key e <> EmptyString -> 0 < slen (e_value e) ->
  (forall err w', is_Some (env_fault env (sw_tick w)) -> Q (inl err) w') -> (forall w', Q (inr (e_value e)) w') ->
  wp (ReadEntry env (e_key e) path (slen pre) (slen (e_value e))) Q w.
Proof.
  intros (Hm & Hp & (c & Hd & Hc) & Hsm) Hne Hk Hv H1 H2.
  pose proof (slen_nonneg pre) as H0.
  unfold ReadEntry. rewrite bool_decide_false by done. destruct (Z.ltb_spec (slen pre) 0); [lia|].
  destruct (Z.leb_spec (slen (e_value e)) 0); [lia|]. cbn [orb]. apply wp_bind, wp_fun. cbn [fst snd st_get]. rewrite Hm.
  unfold Segment_ReadEntry. rewrite (bool_decide_false (e_key e = _)) by done.
  destruct (Z.ltb_spec (slen pre) 0); [lia|]. destruct (Z.leb_spec (slen (e_value e)) 0); [lia|]. cbn [orb].
  apply wp_bind, wp_fun. cbn [fst snd sw_syscall]. apply wp_bind, wp_fun. cbn [fst snd st_get sw_disk sw_settick]. apply wp_ret. rewrite Hp, Hd.
  destruct (env_fault env (sw_tick w)) eqn:Ef; [apply H1; by eexists|].
  rewrite !slen_app, slen_encode in Hsm. pose proof (slen_nonneg post).
  rewrite i64_small by (pose proof (slen_nonneg (e_key e)); unfold is_i64, CalculateValueHeaderSize, ValueHeaderSize, two63 in *; lia).
  rewrite <- (stake_sdrop (String.length (pre +:+ encode e +:+ post)) c), Hc, !sapp_assoc, slen_nat, value_inside. apply H2.
Qed.

(** Running a segment operation on the object at [l]. *)
Lemma wp_on_segment {A} l (op : ST SegIO A) (Q : A -> SegWorld -> Prop) w :
  wp op (fun a io => Q a (sw_setheap (<[l := io_seg io]> (sw_heap w))
        (sw_setdisk (<[sg_path (seg_at l w) := io_content io]> (sw_disk w)) (sw_settick (io_tick io) w))))
     (MkIO (seg_at l w) (default EmptyString (sw_disk w !! sg_path (seg_at l w))) (sw_tick w)) ->
  wp (on_segment l op) Q w.
Proof. intros H. unfold on_segment. apply wp_fun. unfold wp in H. by destruct (op _) as [a io]. Qed.

(** ** The identity of a segment *)

(** An operation on a segment keeps its path; the environment's counter only advances. *)
Definition keeps_path {A} (op : ST SegIO A) : Prop := forall io,
  sg_path (io_seg (op io).2) = sg_path (io_seg io) /\ (io_tick io <= io_tick (op io).2)%nat.

Lemma keeps_ret {A} (a : A) : keeps_path (mret a).
Proof. done. Qed.

Lemma keeps_bind {A B} (c : ST SegIO A) (k : A -> ST SegIO B) : keeps_path c -> (forall a, keeps_path (k a)) -> keeps_path (c ≫= k).
Proof. intros Hc Hk io. unfold mbind, ST_bind. destruct (Hc io) as [H1 H2]. destruct (c io) as [a io']. cbn in *.
  destruct (Hk a io') as [H3 H4]. split; [congruence|lia]. Qed.

Lemma keeps_update f : (forall s, sg_path (f s) = sg_path s) -> keeps_path (update_seg f).
Proof. intros Hf io. split; [apply Hf|done]. Qed.

Lemma keeps_syscall : keeps_path (io_syscall env).
Proof. intros io. split; [done|]. cbn. lia. Qed.

Lemma keeps_possyscall : keeps_path (io_possyscall sf).
Proof. intros io. split; [done|]. cbn. lia. Qed.

Lemma keeps_the_seg : keeps_path the_seg.
Proof. done. Qed.

Lemma keeps_Write data : keeps_path (file_Write env sf data).
Proof. intros io. unfold file_Write. destruct (sg_file _); [|done]. destruct (write_fault _ _ _ _); split; cbn; (done || lia). Qed.

#[local] Hint Resolve keeps_ret keeps_bind keeps_update keeps_syscall keeps_possyscall keeps_the_seg keeps_Write : keeps.

Ltac keeps_path := repeat (first [apply keeps_bind; [|intros ?] | progress auto with keeps | case_match | by intros ?]).

Lemma keeps_WriteEntry key r vm : keeps_path (WriteEntry env sf key r vm).
Proof. unfold WriteEntry, rollback, copy_payload, file_Truncate, file_Seek. keeps_path. Qed.

Lemma keeps_Finalize : keeps_path (Finalize env sf).
Proof. unfold Finalize, file_Truncate, file_call. keeps_path. Qed.

(** ** Appending *)

(** Another segment does not notice an operation on [l]. *)
Definition undisturbed (l : nat) (path : bytes) w w' : Prop := forall l' path' es', l' <> l -> path' <> path ->
  (readable w l' path' es' -> readable w' l' path' es') /\ (appendable w l' path' es' -> appendable w' l' path' es').

Lemma undisturbed_update l path s c t w :
  undisturbed l path w (sw_setheap (<[l := s]> (sw_heap w)) (sw_setdisk (<[path := c]> (sw_disk w)) (sw_settick t w))).
Proof.
  intros l' path' es' Hl Hp. unfold appendable, readable, fronted, seg_at. cbn. rewrite !lookup_insert_ne by done.
  split; [done|]. intros [Hr []]. split; [done|]. by split.
Qed.

Lemma seg_at_update l s d t w : seg_at l (sw_setheap (<[l := s]> (sw_heap w)) (sw_setdisk d (sw_settick t w))) = s.
Proof. unfold seg_at. cbn. by rewrite lookup_insert_eq. Qed.

Lemma fronted_update l path p s c t w :
  sw_segMap w !! path = Some l -> sg_path s = path -> stake (String.length p) c = p ->
  slen p < two63 -> fronted (sw_setheap (<[l := s]> (sw_heap w)) (sw_setdisk (<[path := c]> (sw_disk w)) (sw_settick t w))) l path p.
Proof.
  intros Hm Hs Hc Hl. split_and!; [done|by rewrite seg_at_update| |done]. exists c. by cbn; rewrite lookup_insert_eq.
Qed.

Lemma appendable_update l path es s c t w :
  sw_segMap w !! path = Some l -> sg_path s = path -> holds es (MkIO s c t) ->
  appendable (sw_setheap (<[l := s]> (sw_heap w)) (sw_setdisk (<[path := c]> (sw_disk w)) (sw_settick t w))) l path es.
Proof.
  intros Hm Hs Hh. split; [apply fronted_update; [done..|apply Hh|apply Hh]|]. rewrite seg_at_update. cbn. by rewrite lookup_insert_eq.
Qed.

(** The entries of the segment after an append that returned [res]. *)
Definition entries_after (es : list entry) (e : entry) (res : error + Z) : list entry :=
  match res with inr _ => es ++ [e] | inl _ => es end.

(** A successful append has written all of the body; a failed one has a reason and leaves
    the file with the bytes of [es] and no others, or untouched if the message was
    refused, unless the error says that the rollback failed. *)
Definition append_outcome w w' l path es key (r : Body) vm (res : error + Z) : Prop :=
  let e := MkE key (b_data r) (Checksum vm) in
  readable w' l path (entries_after es e res) /\ undisturbed l path w w'
  /\ match res with
     | inr offset => offset = slen (encode_all es) /\ b_err r = None /\ slen (b_data r) = ValueLength vm /\ appendable w' l path (es ++ [e])
     | inl err => append_refused env (encode_all es) key r vm (sw_tick w)
         /\ (appendable w' l path es /\ sw_disk w' !! path = (if copyable vm then Some (encode_all es) else sw_disk w !! path)
             \/ rollback_failed sf err)
     end.

Lemma wp_append l path es key r vm w :
  appendable w l path es ->
  wp (on_segment l (WriteEntry env sf key r vm)) (fun res w' => append_outcome w w' l path es key r vm res) w.
Proof.
  intros [(Hm & Hp & (c & Hd & Hc) & Hl) Hh]. apply wp_on_segment. rewrite Hp.
  set (io := MkIO (seg_at l w) _ _) in *. destruct (keeps_WriteEntry key r vm io) as [Hk _]. cbn [io io_seg] in Hk. rewrite Hp in Hk.
  pose proof (WriteEntry_spec env sf es key r vm io Hh) as Hw. unfold wp in *. destruct (WriteEntry env sf key r vm io) as [res io'].
  cbn [fst snd] in *. destruct io' as [s' c' t']. cbn [io_seg io_content io_tick] in *. destruct res as [err|off]; cbn [append_post] in Hw.
  - destruct Hw as [Hwhy Hw]. assert (stake (String.length (encode_all es)) c' = encode_all es) as Hc' by (by destruct Hw as [[[] _]|[_ ?]]).
    split_and!; [by apply fronted_update|apply undisturbed_update|done|]. destruct Hw as [[Hw Hf]|[Hw _]]; [left|by right].
    split; [by apply appendable_update|]. cbn in Hf |- *. rewrite lookup_insert_eq, Hf, Hd. by destruct (copyable vm).
  - destruct Hw as (-> & Hb & Hvl & Hw).
    split_and!; [apply fronted_update; [done..|apply Hw|apply Hw]|apply undisturbed_update|done|done|done|by apply appendable_update].
Qed.

End Manager.

(** C29: what is appended can be read back. An append to a segment that holds the entries
    [es] returns the offset of the new entry once all of the body is in the file; it fails
    only for a reason (a message that names no stored value, a body that fails or has
    another length, a failing write of its own, an offset beyond int64), and then it cuts
    the file back to exactly the bytes of [es] (a refused message does not touch it), unless
    the error reports that the rollback failed. After either outcome [ReadEntry] returns the
    value of every entry of the segment with a nonempty key and value at its offset, the new
    one included, unless its own opening of the file fails; all other segments keep their
    entries. *)
Theorem segment_append_readback env sf l path es key r vm w res w' :
  appendable w l path es -> path <> EmptyString ->
  on_segment l (WriteEntry env sf key r vm) w = (res, w') ->
  let e := MkE key (b_data r) (Checksum vm) in
  append_outcome env sf w w' l path es key r vm res
  /\ forall pre x post, entries_after es e res = pre ++ x :: post -> e_key x <> EmptyString -> e_value x <> EmptyString ->
     (ReadEntry env (e_key x) path (slen (encode_all pre)) (slen (e_value x)) w').1 = inr (e_value x)
     \/ is_Some (env_fault env (sw_tick w')).
Proof.
  intros Ha Hne E e. pose proof (wp_run _ _ _ _ _ E (wp_append env sf l path es key r vm w Ha)) as Ho. split; [done|].
  intros pre x post Ex Hk Hv. destruct Ho as (Hr & _ & _). fold e in Hr. unfold readable in Hr. rewrite Ex, encode_all_app in Hr. cbn [encode_all] in Hr.
  apply (wp_ReadEntry env l path (encode_all pre) x (encode_all post) (fun r _ => r = inr (e_value x) \/ is_Some (env_fault env (sw_tick w'))) w'); auto.
  by destruct (e_value x).
Qed.

(** ** Reservations *)

(** What the writers ask of the manager. *)
Inductive SegOp :=
  | OAcquire (callerID : bytes) (needed : Z)
  | OReleaseAll (callerID : bytes)
  | OAppend (l : nat) (key : bytes) (r : Body) (vm : ValueMessage)
  | OFinalize (l : nat).

Section Reservation.

Context (env : Env) (sf : SegFaults) (segmentsPath : bytes) (segmentSize : Z).

(** One request; the segment it hands out, if any. *)
Definition seg_step (op : SegOp) : ST SegWorld (option nat) :=
  match op with
  | OAcquire callerID needed =>
      r ← AcquireOpenSegmentWithReservation env segmentsPath segmentSize callerID needed;
      mret match r with inr l => Some l | inl _ => None end
  | OReleaseAll callerID => _ ← ReleaseAllSegments callerID; mret None
  | OAppend l key r vm => _ ← on_segment l (WriteEntry env sf key r vm); mret None
  | OFinalize l => _ ← FinalizeSegment env sf l; mret None
  end.

Fixpoint seg_steps (ops : list SegOp) : ST SegWorld (list nat) :=
  match ops with
  | [] => mret []
  | op :: ops => r ← seg_step op; rs ← seg_steps ops; mret (match r with Some l => [l] | None => [] end ++ rs)
  end.

(** Requests by others than the holder [A] of the segment [l]. *)
Definition by_others (A : bytes) (l : nat) (op : SegOp) : Prop :=
  match op with
  | OAcquire callerID _ | OReleaseAll callerID => callerID <> A
  | OAppend l' _ _ _ | OFinalize l' => l' <> l
  end.

Implicit Types w : SegWorld.

(** The object [l], reserved by [A], as it was in [w0]. *)
Definition undisturbed_object (l : nat) w0 w : Prop := seg_at l w = seg_at l w0 /\ (l < sw_next w)%nat.

Lemma seg_at_heap l l' s w : l' <> l -> seg_at l (sw_setheap (<[l' := s]> (sw_heap w)) w) = seg_at l w.
Proof. intros Hl. unfold seg_at. cbn. by rewrite lookup_insert_ne. Qed.

(** The search among the open segments hands out one that is free or already the caller's. *)
Lemma wp_find_open caller needed open (Q : option nat -> SegWorld -> Prop) w :
  (forall t, (sw_tick w <= t)%nat -> Q None (sw_settick t w)) ->
  (forall l s t, l ∈ open -> Reserve caller (seg_at l w) = Some s -> needed <= Remaining s -> (sw_tick w <= t)%nat ->
     Q (Some l) (sw_setheap (<[l := s]> (sw_heap w)) (sw_settick t w))) ->
  wp (find_open env caller needed open) Q w.
Proof.
  revert w. induction open as [|l open IH]; intros w H1 H2; cbn [find_open].
  { apply wp_ret. specialize (H1 (sw_tick w) (Nat.le_refl _)). by destruct w. }
  assert (wp (find_open env caller needed open) Q (sw_settick (S (sw_tick w)) w)) as Hnext.
  { apply IH; [intros t' Ht'; cbn in Ht'; apply (H1 t'); lia|].
    intros l' s t' Hl' Hr Hn Ht'. cbn in Ht'. apply (H2 l' s t'); [by right|done|done|lia]. }
  apply wp_bind, wp_fun. cbn [fst snd st_get]. apply wp_bind, wp_fun. cbn [fst snd TryRLock].
  destruct (negb (negb _)); [apply Hnext|]. destruct (_ && _) eqn:Eg; [|apply Hnext].
  apply andb_true_iff in Eg as [Eg _]. apply andb_true_iff in Eg as [_ Hn]. bool_facts.
  destruct (Reserve caller (seg_at l w)) as [s|] eqn:Er; [|apply Hnext]. apply wp_bind, wp_fun. cbn [fst snd st_modify]. apply wp_ret.
  apply H2; [left|done| |cbn; lia]. unfold Reserve in Er. repeat case_match; simplify_eq. done.
Qed.

Lemma Reserve_inv caller s s' : Reserve caller s = Some s' ->
  caller <> EmptyString /\ is_Some (sg_file s) /\ (sg_reservedBy s = EmptyString \/ sg_reservedBy s = caller) /\ s' = set_reserved caller s.
Proof.
  unfold Reserve. destruct (decide _); [done|]. destruct (sg_file s); [|done]. destruct (_ && _) eqn:E; [done|]. intros [= <-].
  split_and!; try done. apply andb_false_iff in E as [E|E]; apply bool_decide_eq_false_1 in E; [left|right]; by apply dec_stable.
Qed.

(** What acquiring a segment does to a world: [l] is the caller's now and nothing else changed. *)
Definition acquired (caller : bytes) (needed : Z) (l : nat) w w' : Prop :=
  sg_reservedBy (seg_at l w') = caller /\ is_Some (sg_file (seg_at l w'))
  /\ (forall l', l' <> l -> seg_at l' w' = seg_at l' w)
  /\ (l = sw_next w /\ sw_next w' = S l
      \/ sw_next w' = sw_next w /\ sw_disk w' = sw_disk w /\ l ∈ sw_openSegments w /\ needed <= Remaining (seg_at l w')
         /\ (sg_reservedBy (seg_at l w) = EmptyString \/ sg_reservedBy (seg_at l w) = caller)).

Lemma wp_create caller (Q : error + nat -> SegWorld -> Prop) w :
  (forall e w', sw_heap w' = sw_heap w -> sw_next w' = sw_next w -> Q (inl e) w') ->
  (forall w' path, sw_heap w' = <[sw_next w := SetOpenFile (Some 0) (NewSegmentWithReservation path 0 0 0 segmentSize caller)]> (sw_heap w) ->
     sw_next w' = S (sw_next w) -> Q (inr (sw_next w)) w') ->
  wp (createNewSegmentWithReservationLocked env segmentsPath segmentSize caller) Q w.
Proof.
  intros H1 H2. unfold createNewSegmentWithReservationLocked. apply wp_bind, wp_fun. cbn [fst snd sw_Now].
  apply wp_bind, wp_fun. cbn [fst snd sw_syscall sw_tick sw_settick]. destruct (env_fault _ _); [by apply wp_ret, H1|].
  apply wp_bind, wp_fun. cbn [fst snd st_modify]. apply wp_bind, wp_fun. cbn [fst snd sw_syscall sw_tick sw_settick sw_setdisk].
  destruct (env_fault _ _); [by apply wp_ret, H1|]. apply wp_bind, wp_fun. cbn [fst snd st_modify]. apply wp_bind, wp_fun.
  cbn [fst snd add_segment]. apply wp_bind, wp_fun. cbn [fst snd st_modify]. apply wp_ret. by eapply H2.
Qed.

Lemma wp_Acquire caller needed w :
  wp (AcquireOpenSegmentWithReservation env segmentsPath segmentSize caller needed)
    (fun r w' => match r with
       | inr l => acquired caller needed l w w'
       | inl _ => sw_heap w' = sw_heap w /\ sw_next w' = sw_next w
       end) w.
Proof.
  unfold AcquireOpenSegmentWithReservation. destruct (decide _); [by apply wp_ret|]. apply wp_bind, wp_fun. cbn [fst snd st_get].
  apply wp_bind, wp_find_open.
  - intros t _. apply wp_create; [done|]. intros w' path Hh Hn. cbn in Hh, Hn. unfold acquired, seg_at. rewrite Hh, lookup_insert_eq. cbn.
    split_and!; [done|by eexists| |by left]. intros l' Hl'. by rewrite lookup_insert_ne by done.
  - intros l s t Hl Hr Hrem _. apply Reserve_inv in Hr as (Hc & Hf & Ho & ->). apply wp_ret. unfold acquired, seg_at in *. cbn.
    rewrite lookup_insert_eq. cbn. split_and!; [done|done| |by right]. intros l' Hl'. by rewrite lookup_insert_ne by done.
Qed.

(** Releasing touches the caller's segments only. *)
Lemma wp_release_each caller open l w : sg_reservedBy (seg_at l w) <> caller \/ caller = EmptyString ->
  wp (release_each caller open) (fun _ w' => seg_at l w' = seg_at l w /\ sw_next w' = sw_next w) w.
Proof.
  intros Hne. revert w Hne. induction open as [|x open IH]; intros w Hne; cbn [release_each]; [by apply wp_ret|].
  apply wp_bind, wp_fun. cbn [fst snd release_one st_modify]. set (w1 := sw_setheap _ w).
  assert (seg_at l w1 = seg_at l w) as E.
  { unfold w1. destruct (decide (x = l)) as [->|]; [|by rewrite seg_at_heap]. unfold seg_at at 1. cbn. rewrite lookup_insert_eq. cbn.
    unfold Release. destruct (decide _); [done|]. cbn. rewrite decide_False; [done|]. naive_solver. }
  eapply wp_mono; [apply IH; by rewrite E|]. intros [] w2 [E2 Hn2]. by rewrite E2.
Qed.

Lemma wp_on_other {A} l l' (op : ST SegIO A) w :
  l' <> l -> wp (on_segment l' op) (fun _ w' => seg_at l w' = seg_at l w /\ sw_next w' = sw_next w) w.
Proof.
  intros Hl. apply wp_on_segment. unfold wp. cbn. unfold seg_at. cbn. by rewrite lookup_insert_ne.
Qed.

Lemma wp_seg_step A l op w0 w :
  sg_reservedBy (seg_at l w0) = A -> A <> EmptyString -> by_others A l op -> undisturbed_object l w0 w ->
  wp (seg_step op) (fun r w' => r <> Some l /\ undisturbed_object l w0 w') w.
Proof.
  intros HA Hne Hop [E Hl]. rewrite <- E in HA. unfold undisturbed_object. rewrite <- E. clear E w0. destruct op as [c n|c|l' k r vm|l'];
    cbn [seg_step by_others] in *; apply wp_bind.
  - eapply wp_mono; [apply wp_Acquire|]. intros [e|x] w' H; apply wp_ret; [destruct H as [Hh Hn]; unfold seg_at; by rewrite Hh, Hn|].
    destruct H as (_ & _ & Hother & Hcase). assert (x <> l) as Hx.
    { intros ->. destruct Hcase as [[? _]|(_ & _ & _ & _ & Hr)]; [lia|]. by destruct Hr as [Hr|Hr]; rewrite HA in Hr. }
    split_and!; [congruence|by apply Hother|]. destruct Hcase as [[-> ->]|[-> _]]; lia.
  - unfold ReleaseAllSegments. destruct (decide _); [by apply wp_ret, wp_ret|]. apply wp_bind, wp_fun. cbn [fst snd st_get]. apply wp_bind.
    eapply wp_mono; [apply (wp_release_each _ _ l); left; congruence|]. intros [] w' [E Hn]. apply wp_ret, wp_ret. rewrite E, Hn. done.
  - eapply wp_mono; [by apply (wp_on_other l)|]. intros r' w' [E Hn]. apply wp_ret. by rewrite E, Hn.
  - unfold FinalizeSegment. apply wp_bind. eapply wp_mono; [by apply (wp_on_other l)|]. intros [e|] w' [E Hn]; cbn beta in *.
    + apply wp_ret, wp_ret. by rewrite E, Hn.
    + apply wp_bind, wp_fun. cbn [fst snd st_modify]. apply wp_ret, wp_ret. unfold seg_at in *. cbn. by rewrite E, Hn.
Qed.

Lemma wp_seg_steps A l ops w0 w :
  sg_reservedBy (seg_at l w0) = A -> A <> EmptyString -> Forall (by_others A l) ops -> undisturbed_object l w0 w ->
  wp (seg_steps ops) (fun rs w' => l ∉ rs /\ undisturbed_object l w0 w') w.
Proof.
  intros HA Hne Hops. revert w. induction Hops as [|op ops Hop _ IH]; intros w Hw; cbn [seg_steps]; [apply wp_ret; split; [set_solver|done]|].
  apply wp_bind. eapply wp_mono; [by apply (wp_seg_step A l _ w0)|]. intros r w1 [Hr Hw1]. apply wp_bind. eapply wp_mono; [by apply IH|].
  intros rs w2 [Hrs Hw2]. apply wp_ret. split; [|done]. destruct r as [x|]; [|done]. cbn. set_solver.
Qed.

End Reservation.

(** A reservation is exclusive. Once [AcquireOpenSegmentWithReservation] has handed the
    segment [l] to a caller, no sequence of requests of others (acquiring, releasing,
    appending to and finalizing their own segments) hands [l] to anyone else or changes
    its object; it is open and reserved by that caller. *)
Theorem reservation_exclusive env sf segmentsPath segmentSize A needed w0 l w1 ops rs w2 :
  AcquireOpenSegmentWithReservation env segmentsPath segmentSize A needed w0 = (inr l, w1) ->
  (forall x, x ∈ sw_openSegments w0 -> (x < sw_next w0)%nat) ->
  Forall (by_others A l) ops -> seg_steps env sf segmentsPath segmentSize ops w1 = (rs, w2) ->
  sg_reservedBy (seg_at l w1) = A /\ is_Some (sg_file (seg_at l w1)) /\ l ∉ rs /\ seg_at l w2 = seg_at l w1.
Proof.
  intros E Hwf Hops E2. pose proof (wp_run _ _ _ _ _ E (wp_Acquire env segmentsPath segmentSize A needed w0)) as (HA & Hf & _ & Hcase).
  assert (A <> EmptyString) as Hne.
  { intros ->. unfold AcquireOpenSegmentWithReservation in E. by rewrite decide_True in E. }
  assert (undisturbed_object l w1 w1) as Hu.
  2: { by destruct (wp_run _ _ _ _ _ E2 (wp_seg_steps env sf segmentsPath segmentSize A l ops w1 w1 HA Hne Hops Hu)) as [Hrs [Hs _]]. }
  split; [done|]. destruct Hcase as [[-> ->]|(-> & _ & Hin & _)]; [lia|by apply Hwf].
Qed.

(** ** Finalizing and loading again *)

Section Reload.

Context (env : Env) (sf : SegFaults).
Implicit Types io : SegIO.

Definition footer_for (s : Segment) : bytes := BuildSegmentFooterWithVersion (sg_version s) (sg_numEntries s) (sg_dataBytes s).

Lemma footer_length v n d : slen (BuildSegmentFooterWithVersion v n d) = SegmentFooterSize.
Proof.
  unfold BuildSegmentFooterWithVersion, slen. rewrite !slength_app, !be_bytes_length. by destruct (_ || _).
Qed.

Lemma footer_of_app c v n d : 0 <= v <= 99 -> is_u32 n -> is_i64 d ->
  footer_of (c +:+ BuildSegmentFooterWithVersion v n d) = Some (v, n, d).
Proof.
  intros Hv Hn Hd. unfold footer_of. pose proof (slen_nonneg c). rewrite slen_app, footer_length.
  destruct (Z.leb_spec SegmentFooterSize (slen c + SegmentFooterSize)); [|lia].
  replace (slen c + SegmentFooterSize - SegmentFooterSize) with (slen c) by lia.
  rewrite slen_nat, sdrop_app. by apply footer_roundtrip.
Qed.

(** The closed segment that [Finalize] leaves. *)
Definition finalized (s : Segment) (es : list entry) io' : Prop :=
  io_content io' = encode_all es +:+ footer_for s /\ sg_file (io_seg io') = None /\ sg_reservedBy (io_seg io') = EmptyString
  /\ sg_size (io_seg io') = slen (io_content io').

Lemma Finalize_spec es io : holds es io ->
  wp (Finalize env sf) (fun r io' => r = None -> finalized (io_seg io) es io') io.
Proof.
  intros Hh. unfold Finalize. apply wp_bind, wp_fun. cbn [fst snd the_seg]. rewrite (h_file _ _ Hh).
  fold (footer_for (io_seg io)). set (f := footer_for (io_seg io)). assert (slen f = SegmentFooterSize) as Hf by apply footer_length.
  apply wp_bind. apply (wp_file_Write env sf (encode_all es)); [apply Hh|apply Hh| |by intros; apply wp_ret].
  intros io1 Hs1 Hf1 Hc1 Hsm _. rewrite slen_app, Hf in Hsm. apply wp_bind, wp_fun. cbn [fst snd update_seg]. rewrite (h_size _ _ Hh), Hf.
  pose proof (slen_nonneg (encode_all es)). rewrite i64_small by (unfold is_i64, SegmentFooterSize, two63 in *; lia).
  rewrite <- Hf, <- slen_app. apply wp_bind. unfold file_Truncate. apply wp_bind, wp_fun. cbn [fst snd io_possyscall io_tick].
  apply wp_bind, wp_fun. cbn [fst snd the_seg]. destruct (pos_fault _ _); [by apply wp_ret, wp_ret|].
  pose proof (slen_nonneg (encode_all es +:+ f)). destruct (Z.ltb_spec (slen (encode_all es +:+ f)) 0); [lia|]. apply wp_fun. cbn [fst snd].
  unfold file_call. do 2 (apply wp_bind, wp_bind, wp_fun; cbn [fst snd io_syscall io_tick]; apply wp_bind, wp_fun; cbn [fst snd the_seg];
    destruct (env_fault _ _); [by apply wp_ret, wp_ret|]; apply wp_ret).
  apply wp_bind, wp_fun. cbn [fst snd update_seg]. apply wp_ret. intros _. cbn [io_content io_seg].
  rewrite slen_nat, ftruncate_front by done. unfold finalized. cbn. split_and!; [done..|]. unfold same_stats in Hs1.
  pose proof (h_size _ _ Hh) as Hsz. rewrite <- Hs1 in Hsz. cbn in Hsz. rewrite Hsz, slen_app, Hf.
  apply i64_small. unfold is_i64, SegmentFooterSize, two63 in *. lia.
Qed.

(** Loading a file that ends with a footer. *)
Lemma wp_load_final segmentsPath segmentSize name es v n d (Q : error + option nat -> SegWorld -> Prop) w :
  0 <= v <= 99 -> is_u32 n -> is_i64 d -> ~ io_failed env ->
  sw_disk w !! filepath_Join segmentsPath name = Some (encode_all es +:+ BuildSegmentFooterWithVersion v n d) ->
  (forall w', sw_disk w' = sw_disk w -> sw_segMap w' = <[filepath_Join segmentsPath name := sw_next w]> (sw_segMap w) ->
     seg_at (sw_next w) w' = MkSegment (filepath_Join segmentsPath name) (slen (encode_all es)) None n d v segmentSize EmptyString ->
     Q (inr None) w') ->
  wp (load_one env sf segmentsPath segmentSize name) Q w.
Proof.
  intros Hv Hn Hd Hio Hc HQ. unfold load_one.
  assert (forall t, env_fault env t = None) as Hno.
  { intros t. destruct (env_fault env t) eqn:E; [|done]. destruct Hio. by eexists _, _. }
  do 3 (apply wp_bind, wp_fun; cbn [fst snd sw_syscall]; rewrite Hno). apply wp_bind, wp_fun. cbn [fst snd st_get sw_disk sw_settick].
  rewrite Hc. cbn [default]. unfold default, from_option, id. rewrite footer_of_app by done.
  apply wp_bind, wp_fun. cbn [fst snd add_segment]. apply wp_ret, HQ; [done..|].
  unfold seg_at. cbn [sw_heap sw_next]. rewrite lookup_insert_eq. rewrite slen_app, footer_length, Z.add_simpl_r. done.
Qed.

End Reload.

(** A finalized segment survives a restart. When [FinalizeSegment] succeeds, the segment
    is closed and free, and [loadSegments]'s step for its file, in whatever world that has
    this file, registers a closed segment with the counters it had and from which every
    entry is still read back. *)
Theorem finalize_reload env sf segmentsPath segmentSize l name es w w' w2 :
  let path := filepath_Join segmentsPath name in
  appendable w l path es -> 0 <= sg_version (seg_at l w) <= 99 ->
  FinalizeSegment env sf l w = (None, w') -> sw_disk w2 !! path = sw_disk w' !! path -> ~ io_failed env ->
  sg_file (seg_at l w') = None /\ sg_reservedBy (seg_at l w') = EmptyString
  /\ let r := load_one env sf segmentsPath segmentSize name w2 in
     let l2 := sw_next w2 in
     r.1 = inr None /\ readable r.2 l2 path es /\ sg_file (seg_at l2 r.2) = None
     /\ sg_numEntries (seg_at l2 r.2) = u32 (Z.of_nat (List.length es)) /\ sg_dataBytes (seg_at l2 r.2) = i64 (payload es)
     /\ sg_version (seg_at l2 r.2) = sg_version (seg_at l w).
Proof.
  intros path [(Hm & Hp & (c & Hd & Hc) & Hsm) Hh] Hv E Hw2 Hio.
  assert (sg_file (seg_at l w') = None /\ sg_reservedBy (seg_at l w') = EmptyString
    /\ sw_disk w' !! path = Some (encode_all es +:+ footer_for (seg_at l w))) as (H1 & H2 & Hd').
  { refine (wp_run _ (fun r w' => r = None -> sg_file (seg_at l w') = None /\ sg_reservedBy (seg_at l w') = EmptyString
      /\ sw_disk w' !! path = Some (encode_all es +:+ footer_for (seg_at l w))) _ _ _ E _ eq_refl).
    unfold FinalizeSegment. apply wp_bind, wp_on_segment. rewrite Hp.
    eapply wp_mono; [by apply (Finalize_spec env sf es)|]. intros [e|] io' Hf; [by apply wp_ret|].
    destruct (Hf eq_refl) as (Hc' & Hf' & Hr' & _). apply wp_bind, wp_fun. cbn [fst snd st_modify]. apply wp_ret. intros _.
    unfold seg_at. cbn. rewrite lookup_insert_eq. cbn. rewrite lookup_insert_eq, Hc'. done. }
  split_and!; [done..|]. rewrite Hd' in Hw2. pose proof (h_count _ _ Hh) as E1. pose proof (h_data _ _ Hh) as E2. cbn [io_seg] in E1, E2.
  unfold footer_for in Hw2. rewrite E1, E2 in Hw2.
  apply (wp_load_final env sf segmentsPath segmentSize name es (sg_version (seg_at l w)) (u32 (Z.of_nat (List.length es))) (i64 (payload es)) (fun r w3 => r = inr None /\ readable w3 (sw_next w2) path es
    /\ sg_file (seg_at (sw_next w2) w3) = None /\ sg_numEntries (seg_at (sw_next w2) w3) = u32 (Z.of_nat (List.length es))
    /\ sg_dataBytes (seg_at (sw_next w2) w3) = i64 (payload es) /\ sg_version (seg_at (sw_next w2) w3) = sg_version (seg_at l w)) w2 Hv);
    [apply u32_range|apply i64_range|done|exact Hw2|].
  intros w3 Hd3 Hm3 Hs3. rewrite Hs3. split_and!; try done. split_and!; [by rewrite Hm3, lookup_insert_eq|by rewrite Hs3| |done].
  eexists. split; [rewrite Hd3; exact Hw2|]. apply stake_app.
Qed.
