(* ===== verification/SegmentWitnesses.v ===== *)
(** * Segments at concrete inputs

    Instances of the segment theorems, and two runs that show where the code departs
    from its intent. *)

From S2P Require Import Prelude Keys Errors Message Merge Rocks World Files Wp StorageProps SegmentFormat Segments SegmentProps SegmentRecovery SegmentStoreProps.

Open Scope Z_scope.

(** No call fails, every lock is free. *)
Definition calm : Env := MkEnv (fun n => 1000 + Z.of_nat n) (fun _ => "u") (fun _ => None) (fun _ _ => false) (fun _ => 0).
Definition whole : SegFaults := MkFaults (fun _ _ => O) (fun _ => None).

Lemma calm_ok : ~ io_failed calm.
Proof. by intros (n & e & He). Qed.

Lemma calm_whole : ~ seg_failed calm whole.
Proof. intros [H|(n & e & He)]; [by apply calm_ok|done]. Qed.

Definition e_one : entry := MkE "key" "some value" (crc32 "some value").
Definition e_two : entry := MkE "k" "v" (crc32 "v").

Lemma e_one_ok : entry_ok e_one.
Proof. split; unfold slen, is_u32, two32, two63; [cbn; lia|cbn; lia|vm_compute; split; congruence|by right]. Qed.

Lemma e_two_ok : entry_ok e_two.
Proof. split; unfold slen, is_u32, two32, two63; [cbn; lia|cbn; lia|vm_compute; split; congruence|by right]. Qed.

Definition opened (content : bytes) : SegIO :=
  MkIO (SetOpenFile (Some 0) (NewSegment "d/s.seg" 0 0 0 4096)) content 0.

(** A torn write: the second entry misses its last byte. *)
Definition torn : bytes := encode_all [e_one] +:+ stake 19 (encode e_two) +:+ szeros 30.

Lemma torn_runs : (validateOpenSegment calm whole (opened torn)).1 = None.
Proof. vm_compute. reflexivity. Qed.

Lemma small_file c : (String.length c < 1000)%nat -> slen c < two60.
Proof. unfold slen, two60. lia. Qed.

Lemma recovery_sound_witness :
  let io' := (validateOpenSegment calm whole (opened torn)).2 in
  exists es, Forall entry_ok es /\ holds es io' /\ io_content io' = encode_all es.
Proof.
  intros io'. pose proof torn_runs as E1. destruct (validateOpenSegment calm whole (opened torn)) as [r io2] eqn:E. cbn in E1, io'. subst r.
  assert (slen (io_content (opened torn)) < two60) as Hsm by (apply small_file; vm_compute; lia).
  destruct (recovery_sound calm whole (opened torn) None io2 ltac:(by eexists) Hsm E) as (es & H1 & H2 & H3 & _).
  exists es. exact (conj H1 (conj H2 H3)).
Defined.

Lemma recovery_complete_witness :
  exists io', validateOpenSegment calm whole (opened (encode_all [e_one; e_two] +:+ szeros 5)) = (None, io') /\ holds [e_one; e_two] io'.
Proof.
  destruct (recovery_complete calm whole (opened (encode_all [e_one; e_two] +:+ szeros 5)) [e_one; e_two] 5) as (io' & H1 & _ & H2);
    [by eexists|apply calm_whole|reflexivity|apply small_file; vm_compute; lia| |left; lia|exists io'; exact (conj H1 H2)].
  constructor; [apply e_one_ok|]. constructor; [apply e_two_ok|constructor].
Defined.

(** An entry of twenty bytes survives the first recovery, which cuts the file behind it,
    and is dropped by the next one, which takes the last twenty bytes for a footer. *)
Theorem second_recovery_drops_entry :
  let io1 := (validateOpenSegment calm whole (opened (encode_all [e_two] +:+ szeros 30))).2 in
  io_content io1 = encode_all [e_two]
  /\ (validateOpenSegment calm whole (opened (io_content io1))).1 = None
  /\ io_content (validateOpenSegment calm whole (opened (io_content io1))).2 = EmptyString.
Proof. vm_compute. auto. Qed.

(** The write of a payload fails half way and so does the rollback's truncation: the
    descriptor stays behind the torn bytes, but the size does not move. The next append
    succeeds and returns an offset at which the entry's bytes are not. *)
Definition flaky : Env :=
  MkEnv (fun n => 1000 + Z.of_nat n) (fun _ => "u") (fun n => if (n =? 1)%nat then Some ENOSPC else None)
    (fun _ _ => false) (fun _ => 0).

Definition an_op (n : Z) : ValueMessage := MkVM RAW_FILE EmptyString 0 EmptyString EmptyString 0 n 0 1 0 0.
Definition torn_write : SegFaults := MkFaults (fun _ _ => 2%nat) (fun n => if (n =? 2)%nat then Some EIO else None).
Definition after_flaky : SegIO := (WriteEntry flaky torn_write "a" (MkBody "1234" None) (an_op 4) (opened EmptyString)).2.

Theorem failed_rollback_misplaces_next_entry :
  let r := WriteEntry flaky whole "b" (MkBody "5678" None) (an_op 4) after_flaky in
  r.1 = inr 0 /\ stake 4 (sdrop (Z.to_nat (CalculateValueHeaderSize "b")) (io_content r.2)) <> "5678"
  /\ stake 4 (sdrop (21 + Z.to_nat (CalculateValueHeaderSize "b")) (io_content r.2)) = "5678".
Proof. vm_compute. split_and!; congruence. Qed.

(** ** The manager *)

Definition a_store : SegWorld := MkSegWorld ∅ 0 ∅ 0 [] ∅ [].
Definition store1 : SegWorld := (AcquireOpenSegmentWithReservation calm "d" 64 "compactor" 30 a_store).2.
Definition path1 : bytes := filepath_Join "d" (segment_name 1000).

Lemma store1_appendable : appendable store1 0 path1 [].
Proof.
  split; [split_and!; [reflexivity..| |reflexivity]; exists (szeros 64); split; reflexivity|]. split; reflexivity.
Qed.

Lemma segment_append_readback_witness :
  let r := on_segment 0 (WriteEntry calm whole "b" (MkBody "5678" None) (an_op 4)) store1 in
  append_outcome calm whole store1 r.2 0 path1 [] "b" (MkBody "5678" None) (an_op 4) r.1.
Proof.
  intros r. refine (proj1 (segment_append_readback calm whole 0 path1 [] "b" (MkBody "5678" None) (an_op 4) store1 r.1 r.2 store1_appendable _ _)).
  - vm_compute. congruence.
  - apply surjective_pairing.
Defined.

Lemma reservation_exclusive_witness :
  sg_reservedBy (seg_at 0 store1) = "compactor"
  /\ seg_at 0 (seg_steps calm whole "d" 64 [OAcquire "other" 30; OReleaseAll "other"] store1).2 = seg_at 0 store1.
Proof.
  destruct (reservation_exclusive calm whole "d" 64 "compactor" 30 a_store 0 store1 [OAcquire "other" 30; OReleaseAll "other"]
    (seg_steps calm whole "d" 64 [OAcquire "other" 30; OReleaseAll "other"] store1).1
    (seg_steps calm whole "d" 64 [OAcquire "other" 30; OReleaseAll "other"] store1).2) as (H1 & _ & _ & H2).
  - vm_compute. reflexivity.
  - intros x Hx. by apply elem_of_nil in Hx.
  - repeat constructor; done.
  - apply surjective_pairing.
  - exact (conj H1 H2).
Defined.

Definition store2 : SegWorld := (FinalizeSegment calm whole 0 store1).2.

Lemma store1_finalizes : FinalizeSegment calm whole 0 store1 = (None, store2).
Proof. vm_compute. reflexivity. Qed.

Lemma finalize_reload_witness :
  sg_file (seg_at 0 store2) = None /\ sg_reservedBy (seg_at 0 store2) = EmptyString
  /\ (load_one calm whole "d" 64 (segment_name 1000) store2).1 = inr None.
Proof.
  destruct (finalize_reload calm whole "d" 64 0 (segment_name 1000) [] store1 store2 store2 store1_appendable) as (H1 & H2 & H3 & _);
    [vm_compute; split; congruence|apply store1_finalizes|reflexivity|apply calm_ok|].
  exact (conj H1 (conj H2 H3)).
Defined.
