(* ===== verification/SegmentInv.v ===== *)
(** * The segment manager's invariant

    Every registered segment file keeps the bytes written so far, and an open one is
    written behind them; the requests of writers preserve this and only ever add
    bytes, so a location handed out once stays readable. *)

From stdpp Require Import functions.
From S2P Require Import Prelude Keys Errors Message Merge Rocks World Files Wp StorageProps SegmentFormat Segments SegmentProps SegmentStoreProps.

Open Scope Z_scope.

#[local] Arguments crc32 : simpl never.
#[local] Arguments BuildValueHeader : simpl never.
#[local] Arguments BuildSegmentFooterWithVersion : simpl never.

Section Invariant.

Context (env : Env) (sf : SegFaults) (segmentsPath : bytes) (segmentSize : Z).
Implicit Types w : SegWorld.
Implicit Types F : nat -> bytes.

(** The file the [n]-th consultation of the clock would name. *)
Definition seg_path (n : nat) : bytes := filepath_Join segmentsPath (segment_name (env_now env n)).

(** Clock readings name distinct files, in UTF-8; truncating and seeking an open file work; a
    write as short as a footer is done or not done. *)
Record seg_env_ok : Prop := {
  names_unique a b : seg_path a = seg_path b -> a = b;
  names_utf8 n : utf8_valid (seg_path n) = true;
  undo_works n : pos_fault sf n = None;
  small_writes n len : len <= SegmentFooterSize -> short sf n len = O
}.

Definition in_dir (path : bytes) : Prop := exists name, path = filepath_Join segmentsPath name.
Definition seg_file (path : bytes) : Prop := in_dir path /\ utf8_valid path = true.

(** [F l]: the bytes the file of [l] starts with for good. *)
Record store_ok w F : Prop := {
  so_map path l : sw_segMap w !! path = Some l -> fronted w l path (F l) /\ (l < sw_next w)%nat /\ seg_file path;
  so_live l : (l < sw_next w)%nat -> is_Some (sg_file (seg_at l w)) ->
    sw_segMap w !! sg_path (seg_at l w) = Some l
    /\ live (F l) (MkIO (seg_at l w) (default EmptyString (sw_disk w !! sg_path (seg_at l w))) (sw_tick w));
  so_open l : l ∈ sw_openSegments w -> (l < sw_next w)%nat;
  so_fresh n : (sw_tick w <= n)%nat -> sw_segMap w !! seg_path n = None
}.

(** What writers do to a store: objects keep their path, files grow. *)
Record grows w F w' F' : Prop := {
  g_map path l : sw_segMap w !! path = Some l -> sw_segMap w' !! path = Some l;
  g_front l : (l < sw_next w)%nat -> exists t, F' l = F l +:+ t;
  g_path l : (l < sw_next w)%nat -> sg_path (seg_at l w') = sg_path (seg_at l w);
  g_next : (sw_next w <= sw_next w')%nat
}.

Lemma grows_refl w F : grows w F w F.
Proof. split; try done. intros l _. exists EmptyString. by rewrite sapp_nil_r. Qed.

Lemma grows_trans w1 F1 w2 F2 w3 F3 : grows w1 F1 w2 F2 -> grows w2 F2 w3 F3 -> grows w1 F1 w3 F3.
Proof.
  intros [] []. split.
  - eauto.
  - intros l Hl. destruct (g_front0 l Hl) as [t1 E1]. destruct (g_front1 l ltac:(lia)) as [t2 E]. rewrite E, E1. eexists. by rewrite sapp_assoc.
  - intros l Hl. rewrite g_path1 by lia. by apply g_path0.
  - lia.
Qed.

(** The value of [key] lies at [off] in the segment file [path]. *)
Definition located w F (path : bytes) (off : Z) (key data : bytes) : Prop :=
  exists l pre post sum, sw_segMap w !! path = Some l /\ F l = pre +:+ encode (MkE key data sum) +:+ post /\ slen pre = off.

Lemma located_grows w F w' F' path off key data :
  store_ok w F -> grows w F w' F' -> located w F path off key data -> located w' F' path off key data.
Proof.
  intros [] [] (l & pre & post & sum & Hm & Hf & Ho). destruct (so_map0 _ _ Hm) as (_ & Hl & _). destruct (g_front0 l Hl) as [t Et].
  exists l, pre, (post +:+ t), sum. split_and!; [eauto| |done]. by rewrite Et, Hf, !sapp_assoc.
Qed.

(** A located value is what [ReadEntry] returns. *)
Lemma wp_ReadEntry_located path off key data (Q : error + bytes -> SegWorld -> Prop) F w :
  store_ok w F -> located w F path off key data -> path <> EmptyString -> key <> EmptyString -> 0 < slen data ->
  (forall err w', is_Some (env_fault env (sw_tick w)) -> Q (inl err) w') -> (forall w', Q (inr data) w') ->
  wp (ReadEntry env key path off (slen data)) Q w.
Proof.
  intros Hs (l & pre & post & sum & Hm & Hf & <-) Hp Hk Hd H1 H2. destruct (so_map _ _ Hs _ _ Hm) as (Hfr & _ & _). rewrite Hf in Hfr.
  by apply (wp_ReadEntry env l path pre (MkE key data sum) post).
Qed.

(** ** An operation on one segment *)

Definition put_seg (l : nat) (s : Segment) (c : bytes) (t : nat) w : SegWorld :=
  sw_setheap (<[l := s]> (sw_heap w)) (sw_setdisk (<[sg_path (seg_at l w) := c]> (sw_disk w)) (sw_settick t w)).

Lemma seg_at_put l s c t w l' : seg_at l' (put_seg l s c t w) = if decide (l' = l) then s else seg_at l' w.
Proof.
  unfold seg_at, put_seg. cbn. destruct (decide (l' = l)) as [->|]; [by rewrite lookup_insert_eq|by rewrite lookup_insert_ne].
Qed.

Definition content_at l w : bytes := default EmptyString (sw_disk w !! sg_path (seg_at l w)).

Lemma store_ok_put l s c t p w F :
  store_ok w F -> (l < sw_next w)%nat -> (sw_tick w <= t)%nat -> sg_path s = sg_path (seg_at l w) ->
  (sw_segMap w !! sg_path (seg_at l w) = Some l -> stake (String.length p) c = p /\ slen p < two63) ->
  (sw_segMap w !! sg_path (seg_at l w) <> Some l -> c = content_at l w) ->
  (is_Some (sg_file s) -> sw_segMap w !! sg_path (seg_at l w) = Some l /\ live p (MkIO s c t)) ->
  (exists t', p = F l +:+ t') ->
  store_ok (put_seg l s c t w) (<[l := p]> F) /\ grows w F (put_seg l s c t w) (<[l := p]> F).
Proof.
  intros [] Hl Ht Hp Hfr Hno Hlive Hgrow. set (path := sg_path (seg_at l w)) in *. split.
  - split.
    + intros path' l' Hm. cbn in Hm. destruct (so_map0 _ _ Hm) as ((_ & Hp' & (c' & Hd & Hc) & Hs) & Hl' & Hin). split_and!; [|done|done].
      unfold fronted. rewrite seg_at_put. destruct (decide (l' = l)) as [->|Hne].
      * rewrite fn_lookup_insert. fold path in Hp'. subst path'. destruct (Hfr Hm) as [H1 H2]. split_and!; try done.
        exists c. split; [|done]. cbn. by rewrite lookup_insert_eq.
      * rewrite fn_lookup_insert_ne by done. split_and!; try done. destruct (decide (path' = path)) as [->|].
        -- exists c'. split; [|done]. cbn. rewrite lookup_insert_eq, Hno by congruence. unfold content_at. fold path. by rewrite Hd.
        -- exists c'. split; [|done]. cbn. by rewrite lookup_insert_ne.
    + intros l' Hl' Hf. cbn in Hl'. rewrite seg_at_put in *. destruct (decide (l' = l)) as [->|Hne].
      * rewrite fn_lookup_insert, Hp. fold path. cbn. rewrite lookup_insert_eq. by apply Hlive.
      * rewrite fn_lookup_insert_ne by done. destruct (so_live0 l' Hl' Hf) as [Hm Hv]. split; [done|].
        cbn. fold path. destruct (decide (path = sg_path (seg_at l' w))) as [E|]; [|rewrite lookup_insert_ne by done; by destruct Hv; split].
        rewrite <- E in *. rewrite lookup_insert_eq. cbn. rewrite Hno by congruence. unfold content_at. fold path. by destruct Hv; split.
    + done.
    + intros n Hn. cbn in *. apply so_fresh0. lia.
  - split; try done.
    + intros l' Hl'. destruct (decide (l' = l)) as [->|]; [by rewrite fn_lookup_insert|]. rewrite fn_lookup_insert_ne by done.
      exists EmptyString. by rewrite sapp_nil_r.
    + intros l' Hl'. rewrite seg_at_put. by destruct (decide (l' = l)) as [->|].
Qed.

(** An operation after which the file starts with [p], and is written behind it if it
    is open. *)
Definition leaves (l : nat) (io io' : SegIO) (p : bytes) : Prop :=
  (io_tick io <= io_tick io')%nat /\ sg_path (io_seg io') = sg_path (io_seg io)
  /\ stake (String.length p) (io_content io') = p /\ slen p < two63
  /\ (is_Some (sg_file (io_seg io')) -> live p io').

(** Nothing but the environment's counter changed. *)
Definition still (io io' : SegIO) : Prop :=
  io_seg io' = io_seg io /\ io_content io' = io_content io /\ (io_tick io <= io_tick io')%nat.

Definition seg_io l w : SegIO := MkIO (seg_at l w) (content_at l w) (sw_tick w).

Lemma store_still {A} l (op : ST SegIO A) (Q : A -> SegWorld -> Prop) w F :
  store_ok w F -> (l < sw_next w)%nat -> wp op (fun _ => still (seg_io l w)) (seg_io l w) ->
  (forall a w' F', (op (seg_io l w)).1 = a -> store_ok w' F' -> grows w F w' F' -> Q a w') -> wp (on_segment l op) Q w.
Proof.
  intros Hs Hl Hop HQ. apply wp_on_segment. fold (content_at l w). fold (seg_io l w). unfold wp in *.
  destruct (op (seg_io l w)) as [a io']. destruct Hop as (E1 & E2 & Ht). cbn in *. rewrite E1, E2.
  destruct (store_ok_put l (seg_at l w) (content_at l w) (io_tick io') (F l) w F) as [H1 H2]; try done.
  - intros Hm. destruct (so_map _ _ Hs _ _ Hm) as ((_ & _ & (c & Hd & Hc) & Hsm) & _). unfold content_at. by rewrite Hd.
  - intros Hf. destruct (so_live _ _ Hs l Hl Hf) as [Hm []]. split; [done|]. by split.
  - exists EmptyString. by rewrite sapp_nil_r.
  - by apply (HQ a _ (<[l := F l]> F)).
Qed.

Lemma store_leaves {A} l (op : ST SegIO A) (Q : A -> SegWorld -> Prop) w F :
  store_ok w F -> (l < sw_next w)%nat -> sw_segMap w !! sg_path (seg_at l w) = Some l ->
  wp op (fun a io' => exists t, leaves l (seg_io l w) io' (F l +:+ t)
    /\ forall w' F', store_ok w' F' -> grows w F w' F' -> F' l = F l +:+ t -> sw_segMap w' = sw_segMap w -> Q a w') (seg_io l w) ->
  wp (on_segment l op) Q w.
Proof.
  intros Hs Hl Hm Hop. apply wp_on_segment. fold (content_at l w). fold (seg_io l w). eapply wp_mono; [exact Hop|].
  intros a [s c t'] (t & (Ht & Hp & Hc & Hsm & Hlive) & HQ). cbn in *.
  destruct (store_ok_put l s c t' (F l +:+ t) w F) as [H1 H2]; try done; [by intros Hf; split; [|apply Hlive]|by exists t|].
  apply (HQ _ (<[l := F l +:+ t]> F)); try done. by rewrite fn_lookup_insert.
Qed.

Lemma still_refl io : still io io.
Proof. by split_and!. Qed.

Lemma wp_Sync io : wp (Sync env) (fun _ => still io) io.
Proof.
  unfold Sync. apply wp_bind, wp_fun. cbn [fst snd the_seg]. destruct (sg_file (io_seg io)); [|apply wp_ret, still_refl].
  apply wp_bind. unfold file_call. apply wp_bind, wp_fun. cbn [fst snd io_syscall]. apply wp_bind, wp_fun. cbn [fst snd the_seg].
  apply wp_ret, wp_ret. split_and!; [done..|]. cbn. lia.
Qed.

(** The closed segment refuses the entry. *)
Lemma WriteEntry_closed key r vm io : sg_file (io_seg io) = None ->
  wp (WriteEntry env sf key r vm) (fun res io' => still io io' /\ exists e, res = inl e) io.
Proof.
  intros Hf. unfold WriteEntry. case_match; [apply wp_ret; split; [apply still_refl|by eexists]|]. apply wp_bind, wp_fun.
  cbn [fst snd the_seg]. rewrite Hf. apply wp_ret. split; [apply still_refl|by eexists].
Qed.

Lemma swap_remove_sub {A} (P : A -> bool) l x : x ∈ swap_remove P l -> x ∈ l.
Proof.
  induction l as [|y l IH]; cbn; [done|]. destruct (P y); [|set_solver]. destruct l as [|z l']; [set_solver|].
  intros [->|Hx]%elem_of_cons; right.
  - destruct (last (z :: l')) as [u|] eqn:E; cbn; [|left]. apply last_Some in E as [l'' ->]. set_solver.
  - clear IH. revert z Hx. induction l' as [|u l' IH]; intros z Hx; [cbn in Hx; set_solver|].
    cbn [removelast] in Hx. apply elem_of_cons in Hx as [->|Hx]; [left|]. right. by apply IH.
Qed.

Context (Henv : seg_env_ok).

Lemma no_rollback_failure e : ~ rollback_failed sf e.
Proof using Henv. intros [(n & e' & E) _]. by rewrite (undo_works Henv) in E. Qed.

Lemma wp_store_Write l key r vm (Q : error + Z -> SegWorld -> Prop) w F :
  store_ok w F -> (l < sw_next w)%nat ->
  (forall e w' F', store_ok w' F' -> grows w F w' F' -> Q (inl e) w') ->
  (forall off w' F', store_ok w' F' -> grows w F w' F' -> slen (b_data r) = ValueLength vm -> b_err r = None ->
     located w' F' (sg_path (seg_at l w')) off key (b_data r) -> Q (inr off) w') ->
  wp (on_segment l (WriteEntry env sf key r vm)) Q w.
Proof using Henv.
  intros Hs Hl H1 H2. destruct (sg_file (seg_at l w)) as [pos|] eqn:Ef.
  2: { pose proof (WriteEntry_closed key r vm (seg_io l w) Ef) as Hc. eapply store_still; [exact Hs|done|..].
       - eapply wp_mono; [exact Hc|]. by intros ? ? [? _].
       - intros a w' F' Ea. destruct Hc as (_ & e & Ee). rewrite Ee in Ea. subst a. by apply H1. }
  destruct (so_live _ _ Hs l Hl) as [Hm Hv]; [by rewrite Ef|]. fold (content_at l w) in Hv. fold (seg_io l w) in Hv.
  eapply (store_leaves l _ Q w F Hs Hl Hm). pose proof (WriteEntry_live env sf (F l) key r vm (seg_io l w) Hv) as Hw.
  destruct (keeps_WriteEntry env sf key r vm (seg_io l w)) as [Hp Ht]. unfold wp in *. destruct (WriteEntry env sf key r vm (seg_io l w)) as [res io'].
  cbn [fst snd] in *. destruct res as [e|off]; cbn [live_post] in Hw.
  - destruct Hw as [_ [[Hw _]|[Hw _]]]; [|by apply no_rollback_failure in Hw]. exists EmptyString. rewrite sapp_nil_r. split; [|by eauto].
    destruct Hw. by split_and!.
  - destruct Hw as (-> & Hb & Hlen & Hw & _). eexists. split; [destruct Hw; by split_and!|]. intros w' F' Hs' Hg' HF Hmap.
    eapply H2; try done. exists l, (F l), EmptyString, (Checksum vm). rewrite HF, sapp_nil_r. split_and!; try done.
    rewrite (g_path _ _ _ _ Hg') by done. by rewrite Hmap.
Qed.

(** A write that is done or not done. *)
Lemma wp_whole_Write p data (Q : Z * option error -> SegIO -> Prop) io :
  live p io -> slen data <= SegmentFooterSize ->
  (forall e io', live p io' -> Q (0, Some e) io') ->
  (forall io', same_stats (io_seg io) (io_seg io') -> sg_file (io_seg io') = Some (slen (p +:+ data)) ->
     stake (String.length (p +:+ data)) (io_content io') = p +:+ data -> slen (p +:+ data) < two63 -> Q (slen data, None) io') ->
  wp (file_Write env sf data) Q io.
Proof using Henv.
  intros Hv Hlen H1 H2. destruct (write_fault env (io_tick io) (slen p) data) as [e|] eqn:Ef.
  - apply wp_fun. unfold file_Write. rewrite (l_file _ _ Hv), Ef, (small_writes Henv) by done. cbn [fst snd stake]. apply H1.
    destruct Hv. split; cbn; try done; [|by rewrite Z.add_0_r]. rewrite slen_nat. by apply pwrite_keeps.
  - apply wp_fun. pose proof (l_front _ _ Hv). unfold file_Write. rewrite (l_file _ _ Hv), Ef, slen_nat. cbn [fst snd].
    unfold write_fault in Ef. destruct (env_fault _ _); [done|]. destruct (Z.leb_spec two63 (slen p + slen data)); [done|].
    apply H2; cbn; [apply same_stats_move|by rewrite slen_app|by apply pwrite_front|by rewrite slen_app].
Qed.

(** However finalizing ends, the file keeps its bytes and the descriptor its place. *)
Lemma Finalize_live p io : live p io ->
  wp (Finalize env sf) (fun _ io' => exists t, stake (String.length (p +:+ t)) (io_content io') = p +:+ t /\ slen (p +:+ t) < two63
    /\ (is_Some (sg_file (io_seg io')) -> live (p +:+ t) io')) io.
Proof using Henv.
  intros Hv. unfold Finalize. apply wp_bind, wp_fun. cbn [fst snd the_seg]. rewrite (l_file _ _ Hv).
  set (f := BuildSegmentFooterWithVersion _ _ _). assert (slen f = SegmentFooterSize) as Hf by apply footer_length.
  apply wp_bind, (wp_whole_Write p); [done|lia| |].
  { intros e io' Hv'. apply wp_ret. exists EmptyString. rewrite sapp_nil_r. destruct Hv'. by split_and!. }
  intros io1 Hs1 Hf1 Hc1 Hsm. apply wp_bind, wp_fun. cbn [fst snd update_seg]. rewrite (l_size _ _ Hv).
  pose proof (slen_nonneg (p +:+ f)). rewrite <- slen_app, (i64_small (slen (p +:+ f))) by (unfold is_i64, two63 in *; lia).
  apply wp_bind. unfold file_Truncate. apply wp_bind, wp_fun. cbn [fst snd io_possyscall io_tick]. rewrite (undo_works Henv).
  apply wp_bind, wp_fun. cbn [fst snd the_seg]. destruct (Z.ltb_spec (slen (p +:+ f)) 0); [lia|]. apply wp_fun. cbn [fst snd io_seg io_content].
  rewrite slen_nat, ftruncate_front by done.
  assert (forall t s', sg_size s' = slen (p +:+ f) -> sg_file s' = Some (slen (p +:+ f)) -> live (p +:+ f) (MkIO s' (p +:+ f) t)) as Hlive.
  { intros t s' E1 E2. split; cbn; try done. by rewrite stake_all. }
  assert (sg_size (io_seg io1) = slen p) as Esz.
  { unfold same_stats in Hs1. pose proof (l_size _ _ Hv) as E. rewrite <- Hs1 in E. exact E. }
  assert (i64 (sg_size (io_seg io1) + slen f) = slen (p +:+ f)) as E64.
  { rewrite Esz, <- slen_app. apply i64_small. unfold is_i64, two63 in *. lia. }
  assert (stake (String.length (p +:+ f)) (p +:+ f) = p +:+ f) as Hall by by rewrite stake_all.
  unfold file_call. do 2 (apply wp_bind, wp_bind, wp_fun; cbn [fst snd io_syscall io_tick io_seg io_content]; apply wp_bind, wp_fun; cbn [fst snd the_seg];
    destruct (env_fault _ _); [apply wp_ret, wp_ret; exists f; split_and!; [done|done|intros _; by apply Hlive]|]; apply wp_ret).
  apply wp_bind, wp_fun. cbn [fst snd update_seg]. apply wp_ret. exists f. split_and!; [done|done|]. cbn. by intros [].
Qed.

(** The same store with another list of open segments, reservations or readings. *)
Lemma store_ok_same w w' F :
  store_ok w F -> sw_segMap w' = sw_segMap w -> sw_disk w' = sw_disk w -> sw_next w' = sw_next w -> (sw_tick w <= sw_tick w')%nat ->
  (forall l, l ∈ sw_openSegments w' -> l ∈ sw_openSegments w) ->
  (forall l, exists caller, seg_at l w' = set_reserved caller (seg_at l w)) -> store_ok w' F /\ grows w F w' F.
Proof.
  intros [] E1 E2 E3 Ht Ho Hh. split; split; rewrite ?E1, ?E2, ?E3; try done.
  - intros path l Hm. destruct (so_map0 _ _ Hm) as ((H1 & H2 & H3 & H5) & H4). destruct (Hh l) as [c Ec]. split; [|done].
    unfold fronted. rewrite E1, E2, Ec. by split_and!.
  - intros l Hl. destruct (Hh l) as [c Ec]. rewrite Ec. cbn. intros Hf. destruct (so_live0 l Hl Hf) as [Hm []]. split; [done|]. by split.
  - intros l Hl. apply so_open0, Ho, Hl.
  - intros n Hn. apply so_fresh0. lia.
  - intros l _. exists EmptyString. by rewrite sapp_nil_r.
  - intros l Hl. destruct (Hh l) as [c ->]. done.
Qed.

Lemma set_reserved_same s : set_reserved (sg_reservedBy s) s = s.
Proof. by destruct s. Qed.

Lemma wp_store_Finalize l (Q : option error -> SegWorld -> Prop) w F :
  store_ok w F -> (l < sw_next w)%nat -> (forall r w' F', store_ok w' F' -> grows w F w' F' -> Q r w') ->
  wp (FinalizeSegment env sf l) Q w.
Proof using Henv.
  intros Hs Hl HQ. unfold FinalizeSegment. apply wp_bind.
  assert (forall r w1 F1, store_ok w1 F1 -> grows w F w1 F1 -> wp (match r with
    | Some e => mret (Some e)
    | None => _ ← st_modify (fun w => sw_setopen (swap_remove (fun x => bool_decide (x = l)) (sw_openSegments w)) w); mret None
    end) Q w1) as Hrest.
  { intros [e|] w1 F1 H1 G1; [by apply wp_ret, (HQ _ _ F1)|]. apply wp_bind, wp_fun. cbn [fst snd st_modify]. apply wp_ret.
    destruct (store_ok_same w1 (sw_setopen (swap_remove (fun x => bool_decide (x = l)) (sw_openSegments w1)) w1) F1) as [H2 G2]; try done.
    - intros x. apply swap_remove_sub.
    - intros x. exists (sg_reservedBy (seg_at x w1)). by rewrite set_reserved_same.
    - apply (HQ _ _ F1); [done|]. by eapply grows_trans. }
  destruct (sg_file (seg_at l w)) as [pos|] eqn:Ef.
  - destruct (so_live _ _ Hs l Hl) as [Hm Hv]; [by rewrite Ef|]. fold (content_at l w) in Hv. fold (seg_io l w) in Hv.
    eapply (store_leaves l _ _ w F Hs Hl Hm). pose proof (Finalize_live (F l) (seg_io l w) Hv) as Hw.
    destruct (keeps_Finalize env sf (seg_io l w)) as [Hp Ht]. unfold wp in Hw |- *. destruct (Finalize env sf (seg_io l w)) as [r io'].
    cbn [fst snd] in *. destruct Hw as (t & H1 & H2 & H3). exists t. split; [by split_and!|]. intros w' F' Hs' Hg' _ _. by apply (Hrest r w' F').
  - eapply store_still; [exact Hs|done| |intros a w' F' _; apply Hrest].
    unfold Finalize. apply wp_bind, wp_fun. cbn [fst snd the_seg seg_io io_seg]. rewrite Ef. apply wp_ret, still_refl.
Qed.

Lemma store_reserve l caller t w F :
  store_ok w F -> (sw_tick w <= t)%nat ->
  let w' := sw_setheap (<[l := set_reserved caller (seg_at l w)]> (sw_heap w)) (sw_settick t w) in store_ok w' F /\ grows w F w' F.
Proof.
  intros Hs Ht w'. apply (store_ok_same w w' F Hs); try done. intros x. unfold w', seg_at. cbn. destruct (decide (x = l)) as [->|Hne].
  - exists caller. by rewrite lookup_insert_eq.
  - rewrite lookup_insert_ne by done. exists (sg_reservedBy (seg_at x w)). by rewrite set_reserved_same.
Qed.

Lemma wp_store_release callerID l (Q : () -> SegWorld -> Prop) w F :
  store_ok w F -> (forall w', store_ok w' F -> grows w F w' F -> Q () w') -> wp (release_one callerID l) Q w.
Proof.
  intros Hs HQ. apply wp_fun. cbn [fst snd release_one st_modify].
  assert (exists caller, (Release callerID (seg_at l w)).2 = set_reserved caller (seg_at l w)) as [caller ->].
  { unfold Release. destruct (decide _); cbn; [|destruct (decide _); [by eexists|]]; exists (sg_reservedBy (seg_at l w)); by rewrite set_reserved_same. }
  destruct (store_reserve l caller (sw_tick w) w F Hs) as [H1 H2]; [done|]. by apply HQ; destruct w.
Qed.

Lemma seg_at_fresh w l s o t d m : seg_at l (MkSegWorld d t (<[sw_next w := s]> (sw_heap w)) (S (sw_next w)) (sw_segments w ++ [sw_next w]) m o)
  = if decide (l = sw_next w) then s else seg_at l w.
Proof. unfold seg_at. cbn. destruct (decide _) as [->|]; [by rewrite lookup_insert_eq|by rewrite lookup_insert_ne]. Qed.

(** A new segment under a fresh name. *)
Lemma store_create w F n s c t o :
  store_ok w F -> (sw_tick w <= n)%nat -> (n < t)%nat -> sg_path s = seg_path n -> live EmptyString (MkIO s c t) ->
  (forall l, l ∈ o -> l ∈ sw_openSegments w \/ l = sw_next w) ->
  let w' := MkSegWorld (<[seg_path n := c]> (sw_disk w)) t (<[sw_next w := s]> (sw_heap w)) (S (sw_next w)) (sw_segments w ++ [sw_next w])
    (<[seg_path n := sw_next w]> (sw_segMap w)) o in
  store_ok w' (<[sw_next w := EmptyString]> F) /\ grows w F w' (<[sw_next w := EmptyString]> F).
Proof using Henv.
  intros [] Hn Ht Hp Hl Ho w'. pose proof (so_fresh0 n Hn) as Hfresh. split; split.
  - intros path l Hm. cbn in Hm. unfold fronted, w'. rewrite seg_at_fresh. destruct (decide (path = seg_path n)) as [->|Hne].
    + rewrite lookup_insert_eq in Hm. injection Hm as <-. rewrite fn_lookup_insert, decide_True by done. cbn. split_and!; try (done || lia).
      * apply lookup_insert_eq.
      * exists c. by rewrite lookup_insert_eq.
      * split; [by eexists|apply (names_utf8 Henv)].
    + rewrite lookup_insert_ne in Hm by done. destruct (so_map0 _ _ Hm) as ((_ & H2 & (c' & Hd & Hc) & H3) & H4 & H5).
      rewrite fn_lookup_insert_ne by lia. rewrite decide_False by lia. cbn. split_and!; try (done || lia); [by rewrite lookup_insert_ne by done|].
      exists c'. by rewrite lookup_insert_ne by done.
  - intros l Hl'. unfold w'. rewrite seg_at_fresh. cbn in Hl'. destruct (decide (l = sw_next w)) as [->|Hne].
    + intros _. cbn [sw_segMap sw_disk sw_tick]. rewrite Hp, !lookup_insert_eq, fn_lookup_insert. cbn. by split.
    + intros Hf. destruct (so_live0 l ltac:(lia) Hf) as [Hm Hv]. cbn [sw_segMap sw_disk sw_tick]. rewrite fn_lookup_insert_ne by lia.
      assert (seg_path n <> sg_path (seg_at l w)) as Hne' by (intros E; rewrite <- E in Hm; congruence).
      rewrite !lookup_insert_ne by done. split; [done|]. by destruct Hv; split.
  - intros l Hl'. cbn in *. destruct (Ho l Hl') as [H1| ->]; [apply so_open0 in H1; lia|lia].
  - intros k Hk. cbn in *. rewrite lookup_insert_ne; [apply so_fresh0; lia|]. intros E. apply (names_unique Henv) in E. lia.
  - intros path l Hm. cbn. rewrite lookup_insert_ne; [done|]. intros E. rewrite <- E in Hm. congruence.
  - intros l Hl'. rewrite fn_lookup_insert_ne by lia. exists EmptyString. by rewrite sapp_nil_r.
  - intros l Hl'. unfold w'. rewrite seg_at_fresh, decide_False by lia. done.
  - cbn. lia.
Qed.

Lemma wp_store_Acquire caller needed (Q : error + nat -> SegWorld -> Prop) w F :
  store_ok w F -> (forall e w' F', store_ok w' F' -> grows w F w' F' -> Q (inl e) w') ->
  (forall l w' F', store_ok w' F' -> grows w F w' F' -> (l < sw_next w')%nat -> Q (inr l) w') ->
  wp (AcquireOpenSegmentWithReservation env segmentsPath segmentSize caller needed) Q w.
Proof using Henv.
  intros Hs H1 H2. unfold AcquireOpenSegmentWithReservation. destruct (decide _); [apply wp_ret, (H1 _ _ F); [done|apply grows_refl]|].
  apply wp_bind, wp_fun. cbn [fst snd st_get]. apply wp_bind, wp_find_open.
  2: { intros l s t Hin Hr _ Ht. apply Reserve_inv in Hr as (_ & _ & _ & ->). apply wp_ret.
       destruct (store_reserve l caller t w F Hs Ht) as [H3 H4]. apply (H2 _ _ F); [done|done|]. cbn. by apply (so_open _ _ Hs). }
  intros t Ht. unfold createNewSegmentWithReservationLocked. apply wp_bind, wp_fun. cbn [fst snd sw_Now sw_tick sw_settick].
  fold (seg_path t). assert (forall d t', (t <= t')%nat -> (forall p, p <> seg_path t -> d !! p = sw_disk w !! p) ->
    store_ok (sw_setdisk d (sw_settick t' w)) F /\ grows w F (sw_setdisk d (sw_settick t' w)) F) as Hfail.
  { intros d t' Ht' Hd. destruct Hs as [Hm Hv Ho Hf]. pose proof (Hf t Ht) as Hno. split; split; try done.
    - intros path l Hl. destruct (Hm _ _ Hl) as ((E1 & E2 & (c & E3 & E4) & E5) & E6). split; [|done]. split_and!; try done.
      exists c. split; [|done]. cbn. rewrite Hd; [done|]. intros ->. cbn in Hl. congruence.
    - intros l Hl Hlf. destruct (Hv l Hl Hlf) as [E1 []]. split; [done|]. cbn. rewrite Hd; [by split|]. unfold seg_at in *. cbn in *. congruence.
    - intros k Hk. cbn in *. apply Hf. lia.
    - intros l _. exists EmptyString. by rewrite sapp_nil_r. }
  apply wp_bind, wp_fun. cbn [fst snd sw_syscall sw_tick sw_settick]. destruct (env_fault _ _).
  { apply wp_ret. destruct (Hfail (sw_disk w) (S (S t))) as [H3 H4]; [lia|done|]. by apply (H1 _ _ F). }
  apply wp_bind, wp_fun. cbn [fst snd st_modify]. apply wp_bind, wp_fun. cbn [fst snd sw_syscall sw_tick sw_settick sw_setdisk sw_disk].
  destruct (env_fault _ _).
  { apply wp_ret. set (d := <[_ := _]> (sw_disk w)). destruct (Hfail d (S (S (S t)))) as [H3 H4]; [lia| |by apply (H1 _ _ F)].
    intros q Hq. by apply lookup_insert_ne. }
  apply wp_bind, wp_fun. cbn [fst snd st_modify]. apply wp_bind, wp_fun. cbn [fst snd add_segment]. apply wp_bind, wp_fun.
  cbn [fst snd st_modify]. apply wp_ret. cbn. rewrite insert_insert_eq. set (c := ftruncate _ _). set (s := SetOpenFile _ _).
  destruct (store_create w F t s c (S (S (S t))) (sw_openSegments w ++ [sw_next w]) Hs Ht) as [H3 H4]; try done; [lia|set_solver|].
  eapply H2; [exact H3|exact H4|]. cbn. lia.
Qed.

End Invariant.
