(* ===== verification/Compaction.v ===== *)
(** * Compaction of raw files into segments (storage/compaction/compactor.go)

    A run walks the compaction index, copies each raw file into the worker's segment
    and stages a conditional rewrite of the row; the batch is committed after a sync
    of the segment, and only then are the source files queued for deletion. The world
    of the engine is instantiated with the segment manager of Segments.v. *)

From S2P Require Import Prelude Fnv Keys Errors Message Merge Rocks World Files SegmentFormat Segments.

Open Scope Z_scope.

Definition compactorCallerID : bytes := "compactor".

Definition HashString (s : bytes) : Z := fnv32a s.

(** The segment manager as the read path of the engine sees it. *)
Definition segment_manager (senv : Env) : SegmentStore SegWorld := {|
  sm_ReadEntry key path offset length :=
    r ← ReadEntry senv key path offset length;
    mret match r with inl e => inl e | inr b => inr (Some b) end
|}.

(** The errors of one entry. *)
Inductive comp_error :=
  | ErrFileSizeMismatch (Key FilePath : bytes) (ActualSize ExpectedSize : Z)
  | CError (e : error).

(** [userKey], [filePath], [fileInfo.Size()] and [metadata]. *)
Record compactionEntry := MkCompEntry { ce_userKey : bytes; ce_filePath : bytes; ce_size : Z; ce_metadata : ValueMessage }.

(** What a run has gathered: the write batch, the current segment, the sources to
    delete after the commit and the totals. *)
Record comp_run := MkRun { cr_wb : list batch_op; cr_seg : nat; cr_pending : list bytes; cr_processed : Z; cr_copied : Z }.

Definition run_wb wb r := MkRun wb (cr_seg r) (cr_pending r) (cr_processed r) (cr_copied r).
Definition run_seg l r := MkRun (cr_wb r) l (cr_pending r) (cr_processed r) (cr_copied r).
Definition run_pending p r := MkRun (cr_wb r) (cr_seg r) p (cr_processed r) (cr_copied r).
Definition run_done size r := MkRun (cr_wb r) (cr_seg r) (cr_pending r) (cr_processed r + 1) (i64 (cr_copied r + size)).

(** The operand of a migration: the copied entry's location over the row. *)
Definition with_segment (path : bytes) (offset : Z) (vm : ValueMessage) : ValueMessage :=
  MkVM SEGMENT (Data vm) (Expiry vm) (RawFilePath vm) path offset (ValueLength vm) (Checksum vm) (Version vm)
    (OpType vm) (CasExpectedVersion vm).

Section Compactor.

Context {DB : Type} `{Protobuf} `{RocksDB DB} (env senv : Env) (sf : SegFaults).
Context (segmentsPath : bytes) (segmentSize : Z).
(** Whether the context is cancelled at a consultation, whether reads are rate
    limited, and how much of a file a failing read has delivered. *)
Context (cancelled : nat -> bool) (limited : bool) (partial : nat -> nat).
Notation M := (World.M (DB := DB) (SM := SegWorld)).

Definition ctx_Err : M (option error) := fun w =>
  (if cancelled (w_tick w) then Some (ESentinel ContextCanceled) else None, tick w).

(** ** Helpers of storage/utils *)

Definition GetMetadata (key : bytes) : M (error + ValueMessage) :=
  r ← Get_ key;
  mret match r with
       | inl e => inl e
       | inr None => inl (ESentinel ErrMetadataNotFound)
       | inr (Some v) => match proto_Unmarshal v with Some vm => inr vm | None => inl (EText "proto: cannot parse") end
       end.

Definition ValidateFileEntry (vm : ValueMessage) (filePath : bytes) : option error :=
  if negb (ValueType vm =? RAW_FILE) then
    if ValueType vm =? SEGMENT then Some (ESentinel ErrAlreadyCompacted) else Some (ESentinel ErrNotRawFile)
  else if bool_decide (RawFilePath vm <> filePath) then Some (ESentinel ErrFilePathMismatch)
  else None.

(** ** One entry *)

(** [os.Stat]: the size. *)
Definition os_Stat (path : bytes) : M (error + Z) :=
  f ← syscall env;
  match f with
  | Some e => mret (inl (EPathError "stat" path e))
  | None => fun w => (match w_disk w !! path with
                      | Some c => inr (slen c)
                      | None => inl (EPathError "stat" path ENOENT)
                      end, w)
  end.

Definition loadAndValidateMetadata (userKey filePath : bytes) : M (error + ValueMessage) :=
  r ← GetMetadata (MakeMetadataKey userKey);
  mret match r with
       | inl e => if errors_Is e ErrMetadataNotFound then inl (ESentinel ErrMetadataNotFound) else inl e
       | inr vm => match ValidateFileEntry vm filePath with Some e => inl e | None => inr vm end
       end.

Definition processCompactionEntry (userKey filePath : bytes) : M (error + compactionEntry) :=
  r ← os_Stat filePath;
  match r with
  | inl e => mret (inl (if os_IsNotExist e then ESentinel ErrFileNotExist else e))
  | inr size =>
      r ← loadAndValidateMetadata userKey filePath;
      mret match r with inl e => inl e | inr vm => inr (MkCompEntry userKey filePath size vm) end
  end.

Definition purgeDanglingMeta (wb : list batch_op) (userKey filePath : bytes) : M (list batch_op) :=
  if decide (filePath = EmptyString) then mret wb
  else
    let metaKey := MakeMetadataKey userKey in
    r ← Get_ metaKey;
    mret match r with
         | inl _ | inr None => wb
         | inr (Some _) =>
             match MakeRawFilePurgeOperand filePath with
             | None => wb
             | Some operand => wb ++ [BMerge metaKey operand]
             end
         end.

(** [commit]: nothing to do, cancelled, or the segment's sync and then the batch. *)
Definition Compactor_commit (seg : nat) (wb : list batch_op) : M (option error) :=
  if decide (wb = []) then mret None
  else
    c ← ctx_Err;
    match c with
    | Some e => mret (Some e)
    | None =>
        r ← on_sm (on_segment seg (Sync senv));
        match r with
        | Some e => mret (Some e)
        | None => Write_ wb
        end
    end.

Fixpoint queueCompactedSources (pending : list bytes) : M () :=
  match pending with
  | [] => mret ()
  | filePath :: pending => _ ← Queue_Add env filePath; queueCompactedSources pending
  end.

Definition the_segment (l : nat) : M Segment := fun w => (seg_at l (w_sm w), w).

Definition ensureCapacity (callerID : bytes) (needed : Z) (run : comp_run) : M (option error * comp_run) :=
  s ← the_segment (cr_seg run);
  if needed <=? Remaining s then mret (None, run)
  else
    c ← ctx_Err;
    match c with
    | Some e => mret (Some e, run)
    | None =>
        r ← Compactor_commit (cr_seg run) (cr_wb run);
        match r with
        | Some e => mret (Some e, run)
        | None =>
            _ ← queueCompactedSources (cr_pending run);
            let run := run_pending [] (run_wb [] run) in
            r ← on_sm (FinalizeSegment senv sf (cr_seg run));
            match r with
            | Some e => mret (Some e, run)
            | None =>
                _ ← on_sm (release_one callerID (cr_seg run));
                r ← on_sm (AcquireOpenSegmentWithReservation senv segmentsPath segmentSize callerID 0);
                match r with
                | inl e => mret (Some e, run)
                | inr l => mret (None, run_seg l run)
                end
            end
        end
    end.

(** What reading the open file yields: its bytes (the announced ones at most, if the
    reader is rate limited), or what came before a failure or a cancellation. *)
Definition read_outcome (filePath content : bytes) (f : option Errno) : M Body := fun w =>
  (match f with
   | Some e => MkBody (stake (partial (w_tick w)) content) (Some (EPathError "read" filePath e))
   | None => if limited && cancelled (w_tick w)
             then MkBody (stake (partial (w_tick w)) content) (Some (ESentinel ContextCanceled))
             else MkBody content None
   end, tick w).

Definition file_reader (filePath content : bytes) (length : Z) : M Body :=
  f ← syscall env;
  read_outcome filePath (if limited then stake (Z.to_nat length) content else content) f.

Definition copyFileIntoSegment (seg : nat) (userKey filePath content : bytes) (vm : ValueMessage) : M (error + ValueMessage) :=
  c ← ctx_Err;
  match c with
  | Some e => mret (inl e)
  | None =>
      reader ← file_reader filePath content (ValueLength vm);
      r ← on_sm (on_segment seg (WriteEntry senv sf userKey reader vm));
      s ← the_segment seg;
      mret match r with inl e => inl e | inr segOff => inr (with_segment (sg_path s) segOff vm) end
  end.

(** [os.Open] for reading: the bytes of the file. *)
Definition os_Open (path : bytes) : M (error + bytes) :=
  f ← syscall env;
  match f with
  | Some e => mret (inl (EPathError "open" path e))
  | None => fun w => (match w_disk w !! path with
                      | Some c => inr c
                      | None => inl (EPathError "open" path ENOENT)
                      end, w)
  end.

Definition compactEntry (entry : compactionEntry) (callerID : bytes) (run : comp_run) : M (option comp_error * comp_run) :=
  let vm := ce_metadata entry in
  if negb (ce_size entry =? ValueLength vm)
  then mret (Some (ErrFileSizeMismatch (ce_userKey entry) (ce_filePath entry) (ce_size entry) (ValueLength vm)), run)
  else
    let totalNeeded := i64 (CalculateValueHeaderSize (ce_userKey entry) + ValueLength vm) in
    '(err, run) ← ensureCapacity callerID totalNeeded run;
    match err with
    | Some e => mret (Some (CError e), run)
    | None =>
        f ← os_Open (ce_filePath entry);
        match f with
        | inl e => mret (Some (CError e), run)
        | inr content =>
            r ← copyFileIntoSegment (cr_seg run) (ce_userKey entry) (ce_filePath entry) content vm;
            match r with
            | inl e => mret (Some (CError e), run)
            | inr vm =>
                let operand := default EmptyString (proto_Marshal vm) in
                mret (None, run_wb (cr_wb run ++ [BMerge (MakeMetadataKey (ce_userKey entry)) operand]) run)
            end
        end
    end.

(** ** The run *)

(** What the error of [processCompactionEntry] makes of the row [k]; the case for
    malformed rows is left out, as no call returns that error. *)
Definition skip_entry_for (k userKey filePath : bytes) (e : error) (run : comp_run) : M comp_run :=
  let dropped := run_wb (cr_wb run ++ [BDelete k]) run in
  if errors_Is e ErrMetadataNotFound then _ ← Queue_Add env filePath; mret dropped
  else if errors_Is e ErrAlreadyCompacted then mret dropped
  else if errors_Is e ErrNotRawFile || errors_Is e ErrFilePathMismatch then _ ← Queue_Add env filePath; mret dropped
  else if errors_Is e ErrFileNotExist then
    wb ← purgeDanglingMeta (cr_wb dropped) userKey filePath; mret (run_wb wb run)
  else mret run.

(** [true] when the run is to be abandoned. *)
Definition compact_row (callerID : bytes) (k v : bytes) (mine : bytes -> bool) (run : comp_run) : M (bool * comp_run) :=
  let '(userKey, filePath, ok) := ParseCompactionIndexRow k v in
  if negb ok then mret (false, run_wb (cr_wb run ++ [BDelete k]) run)
  else if negb (mine userKey) then mret (false, run)
  else
    r ← processCompactionEntry userKey filePath;
    match r with
    | inl e => run ← skip_entry_for k userKey filePath e run; mret (false, run)
    | inr entry =>
        '(err, run) ← compactEntry entry callerID run;
        match err with
        | Some (CError (ESentinel ContextCanceled)) => mret (true, run)
        | Some (ErrFileSizeMismatch _ _ _ _) =>
            wb ← purgeDanglingMeta (cr_wb run ++ [BDelete k]) (ce_userKey entry) (ce_filePath entry);
            mret (false, run_pending (cr_pending run ++ [ce_filePath entry]) (run_wb wb run))
        | Some (CError _) => mret (false, run)
        | None =>
            mret (false, run_done (ce_size entry)
              (run_pending (cr_pending run ++ [ce_filePath entry]) (run_wb (cr_wb run ++ [BDelete k]) run)))
        end
    end.

Fixpoint compact_rows (callerID : bytes) (mine : bytes -> bool) (rows : list (bytes * bytes)) (run : comp_run)
    : M (bool * comp_run) :=
  match rows with
  | [] => mret (false, run)
  | (k, v) :: rows =>
      c ← ctx_Err;
      match c with
      | Some _ => mret (true, run)
      | None =>
          '(stop, run) ← compact_row callerID k v mine run;
          if (stop : bool) then mret (true, run) else compact_rows callerID mine rows run
      end
  end.

(** The keys of a worker. *)
Definition assigned (threads workerID : Z) (userKey : bytes) : bool :=
  if 1 <? threads then (HashString userKey mod u32 threads) =? workerID else true.

Definition worker_caller (workerID : Z) : bytes := compactorCallerID +:+ "-" +:+ fmt_int 1 workerID.

(** [CompactFiles]: entries and bytes compacted. *)
Definition CompactFiles (threads workerID : Z) : M (Z * Z) :=
  it ← Iterate_ CompactionIndexPrefix;
  let callerID := worker_caller workerID in
  r ← on_sm (AcquireOpenSegmentWithReservation senv segmentsPath segmentSize callerID 0);
  match r with
  | inl _ => mret (0, 0)
  | inr seg =>
      '(stop, run) ← compact_rows callerID (assigned threads workerID) (prefix_rows CompactionIndexPrefix it.1)
                       (MkRun [] seg [] 0 0);
      _ ← (if (stop : bool) then mret ()
           else
             r ← Compactor_commit (cr_seg run) (cr_wb run);
             match r with
             | Some _ => mret ()
             | None => queueCompactedSources (cr_pending run)
             end);
      _ ← on_sm (release_one callerID (cr_seg run));
      mret (cr_processed run, cr_copied run)
  end.

End Compactor.
