(* ===== verification/CompactionInv.v ===== *)
(** * The invariant of a compaction run

    What a run has staged is harmless to any row it may meet: a migration points at a
    copy of the very file it replaces, a purge meets no row of its file. Committing the
    batch keeps the value of every key, whatever was committed before. *)

From S2P Require Import Prelude Keys Errors Message Merge Wire Rocks World Files RangeReader Storage Wp Safety StorageSpec StorageProps Cas CasSpec SegmentFormat Segments SegmentProps SegmentStoreProps SegmentInv Compaction.

Open Scope Z_scope.

#[local] Arguments crc32 : simpl never.
#[local] Arguments has_prefix : simpl never.
#[local] Arguments apply_batch : simpl never.

Section Rows.

Context {PB : Protobuf} {PL : ProtobufLaws}.
Context (init_ok : proto_Marshal (tombstone 0) = Some expiredSentinel).
Context (env : Env) (cfg : Config) (segmentsPath : bytes).
Implicit Types m : gmap bytes bytes.

(** Raw files come and go only with their rows: a store with fewer of them. *)
Record shrinks m m' : Prop := {
  sh_raw key vm : row_at m' key vm -> ValueType vm = RAW_FILE -> row_at m key vm;
  sh_here key : m !! MakeMetadataKey key <> None -> m' !! MakeMetadataKey key <> None
}.

Lemma shrinks_refl m : shrinks m m.
Proof. by split. Qed.

Lemma shrinks_trans m1 m2 m3 : shrinks m1 m2 -> shrinks m2 m3 -> shrinks m1 m3.
Proof. intros [] []. split; eauto. Qed.

Lemma shrinks_raw m m' key path len : shrinks m m' -> raw_at m' key path len -> raw_at m key path len.
Proof. intros [] (vm & Hr & Ht & Hrest). exists vm. split; [by apply sh_raw0|done]. Qed.

Lemma shrinks_rows m m' : (forall key, m' !! MakeMetadataKey key = m !! MakeMetadataKey key) -> shrinks m m'.
Proof. intros E. split; [|intros key; by rewrite E]. intros key vm Hr _. eapply (quiet_row_at m m' key vm); [apply E|done]. Qed.

(** Reference safety in a store with fewer raw rows and no new queue entries or
    back-references. *)
Lemma ref_safe_shrinks m m' disk t :
  ref_safe env cfg m disk t -> shrinks m m' ->
  (forall k v, has_prefix DeletionQueuePrefix k = true \/ is_backref k = true -> m' !! k = Some v -> m !! k = Some v) ->
  ref_safe env cfg m' disk t.
Proof.
  intros [] Hsh Hk. split; try done.
  - intros key path len Hr. eapply rs_file, shrinks_raw; eauto.
  - intros k1 k2 path l1 l2 H1 H2. eapply rs_uniq; eapply shrinks_raw; eauto.
  - intros k v E Hq. destruct (rs_queue k v) as (ts & p & H1 & H2 & H3 & H4); [by auto|done|]. exists ts, p. split_and!; try done.
    intros key len Hr. eapply H3, shrinks_raw; eauto.
  - intros n Hn key len Hr. eapply (rs_fresh n Hn), shrinks_raw; eauto.
  - intros k e E Hb. eauto.
Qed.

(** ** Values *)

Definition value_at (sw : SegWorld) (F : nat -> bytes) (disk : gmap bytes bytes) (key : bytes) (vm : ValueMessage) (data : bytes) : Prop :=
  ValueType vm = INLINE /\ Data vm = data
  \/ ValueType vm = RAW_FILE /\ disk !! RawFilePath vm = Some data /\ ValueLength vm = slen data
  \/ ValueType vm = SEGMENT /\ located sw F (SegmentPath vm) (SegmentOffset vm) key data /\ ValueLength vm = slen data.

Definition same_meta (vm vm' : ValueMessage) : Prop :=
  Expiry vm' = Expiry vm /\ Version vm' = Version vm /\ ValueLength vm' = ValueLength vm /\ Checksum vm' = Checksum vm.

(** Every value of the first store is in the second one, but for rows of the zero message
    (an empty value that was stored without a stamp and an expiry). *)
Definition keeps (disk : gmap bytes bytes) m (sw : SegWorld) F m' (sw' : SegWorld) F' : Prop :=
  forall key vm data, row_at m key vm -> vm <> vm_zero -> value_at sw F disk key vm data ->
    exists vm', row_at m' key vm' /\ vm' <> vm_zero /\ value_at sw' F' disk key vm' data /\ same_meta vm vm'.

Lemma value_nonzero sw F disk key vm data : value_at sw F disk key vm data -> 0 < slen data -> vm <> vm_zero.
Proof. intros [[_ E]|[[E _]|[E _]]] Hd ->; [subst data|..]; by cbn in *. Qed.

Lemma keeps_trans disk m1 s1 F1 m2 s2 F2 m3 s3 F3 :
  keeps disk m1 s1 F1 m2 s2 F2 -> keeps disk m2 s2 F2 m3 s3 F3 -> keeps disk m1 s1 F1 m3 s3 F3.
Proof.
  intros H1 H2 key vm data Hr Hz Hv. destruct (H1 _ _ _ Hr Hz Hv) as (vm2 & Hr2 & Hz2 & Hv2 & Hs2).
  destruct (H2 _ _ _ Hr2 Hz2 Hv2) as (vm3 & Hr3 & Hz3 & Hv3 & Hs3). exists vm3. split_and!; try done. unfold same_meta in *. intuition congruence.
Qed.

Lemma value_at_grows disk sw F sw' F' key vm data senv :
  store_ok senv segmentsPath sw F -> grows sw F sw' F' -> value_at sw F disk key vm data -> value_at sw' F' disk key vm data.
Proof. intros Hs Hg [H|[H|(H1 & H2 & H3)]]; [by left|by right; left|]. right; right. split_and!; try done. by eapply located_grows. Qed.

Lemma keeps_grows disk m m' sw F sw' F' senv :
  store_ok senv segmentsPath sw F -> grows sw F sw' F' ->
  (forall key, m' !! MakeMetadataKey key = m !! MakeMetadataKey key) -> keeps disk m sw F m' sw' F'.
Proof.
  intros Hs Hg E key vm data Hr Hz Hv. exists vm. split_and!; try done; [by apply (quiet_row_at m m')|by eapply value_at_grows].
Qed.

(** ** Staged operations *)

(** The rows of a store the engine writes: without the fields of an operand, and the zero
    message in its one encoding, no bytes at all. *)
Definition rows_ok m : Prop := forall key v vm,
  m !! MakeMetadataKey key = Some v -> proto_Unmarshal v = Some vm -> OpType vm = 0 /\ (vm = vm_zero -> v = EmptyString).

Lemma rows_ok_ext m m' : (forall key, m' !! MakeMetadataKey key = m !! MakeMetadataKey key) -> rows_ok m -> rows_ok m'.
Proof. intros E H key v vm. rewrite E. apply H. Qed.

Lemma rows_ok_op m key vm : rows_ok m -> row_at m key vm -> OpType vm = 0.
Proof. intros H (v & Ev & Eu). by apply (H key v vm). Qed.

(** A migration of [key] from the file [vm0] names to the copy that the operand names. *)
Record migration (sw : SegWorld) F (disk : gmap bytes bytes) m (key : bytes) (op : ValueMessage) : Prop := {
  mg_op : OpType op = 0;
  mg_type : ValueType op = SEGMENT;
  mg_path : RawFilePath op <> EmptyString;
  mg_dir : ~ in_dir segmentsPath (RawFilePath op);
  mg_data : exists data, disk !! RawFilePath op = Some data /\ ValueLength op = slen data
              /\ located sw F (SegmentPath op) (SegmentOffset op) key data;
  mg_row vm : row_at m key vm -> ValueType vm = RAW_FILE -> RawFilePath vm = RawFilePath op ->
    Expiry op = Expiry vm /\ ValueLength op = ValueLength vm /\ Checksum op = Checksum vm
}.

(** A purge of a file that no row of the key names. *)
Record idle_purge m (key : bytes) (op : ValueMessage) : Prop := {
  ip_op : OpType op = 0;
  ip_type : ValueType op = RAW_FILE;
  ip_path : RawFilePath op <> EmptyString;
  ip_row vm : row_at m key vm -> ValueType vm = RAW_FILE -> RawFilePath vm <> RawFilePath op
}.

Definition op_ok (sw : SegWorld) F (disk : gmap bytes bytes) m (op : batch_op) : Prop :=
  match op with
  | BPut _ _ => False
  | BDelete k => has_prefix CompactionIndexPrefix k = true
  | BMerge k o => exists key op, k = MakeMetadataKey key /\ proto_Unmarshal o = Some op /\ m !! k <> None
      /\ (migration sw F disk m key op \/ idle_purge m key op)
  end.

Lemma op_ok_later sw F sw' F' disk m m' op senv :
  store_ok senv segmentsPath sw F -> grows sw F sw' F' -> shrinks m m' -> op_ok sw F disk m op -> op_ok sw' F' disk m' op.
Proof.
  intros Hs Hg [Hraw Hhere] Hop. destruct op as [k v|k|k o]; [done|done|]. destruct Hop as (key & op & -> & Ho & Hk & Hcase).
  exists key, op. split_and!; try done; [by apply Hhere|]. destruct Hcase as [[]|[]]; [left|right]; split; try done.
  - destruct mg_data0 as (data & H1 & H2 & H3). exists data. split_and!; try done. by eapply located_grows.
  - intros vm Hr Ht. apply mg_row0; [|done]. by apply Hraw.
  - intros vm Hr Ht. apply ip_row0; [|done]. by apply Hraw.
Qed.

Lemma row_at_fun m key vm vm' : row_at m key vm -> row_at m key vm' -> vm = vm'.
Proof. intros (v & E & U) (v' & E' & U'). congruence. Qed.

(** The bytes of a merge on a decodable row. *)
Lemma merge_decoded m key v vm o op vm' :
  m !! MakeMetadataKey key = Some v -> proto_Unmarshal v = Some vm -> vm <> vm_zero -> proto_Unmarshal o = Some op -> OpType op = 0 ->
  apply_operand (Some vm) op = Some vm' -> vm' <> vm_zero ->
  exists v', apply_op m (BMerge (MakeMetadataKey key) o) = <[MakeMetadataKey key := v']> m /\ proto_Unmarshal v' = Some vm'
    /\ op_regular m (BMerge (MakeMetadataKey key) o).
Proof using PL.
  intros Ev Eu Hz Eo Hop Ha Hz'. assert (v <> EmptyString) as Hne by (intros ->; rewrite unmarshal_empty in Eu; congruence).
  assert (vm_ok vm') as Hok by (eapply apply_operand_ok; [by eapply unmarshal_ok, Eo| |exact Ha]; intros b [= <-]; by eapply unmarshal_ok).
  destruct (marshal_total vm' Hok) as [v' Ev'].
  assert (FullMerge (MakeMetadataKey key) v [o] = Some v') as Em.
  { rewrite FullMerge_metadata, (merge_present v vm) by done. unfold apply_all. cbn [fold_left]. unfold apply_bytes. by rewrite Eo, Ha. }
  pose proof (marshal_unmarshal _ _ Hok Ev') as Eu'. exists v'. split_and!; [cbn; by rewrite Ev; cbn; rewrite Em|done|].
  intros _ _. split.
  - intros (op' & E1 & E2 & _). rewrite Eo in E1. simplify_eq. by rewrite Hop in E2.
  - rewrite Ev. cbn. rewrite Em. intros [= ->]. rewrite unmarshal_empty in Eu'. by simplify_eq.
Qed.

(** A merge on a row of no bytes takes it for a missing one. *)
Lemma merge_empty m key o op :
  m !! MakeMetadataKey key = Some EmptyString -> proto_Unmarshal o = Some op -> OpType op = 0 ->
  apply_op m (BMerge (MakeMetadataKey key) o) = <[MakeMetadataKey key := expiredSentinel]> m
  /\ op_regular m (BMerge (MakeMetadataKey key) o).
Proof using Type.
  intros Ev Eo Hop. assert (FullMerge (MakeMetadataKey key) EmptyString [o] = Some expiredSentinel) as Em.
  { rewrite FullMerge_metadata. rewrite (merge_one EmptyString None o op Eo) by auto. unfold apply_operand. rewrite Hop. cbn.
    by destruct (_ && _). }
  split; [cbn; by rewrite Ev; cbn; rewrite Em|]. intros _ _. split; [by rewrite Ev|]. rewrite Ev. cbn. by rewrite Em.
Qed.

(** What a merge makes of a row: of the zero message a tombstone, of another one what the
    operand does to it. *)
Lemma merge_on_row m key v vm o op vm' :
  m !! MakeMetadataKey key = Some v -> proto_Unmarshal v = Some vm -> (vm = vm_zero -> v = EmptyString) ->
  proto_Unmarshal o = Some op -> OpType op = 0 -> apply_operand (Some vm) op = Some vm' -> (vm <> vm_zero -> vm' <> vm_zero) ->
  let vm'' := if decide (vm = vm_zero) then tombstone 0 else vm' in
  vm'' <> vm_zero /\ exists v', apply_op m (BMerge (MakeMetadataKey key) o) = <[MakeMetadataKey key := v']> m
    /\ proto_Unmarshal v' = Some vm'' /\ op_regular m (BMerge (MakeMetadataKey key) o).
Proof using PL init_ok.
  intros Ev Eu Hcan Eo Hop Ha Hz vm''. unfold vm''. destruct (decide (vm = vm_zero)) as [E|E].
  - split; [done|]. rewrite (Hcan E) in Ev. destruct (merge_empty m key o op Ev Eo Hop) as [Em Hreg].
    exists expiredSentinel. split_and!; [done|by apply unmarshal_sentinel|done].
  - split; [by apply Hz|]. by eapply merge_decoded; eauto.
Qed.

(** A row that does not decode is left alone. *)
Lemma merge_undecoded m key v o :
  m !! MakeMetadataKey key = Some v -> proto_Unmarshal v = None -> (guarded_delete o -> False) ->
  apply_op m (BMerge (MakeMetadataKey key) o) = m /\ op_regular m (BMerge (MakeMetadataKey key) o).
Proof using PL.
  intros Ev Eu Hg. assert (v <> EmptyString) as Hne by (intros ->; by rewrite unmarshal_empty in Eu).
  assert (FullMerge (MakeMetadataKey key) v [o] = Some v) as Em.
  { rewrite FullMerge_metadata. unfold mergeMetadataCAS. rewrite decide_False by done. by rewrite Eu. }
  split; [cbn; rewrite Ev; cbn; rewrite Em; by apply insert_id|]. intros _ _. split; [done|]. rewrite Ev. cbn. rewrite Em. congruence.
Qed.

(** What a staged operand makes of a row. *)
Lemma operand_result sw F disk m key vm op :
  migration sw F disk m key op \/ idle_purge m key op -> row_at m key vm ->
  apply_operand (Some vm) op = Some vm
    /\ (ValueType op = SEGMENT -> ValueType vm = RAW_FILE -> RawFilePath vm <> RawFilePath op)
  \/ migration sw F disk m key op /\ apply_operand (Some vm) op = Some (migrate vm op)
     /\ (ValueType vm = RAW_FILE /\ RawFilePath vm = RawFilePath op \/ ValueType vm = SEGMENT /\ SegmentPath vm = RawFilePath op).
Proof.
  intros [Hm|Hp] Hr.
  - destruct Hm as [H1 H2 H3 H4 H5 H6]. unfold apply_operand. rewrite H1, H2. cbn [Z.eqb]. change (SEGMENT =? RAW_FILE) with false.
    rewrite (bool_decide_false (RawFilePath op = _)) by done. cbn.
    destruct ((ValueType vm =? RAW_FILE) && bool_decide (RawFilePath vm = RawFilePath op)) eqn:E1; cbn.
    + apply andb_true_iff in E1 as [E1 E2]. bool_facts. right. split_and!; [done|done|by left].
    + destruct ((ValueType vm =? SEGMENT) && bool_decide (SegmentPath vm = RawFilePath op)) eqn:E2; cbn.
      * apply andb_true_iff in E2 as [E2 E3]. bool_facts. right. split_and!; [done|done|by right].
      * left. split; [done|]. intros _ Ht Hpath. rewrite Ht, bool_decide_true in E1 by done. done.
  - destruct Hp as [H1 H2 H3 H4]. left. unfold apply_operand. rewrite H1, H2. cbn [Z.eqb]. change (RAW_FILE =? RAW_FILE) with true.
    rewrite (bool_decide_true (RawFilePath op <> _)) by done. cbn. split; [|done].
    destruct (_ && _) eqn:E; [|done]. apply andb_true_iff in E as [E1 E2]. bool_facts. by destruct (H4 vm Hr E1).
Qed.

(** Replacing the row of [key]. *)
Lemma row_at_put m key v' vm' k vm : proto_Unmarshal v' = Some vm' ->
  row_at (<[MakeMetadataKey key := v']> m) k vm <-> (k = key /\ vm = vm' \/ k <> key /\ row_at m k vm).
Proof.
  intros Eu. unfold row_at. destruct (decide (k = key)) as [->|Hne].
  - rewrite lookup_insert_eq. split; [intros (v & [= <-] & E); left; split; congruence|]. intros [[_ ->]|[]]; [by exists v'|done].
  - rewrite lookup_insert_ne by (by apply not_eq_sym, MakeMetadataKey_ne). naive_solver.
Qed.

Lemma rows_ok_put m key v' vm' :
  rows_ok m -> proto_Unmarshal v' = Some vm' -> vm' <> vm_zero -> OpType vm' = 0 -> rows_ok (<[MakeMetadataKey key := v']> m).
Proof.
  intros H Eu Hz Hop k v vm. destruct (decide (k = key)) as [->|Hne].
  - rewrite lookup_insert_eq. intros [= <-] E. rewrite Eu in E. injection E as <-. done.
  - rewrite lookup_insert_ne by (by apply not_eq_sym, MakeMetadataKey_ne). apply H.
Qed.

(** Nothing but rows and the compaction index changes. *)
Definition same_rest m m' : Prop := forall k v,
  has_prefix DeletionQueuePrefix k = true \/ is_backref k = true -> m' !! k = Some v -> m !! k = Some v.

Definition migrates (o : bytes) (path : bytes) : Prop :=
  exists op, proto_Unmarshal o = Some op /\ ValueType op = SEGMENT /\ RawFilePath op = path.

Definition gone_from m (key path : bytes) : Prop :=
  forall vm, row_at m key vm -> ValueType vm = RAW_FILE -> RawFilePath vm <> path.

Lemma metadata_rest m key v : same_rest m (<[MakeMetadataKey key := v]> m).
Proof.
  intros k v' Hk E. rewrite lookup_insert_ne in E; [done|]. destruct Hk; [by apply metadata_not_queue|by apply metadata_not_backref].
Qed.

Lemma merge_op_inj k o k' o' : BMerge (MakeMetadataKey k) o = BMerge (MakeMetadataKey k') o' -> k = k' /\ o = o'.
Proof. intros E. assert (MakeMetadataKey k = MakeMetadataKey k') as Ek by congruence. apply MakeMetadataKey_inj in Ek. split; congruence. Qed.

Lemma op_step sw F disk m op senv :
  store_ok senv segmentsPath sw F -> rows_ok m -> op_ok sw F disk m op ->
  let m' := apply_op m op in
  op_regular m op /\ shrinks m m' /\ rows_ok m' /\ keeps disk m sw F m' sw F /\ same_rest m m'
  /\ (forall key o path, op = BMerge (MakeMetadataKey key) o -> migrates o path -> gone_from m' key path).
Proof using PL init_ok.
  intros Hs Hrows Hop m'. destruct op as [k v|k|k o]; [done| |].
  { assert (forall key, m' !! MakeMetadataKey key = m !! MakeMetadataKey key) as E.
    { intros key. cbn. apply lookup_delete_ne. intros ->. cbn in Hop. unfold MakeMetadataKey in Hop.
      by rewrite (prefix_excl MetadataPrefix CompactionIndexPrefix) in Hop by (reflexivity || apply has_prefix_app). }
    split_and!; [done|by apply shrinks_rows|by eapply rows_ok_ext|by eapply keeps_grows; [exact Hs|apply grows_refl|]| |done].
    - intros x v _ Hx. cbn in Hx. by apply lookup_delete_Some in Hx as [_ ?]. }
  destruct Hop as (key & op & -> & Eo & Hk & Hcase). destruct (m !! MakeMetadataKey key) as [v|] eqn:Ev; [clear Hk|done].
  assert (OpType op = 0) as Hop0 by (by destruct Hcase as [[]|[]]).
  destruct (proto_Unmarshal v) as [vm|] eqn:Eu.
  2: { destruct (merge_undecoded m key v o Ev Eu) as [E Hreg]; [intros (op' & E1 & E2 & _); rewrite Eo in E1; simplify_eq; by rewrite Hop0 in E2|].
       subst m'. rewrite E. split_and!; [done|apply shrinks_refl|done|eapply keeps_grows; [exact Hs|apply grows_refl|done]|by intros ???|].
       intros key' o' path Eop _ vm (v' & Ev' & Eu') _. apply merge_op_inj in Eop as [-> ->]. congruence. }
  assert (row_at m key vm) as Hr by (by exists v). destruct (Hrows key v vm Ev Eu) as [Hop Hcan].
  assert (exists vm', apply_operand (Some vm) op = Some vm' /\ (vm <> vm_zero -> vm' <> vm_zero) /\ OpType vm' = 0
    /\ (ValueType vm' = RAW_FILE -> vm' = vm) /\ (ValueType op = SEGMENT -> ValueType vm' = RAW_FILE -> RawFilePath vm' <> RawFilePath op)
    /\ forall data, value_at sw F disk key vm data -> value_at sw F disk key vm' data /\ same_meta vm vm')
    as (vm1 & Ha & Hz1 & Hop1 & Hsame1 & Hgone1 & Hval1).
  { destruct (operand_result sw F disk m key vm op Hcase Hr) as [[Ha Hno]|(Hmig & Ha & Hwhy)].
    - exists vm. by split_and!.
    - exists (migrate vm op). destruct Hmig as [H1 H2 H3 H4 (d & Hd & Hlen & Hloc) H6]. cbn. rewrite H2.
      split_and!; try done; [intros _ E; apply (f_equal ValueType) in E; cbn in E; by rewrite H2 in E|]. intros data Hv. destruct Hwhy as [[Ht Hp]|[Ht Hp]].
      + destruct Hv as [[Hi _]|[(_ & Hd' & Hl')|[Hi _]]]; [by rewrite Ht in Hi| |by rewrite Ht in Hi].
        rewrite Hp, Hd in Hd'. injection Hd' as ->. destruct (H6 vm Hr Ht Hp) as (E1 & E2 & E3).
        split; [right; right; cbn; by split_and!|]. unfold same_meta. cbn. by split_and!.
      + exfalso. destruct Hv as [[Hi _]|[[Hi _]|(_ & (l & pre & post & sum & Hmap & _) & _)]]; [by rewrite Ht in Hi..|].
        destruct (so_map _ _ _ _ Hs _ _ Hmap) as (_ & _ & [Hin _]). apply H4. by rewrite <- Hp. }
  destruct (merge_on_row m key v vm o op vm1 Ev Eu Hcan Eo Hop0 Ha Hz1) as (Hz' & v' & Em & Eu' & Hreg). subst m'. rewrite Em.
  set (vm' := if decide (vm = vm_zero) then tombstone 0 else vm1) in *.
  assert (OpType vm' = 0 /\ (ValueType vm' = RAW_FILE -> vm' = vm) /\ (ValueType op = SEGMENT -> ValueType vm' = RAW_FILE -> RawFilePath vm' <> RawFilePath op))
    as (Hop' & Hsame & Hgone) by (unfold vm'; by destruct (decide _)).
  split_and!; [done| | | |apply metadata_rest|].
  - split.
    + intros k x. rewrite (row_at_put m key v' vm') by done. intros [[-> ->]|[_ ?]] Ht; [|done]. by rewrite (Hsame Ht).
    + intros k Hk. destruct (decide (k = key)) as [->|]; [by rewrite lookup_insert_eq|].
      rewrite lookup_insert_ne; [done|]. by apply not_eq_sym, MakeMetadataKey_ne.
  - by eapply rows_ok_put.
  - intros k x data Hx Hzx Hv. destruct (decide (k = key)) as [->|Hne].
    + rewrite (row_at_fun _ _ _ _ Hx Hr) in *. exists vm'. assert (vm' = vm1) as E by (unfold vm'; by destruct (decide _)).
      rewrite E in *. destruct (Hval1 data Hv). split_and!; try done. apply (row_at_put m key v' vm1); auto.
    + exists x. split_and!; try done. apply (row_at_put m key v' vm'); auto.
  - intros key' o' path Eop (op' & E1 & E2 & <-) x Hx Ht. apply merge_op_inj in Eop as [<- <-]. rewrite Eo in E1. injection E1 as <-.
    apply (row_at_put m key v' vm') in Hx as [[_ ->]|[]]; [|done|done]. by apply Hgone.
Qed.

Lemma gone_later m m' key path : shrinks m m' -> gone_from m key path -> gone_from m' key path.
Proof. intros [Hraw _] Hg vm Hr Ht. apply Hg; [|done]. by apply Hraw. Qed.

(** What committing a batch of staged operations does. *)
Record committed (sw : SegWorld) F (disk : gmap bytes bytes) m (ops : list batch_op) m' : Prop := {
  cm_shrinks : shrinks m m';
  cm_rows : rows_ok m';
  cm_keeps : keeps disk m sw F m' sw F;
  cm_rest : same_rest m m';
  cm_gone key o path : BMerge (MakeMetadataKey key) o ∈ ops -> migrates o path -> gone_from m' key path
}.

Lemma batch_step sw F disk ops m senv :
  store_ok senv segmentsPath sw F -> rows_ok m -> Forall (op_ok sw F disk m) ops ->
  batch_regular m ops /\ committed sw F disk m ops (apply_batch m ops).
Proof using PL init_ok.
  intros Hs. revert m. induction ops as [|op ops IH]; intros m Hrows Hops.
  { split; [done|]. split; [apply shrinks_refl|done|eapply keeps_grows; [exact Hs|apply grows_refl|done]|by intros ???|intros key o path Hin; set_solver]. }
  apply Forall_cons_1 in Hops as [Hop Hops].
  destruct (op_step sw F disk m op senv Hs Hrows Hop) as (Hreg & Hsh & Hrows1 & Hk & Hrest & Hgone).
  destruct (IH (apply_op m op) Hrows1) as [Hreg2 [C1 C2 C3 C4 C5]].
  { eapply Forall_impl; [exact Hops|]. intros x Hx. eapply op_ok_later; [exact Hs|apply grows_refl|exact Hsh|done]. }
  change (apply_batch m (op :: ops)) with (apply_batch (apply_op m op) ops). split; [done|]. split; try done.
  - by eapply shrinks_trans.
  - by eapply keeps_trans.
  - intros k v Hk' Hv. apply Hrest; [done|]. by apply C4.
  - intros key o path [Ho|Ho]%elem_of_cons Hm; [|by eapply C5]. eapply gone_later; [exact C1|]. by eapply Hgone.
Qed.

(** A batch with a merge on a row of no bytes makes a tombstone of it, whatever else is in
    the batch. *)
Lemma empty_row_purged sw F disk ops m senv key :
  store_ok senv segmentsPath sw F -> rows_ok m -> Forall (op_ok sw F disk m) ops ->
  m !! MakeMetadataKey key = Some EmptyString -> (exists o, BMerge (MakeMetadataKey key) o ∈ ops) ->
  exists vm, row_at (apply_batch m ops) key vm /\ Expiry vm = tombstoneExpiry.
Proof using PL init_ok.
  intros Hs. revert m. induction ops as [|op ops IH]; intros m Hrows Hops He [o Ho]; [by apply elem_of_nil in Ho|].
  apply Forall_cons_1 in Hops as [Hop Hops]. destruct (op_step sw F disk m op senv Hs Hrows Hop) as (_ & Hsh & Hrows1 & _).
  assert (Forall (op_ok sw F disk (apply_op m op)) ops) as Hops1.
  { eapply Forall_impl; [exact Hops|]. intros x Hx. eapply op_ok_later; [exact Hs|apply grows_refl|exact Hsh|done]. }
  change (apply_batch m (op :: ops)) with (apply_batch (apply_op m op) ops).
  destruct (decide (apply_op m op !! MakeMetadataKey key = Some EmptyString)) as [E|E].
  - apply (IH _ Hrows1 Hops1 E). apply elem_of_cons in Ho as [<-|Ho]; [|by exists o]. exfalso.
    destruct Hop as (k & x & Ek & Eo & _ & Hcase). apply MakeMetadataKey_inj in Ek as <-.
    destruct (merge_empty m key o x He Eo) as [Em _]; [by destruct Hcase as [[]|[]]|]. rewrite Em, lookup_insert_eq in E. discriminate E.
  - destruct op as [k v|k|k x]; [done|exfalso; apply E; cbn in *|].
    { rewrite lookup_delete_ne; [done|]. intros ->. unfold MakeMetadataKey in Hop.
      by rewrite (prefix_excl MetadataPrefix CompactionIndexPrefix) in Hop by (reflexivity || apply has_prefix_app). }
    destruct Hop as (k' & y & -> & Ey & _ & Hcase). destruct (decide (k' = key)) as [->|Hne].
    2: { exfalso. apply E. cbn. destruct (FullMerge _ _ _); [|done]. rewrite lookup_insert_ne; [done|]. by apply MakeMetadataKey_ne. }
    destruct (merge_empty m key x y He Ey) as [Em _]; [by destruct Hcase as [[]|[]]|]. rewrite Em in *.
    assert (row_at (<[MakeMetadataKey key := expiredSentinel]> m) key (tombstone 0)) as Hr.
    { exists expiredSentinel. split; [apply lookup_insert_eq|by apply unmarshal_sentinel]. }
    destruct (batch_step sw F disk ops _ senv Hs Hrows1 Hops1) as [_ [_ _ Hk _ _]].
    destruct (Hk key (tombstone 0) EmptyString Hr) as (vm & Hr' & _ & _ & Hm & _); [done|by left|]. by exists vm.
Qed.

End Rows.
