(* ===== verification/CompactionProps.v ===== *)
(** * Compaction loses nothing

    A whole run of [CompactFiles], with any failure of the store, of the file reads and
    of the segment writes and with a cancellation at any point, keeps the value and the
    metadata of every key, and queues for deletion only files that no row names. *)

From S2P Require Import Prelude Keys Errors Message Merge Wire Rocks World Files RangeReader Storage Wp Safety StorageSpec StorageProps Cas CasSpec SegmentFormat Segments SegmentProps SegmentStoreProps SegmentInv Compaction CompactionInv.

Open Scope Z_scope.

#[local] Arguments crc32 : simpl never.
#[local] Arguments has_prefix : simpl never.
#[local] Arguments apply_batch : simpl never.
#[local] Arguments MakeMetadataKey : simpl never.

Lemma filepath_Join_ne dir name : filepath_Join dir name <> EmptyString.
Proof. unfold filepath_Join. by destruct dir. Qed.

Section Run.

Context {DB : Type} {PB : Protobuf} {PL : ProtobufLaws} {RDB : RocksDB DB} {RL : RocksLaws DB}.
Context (init_ok : proto_Marshal (tombstone 0) = Some expiredSentinel).
Context (env senv : Env) (cfg : Config) (sf : SegFaults) (segmentsPath : bytes) (segmentSize : Z).
Context (cancelled : nat -> bool) (limited : bool) (partial : nat -> nat).
Implicit Types w : World DB SegWorld.
Implicit Types m : gmap bytes bytes.
Implicit Types F : nat -> bytes.

(** ** The state of the engine during a run *)

Record base w m F : Prop := {
  b_db : represents (w_db w) m;
  b_safe : ref_safe env cfg m (w_disk w) (w_tick w);
  b_store : store_ok senv segmentsPath (w_sm w) F;
  b_rows : rows_ok m;
  b_sep key path len : raw_at m key path len -> path <> EmptyString /\ ~ in_dir segmentsPath path
}.

(** What one step after the other leaves behind. *)
Record adv w m F w' m' F' : Prop := {
  a_disk : w_disk w' = w_disk w;
  a_tick : (w_tick w <= w_tick w')%nat;
  a_grows : grows (w_sm w) F (w_sm w') F';
  a_shrinks : shrinks m m';
  a_keeps : keeps (w_disk w) m (w_sm w) F m' (w_sm w') F'
}.

Lemma adv_refl w m F : base w m F -> adv w m F w m F.
Proof.
  intros []. split; [done|done|apply grows_refl|apply shrinks_refl|]. eapply keeps_grows; [exact b_store0|apply grows_refl|done].
Qed.

Lemma adv_trans w1 m1 F1 w2 m2 F2 w3 m3 F3 : adv w1 m1 F1 w2 m2 F2 -> adv w2 m2 F2 w3 m3 F3 -> adv w1 m1 F1 w3 m3 F3.
Proof.
  intros [D1 T1 G1 S1 K1] [D2 T2 G2 S2 K2]. split; [congruence|lia|by eapply grows_trans|by eapply shrinks_trans|].
  rewrite D1 in K2. by eapply keeps_trans.
Qed.

(** The store changes in other rows only. *)
Lemma base_frame w w' m m' F :
  base w m F -> frame w w' -> represents (w_db w') m' -> (forall key, m' !! MakeMetadataKey key = m !! MakeMetadataKey key) ->
  ref_safe env cfg m' (w_disk w) (w_tick w') -> base w' m' F /\ adv w m F w' m' F.
Proof.
  intros [] Hf Hm' E Hs. pose proof (fr_sm _ _ Hf) as Esm. pose proof (fr_disk _ _ Hf) as Ed. split; split; rewrite ?Esm, ?Ed; try done.
  - by eapply rows_ok_ext.
  - intros key path len Hr. apply (b_sep0 key path len). by apply (raw_at_ext m m' key).
  - apply Hf.
  - apply grows_refl.
  - by apply shrinks_rows.
  - eapply keeps_grows; [exact b_store0|apply grows_refl|done].
Qed.

Lemma base_quiet w w' m F : base w m F -> frame w w' -> represents (w_db w') m -> base w' m F /\ adv w m F w' m F.
Proof.
  intros Hb Hf Hm. apply (base_frame w w' m m F Hb Hf Hm); [done|]. eapply ref_safe_tick; [apply Hf|apply Hb].
Qed.

Lemma base_tick w m F : base w m F -> base (tick w) m F /\ adv w m F (tick w) m F.
Proof. intros Hb. apply base_quiet; [done|apply frame_tick|apply Hb]. Qed.

(** The segment store changes. *)
Lemma wp_sm {A} (c : ST SegWorld A) (Q : A -> World DB SegWorld -> Prop) w m F :
  base w m F -> wp c (fun a sm => exists F', store_ok senv segmentsPath sm F' /\ grows (w_sm w) F sm F'
    /\ (base (set_sm sm w) m F' -> adv w m F (set_sm sm w) m F' -> Q a (set_sm sm w))) (w_sm w) -> wp (on_sm c) Q w.
Proof.
  intros [] Hc. apply wp_fun. unfold on_sm. unfold wp in Hc. destruct (c (w_sm w)) as [a sm]. cbn in *.
  destruct Hc as (F' & Hs & Hg & HQ). apply HQ; split; try done. cbn. by eapply keeps_grows.
Qed.

(** ** The batch and the pending deletions *)

Definition wb_ok w m F (wb : list batch_op) : Prop := Forall (op_ok segmentsPath (w_sm w) F (w_disk w) m) wb.

Lemma wb_ok_adv w m F w' m' F' wb : base w m F -> adv w m F w' m' F' -> wb_ok w m F wb -> wb_ok w' m' F' wb.
Proof.
  intros Hb [D T G S K] Hwb. unfold wb_ok. rewrite D. eapply Forall_impl; [exact Hwb|]. intros op Hop.
  eapply op_ok_later; [apply Hb|exact G|exact S|done].
Qed.

Definition not_future (t : nat) (path : bytes) : Prop := forall n, (t <= n)%nat -> path <> path_of env cfg n.

(** A source that no row will name once the batch is committed. *)
Definition pend_ok m (t : nat) (wb : list batch_op) (path : bytes) : Prop :=
  not_future t path /\ forall key, gone_from m key path \/ exists o, BMerge (MakeMetadataKey key) o ∈ wb /\ migrates o path.

Lemma pend_ok_adv w m F w' m' F' wb wb' p :
  adv w m F w' m' F' -> (forall op, op ∈ wb -> op ∈ wb') -> pend_ok m (w_tick w) wb p -> pend_ok m' (w_tick w') wb' p.
Proof.
  intros [D T G S K] Hsub [Hf Hg]. split; [intros n Hn; apply Hf; lia|]. intros key. destruct (Hg key) as [H|(o & Ho & Hm)].
  - left. by eapply gone_later.
  - right. exists o. auto.
Qed.

Record run_ok w m F (r : comp_run) : Prop := {
  ro_wb : wb_ok w m F (cr_wb r);
  ro_pend : Forall (pend_ok m (w_tick w) (cr_wb r)) (cr_pending r);
  ro_seg : (cr_seg r < sw_next (w_sm w))%nat
}.

Lemma run_ok_adv w m F w' m' F' r : base w m F -> adv w m F w' m' F' -> run_ok w m F r -> run_ok w' m' F' r.
Proof.
  intros Hb Ha []. split; [by eapply wb_ok_adv| |].
  - eapply Forall_impl; [exact ro_pend0|]. intros p Hp. by eapply pend_ok_adv.
  - pose proof (g_next _ _ _ _ (a_grows _ _ _ _ _ _ Ha)). lia.
Qed.

(** ** The parts of a run *)

Context (Henv : env_ok env cfg) (Hseg : seg_env_ok senv sf segmentsPath).

Lemma wp_Queue_Add m path (Q : option error -> World DB SegWorld -> Prop) w :
  represents (w_db w) m ->
  (forall r q w', represents (w_db w') (apply_batch m q) -> frame w w' -> enqueued path q -> Q r w') ->
  wp (Queue_Add env path) Q w.
Proof using Henv.
  intros Hm HQ. unfold Queue_Add. case_decide as Hp.
  - apply wp_ret. apply (HQ _ []); [done|reflexivity|by left].
  - apply wp_bind, wp_time_Now. eapply wp_Write; [exact Hm|by apply plain_regular; repeat constructor|..].
    + intros e db Hdb. apply (HQ _ []); [done| |by left]. split; cbn; try done. lia.
    + intros db Hdb. apply (HQ _ [BPut (MakeDeletionQueueKey (env_now env (w_tick w)) path) queue_mark]); [done| |].
      * split; cbn; try done. lia.
      * right. split; [done|]. eexists. by split; [apply (clock_i64 _ _ Henv)|].
Qed.

(** Queueing a file that no row names. *)
Lemma wp_queue_file m F path (Q : option error -> World DB SegWorld -> Prop) w :
  base w m F -> unreferenced m path -> not_future (w_tick w) path ->
  (forall r w' m', base w' m' F -> adv w m F w' m' F -> (forall key, m' !! MakeMetadataKey key = m !! MakeMetadataKey key) -> Q r w') ->
  wp (Queue_Add env path) Q w.
Proof using Henv.
  intros Hb Hu Hf HQ. eapply wp_Queue_Add; [apply Hb|]. intros r q w' Hdb Hfr Hq.
  assert (forall key, apply_batch m q !! MakeMetadataKey key = m !! MakeMetadataKey key) as Erow.
  { intros key. destruct Hq as [->|(_ & ts & _ & ->)]; [done|]. apply lookup_insert_ne, not_eq_sym, metadata_not_queue, queue_key_prefix. }
  destruct (base_frame w w' m (apply_batch m q) F Hb Hfr Hdb Erow) as [H1 H2].
  - eapply ref_safe_tick; [apply Hfr|]. by eapply ref_safe_enqueued; [exact Hq|apply Hb|..].
  - by apply (HQ r w' (apply_batch m q)).
Qed.

Lemma wp_queue_sources m F pending (Q : () -> World DB SegWorld -> Prop) w :
  base w m F -> Forall (fun p => unreferenced m p /\ not_future (w_tick w) p) pending ->
  (forall w' m', base w' m' F -> adv w m F w' m' F -> Q () w') -> wp (queueCompactedSources env pending) Q w.
Proof using Henv.
  revert w m. induction pending as [|p pending IH]; intros w m Hb Hp HQ; cbn [queueCompactedSources].
  { apply wp_ret, (HQ w m); [done|by apply adv_refl]. }
  apply Forall_cons_1 in Hp as [[Hu Hf] Hp]. apply wp_bind. eapply wp_queue_file; [exact Hb|done|done|].
  intros r w1 m1 Hb1 Ha1 _. eapply IH; [exact Hb1| |].
  - eapply Forall_impl; [exact Hp|]. intros x [Hux Hfx]. destruct Ha1 as [_ T _ S _]. split; [|intros n Hn; apply Hfx; lia].
    intros key len Hr. eapply Hux, shrinks_raw; eauto.
  - intros w2 m2 Hb2 Ha2. apply (HQ w2 m2); [done|]. by eapply adv_trans.
Qed.

Lemma wp_ctx (Q : option error -> World DB SegWorld -> Prop) w m F :
  base w m F -> (forall r w', base w' m F -> adv w m F w' m F -> (forall e, r = Some e -> e = ESentinel ContextCanceled) -> Q r w') ->
  wp (ctx_Err cancelled) Q w.
Proof.
  intros Hb HQ. apply wp_fun. cbn [fst snd ctx_Err]. destruct (base_tick w m F Hb) as [H1 H2]. apply HQ; [done|done|].
  destruct (cancelled _); by intros e [= <-].
Qed.

Lemma unreferenced_gone m path : (forall key, gone_from m key path) -> unreferenced m path.
Proof. intros Hg key len (vm & Hr & Ht & Hp & _). by apply (Hg key vm). Qed.

(** A commit: all of the batch or nothing; after it the pending sources are free. *)
Lemma wp_commit l wb (Q : option error -> World DB SegWorld -> Prop) w m F :
  base w m F -> wb_ok w m F wb -> (l < sw_next (w_sm w))%nat ->
  (forall e w' F', base w' m F' -> adv w m F w' m F' -> Q (Some e) w') ->
  (forall w' m' F', base w' m' F' -> adv w m F w' m' F' ->
     (forall p, pend_ok m (w_tick w) wb p -> unreferenced m' p /\ not_future (w_tick w') p) -> Q None w') ->
  wp (Compactor_commit senv cancelled l wb) Q w.
Proof using Henv Hseg PL init_ok.
  intros Hb Hwb Hl H1 H2. unfold Compactor_commit. destruct (decide (wb = [])) as [->|_].
  { apply wp_ret, (H2 w m F); [done|by apply adv_refl|]. intros p [Hf Hg]. split; [|done]. apply unreferenced_gone. intros key.
    destruct (Hg key) as [|(o & Ho & _)]; [done|set_solver]. }
  apply wp_bind, (wp_ctx _ w m F); [done|]. intros [e|] w1 Hb1 Ha1 _; [by apply wp_ret, (H1 _ _ F)|].
  apply wp_bind, (wp_sm _ _ w1 m F Hb1). eapply store_still; [apply Hb1| |apply wp_Sync|].
  { pose proof (g_next _ _ _ _ (a_grows _ _ _ _ _ _ Ha1)). lia. }
  intros r sm F' _ Hs' Hg'. exists F'. split_and!; [done..|]. intros Hb2 Ha2. pose proof (adv_trans _ _ _ _ _ _ _ _ _ Ha1 Ha2) as Ha.
  destruct r as [e|]; [by apply wp_ret, (H1 _ _ F')|]. set (w2 := set_sm sm w1) in *.
  assert (wb_ok w2 m F' wb) as Hwb2 by exact (wb_ok_adv w m F w2 m F' wb Hb Ha Hwb).
  destruct (batch_step init_ok segmentsPath (w_sm w2) F' (w_disk w2) wb m senv (b_store _ _ _ Hb2) (b_rows _ _ _ Hb2) Hwb2) as [Hreg [C1 C2 C3 C4 C5]].
  eapply wp_Write; [apply Hb2|done|..].
  - intros e db Hdb. destruct (base_quiet w2 (set_db db w2) m F' Hb2 (frame_set_db _ _) Hdb) as [Hb3 Ha3].
    apply (H1 e _ F'); [done|]. by eapply adv_trans.
  - intros db Hdb. assert (base (set_db db w2) (apply_batch m wb) F') as Hb3.
    { destruct Hb2. split; try done.
      - by eapply ref_safe_shrinks.
      - intros key path len Hr. eapply (b_sep0 key path len), shrinks_raw; eauto. }
    apply (H2 _ (apply_batch m wb) F'); [done| |].
    + eapply adv_trans; [exact Ha|]. split; try done. apply grows_refl.
    + intros p [Hf Hg]. split; [|intros n Hn; apply Hf; pose proof (a_tick _ _ _ _ _ _ Ha); change (w_tick (set_db db w2)) with (w_tick w2) in Hn; lia].
      apply unreferenced_gone. intros key. destruct (Hg key) as [Hg1|(o & Ho & Hm)]; [by eapply gone_later|by eapply C5].
Qed.

(** Room for the next entry: possibly a commit and another segment. *)
Lemma wp_ensureCapacity caller needed r (Q : option error * comp_run -> World DB SegWorld -> Prop) w m F :
  base w m F -> run_ok w m F r ->
  (forall e r' w' m' F', base w' m' F' -> adv w m F w' m' F' -> run_ok w' m' F' r' -> Q (e, r') w') ->
  wp (ensureCapacity env senv sf segmentsPath segmentSize cancelled caller needed r) Q w.
Proof using Henv Hseg PL init_ok.
  intros Hb Hr HQ. unfold ensureCapacity. apply wp_bind, wp_fun. cbn [fst snd the_segment].
  destruct (needed <=? _); [apply wp_ret, (HQ _ _ w m F); [done|by apply adv_refl|done]|].
  apply wp_bind, (wp_ctx _ w m F); [done|]. intros [e|] w1 Hb1 Ha1 _; [apply wp_ret, (HQ _ _ w1 m F); [done|done|exact (run_ok_adv _ _ _ _ _ _ _ Hb Ha1 Hr)]|].
  pose proof (run_ok_adv _ _ _ _ _ _ _ Hb Ha1 Hr) as Hr1. apply wp_bind, (wp_commit _ _ _ w1 m F); [done|apply Hr1|apply Hr1| |].
  { intros e w2 F2 Hb2 Ha2. apply wp_ret, (HQ _ _ w2 m F2); [done|by eapply adv_trans|exact (run_ok_adv _ _ _ _ _ _ _ Hb1 Ha2 Hr1)]. }
  intros w2 m2 F2 Hb2 Ha2 Hfree. pose proof (adv_trans _ _ _ _ _ _ _ _ _ Ha1 Ha2) as A2.
  apply wp_bind, (wp_queue_sources m2 F2 _ _ w2); [done| |].
  { eapply Forall_impl; [apply Hr1|]. intros p Hp. by apply Hfree. }
  intros w3 m3 Hb3 Ha3. pose proof (adv_trans _ _ _ _ _ _ _ _ _ A2 Ha3) as A3. cbn [cr_seg run_pending run_wb].
  set (r3 := run_pending [] (run_wb [] r)).
  assert (forall w' m' F' l, adv w m F w' m' F' -> (l < sw_next (w_sm w'))%nat -> run_ok w' m' F' (run_seg l r3)) as Hr3.
  { intros w' m' F' l A Hl. split; [by apply Forall_nil_2|by apply Forall_nil_2|done]. }
  assert (forall w' m' F', adv w m F w' m' F' -> (cr_seg r < sw_next (w_sm w'))%nat) as Hl.
  { intros w' m' F' A. pose proof (g_next _ _ _ _ (a_grows _ _ _ _ _ _ A)). pose proof (ro_seg _ _ _ _ Hr). lia. }
  apply wp_bind, (wp_sm _ _ w3 m3 F2 Hb3). eapply (wp_store_Finalize _ _ _ Hseg); [apply Hb3|by eapply Hl|].
  intros e sm F4 Hs4 Hg4. exists F4. split_and!; [done..|]. intros Hb4 Ha4. pose proof (adv_trans _ _ _ _ _ _ _ _ _ A3 Ha4) as A4.
  destruct e as [e|]; [apply wp_ret, (HQ _ _ _ m3 F4); [done|done|by apply (Hr3 _ _ _ (cr_seg r)); [|eapply Hl]]|].
  apply wp_bind, (wp_sm _ _ _ m3 F4 Hb4). eapply wp_store_release; [apply Hb4|]. intros sm5 Hs5 Hg5. exists F4. split_and!; [done..|].
  intros Hb5 Ha5. pose proof (adv_trans _ _ _ _ _ _ _ _ _ A4 Ha5) as A5.
  apply wp_bind, (wp_sm _ _ _ m3 F4 Hb5). eapply (wp_store_Acquire _ _ _ _ Hseg); [apply Hb5|..].
  - intros e sm6 F6 Hs6 Hg6. exists F6. split_and!; [done..|]. intros Hb6 Ha6. pose proof (adv_trans _ _ _ _ _ _ _ _ _ A5 Ha6) as A6.
    apply wp_ret, (HQ _ _ _ m3 F6); [done|done|]. by apply (Hr3 _ _ _ (cr_seg r)); [|eapply Hl].
  - intros l sm6 F6 Hs6 Hg6 Hl6. exists F6. split_and!; [done..|]. intros Hb6 Ha6. pose proof (adv_trans _ _ _ _ _ _ _ _ _ A5 Ha6) as A6.
    apply wp_ret, (HQ _ _ _ m3 F6); [done|done|]. by apply Hr3.
Qed.

(** ** One entry *)

(** An entry whose file is there and belongs to its row, which may have been migrated
    in the meantime. *)
Record entry_known w m (e : compactionEntry) (content : bytes) : Prop := {
  ek_disk : w_disk w !! ce_filePath e = Some content;
  ek_size : ce_size e = slen content;
  ek_len : ValueLength (ce_metadata e) = slen content;
  ek_path : RawFilePath (ce_metadata e) = ce_filePath e;
  ek_op : OpType (ce_metadata e) = 0;
  ek_ok : vm_ok (ce_metadata e);
  ek_ne : ce_filePath e <> EmptyString;
  ek_dir : ~ in_dir segmentsPath (ce_filePath e);
  ek_here : m !! MakeMetadataKey (ce_userKey e) <> None;
  ek_row vm : row_at m (ce_userKey e) vm -> ValueType vm = RAW_FILE -> RawFilePath vm = ce_filePath e -> vm = ce_metadata e;
  ek_only key len : raw_at m key (ce_filePath e) len -> key = ce_userKey e;
  ek_future : not_future (w_tick w) (ce_filePath e)
}.

Lemma entry_known_adv w m F w' m' F' e content : adv w m F w' m' F' -> entry_known w m e content -> entry_known w' m' e content.
Proof.
  intros [D T G [S1 S2] K] []. split; try done; [congruence|by apply S2| | |intros n Hn; apply ek_future0; lia].
  - intros vm Hr Ht. apply ek_row0; [|done]. by apply S1.
  - intros key len Hr. eapply (ek_only0 key len), shrinks_raw; [|exact Hr]. by split.
Qed.

(** What reading an open file yields. *)
Lemma wp_file_reader path content len (Q : Body -> World DB SegWorld -> Prop) w m F :
  base w m F -> (forall b w', base w' m F -> adv w m F w' m F ->
    (b_err b = None -> slen (b_data b) = slen content -> b_data b = content) -> Q b w') ->
  wp (file_reader env cancelled limited partial path content len) Q w.
Proof.
  intros Hb HQ. unfold file_reader. apply wp_bind, wp_syscall_any. intros f. destruct (base_tick w m F Hb) as [Hb1 Ha1].
  apply wp_fun. cbn [fst snd read_outcome]. destruct (base_tick _ m F Hb1) as [Hb2 Ha2]. apply HQ; [done|by eapply adv_trans|].
  destruct f; [done|]. destruct (limited && _); [done|]. cbn. intros _. destruct limited; [|done]. intros Hl.
  rewrite <- (stake_sdrop (Z.to_nat len) content) at 2. assert (sdrop (Z.to_nat len) content = EmptyString) as ->; [|by rewrite sapp_nil_r].
  apply sdrop_all. unfold slen in Hl. rewrite slength_stake in Hl. lia.
Qed.

(** The operand that migrates a row to the copy of its file. *)
Lemma staged_migration w m F e content path off :
  base w m F -> entry_known w m e content -> located (w_sm w) F path off (ce_userKey e) content ->
  let vm' := with_segment path off (ce_metadata e) in
  exists o, proto_Marshal vm' = Some o /\ migrates o (ce_filePath e)
    /\ op_ok segmentsPath (w_sm w) F (w_disk w) m (BMerge (MakeMetadataKey (ce_userKey e)) o).
Proof using PL.
  intros Hb [] Hloc vm'. pose proof Hloc as (l & pre & post & sum & Hmap & Hf & Hoff).
  destruct (so_map _ _ _ _ (b_store _ _ _ Hb) _ _ Hmap) as ((_ & _ & _ & Hsm) & _ & [_ Hutf]).
  assert (is_i64 off) as Hi.
  { rewrite Hf, !slen_app in Hsm. pose proof (slen_nonneg pre). pose proof (slen_nonneg (encode (MkE (ce_userKey e) content sum))).
    pose proof (slen_nonneg post). unfold is_i64, two63 in *. lia. }
  assert (vm_ok vm') as Hok by (destruct ek_ok0; by split).
  destruct (marshal_total vm' Hok) as [o Eo]. pose proof (marshal_unmarshal _ _ Hok Eo) as Eu. exists o. split_and!; [done| |].
  - exists vm'. by split_and!.
  - exists (ce_userKey e), vm'. split_and!; try done. left. split; cbn; try done.
    + by rewrite ek_path0.
    + by rewrite ek_path0.
    + exists content. rewrite ek_path0. by split_and!.
    + intros vm Hr Ht Hp. rewrite ek_path0 in Hp. by rewrite (ek_row0 vm Hr Ht Hp).
Qed.

Lemma wp_compactEntry caller e content r (Q : option comp_error * comp_run -> World DB SegWorld -> Prop) w m F :
  base w m F -> run_ok w m F r -> entry_known w m e content ->
  (forall err r' w' m' F', base w' m' F' -> adv w m F w' m' F' -> run_ok w' m' F' r' -> Q (Some (CError err), r') w') ->
  (forall r' w' m' F', base w' m' F' -> adv w m F w' m' F' -> run_ok w' m' F' r' ->
     (exists o, BMerge (MakeMetadataKey (ce_userKey e)) o ∈ cr_wb r' /\ migrates o (ce_filePath e)) -> Q (None, r') w') ->
  wp (compactEntry env senv sf segmentsPath segmentSize cancelled limited partial e caller r) Q w.
Proof using Henv Hseg PL init_ok.
  intros Hb Hr He H1 H2. unfold compactEntry. rewrite (ek_size _ _ _ _ He), (ek_len _ _ _ _ He), Z.eqb_refl. cbn [negb].
  apply wp_bind, (wp_ensureCapacity _ _ _ _ w m F); [done|done|]. intros err r1 w1 m1 F1 Hb1 A1 Hr1.
  destruct err as [err|]; [by apply wp_ret, (H1 _ _ _ m1 F1)|]. pose proof (entry_known_adv _ _ _ _ _ _ _ _ A1 He) as He1.
  apply wp_bind. unfold os_Open. apply wp_bind, wp_syscall_any. intros f. destruct (base_tick w1 m1 F1 Hb1) as [Hb2 Ha2].
  pose proof (adv_trans _ _ _ _ _ _ _ _ _ A1 Ha2) as A2. pose proof (run_ok_adv _ _ _ _ _ _ _ Hb1 Ha2 Hr1) as Hr2.
  destruct f as [err|]; [by apply wp_ret, wp_ret, (H1 _ _ _ m1 F1)|]. apply wp_fun. cbn [fst snd].
  pose proof (entry_known_adv _ _ _ _ _ _ _ _ A2 He) as He2. rewrite (ek_disk _ _ _ _ He2). cbn [ce_filePath].
  apply wp_bind. unfold copyFileIntoSegment. apply wp_bind, (wp_ctx _ _ m1 F1); [done|]. intros c w3 Hb3 Ha3 _.
  pose proof (adv_trans _ _ _ _ _ _ _ _ _ A2 Ha3) as A3. pose proof (run_ok_adv _ _ _ _ _ _ _ Hb2 Ha3 Hr2) as Hr3.
  destruct c as [err|]; [by apply wp_ret, wp_ret, (H1 _ _ _ m1 F1)|]. apply wp_bind, (wp_file_reader _ _ _ _ _ m1 F1); [done|].
  intros b w4 Hb4 Ha4 Hread. pose proof (adv_trans _ _ _ _ _ _ _ _ _ A3 Ha4) as A4. pose proof (run_ok_adv _ _ _ _ _ _ _ Hb3 Ha4 Hr3) as Hr4.
  apply wp_bind, (wp_sm _ _ w4 m1 F1 Hb4). eapply (wp_store_Write _ _ _ Hseg); [apply Hb4|apply Hr4|..].
  - intros err sm F5 Hs5 Hg5. exists F5. split_and!; [done..|]. intros Hb5 Ha5. apply wp_bind, wp_fun, wp_ret, wp_ret.
    apply (H1 _ _ _ m1 F5); [done|by eapply adv_trans|exact (run_ok_adv _ _ _ _ _ _ _ Hb4 Ha5 Hr4)].
  - intros off sm F5 Hs5 Hg5 Hlen Hnoerr Hloc. exists F5. split_and!; [done..|]. intros Hb5 Ha5.
    pose proof (adv_trans _ _ _ _ _ _ _ _ _ A4 Ha5) as A5. pose proof (run_ok_adv _ _ _ _ _ _ _ Hb4 Ha5 Hr4) as Hr5.
    pose proof (entry_known_adv _ _ _ _ _ _ _ _ A5 He) as He5. rewrite (ek_len _ _ _ _ He) in Hlen. rewrite (Hread Hnoerr Hlen) in Hloc.
    apply wp_bind, wp_fun, wp_ret. cbn [fst snd the_segment]. apply wp_ret. change (w_sm (set_sm sm w4)) with sm.
    destruct (staged_migration _ _ _ _ _ _ _ Hb5 He5 Hloc) as (o & Eo & Hm & Hop). rewrite Eo. cbn [default].
    apply (H2 _ _ m1 F5); [done|done| |].
    + destruct Hr5. split; cbn; [by apply Forall_app; split; [|repeat constructor]| |done].
      eapply Forall_impl; [exact ro_pend0|]. intros p Hp. eapply pend_ok_adv; [by apply adv_refl| |exact Hp]. set_solver.
    + exists o. split; [|done]. cbn. set_solver.
Qed.

(** ** The rows of the index *)

(** What an index row [userKey -> filePath] promises: only that key's row can name the
    file, and the file is not one that is still to be made. *)
Record row_fact w m (userKey filePath : bytes) : Prop := {
  rf_only key len : raw_at m key filePath len -> key = userKey;
  rf_future : not_future (w_tick w) filePath;
  rf_utf8 : utf8_valid filePath = true
}.

Lemma row_fact_adv w m F w' m' F' userKey filePath :
  adv w m F w' m' F' -> row_fact w m userKey filePath -> row_fact w' m' userKey filePath.
Proof.
  intros [D T G S K] []. split; [|intros n Hn; apply rf_future0; lia|done].
  intros key len Hr. eapply (rf_only0 key len), shrinks_raw; eauto.
Qed.

(** Failures of a system call are not the absence of the file, and the errors of the
    store are not those of this package. *)
Context (Hnoent : forall n, env_fault env n <> Some ENOENT).
Context (Hplain : forall k (db : DB) e db' s, db_Get k db = (inl e, db') -> errors_Is e s = false).

(** Reading a row during a run. *)
Lemma wp_row_Get k (Q : error + option bytes -> World DB SegWorld -> Prop) w m F :
  base w m F ->
  (forall e w', base w' m F -> adv w m F w' m F -> (forall s, errors_Is e s = false) -> Q (inl e) w') ->
  (forall w', base w' m F -> adv w m F w' m F -> Q (inr (m !! k)) w') -> wp (Get_ k) Q w.
Proof using Hplain.
  intros Hb H1 H2. apply wp_fun. unfold Get_, on_db. destruct (db_Get k (w_db w)) as [r db] eqn:E.
  destruct (rdb_get _ _ _ _ _ (b_db _ _ _ Hb) E) as [Hm' Hv]. cbn [fst snd].
  destruct (base_quiet w (set_db db w) m F Hb (frame_set_db _ _) Hm') as [Hb' Ha]. destruct r as [e|v].
  - apply H1; [done..|]. intros s. by eapply Hplain.
  - rewrite (Hv v eq_refl). by apply H2.
Qed.

(** Why an entry is given up: nothing refers to its file any more, or the file is gone. *)
Record given_up w m (filePath : bytes) (e : error) : Prop := {
  gu_free : errors_Is e ErrMetadataNotFound || errors_Is e ErrNotRawFile || errors_Is e ErrFilePathMismatch = true -> unreferenced m filePath;
  gu_lost : errors_Is e ErrFileNotExist = true -> w_disk w !! filePath = None
}.

Lemma only_row_gone w m userKey filePath :
  row_fact w m userKey filePath -> gone_from m userKey filePath -> unreferenced m filePath.
Proof.
  intros [] Hg. apply unreferenced_gone. intros key vm Hr Ht Hp. assert (key = userKey) as ->.
  { apply (rf_only0 key (ValueLength vm)). by exists vm. } by apply (Hg vm).
Qed.

Lemma ValidateFileEntry_spec vm filePath :
  match ValidateFileEntry vm filePath with
  | None => ValueType vm = RAW_FILE /\ RawFilePath vm = filePath
  | Some e => (ValueType vm = RAW_FILE -> RawFilePath vm <> filePath) /\ errors_Is e ErrFileNotExist = false
  end.
Proof.
  unfold ValidateFileEntry. destruct (ValueType vm =? RAW_FILE) eqn:Et; cbn [negb]; bool_facts.
  - case_bool_decide as Hp; [by split|]. split; [done|]. by destruct (decide (RawFilePath vm = filePath)).
  - by destruct (ValueType vm =? SEGMENT).
Qed.

Lemma wp_processCompactionEntry userKey filePath (Q : error + compactionEntry -> World DB SegWorld -> Prop) w m F :
  base w m F -> row_fact w m userKey filePath ->
  (forall e w', base w' m F -> adv w m F w' m F -> given_up w' m filePath e -> Q (inl e) w') ->
  (forall entry content w', base w' m F -> adv w m F w' m F -> ce_userKey entry = userKey -> ce_filePath entry = filePath ->
     entry_known w' m entry content -> Q (inr entry) w') ->
  wp (processCompactionEntry env userKey filePath) Q w.
Proof using Hnoent Hplain PL.
  intros Hb Hf H1 H2. unfold processCompactionEntry, os_Stat. apply wp_bind, wp_bind, wp_syscall. destruct (base_tick w m F Hb) as [Hb1 A1].
  destruct (env_fault env (w_tick w)) as [errno|] eqn:Ef.
  { apply wp_ret, wp_ret. assert (errno <> ENOENT) as Hno by (intros ->; by eapply Hnoent). cbn [os_IsNotExist].
    rewrite bool_decide_false by done. apply H1; [done..|]. split; cbn; rewrite !bool_decide_false by naive_solver; done. }
  apply wp_fun. cbn [fst snd]. destruct (w_disk (tick w) !! filePath) as [content|] eqn:Ed.
  2: { apply wp_ret. apply H1; [done..|]. by split. }
  apply wp_bind. unfold loadAndValidateMetadata, GetMetadata. apply wp_bind, wp_bind, (wp_row_Get _ _ _ m F Hb1).
  { intros e w2 Hb2 A2 Hp. apply wp_ret, wp_ret, wp_ret. rewrite Hp. apply H1; [done|by eapply adv_trans|]. by split; rewrite !Hp. }
  intros w2 Hb2 A2. pose proof (adv_trans _ _ _ _ _ _ _ _ _ A1 A2) as A. pose proof (row_fact_adv _ _ _ _ _ _ _ _ A Hf) as Hf2.
  apply wp_ret, wp_ret, wp_ret. destruct (m !! MakeMetadataKey userKey) as [v|] eqn:Ev.
  2: { apply H1; [done..|]. split; [intros _|done]. eapply only_row_gone; [done|]. intros vm (v & E & _). congruence. }
  destruct (proto_Unmarshal v) as [vm|] eqn:Eu; [|by apply H1]. assert (row_at m userKey vm) as Hr by (by exists v).
  pose proof (ValidateFileEntry_spec vm filePath) as Hv. destruct (ValidateFileEntry vm filePath) as [e|].
  { destruct Hv as [Hp Hno]. apply H1; [done..|]. split; [intros _|by rewrite Hno]. eapply only_row_gone; [done|].
    intros vm' Hr'. by rewrite (row_at_fun _ _ _ _ Hr' Hr). }
  destruct Hv as [Ht Hp]. assert (raw_at m userKey filePath (ValueLength vm)) as Hraw by (by exists vm).
  assert (w_disk w2 !! filePath = Some content) as Ed2 by (by rewrite (a_disk _ _ _ _ _ _ A2)).
  destruct (rs_file _ _ _ _ _ (b_safe _ _ _ Hb2) _ _ _ Hraw) as (c & Ec & El). rewrite Ed2 in Ec. injection Ec as <-.
  destruct (b_sep _ _ _ Hb2 _ _ _ Hraw) as [Hne Hdir]. apply (H2 _ content); [done..|].
  split; cbn; try done; [by apply (rows_ok_op m userKey); [apply Hb2|]|by eapply unmarshal_ok|by rewrite Ev| |apply Hf2|apply Hf2].
  intros vm' Hr' _ _. by eapply row_at_fun.
Qed.

(** ** The steps of the loop *)

(** A run's batch grows by operations that are harmless now. *)
Lemma run_ok_stage w m F r ops wb :
  base w m F -> run_ok w m F r -> wb = cr_wb r ++ ops -> Forall (op_ok segmentsPath (w_sm w) F (w_disk w) m) ops ->
  run_ok w m F (run_wb wb r).
Proof.
  intros Hb [] -> Hops. split; cbn; [by apply Forall_app| |done].
  eapply Forall_impl; [exact ro_pend0|]. intros p Hp. eapply pend_ok_adv; [by apply adv_refl| |exact Hp]. set_solver.
Qed.

(** The purge of a file that is gone meets no row of it. *)
Lemma purge_op_ok userKey filePath o w m F :
  base w m F -> row_fact w m userKey filePath -> w_disk w !! filePath = None -> filePath <> EmptyString ->
  m !! MakeMetadataKey userKey <> None -> MakeRawFilePurgeOperand filePath = Some o ->
  op_ok segmentsPath (w_sm w) F (w_disk w) m (BMerge (MakeMetadataKey userKey) o).
Proof using PL.
  intros Hb Hf Hd Hne Hk Eo. exists userKey. eexists. split_and!; [done| |done|].
  - eapply marshal_unmarshal; [|exact Eo]. pose proof (rf_utf8 _ _ _ _ Hf). split; cbn; try done; unfold RAW_FILE; unfold_ints; lia.
  - right. split; cbn; try done. intros vm Hr Ht Hp. destruct (rs_file _ _ _ _ _ (b_safe _ _ _ Hb) userKey filePath (ValueLength vm)) as (c & Ec & _).
    { by exists vm. } congruence.
Qed.

Lemma wp_purgeDanglingMeta wb userKey filePath (Q : list batch_op -> World DB SegWorld -> Prop) w m F :
  base w m F -> row_fact w m userKey filePath -> w_disk w !! filePath = None ->
  (forall ops w', base w' m F -> adv w m F w' m F -> Forall (op_ok segmentsPath (w_sm w') F (w_disk w') m) ops -> Q (wb ++ ops) w') ->
  wp (purgeDanglingMeta wb userKey filePath) Q w.
Proof using Hplain PL.
  intros Hb Hf Hd HQ. unfold purgeDanglingMeta.
  assert (forall w', base w' m F -> adv w m F w' m F -> Q wb w') as HQ0.
  { intros w' Hb' A. rewrite <- (app_nil_r wb). apply HQ; [done|done|by apply Forall_nil_2]. }
  destruct (decide _) as [_|Hne]; [apply wp_ret, HQ0; [done|by apply adv_refl]|].
  apply wp_bind, (wp_row_Get _ _ _ m F Hb); [intros; by apply wp_ret, HQ0|]. intros w' Hb' A. apply wp_ret.
  destruct (m !! MakeMetadataKey userKey) as [v|] eqn:Ev; [|by apply HQ0]. destruct (MakeRawFilePurgeOperand filePath) as [o|] eqn:Eo; [|by apply HQ0].
  apply HQ; [done..|]. apply Forall_cons. split; [|by apply Forall_nil_2]. eapply purge_op_ok; [done|exact (row_fact_adv _ _ _ _ _ _ _ _ A Hf)| |done|by rewrite Ev|done].
  by rewrite (a_disk _ _ _ _ _ _ A).
Qed.

Lemma wp_skip_entry k userKey filePath e r (Q : comp_run -> World DB SegWorld -> Prop) w m F :
  base w m F -> run_ok w m F r -> row_fact w m userKey filePath -> has_prefix CompactionIndexPrefix k = true -> given_up w m filePath e ->
  (forall r' w' m', base w' m' F -> adv w m F w' m' F -> run_ok w' m' F r' -> Q r' w') ->
  wp (skip_entry_for env k userKey filePath e r) Q w.
Proof using Henv Hseg Hnoent Hplain PL init_ok.
  intros Hb Hr Hf Hk [Hfree Hlost] HQ. unfold skip_entry_for.
  assert (forall w' m', base w' m' F -> adv w m F w' m' F -> run_ok w' m' F (run_wb (cr_wb r ++ [BDelete k]) r)) as Hdrop.
  { intros w' m' Hb' A. eapply run_ok_stage; [done|exact (run_ok_adv _ _ _ _ _ _ _ Hb A Hr)|done|]. by apply Forall_cons; split; [|apply Forall_nil_2]. }
  assert (unreferenced m filePath -> wp (Queue_Add env filePath ≫= (fun _ => mret (run_wb (cr_wb r ++ [BDelete k]) r))) Q w) as Hqueue.
  { intros Hu. apply wp_bind. eapply wp_queue_file; [exact Hb|done|apply Hf|]. intros _ w' m' Hb' A _. apply wp_ret, (HQ _ _ m'); [done..|by apply Hdrop]. }
  destruct (errors_Is e ErrMetadataNotFound); [apply Hqueue, Hfree; done|].
  destruct (errors_Is e ErrAlreadyCompacted); [apply wp_ret, (HQ _ _ m); [done|by apply adv_refl|apply Hdrop; [done|by apply adv_refl]]|].
  cbn [orb] in Hfree. destruct (errors_Is e ErrNotRawFile || _); [by apply Hqueue, Hfree|].
  destruct (errors_Is e ErrFileNotExist); [|apply wp_ret, (HQ _ _ m); [done|by apply adv_refl|done]].
  apply wp_bind, (wp_purgeDanglingMeta _ _ _ _ _ m F); [done|done|by apply Hlost|]. intros ops w' Hb' A Hops. apply wp_ret, (HQ _ _ m); [done..|].
  pose proof (Hdrop w' m Hb' A) as Hr'. exact (run_ok_stage _ _ _ _ ops _ Hb' Hr' eq_refl Hops).
Qed.

(** The file of a migrated entry may be deleted once the batch is in. *)
Lemma migrated_pending w m e content o wb :
  entry_known w m e content -> BMerge (MakeMetadataKey (ce_userKey e)) o ∈ wb -> migrates o (ce_filePath e) ->
  pend_ok m (w_tick w) wb (ce_filePath e).
Proof.
  intros [] Ho Hm. split; [done|]. intros key. destruct (decide (key = ce_userKey e)) as [->|Hne]; [right; by exists o|].
  left. intros vm Hr Ht Hp. apply Hne, (ek_only0 key (ValueLength vm)). by exists vm.
Qed.

Definition index_row_ok w m (k v : bytes) : Prop :=
  has_prefix CompactionIndexPrefix k = true
  /\ forall userKey filePath, ParseCompactionIndexRow k v = (userKey, filePath, true) -> row_fact w m userKey filePath.

Lemma wp_compact_row caller k v mine r (Q : bool * comp_run -> World DB SegWorld -> Prop) w m F :
  base w m F -> run_ok w m F r -> index_row_ok w m k v ->
  (forall stop r' w' m' F', base w' m' F' -> adv w m F w' m' F' -> run_ok w' m' F' r' -> Q (stop, r') w') ->
  wp (compact_row env senv sf segmentsPath segmentSize cancelled limited partial caller k v mine r) Q w.
Proof using Henv Hseg Hnoent Hplain PL init_ok.
  intros Hb Hr [Hk Hrow] HQ. unfold compact_row. destruct (ParseCompactionIndexRow k v) as [[userKey filePath] ok] eqn:Ep.
  assert (Forall (op_ok segmentsPath (w_sm w) F (w_disk w) m) [BDelete k]) as Hdel by (by apply Forall_cons; split; [|apply Forall_nil_2]).
  destruct ok; cbn [negb]; [|apply wp_ret, (HQ _ _ _ m F); [done|by apply adv_refl|by eapply run_ok_stage]].
  destruct (mine userKey); cbn [negb]; [|apply wp_ret, (HQ _ _ _ m F); [done|by apply adv_refl|done]].
  specialize (Hrow _ _ eq_refl). apply wp_bind, (wp_processCompactionEntry _ _ _ w m F); [done|done| |].
  - intros e w1 Hb1 A1 Hgu. pose proof (run_ok_adv _ _ _ _ _ _ _ Hb A1 Hr) as Hr1.
    apply wp_bind, (wp_skip_entry _ _ _ _ _ _ _ m F); [done|done|exact (row_fact_adv _ _ _ _ _ _ _ _ A1 Hrow)|done|done|].
    intros r2 w2 m2 Hb2 A2 Hr2. apply wp_ret, (HQ _ _ _ m2 F); [done|by eapply adv_trans|done].
  - intros entry content w1 Hb1 A1 <- <- He. pose proof (run_ok_adv _ _ _ _ _ _ _ Hb A1 Hr) as Hr1.
    apply wp_bind, (wp_compactEntry _ _ content _ _ _ m F); [done|done|done| |].
    + intros err r2 w2 m2 F2 Hb2 A2 Hr2. pose proof (adv_trans _ _ _ _ _ _ _ _ _ A1 A2) as A.
      assert (forall stop, wp (mret (stop, r2)) Q w2) as Hend by (intros; by apply wp_ret, (HQ _ _ _ m2 F2)).
      destruct err as [| | [] | | |]; apply Hend.
    + intros r2 w2 m2 F2 Hb2 A2 Hr2 (o & Ho & Hm). pose proof (adv_trans _ _ _ _ _ _ _ _ _ A1 A2) as A. apply wp_ret, (HQ _ _ _ m2 F2); [done..|].
      assert (run_ok w2 m2 F2 (run_wb (cr_wb r2 ++ [BDelete k]) r2)) as [].
      { eapply run_ok_stage; [done|done|done|]. by apply Forall_cons; split; [|apply Forall_nil_2]. }
      split; [done| |done]. cbn in *. apply Forall_app. split; [done|]. apply Forall_cons. split; [|by apply Forall_nil_2].
      eapply migrated_pending; [exact (entry_known_adv _ _ _ _ _ _ _ _ A2 He)| |exact Hm]. set_solver.
Qed.

Lemma index_row_adv w m F w' m' F' k v : adv w m F w' m' F' -> index_row_ok w m k v -> index_row_ok w' m' k v.
Proof. intros A [Hk Hf]. split; [done|]. intros userKey filePath E. eapply row_fact_adv; [exact A|by apply Hf]. Qed.

Lemma wp_compact_rows caller mine rows r (Q : bool * comp_run -> World DB SegWorld -> Prop) w m F :
  base w m F -> run_ok w m F r -> Forall (fun kv => index_row_ok w m kv.1 kv.2) rows ->
  (forall stop r' w' m' F', base w' m' F' -> adv w m F w' m' F' -> run_ok w' m' F' r' -> Q (stop, r') w') ->
  wp (compact_rows env senv sf segmentsPath segmentSize cancelled limited partial caller mine rows r) Q w.
Proof using Henv Hseg Hnoent Hplain PL init_ok.
  revert r w m F. induction rows as [|[k v] rows IH]; intros r w m F Hb Hr Hrows HQ; cbn [compact_rows].
  { apply wp_ret, (HQ _ _ _ m F); [done|by apply adv_refl|done]. }
  apply Forall_cons_1 in Hrows as [Hrow Hrows]. apply wp_bind, (wp_ctx _ w m F); [done|]. intros c w1 Hb1 A1 _.
  pose proof (run_ok_adv _ _ _ _ _ _ _ Hb A1 Hr) as Hr1. destruct c as [e|]; [by apply wp_ret, (HQ _ _ _ m F)|].
  apply wp_bind, (wp_compact_row _ _ _ _ _ _ _ m F); [done|done|exact (index_row_adv _ _ _ _ _ _ _ _ A1 Hrow)|].
  intros stop r2 w2 m2 F2 Hb2 A2 Hr2. pose proof (adv_trans _ _ _ _ _ _ _ _ _ A1 A2) as A. destruct stop; [by apply wp_ret, (HQ _ _ _ m2 F2)|].
  eapply IH; [exact Hb2|done| |].
  - eapply Forall_impl; [exact Hrows|]. intros kv Hkv. by eapply index_row_adv.
  - intros stop r3 w3 m3 F3 Hb3 A3 Hr3. apply (HQ _ _ _ m3 F3); [done|by eapply adv_trans|done].
Qed.

(** The compaction index of a store: every row of it keeps its promise. *)
Definition index_ok w m : Prop := forall k v, m !! k = Some v -> has_prefix CompactionIndexPrefix k = true -> index_row_ok w m k v.

Lemma wp_CompactFiles threads workerID w m F :
  base w m F -> index_ok w m ->
  wp (CompactFiles env senv sf segmentsPath segmentSize cancelled limited partial threads workerID)
    (fun _ w' => exists m' F', base w' m' F' /\ adv w m F w' m' F') w.
Proof using Henv Hseg Hnoent Hplain PL init_ok.
  intros Hb Hidx. unfold CompactFiles. apply wp_bind. eapply wp_Iterate; [apply Hb|]. intros l err rest db Hdb Hl _.
  destruct (base_quiet w (set_db db w) m F Hb (frame_set_db _ _) Hdb) as [Hb1 A1].
  apply wp_bind, (wp_sm _ _ _ m F Hb1). eapply (wp_store_Acquire _ _ _ _ Hseg); [apply Hb1|..].
  { intros e sm F2 Hs2 Hg2. exists F2. split_and!; [done..|]. intros Hb2 A2. apply wp_ret. exists m, F2. split; [done|by eapply adv_trans]. }
  intros seg sm F2 Hs2 Hg2 Hl2. exists F2. split_and!; [done..|]. intros Hb2 A2. pose proof (adv_trans _ _ _ _ _ _ _ _ _ A1 A2) as A.
  apply wp_bind, (wp_compact_rows _ _ _ _ _ _ m F2); [done|by split; [apply Forall_nil_2..|]| |].
  { apply Forall_forall. intros [k v] Hin%prefix_rows_sub. destruct Hin as [Hk Hin]. cbn in *. eapply index_row_adv; [exact A|]. apply Hidx; [|done].
    assert ((k, v) ∈ rows_from CompactionIndexPrefix m) as Hin' by (rewrite <- Hl; set_solver). by apply elem_of_rows_from in Hin' as [? _]. }
  intros stop r w3 m3 F3 Hb3 A3 Hr3. pose proof (adv_trans _ _ _ _ _ _ _ _ _ A A3) as A'. apply wp_bind.
  assert (forall w4 m4 F4 (u : Z * Z), base w4 m4 F4 -> adv w m F w4 m4 F4 ->
    wp (on_sm (release_one (worker_caller workerID) (cr_seg r)) ≫= (fun _ => mret u) : World.M (DB := DB) (Z * Z)) (fun _ w' => exists m' F', base w' m' F' /\ adv w m F w' m' F') w4) as Hend.
  { intros w4 m4 F4 u Hb4 A4. apply wp_bind, (wp_sm _ _ w4 m4 F4 Hb4). eapply wp_store_release; [apply Hb4|]. intros sm5 Hs5 Hg5. exists F4.
    split_and!; [done..|]. intros Hb5 A5. apply wp_ret. exists m4, F4. split; [done|by eapply adv_trans]. }
  destruct stop; [by apply wp_ret, (Hend _ m3 F3)|].
  apply wp_bind, (wp_commit _ _ _ w3 m3 F3); [done|apply Hr3|apply Hr3| |].
  - intros e w4 F4 Hb4 A4. apply wp_ret, (Hend _ m3 F4); [done|by eapply adv_trans].
  - intros w4 m4 F4 Hb4 A4 Hfree. apply (wp_queue_sources m4 F4 _ _ w4); [done| |].
    + eapply Forall_impl; [apply Hr3|]. intros p Hp. by apply Hfree.
    + intros w5 m5 Hb5 A5. apply (Hend _ m5 F4); [done|]. eapply adv_trans; [exact A'|]. by eapply adv_trans.
Qed.

(** ** Reading after a run *)

#[local] Instance reads_segments : SegmentStore SegWorld := segment_manager senv.

(** A read of a value that is there: its bytes, its absence once it has expired, an error
    only if the read of its row, of its file or of its segment fails. *)
Definition reading_failed key w : Prop :=
  row_read_failed key w \/ read_call_failed env (w_tick w) \/ is_Some (env_fault senv (sw_tick (w_sm w))).

Definition stored_post key w (data : bytes) (expiry : Z) (r : error + option bytes) : Prop :=
  match r with
  | inr (Some d) => d = data
  | inr None => expired_at expiry (env_now env (w_tick w)) = true
  | inl _ => reading_failed key w
  end.

Lemma wp_on_sm {A} (c : ST SegWorld A) (Q : A -> World DB SegWorld -> Prop) w :
  wp c (fun a sm => Q a (set_sm sm w)) (w_sm w) -> wp (on_sm c) Q w.
Proof. intros Hc. apply wp_fun. unfold on_sm. unfold wp in Hc. by destruct (c (w_sm w)). Qed.

(** A value in a segment. *)
Lemma get_segment_value m F key vm data w :
  base w m F -> row_at m key vm -> ValueType vm = SEGMENT -> located (w_sm w) F (SegmentPath vm) (SegmentOffset vm) key data ->
  ValueLength vm = slen data -> key <> EmptyString -> 0 < slen data ->
  wp (get_value env cfg key) (fun r _ => stored_post key w data (Expiry vm) r) w.
Proof.
  intros Hb (v & Ev & Eu) Ht Hloc Hlen Hk Hd. unfold get_value. apply wp_bind. eapply wp_Get_row; [apply Hb|..].
  { intros e db _ Hf. apply wp_ret. by left. }
  intros db Hdb. rewrite Ev, Eu. apply wp_bind, wp_check_expired. intros w1 _ _ [E1 _]. cbn in E1 |- *. destruct (expired_at _ _) eqn:Ex; [by apply wp_ret|].
  apply wp_bind, wp_refresh_access. intros w2 _ _ [E2 _]. rewrite Ht. cbn [Z.eqb INLINE SEGMENT Pos.eqb]. rewrite Hlen. apply wp_bind.
  pose proof Hloc as (l & _ & _ & _ & Hmap & _ & _). destruct (so_map _ _ _ _ (b_store _ _ _ Hb) _ _ Hmap) as (_ & _ & [[name Ep] _]).
  assert (wp (sm_ReadEntry key (SegmentPath vm) (SegmentOffset vm) (slen data)) (fun r _ => match r with inr ob => ob = Some data | inl _ => is_Some (env_fault senv (sw_tick (w_sm w))) end) (w_sm w2)) as Hread.
  { rewrite E2, E1. apply wp_bind. eapply wp_ReadEntry_located; [apply Hb|exact Hloc| |done|done|..].
    - rewrite Ep. apply filepath_Join_ne.
    - intros err w' Hf. by apply wp_ret.
    - intros w'. by apply wp_ret. }
  apply wp_on_sm. eapply wp_mono; [exact Hread|]. intros [e|ob] sm; [intros Hf; apply wp_ret; by right; right|]. intros ->. by apply wp_ret.
Qed.

Lemma get_value_at m F key vm data w :
  base w m F -> row_at m key vm -> value_at (w_sm w) F (w_disk w) key vm data -> key <> EmptyString -> 0 < slen data ->
  wp (get_value env cfg key) (fun r _ => stored_post key w data (Expiry vm) r) w.
Proof.
  intros Hb Hr Hv Hk Hd. destruct Hv as [Hv|[(Ht & Hdisk & Hl)|(Ht & Hloc & Hl)]]; [..|by eapply get_segment_value].
  all: eapply wp_mono; [eapply (get_value_spec env cfg m key vm data); [apply Hb|done|]|intros [e|[d|]] w'; cbn; unfold reading_failed; tauto].
  - by left.
  - right. split_and!; try done. by apply (b_sep _ _ _ Hb key _ (ValueLength vm)); exists vm.
Qed.

(** What a [Get] of a value that is in the store answers. *)
Definition answers key w (data : bytes) (expiry start end_ : Z) (r : error + option value_reader) : Prop :=
  match r with
  | inr (Some rd) => reads_as rd data start end_
  | inr None => expired_at expiry (env_now env (w_tick w)) = true
  | inl _ => reading_failed key w
  end.

(** What a store that keeps the values of another one answers. *)
Lemma keeps_reads w w1 m F m' F' key vm data start end_ r w2 :
  base w1 m' F' -> w_disk w1 = w_disk w -> keeps (w_disk w) m (w_sm w) F m' (w_sm w1) F' ->
  row_at m key vm -> value_at (w_sm w) F (w_disk w) key vm data -> key <> EmptyString -> 0 < slen data < two63 ->
  is_i64 start -> is_i64 end_ -> Get env cfg key start end_ w1 = (r, w2) -> answers key w1 data (Expiry vm) start end_ r.
Proof using Type.
  intros Hb1 Hd1 Hkeep Hr Hv Hk [Hd Hd2] Hst Hen Eg. destruct (Hkeep key vm data Hr) as (vm' & Hr' & _ & Hv' & Hsame); [by eapply value_nonzero|done|].
  rewrite <- Hd1 in Hv'. unfold Get in Eg. refine (wp_run _ (fun r _ => _ : Prop) _ _ _ Eg _). apply wp_bind.
  eapply wp_mono; [by eapply (get_value_at m' F')|]. destruct Hsame as (<- & _).
  intros [e|[d|]] w' Hp; apply wp_ret; cbn in *; [done|subst d; by apply get_reader_reads|done].
Qed.


(** ** Empty values *)

(** The row of the index names a file that is gone: the purge joins the batch. *)
Lemma wp_stale_row caller k v mine key path r (Q : bool * comp_run -> World DB SegWorld -> Prop) w m F :
  base w m F -> run_ok w m F r -> index_row_ok w m k v -> ParseCompactionIndexRow k v = (key, path, true) -> mine key = true ->
  path <> EmptyString -> w_disk w !! path = None -> m !! MakeMetadataKey key <> None ->
  env_fault env (w_tick w) = None -> ~ read_failed (DB := DB) ->
  (forall o w', base w' m F -> run_ok w' m F (run_wb (cr_wb r ++ [BDelete k; BMerge (MakeMetadataKey key) o]) r) ->
     Q (false, run_wb (cr_wb r ++ [BDelete k; BMerge (MakeMetadataKey key) o]) r) w') ->
  wp (compact_row env senv sf segmentsPath segmentSize cancelled limited partial caller k v mine r) Q w.
Proof using Henv Hseg Hnoent Hplain PL init_ok.
  intros Hb Hr [Hk Hrow] Ep Hmine Hne Hd Hhere Hcall Hread HQ. specialize (Hrow _ _ Ep). unfold compact_row. rewrite Ep, Hmine. cbn [negb].
  apply wp_bind. unfold processCompactionEntry, os_Stat. apply wp_bind, wp_bind, wp_syscall. rewrite Hcall. destruct (base_tick w m F Hb) as [Hb1 A1].
  apply wp_fun. cbn [fst snd]. change (w_disk (tick w)) with (w_disk w). rewrite Hd. apply wp_ret. apply wp_bind. unfold skip_entry_for. cbn.
  apply wp_bind. unfold purgeDanglingMeta. rewrite decide_False by done. apply wp_bind, wp_fun. unfold Get_, on_db.
  destruct (db_Get (MakeMetadataKey key) (w_db (tick w))) as [x db] eqn:E. destruct (rdb_get _ _ _ _ _ (b_db _ _ _ Hb1) E) as [Hm' Hv]. cbn [fst snd].
  destruct (base_quiet (tick w) (set_db db (tick w)) m F Hb1 (frame_set_db _ _) Hm') as [Hb2 A2]. pose proof (adv_trans _ _ _ _ _ _ _ _ _ A1 A2) as A.
  destruct x as [e|x]; [exfalso; apply Hread; by exists (MakeMetadataKey key), (w_db (tick w)), m, e, db; split; [apply Hb1|]|].
  rewrite (Hv x eq_refl). destruct (m !! MakeMetadataKey key) as [b|] eqn:Eb; [|done]. pose proof (row_fact_adv _ _ _ _ _ _ _ _ A Hrow) as Hf.
  destruct (marshal_total (MkVM RAW_FILE EmptyString 0 path EmptyString 0 0 0 0 0 0)) as [o Eo].
  { pose proof (rf_utf8 _ _ _ _ Hf). split; cbn; try done; unfold RAW_FILE; unfold_ints; lia. }
  unfold MakeRawFilePurgeOperand. rewrite Eo. apply wp_ret, wp_ret, wp_ret. rewrite <- app_assoc. apply HQ; [done|].
  apply (run_ok_stage _ m F r [BDelete k; BMerge (MakeMetadataKey key) o]); [done|exact (run_ok_adv _ _ _ _ _ _ _ Hb A Hr)|done|].
  apply Forall_cons. split; [done|]. apply Forall_cons. split; [|by apply Forall_nil_2]. eapply purge_op_ok; [exact Hb2|exact Hf|done|done|by rewrite Eb|done].
Qed.

(** The rows after a commit that succeeds. *)
Lemma wp_commit_rows l wb (Q : option error -> World DB SegWorld -> Prop) w m F :
  base w m F -> wb_ok w m F wb -> wb <> [] -> (l < sw_next (w_sm w))%nat -> (forall e w', Q (Some e) w') ->
  (forall w', represents (w_db w') (apply_batch m wb) -> Q None w') -> wp (Compactor_commit senv cancelled l wb) Q w.
Proof using Hseg PL init_ok.
  intros Hb Hwb Hne Hl H1 H2. unfold Compactor_commit. rewrite decide_False by done.
  apply wp_bind, (wp_ctx _ w m F); [done|]. intros [e|] w1 Hb1 Ha1 _; [by apply wp_ret|].
  apply wp_bind, (wp_sm _ _ w1 m F Hb1). eapply store_still; [apply Hb1| |apply wp_Sync|].
  { pose proof (g_next _ _ _ _ (a_grows _ _ _ _ _ _ Ha1)). lia. }
  intros r sm F' _ Hs' Hg'. exists F'. split_and!; [done..|]. intros Hb2 Ha2. destruct r as [e|]; [by apply wp_ret|].
  assert (wb_ok (set_sm sm w1) m F' wb) as Hwb2 by exact (wb_ok_adv w m F _ m F' wb Hb (adv_trans _ _ _ _ _ _ _ _ _ Ha1 Ha2) Hwb).
  destruct (batch_step init_ok segmentsPath (w_sm (set_sm sm w1)) F' (w_disk (set_sm sm w1)) wb m senv (b_store _ _ _ Hb2) (b_rows _ _ _ Hb2) Hwb2) as [Hreg _].
  eapply wp_Write; [apply Hb2|done|..]; intros; [by apply H1|by apply H2].
Qed.

(** A row of no bytes reads as the empty value, an old tombstone as nothing. *)
Lemma get_value_row m key vm w : ~ read_failed (DB := DB) ->
  represents (w_db w) m -> row_at m key vm -> ValueType vm = INLINE \/ expired_at (Expiry vm) (env_now env (w_tick w)) = true ->
  wp (get_value env cfg key) (fun r _ => r = inr (if expired_at (Expiry vm) (env_now env (w_tick w)) then None else Some (Data vm))) w.
Proof.
  intros Hread Hm (v & Ev & Eu) Ht. unfold get_value. apply wp_bind. eapply wp_Get_failing; [exact Hm|by intros|].
  intros db Hdb. rewrite Ev, Eu. apply wp_bind, wp_check_expired. intros w1 _ _ _. cbn. destruct (expired_at _ _); [by apply wp_ret|].
  apply wp_bind, wp_refresh_access. intros w2 _ _ _. destruct Ht as [->|]; [by apply wp_ret|done].
Qed.

(** C37: compaction destroys an empty value. Let the row of a key be the empty byte string,
    as [Put] of an empty value without an expiry leaves it, and let a row of the compaction
    index still name a file of that key that is gone. The key reads as the empty value; when
    a run meets the index row in any state (nothing fails in that step) it does not stop, and
    when the batch it has then is committed the key reads as absent: the merge operator takes
    the empty row for a missing one and stores its expired sentinel. (The clock is past its
    first second.) *)
Theorem compaction_destroys_empty_value caller k v mine key path r stop r' w w1 w2 m F :
  base w m F -> run_ok w m F r -> index_row_ok w m k v -> ParseCompactionIndexRow k v = (key, path, true) -> mine key = true ->
  path <> EmptyString -> w_disk w !! path = None -> m !! MakeMetadataKey key = Some EmptyString ->
  env_fault env (w_tick w) = None -> ~ read_failed (DB := DB) -> 1 <= unix_of (env_now env (w_tick w2)) ->
  compact_row env senv sf segmentsPath segmentSize cancelled limited partial caller k v mine r w = ((stop, r'), w1) ->
  Compactor_commit senv cancelled (cr_seg r') (cr_wb r') w1 = (None, w2) ->
  (Get env cfg key 0 0 w).1 = inr (Some (get_reader EmptyString 0 0)) /\ stop = false /\ (Get env cfg key 0 0 w2).1 = inr None.
Proof using Henv Hseg Hnoent Hplain PL init_ok.
  intros Hb Hr Hidx Ep Hmine Hne Hd He Hcall Hread Hclock E1 E2.
  assert (forall w0 m0 vm0, represents (w_db w0) m0 -> row_at m0 key vm0 ->
    ValueType vm0 = INLINE \/ expired_at (Expiry vm0) (env_now env (w_tick w0)) = true ->
    (Get env cfg key 0 0 w0).1 = inr ((fun d => get_reader d 0 0) <$>
      (if expired_at (Expiry vm0) (env_now env (w_tick w0)) then None else Some (Data vm0)))) as Hget.
  { intros w0 m0 vm0 Hm Hr0 Ht. refine (wp_run _ (fun r _ => r = _) w0 _ _ (surjective_pairing _) _). unfold Get. apply wp_bind.
    eapply wp_mono; [by eapply get_value_row|]. intros ? w' ->. cbn. destruct (expired_at _ _); by apply wp_ret. }
  split; [apply (Hget w m vm_zero); [apply Hb|exists EmptyString; split; [done|apply unmarshal_empty]|by left]|].
  refine (wp_run _ (fun x w1 => forall w2, Compactor_commit senv cancelled (cr_seg x.2) (cr_wb x.2) w1 = (None, w2) ->
    1 <= unix_of (env_now env (w_tick w2)) -> x.1 = false /\ (Get env cfg key 0 0 w2).1 = inr None) w _ _ E1 _ w2 E2 Hclock).
  eapply (wp_stale_row _ _ _ _ key path); [done..|by rewrite He|done|done|]. clear w1 w2 E1 E2 Hclock r' stop. intros o w1 Hb1 [Hwb _ Hl] w2 E2 Hclock. split; [done|].
  refine (wp_run _ (fun e w2 => e = None -> 1 <= unix_of (env_now env (w_tick w2)) -> (Get env cfg key 0 0 w2).1 = inr None) w1 _ _ E2 _ eq_refl Hclock).
  eapply (wp_commit_rows _ _ _ w1 m F); [done|done|by destruct (cr_wb r)|done|done|]. intros w3 Hm3 _ Hclock3.
  destruct (empty_row_purged init_ok segmentsPath (w_sm w1) F (w_disk w1) _ m senv key (b_store _ _ _ Hb1) (b_rows _ _ _ Hb1) Hwb He) as (vm & Hr3 & Ex).
  { exists o. cbn. set_solver. }
  assert (expired_at (Expiry vm) (env_now env (w_tick w3)) = true) as Hx.
  { rewrite Ex. unfold expired_at, tombstoneExpiry. by rewrite (proj2 (Z.leb_le _ _) Hclock3). }
  by rewrite (Hget w3 _ vm Hm3 Hr3 (or_intror Hx)), Hx.
Qed.

End Run.
