(* ===== verification/CompactionWitnesses.v ===== *)
(** * A compaction run on a concrete store

    One raw file, its row and its index row, a calm environment and an empty segment
    directory: the run migrates the row, and the value is read from the segment. *)

From S2P Require Import Prelude Keys Errors Message Merge ProtoInstance Wire Rocks RocksInstances World Files RangeReader Storage Wp Safety StorageSpec StorageProps StorageWitnesses SegmentFormat Segments SegmentProps SegmentStoreProps SegmentInv Compaction CompactionInv CompactionProps.

Open Scope Z_scope.

(** A clock that never stands still. *)
Definition c_env : Env := MkEnv (fun n => 1000 + Z.of_nat n) (fun _ => EmptyString) (fun _ => None) (fun _ _ => false) (fun _ => 0).
Definition c_faults : SegFaults := MkFaults (fun _ _ => O) (fun _ => None).

Lemma fixed_digits_utf8 n z s : utf8_valid s = true -> utf8_valid (fixed_digits n z +:+ s) = true.
Proof.
  intros Hs. induction n as [|n IH]; [done|]. cbn [fixed_digits]. rewrite sapp_cons. cbn [utf8_valid]. unfold in_range.
  set (d := (z / 10 ^ Z.of_nat n) mod 10). assert (0 <= d < 10) as Hd by (apply Z.mod_pos_bound; lia).
  rewrite digit_code by done. rewrite (proj2 (N.leb_le 0 _)), (proj2 (N.leb_le _ 127)) by lia. by cbn.
Qed.

Lemma fmt_int_utf8 w z s : 0 <= z -> utf8_valid s = true -> utf8_valid (fmt_int w z +:+ s) = true.
Proof. intros Hz Hs. unfold fmt_int. rewrite (proj2 (Z.ltb_ge z 0)) by done. by apply fixed_digits_utf8. Qed.

Lemma c_seg_env : seg_env_ok c_env c_faults "seg".
Proof.
  split; [|..|done|done].
  - intros a b E. unfold seg_path, filepath_Join, segment_name in E. repeat apply String.app_inj in E. cbn in E.
    apply (f_equal (fun s => stake (String.length s - 4) s)) in E. 
    assert (forall z, stake (String.length (fmt_int 1 z +:+ ".seg") - 4) (fmt_int 1 z +:+ ".seg") = fmt_int 1 z) as Hs.
    { intros z. rewrite slength_app. cbn [String.length]. rewrite Nat.add_sub. apply stake_app. }
    rewrite !Hs in E. apply fmt_int_inj in E; lia.
  - intros n. unfold seg_path, filepath_Join, segment_name. cbn. apply fmt_int_utf8; [lia|done].
Qed.

(** The store: a value of eleven bytes in the file of the first draw. *)
Definition c_path : bytes := path_of w_env w_cfg 0.
Definition c_vm : ValueMessage := MkVM RAW_FILE EmptyString 0 c_path EmptyString 0 11 7 3 0 0.
Definition c_index : bytes := MakeCompactionKey 5 "k".
Definition c_rows : gmap bytes bytes := <[MakeMetadataKey "k" := enc_message c_vm]> {[c_index := c_path]}.
Definition c_disk : gmap bytes bytes := {[c_path := "hello world"%string]}.
Definition c_store : SegWorld := MkSegWorld ∅ 0 ∅ 0 [] ∅ [].
Definition c_world : World Journal SegWorld := MkWorld (MkJournal c_rows []) c_store c_disk 1 11 0 0 ∅ [] 0 0.

Lemma c_decodes : proto_Unmarshal (enc_message c_vm) = Some c_vm.
Proof. vm_compute. reflexivity. Qed.

Lemma c_row key vm : row_at c_rows key vm -> key = "k"%string /\ vm = c_vm.
Proof.
  intros (v & E & U). unfold c_rows in E. apply lookup_insert_Some in E as [[E <-]|[_ E]].
  - split; [by apply MakeMetadataKey_inj in E|]. pose proof c_decodes. congruence.
  - apply lookup_singleton_Some in E as [E _]. discriminate E.
Qed.

Lemma c_raw key path len : raw_at c_rows key path len -> key = "k"%string /\ path = c_path /\ len = 11.
Proof. intros (vm & [-> ->]%c_row & _ & <- & <-). done. Qed.

Lemma c_new n : (1 <= n)%nat -> c_path <> path_of w_env w_cfg n.
Proof. intros Hn E. apply (path_of_inj _ _ w_env_ok) in E. lia. Qed.

Lemma c_safe : ref_safe w_env w_cfg c_rows c_disk 1.
Proof.
  split.
  - intros key path len (_ & -> & ->)%c_raw. exists "hello world"%string. by split.
  - by intros k1 k2 path l1 l2 (-> & _)%c_raw (-> & _)%c_raw.
  - intros k v E Hk. unfold c_rows in E. apply lookup_insert_Some in E as [[<- _]|[_ E]]; [discriminate Hk|].
    apply lookup_singleton_Some in E as [<- _]. discriminate Hk.
  - intros n Hn key len (_ & E & _)%c_raw. symmetry in E. by apply c_new in E.
  - intros k e E Hk. unfold c_rows in E. apply lookup_insert_Some in E as [[<- _]|[_ E]]; [discriminate Hk|].
    apply lookup_singleton_Some in E as [<- _]. discriminate Hk.
  - intros n Hn. apply lookup_singleton_None. by apply c_new.
Qed.

Lemma c_store_ok : store_ok c_env "seg" c_store (fun _ => EmptyString).
Proof. split; cbn; [intros path l E; by rewrite lookup_empty in E|lia|set_solver|done]. Qed.

Lemma c_base : base w_env c_env w_cfg "seg" c_world c_rows (fun _ => EmptyString).
Proof.
  split; [by split|apply c_safe|apply c_store_ok| |].
  - intros key v vm E U. destruct (c_row key vm) as [-> ->]; [by exists v|]. by split.
  - intros key path len (_ & -> & _)%c_raw. split; [done|]. intros [name E]. discriminate E.
Qed.

Lemma c_index_ok : index_ok w_env w_cfg c_world c_rows.
Proof.
  intros k v E Hk. unfold c_rows in E. apply lookup_insert_Some in E as [[<- _]|[_ E]]; [discriminate Hk|].
  apply lookup_singleton_Some in E as [<- <-]. split; [done|]. intros userKey filePath Ep. vm_compute in Ep. injection Ep as <- <-. split.
  - by intros key len (-> & _)%c_raw.
  - intros n Hn. by apply c_new.
  - done.
Qed.

Definition c_run : (Z * Z) * World Journal SegWorld :=
  CompactFiles w_env c_env c_faults "seg" 4096 (fun _ => false) false (fun _ => O) 1 0 c_world.

(** One entry of eleven bytes is compacted; the row now points into the segment, the
    index row is gone and the file is queued. *)
Lemma c_run_result :
  c_run.1 = (1, 11)
  /\ (proto_Unmarshal <$> (j_rows (w_db c_run.2) !! MakeMetadataKey "k"))
     = Some (Some (MkVM SEGMENT EmptyString 0 EmptyString "seg/segment_1000.seg" 0 11 7 3 0 0))
  /\ j_rows (w_db c_run.2) !! c_index = None
  /\ j_rows (w_db c_run.2) !! MakeDeletionQueueKey 1700000000000000000 c_path = Some queue_mark.
Proof. vm_compute. auto. Qed.

Definition c_get : error + option value_reader := (Get (H1 := segment_manager c_env) w_env w_cfg "k" 6 10 c_run.2).1.


(** ** A lost value *)

(** The row of the key is the empty value's, its old file is gone, the index row of the file
    is still there; the run has acquired its segment. *)
Definition e_rows : gmap bytes bytes := <[MakeMetadataKey "k" := EmptyString]> {[c_index := c_path]}.
Definition e_store : SegWorld := (AcquireOpenSegmentWithReservation c_env "seg" 4096 "worker" 0 c_store).2.
Definition e_world : World Journal SegWorld := MkWorld (MkJournal e_rows []) e_store ∅ 1 0 0 0 ∅ [] 0 0.
Definition e_run : comp_run := MkRun [] 0 [] 0 0.

Lemma e_row key vm : row_at e_rows key vm -> key = "k"%string /\ vm = vm_zero.
Proof.
  intros (v & E & U). unfold e_rows in E. apply lookup_insert_Some in E as [[E <-]|[_ E]].
  - split; [by apply MakeMetadataKey_inj in E|]. pose proof unmarshal_empty. congruence.
  - apply lookup_singleton_Some in E as [E _]. discriminate E.
Qed.

Lemma e_raw key path len : raw_at e_rows key path len -> False.
Proof. intros (vm & [-> ->]%e_row & Ht & _). discriminate Ht. Qed.

Lemma e_safe : ref_safe w_env w_cfg e_rows ∅ 1.
Proof.
  split; [by intros key path len ?%e_raw|by intros k1 k2 path l1 l2 ?%e_raw| |by intros n Hn key len ?%e_raw| |done].
  - intros k v E Hk. unfold e_rows in E. apply lookup_insert_Some in E as [[<- _]|[_ E]]; [discriminate Hk|].
    apply lookup_singleton_Some in E as [<- _]. discriminate Hk.
  - intros k e E Hk. unfold e_rows in E. apply lookup_insert_Some in E as [[<- _]|[_ E]]; [discriminate Hk|].
    apply lookup_singleton_Some in E as [<- _]. discriminate Hk.
Qed.

Lemma e_base : exists F, base w_env c_env w_cfg "seg" e_world e_rows F.
Proof.
  assert (exists F, store_ok c_env "seg" e_store F) as [F HF].
  { refine (wp_run _ (fun _ sw => exists F, store_ok c_env "seg" sw F) c_store _ _ (surjective_pairing _) _).
    eapply (wp_store_Acquire _ _ _ _ c_seg_env); [apply c_store_ok|intros e w' F' Hs _; by exists F'|intros l w' F' Hs _ _; by exists F']. }
  exists F. split; [by split|apply e_safe|exact HF| |by intros key path len ?%e_raw].
  intros key v vm E U. destruct (e_row key vm) as [-> ->]; [by exists v|]. split; [done|]. intros _. vm_compute in E. by injection E as <-.
Qed.

Lemma e_index_row : index_row_ok w_env w_cfg e_world e_rows c_index c_path.
Proof.
  split; [done|]. intros userKey filePath Ep. vm_compute in Ep. injection Ep as <- <-.
  split; [by intros key len ?%e_raw| |done]. intros n Hn. by apply c_new.
Qed.

Definition e_step : (bool * comp_run) * World Journal SegWorld :=
  compact_row w_env c_env c_faults "seg" 4096 (fun _ => false) false (fun _ => O) "worker" c_index c_path (fun _ => true) e_run e_world.
Definition e_commit : option error * World Journal SegWorld :=
  Compactor_commit c_env (fun _ => false) (cr_seg e_step.1.2) (cr_wb e_step.1.2) e_step.2.

Lemma e_committed : e_commit = (None, e_commit.2).
Proof. vm_compute. reflexivity. Qed.

Lemma compaction_destroys_empty_value_witness :
  (Get (H1 := segment_manager c_env) w_env w_cfg "k" 0 0 e_world).1 = inr (Some (get_reader EmptyString 0 0))
  /\ (Get (H1 := segment_manager c_env) w_env w_cfg "k" 0 0 e_commit.2).1 = inr None.
Proof.
  destruct e_base as [F Hb].
  destruct (compaction_destroys_empty_value codec_init_ok w_env c_env w_cfg c_faults "seg" 4096 (fun _ => false) false (fun _ => O) w_env_ok c_seg_env
    (fun n => ltac:(discriminate)) (fun k db e db' s E => ltac:(discriminate E)) "worker" c_index c_path (fun _ => true) "k" c_path e_run
    e_step.1.1 e_step.1.2 e_world e_step.2 e_commit.2 e_rows F) as (H1 & _ & H2).
  - exact Hb.
  - split; [apply Forall_nil_2|apply Forall_nil_2|vm_compute; lia].
  - exact e_index_row.
  - vm_compute. reflexivity.
  - reflexivity.
  - discriminate.
  - reflexivity.
  - vm_compute. reflexivity.
  - reflexivity.
  - apply journal_reads.
  - vm_compute. discriminate.
  - fold e_step. by destruct e_step as [[a b] c].
  - exact e_committed.
  - exact (conj H1 H2).
Defined.
