(* ===== verification/Recompaction.v ===== *)
(** * Recompaction of fragmented segments (storage/compaction/recompactor.go, walker.go)

    A pass derives the dead bytes of old, closed segments by walking their entries
    against the rows, and rewrites the fragmented ones: live entries are copied into a
    reserved open segment, the rows are moved by conditional merges in one batch, and
    the old segment is dropped only if nothing failed. [Panicked] is a nil dereference. *)

From S2P Require Import Prelude Keys Errors Message Merge Rocks World Files SegmentFormat Segments Compaction.

Open Scope Z_scope.

Definition recompactorCallerIDPrefix : bytes := "recompactor-".
Definition DefaultSegmentWalkInterval : Z := 3600 * 1000000000.

Inductive outcome (A : Type) := Panicked | Returned (a : A).
Arguments Panicked {A}.
Arguments Returned {A} a.

(** What a rewrite has gathered: the segment it writes ([None] is nil), the batch and the
    counters. *)
Record re_run := MkRe { rr_seg : option nat; rr_wb : list batch_op; rr_copied : Z; rr_bytes : Z; rr_failed : Z }.

Definition re_seg l r := MkRe l (rr_wb r) (rr_copied r) (rr_bytes r) (rr_failed r).
Definition re_stage op r := MkRe (rr_seg r) (rr_wb r ++ [op]) (rr_copied r) (rr_bytes r) (rr_failed r).
Definition re_copied len r := MkRe (rr_seg r) (rr_wb r) (u32 (rr_copied r + 1)) (i64 (rr_bytes r + len)) (rr_failed r).
Definition re_fail r := MkRe (rr_seg r) (rr_wb r) (rr_copied r) (rr_bytes r) (rr_failed r + 1).

(** The operand that moves a row: the new location, and the old segment as the
    precondition in [RawFilePath]. *)
Definition moved_to (path : bytes) (offset : Z) (vm : ValueMessage) : ValueMessage :=
  MkVM (ValueType vm) (Data vm) (Expiry vm) (SegmentPath vm) path offset (ValueLength vm) (Checksum vm) (Version vm)
    (OpType vm) (CasExpectedVersion vm).

Definition copy_header (len checksum : Z) : ValueMessage := MkVM SEGMENT EmptyString 0 EmptyString EmptyString 0 len checksum 0 0 0.

(** Whether a row still names the entry at [offset] of the segment [path]. *)
Definition points_at (vm : ValueMessage) (path : bytes) (offset : Z) : bool :=
  (ValueType vm =? SEGMENT) && bool_decide (SegmentPath vm = path) && (SegmentOffset vm =? offset).

(** [err == io.EOF]. *)
Definition is_EOF (e : error) : bool := match e, EOF with EText a, EText b => bool_decide (a = b) | _, _ => false end.

(** ** The timestamp of a segment's name *)

Fixpoint span_digits (s : bytes) : bytes * bytes :=
  match s with
  | String c s' => if is_digit c then let '(d, r) := span_digits s' in (String c d, r) else (EmptyString, s)
  | EmptyString => (EmptyString, EmptyString)
  end.

Definition strip_prefix (p s : bytes) : option bytes := if has_prefix p s then Some (sdrop (String.length p) s) else None.

Fixpoint skip_space (s : bytes) : bytes :=
  match s with
  | String c s' => if bool_decide (c = " "%char) || bool_decide (c = "009"%char) then skip_space s' else s
  | EmptyString => s
  end.

(** [fmt.Sscanf(base, "segment_%d.seg", &timestamp)]. *)
Definition scan_timestamp (base : bytes) : option Z :=
  s ← strip_prefix "segment_" base;
  let s := skip_space s in
  let '(neg, s) := match strip_prefix "-" s with Some s => (true, s) | None => (false, default s (strip_prefix "+" s)) end in
  let '(ds, rest) := span_digits s in
  if decide (ds = EmptyString) then None
  else
    let v := digits_value (String.length ds) 0 ds in
    let v := if neg : bool then - v else v in
    if (v <? - two63) || (two63 <=? v) then None
    else _ ← strip_prefix ".seg" rest; Some v.

Section Recompactor.

Context {DB : Type} `{Protobuf} `{RocksDB DB} (env senv : Env) (sf : SegFaults).
Context (segmentsPath : bytes) (segmentSize : Z).
(** As in Compaction.v: cancellation, rate limiting, and partial reads. *)
Context (cancelled : nat -> bool) (limited : bool) (partial : nat -> nat).
Notation M := (World.M (DB := DB) (SM := SegWorld)).

(** [os.Open] of a segment file. *)
Definition open_segment (l : nat) : M (option error) :=
  on_sm (f ← sw_syscall senv;
         w ← st_get;
         let path := sg_path (seg_at l w) in
         mret match f, sw_disk w !! path with
              | Some e, _ => Some (EPathError "open" path e)
              | None, None => Some (EPathError "open" path ENOENT)
              | None, Some _ => None
              end).

(** The section reader over an entry's value, rate limited or not. *)
Definition section_reader (l : nat) (offset length : Z) : M Body :=
  f ← on_sm (sw_syscall senv);
  path ← on_sm (w ← st_get; mret (sg_path (seg_at l w)));
  content ← on_sm (w ← st_get; mret (default EmptyString (sw_disk w !! path)));
  read_outcome cancelled limited partial path (stake (Z.to_nat length) (sdrop (Z.to_nat offset) content)) f.

(** ** One entry *)

(** Room in the segment that is written; a failed acquisition leaves nil. *)
Definition next_segment (callerID : bytes) (l : nat) (run : re_run) : M (option error * re_run) :=
  r ← on_sm (FinalizeSegment senv sf l);
  match r with
  | Some e => mret (Some (EWrap "failed to finalize segment" e), run)
  | None =>
      _ ← on_sm (release_one callerID l);
      r ← on_sm (AcquireOpenSegmentWithReservation senv segmentsPath segmentSize callerID 0);
      match r with
      | inl e => mret (Some (EWrap "failed to acquire new segment" e), re_seg None run)
      | inr l => mret (None, re_seg (Some l) run)
      end
  end.

(** The copy of the value and the staged move. *)
Definition copy_value (old l : nat) (entry : EntryInfo) (meta : ValueMessage) (run : re_run) : M (option error * re_run) :=
  reader ← section_reader old (i64 (en_Offset entry + en_HeaderSize entry)) (en_ValueLength entry);
  r ← on_sm (on_segment l (WriteEntry senv sf (en_Key entry) reader (copy_header (en_ValueLength entry) (en_Checksum entry))));
  match r with
  | inl e => mret (Some (EWrap "failed to write entry" e), run)
  | inr newOffset =>
      s ← the_segment l;
      mret match proto_Marshal (moved_to (sg_path s) newOffset meta) with
           | None => (Some (EText "failed to marshal metadata"), run)
           | Some operand => (None, re_stage (BMerge (MakeMetadataKey (en_Key entry)) operand) run)
           end
  end.

Definition copyEntry (old : nat) (callerID : bytes) (entry : EntryInfo) (meta : ValueMessage) (run : re_run)
    : M (outcome (option error * re_run)) :=
  match rr_seg run with
  | None => mret Panicked
  | Some l =>
      let totalNeeded := i64 (en_HeaderSize entry + en_ValueLength entry) in
      s ← the_segment l;
      '(err, run) ← (if Remaining s <? totalNeeded then next_segment callerID l run else mret (None, run));
      match err, rr_seg run with
      | None, Some l => r ← copy_value old l entry meta run; mret (Returned r)
      | _, _ => mret (Returned (err, run))
      end
  end.

(** ** One segment *)

(** The entries of the old segment; [Some e] when the pass is abandoned. The iterator
    moves forward with every entry, so the file's size is enough fuel. *)
Fixpoint recompact_loop (fuel : nat) (old : nat) (path callerID : bytes) (it : Iterator) (run : re_run)
    : M (outcome (option error * re_run)) :=
  match fuel with
  | O => mret (Returned (Some (EText "out of fuel"), run))
  | S fuel =>
      c ← ctx_Err cancelled;
      match c with
      | Some e => mret (Returned (Some e, run))
      | None =>
          '(r, it) ← on_sm (on_segment old (Next senv it));
          match r with
          | inl e => mret (Returned (None, if is_EOF e then run else re_fail run))
          | inr entry =>
              r ← GetMetadata (MakeMetadataKey (en_Key entry));
              match r with
              | inl e =>
                  recompact_loop fuel old path callerID it (if errors_Is e ErrMetadataNotFound then run else re_fail run)
              | inr meta =>
                  if negb (points_at meta path (en_Offset entry)) then recompact_loop fuel old path callerID it run
                  else
                    r ← copyEntry old callerID entry meta run;
                    match r with
                    | Panicked => mret Panicked
                    | Returned (Some _, run) => recompact_loop fuel old path callerID it (re_fail run)
                    | Returned (None, run) => recompact_loop fuel old path callerID it (re_copied (en_ValueLength entry) run)
                    end
              end
          end
      end
  end.

(** After the loop: the sync and the batch, then the end of the old segment. *)
Definition recompact_commit (run : re_run) : M (outcome (option error)) :=
  if decide (rr_wb run = []) then mret (Returned None)
  else match rr_seg run with
       | None => mret Panicked
       | Some l =>
           r ← on_sm (on_segment l (Sync senv));
           match r with
           | Some e => mret (Returned (Some (EWrap "failed to sync new segment" e)))
           | None =>
               r ← Write_ (rr_wb run);
               mret (Returned match r with Some e => Some (EWrap "failed to commit metadata updates" e) | None => None end)
           end
       end.

Definition removeDeleteIndex (segmentPath : bytes) : M (option error) := Write_ [BDelete (MakeDeleteIndexKey segmentPath)].

Definition drop_segment (path : bytes) : M () :=
  _ ← on_sm (RemoveSegment path);
  _ ← Queue_Add env path;
  _ ← removeDeleteIndex path;
  mret ().

Definition finish_pass (path : bytes) (r : outcome (option error * re_run)) : M (outcome (option error)) :=
  match r with
  | Panicked => mret Panicked
  | Returned (Some e, _) => mret (Returned (Some e))
  | Returned (None, run) =>
      r ← recompact_commit run;
      match r with
      | Returned None => if 0 <? rr_failed run then mret (Returned None) else _ ← drop_segment path; mret (Returned None)
      | _ => mret r
      end
  end.

(** The release deferred to the end. *)
Definition release_last (callerID : bytes) (r : outcome (option error * re_run)) : M () :=
  match r with
  | Returned (_, run) => match rr_seg run with Some l => on_sm (release_one callerID l) | None => mret () end
  | Panicked => mret ()
  end.

Definition recompactSegment (old : nat) : M (outcome (option error)) :=
  path ← on_sm (w ← st_get; mret (sg_path (seg_at old w)));
  r ← open_segment old;
  match r with
  | Some e => mret (Returned (Some (EWrap ("failed to open segment " +:+ path) e)))
  | None =>
      let callerID := recompactorCallerIDPrefix +:+ path in
      r ← on_sm (AcquireOpenSegmentWithReservation senv segmentsPath segmentSize callerID 0);
      match r with
      | inl e => mret (Returned (Some (EWrap "failed to acquire new segment" e)))
      | inr newSeg =>
          r ← on_sm (on_segment old (NewIterator senv));
          match r with
          | inl e =>
              _ ← on_sm (release_one callerID newSeg);
              mret (Returned (Some (EWrap "failed to create segment iterator" e)))
          | inr it =>
              r ← recompact_loop (S (S (Z.to_nat (it_fileSize it)))) old path callerID it (MkRe (Some newSeg) [] 0 0 0);
              res ← finish_pass path r;
              _ ← release_last callerID r;
              mret res
          end
      end
  end.

(** ** The walk *)

(** Entries walked, live entries and live bytes. *)
Fixpoint walk_loop (fuel : nat) (old : nat) (path : bytes) (it : Iterator) (walked liveEntries liveBytes : Z)
    : M (error + Z * Z * Z) :=
  match fuel with
  | O => mret (inl (EText "out of fuel"))
  | S fuel =>
      c ← ctx_Err cancelled;
      match c with
      | Some e => mret (inl e)
      | None =>
          c ← (if limited then ctx_Err cancelled else mret None);
          match c with
          | Some e => mret (inl e)
          | None =>
              '(r, it) ← on_sm (on_segment old (Next senv it));
              match r with
              | inl e => mret (if is_EOF e then inr (walked, liveEntries, liveBytes) else inl e)
              | inr entry =>
                  let walked := i64 (walked + 1) in
                  r ← GetMetadata (MakeMetadataKey (en_Key entry));
                  match r with
                  | inl e =>
                      if errors_Is e ErrMetadataNotFound then walk_loop fuel old path it walked liveEntries liveBytes
                      else mret (inl e)
                  | inr meta =>
                      if negb (points_at meta path (en_Offset entry)) then walk_loop fuel old path it walked liveEntries liveBytes
                      else walk_loop fuel old path it walked (i64 (liveEntries + 1)) (i64 (liveBytes + en_ValueLength entry))
                  end
              end
          end
      end
  end.

(** [walkSegmentLiveness]: dead entries and bytes. *)
Definition walkSegmentLiveness (old : nat) : M (error + Z * Z) :=
  path ← on_sm (w ← st_get; mret (sg_path (seg_at old w)));
  r ← open_segment old;
  match r with
  | Some e => mret (inl e)
  | None =>
      r ← on_sm (on_segment old (NewIterator senv));
      match r with
      | inl e => mret (inl e)
      | inr it =>
          r ← walk_loop (S (S (Z.to_nat (it_fileSize it)))) old path it 0 0 0;
          s ← the_segment old;
          mret match r with
               | inl e => inl e
               | inr (walked, liveEntries, liveBytes) =>
                   let entries := sg_numEntries s in
                   let dataBytes := sg_dataBytes s in
                   if (entries <=? 0) || (dataBytes <=? 0) then inr (0, 0)
                   else if negb (walked =? entries)
                   then inl (EText ("segment " +:+ path +:+ " walk saw " +:+ fmt_int 1 walked +:+ " entries, footer says "
                          +:+ fmt_int 1 entries +:+ " — file truncated or damaged"))
                   else inr (Z.max 0 (i64 (entries - liveEntries)), Z.max 0 (i64 (dataBytes - liveBytes)))
               end
      end
  end.

(** ** A pass *)

(** When a segment was derived and the hint seen then; the recompactor keeps one per
    path. *)
Record walkRecord := MkWalk { wr_at : Z; wr_hint : Z }.

(** The configuration; [below dead size] is the comparison of the fragmentation, a
    quotient of floats, with the threshold. *)
Context (minSegmentAge minSegments walkInterval : Z) (below : Z -> Z -> bool).

Definition isSegmentEligibleForRecompaction (l : nat) (openSegments : list nat) : M bool :=
  s ← the_segment l;
  if bool_decide (l ∈ openSegments) then mret false
  else if bool_decide (is_Some (sg_file s)) then mret false
  else match scan_timestamp (filepath_Base (sg_path s)) with
       | None => mret false
       | Some timestamp => now ← time_Now env; mret (minSegmentAge <? sat64 (now - timestamp))
       end.

Definition getDeleteIndexStats (segmentPath : bytes) : M (error + Z * Z) :=
  r ← Get_ (MakeDeleteIndexKey segmentPath);
  mret match r with
       | inl e => inl e
       | inr None => inr (0, 0)
       | inr (Some v) =>
           if decide (v = EmptyString) then inr (0, 0)
           else match proto_Unmarshal_DI v with
                | None => inl (EText "proto: cannot parse")
                | Some entry => inr (DeletedEntries entry, DeletedBytes entry)
                end
       end.

Record candidate := MkCandidate { cd_seg : nat; cd_hint : Z; cd_lastWalked : option Z }.

(** Derived within the interval and nothing credited since. *)
Definition recently_walked (now hint : Z) (r : option walkRecord) : bool :=
  match r with Some r => (sat64 (now - wr_at r) <? walkInterval) && (hint <=? wr_hint r) | None => false end.

Fixpoint select_candidates (now : Z) (openSegments segments : list nat) (walkStates : gmap bytes walkRecord) : M (list candidate) :=
  match segments with
  | [] => mret []
  | l :: segments =>
      eligible ← isSegmentEligibleForRecompaction l openSegments;
      if negb eligible then select_candidates now openSegments segments walkStates
      else
        s ← the_segment l;
        r ← getDeleteIndexStats (sg_path s);
        let hint := match r with inr (_, b) => b | inl _ => 0 end in
        let rec := walkStates !! sg_path s in
        cs ← select_candidates now openSegments segments walkStates;
        mret (if recently_walked now hint rec then cs else MkCandidate l hint (wr_at <$> rec) :: cs)
  end.

(** More credited bytes first, then the longest unwalked; never walked is the zero time. *)
Definition before (a b : candidate) : Prop :=
  cd_hint b < cd_hint a \/ cd_hint a = cd_hint b /\
    match cd_lastWalked a, cd_lastWalked b with None, _ => True | Some x, Some y => x <= y | Some _, None => False end.
#[local] Instance before_dec : RelDecision before.
Proof. intros a b. unfold before. destruct (cd_lastWalked a), (cd_lastWalked b); solve_decision. Defined.
Definition sort_candidates (cs : list candidate) : list candidate := merge_sort before cs.

(** One candidate; [None] is a panic. *)
Definition process_candidate (c : candidate) (walkStates : gmap bytes walkRecord) : M (option (gmap bytes walkRecord)) :=
  s ← the_segment (cd_seg c);
  let path := sg_path s in
  r ← walkSegmentLiveness (cd_seg c);
  now ← time_Now env;
  let walkStates := <[path := MkWalk now (cd_hint c)]> walkStates in
  match r with
  | inl _ => mret (Some walkStates)
  | inr (_, deadBytes) =>
      s ← the_segment (cd_seg c);
      if (deadBytes <=? 0) || (sg_size s <=? 0) || below deadBytes (sg_size s) then mret (Some walkStates)
      else
        r ← recompactSegment (cd_seg c);
        mret match r with Panicked => None | Returned _ => Some (delete path walkStates) end
  end.

Fixpoint process_candidates (cs : list candidate) (walkStates : gmap bytes walkRecord)
    : M (outcome (option error * gmap bytes walkRecord)) :=
  match cs with
  | [] => mret (Returned (None, walkStates))
  | c :: cs =>
      e ← ctx_Err cancelled;
      match e with
      | Some e => mret (Returned (Some e, walkStates))
      | None =>
          r ← process_candidate c walkStates;
          match r with
          | None => mret Panicked
          | Some walkStates => process_candidates cs walkStates
          end
      end
  end.

Definition pruneWalkStates (walkStates : gmap bytes walkRecord) : M (gmap bytes walkRecord) := fun w =>
  let known := (fun l => sg_path (seg_at l (w_sm w))) <$> sw_segments (w_sm w) in
  (filter (fun x => x.1 ∈ known) walkStates, w).

Definition RecompactFragmentedSegments (walkStates : gmap bytes walkRecord) : M (outcome (option error * gmap bytes walkRecord)) :=
  segments ← on_sm GetSegments;
  if decide (segments = []) then mret (Returned (None, walkStates))
  else if Z.of_nat (length segments) <? minSegments then mret (Returned (None, walkStates))
  else
    openSegments ← on_sm (w ← st_get; mret (sw_openSegments w));
    now ← time_Now env;
    cs ← select_candidates now openSegments segments walkStates;
    r ← process_candidates (sort_candidates cs) walkStates;
    match r with
    | Returned (None, walkStates) => walkStates ← pruneWalkStates walkStates; mret (Returned (None, walkStates))
    | _ => mret r
    end.

End Recompactor.
