(* ===== verification/RecompactionInv.v ===== *)
(** * What a rewrite of a segment leaves alone

    The closed segments a pass reads keep their bytes while others are written, and the
    iterator visits every entry of a well-formed file. *)

From S2P Require Import Prelude Keys Errors Message Merge Rocks World Files Wp StorageProps SegmentFormat Segments SegmentProps SegmentStoreProps SegmentRecovery SegmentInv Compaction Recompaction.

Open Scope Z_scope.

#[local] Arguments crc32 : simpl never.
#[local] Arguments BuildValueHeader : simpl never.
#[local] Arguments BuildSegmentFooterWithVersion : simpl never.

Lemma wp_both {W A} (c : ST W A) (P Q : A -> W -> Prop) w : wp c P w -> wp c Q w -> wp c (fun a w' => P a w' /\ Q a w') w.
Proof. unfold wp. done. Qed.

(** The operands by which the compactor and the recompactor move a live row are those
    [merge_preserves_row_wf] is about. *)
Lemma migration_operands_wf path offset vm : row_wf vm -> Expiry vm <> tombstoneExpiry -> path <> EmptyString ->
  operand_wf (with_segment path offset vm) /\ (ValueType vm = SEGMENT -> operand_wf (moved_to path offset vm)).
Proof. intros [Ho _ _ _ _] He Hp. split; [|intros Ht]; right; right; right; cbn; by rewrite ?Ho. Qed.

Section Closed.

Context (env : Env) (sf : SegFaults) (segmentsPath : bytes) (segmentSize : Z).
Implicit Types w : SegWorld.
Implicit Types F : nat -> bytes.

(** The closed segment [l] under [path] whose file holds [c]. *)
Record closed_at w (l : nat) (path c : bytes) : Prop := {
  ca_map : sw_segMap w !! path = Some l;
  ca_path : sg_path (seg_at l w) = path;
  ca_file : sg_file (seg_at l w) = None;
  ca_disk : sw_disk w !! path = Some c
}.

Lemma closed_tick w l path c t : closed_at w l path c -> closed_at (sw_settick t w) l path c.
Proof. intros []. by split. Qed.

(** Another segment is worked on. *)
Lemma wp_closed_other {A} l' (op : ST SegIO A) w l path c :
  closed_at w l path c -> sg_path (seg_at l' w) <> path -> wp (on_segment l' op) (fun _ w' => closed_at w' l path c) w.
Proof.
  intros [Hm Hp Hf Hd] Hne. apply wp_on_segment. unfold wp. assert (l <> l') as Hl by (intros ->; done). split; cbn; try done.
  - unfold seg_at. cbn. by rewrite lookup_insert_ne.
  - unfold seg_at. cbn. by rewrite lookup_insert_ne.
  - by rewrite lookup_insert_ne.
Qed.

(** The segment itself is read. *)
Lemma wp_closed_read {A} (op : ST SegIO A) w l path c :
  closed_at w l path c -> (forall io, wp op (fun _ => still io) io) -> wp (on_segment l op) (fun _ w' => closed_at w' l path c) w.
Proof.
  intros [Hm Hp Hf Hd] Hop. apply wp_on_segment. eapply wp_mono; [apply Hop|]. intros a io (E1 & E2 & _). cbn in E1, E2.
  split; cbn; try done; [unfold seg_at; cbn; by rewrite lookup_insert_eq, E1..|]. by rewrite Hp, lookup_insert_eq, E2, Hp, Hd.
Qed.

Lemma wp_closed_release callerID l' w l path c : closed_at w l path c -> wp (release_one callerID l') (fun _ w' => closed_at w' l path c) w.
Proof.
  intros [Hm Hp Hf Hd]. apply wp_fun. cbn. assert (forall s, sg_path (Release callerID s).2 = sg_path s /\ sg_file (Release callerID s).2 = sg_file s) as Hr.
  { intros s. unfold Release. destruct (decide _); [done|]. cbn. by destruct (decide _). }
  destruct (decide (l' = l)) as [->|Hne]; split; cbn; try done; unfold seg_at in *; cbn.
  - rewrite lookup_insert_eq. cbn. by rewrite (proj1 (Hr _)).
  - rewrite lookup_insert_eq. cbn. by rewrite (proj2 (Hr _)).
  - by rewrite lookup_insert_ne.
  - by rewrite lookup_insert_ne.
Qed.

Lemma wp_closed_Finalize l' w l path c :
  closed_at w l path c -> sg_path (seg_at l' w) <> path -> wp (FinalizeSegment env sf l') (fun _ w' => closed_at w' l path c) w.
Proof.
  intros Hc Hne. unfold FinalizeSegment. apply wp_bind. eapply wp_mono; [by apply wp_closed_other|].
  intros [e|] w' Hc'; [by apply wp_ret|]. apply wp_bind, wp_fun, wp_ret. destruct Hc'. by split.
Qed.

(** An acquired segment is another one. *)
Lemma wp_closed_Acquire caller needed w F l path c :
  store_ok env segmentsPath w F -> closed_at w l path c ->
  wp (AcquireOpenSegmentWithReservation env segmentsPath segmentSize caller needed)
    (fun r w' => closed_at w' l path c /\ forall l', r = inr l' -> sg_path (seg_at l' w') <> path) w.
Proof.
  intros Hs [Hm Hp Hf Hd]. unfold AcquireOpenSegmentWithReservation. destruct (decide _); [by apply wp_ret|].
  apply wp_bind, wp_fun. cbn [fst snd st_get]. apply wp_bind, wp_find_open.
  - intros t Ht. unfold createNewSegmentWithReservationLocked. apply wp_bind, wp_fun. cbn [fst snd sw_Now sw_tick sw_settick].
    fold (seg_path env segmentsPath t). pose proof (so_fresh _ _ _ _ Hs t Ht) as Hno.
    assert (seg_path env segmentsPath t <> path) as Hne by congruence.
    apply wp_bind, wp_fun. cbn [fst snd sw_syscall sw_tick sw_settick]. destruct (env_fault _ _); [by apply wp_ret|].
    apply wp_bind, wp_fun. cbn [fst snd st_modify]. apply wp_bind, wp_fun. cbn [fst snd sw_syscall sw_tick sw_settick sw_setdisk sw_disk].
    destruct (env_fault _ _); [apply wp_ret; split; [|done]; split; try done; cbn; by rewrite lookup_insert_ne|].
    apply wp_bind, wp_fun. cbn [fst snd st_modify]. apply wp_bind, wp_fun. cbn [fst snd add_segment]. apply wp_bind, wp_fun.
    cbn [fst snd st_modify]. apply wp_ret. destruct (so_map _ _ _ _ Hs _ _ Hm) as (_ & Hl & _). split.
    + split; cbn; unfold seg_at; cbn; rewrite ?lookup_insert_ne by (done || lia); done.
    + intros l' [= <-]. unfold seg_at. cbn. by rewrite lookup_insert_eq.
  - intros l' s t Hin Hr _ Ht. apply Reserve_inv in Hr as (_ & Hopen & _ & ->). apply wp_ret.
    pose proof (so_open _ _ _ _ Hs l' Hin) as Hl'. destruct (so_live _ _ _ _ Hs l' Hl' Hopen) as [Hm' _].
    assert (l' <> l) as Hne by (intros ->; by rewrite Hf in Hopen; destruct Hopen).
    assert (sg_path (seg_at l' w) <> path) as Hpath by (intros E; rewrite E in Hm'; congruence). split.
    + split; cbn; unfold seg_at in *; cbn; rewrite ?lookup_insert_ne by done; done.
    + intros l'' [= <-]. unfold seg_at. cbn. rewrite lookup_insert_eq. exact Hpath.
Qed.

(** ** Removal *)

Lemma store_ok_remove w F l path c :
  store_ok env segmentsPath w F -> closed_at w l path c -> store_ok env segmentsPath (RemoveSegment path w).2 F.
Proof.
  intros [Hsm Hsl Hso Hsf] [Hm Hp Hf Hd]. split.
  - intros path' l' Hm'. cbn in Hm'. apply lookup_delete_Some in Hm' as [Hne Hm']. destruct (Hsm _ _ Hm') as ((H1 & H2) & H3).
    split; [|done]. split; [|done]. cbn. by rewrite lookup_delete_ne.
  - intros l' Hl' Hopen. change (seg_at l' (RemoveSegment path w).2) with (seg_at l' w) in *. destruct (Hsl l' Hl' Hopen) as [H1 H2].
    split; [|done]. cbn. rewrite lookup_delete_ne; [done|]. intros E. rewrite <- E in H1. rewrite Hm in H1. injection H1 as <-.
    rewrite Hf in Hopen. by destruct Hopen.
  - intros l' Hl'. cbn in *. by apply Hso, (swap_remove_sub _ _ _ Hl').
  - intros n Hn. cbn in *. apply lookup_delete_None. right. by apply Hsf.
Qed.

Lemma closed_remove w l path c path' :
  closed_at w l path c -> path <> path' -> closed_at (RemoveSegment path' w).2 l path c.
Proof. intros [] Hne. split; try done. cbn. by rewrite lookup_delete_ne. Qed.

Lemma located_remove w F path path' off key data :
  located w F path off key data -> path <> path' -> located (RemoveSegment path' w).2 F path off key data.
Proof. intros (l & pre & post & sum & Hm & H) Hne. exists l, pre, post, sum. split; [|done]. cbn. by rewrite lookup_delete_ne. Qed.

(** ** Reading *)

Lemma Next_still it io : wp (Next env it) (fun _ => still io) io.
Proof.
  unfold Next, read_header, file_ReadAt. destruct (_ <=? _); [by apply wp_ret|].
  apply wp_bind, wp_bind, wp_fun. cbn [fst snd io_syscall]. apply wp_bind, wp_fun. cbn [fst snd the_seg].
  destruct (env_fault _ _); [apply wp_ret, wp_ret; split_and!; cbn; (done || lia)|]. apply wp_fun. cbn [fst snd io_content].
  destruct (ReadValueHeaderAt _ _) as [|[[[[valLen headerSize] keyLen] version] checksum]]; [apply wp_ret; split_and!; cbn; (done || lia)|].
  apply wp_bind, wp_bind, wp_fun. cbn [fst snd io_syscall]. apply wp_bind, wp_fun. cbn [fst snd the_seg].
  destruct (env_fault _ _); [apply wp_ret, wp_ret; split_and!; cbn; (done || lia)|]. apply wp_fun. cbn [fst snd io_content io_tick io_seg].
  case_match; apply wp_ret; split_and!; cbn; (done || lia).
Qed.

Lemma NewIterator_still io : wp (NewIterator env) (fun _ => still io) io.
Proof.
  unfold NewIterator, file_Size. apply wp_bind, wp_bind, wp_fun. cbn [fst snd io_syscall]. apply wp_bind, wp_fun. cbn [fst snd the_seg].
  destruct (env_fault _ _); [apply wp_ret, wp_ret|apply wp_fun; cbn [fst snd]; apply wp_ret]; split_and!; cbn; (done || lia).
Qed.

(** A well-formed closed file: its entries and a footer. *)
Record formed (c : bytes) (es : list entry) : Prop := {
  fm_content : exists footer, c = encode_all es +:+ footer /\ slen footer = SegmentFooterSize;
  fm_entries : Forall entry_ok es;
  fm_small : slen c < two60
}.

Definition entry_info (pos : Z) (e : entry) : EntryInfo :=
  MkEntry (e_key e) pos (CalculateValueHeaderSize (e_key e)) (slen (e_value e)) (e_sum e) CurrentValueHeaderVersion.

Lemma slen_encode_pos e : 0 < slen (encode e).
Proof. rewrite slen_encode. unfold CalculateValueHeaderSize, ValueHeaderSize. pose proof (slen_nonneg (e_key e)). pose proof (slen_nonneg (e_value e)). lia. Qed.

(** The iterator at an entry: the entry, or a failure that is not the end of the file. *)
Lemma wp_Next_entry c es1 e es2 err (Q : (error + EntryInfo) * Iterator -> SegIO -> Prop) io :
  formed c (es1 ++ e :: es2) -> io_content io = c ->
  (forall x it' io', is_EOF x = false -> Q (inl x, it') io') ->
  (forall io', Q (inr (entry_info (slen (encode_all es1)) e), MkIter (slen (encode_all (es1 ++ [e]))) (slen c) err) io') ->
  wp (Next env (MkIter (slen (encode_all es1)) (slen c) err)) Q io.
Proof.
  intros [(footer & Ec & Hfoot) Hes Hsmall] Hio H1 H2. rewrite encode_all_app in Ec. cbn [encode_all] in Ec. rewrite !sapp_assoc in Ec.
  apply Forall_app in Hes as [_ [He _]%Forall_cons_1].
  destruct (entry_header c es1 e _ He Ec) as [Hok Ha]. pose proof (slen_nonneg (encode_all es1)) as Hpos.
  pose proof (header_at_read _ _ _ _ _ Hpos Hok Ha) as Hread. pose proof (header_at_key _ _ _ _ _ Hpos Ha) as Hkey.
  assert (slen c = slen (encode_all es1) + slen (encode e) + slen (encode_all es2) + SegmentFooterSize) as Hlen by (rewrite Ec, !slen_app; lia).
  pose proof (slen_encode_pos e) as Hepos. pose proof (slen_nonneg (encode_all es2)). pose proof (slen_encode e) as Hel.
  unfold Next. cbn [it_currentPos it_fileSize it_lastError]. destruct (Z.leb_spec (slen c - SegmentFooterSize) (slen (encode_all es1))); [lia|].
  apply wp_bind. unfold read_header. apply wp_bind, wp_fun. cbn [fst snd io_syscall]. apply wp_bind, wp_fun. cbn [fst snd the_seg].
  destruct (env_fault _ _); [by apply wp_ret, wp_ret, H1|]. apply wp_fun. cbn [fst snd io_content]. rewrite Hio, Hread.
  apply wp_bind. unfold file_ReadAt. apply wp_bind, wp_fun. cbn [fst snd io_syscall]. apply wp_bind, wp_fun. cbn [fst snd the_seg].
  destruct (env_fault _ _); [by apply wp_ret, wp_ret, H1|]. apply wp_fun. cbn [fst snd io_content]. rewrite ?Hio.
  unfold CalculateValueHeaderSize, ValueHeaderSize in *. destruct (ok_key _ He) as [Hk _]. pose proof (slen_nonneg (e_value e)).
  rewrite (i64_small (slen (encode_all es1) + 18)) by (unfold is_i64, two63, two60, SegmentFooterSize in *; lia).
  destruct (Z.ltb_spec (slen (encode_all es1) + 18) 0); [lia|].
  replace (Z.to_nat (slen (encode_all es1) + 18)) with (Z.to_nat (slen (encode_all es1)) + 18)%nat by lia. rewrite slen_nat, Hkey.
  rewrite Z.ltb_irrefl. apply wp_ret.
  rewrite (i64_small (18 + slen (e_key e) + slen (e_value e))), (i64_small (_ + (18 + slen (e_key e) + slen (e_value e))))
    by (unfold is_i64, two63, two60, SegmentFooterSize in *; lia).
  rewrite <- Hel, <- slen_app. replace (encode_all es1 +:+ encode e) with (encode_all (es1 ++ [e])); [apply H2|].
  rewrite encode_all_app. cbn [encode_all]. by rewrite sapp_nil_r.
Qed.

(** At the end the iterator says so. *)
Lemma wp_Next_end c es err (Q : (error + EntryInfo) * Iterator -> SegIO -> Prop) io :
  formed c es -> Q (inl EOF, MkIter (slen (encode_all es)) (slen c) err) io -> wp (Next env (MkIter (slen (encode_all es)) (slen c) err)) Q io.
Proof.
  intros [(footer & Ec & Hfoot) _ _] HQ. unfold Next. cbn [it_currentPos it_fileSize].
  destruct (Z.leb_spec (slen c - SegmentFooterSize) (slen (encode_all es))) as [|Hlt]; [by apply wp_ret|]. rewrite Ec, slen_app in Hlt. lia.
Qed.

(** The value a location in a well-formed file names is the entry's there. *)
Lemma entry_value w F l path c es1 e es2 data :
  store_ok env segmentsPath w F -> closed_at w l path c -> formed c (es1 ++ e :: es2) ->
  located w F path (slen (encode_all es1)) (e_key e) data -> slen data = slen (e_value e) -> data = e_value e.
Proof.
  intros Hs [Hm _ _ Hd] [(footer & Ec & _) _ _] (l' & pre & post & sum & Hm' & HF & Hoff) Hlen. assert (l' = l) as -> by congruence.
  destruct (so_map _ _ _ _ Hs _ _ Hm) as ((_ & _ & (c' & Hd' & Hc') & _) & _). assert (c' = c) as -> by congruence.
  rewrite encode_all_app in Ec. cbn [encode_all] in Ec. rewrite !sapp_assoc in Ec.
  assert (c = pre +:+ encode (MkE (e_key e) data sum) +:+ post +:+ sdrop (String.length (F l)) c) as Ec'.
  { rewrite <- (stake_sdrop (String.length (F l)) c) at 1. rewrite Hc', HF at 1. by rewrite !sapp_assoc. }
  rewrite Ec in Ec' at 1. apply sapp_inj_l in Ec' as [_ E]; [|unfold slen in Hoff; lia]. unfold encode in E. cbn [e_key e_value e_sum] in E.
  rewrite !sapp_assoc in E. apply sapp_inj_l in E as [_ E].
  - apply sapp_inj_l in E as [E _]; [done|]. unfold slen in Hlen. lia.
  - pose proof (header_length (e_key e) (slen (e_value e)) (e_sum e) CurrentValueHeaderVersion) as H1.
    pose proof (header_length (e_key e) (slen data) sum CurrentValueHeaderVersion) as H2. unfold slen in *. lia.
Qed.

End Closed.
