(* ===== verification/RecompactionProps.v ===== *)
(** * Recompaction loses nothing

    A rewrite of a closed segment, whatever fails in it and whenever it is cancelled,
    keeps the value and the metadata of every key: it drops the segment only after every
    row that named one of its entries names a copy. *)

From S2P Require Import Prelude Keys Errors Message Merge Wire Rocks World Files RangeReader Storage Wp Safety StorageSpec StorageProps Cas CasSpec SegmentFormat Segments SegmentProps SegmentStoreProps SegmentRecovery SegmentInv Compaction CompactionInv CompactionProps Recompaction RecompactionInv.

Open Scope Z_scope.

#[local] Arguments crc32 : simpl never.
#[local] Arguments has_prefix : simpl never.
#[local] Arguments apply_batch : simpl never.
#[local] Arguments MakeMetadataKey : simpl never.

Section Moves.

Context {PB : Protobuf} {PL : ProtobufLaws} (init_ok : proto_Marshal (tombstone 0) = Some expiredSentinel) (senv : Env) (segmentsPath : bytes).
(** The closed segment that is rewritten: its object, its path and its entries. *)
Context (old : nat) (path : bytes) (es : list entry).
Implicit Types m : gmap bytes bytes.

(** A row that names the segment. *)
Definition in_segment m (key : bytes) (vm : ValueMessage) : Prop :=
  row_at m key vm /\ ValueType vm = SEGMENT /\ SegmentPath vm = path.

(** A staged move of [key] out of the segment. *)
Record move (sw : SegWorld) F m (key : bytes) (op : ValueMessage) : Prop := {
  mv_op : OpType op = 0;
  mv_type : ValueType op = SEGMENT;
  mv_from : RawFilePath op = path;
  mv_to : SegmentPath op <> path;
  mv_row vm : in_segment m key vm ->
    Expiry op = Expiry vm /\ ValueLength op = ValueLength vm /\ Checksum op = Checksum vm /\
    exists es1 e es2, es = es1 ++ e :: es2 /\ SegmentOffset vm = slen (encode_all es1) /\ e_key e = key /\
      ValueLength vm = slen (e_value e) /\ located sw F (SegmentPath op) (SegmentOffset op) key (e_value e)
}.

Definition move_ok (sw : SegWorld) F m (b : batch_op) : Prop :=
  exists key o op, b = BMerge (MakeMetadataKey key) o /\ proto_Unmarshal o = Some op /\ m !! MakeMetadataKey key <> None /\ move sw F m key op.

(** Fewer rows name the segment. *)
Definition leaving m m' : Prop := forall key vm, in_segment m' key vm -> in_segment m key vm.

Lemma move_ok_later sw F sw' F' m m' b :
  store_ok senv segmentsPath sw F -> grows sw F sw' F' -> shrinks m m' -> leaving m m' -> move_ok sw F m b -> move_ok sw' F' m' b.
Proof.
  intros Hs Hg [_ Hhere] Hlv (key & o & op & -> & Eo & Hk & [H1 H2 H3 H4 H5]). exists key, o, op. split_and!; try done; [by apply Hhere|].
  split; try done. intros vm Hin. apply Hlv in Hin. destruct (H5 vm Hin) as (E1 & E2 & E3 & es1 & e & es2 & Ees & E4 & E5 & E6 & E7). split_and!; try done.
  exists es1, e, es2. split_and!; try done. by eapply located_grows.
Qed.

(** What a move makes of a row. *)
Lemma move_result sw F m key vm op :
  path <> EmptyString -> move sw F m key op -> row_at m key vm -> (ValueType vm = RAW_FILE -> RawFilePath vm <> path) ->
  (~ in_segment m key vm /\ apply_operand (Some vm) op = Some vm) \/ (in_segment m key vm /\ apply_operand (Some vm) op = Some (migrate vm op)).
Proof.
  intros Hne [H1 H2 H3 H4 _] Hr Hraw. unfold apply_operand, in_segment. rewrite H1, H2, H3. cbn [Z.eqb]. change (SEGMENT =? RAW_FILE) with false. cbn [andb].
  rewrite (bool_decide_false (path = EmptyString)) by done. cbn.
  destruct (Z.eqb_spec (ValueType vm) RAW_FILE) as [Et|Et].
  - rewrite (bool_decide_false (RawFilePath vm = path)) by auto. rewrite Et. cbn. left. split; [|done]. by intros (_ & E & _).
  - cbn. destruct (Z.eqb_spec (ValueType vm) SEGMENT) as [Es|Es]; cbn; [|left; split; [|done]; naive_solver].
    destruct (bool_decide (SegmentPath vm = path)) eqn:Ep; bool_facts; cbn; [right|left]; (split; [|done]); naive_solver.
Qed.

Definition no_raw m : Prop := forall key vm, row_at m key vm -> ValueType vm = RAW_FILE -> RawFilePath vm <> path.

(** One move. *)
Lemma move_step sw F disk m b c :
  path <> EmptyString -> store_ok senv segmentsPath sw F -> closed_at sw old path c -> formed c es -> rows_ok m -> no_raw m -> move_ok sw F m b ->
  let m' := apply_op m b in
  op_regular m b /\ shrinks m m' /\ rows_ok m' /\ keeps disk m sw F m' sw F /\ same_rest m m' /\ leaving m m'
  /\ (forall key o, b = BMerge (MakeMetadataKey key) o -> forall vm, ~ in_segment m' key vm).
Proof using PL init_ok.
  intros Hne Hs Hcl Hfm Hrows Hraw (key & o & op & -> & Eo & Hk & Hmv) m'. destruct (m !! MakeMetadataKey key) as [v|] eqn:Ev; [clear Hk|done].
  pose proof (mv_op _ _ _ _ _ Hmv) as Hop0. destruct (proto_Unmarshal v) as [vm|] eqn:Eu.
  2: { destruct (merge_undecoded m key v o Ev Eu) as [E Hreg]; [intros (op' & E1 & E2 & _); rewrite Eo in E1; simplify_eq; by rewrite Hop0 in E2|].
       subst m'. rewrite E. split_and!; [done|apply shrinks_refl|done|eapply keeps_grows; [exact Hs|apply grows_refl|done]|by intros ???|by intros ??|].
       intros key' o' Eop vm [(v' & Ev' & Eu') _]. apply merge_op_inj in Eop as [-> ->]. congruence. }
  assert (row_at m key vm) as Hr by (by exists v). destruct (Hrows key v vm Ev Eu) as [Hop Hcan].
  assert (exists vm', apply_operand (Some vm) op = Some vm' /\ (vm <> vm_zero -> vm' <> vm_zero) /\ OpType vm' = 0 /\ (ValueType vm' = RAW_FILE -> vm' = vm)
    /\ (ValueType vm' = SEGMENT -> SegmentPath vm' <> path)
    /\ forall data, value_at sw F disk key vm data -> value_at sw F disk key vm' data /\ same_meta vm vm')
    as (vm1 & Ha & Hz1 & Hop1 & Hsame1 & Hgone1 & Hval1).
  { destruct (move_result sw F m key vm op Hne Hmv Hr (Hraw key vm Hr)) as [[Hno Ha]|[Hin Ha]].
    - exists vm. split_and!; try done. intros Et Ep. apply Hno. by split_and!.
    - exists (migrate vm op). destruct Hmv as [H1 H2 H3 H4 H5]. destruct (H5 vm Hin) as (E1 & E2 & E3 & es1 & e & es2 & Ees & E4 & E5 & E6 & Hloc). cbn. rewrite H2.
      split_and!; try done; [intros _ E; apply (f_equal ValueType) in E; cbn in E; by rewrite H2 in E|]. intros data Hv.
      destruct Hin as (_ & Ht & Hp). destruct Hv as [[Hi _]|[[Hi _]|(_ & Hold & Hlen)]]; [by rewrite Ht in Hi..|].
      split; [|by unfold same_meta; cbn; split_and!]. rewrite Hp, E4, <- E5 in Hold.
      assert (data = e_value e) as -> by (eapply entry_value; [exact Hs|exact Hcl|by rewrite <- Ees|exact Hold|congruence]).
      right. right. cbn. split_and!; [done|done|congruence]. }
  destruct (merge_on_row init_ok m key v vm o op vm1 Ev Eu Hcan Eo Hop0 Ha Hz1) as (Hz' & v' & Em & Eu' & Hreg). subst m'. rewrite Em.
  set (vm' := if decide (vm = vm_zero) then tombstone 0 else vm1) in *.
  assert (OpType vm' = 0 /\ (ValueType vm' = RAW_FILE -> vm' = vm) /\ (ValueType vm' = SEGMENT -> SegmentPath vm' <> path))
    as (Hop' & Hsame & Hgone) by (unfold vm'; by destruct (decide _)).
  split_and!; [done| | | |apply metadata_rest| |].
  - split.
    + intros k x. rewrite (row_at_put m key v' vm') by done. intros [[-> ->]|[_ ?]] Ht; [|done]. by rewrite (Hsame Ht).
    + intros k Hk. destruct (decide (k = key)) as [->|]; [by rewrite lookup_insert_eq|].
      rewrite lookup_insert_ne; [done|]. by apply not_eq_sym, MakeMetadataKey_ne.
  - by eapply rows_ok_put.
  - intros k x data Hx Hzx Hv. destruct (decide (k = key)) as [->|Hkne].
    + rewrite (row_at_fun _ _ _ _ Hx Hr) in *. exists vm'. assert (vm' = vm1) as E by (unfold vm'; by destruct (decide _)).
      rewrite E in *. destruct (Hval1 data Hv). split_and!; try done. apply (row_at_put m key v' vm1); auto.
    + exists x. split_and!; try done. apply (row_at_put m key v' vm'); auto.
  - intros k x (Hx & Ht & Hp). apply (row_at_put m key v' vm') in Hx as [[-> ->]|[_ Hx]]; [|by split_and!|done]. by destruct (Hgone Ht).
  - intros key' o' Eop x (Hx & Ht & Hp). apply merge_op_inj in Eop as [<- <-]. apply (row_at_put m key v' vm') in Hx as [[_ ->]|[]]; [|done|done].
    by destruct (Hgone Ht).
Qed.

(** A batch of moves. *)
Record moved (sw : SegWorld) F (disk : gmap bytes bytes) m (ops : list batch_op) m' : Prop := {
  md_shrinks : shrinks m m';
  md_rows : rows_ok m';
  md_keeps : keeps disk m sw F m' sw F;
  md_rest : same_rest m m';
  md_leaving : leaving m m';
  md_gone key o : BMerge (MakeMetadataKey key) o ∈ ops -> forall vm, ~ in_segment m' key vm
}.

Lemma no_raw_later m m' : shrinks m m' -> no_raw m -> no_raw m'.
Proof. intros [Hsh _] Hn key vm Hr Ht. apply (Hn key); [|done]. by apply Hsh. Qed.

Lemma moves_step sw F disk ops m c :
  path <> EmptyString -> store_ok senv segmentsPath sw F -> closed_at sw old path c -> formed c es -> rows_ok m -> no_raw m -> Forall (move_ok sw F m) ops ->
  batch_regular m ops /\ moved sw F disk m ops (apply_batch m ops).
Proof using PL init_ok.
  intros Hne Hs Hcl Hfm. revert m. induction ops as [|b ops IH]; intros m Hrows Hraw Hops.
  { split; [done|]. split; [apply shrinks_refl|done|eapply keeps_grows; [exact Hs|apply grows_refl|done]|by intros ???|by intros ??|intros key o Hin; set_solver]. }
  apply Forall_cons_1 in Hops as [Hop Hops].
  destruct (move_step sw F disk m b c Hne Hs Hcl Hfm Hrows Hraw Hop) as (Hreg & Hsh & Hrows1 & Hk & Hrest & Hlv & Hgone).
  destruct (IH (apply_op m b) Hrows1 (no_raw_later _ _ Hsh Hraw)) as [Hreg2 [C1 C2 C3 C4 C5 C6]].
  { eapply Forall_impl; [exact Hops|]. intros x Hx. eapply move_ok_later; [exact Hs|apply grows_refl|exact Hsh|exact Hlv|done]. }
  change (apply_batch m (b :: ops)) with (apply_batch (apply_op m b) ops). split; [done|]. split; try done.
  - by eapply shrinks_trans.
  - by eapply keeps_trans.
  - intros k v Hk' Hv. apply Hrest; [done|]. by apply C4.
  - intros k vm Hin. by apply Hlv, C5.
  - intros key o [Ho|Ho]%elem_of_cons vm Hin; [|by eapply C6]. by apply (Hgone key o (eq_sym Ho) vm), C5.
Qed.

End Moves.
