(* ===== verification/RecompactionSafe.v ===== *)
(** * Recompaction loses nothing

    A whole rewrite of a closed segment, whatever fails in it and whenever it is
    cancelled: every row keeps its value and its metadata, and the segment leaves the
    manager only after every row that named one of its entries names a copy. *)

From S2P Require Import Prelude Keys Errors Message Merge Wire Rocks World Files RangeReader Storage Wp Safety StorageSpec StorageProps Cas CasSpec SegmentFormat Segments SegmentProps SegmentStoreProps SegmentRecovery SegmentInv Compaction CompactionInv CompactionProps Recompaction RecompactionInv RecompactionProps.

Open Scope Z_scope.

#[local] Arguments crc32 : simpl never.
#[local] Arguments has_prefix : simpl never.
#[local] Arguments apply_batch : simpl never.
#[local] Arguments MakeMetadataKey : simpl never.
#[local] Arguments BuildValueHeader : simpl never.

Section Rewrite.

Context {DB : Type} {PB : Protobuf} {PL : ProtobufLaws} {RDB : RocksDB DB} {RL : RocksLaws DB}.
Context (init_ok : proto_Marshal (tombstone 0) = Some expiredSentinel).
Context (env senv : Env) (cfg : Config) (sf : SegFaults) (segmentsPath : bytes) (segmentSize : Z).
Context (cancelled : nat -> bool) (limited : bool) (partial : nat -> nat).
(** The segment that is rewritten. *)
Context (old : nat) (path c : bytes) (es : list entry).
Implicit Types w : World DB SegWorld.
Implicit Types m : gmap bytes bytes.
Implicit Types F : nat -> bytes.

Notation base := (base env senv cfg segmentsPath).
Notation adv := (adv (DB := DB)).
Notation closed w := (closed_at (w_sm w) old path c).

(** Every row that names the segment names one of its entries. *)
Definition aligned m : Prop := forall key vm, in_segment path m key vm ->
  exists es1 e es2, es = es1 ++ e :: es2 /\ SegmentOffset vm = slen (encode_all es1) /\ e_key e = key /\ ValueLength vm = slen (e_value e).

(** A segment that may be written: another one. *)
Definition other (sw : SegWorld) (l : nat) : Prop := (l < sw_next sw)%nat /\ sg_path (seg_at l sw) <> path.

Lemma other_grows sw F sw' F' l : grows sw F sw' F' -> other sw l -> other sw' l.
Proof. intros G [H1 H2]. split; [pose proof (g_next _ _ _ _ G); lia|]. by rewrite (g_path _ _ _ _ G). Qed.

(** ** One operation on the segments *)

Lemma wp_re_sm {A} (op : ST SegWorld A) (P : A -> SegWorld -> (nat -> bytes) -> Prop) (P' : A -> SegWorld -> Prop) (Q : A -> World DB SegWorld -> Prop) w m F :
  base w m F ->
  (forall R : A -> SegWorld -> Prop, (forall a sm F', store_ok senv segmentsPath sm F' -> grows (w_sm w) F sm F' -> P a sm F' -> R a sm) -> wp op R (w_sm w)) ->
  wp op P' (w_sm w) ->
  (forall a w' F', base w' m F' -> adv w m F w' m F' -> P a (w_sm w') F' -> P' a (w_sm w') -> Q a w') -> wp (on_sm op) Q w.
Proof.
  intros Hb H1 H2 HQ. apply (wp_sm env senv cfg segmentsPath _ _ w m F Hb).
  eapply wp_mono; [apply wp_both; [apply (H1 (fun a sm => exists F', store_ok senv segmentsPath sm F' /\ grows (w_sm w) F sm F' /\ P a sm F')); eauto|exact H2]|].
  intros a sm [(F' & H3 & H4 & H5) H6]. exists F'. split_and!; [done..|]. intros Hb' Ha'. by apply (HQ a _ F').
Qed.

Context (Hseg : seg_env_ok senv sf segmentsPath).

Definition anything {A} (_ : A) (_ : SegWorld) (_ : nat -> bytes) : Prop := True.

Lemma wp_re_Acquire caller (Q : error + nat -> World DB SegWorld -> Prop) w m F :
  base w m F -> closed w ->
  (forall e w' F', base w' m F' -> adv w m F w' m F' -> closed w' -> Q (inl e) w') ->
  (forall l w' F', base w' m F' -> adv w m F w' m F' -> closed w' -> other (w_sm w') l -> Q (inr l) w') ->
  wp (on_sm (AcquireOpenSegmentWithReservation senv segmentsPath segmentSize caller 0)) Q w.
Proof using Hseg.
  intros Hb Hc H1 H2. eapply (wp_re_sm _ (fun a sm _ => forall l, a = inr l -> (l < sw_next sm)%nat)); [exact Hb| |by eapply wp_closed_Acquire; [apply Hb|]|].
  - intros R HR. eapply (wp_store_Acquire _ _ _ _ Hseg); [apply Hb|..].
    + intros e sm F' Hs Hg. by apply (HR _ _ F').
    + intros l sm F' Hs Hg Hl. apply (HR _ _ F'); [done..|]. by intros l' [= <-].
  - intros [e|l] w' F' Hb' Ha' Hl [Hc' Hp]; [by eapply H1|]. eapply H2; [done..|]. split; [by apply Hl|by apply Hp].
Qed.

Lemma wp_re_release caller l (Q : () -> World DB SegWorld -> Prop) w m F :
  base w m F -> closed w -> (forall w' F', base w' m F' -> adv w m F w' m F' -> closed w' -> Q () w') -> wp (on_sm (release_one caller l)) Q w.
Proof.
  intros Hb Hc HQ. eapply (wp_re_sm _ anything); [exact Hb| |by apply wp_closed_release|].
  - intros R HR. eapply wp_store_release; [apply Hb|]. intros sm Hs Hg. by apply (HR _ _ F).
  - intros [] w' F' Hb' Ha' _ Hc'. by eapply HQ.
Qed.

Lemma wp_re_Finalize l (Q : option error -> World DB SegWorld -> Prop) w m F :
  base w m F -> closed w -> other (w_sm w) l -> (forall r w' F', base w' m F' -> adv w m F w' m F' -> closed w' -> Q r w') ->
  wp (on_sm (FinalizeSegment senv sf l)) Q w.
Proof using Hseg.
  intros Hb Hc [Hl Hp] HQ. eapply (wp_re_sm _ anything); [exact Hb| |by apply wp_closed_Finalize|].
  - intros R HR. eapply (wp_store_Finalize _ _ _ Hseg); [apply Hb|done|]. intros r sm F' Hs Hg. by apply (HR _ _ F').
  - intros r w' F' Hb' Ha' _ Hc'. by eapply HQ.
Qed.

Lemma wp_re_Sync l (Q : option error -> World DB SegWorld -> Prop) w m F :
  base w m F -> closed w -> other (w_sm w) l -> (forall r w' F', base w' m F' -> adv w m F w' m F' -> closed w' -> Q r w') ->
  wp (on_sm (on_segment l (Sync senv))) Q w.
Proof.
  intros Hb Hc [Hl Hp] HQ. eapply (wp_re_sm _ anything); [exact Hb| |by apply wp_closed_other|].
  - intros R HR. eapply store_still; [apply Hb|done|apply wp_Sync|]. intros r sm F' _ Hs Hg. by apply (HR _ _ F').
  - intros r w' F' Hb' Ha' _ Hc'. by eapply HQ.
Qed.

(** Reading the old segment. *)
Lemma wp_re_read {A} (op : ST SegIO A) (P : A -> Prop) (Q : A -> World DB SegWorld -> Prop) w m F :
  base w m F -> closed w -> (forall io, wp op (fun _ => still io) io) -> (forall io, io_content io = c -> wp op (fun a _ => P a) io) ->
  (forall a w' F', base w' m F' -> adv w m F w' m F' -> closed w' -> P a -> Q a w') -> wp (on_sm (on_segment old op)) Q w.
Proof.
  intros Hb Hc Hst HP HQ. destruct (so_map _ _ _ _ (b_store _ _ _ _ _ _ _ Hb) _ _ (ca_map _ _ _ _ Hc)) as (_ & Hl & _).
  eapply (wp_re_sm _ (fun a _ _ => P a)); [exact Hb| |by apply wp_closed_read|].
  - intros R HR. eapply store_still; [apply Hb|done|apply Hst|]. intros a sm F' Ea Hs Hg. apply (HR _ _ F'); [done..|].
    rewrite <- Ea. apply HP. unfold seg_io, content_at. cbn. destruct Hc. by rewrite ca_path, ca_disk.
  - intros a w' F' Hb' Ha' HPa Hc'. by eapply HQ.
Qed.

Lemma wp_re_Write l key b vm (Q : error + Z -> World DB SegWorld -> Prop) w m F :
  base w m F -> closed w -> other (w_sm w) l ->
  (forall e w' F', base w' m F' -> adv w m F w' m F' -> closed w' -> Q (inl e) w') ->
  (forall off w' F', base w' m F' -> adv w m F w' m F' -> closed w' -> b_err b = None -> slen (b_data b) = ValueLength vm ->
     located (w_sm w') F' (sg_path (seg_at l (w_sm w'))) off key (b_data b) -> Q (inr off) w') ->
  wp (on_sm (on_segment l (WriteEntry senv sf key b vm))) Q w.
Proof using Hseg.
  intros Hb Hc [Hl Hp] H1 H2.
  eapply (wp_re_sm _ (fun a sm F' => forall off, a = inr off -> b_err b = None /\ slen (b_data b) = ValueLength vm
      /\ located sm F' (sg_path (seg_at l sm)) off key (b_data b))); [exact Hb| |by apply wp_closed_other|].
  - intros R HR. eapply (wp_store_Write _ _ _ Hseg); [apply Hb|done|..].
    + intros e sm F' Hs Hg. by apply (HR _ _ F').
    + intros off sm F' Hs Hg Hlen He Hloc. apply (HR _ _ F'); [done..|]. by intros off' [= <-].
  - intros [e|off] w' F' Hb' Ha' Hw Hc'; [by eapply H1|]. destruct (Hw off eq_refl) as (? & ? & ?). by eapply H2.
Qed.

(** Reading the clock, the context or the store leaves the segments alone. *)
Lemma wp_re_ctx (Q : option error -> World DB SegWorld -> Prop) w m F :
  base w m F -> closed w ->
  (forall r w', base w' m F -> adv w m F w' m F -> closed w' -> (forall e, r = Some e -> e = ESentinel ContextCanceled) -> Q r w') ->
  wp (ctx_Err cancelled) Q w.
Proof.
  intros Hb Hc HQ. apply wp_fun. cbn [fst snd ctx_Err]. destruct (base_tick env senv cfg segmentsPath w m F Hb) as [H1 H2].
  apply HQ; [done|done|done|]. destruct (cancelled _); by intros e [= <-].
Qed.

Lemma tick_store (sw : SegWorld) F :
  store_ok senv segmentsPath sw F -> let sw' := sw_settick (S (sw_tick sw)) sw in store_ok senv segmentsPath sw' F /\ grows sw F sw' F.
Proof.
  intros Hs sw'. apply (store_ok_same senv segmentsPath sw sw' F Hs); try done; [cbn; lia|].
  intros l. exists (sg_reservedBy (seg_at l sw)). by rewrite set_reserved_same.
Qed.

Lemma wp_re_sys (Q : option Errno -> World DB SegWorld -> Prop) w m F :
  base w m F -> closed w -> (forall r w' F', base w' m F' -> adv w m F w' m F' -> closed w' -> Q r w') -> wp (on_sm (sw_syscall senv)) Q w.
Proof.
  intros Hb Hc HQ. eapply (wp_re_sm _ anything (fun _ sm => closed_at sm old path c) _ w m F Hb); [| |intros a w' F' Hb' Ha' _ Hc'; by eapply HQ].
  - intros R HR. apply wp_fun. cbn [fst snd sw_syscall].
    destruct (tick_store _ _ (b_store _ _ _ _ _ _ _ Hb)) as [H1 H2]. by apply (HR _ _ F).
  - apply wp_fun. by apply closed_tick.
Qed.

Context (Hplain : forall k (db : DB) e db' s, db_Get k db = (inl e, db') -> errors_Is e s = false).

Lemma wp_re_GetMetadata key (Q : error + ValueMessage -> World DB SegWorld -> Prop) w m F :
  base w m F -> closed w ->
  (forall e w', base w' m F -> adv w m F w' m F -> closed w' -> errors_Is e ErrMetadataNotFound = true -> m !! MakeMetadataKey key = None -> Q (inl e) w') ->
  (forall e w', base w' m F -> adv w m F w' m F -> closed w' -> errors_Is e ErrMetadataNotFound = false -> Q (inl e) w') ->
  (forall vm w', base w' m F -> adv w m F w' m F -> closed w' -> row_at m key vm -> Q (inr vm) w') ->
  wp (GetMetadata (MakeMetadataKey key)) Q w.
Proof using Hplain.
  intros Hb Hc H1 H2 H3. unfold GetMetadata. apply wp_bind, wp_fun. unfold Get_, on_db. destruct (db_Get _ (w_db w)) as [r db] eqn:E.
  destruct (rdb_get _ _ _ _ _ (b_db _ _ _ _ _ _ _ Hb) E) as [Hm' Hv]. cbn [fst snd].
  destruct (base_quiet env senv cfg segmentsPath w (set_db db w) m F Hb (frame_set_db _ _) Hm') as [Hb' Ha]. apply wp_ret. destruct r as [e|v].
  { apply H2; [done..|]. by eapply Hplain. }
  rewrite (Hv v eq_refl). destruct (m !! MakeMetadataKey key) as [x|] eqn:Ex; [|by apply H1].
  destruct (proto_Unmarshal x) as [vm|] eqn:Eu; [apply H3; [done..|]; by exists x|by apply H2].
Qed.

(** ** One entry *)

(** The bytes of an entry's value. *)
Lemma entry_slice es1 e es2 : formed c (es1 ++ e :: es2) ->
  stake (Z.to_nat (slen (e_value e))) (sdrop (Z.to_nat (i64 (slen (encode_all es1) + CalculateValueHeaderSize (e_key e)))) c) = e_value e.
Proof.
  intros [(footer & Ec & Hfoot) Hes Hsmall]. rewrite encode_all_app in Ec. cbn [encode_all] in Ec. unfold encode in Ec. rewrite !sapp_assoc in Ec.
  pose proof (header_length (e_key e) (slen (e_value e)) (e_sum e) CurrentValueHeaderVersion) as Hh.
  pose proof (slen_nonneg (encode_all es1)). pose proof (slen_nonneg (e_key e)).
  assert (slen (encode_all es1) + CalculateValueHeaderSize (e_key e) <= slen c) as Hle.
  { rewrite <- Hh, Ec, !slen_app. pose proof (slen_nonneg (e_value e)). pose proof (slen_nonneg (encode_all es2)). pose proof (slen_nonneg footer). lia. }
  rewrite i64_small by (unfold is_i64, two63, two60, CalculateValueHeaderSize, ValueHeaderSize in *; lia).
  rewrite <- Hh, <- slen_app, !slen_nat, Ec, <- (sapp_assoc (encode_all es1)), sdrop_app. apply stake_app.
Qed.

Lemma wp_section_reader es1 e es2 (Q : Body -> World DB SegWorld -> Prop) w m F :
  base w m F -> closed w -> formed c (es1 ++ e :: es2) ->
  (forall b w' F', base w' m F' -> adv w m F w' m F' -> closed w' -> (b_err b = None -> b_data b = e_value e) -> Q b w') ->
  wp (section_reader senv cancelled limited partial old (i64 (slen (encode_all es1) + CalculateValueHeaderSize (e_key e))) (slen (e_value e))) Q w.
Proof.
  intros Hb Hc Hf HQ. unfold section_reader. apply wp_bind, (wp_re_sys _ w m F Hb Hc). intros f w1 F1 Hb1 A1 Hc1.
  apply wp_bind, wp_on_sm, wp_bind, wp_fun, wp_ret. cbn [fst snd st_get]. apply wp_bind, wp_on_sm, wp_bind, wp_fun, wp_ret. cbn [fst snd st_get].
  rewrite (ca_path _ _ _ _ Hc1). replace (set_sm (w_sm w1) (set_sm (w_sm w1) w1)) with w1 by (by destruct w1).
  change (w_sm (set_sm (w_sm w1) w1)) with (w_sm w1). rewrite (ca_disk _ _ _ _ Hc1). change (default EmptyString (Some c)) with c. rewrite (entry_slice _ _ es2 Hf).
  apply wp_fun. cbn [fst snd read_outcome]. destruct (base_tick env senv cfg segmentsPath w1 m F1 Hb1) as [Hb2 A2].
  apply (HQ _ _ F1); [done|by eapply adv_trans|done|]. destruct f; [done|]. by destruct (limited && _).
Qed.

Definition moves w m F (wb : list batch_op) : Prop := Forall (move_ok path es (w_sm w) F m) wb.

Lemma moves_adv w m F w' F' wb : base w m F -> adv w m F w' m F' -> moves w m F wb -> moves w' m F' wb.
Proof.
  intros Hb A Hm. eapply Forall_impl; [exact Hm|]. intros b Hop.
  eapply move_ok_later; [apply Hb|apply A|apply shrinks_refl|by intros ??|done].
Qed.

(** The rows of the entries visited so far are moved by the batch, or something failed. *)
Definition covered m (es1 : list entry) (run : re_run) : Prop :=
  0 < rr_failed run \/ forall a e b, es1 = a ++ e :: b -> forall vm, in_segment path m (e_key e) vm -> SegmentOffset vm = slen (encode_all a) ->
    exists o, BMerge (MakeMetadataKey (e_key e)) o ∈ rr_wb run.

Record run_inv w m F (run : re_run) : Prop := {
  ri_seg l : rr_seg run = Some l -> other (w_sm w) l;
  ri_ops : moves w m F (rr_wb run);
  ri_failed : 0 <= rr_failed run
}.

Lemma run_inv_adv w m F w' F' run : base w m F -> adv w m F w' m F' -> run_inv w m F run -> run_inv w' m F' run.
Proof. intros Hb A []. split; [|by eapply moves_adv|done]. intros l Hl. eapply other_grows; [apply A|auto]. Qed.

Lemma wp_next_segment caller l run (Q : option error * re_run -> World DB SegWorld -> Prop) w m F :
  base w m F -> closed w -> run_inv w m F run -> rr_seg run = Some l ->
  (forall e l' w' F', base w' m F' -> adv w m F w' m F' -> closed w' -> run_inv w' m F' (re_seg l' run) -> (e = None -> l' = None -> False) ->
     Q (e, re_seg l' run) w') ->
  wp (next_segment senv sf segmentsPath segmentSize caller l run) Q w.
Proof using Hseg.
  intros Hb Hc Hi Hl HQ. unfold next_segment. apply wp_bind, (wp_re_Finalize _ _ w m F Hb Hc); [by apply Hi|].
  intros r w1 F1 Hb1 A1 Hc1. pose proof (run_inv_adv _ _ _ _ _ _ Hb A1 Hi) as Hi1.
  assert (re_seg (Some l) run = run) as Erun by (by destruct run; cbn in *; subst).
  destruct r as [e|]; [apply wp_ret; rewrite <- Erun; apply (HQ _ _ _ F1); [done..|by rewrite Erun|done]|].
  apply wp_bind, (wp_re_release _ _ _ w1 m F1 Hb1 Hc1). intros w2 F2 Hb2 A2 Hc2. pose proof (run_inv_adv _ _ _ _ _ _ Hb1 A2 Hi1) as Hi2.
  pose proof (adv_trans _ _ _ _ _ _ _ _ _ A1 A2) as A12. apply wp_bind, (wp_re_Acquire _ _ w2 m F2 Hb2 Hc2).
  - intros e w3 F3 Hb3 A3 Hc3. apply wp_ret, (HQ _ _ _ F3); [done|by eapply adv_trans|done| |done].
    destruct (run_inv_adv _ _ _ _ _ _ Hb2 A3 Hi2). by split.
  - intros l' w3 F3 Hb3 A3 Hc3 Hl'. apply wp_ret, (HQ _ _ _ F3); [done|by eapply adv_trans|done| |done].
    destruct (run_inv_adv _ _ _ _ _ _ Hb2 A3 Hi2). split; [|done..]. by intros x [= <-].
Qed.

(** The operand that moves a row to its copy. *)
Lemma staged_move w m F es1 e es2 vm to off :
  base w m F -> closed w -> es = es1 ++ e :: es2 -> in_segment path m (e_key e) vm -> SegmentOffset vm = slen (encode_all es1) ->
  ValueLength vm = slen (e_value e) -> located (w_sm w) F to off (e_key e) (e_value e) -> to <> path ->
  exists o, proto_Marshal (moved_to to off vm) = Some o /\ move_ok path es (w_sm w) F m (BMerge (MakeMetadataKey (e_key e)) o).
Proof using PL.
  intros Hb Hc Ees ((v & Ev & Eu) & Ht & Hp) Hoff Hlen Hloc Hto. pose proof Hloc as (l & pre & post & sum & Hmap & Hf & Hpos).
  destruct (so_map _ _ _ _ (b_store _ _ _ _ _ _ _ Hb) _ _ Hmap) as ((_ & _ & _ & Hsm) & _ & [_ Hutf]).
  assert (is_i64 off) as Hi.
  { rewrite Hf, !slen_app in Hsm. pose proof (slen_nonneg pre). pose proof (slen_nonneg (encode (MkE (e_key e) (e_value e) sum))).
    pose proof (slen_nonneg post). unfold is_i64, two63 in *. lia. }
  assert (vm_ok (moved_to to off vm)) as Hok by (destruct (unmarshal_ok _ _ Eu); by split).
  assert (row_at m (e_key e) vm) as Hr by (by exists v). pose proof (rows_ok_op _ _ _ (b_rows _ _ _ _ _ _ _ Hb) Hr) as Hop.
  destruct (marshal_total _ Hok) as [o Eo]. exists o. split; [done|]. exists (e_key e), o, (moved_to to off vm).
  split_and!; [done|by eapply marshal_unmarshal|by rewrite Ev|]. split; cbn; try done. intros vm' (Hr' & _).
  rewrite (row_at_fun _ _ _ _ Hr' Hr). split_and!; [done..|]. by exists es1, e, es2.
Qed.

Context (Hformed : formed c es).

Lemma wp_copy_value l es1 e es2 vm run (Q : option error * re_run -> World DB SegWorld -> Prop) w m F :
  base w m F -> closed w -> run_inv w m F run -> rr_seg run = Some l -> es = es1 ++ e :: es2 ->
  in_segment path m (e_key e) vm -> SegmentOffset vm = slen (encode_all es1) -> ValueLength vm = slen (e_value e) ->
  (forall x w' F', base w' m F' -> adv w m F w' m F' -> closed w' -> run_inv w' m F' run -> Q (Some x, run) w') ->
  (forall o w' F', base w' m F' -> adv w m F w' m F' -> closed w' ->
     let run' := re_stage (BMerge (MakeMetadataKey (e_key e)) o) run in run_inv w' m F' run' -> Q (None, run') w') ->
  wp (copy_value senv sf cancelled limited partial old l (entry_info (slen (encode_all es1)) e) vm run) Q w.
Proof using Hseg Hformed PL.
  intros Hb Hc Hi Hl Ees Hin Hoff Hlen H1 H2. unfold copy_value. cbn [entry_info en_Offset en_HeaderSize en_ValueLength en_Key en_Checksum].
  pose proof Hformed as Hf. rewrite Ees in Hf.
  apply wp_bind, (wp_section_reader es1 e es2 _ w m F Hb Hc Hf). intros b w1 F1 Hb1 A1 Hc1 Hbody.
  pose proof (run_inv_adv _ _ _ _ _ _ Hb A1 Hi) as Hi1. apply wp_bind, (wp_re_Write _ _ _ _ _ w1 m F1 Hb1 Hc1); [by apply Hi1| |].
  - intros x w2 F2 Hb2 A2 Hc2. apply wp_ret, (H1 _ _ F2); [done|by eapply adv_trans|done|exact (run_inv_adv _ _ _ _ _ _ Hb1 A2 Hi1)].
  - intros off w2 F2 Hb2 A2 Hc2 Herr _ Hloc. rewrite (Hbody Herr) in Hloc. pose proof (run_inv_adv _ _ _ _ _ _ Hb1 A2 Hi1) as Hi2.
    apply wp_bind, wp_fun. cbn [fst snd the_segment]. apply wp_ret. destruct (ri_seg _ _ _ _ Hi2 l Hl) as [_ Hto].
    destruct (staged_move w2 m F2 es1 e es2 vm _ off Hb2 Hc2 Ees Hin Hoff Hlen Hloc Hto) as (o & Eo & Hmv). rewrite Eo.
    apply (H2 _ _ F2); [done|by eapply adv_trans|done|]. destruct Hi2. split; [done| |done].
    apply Forall_app. by split; [|apply Forall_cons; split; [|apply Forall_nil_2]].
Qed.

Lemma wp_copyEntry caller es1 e es2 vm run (Q : outcome (option error * re_run) -> World DB SegWorld -> Prop) w m F :
  base w m F -> closed w -> run_inv w m F run -> es = es1 ++ e :: es2 ->
  in_segment path m (e_key e) vm -> SegmentOffset vm = slen (encode_all es1) -> ValueLength vm = slen (e_value e) ->
  Q Panicked w ->
  (forall x run' w' F', base w' m F' -> adv w m F w' m F' -> closed w' -> run_inv w' m F' run' -> rr_failed run' = rr_failed run ->
     Q (Returned (Some x, run')) w') ->
  (forall o run' w' F', base w' m F' -> adv w m F w' m F' -> closed w' -> run_inv w' m F' run' -> rr_failed run' = rr_failed run ->
     rr_wb run' = rr_wb run ++ [BMerge (MakeMetadataKey (e_key e)) o] -> Q (Returned (None, run')) w') ->
  wp (copyEntry senv sf segmentsPath segmentSize cancelled limited partial old caller (entry_info (slen (encode_all es1)) e) vm run) Q w.
Proof using Hseg Hformed PL.
  intros Hb Hc Hi Ees Hin Hoff Hlen H0 H1 H2. unfold copyEntry. destruct (rr_seg run) as [l|] eqn:El; [|by apply wp_ret].
  apply wp_bind, wp_fun. cbn [fst snd the_segment]. apply wp_bind.
  assert (forall err l' w1 F1, base w1 m F1 -> adv w m F w1 m F1 -> closed w1 -> run_inv w1 m F1 (re_seg l' run) -> (err = None -> l' = None -> False) ->
    wp match err, rr_seg (re_seg l' run) with
       | None, Some l => r ← copy_value senv sf cancelled limited partial old l (entry_info (slen (encode_all es1)) e) vm (re_seg l' run); mret (Returned r)
       | _, _ => mret (Returned (err, re_seg l' run))
       end Q w1) as Hrest.
  { intros [x|] [l'|] w1 F1 Hb1 A1 Hc1 Hi1 Hsome; [by apply wp_ret, (H1 _ _ _ F1)..| |by destruct Hsome]. cbn [rr_seg re_seg].
    apply wp_bind, (wp_copy_value _ es1 e es2 _ _ _ w1 m F1 Hb1 Hc1 Hi1); [done..| |].
    - intros x w2 F2 Hb2 A2 Hc2 Hi2. apply wp_ret, (H1 _ _ _ F2); [done|by eapply adv_trans|done..].
    - intros o w2 F2 Hb2 A2 Hc2 run' Hi2. apply wp_ret, (H2 o _ _ F2); [done|by eapply adv_trans|done..]. }
  assert (re_seg (Some l) run = run) as Erun by (by destruct run; cbn in *; subst).
  destruct (_ <? _).
  - apply (wp_next_segment _ l _ _ w m F Hb Hc Hi El). intros err l' w1 F1 Hb1 A1 Hc1 Hi1 Hsome. by apply (Hrest err l' w1 F1).
  - apply wp_ret. rewrite <- Erun at 1. rewrite <- Erun. apply (Hrest None (Some l) w F); [done|by eapply adv_refl|done|by rewrite Erun|done].
Qed.

(** What the iterator says at the entry [e]. *)
Definition next_is (es1 : list entry) (e : entry) (err : option error) (r : (error + EntryInfo) * Iterator) : Prop :=
  (exists x it', r = (inl x, it') /\ is_EOF x = false) \/
  r = (inr (entry_info (slen (encode_all es1)) e), MkIter (slen (encode_all (es1 ++ [e]))) (slen c) err).

Lemma wp_next_is es1 e es2 err : es = es1 ++ e :: es2 -> forall io, io_content io = c ->
  wp (Next senv (MkIter (slen (encode_all es1)) (slen c) err)) (fun r _ => next_is es1 e err r) io.
Proof using Hformed.
  intros Ees io Hio. pose proof Hformed as Hf. rewrite Ees in Hf. apply (wp_Next_entry _ _ es1 e es2); [done|done|intros; left; eauto|by right].
Qed.

Lemma encode_all_snoc (es1 es2 : list entry) e : slen (encode_all (es1 ++ e :: es2)) = slen (encode_all (es1 ++ [e])) + slen (encode_all es2).
Proof. rewrite !encode_all_app. cbn [encode_all]. rewrite !slen_app. change (slen EmptyString) with 0. lia. Qed.

Lemma slen_encode_snoc (es1 : list entry) e : slen (encode_all (es1 ++ [e])) = slen (encode_all es1) + slen (encode e).
Proof. rewrite encode_all_app. cbn [encode_all]. rewrite !slen_app. change (slen EmptyString) with 0. lia. Qed.

Lemma slen_encode_value (es1 : list entry) e : slen (encode_all es1) + slen (e_value e) <= slen (encode_all (es1 ++ [e])).
Proof. rewrite slen_encode_snoc, slen_encode. unfold CalculateValueHeaderSize, ValueHeaderSize. pose proof (slen_nonneg (e_key e)). lia. Qed.

(** ** The entries *)

Lemma covered_fail m es1 run : 0 <= rr_failed run -> covered m es1 (re_fail run).
Proof. intros H. left. cbn. lia. Qed.

(** The next entry is dealt with. *)
Lemma covered_next m es1 e run run' :
  covered m es1 run -> rr_failed run' = rr_failed run -> (forall op, op ∈ rr_wb run -> op ∈ rr_wb run') ->
  (forall vm, in_segment path m (e_key e) vm -> SegmentOffset vm = slen (encode_all es1) -> exists o, BMerge (MakeMetadataKey (e_key e)) o ∈ rr_wb run') ->
  covered m (es1 ++ [e]) run'.
Proof.
  intros [Hf|Hc] Ef Hsub He; [left; lia|right]. intros a x b E vm Hin Hoff. destruct b as [|y b _] using rev_ind.
  - apply app_inj_tail in E as [-> ->]. by apply (He vm).
  - rewrite app_comm_cons, app_assoc in E. apply app_inj_tail in E as [-> _]. destruct (Hc a x b eq_refl vm Hin Hoff) as [o Ho]. eauto.
Qed.

(** How the loop ends: at the end of the segment, at a read that failed, or cancelled. *)
Definition loop_post w m F (r : outcome (option error * re_run)) (w' : World DB SegWorld) : Prop :=
  exists F', base w' m F' /\ adv w m F w' m F' /\ closed w' /\
    match r with
    | Panicked => True
    | Returned (Some x, run) => x = ESentinel ContextCanceled /\ run_inv w' m F' run
    | Returned (None, run) => run_inv w' m F' run /\ covered m es run
    end.

Lemma loop_post_adv w m F w1 F1 r w' : adv w m F w1 m F1 -> loop_post w1 m F1 r w' -> loop_post w m F r w'.
Proof. intros A (F' & Hb & A' & H). exists F'. split_and!; [done|by eapply adv_trans|apply H..]. Qed.

Lemma run_inv_fail w m F run : run_inv w m F run -> run_inv w m F (re_fail run).
Proof. intros []. split; [done..|]. cbn. lia. Qed.

(** Entries are at different offsets. *)
Lemma same_split (es1 es2 a b : list entry) e x :
  es1 ++ e :: es2 = a ++ x :: b -> slen (encode_all es1) = slen (encode_all a) -> e = x.
Proof.
  revert a. induction es1 as [|y es1 IH]; intros [|z a]; cbn [encode_all app]; intros E Hl; [congruence|exfalso|exfalso|].
  - rewrite slen_app in Hl. change (slen EmptyString) with 0 in Hl. pose proof (slen_encode_pos z). pose proof (slen_nonneg (encode_all a)). lia.
  - rewrite slen_app in Hl. change (slen EmptyString) with 0 in Hl. pose proof (slen_encode_pos y). pose proof (slen_nonneg (encode_all es1)). lia.
  - injection E as -> E. rewrite !slen_app in Hl. apply (IH a E). lia.
Qed.

(** A row that names an entry has that entry's length. *)
Lemma aligned_length m es1 e es2 vm :
  aligned m -> es = es1 ++ e :: es2 -> in_segment path m (e_key e) vm -> SegmentOffset vm = slen (encode_all es1) -> ValueLength vm = slen (e_value e).
Proof.
  intros Hal Ees Hin Hoff. destruct (Hal _ _ Hin) as (a & x & b & E & Hoff' & _ & Hlen). rewrite Hlen. rewrite Ees in E.
  by rewrite (same_split _ _ _ _ _ _ E) by congruence.
Qed.

Lemma wp_recompact_loop caller es2 : forall fuel es1 err run w m F,
  aligned m -> base w m F -> closed w -> run_inv w m F run -> covered m es1 run -> es = es1 ++ es2 -> (length es2 < fuel)%nat ->
  wp (recompact_loop senv sf segmentsPath segmentSize cancelled limited partial fuel old path caller
        (MkIter (slen (encode_all es1)) (slen c) err) run) (loop_post w m F) w.
Proof using Hseg Hformed Hplain PL init_ok.
  induction es2 as [|e es2 IH]; intros [|fuel] es1 err run w m F Hal Hb Hc Hi Hcov Ees Hfuel; cbn in Hfuel; [lia| |lia|]; cbn [recompact_loop].
  all: apply wp_bind, (wp_re_ctx _ w m F Hb Hc); intros [x|] w1 Hb1 A1 Hc1 Hx;
    [apply wp_ret; exists F; split_and!; [done..|by apply Hx|exact (run_inv_adv _ _ _ _ _ _ Hb A1 Hi)]|].
  all: pose proof (run_inv_adv _ _ _ _ _ _ Hb A1 Hi) as Hi1; apply wp_bind.
  - rewrite app_nil_r in Ees. subst es1. eapply (wp_re_read _ (fun r => exists it', r = (inl EOF, it')) _ w1 m F Hb1 Hc1); [apply Next_still| |].
    + intros io Hio. eapply wp_Next_end; [done|by eexists].
    + intros r w2 F2 Hb2 A2 Hc2 [it' ->]. apply wp_ret. exists F2. split_and!; [done|by eapply adv_trans|done| |done].
      exact (run_inv_adv _ _ _ _ _ _ Hb1 A2 Hi1).
  - eapply (wp_re_read _ (next_is es1 e err) _ w1 m F Hb1 Hc1); [apply Next_still|by apply (wp_next_is _ _ es2)|].
    intros r w2 F2 Hb2 A2 Hc2 Hr. pose proof (adv_trans _ _ _ _ _ _ _ _ _ A1 A2) as A12. pose proof (run_inv_adv _ _ _ _ _ _ Hb1 A2 Hi1) as Hi2.
    destruct Hr as [(x & it' & -> & Hne)| ->].
    { rewrite Hne. apply wp_ret. exists F2. split_and!; [done..|by apply run_inv_fail|apply covered_fail, Hi2]. }
    assert (forall run' w3 F3, base w3 m F3 -> adv w m F w3 m F3 -> closed w3 -> run_inv w3 m F3 run' -> covered m (es1 ++ [e]) run' ->
      wp (recompact_loop senv sf segmentsPath segmentSize cancelled limited partial fuel old path caller
        (MkIter (slen (encode_all (es1 ++ [e]))) (slen c) err) run') (loop_post w m F) w3) as Hgo.
    { intros run' w3 F3 Hb3 A3 Hc3 Hi3 Hcov3. eapply wp_mono; [apply (IH fuel (es1 ++ [e]) err run' w3 m F3); try done; [by rewrite <- app_assoc|lia]|].
      intros r w'. by apply loop_post_adv. }
    cbn [entry_info en_Key]. apply wp_bind, (wp_re_GetMetadata _ _ w2 m F2 Hb2 Hc2).
    + intros x w3 Hb3 A3 Hc3 -> Hno. apply (Hgo _ _ F2); [done|by eapply adv_trans|done|exact (run_inv_adv _ _ _ _ _ _ Hb2 A3 Hi2)|].
      eapply covered_next; [done..|]. intros vm ((v & Ev & _) & _). congruence.
    + intros x w3 Hb3 A3 Hc3 ->. apply (Hgo _ _ F2); [done|by eapply adv_trans|done| |apply covered_fail, Hi].
      apply run_inv_fail. exact (run_inv_adv _ _ _ _ _ _ Hb2 A3 Hi2).
    + intros vm w3 Hb3 A3 Hc3 Hr. pose proof (adv_trans _ _ _ _ _ _ _ _ _ A12 A3) as A. pose proof (run_inv_adv _ _ _ _ _ _ Hb2 A3 Hi2) as Hi3.
      change (en_Offset _) with (slen (encode_all es1)). destruct (points_at vm path (slen (encode_all es1))) eqn:Ep; cbn [negb].
      2: { apply (Hgo _ _ F2); [done..|]. eapply covered_next; [done..|]. intros vm' (Hr' & Ht & Hp) Hoff. rewrite (row_at_fun _ _ _ _ Hr' Hr) in *.
           unfold points_at in Ep. rewrite Ht, Hp, Hoff, !Z.eqb_refl, bool_decide_true in Ep by done. discriminate Ep. }
      unfold points_at in Ep. rewrite !andb_true_iff in Ep. destruct Ep as [[Ht Hp] Hoff]. bool_facts.
      assert (in_segment path m (e_key e) vm) as Hin by (by split_and!).
      apply wp_bind, (wp_copyEntry _ es1 e es2 _ _ _ w3 m F2 Hb3 Hc3 Hi3); [done..|by eapply aligned_length| | |].
      * apply wp_ret. by exists F2.
      * intros x run' w4 F4 Hb4 A4 Hc4 Hi4 _. apply (Hgo _ _ F4); [done|by eapply adv_trans|done|by apply run_inv_fail|apply covered_fail, Hi4].
      * intros o run' w4 F4 Hb4 A4 Hc4 Hi4 Ef Ewb. apply (Hgo _ _ F4); [done|by eapply adv_trans|done|by destruct Hi4; split|].
        eapply covered_next; [done|done|cbn; rewrite Ewb; set_solver|]. intros _ _ _. exists o. cbn. rewrite Ewb. set_solver.
Qed.

(** ** The end of a pass *)

Context (Henv : env_ok env cfg) (Hfiles : forall n, ~ in_dir segmentsPath (path_of env cfg n)).

Lemma old_in_dir w m F : base w m F -> closed w -> in_dir segmentsPath path.
Proof. intros Hb Hc. by destruct (so_map _ _ _ _ (b_store _ _ _ _ _ _ _ Hb) _ _ (ca_map _ _ _ _ Hc)) as (_ & _ & [? _]). Qed.

Lemma old_named w m F : base w m F -> closed w -> path <> EmptyString.
Proof. intros Hb Hc. destruct (old_in_dir _ _ _ Hb Hc) as [name ->]. apply filepath_Join_ne. Qed.

Lemma old_not_raw w m F : base w m F -> closed w -> no_raw path m.
Proof.
  intros Hb Hc key vm Hr Ht Hp. destruct (b_sep _ _ _ _ _ _ _ Hb key path (ValueLength vm)) as [_ Hd]; [by exists vm|].
  by apply Hd, (old_in_dir w m F).
Qed.

(** What a pass as a whole leaves behind. *)
Record kept w m F w' m' F' : Prop := {
  k_disk : w_disk w' = w_disk w;
  k_keeps : keeps (w_disk w) m (w_sm w) F m' (w_sm w') F'
}.

Lemma kept_adv w m F w' m' F' : adv w m F w' m' F' -> kept w m F w' m' F'.
Proof. intros []. by split. Qed.

Lemma kept_trans w1 m1 F1 w2 m2 F2 w3 m3 F3 : kept w1 m1 F1 w2 m2 F2 -> kept w2 m2 F2 w3 m3 F3 -> kept w1 m1 F1 w3 m3 F3.
Proof. intros [D1 K1] [D2 K2]. split; [congruence|]. rewrite D1 in K2. by eapply keeps_trans. Qed.

Lemma wp_recompact_commit run (Q : outcome (option error) -> World DB SegWorld -> Prop) w m F :
  base w m F -> closed w -> run_inv w m F run ->
  (forall r w' F', base w' m F' -> adv w m F w' m F' -> closed w' -> r <> Returned None -> Q r w') ->
  (forall w' m' F', base w' m' F' -> adv w m F w' m' F' -> closed w' -> leaving path m m' -> same_rest m m' ->
     (forall key o, BMerge (MakeMetadataKey key) o ∈ rr_wb run -> forall vm, ~ in_segment path m' key vm) -> Q (Returned None) w') ->
  wp (recompact_commit senv run) Q w.
Proof using Hformed PL init_ok.
  intros Hb Hc Hi H1 H2. unfold recompact_commit. destruct (decide (rr_wb run = [])) as [E|_].
  { apply wp_ret, (H2 w m F); [done|by eapply adv_refl|done|by intros ??|by intros ???|]. rewrite E. by intros key o Ho%elem_of_nil. }
  destruct (rr_seg run) as [l|] eqn:El; [|apply wp_ret, (H1 _ _ F); [done|by eapply adv_refl|done..]].
  apply wp_bind, (wp_re_Sync l _ w m F Hb Hc); [by apply Hi|]. intros r w1 F1 Hb1 A1 Hc1.
  destruct r as [x|]; [by apply wp_ret, (H1 _ _ F1)|]. pose proof (ri_ops _ _ _ _ (run_inv_adv _ _ _ _ _ _ Hb A1 Hi)) as Hops.
  destruct (moves_step init_ok senv segmentsPath old path es (w_sm w1) F1 (w_disk w1) (rr_wb run) m c) as [Hreg [C1 C2 C3 C4 C5 C6]]; try done;
    [by eapply old_named|apply Hb1|apply Hb1|by eapply old_not_raw|].
  apply wp_bind. eapply wp_Write; [apply Hb1|done|..].
  - intros x db Hdb. destruct (base_quiet env senv cfg segmentsPath w1 (set_db db w1) m F1 Hb1 (frame_set_db _ _) Hdb) as [Hb2 A2].
    apply wp_ret, (H1 _ _ F1); [done|by eapply adv_trans|done..].
  - intros db Hdb. apply wp_ret, (H2 _ (apply_batch m (rr_wb run)) F1); try done.
    + destruct Hb1. split; try done; [by eapply ref_safe_shrinks|]. intros key p len Hr. eapply (b_sep key p len), shrinks_raw; eauto.
    + eapply adv_trans; [exact A1|]. split; try done. apply grows_refl.
Qed.

(** How a pass leaves the segment: registered, its file as it was and not newly queued for
    deletion, or named by no row. *)
Definition settled m w' m' : Prop := closed w' /\ same_rest m m' \/ forall key vm, ~ in_segment path m' key vm.

(** The segment goes when nothing names it. *)
Lemma wp_drop_segment (Q : () -> World DB SegWorld -> Prop) w m F :
  base w m F -> closed w -> (forall key vm, ~ in_segment path m key vm) ->
  (forall w' m' F', base w' m' F' -> kept w m F w' m' F' -> (forall key vm, ~ in_segment path m' key vm) -> Q () w') -> wp (drop_segment env path) Q w.
Proof using Henv Hfiles.
  intros Hb Hc Hnone HQ. unfold drop_segment. apply wp_bind, wp_on_sm, wp_fun. set (w1 := set_sm _ w).
  assert (base w1 m F) as Hb1 by (destruct Hb; split; try done; by eapply store_ok_remove).
  assert (kept w m F w1 m F) as K1.
  { split; [done|]. intros key vm data Hr Hz Hv. exists vm. split_and!; [done|done| |done]. destruct Hv as [H|[H|(Ht & Hl & Hlen)]]; [by left|by right; left|].
    right. right. split_and!; [done| |done]. apply located_remove; [done|]. intros Hp. by apply (Hnone key vm). }
  apply wp_bind. eapply (wp_queue_file env senv cfg segmentsPath Henv m F); [exact Hb1| | |].
  - intros key len (vm & Hr & Ht & Hp & _). by apply (old_not_raw w m F Hb Hc key vm).
  - intros n _ E. apply (Hfiles n). rewrite <- E. exact (old_in_dir w m F Hb Hc).
  - intros _ w2 m2 Hb2 A2 E2. pose proof (kept_trans _ _ _ _ _ _ _ _ _ K1 (kept_adv _ _ _ _ _ _ A2)) as K2.
    assert (forall m3, (forall key, m3 !! MakeMetadataKey key = m2 !! MakeMetadataKey key) -> forall key vm, ~ in_segment path m3 key vm) as Hgone.
    { intros m3 E3 key vm [Hr Hn]. apply (Hnone key vm). split; [|done]. apply (quiet_row_at m m3); [|done]. by rewrite E3. }
    apply wp_bind. unfold removeDeleteIndex. eapply wp_Write; [apply Hb2|by apply plain_regular; repeat constructor|..].
    + intros x db Hdb. destruct (base_quiet env senv cfg segmentsPath w2 (set_db db w2) m2 F Hb2 (frame_set_db _ _) Hdb) as [Hb3 A3].
      apply wp_ret, (HQ _ m2 F); [done| |by apply Hgone]. eapply kept_trans; [done|by apply kept_adv].
    + intros db Hdb. assert (forall key, apply_batch m2 [BDelete (MakeDeleteIndexKey path)] !! MakeMetadataKey key = m2 !! MakeMetadataKey key) as E.
      { intros key. apply lookup_delete_ne. by unfold MakeDeleteIndexKey, MakeMetadataKey. }
      destruct (base_frame env senv cfg segmentsPath w2 (set_db db w2) m2 _ F Hb2 (frame_set_db _ _) Hdb E) as [Hb3 A3].
      * eapply ref_safe_shrinks; [apply Hb2|by apply shrinks_rows|]. intros k v _ Hk. change (delete (MakeDeleteIndexKey path) m2 !! k = Some v) in Hk. by apply lookup_delete_Some in Hk as [_ ?].
      * apply wp_ret, (HQ _ _ F Hb3); [|by apply Hgone]. eapply kept_trans; [done|by apply kept_adv].
Qed.

(** The rows of the segment after a batch that moves them all. *)
Lemma none_left m m' run :
  aligned m -> covered m es run -> rr_failed run <= 0 -> leaving path m m' ->
  (forall key o, BMerge (MakeMetadataKey key) o ∈ rr_wb run -> forall vm, ~ in_segment path m' key vm) ->
  forall key vm, ~ in_segment path m' key vm.
Proof.
  intros Hal [Hf|Hcov] Hnf Hlv Hgone key vm Hin; [lia|]. destruct (Hal key vm (Hlv _ _ Hin)) as (a & e & b & Ees & Hoff & Hk & _).
  destruct (Hcov a e b Ees vm) as [o Ho]; [rewrite Hk; by apply Hlv|done|]. rewrite Hk in Ho. by apply (Hgone key o Ho vm).
Qed.

Lemma wp_re_open (Q : option error -> World DB SegWorld -> Prop) w m F :
  base w m F -> closed w -> (forall r w' F', base w' m F' -> adv w m F w' m F' -> closed w' -> Q r w') -> wp (open_segment senv old) Q w.
Proof.
  intros Hb Hc HQ. eapply (wp_re_sm _ anything (fun _ sm => closed_at sm old path c) _ w m F Hb); [| |intros a w' F' Hb' Ha' _ Hc'; by eapply HQ].
  - intros R HR. apply wp_bind, wp_fun. cbn [fst snd sw_syscall]. apply wp_bind, wp_fun, wp_ret.
    destruct (tick_store _ _ (b_store _ _ _ _ _ _ _ Hb)) as [H1 H2]. by apply (HR _ _ F).
  - apply wp_bind, wp_fun. cbn [fst snd sw_syscall]. apply wp_bind, wp_fun, wp_ret. by apply closed_tick.
Qed.

Lemma NewIterator_start io : io_content io = c -> wp (NewIterator senv) (fun r _ => forall it, r = inr it -> it = MkIter 0 (slen c) None) io.
Proof.
  intros Hio. unfold NewIterator, file_Size. apply wp_bind, wp_bind, wp_fun. cbn [fst snd io_syscall]. apply wp_bind, wp_fun. cbn [fst snd the_seg].
  destruct (env_fault _ _); [by apply wp_ret, wp_ret|]. apply wp_fun. cbn [fst snd io_content]. apply wp_ret. rewrite Hio. by intros it [= <-].
Qed.

Lemma entries_bound (l : list entry) : (length l <= String.length (encode_all l))%nat.
Proof.
  induction l as [|e l IH]; [done|]. cbn [encode_all length]. rewrite slength_app. pose proof (slen_encode_pos e). unfold slen in *. lia.
Qed.

Lemma wp_finish_pass r (Q : outcome (option error) -> World DB SegWorld -> Prop) w0 w m F :
  aligned m -> loop_post w0 m F r w ->
  (forall res w' m' F', base w' m' F' -> kept w0 m F w' m' F' -> settled m w' m' -> Q res w') -> wp (finish_pass env senv path r) Q w.
Proof using Hformed Henv Hfiles PL init_ok.
  intros Hal (F1 & Hb & A & Hc & Hr) HQ. pose proof (kept_adv _ _ _ _ _ _ A) as K.
  assert (forall w', closed w' -> settled m w' m) as Hstay by (intros w' Hc'; left; by split; [|intros ???]).
  assert (forall res, wp (mret res) Q w) as Hend by (intros; by apply wp_ret, (HQ _ _ m F1); [..|apply Hstay]).
  unfold finish_pass. destruct r as [|[[x|] run]]; [apply Hend..|]. destruct Hr as [Hi Hcov].
  apply wp_bind, (wp_recompact_commit _ _ w m F1 Hb Hc Hi).
  - intros r w2 F2 Hb2 A2 Hc2 Hne. pose proof (kept_trans _ _ _ _ _ _ _ _ _ K (kept_adv _ _ _ _ _ _ A2)) as K2.
    destruct r as [|[x|]]; [by apply wp_ret, (HQ _ _ m F2); [..|apply Hstay]..|done].
  - intros w2 m2 F2 Hb2 A2 Hc2 Hlv Hrest Hgone. pose proof (kept_trans _ _ _ _ _ _ _ _ _ K (kept_adv _ _ _ _ _ _ A2)) as K2.
    destruct (Z.ltb_spec 0 (rr_failed run)) as [|Hnf]; [by apply wp_ret, (HQ _ _ m2 F2); [..|left]|].
    apply wp_bind, (wp_drop_segment _ w2 m2 F2 Hb2 Hc2); [exact (none_left m m2 run Hal Hcov Hnf Hlv Hgone)|].
    intros w3 m3 F3 Hb3 K3 Hnone. apply wp_ret, (HQ _ _ m3 F3); [done|by eapply kept_trans|by right].
Qed.

Lemma wp_release_last caller r (Q : () -> World DB SegWorld -> Prop) w m F :
  base w m F -> (forall w' F', base w' m F' -> kept w m F w' m F' -> (closed w -> closed w') -> Q () w') -> wp (release_last caller r) Q w.
Proof.
  intros Hb HQ. assert (wp (mret ()) Q w) as Hend by (apply wp_ret, (HQ w F Hb); [|done]; apply kept_adv; by eapply adv_refl).
  unfold release_last. destruct r as [|[_ run]]; [done|]. destruct (rr_seg run) as [l|]; [|done].
  eapply (wp_re_sm _ anything (fun _ sm => closed w -> closed_at sm old path c)); [exact Hb| |exact (wp_closed_release caller l (w_sm w) old path c)|].
  - intros R HR. eapply wp_store_release; [apply Hb|]. intros sm Hs Hg. by apply (HR _ _ F).
  - intros [] w' F' Hb' A' _ Hc'. by apply (HQ _ F'); [|apply kept_adv|].
Qed.

Lemma wp_recompactSegment w m F :
  aligned m -> base w m F -> closed w ->
  wp (recompactSegment env senv sf segmentsPath segmentSize cancelled limited partial old) (fun _ w' => exists m' F', base w' m' F' /\ kept w m F w' m' F' /\ settled m w' m') w.
Proof using Hseg Hformed Hplain Henv Hfiles PL init_ok.
  intros Hal Hb Hc. unfold recompactSegment. apply wp_bind, wp_on_sm, wp_bind, wp_fun, wp_ret. cbn [fst snd st_get].
  replace (set_sm (w_sm w) w) with w by (by destruct w). rewrite (ca_path _ _ _ _ Hc).
  assert (forall (r : outcome (option error)) w' F', base w' m F' -> adv w m F w' m F' -> closed w' ->
    wp (mret r) (fun _ w' => exists m' F', base w' m' F' /\ kept w m F w' m' F' /\ settled m w' m') w') as Hend.
  { intros r w' F' Hb' A' Hc'. apply wp_ret. exists m, F'. split_and!; [done|by apply kept_adv|left; by split; [|intros ???]]. }
  apply wp_bind, (wp_re_open _ w m F Hb Hc). intros r w1 F1 Hb1 A1 Hc1. destruct r as [x|]; [by eapply Hend|].
  apply wp_bind, (wp_re_Acquire _ _ w1 m F1 Hb1 Hc1).
  { intros x w2 F2 Hb2 A2 Hc2. eapply Hend; [exact Hb2|by eapply adv_trans|done]. }
  intros l w2 F2 Hb2 A2 Hc2 Hl. pose proof (adv_trans _ _ _ _ _ _ _ _ _ A1 A2) as A12.
  apply wp_bind, (wp_re_read _ (fun r => forall it, r = inr it -> it = MkIter 0 (slen c) None) _ w2 m F2 Hb2 Hc2); [apply NewIterator_still|apply NewIterator_start|].
  intros r w3 F3 Hb3 A3 Hc3 Hit. pose proof (adv_trans _ _ _ _ _ _ _ _ _ A12 A3) as A13. destruct r as [x|it].
  { apply wp_bind, (wp_re_release _ _ _ w3 m F3 Hb3 Hc3). intros w4 F4 Hb4 A4 Hc4. eapply Hend; [exact Hb4|by eapply adv_trans|done]. }
  rewrite (Hit it eq_refl). cbn [it_fileSize]. apply wp_bind.
  eapply wp_mono; [apply (wp_recompact_loop _ es _ [] None _ w3 m F3 Hal Hb3 Hc3); [|by right; intros [] ??|done|]|].
  { split; [|apply Forall_nil_2|done]. intros l' [= <-]. eapply other_grows; [apply A3|done]. }
  { destruct (fm_content _ _ Hformed) as (footer & -> & _). rewrite slen_nat, slength_app. pose proof (entries_bound es). lia. }
  intros r w4 Hr. apply wp_bind, (wp_finish_pass _ _ w w4 m F Hal (loop_post_adv _ _ _ _ _ _ _ A13 Hr)).
  intros res w5 m5 F5 Hb5 K5 S5. apply wp_bind, (wp_release_last _ _ _ w5 m5 F5 Hb5). intros w6 F6 Hb6 K6 Hc6. apply wp_ret. exists m5, F6.
  split_and!; [done|by eapply kept_trans|]. destruct S5 as [[H1 H2]|H]; [left; by auto|by right].
Qed.

(** ** The walk *)

(** The entries, from position [pos] on, that a row names. *)
Definition row_points m (key : bytes) (pos : Z) : bool :=
  match m !! MakeMetadataKey key ≫= proto_Unmarshal with
  | Some vm => bool_decide (ValueType vm = SEGMENT /\ SegmentPath vm = path /\ SegmentOffset vm = pos)
  | None => false
  end.
Fixpoint live_entries m (pos : Z) (l : list entry) : list entry :=
  match l with
  | [] => []
  | e :: l => (if row_points m (e_key e) pos then [e] else []) ++ live_entries m (pos + slen (encode e)) l
  end.
Definition value_bytes (l : list entry) : Z := fold_right (fun e n => slen (e_value e) + n) 0 l.

Lemma value_bytes_cons e l : value_bytes (e :: l) = slen (e_value e) + value_bytes l.
Proof. done. Qed.

Lemma value_bytes_bound (l : list entry) : 0 <= value_bytes l <= slen (encode_all l).
Proof.
  induction l as [|e l IH]; [done|]. rewrite value_bytes_cons. cbn [encode_all]. rewrite slen_app, slen_encode.
  unfold CalculateValueHeaderSize, ValueHeaderSize. pose proof (slen_nonneg (e_value e)). pose proof (slen_nonneg (e_key e)). lia.
Qed.

Lemma value_bytes_pos (l : list entry) : Forall entry_ok l -> Z.of_nat (length l) <= value_bytes l.
Proof. induction 1 as [|e l He _ IH]; [done|]. rewrite value_bytes_cons. cbn [length]. pose proof (ok_value _ He). lia. Qed.

Lemma row_points_row m key vm pos : row_at m key vm -> row_points m key pos = points_at vm path pos.
Proof.
  intros (v & Ev & Eu). unfold row_points, points_at. rewrite Ev. cbn. rewrite Eu. apply eq_true_iff_eq.
  rewrite bool_decide_eq_true, !andb_true_iff, bool_decide_eq_true, !Z.eqb_eq.
  split; [intros (? & ? & ?)|intros [[? ?] ?]]; by split_and!.
Qed.

Lemma formed_small : Z.of_nat (length es) < two60 /\ slen (encode_all es) < two60.
Proof using Hformed.
  destruct Hformed as [(footer & Ec & Hfoot) _ Hsmall]. rewrite Ec, slen_app, Hfoot in Hsmall. unfold SegmentFooterSize in Hsmall.
  pose proof (entries_bound es). pose proof (slen_nonneg (encode_all es)). unfold slen in *. lia.
Qed.

(** What the walk counts, up to the whole segment. *)
Definition walk_post m (es1 es2 : list entry) (le lb : Z) (r : error + Z * Z * Z) : Prop :=
  forall walked' le' lb', r = inr (walked', le', lb') ->
    let live := live_entries m (slen (encode_all es1)) es2 in
    walked' = Z.of_nat (length es) /\ le' = le + Z.of_nat (length live) /\ lb' = lb + value_bytes live.

Lemma wp_walk_loop es2 : forall fuel es1 err le lb (Q : error + Z * Z * Z -> World DB SegWorld -> Prop) w m F,
  base w m F -> closed w -> es = es1 ++ es2 -> 0 <= le <= Z.of_nat (length es1) -> 0 <= lb <= slen (encode_all es1) ->
  (forall r w' F', base w' m F' -> adv w m F w' m F' -> closed w' -> walk_post m es1 es2 le lb r -> Q r w') ->
  wp (walk_loop senv cancelled limited fuel old path (MkIter (slen (encode_all es1)) (slen c) err) (Z.of_nat (length es1)) le lb) Q w.
Proof using Hformed Hplain.
  destruct formed_small as [Hsmall1 Hsmall2].
  induction es2 as [|e es2 IH]; intros [|fuel] es1 err le lb Q w m F Hb Hc Ees Hle Hlb HQ; cbn [walk_loop].
  1, 3: apply wp_ret, (HQ _ _ F); [done|by eapply adv_refl|done|by intros].
  all: apply wp_bind, (wp_re_ctx _ w m F Hb Hc); intros [x|] w1 Hb1 A1 Hc1 _; [by apply wp_ret, (HQ _ _ F); [..|intros ???]|].
  all: apply wp_bind; assert (forall (P : option error -> World DB SegWorld -> Prop),
    (forall r w2, base w2 m F -> adv w m F w2 m F -> closed w2 -> P r w2) -> wp (if limited then ctx_Err cancelled else mret None) P w1) as Hlim
    by (intros P HP; destruct limited; [apply (wp_re_ctx _ w1 m F Hb1 Hc1); intros r w2 Hb2 A2 Hc2 _; apply HP; [done|by eapply adv_trans|done]|by apply wp_ret, HP]).
  all: apply Hlim; intros [x|] w2 Hb2 A2 Hc2; [by apply wp_ret, (HQ _ _ F); [..|intros ???]|]; apply wp_bind.
  - rewrite app_nil_r in Ees. subst es1. eapply (wp_re_read _ (fun r => exists it', r = (inl EOF, it')) _ w2 m F Hb2 Hc2); [apply Next_still| |].
    + intros io Hio. eapply wp_Next_end; [done|by eexists].
    + intros r w3 F3 Hb3 A3 Hc3 [it' ->]. apply wp_ret, (HQ _ _ F3); [done|by eapply adv_trans|done|].
      intros ??? [= <- <- <-]. cbn. split_and!; [done|lia..].
  - eapply (wp_re_read _ (next_is es1 e err) _ w2 m F Hb2 Hc2); [apply Next_still|by apply (wp_next_is _ _ es2)|].
    intros r w3 F3 Hb3 A3 Hc3 Hr. pose proof (adv_trans _ _ _ _ _ _ _ _ _ A2 A3) as A23.
    destruct Hr as [(x & it' & -> & Hne)| ->]; [rewrite Hne; by apply wp_ret, (HQ _ _ F3); [..|intros ???]|].
    assert (Z.of_nat (length (es1 ++ [e])) = i64 (Z.of_nat (length es1) + 1)) as Hcount.
    { rewrite length_app, i64_small; [cbn; lia|]. rewrite Ees, length_app in Hsmall1. unfold is_i64, two63, two60 in *. cbn in Hsmall1. lia. }
    assert (forall (live : bool) w4, base w4 m F3 -> adv w m F w4 m F3 -> closed w4 -> row_points m (e_key e) (slen (encode_all es1)) = live ->
      wp (walk_loop senv cancelled limited fuel old path (MkIter (slen (encode_all (es1 ++ [e]))) (slen c) err) (i64 (Z.of_nat (length es1) + 1))
        (if live then i64 (le + 1) else le) (if live then i64 (lb + slen (e_value e)) else lb)) Q w4) as Hgo.
    { intros live w4 Hb4 A4 Hc4 Hlive. rewrite <- Hcount. pose proof (slen_encode_value es1 e) as Hpos. pose proof (slen_nonneg (e_value e)).
      rewrite Ees, encode_all_snoc in Hsmall2. pose proof (slen_nonneg (encode_all es2)). rewrite length_app in Hcount. cbn in Hcount.
      rewrite Ees, length_app in Hsmall1. cbn in Hsmall1.
      rewrite !i64_small by (unfold is_i64, two63, two60 in *; lia).
      eapply (IH fuel (es1 ++ [e]) err _ _ Q w4 m F3 Hb4 Hc4); [by rewrite <- app_assoc|rewrite length_app; cbn; destruct live; lia|destruct live; lia|].
      intros r w5 F5 Hb5 A5 Hc5 Hpost. apply (HQ _ _ F5); [done|by eapply adv_trans|done|]. intros wk le' lb' E. destruct (Hpost _ _ _ E) as (E1 & E2 & E3).
      cbn [live_entries]. rewrite Hlive, <- slen_encode_snoc. split; [done|]. rewrite E2, E3. destruct live; cbn [app length]; rewrite ?value_bytes_cons; lia. }
    cbn [entry_info en_Key en_ValueLength]. apply wp_bind, (wp_re_GetMetadata _ _ w3 m F3 Hb3 Hc3).
    + intros x w4 Hb4 A4 Hc4 -> Hno. apply (Hgo false); [done|by eapply adv_trans|done|]. unfold row_points. by rewrite Hno.
    + intros x w4 Hb4 A4 Hc4 ->. apply wp_ret, (HQ _ _ F3); [done|by eapply adv_trans|done|by intros ???].
    + intros vm w4 Hb4 A4 Hc4 Hr. pose proof (adv_trans _ _ _ _ _ _ _ _ _ A23 A4) as A. change (en_Offset _) with (slen (encode_all es1)).
      pose proof (row_points_row m _ vm (slen (encode_all es1)) Hr) as Hp.
      destruct (points_at vm path (slen (encode_all es1))); cbn [negb]; [by apply (Hgo true)|by apply (Hgo false)].
Qed.

Lemma live_sub m pos l : Z.of_nat (length (live_entries m pos l)) <= Z.of_nat (length l) /\ value_bytes (live_entries m pos l) <= value_bytes l.
Proof.
  revert pos. induction l as [|e l IH]; intros pos; [done|]. cbn [live_entries]. destruct (IH (pos + slen (encode e))) as [H1 H2].
  pose proof (slen_nonneg (e_value e)). destruct (row_points _ _ _); cbn [app length]; rewrite ?value_bytes_cons; lia.
Qed.

(** The walk only reads, the segment's counters included. *)
Definition untouched {A} (op : World.M (DB := DB) (SM := SegWorld) A) : Prop := forall w s, seg_at old (w_sm w) = s -> wp op (fun _ w' => seg_at old (w_sm w') = s) w.

Lemma untouched_bind {A B} (op : World.M A) (k : A -> World.M B) : untouched op -> (forall a, untouched (k a)) -> untouched (a ← op; k a).
Proof. intros H1 H2 w s Hs. apply wp_bind. eapply wp_mono; [by apply (H1 w s)|]. intros a w' Hw'. by apply H2. Qed.

Lemma untouched_ret {A} (a : A) : untouched (mret a).
Proof. intros w s Hs. by apply wp_ret. Qed.

Lemma untouched_ctx : untouched (ctx_Err cancelled).
Proof. intros w s Hs. by apply wp_fun. Qed.

Lemma untouched_GetMetadata key : untouched (GetMetadata key).
Proof.
  apply untouched_bind; [|intros; apply untouched_ret]. intros w s Hs. apply wp_fun. unfold Get_, on_db. by destruct (db_Get _ _).
Qed.

Lemma untouched_read {A} (op : ST SegIO A) : (forall io, wp op (fun _ => still io) io) -> untouched (on_sm (on_segment old op)).
Proof.
  intros Hop w s Hs. apply wp_on_sm, wp_on_segment. eapply wp_mono; [apply Hop|]. intros a io (E & _). cbn in E.
  unfold seg_at. cbn. rewrite lookup_insert_eq. cbn. by rewrite E.
Qed.

Lemma untouched_walk_loop fuel : forall it walked le lb, untouched (walk_loop senv cancelled limited fuel old path it walked le lb).
Proof.
  induction fuel as [|fuel IH]; intros it walked le lb; cbn [walk_loop]; [apply untouched_ret|].
  apply untouched_bind; [apply untouched_ctx|]. intros [x|]; [apply untouched_ret|].
  apply untouched_bind; [destruct limited; [apply untouched_ctx|apply untouched_ret]|]. intros [x|]; [apply untouched_ret|].
  apply untouched_bind; [apply untouched_read, Next_still|]. intros [[x|entry] it']; [apply untouched_ret|].
  apply untouched_bind; [apply untouched_GetMetadata|]. intros [x|vm]; [destruct (errors_Is _ _); [apply IH|apply untouched_ret]|].
  destruct (negb _); apply IH.
Qed.

Lemma untouched_open : untouched (open_segment senv old).
Proof. intros w s Hs. apply wp_on_sm, wp_bind, wp_fun. cbn [fst snd sw_syscall]. by apply wp_bind, wp_fun, wp_ret. Qed.

(** The walk derives exactly the dead bytes. When [walkSegmentLiveness] of a closed,
    well-formed segment, whose counters are those of its entries, gives an answer at all,
    the dead entries and bytes are exactly those of the entries that no row names at
    their own offset (an older entry of a key that was written again is dead). A store
    or file error in between gives no answer. *)
Theorem walk_exact w m F deadEntries deadBytes w1 :
  base w m F -> closed w ->
  sg_numEntries (seg_at old (w_sm w)) = Z.of_nat (length es) -> sg_dataBytes (seg_at old (w_sm w)) = value_bytes es ->
  walkSegmentLiveness senv cancelled limited old w = (inr (deadEntries, deadBytes), w1) ->
  let live := live_entries m 0 es in
  deadEntries = Z.of_nat (length es) - Z.of_nat (length live) /\ deadBytes = value_bytes es - value_bytes live.
Proof using Hformed Hplain.
  intros Hb Hc Hn Hd E live. eapply (wp_run _ (fun r _ => forall de db, r = inr (de, db) ->
    de = Z.of_nat (length es) - Z.of_nat (length live) /\ db = value_bytes es - value_bytes live) _ _ _ E); [|done].
  clear E. unfold walkSegmentLiveness. apply wp_bind, wp_on_sm, wp_bind, wp_fun, wp_ret. cbn [fst snd st_get].
  replace (set_sm (w_sm w) w) with w by (by destruct w). rewrite (ca_path _ _ _ _ Hc).
  set (s := seg_at old (w_sm w)) in *. apply wp_bind.
  eapply wp_mono; [apply wp_both; [|by apply (untouched_open w s)]|].
  { apply (wp_re_open (fun _ w' => exists F', base w' m F' /\ closed w') w m F Hb Hc). eauto. }
  intros [x|] w2 [(F2 & Hb2 & Hc2) Hs2]; [by apply wp_ret|]. apply wp_bind.
  eapply wp_mono; [apply wp_both; [|by apply (untouched_read (NewIterator senv) (NewIterator_still senv) w2 s)]|].
  { eapply (wp_re_read _ (fun r => forall it, r = inr it -> it = MkIter 0 (slen c) None)
      (fun r w' => (forall it, r = inr it -> it = MkIter 0 (slen c) None) /\ exists F', base w' m F' /\ closed w') w2 m F2 Hb2 Hc2);
      [apply NewIterator_still|apply NewIterator_start|eauto]. }
  intros [x|it] w3 [[Hit (F3 & Hb3 & Hc3)] Hs3]; [by apply wp_ret|]. rewrite (Hit it eq_refl). apply wp_bind.
  eapply wp_mono; [apply wp_both; [|by apply (untouched_walk_loop _ _ _ _ _ w3 s)]|].
  { apply (wp_walk_loop es _ [] None 0 0 (fun r _ => walk_post m [] es 0 0 r) w3 m F3 Hb3 Hc3); [done..|]. eauto. }
  intros r w4 [Hpost Hs4]. apply wp_bind, wp_fun. cbn [fst snd the_segment]. rewrite Hs4. apply wp_ret. intros de db.
  destruct r as [x|[[walked le] lb]]; [done|]. destruct (Hpost _ _ _ eq_refl) as (-> & -> & ->). cbn [encode_all]. change (slen EmptyString) with 0.
  fold live. rewrite Hn, Hd. destruct (live_sub m 0 es) as [Hl1 Hl2]. fold live in Hl1, Hl2.
  destruct formed_small as [Hsmall1 Hsmall2]. pose proof (value_bytes_bound es). pose proof (value_bytes_bound live).
  rewrite Z.eqb_refl, !Z.add_0_l, !i64_small by (unfold is_i64, two63, two60 in *; lia). cbn [negb].
  destruct (Z.leb_spec (Z.of_nat (length es)) 0) as [Hno|]; cbn [orb].
  { intros [= <- <-]. assert (es = []) as E by (apply length_zero_iff_nil; lia). unfold live. by rewrite E. }
  pose proof (value_bytes_pos es (fm_entries _ _ Hformed)). destruct (Z.leb_spec (value_bytes es) 0); intros [= <- <-]; lia.
Qed.

#[local] Instance reads_segments : SegmentStore SegWorld := segment_manager senv.


End Rewrite.
