(* ===== verification/RecompactionWitnesses.v ===== *)
(** * A recompaction on a concrete store

    A closed segment of two entries, one of them dead: the walk derives its bytes, the
    rewrite moves the other one and drops the segment; and when no new segment can be
    opened between two copies, the rewrite panics. *)

From S2P Require Import Prelude Keys Errors Message Merge ProtoInstance Wire Rocks RocksInstances World Files RangeReader Storage Wp Safety StorageSpec StorageProps StorageWitnesses SegmentFormat Segments SegmentProps SegmentStoreProps SegmentInv Compaction CompactionInv CompactionProps CompactionWitnesses Recompaction RecompactionInv RecompactionProps RecompactionSafe.

Open Scope Z_scope.

Definition d_path : bytes := seg_path c_env "seg" 0.
Definition d_dead : entry := MkE "d" "bygone" 0.
Definition d_live : entry := MkE "k" "hello world" 0.
Definition d_es : list entry := [d_dead; d_live].
Definition d_content : bytes := encode_all d_es +:+ BuildSegmentFooterWithVersion 1 2 17.
Definition d_vm : ValueMessage := MkVM SEGMENT EmptyString 0 EmptyString d_path (slen (encode d_dead)) 11 7 3 0 0.
Definition d_rows : gmap bytes bytes := {[MakeMetadataKey "k" := enc_message d_vm]}.
Definition d_store : SegWorld :=
  MkSegWorld {[d_path := d_content]} 1 {[0%nat := NewSegment d_path 2 17 (slen d_content) 4096]} 1 [0%nat] {[d_path := 0%nat]} [].
Definition d_world : World Journal SegWorld := MkWorld (MkJournal d_rows []) d_store ∅ 1 11 0 0 ∅ [] 0 0.
Definition d_front (_ : nat) : bytes := encode_all d_es.

Lemma d_decodes : proto_Unmarshal (enc_message d_vm) = Some d_vm.
Proof. vm_compute. reflexivity. Qed.

Lemma d_row key vm : row_at d_rows key vm -> key = "k"%string /\ vm = d_vm.
Proof.
  intros (v & E & U). unfold d_rows in E. apply lookup_singleton_Some in E as [E <-]. apply MakeMetadataKey_inj in E as <-. pose proof d_decodes. split; congruence.
Qed.

Lemma d_formed : formed d_content d_es.
Proof.
  split; [eexists; split; [reflexivity|by vm_compute]| |by vm_compute].
  repeat constructor; cbn; try (by vm_compute); by left.
Qed.

Lemma d_closed : closed_at d_store 0 d_path d_content.
Proof. by split; vm_compute. Qed.

Lemma d_store_ok : store_ok c_env "seg" d_store d_front.
Proof.
  split.
  - intros path l E. cbn in E. apply lookup_singleton_Some in E as [<- <-]. split_and!; [|cbn; lia|].
    + split_and!; [by vm_compute..| |by vm_compute]. exists d_content. split; [by vm_compute|]. by vm_compute.
    + split; [by eexists|by vm_compute].
  - intros l Hl [p Hp]. cbn in Hl. assert (l = 0%nat) as -> by lia. discriminate Hp.
  - intros l Hl. cbn in Hl. set_solver.
  - intros n Hn. cbn in *. apply lookup_singleton_None. intros E. apply (names_unique _ _ _ c_seg_env) in E. lia.
Qed.

Lemma d_base : base w_env c_env w_cfg "seg" d_world d_rows d_front.
Proof.
  assert (forall key path len, ~ raw_at d_rows key path len) as Hno by (intros key path len (vm & [_ ->]%d_row & Ht & _); discriminate Ht).
  split; [by split| |apply d_store_ok| |by intros key path len ?%Hno].
  - split; try (by intros; exfalso; eapply Hno).
    + intros k v E Hk. unfold d_rows in E. apply lookup_singleton_Some in E as [<- _]. discriminate Hk.
    + intros n _ key len Hr. by apply Hno in Hr.
    + intros k e E Hk. unfold d_rows in E. apply lookup_singleton_Some in E as [<- _]. discriminate Hk.
    + done.
  - intros key v vm E U. destruct (d_row key vm) as [-> ->]; [by exists v|]. by split.
Qed.

Lemma d_aligned : aligned d_path d_es d_rows.
Proof. intros key vm ([-> ->]%d_row & _). exists [d_dead], d_live, []. by vm_compute. Qed.

Lemma d_plain k (db : Journal) e db' s : db_Get k db = (inl e, db') -> errors_Is e s = false.
Proof. discriminate. Qed.

Lemma d_files n : ~ in_dir "seg" (path_of w_env w_cfg n).
Proof. intros [name E]. discriminate E. Qed.

Definition d_run : outcome (option error) * World Journal SegWorld :=
  recompactSegment w_env c_env c_faults "seg" 4096 (fun _ => false) false (fun _ => O) 0 d_world.

(** The row points into a new segment, which holds the live entry only; the old one has
    left the manager and is queued for deletion. *)
Lemma d_run_result :
  d_run.1 = Returned None
  /\ (proto_Unmarshal <$> (j_rows (w_db d_run.2) !! MakeMetadataKey "k"))
     = Some (Some (MkVM SEGMENT EmptyString 0 EmptyString "seg/segment_1002.seg" 0 11 7 3 0 0))
  /\ sw_segMap (w_sm d_run.2) !! d_path = None
  /\ (fun c => stake (String.length (encode d_live)) c) <$> (sw_disk (w_sm d_run.2) !! "seg/segment_1002.seg") = Some (encode d_live)
  /\ j_rows (w_db d_run.2) !! MakeDeletionQueueKey 1700000000000000000 d_path = Some queue_mark.
Proof. vm_compute. auto. Qed.

Definition d_get : error + option value_reader := (Get (H1 := segment_manager c_env) w_env w_cfg "k" 6 10 d_run.2).1.


Definition d_walk : (error + Z * Z) * World Journal SegWorld := walkSegmentLiveness c_env (fun _ => false) true 0 d_world.

(** One of two entries is dead, six of seventeen bytes. *)
Lemma walk_exact_witness : d_walk.1 = inr (1, 6) /\ (1, 6) = (2 - Z.of_nat (length [d_live]), 17 - 11).
Proof.
  assert (d_walk.1 = inr (1, 6)) as E by (vm_compute; reflexivity). split; [exact E|].
  destruct (walk_exact w_env c_env w_cfg "seg" (fun _ => false) true 0 d_path d_content d_es d_plain d_formed
    d_world d_rows d_front 1 6 d_walk.2 d_base d_closed eq_refl eq_refl) as [E1 E2].
  - rewrite <- E. apply surjective_pairing.
  - exact (f_equal2 pair E1 E2).
Defined.

(** ** A panic *)

(** Both entries are live, a segment has room for one of them, and the second new segment
    cannot be created. *)
Definition p_vm : ValueMessage := MkVM SEGMENT EmptyString 0 EmptyString d_path 0 6 7 3 0 0.
Definition p_env (n : nat) : Env := MkEnv (env_now c_env) (fun _ => EmptyString) (fun k => if decide (k = n) then Some ENOSPC else None) (fun _ _ => false) (fun _ => 0).
Definition p_world : World Journal SegWorld :=
  MkWorld (MkJournal (<[MakeMetadataKey "d" := enc_message p_vm]> d_rows) []) d_store ∅ 1 11 0 0 ∅ [] 0 0.
Definition p_run (n : nat) := recompactSegment w_env (p_env n) c_faults "seg" 34 (fun _ => false) false (fun _ => O) 0 p_world.

(** A full disk can crash the rewrite. One system call that fails for lack of space,
    when the rewrite needs its second segment, leaves it without one; the copy of the
    first entry is staged, and the sync before the commit dereferences the missing
    segment. Any other single failure of a system call in this run is reported or
    passed over. *)
Theorem failed_acquisition_panics :
  (p_run 18).1 = Panicked /\ Forall (fun n => (p_run n).1 <> Panicked) (seq 0 18 ++ seq 20 20).
Proof. split; [vm_compute; reflexivity|]. repeat (apply Forall_cons; split; [vm_compute; discriminate|]). by apply Forall_nil_2. Qed.
