(* ===== verification/FileRecovery.v ===== *)
(** * Recovery of raw files at startup (storage/files/recovery.go, sync_types.go)

    Every row of the compaction index is validated against its metadata row and its
    file; the results are applied in batches. Parallel workers are a schedule: at each
    point one of the entries in flight is validated or one result is collected. *)

From S2P Require Import Prelude Keys Errors Message Merge Rocks World Files Segments Compaction.

Open Scope Z_scope.

Inductive ValidationStatus := StatusValid | StatusCorrupted | StatusStale | StatusOrphaned | StatusMissing.
#[export] Instance ValidationStatus_eq_dec : EqDecision ValidationStatus.
Proof. solve_decision. Defined.

Definition ValidationStatus_String (s : ValidationStatus) : bytes :=
  match s with
  | StatusValid => "valid"
  | StatusCorrupted => "corrupted"
  | StatusStale => "stale"
  | StatusOrphaned => "orphaned"
  | StatusMissing => "missing"
  end.

Record ValidationResult := MkResult {
  vr_SyncKey : bytes;
  vr_FilePath : bytes;
  vr_MetadataKey : bytes;
  vr_Status : ValidationStatus;
  vr_Error : option error
}.

Record RecoveryStats := MkRecStats { rs_Total : Z; rs_Valid : Z; rs_Corrupted : Z; rs_Stale : Z; rs_Orphaned : Z; rs_Missing : Z }.
Definition no_stats : RecoveryStats := MkRecStats 0 0 0 0 0 0.

Definition count_status (s : ValidationStatus) (st : RecoveryStats) : RecoveryStats :=
  let '(MkRecStats t v c s' o m) := st in
  match s with
  | StatusValid => MkRecStats (t + 1) (v + 1) c s' o m
  | StatusCorrupted => MkRecStats (t + 1) v (c + 1) s' o m
  | StatusStale => MkRecStats (t + 1) v c (s' + 1) o m
  | StatusOrphaned => MkRecStats (t + 1) v c s' (o + 1) m
  | StatusMissing => MkRecStats (t + 1) v c s' o (m + 1)
  end.

Record compactionEntryInfo := MkInfo { ci_Key : bytes; ci_UserKey : bytes; ci_FilePath : bytes }.

Definition MaxWorkers : Z := 16.
Definition deletion_batch : nat := 100.

(** [NewRecoveryManager]: the number of workers. *)
Definition recovery_workers (numWorkers : Z) : nat := Z.to_nat (if numWorkers <=? 0 then MaxWorkers else numWorkers).

(** [streamEntries]: the rows that parse. *)
Definition parsed_entries (rows : list (bytes * bytes)) : list compactionEntryInfo :=
  omap (fun '(k, v) => let '(userKey, filePath, ok) := ParseCompactionIndexRow k v in
                       if (ok : bool) then Some (MkInfo k userKey filePath) else None) rows.

(** Entries not yet validated, results on their way to the collector, its batch, its
    statistics and the first error. *)
Record pipeline := MkPipe {
  pl_todo : list compactionEntryInfo;
  pl_results : list ValidationResult;
  pl_batch : list ValidationResult;
  pl_stats : RecoveryStats;
  pl_err : option error
}.

(** What happens next: a worker finishes the [i]-th entry left, or the collector
    takes a result. *)
Inductive pipe_move := Validate (i : nat) | Collect.

Section Recovery.

Context {DB : Type} `{Protobuf} `{RocksDB DB} (env : Env).
Notation M := (World.M (DB := DB) (SM := SegWorld)).

Definition validateEntry (entry : compactionEntryInfo) : M ValidationResult :=
  let result metadataKey status err := MkResult (ci_Key entry) (ci_FilePath entry) metadataKey status err in
  let metadataKey := MakeMetadataKey (ci_UserKey entry) in
  r ← GetMetadata metadataKey;
  match r with
  | inl e =>
      if errors_Is e ErrMetadataNotFound then mret (result EmptyString StatusOrphaned None)
      else mret (result EmptyString StatusCorrupted (Some e))
  | inr metadata =>
      if negb (ValueType metadata =? RAW_FILE) then mret (result EmptyString StatusStale None)
      else if bool_decide (RawFilePath metadata <> ci_FilePath entry) then mret (result EmptyString StatusStale None)
      else
        r ← os_Stat env (ci_FilePath entry);
        mret match r with
             | inl e => result metadataKey StatusMissing (Some e)
             | inr size =>
                 if negb (size =? ValueLength metadata) then result metadataKey StatusCorrupted None
                 else result EmptyString StatusValid None
             end
  end.

(** ** Applying results *)

(** The operations of one result, after its file is removed. *)
Definition result_ops (r : ValidationResult) : list batch_op :=
  BDelete (vr_SyncKey r) ::
  match vr_Status r with
  | StatusCorrupted | StatusOrphaned | StatusMissing =>
      if decide (vr_MetadataKey r = EmptyString) then [] else [BDelete (vr_MetadataKey r)]
  | StatusValid | StatusStale => []
  end.

Definition result_file (r : ValidationResult) : M () :=
  match vr_Status r with
  | StatusCorrupted | StatusOrphaned =>
      if decide (vr_FilePath r = EmptyString) then mret () else _ ← os_Remove env (vr_FilePath r); mret ()
  | _ => mret ()
  end.

Fixpoint remove_files (batch : list ValidationResult) : M () :=
  match batch with
  | [] => mret ()
  | r :: batch => _ ← result_file r; remove_files batch
  end.

Definition processDeletionBatch (batch : list ValidationResult) : M (option error) :=
  if decide (batch = []) then mret None
  else
    _ ← remove_files batch;
    r ← Write_ (batch ≫= result_ops);
    mret match r with Some e => Some (EWrap "failed to write deletion batch" e) | None => None end.

(** ** The pipeline *)

(** The channel for errors keeps the first one. *)
Definition first_error (old new : option error) : option error := match old with Some _ => old | None => new end.

Definition flush (pl : pipeline) : M pipeline :=
  e ← processDeletionBatch (pl_batch pl);
  mret (MkPipe (pl_todo pl) (pl_results pl) [] (pl_stats pl) (first_error (pl_err pl) e)).

(** The collector takes a result. *)
Definition collect (pl : pipeline) : M pipeline :=
  match pl_results pl with
  | [] => mret pl
  | r :: results =>
      let pl := MkPipe (pl_todo pl) results (pl_batch pl ++ [r]) (count_status (vr_Status r) (pl_stats pl)) (pl_err pl) in
      if decide (deletion_batch <= length (pl_batch pl))%nat then flush pl else mret pl
  end.

(** A worker finishes an entry; no more than [workers] are in flight. *)
Definition validate_at (workers i : nat) (pl : pipeline) : M pipeline :=
  if decide (i < workers)%nat then
    match pl_todo pl !! i with
    | None => mret pl
    | Some entry =>
        r ← validateEntry entry;
        mret (MkPipe (delete i (pl_todo pl)) (pl_results pl ++ [r]) (pl_batch pl) (pl_stats pl) (pl_err pl))
    end
  else mret pl.

Definition pipe_step (workers : nat) (mv : pipe_move) (pl : pipeline) : M pipeline :=
  match mv with Validate i => validate_at workers i pl | Collect => collect pl end.

Fixpoint pipe_steps (workers : nat) (sched : list pipe_move) (pl : pipeline) : M pipeline :=
  match sched with
  | [] => mret pl
  | mv :: sched => pl ← pipe_step workers mv pl; pipe_steps workers sched pl
  end.

(** What is left when the schedule is over is done in order. *)
Definition finish_moves (todo : list compactionEntryInfo) (results : list ValidationResult) : list pipe_move :=
  replicate (length todo) (Validate 0) ++ replicate (length todo + length results) Collect.

Definition drain (workers : nat) (pl : pipeline) : M pipeline :=
  pl ← pipe_steps workers (finish_moves (pl_todo pl) (pl_results pl)) pl;
  flush pl.

(** [processEntriesStreaming] under a schedule. *)
Definition processEntriesStreaming (numWorkers : Z) (sched : list pipe_move) : M (error + RecoveryStats) :=
  '(rows, err) ← Iterate_ CompactionIndexPrefix;
  let workers := recovery_workers numWorkers in
  pl ← pipe_steps workers sched (MkPipe (parsed_entries (prefix_rows CompactionIndexPrefix rows)) [] [] no_stats None);
  pl ← drain workers pl;
  mret match err, pl_err pl with
       | Some e, _ => inl (EWrap "iterator error" e)
       | None, Some e => inl e
       | None, None => inr (pl_stats pl)
       end.

Definition RecoverOnStartup (numWorkers : Z) (sched : list pipe_move) : M (option error) :=
  r ← processEntriesStreaming numWorkers sched;
  mret match r with inl e => Some (EWrap "streaming recovery failed" e) | inr _ => None end.

End Recovery.
