(* ===== verification/FileRecoveryProps.v ===== *)
(** * What recovery keeps and what it removes *)

From S2P Require Import Prelude Keys Errors Message Merge Wire ProtoInstance Rocks RocksInstances World Files RangeReader Storage Wp Safety StorageSpec StorageProps ReconcileProps StorageWitnesses SegmentFormat Segments SegmentInv Compaction CompactionInv CompactionProps CompactionWitnesses FileRecovery.

Open Scope Z_scope.

#[local] Arguments has_prefix : simpl never.
#[local] Arguments apply_batch : simpl never.
#[local] Arguments MakeMetadataKey : simpl never.

(** ** Batches of deletions *)

Definition deletions (r : ValidationResult) : list bytes :=
  vr_SyncKey r ::
  match vr_Status r with
  | StatusCorrupted | StatusOrphaned | StatusMissing => if decide (vr_MetadataKey r = EmptyString) then [] else [vr_MetadataKey r]
  | StatusValid | StatusStale => []
  end.

Lemma result_ops_deletions r : result_ops r = BDelete <$> deletions r.
Proof. unfold result_ops, deletions. destruct (vr_Status r); try done; by destruct (decide _). Qed.

Lemma batch_deletions batch : batch ≫= result_ops = BDelete <$> (batch ≫= deletions).
Proof. induction batch as [|r batch IH]; [done|]. by rewrite !bind_cons, fmap_app, result_ops_deletions, IH. Qed.

Lemma apply_deletes {PB : Protobuf} (m : gmap bytes bytes) ks k :
  apply_batch m (BDelete <$> ks) !! k = if decide (k ∈ ks) then None else m !! k.
Proof.
  revert m. induction ks as [|x ks IH]; intros m; [by rewrite decide_False by set_solver|].
  change (apply_batch m (BDelete <$> x :: ks)) with (apply_batch (delete x m) (BDelete <$> ks)). rewrite IH.
  destruct (decide (k ∈ ks)); [by rewrite decide_True by set_solver|]. destruct (decide (k = x)) as [->|].
  - rewrite lookup_delete_eq. by rewrite decide_True by set_solver.
  - rewrite lookup_delete_ne by done. by rewrite decide_False by set_solver.
Qed.

Lemma deletes_regular {PB : Protobuf} m ks : batch_regular m (BDelete <$> ks).
Proof. apply plain_regular. apply Forall_fmap, Forall_true. by intros. Qed.

Section Recovery.

Context {DB : Type} {PB : Protobuf} {PL : ProtobufLaws} {RDB : RocksDB DB} {RL : RocksLaws DB}.
Context (env : Env).
Implicit Types m : gmap bytes bytes.
Implicit Types w : World DB SegWorld.

(** The store and the files at startup. *)
Context (m0 d0 : gmap bytes bytes).

(** A row that names a raw file, and whether that file is there with its length. *)
Definition names m (key : bytes) (vm : ValueMessage) (path : bytes) : Prop := row_at m key vm /\ ValueType vm = RAW_FILE /\ RawFilePath vm = path.
Definition intact (vm : ValueMessage) : Prop := exists c, d0 !! RawFilePath vm = Some c /\ slen c = ValueLength vm.

Definition damaged (key : bytes) : Prop := exists vm, row_at m0 key vm /\ ValueType vm = RAW_FILE /\ ~ intact vm.
(** A file whose loss makes no value unreadable. *)
Definition removable (path : bytes) : Prop := forall key vm, names m0 key vm path -> ~ intact vm.

(** An entry of the index: only its own key names its file. *)
Record entry_fine (e : compactionEntryInfo) : Prop := {
  ef_key : has_prefix CompactionIndexPrefix (ci_Key e) = true;
  ef_only key vm : names m0 key vm (ci_FilePath e) -> key = ci_UserKey e
}.

(** A result that may be applied at any later time. *)
Record result_fine (r : ValidationResult) : Prop := {
  rf_key : has_prefix CompactionIndexPrefix (vr_SyncKey r) = true;
  rf_file : vr_Status r = StatusCorrupted \/ vr_Status r = StatusOrphaned -> removable (vr_FilePath r);
  rf_meta : vr_MetadataKey r <> EmptyString -> exists key, vr_MetadataKey r = MakeMetadataKey key /\ damaged key
}.

(** What recovery has done so far. *)
Record so_far w m : Prop := {
  sf_db : represents (w_db w) m;
  sf_rows key : m !! MakeMetadataKey key = m0 !! MakeMetadataKey key \/ m !! MakeMetadataKey key = None /\ damaged key;
  sf_files path : w_disk w !! path = d0 !! path \/ w_disk w !! path = None /\ removable path;
  sf_rest k : has_prefix CompactionIndexPrefix k = false -> has_prefix MetadataPrefix k = false -> m !! k = m0 !! k
}.

(** A damaged value whose index entry is [e] goes with the result. *)
Definition mends m (e : compactionEntryInfo) (P : Prop) : Prop :=
  forall vm, names m0 (ci_UserKey e) vm (ci_FilePath e) -> ~ intact vm -> m !! MakeMetadataKey (ci_UserKey e) = None \/ P.

Definition settles m (r : ValidationResult) (e : compactionEntryInfo) : Prop :=
  vr_SyncKey r = ci_Key e /\ mends m e (MakeMetadataKey (ci_UserKey e) ∈ deletions r).
Definition settled m (e : compactionEntryInfo) : Prop := m !! ci_Key e = None /\ mends m e False.

(** Reads of the store and system calls work; writes of the store may fail. *)
Context (Hreads : forall k (db : DB) e db', db_Get k db <> (inl e, db')) (Hcalm : forall n, env_fault env n = None).

Lemma so_far_tick w m : so_far w m -> so_far (tick w) m.
Proof. intros []. by split. Qed.

(** The row that names the file of an entry is the row of its key. *)
Lemma only_row e key vm vm' : entry_fine e -> row_at m0 (ci_UserKey e) vm -> names m0 key vm' (ci_FilePath e) -> vm' = vm.
Proof. intros [_ He] Hr Hn. pose proof (He key vm' Hn) as ->. destruct Hn as (Hr' & _). by eapply row_at_fun. Qed.

(** What the file of a row says now it said at startup. *)
Lemma seen_file w m key vm c :
  so_far w m -> row_at m0 key vm -> ValueType vm = RAW_FILE -> w_disk w !! RawFilePath vm = c ->
  intact vm <-> exists x, c = Some x /\ slen x = ValueLength vm.
Proof.
  intros Hs Hr Ht Hc. destruct (sf_files _ _ Hs (RawFilePath vm)) as [E|[E Hrem]].
  - unfold intact. by rewrite <- E, Hc.
  - rewrite E in Hc. subst c. split; [intros Hi|by intros (? & ? & _)]. by destruct (Hrem key vm).
Qed.

Lemma MakeMetadataKey_nonempty key : MakeMetadataKey key <> EmptyString.
Proof. done. Qed.

(** A row that is there. *)
Lemma wp_validate_row e vm v (Q : ValidationResult -> World DB SegWorld -> Prop) w m :
  so_far w m -> entry_fine e -> m !! MakeMetadataKey (ci_UserKey e) = Some v -> proto_Unmarshal v = Some vm ->
  ValueType vm = RAW_FILE -> RawFilePath vm = ci_FilePath e ->
  (forall r w', so_far w' m -> result_fine r -> settles m r e -> Q r w') ->
  wp (r ← os_Stat env (ci_FilePath e);
      mret match r with
           | inl x => MkResult (ci_Key e) (ci_FilePath e) (MakeMetadataKey (ci_UserKey e)) StatusMissing (Some x)
           | inr size =>
               if negb (size =? ValueLength vm) then MkResult (ci_Key e) (ci_FilePath e) (MakeMetadataKey (ci_UserKey e)) StatusCorrupted None
               else MkResult (ci_Key e) (ci_FilePath e) EmptyString StatusValid None
           end) Q w.
Proof using Hreads Hcalm PL.
  intros Hs He Em Eu Ht Hp HQ. assert (row_at m0 (ci_UserKey e) vm) as Hr.
  { exists v. split; [|done]. destruct (sf_rows _ _ Hs (ci_UserKey e)) as [<-|[Hn _]]; [done|congruence]. }
  apply wp_bind. unfold os_Stat. apply wp_bind, wp_syscall. rewrite Hcalm. apply wp_fun. cbn [fst snd].
  pose proof (so_far_tick _ _ Hs) as Hs1. destruct (w_disk (tick w) !! ci_FilePath e) as [c|] eqn:Ed; apply wp_ret.
  all: pose proof (seen_file (tick w) m (ci_UserKey e) vm _ Hs1 Hr Ht ltac:(rewrite Hp; exact Ed)) as Hi.
  all: assert (~ intact vm -> damaged (ci_UserKey e)) as Hdam by (intros; by exists vm).
  - destruct (Z.eqb_spec (slen c) (ValueLength vm)) as [El|El]; cbn [negb]; apply HQ; try done.
    + split; cbn; try done; [apply He|by intros [|]].
    + split; [done|]. intros vm' Hn Hno. rewrite (only_row e _ vm vm' He Hr Hn) in Hno. destruct Hno. apply Hi. by exists c.
    + assert (~ intact vm) as Hno by (rewrite Hi; intros (x & [= <-] & ?); done). split; cbn.
      * apply He.
      * intros _ key vm' Hn. by rewrite (only_row e key vm vm' He Hr Hn).
      * intros _. eauto.
    + split; [done|]. intros vm' _ _. right. unfold deletions. cbn. rewrite decide_False by apply MakeMetadataKey_nonempty. set_solver.
  - assert (~ intact vm) as Hno by (rewrite Hi; by intros (x & ? & _)). apply HQ; [done| |].
    + split; cbn; [apply He|by intros [|]|]. intros _. eauto.
    + split; [done|]. intros vm' _ _. right. unfold deletions. cbn. rewrite decide_False by apply MakeMetadataKey_nonempty. set_solver.
Qed.

Lemma wp_validateEntry e (Q : ValidationResult -> World DB SegWorld -> Prop) w m :
  so_far w m -> entry_fine e -> (forall r w', so_far w' m -> result_fine r -> settles m r e -> Q r w') -> wp (validateEntry env e) Q w.
Proof using Hreads Hcalm PL.
  intros Hs He HQ. unfold validateEntry, GetMetadata. apply wp_bind, wp_bind, wp_fun. unfold Get_, on_db.
  destruct (db_Get _ (w_db w)) as [[e'|v] db] eqn:E; [by apply Hreads in E|]. destruct (rdb_get _ _ _ _ _ (sf_db _ _ Hs) E) as [Hdb Hv].
  rewrite (Hv v eq_refl). cbn [fst snd]. apply wp_ret. assert (so_far (set_db db w) m) as Hs1 by (by destruct Hs; split).
  pose proof (sf_rows _ _ Hs (ci_UserKey e)) as Hrow.
  assert (forall status err, (status <> StatusCorrupted /\ status <> StatusOrphaned \/ removable (ci_FilePath e)) ->
    (forall vm, names m0 (ci_UserKey e) vm (ci_FilePath e) -> ~ intact vm -> m !! MakeMetadataKey (ci_UserKey e) = None) ->
    wp (mret (MkResult (ci_Key e) (ci_FilePath e) EmptyString status err)) Q (set_db db w)) as Hend.
  { intros status err Hst Hm. apply wp_ret, HQ; [done| |].
    - split; cbn; [apply He| |done]. intros Hc. destruct Hst as [[]|]; [naive_solver|done].
    - split; [done|]. intros vm Hn Hno. left. by apply (Hm vm). }
  destruct (m !! MakeMetadataKey (ci_UserKey e)) as [v'|] eqn:Em.
  2: { apply Hend; [right|done]. intros k vm Hn Hi. pose proof (ef_only _ He k vm Hn) as ->. destruct Hn as (Hr & _).
       destruct Hrow as [Eq|(_ & vm' & Hr' & _ & Hno)]; [destruct Hr as (? & Ev & _); congruence|].
       by rewrite (row_at_fun _ _ _ _ Hr' Hr) in Hno. }
  destruct Hrow as [Hrow|[? _]]; [|done]. destruct (proto_Unmarshal v') as [vm|] eqn:Eu.
  2: { assert (forall vm, ~ row_at m0 (ci_UserKey e) vm) as Hno by (intros vm (v2 & E2 & U2); congruence).
       apply Hend; [right|]; [|by intros vm [Hr _]; destruct (Hno vm)]. intros k vm Hn. pose proof (ef_only _ He k vm Hn) as ->.
       destruct Hn as [Hr _]. by destruct (Hno vm). }
  assert (row_at m0 (ci_UserKey e) vm) as Hr by (by exists v').
  destruct (Z.eqb_spec (ValueType vm) RAW_FILE) as [Ht|Ht]; cbn [negb].
  2: { apply Hend; [by left|]. intros vm' Hn. pose proof (only_row e _ vm vm' He Hr Hn) as ->. by destruct Hn as (_ & ? & _). }
  destruct (decide (RawFilePath vm = ci_FilePath e)) as [Hp|Hp].
  - rewrite bool_decide_false by (intros H'; by apply H'). by eapply (wp_validate_row e vm v').
  - rewrite bool_decide_true by done. apply Hend; [by left|]. intros vm' Hn. pose proof (only_row e _ vm vm' He Hr Hn) as ->. by destruct Hn as (_ & _ & ?).
Qed.

(** ** Applying results *)

Lemma wp_remove_files batch (Q : () -> World DB SegWorld -> Prop) w m :
  so_far w m -> Forall result_fine batch -> (forall w', so_far w' m -> Q () w') -> wp (remove_files env batch) Q w.
Proof using Hreads Hcalm PL.
  revert w. induction batch as [|r batch IH]; intros w Hs Hb HQ; cbn [remove_files]; [by apply wp_ret, HQ|].
  apply Forall_cons_1 in Hb as [Hr Hb]. apply wp_bind.
  assert (forall w', so_far w' m -> wp (remove_files env batch) Q w') as Hgo by (intros; by apply IH).
  assert (removable (vr_FilePath r) -> wp (_ ← os_Remove env (vr_FilePath r); mret ()) (fun _ w' => wp (remove_files env batch) Q w') w) as Hrem.
  { intros Hrem. apply wp_bind. unfold os_Remove. apply wp_bind, wp_syscall. rewrite Hcalm. apply wp_fun. cbn [fst snd].
    destruct (w_disk (tick w) !! vr_FilePath r) as [c|] eqn:Ed; apply wp_ret, Hgo; [|by apply so_far_tick].
    destruct (so_far_tick _ _ Hs). split; try done. intros path. cbn. destruct (decide (path = vr_FilePath r)) as [->|].
    - right. by rewrite lookup_delete_eq.
    - rewrite lookup_delete_ne by done. apply sf_files0. }
  unfold result_file. destruct (vr_Status r) eqn:Es; try (by apply wp_ret, Hgo).
  all: destruct (decide _); [by apply wp_ret, Hgo|apply Hrem, Hr; auto].
Qed.

Lemma metadata_not_index key : has_prefix CompactionIndexPrefix (MakeMetadataKey key) = false.
Proof. apply (prefix_excl MetadataPrefix); [reflexivity|apply has_prefix_app]. Qed.

(** A batch deletes index rows and rows of damaged values. *)
Lemma batch_keys batch k : Forall result_fine batch -> k ∈ batch ≫= deletions ->
  has_prefix CompactionIndexPrefix k = true \/ exists key, k = MakeMetadataKey key /\ damaged key.
Proof.
  intros Hb Hin. apply list_elem_of_bind in Hin as (r & Hin & Hr). rewrite Forall_forall in Hb. destruct (Hb r Hr) as [H3 _ H4].
  apply elem_of_cons in Hin as [->|Hin]; [by left|right].
  assert (k = vr_MetadataKey r /\ vr_MetadataKey r <> EmptyString) as [-> Hne]; [|by apply H4].
  destruct (vr_Status r); try (by apply elem_of_nil in Hin); destruct (decide _); try (by apply elem_of_nil in Hin);
    apply list_elem_of_singleton in Hin; by subst.
Qed.

(** Rows only go. *)
Definition fewer m m' : Prop := forall k, m !! k = None -> m' !! k = None.

Lemma mends_fewer m m' e (P P' : Prop) : fewer m m' -> (P -> m' !! MakeMetadataKey (ci_UserKey e) = None \/ P') -> mends m e P -> mends m' e P'.
Proof. intros Hf HP Hm vm Hn Hno. destruct (Hm vm Hn Hno) as [E|H]; [left; by apply Hf|auto]. Qed.

Lemma wp_batch batch (Q : option error -> World DB SegWorld -> Prop) w m :
  so_far w m -> Forall result_fine batch ->
  (forall e w', so_far w' m -> Q (Some e) w') ->
  (forall w' m', so_far w' m' -> fewer m m' -> (forall r k, r ∈ batch -> k ∈ deletions r -> m' !! k = None) -> Q None w') ->
  wp (processDeletionBatch env batch) Q w.
Proof using Hreads Hcalm PL.
  intros Hs Hb H1 H2. unfold processDeletionBatch. destruct (decide (batch = [])) as [->|_].
  { apply wp_ret, (H2 w m Hs); [by intros k|]. intros r k Hr. by apply elem_of_nil in Hr. }
  apply wp_bind, (wp_remove_files batch _ w m Hs Hb). intros w1 Hs1. apply wp_bind. rewrite batch_deletions.
  eapply wp_Write; [apply Hs1|apply deletes_regular|..].
  - intros e db Hdb. apply wp_ret, H1. by destruct Hs1; split.
  - intros db Hdb. apply wp_ret. eapply H2.
    + destruct Hs1. split; [exact Hdb| |done|].
      * intros key. rewrite apply_deletes. destruct (decide _) as [Hin|]; [|done]. right. split; [done|].
        apply (batch_keys _ _ Hb) in Hin as [Hk|(k & E & Hd)]; [by rewrite metadata_not_index in Hk|]. by apply MakeMetadataKey_inj in E as ->.
      * intros k Hk1 Hk2. rewrite apply_deletes. destruct (decide _) as [Hin|]; [|by apply sf_rest0]. exfalso.
        apply (batch_keys _ _ Hb) in Hin as [Hk|(key & -> & _)]; [congruence|]. unfold MakeMetadataKey in Hk2. by rewrite has_prefix_app in Hk2.
    + intros k Hk. rewrite apply_deletes. by destruct (decide _).
    + intros r k Hr Hk. rewrite apply_deletes, decide_True; [done|]. apply list_elem_of_bind. eauto.
Qed.

(** ** The pipeline *)

(** Every entry of the index is waiting, has a result that settles it, or is settled. *)
Record pipe_ok (es0 : list compactionEntryInfo) w m (pl : pipeline) : Prop := {
  po_far : so_far w m;
  po_todo : Forall entry_fine (pl_todo pl);
  po_res : Forall result_fine (pl_results pl ++ pl_batch pl);
  po_all e : e ∈ es0 -> e ∈ pl_todo pl \/ (exists r, r ∈ pl_results pl ++ pl_batch pl /\ settles m r e) \/ (pl_err pl = None -> settled m e)
}.

Lemma settles_fewer m m' r e : fewer m m' -> settles m r e -> settles m' r e.
Proof. intros Hf [H1 H2]. split; [done|]. eapply mends_fewer; [exact Hf| |exact H2]. auto. Qed.

Lemma settled_fewer m m' e : fewer m m' -> settled m e -> settled m' e.
Proof. intros Hf [H1 H2]. split; [by apply Hf|]. eapply mends_fewer; [exact Hf| |exact H2]. auto. Qed.

Lemma wp_flush es0 pl (Q : pipeline -> World DB SegWorld -> Prop) w m :
  pipe_ok es0 w m pl ->
  (forall pl' w' m', pipe_ok es0 w' m' pl' -> pl_todo pl' = pl_todo pl -> pl_results pl' = pl_results pl -> pl_batch pl' = [] -> Q pl' w') ->
  wp (flush env pl) Q w.
Proof using Hreads Hcalm PL.
  intros [Hs Ht Hr Ha] HQ. apply Forall_app in Hr as [Hr1 Hr2]. unfold flush. apply wp_bind, (wp_batch _ _ w m Hs Hr2).
  - intros x w' Hs'. apply wp_ret, (HQ _ w' m); [|done..]. split; cbn; try done; [by rewrite app_nil_r|]. intros e He.
    destruct (Ha e He) as [?|[(r & Hin & Hset)|Hset]]; [by left| |right; right; intros; by destruct (pl_err pl)].
    apply elem_of_app in Hin as [Hin|Hin]; [right; left; exists r; by rewrite app_nil_r|]. right. right. by destruct (pl_err pl).
  - intros w' m' Hs' Hf Hdel. apply wp_ret, (HQ _ w' m'); [|done..]. split; cbn; try done; [by rewrite app_nil_r|]. intros e He.
    destruct (Ha e He) as [?|[(r & Hin & Hset)|Hset]]; [by left| |].
    + apply elem_of_app in Hin as [Hin|Hin]; [right; left; exists r; rewrite app_nil_r; split; [done|by eapply settles_fewer]|].
      right. right. intros _. destruct Hset as [E Hm]. split.
      * rewrite <- E. apply (Hdel r); [done|by left].
      * eapply mends_fewer; [exact Hf| |exact Hm]. intros Hk. left. by apply (Hdel r).
    + right. right. intros Herr. eapply settled_fewer; [exact Hf|]. apply Hset. by destruct (pl_err pl).
Qed.

Lemma wp_collect es0 pl (Q : pipeline -> World DB SegWorld -> Prop) w m :
  pipe_ok es0 w m pl ->
  (forall pl' w' m', pipe_ok es0 w' m' pl' -> pl_todo pl' = pl_todo pl -> pl_results pl' = tail (pl_results pl) -> Q pl' w') ->
  wp (collect env pl) Q w.
Proof using Hreads Hcalm PL.
  intros Hp HQ. unfold collect. destruct (pl_results pl) as [|r results] eqn:Er; [apply wp_ret, (HQ _ w m); [done|done|by rewrite Er]|].
  set (pl1 := MkPipe _ _ _ _ _). assert (pipe_ok es0 w m pl1) as Hp1.
  { destruct Hp as [Hs Ht Hr Ha]. rewrite Er in Hr, Ha. split; cbn; try done.
    - rewrite app_assoc, Forall_app in *. destruct Hr as [Hr1 Hr2]. apply Forall_cons_1 in Hr1 as [? ?]. rewrite !Forall_app, Forall_singleton. done.
    - intros e He. destruct (Ha e He) as [?|[(x & Hin & Hset)|?]]; [by left| |by right; right]. right. left. exists x. split; [set_solver|done]. }
  destruct (decide _); [|by apply wp_ret, (HQ _ w m)]. apply (wp_flush es0 pl1 _ w m Hp1). intros pl' w' m' Hp' E1 E2 _. by apply (HQ _ w' m').
Qed.

Lemma wp_validate_at es0 workers i pl (Q : pipeline -> World DB SegWorld -> Prop) w m :
  pipe_ok es0 w m pl ->
  (forall pl' w' m', pipe_ok es0 w' m' pl' ->
     ((i < workers)%nat -> is_Some (pl_todo pl !! i) -> pl_todo pl' = delete i (pl_todo pl) /\ length (pl_results pl') = S (length (pl_results pl))) -> Q pl' w') ->
  wp (validate_at env workers i pl) Q w.
Proof using Hreads Hcalm PL.
  intros Hp HQ. unfold validate_at. destruct (decide _) as [Hi|Hi]; [|apply wp_ret, (HQ _ w m Hp); lia].
  destruct (pl_todo pl !! i) as [e|] eqn:Ei; [|apply wp_ret, (HQ _ w m Hp); by intros _ []]. destruct Hp as [Hs Ht Hr Ha].
  apply wp_bind, (wp_validateEntry e _ w m Hs); [by apply (Forall_lookup_1 _ _ _ _ Ht Ei)|]. intros r w' Hs' Hf Hset.
  apply wp_ret, (HQ _ w' m); [|intros _ _; cbn; rewrite length_app; cbn; split; [done|lia]]. split; cbn; try done.
  - by apply Forall_delete.
  - rewrite <- app_assoc. apply Forall_app in Hr as [? ?]. rewrite !Forall_app, Forall_singleton. done.
  - intros x Hx. destruct (Ha x Hx) as [Hin|[(y & Hin & Hy)|?]]; [|right; left; exists y; split; [set_solver|done]|by right; right].
    apply list_elem_of_lookup in Hin as [j Hj]. destruct (decide (j = i)) as [->|Hne].
    + right. left. exists r. rewrite Hj in Ei. injection Ei as ->. split; [set_solver|done].
    + left. apply list_elem_of_lookup. destruct (decide (j < i)%nat).
      * exists j. by rewrite list_lookup_delete_lt.
      * exists (pred j). rewrite list_lookup_delete_ge by lia. by replace (S (pred j)) with j by lia.
Qed.

Lemma wp_pipe_steps es0 workers sched pl (Q : pipeline -> World DB SegWorld -> Prop) w m :
  pipe_ok es0 w m pl -> (forall pl' w' m', pipe_ok es0 w' m' pl' -> Q pl' w') -> wp (pipe_steps env workers sched pl) Q w.
Proof using Hreads Hcalm PL.
  revert pl w m. induction sched as [|mv sched IH]; intros pl w m Hp HQ; cbn [pipe_steps]; [by apply wp_ret, (HQ _ w m)|].
  apply wp_bind. destruct mv as [i|]; cbn [pipe_step].
  - apply (wp_validate_at es0 _ _ _ _ w m Hp). intros pl' w' m' Hp' _. by apply (IH pl' w' m').
  - apply (wp_collect es0 _ _ w m Hp). intros pl' w' m' Hp' _ _. by apply (IH pl' w' m').
Qed.

Lemma wp_pipe_steps_app workers a b pl (Q : pipeline -> World DB SegWorld -> Prop) w :
  wp (pipe_steps env workers a pl) (fun pl' w' => wp (pipe_steps env workers b pl') Q w') w -> wp (pipe_steps env workers (a ++ b) pl) Q w.
Proof.
  revert pl w. induction a as [|mv a IH]; intros pl w Hw; [done|]. cbn [app pipe_steps] in *. unfold wp, mbind, ST_bind in *.
  destruct (pipe_step _ _ _ _ w) as [pl' w']. by apply IH.
Qed.

Lemma wp_validate_all es0 workers pl (Q : pipeline -> World DB SegWorld -> Prop) w m : (0 < workers)%nat ->
  pipe_ok es0 w m pl ->
  (forall pl' w' m', pipe_ok es0 w' m' pl' -> pl_todo pl' = [] -> length (pl_results pl') = (length (pl_todo pl) + length (pl_results pl))%nat -> Q pl' w') ->
  wp (pipe_steps env workers (replicate (length (pl_todo pl)) (Validate 0)) pl) Q w.
Proof using Hreads Hcalm PL.
  intros Hw. remember (length (pl_todo pl)) as n eqn:En. revert pl w m En. induction n as [|n IH]; intros pl w m En Hp HQ; cbn [replicate pipe_steps].
  { apply wp_ret, (HQ _ w m Hp); [|done]. symmetry in En. by apply length_zero_iff_nil in En. }
  destruct (pl_todo pl) as [|e todo] eqn:Et; [done|]. injection En as ->.
  apply wp_bind, (wp_validate_at es0 _ _ _ _ w m Hp). intros pl' w' m' Hp' Hshape. rewrite Et in Hshape. destruct Hshape as [E1 E2]; [done|by eexists|].
  cbn in E1. apply (IH pl' w' m'); [by rewrite E1|done|]. intros pl2 w2 m2 Hp2 Et2 El2. apply (HQ _ w2 m2); [done|done|]. lia.
Qed.

Lemma wp_collect_all es0 workers n pl (Q : pipeline -> World DB SegWorld -> Prop) w m :
  pipe_ok es0 w m pl -> pl_todo pl = [] -> length (pl_results pl) = n ->
  (forall pl' w' m', pipe_ok es0 w' m' pl' -> pl_todo pl' = [] -> pl_results pl' = [] -> Q pl' w') ->
  wp (pipe_steps env workers (replicate n Collect) pl) Q w.
Proof using Hreads Hcalm PL.
  revert pl w m. induction n as [|n IH]; intros pl w m Hp Et En HQ; cbn [replicate pipe_steps].
  { apply wp_ret, (HQ _ w m Hp); [done|]. by apply length_zero_iff_nil. }
  apply wp_bind, (wp_collect es0 _ _ w m Hp). intros pl' w' m' Hp' E1 E2. apply (IH pl' w' m'); [done|congruence| |done].
  rewrite E2. by destruct (pl_results pl); [|injection En].
Qed.

Lemma wp_drain es0 workers pl (Q : pipeline -> World DB SegWorld -> Prop) w m : (0 < workers)%nat ->
  pipe_ok es0 w m pl ->
  (forall pl' w' m', so_far w' m' -> (forall e, e ∈ es0 -> pl_err pl' = None -> settled m' e) -> Q pl' w') -> wp (drain env workers pl) Q w.
Proof using Hreads Hcalm PL.
  intros Hw Hp HQ. unfold drain, finish_moves. apply wp_bind, wp_pipe_steps_app.
  apply (wp_validate_all es0 _ _ _ w m Hw Hp). intros pl1 w1 m1 Hp1 Et1 El1. apply (wp_collect_all es0 _ _ _ _ w1 m1 Hp1 Et1 El1).
  intros pl2 w2 m2 Hp2 Et2 Er2. apply (wp_flush es0 _ _ w2 m2 Hp2). intros pl3 w3 m3 Hp3 Et3 Er3 Eb3. apply (HQ _ w3 m3); [apply Hp3|].
  intros e He Herr. destruct (po_all _ _ _ _ Hp3 e He) as [Hin|[(r & Hin & _)|Hset]]; [..|by apply Hset].
  - rewrite Et3, Et2 in Hin. by apply elem_of_nil in Hin.
  - rewrite Er3, Er2, Eb3 in Hin. by apply elem_of_nil in Hin.
Qed.

(** The index at startup: only its own key names the file of a row. *)
Definition index_fine : Prop := forall k v userKey filePath, m0 !! k = Some v -> has_prefix CompactionIndexPrefix k = true ->
  ParseCompactionIndexRow k v = (userKey, filePath, true) -> forall key vm, names m0 key vm filePath -> key = userKey.

Lemma parsed_from rows e : e ∈ parsed_entries rows <->
  exists k v, (k, v) ∈ rows /\ ParseCompactionIndexRow k v = (ci_UserKey e, ci_FilePath e, true) /\ ci_Key e = k.
Proof.
  unfold parsed_entries. rewrite list_elem_of_omap. split.
  - intros ([k v] & Hin & E). destruct (ParseCompactionIndexRow k v) as [[u f] ok] eqn:Ep. destruct ok; [|done]. injection E as <-. by exists k, v.
  - intros (k & v & Hin & Ep & <-). exists (ci_Key e, v). split; [done|]. rewrite Ep. by destruct e.
Qed.

Lemma wp_recover numWorkers sched w :
  represents (w_db w) m0 -> w_disk w = d0 -> index_fine ->
  wp (RecoverOnStartup env numWorkers sched) (fun r w' => exists m', so_far w' m' /\
    (r = None -> forall k v userKey filePath, m0 !! k = Some v -> has_prefix CompactionIndexPrefix k = true ->
       ParseCompactionIndexRow k v = (userKey, filePath, true) -> settled m' (MkInfo k userKey filePath))) w.
Proof using Hreads Hcalm PL.
  intros Hm Hd Hidx. unfold RecoverOnStartup, processEntriesStreaming. apply wp_bind, wp_bind. eapply wp_Iterate; [exact Hm|].
  intros l err rest db Hdb Hl Herr. set (es0 := parsed_entries _).
  assert (forall k v, (k, v) ∈ prefix_rows CompactionIndexPrefix l -> m0 !! k = Some v /\ has_prefix CompactionIndexPrefix k = true) as Hrows.
  { intros k v Hin%prefix_rows_sub. destruct Hin as [Hk Hin]. cbn in *. split; [|done].
    assert ((k, v) ∈ rows_from CompactionIndexPrefix m0) as Hin' by (rewrite <- Hl; apply elem_of_app; by left). by apply elem_of_rows_from in Hin' as [? _]. }
  assert (pipe_ok es0 (set_db db w) m0 (MkPipe es0 [] [] no_stats None)) as Hp.
  { split; cbn; [split; [done|by left|intros; left; by rewrite <- Hd|done]| |by apply Forall_nil_2|by left].
    apply Forall_forall. intros e (k & v & Hin & Ep & Ek)%parsed_from. destruct (Hrows k v Hin) as [H1 H2]. split; [by rewrite Ek|].
    by apply (Hidx k v). }
  assert (0 < recovery_workers numWorkers)%nat as Hw by (unfold recovery_workers, MaxWorkers; destruct (Z.leb_spec numWorkers 0); lia).
  apply wp_bind, (wp_pipe_steps es0 _ _ _ _ _ m0 Hp). intros pl1 w1 m1 Hp1. apply wp_bind, (wp_drain es0 _ _ _ w1 m1 Hw Hp1).
  intros pl2 w2 m2 Hs2 Hset. apply wp_ret, wp_ret. exists m2. split; [done|]. intros Hnone k v userKey filePath Hk Hpre Ep.
  destruct err as [|]; [done|]. destruct (pl_err pl2) eqn:Ee; [done|]. apply Hset; [|done]. apply parsed_from. exists k, v. split_and!; [|done|done].
  rewrite (Herr eq_refl), app_nil_r in Hl. rewrite Hl. by apply prefix_scan.
Qed.

(** C22: recovery keeps what is intact. When reads and system calls work (writes of the
    store may fail), whatever the number of workers and the order in which entries are validated and
    results applied: every row whose value is not in a raw file, and every row whose
    file is there with the recorded length, is still there afterwards, and so is its
    file; nothing outside the rows and the compaction index changes; and if recovery
    succeeds, every index entry is gone, and with it the row of every entry whose file is
    missing or has another length. The index is assumed to name files of their own key. *)
Theorem recovery_keeps_intact numWorkers sched w r w1 :
  represents (w_db w) m0 -> w_disk w = d0 -> index_fine ->
  RecoverOnStartup env numWorkers sched w = (r, w1) ->
  exists m1, represents (w_db w1) m1
    /\ (forall key vm, row_at m0 key vm -> (ValueType vm = RAW_FILE -> intact vm) ->
          row_at m1 key vm /\ (ValueType vm = RAW_FILE -> w_disk w1 !! RawFilePath vm = d0 !! RawFilePath vm))
    /\ (forall k, has_prefix CompactionIndexPrefix k = false -> has_prefix MetadataPrefix k = false -> m1 !! k = m0 !! k)
    /\ (r = None -> forall k v userKey filePath, m0 !! k = Some v -> has_prefix CompactionIndexPrefix k = true ->
          ParseCompactionIndexRow k v = (userKey, filePath, true) ->
          m1 !! k = None /\ forall vm, names m0 userKey vm filePath -> ~ intact vm -> m1 !! MakeMetadataKey userKey = None).
Proof using Hreads Hcalm PL.
  intros Hm Hd Hidx E. pose proof (wp_run _ _ _ _ _ E (wp_recover numWorkers sched w Hm Hd Hidx)) as (m1 & [H1 H2 H3 H4] & H5).
  exists m1. split_and!; [done| |done|].
  - intros key vm Hr Hi. split.
    + destruct (H2 key) as [Eq|(_ & vm' & Hr' & Ht & Hno)]; [destruct Hr as (v & Ev & Eu); exists v; by rewrite Eq|].
      pose proof (row_at_fun _ _ _ _ Hr' Hr) as ->. by destruct Hno; apply Hi.
    + intros Ht. destruct (H3 (RawFilePath vm)) as [|[_ Hrem]]; [done|]. by destruct (Hrem key vm); [split_and!|apply Hi].
  - intros Hnone k v userKey filePath Hk Hp Ep. destruct (H5 Hnone k v userKey filePath Hk Hp Ep) as [Hg Hmend]. split; [done|].
    intros vm Hn Hno. by destruct (Hmend vm Hn Hno).
Qed.

End Recovery.

(** ** A read that fails *)

Section ReadFailure.

Context {DB : Type} {PB : Protobuf} {RDB : RocksDB DB} {RL : RocksLaws DB} (env : Env).
Implicit Types w : World DB SegWorld.

(** One failing read at startup destroys a value. If the store cannot answer the
    lookup of an entry's row, for whatever reason, the entry counts as corrupted and its file is
    removed with the batch, although the row is there, names the file, and stays:
    the file manager then reports the key's file as not found. *)
Theorem failed_read_destroys_file e m vm err db w res w1 x w2 :
  represents (w_db w) m -> row_at m (ci_UserKey e) vm -> ValueType vm = RAW_FILE -> RawFilePath vm = ci_FilePath e ->
  ci_FilePath e <> EmptyString -> has_prefix CompactionIndexPrefix (ci_Key e) = true ->
  db_Get (MakeMetadataKey (ci_UserKey e)) (w_db w) = (inl err, db) -> errors_Is err ErrMetadataNotFound = false ->
  env_fault env (w_tick w) = None ->
  validateEntry env e w = (res, w1) -> processDeletionBatch env [res] w1 = (x, w2) ->
  w_disk w2 !! ci_FilePath e = None
  /\ exists m2, represents (w_db w2) m2 /\ row_at m2 (ci_UserKey e) vm.
Proof.
  intros Hm Hr Ht Hp Hne Hk E Hno Hf Ev Eb.
  assert (res = MkResult (ci_Key e) (ci_FilePath e) EmptyString StatusCorrupted (Some err) /\ w1 = set_db db w) as [-> ->].
  { unfold validateEntry, GetMetadata, Get_, on_db, mbind, ST_bind in Ev. rewrite E in Ev. cbn in Ev. rewrite Hno in Ev. by injection Ev as <- <-. }
  destruct (rdb_get _ _ _ _ _ Hm E) as [Hdb _]. pattern x, w2. eapply wp_run; [exact Eb|].
  unfold processDeletionBatch. rewrite decide_False by done. apply wp_bind. cbn [remove_files result_file vr_Status vr_FilePath].
  rewrite decide_False by done. apply wp_bind, wp_bind. unfold os_Remove. apply wp_bind, wp_syscall. cbn. rewrite Hf. apply wp_fun. cbn [fst snd].
  assert (forall w', represents (w_db w') m -> w_disk w' !! ci_FilePath e = None ->
    wp (r ← Write_ ([MkResult (ci_Key e) (ci_FilePath e) EmptyString StatusCorrupted (Some err)] ≫= result_ops);
        mret match r with Some e => Some (EWrap "failed to write deletion batch" e) | None => None end)
      (fun _ w2 => w_disk w2 !! ci_FilePath e = None /\ exists m2, represents (w_db w2) m2 /\ row_at m2 (ci_UserKey e) vm) w') as Hw.
  { intros w' Hw Hd. apply wp_bind. rewrite batch_deletions. eapply wp_Write; [exact Hw|apply deletes_regular|..].
    - intros e' db' Hdb'. apply wp_ret. split; [done|]. by exists m.
    - intros db' Hdb'. apply wp_ret. split; [done|]. eexists. split; [exact Hdb'|]. destruct Hr as (v & Ev' & Eu). exists v. split; [|done].
      rewrite apply_deletes, decide_False; [done|]. unfold deletions. cbn. rewrite decide_True by done. intros Hin%list_elem_of_singleton.
      rewrite <- Hin, (prefix_excl MetadataPrefix CompactionIndexPrefix) in Hk; [done|reflexivity|apply has_prefix_app]. }
  destruct (w_disk (tick (set_db db w)) !! ci_FilePath e) as [c|] eqn:Ed; apply wp_ret, wp_ret, Hw; try done. cbn. apply lookup_delete_eq.
Qed.

End ReadFailure.

(** ** Startups on concrete stores *)

Module Startups.

#[local] Arguments has_prefix : simpl nomatch.
#[local] Arguments apply_batch : simpl nomatch.
#[local] Arguments MakeMetadataKey : simpl nomatch.

(** The store of CompactionWitnesses.v, whose key "k" has its file, with a key "b" whose
    file is lost. *)
Definition f_path : bytes := path_of w_env w_cfg 1.
Definition f_vm : ValueMessage := MkVM RAW_FILE EmptyString 0 f_path EmptyString 0 5 7 3 0 0.
Definition f_index : bytes := MakeCompactionKey 6 "b".
Definition f_rows : gmap bytes bytes := <[MakeMetadataKey "b" := enc_message f_vm]> (<[f_index := f_path]> c_rows).
Definition f_world : World Journal SegWorld := MkWorld (MkJournal f_rows []) c_store c_disk 2 16 0 0 ∅ [] 0 0.

Lemma f_decodes : proto_Unmarshal (enc_message f_vm) = Some f_vm.
Proof. vm_compute. reflexivity. Qed.

Lemma f_row key vm : row_at f_rows key vm -> key = "b"%string /\ vm = f_vm \/ key = "k"%string /\ vm = c_vm.
Proof.
  intros (v & E & U). unfold f_rows in E. apply lookup_insert_Some in E as [[E <-]|[_ E]].
  - left. split; [by apply MakeMetadataKey_inj in E|]. pose proof f_decodes. congruence.
  - apply lookup_insert_Some in E as [[E _]|[_ E]]; [discriminate E|]. right. apply c_row. by exists v.
Qed.

Lemma f_index_fine : index_fine f_rows.
Proof.
  intros k v userKey filePath E Hk Ep key vm (Hr & _ & Hp). apply f_row in Hr.
  unfold f_rows in E. apply lookup_insert_Some in E as [[<- _]|[_ E]]; [discriminate Hk|].
  apply lookup_insert_Some in E as [[<- <-]|[_ E]].
  - vm_compute in Ep. injection Ep as <- <-. destruct Hr as [[-> _]|[-> ->]]; [done|]. vm_compute in Hp. discriminate Hp.
  - unfold c_rows in E. apply lookup_insert_Some in E as [[<- _]|[_ E]]; [discriminate Hk|]. apply lookup_singleton_Some in E as [<- <-].
    vm_compute in Ep. injection Ep as <- <-. destruct Hr as [[-> ->]|[-> _]]; [|done]. vm_compute in Hp. discriminate Hp.
Qed.

Lemma journal_get_total k (db : Journal) e db' : db_Get k db <> (inl e, db').
Proof. discriminate. Qed.

Lemma f_represents : represents (w_db f_world) f_rows.
Proof. by split. Qed.

Definition f_sched : list pipe_move := [Validate 1; Collect; Validate 7; Collect].
Definition f_run : option error * World Journal SegWorld := RecoverOnStartup w_env 4 f_sched f_world.

Lemma recovery_keeps_intact_witness :
  f_run.1 = None /\ exists m1, represents (w_db f_run.2) m1 /\ row_at m1 "k" c_vm /\ m1 !! MakeMetadataKey "b" = None
    /\ w_disk f_run.2 !! c_path = Some "hello world"%string.
Proof.
  assert (f_run.1 = None) as E0 by (vm_compute; reflexivity). split; [exact E0|].
  destruct (recovery_keeps_intact w_env f_rows c_disk journal_get_total (fun _ => eq_refl) 4 f_sched f_world f_run.1 f_run.2 f_represents eq_refl f_index_fine
    (surjective_pairing _)) as (m1 & Hm1 & Hkeep & _ & Hgone).
  exists m1. split; [exact Hm1|]. destruct (Hkeep "k"%string c_vm) as [H1 H2].
  - exists (enc_message c_vm). split; [vm_compute; reflexivity|exact c_decodes].
  - intros _. exists "hello world"%string. split; vm_compute; reflexivity.
  - split; [exact H1|]. split; [|transitivity (c_disk !! c_path); [exact (H2 eq_refl)|vm_compute; reflexivity]].
    apply (proj2 (Hgone E0 f_index f_path "b" f_path ltac:(vm_compute; reflexivity) ltac:(vm_compute; reflexivity) ltac:(vm_compute; reflexivity)) f_vm).
    + split; [|split; reflexivity]. exists (enc_message f_vm). split; [vm_compute; reflexivity|exact f_decodes].
    + intros (c & Ec & _). vm_compute in Ec. discriminate Ec.
Defined.

(** Compaction finds nothing to do after a restart, although the value is still in a
    raw file. *)
Lemma restart_forgets_compaction :
  (CompactFiles w_env c_env c_faults "seg" 4096 (fun _ => false) false (fun _ => O) 1 0 f_world).1 = (1, 11)
  /\ (CompactFiles w_env c_env c_faults "seg" 4096 (fun _ => false) false (fun _ => O) 1 0 f_run.2).1 = (0, 0)
  /\ (proto_Unmarshal <$> (j_rows (w_db f_run.2) !! MakeMetadataKey "k")) = Some (Some c_vm).
Proof. vm_compute. auto. Qed.

(** ** A startup on which one read fails *)

Definition g_error : error := EText "IO error".
Definition g_world (faults : list (option error)) : World Faulty SegWorld := MkWorld (MkFaulty c_rows faults) c_store c_disk 1 11 0 0 ∅ [] 0 0.
Definition g_entry : compactionEntryInfo := MkInfo c_index "k" c_path.

Lemma failed_read_destroys_file_witness :
  (* the whole startup succeeds, and the value is lost *)
  (RecoverOnStartup w_env 4 [] (g_world [None; Some g_error])).1 = None
  /\ (Get (H1 := segment_manager c_env) w_env w_cfg "k" 0 0 (g_world [])).1 = inr (Some (get_reader "hello world" 0 0))
  /\ (exists err, (Get (H1 := segment_manager c_env) w_env w_cfg "k" 0 0 (RecoverOnStartup w_env 4 [] (g_world [None; Some g_error])).2).1 = inl err)
  /\ let v := validateEntry w_env g_entry (g_world [Some g_error]) in
     w_disk (processDeletionBatch w_env [v.1] v.2).2 !! c_path = None.
Proof.
  split; [vm_compute; reflexivity|]. split; [vm_compute; reflexivity|]. split; [eexists; vm_compute; reflexivity|]. intros v.
  refine (proj1 (failed_read_destroys_file w_env g_entry c_rows c_vm g_error (MkFaulty c_rows []) (g_world [Some g_error]) v.1 v.2
    (processDeletionBatch w_env [v.1] v.2).1 (processDeletionBatch w_env [v.1] v.2).2 eq_refl _ eq_refl eq_refl _ eq_refl eq_refl eq_refl eq_refl
    (surjective_pairing _) (surjective_pairing _))).
  - exists (enc_message c_vm). exact (conj eq_refl c_decodes).
  - discriminate.
Defined.

End Startups.
