(* ===== verification/FdCache.v ===== *)
(** * The descriptor cache (storage/fd/fdcache.go, filelockmanager.go)

    Entries are shared objects with a reference count; [Acquire], [Release] and [Remove]
    run concurrently. A state has the map, the objects, the size counter, the closed
    descriptors and where every call stands; [fd_step] runs one atomic action of one
    call: an operation on the map, on the count of an entry, on the size, an open or a
    close. The compare-and-swap loops of [tryAcquireRef] and [dropRef] take effect at
    one instant and are one action each. *)

From stdpp Require Import gmap.
From S2P Require Import Prelude.

Open Scope Z_scope.

Definition refsClosed : Z := -1.

(** [e_file] is the descriptor, [e_ready] the closed channel. *)
Record FileEntry := MkFileEntry {
  e_refs : Z;
  e_file : option nat;
  e_ready : bool;
  e_cached : bool
}.

Definition with_refs n e := MkFileEntry n (e_file e) (e_ready e) (e_cached e).
Definition opened fd e := MkFileEntry (e_refs e) fd true (e_cached e).

(** [tryAcquireRef]: the entry with one more reference, if it is live. *)
Definition tryAcquireRef (e : FileEntry) : option FileEntry :=
  if e_refs e <=? 0 then None else Some (with_refs (e_refs e + 1) e).

(** [dropRef]: whether the caller owns the close, and the entry. *)
Definition dropRef (e : FileEntry) : bool * FileEntry :=
  if e_refs e <=? 0 then (false, e)
  else if 1 <? e_refs e then (false, with_refs (e_refs e - 1) e)
  else (true, with_refs refsClosed e).

(** Where a call stands. *)
Inductive fd_pc :=
  | ALoad (path : bytes)                         (** Acquire: before the lookup *)
  | ATry (path : bytes) (e : nat)                (** found an entry *)
  | AWait (path : bytes) (e : nat)               (** has a reference, waits for the open *)
  | ADrop (path : bytes) (e : nat)               (** the open failed, drops the reference *)
  | ACheck (path : bytes)                        (** not found: the capacity check *)
  | AStore (path : bytes) (cached : bool)        (** LoadOrStore *)
  | AOpen (path : bytes) (e : nat)               (** opens the file *)
  | AFailed (path : bytes) (e : nat)             (** failed: takes the entry out *)
  | ASized (path : bytes) (e : nat)              (** opened: counts it, or takes it out *)
  | AHold (path : bytes) (e : nat)               (** returned; Release is to come *)
  | CDelete (path : bytes) (e : nat)             (** closeEntry: CompareAndDelete *)
  | CSize (path : bytes) (e : nat)
  | CClose (e : nat)                             (** the descriptor *)
  | RDelete (path : bytes)                       (** Remove: LoadAndDelete *)
  | RSize (e : nat)
  | RClaim (e : nat).

Record FdCache := MkCache {
  capacity : Z;
  size : Z;
  entries : gmap bytes nat;
  objects : gmap nat FileEntry;
  next_entry : nat;
  next_fd : nat;
  closed_fds : list nat;
  calls : gmap nat fd_pc
}.

Definition NewFdCache (cap : Z) : FdCache := MkCache cap 0 ∅ ∅ 0 0 [] ∅.

Definition goto t p s := MkCache (capacity s) (size s) (entries s) (objects s) (next_entry s) (next_fd s) (closed_fds s) (<[t := p]> (calls s)).
Definition return_ t s := MkCache (capacity s) (size s) (entries s) (objects s) (next_entry s) (next_fd s) (closed_fds s) (delete t (calls s)).
Definition set_size n s := MkCache (capacity s) n (entries s) (objects s) (next_entry s) (next_fd s) (closed_fds s) (calls s).
Definition set_entries m s := MkCache (capacity s) (size s) m (objects s) (next_entry s) (next_fd s) (closed_fds s) (calls s).
Definition set_object e o s := MkCache (capacity s) (size s) (entries s) (<[e := o]> (objects s)) (next_entry s) (next_fd s) (closed_fds s) (calls s).
Definition new_entry o s := MkCache (capacity s) (size s) (entries s) (<[next_entry s := o]> (objects s)) (S (next_entry s)) (next_fd s) (closed_fds s) (calls s).
Definition new_fd s := MkCache (capacity s) (size s) (entries s) (objects s) (next_entry s) (S (next_fd s)) (closed_fds s) (calls s).
Definition close_fd (fd : option nat) s :=
  MkCache (capacity s) (size s) (entries s) (objects s) (next_entry s) (next_fd s)
    (match fd with Some fd => fd :: closed_fds s | None => closed_fds s end) (calls s).

(** What a caller or the file system decides. *)
Inductive fd_act := Acquire (path : bytes) | Release | Remove (path : bytes) | Run (open_ok : bool).

(** A call gives up its reference; the last one goes on to [closeEntry]. *)
Definition drop_step (t : nat) (path : bytes) (e : nat) (o : FileEntry) (s : FdCache) : FdCache :=
  let '(owns, o) := dropRef o in
  let s := set_object e o s in
  if (owns : bool) then goto t (CDelete path e) s else return_ t s.

(** One action of the call [t] at [p]; [None] when it has to wait. In [Acquire] [ok] says
    whether the open succeeds; a call that has returned waits for [Release]. *)
Definition acquire_pc (t : nat) (ok : bool) (p : fd_pc) (s : FdCache) : option FdCache :=
  match p with
  | ALoad path => Some (goto t (match entries s !! path with Some e => ATry path e | None => ACheck path end) s)
  | ATry path e =>
      o ← objects s !! e;
      Some match tryAcquireRef o with
           | Some o => goto t (AWait path e) (set_object e o s)
           | None => goto t (ALoad path) s
           end
  | AWait path e =>
      o ← objects s !! e;
      if e_ready o then Some (goto t (match e_file o with Some _ => AHold path e | None => ADrop path e end) s) else None
  | ADrop path e => o ← objects s !! e; Some (drop_step t path e o s)
  | ACheck path => Some (goto t (AStore path (negb ((0 <? capacity s) && (i32 (capacity s) <=? size s)))) s)
  | AStore path cached =>
      Some match entries s !! path with
           | Some e => goto t (ATry path e) s
           | None => let e := next_entry s in
                     goto t (AOpen path e) (set_entries (<[path := e]> (entries s)) (new_entry (MkFileEntry 1 None false cached) s))
           end
  | AOpen path e =>
      o ← objects s !! e;
      Some (if ok then goto t (ASized path e) (new_fd (set_object e (opened (Some (next_fd s)) o) s))
            else goto t (AFailed path e) (set_object e (opened None o) s))
  | AFailed path e => Some (goto t (ADrop path e) (set_entries (delete path (entries s)) s))
  | ASized path e =>
      o ← objects s !! e;
      Some (goto t (AHold path e) (if e_cached o then set_size (i32 (size s + 1)) s else set_entries (delete path (entries s)) s))
  | _ => None
  end.

Definition closeEntry_pc (t : nat) (p : fd_pc) (s : FdCache) : option FdCache :=
  match p with
  | CDelete path e =>
      o ← objects s !! e;
      if e_ready o then
        Some (if e_cached o && bool_decide (entries s !! path = Some e)
              then goto t (CSize path e) (set_entries (delete path (entries s)) s) else goto t (CClose e) s)
      else None
  | CSize path e => Some (goto t (CClose e) (set_size (i32 (size s - 1)) s))
  | CClose e => o ← objects s !! e; Some (return_ t (close_fd (e_file o) s))
  | _ => None
  end.

Definition remove_pc (t : nat) (p : fd_pc) (s : FdCache) : option FdCache :=
  match p with
  | RDelete path =>
      Some match entries s !! path with
           | Some e => goto t (RSize e) (set_entries (delete path (entries s)) s)
           | None => return_ t s
           end
  | RSize e => o ← objects s !! e; if e_ready o then Some (goto t (RClaim e) (set_size (i32 (size s - 1)) s)) else None
  | RClaim e =>
      o ← objects s !! e;
      Some (return_ t (if e_refs o =? 0 then close_fd (e_file o) (set_object e (with_refs refsClosed o) s) else s))
  | _ => None
  end.

Definition run_pc (t : nat) (ok : bool) (p : fd_pc) (s : FdCache) : option FdCache :=
  match p with
  | CDelete _ _ | CSize _ _ | CClose _ => closeEntry_pc t p s
  | RDelete _ | RSize _ | RClaim _ => remove_pc t p s
  | _ => acquire_pc t ok p s
  end.

Definition fd_step (t : nat) (a : fd_act) (s : FdCache) : option FdCache :=
  match a, calls s !! t with
  | Acquire path, None => Some (goto t (ALoad path) s)
  | Remove path, None => Some (goto t (RDelete path) s)
  | Release, Some (AHold path e) => o ← objects s !! e; Some (drop_step t path e o s)
  | Run ok, Some p => run_pc t ok p s
  | _, _ => None
  end.

Fixpoint fd_run (sched : list (nat * fd_act)) (s : FdCache) : option FdCache :=
  match sched with [] => Some s | (t, a) :: sched => s ← fd_step t a s; fd_run sched s end.

(** ** The locks of files (filelockmanager.go) *)

Record FileLockManager := MkLocks { fileLocks : gmap bytes nat; next_lock : nat }.

Definition GetFileLock (path : bytes) (flm : FileLockManager) : nat * FileLockManager :=
  match fileLocks flm !! path with
  | Some l => (l, flm)
  | None => (next_lock flm, MkLocks (<[path := next_lock flm]> (fileLocks flm)) (S (next_lock flm)))
  end.
Definition RemoveFileLock (path : bytes) (flm : FileLockManager) : FileLockManager := MkLocks (delete path (fileLocks flm)) (next_lock flm).
Definition HasLock (path : bytes) (flm : FileLockManager) : bool := bool_decide (is_Some (fileLocks flm !! path)).
