(* ===== verification/FdCacheProps.v ===== *)
(** * The descriptor cache under concurrency

    Whatever the interleaving of [Acquire], [Release] and [Remove]: a descriptor is open
    as long as someone holds its entry, it is closed once, and nothing is left behind. *)

From stdpp Require Import gmap functions.
From S2P Require Import Prelude FdCache.

Open Scope Z_scope.

(** ** Counting calls *)

Definition b2z (b : bool) : Z := if b then 1 else 0.

Definition tally (P : fd_pc -> bool) (ts : gmap nat fd_pc) : Z := Z.of_nat (base.size (filter (fun x => P x.2 = true) ts)).

Lemma tally_fresh P ts t p : ts !! t = None -> tally P (<[t := p]> ts) = tally P ts + b2z (P p).
Proof.
  intros Ht. unfold tally. destruct (P p) eqn:E.
  - rewrite map_filter_insert_True by done. rewrite map_size_insert_None; [cbn; lia|]. apply map_lookup_filter_None. left. done.
  - rewrite map_filter_insert_False by (cbn; congruence). rewrite delete_id by done. cbn. lia.
Qed.

Lemma tally_delete P ts t p : ts !! t = Some p -> tally P (delete t ts) = tally P ts - b2z (P p).
Proof.
  intros Ht. rewrite <- (insert_delete_id ts t p Ht) at 2. rewrite tally_fresh by apply lookup_delete_eq. lia.
Qed.

Lemma tally_goto P ts t p p' : ts !! t = Some p -> tally P (<[t := p']> ts) = tally P ts - b2z (P p) + b2z (P p').
Proof.
  intros Ht. rewrite <- insert_delete_eq, tally_fresh by apply lookup_delete_eq. by rewrite (tally_delete P ts t p).
Qed.

Lemma tally_nonneg P ts : 0 <= tally P ts.
Proof. unfold tally. lia. Qed.

Lemma tally_zero P ts : (forall t p, ts !! t = Some p -> P p = false) -> tally P ts = 0.
Proof.
  intros H. unfold tally. replace (filter _ ts) with (∅ : gmap nat fd_pc); [done|]. symmetry. apply map_empty. intros t.
  apply map_lookup_filter_None. right. intros p Ht. cbn. by rewrite (H t p Ht).
Qed.

Lemma tally_pos P ts t p : ts !! t = Some p -> P p = true -> 0 < tally P ts.
Proof. intros Ht HP. pose proof (tally_nonneg P (delete t ts)) as H. rewrite (tally_delete P ts t p Ht), HP in H. cbn in H. lia. Qed.

(** ** Who refers to an entry *)

Definition pc_entry (p : fd_pc) : option nat :=
  match p with
  | ATry _ e | AWait _ e | ADrop _ e | AOpen _ e | AFailed _ e | ASized _ e | AHold _ e | CDelete _ e | CSize _ e | CClose e | RSize e | RClaim e => Some e
  | ALoad _ | ACheck _ | AStore _ _ | RDelete _ => None
  end.

Definition holds (e : nat) (p : fd_pc) : bool :=
  match p with AWait _ x | ADrop _ x | AOpen _ x | AFailed _ x | ASized _ x | AHold _ x => bool_decide (x = e) | _ => false end.
Definition closes (e : nat) (p : fd_pc) : bool :=
  match p with CDelete _ x | CSize _ x | CClose x => bool_decide (x = e) | _ => false end.
Definition opens (e : nat) (p : fd_pc) : bool := match p with AOpen _ x => bool_decide (x = e) | _ => false end.

Lemma holds_entry e p : holds e p = true -> pc_entry p = Some e.
Proof. destruct p; cbn; try done; intros H; bool_facts; by subst. Qed.
Lemma closes_entry e p : closes e p = true -> pc_entry p = Some e.
Proof. destruct p; cbn; try done; intros H; bool_facts; by subst. Qed.
Lemma opens_holds e p : opens e p = true -> holds e p = true.
Proof. by destruct p. Qed.

(** An entry is live, with a reference for each holder, or closing, with one call that
    closes it, or closed. *)
Record entry_ok s (e : nat) (o : FileEntry) : Prop := {
  eo_life :
    e_refs o = tally (holds e) (calls s) /\ 0 < e_refs o /\ tally (closes e) (calls s) = 0
    \/ e_refs o = refsClosed /\ tally (holds e) (calls s) = 0 /\ 0 <= tally (closes e) (calls s) <= 1;
  eo_file fd : e_file o = Some fd -> (fd < next_fd s)%nat
    /\ (fd ∈ closed_fds s <-> e_refs o = refsClosed /\ tally (closes e) (calls s) = 0);
  eo_ready : if e_ready o then tally (opens e) (calls s) = 0 else tally (opens e) (calls s) = 1 /\ e_file o = None
}.

(** A call whose open succeeded has a descriptor. *)
Definition pc_ok s (p : fd_pc) : Prop :=
  (forall e, pc_entry p = Some e -> is_Some (objects s !! e))
  /\ match p with
     | AHold _ e | ASized _ e => exists o, objects s !! e = Some o /\ is_Some (e_file o)
     | _ => True
     end.

Record cache_ok s : Prop := {
  co_entry e o : objects s !! e = Some o -> entry_ok s e o;
  co_fresh e : is_Some (objects s !! e) -> (e < next_entry s)%nat;
  co_one e1 e2 o1 o2 fd : objects s !! e1 = Some o1 -> objects s !! e2 = Some o2 -> e_file o1 = Some fd -> e_file o2 = Some fd -> e1 = e2;
  co_all fd : (fd < next_fd s)%nat -> exists e o, objects s !! e = Some o /\ e_file o = Some fd;
  co_nodup : NoDup (closed_fds s);
  co_below : Forall (fun fd => (fd < next_fd s)%nat) (closed_fds s);
  co_calls t p : calls s !! t = Some p -> pc_ok s p
}.

Lemma cache_ok_init cap : cache_ok (NewFdCache cap).
Proof. split; cbn; try (intros; by rewrite lookup_empty in *); try lia; try constructor. Qed.

(** ** Steps that change no reference *)

(** The calls may change, the entries and descriptors do not. *)
Lemma cache_ok_quiet s s' :
  cache_ok s -> objects s' = objects s -> next_entry s' = next_entry s -> next_fd s' = next_fd s -> closed_fds s' = closed_fds s ->
  (forall e, tally (holds e) (calls s') = tally (holds e) (calls s) /\ tally (closes e) (calls s') = tally (closes e) (calls s)
    /\ tally (opens e) (calls s') = tally (opens e) (calls s)) ->
  (forall t p, calls s' !! t = Some p -> calls s !! t = Some p \/ pc_ok s p) -> cache_ok s'.
Proof.
  intros [H1 H2 H3 H4 H5 H6 H7] E1 E2 E3 E4 Ht Hc. split; rewrite ?E1, ?E2, ?E3, ?E4; try done.
  - intros e o He. destruct (H1 e o He) as [A B C]. destruct (Ht e) as (T1 & T2 & T3). split; rewrite ?T1, ?T2, ?T3, ?E3, ?E4; done.
  - intros t p Hp. unfold pc_ok. rewrite E1. destruct (Hc t p Hp) as [Hp'|Hp']; [by apply (H7 t)|done].
Qed.

Definition same_profile (p p' : fd_pc) : Prop := forall e, holds e p = holds e p' /\ closes e p = closes e p' /\ opens e p = opens e p'.

Lemma cache_ok_move s s' t p p' :
  cache_ok s -> calls s !! t = Some p -> same_profile p p' -> pc_ok s p' ->
  objects s' = objects s -> next_entry s' = next_entry s -> next_fd s' = next_fd s -> closed_fds s' = closed_fds s -> calls s' = <[t := p']> (calls s) ->
  cache_ok s'.
Proof.
  intros Hs Hp Hsame Hok E1 E2 E3 E4 E5. apply (cache_ok_quiet s s' Hs E1 E2 E3 E4); rewrite E5.
  - intros e. destruct (Hsame e) as (T1 & T2 & T3). rewrite !(tally_goto _ _ t p p' Hp), T1, T2, T3. lia.
  - intros t' q Hq. apply lookup_insert_Some in Hq as [[<- <-]|[_ Hq]]; [by right|by left].
Qed.

Lemma cache_ok_start s t p :
  cache_ok s -> calls s !! t = None -> pc_entry p = None -> pc_ok s p -> cache_ok (goto t p s).
Proof.
  intros Hs Hp Hno Hok. apply (cache_ok_quiet s); try done.
  - intros e. cbn. rewrite !tally_fresh by done. assert (holds e p = false /\ closes e p = false /\ opens e p = false) as (-> & -> & ->) by by destruct p.
    cbn. lia.
  - intros t' q Hq. cbn in Hq. apply lookup_insert_Some in Hq as [[<- <-]|[_ Hq]]; [by right|by left].
Qed.

Lemma cache_ok_end s s' t p :
  cache_ok s -> calls s !! t = Some p -> (forall e, holds e p = false /\ closes e p = false) ->
  objects s' = objects s -> next_entry s' = next_entry s -> next_fd s' = next_fd s -> closed_fds s' = closed_fds s -> calls s' = delete t (calls s) ->
  cache_ok s'.
Proof.
  intros Hs Hp Hno E1 E2 E3 E4 E5. apply (cache_ok_quiet s s' Hs E1 E2 E3 E4); rewrite E5.
  - intros e. destruct (Hno e) as [T1 T2]. rewrite !(tally_delete _ _ t p Hp), T1, T2. cbn.
    destruct (opens e p) eqn:E; [by rewrite opens_holds in T1|]. cbn. lia.
  - intros t' q Hq. apply lookup_delete_Some in Hq as [_ Hq]. by left.
Qed.

(** ** Steps that change one entry *)

Definition move_call (t : nat) (p' : option fd_pc) (ts : gmap nat fd_pc) : gmap nat fd_pc :=
  match p' with Some p' => <[t := p']> ts | None => delete t ts end.

Definition at_call (P : fd_pc -> bool) (p : option fd_pc) : bool := match p with Some p => P p | None => false end.

Lemma tally_move P ts t p p' : ts !! t = Some p -> tally P (move_call t p' ts) = tally P ts - b2z (P p) + b2z (at_call P p').
Proof.
  intros Hp. destruct p' as [p'|]; cbn; [by apply tally_goto|]. rewrite (tally_delete P ts t p Hp). lia.
Qed.

(** Only references to [e] change. *)
Definition only_at (e : nat) (p : fd_pc) : Prop := forall x, x <> e -> holds x p = false /\ closes x p = false /\ opens x p = false.

Lemma only_at_entry e p : pc_entry p = Some e -> only_at e p.
Proof. intros E x Hx. destruct p; cbn in *; simplify_eq; rewrite ?bool_decide_false by done; done. Qed.

Lemma tally_other P e s t p (p' : option fd_pc) x :
  (P = holds x \/ P = closes x \/ P = opens x) -> calls s !! t = Some p -> only_at e p -> (forall q, p' = Some q -> only_at e q) -> x <> e ->
  tally P (move_call t p' (calls s)) = tally P (calls s).
Proof.
  intros HP Ht Hp Hp' Hx. rewrite (tally_move _ _ t p p' Ht). destruct (Hp x Hx) as (T1 & T2 & T3).
  assert (P p = false) as -> by (destruct HP as [->|[->| ->]]; done).
  assert (at_call P p' = false) as ->; [|cbn; lia]. destruct p' as [q|]; [|done]. destruct (Hp' q eq_refl x Hx) as (U1 & U2 & U3).
  by destruct HP as [->|[->| ->]].
Qed.

(** The descriptors after a step on the entry [o] of [e]: as before, one more, or that of
    the entry closed. *)
Inductive fd_change s (s' : FdCache) (o o' : FileEntry) : Prop :=
  | fd_same : e_file o' = e_file o -> next_fd s' = next_fd s -> closed_fds s' = closed_fds s -> fd_change s s' o o'
  | fd_new : e_file o = None -> e_file o' = Some (next_fd s) -> next_fd s' = S (next_fd s) -> closed_fds s' = closed_fds s -> fd_change s s' o o'
  | fd_close fd : e_file o = Some fd -> e_file o' = Some fd -> next_fd s' = next_fd s -> fd ∉ closed_fds s -> closed_fds s' = fd :: closed_fds s ->
      fd_change s s' o o'.

Lemma fd_change_next s s' o o' : fd_change s s' o o' -> (next_fd s <= next_fd s')%nat.
Proof. intros []; lia. Qed.

Lemma fd_change_keeps s s' o o' : fd_change s s' o o' -> is_Some (e_file o) -> is_Some (e_file o').
Proof. intros [E|E E'|fd E E'] [x Hx]; [rewrite E; eauto|congruence|rewrite E'; eauto]. Qed.

(** Another entry's descriptor is not affected. *)
Lemma fd_change_other s s' e x o o' ox fd :
  cache_ok s -> objects s !! e = Some o -> objects s !! x = Some ox -> x <> e -> fd_change s s' o o' -> e_file ox = Some fd ->
  e_file o' <> Some fd /\ (fd ∈ closed_fds s' <-> fd ∈ closed_fds s).
Proof.
  intros Hs He Hx Hne Hc Hfd. destruct (eo_file _ _ _ (co_entry _ Hs _ _ Hx) fd Hfd) as [Hlt _].
  assert (e_file o <> Some fd) as Hno by (intros E; by destruct Hne; eapply (co_one _ Hs x e)).
  destruct Hc as [E1 E2 E3|E1 E2 E3 E4|fd' E1 E2 E3 Hn E4]; rewrite ?E3, ?E4; [split; [congruence|done]|split; [|done]|].
  - rewrite E2. intros [= <-]. lia.
  - split; [congruence|]. rewrite elem_of_cons. split; [intros [->|]; [congruence|done]|auto].
Qed.

Lemma cache_ok_object s s' t p p' e o o' :
  cache_ok s -> calls s !! t = Some p -> objects s !! e = Some o -> only_at e p -> (forall q, p' = Some q -> only_at e q) ->
  objects s' = <[e := o']> (objects s) -> next_entry s' = next_entry s -> calls s' = move_call t p' (calls s) -> fd_change s s' o o' ->
  entry_ok s' e o' -> (forall q, p' = Some q -> pc_ok s' q) -> cache_ok s'.
Proof.
  intros Hs Ht He Hp Hp' E1 E2 E3 Hc Hok Hpc. pose proof Hs as [H1 H2 H3 H4 H5 H6 H7]. split.
  - intros x ox Hx. rewrite E1 in Hx. apply lookup_insert_Some in Hx as [[<- <-]|[Hne Hx]]; [done|]. apply not_eq_sym in Hne.
    destruct (H1 x ox Hx) as [A B C]. assert (forall P, (P = holds x \/ P = closes x \/ P = opens x) -> tally P (calls s') = tally P (calls s)) as T.
    { intros P HP. rewrite E3. by eapply tally_other. }
    split; rewrite ?(T (holds x)), ?(T (closes x)), ?(T (opens x)) by auto; try done.
    intros fd Hfd. destruct (fd_change_other s s' e x o o' ox fd Hs He Hx Hne Hc Hfd) as [_ Hcl]. rewrite Hcl.
    destruct (B fd Hfd) as [B1 B2]. split; [|done]. pose proof (fd_change_next _ _ _ _ Hc). lia.
  - intros x. rewrite E1, E2. intros Hx. apply H2. destruct (decide (x = e)) as [->|]; [by eexists|by rewrite lookup_insert_ne in Hx].
  - intros e1 e2 o1 o2 fd G1 G2 F1 F2. rewrite E1 in G1, G2. apply lookup_insert_Some in G1 as [[<- <-]|[N1 G1]], G2 as [[<- <-]|[N2 G2]]; [done|..].
    + by destruct (fd_change_other s s' e e2 o o' o2 fd Hs He G2 (not_eq_sym N2) Hc F2).
    + by destruct (fd_change_other s s' e e1 o o' o1 fd Hs He G1 (not_eq_sym N1) Hc F1).
    + by eapply (H3 e1 e2).
  - intros fd Hfd. destruct (decide (e_file o' = Some fd)) as [E|E]; [exists e, o'; by rewrite E1, lookup_insert_eq|].
    destruct (H4 fd) as (x & ox & Hx & Ex).
    { destruct Hc as [? En|? En' En|fd' ? ? En]; [lia| |lia]. destruct (decide (fd = next_fd s)); [congruence|lia]. }
    exists x, ox. rewrite E1. destruct (decide (x = e)) as [->|]; [|by rewrite lookup_insert_ne].
    rewrite He in Hx. injection Hx as <-. destruct Hc as [Ef|Ef|fd' Ef Ef']; congruence.
  - destruct Hc as [_ _ E|_ _ _ E|fd _ _ _ Hn E]; rewrite E; try done. by constructor.
  - eapply Forall_impl with (P := fun fd => (fd < next_fd s')%nat); [|done].
    destruct Hc as [_ En E|_ _ En E|fd Hfd _ En Hn E]; rewrite E, En; try done; [eapply Forall_impl; [exact H6|]; cbn; lia|].
    constructor; [|done]. by apply (eo_file _ _ _ (H1 e o He)).
  - intros t' q Hq. assert (t' <> t -> pc_ok s' q) as Hother.
    { intros Hne. assert (calls s !! t' = Some q) as Hq0 by (rewrite E3 in Hq; destruct p'; cbn in Hq; by simplify_map_eq).
      destruct (H7 t' q Hq0) as [K1 K2]. split.
      - intros x Hx. rewrite E1. destruct (decide (x = e)) as [->|]; [rewrite lookup_insert_eq; eauto|rewrite lookup_insert_ne by done; by apply K1].
      - destruct q; try done; destruct K2 as (ox & Hx & Hf); rewrite E1; (destruct (decide (e0 = e)) as [->|];
          [rewrite lookup_insert_eq; exists o'; split; [done|]; rewrite He in Hx; injection Hx as <-; by eapply fd_change_keeps|
           rewrite lookup_insert_ne by done; eauto]). }
    destruct (decide (t' = t)) as [->|]; [|by apply Hother]. rewrite E3 in Hq. destruct p' as [q'|]; cbn in Hq; simplify_map_eq. by apply Hpc.
Qed.

(** ** The steps *)

Ltac tallies Ht := rewrite ?(tally_move _ _ _ _ _ Ht) in *; cbn [at_call holds closes opens b2z] in *; rewrite ?bool_decide_true in * by done; cbn [b2z] in *.

(** References of the calls of a step. *)
Ltac only_here :=
  try match goal with
  | |- only_at _ _ => by apply only_at_entry
  | |- forall q, Some _ = Some q -> only_at _ q => intros ? [= <-]; by apply only_at_entry
  end.

Lemma step_acquire_ref s t path e o o' :
  cache_ok s -> calls s !! t = Some (ATry path e) -> objects s !! e = Some o -> tryAcquireRef o = Some o' ->
  cache_ok (goto t (AWait path e) (set_object e o' s)).
Proof.
  intros Hs Ht He Htry. unfold tryAcquireRef in Htry. destruct (Z.leb_spec (e_refs o) 0); [done|]. injection Htry as <-.
  apply (cache_ok_object s _ t _ (Some (AWait path e)) e o (with_refs (e_refs o + 1) o) Hs Ht He); try done; only_here.
  - by apply fd_same.
  - destruct (co_entry _ Hs e o He) as [A B C].
    change (calls (goto t (AWait path e) (set_object e (with_refs (e_refs o + 1) o) s))) with (move_call t (Some (AWait path e)) (calls s)).
    split; cbn [e_refs e_file e_ready with_refs next_fd closed_fds goto set_object calls];
      change (<[t := AWait path e]> (calls s)) with (move_call t (Some (AWait path e)) (calls s)); tallies Ht.
    + left. destruct A as [(A1 & A2 & A3)|(A1 & _)]; unfold refsClosed in *; lia.
    + intros fd Hfd. destruct (B fd Hfd) as [B1 B2]. split; [done|]. rewrite B2. unfold refsClosed. lia.
    + destruct (e_ready o); [lia|]. split; [lia|apply C].
  - intros q [= <-]. split; [|done]. intros x [= <-]. cbn. rewrite lookup_insert_eq. eauto.
Qed.

(** A holder gives up its reference. *)
Lemma step_drop s t p path e o :
  cache_ok s -> calls s !! t = Some p -> holds e p = true -> opens e p = false -> objects s !! e = Some o -> cache_ok (drop_step t path e o s).
Proof.
  intros Hs Ht Hh Hno He. destruct (co_entry _ Hs e o He) as [A B C]. pose proof (tally_pos (holds e) (calls s) t p Ht Hh) as Hpos.
  assert (closes e p = false) as Hc by (destruct p; cbn in *; done).
  destruct A as [(A1 & A2 & A3)|(A1 & A2 & _)]; [|lia]. unfold drop_step, dropRef. destruct (Z.leb_spec (e_refs o) 0); [lia|].
  assert (forall p' o', (p' = None /\ o' = with_refs (e_refs o - 1) o /\ 1 < e_refs o) \/ (p' = Some (CDelete path e) /\ o' = with_refs refsClosed o /\ e_refs o = 1) ->
    forall s', s' = MkCache (capacity s) (size s) (entries s) (<[e := o']> (objects s)) (next_entry s) (next_fd s) (closed_fds s) (move_call t p' (calls s)) -> cache_ok s') as Hgo.
  { intros p' o' Hcase s' ->. eapply (cache_ok_object s _ t p p' e o o' Hs Ht He); try done.
    - by apply only_at_entry, holds_entry.
    - intros q ->. destruct Hcase as [(? & _)|([= ->] & _)]; [done|]. by apply only_at_entry.
    - apply fd_same; try done. destruct Hcase as [(_ & -> & _)|(_ & -> & _)]; done.
    - assert (tally (opens e) (move_call t p' (calls s)) = tally (opens e) (calls s)) as To.
      { rewrite (tally_move _ _ t p p' Ht), Hno. destruct Hcase as [(-> & _)|(-> & _)]; cbn; lia. }
      destruct Hcase as [(-> & -> & Hr)|(-> & -> & Hr)]; (split; cbn [e_refs e_file e_ready with_refs calls next_fd closed_fds]; [| |by rewrite To]);
        rewrite ?(tally_move _ _ t p _ Ht), ?Hh, ?Hc; cbn [at_call holds closes b2z]; rewrite ?bool_decide_true by done; cbn [b2z].
      + left. lia.
      + intros fd Hfd. destruct (B fd Hfd) as [B1 B2]. split; [done|]. rewrite B2. unfold refsClosed. lia.
      + right. unfold refsClosed. lia.
      + intros fd Hfd. destruct (B fd Hfd) as [B1 B2]. split; [done|]. rewrite B2. unfold refsClosed. lia.
    - intros q ->. destruct Hcase as [(? & _)|([= ->] & _)]; [done|]. split; [|done]. intros x [= <-]. cbn. rewrite lookup_insert_eq. eauto. }
  destruct (Z.ltb_spec 1 (e_refs o)).
  - eapply (Hgo None); [left; by split_and!|done].
  - eapply (Hgo (Some (CDelete path e))); [right; split_and!; [done|done|lia]|done].
Qed.

(** The open ends. *)
Lemma step_open s t path e o (ok : bool) :
  cache_ok s -> calls s !! t = Some (AOpen path e) -> objects s !! e = Some o ->
  cache_ok (if ok then goto t (ASized path e) (new_fd (set_object e (opened (Some (next_fd s)) o) s))
            else goto t (AFailed path e) (set_object e (opened None o) s)).
Proof.
  intros Hs Ht He. destruct (co_entry _ Hs e o He) as [A B C].
  pose proof (tally_pos (opens e) (calls s) t _ Ht (bool_decide_true (e = e) eq_refl)) as Hopen.
  pose proof (tally_pos (holds e) (calls s) t _ Ht (bool_decide_true (e = e) eq_refl)) as Hhold.
  destruct (e_ready o) eqn:Er; [lia|]. destruct C as [C1 C2]. destruct A as [(A1 & A2 & A3)|(A1 & A2 & _)]; [|lia].
  assert (fd_change s (goto t (ASized path e) (new_fd (set_object e (opened (Some (next_fd s)) o) s))) o (opened (Some (next_fd s)) o)) as Hnew by by apply fd_new.
  assert (next_fd s ∉ closed_fds s) as Hnot.
  { intros Hin. pose proof (co_below _ Hs) as Hb. rewrite Forall_forall in Hb. apply Hb in Hin. lia. }
  destruct ok.
  - apply (cache_ok_object s _ t _ (Some (ASized path e)) e o (opened (Some (next_fd s)) o) Hs Ht He); try done; only_here.
    + split; cbn [e_refs e_file e_ready opened calls goto new_fd set_object next_fd closed_fds];
        change (<[t := ASized path e]> (calls s)) with (move_call t (Some (ASized path e)) (calls s)); tallies Ht; [left; lia| |lia].
      intros fd [= <-]. split; [lia|]. split; [done|]. unfold refsClosed. lia.
    + intros q [= <-]. split; [intros x [= <-]|]; cbn; rewrite lookup_insert_eq; eauto.
  - apply (cache_ok_object s _ t _ (Some (AFailed path e)) e o (opened None o) Hs Ht He); try done; only_here.
    + apply fd_same; cbn; by rewrite ?C2.
    + split; cbn [e_refs e_file e_ready opened calls goto new_fd set_object next_fd closed_fds];
        change (<[t := AFailed path e]> (calls s)) with (move_call t (Some (AFailed path e)) (calls s)); tallies Ht; [left; lia|done|lia].
    + intros q [= <-]. split; [|done]. intros x [= <-]. cbn. rewrite lookup_insert_eq. eauto.
Qed.

(** The descriptor is closed. *)
Lemma step_close s t e o :
  cache_ok s -> calls s !! t = Some (CClose e) -> objects s !! e = Some o -> cache_ok (return_ t (close_fd (e_file o) s)).
Proof.
  intros Hs Ht He. destruct (co_entry _ Hs e o He) as [A B C].
  pose proof (tally_pos (closes e) (calls s) t _ Ht (bool_decide_true (e = e) eq_refl)) as Hc.
  destruct A as [(_ & _ & A3)|(A1 & A2 & A3)]; [lia|].
  eapply (cache_ok_object s _ t _ None e o o Hs Ht He); try done; only_here.
  - cbn. by rewrite insert_id.
  - destruct (e_file o) as [fd|] eqn:Ef; [|by apply fd_same].
    apply (fd_close _ _ _ _ fd); try done. rewrite (proj2 (B fd eq_refl)). lia.
  - split; cbn [e_refs e_file e_ready calls return_ close_fd next_fd closed_fds];
      change (delete t (calls s)) with (move_call t None (calls s)); tallies Ht; [right; lia| |].
    + intros fd Hfd. rewrite Hfd. destruct (B fd Hfd) as [B1 _]. split; [done|]. split; [intros _; split; [done|lia]|]. intros _. by left.
    + destruct (e_ready o); [lia|]. split; [lia|apply C].
Qed.

(** A new entry. *)
Lemma step_new s t path cached :
  cache_ok s -> calls s !! t = Some (AStore path cached) ->
  let e := next_entry s in
  cache_ok (goto t (AOpen path e) (set_entries (<[path := e]> (entries s)) (new_entry (MkFileEntry 1 None false cached) s))).
Proof.
  intros Hs Ht e. pose proof Hs as [H1 H2 H3 H4 H5 H6 H7].
  assert (objects s !! e = None) as Hnone.
  { destruct (objects s !! e) eqn:E; [|done]. assert (e < next_entry s)%nat by (apply H2; eauto). unfold e in *. lia. }
  assert (forall P, (P = holds e \/ P = closes e \/ P = opens e) -> tally P (calls s) = 0) as Hzero.
  { intros P HP. apply tally_zero. intros t' p Hp. destruct (P p) eqn:EP; [|done]. exfalso. destruct (H7 t' p Hp) as [K _].
    assert (pc_entry p = Some e) as E; [|destruct (K e E); congruence].
    destruct HP as [->|[->| ->]]; [by apply holds_entry|by apply closes_entry|by apply holds_entry, opens_holds]. }
  set (s' := goto _ _ _).
  assert (forall x P, (P = holds x \/ P = closes x \/ P = opens x) -> x <> e -> tally P (calls s') = tally P (calls s)) as Hother.
  { intros x P HP Hx. change (calls s') with (move_call t (Some (AOpen path e)) (calls s)). eapply (tally_other P e s t _ _ x HP Ht); try done.
    intros q [= <-]. by apply only_at_entry. }
  split; cbn [objects next_entry next_fd closed_fds s' goto set_entries new_entry].
  - intros x o Hx. apply lookup_insert_Some in Hx as [[<- <-]|[Hne Hx]].
    + fold e. split; cbn [e_refs e_file e_ready]; change (calls s') with (move_call t (Some (AOpen path e)) (calls s)); tallies Ht; [|done|].
      * left. rewrite !Hzero by auto. lia.
      * rewrite Hzero by auto. split; [lia|done].
    + apply not_eq_sym in Hne. destruct (H1 x o Hx) as [A B C]. split; rewrite ?(Hother x (holds x)), ?(Hother x (closes x)), ?(Hother x (opens x)) by auto; done.
  - intros x Hx. destruct (decide (x = e)) as [->|Hne]; [unfold e; lia|]. rewrite lookup_insert_ne in Hx by done. apply H2 in Hx. lia.
  - intros e1 e2 o1 o2 fd G1 G2 F1 F2. apply lookup_insert_Some in G1 as [[_ <-]|[_ G1]]; [done|].
    apply lookup_insert_Some in G2 as [[_ <-]|[_ G2]]; [done|]. by eapply (H3 e1 e2).
  - intros fd Hfd. destruct (H4 fd Hfd) as (x & ox & Hx & Ex). exists x, ox. rewrite lookup_insert_ne; [done|]. fold e. congruence.
  - done.
  - done.
  - intros t' p Hp. cbn in Hp. apply lookup_insert_Some in Hp as [[_ <-]|[_ Hp]].
    + split; [|done]. intros x [= <-]. cbn. rewrite lookup_insert_eq. eauto.
    + destruct (H7 t' p Hp) as [K1 K2]. split; cbn.
      * intros x Hx. destruct (K1 x Hx) as [o Ho]. rewrite lookup_insert_ne; [eauto|]. fold e. congruence.
      * destruct p; try done; destruct K2 as (o & Ho & Hf); exists o; (split; [|done]); cbn; rewrite lookup_insert_ne; try done; fold e; congruence.
Qed.

Lemma pc_ok_none s p : pc_entry p = None -> pc_ok s p.
Proof. intros E. split; [congruence|]. by destruct p. Qed.

Lemma pc_ok_entry s p e : pc_entry p = Some e -> is_Some (objects s !! e) ->
  match p with AHold _ _ | ASized _ _ => False | _ => True end -> pc_ok s p.
Proof. intros E Ho Hp. split; [intros x; rewrite E; by intros [= <-]|]. by destruct p. Qed.

(** Every action keeps the references right. *)
Lemma cache_ok_run s s' t ok p :
  cache_ok s -> (forall path e, entries s !! path = Some e -> is_Some (objects s !! e)) -> calls s !! t = Some p -> run_pc t ok p s = Some s' -> cache_ok s'.
Proof.
  intros Hs Hmap Ht E. pose proof (co_calls _ Hs t p Ht) as [K1 K2].
  assert (forall p' e, pc_entry p = Some e -> pc_entry p' = Some e -> match p' with AHold _ _ | ASized _ _ => False | _ => True end -> pc_ok s p') as Hkeep
    by (intros p' e E1 E2; apply (pc_ok_entry s p' e E2); by apply K1).
  assert (match p with ASized path e => pc_ok s (AHold path e) | _ => True end) as Khold by (destruct p; try done; by split).
  destruct p as [path|path e|path e|path e|path|path cached|path e|path e|path e|path e|path e|path e|e|path|e|e]; cbn [run_pc acquire_pc closeEntry_pc remove_pc] in E.
  - injection E as <-. destruct (entries s !! path) as [e|] eqn:Ee.
    + apply (cache_ok_move s _ t _ (ATry path e) Hs Ht); try done. apply (pc_ok_entry s _ e); [done|by eapply Hmap|done].
    + by apply (cache_ok_move s _ t _ (ACheck path) Hs Ht); [|apply pc_ok_none|..].
  - destruct (objects s !! e) as [o|] eqn:Eo; [|done]. cbn in E. injection E as <-. destruct (tryAcquireRef o) as [o'|] eqn:Etry.
    + by eapply step_acquire_ref.
    + by apply (cache_ok_move s _ t _ (ALoad path) Hs Ht); [|apply pc_ok_none|..].
  - destruct (objects s !! e) as [o|] eqn:Eo; [|done]. cbn in E. destruct (e_ready o); [|done]. injection E as <-. destruct (e_file o) eqn:Ef.
    + apply (cache_ok_move s _ t _ (AHold path e) Hs Ht); try done. split; [intros x [= <-]; eauto|]. eauto.
    + apply (cache_ok_move s _ t _ (ADrop path e) Hs Ht); try done; by apply (Hkeep _ e).
  - destruct (objects s !! e) as [o|] eqn:Eo; [|done]. injection E as <-. eapply (step_drop s t _ path e o Hs Ht); try done. cbn. by apply bool_decide_true.
  - injection E as <-. set (q := AStore path _). apply (cache_ok_move s _ t _ q Hs Ht); try done; by apply pc_ok_none.
  - injection E as <-. destruct (entries s !! path) as [e|] eqn:Ee; [|by eapply step_new].
    apply (cache_ok_move s _ t _ (ATry path e) Hs Ht); try done. apply (pc_ok_entry s _ e); [done|by eapply Hmap|done].
  - destruct (objects s !! e) as [o|] eqn:Eo; [|done]. injection E as <-. by apply step_open.
  - injection E as <-. apply (cache_ok_move s _ t _ (ADrop path e) Hs Ht); try done; by apply (Hkeep _ e).
  - destruct (objects s !! e) as [o|] eqn:Eo; [|done]. injection E as <-.
    destruct (e_cached o); by apply (cache_ok_move s _ t _ (AHold path e) Hs Ht).
  - done.
  - destruct (objects s !! e) as [o|] eqn:Eo; [|done]. cbn in E. destruct (e_ready o); [|done]. injection E as <-. destruct (_ && _).
    + apply (cache_ok_move s _ t _ (CSize path e) Hs Ht); try done; by apply (Hkeep _ e).
    + apply (cache_ok_move s _ t _ (CClose e) Hs Ht); try done; by apply (Hkeep _ e).
  - injection E as <-. apply (cache_ok_move s _ t _ (CClose e) Hs Ht); try done; by apply (Hkeep _ e).
  - destruct (objects s !! e) as [o|] eqn:Eo; [|done]. injection E as <-. by eapply step_close.
  - injection E as <-. destruct (entries s !! path) as [e|] eqn:Ee; [|by eapply (cache_ok_end s _ t _ Hs Ht)].
    apply (cache_ok_move s _ t _ (RSize e) Hs Ht); try done. apply (pc_ok_entry s _ e); [done|by eapply Hmap|done].
  - destruct (objects s !! e) as [o|] eqn:Eo; [|done]. cbn in E. destruct (e_ready o); [|done]. injection E as <-.
    apply (cache_ok_move s _ t _ (RClaim e) Hs Ht); try done; by apply (Hkeep _ e).
  - destruct (objects s !! e) as [o|] eqn:Eo; [|done]. injection E as <-. destruct (co_entry _ Hs e o Eo) as [A _ _].
    destruct (Z.eqb_spec (e_refs o) 0) as [E0|]; [destruct A as [A|A]; unfold refsClosed in A; lia|]. by eapply (cache_ok_end s _ t _ Hs Ht).
Qed.

(** ** The map *)

Definition pc_at (p : fd_pc) : option (bytes * nat) :=
  match p with
  | ATry path e | AWait path e | ADrop path e | AOpen path e | AFailed path e | ASized path e | AHold path e | CDelete path e | CSize path e => Some (path, e)
  | _ => None
  end.
(** Calls that are about to take an entry out of the map. *)
Definition deletes (e : nat) (p : fd_pc) : bool := match p with CDelete _ x => bool_decide (x = e) | _ => false end.
Definition unmaps (e : nat) (p : fd_pc) : bool := match p with AOpen _ x | AFailed _ x | ASized _ x => bool_decide (x = e) | _ => false end.

(** An entry of the map is live, or about to leave it. *)
Definition stays s (e : nat) (o : FileEntry) : Prop :=
  if e_cached o then e_refs o <> refsClosed \/ 0 < tally (deletes e) (calls s) else 0 < tally (unmaps e) (calls s).

Record map_ok s : Prop := {
  mo_path : exists f : nat -> bytes, (forall path e, entries s !! path = Some e -> f e = path)
              /\ forall t p path e, calls s !! t = Some p -> pc_at p = Some (path, e) -> f e = path;
  mo_entry path e : entries s !! path = Some e -> exists o, objects s !! e = Some o /\ stays s e o
}.

Lemma map_ok_init cap : map_ok (NewFdCache cap).
Proof. split; [exists (fun _ => EmptyString); split; cbn; intros *; by rewrite lookup_empty|]. cbn. intros *. by rewrite lookup_empty. Qed.

Lemma map_ok_start s t p : map_ok s -> calls s !! t = None -> pc_entry p = None -> map_ok (goto t p s).
Proof.
  intros [(f & H1 & H2) H3] Ht Hp. split.
  - exists f. split; [done|]. cbn. intros t' q path e Hq Hat. apply lookup_insert_Some in Hq as [[_ <-]|[_ Hq]]; [|by eapply H2]. by destruct p.
  - intros path e He. destruct (H3 path e He) as (o & Ho & Hst). exists o. split; [done|]. unfold stays in *. cbn.
    rewrite !tally_fresh by done. assert (deletes e p = false /\ unmaps e p = false) as [-> ->] by by destruct p. cbn. by rewrite !Z.add_0_r.
Qed.

(** A call moves on; entries may leave the map. *)
Lemma map_ok_step s s' t p p' :
  map_ok s -> calls s !! t = Some p -> calls s' = move_call t p' (calls s) ->
  (forall path e, entries s' !! path = Some e -> entries s !! path = Some e) ->
  (forall q path e, p' = Some q -> pc_at q = Some (path, e) -> pc_at p = Some (path, e) \/ entries s !! path = Some e) ->
  (forall path e o, entries s' !! path = Some e -> objects s !! e = Some o -> stays s e o -> exists o', objects s' !! e = Some o' /\ stays s' e o') ->
  map_ok s'.
Proof.
  intros [(f & H1 & H2) H3] Ht Hc He Hp Hst. split.
  - exists f. split; [intros path e Hin; by apply H1, He|]. intros t' q path e Hq Hat. rewrite Hc in Hq. destruct (decide (t' = t)) as [->|Hne].
    + destruct p' as [q'|]; cbn in Hq; simplify_map_eq. destruct (Hp q path e eq_refl Hat) as [Hat'|Hin]; [by eapply H2|by apply H1].
    + apply (H2 t' q path e); [|done]. destruct p'; cbn in Hq; by simplify_map_eq.
  - intros path e Hin. destruct (H3 path e (He _ _ Hin)) as (o & Ho & Hs). by eapply Hst.
Qed.

(** The entry an action works on has left the map, or the action takes nothing out. *)
Lemma map_ok_quiet s s' t p p' :
  map_ok s -> calls s !! t = Some p -> calls s' = move_call t p' (calls s) ->
  (forall path e, entries s' !! path = Some e -> entries s !! path = Some e) ->
  (forall q path e, p' = Some q -> pc_at q = Some (path, e) -> pc_at p = Some (path, e) \/ entries s !! path = Some e) ->
  (forall e o, objects s !! e = Some o -> exists o', objects s' !! e = Some o' /\ e_cached o' = e_cached o
     /\ (e_refs o' = refsClosed -> e_refs o = refsClosed \/ at_call (deletes e) p' = true)) ->
  (forall path e o, entries s' !! path = Some e -> objects s !! e = Some o ->
     if e_cached o then deletes e p = false else unmaps e p = at_call (unmaps e) p') ->
  map_ok s'.
Proof.
  intros Hm Ht Hc He Hp Ho Hpc. apply (map_ok_step s s' t p p' Hm Ht Hc He Hp). intros path e o Hin Hobj Hs.
  destruct (Ho e o Hobj) as (o' & Ho' & Ec & Hr). exists o'. split; [done|]. unfold stays in *. rewrite Ec, Hc, !(tally_move _ _ t p p' Ht).
  pose proof (Hpc path e o Hin Hobj) as Hk. destruct (e_cached o).
  - rewrite Hk. cbn [b2z]. pose proof (tally_nonneg (deletes e) (calls s)). destruct (decide (e_refs o' = refsClosed)) as [E|]; [|by left]. right.
    destruct (Hr E) as [E'| ->]; [|cbn; lia]. destruct Hs as [?|Hs]; [done|]. destruct (at_call _ _); cbn; lia.
  - rewrite Hk. lia.
Qed.

Lemma gone_from_map s t p path e path' : map_ok s -> calls s !! t = Some p -> pc_at p = Some (path, e) -> delete path (entries s) !! path' <> Some e.
Proof.
  intros [(f & H1 & H2) _] Ht Hp Hin. apply lookup_delete_Some in Hin as [Hne Hin]. apply Hne. rewrite <- (H1 _ _ Hin). by rewrite (H2 t p path e Ht Hp).
Qed.

(** The calls that keep the objects. *)
Lemma same_objects s s' (p' : option fd_pc) : objects s' = objects s ->
  forall e o, objects s !! e = Some o -> exists o', objects s' !! e = Some o' /\ e_cached o' = e_cached o
    /\ (e_refs o' = refsClosed -> e_refs o = refsClosed \/ at_call (deletes e) p' = true).
Proof. intros E e o Ho. exists o. rewrite E. auto. Qed.

Lemma map_ok_drop s t p path e o :
  map_ok s -> calls s !! t = Some p -> pc_at p = Some (path, e) -> (forall x, deletes x p = false /\ unmaps x p = false) -> objects s !! e = Some o ->
  map_ok (drop_step t path e o s).
Proof.
  intros Hm Ht Hp Hno He. unfold drop_step. destruct (dropRef o) as [owns o'] eqn:Ed.
  assert (e_cached o' = e_cached o /\ (e_refs o' = refsClosed -> e_refs o = refsClosed \/ owns = true)) as [Ec Hr].
  { unfold dropRef in Ed. destruct (Z.leb_spec (e_refs o) 0); [injection Ed as <- <-; auto|].
    destruct (Z.ltb_spec 1 (e_refs o)); injection Ed as <- <-; cbn; (split; [done|]); [unfold refsClosed; lia|auto]. }
  set (s1 := set_object e o' s). set (p' := if owns then Some (CDelete path e) else None).
  assert (map_ok (MkCache (capacity s1) (size s1) (entries s1) (objects s1) (next_entry s1) (next_fd s1) (closed_fds s1) (move_call t p' (calls s)))) as Hgo;
    [|unfold p' in Hgo; by destruct owns].
  eapply (map_ok_quiet s _ t p p' Hm Ht); cbn; try done.
  - intros q path' e' E. unfold p' in E. destruct owns; [|done]. injection E as <-. intros [= <- <-]. by left.
  - intros x ox Hx. destruct (decide (x = e)) as [->|]; [|exists ox; rewrite lookup_insert_ne by done; auto].
    rewrite He in Hx. injection Hx as <-. exists o'. rewrite lookup_insert_eq. split_and!; [done..|]. intros E. destruct (Hr E) as [?|Howns]; [by left|right].
    unfold p'. rewrite Howns. cbn. by apply bool_decide_true.
  - intros path' x ox Hin Hx. destruct (Hno x) as [-> ->]. destruct (e_cached ox); [done|]. unfold p'. by destruct owns.
Qed.

Lemma map_ok_new s t path cached :
  cache_ok s -> map_ok s -> calls s !! t = Some (AStore path cached) ->
  let e := next_entry s in
  map_ok (goto t (AOpen path e) (set_entries (<[path := e]> (entries s)) (new_entry (MkFileEntry 1 None false cached) s))).
Proof.
  intros Hs [(f & H1 & H2) H3] Ht e. assert (objects s !! e = None) as Hnone.
  { destruct (objects s !! e) eqn:E; [|done]. assert (e < next_entry s)%nat by (apply (co_fresh _ Hs); eauto). unfold e in *. lia. }
  assert (forall path' x, entries s !! path' = Some x -> x <> e) as Hold by (intros path' x Hin ->; destruct (H3 _ _ Hin) as (o & Ho & _); congruence).
  split; cbn.
  - exists (<[e := path]> f). split.
    + intros path' x Hin. apply lookup_insert_Some in Hin as [[<- <-]|[_ Hin]]; [by rewrite fn_lookup_insert|].
      rewrite fn_lookup_insert_ne by (apply not_eq_sym; by eapply Hold). by apply H1.
    + intros t' p path' x Hp Hat. apply lookup_insert_Some in Hp as [[_ <-]|[_ Hp]]; [injection Hat as <- <-; by rewrite fn_lookup_insert|].
      rewrite fn_lookup_insert_ne; [by eapply H2|]. intros <-. destruct (co_calls _ Hs t' p Hp) as [K _].
      assert (pc_entry p = Some e) as E by (destruct p; cbn in *; simplify_eq; done). destruct (K e E). congruence.
  - intros path' x Hin. apply lookup_insert_Some in Hin as [[_ <-]|[_ Hin]].
    + eexists. rewrite lookup_insert_eq. split; [done|]. unfold stays. cbn. destruct cached; [by left|].
      rewrite (tally_goto _ _ t _ _ Ht). cbn. rewrite bool_decide_true by done. cbn. pose proof (tally_nonneg (unmaps e) (calls s)). lia.
    + destruct (H3 _ _ Hin) as (o & Ho & Hst). exists o. pose proof (Hold _ _ Hin) as Hne. rewrite lookup_insert_ne by (fold e; done). split; [done|].
      unfold stays in *. cbn. rewrite !(tally_goto _ _ t _ _ Ht). cbn. rewrite bool_decide_false by (fold e; congruence). cbn. destruct (e_cached o); [destruct Hst; [by left|right; lia]|lia].
Qed.

(** One object changes, but not whether it is cached. *)
Lemma changed_object s s' e o o' (p' : option fd_pc) :
  objects s' = <[e := o']> (objects s) -> objects s !! e = Some o -> e_cached o' = e_cached o -> (e_refs o' = refsClosed -> e_refs o = refsClosed) ->
  forall x ox, objects s !! x = Some ox -> exists ox', objects s' !! x = Some ox' /\ e_cached ox' = e_cached ox
    /\ (e_refs ox' = refsClosed -> e_refs ox = refsClosed \/ at_call (deletes x) p' = true).
Proof.
  intros E He Ec Hr x ox Hx. rewrite E. destruct (decide (x = e)) as [->|]; [|exists ox; rewrite lookup_insert_ne by done; auto].
  rewrite He in Hx. injection Hx as <-. exists o'. rewrite lookup_insert_eq. auto.
Qed.

Ltac quiet_move s Hm Ht :=
  eapply (map_ok_quiet s _ _ _ (Some _) Hm Ht);
    [reflexivity|done|intros ? ? ? [= <-] Hat; cbn in Hat; simplify_eq; auto|by apply same_objects|intros; cbn; by destruct (e_cached _)].
Ltac quiet_end s Hm Ht := eapply (map_ok_quiet s _ _ _ None Hm Ht); [reflexivity|done|done|by apply same_objects|intros; cbn; by destruct (e_cached _)].

(** Every action keeps the map right. *)
Lemma map_ok_run s s' t ok p : cache_ok s -> map_ok s -> calls s !! t = Some p -> run_pc t ok p s = Some s' -> map_ok s'.
Proof.
  intros Hs Hm Ht E. assert (forall path e path', pc_at p = Some (path, e) -> delete path (entries s) !! path' <> Some e) as Hgone by (intros; by eapply gone_from_map).
  assert (forall path path' e, delete path (entries s) !! path' = Some e -> entries s !! path' = Some e) as Hsub by (intros * H; by apply lookup_delete_Some in H as [_ ?]).
  destruct p as [path|path e|path e|path e|path|path cached|path e|path e|path e|path e|path e|path e|e|path|e|e]; cbn [run_pc acquire_pc closeEntry_pc remove_pc] in E;
    try (destruct (objects s !! e) as [o|] eqn:Eo; [cbn in E|done]).
  - injection E as <-. destruct (entries s !! path) as [e|] eqn:Ee; quiet_move s Hm Ht.
  - injection E as <-. destruct (tryAcquireRef o) as [o'|] eqn:Etry; [|quiet_move s Hm Ht].
    unfold tryAcquireRef in Etry. destruct (Z.leb_spec (e_refs o) 0); [done|]. injection Etry as <-.
    eapply (map_ok_quiet s _ t _ (Some _) Hm Ht); [reflexivity|done|intros q path' e' [= <-] [= <- <-]; auto| |intros; cbn; by destruct (e_cached _)].
    eapply (changed_object _ _ e o); [reflexivity|done|done|cbn; unfold refsClosed; lia].
  - destruct (e_ready o); [|done]. injection E as <-. destruct (e_file o); quiet_move s Hm Ht.
  - injection E as <-. by eapply map_ok_drop.
  - injection E as <-. quiet_move s Hm Ht.
  - injection E as <-. destruct (entries s !! path) as [e|] eqn:Ee; [quiet_move s Hm Ht|by eapply map_ok_new].
  - injection E as <-. destruct ok; (eapply (map_ok_quiet s _ t _ (Some _) Hm Ht); [reflexivity|done|intros q path' e' [= <-] [= <- <-]; auto| |intros; cbn; by destruct (e_cached _)];
      eapply (changed_object _ _ e o); [reflexivity|done|done|auto]).
  - injection E as <-. eapply (map_ok_quiet s _ t _ (Some _) Hm Ht); [reflexivity|by apply Hsub|intros q path' e' [= <-] [= <- <-]; auto|by apply same_objects|].
    intros path' e' o Hin _. cbn in Hin |- *. destruct (e_cached o); [done|]. apply bool_decide_false. intros ->. by eapply Hgone.
  - injection E as <-. destruct (e_cached o) eqn:Ec.
    + eapply (map_ok_quiet s _ t _ (Some _) Hm Ht); [reflexivity|done|intros q path' e' [= <-] [= <- <-]; auto|by apply same_objects|].
      intros path' e' o' Hin Ho'. cbn. destruct (e_cached o') eqn:Ec'; [done|]. apply bool_decide_false. intros ->. congruence.
    + eapply (map_ok_quiet s _ t _ (Some _) Hm Ht); [reflexivity|by apply Hsub|intros q path' e' [= <-] [= <- <-]; auto|by apply same_objects|].
      intros path' e' o' Hin _. cbn in Hin |- *. destruct (e_cached o'); [done|]. apply bool_decide_false. intros ->. by eapply Hgone.
  - done.
  - destruct (e_ready o); [|done]. injection E as <-. destruct (e_cached o && bool_decide (entries s !! path = Some e)) eqn:Ed.
    + eapply (map_ok_quiet s _ t _ (Some _) Hm Ht); [reflexivity|by apply Hsub|intros q path' e' [= <-] [= <- <-]; auto|by apply same_objects|].
      intros path' e' o' Hin _. cbn in Hin |- *. destruct (e_cached o'); [|done]. apply bool_decide_false. intros ->. by eapply Hgone.
    + eapply (map_ok_quiet s _ t _ (Some _) Hm Ht); [reflexivity|done|by intros q path' e' [= <-]|by apply same_objects|].
      intros path' e' o' Hin Ho'. cbn in Hin |- *. destruct (e_cached o') eqn:Ec; [|done]. apply bool_decide_false. intros ->.
      rewrite Eo in Ho'. injection Ho' as <-. rewrite Ec in Ed. cbn in Ed. apply bool_decide_eq_false in Ed. apply (Hgone path e' path' eq_refl).
      rewrite lookup_delete_ne; [done|]. intros <-. done.
  - injection E as <-. quiet_move s Hm Ht.
  - injection E as <-. quiet_end s Hm Ht.
  - injection E as <-. destruct (entries s !! path) as [e|] eqn:Ee; [|quiet_end s Hm Ht].
    eapply (map_ok_quiet s _ t _ (Some _) Hm Ht); [reflexivity|by apply Hsub|by intros q path' e' [= <-]|by apply same_objects|intros; cbn; by destruct (e_cached _)].
  - destruct (e_ready o); [|done]. injection E as <-. quiet_move s Hm Ht.
  - injection E as <-. destruct (eo_life _ _ _ (co_entry _ Hs e o Eo)) as [A|A]; unfold refsClosed in A;
      (destruct (Z.eqb_spec (e_refs o) 0); [lia|]); quiet_end s Hm Ht.
Qed.

(** ** Reachable states *)

Inductive reachable (cap : Z) : FdCache -> Prop :=
  | reachable_init : reachable cap (NewFdCache cap)
  | reachable_step s t a s' : reachable cap s -> fd_step t a s = Some s' -> reachable cap s'.

Lemma reachable_ok cap s : reachable cap s -> cache_ok s /\ map_ok s.
Proof.
  induction 1 as [|s t a s' _ [Hs Hm] E]; [split; [apply cache_ok_init|apply map_ok_init]|].
  assert (forall path e, entries s !! path = Some e -> is_Some (objects s !! e)) as Hmap by (intros path e (o & Ho & _)%(mo_entry _ Hm); eauto).
  unfold fd_step in E. destruct a as [path| |path|ok], (calls s !! t) as [p|] eqn:Ep; try done.
  - injection E as <-. split; [by apply cache_ok_start; [..|apply pc_ok_none]|by apply map_ok_start].
  - destruct p; try done. destruct (objects s !! e) as [o|] eqn:Eo; [|done]. injection E as <-.
    split; [eapply (step_drop s t _ path e o Hs Ep); try done; by apply bool_decide_true|by eapply map_ok_drop].
  - injection E as <-. split; [by apply cache_ok_start; [..|apply pc_ok_none]|by apply map_ok_start].
  - split; [by eapply cache_ok_run|by eapply map_ok_run].
Qed.

(** A call that cannot go on waits for an open that is under way. *)
Lemma waits_for_open s t p : cache_ok s -> calls s !! t = Some p -> (forall path e, p <> AHold path e) ->
  (exists s', run_pc t true p s = Some s') \/ exists t' path e, pc_entry p = Some e /\ calls s !! t' = Some (AOpen path e).
Proof.
  intros Hs Ht Hno. destruct (co_calls _ Hs t p Ht) as [K _].
  assert (forall e o, objects s !! e = Some o -> e_ready o = false -> exists t' path, calls s !! t' = Some (AOpen path e)) as Hopen.
  { intros e o Ho Hr. pose proof (eo_ready _ _ _ (co_entry _ Hs e o Ho)) as C. rewrite Hr in C. destruct C as [C _].
    destruct (map_choose (filter (fun x => opens e x.2 = true) (calls s))) as (t' & q & Hq).
    - intros E. unfold tally in C. by rewrite E, map_size_empty in C.
    - apply map_lookup_filter_Some in Hq as [Hq Hop]. destruct q; try done. cbn in Hop. bool_facts. subst. eauto. }
  destruct p as [path|path e|path e|path e|path|path cached|path e|path e|path e|path e|path e|path e|e|path|e|e]; cbn [run_pc acquire_pc closeEntry_pc remove_pc];
    try (by left; eauto); try (by destruct (Hno path e)); try (destruct (K e eq_refl) as [o Ho]; rewrite Ho; cbn [mbind option_bind]; try (by left; eauto)).
  all: destruct (e_ready o) eqn:Er; [by left; eauto|right]; destruct (Hopen e o Ho Er) as (t' & path' & Hc); by exists t', path', e.
Qed.

(** C25: the descriptor cache is safe under any interleaving. Whatever calls of [Acquire],
    [Release] and [Remove] run concurrently and whichever opens fail: a caller that
    holds an entry has its descriptor, and it is not closed; no descriptor is closed
    twice; a call that cannot go on waits for another's open of the same entry; and
    when all calls are over every descriptor ever opened is closed and the map is empty. *)
Theorem descriptors_safe cap s : reachable cap s ->
  (forall t path e, calls s !! t = Some (AHold path e) -> exists o fd, objects s !! e = Some o /\ e_file o = Some fd /\ fd ∉ closed_fds s)
  /\ NoDup (closed_fds s)
  /\ (forall t p, calls s !! t = Some p -> (forall path e, p <> AHold path e) ->
        (exists s', fd_step t (Run true) s = Some s') \/ exists t' path e, pc_entry p = Some e /\ calls s !! t' = Some (AOpen path e))
  /\ (calls s = ∅ -> (forall fd, (fd < next_fd s)%nat -> fd ∈ closed_fds s) /\ entries s = ∅).
Proof.
  intros [Hs Hm]%reachable_ok. split_and!.
  - intros t path e Ht. destruct (co_calls _ Hs t _ Ht) as [_ (o & Ho & [fd Hfd])]. exists o, fd. split_and!; [done..|].
    destruct (co_entry _ Hs e o Ho) as [A B _]. rewrite (proj2 (B fd Hfd)).
    pose proof (tally_pos (holds e) (calls s) t _ Ht (bool_decide_true (e = e) eq_refl)). unfold refsClosed in *. lia.
  - apply Hs.
  - intros t p Ht Hno. unfold fd_step. rewrite Ht. by apply waits_for_open.
  - intros Hc. assert (forall P, tally P (calls s) = 0) as Hzero by (intros P; rewrite Hc; apply tally_zero; intros *; by rewrite lookup_empty).
    assert (forall e o, objects s !! e = Some o -> e_refs o = refsClosed) as Hcl.
    { intros e o Ho. destruct (eo_life _ _ _ (co_entry _ Hs e o Ho)) as [(A1 & A2 & _)|(A & _)]; [|done]. rewrite A1, Hzero in A2. lia. }
    split.
    + intros fd Hfd. destruct (co_all _ Hs fd Hfd) as (e & o & Ho & Ef). apply (eo_file _ _ _ (co_entry _ Hs e o Ho) fd Ef). by rewrite Hzero, (Hcl e o Ho).
    + apply map_empty. intros path. destruct (entries s !! path) as [e|] eqn:Ee; [|done]. exfalso. destruct (mo_entry _ Hm path e Ee) as (o & Ho & Hst).
      unfold stays in Hst. rewrite !Hzero, (Hcl e o Ho) in Hst. destruct (e_cached o); [destruct Hst; [done|lia]|lia].
Qed.

(** ** Schedules *)

Lemma fd_run_reachable cap sched s s' : reachable cap s -> fd_run sched s = Some s' -> reachable cap s'.
Proof.
  revert s. induction sched as [|[t a] sched IH]; intros s Hr E; cbn in E; [by injection E as <-|].
  destruct (fd_step t a s) as [s1|] eqn:E1; [|done]. apply (IH s1); [by eapply reachable_step|done].
Qed.

Definition steps (t n : nat) : list (nat * fd_act) := replicate n (t, Run true).

(** Capacity one. The first call holds "a"; the second opens "b" beyond the capacity, and
    before it takes its entry out of the map, "b" is removed; then both are released. *)
Definition drift : list (nat * fd_act) :=
  (0%nat, Acquire "a") :: steps 0 5 ++ (1%nat, Acquire "b") :: steps 1 4 ++ (2%nat, Remove "b") :: steps 2 3
  ++ steps 1 1 ++ (1%nat, Release) :: steps 1 2 ++ (0%nat, Release) :: steps 0 3.

Definition after_drift : FdCache := default (NewFdCache 1) (fd_run drift (NewFdCache 1)).

Lemma descriptors_safe_witness :
  calls after_drift = ∅ /\ (forall fd, (fd < 2)%nat -> fd ∈ closed_fds after_drift) /\ entries after_drift = ∅.
Proof.
  assert (reachable 1 after_drift) as Hr.
  { apply (fd_run_reachable 1 drift (NewFdCache 1)); [constructor|vm_compute; reflexivity]. }
  split; [vm_compute; reflexivity|]. apply (proj2 (proj2 (proj2 (descriptors_safe 1 after_drift Hr)))). vm_compute. reflexivity.
Defined.

(** The size counter is one too low when everything is released, for the removal counted
    an entry that had never been counted; two descriptors are then cached at once in a cache
    of capacity one, one after the other. *)
Lemma size_drifts :
  size after_drift = -1 /\
  (let s := fd_run ((0%nat, Acquire "c") :: steps 0 5 ++ (1%nat, Acquire "d") :: steps 1 5) after_drift in
   (fun s => (size s, map_size (entries s))) <$> s = Some (1, 2%nat)).
Proof. vm_compute. auto. Qed.
