(* ===== verification/Heap.v ===== *)
(** * container/heap

    The binary heap of Go's standard library, as the cluster-wide listing uses it: a
    slice with [up] and [down], over any strict order. [Push] keeps the heap order,
    and [Pop] takes out a smallest element. *)

From S2P Require Import Prelude.

Section Heap.

Context {A : Type} (less : A -> A -> bool).
Implicit Types h : list A.

(** [h.Less(i, j)] and [h.Swap(i, j)] of a slice of elements. *)
Definition Less (h : list A) (i j : nat) : bool :=
  match h !! i, h !! j with Some a, Some b => less a b | _, _ => false end.

Definition Swap (h : list A) (i j : nat) : list A :=
  match h !! i, h !! j with Some a, Some b => <[i := b]> (<[j := a]> h) | _, _ => h end.

Definition parent (j : nat) : nat := Nat.div2 (j - 1).

Fixpoint up (fuel : nat) (h : list A) (j : nat) : list A :=
  match fuel with
  | O => h
  | S fuel =>
      let i := parent j in
      if decide (i = j) then h
      else if negb (Less h j i) then h
      else up fuel (Swap h i j) i
  end.

Fixpoint down (fuel : nat) (h : list A) (i n : nat) : list A :=
  match fuel with
  | O => h
  | S fuel =>
      let j1 := (2 * i + 1)%nat in
      if (n <=? j1)%nat then h
      else
        let j2 := (j1 + 1)%nat in
        let j := if (j2 <? n)%nat && Less h j2 j1 then j2 else j1 in
        if negb (Less h j i) then h
        else down fuel (Swap h i j) j n
  end.

Definition Push (h : list A) (x : A) : list A := up (S (length h)) (h ++ [x]) (length h).

(** The popped element and the rest, [None] for an empty heap. *)
Definition Pop (h : list A) : option (A * list A) :=
  let n := (length h - 1)%nat in
  let h := down (length h) (Swap h 0 n) 0 n in
  match h !! n with
  | Some x => Some (x, take n h)
  | None => None
  end.

(** ** Swapping *)

Definition flip (i j k : nat) : nat := if decide (k = i) then j else if decide (k = j) then i else k.

Lemma Swap_lookup h i j k : (i < length h)%nat -> (j < length h)%nat -> Swap h i j !! k = h !! flip i j k.
Proof.
  intros Hi Hj. apply lookup_lt_is_Some in Hi as [a Ha]. apply lookup_lt_is_Some in Hj as [b Hb].
  unfold Swap, flip. rewrite Ha, Hb. repeat case_decide; subst.
  - rewrite list_lookup_insert_eq; [done|]. rewrite length_insert. by eapply lookup_lt_Some.
  - rewrite list_lookup_insert_ne by done. rewrite list_lookup_insert_eq; [done|]. by eapply lookup_lt_Some.
  - by rewrite !list_lookup_insert_ne by done.
Qed.

Lemma Swap_length h i j : length (Swap h i j) = length h.
Proof. unfold Swap. repeat case_match; by rewrite ?length_insert. Qed.

Lemma Swap_perm h i j : Swap h i j ≡ₚ h.
Proof.
  destruct (decide (i < length h)%nat) as [Hi|Hi], (decide (j < length h)%nat) as [Hj|Hj].
  2-4: unfold Swap; rewrite ?(proj2 (lookup_ge_None h i)), ?(proj2 (lookup_ge_None h j)) by lia; repeat case_match; done.
  apply Permutation_inj. split; [apply Swap_length|]. exists (flip i j). split; [|intros k; by apply Swap_lookup].
  intros x y. unfold flip. repeat case_decide; subst; done.
Qed.

Lemma up_perm fuel h j : up fuel h j ≡ₚ h.
Proof.
  revert h j. induction fuel as [|fuel IH]; intros h j; cbn; [done|]. repeat case_match; try done.
  rewrite IH. apply Swap_perm.
Qed.

Lemma down_perm fuel h i n : down fuel h i n ≡ₚ h.
Proof.
  revert h i. induction fuel as [|fuel IH]; intros h i; cbn -[Nat.mul]; [done|].
  destruct (_ <=? _)%nat; [done|]. destruct (negb _); [done|]. rewrite IH. apply Swap_perm.
Qed.

Lemma Push_perm h x : Push h x ≡ₚ x :: h.
Proof. unfold Push. rewrite up_perm. by rewrite Permutation_app_comm. Qed.

(** ** Heap order *)

(** A strict order whose complement is transitive. *)
Context (less_asym : forall a b, less a b = true -> less b a = false).
Context (less_trans : forall a b c, less b a = false -> less c b = false -> less c a = false).

Lemma less_irrefl a : less a a = false.
Proof using less_asym. destruct (less a a) eqn:E; [|done]. pose proof (less_asym a a E). congruence. Qed.

(** The element at [p] is not above the one at [c]. *)
Definition edge h (p c : nat) : Prop := forall a b, h !! p = Some a -> h !! c = Some b -> less b a = false.

Definition heap (n : nat) h : Prop := forall c, (0 < c < n)%nat -> edge h (parent c) c.

Lemma parent_spec c : (0 < c)%nat -> (c = 2 * parent c + 1 \/ c = 2 * parent c + 2)%nat.
Proof.
  intros Hc. unfold parent. pose proof (Nat.div2_odd (c - 1)) as E. destruct (Nat.odd (c - 1)); cbn in E; lia.
Qed.

Lemma edge_trans h a b c : (b < length h)%nat -> edge h a b -> edge h b c -> edge h a c.
Proof using less_trans.
  intros Hb H1 H2 x z Hx Hz. apply lookup_lt_is_Some in Hb as [y Hy]. eapply less_trans; [by apply H1|by apply H2].
Qed.

Lemma edge_Swap h i j p c : (i < length h)%nat -> (j < length h)%nat -> edge (Swap h i j) p c <-> edge h (flip i j p) (flip i j c).
Proof. intros Hi Hj. unfold edge. by setoid_rewrite Swap_lookup. Qed.

Lemma Less_false h p c : Less h c p = false -> edge h p c.
Proof. unfold Less. intros E a b Ha Hb. by rewrite Ha, Hb in E. Qed.

Lemma Less_true h p c : Less h c p = true -> edge h c p.
Proof using less_asym. unfold Less. intros E a b Ha Hb. rewrite Ha, Hb in E. by apply less_asym. Qed.

Ltac flips := unfold flip; repeat case_decide; try congruence; try lia.

(** Everything is in order but the element at [j], which may be too small. *)
Definition low h (j : nat) : Prop :=
  (forall c, (0 < c < length h)%nat -> c <> j -> edge h (parent c) c)
  /\ (forall c, (0 < c < length h)%nat -> parent c = j -> (0 < j)%nat -> edge h (parent j) c).

Lemma low_step h j : (0 < j < length h)%nat -> low h j -> Less h j (parent j) = true -> low (Swap h (parent j) j) (parent j).
Proof using less_asym less_trans.
  intros Hj [H1 H2] Hl%Less_true. pose proof (parent_spec j ltac:(lia)) as Hp. remember (parent j) as i eqn:Ei.
  split; rewrite Swap_length; intros c Hc; pose proof (parent_spec c ltac:(lia)) as Hpc; [intros Hne|intros Hci Hi].
  - rewrite edge_Swap by lia. destruct (decide (c = j)) as [->|Hcj].
    { rewrite <- Ei. assert (flip i j i = j) as -> by flips. assert (flip i j j = i) as -> by flips. done. }
    assert (flip i j c = c) as -> by flips. destruct (decide (parent c = i)) as [Hci|Hci].
    + rewrite Hci. assert (flip i j i = j) as -> by flips. eapply (edge_trans _ _ i); [lia|done|]. rewrite <- Hci. by apply H1.
    + destruct (decide (parent c = j)) as [Hcj'|Hcj'].
      * rewrite Hcj'. assert (flip i j j = i) as -> by flips. apply H2; [done|done|lia].
      * assert (flip i j (parent c) = parent c) as -> by flips. by apply H1.
  - rewrite edge_Swap by lia. pose proof (parent_spec i ltac:(lia)) as Hpi. assert (flip i j (parent i) = parent i) as -> by flips.
    assert (edge h (parent i) i) as He by (apply H1; lia). destruct (decide (c = j)) as [->|Hcj]; [assert (flip i j j = i) as -> by flips; done|].
    assert (flip i j c = c) as -> by flips. eapply (edge_trans _ _ i); [lia|done|]. rewrite <- Hci. by apply H1.
Qed.

Lemma up_heap fuel h j : (j < fuel)%nat -> (j < length h)%nat -> low h j -> heap (length h) (up fuel h j).
Proof using less_asym less_trans.
  revert h j. induction fuel as [|fuel IH]; intros h j Hf Hj Hlow; [lia|]. cbn [up].
  destruct (decide (parent j = j)) as [E|E].
  { intros c Hc. apply Hlow; [done|]. intros ->. pose proof (parent_spec j). lia. }
  assert (0 < j)%nat as Hpos by (destruct j; [done|lia]). pose proof (parent_spec j Hpos).
  destruct (Less h j (parent j)) eqn:Hl; cbn [negb].
  - rewrite <- (Swap_length h (parent j) j). apply IH; [lia|rewrite Swap_length; lia|by apply low_step].
  - intros c Hc. destruct (decide (c = j)) as [->|]; [by apply Less_false|by apply Hlow].
Qed.

(** Everything before [n] is in order but the element at [i], which may be too big. *)
Definition high h (n i : nat) : Prop :=
  (forall c, (0 < c < n)%nat -> parent c <> i -> edge h (parent c) c)
  /\ (forall c, (0 < c < n)%nat -> parent c = i -> (0 < i)%nat -> edge h (parent i) c).

Lemma high_step h n i j : (n <= length h)%nat -> (0 < j < n)%nat -> parent j = i -> high h n i ->
  (forall c, (0 < c < n)%nat -> parent c = i -> edge h j c) -> edge h j i -> high (Swap h i j) n j.
Proof.
  intros Hn Hj Hp [H1 H2] Hmin Hji. pose proof (parent_spec j ltac:(lia)) as Hpj. rewrite Hp in Hpj.
  split; intros c Hc; pose proof (parent_spec c ltac:(lia)) as Hpc; intros Hcj; [|intros _].
  - rewrite edge_Swap by lia. destruct (decide (parent c = i)) as [Hci|Hci].
    + rewrite Hci. assert (flip i j i = j) as -> by flips. destruct (decide (c = j)) as [->|Hne].
      * assert (flip i j j = i) as -> by flips. done.
      * assert (flip i j c = c) as -> by flips. by apply Hmin.
    + assert (flip i j (parent c) = parent c) as -> by flips. destruct (decide (c = i)) as [->|Hne].
      * assert (flip i j i = j) as -> by flips. apply H2; [done|done|lia].
      * assert (flip i j c = c) as -> by flips. by apply H1.
  - rewrite Hp, edge_Swap by lia. assert (flip i j i = j) as -> by flips. assert (flip i j c = c) as -> by flips.
    rewrite <- Hcj. apply H1; [done|lia].
Qed.

Lemma down_heap fuel h i n : (n <= length h)%nat -> (n <= i + fuel)%nat -> high h n i -> heap n (down fuel h i n).
Proof using less_asym less_trans.
  revert h i. induction fuel as [|fuel IH]; intros h i Hn Hf Hhigh; cbn [down].
  { intros c Hc. pose proof (parent_spec c ltac:(lia)). apply Hhigh; [done|lia]. }
  set (j1 := (2 * i + 1)%nat). destruct (n <=? j1)%nat eqn:E1.
  { apply Nat.leb_le in E1. intros c Hc. pose proof (parent_spec c ltac:(lia)). apply Hhigh; [done|lia]. }
  apply Nat.leb_gt in E1. set (j := if (j1 + 1 <? n)%nat && Less h (j1 + 1) j1 then (j1 + 1)%nat else j1).
  assert (0 < j < n /\ (j = j1 \/ j = j1 + 1) /\ forall c, (0 < c < n) -> parent c = i -> edge h j c)%nat as (Hj & Hjc & Hmin).
  { assert (forall c, (0 < c < n)%nat -> parent c = i -> c = j1 \/ c = (j1 + 1)%nat) as Hch by (intros c Hc Hp; pose proof (parent_spec c ltac:(lia)); lia).
    assert (forall x, edge h x x) as Hrefl.
    { intros x a b Ha Hb. assert (b = a) as -> by congruence. apply less_irrefl. }
    subst j. destruct ((j1 + 1 <? n)%nat && Less h (j1 + 1) j1) eqn:E2.
    - apply andb_true_iff in E2 as [E2%Nat.ltb_lt E3]. split_and!; [lia..|by right|]. intros c Hc Hp. destruct (Hch c Hc Hp) as [->| ->]; [by apply Less_true|apply Hrefl].
    - split_and!; [lia..|by left|]. intros c Hc Hp. destruct (Hch c Hc Hp) as [->| ->]; [apply Hrefl|]. apply Less_false.
      apply andb_false_iff in E2 as [E2%Nat.ltb_ge|E2]; [lia|done]. }
  assert (parent j = i) as Hp by (pose proof (parent_spec j ltac:(lia)); lia). destruct (Less h j i) eqn:El; cbn [negb].
  - apply IH; [by rewrite Swap_length|lia|]. apply high_step; try done. by apply Less_true.
  - apply Less_false in El. intros c Hc. destruct (decide (parent c = i)) as [Hci|Hci]; [|by apply Hhigh].
    rewrite Hci. eapply (edge_trans _ _ j); [lia|done|by apply Hmin].
Qed.

(** ** Push and Pop *)

Definition is_heap h : Prop := heap (length h) h.

Lemma nil_heap : is_heap [].
Proof. intros c Hc. cbn in Hc. lia. Qed.

Lemma Push_heap h x : is_heap h -> is_heap (Push h x).
Proof using less_asym less_trans.
  intros Hh. unfold is_heap. rewrite (Permutation_length (Push_perm h x)). unfold Push.
  assert (length (h ++ [x]) = S (length h)) as El by (rewrite length_app; cbn; lia).
  cbn [length]. rewrite <- El. apply up_heap; [lia|lia|]. split; intros c Hc; rewrite El in Hc; pose proof (parent_spec c ltac:(lia)).
  - intros Hne a b Ha Hb. rewrite lookup_app_l in Ha, Hb by lia. apply (Hh c); [lia|done|done].
  - lia.
Qed.

Lemma heap_root n h x : heap n h -> h !! 0 = Some x -> forall c y, (c < n)%nat -> h !! c = Some y -> less y x = false.
Proof using less_asym less_trans.
  intros Hh Hx c. induction (lt_wf c) as [c _ IH]. intros y Hc Hy. destruct (decide (c = 0)%nat) as [->|Hne].
  - assert (y = x) as -> by congruence. apply less_irrefl.
  - pose proof (parent_spec c ltac:(lia)). pose proof (lookup_lt_Some _ _ _ Hy). destruct (h !! parent c) as [z|] eqn:Ez.
    + eapply less_trans; [apply (IH (parent c)); [lia|lia|done]|]. apply (Hh c); [lia|done|done].
    + apply lookup_ge_None in Ez. lia.
Qed.

Lemma down_beyond fuel h i n k : (n <= length h)%nat -> (n <= k)%nat -> (i < n)%nat -> down fuel h i n !! k = h !! k.
Proof.
  revert h i. induction fuel as [|fuel IH]; intros h i Hn Hk Hi; cbn [down]; [done|].
  destruct (n <=? 2 * i + 1)%nat eqn:E; [done|]. apply Nat.leb_gt in E.
  set (j := if _ && _ then _ else _). assert (i < j < n)%nat as Hj.
  { subst j. destruct ((2 * i + 1 + 1 <? n)%nat && _) eqn:E2; [|lia]. apply andb_true_iff in E2 as [E2%Nat.ltb_lt _]. lia. }
  destruct (negb _); [done|]. rewrite IH by (rewrite ?Swap_length; lia). rewrite Swap_lookup by lia. f_equal. flips.
Qed.

(** [Pop] takes out an element that no other one is below. *)
Lemma Pop_spec h : is_heap h ->
  match Pop h with
  | None => h = []
  | Some (x, h') => h ≡ₚ x :: h' /\ is_heap h' /\ Forall (fun y => less y x = false) h'
  end.
Proof using less_asym less_trans.
  intros Hh. unfold Pop. destruct h as [|x0 t]; [done|]. set (h := x0 :: t) in *. set (n := (length h - 1)%nat).
  assert (length h = S n) as Hlen by (unfold n, h; cbn; lia). set (h1 := Swap h 0 n). set (h2 := down (length h) h1 0 n).
  assert (length h1 = S n) as El1 by (unfold h1; by rewrite Swap_length).
  assert (h2 !! n = h1 !! n) as Ex1.
  { unfold h2. destruct (decide (n = 0)%nat) as [->|]; [by rewrite Hlen|apply down_beyond; lia]. }
  assert (h1 !! n = Some x0) as Ex2.
  { unfold h1. rewrite Swap_lookup by lia. unfold flip. case_decide as E; [rewrite E; by unfold h|]. by rewrite decide_True by done. }
  rewrite Ex1, Ex2. assert (h2 ≡ₚ h) as Hp by (unfold h2, h1; by rewrite down_perm, Swap_perm).
  assert (length h2 = S n) as El2 by (by rewrite Hp).
  assert (h2 = take n h2 ++ [x0]) as Et.
  { rewrite <- (take_drop n h2) at 1. f_equal. rewrite (drop_S _ x0 n), drop_ge by (lia || congruence). done. }
  assert (h ≡ₚ x0 :: take n h2) as Hperm by (rewrite <- Hp, Et at 1; by rewrite Permutation_app_comm).
  assert (length (take n h2) = n) as Elt by (rewrite length_take; lia).
  split_and!; [done| |].
  - unfold is_heap. rewrite Elt. assert (heap n h2) as H2.
    { apply down_heap; [lia|lia|]. split; [|lia]. intros c Hc Hpc a b. unfold h1. rewrite !Swap_lookup by lia. pose proof (parent_spec c ltac:(lia)).
      assert (flip 0 n c = c) as -> by flips. assert (flip 0 n (parent c) = parent c) as -> by flips. apply Hh; lia. }
    intros c Hc a b Ha Hb. apply lookup_take_Some in Ha as [Ha _], Hb as [Hb _]. by apply (H2 c).
  - apply Forall_forall. intros y Hy. assert (y ∈ h) as Hin by (rewrite Hperm; set_solver). apply list_elem_of_lookup in Hin as [c Hc].
    eapply (heap_root (length h) h x0 Hh eq_refl); [by eapply lookup_lt_Some|done].
Qed.

End Heap.
