(* ===== verification/ClusterList.v ===== *)
(** * Cluster-wide listing (server/operations/list.go, list_with_values.go)

    A page of a listing is a K-way merge of one page from every active node, with a
    cursor per node in the continuation token. The answers of the nodes, the context
    and the iteration order of Go maps are parameters; the token's base64 and JSON are
    an interface. *)

From S2P Require Import Prelude Keys Errors Retry Message Merge Rocks World Files Storage Listing Heap.

Open Scope Z_scope.

Definition MaxListLimit : Z := 1000.
Definition DefaultListLimit : Z := 1000.

(** The limit of a request, as every entry point applies it. *)
Definition apply_limit (limit : Z) : Z :=
  let limit := if limit <=? 0 then DefaultListLimit else limit in
  if MaxListLimit <? limit then MaxListLimit else limit.

(** [ContinuationToken] and its text: JSON in base64. *)
Record ContinuationToken := MkToken { NodeCursors : gmap bytes bytes; Prefix : bytes }.

Class TokenCodec := {
  token_encode : ContinuationToken -> option bytes;
  token_decode : bytes -> option ContinuationToken
}.

(** Tokens of text are read back. *)
Class TokenCodecLaws `{TokenCodec} : Prop := {
  token_roundtrip ct : utf8_valid (Prefix ct) = true ->
    map_Forall (fun n k => utf8_valid n = true /\ utf8_valid k = true) (NodeCursors ct) ->
    exists s, token_encode ct = Some s /\ s <> EmptyString /\ token_decode s = Some ct
}.

Record heapNode := MkHeapNode { hn_key : bytes; hn_nodeID : bytes }.
Definition hn_less (a b : heapNode) : bool := slt (hn_key a) (hn_key b).

Record NodeResponse := MkResponse {
  nr_NodeID : bytes;
  nr_Keys : list bytes;
  nr_Entries : list KeyValue;
  nr_ContinuationToken : bytes;
  nr_HasMore : bool
}.

Definition itemCount (nr : NodeResponse) : nat :=
  match nr_Entries nr with [] => length (nr_Keys nr) | _ => length (nr_Entries nr) end.

(** [None] is an index out of range. *)
Definition keyAt (nr : NodeResponse) (i : nat) : option bytes :=
  match nr_Entries nr with [] => nr_Keys nr !! i | _ => kv_Key <$> nr_Entries nr !! i end.

Record mergeResult := MkMerge { mr_Keys : list bytes; mr_Entries : list KeyValue }.

(** ** The merge *)

Inductive list_fault := Cancelled | Panicked | Failed (e : error).

Record merge_state := MkMerging {
  ms_heap : list heapNode;
  ms_cursors : gmap bytes bytes;
  ms_indices : gmap bytes Z;
  ms_result : mergeResult;
  ms_seen : gmap bytes bool
}.

Section Merge.

(** The responses by node, and whether the context is done in an iteration. *)
Context (responses : gmap bytes NodeResponse) (cancelled : nat -> bool) (withValues : bool).

(** The heap gets the first key of every node. *)
Fixpoint prime (rows : list (bytes * NodeResponse)) (h : list heapNode) (idx : gmap bytes Z)
    : option (list heapNode * gmap bytes Z) :=
  match rows with
  | [] => Some (h, idx)
  | (nodeID, nodeResp) :: rows =>
      if (0 <? itemCount nodeResp)%nat then
        k ← keyAt nodeResp 0;
        prime rows (Push hn_less h (MkHeapNode k nodeID)) (<[nodeID := 0]> idx)
      else prime rows h (<[nodeID := -1]> idx)
  end.

(** The result with the popped key, unless it was seen. *)
Definition add_result (minNode : heapNode) (st : merge_state) : option (mergeResult * gmap bytes bool) :=
  let res := ms_result st in
  if decide (ms_seen st !! hn_key minNode = Some true) then Some (res, ms_seen st)
  else
    entries ← (if withValues
               then nodeResp ← responses !! hn_nodeID minNode;
                    idx ← ms_indices st !! hn_nodeID minNode;
                    e ← (if idx <? 0 then None else nr_Entries nodeResp !! Z.to_nat idx);
                    Some (mr_Entries res ++ [e])
               else Some (mr_Entries res));
    Some (MkMerge (mr_Keys res ++ [hn_key minNode]) entries, <[hn_key minNode := true]> (ms_seen st)).

(** One iteration after the context check. *)
Definition merge_step (st : merge_state) : option merge_state :=
  '(minNode, h) ← Pop hn_less (ms_heap st);
  let nodeID := hn_nodeID minNode in
  let cursors := <[nodeID := hn_key minNode]> (ms_cursors st) in
  '(res, seen) ← add_result minNode st;
  nodeResp ← responses !! nodeID;
  let nextIndex := default 0 (ms_indices st !! nodeID) + 1 in
  if nextIndex <? Z.of_nat (itemCount nodeResp) then
    k ← keyAt nodeResp (Z.to_nat nextIndex);
    Some (MkMerging (Push hn_less h (MkHeapNode k nodeID)) cursors (<[nodeID := nextIndex]> (ms_indices st)) res seen)
  else Some (MkMerging h cursors (ms_indices st) res seen).

(** The loop; an iteration consumes an item, so their number is enough fuel. *)
Fixpoint merge_loop (fuel : nat) (limit : Z) (st : merge_state) : list_fault + merge_state :=
  match fuel with
  | O => inr st
  | S fuel =>
      if bool_decide (ms_heap st = []) || (limit <=? Z.of_nat (length (mr_Keys (ms_result st)))) then inr st
      else if cancelled fuel then inl Cancelled
      else match merge_step st with
           | None => inl Panicked
           | Some st => merge_loop fuel limit st
           end
  end.

(** Nodes with more than they sent, once everything sent is consumed. *)
Fixpoint more_rows (rows : list (bytes * NodeResponse)) (idx : gmap bytes Z) (cursors : gmap bytes bytes) (hasMore : bool)
    : gmap bytes bytes * bool :=
  match rows with
  | [] => (cursors, hasMore)
  | (nodeID, nodeResp) :: rows =>
      if nr_HasMore nodeResp && (Z.of_nat (itemCount nodeResp) - 1 <=? default 0 (idx !! nodeID))
      then more_rows rows idx
             (if decide (nr_ContinuationToken nodeResp <> EmptyString) then <[nodeID := nr_ContinuationToken nodeResp]> cursors else cursors) true
      else more_rows rows idx cursors hasMore
  end.

Definition items (rows : list (bytes * NodeResponse)) : nat := sum_list (itemCount ∘ snd <$> rows).

(** [kWayMerge], for the rows of the map in iteration order. *)
Definition kWayMerge (rows : list (bytes * NodeResponse)) (limit : Z)
    : list_fault + mergeResult * gmap bytes bytes * bool :=
  match prime rows [] ∅ with
  | None => inl Panicked
  | Some (h, idx) =>
      match merge_loop (S (items rows)) limit (MkMerging h ∅ idx (MkMerge [] []) ∅) with
      | inl f => inl f
      | inr st =>
          if bool_decide (ms_heap st = [])
          then let '(cursors, hasMore) := more_rows rows (ms_indices st) (ms_cursors st) false in
               inr (ms_result st, cursors, hasMore)
          else inr (ms_result st, ms_cursors st, true)
      end
  end.

End Merge.

(** ** Pages and listings *)

Section Cluster.

Context `{TokenCodec}.
(** The active nodes; what a node answers to a request for its local keys (nothing if
    the client, the call or the listing fails); the order in which a map is iterated. *)
Context (nodes : list bytes) (ask : bytes -> bytes -> bytes -> Z -> bool -> option NodeResponse).
Context (iteration : list (bytes * NodeResponse) -> list (bytes * NodeResponse)).

(** The cursors of a token, and whether it is a plain start key. *)
Definition parseContinuationToken (token prefix : bytes) : list_fault + gmap bytes bytes * bool :=
  if decide (token = EmptyString) then inr (∅, false)
  else match token_decode token with
       | None => inr (∅, true)
       | Some ct => if decide (Prefix ct = prefix) then inr (NodeCursors ct, false)
                    else inl (Failed (EText "invalid continuation token: prefix mismatch"))
       end.

Definition encodeContinuationToken (nodeCursors : gmap bytes bytes) (prefix : bytes) : bytes :=
  if decide (nodeCursors = ∅) then EmptyString
  else default EmptyString (token_encode (MkToken nodeCursors prefix)).

Definition start_key (nodeCursors : gmap bytes bytes) (nodeID : bytes) : bytes := default EmptyString (nodeCursors !! nodeID).

(** The nodes that answered; nothing if the context was done in the end. *)
Definition fetchFromAllNodes (ctx_done : bool) (prefix : bytes) (limit : Z) (nodeCursors : gmap bytes bytes) (withValues : bool)
    : list_fault + list (bytes * NodeResponse) :=
  let responses := omap (fun n => pair n <$> ask n prefix (start_key nodeCursors n) limit withValues) nodes in
  if ctx_done then inl Cancelled else inr responses.

Definition listClusterWide (ctx_done : bool) (cancelled : nat -> bool) (prefix : bytes) (limit : Z) (continuationToken : bytes) (withValues : bool)
    : list_fault + mergeResult * bytes * bool :=
  if decide (nodes = []) then inl (Failed (EText "no active nodes in cluster"))
  else match parseContinuationToken continuationToken prefix with
  | inl f => inl f
  | inr (nodeCursors, isPlainStartKey) =>
      let nodeCursors := if isPlainStartKey && bool_decide (continuationToken <> EmptyString)
                         then list_to_map ((fun n => (n, continuationToken)) <$> nodes) else nodeCursors in
      match fetchFromAllNodes ctx_done prefix limit nodeCursors withValues with
      | inl f => inl f
      | inr [] => inr (MkMerge [] [], EmptyString, false)
      | inr responses =>
          match kWayMerge (list_to_map responses) cancelled withValues (iteration responses) limit with
          | inl f => inl f
          | inr (merged, newCursors, hasMore) =>
              inr (merged, if hasMore then encodeContinuationToken newCursors prefix else EmptyString, hasMore)
          end
      end
  end.

(** [ListPage] in cluster mode. *)
Definition ListPage (ctx_done : bool) (cancelled : nat -> bool) (prefix : bytes) (limit : Z) (continuationToken : bytes)
    : list_fault + list bytes * bytes * bool :=
  match listClusterWide ctx_done cancelled prefix (apply_limit limit) continuationToken false with
  | inl f => inl f
  | inr (merged, token, hasMore) => inr (mr_Keys merged, token, hasMore)
  end.

(** [ListPageWithValues] in cluster mode. *)
Definition ListPageWithValues (ctx_done : bool) (cancelled : nat -> bool) (prefix : bytes) (limit : Z) (continuationToken : bytes)
    : list_fault + list KeyValue * bytes * bool :=
  match listClusterWide ctx_done cancelled prefix (apply_limit limit) continuationToken true with
  | inl f => inl f
  | inr (merged, token, hasMore) => inr (mr_Entries merged, token, hasMore)
  end.

(** [List]: all pages, with a context that is never done; [None] when the fuel runs
    out before the last page. *)
Fixpoint List_loop (fuel : nat) (prefix continuationToken : bytes) (allKeys : list bytes) : option (list_fault + list bytes) :=
  match fuel with
  | O => None
  | S fuel =>
      match ListPage false (fun _ => false) prefix MaxListLimit continuationToken with
      | inl f => Some (inl f)
      | inr (keys, nextToken, hasMore) =>
          let allKeys := allKeys ++ keys in
          if negb hasMore || bool_decide (nextToken = EmptyString) then Some (inr allKeys)
          else List_loop fuel prefix nextToken allKeys
      end
  end.

Definition List_all (fuel : nat) (prefix : bytes) : option (list_fault + list bytes) := List_loop fuel prefix EmptyString [].

End Cluster.

(** ** The node-local page *)

Section Local.

Context {DB SM : Type} `{Protobuf} `{RocksDB DB} `{SegmentStore SM} (env : Env).
(** The context and the jitter of the retries. *)
Context (done_before done_wait : nat -> bool) (rnd : nat -> draw).
Notation M := (M (DB := DB) (SM := SM)).

(** [retry.Do] of a call whose results are captured by the closure. *)
Definition retried {A} (op : bytes) (c : M (error + A)) : M (error + A) := fun w =>
  let fn : ST (World DB SM * option A) (option error) := fun '(w, r) =>
    match c w with
    | (inl e, w) => (Some e, (w, r))
    | (inr a, w) => (None, (w, Some a))
    end in
  match Do fn done_before done_wait rnd DefaultConfig op (w, None) with
  | (None, (w, Some a)) => (inr a, w)
  | (None, (w, None)) => (inl (EText EmptyString), w)
  | (Some e, (w, _)) => (inl e, w)
  end.

Definition ListLocal (prefix : bytes) (limit : Z) (continuationToken : bytes) : M (error + list bytes * bytes * bool) :=
  r ← retried "ListKeysWithPagination" (ListKeysWithPagination env prefix continuationToken (apply_limit limit));
  mret match r with
       | inl err => inl err
       | inr (keys, lastKey, hasMore) =>
           inr (keys, if hasMore && bool_decide (lastKey <> EmptyString) then lastKey else EmptyString, hasMore)
       end.

Definition ListLocalWithValues (prefix : bytes) (limit : Z) (continuationToken : bytes) : M (error + list KeyValue * bytes * bool) :=
  r ← retried "ListKeyValuesWithPagination" (ListKeyValuesWithPagination env prefix continuationToken (apply_limit limit));
  mret match r with
       | inl err => inl err
       | inr (entries, lastKey, hasMore) =>
           inr (entries, if hasMore && bool_decide (lastKey <> EmptyString) then lastKey else EmptyString, hasMore)
       end.

(** [ListPage] and [ListPageWithValues] without a cluster. *)
Definition ListPage_single (prefix : bytes) (limit : Z) (continuationToken : bytes) : M (error + list bytes * bytes * bool) :=
  ListLocal prefix (apply_limit limit) continuationToken.

Definition ListPageWithValues_single (prefix : bytes) (limit : Z) (continuationToken : bytes) : M (error + list KeyValue * bytes * bool) :=
  ListLocalWithValues prefix (apply_limit limit) continuationToken.

(** The response built from a local page, by the node itself or by its peer. *)
Definition local_response (nodeID : bytes) (r : error + list bytes * bytes * bool) : option NodeResponse :=
  match r with
  | inl _ => None
  | inr (keys, token, hasMore) => Some (MkResponse nodeID keys [] token hasMore)
  end.

End Local.
