(* ===== verification/ClusterListProps.v ===== *)
(** * Correctness of the cluster-wide merge

    One page of a cluster-wide listing is the sorted union of what the nodes sent, cut
    at the limit, whatever the order in which Go iterates its maps. *)

From S2P Require Import Prelude Keys Errors Retry Message Merge Wire Rocks World Files RangeReader Storage Wp Safety StorageSpec StorageProps Listing ListingProps Heap ClusterList.

Open Scope Z_scope.

Lemma hn_less_asym a b : hn_less a b = true -> hn_less b a = false.
Proof. apply slt_asym. Qed.

Lemma hn_less_trans a b c : hn_less b a = false -> hn_less c b = false -> hn_less c a = false.
Proof.
  unfold hn_less. intros H1 H2. apply negb_true_iff. apply negb_true_iff in H1, H2.
  change (sle (hn_key a) (hn_key c) = true). eapply sle_trans; [exact H1|exact H2].
Qed.

(** ** What a node sent *)

Definition keys_of (nr : NodeResponse) : list bytes :=
  match nr_Entries nr with [] => nr_Keys nr | es => kv_Key <$> es end.

Lemma itemCount_keys nr : itemCount nr = length (keys_of nr).
Proof. unfold itemCount, keys_of. destruct (nr_Entries nr); [done|]. by rewrite length_fmap. Qed.

Lemma keyAt_keys nr i : keyAt nr i = keys_of nr !! i.
Proof. unfold keyAt, keys_of. destruct (nr_Entries nr); [done|]. by rewrite list_lookup_fmap. Qed.

Definition key_lt (a b : bytes) : Prop := slt a b = true.

(** The keys of a response come in order; with values, they come with entries. *)
Definition response_ok (withValues : bool) (nr : NodeResponse) : Prop :=
  StronglySorted key_lt (keys_of nr) /\ (withValues = true -> keys_of nr = kv_Key <$> nr_Entries nr).

Lemma sorted_lookup l i j a b : StronglySorted key_lt l -> (i < j)%nat -> l !! i = Some a -> l !! j = Some b -> slt a b = true.
Proof.
  intros Hs. revert i j. induction Hs as [|x l Hs IH Hf]; intros i j Hij Ha Hb; [by rewrite lookup_nil in Ha|].
  destruct j as [|j]; [lia|]. destruct i as [|i]; cbn in *.
  - simplify_eq. rewrite Forall_forall in Hf. apply Hf. by eapply list_elem_of_lookup_2.
  - apply (IH i j); [lia|done|done].
Qed.

(** The start: the first key of every node is in the heap. *)
Lemma prime_spec rows h idx :
  NoDup rows.*1 -> is_heap hn_less h -> NoDup (hn_nodeID <$> h) -> (forall n, n ∈ rows.*1 -> n ∉ hn_nodeID <$> h) ->
  exists h' idx', prime rows h idx = Some (h', idx') /\ is_heap hn_less h' /\ NoDup (hn_nodeID <$> h')
    /\ (forall x, x ∈ h' <-> x ∈ h \/ exists nr, (hn_nodeID x, nr) ∈ rows /\ keys_of nr !! 0%nat = Some (hn_key x))
    /\ (forall n nr, (n, nr) ∈ rows -> idx' !! n = Some (Z.min 0 (Z.of_nat (length (keys_of nr)) - 1)))
    /\ (forall n, n ∉ rows.*1 -> idx' !! n = idx !! n).
Proof.
  revert h idx. induction rows as [|[n nr] rows IH]; intros h idx Hnd Hh Hndh Hnew; cbn [prime].
  { exists h, idx. split_and!; try done; [|set_solver]. intros x. split; [by left|]. intros [|(nr & Hin & _)]; [done|set_solver]. }
  cbn in Hnd. apply NoDup_cons in Hnd as [Hn Hnd]. rewrite itemCount_keys, keyAt_keys.
  assert (forall n' nr', (n', nr') ∈ rows -> n' <> n) as Hother by (intros n' nr' Hin ->; apply Hn; by apply (list_elem_of_fmap_2 fst _ (n, nr'))).
  destruct (Nat.ltb_spec 0 (length (keys_of nr))) as [Hc|Hc].
  - destruct (keys_of nr !! 0%nat) as [k|] eqn:Ek; [|apply lookup_ge_None in Ek; lia]. cbn [mbind option_bind].
    pose proof (Push_perm hn_less h (MkHeapNode k n)) as Hp.
    destruct (IH (Push hn_less h (MkHeapNode k n)) (<[n := 0]> idx)) as (h' & idx' & E & H1 & H2 & H3 & H4 & H5); try done.
    { by apply (Push_heap _ hn_less_asym hn_less_trans). }
    { rewrite Hp. cbn. apply NoDup_cons. split; [|done]. apply Hnew. cbn. set_solver. }
    { intros n' Hn'. rewrite Hp. cbn. rewrite elem_of_cons. intros [->|Hin]; [done|]. eapply Hnew; [|exact Hin]. cbn. set_solver. }
    exists h', idx'. split_and!; [done|done|done| | |].
    + intros x. rewrite H3, Hp, elem_of_cons. split; [intros [[->|]|(nr' & Hin & Hk)]; [right; exists nr; set_solver|by left|right; exists nr'; set_solver]|].
      intros [|(nr' & [[= E1 E2]|Hin]%elem_of_cons & Hk)]; [by left; right| |right; by exists nr']. left; left. subst. destruct x; cbn in *. congruence.
    + intros n' nr' [[= -> ->]|Hin]%elem_of_cons; [|by apply H4]. rewrite H5, lookup_insert_eq by done. f_equal. lia.
    + intros n' Hn'. cbn in Hn'. rewrite H5 by set_solver. apply lookup_insert_ne. set_solver.
  - destruct (IH h (<[n := -1]> idx)) as (h' & idx' & E & H1 & H2 & H3 & H4 & H5); try done; [intros n' Hn'; apply Hnew; cbn; set_solver|].
    exists h', idx'. split_and!; [done|done|done| | |].
    + intros x. rewrite H3. split; [intros [|(nr' & Hin & Hk)]; [by left|right; exists nr'; set_solver]|].
      intros [|(nr' & [[= E1 E2]|Hin]%elem_of_cons & Hk)]; [by left| |right; by exists nr']. subst. apply lookup_lt_Some in Hk. lia.
    + intros n' nr' [[= -> ->]|Hin]%elem_of_cons; [|by apply H4]. rewrite H5, lookup_insert_eq by done. f_equal. lia.
    + intros n' Hn'. cbn in Hn'. rewrite H5 by set_solver. apply lookup_insert_ne. set_solver.
Qed.

Section Merge.

Context (R : gmap bytes NodeResponse) (cancelled : nat -> bool) (withValues : bool) (limit : Z).
Implicit Types c : bytes -> nat.

Context (Hok : map_Forall (fun _ => response_ok withValues) R).

(** [c n] items of node [n] are consumed. *)
Definition taken c (k : bytes) : Prop := exists n nr i, R !! n = Some nr /\ (i < c n)%nat /\ keys_of nr !! i = Some k.

Record merging c (st : merge_state) : Prop := {
  mg_count n nr : R !! n = Some nr -> (c n <= length (keys_of nr))%nat;
  mg_heap : is_heap hn_less (ms_heap st);
  mg_nodup : NoDup (hn_nodeID <$> ms_heap st);
  mg_head k n : MkHeapNode k n ∈ ms_heap st <-> exists nr, R !! n = Some nr /\ keys_of nr !! c n = Some k;
  mg_index n nr : R !! n = Some nr -> ms_indices st !! n = Some (Z.min (Z.of_nat (c n)) (Z.of_nat (length (keys_of nr)) - 1));
  mg_cursor n nr : R !! n = Some nr -> ms_cursors st !! n = last (take (c n) (keys_of nr));
  mg_sorted : StronglySorted key_lt (mr_Keys (ms_result st));
  mg_keys k : k ∈ mr_Keys (ms_result st) <-> taken c k;
  mg_seen k : ms_seen st !! k = Some true <-> k ∈ mr_Keys (ms_result st);
  mg_least k x : k ∈ mr_Keys (ms_result st) -> x ∈ ms_heap st -> sle k (hn_key x) = true;
  mg_entries : withValues = true -> kv_Key <$> mr_Entries (ms_result st) = mr_Keys (ms_result st)
    /\ Forall (fun e => exists n nr, R !! n = Some nr /\ e ∈ nr_Entries nr) (mr_Entries (ms_result st))
}.

(** The keys that are left are not below the head of their node. *)
Lemma left_above c st n nr i k : merging c st -> R !! n = Some nr -> (c n <= i)%nat -> keys_of nr !! i = Some k ->
  exists x, x ∈ ms_heap st /\ hn_nodeID x = n /\ sle (hn_key x) k = true.
Proof using Hok.
  intros Hm HR Hi Hk. destruct (keys_of nr !! c n) as [h|] eqn:Eh.
  2: { apply lookup_ge_None in Eh. apply lookup_lt_Some in Hk. lia. }
  exists (MkHeapNode h n). split_and!; [apply (mg_head _ _ Hm); by exists nr|done|]. cbn.
  destruct (decide (i = c n)) as [->|Hne]; [replace h with k by congruence; apply sle_refl|].
  apply slt_sle. eapply sorted_lookup; [by apply (Hok n nr HR)| |exact Eh|exact Hk]. lia.
Qed.

Definition bump c (n : bytes) : bytes -> nat := fun n' => if decide (n' = n) then S (c n) else c n'.

Lemma bump_eq c n : bump c n n = S (c n).
Proof. unfold bump. by rewrite decide_True. Qed.

Lemma bump_ne c n n' : n' <> n -> bump c n n' = c n'.
Proof. intros Hne. unfold bump. by rewrite decide_False. Qed.

Lemma taken_bump c n nr k k' : R !! n = Some nr -> keys_of nr !! c n = Some k -> taken (bump c n) k' <-> k' = k \/ taken c k'.
Proof.
  intros HR Hk. unfold taken. split.
  - intros (n' & nr' & i & HR' & Hi & Hk'). destruct (decide (n' = n)) as [->|Hne].
    + rewrite bump_eq in Hi. assert (nr' = nr) as -> by congruence. destruct (decide (i = c n)) as [->|]; [left; congruence|].
      right. exists n, nr, i. split_and!; [done|lia|done].
    + rewrite bump_ne in Hi by done. right. by exists n', nr', i.
  - intros [->|(n' & nr' & i & HR' & Hi & Hk')].
    + exists n, nr, (c n). rewrite bump_eq. split_and!; [done|lia|done].
    + exists n', nr', i. split_and!; [done| |done]. destruct (decide (n' = n)) as [->|]; [rewrite bump_eq; lia|by rewrite bump_ne].
Qed.

(** What one iteration adds to the result. *)
Lemma add_result_spec c st x h nr :
  merging c st -> Pop hn_less (ms_heap st) = Some (x, h) -> R !! hn_nodeID x = Some nr -> keys_of nr !! c (hn_nodeID x) = Some (hn_key x) ->
  exists res seen, add_result R withValues x st = Some (res, seen)
    /\ StronglySorted key_lt (mr_Keys res) /\ (forall k, k ∈ mr_Keys res <-> k = hn_key x \/ k ∈ mr_Keys (ms_result st))
    /\ (forall k, seen !! k = Some true <-> k ∈ mr_Keys res)
    /\ (length (mr_Keys res) <= S (length (mr_Keys (ms_result st))))%nat
    /\ (withValues = true -> kv_Key <$> mr_Entries res = mr_Keys res
        /\ Forall (fun e => exists n nr, R !! n = Some nr /\ e ∈ nr_Entries nr) (mr_Entries res)).
Proof using Hok.
  intros Hm Hpop HR Hk. pose proof (Pop_spec hn_less hn_less_asym hn_less_trans _ (mg_heap _ _ Hm)) as Hp. rewrite Hpop in Hp.
  destruct Hp as (Hperm & _ & _). assert (x ∈ ms_heap st) as Hx by (rewrite Hperm; set_solver).
  unfold add_result. destruct (decide (ms_seen st !! hn_key x = Some true)) as [Hs|Hs].
  { exists (ms_result st), (ms_seen st). pose proof Hm as []. split_and!; try done; [|lia]. intros k. rewrite mg_seen0 in Hs. naive_solver. }
  assert (exists es, (if withValues then nodeResp ← R !! hn_nodeID x; idx ← ms_indices st !! hn_nodeID x;
      e ← (if idx <? 0 then None else nr_Entries nodeResp !! Z.to_nat idx); Some (mr_Entries (ms_result st) ++ [e])
    else Some (mr_Entries (ms_result st))) = Some es
    /\ (withValues = true -> kv_Key <$> es = mr_Keys (ms_result st) ++ [hn_key x]
        /\ Forall (fun e => exists n nr, R !! n = Some nr /\ e ∈ nr_Entries nr) es)) as (es & Ees & Hes).
  { destruct withValues eqn:Ev; [|by eexists]. destruct (Hok _ _ HR) as [_ Hv]. specialize (Hv eq_refl).
    pose proof (lookup_lt_Some _ _ _ Hk) as Hlt. rewrite HR. cbn. rewrite (mg_index _ _ Hm _ _ HR). cbn.
    rewrite Z.min_l by lia. destruct (Z.ltb_spec (Z.of_nat (c (hn_nodeID x))) 0) as [|_]; [lia|]. rewrite Nat2Z.id.
    rewrite Hv, list_lookup_fmap in Hk. destruct (nr_Entries nr !! c (hn_nodeID x)) as [e|] eqn:Ee; [|done]. cbn in Hk |- *.
    eexists. split; [done|]. intros _. destruct (mg_entries _ _ Hm Ev) as [E1 E2]. split.
    - rewrite fmap_app, E1. cbn. congruence.
    - apply Forall_app. split; [done|]. apply Forall_cons. split; [|by apply Forall_nil_2]. exists (hn_nodeID x), nr. split; [done|]. by eapply list_elem_of_lookup_2. }
  rewrite Ees. cbn. eexists _, _. split; [done|]. cbn. split_and!; [| | |rewrite length_app; cbn; lia|done].
  - apply StronglySorted_app_2; [|apply Hm|by repeat constructor]. intros a b Ha Hb%list_elem_of_singleton. subst b.
    destruct (sle_slt_or_eq _ _ (mg_least _ _ Hm _ _ Ha Hx)) as [->|]; [|done]. by rewrite (mg_seen _ _ Hm) in Hs.
  - intros k. set_solver.
  - intros k. destruct (decide (k = hn_key x)) as [->|Hne]; [rewrite lookup_insert_eq; set_solver|].
    rewrite lookup_insert_ne, (mg_seen _ _ Hm) by done. set_solver.
Qed.

Lemma popped_node c st x h : merging c st -> Pop hn_less (ms_heap st) = Some (x, h) ->
  ms_heap st ≡ₚ x :: h /\ is_heap hn_less h /\ Forall (fun y => sle (hn_key x) (hn_key y) = true) h
  /\ hn_nodeID x ∉ hn_nodeID <$> h /\ NoDup (hn_nodeID <$> h)
  /\ exists nr, R !! hn_nodeID x = Some nr /\ keys_of nr !! c (hn_nodeID x) = Some (hn_key x).
Proof.
  intros Hm Hpop. pose proof (Pop_spec hn_less hn_less_asym hn_less_trans _ (mg_heap _ _ Hm)) as Hp. rewrite Hpop in Hp.
  destruct Hp as (Hperm & Hh & Hmin). pose proof (mg_nodup _ _ Hm) as Hnd. rewrite Hperm in Hnd. cbn in Hnd. apply NoDup_cons in Hnd as [Hx Hnd].
  split_and!; try done.
  { eapply Forall_impl; [exact Hmin|]. intros y Hy. unfold sle. unfold hn_less in Hy. by rewrite Hy. }
  destruct x as [k n]. apply (mg_head _ _ Hm). rewrite Hperm. set_solver.
Qed.

(** The heap after an iteration: the popped node's next item takes its place. *)
Lemma next_heads c n nr x h h' :
  R !! n = Some nr -> hn_nodeID x = n -> n ∉ hn_nodeID <$> h ->
  (forall k n', MkHeapNode k n' ∈ x :: h <-> exists nr', R !! n' = Some nr' /\ keys_of nr' !! c n' = Some k) ->
  (h' = h /\ keys_of nr !! S (c n) = None \/ exists k, h' ≡ₚ MkHeapNode k n :: h /\ keys_of nr !! S (c n) = Some k) ->
  forall k n', MkHeapNode k n' ∈ h' <-> exists nr', R !! n' = Some nr' /\ keys_of nr' !! bump c n n' = Some k.
Proof.
  intros HR Hxn Hn Hhead Hh' k n'. assert (forall k', MkHeapNode k' n ∉ h) as Hno.
  { intros k' Hin. apply Hn. change n with (hn_nodeID (MkHeapNode k' n)). by apply list_elem_of_fmap_2. }
  destruct (decide (n' = n)) as [->|Hne].
  - rewrite bump_eq. destruct Hh' as [[-> E]|(k1 & Hp & E)].
    + split; [by intros ?%Hno|]. intros (nr' & E1 & E2). congruence.
    + rewrite Hp, elem_of_cons. split; [intros [[= ->]|?%Hno]; [by exists nr|done]|]. intros (nr' & E1 & E2). left. congruence.
  - rewrite bump_ne by done. rewrite <- Hhead. destruct Hh' as [[-> _]|(k1 & Hp & _)]; [|rewrite Hp]; rewrite !elem_of_cons; split.
    + by right.
    + intros [<-|]; [by cbn in Hxn|done].
    + intros [[= -> ->]|?]; [done|by right].
    + intros [<-|]; [by cbn in Hxn|by right].
Qed.

Lemma last_take_S (l : list bytes) i k : l !! i = Some k -> last (take (S i) l) = Some k.
Proof. intros E. rewrite (take_S_r _ _ _ E). apply last_snoc. Qed.

(** One iteration. *)
Lemma merge_step_spec c st : merging c st -> ms_heap st <> [] ->
  exists n nr st', R !! n = Some nr /\ (c n < length (keys_of nr))%nat /\ merge_step R withValues st = Some st' /\ merging (bump c n) st'
    /\ (length (mr_Keys (ms_result st')) <= S (length (mr_Keys (ms_result st))))%nat.
Proof using Hok.
  intros Hm Hne. unfold merge_step. destruct (Pop hn_less (ms_heap st)) as [[x h]|] eqn:Hpop.
  2: { pose proof (Pop_spec hn_less hn_less_asym hn_less_trans _ (mg_heap _ _ Hm)) as Hp. by rewrite Hpop in Hp. }
  destruct (popped_node c st x h Hm Hpop) as (Hperm & Hh & Hmin & Hx & Hnd & nr & HR & Hk).
  destruct (add_result_spec c st x h nr Hm Hpop HR Hk) as (res & seen & Ea & Hs & Hkeys & Hseen & Hlen & Hes).
  cbn [mbind option_bind]. rewrite Ea. cbn [mbind option_bind]. remember (hn_nodeID x) as n eqn:En.
  pose proof (lookup_lt_Some _ _ _ Hk) as Hlt. exists n, nr.
  rewrite HR. cbn [mbind option_bind]. rewrite (mg_index _ _ Hm _ _ HR), itemCount_keys. cbn [default from_option id]. rewrite Z.min_l by lia.
  assert (forall h' idx, (h' = h /\ keys_of nr !! S (c n) = None \/ exists k, h' ≡ₚ MkHeapNode k n :: h /\ keys_of nr !! S (c n) = Some k) ->
    is_heap hn_less h' -> NoDup (hn_nodeID <$> h') -> (forall n', n' <> n -> idx !! n' = ms_indices st !! n') ->
    idx !! n = Some (Z.min (Z.of_nat (S (c n))) (Z.of_nat (length (keys_of nr)) - 1)) ->
    merging (bump c n) (MkMerging h' (<[n := hn_key x]> (ms_cursors st)) idx res seen)) as Hnew.
  { intros h' idx Hh' Hheap Hnd' Hidx Hidxn. assert (forall k n', MkHeapNode k n' ∈ h' <-> exists nr', R !! n' = Some nr' /\ keys_of nr' !! bump c n n' = Some k) as Hheads.
    { eapply (next_heads c n nr x h h'); try done. intros k n'. rewrite <- Hperm. apply (mg_head _ _ Hm). }
    pose proof Hm as [M1 _ _ _ M5 M6 _ M8 M9 M10 _]. split; cbn; try done.
    - intros n' nr' HR'. destruct (decide (n' = n)) as [->|]; [rewrite bump_eq; assert (nr' = nr) as -> by congruence; lia|rewrite bump_ne by done; by apply M1].
    - intros n' nr' HR'. destruct (decide (n' = n)) as [->|]; [rewrite bump_eq; by assert (nr' = nr) as -> by congruence|rewrite bump_ne, Hidx by done; by apply M5].
    - intros n' nr' HR'. destruct (decide (n' = n)) as [->|].
      + rewrite bump_eq, lookup_insert_eq. assert (nr' = nr) as -> by congruence. by rewrite (last_take_S _ _ _ Hk).
      + rewrite bump_ne, lookup_insert_ne by done. by apply M6.
    - intros k. rewrite Hkeys, (taken_bump c n nr (hn_key x)) by done. by rewrite M8.
    - intros k y Hk' Hy. assert (sle (hn_key x) (hn_key y) = true) as Hxy.
      { destruct Hh' as [[-> _]|(k1 & Hp & E1)].
        - rewrite Forall_forall in Hmin. by apply Hmin.
        - rewrite Hp, elem_of_cons in Hy. destruct Hy as [->|Hy]; [|rewrite Forall_forall in Hmin; by apply Hmin].
          apply slt_sle. cbn. eapply sorted_lookup; [by apply (Hok n nr HR)| |exact Hk|exact E1]. lia. }
      rewrite Hkeys in Hk'. destruct Hk' as [->|Hk']; [done|]. eapply sle_trans; [|exact Hxy]. apply M10; [done|]. rewrite Hperm. set_solver. }
  destruct (Z.ltb_spec (Z.of_nat (c n) + 1) (Z.of_nat (length (keys_of nr)))) as [Hn|Hn].
  - rewrite keyAt_keys. replace (Z.to_nat (Z.of_nat (c n) + 1)) with (S (c n)) by lia.
    destruct (keys_of nr !! S (c n)) as [k|] eqn:Ek; [|apply lookup_ge_None in Ek; lia].
    cbn [mbind option_bind]. eexists. split_and!; [done|done|reflexivity| |exact Hlen].
    apply Hnew; [right; exists k; split; [apply Push_perm|done]|by apply (Push_heap _ hn_less_asym hn_less_trans)| |intros n' Hn'; by apply lookup_insert_ne|].
    + rewrite (Push_perm hn_less h _). cbn. by apply NoDup_cons.
    + rewrite lookup_insert_eq. f_equal. lia.
  - eexists. split_and!; [done|done|reflexivity| |exact Hlen]. apply Hnew; [left; split; [done|]; apply lookup_ge_None; lia|done|done|done|].
    rewrite (mg_index _ _ Hm _ _ HR). f_equal. lia.
Qed.

(** ** The loop *)

(** The items still to be consumed. *)
Definition remaining c (rows : list (bytes * NodeResponse)) : nat := sum_list ((fun r => length (keys_of r.2) - c r.1)%nat <$> rows).

Lemma remaining_ext c c' rows : (forall n, n ∈ rows.*1 -> c' n = c n) -> remaining c' rows = remaining c rows.
Proof.
  induction rows as [|[n nr] rows IH]; intros E; cbn; [done|]. unfold remaining in *. rewrite (E n) by set_solver. f_equal. apply IH. set_solver.
Qed.

Lemma remaining_bump c n nr rows : NoDup rows.*1 -> (n, nr) ∈ rows -> (c n < length (keys_of nr))%nat -> S (remaining (bump c n) rows) = remaining c rows.
Proof.
  induction rows as [|[n' nr'] rows IH]; intros Hnd Hin Hlt; [set_solver|]. cbn in Hnd. apply NoDup_cons in Hnd as [Hn Hnd]. unfold remaining in *. cbn.
  apply elem_of_cons in Hin as [[= -> ->]|Hin].
  - rewrite bump_eq. fold (remaining (bump c n') rows) (remaining c rows). rewrite (remaining_ext c (bump c n') rows); [lia|].
    intros x Hx. apply bump_ne. set_solver.
  - rewrite bump_ne; [rewrite <- IH by done; lia|]. intros ->. apply Hn. by apply (list_elem_of_fmap_2 fst _ (n, nr)).
Qed.

Lemma merge_loop_spec rows fuel c st :
  NoDup rows.*1 -> (forall n nr, R !! n = Some nr -> (n, nr) ∈ rows) -> merging c st -> (remaining c rows < fuel)%nat ->
  Z.of_nat (length (mr_Keys (ms_result st))) <= Z.max 0 limit ->
  match merge_loop R cancelled withValues fuel limit st with
  | inl f => f = Cancelled /\ exists i, cancelled i = true
  | inr st' => exists c', merging c' st' /\ Z.of_nat (length (mr_Keys (ms_result st'))) <= Z.max 0 limit
      /\ (ms_heap st' = [] \/ limit <= Z.of_nat (length (mr_Keys (ms_result st'))))
  end.
Proof using Hok.
  intros Hnd Hrows. revert c st. induction fuel as [|fuel IH]; intros c st Hm Hf Hl; [lia|]. cbn [merge_loop].
  case_bool_decide as Eh; cbn [orb]; [exists c; auto|]. destruct (Z.leb_spec limit (Z.of_nat (length (mr_Keys (ms_result st))))) as [El|El]; [exists c; auto|].
  destruct (cancelled fuel) eqn:Ec; [split; [done|by exists fuel]|].
  destruct (merge_step_spec c st Hm Eh) as (n & nr & st' & HR & Hlt & -> & Hm' & Hlen). apply (IH (bump c n)); [done| |lia].
  pose proof (remaining_bump c n nr rows Hnd (Hrows n nr HR) Hlt). lia.
Qed.

End Merge.

(** ** A page *)

(** A page takes the first [c n] items of each node [n]. *)
Record merged_page (R : gmap bytes NodeResponse) (withValues : bool) (limit : Z) (c : bytes -> nat)
    (res : mergeResult) (cursors : gmap bytes bytes) (more : bool) : Prop := {
  mp_count n nr : R !! n = Some nr -> (c n <= length (keys_of nr))%nat;
  mp_sorted : StronglySorted key_lt (mr_Keys res);
  mp_keys k : k ∈ mr_Keys res <-> exists n nr, R !! n = Some nr /\ k ∈ take (c n) (keys_of nr);
  mp_limit : Z.of_nat (length (mr_Keys res)) <= limit;
  mp_least n nr k : R !! n = Some nr -> k ∈ drop (c n) (keys_of nr) ->
    Z.of_nat (length (mr_Keys res)) = limit /\ forall k', k' ∈ mr_Keys res -> sle k' k = true;
  mp_cursor n nr : R !! n = Some nr -> cursors !! n = last (take (c n) (keys_of nr))
    \/ c n = length (keys_of nr) /\ nr_HasMore nr = true /\ cursors !! n = Some (nr_ContinuationToken nr);
  mp_more : more = true <-> exists n nr, R !! n = Some nr /\ ((c n < length (keys_of nr))%nat \/ nr_HasMore nr = true);
  mp_entries : withValues = true -> kv_Key <$> mr_Entries res = mr_Keys res
    /\ Forall (fun e => exists n nr, R !! n = Some nr /\ e ∈ nr_Entries nr) (mr_Entries res)
}.

Lemma taken_take (R : gmap bytes NodeResponse) c k : taken R c k <-> exists n nr, R !! n = Some nr /\ k ∈ take (c n) (keys_of nr).
Proof.
  unfold taken. split.
  - intros (n & nr & i & HR & Hi & Hk). exists n, nr. split; [done|]. apply list_elem_of_lookup. exists i. by apply lookup_take_Some.
  - intros (n & nr & HR & Hk). apply list_elem_of_lookup in Hk as [i [Hk Hi]%lookup_take_Some]. by exists n, nr, i.
Qed.

Lemma more_rows_spec rows idx cursors b :
  NoDup rows.*1 -> (forall n nr, (n, nr) ∈ rows -> Z.of_nat (itemCount nr) - 1 <= default 0 (idx !! n)) ->
  ((more_rows rows idx cursors b).2 = true <-> b = true \/ exists n nr, (n, nr) ∈ rows /\ nr_HasMore nr = true)
  /\ forall n, (more_rows rows idx cursors b).1 !! n = cursors !! n
       \/ exists nr, (n, nr) ∈ rows /\ nr_HasMore nr = true /\ (more_rows rows idx cursors b).1 !! n = Some (nr_ContinuationToken nr).
Proof.
  revert cursors b. induction rows as [|[n nr] rows IH]; intros cursors b Hnd Hidx; cbn [more_rows].
  { split; [|by left]. split; [by left|]. intros [|(n & nr & Hin & _)]; [done|set_solver]. }
  cbn in Hnd. apply NoDup_cons in Hnd as [Hn Hnd]. rewrite (proj2 (Z.leb_le _ _)) by (apply Hidx; set_solver). rewrite andb_true_r.
  assert (forall n' nr', (n', nr') ∈ rows -> Z.of_nat (itemCount nr') - 1 <= default 0 (idx !! n')) as Hidx' by (intros; apply Hidx; set_solver).
  destruct (nr_HasMore nr) eqn:Eh.
  - set (cur := if decide _ then _ else _). destruct (IH cur true Hnd Hidx') as [H1 H2]. split.
    + rewrite H1. split; [|by left]. intros _. right. exists n, nr. set_solver.
    + intros n'. destruct (H2 n') as [E|(nr' & Hin & Hh & E)]; [|right; exists nr'; set_solver]. rewrite E. subst cur.
      case_decide; [|by left]. destruct (decide (n' = n)) as [->|]; [|left; by apply lookup_insert_ne]. right. exists nr.
      rewrite lookup_insert_eq. set_solver.
  - destruct (IH cursors b Hnd Hidx') as [H1 H2]. split.
    + rewrite H1. split; [intros [|(n' & nr' & ? & ?)]; [by left|right; exists n', nr'; set_solver]|].
      intros [|(n' & nr' & [[= -> ->]|Hin]%elem_of_cons & Hh)]; [by left|congruence|right; by exists n', nr'].
    + intros n'. destruct (H2 n') as [E|(nr' & Hin & Hh & E)]; [by left|right; exists nr'; set_solver].
Qed.

Section Page.

Context (responses rows : list (bytes * NodeResponse)) (cancelled : nat -> bool) (withValues : bool) (limit : Z).
Let R : gmap bytes NodeResponse := list_to_map responses.

Lemma merged_of c st cursors more : 0 < limit ->
  merging R withValues c st -> map_Forall (fun _ => response_ok withValues) R -> Z.of_nat (length (mr_Keys (ms_result st))) <= limit ->
  ms_heap st = [] \/ limit <= Z.of_nat (length (mr_Keys (ms_result st))) ->
  (forall n nr, R !! n = Some nr -> cursors !! n = last (take (c n) (keys_of nr))
    \/ c n = length (keys_of nr) /\ nr_HasMore nr = true /\ cursors !! n = Some (nr_ContinuationToken nr)) ->
  (more = true <-> exists n nr, R !! n = Some nr /\ ((c n < length (keys_of nr))%nat \/ nr_HasMore nr = true)) ->
  merged_page R withValues limit c (ms_result st) cursors more.
Proof.
  intros Hl Hm Hok Hlen Hstop Hcur Hmore. pose proof Hm as []. split; try done.
  - intros k. rewrite mg_keys0. apply taken_take.
  - intros n nr k HR Hk. apply list_elem_of_lookup in Hk as [i Hk]. rewrite lookup_drop in Hk.
    destruct (left_above R withValues Hok c st n nr (c n + i) k Hm HR ltac:(lia) Hk) as (x & Hx & _ & Hle).
    destruct Hstop as [E|Hge]; [rewrite E in Hx; set_solver|]. split; [lia|]. intros k' Hk'. eapply sle_trans; [by apply mg_least0|done].
Qed.

(** C23: the K-way merge. For responses whose keys are in order and any iteration order
    of the maps, the merge stops, panics nowhere and is abandoned only by a cancelled
    context; its result is in strict order (so without duplicates) and consists of a
    front part of every response; a key it leaves out is not below any key of the
    page, and is left out only because the page has the limit of keys; the entries of
    a listing with values belong to the keys; the cursor of a node is the last of its
    keys on the page (or the node's own token, when all it sent is consumed); and more
    is announced exactly when a node has more. *)
Theorem kWayMerge_correct :
  0 < limit -> NoDup responses.*1 -> rows ≡ₚ responses -> Forall (fun r => response_ok withValues r.2) responses ->
  match kWayMerge (list_to_map responses) cancelled withValues rows limit with
  | inl f => f = Cancelled /\ exists i, cancelled i = true
  | inr (res, cursors, more) => exists c, merged_page (list_to_map responses) withValues limit c res cursors more
  end.
Proof.
  intros Hl Hnd Hperm Hresp. assert (NoDup rows.*1) as Hndr by (by rewrite Hperm).
  assert (forall n nr, R !! n = Some nr <-> (n, nr) ∈ rows) as HR.
  { intros n nr. rewrite Hperm. symmetry. by apply elem_of_list_to_map. }
  assert (map_Forall (fun _ => response_ok withValues) R) as Hok.
  { intros n nr Hn. apply HR in Hn. rewrite Hperm in Hn. rewrite Forall_forall in Hresp. apply (Hresp _ Hn). }
  unfold kWayMerge. fold R. destruct (prime_spec rows [] ∅ Hndr (nil_heap hn_less) ltac:(constructor) ltac:(set_solver)) as (h & idx & -> & Hh & Hndh & Hhead & Hidx & _).
  assert (merging R withValues (fun _ => O) (MkMerging h ∅ idx (MkMerge [] []) ∅)) as Hm.
  { split; cbn; try done.
    - lia.
    - intros k n. rewrite Hhead. cbn. setoid_rewrite HR. set_solver.
    - intros n nr Hn. apply HR in Hn. by rewrite (Hidx n nr Hn).
    - constructor.
    - intros k. split; [set_solver|]. intros (n & nr & i & _ & Hi & _). lia.
    - set_solver.
    - by intros k x Hk%elem_of_nil. }
  assert (remaining (fun _ => O) rows < S (items rows))%nat as Hfuel.
  { assert (remaining (fun _ => O) rows = items rows) as ->; [|lia]. unfold remaining, items. f_equal. apply list_fmap_ext. intros i r _. cbn. rewrite itemCount_keys. lia. }
  pose proof (merge_loop_spec R cancelled withValues limit Hok rows _ _ _ Hndr (fun n nr => proj1 (HR n nr)) Hm Hfuel ltac:(cbn; lia)) as Hloop.
  destruct (merge_loop _ _ _ _ _ _) as [f|st]; [done|]. destruct Hloop as (c & Hm' & Hlen & Hstop). rewrite Z.max_r in Hlen by lia.
  case_bool_decide as Eh.
  - assert (forall n nr, R !! n = Some nr -> c n = length (keys_of nr)) as Hall.
    { intros n nr Hn. pose proof (mg_count _ _ _ _ Hm' n nr Hn). destruct (keys_of nr !! c n) as [k|] eqn:Ek; [|apply lookup_ge_None in Ek; lia].
      assert (MkHeapNode k n ∈ ms_heap st) as Hin by (apply (mg_head _ _ _ _ Hm'); by exists nr). rewrite Eh in Hin. set_solver. }
    destruct (more_rows_spec rows (ms_indices st) (ms_cursors st) false Hndr) as [H1 H2].
    { intros n nr Hn. apply HR in Hn. rewrite (mg_index _ _ _ _ Hm' n nr Hn), (Hall n nr Hn), itemCount_keys. cbn. lia. }
    destruct (more_rows _ _ _ _) as [cursors more]. cbn in H1, H2. exists c. apply merged_of; try done.
    + intros n nr Hn. destruct (H2 n) as [->|(nr' & Hin & Hh' & E)]; [left; by apply (mg_cursor _ _ _ _ Hm')|].
      apply HR in Hin. assert (nr' = nr) as -> by congruence. right. auto.
    + rewrite H1. setoid_rewrite HR. split; [intros [|(n & nr & ? & ?)]; [done|exists n, nr; auto]|].
      intros (n & nr & Hin & [Hlt|]); [|right; by exists n, nr]. apply HR in Hin. rewrite (Hall n nr Hin) in Hlt. lia.
  - exists c. apply merged_of; try done; [intros n nr Hn; left; by apply (mg_cursor _ _ _ _ Hm')|]. split; [intros _|done].
    destruct (ms_heap st) as [|[k n] t] eqn:E; [done|]. assert (MkHeapNode k n ∈ ms_heap st) as Hin by (rewrite E; set_solver).
    apply (mg_head _ _ _ _ Hm') in Hin as (nr & Hn & Hk). exists n, nr. split; [done|]. left. by eapply lookup_lt_Some.
Qed.

End Page.

(** ** Node-local pages *)

(** A retried call: an invariant it keeps, and what a success establishes. *)
Lemma do_loop_inv {St} (fn : ST St (option error)) db dw rnd (I P : St -> Prop) cfg op key rem attempt delay lastErr s :
  (forall s, I s -> I (fn s).2 /\ ((fn s).1 = None -> P (fn s).2)) -> I s -> (lastErr <> None \/ (0 < rem)%nat) ->
  let r := do_loop fn db dw rnd cfg op key rem attempt delay lastErr s in I r.2 /\ (r.1 = None -> P r.2).
Proof.
  intros Hfn. revert attempt delay lastErr s. induction rem as [|rem IH]; intros attempt delay lastErr s Hs Hr; cbn [do_loop].
  { split; [done|]. cbn. intros ->. destruct Hr; [done|lia]. }
  destruct (db attempt); [by split|]. destruct (Hfn s Hs) as [H1 H2]. destruct (fn s) as [[e|] s1]; cbn in *; [|auto].
  destruct (negb _); [by split|]. destruct (_ =? _); [by split|]. destruct (dw attempt); [by split|]. apply IH; [done|by left].
Qed.

Section Local.

Context {DB SM : Type} {PB : Protobuf} {PL : ProtobufLaws} {RDB : RocksDB DB} {RL : RocksLaws DB} {SS : SegmentStore SM}.
Context (env : Env) (db_ dw : nat -> bool) (rnd : nat -> draw).
Implicit Types w : World DB SM.

(** A page of a store, taken at some moment. *)
Definition local_page m (p s : bytes) (limit : Z) (keys : list bytes) (last : bytes) (more : bool) : Prop :=
  exists t t' done rest, page env key_row id p s limit m t t' keys last more done rest.

Lemma local_page_sorted m p s limit keys last more : local_page m p s limit keys last more -> StronglySorted key_lt keys.
Proof.
  intros (t & t' & done & rest & [Hrows Hp _ _ _ _]). assert (StronglySorted row_lt (done ++ rest)) as Hs.
  { rewrite <- Hrows. unfold after. case_decide; [apply listed_sorted|]. apply filter_sorted, listed_sorted. }
  eapply picked_sorted; [exact Hp|by eapply StronglySorted_app_1_l|]. apply Forall_forall. intros r Hr.
  assert (r ∈ after s (listed p m)) as Hin by (rewrite Hrows; set_solver). apply after_listed, elem_of_listed in Hin as (_ & key & -> & _).
  by rewrite ExtractUserKey_Make.
Qed.

Lemma wp_retried {A} op (c : World.M (error + A)) (Q : error + A -> World DB SM -> Prop) (I : World DB SM -> Prop) (P : A -> Prop) w :
  (forall w, I w -> wp c (fun r w' => I w' /\ forall a, r = inr a -> P a) w) -> I w ->
  (forall w', I w' -> (forall e, Q (inl e) w') /\ forall a, P a -> Q (inr a) w') -> wp (retried db_ dw rnd op c) Q w.
Proof.
  intros Hc Hw HQ. unfold wp, retried, Do, DoWithKey.
  set (fn := fun s : World DB SM * option A => _).
  pose proof (do_loop_inv fn db_ dw rnd (fun s => I s.1) (fun s => exists a, s.2 = Some a /\ P a) DefaultConfig op EmptyString
    (Z.to_nat (MaxRetries DefaultConfig + 1)) 0 (InitialDelay DefaultConfig) None (w, None)) as Hd.
  destruct (do_loop _ _ _ _ _ _ _ _ _ _ _ _) as [[e|] [w' r]].
  - apply HQ. apply Hd; [|done|right; cbn; lia]. intros [w1 r1] H1. specialize (Hc w1 H1). unfold wp in Hc. unfold fn.
    destruct (c w1) as [[e1|a1] w2]; cbn in *; [naive_solver|]. destruct Hc as [Hc1 Hc2]. split; [done|]. intros _. eauto.
  - destruct Hd as [Hi Hp]; [|done|right; cbn; lia|].
    { intros [w1 r1] H1. specialize (Hc w1 H1). unfold wp in Hc. unfold fn.
      destruct (c w1) as [[e1|a1] w2]; cbn in *; [naive_solver|]. destruct Hc as [Hc1 Hc2]. split; [done|]. intros _. eauto. }
    destruct (Hp eq_refl) as (a & E & Ha). cbn in E. subst r. by apply HQ.
Qed.

(** What a node sends is in order, a page of its store, with the last key of the page
    as its token exactly when there is more. *)
Lemma ListLocal_response m p s limit n w :
  represents (w_db w) m -> s = EmptyString \/ has_prefix p s = true ->
  wp (ListLocal env db_ dw rnd p limit s) (fun r w' => represents (w_db w') m
    /\ forall nr, local_response n r = Some nr -> response_ok false nr
         /\ exists last, local_page m p s (apply_limit limit) (nr_Keys nr) last (nr_HasMore nr) /\ nr_ContinuationToken nr = last) w.
Proof.
  intros Hm Hs. unfold ListLocal. apply wp_bind.
  apply (wp_retried _ _ _ (fun w => represents (w_db w) m) (fun a => local_page m p s (apply_limit limit) a.1.1 a.1.2 a.2)); [|done|].
  - intros w1 Hm1. eapply wp_mono; [by apply ListKeysWithPagination_page|]. intros r w2 (_ & Hm2 & Hr). split; [done|]. intros [[keys last] more] ->.
    destruct Hr as (done & rest & Hp). by exists (w_tick w1), (w_tick w2), done, rest.
  - intros w1 Hm1. split; [intros e; by apply wp_ret|]. intros [[keys last] more] Hp. apply wp_ret. split; [done|]. intros nr [= <-]. cbn in *. split.
    + split; [by eapply local_page_sorted|done].
    + exists last. split; [done|]. destruct more; cbn; [case_bool_decide as E; [done|by destruct (decide (last = EmptyString))]|].
      destruct Hp as (t & t' & done & rest & []). symmetry. by apply pg_end.
Qed.

End Local.
