(* ===== verification/ClusterWitnesses.v ===== *)
(** * The cluster-wide listing at concrete inputs

    A codec for tokens, an instance of the merge theorem, and a cluster of two nodes on
    which [List] never returns. *)

From S2P Require Import Prelude Keys Errors Retry Message Merge Rocks World Files Storage Listing Heap ClusterList ClusterListProps.

Open Scope Z_scope.

(** ** Two nodes at rest *)

(** What a node with these live keys answers: the keys after the start key, up to the
    limit, and the last one as its token if there are more. *)
Definition node_page (nodeID : bytes) (keys : list bytes) (startKey : bytes) (limit : Z) : NodeResponse :=
  let rest := filter (fun k => slt startKey k = true) keys in
  let page := take (Z.to_nat limit) rest in
  let more := (Z.to_nat limit <? length rest)%nat in
  MkResponse nodeID page [] (if more then default EmptyString (last page) else EmptyString) more.

Definition numbered (c : ascii) (n : nat) : list bytes := (fun i => String c (fmt_int 4 (Z.of_nat i))) <$> seq 1 n.

Definition keys_a : list bytes := numbered "a" 1000 ++ ["z"%string].
Definition keys_b : list bytes := numbered "b" 1001.

Definition ask_ab (nodeID prefix startKey : bytes) (limit : Z) (withValues : bool) : option NodeResponse :=
  if decide (nodeID = "A"%string) then Some (node_page nodeID keys_a startKey limit)
  else if decide (nodeID = "B"%string) then Some (node_page nodeID keys_b startKey limit)
  else None.

Definition nodes_ab : list bytes := ["A"; "B"]%string.
Definition cursor_a : gmap bytes bytes := {["A"%string := "a1000"%string]}.
Definition cursor_b : gmap bytes bytes := {["B"%string := "b1000"%string]}.

(** The pages by the cursors they start from. *)
Definition resp_a (cursors : gmap bytes bytes) : NodeResponse := node_page "A" keys_a (start_key cursors "A") 1000.
Definition resp_b (cursors : gmap bytes bytes) : NodeResponse := node_page "B" keys_b (start_key cursors "B") 1000.
Definition resps (cursors : gmap bytes bytes) : list (bytes * NodeResponse) := [("A"%string, resp_a cursors); ("B"%string, resp_b cursors)].

Definition merged (cursors : gmap bytes bytes) (rows : list (bytes * NodeResponse)) :=
  kWayMerge (list_to_map (resps cursors)) (fun _ => false) false rows 1000.

Lemma page_ab cursors keys next rows :
  merged cursors [("A"%string, resp_a cursors); ("B"%string, resp_b cursors)] = inr (MkMerge keys [], next, true) ->
  merged cursors [("B"%string, resp_b cursors); ("A"%string, resp_a cursors)] = inr (MkMerge keys [], next, true) ->
  rows ≡ₚ resps cursors -> merged cursors rows = inr (MkMerge keys [], next, true).
Proof.
  intros H1 H2 Hp. apply Permutation_sym, Permutation_length_2_inv in Hp as [->| ->]; done.
Qed.

Lemma first_page rows : rows ≡ₚ resps ∅ -> merged ∅ rows = inr (MkMerge (numbered "a" 1000) [], cursor_a, true).
Proof. apply page_ab; vm_compute; reflexivity. Qed.
Lemma page_from_a rows : rows ≡ₚ resps cursor_a -> merged cursor_a rows = inr (MkMerge (numbered "b" 1000) [], cursor_b, true).
Proof. apply page_ab; vm_compute; reflexivity. Qed.
Lemma page_from_b rows : rows ≡ₚ resps cursor_b -> merged cursor_b rows = inr (MkMerge (numbered "a" 1000) [], cursor_a, true).
Proof. apply page_ab; vm_compute; reflexivity. Qed.

(** ** A listing that never ends *)

Section Endless.

Context {TC : TokenCodec} {TL : TokenCodecLaws}.
Context (iteration : list (bytes * NodeResponse) -> list (bytes * NodeResponse)) (Hiter : forall l, iteration l ≡ₚ l).

Lemma fetch_ab cursors : fetchFromAllNodes nodes_ab ask_ab false EmptyString 1000 cursors false = inr (resps cursors).
Proof. reflexivity. Qed.

(** A page from the cursors of its token. *)
Lemma ListPage_ab token cursors keys next :
  parseContinuationToken token EmptyString = inr (cursors, false) ->
  (forall rows, rows ≡ₚ resps cursors -> merged cursors rows = inr (MkMerge keys [], next, true)) ->
  ListPage nodes_ab ask_ab iteration false (fun _ => false) EmptyString MaxListLimit token
  = inr (keys, encodeContinuationToken next EmptyString, true).
Proof using Hiter.
  intros Hparse Hmerge. unfold ListPage, listClusterWide. change (apply_limit MaxListLimit) with 1000. rewrite decide_False by done.
  rewrite Hparse. cbn [andb]. rewrite fetch_ab. specialize (Hmerge _ (Hiter (resps cursors))). unfold merged in Hmerge.
  unfold resps at 1. fold (resps cursors). by rewrite Hmerge.
Qed.

Lemma token_ab n k : utf8_valid n = true -> utf8_valid k = true ->
  let token := encodeContinuationToken {[n := k]} EmptyString in
  token <> EmptyString /\ parseContinuationToken token EmptyString = inr ({[n := k]}, false).
Proof using TL.
  intros Hn Hk token. destruct (token_roundtrip (MkToken {[n := k]} EmptyString)) as (s & E & Hne & Ed); [done|by apply map_Forall_singleton|].
  assert (token = s) as ->; [|split; [done|]; unfold parseContinuationToken; by rewrite decide_False, Ed by done].
  unfold token, encodeContinuationToken. rewrite decide_False by apply map_non_empty_singleton. by rewrite E.
Qed.

(** C40: a cluster-wide listing may never end. The token of a page holds the cursors of
    the nodes that contributed to that page only; a node whose keys were all beyond the
    page loses the cursor it had, and the page after it lists the node from the start
    again. With a thousand keys [a..] and a key [z] on one node and more than a
    thousand keys [b..] on the other, [List] goes back and forth between the two
    thousands for ever, although nothing fails and the cluster is at rest; [z] is never
    listed. *)
Theorem cluster_listing_never_ends fuel : List_all nodes_ab ask_ab iteration fuel EmptyString = None.
Proof using Hiter TL.
  destruct (token_ab "A" "a1000" eq_refl eq_refl) as [Na Pa]. destruct (token_ab "B" "b1000" eq_refl eq_refl) as [Nb Pb].
  fold cursor_a in Na, Pa. fold cursor_b in Nb, Pb. set (ta := encodeContinuationToken cursor_a EmptyString) in *. set (tb := encodeContinuationToken cursor_b EmptyString) in *.
  assert (forall f keys, List_loop nodes_ab ask_ab iteration f EmptyString ta keys = None /\ List_loop nodes_ab ask_ab iteration f EmptyString tb keys = None) as Hloop.
  { induction f as [|f IH]; intros keys; [done|]. split; cbn [List_loop].
    - rewrite (ListPage_ab ta cursor_a _ _ Pa page_from_a). cbn [negb orb]. rewrite bool_decide_false by done. apply IH.
    - rewrite (ListPage_ab tb cursor_b _ _ Pb page_from_b). cbn [negb orb]. rewrite bool_decide_false by done. apply IH. }
  destruct fuel as [|f]; [done|]. unfold List_all. cbn [List_loop].
  rewrite (ListPage_ab EmptyString ∅ _ _ eq_refl first_page). cbn [negb orb]. rewrite bool_decide_false by done. apply Hloop.
Qed.

End Endless.

(** ** A codec *)

Fixpoint pos_text (p : positive) : bytes :=
  match p with xH => EmptyString | xO p => String "0" (pos_text p) | xI p => String "1" (pos_text p) end.
Fixpoint text_pos (s : bytes) : positive :=
  match s with EmptyString => xH | String c s => if decide (c = "0"%char) then xO (text_pos s) else xI (text_pos s) end.

Lemma text_pos_text p : text_pos (pos_text p) = p.
Proof. induction p as [p IH|p IH|]; cbn; [by rewrite IH..|done]. Qed.

#[local] Instance bit_tokens : TokenCodec := {|
  token_encode ct := Some (String "t" (pos_text (encode (NodeCursors ct, Prefix ct))));
  token_decode s := match s with
                    | String _ s => (fun x => MkToken x.1 x.2) <$> decode (A := gmap bytes bytes * bytes) (text_pos s)
                    | EmptyString => None
                    end
|}.

#[local] Instance bit_tokens_laws : TokenCodecLaws.
Proof.
  split. intros [cursors p] _ _. eexists. split; [reflexivity|]. split; [discriminate|]. cbn. rewrite text_pos_text, decode_encode. done.
Qed.

Lemma cluster_listing_never_ends_witness :
  List_all nodes_ab ask_ab (fun rows => rows) 50 EmptyString = None /\ TokenCodecLaws.
Proof.
  split; [|exact bit_tokens_laws]. apply (cluster_listing_never_ends (fun rows => rows) (fun l => Permutation_refl l) 50).
Defined.

Lemma numbered_sorted : StronglySorted key_lt ["a1"; "a3"; "a5"]%string /\ StronglySorted key_lt ["a2"; "a3"; "a4"]%string.
Proof. split; repeat constructor. Qed.

(** Three keys of six: [a3] is on both nodes. *)
Lemma kWayMerge_correct_witness :
  let responses := [("A"%string, MkResponse "A" ["a1"; "a3"; "a5"]%string [] EmptyString false);
                    ("B"%string, MkResponse "B" ["a2"; "a3"; "a4"]%string [] "a4"%string true)] in
  kWayMerge (list_to_map responses) (fun _ => false) false (rev responses) 3
  = inr (MkMerge ["a1"; "a2"; "a3"]%string [], <["A"%string := "a3"%string]> {["B"%string := "a2"%string]}, true)
  /\ exists c, merged_page (list_to_map responses) false 3 c (MkMerge ["a1"; "a2"; "a3"]%string [])
       (<["A"%string := "a3"%string]> {["B"%string := "a2"%string]}) true.
Proof.
  intros responses. assert (kWayMerge (list_to_map responses) (fun _ => false) false (rev responses) 3
    = inr (MkMerge ["a1"; "a2"; "a3"]%string [], <["A"%string := "a3"%string]> {["B"%string := "a2"%string]}, true)) as E by (vm_compute; reflexivity).
  split; [exact E|]. pose proof (kWayMerge_correct responses (rev responses) (fun _ => false) false 3) as H. rewrite E in H. apply H.
  - reflexivity.
  - apply (bool_decide_eq_true_1 (NoDup ["A"%string; "B"%string])). vm_compute. reflexivity.
  - apply Permutation_sym, Permutation_rev.
  - destruct numbered_sorted as [S1 S2]. apply Forall_cons. split; [split; [exact S1|discriminate]|].
    apply Forall_cons. split; [split; [exact S2|discriminate]|]. apply Forall_nil_2.
Defined.
