(* ===== verification/TokenRing.v ===== *)
(** * The client's token ring (client/tokenring.go)

    Consistent hashing: the tokens of all nodes in one sorted array, a key belongs to
    the node of the first token at or after its hash, around the ring. Theorems: the
    binary search finds the successor token; the ring does not depend on the order in
    which Go iterates the assignment; a node that leaves hands over its keys and no
    others, and a node that joins takes keys for itself only. *)

From S2P Require Import Prelude Fnv Keys Errors.

Open Scope Z_scope.

Record tokenEntry := MkTokenEntry { te_token : Z; te_nodeID : bytes }.

Record ringState := MkRing { rg_tokens : list tokenEntry; rg_nodes : gmap bytes bytes }.

Definition NewTokenRing : ringState := MkRing [] ∅.

(** The entries of an assignment in iteration order, and their sort by token. *)
Definition ring_entries (nodeTokens : list (bytes * list Z)) : list tokenEntry :=
  nodeTokens ≫= (fun r => (fun t => MkTokenEntry t r.1) <$> r.2).

Definition te_le (a b : tokenEntry) : Prop := te_token a <= te_token b.
#[local] Instance te_le_trans : Transitive te_le.
Proof. intros a b c. unfold te_le. lia. Qed.
#[local] Instance te_le_total : Total te_le.
Proof. intros a b. unfold te_le. lia. Qed.
#[local] Instance te_le_dec : RelDecision te_le := fun a b => decide (te_token a <= te_token b).

(** [sort.Slice] by token: sorted, in some order among equal tokens. *)
Definition sort_entries (entries : list tokenEntry) : list tokenEntry := merge_sort te_le entries.

Definition Update (nodeTokens : list (bytes * list Z)) (nodeAddresses : gmap bytes bytes) : ringState :=
  MkRing (sort_entries (ring_entries nodeTokens)) nodeAddresses.

(** [sort.Search]: the loop between [i] and [j]. *)
Fixpoint search_loop (fuel : nat) (f : nat -> bool) (i j : nat) : nat :=
  match fuel with
  | O => i
  | S fuel =>
      if (i <? j)%nat then
        let h := Nat.div2 (i + j) in
        if negb (f h) then search_loop fuel f (S h) j else search_loop fuel f i h
      else i
  end.
Definition Search (n : nat) (f : nat -> bool) : nat := search_loop n f 0 n.

Definition at_or_after (tokens : list tokenEntry) (token : Z) (i : nat) : bool :=
  match tokens !! i with Some e => token <=? te_token e | None => false end.

(** The index of the owner of a hash in a non-empty array. *)
Definition owner_index (tokens : list tokenEntry) (token : Z) : nat :=
  let idx := Search (length tokens) (at_or_after tokens token) in
  if (idx =? length tokens)%nat then O else idx.

Definition GetNodeIDForKey (state : ringState) (key : bytes) : error + bytes :=
  match rg_tokens state with
  | [] => inl (EText "ring is empty")
  | tokens => match tokens !! owner_index tokens (fnv32a key) with
              | Some e => inr (te_nodeID e)
              | None => inl (EText "index out of range")
              end
  end.

Definition GetNodeForKey (state : ringState) (key : bytes) : error + bytes :=
  match GetNodeIDForKey state key with
  | inl e => inl e
  | inr nodeID => match rg_nodes state !! nodeID with
                  | Some addr => inr addr
                  | None => inl (EText ("node " +:+ nodeID +:+ " not found in address map"))
                  end
  end.

Definition GetNodeInfoForKey (state : ringState) (key : bytes) : error + bytes * bytes :=
  match GetNodeIDForKey state key with
  | inl e => inl e
  | inr nodeID => match rg_nodes state !! nodeID with
                  | Some addr => inr (nodeID, addr)
                  | None => inl (EText ("node " +:+ nodeID +:+ " not found in address map"))
                  end
  end.

Definition IsEmpty (state : ringState) : bool := (length (rg_tokens state) =? 0)%nat.
Definition TokenCount (state : ringState) : nat := length (rg_tokens state).
Definition NodeCount (state : ringState) : nat := size (rg_nodes state).
Definition GetNodeAddresses (state : ringState) : gmap bytes bytes := rg_nodes state.

(** ** The binary search *)

Lemma search_loop_spec fuel f i j n : (j - i <= fuel)%nat -> (i <= j <= n)%nat ->
  (forall a b, (a <= b < n)%nat -> f a = true -> f b = true) ->
  (forall a, (a < i)%nat -> f a = false) -> (forall a, (j <= a < n)%nat -> f a = true) ->
  let r := search_loop fuel f i j in
  (i <= r <= j)%nat /\ (forall a, (a < r)%nat -> f a = false) /\ forall a, (r <= a < n)%nat -> f a = true.
Proof.
  intros Hf Hij Hmono. revert i j Hf Hij. induction fuel as [|fuel IH]; intros i j Hf Hij Hlo Hhi; cbn [search_loop].
  { split_and!; [lia|lia|done|]. intros a Ha. apply Hhi. lia. }
  destruct (Nat.ltb_spec i j) as [Hlt|Hge]; [|split_and!; [lia|lia|done|intros a Ha; apply Hhi; lia]].
  assert (i <= Nat.div2 (i + j) < j)%nat as Hh.
  { pose proof (Nat.div2_odd (i + j)) as E. destruct (Nat.odd (i + j)); cbn [Nat.b2n] in E; lia. }
  set (h := Nat.div2 (i + j)) in *. destruct (f h) eqn:Eh; cbn [negb].
  - destruct (IH i h) as (H1 & H2 & H3); [lia|lia|done| |split_and!; [lia|lia|done|done]].
    intros a Ha. apply (Hmono h a); [lia|done].
  - destruct (IH (S h) j) as (H1 & H2 & H3); [lia|lia| |done|split_and!; [lia|lia|done|done]].
    intros a Ha. destruct (f a) eqn:Ea; [|done]. rewrite (Hmono a h) in Eh; [done|lia|done].
Qed.

(** ** The owner of a hash *)

(** The tokens in ring order: the node of the least token at or after the hash, or of
    the least token of all. *)
Definition owns (tokens : list tokenEntry) (hash : Z) (e : tokenEntry) : Prop :=
  e ∈ tokens
  /\ ((hash <= te_token e /\ forall e', e' ∈ tokens -> hash <= te_token e' -> te_token e <= te_token e')
      \/ (forall e', e' ∈ tokens -> te_token e' < hash /\ te_token e <= te_token e')).

Lemma sorted_entries entries : StronglySorted te_le (sort_entries entries).
Proof. apply (StronglySorted_merge_sort te_le). Qed.

Lemma sorted_tokens tokens i j a b : StronglySorted te_le tokens -> (i <= j)%nat -> tokens !! i = Some a -> tokens !! j = Some b -> te_token a <= te_token b.
Proof.
  intros Hs. revert i j. induction Hs as [|x l Hs IH Hf]; intros i j Hij Ha Hb; [by rewrite lookup_nil in Ha|].
  destruct i as [|i], j as [|j]; cbn in *; [simplify_eq; lia| |lia|].
  - simplify_eq. rewrite Forall_forall in Hf. apply Hf. by eapply list_elem_of_lookup_2.
  - apply (IH i j); [lia|done|done].
Qed.

Lemma owner_index_owns tokens hash : tokens <> [] -> StronglySorted te_le tokens ->
  exists e, tokens !! owner_index tokens hash = Some e /\ owns tokens hash e.
Proof.
  intros Hne Hs. unfold owner_index. set (f := at_or_after tokens hash). set (n := length tokens).
  assert (forall a e, tokens !! a = Some e -> f a = (hash <=? te_token e)) as Hf by (intros a e E; unfold f, at_or_after; by rewrite E).
  assert (forall a, (a < n)%nat -> exists e, tokens !! a = Some e) as Hin by (intros a Ha; by apply lookup_lt_is_Some).
  destruct (search_loop_spec n f 0 n n ltac:(lia) ltac:(lia)) as (H1 & H2 & H3); [|lia|lia|].
  { intros a b Hab. destruct (Hin a) as [ea Ea]; [lia|]. destruct (Hin b) as [eb Eb]; [lia|]. rewrite (Hf a ea), (Hf b eb) by done.
    pose proof (sorted_tokens tokens a b ea eb Hs ltac:(lia) Ea Eb). rewrite !Z.leb_le. lia. }
  fold (Search n f) in H1, H2, H3. set (r := Search n f) in *.
  assert (n <> 0)%nat as Hn0 by (unfold n; by destruct tokens).
  destruct (Nat.eqb_spec r n) as [Er|Er].
  - destruct (Hin 0%nat) as [e Ee]; [lia|]. exists e. split; [done|]. split; [by eapply list_elem_of_lookup_2|]. right.
    intros e' (a & Ea)%list_elem_of_lookup. pose proof (lookup_lt_Some _ _ _ Ea). split; [|eapply (sorted_tokens tokens 0 a); [done|lia|done|done]].
    assert (f a = false) as Hfa by (apply H2; lia). rewrite (Hf a e') in Hfa by done. lia.
  - destruct (Hin r) as [e Ee]; [lia|]. exists e. split; [done|]. split; [by eapply list_elem_of_lookup_2|]. left.
    assert (f r = true) as Hfr by (apply H3; lia). rewrite (Hf r e Ee) in Hfr. split; [lia|]. intros e' (a & Ea)%list_elem_of_lookup Hle.
    eapply (sorted_tokens tokens r a); [done| |done|done]. destruct (decide (a < r)%nat) as [Hlt|]; [|lia].
    assert (f a = false) as Hfa by (by apply H2). rewrite (Hf a e' Ea) in Hfa. lia.
Qed.

(** With distinct tokens a hash has one owner. *)
Definition distinct (tokens : list tokenEntry) : Prop := forall a b, a ∈ tokens -> b ∈ tokens -> te_token a = te_token b -> a = b.

Lemma owns_fun tokens hash a b : distinct tokens -> owns tokens hash a -> owns tokens hash b -> a = b.
Proof.
  intros Hd [Ha Ca] [Hb Cb]. apply Hd; [done|done|]. destruct Ca as [[A1 A2]|A], Cb as [[B1 B2]|B].
  - specialize (A2 b Hb B1). specialize (B2 a Ha A1). lia.
  - destruct (B a Ha). lia.
  - destruct (A b Hb). lia.
  - destruct (A b Hb), (B a Ha). lia.
Qed.

Lemma owns_perm tokens tokens' hash e : (forall x, x ∈ tokens <-> x ∈ tokens') -> owns tokens hash e -> owns tokens' hash e.
Proof. intros E. unfold owns. setoid_rewrite E. done. Qed.

(** ** The ring of an assignment *)

Lemma Update_tokens nodeTokens addrs x : x ∈ rg_tokens (Update nodeTokens addrs) <-> x ∈ ring_entries nodeTokens.
Proof. cbn. unfold sort_entries. by rewrite merge_sort_Permutation. Qed.

Lemma distinct_NoDup tokens : NoDup (te_token <$> tokens) -> distinct tokens.
Proof.
  intros Hnd a b (i & Ea)%list_elem_of_lookup (j & Eb)%list_elem_of_lookup E.
  assert (i = j) as ->; [|congruence]. eapply NoDup_lookup; [exact Hnd| |]; rewrite list_lookup_fmap; [by rewrite Ea|by rewrite Eb; cbn; rewrite E].
Qed.

(** The owner the ring names is the successor of the hash. *)
Lemma node_of_key nodeTokens addrs key : ring_entries nodeTokens <> [] ->
  exists e, GetNodeIDForKey (Update nodeTokens addrs) key = inr (te_nodeID e) /\ owns (ring_entries nodeTokens) (fnv32a key) e.
Proof.
  intros Hne. unfold GetNodeIDForKey. assert (rg_tokens (Update nodeTokens addrs) <> []) as Hne'.
  { cbn. unfold sort_entries. intros E. apply Hne. apply Permutation_nil_r. rewrite <- E. symmetry. apply merge_sort_Permutation. }
  destruct (owner_index_owns _ (fnv32a key) Hne' (sorted_entries _)) as (e & E & Ho). exists e.
  split; [|eapply owns_perm; [|exact Ho]; intros x; apply Update_tokens].
  change (sort_entries (ring_entries nodeTokens)) with (rg_tokens (Update nodeTokens addrs)) in E.
  destruct (rg_tokens (Update nodeTokens addrs)); [done|]. by rewrite E.
Qed.

Lemma node_unique nodeTokens addrs key e : NoDup (te_token <$> ring_entries nodeTokens) ->
  owns (ring_entries nodeTokens) (fnv32a key) e -> GetNodeIDForKey (Update nodeTokens addrs) key = inr (te_nodeID e).
Proof.
  intros Hnd Ho. assert (ring_entries nodeTokens <> []) as Hne by (intros E; destruct Ho as [Hin _]; rewrite E in Hin; set_solver).
  destruct (node_of_key nodeTokens addrs key Hne) as (e' & -> & Ho'). by rewrite (owns_fun _ _ _ _ (distinct_NoDup _ Hnd) Ho' Ho).
Qed.

Lemma ring_entries_app a b : ring_entries (a ++ b) = ring_entries a ++ ring_entries b.
Proof. apply bind_app. Qed.

Lemma elem_of_ring_entries nodeTokens e : e ∈ ring_entries nodeTokens <-> exists ts, (te_nodeID e, ts) ∈ nodeTokens /\ te_token e ∈ ts.
Proof.
  unfold ring_entries. rewrite list_elem_of_bind. split.
  - intros ([n ts] & (t & -> & Ht)%list_elem_of_fmap & Hin). cbn in *. by exists ts.
  - intros (ts & Hin & Ht). exists (te_nodeID e, ts). split; [|done]. apply list_elem_of_fmap. exists (te_token e). by destruct e.
Qed.

(** The rest of the ring when a node is taken out of it. *)
Lemma owns_without tokens tokens' hash e :
  (forall x, x ∈ tokens' -> x ∈ tokens) -> e ∈ tokens' -> owns tokens hash e -> owns tokens' hash e.
Proof.
  intros Hsub He [_ [[H1 H2]|H]]; (split; [done|]); [left|right]; [split; [done|]|]; eauto.
Qed.

(** C27: the ring is consistent. Over any assignment of distinct tokens: a key belongs to
    the node of the first token at or after its hash, around the ring; the answer does
    not depend on the order in which the assignment is iterated or on how equal
    elements are sorted; when a node leaves, a key that was another node's stays where
    it is; and when a node joins, a key stays where it is or moves to the new node. *)
Theorem ring_consistent nodeTokens addrs key :
  NoDup (te_token <$> ring_entries nodeTokens) -> ring_entries nodeTokens <> [] ->
  (exists e, GetNodeIDForKey (Update nodeTokens addrs) key = inr (te_nodeID e) /\ owns (ring_entries nodeTokens) (fnv32a key) e)
  /\ (forall nodeTokens' addrs', nodeTokens' ≡ₚ nodeTokens ->
        GetNodeIDForKey (Update nodeTokens' addrs') key = GetNodeIDForKey (Update nodeTokens addrs) key)
  /\ (forall before n ts after addrs', nodeTokens = before ++ (n, ts) :: after -> ring_entries (before ++ after) <> [] ->
        GetNodeIDForKey (Update nodeTokens addrs) key = inr n
        \/ GetNodeIDForKey (Update (before ++ after) addrs') key = GetNodeIDForKey (Update nodeTokens addrs) key).
Proof.
  intros Hnd Hne. destruct (node_of_key nodeTokens addrs key Hne) as (e & Ee & Ho). split_and!; [by exists e| |].
  - intros nodeTokens' addrs' Hp. assert (ring_entries nodeTokens' ≡ₚ ring_entries nodeTokens) as Hpe by (unfold ring_entries; by rewrite Hp).
    rewrite Ee. apply node_unique; [by rewrite Hpe|]. eapply owns_perm; [|exact Ho]. intros x. by rewrite Hpe.
  - intros before n ts after addrs' -> Hne'. rewrite Ee. destruct (decide (te_nodeID e = n)) as [->|Hn]; [by left|]. right.
    apply node_unique.
    + rewrite ring_entries_app, fmap_app in Hnd |- *. cbn in Hnd. rewrite fmap_app in Hnd. apply NoDup_app in Hnd as (N1 & N2 & N3).
      apply NoDup_app in N3 as (_ & N4 & N5). apply NoDup_app. split_and!; [done| |done]. intros x Hx Hx'. apply (N2 x Hx). apply elem_of_app. by right.
    + eapply owns_without; [| |exact Ho].
      * intros x. rewrite !elem_of_ring_entries. intros (t & Hin & Ht). exists t. split; [|done]. rewrite elem_of_app in Hin |- *. rewrite elem_of_cons. tauto.
      * destruct Ho as [Hin _]. rewrite elem_of_ring_entries in Hin |- *. destruct Hin as (t & Hin & Ht). exists t. split; [|done].
        rewrite elem_of_app in Hin |- *. rewrite elem_of_cons in Hin. destruct Hin as [?|[[= ? ?]|?]]; [by left|done|by right].
Qed.

(** Three nodes; the ring is asked for a key of each. *)
Definition three_nodes : list (bytes * list Z) :=
  [("n1", [100; 3000000000]); ("n2", [1000000000]); ("n3", [2000000000; 4294967295])]%string.

Lemma ring_consistent_witness :
  (GetNodeIDForKey (Update three_nodes ∅) "hello", GetNodeIDForKey (Update (tail three_nodes) ∅) "hello") = (inr "n3"%string, inr "n3"%string)
  /\ exists e, GetNodeIDForKey (Update three_nodes ∅) "hello" = inr (te_nodeID e) /\ owns (ring_entries three_nodes) (fnv32a "hello") e.
Proof.
  split; [vm_compute; reflexivity|]. refine (proj1 (ring_consistent three_nodes ∅ "hello" _ _)).
  - apply (bool_decide_eq_true_1 (NoDup [100; 3000000000; 1000000000; 2000000000; 4294967295])). vm_compute. reflexivity.
  - discriminate.
Defined.
