(* ===== verification/Ring.v ===== *)
(** * The hash ring of the server (coordinator/ring: ring.go, epoch.go, config.go)

    The ring itself is dskit's and a parameter: a lookup by token for a set of instance
    states, and the lists of instances. Modelled are the epoch, a hash of a canonical
    text of the membership, the lookups the router is built on, the delegate that
    chooses tokens, the gate before ACTIVE, and the defaults of the configuration. *)

From S2P Require Import Prelude Fnv Keys Errors.

Open Scope Z_scope.

(** dskit's instance states with their numbers. *)
Inductive InstanceState := ACTIVE | LEAVING | PENDING | JOINING | LEFT.
#[export] Instance InstanceState_eq_dec : EqDecision InstanceState.
Proof. solve_decision. Defined.

Definition state_number (s : InstanceState) : Z :=
  match s with ACTIVE => 0 | LEAVING => 1 | PENDING => 2 | JOINING => 3 | LEFT => 4 end.

Record InstanceDesc := MkInst { in_Id : bytes; in_Addr : bytes; in_State : InstanceState; in_Registered : Z; in_Tokens : list Z }.

(** [ring.Desc]: the instances by id, in the order of the map's iteration. *)
Definition Desc : Type := list (bytes * InstanceDesc).

(** ** The epoch *)

Definition id_le (a b : bytes * InstanceDesc) : Prop := sle a.1 b.1 = true.
#[local] Instance id_le_dec : RelDecision id_le := fun a b => decide (sle a.1 b.1 = true).
#[local] Instance id_le_total : Total id_le.
Proof. intros a b. apply sle_total. Qed.
#[local] Instance id_le_trans : Transitive id_le.
Proof. intros a b c. apply sle_trans. Qed.

(** [sort.Strings] of the ids, each with its instance. *)
Definition ids_sorted (desc : Desc) : Desc := merge_sort id_le desc.

Definition epoch_entry (id : bytes) (state tokens : Z) : bytes :=
  id +:+ ":" +:+ fmt_int 1 state +:+ ":" +:+ fmt_int 1 tokens +:+ ";".

Fixpoint epoch_text (rows : Desc) : bytes :=
  match rows with
  | [] => EmptyString
  | (id, inst) :: rows => epoch_entry id (state_number (in_State inst)) (Z.of_nat (length (in_Tokens inst))) +:+ epoch_text rows
  end.

Definition ComputeRingEpoch (desc : option Desc) : Z :=
  match desc with
  | None | Some [] => 0
  | Some desc => fnv64a (epoch_text (ids_sorted desc))
  end.

(** [Epoch.Set]: the stored version and the result. *)
Definition Epoch_Set (desc : option Desc) (version : Z) : Z * Z :=
  match desc with
  | None => (0, version)
  | Some _ => let e := ComputeRingEpoch desc in (e, e)
  end.

(** ** The watcher

    The part of [RingManager] that follows the ring: the published epoch, and the last
    membership it has logged. *)
Record ring_watch := MkWatch { rw_epoch : Z; rw_lastEpoch : Z; rw_lastKnownNodes : gmap bytes InstanceState }.

(** What is logged: the nodes that joined, that left, and those with a new state. *)
Record membership_change := MkChange {
  mb_joined : list (bytes * InstanceState);
  mb_left : list bytes;
  mb_changed : list (bytes * (InstanceState * InstanceState))
}.

Definition node_states (desc : Desc) : gmap bytes InstanceState := list_to_map ((fun r => (r.1, in_State r.2)) <$> desc).

Definition logMembershipChange (desc : Desc) (s : ring_watch) : membership_change * ring_watch :=
  let current := node_states desc in
  let last := rw_lastKnownNodes s in
  (MkChange (filter (fun r => last !! r.1 = None) (map_to_list current))
     (filter (fun id => current !! id = None) (map_to_list last).*1)
     (omap (fun r => match last !! r.1 with Some old => if decide (old = r.2) then None else Some (r.1, (old, r.2)) | None => None end) (map_to_list current)),
   MkWatch (rw_epoch s) (rw_lastEpoch s) current).

(** The callback of [startRingWatcher]: whether it goes on watching, and what it logged.
    [None] is a value that is not a ring. *)
Definition on_ring_value (cancelled : bool) (value : option Desc) (s : ring_watch) : bool * option membership_change * ring_watch :=
  if cancelled then (false, None, s)
  else match value with
       | None => (true, None, s)
       | Some desc =>
           let '(newEpoch, version) := Epoch_Set (Some desc) (rw_epoch s) in
           let s := MkWatch version (rw_lastEpoch s) (rw_lastKnownNodes s) in
           if newEpoch =? rw_lastEpoch s then (true, None, s)
           else let '(change, s) := logMembershipChange desc s in
                (true, Some change, MkWatch (rw_epoch s) newEpoch (rw_lastKnownNodes s))
       end.

(** ** Lookups *)

Inductive NodeStatus := NodeStatusActive | NodeStatusJoining | NodeStatusLeaving | NodeStatusDown.
#[export] Instance NodeStatus_eq_dec : EqDecision NodeStatus.
Proof. solve_decision. Defined.

Definition NodeStatus_String (s : NodeStatus) : bytes :=
  match s with
  | NodeStatusActive => "active" | NodeStatusJoining => "joining" | NodeStatusLeaving => "leaving" | NodeStatusDown => "down"
  end.

Record NodeInfo := MkNode {
  ni_ID : bytes; ni_Address : bytes; ni_ListenAddress : bytes; ni_Status : NodeStatus; ni_JoinedAt : Z; ni_Available : bool
}.

Definition instanceStateToNodeStatus (state : InstanceState) : NodeStatus :=
  match state with
  | ACTIVE => NodeStatusActive
  | JOINING | PENDING => NodeStatusJoining
  | LEAVING => NodeStatusLeaving
  | LEFT => NodeStatusDown
  end.

Definition instanceToNodeInfo (inst : InstanceDesc) : NodeInfo :=
  MkNode (in_Id inst) (in_Addr inst) (in_Addr inst) (instanceStateToNodeStatus (in_State inst)) (in_Registered inst)
    (bool_decide (in_State inst = ACTIVE)).

Definition tokenForKey (key : bytes) : Z := fnv32a key.

(** dskit's operations: the states an instance may have. *)
Definition op_Write : list InstanceState := [ACTIVE].
Definition allStatesOp : list InstanceState := [ACTIVE; JOINING; PENDING; LEAVING].

Section Lookups.

(** One view of dskit's ring: the replication set of a token for an operation, the
    healthy instances, the instances for writes, and the state of an instance. *)
Context (ring_Get : Z -> list InstanceState -> error + list InstanceDesc).
Context (ring_GetAllHealthy ring_WriteSet : error + list InstanceDesc).
Context (ring_GetInstanceState : bytes -> error + InstanceState).
Context (localNodeID : bytes).

Definition IsLocal (key : bytes) : bool :=
  match ring_Get (tokenForKey key) op_Write with
  | inl _ | inr [] => false
  | inr (inst :: _) => bool_decide (in_Id inst = localNodeID)
  end.

(** [GetNode] and [GetPrimaryNode], which differ in the operation and the texts. *)
Definition lookup_node (op : list InstanceState) (failed none key : bytes) : error + NodeInfo :=
  match ring_Get (tokenForKey key) op with
  | inl e => inl (EWrap failed e)
  | inr [] => inl (EText (none +:+ key))
  | inr (inst :: _) =>
      if decide (in_Addr inst = EmptyString) then inl (EText ("node " +:+ in_Id inst +:+ " has no address configured"))
      else inr (instanceToNodeInfo inst)
  end.

Definition GetNode (key : bytes) : error + NodeInfo := lookup_node op_Write "failed to get node for key" "no node available for key " key.
Definition GetPrimaryNode (key : bytes) : error + NodeInfo := lookup_node allStatesOp "failed to get primary node" "no node in ring for key " key.

Definition GetAllNodes : list NodeInfo := match ring_GetAllHealthy with inl _ => [] | inr insts => instanceToNodeInfo <$> insts end.
Definition GetActiveNodes : list NodeInfo := match ring_WriteSet with inl _ => [] | inr insts => instanceToNodeInfo <$> insts end.
Definition GetAvailableNodes : list NodeInfo := GetActiveNodes.

Definition GetNodeStatus (id : bytes) : NodeStatus * option error :=
  match ring_GetInstanceState id with
  | inl e => (NodeStatusDown, Some (EWrap ("node " +:+ id +:+ " not found") e))
  | inr state => (instanceStateToNodeStatus state, None)
  end.

Definition IsNodeAvailable (nodeID : bytes) : bool :=
  match GetNodeStatus nodeID with
  | (_, Some _) => false
  | (status, None) => bool_decide (status = NodeStatusActive)
  end.

(** The tokens of the active nodes, by id; later instances overwrite. *)
Definition GetNodeTokens : gmap bytes (list Z) :=
  match ring_GetAllHealthy with
  | inl _ => ∅
  | inr insts => fold_left (fun result inst => if decide (in_State inst = ACTIVE) then <[in_Id inst := in_Tokens inst]> result else result) insts ∅
  end.

End Lookups.

(** ** The delegate *)

(** [OnRingInstanceRegister]: the state and the tokens; [persisted] is the outcome of
    loading the tokens file, if one is configured, [generated] the new tokens. *)
Definition OnRingInstanceRegister (persisted : option (error + list Z)) (instanceExists : bool) (instanceDesc : InstanceDesc) (generated : list Z)
    : InstanceState * list Z :=
  let rest := if instanceExists && (0 <? length (in_Tokens instanceDesc))%nat then (JOINING, in_Tokens instanceDesc) else (JOINING, generated) in
  match persisted with
  | Some (inr (t :: ts)) => (JOINING, t :: ts)
  | _ => rest
  end.

(** The gate before ACTIVE: the goroutine of [OnRingInstanceTokens] waits for [MarkReady]
    or for the shutdown, then changes the state. *)
Inductive gate_pc := Waiting | Changing | Finished.
Record gate := MkGate { g_ready : bool; g_done : bool; g_pc : gate_pc; g_state : InstanceState }.

Inductive gate_step : gate -> gate -> Prop :=
  | g_MarkReady r d pc s : gate_step (MkGate r d pc s) (MkGate true d pc s)
  | g_Stop r d pc s : gate_step (MkGate r d pc s) (MkGate r true pc s)
  | g_pass d s : gate_step (MkGate true d Waiting s) (MkGate true d Changing s)
  | g_quit r s : gate_step (MkGate r true Waiting s) (MkGate r true Finished s)
  | g_change r d s ok : gate_step (MkGate r d Changing s) (MkGate r d Finished (if ok : bool then ACTIVE else s))
  | g_leave r d pc s : gate_step (MkGate r d pc s) (MkGate r d pc LEAVING).

(** ** Configuration *)

Definition Second : Z := 1000000000.
Definition DefaultHeartbeatPeriod : Z := Second.
Definition MinHeartbeatPeriod : Z := Second.
Definition MinHeartbeatTimeout : Z := 60 * Second.
Definition DefaultNumTokens : Z := 512.

Record Config := MkRingConfig { HeartbeatPeriod : Z; HeartbeatTimeout : Z; ReplicationFactor : Z }.

Definition effectiveHeartbeatPeriod (period : Z) : Z :=
  if period <=? 0 then DefaultHeartbeatPeriod else if period <? MinHeartbeatPeriod then MinHeartbeatPeriod else period.

Definition ApplyDefaults (c : Config) : Config :=
  let period := effectiveHeartbeatPeriod (HeartbeatPeriod c) in
  let minRequired := i64 (2 * period) in
  let minRequired := if minRequired <? MinHeartbeatTimeout then MinHeartbeatTimeout else minRequired in
  MkRingConfig period (if HeartbeatTimeout c <? minRequired then minRequired else HeartbeatTimeout c)
    (if ReplicationFactor c <? 1 then 1 else ReplicationFactor c).

(** ** The epoch is a function of the view *)

(** What the epoch sees of a membership. *)
Definition view (desc : Desc) : list (bytes * Z * nat) :=
  (fun r => (r.1, state_number (in_State r.2), length (in_Tokens r.2))) <$> desc.

Definition clean_ids (desc : Desc) : Prop := Forall (fun r => index_byte r.1 ":" = None /\ index_byte r.1 ";" = None) desc.

Lemma split2_inj a a' b b' c : index_byte a c = None -> index_byte a' c = None -> a +:+ String c b = a' +:+ String c b' -> a = a' /\ b = b'.
Proof. intros Ha Ha' E. apply (f_equal (fun s => split2 s c)) in E. rewrite !split2_app in E by done. by injection E as -> ->. Qed.

Lemma epoch_entry_inj id1 s1 t1 r1 id2 s2 t2 r2 :
  index_byte id1 ":" = None -> index_byte id2 ":" = None -> 0 <= s1 -> 0 <= s2 -> 0 <= t1 -> 0 <= t2 ->
  epoch_entry id1 s1 t1 +:+ r1 = epoch_entry id2 s2 t2 +:+ r2 -> id1 = id2 /\ s1 = s2 /\ t1 = t2 /\ r1 = r2.
Proof.
  intros H1 H2 Hs1 Hs2 Ht1 Ht2. unfold epoch_entry. rewrite !sapp_assoc. cbn [String.append].
  intros (-> & E)%split2_inj; [|done|done]. apply split2_inj in E as [Es E]; [|by apply fmt_int_index..].
  apply fmt_int_inj in Es; [|done|done]. apply split2_inj in E as [Et E]; [|by apply fmt_int_index..].
  apply fmt_int_inj in Et; [|done|done]. done.
Qed.

Lemma state_number_nonneg s : 0 <= state_number s.
Proof. destruct s; cbn; lia. Qed.

Lemma epoch_text_inj rows1 rows2 : clean_ids rows1 -> clean_ids rows2 -> epoch_text rows1 = epoch_text rows2 <-> view rows1 = view rows2.
Proof.
  intros H1. revert rows2. induction H1 as [|[id1 i1] rows1 [Hc1 _] _ IH]; intros rows2 H2; destruct H2 as [|[id2 i2] rows2 [Hc2 Hs2] H2].
  - done.
  - cbn. split; [|done]. unfold epoch_entry. intros E. apply (f_equal String.length) in E. rewrite !slength_app in E. cbn in E. lia.
  - cbn. split; [|done]. unfold epoch_entry. intros E. apply (f_equal String.length) in E. rewrite !slength_app in E. cbn in E. lia.
  - cbn [epoch_text view fmap list_fmap fst snd]. fold (view rows1) (view rows2). split.
    + intros (-> & Es & Et & E)%epoch_entry_inj; [|done|done|apply state_number_nonneg|apply state_number_nonneg|lia|lia].
      apply IH in E; [|done]. rewrite E, Es. apply Nat2Z.inj in Et. by rewrite Et.
    + intros [= -> Es Et E]. apply IH in E; [|done]. by rewrite E, Es, Et.
Qed.

Lemma ids_sorted_perm desc : ids_sorted desc ≡ₚ desc.
Proof. apply merge_sort_Permutation. Qed.

(** Views in order of their ids are determined by their elements. *)
Lemma sorted_view_unique l1 l2 : StronglySorted (fun a b : bytes * Z * nat => sle a.1.1 b.1.1 = true) l1 ->
  StronglySorted (fun a b : bytes * Z * nat => sle a.1.1 b.1.1 = true) l2 -> NoDup l1.*1.*1 -> l1 ≡ₚ l2 -> l1 = l2.
Proof.
  intros H1. revert l2. induction H1 as [|x l1 H1 IH Hf1]; intros l2 H2 Hnd Hp; [by apply Permutation_nil_l in Hp|].
  destruct H2 as [|y l2 H2 Hf2]; [by apply Permutation_nil_r in Hp|]. cbn in Hnd. apply NoDup_cons in Hnd as [Hx Hnd].
  assert (x = y) as <-.
  { assert (x ∈ y :: l2) as Hxin by (rewrite <- Hp; set_solver). assert (y ∈ x :: l1) as Hyin by (rewrite Hp; set_solver).
    apply elem_of_cons in Hxin as [|Hxin]; [done|]. apply elem_of_cons in Hyin as [|Hyin]; [done|].
    rewrite Forall_forall in Hf1, Hf2. assert (x.1.1 = y.1.1) as E by (apply sle_antisym; [by apply Hf1|by apply Hf2]).
    destruct Hx. rewrite E. by apply list_elem_of_fmap_2, list_elem_of_fmap_2. }
  f_equal. apply IH; [done|done|]. by apply Permutation_cons_inv in Hp.
Qed.

Lemma view_sorted desc : StronglySorted (fun a b : bytes * Z * nat => sle a.1.1 b.1.1 = true) (view (ids_sorted desc)).
Proof.
  assert (StronglySorted id_le (ids_sorted desc)) as H by apply (StronglySorted_merge_sort id_le). unfold view.
  induction H as [|x l H IH Hf]; cbn; [constructor|]. constructor; [done|]. apply Forall_fmap. eapply Forall_impl; [exact Hf|]. by intros y Hy.
Qed.

(** The epoch is a function of the membership view, and its text is injective. Two
    nodes with the same instances, states and token counts compute the same epoch,
    whatever the order in which their maps are iterated; and if ids are free of the
    separators, memberships that differ in an id, a state or a token count have
    different texts, so that their epochs agree only by a collision of the hash. *)
Theorem epoch_canonical d1 d2 : NoDup d1.*1 -> NoDup d2.*1 -> clean_ids d1 -> clean_ids d2 ->
  (view d1 ≡ₚ view d2 <-> epoch_text (ids_sorted d1) = epoch_text (ids_sorted d2))
  /\ (view d1 ≡ₚ view d2 -> ComputeRingEpoch (Some d1) = ComputeRingEpoch (Some d2)).
Proof.
  intros N1 N2 C1 C2. assert (forall d, view (ids_sorted d) ≡ₚ view d) as Hv by (intros d; unfold view; by rewrite ids_sorted_perm).
  assert (forall d, clean_ids d -> clean_ids (ids_sorted d)) as Hc by (intros d H; unfold clean_ids; by rewrite ids_sorted_perm).
  assert (view d1 ≡ₚ view d2 <-> epoch_text (ids_sorted d1) = epoch_text (ids_sorted d2)) as E.
  { rewrite epoch_text_inj by auto. split; [|intros E; by rewrite <- (Hv d1), E, Hv]. intros Hp.
    apply sorted_view_unique; [apply view_sorted|apply view_sorted| |by rewrite !Hv]. rewrite Hv. unfold view. rewrite <- !list_fmap_compose. done. }
  split; [done|]. intros Hp. pose proof (proj1 E Hp) as Et. unfold ComputeRingEpoch. destruct d1 as [|r1 d1], d2 as [|r2 d2]; [done|..|by rewrite Et].
  - by apply Permutation_nil_l in Hp.
  - by apply Permutation_nil_r in Hp.
Qed.

(** The epoch is no counter: it falls when a node joins. *)
Example epoch_decreases :
  ComputeRingEpoch (Some [("n1", MkInst "n1" "a" ACTIVE 0 []); ("n6", MkInst "n6" "a" ACTIVE 0 [])]%string)
  < ComputeRingEpoch (Some [("n1", MkInst "n1" "a" ACTIVE 0 [])]%string).
Proof. vm_compute. reflexivity. Qed.

(** ** Ownership *)

(** The two answers to whose a key is agree. *)
Lemma IsLocal_GetNode ring_Get localNodeID key node :
  GetNode ring_Get key = inr node -> IsLocal ring_Get localNodeID key = bool_decide (ni_ID node = localNodeID).
Proof.
  unfold GetNode, lookup_node, IsLocal. destruct (ring_Get _ _) as [|[|inst insts]]; [done|done|]. case_decide; [done|]. by intros [= <-].
Qed.

(** ** Readiness *)

(** A node that has not announced that it can serve is not ACTIVE. *)
Lemma active_only_when_ready g g' : rtc gate_step g g' -> g_pc g = Waiting -> g_ready g = false -> g_state g = JOINING ->
  g_state g' = ACTIVE -> g_ready g' = true.
Proof.
  intros Hr Hp Hg Hs. assert (forall g, rtc gate_step g g' -> (g_pc g = Changing -> g_ready g = true) -> (g_state g = ACTIVE -> g_ready g = true) ->
    g_state g' = ACTIVE -> g_ready g' = true) as H; [|apply (H g Hr); intros E; congruence]. clear g Hr Hp Hg Hs. intros g Hr.
  induction Hr as [g|g g1 g2 Hstep _ IH]; intros H1 H2; [done|]. apply IH; clear IH; inversion Hstep; subst; cbn in *; try done; auto.
Qed.

(** ** Defaults *)

Lemma ApplyDefaults_bounds c : 0 < HeartbeatPeriod c < 2 ^ 61 \/ HeartbeatPeriod c <= 0 ->
  let c' := ApplyDefaults c in
  MinHeartbeatPeriod <= HeartbeatPeriod c' /\ MinHeartbeatTimeout <= HeartbeatTimeout c' /\ 2 * HeartbeatPeriod c' <= HeartbeatTimeout c'
  /\ 1 <= ReplicationFactor c' /\ HeartbeatTimeout c <= HeartbeatTimeout c'.
Proof.
  intros Hb c'. subst c'. destruct c as [p t r]. cbn in Hb.
  assert (Second <= effectiveHeartbeatPeriod p < 2 ^ 61) as Hp.
  { unfold effectiveHeartbeatPeriod, DefaultHeartbeatPeriod, MinHeartbeatPeriod, Second. destruct (p <=? 0) eqn:E1; bool_facts; [lia|].
    destruct (p <? 1000000000) eqn:E2; bool_facts; lia. }
  unfold ApplyDefaults. cbn [HeartbeatPeriod HeartbeatTimeout ReplicationFactor].
  rewrite (i64_small (2 * effectiveHeartbeatPeriod p)) by (unfold is_i64, two63, Second in *; lia).
  set (q := effectiveHeartbeatPeriod p) in *. unfold MinHeartbeatPeriod, MinHeartbeatTimeout, Second in *.
  destruct (Z.ltb_spec (2 * q) (60 * 1000000000)); destruct (Z.ltb_spec t (60 * 1000000000)), (Z.ltb_spec t (2 * q)), (Z.ltb_spec r 1); split_and!; lia.
Qed.

(** The watcher publishes the epoch of the ring it was shown; when it differs from the
    last one, what is logged is exactly the difference of the memberships. *)
Lemma on_ring_value_spec desc s :
  let '(go, change, s') := on_ring_value false (Some desc) s in
  let old := rw_lastKnownNodes s in let cur := node_states desc in
  go = true /\ rw_epoch s' = ComputeRingEpoch (Some desc) /\ rw_lastEpoch s' = rw_epoch s'
  /\ match change with
     | None => rw_lastKnownNodes s' = old /\ rw_lastEpoch s = ComputeRingEpoch (Some desc)
     | Some ch =>
         rw_lastKnownNodes s' = cur
         /\ (forall id st, (id, st) ∈ mb_joined ch <-> old !! id = None /\ cur !! id = Some st)
         /\ (forall id, id ∈ mb_left ch <-> is_Some (old !! id) /\ cur !! id = None)
         /\ (forall id o n, (id, (o, n)) ∈ mb_changed ch <-> old !! id = Some o /\ cur !! id = Some n /\ o <> n)
     end.
Proof.
  unfold on_ring_value, Epoch_Set. cbn [rw_lastEpoch rw_epoch rw_lastKnownNodes].
  destruct (Z.eqb_spec (ComputeRingEpoch (Some desc)) (rw_lastEpoch s)) as [E|E]; [by split_and!|]. cbn. split_and!; try done.
  - intros id st. by rewrite list_elem_of_filter, elem_of_map_to_list.
  - intros id. rewrite list_elem_of_filter, list_elem_of_fmap. split.
    + intros [Hc ([id' st] & -> & H%elem_of_map_to_list)]. split; [by exists st|done].
    + intros [[st H] Hc]. split; [done|]. exists (id, st). split; [done|]. by apply elem_of_map_to_list.
  - intros id o n. rewrite list_elem_of_omap. split.
    + intros ([id' st] & H%elem_of_map_to_list & Eo). cbn in Eo. destruct (rw_lastKnownNodes s !! id') as [o'|] eqn:Ek; [|done].
      case_decide; [done|]. by injection Eo as -> -> ->.
    + intros (Ho & Hc & Hne). exists (id, n). split; [by apply elem_of_map_to_list|]. cbn. rewrite Ho. by rewrite decide_False.
Qed.

(** The same three instances, seen in two orders. *)
Definition some_ring : Desc :=
  [("n2", MkInst "n2" "b:1" JOINING 7 [5; 6]); ("n1", MkInst "n1" "a:1" ACTIVE 3 [1]); ("n3", MkInst "n3" "c:1" LEAVING 9 [])]%string.

Lemma epoch_canonical_witness :
  ComputeRingEpoch (Some some_ring) = ComputeRingEpoch (Some (rev some_ring))
  /\ epoch_text (ids_sorted some_ring) = "n1:0:1;n2:3:2;n3:1:0;"%string.
Proof.
  split; [|vm_compute; reflexivity]. apply (epoch_canonical some_ring (rev some_ring)).
  - apply (bool_decide_eq_true_1 (NoDup ["n2"; "n1"; "n3"]%string)). vm_compute. reflexivity.
  - apply (bool_decide_eq_true_1 (NoDup ["n3"; "n1"; "n2"]%string)). vm_compute. reflexivity.
  - repeat (apply Forall_cons; split; [vm_compute; auto|]). apply Forall_nil_2.
  - repeat (apply Forall_cons; split; [vm_compute; auto|]). apply Forall_nil_2.
  - apply Permutation_map, Permutation_rev.
Defined.
