(* ===== verification/Router.v ===== *)
(** * The router (coordinator/router.go, coordinator/errors.go)

    Connections to the other nodes with a circuit breaker per node, and the retry loop
    that routes a key to its owner. Here every call runs alone; RouterRace.v has the
    interleavings. Dials, connection states, the clock and the context are read from an
    environment at ticks, like the system calls of the storage engine. *)

From S2P Require Import Prelude Keys Errors Ring.

Open Scope Z_scope.

(** ** Errors *)

Inductive router_sentinel :=
  | ErrNodeNotFound | ErrCircuitBreakerOpen | ErrLocalRouting | ErrNoAvailableNode | ErrConnectionFailed | ErrMaxRetriesExceeded.
#[export] Instance router_sentinel_eq_dec : EqDecision router_sentinel.
Proof. solve_decision. Defined.

(** gRPC status codes, as far as they are distinguished. *)
Inductive code := Unavailable | DeadlineExceeded | CodeCanceled | Aborted | OtherCode.

(** A [RouterError], a gRPC status, or any other error. *)
Inductive route_error :=
  | RouterError (Type_ : router_sentinel) (NodeID Key Message : bytes) (Cause : option route_error)
  | StatusError (c : code)
  | OtherError (e : error).

Definition NewNodeNotFoundError (nodeID key : bytes) := RouterError ErrNodeNotFound nodeID key "node not found in ring" None.
Definition NewCircuitBreakerOpenError (nodeID : bytes) := RouterError ErrCircuitBreakerOpen nodeID EmptyString "circuit breaker is open" None.
Definition NewLocalRoutingError (nodeID key : bytes) := RouterError ErrLocalRouting nodeID key "caller should check IsLocal first" None.
Definition NewConnectionFailedError (nodeID address : bytes) (cause : route_error) :=
  RouterError ErrConnectionFailed nodeID EmptyString ("failed to connect to " +:+ address) (Some cause).
Definition NewMaxRetriesExceededError (nodeID key : bytes) (attempts : Z) (cause : option route_error) :=
  RouterError ErrMaxRetriesExceeded nodeID key ("failed after " +:+ fmt_int 1 attempts +:+ " attempts") cause.

(** [errors.Is] on the sentinels: the type of a router error, never its cause. *)
Definition is_router (err : route_error) (target : router_sentinel) : bool :=
  match err with RouterError t _ _ _ _ => bool_decide (t = target) | _ => false end.

Definition IsRoutingError (err : route_error) : bool :=
  if is_router err ErrCircuitBreakerOpen then false
  else if is_router err ErrLocalRouting then false
  else if is_router err ErrNodeNotFound then false
  else if is_router err ErrMaxRetriesExceeded then false
  else if is_router err ErrConnectionFailed then true
  else match err with
       | StatusError (Unavailable | DeadlineExceeded | CodeCanceled | Aborted) => true
       | _ => false
       end.

Definition IsRetryableError (err : route_error) : bool :=
  match err with
  | RouterError t _ _ _ _ =>
      if decide (t = ErrCircuitBreakerOpen) then false
      else if decide (t = ErrLocalRouting) then false
      else if decide (t = ErrNodeNotFound) then false
      else if decide (t = ErrMaxRetriesExceeded) then false
      else if decide (t = ErrConnectionFailed) then true
      else IsRoutingError err
  | _ => IsRoutingError err
  end.

Definition IsTemporaryError (err : route_error) : bool :=
  match err with RouterError t _ _ _ _ => bool_decide (t = ErrConnectionFailed) | _ => false end.

(** ** State *)

Inductive connectivity := Idle | Connecting | Ready | TransientFailure | Shutdown.
#[export] Instance connectivity_eq_dec : EqDecision connectivity.
Proof. solve_decision. Defined.

Definition connectivity_String (s : connectivity) : bytes :=
  match s with
  | Idle => "IDLE" | Connecting => "CONNECTING" | Ready => "READY"
  | TransientFailure => "TRANSIENT_FAILURE" | Shutdown => "SHUTDOWN"
  end.

(** The zero [time.Time] is no reading of the clock: [None]. *)
Record clientState := MkClient {
  cs_conn : option nat;
  failureCount : Z;
  circuitOpenTime : option Z;
  circuitOpen : bool;
  lastFailure : option Z
}.

Definition newClientState : clientState := MkClient None 0 None false None.

Record RouterConfig := MkRouterConfig {
  cfg_MaxRetries : Z;
  InitialRetryBackoff : Z;
  MaxRetryBackoff : Z;
  CircuitBreakerThreshold : Z;
  CircuitBreakerTimeout : Z
}.

Definition DefaultRouterConfig : RouterConfig := MkRouterConfig 3 100000000 5000000000 5 30000000000.

(** What the calls of a router meet at each tick: the clock, the state of a connection,
    the outcome of a dial (with the error [createConnection] wraps), whether the caller's
    context is done, and a random draw. *)
Record RouterEnv := MkRouterEnv {
  re_now : nat -> Z;
  re_state : nat -> nat -> connectivity;
  re_dial : nat -> bytes -> option route_error;
  re_done : nat -> option error;
  re_draw : nat -> Z
}.

Record Router := MkRouter {
  rt_clients : gmap bytes clientState;
  rt_next : nat;                        (** connections made so far *)
  rt_closed : gset nat;
  rt_tick : nat;
  rt_dials : list bytes;                (** the addresses dialed, latest first *)
  rt_waits : list Z                     (** the waits before retries, latest first *)
}.

Definition with_clients c (r : Router) := MkRouter c (rt_next r) (rt_closed r) (rt_tick r) (rt_dials r) (rt_waits r).
Definition with_closed c (r : Router) := MkRouter (rt_clients r) (rt_next r) c (rt_tick r) (rt_dials r) (rt_waits r).
Definition router_tick (r : Router) := MkRouter (rt_clients r) (rt_next r) (rt_closed r) (S (rt_tick r)) (rt_dials r) (rt_waits r).

Definition NewRouterWithConfig : Router := MkRouter ∅ 0 ∅ 0 [] [].

(** [time.Since] of a reading of the clock; of the zero time it saturates. *)
Definition since (now : Z) (t : option Z) : Z :=
  match t with
  | None => two63 - 1
  | Some t => sat64 (now - t)
  end.

Section Router.

Context (env : RouterEnv) (config : RouterConfig) (localID : bytes).
(** The ring the router asks. *)
Context (ring_GetNode : bytes -> error + NodeInfo) (ring_GetAllNodes ring_GetActiveNodes : list NodeInfo).
Notation M := (ST Router).

Definition now_ : M Z := fun r => (re_now env (rt_tick r), router_tick r).
Definition ctx_err : M (option error) := fun r => (re_done env (rt_tick r), router_tick r).
Definition conn_state (c : nat) : M connectivity := fun r =>
  (if decide (c ∈ rt_closed r) then Shutdown else re_state env (rt_tick r) c, router_tick r).
Definition client_at (nodeID : bytes) : M (option clientState) := fun r => (rt_clients r !! nodeID, r).
Definition set_client (nodeID : bytes) (s : clientState) : M () := fun r => ((), with_clients (<[nodeID := s]> (rt_clients r)) r).
Definition close_conn (c : option nat) : M () := fun r =>
  ((), match c with Some c => with_closed ({[c]} ∪ rt_closed r) r | None => r end).

(** [isCircuitOpen]: an expired breaker is closed and its failures forgotten. *)
Definition isCircuitOpen (nodeID : bytes) (s : clientState) : M (bool * clientState) :=
  if negb (circuitOpen s) then mret (false, s)
  else
    now ← now_;
    if CircuitBreakerTimeout config <? since now (circuitOpenTime s) then
      let s := MkClient (cs_conn s) 0 (circuitOpenTime s) false (lastFailure s) in
      _ ← set_client nodeID s; mret (false, s)
    else mret (true, s).

Definition recordFailureAndOpenCircuit (nodeID : bytes) (s : clientState) : M clientState :=
  let failures := i32 (failureCount s + 1) in
  now ← now_;
  let s := MkClient (cs_conn s) failures (circuitOpenTime s) (circuitOpen s) (Some now) in
  if (i32 (CircuitBreakerThreshold config) <=? failures) && negb (circuitOpen s) then
    now ← now_;
    let s := MkClient (cs_conn s) failures (Some now) true (lastFailure s) in
    _ ← set_client nodeID s; mret s
  else _ ← set_client nodeID s; mret s.

(** The reason a client is not usable, with the state the check leaves. *)
Definition getConnectionHealth (nodeID : bytes) (s : clientState) : M (option route_error * clientState) :=
  '(open, s) ← isCircuitOpen nodeID s;
  if (open : bool) then mret (Some (NewCircuitBreakerOpenError nodeID), s)
  else match cs_conn s with
       | None => mret (Some (OtherError (EText ("client state not set for node " +:+ nodeID))), s)
       | Some c =>
           st ← conn_state c;
           if decide (st <> Shutdown /\ st <> TransientFailure) then mret (None, s)
           else mret (Some (OtherError (EText ("connection state is " +:+ connectivity_String st +:+ " for node " +:+ nodeID))), s)
       end.

(** [createConnection]: a new connection, or the wrapped error of the dial. *)
Definition createConnection (address : bytes) : M (route_error + nat) := fun r =>
  let r1 := MkRouter (rt_clients r) (rt_next r) (rt_closed r) (S (rt_tick r)) (address :: rt_dials r) (rt_waits r) in
  match re_dial env (rt_tick r) address with
  | Some e => (inl e, r1)
  | None => (inr (rt_next r), MkRouter (rt_clients r1) (S (rt_next r)) (rt_closed r1) (rt_tick r1) (rt_dials r1) (rt_waits r1))
  end.

Definition node_addr (nodes : list NodeInfo) (nodeID : bytes) : bytes :=
  default EmptyString (ni_ListenAddress <$> head (filter (fun n => ni_ID n = nodeID) nodes)).

(** [getClient] from the dial on: a failure counts against the node unless the caller
    gave up; a new connection replaces the old one. *)
Definition dial_client (nodeID nodeAddr : bytes) (s : clientState) : M (route_error + nat) :=
  r ← createConnection nodeAddr;
  match r with
  | inl e =>
      d ← ctx_err;
      match d with
      | Some e => mret (inl (OtherError e))
      | None => _ ← recordFailureAndOpenCircuit nodeID s; mret (inl (NewConnectionFailedError nodeID nodeAddr e))
      end
  | inr conn =>
      _ ← close_conn (cs_conn s);
      _ ← set_client nodeID (MkClient (Some conn) 0 (circuitOpenTime s) (circuitOpen s) (lastFailure s));
      mret (inr conn)
  end.

(** The slow path of [getClient]: the state is registered, the dial slot taken, and the
    health checked again. *)
Definition slow_client (nodeID : bytes) (s : clientState) : M (route_error + nat) :=
  _ ← set_client nodeID s;
  d ← ctx_err;
  match d with
  | Some e => mret (inl (OtherError e))
  | None =>
      '(err, s) ← getConnectionHealth nodeID s;
      match err, cs_conn s with
      | None, Some c => mret (inr c)
      | _, _ =>
          if match err with Some e => is_router e ErrCircuitBreakerOpen | None => false end
          then mret (inl (NewCircuitBreakerOpenError nodeID))
          else
            let nodeAddr := node_addr ring_GetAllNodes nodeID in
            if decide (nodeAddr = EmptyString) then mret (inl (NewNodeNotFoundError nodeID EmptyString))
            else dial_client nodeID nodeAddr s
      end
  end.

(** [getClient]: the connection it hands out. *)
Definition getClient (nodeID : bytes) : M (route_error + nat) :=
  state ← client_at nodeID;
  match state with
  | Some s =>
      '(err, s) ← getConnectionHealth nodeID s;
      match err, cs_conn s with
      | None, Some c => mret (inr c)
      | _, _ =>
          if match err with Some e => is_router e ErrCircuitBreakerOpen | None => false end
          then mret (inl (NewCircuitBreakerOpenError nodeID))
          else slow_client nodeID s
      end
  | None => slow_client nodeID newClientState
  end.

(** The next backoff ([float64] doubling, exact below 2^53 nanoseconds), and a jittered
    wait. *)
Definition calculateBackoff (current : Z) : Z :=
  let next := 2 * current in if MaxRetryBackoff config <? next then MaxRetryBackoff config else next.
Definition jittered (d draw : Z) : Z := if d <=? 0 then d else let half := Z.quot d 2 in half + draw mod (half + 1).

(** The wait before a retry: the context's error when it ends first. *)
Definition backoff_wait (backoff : Z) : M (option error) :=
  _ ← (fun r => ((), MkRouter (rt_clients r) (rt_next r) (rt_closed r) (S (rt_tick r)) (rt_dials r)
                    (jittered backoff (re_draw env (rt_tick r)) :: rt_waits r)));
  ctx_err.

(** The attempts of [routeWithRetry]; [first] for the one without a wait. The context's
    own error is kept apart from the last error of an attempt. *)
Fixpoint route_loop (rem : nat) (first : bool) (backoff : Z) (nodeID : bytes) (lastErr : option route_error) :
    M (error + option route_error + nat) :=
  match rem with
  | O => mret (inl (inr lastErr))
  | S rem =>
      waited ← (if first then mret None else backoff_wait backoff);
      match waited with
      | Some e => mret (inl (inl e))
      | None =>
          let backoff := if first then backoff else calculateBackoff backoff in
          r ← getClient nodeID;
          match r with
          | inr c => mret (inr c)
          | inl err =>
              d ← ctx_err;
              match d with
              | Some e => mret (inl (inl e))
              | None =>
                  if negb (IsRetryableError err) then mret (inl (inr (Some err)))
                  else route_loop rem false backoff nodeID (Some err)
              end
          end
      end
  end.

(** The context's own error passes through; any other failure is reported as exhausted
    retries. *)
Definition route_result (nodeID key : bytes) (maxRetries : Z) (r : error + option route_error + nat) : route_error + nat :=
  match r with
  | inr c => inr c
  | inl (inl e) => inl (OtherError e)
  | inl (inr lastErr) => inl (NewMaxRetriesExceededError nodeID key (maxRetries + 1) lastErr)
  end.

Definition routeWithRetry (key : bytes) (maxRetries : Z) : M (route_error + nat) :=
  match ring_GetNode key with
  | inl e => mret (inl (OtherError e))
  | inr node =>
      if decide (ni_ID node = localID) then mret (inl (NewLocalRoutingError localID key))
      else
        r ← route_loop (Z.to_nat (maxRetries + 1)) true (InitialRetryBackoff config) (ni_ID node) None;
        mret (route_result (ni_ID node) key maxRetries r)
  end.

Definition RouteContext (key : bytes) : M (route_error + nat) := routeWithRetry key (cfg_MaxRetries config).

Definition GetClientForNode (nodeID : bytes) : M (route_error + nat) :=
  if decide (nodeID = localID) then mret (inl (NewLocalRoutingError localID EmptyString)) else getClient nodeID.

Definition RemoveClient (nodeID : bytes) : M () := fun r =>
  match rt_clients r !! nodeID with
  | Some s => ((), with_clients (delete nodeID (rt_clients r)) (close_conn (cs_conn s) r).2)
  | None => ((), r)
  end.

(** The connections of a set of clients. *)
Definition conns (clients : gmap bytes clientState) : gset nat := list_to_set (omap (fun x => cs_conn x.2) (map_to_list clients)).

Definition Close : M () := fun r => ((), with_clients ∅ (with_closed (conns (rt_clients r) ∪ rt_closed r) r)).

(** [RefreshConnections]: clients of nodes that are not active go. *)
Definition RefreshConnections : M () := fun r =>
  let active n := bool_decide (n ∈ ni_ID <$> ring_GetActiveNodes) in
  let gone := filter (fun x => active x.1 = false) (rt_clients r) in
  ((), with_clients (filter (fun x => active x.1 = true) (rt_clients r)) (with_closed (conns gone ∪ rt_closed r) r)).

(** [GetConnectionStats], of one client; a client without a connection has the zero
    connectivity state. *)
Record ConnectionStats := MkStats {
  st_State : bytes; st_FailureCount : Z; st_CircuitOpen : bool; st_LastFailure : option Z; st_CircuitOpenTime : option Z
}.

Definition client_stats (s : clientState) : M ConnectionStats :=
  st ← match cs_conn s with Some c => conn_state c | None => mret Idle end;
  mret (MkStats (connectivity_String st) (failureCount s) (circuitOpen s) (lastFailure s) (circuitOpenTime s)).

End Router.
