(* ===== verification/RouterProps.v ===== *)
(** * Properties of the router

    The invariant of the router's connections and circuit breakers, what a call of
    [getClient] and a routing of a key do, and how often a dead node is dialed. *)

From S2P Require Import Prelude Keys Errors Ring Router.

Open Scope Z_scope.

Section RouterProps.

Context (env : RouterEnv) (config : RouterConfig) (ring_GetAllNodes : list NodeInfo).
(** The breaker's threshold is a positive int32. *)
Context (Hthreshold : 1 <= CircuitBreakerThreshold config < two31).

Implicit Types (r : Router) (s : clientState).

(** ** Invariant *)

(** A closed breaker has counted fewer failures than the threshold; an open one has the
    time it opened. *)
Definition breaker_ok s : Prop :=
  (circuitOpen s = false -> 0 <= failureCount s < CircuitBreakerThreshold config) /\
  (circuitOpen s = true -> is_Some (circuitOpenTime s)).

Definition conn_of r (n : bytes) : option nat := rt_clients r !! n ≫= cs_conn.

(** Every registered connection is open and registered once, and every connection made
    is closed or registered: none leaks. *)
Record conns_ok r : Prop := {
  conn_open : forall n c, conn_of r n = Some c -> (c < rt_next r)%nat /\ c ∉ rt_closed r;
  conn_unique : forall n1 n2 c, conn_of r n1 = Some c -> conn_of r n2 = Some c -> n1 = n2;
  conn_kept : forall c, (c < rt_next r)%nat -> c ∈ rt_closed r \/ exists n, conn_of r n = Some c;
  closed_made : forall c, c ∈ rt_closed r -> (c < rt_next r)%nat
}.

Record router_ok r : Prop := {
  ok_breakers : forall n s, rt_clients r !! n = Some s -> breaker_ok s;
  ok_conns : conns_ok r
}.

Lemma router_ok_new : router_ok NewRouterWithConfig.
Proof.
  split; [intros n s; cbn; by rewrite lookup_empty|]. split; unfold conn_of; cbn.
  - intros n c. by rewrite lookup_empty.
  - intros n1 n2 c. by rewrite lookup_empty.
  - lia.
  - set_solver.
Qed.

Lemma breaker_ok_new : breaker_ok newClientState.
Proof. unfold breaker_ok. cbn. split; [lia|done]. Qed.

Lemma conn_of_set n s r n' : conn_of ((set_client n s r).2) n' = if decide (n' = n) then cs_conn s else conn_of r n'.
Proof. unfold conn_of. cbn. case_decide; simplify_map_eq; done. Qed.

(** A state written back with its connection unchanged. *)
Lemma router_ok_set n s r : router_ok r -> breaker_ok s -> cs_conn s = conn_of r n -> router_ok (set_client n s r).2.
Proof.
  intros [Hb Hc] Hs Hn. assert (Hsame : forall n', conn_of (set_client n s r).2 n' = conn_of r n').
  { intros n'. rewrite conn_of_set. by case_decide; subst. }
  split.
  - intros n' s'. cbn. destruct (decide (n' = n)) as [->|]; simplify_map_eq; [by intros [= <-]|by apply Hb].
  - destruct Hc. split; try setoid_rewrite Hsame; done.
Qed.

(** The clock, the dials and the waits are not part of the invariant. *)
Lemma router_ok_same r r' :
  rt_clients r' = rt_clients r -> rt_next r' = rt_next r -> rt_closed r' = rt_closed r -> router_ok r -> router_ok r'.
Proof.
  destruct r, r'. cbn. intros -> -> -> [Hb []]. split; [done|]. split; done.
Qed.

Lemma router_ok_tick r : router_ok r -> router_ok (router_tick r).
Proof. by apply router_ok_same. Qed.

(** ** The breaker *)

(** The state of [n] that a call holds is the registered one. *)
Definition holds n s r : Prop := rt_clients r !! n = Some s.

Lemma holds_conn n s r : holds n s r -> cs_conn s = conn_of r n.
Proof. unfold holds, conn_of. by intros ->. Qed.

Lemma holds_set n s r : holds n s (set_client n s r).2.
Proof. unfold holds. cbn. by simplify_map_eq. Qed.

(** What no check of the breaker touches. *)
Definition quiet r r' : Prop :=
  rt_next r' = rt_next r /\ rt_closed r' = rt_closed r /\ rt_dials r' = rt_dials r /\ rt_waits r' = rt_waits r /\
  (rt_tick r <= rt_tick r')%nat.

Ltac quiet_tac := unfold quiet; cbn; split_and!; (done || lia).

Lemma quiet_refl r : quiet r r.
Proof. unfold quiet. auto. Qed.

Lemma quiet_trans r1 r2 r3 : quiet r1 r2 -> quiet r2 r3 -> quiet r1 r3.
Proof. unfold quiet. intuition (try congruence; lia). Qed.

#[local] Hint Resolve router_ok_tick holds_set quiet_refl : router.

(** Closes the routine parts of a specification. *)
Ltac routine := split_and!; try done; try solve [auto with router | quiet_tac | unfold holds; cbn; by simplify_map_eq | eapply quiet_trans; [eassumption|quiet_tac]].

Lemma isCircuitOpen_spec n s r :
  router_ok r -> holds n s r ->
  wp (isCircuitOpen env config n s) (fun res r' =>
    router_ok r' /\ quiet r r' /\ holds n res.2 r' /\ cs_conn res.2 = cs_conn s /\ circuitOpen res.2 = res.1) r.
Proof.
  intros Hr Hs. pose proof (ok_breakers r Hr n s Hs) as Hb. unfold isCircuitOpen. destruct (circuitOpen s) eqn:Eo; cbn [negb].
  - apply wp_bind, wp_fun. cbn. case_match; unfold wp.
    + apply wp_bind, wp_fun, wp_ret. cbn. routine.
      apply (router_ok_set n _ (router_tick r)); [auto with router| |by apply (holds_conn n s r)]. unfold breaker_ok. cbn. split; [lia|done].
    + apply wp_ret. cbn. routine.
  - apply wp_ret. cbn. routine.
Qed.

Lemma getConnectionHealth_spec n s r :
  router_ok r -> holds n s r ->
  wp (getConnectionHealth env config n s) (fun res r' =>
    router_ok r' /\ quiet r r' /\ holds n res.2 r' /\ cs_conn res.2 = cs_conn s /\
    (res.1 = None -> is_Some (cs_conn s)) /\
    ((exists e, res.1 = Some e /\ is_router e ErrCircuitBreakerOpen = true) \/ circuitOpen res.2 = false)) r.
Proof.
  intros Hr Hs. unfold getConnectionHealth. apply wp_bind. eapply wp_mono; [by apply isCircuitOpen_spec|].
  intros [[] s'] r1 (Hr1 & Hq & Hs1 & Hc & Ho); cbn in *.
  - apply wp_ret. cbn. routine. left. eexists. split; [done|]. cbn. by rewrite bool_decide_eq_true_2.
  - rewrite Hc. destruct (cs_conn s) as [c|] eqn:Ec.
    + apply wp_bind, wp_fun. cbn. case_match; apply wp_ret; cbn; routine; eauto.
    + apply wp_ret. cbn. routine.
Qed.

Lemma recordFailure_spec n s r :
  router_ok r -> holds n s r -> circuitOpen s = false ->
  wp (recordFailureAndOpenCircuit env config n s) (fun s' r' => router_ok r' /\ quiet r r' /\ holds n s' r' /\
    cs_conn s' = cs_conn s /\ failureCount s' = failureCount s + 1 /\
    circuitOpen s' = (CircuitBreakerThreshold config <=? failureCount s + 1)) r.
Proof.
  intros Hr Hs Ho. pose proof (proj1 (ok_breakers r Hr n s Hs) Ho) as Hf. unfold recordFailureAndOpenCircuit. apply wp_bind, wp_fun. cbn.
  assert (Hi : i32 (failureCount s + 1) = failureCount s + 1) by int_solve.
  assert (HT : i32 (CircuitBreakerThreshold config) = CircuitBreakerThreshold config) by int_solve.
  rewrite Hi, HT, Ho. rewrite andb_true_r. destruct (_ <=? _) eqn:E; bool_facts.
  - do 2 apply wp_bind, wp_fun. apply wp_ret. cbn. routine.
    apply (router_ok_set n _ (router_tick (router_tick r))); [auto with router| |by apply (holds_conn n s r)]. split; [done|]. cbn. eauto.
  - apply wp_bind, wp_fun, wp_ret. cbn. routine.
    apply (router_ok_set n _ (router_tick r)); [auto with router| |by apply (holds_conn n s r)]. split; [cbn; lia|done].
Qed.

(** ** One client *)

(** A new connection replaces the node's: the old one is closed. *)
Lemma conns_ok_replace r r' n s' :
  conns_ok r -> rt_clients r' = <[n := s']> (rt_clients r) -> cs_conn s' = Some (rt_next r) ->
  rt_next r' = S (rt_next r) -> (forall c, c ∈ rt_closed r' <-> conn_of r n = Some c \/ c ∈ rt_closed r) -> conns_ok r'.
Proof.
  intros Hok Hc Hs Hn Hcl.
  assert (Hconn : forall n', conn_of r' n' = if decide (n' = n) then Some (rt_next r) else conn_of r n').
  { intros n'. unfold conn_of. rewrite Hc. case_decide; simplify_map_eq; done. }
  assert (Hlt : forall c, c ∈ rt_closed r' -> (c < rt_next r)%nat).
  { intros c [Ho|Ho]%Hcl; [by apply (conn_open _ Hok) in Ho as []|by apply (closed_made _ Hok)]. }
  split.
  - intros n' c. rewrite Hn, Hconn. case_decide as E.
    + intros [= <-]. split; [lia|]. intros Hin%Hlt. lia.
    + intros Hc'. destruct (conn_open _ Hok n' c Hc') as [Hl Hnc]. split; [lia|]. rewrite Hcl. intros [Ho|Ho]; [|done].
      by apply E, (conn_unique _ Hok n' n c).
  - intros n1 n2 c. rewrite !Hconn. do 2 case_decide; [congruence| | |apply (conn_unique _ Hok)].
    + intros [= <-] Hx%(conn_open _ Hok). lia.
    + intros Hx%(conn_open _ Hok) [= <-]. lia.
  - intros c Hlc. setoid_rewrite Hconn. destruct (decide (c = rt_next r)) as [->|Hne].
    { right. exists n. by rewrite decide_True. }
    destruct (conn_kept _ Hok c) as [Hin|[n' Hn']]; [lia|left; apply Hcl; by right|].
    destruct (decide (n' = n)) as [->|]; [left; apply Hcl; by left|]. right. exists n'. by rewrite decide_False.
  - intros c Hin%Hlt. lia.
Qed.

(** A call may dial the node's address once, and waits for nothing. *)
Definition dialed_once n r r' : Prop :=
  rt_waits r' = rt_waits r /\ exists k, (k <= 1)%nat /\ rt_dials r' = replicate k (node_addr ring_GetAllNodes n) ++ rt_dials r.

Lemma dialed_quiet n r r' : quiet r r' -> dialed_once n r r'.
Proof. intros (_ & _ & Hd & Hw & _). split; [done|]. exists 0%nat. cbn. split; [lia|done]. Qed.

Definition client_spec n r (res : route_error + nat) r' : Prop :=
  router_ok r' /\ dialed_once n r r' /\ forall c, res = inr c -> conn_of r' n = Some c.

Lemma spec_fail n r r' e : router_ok r' -> dialed_once n r r' -> client_spec n r (inl e) r'.
Proof. intros. by split_and!. Qed.

#[local] Hint Resolve spec_fail dialed_quiet : router.

(** The dial of the slow path and what it leaves. *)
Lemma dial_client_spec n s r0 r :
  router_ok r -> holds n s r -> circuitOpen s = false -> quiet r0 r ->
  wp (dial_client env config n (node_addr ring_GetAllNodes n) s) (client_spec n r0) r.
Proof.
  intros Hr Hs Ho Hq. set (addr := node_addr _ n).
  assert (Hd : forall r', rt_waits r' = rt_waits r -> rt_dials r' = addr :: rt_dials r -> dialed_once n r0 r').
  { destruct Hq as (_ & _ & Hd & Hw & _). intros r' Hw' Hd'. split; [congruence|]. exists 1%nat. cbn. split; [lia|]. by rewrite Hd', Hd. }
  unfold dial_client. apply wp_bind. unfold wp at 1, createConnection. destruct (re_dial _ _ _) as [e|] eqn:Ed; cbn.
  - apply wp_bind, wp_fun. cbn. destruct (re_done _ _); [apply wp_ret; apply spec_fail; [by eapply router_ok_same; [..|apply Hr]|by apply Hd]|].
    apply wp_bind. eapply wp_mono; [apply recordFailure_spec; [by eapply router_ok_same; [..|apply Hr]|done|done]|].
    intros s' r' (Hr' & (_ & _ & Hqd & Hqw & _) & _). apply wp_ret. apply spec_fail; [done|]. apply Hd; [by rewrite Hqw|by rewrite Hqd].
  - do 2 apply wp_bind, wp_fun. apply wp_ret. rewrite (holds_conn n s r Hs). split_and!.
    + split.
      * intros n' s'. destruct (conn_of r n) as [c|]; cbn; (destruct (decide (n' = n)) as [->|]; simplify_map_eq; [|by apply ok_breakers]);
          intros [= <-]; unfold breaker_ok; cbn; rewrite Ho; (split; [lia|done]).
      * eapply (conns_ok_replace r); [apply Hr|by destruct (conn_of r n)|done|by destruct (conn_of r n)|].
        intros c. destruct (conn_of r n); cbn; set_solver.
    + apply Hd; by destruct (conn_of r n).
    + intros c [= <-]. unfold conn_of. destruct (rt_clients r !! n ≫= cs_conn); cbn; by simplify_map_eq.
Qed.

(** The slow path: under the node's dial slot. *)
Lemma slow_client_spec n s r0 r :
  router_ok r -> quiet r0 r -> breaker_ok s -> cs_conn s = conn_of r n ->
  wp (slow_client env config ring_GetAllNodes n s) (client_spec n r0) r.
Proof.
  intros Hr Hq Hb Hc. unfold slow_client. apply wp_bind, wp_fun. cbn. apply wp_bind, wp_fun. cbn. set (r1 := router_tick _).
  assert (Hr1 : router_ok r1) by (apply router_ok_tick; by apply (router_ok_set n s r)).
  assert (Hq1 : quiet r0 r1) by (eapply quiet_trans; [done|quiet_tac]).
  assert (Hs1 : holds n s r1) by apply holds_set.
  destruct (re_done _ _); [apply wp_ret; auto with router|].
  apply wp_bind. eapply wp_mono; [by apply getConnectionHealth_spec|].
  intros [err s'] r2 (Hr2 & Hq2 & Hs2 & Hc2 & Hsome & Hopen). cbn in *.
  assert (Hq02 : quiet r0 r2) by (by eapply quiet_trans).
  destruct err as [e|].
  - destruct (is_router e ErrCircuitBreakerOpen) eqn:Ee; [apply wp_ret; auto with router|].
    case_decide; [apply wp_ret; auto with router|]. destruct Hopen as [(e' & [= <-] & ?)|Hopen]; [congruence|].
    by apply dial_client_spec.
  - destruct (Hsome eq_refl) as [c Ec]. rewrite Hc2, Ec. apply wp_ret. split_and!; [done|auto with router|].
    intros c' [= <-]. by rewrite <- (holds_conn n s' r2), Hc2.
Qed.

Lemma getClient_spec n r : router_ok r -> wp (getClient env config ring_GetAllNodes n) (client_spec n r) r.
Proof.
  intros Hr. unfold getClient. apply wp_bind, wp_fun. cbn. destruct (rt_clients r !! n) as [s|] eqn:Es.
  - apply wp_bind. eapply wp_mono; [by apply getConnectionHealth_spec|].
    intros [err s'] r1 (Hr1 & Hq & Hs1 & Hc & Hsome & _). cbn in *. destruct err as [e|].
    + destruct (is_router e _); [apply wp_ret; auto with router|].
      apply slow_client_spec; [done|done|by apply (ok_breakers r1 Hr1 n)|by apply holds_conn].
    + destruct (Hsome eq_refl) as [c Ec]. rewrite Hc, Ec. apply wp_ret. split_and!; [done|auto with router|].
      intros c' [= <-]. by rewrite <- (holds_conn n s' r1), Hc.
  - apply slow_client_spec; [done|apply quiet_refl|apply breaker_ok_new|].
    unfold conn_of. by rewrite Es.
Qed.

(** ** Routing *)

(** The backoff before the [i]-th retry. *)
Definition backoff_at (b : Z) (i : nat) : Z := Nat.iter i (calculateBackoff config) b.

(** The waits [ws] (latest first) of a routing whose next backoff is [b]. *)
Definition waits_ok (b : Z) (ws : list Z) : Prop :=
  forall i w, reverse ws !! i = Some w -> Z.quot (backoff_at b i) 2 <= w <= backoff_at b i.

Lemma backoff_at_closed b i :
  0 < b <= MaxRetryBackoff config -> backoff_at b i = Z.min (MaxRetryBackoff config) (2 ^ Z.of_nat i * b).
Proof.
  intros Hb. unfold backoff_at. induction i as [|i IH]; [cbn; lia|]. rewrite Nat.iter_succ, IH. unfold calculateBackoff.
  replace (2 ^ Z.of_nat (S i)) with (2 * 2 ^ Z.of_nat i) by (rewrite <- Z.pow_succ_r by lia; f_equal; lia).
  assert (0 < 2 ^ Z.of_nat i) by (apply Z.pow_pos_nonneg; lia). case_match; bool_facts; nia.
Qed.

Lemma calculateBackoff_pos b : 0 < b <= MaxRetryBackoff config -> 0 < calculateBackoff config b <= MaxRetryBackoff config.
Proof. intros Hb. unfold calculateBackoff. case_match; bool_facts; lia. Qed.

Lemma jittered_range d draw : 0 < d -> Z.quot d 2 <= jittered d draw <= d.
Proof.
  intros Hd. unfold jittered. rewrite (proj2 (Z.leb_gt d 0) Hd). rewrite Z.quot_div_nonneg by lia.
  assert (0 <= d / 2 /\ 2 * (d / 2) <= d) by (split; [apply Z.div_pos; lia|apply Z.mul_div_le; lia]).
  pose proof (Z.mod_pos_bound draw (d / 2 + 1)). cbv zeta. lia.
Qed.

Lemma waits_ok_nil b : waits_ok b [].
Proof. intros i w. cbn. by destruct i. Qed.

Lemma waits_ok_cons b ws w :
  waits_ok (calculateBackoff config b) ws -> Z.quot b 2 <= w <= b -> waits_ok b (ws ++ [w]).
Proof.
  intros Hws Hw i x. rewrite reverse_snoc. destruct i as [|i]; cbn; [by intros [= <-]|]. intros Hx%Hws.
  unfold backoff_at in *. by rewrite <- Nat.iter_succ_r in Hx.
Qed.

(** What a loop of attempts may do: at most [rem] dials, all of the node's address, at
    most [m] waits. *)
Definition loop_spec n (rem m : nat) (b : Z) r (res : error + option route_error + nat) r' : Prop :=
  router_ok r' /\ (forall c, res = inr c -> conn_of r' n = Some c) /\
  (exists k, (k <= rem)%nat /\ rt_dials r' = replicate k (node_addr ring_GetAllNodes n) ++ rt_dials r) /\
  (exists ws, rt_waits r' = ws ++ rt_waits r /\ (length ws <= m)%nat /\ waits_ok b ws).

Lemma loop_spec_stop n rem m b r r' e : router_ok r' -> dialed_once n r r' -> (1 <= rem)%nat -> loop_spec n rem m b r (inl e) r'.
Proof.
  intros Hr [Hw (k & Hk & Hd)] Hrem. split_and!; [done|done|exists k; split; [lia|done]|]. exists []. cbn. split_and!; [done|lia|].
  apply waits_ok_nil.
Qed.

(** One attempt without its wait, then the rest of the loop. *)
Lemma attempt_spec n rem b err0 r :
  0 < b <= MaxRetryBackoff config -> router_ok r ->
  (forall err r1, router_ok r1 -> wp (route_loop env config ring_GetAllNodes rem false b n err) (loop_spec n rem rem b r1) r1) ->
  wp (route_loop env config ring_GetAllNodes (S rem) true b n err0) (loop_spec n (S rem) rem b r) r.
Proof.
  intros Hb Hr IH. cbn [route_loop]. apply wp_bind, wp_ret, wp_bind. eapply wp_mono; [by apply getClient_spec|].
  intros [err|c] r1 (Hr1 & Hd1 & Hc).
  - apply wp_bind, wp_fun. cbn. assert (Hr2 : router_ok (router_tick r1)) by by apply router_ok_tick.
    destruct (re_done _ _); [apply wp_ret, loop_spec_stop; [done|done|lia]|].
    destruct (IsRetryableError err); cbn; [|apply wp_ret, loop_spec_stop; [done|done|lia]].
    eapply wp_mono; [by apply IH|]. destruct Hd1 as [Hw1 (k1 & Hk1 & Hd1)].
    intros res r3 (Hr3 & Hc3 & (k & Hk & Hd) & ws & Hw & Hl & Hws). cbn in *. split_and!; [done|done| |].
    + exists (k + k1)%nat. split; [lia|]. rewrite Hd, Hd1. by rewrite replicate_add, app_assoc.
    + exists ws. rewrite Hw, Hw1. done.
  - apply wp_ret. destruct Hd1 as [Hw1 (k1 & Hk1 & Hd1)]. split_and!; [done| |exists k1; split; [lia|done]|].
    + intros c' [= <-]. by apply Hc.
    + exists []. split_and!; [done|cbn; lia|]. apply waits_ok_nil.
Qed.

Lemma route_loop_spec n rem b err r :
  0 < b <= MaxRetryBackoff config -> router_ok r ->
  wp (route_loop env config ring_GetAllNodes rem false b n err) (loop_spec n rem rem b r) r.
Proof.
  revert b err r. induction rem as [|rem IH]; intros b err r Hb Hr; cbn [route_loop].
  { apply wp_ret. split_and!; [done|done|by exists 0%nat|]. exists []. split_and!; [done|done|]. apply waits_ok_nil. }
  pose proof (calculateBackoff_pos b Hb) as Hb'.
  unfold backoff_wait. apply wp_bind, wp_bind, wp_fun. cbn. apply wp_fun. cbn. set (r1 := router_tick _).
  assert (Hr1 : router_ok r1) by (by eapply router_ok_same; [..|apply Hr]).
  pose proof (jittered_range b (re_draw env (rt_tick r)) (proj1 Hb)) as Hj.
  assert (Hjw : waits_ok b [jittered b (re_draw env (rt_tick r))]).
  { apply (waits_ok_cons b []); [|done]. apply waits_ok_nil. }
  destruct (re_done _ _).
  { apply wp_ret. split_and!; [done|done|exists 0%nat; split; [lia|done]|]. eexists [_]. cbn. split_and!; [done|lia|done]. }
  eapply wp_mono; [apply (attempt_spec n rem (calculateBackoff config b) err); [done|done|]; intros err' r2 Hr2; by apply IH|].
  intros res r3 (Hr3 & Hc3 & Hk & ws & Hw & Hl & Hws). split_and!; [done|done|done|].
  exists (ws ++ [jittered b (re_draw env (rt_tick r))]). rewrite Hw. cbn. rewrite <- app_assoc. split_and!; [done| |by apply waits_ok_cons].
  rewrite length_app. cbn. lia.
Qed.

(** The local node, and the owners the ring names. *)
Context (localID : bytes) (ring_GetNode : bytes -> error + NodeInfo).

(** What a routing of a key promises. *)
Definition routed (key : bytes) (maxRetries : Z) r (res : route_error + nat) r' : Prop :=
  router_ok r' /\
  (forall c, res = inr c -> exists node, ring_GetNode key = inr node /\ ni_ID node <> localID /\ conn_of r' (ni_ID node) = Some c) /\
  exists addr k ws,
    rt_dials r' = replicate k addr ++ rt_dials r /\ Z.of_nat k <= Z.max 0 (maxRetries + 1) /\
    rt_waits r' = ws ++ rt_waits r /\ Z.of_nat (length ws) <= Z.max 0 maxRetries /\
    forall i w, reverse ws !! i = Some w ->
      let b := Z.min (MaxRetryBackoff config) (2 ^ Z.of_nat i * InitialRetryBackoff config) in Z.quot b 2 <= w <= b.

Lemma routed_nothing key maxRetries r e : router_ok r -> routed key maxRetries r (inl e) r.
Proof. intros Hr. split_and!; [done|done|]. exists EmptyString, 0%nat, []. cbn. split_and!; [done|lia|done|lia|]. intros i w. by destruct i. Qed.

Lemma routed_loop key maxRetries node r res r' rem :
  0 < InitialRetryBackoff config <= MaxRetryBackoff config ->
  ring_GetNode key = inr node -> ni_ID node <> localID ->
  Z.of_nat rem = Z.max 0 maxRetries -> 0 <= maxRetries ->
  loop_spec (ni_ID node) (S rem) rem (InitialRetryBackoff config) r res r' ->
  routed key maxRetries r (route_result (ni_ID node) key maxRetries res) r'.
Proof.
  intros Hb Hn Hl Hrem Hm (Hr' & Hc & (k & Hk & Hd) & ws & Hw & Hlen & Hws). split_and!; [done| |].
  - intros c Hres. exists node. split_and!; [done|done|]. apply Hc. by destruct res as [[|[]]|]; simplify_eq/=.
  - eexists _, k, ws. split_and!; [done|lia|done|lia|]. intros i w Hi. cbv zeta. rewrite <- backoff_at_closed by done. by apply Hws.
Qed.

Lemma routeWithRetry_spec key maxRetries r :
  0 < InitialRetryBackoff config <= MaxRetryBackoff config -> router_ok r ->
  wp (routeWithRetry env config localID ring_GetNode ring_GetAllNodes key maxRetries) (routed key maxRetries r) r.
Proof.
  intros Hb Hr.
  unfold routeWithRetry. destruct (ring_GetNode key) as [e|node] eqn:En; [apply wp_ret; by apply routed_nothing|].
  case_decide as Hl; [apply wp_ret; by apply routed_nothing|]. apply wp_bind.
  destruct (decide (0 <= maxRetries)) as [Hm|Hm].
  - replace (Z.to_nat (maxRetries + 1)) with (S (Z.to_nat maxRetries)) by lia.
    eapply wp_mono; [apply attempt_spec; [done|done|]; intros; by apply route_loop_spec|].
    intros res r' Hs. apply wp_ret. eapply routed_loop; [done..| |done|done]. lia.
  - replace (Z.to_nat (maxRetries + 1)) with 0%nat by lia. cbn [route_loop]. apply wp_ret, wp_ret. by apply routed_nothing.
Qed.

(** C26: routing a key to its owner keeps the router's invariant, never hands out a
    client of the local node, and a client it hands out is the owner's registered, open
    connection. It dials at most [maxRetries + 1] times, always the same address, and
    waits at most [maxRetries] times; the [i]-th wait lies between half and the whole of
    [min (MaxRetryBackoff, 2^i * InitialRetryBackoff)]. *)
Theorem routing_bounded key maxRetries r :
  0 < InitialRetryBackoff config <= MaxRetryBackoff config -> router_ok r ->
  let '(res, r') := routeWithRetry env config localID ring_GetNode ring_GetAllNodes key maxRetries r in
  routed key maxRetries r res r'.
Proof.
  intros Hb Hr. pose proof (routeWithRetry_spec key maxRetries r Hb Hr) as Hs. unfold wp in Hs.
  by destruct (routeWithRetry _ _ _ _ _ _ _ r).
Qed.

End RouterProps.

(** ** Every history *)

(** What the ring answers when an operation runs. *)
Record RingView := MkView {
  view_GetNode : bytes -> error + NodeInfo;
  view_all : list NodeInfo;
  view_active : list NodeInfo
}.

Inductive router_op :=
  | OpRoute (key : bytes) (maxRetries : Z)
  | OpClient (nodeID : bytes)
  | OpRemove (nodeID : bytes)
  | OpRefresh
  | OpClose.

Section Histories.

Context (env : RouterEnv) (config : RouterConfig) (localID : bytes).

Definition run_op (op : RingView * router_op) (r : Router) : Router :=
  let v := op.1 in
  match op.2 with
  | OpRoute key n => (routeWithRetry env config localID (view_GetNode v) (view_all v) key n r).2
  | OpClient id => (GetClientForNode env config localID (view_all v) id r).2
  | OpRemove id => (RemoveClient id r).2
  | OpRefresh => (RefreshConnections (view_active v) r).2
  | OpClose => (Close r).2
  end.

Definition run_ops (ops : list (RingView * router_op)) : Router := fold_left (fun r op => run_op op r) ops NewRouterWithConfig.

(** Clients that go take their connections with them. *)
Lemma conns_ok_drop r r' :
  conns_ok r -> rt_next r' = rt_next r ->
  (forall n, conn_of r' n = None \/ conn_of r' n = conn_of r n) ->
  (forall c, c ∈ rt_closed r' <-> c ∈ rt_closed r \/ exists n, conn_of r n = Some c /\ conn_of r' n = None) -> conns_ok r'.
Proof.
  intros Hok Hn Hsub Hcl.
  assert (Hin : forall n c, conn_of r' n = Some c -> conn_of r n = Some c) by (intros n c; destruct (Hsub n); congruence).
  split.
  - intros n c Hc. pose proof (Hin _ _ Hc) as Hc'. destruct (conn_open _ Hok _ _ Hc') as [Hl Hnc]. rewrite Hn, Hcl. split; [done|].
    intros [?|(n' & Hn' & Hnone)]; [done|]. rewrite (conn_unique _ Hok n' n c Hn' Hc') in Hnone. congruence.
  - intros n1 n2 c H1%Hin H2%Hin. by apply (conn_unique _ Hok n1 n2 c).
  - intros c Hl. rewrite Hn in Hl. rewrite Hcl. destruct (conn_kept _ Hok c Hl) as [?|[n Hc]]; [by left; left|].
    destruct (Hsub n) as [H|H]; [left; right; eauto|right; exists n; congruence].
  - intros c [Hc|(n & Hc & _)]%Hcl; rewrite Hn; [by apply (closed_made _ Hok)|by apply (conn_open _ Hok) in Hc as []].
Qed.

Lemma elem_of_conns (m : gmap bytes clientState) c : c ∈ conns m <-> exists n s, m !! n = Some s /\ cs_conn s = Some c.
Proof.
  unfold conns. rewrite elem_of_list_to_set, list_elem_of_omap. split.
  - intros ([n s] & Hin%elem_of_map_to_list & Hc). eauto.
  - intros (n & s & Hin & Hc). exists (n, s). split; [by apply elem_of_map_to_list|done].
Qed.

(** Keeping the clients that satisfy [P] and closing the others. *)
Lemma router_ok_keep P `{!forall x, Decision (P x)} r r' :
  router_ok config r -> rt_next r' = rt_next r -> rt_clients r' = filter P (rt_clients r) ->
  (forall c, c ∈ rt_closed r' <-> c ∈ rt_closed r \/ exists n s, rt_clients r !! n = Some s /\ ~ P (n, s) /\ cs_conn s = Some c) ->
  router_ok config r'.
Proof.
  intros [Hb Hc] Hn Hcl Hclosed.
  assert (Hlook : forall n, rt_clients r' !! n = s ← rt_clients r !! n; if decide (P (n, s)) then Some s else None).
  { intros n. rewrite Hcl, map_lookup_filter. destruct (rt_clients r !! n); [|done]. cbn. by repeat case_guard || case_decide. }
  split.
  - intros n s. rewrite Hlook. destruct (rt_clients r !! n) eqn:E; [|done]. cbn. case_decide; [|done]. intros [= <-]. by apply (Hb n).
  - apply (conns_ok_drop r); [done|done| |].
    + intros n. unfold conn_of. rewrite Hlook. destruct (rt_clients r !! n); [|by right]. cbn. case_decide; [by right|by left].
    + intros c. rewrite Hclosed. split; (intros [?|Hx]; [by left|right]).
      * destruct Hx as (n & s & Hs & HP & Hsc). exists n. unfold conn_of. rewrite Hlook, Hs. cbn. by rewrite decide_False.
      * destruct Hx as (n & Hsome & Hnone). unfold conn_of in *. rewrite Hlook in Hnone. destruct (rt_clients r !! n) as [s|] eqn:E; [|done].
        cbn in *. exists n, s. split_and!; [done| |done]. intros HP. rewrite decide_True in Hnone by done. cbn in Hnone. congruence.
Qed.

Lemma filter_ne_delete id (m : gmap bytes clientState) : delete id m = filter (fun x => x.1 <> id) m.
Proof.
  apply map_eq. intros n. apply option_eq. intros s. rewrite lookup_delete_Some, map_lookup_filter_Some. cbn. naive_solver.
Qed.

Lemma RemoveClient_ok id r : router_ok config r -> router_ok config (RemoveClient id r).2.
Proof.
  intros Hr. unfold RemoveClient. destruct (rt_clients r !! id) as [s|] eqn:E; [|done]. cbn.
  apply (router_ok_keep (fun x => x.1 <> id) r); [done|by destruct (cs_conn s)| |].
  - by destruct (cs_conn s); cbn; rewrite filter_ne_delete.
  - intros c. transitivity (cs_conn s = Some c \/ c ∈ rt_closed r).
    + destruct (cs_conn s); cbn; [|naive_solver]. set_solver.
    + split; [intros [?|?]; [right; exists id, s; split_and!; cbn; naive_solver|by left]|].
      intros [?|(n & s' & Hs & Hne & Hc)]; [by right|]. left. cbn in Hne. destruct (decide (n = id)) as [->|]; [congruence|done].
Qed.

Lemma RefreshConnections_ok active r : router_ok config r -> router_ok config (RefreshConnections active r).2.
Proof.
  intros Hr. unfold RefreshConnections. cbn. set (act := fun n => bool_decide (n ∈ ni_ID <$> active)).
  apply (router_ok_keep (fun x => act x.1 = true) r); [done|done|done|].
  intros c. cbn. rewrite elem_of_union, elem_of_conns. split.
  - intros [(n & s & [Hs Ha]%map_lookup_filter_Some & Hc)|?]; [|by left]. right. exists n, s. split_and!; [done| |done].
    cbn. unfold act in *. intros Ht. cbn in Ha. congruence.
  - intros [?|(n & s & Hs & Ha & Hc)]; [by right|]. left. exists n, s. split; [|done]. apply map_lookup_filter_Some. split; [done|]. cbn in *. unfold act in *.
    by destruct (bool_decide _).
Qed.

Lemma Close_ok r : router_ok config r -> router_ok config (Close r).2.
Proof.
  intros Hr. apply (router_ok_keep (fun _ => False) r); [done|done| |].
  - cbn. symmetry. apply map_empty. intros n. apply map_lookup_filter_None. right. intros x Hx [].
  - intros c. cbn. rewrite elem_of_union, elem_of_conns. split; [intros [(n & s & Hs & Hc)|?]|intros [?|(n & s & Hs & _ & Hc)]]; eauto 10.
Qed.

(** Whatever routings, lookups of clients, removals, refreshes and closings run, with
    whatever the ring answers each time, the breakers stay consistent (a closed one has
    fewer failures than the threshold, an open one has its opening time), every
    registered connection is open and belongs to one node, and every connection ever
    made is closed or registered. *)
Theorem router_invariant ops :
  1 <= CircuitBreakerThreshold config < two31 -> 0 < InitialRetryBackoff config <= MaxRetryBackoff config ->
  router_ok config (run_ops ops).
Proof.
  intros HT Hb. unfold run_ops. generalize (router_ok_new config HT). generalize NewRouterWithConfig.
  induction ops as [|[v op] ops IH]; intros r Hr; [exact Hr|]. cbn. apply IH. unfold run_op. cbn [fst snd].
  destruct op as [key n|id|id| |]; auto using RemoveClient_ok, RefreshConnections_ok, Close_ok.
  - by apply (routeWithRetry_spec env config (view_all v) HT localID (view_GetNode v) key n r Hb Hr).
  - unfold GetClientForNode. case_decide; [done|]. by apply (getClient_spec env config (view_all v) HT id r Hr).
Qed.

End Histories.

(** ** A dead node *)

Section DeadNode.

Context (env : RouterEnv) (config : RouterConfig) (ring_GetAllNodes : list NodeInfo) (n : bytes).
Context (Hthreshold : 1 <= CircuitBreakerThreshold config < two31).
Notation addr := (node_addr ring_GetAllNodes n).
(** The node is in the ring, no dial of it succeeds, no caller gives up, and the breaker's
    timeout does not pass. *)
Context (Haddr : addr <> EmptyString).
Context (Hdead : forall t, is_Some (re_dial env t addr)).
Context (Hpatient : forall t, re_done env t = None).
Context (Hwindow : forall t1 t2, re_now env t2 - re_now env t1 <= CircuitBreakerTimeout config).

(** The node's state after [k] failed calls. *)
Definition after_failures (k : nat) (s : clientState) : Prop :=
  cs_conn s = None /\ failureCount s = Z.min (Z.of_nat k) (CircuitBreakerThreshold config) /\
  circuitOpen s = (CircuitBreakerThreshold config <=? Z.of_nat k) /\
  (circuitOpen s = true -> exists t, circuitOpenTime s = Some (re_now env t)).

Definition dead_state (k : nat) (r : Router) : Prop :=
  match rt_clients r !! n with Some s => after_failures k s | None => k = 0%nat end.

Lemma after_failures_new : after_failures 0 newClientState.
Proof. unfold after_failures. cbn. split_and!; [done|lia| |done]. symmetry. apply Z.leb_gt. lia. Qed.

(** Checking the node's health leaves its state alone: open within the timeout, or closed
    and without a connection. *)
Lemma dead_health k s r :
  after_failures k s ->
  exists e r', getConnectionHealth env config n s r = ((Some e, s), r') /\
    rt_clients r' = rt_clients r /\ rt_dials r' = rt_dials r /\
    is_router e ErrCircuitBreakerOpen = (CircuitBreakerThreshold config <=? Z.of_nat k).
Proof.
  intros (Hc & Hf & Ho & Ht). unfold getConnectionHealth, isCircuitOpen. rewrite <- Ho. destruct (circuitOpen s) eqn:E; cbn [negb].
  - destruct (Ht eq_refl) as [t Et]. unfold mbind, ST_bind, mret, ST_ret, now_. cbn. rewrite Et. unfold since, sat64.
    pose proof (Hwindow t (rt_tick r)). pose proof (Hwindow t t). rewrite (proj2 (Z.ltb_ge _ _)) by (unfold two63; lia).
    eexists _, (router_tick r). split_and!; [done..|]. cbn. by rewrite bool_decide_eq_true_2.
  - unfold mbind, ST_bind, mret, ST_ret. rewrite Hc. eexists _, r. split_and!; done.
Qed.

(** Recording one more failure. *)
Lemma dead_record k s r :
  after_failures k s -> Z.of_nat k < CircuitBreakerThreshold config ->
  wp (recordFailureAndOpenCircuit env config n s) (fun _ r' => dead_state (S k) r' /\ rt_dials r' = rt_dials r) r.
Proof.
  intros (Hc & Hf & Ho & Ht) Hk. rewrite (proj2 (Z.leb_gt _ _)) in Ho by lia. unfold recordFailureAndOpenCircuit. apply wp_bind, wp_fun. cbn.
  replace (i32 (failureCount s + 1)) with (Z.of_nat (S k)) by (rewrite Hf, Z.min_l by lia; int_solve).
  replace (i32 (CircuitBreakerThreshold config)) with (CircuitBreakerThreshold config) by int_solve. rewrite Ho, andb_true_r.
  destruct (_ <=? _) eqn:E; bool_facts; repeat apply wp_bind, wp_fun; apply wp_ret; cbn; (split; [|done]);
    unfold dead_state; cbn; simplify_map_eq; unfold after_failures; cbn; rewrite ?Ho; (split_and!; [done|lia| |eauto]); symmetry;
    [by apply Z.leb_le|by apply Z.leb_gt].
Qed.

(** One call: a dial that fails, or the open breaker's refusal. *)
Lemma dead_slow k s r :
  after_failures k s -> Z.of_nat k < CircuitBreakerThreshold config ->
  wp (slow_client env config ring_GetAllNodes n s) (fun res r' =>
    (exists e, res = inl e) /\ dead_state (S k) r' /\ rt_dials r' = addr :: rt_dials r) r.
Proof.
  intros Hs Hk. unfold slow_client. apply wp_bind, wp_fun. cbn. apply wp_bind, wp_fun. cbn. rewrite Hpatient.
  apply wp_bind. set (r1 := router_tick _). destruct (dead_health k s r1 Hs) as (e & r2 & E & Hcl & Hdi & He). unfold wp at 1. rewrite E. cbn.
  rewrite He, (proj2 (Z.leb_gt _ _)) by lia. rewrite decide_False by done.
  unfold dial_client. apply wp_bind. unfold createConnection. destruct (Hdead (rt_tick r2)) as [e' Ed]. unfold wp at 1. rewrite Ed. cbn.
  apply wp_bind, wp_fun. cbn. rewrite Hpatient. apply wp_bind. eapply wp_mono; [by apply dead_record|].
  intros ? r3 [Hd Hdi']. apply wp_ret. cbn in *. rewrite Hdi', Hdi. eauto.
Qed.

Lemma dead_call k r :
  dead_state k r ->
  wp (getClient env config ring_GetAllNodes n) (fun res r' =>
    (exists e, res = inl e) /\ dead_state (S k) r' /\
    rt_dials r' = replicate (if Z.of_nat k <? CircuitBreakerThreshold config then 1 else 0) addr ++ rt_dials r) r.
Proof.
  intros Hs. unfold getClient. apply wp_bind, wp_fun. cbn. unfold dead_state in Hs. destruct (rt_clients r !! n) as [s|] eqn:Es.
  - apply wp_bind. destruct (dead_health k s r Hs) as (e & r2 & E & Hcl & Hdi & He). unfold wp at 1. rewrite E. cbn. rewrite He.
    destruct (_ <=? _) eqn:Ek; bool_facts.
    + apply wp_ret. rewrite (proj2 (Z.ltb_ge _ _)) by lia. split_and!; [eauto| |done]. unfold dead_state. rewrite Hcl, Es.
      destruct Hs as (? & Hf & Ho & Ht). split_and!; [done|lia| |done]. rewrite Ho. transitivity true; [|symmetry]; apply Z.leb_le; lia.
    + rewrite (proj2 (Z.ltb_lt _ _)) by lia. eapply wp_mono; [by apply (dead_slow k)|]. cbn. intros res r3 (He' & Hd & Hdi'). by rewrite Hdi', Hdi.
  - subst k. rewrite (proj2 (Z.ltb_lt _ _)) by lia. apply dead_slow; [apply after_failures_new|cbn; lia].
Qed.

(** [m] calls in a row, with their results. *)
Fixpoint calls (m : nat) (r : Router) : list (route_error + nat) * Router :=
  match m with
  | O => ([], r)
  | S m => let '(res, r) := getClient env config ring_GetAllNodes n r in let '(l, r) := calls m r in (res :: l, r)
  end.

Lemma dead_calls m k r :
  dead_state k r ->
  Forall (fun res => exists e, res = inl e) (calls m r).1 /\
  rt_dials (calls m r).2 = replicate (Z.to_nat (Z.min (Z.of_nat m) (Z.max 0 (CircuitBreakerThreshold config - Z.of_nat k)))) addr ++ rt_dials r.
Proof.
  revert k r. induction m as [|m IH]; intros k r Hk; cbn [calls].
  { cbn. rewrite Z.min_l by lia. done. }
  pose proof (dead_call k r Hk) as Hc. unfold wp in Hc. destruct (getClient _ _ _ _ r) as [res r1]. cbn in Hc. destruct Hc as (He & Hs & Hd).
  destruct (IH (S k) r1 Hs) as [Hall Hdi]. destruct (calls m r1) as [l r2]. cbn in *. split; [by constructor|].
  rewrite Hdi, Hd, app_assoc, <- replicate_add. f_equal. f_equal. case_match; bool_facts; lia.
Qed.

(** While a node is dead (every dial of it fails) and the breaker's timeout has not
    passed, however many clients are asked for, every one is refused and the node is
    dialed exactly until the breaker opens: [min (m, CircuitBreakerThreshold)] times. *)
Theorem dead_node_dials m :
  Forall (fun res => exists e, res = inl e) (calls m NewRouterWithConfig).1 /\
  rt_dials (calls m NewRouterWithConfig).2 = replicate (Z.to_nat (Z.min (Z.of_nat m) (CircuitBreakerThreshold config))) addr.
Proof.
  destruct (dead_calls m 0 NewRouterWithConfig) as [H1 H2]; [done|]. split; [done|]. rewrite H2, app_nil_r. f_equal. lia.
Qed.

End DeadNode.

(** ** Concrete runs of the router *)

Module Runs.

Definition nodeA : NodeInfo := MkNode "a" "10.0.0.1:7946" "10.0.0.1:9000" NodeStatusActive 0 true.
Definition nodeB : NodeInfo := MkNode "b" "10.0.0.2:7946" "10.0.0.2:9000" NodeStatusActive 0 true.
Definition nodes : list NodeInfo := [nodeA; nodeB].
Definition owner (key : bytes) : error + NodeInfo := inr nodeB.

(** Dials that fail until tick 20, on a clock of one millisecond per tick up to a second. *)
Definition env1 : RouterEnv :=
  MkRouterEnv (fun t => 1000000 * Z.of_nat (t `min` 1000)) (fun _ _ => Ready)
    (fun t _ => if decide (t < 20)%nat then Some (StatusError Unavailable) else None) (fun _ => None) (fun t => Z.of_nat t).
Definition env_dead : RouterEnv :=
  MkRouterEnv (fun t => 1000000 * Z.of_nat (t `min` 1000)) (fun _ _ => Ready)
    (fun _ _ => Some (StatusError Unavailable)) (fun _ => None) (fun t => Z.of_nat t).

(** The owner is reached at the fourth attempt, after waits of 50, 100 and 200 ms. *)
Lemma routing_bounded_witness :
  let run := routeWithRetry env1 DefaultRouterConfig "a" owner nodes "k" 3 NewRouterWithConfig in
  run.1 = inr 0%nat /\ length (rt_dials run.2) = 4%nat /\ rt_waits run.2 = [200000019; 100000012; 50000005] /\
  routed DefaultRouterConfig "a" owner "k" 3 NewRouterWithConfig run.1 run.2.
Proof.
  split; [vm_compute; reflexivity|]. split; [vm_compute; reflexivity|]. split; [vm_compute; reflexivity|].
  pose proof (routing_bounded env1 DefaultRouterConfig nodes ltac:(cbn; unfold two31; lia) "a" owner "k" 3 NewRouterWithConfig
    ltac:(cbn; lia) (router_ok_new DefaultRouterConfig ltac:(cbn; unfold two31; lia))) as H.
  destruct (routeWithRetry env1 DefaultRouterConfig "a" owner nodes "k" 3 NewRouterWithConfig). exact H.
Defined.

(** A routing, a second client, a removal, a refresh that finds only [a] active, and a
    closing. *)
Definition history : list (RingView * router_op) :=
  (fun op => (MkView owner nodes [nodeA], op)) <$> [OpRoute "k" 3; OpRemove "b"; OpClient "b"; OpRefresh; OpClient "b"; OpClose].

Lemma router_invariant_witness :
  rt_next (run_ops env1 DefaultRouterConfig "a" history) = 3%nat /\
  router_ok DefaultRouterConfig (run_ops env1 DefaultRouterConfig "a" history).
Proof.
  split; [vm_compute; reflexivity|]. apply (router_invariant env1 DefaultRouterConfig "a" history); cbn; unfold two31; lia.
Defined.

(** Nine calls to a dead node dial it five times. *)
Lemma dead_node_dials_witness :
  Forall (fun res => exists e, res = inl e) (calls env_dead DefaultRouterConfig nodes "b" 9 NewRouterWithConfig).1 /\
  rt_dials (calls env_dead DefaultRouterConfig nodes "b" 9 NewRouterWithConfig).2 = replicate 5 "10.0.0.2:9000".
Proof.
  apply (dead_node_dials env_dead DefaultRouterConfig nodes "b").
  - cbn. unfold two31. lia.
  - done.
  - intros t. cbn. eauto.
  - done.
  - intros t1 t2. cbn. lia.
Defined.

End Runs.
