(* ===== verification/RouterRace.v ===== *)
(** * The router under concurrency (coordinator/router.go)

    [getClient] runs beside itself and beside [RemoveClient], [RefreshConnections] and
    [Close]. The step relation interleaves any number of calls at the granularity of the
    router's lock, the states' locks, the dial slots and the closing of connections; what
    the environment decides (health of a connection, the breaker, dials, callers that
    give up) is left open, so every outcome is a step.

    Module Breaker has the accesses of [isCircuitOpen] and
    [recordFailureAndOpenCircuit] to one state. *)

From S2P Require Import Prelude Keys Errors Ring Router.

Open Scope Z_scope.

Module Conns.

(** Where a call stands. A dropper holds the router's lock from its first step to its
    last. *)
Inductive conn_pc :=
  | GLookup (n : bytes)                                     (** getClient called *)
  | GFast (n : bytes) (state : nat)                         (** fast path, checking the state *)
  | GRegister (n : bytes)                                   (** slow path, registering *)
  | GSem (n : bytes) (state : nat)                          (** waiting for the dial slot *)
  | GHeld (n : bytes) (state : nat)                         (** slot held, checking again *)
  | GDial (n : bytes) (state : nat)
  | GStore (n : bytes) (state conn : nat)                   (** dialed, not stored *)
  | GCloseOld (n : bytes) (state conn : nat) (old : option nat)
  | GCurrent (n : bytes) (state conn : nat)                 (** is the state still registered? *)
  | GCloseNew (n : bytes) (state conn : nat)                (** it is not *)
  | DNext (todo : list bytes)                               (** RemoveClient, RefreshConnections *)
  | DClose (n : bytes) (conn : option nat) (todo : list bytes)
  | DDelete (n : bytes) (todo : list bytes)
  | SNext (todo : list bytes)                               (** Close *)
  | SClose (n : bytes) (conn : option nat) (todo : list bytes).

Record rstate := MkR {
  clients : gmap bytes nat;       (** the registered state of a node *)
  conn : gmap nat nat;            (** the connection of a state *)
  dialSem : gmap nat nat;         (** the call holding a state's slot *)
  mu : option nat;                (** the dropper holding the router's lock *)
  next_state : nat;
  next_conn : nat;
  closed : gset nat;
  calls : gmap nat conn_pc
}.

Definition init : rstate := MkR ∅ ∅ ∅ None 0 0 ∅ ∅.

Definition goto (t : nat) (p : conn_pc) (s : rstate) : rstate :=
  MkR (clients s) (conn s) (dialSem s) (mu s) (next_state s) (next_conn s) (closed s) (<[t := p]> (calls s)).
Definition return_ (t : nat) (s : rstate) : rstate :=
  MkR (clients s) (conn s) (dialSem s) (mu s) (next_state s) (next_conn s) (closed s) (delete t (calls s)).
Definition with_clients c (s : rstate) : rstate :=
  MkR c (conn s) (dialSem s) (mu s) (next_state s) (next_conn s) (closed s) (calls s).
Definition with_mu m (s : rstate) : rstate :=
  MkR (clients s) (conn s) (dialSem s) m (next_state s) (next_conn s) (closed s) (calls s).
Definition acquire (state t : nat) (s : rstate) : rstate :=
  MkR (clients s) (conn s) (<[state := t]> (dialSem s)) (mu s) (next_state s) (next_conn s) (closed s) (calls s).
Definition release (state : nat) (s : rstate) : rstate :=
  MkR (clients s) (conn s) (delete state (dialSem s)) (mu s) (next_state s) (next_conn s) (closed s) (calls s).
Definition new_state (n : bytes) (s : rstate) : rstate :=
  MkR (<[n := next_state s]> (clients s)) (conn s) (dialSem s) (mu s) (S (next_state s)) (next_conn s) (closed s) (calls s).
Definition new_conn (s : rstate) : rstate :=
  MkR (clients s) (conn s) (dialSem s) (mu s) (next_state s) (S (next_conn s)) (closed s) (calls s).
Definition store (state c : nat) (s : rstate) : rstate :=
  MkR (clients s) (<[state := c]> (conn s)) (dialSem s) (mu s) (next_state s) (next_conn s) (closed s) (calls s).
Definition close (c : option nat) (s : rstate) : rstate :=
  MkR (clients s) (conn s) (dialSem s) (mu s) (next_state s) (next_conn s)
    (match c with Some c => {[c]} ∪ closed s | None => closed s end) (calls s).

Inductive conn_step (s : rstate) : rstate -> Prop :=
  | r_call t n : calls s !! t = None -> conn_step s (goto t (GLookup n) s)
  | r_lookup t n : calls s !! t = Some (GLookup n) -> mu s = None ->
      conn_step s (goto t (match clients s !! n with Some st => GFast n st | None => GRegister n end) s)
  | r_fast_return t n st : calls s !! t = Some (GFast n st) -> conn_step s (return_ t s)
  | r_fast_slow t n st : calls s !! t = Some (GFast n st) -> conn_step s (goto t (GRegister n) s)
  | r_registered t n st : calls s !! t = Some (GRegister n) -> mu s = None -> clients s !! n = Some st ->
      conn_step s (goto t (GSem n st) s)
  | r_register t n : calls s !! t = Some (GRegister n) -> mu s = None -> clients s !! n = None ->
      conn_step s (goto t (GSem n (next_state s)) (new_state n s))
  | r_sem t n st : calls s !! t = Some (GSem n st) -> dialSem s !! st = None -> conn_step s (goto t (GHeld n st) (acquire st t s))
  | r_give_up t n st : calls s !! t = Some (GSem n st) -> conn_step s (return_ t s)
  | r_held_return t n st : calls s !! t = Some (GHeld n st) -> conn_step s (return_ t (release st s))
  | r_held_dial t n st : calls s !! t = Some (GHeld n st) -> conn_step s (goto t (GDial n st) s)
  | r_dial_failed t n st : calls s !! t = Some (GDial n st) -> conn_step s (return_ t (release st s))
  | r_dialed t n st : calls s !! t = Some (GDial n st) -> conn_step s (goto t (GStore n st (next_conn s)) (new_conn s))
  | r_store t n st c : calls s !! t = Some (GStore n st c) -> conn_step s (goto t (GCloseOld n st c (conn s !! st)) (store st c s))
  | r_close_old t n st c old : calls s !! t = Some (GCloseOld n st c old) -> conn_step s (goto t (GCurrent n st c) (close old s))
  | r_current t n st c : calls s !! t = Some (GCurrent n st c) -> mu s = None -> clients s !! n = Some st ->
      conn_step s (return_ t (release st s))
  | r_dropped t n st c : calls s !! t = Some (GCurrent n st c) -> mu s = None -> clients s !! n <> Some st ->
      conn_step s (goto t (GCloseNew n st c) s)
  | r_close_new t n st c : calls s !! t = Some (GCloseNew n st c) -> conn_step s (return_ t (release st (close (Some c) s)))
  | r_drop t todo : calls s !! t = None -> mu s = None -> conn_step s (goto t (DNext todo) (with_mu (Some t) s))
  | r_drop_absent t n todo : calls s !! t = Some (DNext (n :: todo)) -> clients s !! n = None -> conn_step s (goto t (DNext todo) s)
  | r_drop_read t n todo st : calls s !! t = Some (DNext (n :: todo)) -> clients s !! n = Some st ->
      conn_step s (goto t (DClose n (conn s !! st) todo) s)
  | r_drop_close t n c todo : calls s !! t = Some (DClose n c todo) -> conn_step s (goto t (DDelete n todo) (close c s))
  | r_drop_delete t n todo : calls s !! t = Some (DDelete n todo) ->
      conn_step s (goto t (DNext todo) (with_clients (delete n (clients s)) s))
  | r_drop_done t : calls s !! t = Some (DNext []) -> conn_step s (return_ t (with_mu None s))
  | r_sweep t todo : calls s !! t = None -> mu s = None -> todo ≡ₚ (map_to_list (clients s)).*1 ->
      conn_step s (goto t (SNext todo) (with_mu (Some t) s))
  | r_sweep_read t n todo st : calls s !! t = Some (SNext (n :: todo)) -> clients s !! n = Some st ->
      conn_step s (goto t (SClose n (conn s !! st) todo) s)
  | r_sweep_close t n c todo : calls s !! t = Some (SClose n c todo) -> conn_step s (goto t (SNext todo) (close c s))
  | r_sweep_done t : calls s !! t = Some (SNext []) -> conn_step s (return_ t (with_mu None (with_clients ∅ s))).

(** ** The invariant *)

(** A call that has stored [c] in [state] and has yet to find the state registered. *)
Definition pending (p : conn_pc) (st c : nat) : Prop :=
  match p with GCloseOld _ st' c' _ | GCurrent _ st' c' | GCloseNew _ st' c' => st = st' /\ c = c' | _ => False end.

(** The connections a call will close or leave registered. *)
Definition owes (p : conn_pc) (c : nat) : Prop :=
  match p with
  | GStore _ _ c' | GCurrent _ _ c' | GCloseNew _ _ c' => c = c'
  | GCloseOld _ _ c' old => c = c' \/ old = Some c
  | _ => False
  end.

(** A dropper may forget this state: its connection is closed or pending. *)
Definition covered (s : rstate) (st : nat) : Prop :=
  forall c, conn s !! st = Some c -> c ∈ closed s \/ exists t p, calls s !! t = Some p /\ pending p st c.

Definition pc_ok (s : rstate) (t : nat) (p : conn_pc) : Prop :=
  match p with
  | GHeld _ st | GDial _ st | GStore _ st _ => dialSem s !! st = Some t
  | GCloseOld _ st c _ | GCurrent _ st c | GCloseNew _ st c => dialSem s !! st = Some t /\ conn s !! st = Some c
  | DNext _ => mu s = Some t
  | DClose n c _ => mu s = Some t /\ forall st, clients s !! n = Some st -> conn s !! st = c \/ covered s st
  | DDelete n _ => mu s = Some t /\ forall st, clients s !! n = Some st -> covered s st
  | SNext todo => mu s = Some t /\ forall n st, clients s !! n = Some st -> n ∈ todo \/ covered s st
  | SClose n c todo =>
      mu s = Some t /\ (forall st, clients s !! n = Some st -> conn s !! st = c \/ covered s st) /\
      forall n' st, clients s !! n' = Some st -> n' = n \/ n' ∈ todo \/ covered s st
  | _ => True
  end.

(** Every connection made is closed, registered or owed H. *)
Definition accounted (s : rstate) (c : nat) : Prop :=
  c ∈ closed s \/ (exists n st, clients s !! n = Some st /\ conn s !! st = Some c) \/ (exists t p, calls s !! t = Some p /\ owes p c).

Record inv (s : rstate) : Prop := {
  inv_pc : map_Forall (pc_ok s) (calls s);
  inv_accounted : forall c, (c < next_conn s)%nat -> accounted s c
}.

(** What a step of call [t] leaves the others: a dropper's lock and the clients with it,
    the slots they hold, and what a dropper has covered. *)
Record keeps (s s' : rstate) (t : nat) : Prop := {
  keeps_mu : forall t', t' <> t -> mu s = Some t' -> mu s' = Some t' /\ clients s' = clients s;
  keeps_sem : forall t' st, t' <> t -> dialSem s !! st = Some t' -> dialSem s' !! st = Some t' /\ conn s' !! st = conn s !! st;
  keeps_covered : forall t' st, t' <> t -> mu s = Some t' ->
    (covered s st -> covered s' st) /\ (conn s' !! st = conn s !! st \/ covered s' st)
}.

Lemma keeps_conn_pc s s' t t' p : keeps s s' t -> t' <> t -> pc_ok s t' p -> pc_ok s' t' p.
Proof.
  intros [Hmu Hsem Hcov] Hne. destruct p; cbn; try done.
  1-3: intros H1; by destruct (Hsem _ _ Hne H1).
  1-3: intros [H1 H2]; by destruct (Hsem _ _ Hne H1) as [-> ->].
  - intros H1; by destruct (Hmu _ Hne H1).
  - intros [H1 H2]. destruct (Hmu _ Hne H1) as [-> ->]. split; [done|]. intros st Hst.
    destruct (Hcov t' st Hne H1) as [Hc1 [Hc2|Hc2]]; [|by right]. destruct (H2 st Hst) as [<-|?]; auto.
  - intros [H1 H2]. destruct (Hmu _ Hne H1) as [-> ->]. split; [done|]. intros st Hst. by apply (Hcov t' st Hne H1), H2.
  - intros [H1 H2]. destruct (Hmu _ Hne H1) as [-> ->]. split; [done|]. intros n st Hst.
    destruct (H2 n st Hst); [by left|right]. by apply (Hcov t' st Hne H1).
  - intros (H1 & H2 & H3). destruct (Hmu _ Hne H1) as [-> ->]. split_and!; [done| |].
    + intros st Hst. destruct (Hcov t' st Hne H1) as [Hc1 [Hc2|Hc2]]; [|by right]. destruct (H2 st Hst) as [<-|?]; auto.
    + intros n' st Hst. destruct (H3 n' st Hst) as [?|[?|?]]; auto. right. right. by apply (Hcov t' st Hne H1).
Qed.

(** The conditions a step of [t] has to meet for [keeps]. *)
Lemma keeps_intro s s' t :
  (forall t', t' <> t -> calls s' !! t' = calls s !! t') ->
  (mu s' = mu s /\ clients s' = clients s) \/ mu s = None \/ mu s = Some t ->
  (forall st, dialSem s' !! st = dialSem s !! st \/ dialSem s !! st = None \/ dialSem s !! st = Some t) ->
  (forall st, conn s' !! st = conn s !! st \/
     dialSem s !! st = Some t /\ exists p, calls s' !! t = Some p /\ forall c, conn s' !! st = Some c -> pending p st c) ->
  closed s ⊆ closed s' ->
  (forall p st c, calls s !! t = Some p -> pending p st c ->
     mu s = None \/ c ∈ closed s' \/ exists p', calls s' !! t = Some p' /\ pending p' st c) ->
  keeps s s' t.
Proof.
  intros Hcalls Hmu Hsem Hconn Hcl Hpend.
  assert (Hcov : forall st, mu s <> None -> covered s st -> covered s' st).
  { intros st Hm Hs c Hc. destruct (Hconn st) as [E|(_ & p & Ep & Hp)]; [|right; exists t, p; auto].
    rewrite E in Hc. destruct (Hs c Hc) as [?|(t1 & p & Et & Hp)]; [left; set_solver|].
    destruct (decide (t1 = t)) as [->|Hne]; [|right; exists t1, p; by rewrite Hcalls].
    destruct (Hpend p st c Et Hp) as [?|[?|(p' & ? & ?)]]; [done|by left|right; eauto]. }
  split.
  - intros t' Hne Ht'. destruct Hmu as [[-> ->]|[?|?]]; [done|congruence..].
  - intros t' st Hne Ht'. split; [destruct (Hsem st) as [->|[?|?]]; congruence|]. destruct (Hconn st) as [->|[? _]]; [done|congruence].
  - intros t' st Hne Ht'. split; [apply Hcov; congruence|]. destruct (Hconn st) as [?|(_ & p & Ep & Hp)]; [by left|].
    right. intros c Hc. right. exists t, p. auto.
Qed.

Lemma inv_intro s s' t :
  inv s -> keeps s s' t -> (forall t', t' <> t -> calls s' !! t' = calls s !! t') ->
  (forall p, calls s' !! t = Some p -> pc_ok s' t p) ->
  closed s ⊆ closed s' ->
  (forall c, (c < next_conn s')%nat -> (c < next_conn s)%nat \/ accounted s' c) ->
  (forall n st c, clients s !! n = Some st -> conn s !! st = Some c -> accounted s' c) ->
  (forall p c, calls s !! t = Some p -> owes p c -> accounted s' c) -> inv s'.
Proof.
  intros [Hpc Hacc] Hk Hcalls Hp Hcl Hnew Hreg Hown. split.
  - intros t' p. destruct (decide (t' = t)) as [->|Hne]; [apply Hp|]. rewrite Hcalls by done. intros Ht'. eapply keeps_conn_pc; [done|done|]. by apply Hpc.
  - intros c Hc. destruct (Hnew c Hc) as [Hc'|?]; [|done]. destruct (Hacc c Hc') as [?|[(n & st & ? & ?)|(t' & p & Et & Ho)]].
    + left. set_solver.
    + eauto.
    + destruct (decide (t' = t)) as [->|Hne]; [eauto|]. right. right. exists t', p. by rewrite Hcalls.
Qed.

(** The accounts that need no thought. *)
Lemma accounted_reg s n st c : clients s !! n = Some st -> conn s !! st = Some c -> accounted s c.
Proof. intros. right. left. eauto. Qed.
Lemma accounted_owed s t p c : calls s !! t = Some p -> owes p c -> accounted s c.
Proof. intros. right. right. eauto. Qed.
Lemma accounted_closed s c : c ∈ closed s -> accounted s c.
Proof. by left. Qed.
#[local] Hint Resolve accounted_reg accounted_owed accounted_closed : conns.

Ltac others := intros t' ?; cbn; by simplify_map_eq.
Ltac slots st := let st' := fresh in intros st'; destruct (decide (st' = st)) as [->|]; simplify_map_eq; auto.
Ltac grows := by (done || set_solver || (case_match; set_solver)).

(** Steps of a dropper: what it covered stays covered, what it closed is covered. *)
Lemma covered_move s s' t st :
  conn s' = conn s -> closed s ⊆ closed s' -> (forall t', t' <> t -> calls s' !! t' = calls s !! t') ->
  (forall p c, calls s !! t = Some p -> ~ pending p st c) -> covered s st -> covered s' st.
Proof.
  intros Hc Hcl Hcalls Hp Hs c. rewrite Hc. intros [?|(t' & p & Et & Hpe)]%Hs; [left; set_solver|]. right. exists t', p.
  destruct (decide (t' = t)) as [->|]; [by destruct (Hp p c)|]. by rewrite Hcalls.
Qed.

Lemma covered_close s t p st c : conn s !! st = c -> covered (goto t p (close c s)) st.
Proof. intros Hc c' Hc'. cbn in *. left. rewrite Hc' in Hc. subst. set_solver. Qed.

Lemma pending_owes p st c : pending p st c -> owes p c.
Proof. destruct p; cbn; naive_solver. Qed.

Lemma covered_accounted s s' t st c :
  covered s st -> conn s !! st = Some c -> closed s ⊆ closed s' -> (forall t', t' <> t -> calls s' !! t' = calls s !! t') ->
  (forall p, calls s !! t = Some p -> ~ pending p st c) -> accounted s' c.
Proof.
  intros Hs Hc Hcl Hcalls Hp. destruct (Hs c Hc) as [?|(t' & p & Et & Hpe)]; [left; set_solver|].
  destruct (decide (t' = t)) as [->|]; [by destruct (Hp p)|]. right. right. exists t', p. rewrite Hcalls by done. eauto using pending_owes.
Qed.

(** The premises of [inv_intro] and [keeps_intro] for a step of [t] that concerns the state
    [st], with the routine ones closed. *)
Ltac keeps_step s t st :=
  apply (keeps_intro s _ t); cbn;
  [others
  |first [by left | by right; left | by right; right | idtac]
  |first [by left | by slots st | idtac]
  |first [by left | idtac]
  |first [grows | idtac]
  |first [by intros; simplify_map_eq | by intros; left | by intros; simplify_map_eq; eauto | idtac]].
Ltac conns_step s t st :=
  apply (inv_intro s _ t);
  [done
  |keeps_step s t st
  |others
  |cbn; first [by intros; simplify_map_eq | idtac]
  |cbn; first [grows | idtac]
  |cbn; first [by left | idtac]
  |cbn; first [by eauto with conns | idtac]
  |cbn; first [by intros; simplify_map_eq | idtac]].

Ltac at_pc := intros ? Hpc; simplify_map_eq; cbn.
Ltac idle := cbn; intros; intros ?; by simplify_map_eq.
Ltac owed Ht := let Hc := fresh in intros ? ? Hc Ho; rewrite Ht in Hc; injection Hc as <-; cbn in Ho.

Lemma inv_step s s' : inv s -> conn_step s s' -> inv s'.
Proof.
  intros Hinv Hst. destruct Hst; try (pose proof (inv_pc s Hinv _ _ H) as P; cbn in P); destruct_and?.
  - conns_step s t t.
  - conns_step s t t. at_pc. by destruct (clients s !! n).
  - conns_step s t t.
  - conns_step s t t.
  - conns_step s t t.
  - conns_step s t t. intros n' st' c Hn' Hc. apply (accounted_reg _ n' st'); cbn; [|done]. rewrite lookup_insert_ne; [done|]. congruence.
  - conns_step s t st.
  - conns_step s t t.
  - conns_step s t st.
  - conns_step s t t.
  - conns_step s t st.
  - conns_step s t st. intros c Hc. destruct (decide (c = next_conn s)) as [->|]; [right|left; lia].
    eapply (accounted_owed _ t); [apply lookup_insert_eq|done].
  - conns_step s t st.
    + intros st'. destruct (decide (st' = st)) as [->|]; [right|left; by simplify_map_eq]. split; [done|].
      eexists. split; [apply lookup_insert_eq|]. intros c'. rewrite lookup_insert_eq. by intros [= <-].
    + intros n' st' c' Hn' Hc'. destruct (decide (st' = st)) as [->|].
      * eapply (accounted_owed _ t); [apply lookup_insert_eq|]. cbn. by right.
      * apply (accounted_reg _ n' st'); cbn; by simplify_map_eq.
    + owed H. subst. eapply (accounted_owed _ t); [apply lookup_insert_eq|]. by left.
  - conns_step s t st. owed H. destruct Ho as [->|Ho]; [eapply (accounted_owed _ t); [apply lookup_insert_eq|done]|].
    subst. left. cbn. set_solver.
  - conns_step s t st. owed H. subst. by eapply (accounted_reg _ n st).
  - conns_step s t st. owed H. subst. eapply (accounted_owed _ t); [apply lookup_insert_eq|done].
  - conns_step s t st.
    + intros p st' c' Hp Hpe. simplify_map_eq. destruct Hpe as [-> ->]. right. left. set_solver.
    + owed H. subst. left. cbn. set_solver.
  - conns_step s t t.
  - conns_step s t t.
  - conns_step s t t. at_pc. split; [done|]. intros st' Hst'. left. congruence.
  - conns_step s t t. at_pc. split; [done|]. intros st' Hst'. destruct (H1 st' Hst') as [?|?]; [by apply covered_close|].
    eapply (covered_move s); [done|cbn; grows|others|idle|done].
  - conns_step s t t. intros n' st c Hn' Hc. destruct (decide (n' = n)) as [->|].
    + eapply (covered_accounted s _ t st); [auto|done|done|others|idle].
    + apply (accounted_reg _ n' st); cbn; by simplify_map_eq.
  - conns_step s t t.
  - conns_step s t t. at_pc. split; [done|]. intros n st Hn. left. rewrite H1. apply list_elem_of_fmap. exists (n, st). split; [done|].
    by apply elem_of_map_to_list.
  - conns_step s t t. at_pc. split_and!; [done|intros; left; congruence|]. intros n' st' Hn'. destruct (H2 n' st' Hn') as [Hin|?]; [set_solver|].
    right. right. eapply (covered_move s); [done|done|others|idle|done].
  - conns_step s t t. at_pc. split; [done|]. intros n' st' Hn'.
    assert (Hm : covered s st' -> covered (goto t (SNext todo) (close c s)) st').
    { eapply (covered_move s); [done|cbn; grows|others|idle]. }
    destruct (H3 n' st' Hn') as [->|[?|?]]; [|by left|auto]. right. destruct (H2 st' Hn') as [?|?]; [by apply covered_close|auto].
  - conns_step s t t. intros n st c Hn Hc.
    eapply (covered_accounted s _ t st); [|done|done|others|idle].
    destruct (H1 n st Hn) as [Hin|?]; [by apply elem_of_nil in Hin|done].
Qed.

Lemma inv_init : inv init.
Proof. split; cbn; [apply map_Forall_empty|lia]. Qed.

Lemma inv_reachable s : rtc conn_step init s -> inv s.
Proof. apply rtc_ind_r; [apply inv_init|]. intros s1 s2 _ Hst IH. by eapply inv_step. Qed.

(** C24: whatever calls of [getClient], [RemoveClient], [RefreshConnections] and [Close]
    interleave, no connection leaks: every connection ever dialed is closed, or is the
    registered connection of a node, or is owed by a call of [getClient] that has dialed
    and not returned; once no call runs, every connection is closed or registered. And
    dials of one registered state never overlap. *)
Theorem no_connection_leaks s :
  rtc conn_step init s ->
  (forall c, (c < next_conn s)%nat -> accounted s c) /\
  (calls s = ∅ -> forall c, (c < next_conn s)%nat -> c ∈ closed s \/ exists n st, clients s !! n = Some st /\ conn s !! st = Some c) /\
  (forall t1 t2 n1 n2 st, calls s !! t1 = Some (GDial n1 st) -> calls s !! t2 = Some (GDial n2 st) -> t1 = t2).
Proof.
  intros [Hpc Hacc]%inv_reachable. split_and!; [done| |].
  - intros Hq c [?|[?|(t & p & Ht & _)]]%Hacc; [by left|by right|]. by rewrite Hq in Ht.
  - intros t1 t2 n1 n2 st H1%Hpc H2%Hpc. cbn in *. congruence.
Qed.

(** A removal while the dial is in flight: the call closes the connection it made. *)
Lemma no_connection_leaks_witness :
  exists s, rtc conn_step init s /\ next_conn s = 1%nat /\ calls s = ∅ /\ clients s = ∅ /\ closed s = {[0%nat]} /\
    forall c, (c < next_conn s)%nat -> accounted s c.
Proof.
  assert (exists s, rtc conn_step init s /\ next_conn s = 1%nat /\ calls s = ∅ /\ clients s = ∅ /\ closed s = {[0%nat]}) as (s & Hr & H1 & H2 & H3 & H4).
  { eexists. split.
    - eapply rtc_l; [apply (r_call _ 0 "b"); reflexivity|].
      eapply rtc_l; [apply (r_lookup _ 0 "b"); reflexivity|].
      eapply rtc_l; [apply (r_register _ 0 "b"); reflexivity|].
      eapply rtc_l; [apply (r_sem _ 0 "b" 0); reflexivity|].
      eapply rtc_l; [apply (r_held_dial _ 0 "b" 0); reflexivity|].
      eapply rtc_l; [apply (r_drop _ 1 ["b"]); reflexivity|].
      eapply rtc_l; [apply (r_drop_read _ 1 "b" [] 0); reflexivity|].
      eapply rtc_l; [apply (r_dialed _ 0 "b" 0); reflexivity|].
      eapply rtc_l; [apply (r_drop_close _ 1 "b" None []); reflexivity|].
      eapply rtc_l; [apply (r_store _ 0 "b" 0 0); reflexivity|].
      eapply rtc_l; [apply (r_drop_delete _ 1 "b" []); reflexivity|].
      eapply rtc_l; [apply (r_drop_done _ 1); reflexivity|].
      eapply rtc_l; [apply (r_close_old _ 0 "b" 0 0 None); reflexivity|].
      eapply rtc_l; [apply (r_dropped _ 0 "b" 0 0); [reflexivity..|done]|].
      eapply rtc_l; [apply (r_close_new _ 0 "b" 0 0); reflexivity|].
      apply rtc_refl.
    - repeat split; reflexivity. }
  exists s. repeat (split; [done|]). apply (no_connection_leaks s Hr).
Defined.

End Conns.

Module Breaker.

(** Where a call of [isCircuitOpen] or [recordFailureAndOpenCircuit] stands. *)
Inductive breaker_pc :=
  | CLoad                             (** about to load circuitOpen *)
  | CTime                             (** it was 1; about to read circuitOpenTime *)
  | CSince (openTime : option Z)
  | CSwap                             (** the timeout has passed; about to compare-and-swap 1 to 0 *)
  | CReset                            (** swapped; about to reset failureCount *)
  | RAdd                              (** about to count a failure *)
  | RCheck (failures : Z)             (** counted; threshold and compare-and-swap 0 to 1 *)
  | RTime.                            (** swapped; about to store circuitOpenTime *)

Record bstate := MkB {
  failureCount : Z;
  circuitOpen : bool;
  circuitOpenTime : option Z;         (** [None]: the zero time *)
  clock : Z;
  calls : gmap nat breaker_pc
}.

Definition goto t p (s : bstate) := MkB (failureCount s) (circuitOpen s) (circuitOpenTime s) (clock s) (<[t := p]> (calls s)).
Definition return_ t (s : bstate) := MkB (failureCount s) (circuitOpen s) (circuitOpenTime s) (clock s) (delete t (calls s)).
Definition set_failures n (s : bstate) := MkB n (circuitOpen s) (circuitOpenTime s) (clock s) (calls s).
Definition set_open b (s : bstate) := MkB (failureCount s) b (circuitOpenTime s) (clock s) (calls s).
Definition set_time z (s : bstate) := MkB (failureCount s) (circuitOpen s) (Some z) (clock s) (calls s).

Section Breaker.

Context (config : RouterConfig).

Inductive breaker_step (s : bstate) : bstate -> Prop :=
  | b_tick z : clock s <= z -> breaker_step s (MkB (failureCount s) (circuitOpen s) (circuitOpenTime s) z (calls s))
  | b_check t : calls s !! t = None -> breaker_step s (goto t CLoad s)
  | b_closed t : calls s !! t = Some CLoad -> circuitOpen s = false -> breaker_step s (return_ t s)
  | b_open t : calls s !! t = Some CLoad -> circuitOpen s = true -> breaker_step s (goto t CTime s)
  | b_read t : calls s !! t = Some CTime -> breaker_step s (goto t (CSince (circuitOpenTime s)) s)
  | b_expired t o : calls s !! t = Some (CSince o) -> CircuitBreakerTimeout config < since (clock s) o -> breaker_step s (goto t CSwap s)
  | b_refuse t o : calls s !! t = Some (CSince o) -> since (clock s) o <= CircuitBreakerTimeout config -> breaker_step s (return_ t s)
  | b_swap t : calls s !! t = Some CSwap -> circuitOpen s = true -> breaker_step s (goto t CReset (set_open false s))
  | b_swap_lost t : calls s !! t = Some CSwap -> circuitOpen s = false -> breaker_step s (return_ t s)
  | b_reset t : calls s !! t = Some CReset -> breaker_step s (return_ t (set_failures 0 s))
  | b_record t : calls s !! t = None -> breaker_step s (goto t RAdd s)
  | b_add t : calls s !! t = Some RAdd ->
      breaker_step s (goto t (RCheck (i32 (failureCount s + 1))) (set_failures (i32 (failureCount s + 1)) s))
  | b_below t f : calls s !! t = Some (RCheck f) -> f < i32 (CircuitBreakerThreshold config) -> breaker_step s (return_ t s)
  | b_already t f : calls s !! t = Some (RCheck f) -> i32 (CircuitBreakerThreshold config) <= f -> circuitOpen s = true -> breaker_step s (return_ t s)
  | b_opened t f : calls s !! t = Some (RCheck f) -> i32 (CircuitBreakerThreshold config) <= f -> circuitOpen s = false ->
      breaker_step s (goto t RTime (set_open true s))
  | b_time t : calls s !! t = Some RTime -> breaker_step s (return_ t (set_time (clock s) s)).

(** The breaker one failure short of opening for the first time. *)
Definition one_short (now : Z) : bstate := MkB (CircuitBreakerThreshold config - 1) false None now ∅.

(** Recording the failure that reaches the threshold can leave the breaker closed:
    [circuitOpen] is set before [circuitOpenTime], so a concurrent check that runs in
    between measures the timeout from the zero time, closes the breaker and resets the
    failures, at the same instant and long before the timeout. *)
Theorem breaker_opens_too_late now :
  1 <= CircuitBreakerThreshold config < two31 -> CircuitBreakerTimeout config < two63 - 1 ->
  exists s, rtc breaker_step (one_short now) s /\ calls s = ∅ /\ clock s = now /\ circuitOpenTime s = Some now /\
    circuitOpen s = false /\ failureCount s = 0.
Proof.
  intros HT Hto. set (T := CircuitBreakerThreshold config) in *.
  assert (HiT : i32 T = T) by int_solve. assert (Hi : i32 (T - 1 + 1) = T) by int_solve.
  eexists. split.
  - eapply rtc_l; [apply (b_record _ 0); reflexivity|].
    eapply rtc_l; [apply (b_add _ 0); reflexivity|]. cbn. fold T. rewrite Hi.
    eapply rtc_l; [apply (b_opened _ 0 T); [reflexivity|fold T; lia|reflexivity]|].
    eapply rtc_l; [apply (b_check _ 1); reflexivity|].
    eapply rtc_l; [apply (b_open _ 1); reflexivity|].
    eapply rtc_l; [apply (b_read _ 1); reflexivity|].
    eapply rtc_l; [apply (b_expired _ 1 None); [reflexivity|cbn; lia]|].
    eapply rtc_l; [apply (b_swap _ 1); reflexivity|].
    eapply rtc_l; [apply (b_reset _ 1); reflexivity|].
    eapply rtc_l; [apply (b_time _ 0); reflexivity|]. apply rtc_refl.
  - repeat split.
Qed.

End Breaker.

Lemma breaker_opens_too_late_witness :
  exists s, rtc (breaker_step DefaultRouterConfig) (one_short DefaultRouterConfig 7) s /\ calls s = ∅ /\ clock s = 7 /\
    circuitOpenTime s = Some 7 /\ circuitOpen s = false /\ failureCount s = 0.
Proof. apply (breaker_opens_too_late DefaultRouterConfig 7); cbn; unfold two31, two63; lia. Defined.

End Breaker.
