(* ===== verification/Rpc.v ===== *)
(** * Status codes, request metadata and interceptors
    (coordinator/interceptors.go, server/service/service.go, server/operations/put.go)

    What travels beside a request between two nodes: the metadata that counts its hops,
    and the gRPC status that an error becomes. The recovery and epoch interceptors wrap
    every handler of a node. *)

From S2P Require Import Prelude Keys Errors.

Open Scope Z_scope.

(** ** strconv *)

Fixpoint parse_digits (acc : Z) (s : bytes) : option Z :=
  match s with
  | EmptyString => Some acc
  | String c s => if is_digit c then parse_digits (acc * 10 + digit_val c) s else None
  end.

(** Base 10; at least one digit. *)
Definition parse_number (s : bytes) : option Z :=
  match s with EmptyString => None | _ => parse_digits 0 s end.

(** [strconv.ParseUint(s, 10, 64)]. *)
Definition ParseUint (s : bytes) : option Z :=
  match parse_number s with
  | Some v => if v <? two64 then Some v else None
  | None => None
  end.

(** [strconv.Atoi], on a 64-bit platform. *)
Definition Atoi (s : bytes) : option Z :=
  let v := match s with
    | String c r =>
        if decide (c = "-"%char) then Z.opp <$> parse_number r
        else if decide (c = "+"%char) then parse_number r
        else parse_number s
    | EmptyString => None
    end in
  match v with
  | Some v => if (- two63 <=? v) && (v <? two63) then Some v else None
  | None => None
  end.

Definition Itoa (z : Z) : bytes := fmt_int 1 z.
Definition FormatBool (b : bool) : bytes := if b then "true" else "false".

(** ** google.golang.org/grpc/codes and status *)

Definition OK : Z := 0.
Definition Canceled : Z := 1.
Definition Unknown : Z := 2.
Definition InvalidArgument : Z := 3.
Definition DeadlineExceeded : Z := 4.
Definition NotFound : Z := 5.
Definition ResourceExhausted : Z := 8.
Definition FailedPrecondition : Z := 9.
Definition Aborted : Z := 10.
Definition Internal : Z := 13.
Definition Unavailable : Z := 14.
Definition DataLoss : Z := 15.

Definition code_names : list bytes :=
  ["OK"; "Canceled"; "Unknown"; "InvalidArgument"; "DeadlineExceeded"; "NotFound"; "AlreadyExists";
   "PermissionDenied"; "ResourceExhausted"; "FailedPrecondition"; "Aborted"; "OutOfRange";
   "Unimplemented"; "Internal"; "Unavailable"; "DataLoss"; "Unauthenticated"].

Definition code_String (c : Z) : bytes :=
  match (if 0 <=? c then code_names !! Z.to_nat c else None) with
  | Some name => name
  | None => "Code(" +:+ fmt_int 1 c +:+ ")"
  end.

(** The errors of the layers above storage: errors of storage and of the standard
    library, a gRPC status, the failures that a peer reported in its response, and the
    end of a stream. *)
Inductive op_error :=
  | Plain (err : error)
  | StatusError (code : Z) (message : bytes)
  | PutError (Message : bytes) (Code : Z) (Shed : bool)
  | DeleteError (Message : bytes)
  | operationError (message : bytes)
  | EOF.

(** A status as the transport reports it. *)
Definition status : Type := Z * bytes.
Definition of_status (st : status) : op_error := StatusError st.1 st.2.

#[export] Instance op_error_inhabited : Inhabited op_error := populate EOF.

Definition op_Error (e : op_error) : bytes :=
  match e with
  | Plain err => Error err
  | StatusError c m => "rpc error: code = " +:+ code_String c +:+ " desc = " +:+ m
  | PutError m _ _ | DeleteError m | operationError m => m
  | EOF => "EOF"
  end.

(** [GRPCStatus] of a [PutError]. *)
Definition GRPCStatus (message : bytes) (code : Z) : Z * bytes :=
  if code =? OK then (Unknown, message) else (code, message).

(** [status.FromError]: the status an error carries, if any. *)
Definition status_FromError (e : op_error) : option (Z * bytes) :=
  match e with
  | StatusError c m => Some (c, m)
  | PutError m c _ => Some (GRPCStatus m c)
  | Plain _ | DeleteError _ | operationError _ | EOF => None
  end.

(** What the peer's stub returns for an error that a handler returned: the status it
    carries, else [status.FromContextError]. *)
Definition wire_error (e : op_error) : op_error :=
  match status_FromError e with
  | Some (c, m) => StatusError c m
  | None =>
      match e with
      | Plain err => StatusError (if errors_Is err ContextCanceled then Canceled else Unknown) (Error err)
      | _ => StatusError Unknown (op_Error e)
      end
  end.

(** [mapStorageErrorToGRPC] *)
Definition mapStorageErrorToGRPC (e : op_error) : op_error :=
  match e with
  | Plain err =>
      match GetType err with
      | (_, false) => e
      | (TypeNotFound, true) => StatusError NotFound "resource not found"
      | (TypeInvalidRequest, true) => StatusError InvalidArgument (Error err)
      | (TypeStorageFull, true) => StatusError ResourceExhausted "storage capacity exceeded"
      | (TypeCorruption, true) => StatusError DataLoss "data corruption detected"
      | (TypeTemporary, true) => StatusError Unavailable "service temporarily unavailable"
      | (TypeIO, true) =>
          if IsRetryable err then StatusError Unavailable "temporary I/O error"
          else StatusError Internal "storage I/O error"
      | (TypeLock, true) => StatusError Aborted "resource temporarily locked"
      | (TypeTimeout, true) => StatusError DeadlineExceeded "operation timed out"
      | (TypeInternal, true) => StatusError Internal "internal error"
      end
  | _ => e
  end.

(** [operations.IsOverBudget] *)
Definition op_IsOverBudget (e : op_error) : bool :=
  match e with
  | Plain err => IsOverBudget err
  | PutError _ _ shed => shed
  | _ => false
  end.

(** [storageErrors.IsVersionMismatch] *)
Definition op_IsVersionMismatch (e : op_error) : option Z :=
  match e with Plain err => IsVersionMismatch err | _ => None end.

(** ** Request metadata *)

Definition MetadataKeyRingEpoch : bytes := "x-ring-epoch".
Definition MetadataKeyHop : bytes := "x-hop".
Definition MetadataKeyForwarded : bytes := "x-forwarded".
Definition MetadataKeyOrigin : bytes := "x-origin".
Definition MetadataKeyOwner : bytes := "x-owner".
Definition MetadataKeyForwardedBy : bytes := "x-forwarded-by".
Definition MaxHops : Z := 3.

(** [metadata.MD] in the order of appending; [Get] returns the values of a key in that
    order. *)
Definition MD : Type := list (bytes * bytes).
Fixpoint md_Get (md : MD) (key : bytes) : list bytes :=
  match md with
  | [] => []
  | (k, v) :: md => if decide (k = key) then v :: md_Get md key else md_Get md key
  end.

(** The metadata a request came with ([None] outside of a handler) and the metadata of
    the calls made with the context. *)
Record context := MkCtx { incoming : option MD; outgoing : MD }.

Definition AppendToOutgoingContext (ctx : context) (kvs : MD) : context :=
  MkCtx (incoming ctx) (outgoing ctx ++ kvs).

Record RequestMetadata := MkRM { RingEpoch : Z; HopCount : Z; Forwarded : bool; OriginNode : bytes }.

Definition rm_zero : RequestMetadata := MkRM 0 0 false EmptyString.

(** The first value of a key if it parses, else the zero value. *)
Definition first_parsed {A} (parse : bytes -> option A) (zero : A) (values : list bytes) : A :=
  match values with
  | [] => zero
  | v :: _ => default zero (parse v)
  end.

Definition ExtractRequestMetadata (ctx : context) : RequestMetadata :=
  match incoming ctx with
  | None => rm_zero
  | Some md =>
      MkRM (first_parsed ParseUint 0 (md_Get md MetadataKeyRingEpoch))
           (first_parsed Atoi 0 (md_Get md MetadataKeyHop))
           (first_parsed (fun v => Some (bool_decide (v = "true"))) false (md_Get md MetadataKeyForwarded))
           (first_parsed Some EmptyString (md_Get md MetadataKeyOrigin))
  end.

Definition AttachForwardingMetadata (ctx : context) (rm : RequestMetadata) : context :=
  AppendToOutgoingContext ctx
    [(MetadataKeyRingEpoch, fmt_int 1 (RingEpoch rm)); (MetadataKeyHop, Itoa (HopCount rm));
     (MetadataKeyForwarded, FormatBool (Forwarded rm)); (MetadataKeyOrigin, OriginNode rm)].

Definition CheckHopCount (hopCount : Z) : option op_error :=
  if MaxHops <? hopCount then
    Some (StatusError ResourceExhausted ("max hop count exceeded (" +:+ fmt_int 1 hopCount +:+ " hops, max " +:+ fmt_int 1 MaxHops +:+ ")"))
  else None.

Definition IncrementHopCount (ctx : context) (localNodeID : bytes) : op_error + context :=
  let rm := ExtractRequestMetadata ctx in
  match CheckHopCount (HopCount rm) with
  | Some err => inl err
  | None =>
      let origin := if decide (OriginNode rm = EmptyString) then localNodeID else OriginNode rm in
      inr (AttachForwardingMetadata ctx (MkRM (RingEpoch rm) (i64 (HopCount rm + 1)) true origin))
  end.

Record ResponseMetadata := MkRespMD { resp_RingEpoch : Z; OwnerAddr : bytes; ForwardedBy : bytes }.

(** The header that [SetResponseMetadata] adds to the response. *)
Definition SetResponseMetadata (resp : ResponseMetadata) : MD :=
  [(MetadataKeyRingEpoch, fmt_int 1 (resp_RingEpoch resp))]
    ++ (if decide (OwnerAddr resp = EmptyString) then [] else [(MetadataKeyOwner, OwnerAddr resp)])
    ++ (if decide (ForwardedBy resp = EmptyString) then [] else [(MetadataKeyForwardedBy, ForwardedBy resp)]).

(** ** Interceptors

    [None] is a panic of the handler. *)

Section Interceptors.

Context {St Req Resp : Type}.
Definition handler : Type := context -> Req -> ST St (option (op_error + Resp)).

(** [recoverPanic] assigns an error; it keeps no response. *)
Definition recoverPanic (r : option (op_error + Resp)) : op_error + Resp :=
  match r with None => inl (StatusError Internal "internal error") | Some r => r end.

Definition UnaryServerRecoveryInterceptor (h : handler) (ctx : context) (req : Req) : ST St (op_error + Resp) :=
  r ← h ctx req; mret (recoverPanic r).

(** With the header of the response; the epoch is read after the handler ran. *)
Definition UnaryServerEpochInterceptor (epochGetter : ST St Z) (h : handler) (ctx : context) (req : Req) :
    ST St (option (op_error + Resp) * MD) :=
  match CheckHopCount (HopCount (ExtractRequestMetadata ctx)) with
  | Some err => mret (Some (inl err), [])
  | None =>
      r ← h ctx req;
      match r with
      | None => mret (None, [])
      | Some r => epoch ← epochGetter; mret (Some r, SetResponseMetadata (MkRespMD epoch EmptyString EmptyString))
      end
  end.

(** A stream's handler runs on the wrapped stream, which adds the header to its first
    message. *)
Definition StreamServerEpochInterceptor (h : handler) (ctx : context) (req : Req) : ST St (option (op_error + Resp)) :=
  match CheckHopCount (HopCount (ExtractRequestMetadata ctx)) with
  | Some err => mret (Some (inl err))
  | None => h ctx req
  end.

(** [epochServerStream.SendMsg]: the header to add before a message, and [headerSent]. *)
Definition epoch_SendMsg (epochGetter : ST St Z) (headerSent : bool) : ST St (option MD * bool) :=
  if headerSent then mret (None, true)
  else epoch ← epochGetter; mret (Some (SetResponseMetadata (MkRespMD epoch EmptyString EmptyString)), true).

End Interceptors.

(** The check of a response header in [UnaryClientEpochInterceptor] and
    [checkEpochMismatch]: the arguments of the mismatch handler, if it is called. *)
Definition checkEpochMismatch (clientEpoch : Z) (header : MD) : option (Z * Z) :=
  match md_Get header MetadataKeyRingEpoch with
  | [] => None
  | v :: _ =>
      match ParseUint v with
      | Some serverEpoch => if serverEpoch =? clientEpoch then None else Some (clientEpoch, serverEpoch)
      | None => None
      end
  end.

Lemma md_Get_here k v (md : MD) : md_Get ((k, v) :: md) k = v :: md_Get md k.
Proof. cbn [md_Get]. by rewrite decide_True. Qed.

Lemma md_Get_there k k' v (md : MD) : k' <> k -> md_Get ((k', v) :: md) k = md_Get md k.
Proof. intros. cbn [md_Get]. by rewrite decide_False. Qed.

(** ** Numbers survive the metadata *)

Lemma parse_digits_fixed n acc z :
  parse_digits acc (fixed_digits n z) = Some (acc * 10 ^ Z.of_nat n + z mod 10 ^ Z.of_nat n).
Proof.
  revert acc. induction n as [|n IH]; intros acc.
  - simpl. rewrite Z.mod_1_r. f_equal. lia.
  - pose proof (pow10_pos n). rewrite pow10_S. cbn [fixed_digits parse_digits].
    assert (0 <= (z / 10 ^ Z.of_nat n) mod 10 < 10) as Hd by (apply Z.mod_pos_bound; lia).
    rewrite is_digit_digit, digit_val_digit, IH by done.
    replace (10 * 10 ^ Z.of_nat n) with (10 ^ Z.of_nat n * 10) by lia.
    rewrite Z.rem_mul_r by lia. f_equal. lia.
Qed.

Lemma parse_number_fmt z : 0 <= z -> parse_number (fmt_int 1 z) = Some z.
Proof.
  intros Hz. unfold fmt_int. rewrite (proj2 (Z.ltb_ge _ 0)) by done.
  assert (z < 10 ^ Z.of_nat (1 `max` ndigits z)) as Hlt.
  { eapply Z.lt_le_trans; [by apply ndigits_gt|]. apply Z.pow_le_mono_r; lia. }
  pose proof (parse_digits_fixed (1 `max` ndigits z) 0 z) as H. rewrite Z.mod_small in H by done.
  destruct (1 `max` ndigits z)%nat as [|n] eqn:E; [lia|]. exact H.
Qed.

Lemma ParseUint_fmt z : is_u64 z -> ParseUint (fmt_int 1 z) = Some z.
Proof.
  intros Hz. unfold ParseUint, is_u64 in *. rewrite parse_number_fmt by lia. by rewrite (proj2 (Z.ltb_lt _ _)) by lia.
Qed.

Lemma fmt_int_head z : 0 <= z -> exists d s, 0 <= d < 10 /\ fmt_int 1 z = String (digit d) s.
Proof.
  intros Hz. unfold fmt_int. rewrite (proj2 (Z.ltb_ge _ 0)) by done.
  destruct (1 `max` ndigits z)%nat as [|n] eqn:E; [lia|]. eexists _, _. split; [|reflexivity]. apply Z.mod_pos_bound. lia.
Qed.

Lemma digit_not_sign d : 0 <= d < 10 -> digit d <> "-"%char /\ digit d <> "+"%char.
Proof.
  intros H. split; intros E; apply (f_equal N_of_ascii) in E; rewrite digit_code in E by done; cbn in E; lia.
Qed.

Lemma ndigits_from_ge f n z : (n <= ndigits_from f n z)%nat.
Proof. revert n. induction f as [|f IH]; intros n; cbn [ndigits_from]; [done|]. case_match; [done|]. specialize (IH (S n)). lia. Qed.

(** The hop count reads back as it was written. *)
Lemma Atoi_Itoa z : is_i64 z -> Atoi (Itoa z) = Some z.
Proof.
  intros Hz. unfold Atoi, Itoa. assert ((- two63 <=? z) && (z <? two63) = true) as Hr.
  { unfold is_i64 in Hz. apply andb_true_iff. rewrite Z.leb_le, Z.ltb_lt. lia. }
  destruct (Z.ltb_spec z 0) as [Hneg|Hpos].
  - assert (fmt_int 1 z = String "-" (fmt_int 1 (- z))) as ->.
    { unfold fmt_int. rewrite (proj2 (Z.ltb_lt z 0)), (proj2 (Z.ltb_ge (- z) 0)) by lia.
      f_equal. f_equal. unfold ndigits. pose proof (ndigits_from_ge (S (Z.to_nat (Z.log2 (- z)))) 1 (- z)). lia. }
    cbn [decide]. rewrite decide_True by done. rewrite parse_number_fmt by lia. cbn. by rewrite Z.opp_involutive, Hr.
  - destruct (fmt_int_head z Hpos) as (d & s & Hd & E). rewrite E. destruct (digit_not_sign d Hd).
    rewrite !decide_False by done. rewrite <- E, parse_number_fmt by done. by rewrite Hr.
Qed.

Lemma HopCount_range ctx : is_i64 (HopCount (ExtractRequestMetadata ctx)).
Proof.
  assert (is_i64 0) as H0 by (unfold_ints; lia).
  unfold ExtractRequestMetadata. destruct (incoming ctx) as [md|]; cbn [HopCount]; [|exact H0].
  destruct (md_Get md MetadataKeyHop) as [|v ?]; cbn [first_parsed]; [exact H0|].
  destruct (Atoi v) as [z|] eqn:E; [|exact H0]. unfold Atoi in E. case_match; [|done].
  case_match eqn:Hb; [|done]. apply andb_true_iff in Hb as [?%Z.leb_le ?%Z.ltb_lt]. simplify_eq. unfold is_i64. cbn. lia.
Qed.

(** A server's epoch is reported to a client exactly if it differs. *)
Lemma epoch_mismatch_exact clientEpoch epoch owner by_ :
  is_u64 epoch ->
  checkEpochMismatch clientEpoch (SetResponseMetadata (MkRespMD epoch owner by_))
  = if epoch =? clientEpoch then None else Some (clientEpoch, epoch).
Proof.
  intros He. unfold checkEpochMismatch, SetResponseMetadata. rewrite <- app_comm_cons, md_Get_here. by rewrite ParseUint_fmt.
Qed.

(** ** What a forwarded request carries *)

(** The request that the next node receives when a node forwards one. *)
Lemma IncrementHopCount_carries ctx node ctx' :
  outgoing ctx = [] -> IncrementHopCount ctx node = inr ctx' ->
  - two63 <= HopCount (ExtractRequestMetadata ctx) <= MaxHops
  /\ HopCount (ExtractRequestMetadata (MkCtx (Some (outgoing ctx')) [])) = HopCount (ExtractRequestMetadata ctx) + 1.
Proof.
  intros Hout. unfold IncrementHopCount, CheckHopCount.
  destruct (Z.ltb_spec MaxHops (HopCount (ExtractRequestMetadata ctx))) as [|Hle]; [done|]. intros [= <-].
  assert (- two63 <= HopCount (ExtractRequestMetadata ctx)) as Hlo by apply HopCount_range.
  split; [done|]. unfold AttachForwardingMetadata, AppendToOutgoingContext. rewrite Hout. cbn [outgoing RingEpoch HopCount].
  rewrite app_nil_l. unfold ExtractRequestMetadata at 1. cbn [incoming HopCount].
  rewrite md_Get_there, md_Get_here by done. cbn [first_parsed]. assert (is_i64 (HopCount (ExtractRequestMetadata ctx) + 1)).
  { unfold is_i64, MaxHops, two63 in *. lia. }
  by rewrite i64_small, Atoi_Itoa.
Qed.
