(* ===== verification/StreamReader.v ===== *)
(** * The reader of a peer's answer (server/operations/get.go)

    [grpcStreamReader] turns the messages of a streamed Get into an [io.Reader], and with
    [WriteTo] into a source that hands the messages on without copying. Both yield the
    bytes of the messages in order, then the error the stream ended with. *)

From S2P Require Import Prelude Keys Errors Rpc.

Open Scope Z_scope.

(** The messages to come and the error after them ([None] is [io.EOF]); [released] is
    [cancel == nil]. *)
Record grpcStreamReader := MkReader {
  gr_stream : list bytes;
  gr_fin : option op_error;
  gr_pending : bytes;
  gr_done : bool;
  gr_err : option op_error;
  gr_released : bool
}.

(** [release] and [Close]. *)
Definition release (r : grpcStreamReader) : grpcStreamReader :=
  MkReader (gr_stream r) (gr_fin r) (gr_pending r) (gr_done r) (gr_err r) true.

(** The loop [for len(r.pending) == 0]: receives until there are bytes or the stream is
    done. *)
Fixpoint fill (stream : list bytes) (fin : option op_error) (r : grpcStreamReader) : grpcStreamReader :=
  if decide (gr_pending r = EmptyString) then
    if gr_done r then release r
    else
      match stream with
      | [] => release (MkReader [] fin EmptyString true (match fin with None => gr_err r | Some err => Some err end) (gr_released r))
      | data :: stream => fill stream fin (MkReader stream fin data false (gr_err r) (gr_released r))
      end
  else r.

Definition pull (r : grpcStreamReader) : grpcStreamReader := fill (gr_stream r) (gr_fin r) r.

(** [Read] into a buffer of [n] bytes. *)
Definition Read (n : nat) (r : grpcStreamReader) : (bytes * option op_error) * grpcStreamReader :=
  let r := pull r in
  if decide (gr_pending r = EmptyString) then
    ((EmptyString, Some (match gr_err r with Some err => err | None => EOF end)), r)
  else
    ((stake n (gr_pending r), None),
     MkReader (gr_stream r) (gr_fin r) (sdrop n (gr_pending r)) (gr_done r) (gr_err r) (gr_released r)).

Definition grpcStreamReaderWriteChunkSize : nat := Z.to_nat 32768.
Definition ErrShortWrite : op_error := Plain (EText "short write").

(** [w.Write(chunk)], the [i]-th call: the count and the error it returns. *)
Definition Writer : Type := nat -> bytes -> Z * option op_error.

(** [WriteTo]: the bytes written, and the error. Every round takes a byte or ends, so the
    bytes to come are enough [fuel]; without it the loop has not returned ([None]). *)
Fixpoint WriteTo (fuel : nat) (w : Writer) (i : nat) (written : bytes) (r : grpcStreamReader) :
    option (bytes * option op_error) * grpcStreamReader :=
  match fuel with
  | O => (None, r)
  | S fuel =>
      let r := pull r in
      if decide (gr_pending r = EmptyString) then (Some (written, gr_err r), r)
      else
        let chunk := stake grpcStreamReaderWriteChunkSize (gr_pending r) in
        let '(n, err) := w i chunk in
        let bad := (n <? 0) || (slen chunk <? n) in
        let err := match err with None => if bad then Some ErrShortWrite else None | Some err => Some err end in
        let n := if bad then 0 else n in
        let written := written +:+ stake (Z.to_nat n) (gr_pending r) in
        let r := MkReader (gr_stream r) (gr_fin r) (sdrop (Z.to_nat n) (gr_pending r)) (gr_done r) (gr_err r) (gr_released r) in
        match err with
        | Some err => (Some (written, Some err), r)
        | None =>
            if n =? slen chunk then WriteTo fuel w (S i) written r
            else (Some (written, Some ErrShortWrite), r)
        end
  end.

(** [io.ReadAll] with buffers of any sizes: the bytes, and the error unless it is
    [io.EOF]. *)
Fixpoint ReadAll (fuel : nat) (size : nat -> nat) (i : nat) (acc : bytes) (r : grpcStreamReader) :
    option (bytes * option op_error) * grpcStreamReader :=
  match fuel with
  | O => (None, r)
  | S fuel =>
      let '((data, err), r) := Read (S (size i)) r in
      match err with
      | None => ReadAll fuel size (S i) (acc +:+ data) r
      | Some EOF => (Some (acc +:+ data, None), r)
      | Some err => (Some (acc +:+ data, Some err), r)
      end
  end.

(** The reader [getRemote] returns for the first message and the rest of the stream. *)
Definition new_reader (first : bytes) (stream : list bytes) (fin : option op_error) : grpcStreamReader :=
  MkReader stream fin first false None false.

(** ** What is left to read *)

Definition remaining (r : grpcStreamReader) : bytes := gr_pending r +:+ (if gr_done r then EmptyString else sconcat (gr_stream r)).
Definition outcome (r : grpcStreamReader) : option op_error := if gr_done r then gr_err r else gr_fin r.

(** A reader as the operations build it. *)
Definition reader_ok (r : grpcStreamReader) : Prop :=
  (gr_done r = false -> gr_err r = None) /\ outcome r <> Some EOF.

Lemma fill_spec stream fin r :
  (gr_done r = false -> gr_stream r = stream /\ gr_fin r = fin) -> reader_ok r ->
  remaining (fill stream fin r) = remaining r /\ outcome (fill stream fin r) = outcome r /\ reader_ok (fill stream fin r)
  /\ (gr_pending (fill stream fin r) = EmptyString -> gr_done (fill stream fin r) = true /\ gr_released (fill stream fin r) = true).
Proof.
  revert r. induction stream as [|data stream IH]; intros r Hs Hok; cbn [fill]; destruct (decide _) as [Hp|Hp]; try (by split_and!).
  - destruct (gr_done r) eqn:Hd; [by split_and!|]. destruct (Hs eq_refl) as [Es Ef]. destruct Hok as [He Ho]. unfold remaining, outcome in *.
    rewrite Hd, Es, Ef in *. cbn. rewrite Hp, He by done. destruct fin; by split_and!.
  - destruct (gr_done r) eqn:Hd; [by split_and!|]. destruct (Hs eq_refl) as [Es Ef]. destruct Hok as [He Ho]. unfold remaining, outcome in *.
    rewrite Hd, Es, Ef in *. destruct (IH (MkReader stream fin data false (gr_err r) (gr_released r))) as (H1 & H2 & H3 & H4); [done|by split|].
    cbn in *. rewrite H1, H2, Hp. by split_and!.
Qed.

Lemma pull_spec r :
  reader_ok r ->
  remaining (pull r) = remaining r /\ outcome (pull r) = outcome r /\ reader_ok (pull r)
  /\ (gr_pending (pull r) = EmptyString -> gr_done (pull r) = true /\ gr_released (pull r) = true).
Proof. intros. by apply fill_spec. Qed.

Lemma sdrop_nonempty n s : s <> EmptyString -> (String.length (sdrop (S n) s) < String.length s)%nat.
Proof. destruct s; [done|]. intros _. cbn. rewrite slength_sdrop. lia. Qed.

(** One [Read] of a buffer with room: bytes off the front of what is left, or the end. *)
Lemma Read_spec n r data err r' :
  reader_ok r -> Read (S n) r = ((data, err), r') ->
  reader_ok r' /\ outcome r' = outcome r /\ remaining r = data +:+ remaining r'
  /\ match err with
     | None => (String.length (remaining r') < String.length (remaining r))%nat
     | Some e => remaining r = EmptyString /\ gr_released r' = true /\ outcome r = match e with EOF => None | e => Some e end
     end.
Proof.
  intros Hok. unfold Read. destruct (pull_spec r Hok) as (Hrem & Hout & Hok' & Hend). rewrite <- Hrem, <- Hout.
  set (q := pull r) in *. clearbody q. clear Hok Hrem Hout r. rename q into r, Hok' into Hok. destruct (decide _) as [Hp|Hp]; intros [= <- <- <-].
  - destruct (Hend Hp) as [Hd Hr]. pose proof Hok as [_ Ho]. unfold remaining, outcome in *. rewrite Hd, Hp in *.
    split_and!; try done. revert Ho. by destruct (gr_err r) as [[]|].
  - destruct Hok as [He Ho]. unfold remaining, outcome, reader_ok in *. cbn [gr_pending gr_done gr_stream gr_err gr_fin]. split_and!; try done.
    + rewrite <- sapp_assoc. f_equal. exact (eq_sym (stake_sdrop (S n) (gr_pending r))).
    + rewrite !slength_app. pose proof (sdrop_nonempty n _ Hp) as Hlt. cbn [sdrop] in Hlt. lia.
Qed.

Lemma ReadAll_spec fuel size i acc r :
  reader_ok r -> (String.length (remaining r) < fuel)%nat ->
  exists r', ReadAll fuel size i acc r = (Some (acc +:+ remaining r, outcome r), r') /\ gr_released r' = true.
Proof.
  revert i acc r. induction fuel as [|fuel IH]; intros i acc r Hok Hf; [lia|]. cbn [ReadAll].
  destruct (Read (S (size i)) r) as [[data err] r'] eqn:E. destruct (Read_spec _ _ _ _ _ Hok E) as (Hok' & Hout & Hrem & Herr).
  destruct err as [e|].
  - destruct Herr as (Hnil & Hrel & Ho). rewrite Hnil in Hrem. destruct data; [|done].
    exists r'. rewrite Hnil, Ho. by destruct e.
  - destruct (IH (S i) (acc +:+ data) r' Hok') as (r2 & E2 & Hrel); [lia|]. exists r2. split; [|done].
    by rewrite E2, Hout, Hrem, sapp_assoc.
Qed.

(** A writer that takes everything it is given. *)
Definition takes_all (w : Writer) : Prop := forall i chunk, w i chunk = (slen chunk, None).

Lemma stake_nonempty n s : s <> EmptyString -> stake (S n) s <> EmptyString.
Proof. by destruct s. Qed.

Lemma WriteTo_takes_all fuel w i written r :
  takes_all w -> reader_ok r -> (String.length (remaining r) < fuel)%nat ->
  exists r', WriteTo fuel w i written r = (Some (written +:+ remaining r, outcome r), r') /\ gr_released r' = true.
Proof.
  intros Hw. revert i written r. induction fuel as [|fuel IH]; intros i written r Hok Hf; [lia|]. cbn [WriteTo].
  destruct (pull_spec r Hok) as (Hrem & Hout & Hok' & Hend). rewrite <- Hrem, <- Hout in *. clear Hrem Hout Hok.
  set (q := pull r) in *. clearbody q. clear r. rename q into r, Hok' into Hok. destruct (decide _) as [Hp|Hp].
  - destruct (Hend Hp) as [Hd Hr]. exists r. unfold remaining, outcome. by rewrite Hd, Hp, sapp_nil_r.
  - set (chunk := stake grpcStreamReaderWriteChunkSize (gr_pending r)). rewrite Hw. assert ((slen chunk <? 0) || (slen chunk <? slen chunk) = false) as ->.
    { apply orb_false_iff. rewrite !Z.ltb_ge. unfold slen. lia. }
    rewrite Z.eqb_refl. assert (Z.to_nat (slen chunk) = String.length chunk) as -> by (unfold slen; lia).
    assert (gr_pending r = chunk +:+ sdrop grpcStreamReaderWriteChunkSize (gr_pending r)) as Hsplit by by rewrite <- (stake_sdrop grpcStreamReaderWriteChunkSize (gr_pending r)) at 1.
    assert (0 < String.length chunk)%nat as Hpos.
    { unfold chunk. rewrite slength_stake. destruct (gr_pending r); [done|]. cbn. unfold grpcStreamReaderWriteChunkSize. lia. }
    assert (forall x, chunk +:+ x = gr_pending r -> sdrop (String.length chunk) (gr_pending r) = x /\ stake (String.length chunk) (gr_pending r) = chunk) as Hd.
    { intros x <-. by rewrite sdrop_app, stake_app. }
    destruct (Hd _ (eq_sym Hsplit)) as [-> ->]. clear Hd.
    edestruct (IH (S i) (written +:+ chunk)) as (r2 & E2 & Hrel); [| |by rewrite E2; exists r2; split; [|done]; unfold remaining; cbn; rewrite Hsplit at 3; rewrite !sapp_assoc].
    + destruct Hok. by split.
    + unfold remaining in *. cbn. rewrite Hsplit in Hf at 1. rewrite !slength_app in *. lia.
Qed.

(** C10: a remote read is exact. Whatever the sizes of the messages a peer sends and of the
    buffers its answer is read with, reading it to the end terminates and yields the bytes
    of the messages in order and the error the stream ended with, and writing it out with
    [WriteTo] yields the same; both release the call. *)
Theorem remote_read_exact first stream fin size w fuel :
  fin <> Some EOF -> takes_all w -> (String.length (first +:+ sconcat stream) < fuel)%nat ->
  exists r1 r2,
    ReadAll fuel size 0 EmptyString (new_reader first stream fin) = (Some (first +:+ sconcat stream, fin), r1)
    /\ WriteTo fuel w 0 EmptyString (new_reader first stream fin) = (Some (first +:+ sconcat stream, fin), r2)
    /\ gr_released r1 = true /\ gr_released r2 = true.
Proof.
  intros Hfin Hw Hf. assert (reader_ok (new_reader first stream fin)) as Hok by by split.
  destruct (ReadAll_spec fuel size 0 EmptyString _ Hok Hf) as (r1 & E1 & H1).
  destruct (WriteTo_takes_all fuel w 0 EmptyString _ Hw Hok Hf) as (r2 & E2 & H2).
  exists r1, r2. by split_and!.
Qed.

(** Three messages, one of them empty, read in pieces of two bytes. *)
Lemma remote_read_exact_witness :
  exists r1 r2,
    ReadAll 9 (fun _ => 1%nat) 0 EmptyString (new_reader "he" [""; "llo"]%string (Some (StatusError Internal "cut"))) = (Some ("hello"%string, Some (StatusError Internal "cut")), r1)
    /\ WriteTo 9 (fun _ chunk => (slen chunk, None)) 0 EmptyString (new_reader "he" [""; "llo"]%string (Some (StatusError Internal "cut"))) = (Some ("hello"%string, Some (StatusError Internal "cut")), r2)
    /\ gr_released r1 = true /\ gr_released r2 = true.
Proof.
  apply (remote_read_exact "he" [""; "llo"]%string (Some (StatusError Internal "cut")) (fun _ => 1%nat) (fun _ chunk => (slen chunk, None)) 9).
  - discriminate.
  - intros i chunk. reflexivity.
  - apply Nat.ltb_lt. reflexivity.
Defined.
