(* ===== verification/Operations.v ===== *)
(** * Operations with routing (server/operations: operations.go, put.go, get.go, delete.go, cas.go)

    A node serves a key of its own from its storage and forwards the others. A cluster is
    the storage of every node; what a node's coordinator answers, what the network does
    to a call and when a caller gives up are read from [ClusterEnv] at a tick that
    advances with every reading. [peer] is the other nodes' service, tied in Service.v. *)

From S2P Require Import Prelude Keys Errors Retry Message Merge Rocks World Files RangeReader Storage Cas Rpc StreamReader.

Open Scope Z_scope.

(** ** Messages (proto/cache.proto) *)

Record PutRequest := MkPut { pq_Key : bytes; pq_TtlSeconds : Z; pq_Data : bytes; pq_ShedOverBudget : bool }.
Record PutResponse := MkPutResp { po_Success : bool; po_Error : bytes; po_Code : Z; po_Shed : bool }.
Record GetRequest := MkGet { gq_Key : bytes; gq_Start : Z; gq_End : Z }.
Record DeleteResponse := MkDelResp { do_Success : bool; do_Error : bytes }.
Record GetWithVersionResponse := MkGetV { gv_Data : bytes; gv_Version : Z; gv_Found : bool }.
Record PutIfVersionRequest := MkPutV { vq_Key : bytes; vq_TtlSeconds : Z; vq_Data : bytes; vq_ExpectedVersion : Z }.
Record PutIfVersionResponse := MkPutVResp { vo_Success : bool; vo_NewVersion : Z; vo_CurrentVersion : Z; vo_Error : bytes }.
Record DeleteIfVersionResponse := MkDelVResp { wo_Success : bool; wo_CurrentVersion : Z; wo_Error : bytes }.

(** A message list that a client streams ends in its half-close ([None], the server's
    [io.EOF]) or in an error of [Recv]. *)
Inductive request :=
  | RPut (msgs : list PutRequest) (fin : option op_error)
  | RPutObject (req : PutRequest)
  | RGet (req : GetRequest)
  | RDelete (key : bytes)
  | RGetObjectWithVersion (key : bytes)
  | RPutObjectIfVersion (req : PutIfVersionRequest)
  | RDeleteIfVersion (key : bytes) (expected : Z)
  | RPutStreamIfVersion (msgs : list PutIfVersionRequest) (fin : option op_error)
  | RGetStreamWithVersion (key : bytes).

(** A streamed answer is its messages and the error after them. *)
Definition response (r : request) : Type :=
  match r with
  | RPut _ _ | RPutObject _ => PutResponse
  | RGet _ => list bytes * option op_error
  | RDelete _ => DeleteResponse
  | RGetObjectWithVersion _ => GetWithVersionResponse
  | RPutObjectIfVersion _ | RPutStreamIfVersion _ _ => PutIfVersionResponse
  | RDeleteIfVersion _ _ => DeleteIfVersionResponse
  | RGetStreamWithVersion _ => list GetWithVersionResponse * option op_error
  end.

(** ** The cluster *)

Record Cluster (DB SM : Type) := MkCluster { cl_world : bytes -> World DB SM; cl_tick : nat }.
Arguments MkCluster {_ _}. Arguments cl_world {_ _}. Arguments cl_tick {_ _}.

(** What decides the branches of the retry loop around one operation. *)
Record RetryEnv := MkRetryEnv { re_before : nat -> bool; re_wait : nat -> bool; re_draw : nat -> draw }.

Record ClusterEnv := MkClusterEnv {
  ce_clustered : bytes -> bool;                     (** the node has a coordinator *)
  ce_env : bytes -> Env;
  ce_cfg : bytes -> World.Config;
  ce_isLocal : nat -> bytes -> bytes -> bool;       (** [RingManager.IsLocal] of a node *)
  ce_route : nat -> bytes -> bytes -> bytes + bytes;(** [Router.RouteContext]: the text of its error, or the node connected to *)
  ce_open : nat -> option status;                   (** a call cannot be started *)
  ce_lost : nat -> option status;                   (** its answer is lost *)
  ce_send : nat -> option op_error;                 (** [Send] on a stream *)
  ce_ctx : nat -> option op_error;                  (** [ctx.Err()] *)
  ce_retry : nat -> RetryEnv;
  ce_shed : nat -> bytes -> bool;                   (** [storage.OverShedRatio] of a node *)
  ce_chunk : nat -> nat;                            (** how much a [Read] returns, less one *)
  ce_halfclose : nat -> option op_error;            (** what becomes of a half-close when the handler returns at once *)
  ce_pump : nat -> bool;                            (** the pump, not the pipe, met the failure first *)
  ce_epoch : nat -> bytes -> Z                      (** [coord.GetEpoch] *)
}.

Definition DefaultStreamBufferSize : nat := Z.to_nat 1048576.

(** The reads of [data] into a buffer of [size] bytes: each returns at least one byte. *)
Fixpoint reads (n : nat -> nat) (size fuel i : nat) (data : bytes) : list bytes :=
  match fuel with
  | O => []
  | S fuel =>
      match data with
      | EmptyString => []
      | _ => let k := S (n i) `min` size in stake k data :: reads n size fuel (S i) (sdrop k data)
      end
  end%nat.

Section Cluster.

Context {DB SM : Type} `{RocksDB DB} {PB : Protobuf} `{SegmentStore SM} (ce : ClusterEnv).

Definition C (A : Type) : Type := ST (Cluster DB SM) A.

Definition consult {A} (f : nat -> A) : C A := fun c => (f (cl_tick c), MkCluster (cl_world c) (S (cl_tick c))).

Definition set_world (node : bytes) (w : World DB SM) (c : Cluster DB SM) : Cluster DB SM :=
  MkCluster (fun n => if decide (n = node) then w else cl_world c n) (cl_tick c).

(** An operation of a node's storage. *)
Definition at_node {A} (node : bytes) (op : World.M (DB := DB) (SM := SM) A) : C A := fun c =>
  let '(a, w) := op (cl_world c node) in (a, set_world node w c).

(** [retry.DoWithKey] around a closure that assigns its results: they are those of the
    last run. *)
Definition retry_run {A} (fn : C (error + A)) (s : option A * Cluster DB SM) : option error * (option A * Cluster DB SM) :=
  let '(r, c) := fn s.2 in
  match r with
  | inl err => (Some err, (s.1, c))
  | inr a => (None, (Some a, c))
  end.

Definition retry_with {A} (op key : bytes) (fn : C (error + A)) (e : RetryEnv) : C (error + A) := fun c =>
  match DoWithKey (retry_run fn) (re_before e) (re_wait e) (re_draw e) DefaultConfig op key (None, c) with
  | (Some err, (_, c)) => (inl err, c)
  | (None, (Some a, c)) => (inr a, c)
  | (None, (None, c)) => (inl (EText EmptyString), c)
  end.

Definition retry_op {A} (op key : bytes) (fn : C (error + A)) : C (error + A) :=
  e ← consult (ce_retry ce); retry_with op key fn e.

(** A call to a peer: it cannot be started, or the stub's answer. *)
Definition Peer : Type := bytes -> MD -> forall r, C (op_error + (op_error + response r)).

Section Node.

Context (self : bytes) (peer : Peer).

(** ** operations.go *)

Definition IsLocal (key : bytes) : C bool :=
  if ce_clustered ce self then consult (fun n => ce_isLocal ce n self key) else mret true.

(** The callers have checked that there is a coordinator. *)
Definition RouteContext (key : bytes) : C (op_error + bytes) :=
  r ← consult (fun n => ce_route ce n self key);
  mret match r with inl text => inl (Plain (EText text)) | inr node => inr node end.

(** A unary stub. *)
Definition invoke (dest : bytes) (ctx : context) (r : request) : C (op_error + response r) :=
  x ← peer dest (outgoing ctx) r;
  mret match x with inl err => inl err | inr y => y end.

(** [IncrementHopCount], then [RouteContext]. *)
Definition remote (ctx : context) (key : bytes) : C (op_error + (context * bytes)) :=
  match IncrementHopCount ctx self with
  | inl err => mret (inl err)
  | inr ctx =>
      r ← RouteContext key;
      mret match r with inl err => inl err | inr dest => inr (ctx, dest) end
  end.

(** ** delete.go *)

Definition DeleteLocal (key : bytes) : C (option op_error) :=
  r ← retry_op "Delete" key (e ← at_node self (DeleteKey (ce_env ce self) (ce_cfg ce self) key);
                             mret match e with Some err => inl err | None => inr () end);
  mret match r with inl err => Some (Plain err) | inr _ => None end.

Definition deleteRemote (ctx : context) (key : bytes) : C (option op_error) :=
  x ← remote ctx key;
  match x with
  | inl err => mret (Some err)
  | inr (ctx, dest) =>
      r ← invoke dest ctx (RDelete key);
      mret match r with
           | inl err => Some err
           | inr resp => if do_Success resp then None else Some (DeleteError (do_Error resp))
           end
  end.

Definition Delete (ctx : context) (key : bytes) : C (option op_error) :=
  local ← IsLocal key;
  if (local : bool) then DeleteLocal key else deleteRemote ctx key.

(** ** put.go *)

(** The outcomes of successive [Read]s of a body, [EOF] after the last. *)
Definition Reader : Type := list (bytes * option op_error).

(** What a reader yields to its end. *)
Definition as_error (e : op_error) : error := match e with Plain err => err | _ => EText (op_Error e) end.

Fixpoint read_all (r : Reader) : Body :=
  match r with
  | [] => MkBody EmptyString None
  | (data, None) :: r => let b := read_all r in MkBody (data +:+ b_data b) (b_err b)
  | (data, Some EOF) :: _ => MkBody data None
  | (data, Some err) :: _ => MkBody data (Some (as_error err))
  end.

(** An [io.Reader] given to a put: with [io.Seeker], and what its [Seek] returns. *)
Record PutBody := MkPutBody { pb_reader : Reader; pb_seeker : option (option error) }.

Definition PutLocalWithOptions (key : bytes) (body : PutBody) (ttl : Z) (shedOverBudget : bool) : C (option op_error) :=
  refused ← (if shedOverBudget then consult (fun n => ce_shed ce n self) else mret false);
  if (refused : bool) then mret (Some (Plain (NewOverBudgetError "Put")))
  else
    let put := at_node self (Storage.Put (ce_env ce self) (ce_cfg ce self) key (read_all (pb_reader body)) ttl) in
    match pb_seeker body with
    | None => e ← put; mret (Plain <$> e)
    | Some seek =>
        r ← retry_op "Put" key
              (match seek with
               | Some err => mret (inl err)
               | None => e ← put; mret match e with Some err => inl err | None => inr () end
               end);
        mret match r with inl err => Some (Plain err) | inr _ => None end
    end.

(** How the sending side of a stream ends. *)
Inductive sent :=
  | SentAll            (** to the end of the body *)
  | ReadFailed (err : op_error)
  | SendFailed (err : op_error).

(** The loop of [SendPutStream] after the first message: the messages sent, and how it
    ended. *)
Fixpoint send_body (body : Reader) : C (list PutRequest * sent) :=
  e ← consult (ce_ctx ce);
  match e with
  | Some err => mret ([], ReadFailed err)
  | None =>
      match body with
      | [] => mret ([], SentAll)
      | (data, err) :: body =>
          match err with
          | Some ((Plain _ | StatusError _ _ | PutError _ _ _ | DeleteError _ | operationError _) as err) => mret ([], ReadFailed err)
          | _ =>
              s ← (if decide (data = EmptyString) then mret None else consult (ce_send ce));
              match s with
              | Some err => mret ([], SendFailed err)
              | None =>
                  '(msgs, fin) ← match err with None => send_body body | Some _ => mret ([], SentAll) end;
                  mret ((if decide (data = EmptyString) then [] else [MkPut EmptyString 0 data false]) ++ msgs, fin)
              end
          end
      end
  end.

(** The first message carries the first chunk, except for a sheddable write. *)
Definition send_first (first : PutRequest) (body : Reader) : C (list PutRequest * sent) :=
  let continue first more (body : Reader) :=
    s ← consult (ce_send ce);
    match s with
    | Some err => mret ([], SendFailed err)
    | None =>
        if (more : bool) then '(msgs, fin) ← send_body body; mret (first :: msgs, fin)
        else mret ([first], SentAll)
    end in
  if pq_ShedOverBudget first then continue first true body
  else
    e ← consult (ce_ctx ce);
    match e with
    | Some err => mret ([], ReadFailed err)
    | None =>
        match body with
        | [] => continue first false []
        | (data, err) :: body =>
            let first := MkPut (pq_Key first) (pq_TtlSeconds first) data false in
            match err with
            | None => continue first true body
            | Some EOF => continue first false []
            | Some err => mret ([], ReadFailed err)
            end
        end
    end.

(** What an owner's [Recv] returns once the caller has gone. *)
Definition gone : op_error := StatusError Canceled "context canceled".

(** [SendPutStream] on a call to [dest]. A stream that is given up ends in an error at
    the owner; after a [Send] that returned [io.EOF] the owner's answer is received. *)
Definition SendPutStream (dest : bytes) (ctx : context) (first : PutRequest) (body : Reader) : C (op_error + PutResponse) :=
  '(msgs, how) ← send_first first body;
  match how with
  | SentAll => invoke dest ctx (RPut msgs None)
  | ReadFailed err | SendFailed ((Plain _ | StatusError _ _ | PutError _ _ _ | DeleteError _ | operationError _) as err) =>
      _ ← invoke dest ctx (RPut msgs (Some gone)); mret (inl err)
  | SendFailed EOF => invoke dest ctx (RPut msgs (Some gone))
  end.

Definition putRemote (ctx : context) (key : bytes) (body : PutBody) (ttl : Z) (shedOverBudget : bool) : C (option op_error) :=
  x ← remote ctx key;
  match x with
  | inl err => mret (Some err)
  | inr (ctx, dest) =>
      e ← consult (ce_open ce);
      match e with
      | Some st => mret (Some (of_status st))
      | None =>
          r ← SendPutStream dest ctx (MkPut key ttl EmptyString shedOverBudget) (pb_reader body);
          mret match r with
               | inl err => Some err
               | inr resp => if po_Success resp then None else Some (PutError (po_Error resp) (po_Code resp) (po_Shed resp))
               end
      end
  end.

Definition PutWithOptions (ctx : context) (key : bytes) (body : PutBody) (ttl : Z) (shedOverBudget : bool) : C (option op_error) :=
  local ← IsLocal key;
  if (local : bool) then PutLocalWithOptions key body ttl shedOverBudget else putRemote ctx key body ttl shedOverBudget.

(** [bytes.NewReader]. *)
Definition bytes_reader (data : bytes) : PutBody := MkPutBody (if decide (data = EmptyString) then [] else [(data, None)]) (Some None).

Definition PutBytes (ctx : context) (key data : bytes) (ttl : Z) : C (option op_error) :=
  PutWithOptions ctx key (bytes_reader data) ttl false.

(** ** get.go *)

Definition GetLocal (key : bytes) (start end_ : Z) : C (error + option value_reader) :=
  retry_op "Get" key (at_node self (Storage.Get (ce_env ce self) (ce_cfg ce self) key start end_)).

Definition is_NotFound (err : op_error) : bool :=
  match status_FromError err with Some (code, _) => code =? NotFound | None => false end.

(** A miss of the owner is a miss. *)
Definition remote_failure (err : op_error) : op_error + option grpcStreamReader :=
  if is_NotFound err then inr None else inl err.

Definition getRemote (ctx : context) (key : bytes) (start end_ : Z) : C (op_error + option grpcStreamReader) :=
  x ← remote ctx key;
  match x with
  | inl err => mret (inl err)
  | inr (ctx, dest) =>
      r ← peer dest (outgoing ctx) (RGet (MkGet key start end_));
      mret match r with
           | inl err | inr (inl err) | inr (inr ([], Some err)) => remote_failure err
           | inr (inr ([], None)) => inr (Some (MkReader [] None EmptyString true None true))
           | inr (inr (first :: stream, fin)) => inr (Some (new_reader first stream fin))
           end
  end.

(** The reader [Get] returns. *)
Inductive reader := LocalReader (r : value_reader) | RemoteReader (r : grpcStreamReader).

(** The reads of a local reader with buffers of the given sizes, and how they end. *)
Definition local_reads (fuel : nat) (size : nat -> nat) (r : value_reader) : list bytes * read_end :=
  read_chunks (fun i => S (ce_chunk ce i)) ((fun i => S (size i)) <$> seq 0 fuel) r.

Definition Get (ctx : context) (key : bytes) (start end_ : Z) : C (op_error + option reader) :=
  local ← IsLocal key;
  if (local : bool) then
    r ← GetLocal key start end_;
    mret match r with inl err => inl (Plain err) | inr ob => inr (LocalReader <$> ob) end
  else
    r ← getRemote ctx key start end_;
    mret match r with inl err => inl err | inr ob => inr (RemoteReader <$> ob) end.

(** [io.ReadAll] of the reader: [None] if it has not returned, or panics. *)
Definition read_reader (fuel : nat) (size : nat -> nat) (r : reader) : option (bytes * option op_error) :=
  match r with
  | LocalReader r => match local_reads fuel size r with (chunks, AtEOF) => Some (sconcat chunks, None) | _ => None end
  | RemoteReader r => (ReadAll fuel size 0 EmptyString r).1
  end.

(** [GetRange]; [GetBytes] is the range (0, 0). *)
Definition GetRange (fuel : nat) (size : nat -> nat) (ctx : context) (key : bytes) (start end_ : Z) : C (option (op_error + option bytes)) :=
  r ← Get ctx key start end_;
  mret match r with
       | inl err => Some (inl err)
       | inr None => Some (inr None)
       | inr (Some rd) =>
           match read_reader fuel size rd with
           | None => None
           | Some (_, Some err) => Some (inl err)
           | Some (data, None) => Some (inr (Some data))
           end
       end.

Definition GetBytes (fuel : nat) (size : nat -> nat) (ctx : context) (key : bytes) : C (option (op_error + option bytes)) :=
  GetRange fuel size ctx key 0 0.

(** The writes of [io.Copy]: what was written, and the error. *)
Fixpoint copy_chunks (w : Writer) (i : nat) (chunks : list bytes) : bytes * option op_error :=
  match chunks with
  | [] => (EmptyString, None)
  | chunk :: chunks =>
      let '(n, err) := w i chunk in
      let bad := (n <? 0) || (slen chunk <? n) in
      let err := match err with None => if bad then Some (Plain (EText "invalid write result")) else None | Some err => Some err end in
      let n := if bad then 0 else n in
      match err with
      | Some err => (stake (Z.to_nat n) chunk, Some err)
      | None =>
          if n =? slen chunk then let '(written, err) := copy_chunks w (S i) chunks in (chunk +:+ written, err)
          else (stake (Z.to_nat n) chunk, Some ErrShortWrite)
      end
  end.

(** [io.Copy(w, reader)]: a local reader is read chunk by chunk, a remote one writes
    itself. A failing write ends the copy before a read that would panic. *)
Definition GetRangeStream (fuel : nat) (size : nat -> nat) (w : Writer) (ctx : context) (key : bytes) (start end_ : Z) : C (option (op_error + (bytes * bool))) :=
  r ← Get ctx key start end_;
  mret match r with
       | inl err => Some (inl err)
       | inr None => Some (inr (EmptyString, false))
       | inr (Some (LocalReader rd)) =>
           let '(chunks, e) := local_reads fuel size rd in
           match copy_chunks w 0 chunks, e with
           | (_, Some err), _ => Some (inl err)
           | (data, None), AtEOF => Some (inr (data, true))
           | _, _ => None
           end
       | inr (Some (RemoteReader rd)) =>
           match (WriteTo fuel w 0 EmptyString rd).1 with
           | None => None
           | Some (_, Some err) => Some (inl err)
           | Some (data, None) => Some (inr (data, true))
           end
       end.

(** ** cas.go *)

Definition GetReaderWithVersionLocal (key : bytes) : C (error + option bytes * Z * bool) :=
  retry_op "GetWithVersion" key (at_node self (Cas.GetWithVersion (ce_env ce self) (ce_cfg ce self) key)).

Definition getWithVersionRemote (ctx : context) (key : bytes) : C (op_error + option bytes * Z * bool) :=
  x ← remote ctx key;
  match x with
  | inl err => mret (inl err)
  | inr (ctx, dest) =>
      r ← invoke dest ctx (RGetObjectWithVersion key);
      mret match r with
           | inl err => inl err
           | inr resp =>
               if gv_Found resp then inr (Some (gv_Data resp), gv_Version resp, true)
               else inr (None, gv_Version resp, false)
           end
  end.

Definition GetWithVersion (ctx : context) (key : bytes) : C (op_error + option bytes * Z * bool) :=
  local ← IsLocal key;
  if (local : bool) then
    r ← GetReaderWithVersionLocal key;
    mret match r with inl err => inl (Plain err) | inr x => inr x end
  else getWithVersionRemote ctx key.

(** The outcome of a conditional write at its owner, from the owner's answer. *)
Definition cas_outcome (op key : bytes) (r : op_error + PutIfVersionResponse) : op_error + Z :=
  match r with
  | inl err => inl err
  | inr resp =>
      if decide (vo_Error resp <> EmptyString) then inl (operationError (vo_Error resp))
      else if vo_Success resp then inr (vo_NewVersion resp)
      else inl (Plain (NewVersionMismatchError op key (vo_CurrentVersion resp)))
  end.

Definition putIfVersionRemote (ctx : context) (key data : bytes) (ttl expected : Z) : C (op_error + Z) :=
  x ← remote ctx key;
  match x with
  | inl err => mret (inl err)
  | inr (ctx, dest) =>
      r ← invoke dest ctx (RPutObjectIfVersion (MkPutV key ttl data expected));
      mret (cas_outcome "PutIfVersion" key r)
  end.

Definition local_PutIfVersion (key : bytes) (body : Body) (ttl expected : Z) : C (op_error + Z) :=
  r ← at_node self (Cas.PutIfVersion (ce_env ce self) (ce_cfg ce self) key body ttl expected);
  mret match r with inl err => inl (Plain err) | inr v => inr v end.

Definition PutIfVersion (ctx : context) (key data : bytes) (ttl expected : Z) : C (op_error + Z) :=
  local ← IsLocal key;
  if (local : bool) then local_PutIfVersion key (MkBody data None) ttl expected
  else putIfVersionRemote ctx key data ttl expected.

Definition deleteIfVersionRemote (ctx : context) (key : bytes) (expected : Z) : C (option op_error) :=
  x ← remote ctx key;
  match x with
  | inl err => mret (Some err)
  | inr (ctx, dest) =>
      r ← invoke dest ctx (RDeleteIfVersion key expected);
      mret match r with
           | inl err => Some err
           | inr resp =>
               if decide (wo_Error resp <> EmptyString) then Some (operationError (wo_Error resp))
               else if wo_Success resp then None
               else Some (Plain (NewVersionMismatchError "DeleteIfVersion" key (wo_CurrentVersion resp)))
           end
  end.

Definition DeleteIfVersion (ctx : context) (key : bytes) (expected : Z) : C (option op_error) :=
  local ← IsLocal key;
  if (local : bool) then
    e ← at_node self (Cas.DeleteIfVersion (ce_env ce self) (ce_cfg ce self) key expected);
    mret (Plain <$> e)
  else deleteIfVersionRemote ctx key expected.

Definition PutStreamIfVersionLocal (key : bytes) (body : Body) (ttl expected : Z) : C (op_error + Z) :=
  local_PutIfVersion key body ttl expected.

(** The loop that streams the body: data that comes with an error is sent first. *)
Fixpoint send_cas_body (body : Reader) : C (list PutIfVersionRequest * sent) :=
  match body with
  | [] => mret ([], SentAll)
  | (data, err) :: body =>
      s ← (if decide (data = EmptyString) then mret None else consult (ce_send ce));
      match s with
      | Some err => mret ([], SendFailed err)
      | None =>
          '(msgs, fin) ← match err with
                         | None => send_cas_body body
                         | Some EOF => mret ([], SentAll)
                         | Some err => mret ([], ReadFailed err)
                         end;
          mret ((if decide (data = EmptyString) then [] else [MkPutV EmptyString 0 data 0]) ++ msgs, fin)
      end
  end.

Definition putStreamIfVersionRemote (ctx : context) (key : bytes) (body : Reader) (ttl expected : Z) : C (op_error + Z) :=
  x ← remote ctx key;
  match x with
  | inl err => mret (inl err)
  | inr (ctx, dest) =>
      s ← consult (ce_send ce);
      '(msgs, how) ← match s with
                     | Some err => mret ([], SendFailed err)
                     | None => '(msgs, fin) ← send_cas_body body; mret (MkPutV key ttl EmptyString expected :: msgs, fin)
                     end;
      match how with
      | SentAll =>
          r ← invoke dest ctx (RPutStreamIfVersion msgs None);
          mret (cas_outcome "PutStreamIfVersion" key r)
      | SendFailed EOF =>
          r ← invoke dest ctx (RPutStreamIfVersion msgs (Some gone));
          mret (cas_outcome "PutStreamIfVersion" key r)
      | ReadFailed err | SendFailed err =>
          _ ← invoke dest ctx (RPutStreamIfVersion msgs (Some gone)); mret (inl err)
      end
  end.

Definition PutStreamIfVersion (ctx : context) (key : bytes) (body : Reader) (ttl expected : Z) : C (op_error + Z) :=
  local ← IsLocal key;
  if (local : bool) then PutStreamIfVersionLocal key (read_all body) ttl expected
  else putStreamIfVersionRemote ctx key body ttl expected.

(** [getStreamWithVersionRemote] with a writer that takes everything: what it wrote, the
    version and presence. *)
Definition getStreamWithVersionRemote (ctx : context) (key : bytes) : C (bytes * (op_error + Z * bool)) :=
  x ← remote ctx key;
  match x with
  | inl err => mret (EmptyString, inl err)
  | inr (ctx, dest) =>
      r ← peer dest (outgoing ctx) (RGetStreamWithVersion key);
      mret match r with
           | inl err | inr (inl err) => (EmptyString, inl err)
           | inr (inr ([], fin)) => (EmptyString, inl (default EOF fin))
           | inr (inr (first :: msgs, fin)) =>
               if gv_Found first then
                 (gv_Data first +:+ sconcat (gv_Data <$> msgs),
                  match fin with Some err => inl err | None => inr (gv_Version first, true) end)
               else (EmptyString, inr (gv_Version first, false))
           end
  end.

Definition GetStreamWithVersion (ctx : context) (key : bytes) : C (bytes * (op_error + Z * bool)) :=
  local ← IsLocal key;
  if (local : bool) then
    r ← GetReaderWithVersionLocal key;
    mret match r with
         | inl err => (EmptyString, inl (Plain err))
         | inr (Some data, version, true) => (data, inr (version, true))
         | inr (_, version, found) => (EmptyString, inr (version, found))
         end
  else getStreamWithVersionRemote ctx key.

End Node.

End Cluster.
