(* ===== verification/Service.v ===== *)
(** * The service of a node and the cluster (server/service: service.go, put.go, put_object.go, get.go, delete.go, cas.go, list.go, list_with_values.go)

    The gRPC handlers: a request for a key of the node is served from its storage, any
    other is forwarded. [serve] ties the nodes together: a forwarded request is served by
    the handlers of the node it is sent to, which may forward it again. *)

From S2P Require Import Prelude Keys Errors Retry Message Merge Rocks World Files RangeReader Storage Listing Cas Rpc StreamReader Operations.

Open Scope Z_scope.

(** [putFailure] *)
Definition putFailure (err : op_error) : PutResponse :=
  let userErr := mapStorageErrorToGRPC err in
  let code := match status_FromError userErr with Some (code, _) => code | None => Unknown end in
  MkPutResp false (op_Error userErr) code (op_IsOverBudget err).

(** A failure response with only its text. *)
Definition put_refused (text : bytes) : PutResponse := MkPutResp false text OK false.
Definition put_done : PutResponse := MkPutResp true EmptyString OK false.

Section Service.

Context {DB SM : Type} `{RocksDB DB} {PB : Protobuf} `{SegmentStore SM} (ce : ClusterEnv).
Notation C := (C (DB := DB) (SM := SM)).
Notation Peer := (Peer (DB := DB) (SM := SM)).

Section Handlers.

Context (self : bytes) (peer : Peer).

(** ** put.go *)

(** The pipe between the stream and the storage: the data of the messages, then the
    stream's end. *)
Definition pipe_reader (msgs : list bytes) (fin : option op_error) : Reader :=
  ((fun data => (data, None)) <$> msgs) ++ match fin with Some err => [(EmptyString, Some err)] | None => [] end.

(** The storage's own error is preferred over the stream's. *)
Definition firstErr (primary fallback : option op_error) : option op_error :=
  match primary with Some _ => primary | None => fallback end.

Definition handleLocalPut (first : PutRequest) (rest : list PutRequest) (fin : option op_error) : C PutResponse :=
  refused ← (if pq_ShedOverBudget first then consult (fun n => ce_shed ce n self) else mret false);
  if (refused : bool) then mret (putFailure (Plain (NewOverBudgetError "Put")))
  else
    e ← PutLocalWithOptions ce self (pq_Key first)
          (MkPutBody (pipe_reader (pq_Data <$> first :: rest) fin) None) (pq_TtlSeconds first) false;
    mret match firstErr e fin with Some err => putFailure err | None => put_done end.

(** Sending on the owner's stream: what was sent, and the failure. *)
Fixpoint relay_send {A} (msgs : list A) : C (list A * option op_error) :=
  match msgs with
  | [] => mret ([], None)
  | m :: msgs =>
      s ← consult (ce_send ce);
      match s with
      | Some err => mret ([], Some err)
      | None => '(sent, err) ← relay_send msgs; mret (m :: sent, err)
      end
  end.

Definition relay (r : op_error + PutResponse) : PutResponse :=
  match r with
  | inl err => put_refused ("error from remote node: " +:+ op_Error err)
  | inr resp => resp
  end.

(** [client.Put] and [relayPut]. When the client's stream fails, the owner's is closed
    for sending and the handler returns. *)
Definition relayPut (dest : bytes) (ctx : context) (msgs : list PutRequest) (fin : option op_error) : C PutResponse :=
  '(sent, failed) ← relay_send msgs;
  let ask end_ (answer : op_error + PutResponse -> PutResponse) : C PutResponse :=
    r ← peer dest (outgoing ctx) (RPut sent end_);
    mret match r with
         | inl err => put_refused ("failed to connect to remote node: " +:+ op_Error err)
         | inr y => answer y
         end in
  match failed with
  | Some EOF => ask (Some gone) relay
  | Some err =>
      ask (Some gone) (fun _ => put_refused ((if decide (sent = []) then "failed to forward to remote node: "
                                              else "failed to forward chunk to remote node: ") +:+ op_Error err))
  | None =>
      match fin with
      | None => ask None relay
      | Some err =>
          closed ← consult (ce_halfclose ce);
          ask closed (fun _ => put_refused ("error receiving chunk: " +:+ op_Error err))
      end
  end.

(** [RouteContext], then [IncrementHopCount]: the handlers' order. *)
Definition forward {A} (ctx : context) (key : bytes) (no_route hops : op_error -> A) (k : bytes -> context -> C A) : C A :=
  r ← RouteContext ce self key;
  match r with
  | inl err => mret (no_route err)
  | inr dest =>
      match IncrementHopCount ctx self with
      | inl err => mret (hops err)
      | inr ctx => k dest ctx
      end
  end.

Definition forwardStreamingPut (ctx : context) (first : PutRequest) (rest : list PutRequest) (fin : option op_error) : C PutResponse :=
  forward ctx (pq_Key first) (fun err => put_refused ("routing error: " +:+ op_Error err))
    (fun err => put_refused (op_Error err)) (fun dest ctx => relayPut dest ctx (first :: rest) fin).

Definition Put (ctx : context) (msgs : list PutRequest) (fin : option op_error) : C PutResponse :=
  match msgs with
  | [] => mret (put_refused (op_Error (default EOF fin)))
  | first :: rest =>
      if decide (pq_Key first = EmptyString) then mret (put_refused "missing key")
      else
        local ← IsLocal ce self (pq_Key first);
        if (local : bool) then handleLocalPut first rest fin else forwardStreamingPut ctx first rest fin
  end.

(** ** put_object.go *)

Definition missing_key : op_error := StatusError InvalidArgument "missing key".

Definition PutObject (ctx : context) (req : PutRequest) : C PutResponse :=
  if decide (pq_Key req = EmptyString) then mret (put_refused (op_Error missing_key))
  else
    e ← PutWithOptions ce self peer ctx (pq_Key req) (bytes_reader (pq_Data req)) (pq_TtlSeconds req) (pq_ShedOverBudget req);
    mret match e with Some err => putFailure err | None => put_done end.

(** ** get.go *)

(** Sending chunks to the client: what was sent, and the failure if one occurred. *)
Definition stream_out {A} (chunks : list A) (fin : option op_error) : C (list A * option op_error) :=
  '(sent, failed) ← relay_send chunks;
  mret (sent, match failed with Some err => Some err | None => fin end).

Definition buffer_reads (size : nat -> nat) (data : bytes) : list bytes :=
  reads size DefaultStreamBufferSize (String.length data) 0 data.

(** The handler's reads of a stored value: every one but the last returns a byte, so its
    length is enough. *)
Definition handler_reads (rd : value_reader) : list bytes * read_end :=
  read_chunks (fun i => S (ce_chunk ce i)) (replicate (S (String.length (vr_value rd))) DefaultStreamBufferSize) rd.

(** What [StreamServerRecoveryInterceptor] makes of a panic: the stream ends in the error
    of [recoverPanic]. *)
Definition after_reads (e : read_end) : option op_error :=
  match e with
  | AtPanic => match recoverPanic (Resp := ()) None with inl err => Some err | inr _ => None end
  | _ => None
  end.

(** The handler's stream is the range of the value, unless the range ends at the largest
    int64: then it is empty and ends in the interceptor's error. *)
Lemma handler_reads_range data start end_ :
  is_i64 start -> is_i64 end_ -> slen data + Z.max 0 start < two63 - 2000000 ->
  let '(chunks, e) := handler_reads (get_reader data start end_) in
  if end_ =? two63 - 1 then chunks = [] /\ after_reads e = Some (StatusError Internal "internal error")
  else sconcat chunks = byte_range data start end_ /\ after_reads e = None.
Proof using Type.
  intros Hs He Hd. unfold handler_reads.
  assert (String.length (vr_value (get_reader data start end_)) = String.length data) as El by (unfold get_reader; by case_match).
  assert (slen data < two63) as Hd' by lia.
  pose proof (get_reader_reads data start end_ Hs He Hd' (fun i => S (ce_chunk ce i))
    (replicate (S (String.length (vr_value (get_reader data start end_)))) DefaultStreamBufferSize)) as H'.
  rewrite El in *. specialize (H' ltac:(apply Forall_replicate; unfold buffer_ok, DefaultStreamBufferSize; lia) ltac:(rewrite length_replicate; lia)).
  destruct (end_ =? two63 - 1); [by rewrite H'|]. destruct H' as (chunks & -> & Hc). done.
Qed.

Definition forwardStreamingGet (ctx : context) (req : GetRequest) : C (list bytes * option op_error) :=
  forward ctx (gq_Key req) (fun err => ([], Some (StatusError Unavailable ("routing error: " +:+ op_Error err))))
    (fun err => ([], Some err))
    (fun dest ctx =>
       r ← peer dest (outgoing ctx) (RGet req);
       match r with
       | inl err => mret ([], Some (StatusError Unavailable ("failed to connect to remote node: " +:+ op_Error err)))
       | inr (inl err) => mret ([], Some (StatusError Unavailable ("error from remote node: " +:+ op_Error err)))
       | inr (inr (chunks, fin)) =>
           stream_out chunks ((fun err => StatusError Unavailable ("error from remote node: " +:+ op_Error err)) <$> fin)
       end).

Definition Get (ctx : context) (req : GetRequest) : C (list bytes * option op_error) :=
  local ← IsLocal ce self (gq_Key req);
  if (local : bool) then
    r ← GetLocal ce self (gq_Key req) (gq_Start req) (gq_End req);
    match r with
    | inl err => mret ([], Some (mapStorageErrorToGRPC (Plain err)))
    | inr None => mret ([], Some (StatusError NotFound "key not found"))
    | inr (Some rd) => let '(chunks, e) := handler_reads rd in stream_out chunks (after_reads e)
    end
  else forwardStreamingGet ctx req.

(** ** delete.go *)

Definition Delete (ctx : context) (key : bytes) : C DeleteResponse :=
  if decide (key = EmptyString) then mret (MkDelResp false (op_Error missing_key))
  else
    e ← Operations.Delete ce self peer ctx key;
    mret match e with
         | Some err => MkDelResp false (op_Error (mapStorageErrorToGRPC err))
         | None => MkDelResp true EmptyString
         end.

(** ** cas.go *)

Definition GetObjectWithVersion (ctx : context) (key : bytes) : C (op_error + GetWithVersionResponse) :=
  if decide (key = EmptyString) then mret (inl missing_key)
  else
    r ← Operations.GetWithVersion ce self peer ctx key;
    mret match r with
         | inl err => inl (mapStorageErrorToGRPC err)
         | inr (data, version, found) => inr (MkGetV (default EmptyString data) version found)
         end.

(** The response to a conditional put, or the status of a real failure. *)
Definition cas_response (r : op_error + Z) : op_error + PutIfVersionResponse :=
  match r with
  | inr version => inr (MkPutVResp true version 0 EmptyString)
  | inl err =>
      match op_IsVersionMismatch err with
      | Some current => inr (MkPutVResp false 0 current EmptyString)
      | None => inl (mapStorageErrorToGRPC err)
      end
  end.

Definition PutObjectIfVersion (ctx : context) (req : PutIfVersionRequest) : C (op_error + PutIfVersionResponse) :=
  if decide (vq_Key req = EmptyString) then mret (inr (MkPutVResp false 0 0 (op_Error missing_key)))
  else
    r ← Operations.PutIfVersion ce self peer ctx (vq_Key req) (vq_Data req) (vq_TtlSeconds req) (vq_ExpectedVersion req);
    mret (cas_response r).

Definition DeleteIfVersion (ctx : context) (key : bytes) (expected : Z) : C (op_error + DeleteIfVersionResponse) :=
  if decide (key = EmptyString) then mret (inr (MkDelVResp false 0 (op_Error missing_key)))
  else
    e ← Operations.DeleteIfVersion ce self peer ctx key expected;
    mret match e with
         | None => inr (MkDelVResp true 0 EmptyString)
         | Some err =>
             match op_IsVersionMismatch err with
             | Some current => inr (MkDelVResp false current EmptyString)
             | None => inl (mapStorageErrorToGRPC err)
             end
         end.

(** The stream is pumped into the storage; a failed upload aborts unless the storage
    closed the pipe first. *)
Definition handleLocalPutStreamIfVersion (first : PutIfVersionRequest) (rest : list PutIfVersionRequest) (fin : option op_error) :
    C (op_error + PutIfVersionResponse) :=
  r ← PutStreamIfVersionLocal ce self (vq_Key first) (read_all (pipe_reader (vq_Data <$> first :: rest) fin))
        (vq_TtlSeconds first) (vq_ExpectedVersion first);
  match r, fin with
  | inl err, Some pumpErr =>
      match op_IsVersionMismatch err with
      | Some _ => mret (cas_response r)
      | None =>
          fromClient ← consult (ce_pump ce);
          mret (if (fromClient : bool) then inl (StatusError Aborted (op_Error pumpErr)) else cas_response r)
      end
  | _, _ => mret (cas_response r)
  end.

Definition forwardStreamingPutIfVersion (ctx : context) (first : PutIfVersionRequest) (rest : list PutIfVersionRequest) (fin : option op_error) :
    C (op_error + PutIfVersionResponse) :=
  forward ctx (vq_Key first) (fun err => inl (StatusError Unavailable ("routing error: " +:+ op_Error err)))
    (fun err => inl (StatusError Aborted (op_Error err)))
    (fun dest ctx =>
       '(sent, failed) ← relay_send (first :: rest);
       let ask end_ (answer : op_error + PutIfVersionResponse -> op_error + PutIfVersionResponse) : C (op_error + PutIfVersionResponse) :=
         r ← peer dest (outgoing ctx) (RPutStreamIfVersion sent end_);
         mret match r with
              | inl err => inl (StatusError Unavailable ("failed to connect to owner: " +:+ op_Error err))
              | inr y => answer y
              end in
       match failed, fin with
       | Some EOF, _ => ask (Some gone) id
       | Some err, _ | None, Some err => ask (Some gone) (fun _ => inl err)
       | None, None => ask None id
       end).

Definition PutStreamIfVersion (ctx : context) (msgs : list PutIfVersionRequest) (fin : option op_error) : C (op_error + PutIfVersionResponse) :=
  match msgs with
  | [] => mret (inl (StatusError InvalidArgument (op_Error (default EOF fin))))
  | first :: rest =>
      if decide (vq_Key first = EmptyString) then mret (inl missing_key)
      else
        local ← IsLocal ce self (vq_Key first);
        if (local : bool) then handleLocalPutStreamIfVersion first rest fin else forwardStreamingPutIfVersion ctx first rest fin
  end.

Definition forwardStreamingGetWithVersion (ctx : context) (key : bytes) : C (list GetWithVersionResponse * option op_error) :=
  forward ctx key (fun err => ([], Some (StatusError Unavailable ("routing error: " +:+ op_Error err))))
    (fun err => ([], Some (StatusError Aborted (op_Error err))))
    (fun dest ctx =>
       r ← peer dest (outgoing ctx) (RGetStreamWithVersion key);
       match r with
       | inl err => mret ([], Some (StatusError Unavailable ("failed to connect to owner: " +:+ op_Error err)))
       | inr (inl err) => mret ([], Some err)
       | inr (inr (msgs, fin)) => stream_out msgs fin
       end).

Definition GetStreamWithVersion (ctx : context) (key : bytes) : C (list GetWithVersionResponse * option op_error) :=
  if decide (key = EmptyString) then mret ([], Some missing_key)
  else
    local ← IsLocal ce self key;
    if (local : bool) then
      r ← GetReaderWithVersionLocal ce self key;
      match r with
      | inl err => mret ([], Some (mapStorageErrorToGRPC (Plain err)))
      | inr (Some data, version, true) =>
          stream_out (MkGetV EmptyString version true :: ((fun d => MkGetV d 0 false) <$> buffer_reads (ce_chunk ce) data)) None
      | inr (_, version, _) => stream_out [MkGetV EmptyString version false] None
      end
    else forwardStreamingGetWithVersion ctx key.

(** ** One request at one node *)

Definition handle (ctx : context) (r : request) : C (op_error + response r) :=
  match r return C (op_error + response r) with
  | RPut msgs fin => x ← Put ctx msgs fin; mret (inr x)
  | RPutObject req => x ← PutObject ctx req; mret (inr x)
  | RGet req => '(chunks, fin) ← Get ctx req; mret (inr (chunks, wire_error <$> fin))
  | RDelete key => x ← Delete ctx key; mret (inr x)
  | RGetObjectWithVersion key => GetObjectWithVersion ctx key
  | RPutObjectIfVersion req => PutObjectIfVersion ctx req
  | RDeleteIfVersion key expected => DeleteIfVersion ctx key expected
  | RPutStreamIfVersion msgs fin => PutStreamIfVersion ctx msgs fin
  | RGetStreamWithVersion key => '(msgs, fin) ← GetStreamWithVersion ctx key; mret (inr (msgs, wire_error <$> fin))
  end.

Definition is_stream (r : request) : bool :=
  match r with
  | RPut _ _ | RGet _ | RPutStreamIfVersion _ _ | RGetStreamWithVersion _ => true
  | RPutObject _ | RDelete _ | RGetObjectWithVersion _ | RPutObjectIfVersion _ | RDeleteIfVersion _ _ => false
  end.

(** The interceptors that [StartGRPCServer] chains: recovery outermost, the epoch and hop
    check with a coordinator only. *)
Definition intercepted (md : MD) (r : request) : C (op_error + response r) :=
  let run : handler (St := Cluster DB SM) (Req := ()) (Resp := response r) :=
    fun ctx _ => x ← handle ctx r; mret (Some x) in
  let epoch := consult (fun n => ce_epoch ce n self) in
  let chain : handler (St := Cluster DB SM) (Req := ()) (Resp := response r) :=
    if ce_clustered ce self then
      if is_stream r then StreamServerEpochInterceptor run
      else fun ctx req => '(x, _) ← UnaryServerEpochInterceptor epoch run ctx req; mret x
    else run in
  x ← UnaryServerRecoveryInterceptor chain (MkCtx (Some md) []) ();
  mret match x with inl err => inl (wire_error err) | inr resp => inr resp end.

End Handlers.

(** ** The cluster

    A call that a node makes is served by the node it is connected to. [fuel] bounds the
    chain of forwarding nodes; [stuck] is what a chain that exceeds it returns. *)
Fixpoint serve (stuck : status) (fuel : nat) : Peer := fun dest md r =>
  match fuel with
  | O => mret (inl (of_status stuck))
  | S fuel =>
      o ← consult (ce_open ce);
      match o with
      | Some st => mret (inl (of_status st))
      | None =>
          x ← intercepted dest (serve stuck fuel) md r;
          l ← consult (ce_lost ce);
          mret match l with Some st => inr (inl (of_status st)) | None => inr x end
      end
  end.

End Service.

(** ** list.go, list_with_values.go

    [listed] is what the operations answer: keys or entries, a token, whether more follow. *)

Record ListRequest := MkListReq { lq_Prefix : bytes; lq_StartKey : bytes; lq_Limit : Z; lq_ContinuationToken : bytes }.

(** [ListResponse] and [ListWithValuesResponse]. *)
Record ListResponse (A : Type) := MkListResp { lr_Items : list A; lr_ContinuationToken : bytes; lr_HasMore : bool }.
Arguments MkListResp {A}.
Arguments lr_Items {A}.
Arguments lr_ContinuationToken {A}.
Arguments lr_HasMore {A}.

(** A start key stands in for an absent token. *)
Definition request_token (req : ListRequest) : bytes :=
  if decide (lq_ContinuationToken req = EmptyString /\ lq_StartKey req <> EmptyString) then lq_StartKey req
  else lq_ContinuationToken req.

Section ListHandlers.

Context {St : Type}.

Definition list_handler {A} (page : bytes -> Z -> bytes -> ST St (op_error + list A * bytes * bool)) (req : ListRequest)
    : ST St (op_error + ListResponse A) :=
  r ← page (lq_Prefix req) (lq_Limit req) (request_token req);
  mret match r with
       | inl err => inl (mapStorageErrorToGRPC err)
       | inr (items, token, hasMore) => inr (MkListResp items token hasMore)
       end.

(** What the operations of the node do: [ListPage], [ListLocal] and their forms with values. *)
Context (ops_ListPage ops_ListLocal : bytes -> Z -> bytes -> ST St (op_error + list bytes * bytes * bool)).
Context (ops_ListPageWithValues ops_ListLocalWithValues : bytes -> Z -> bytes -> ST St (op_error + list KeyValue * bytes * bool)).

Definition List (req : ListRequest) : ST St (op_error + ListResponse bytes) := list_handler ops_ListPage req.
Definition ListLocal (req : ListRequest) : ST St (op_error + ListResponse bytes) := list_handler ops_ListLocal req.
Definition ListWithValues (req : ListRequest) : ST St (op_error + ListResponse KeyValue) := list_handler ops_ListPageWithValues req.
Definition ListLocalWithValues (req : ListRequest) : ST St (op_error + ListResponse KeyValue) := list_handler ops_ListLocalWithValues req.

End ListHandlers.
