(* ===== verification/ServiceProps.v ===== *)
(** * Forwarding in a cluster

    However the nodes disagree about owners and whatever the network does: a request is
    forwarded a bounded number of times; a conditional write is applied at one node at
    most; and where the nodes agree on the owner it does not matter which node is asked. *)

From S2P Require Import Prelude Keys Errors Retry Message Merge Rocks World Files RangeReader Storage Cas Rpc StreamReader Operations Service.

Open Scope Z_scope.

(** Two runs agree if their first parts do and the rest does on what these return. *)
Lemma bind_ext {W A B} (c1 c2 : ST W A) (k1 k2 : A -> ST W B) w :
  c1 w = c2 w -> (forall a w', c1 w = (a, w') -> k1 a w' = k2 a w') -> (c1 ≫= k1) w = (c2 ≫= k2) w.
Proof. intros E Hk. unfold mbind, ST_bind. rewrite <- E. destruct (c1 w) as [a w'] eqn:Ec. by apply Hk. Qed.

Section Forwarding.

Context {DB SM : Type} `{RocksDB DB} {PB : Protobuf} `{SegmentStore SM} (ce : ClusterEnv).
Notation C := (C (DB := DB) (SM := SM)).
Notation Peer := (Peer (DB := DB) (SM := SM)).
Implicit Types (c : Cluster DB SM) (p q : Peer).

(** The hop count of a request. *)
Definition hops (md : MD) : Z := HopCount (ExtractRequestMetadata (MkCtx (Some md) [])).

(** Two services that answer alike the requests which come after [h] hops. *)
Definition alike (h : Z) p q : Prop := forall dest md r c, hops md = h -> p dest md r c = q dest md r c.

Section Node.

Context (self : bytes) (md : MD) (p q : Peer) (Hpq : hops md <= MaxHops -> alike (hops md + 1) p q).
Notation ctx := (MkCtx (Some md) []).

Lemma forwarded_alike ctx' dest r c :
  IncrementHopCount ctx self = inr ctx' -> p dest (outgoing ctx') r c = q dest (outgoing ctx') r c.
Proof using Hpq.
  intros E. destruct (IncrementHopCount_carries ctx self ctx' eq_refl E) as [Hh Hn].
  apply Hpq; [apply Hh|]. exact Hn.
Qed.

Lemma invoke_alike ctx' dest r c :
  IncrementHopCount ctx self = inr ctx' -> invoke p dest ctx' r c = invoke q dest ctx' r c.
Proof using Hpq. intros. unfold invoke. apply bind_ext; [by apply forwarded_alike|done]. Qed.

Lemma remote_forwards key c ctx' dest c' :
  remote ce self ctx key c = (inr (ctx', dest), c') -> IncrementHopCount ctx self = inr ctx'.
Proof.
  unfold remote. destruct (IncrementHopCount ctx self) as [|x]; [done|]. unfold mbind, ST_bind.
  destruct (RouteContext ce self key c) as [[|d] c1]; [done|]. by intros [= <- <- <-].
Qed.

(** Runs both sides step by step up to the call of the peer. *)
Ltac alike_step :=
  match goal with
  | |- (?x ≫= _) ?c = (?x ≫= _) ?c => apply bind_ext; [done|]; intros ? ? ?
  | |- (_ ≫= _) _ = (_ ≫= _) _ => apply bind_ext; [|intros ? ? ?]
  | |- @invoke _ _ _ ?d ?x ?r ?w = _ => apply (invoke_alike x d r w)
  | |- p ?d (outgoing ?x) ?r ?w = _ => apply (forwarded_alike x d r w)
  | |- context [match ?x with _ => _ end] => destruct x eqn:?
  end; simplify_eq; try done; eauto using remote_forwards.

Ltac alike := repeat alike_step.

Lemma SendPutStream_alike ctx' dest first body c :
  IncrementHopCount ctx self = inr ctx' -> SendPutStream ce p dest ctx' first body c = SendPutStream ce q dest ctx' first body c.
Proof using Hpq. intros. unfold SendPutStream. alike. Qed.

Lemma forward_alike {A} key no_route hop (k1 k2 : bytes -> context -> C A) c :
  (forall dest ctx' c, IncrementHopCount ctx self = inr ctx' -> k1 dest ctx' c = k2 dest ctx' c) ->
  forward ce self ctx key no_route hop k1 c = forward ce self ctx key no_route hop k2 c.
Proof. intros Hk. unfold forward. apply bind_ext; [done|]. intros [|dest] c1 _; [done|]. destruct (IncrementHopCount ctx self) eqn:E; [done|]. by apply Hk. Qed.

Lemma relayPut_alike dest ctx' msgs fin c :
  IncrementHopCount ctx self = inr ctx' -> relayPut ce p dest ctx' msgs fin c = relayPut ce q dest ctx' msgs fin c.
Proof using Hpq. intros. unfold relayPut. alike. Qed.

(** A handler depends on its peers only through requests that came one hop further. *)
Lemma handle_alike r c : handle ce self p ctx r c = handle ce self q ctx r c.
Proof using Hpq.
  destruct r; cbn [handle].
  - apply bind_ext; [|done]. unfold Put. alike. unfold forwardStreamingPut. apply forward_alike. intros. by apply relayPut_alike.
  - apply bind_ext; [|done]. unfold PutObject, PutWithOptions, putRemote. alike. apply SendPutStream_alike. eauto using remote_forwards.
  - apply bind_ext; [|done]. unfold Service.Get. alike. unfold forwardStreamingGet. apply forward_alike. intros. alike.
  - apply bind_ext; [|done]. unfold Service.Delete, Operations.Delete, deleteRemote. alike.
  - unfold GetObjectWithVersion, Operations.GetWithVersion, getWithVersionRemote. alike.
  - unfold PutObjectIfVersion, Operations.PutIfVersion, putIfVersionRemote. alike.
  - unfold Service.DeleteIfVersion, Operations.DeleteIfVersion, deleteIfVersionRemote. alike.
  - unfold Service.PutStreamIfVersion. alike. unfold forwardStreamingPutIfVersion. apply forward_alike. intros. alike.
  - apply bind_ext; [|done]. unfold Service.GetStreamWithVersion. alike. unfold forwardStreamingGetWithVersion. apply forward_alike. intros. alike.
Qed.

End Node.

Lemma intercepted_alike self md p q r c :
  (hops md <= MaxHops -> alike (hops md + 1) p q) -> intercepted ce self p md r c = intercepted ce self q md r c.
Proof.
  intros Hpq. unfold intercepted, UnaryServerRecoveryInterceptor.
  assert (forall c, handle ce self p (MkCtx (Some md) []) r c = handle ce self q (MkCtx (Some md) []) r c) as Hh by (intros; by apply handle_alike).
  apply bind_ext; [|done]. apply bind_ext; [|done]. destruct (ce_clustered ce self); [|apply bind_ext; [apply Hh|done]].
  destruct (is_stream r); [|apply bind_ext; [|done]]; unfold StreamServerEpochInterceptor, UnaryServerEpochInterceptor;
    (destruct (CheckHopCount _); [done|]; repeat (apply bind_ext; [apply Hh || (apply bind_ext; [apply Hh|done])|done])).
Qed.

(** The nodes a request that came after [h] hops may still visit, itself included. *)
Definition visits (h : Z) : nat := if MaxHops <? h then 1%nat else Z.to_nat (MaxHops + 2 - h).

(** C6: forwarding ends. However the nodes of a cluster disagree about the owner of a key
    and whatever the network does, a request that came after [h] hops visits at most
    [visits h] nodes, five for a request of a client: with that much fuel the cluster's
    answer and its effect on every node are fixed, and what a longer chain would return
    plays no part. *)
Theorem forwarding_terminates stuck stuck' fuel fuel' dest md r c :
  (visits (hops md) <= fuel)%nat -> (visits (hops md) <= fuel')%nat ->
  serve ce stuck fuel dest md r c = serve ce stuck' fuel' dest md r c.
Proof.
  revert fuel' dest md r c. induction fuel as [|fuel IH]; intros fuel' dest md r c Hf Hf'.
  { unfold visits, MaxHops in Hf. case_match; bool_facts; lia. }
  destruct fuel' as [|fuel']. { unfold visits, MaxHops in Hf'. case_match; bool_facts; lia. }
  cbn [serve]. apply bind_ext; [done|]. intros [|] c1 _; [done|]. apply bind_ext; [|done]. apply intercepted_alike.
  intros Hle dest' md' r' c' Hh. apply IH; rewrite Hh; unfold visits, MaxHops in *; repeat case_match; bool_facts; lia.
Qed.

(** ** A conditional write is applied at most once *)

Definition untouched c c' : Prop := forall n, cl_world c' n = cl_world c n.
Definition changed_at (node : bytes) (w : World DB SM) c c' : Prop :=
  forall n, cl_world c' n = if decide (n = node) then w else cl_world c n.

Lemma untouched_refl c : untouched c c.
Proof. by intros n. Qed.

Lemma untouched_trans c1 c2 c3 : untouched c1 c2 -> untouched c2 c3 -> untouched c1 c3.
Proof. intros H1 H2 n. by rewrite H2, H1. Qed.

Lemma wp_consult {A} (f : nat -> A) Q c :
  (forall a c', untouched c c' -> Q a c') -> wp (consult f) Q c.
Proof. intros HQ. by apply HQ. Qed.

(** Neither routing nor the hop check reports a version mismatch. *)
Definition no_mismatch {A} (r : op_error + A) : Prop := match r with inl err => op_IsVersionMismatch err = None | inr _ => True end.

Lemma wp_RouteContext self key Q c :
  (forall r c', untouched c c' -> no_mismatch r -> Q r c') -> wp (RouteContext ce self key) Q c.
Proof. intros HQ. apply wp_bind, wp_consult. intros. apply wp_ret, HQ; [done|]. by case_match. Qed.

Lemma wp_IsLocal self key Q c :
  (forall b c', untouched c c' -> Q b c') -> wp (IsLocal ce self key) Q c.
Proof. intros HQ. unfold IsLocal. case_match; [by apply wp_consult|apply wp_ret; by apply HQ]. Qed.

Lemma wp_remote self ctx key Q c :
  (forall r c', untouched c c' -> no_mismatch r -> Q r c') -> wp (remote ce self ctx key) Q c.
Proof.
  intros HQ. unfold remote. destruct (IncrementHopCount ctx self) eqn:E.
  - apply wp_ret, HQ; [apply untouched_refl|]. unfold IncrementHopCount, CheckHopCount in E. repeat case_match; by simplify_eq.
  - apply wp_bind, wp_RouteContext. intros. apply wp_ret, HQ; [done|]. by case_match.
Qed.

Lemma wp_at_node {A} node (op : World.M (DB := DB) (SM := SM) A) Q c :
  (forall r w c', op (cl_world c node) = (r, w) -> changed_at node w c c' -> Q r c') -> wp (at_node node op) Q c.
Proof. intros HQ. unfold wp, at_node. destruct (op (cl_world c node)) as [r w] eqn:E. by eapply HQ. Qed.

Lemma wp_intercepted self p md r (Q : op_error + response r -> Cluster DB SM -> Prop) c :
  (forall err c', untouched c c' -> Q (inl (wire_error err)) c') ->
  wp (handle ce self p (MkCtx (Some md) []) r)
    (fun x c' => forall c'', untouched c' c'' -> Q (match x with inl err => inl (wire_error err) | inr resp => inr resp end) c'') c ->
  wp (intercepted ce self p md r) Q c.
Proof.
  intros Hrej Hh. unfold intercepted, UnaryServerRecoveryInterceptor. apply wp_bind, wp_bind.
  assert (forall c, untouched c c) as Hrefl by apply untouched_refl.
  destruct (ce_clustered ce self).
  - destruct (is_stream r); [unfold StreamServerEpochInterceptor|apply wp_bind; unfold UnaryServerEpochInterceptor];
      (destruct (CheckHopCount _); [repeat apply wp_ret; by apply Hrej|]).
    + apply wp_bind. eapply wp_mono; [exact Hh|]. intros x c' HQ. repeat apply wp_ret. by apply HQ.
    + apply wp_bind, wp_bind. eapply wp_mono; [exact Hh|]. intros x c' HQ. apply wp_ret, wp_bind, wp_consult. intros. repeat apply wp_ret. by apply HQ.
  - apply wp_bind. eapply wp_mono; [exact Hh|]. intros x c' HQ. repeat apply wp_ret. by apply HQ.
Qed.

Section AtMostOnce.

Context (req : PutIfVersionRequest).

(** The storage operation the request asks for, at a node. *)
Definition cas_run (node : bytes) : World.M (DB := DB) (SM := SM) (error + Z) :=
  Cas.PutIfVersion (ce_env ce node) (ce_cfg ce node) (vq_Key req) (MkBody (vq_Data req) None) (vq_TtlSeconds req) (vq_ExpectedVersion req).

(** The answer tells the outcome of the storage operation. *)
Definition tells (resp : PutIfVersionResponse) (r : error + Z) : Prop :=
  if vo_Success resp then r = inr (vo_NewVersion resp)
  else exists err, r = inl err /\ IsVersionMismatch err = Some (vo_CurrentVersion resp).

Definition cas_effect c (x : op_error + PutIfVersionResponse) c' : Prop :=
  (untouched c c' /\ forall resp, x = inr resp -> vo_Success resp = false /\ vo_Error resp <> EmptyString)
  \/ exists node r w, cas_run node (cl_world c node) = (r, w) /\ changed_at node w c c' /\ (forall resp, x = inr resp -> tells resp r).

Lemma cas_effect_before c0 c x c' : untouched c0 c -> cas_effect c x c' -> cas_effect c0 x c'.
Proof.
  intros Hu [[Hu' Hx]|(node & r & w & E & Hc & Hx)]; [left; split; [by eapply untouched_trans|done]|].
  right. exists node, r, w. rewrite <- (Hu node). split_and!; [done| |done]. intros n. rewrite Hc. case_match; [done|]. apply Hu.
Qed.

Lemma cas_effect_after c x c' c'' : untouched c' c'' -> cas_effect c x c' -> cas_effect c x c''.
Proof.
  intros Hu [[Hu' Hx]|(node & r & w & E & Hc & Hx)]; [left; split; [by eapply untouched_trans|done]|].
  right. exists node, r, w. split_and!; [done| |done]. intros n. by rewrite Hu, Hc.
Qed.

(** An answer that tells less. *)
Lemma cas_effect_weaken c x y c' : (forall resp, y = inr resp -> x = inr resp) -> cas_effect c x c' -> cas_effect c y c'.
Proof. intros Hxy [[Hu Hx]|(node & r & w & E & Hc & Hx)]; [left|right]; eauto 10. Qed.

(** A node that relays the owner's answer tells the same. *)
Lemma cas_effect_relayed c x c' :
  (forall err, x = inl err -> op_IsVersionMismatch err = None) ->
  cas_effect c x c' -> cas_effect c (cas_response (cas_outcome "PutIfVersion" (vq_Key req) x)) c'.
Proof.
  intros Hst. destruct x as [err|resp]; cbn [cas_outcome cas_response].
  { rewrite (Hst err eq_refl). by apply cas_effect_weaken. }
  case_decide as Herr; [by apply cas_effect_weaken|].
  intros [[_ Hx]|(node & r & w & E & Hc & Hx)]; [by destruct (Hx resp eq_refl)|]. right. exists node, r, w. split_and!; [done..|].
  specialize (Hx resp eq_refl). unfold tells in *. destruct (vo_Success resp); cbn; by intros ? [= <-].
Qed.

Lemma wp_PutObjectIfVersion self p ctx c :
  (forall dest md c, wp (p dest md (RPutObjectIfVersion req))
     (fun x c' => let y := match x with inl err => inl err | inr y => y end in
        cas_effect c y c' /\ forall err, y = inl err -> op_IsVersionMismatch err = None) c) ->
  wp (PutObjectIfVersion ce self p ctx req) (cas_effect c) c.
Proof.
  intros Hp. unfold PutObjectIfVersion. case_decide as Hk.
  { apply wp_ret. left. split; [apply untouched_refl|]. by intros ? [= <-]. }
  apply wp_bind. unfold Operations.PutIfVersion. apply wp_bind, wp_IsLocal. intros [] c1 U1.
  - apply wp_bind, wp_at_node. intros r w c2 E Hc. apply wp_ret, wp_ret. eapply cas_effect_before; [exact U1|]. right. exists self, r, w.
    split_and!; [done..|]. intros resp. unfold tells, cas_response. destruct r as [err|v]; cbn; [|by intros [= <-]].
    destruct (IsVersionMismatch err) eqn:Em; [|done]. intros [= <-]. cbn. eauto.
  - apply wp_bind, wp_remote. intros [err|[ctx' dest]] c2 U2 Hm.
    + apply wp_ret, wp_ret. left. split; [by eapply untouched_trans|]. unfold cas_response. by rewrite Hm.
    + apply wp_bind. unfold invoke. apply wp_bind. assert (MkPutV (vq_Key req) (vq_TtlSeconds req) (vq_Data req) (vq_ExpectedVersion req) = req) as -> by by destruct req.
      eapply wp_mono; [apply Hp|]. intros x c3 [Hx Hst]. apply wp_ret, wp_ret, wp_ret. eapply cas_effect_before; [by eapply untouched_trans|].
      by apply cas_effect_relayed.
Qed.

End AtMostOnce.

Lemma wire_error_status err : op_IsVersionMismatch (wire_error err) = None.
Proof. unfold wire_error. repeat case_match; done. Qed.

(** C4: a conditional write is applied at most once. However the nodes disagree about the
    owner and whatever the network does, one [PutObjectIfVersion] request leaves every
    node's storage as it was, or runs the storage's [PutIfVersion] at one node, once, and
    leaves all others alone. An answer without an error text tells the outcome of that
    run: the new version if it succeeded, the current version of the mismatch if not. *)
Theorem cas_applied_at_most_once stuck fuel dest md req c x c' :
  serve ce stuck fuel dest md (RPutObjectIfVersion req) c = (x, c') ->
  (untouched c c' /\ forall resp, x = inr (inr resp) -> vo_Success resp = false /\ vo_Error resp <> EmptyString)
  \/ exists node r w, cas_run req node (cl_world c node) = (r, w) /\ changed_at node w c c'
       /\ (forall resp, x = inr (inr resp) -> tells resp r).
Proof.
  intros E. assert (wp (serve ce stuck fuel dest md (RPutObjectIfVersion req))
    (fun x c' => let y := match x with inl err => inl err | inr y => y end in
       cas_effect req c y c' /\ forall err, y = inl err -> op_IsVersionMismatch err = None) c) as Hwp.
  { clear E x c'. revert dest md c. induction fuel as [|fuel IH]; intros dest md c; cbn [serve].
    { apply wp_ret. split; [left; by split; [apply untouched_refl|]|by intros ? [= <-]]. }
    apply wp_bind, wp_consult. intros [st|] c1 U1.
    { apply wp_ret. split; [left; by split|by intros ? [= <-]]. }
    apply wp_bind, wp_intercepted.
    - intros err c2 U2. apply wp_bind, wp_consult. intros l c3 U3. apply wp_ret. split.
      + left. split; [eauto using untouched_trans|by destruct l].
      + destruct l; intros ? [= <-]; [done|apply wire_error_status].
    - eapply wp_mono; [apply (wp_PutObjectIfVersion req); exact IH|]. intros y c2 Hy c3 U3. apply wp_bind, wp_consult. intros l c4 U4. apply wp_ret.
      split; [|destruct l, y; intros ? [= <-]; by try apply wire_error_status].
      eapply cas_effect_before; [exact U1|]. eapply cas_effect_after; [exact (untouched_trans _ _ _ U3 U4)|].
      eapply cas_effect_weaken; [|exact Hy]. destruct l, y; naive_solver. }
  pose proof (wp_run _ _ _ _ _ E Hwp) as [[[Hu Hx]|(node & r & w & Er & Hc & Hx)] _]; [left|right].
  - split; [done|]. by intros resp ->; apply Hx.
  - exists node, r, w. split_and!; [done..|]. intros resp ->. by apply Hx.
Qed.

(** ** Which node is asked does not matter *)

(** Two runs with the same result and the same storages. *)
Definition same_run {A} (x y : A * Cluster DB SM) : Prop := x.1 = y.1 /\ untouched x.2 y.2.

Lemma same_bind {A B} (k k' : C A) (f f' : A -> C B) c c' :
  same_run (k c) (k' c') -> (forall a c1 c1', untouched c1 c1' -> same_run (f a c1) (f' a c1')) ->
  same_run ((k ≫= f) c) ((k' ≫= f') c').
Proof.
  intros [Ea Hu] Hf. unfold mbind, ST_bind. destruct (k c) as [a c1], (k' c') as [a' c1']. cbn in *. subst a'. by apply Hf.
Qed.

Lemma same_ret {A} (a : A) c c' : untouched c c' -> same_run ((mret a : C A) c) ((mret a : C A) c').
Proof. by split. Qed.

Lemma same_at_node {A} node (op : World.M (DB := DB) (SM := SM) A) c c' :
  untouched c c' -> same_run (at_node node op c) (at_node node op c').
Proof.
  intros Hu. unfold at_node. rewrite (Hu node). destruct (op (cl_world c node)) as [a w]. split; [done|].
  intros n. cbn. case_match; [done|apply Hu].
Qed.

(** The retry loop from alike states. *)
Lemma do_loop_related {St} (R : St -> St -> Prop) (fn : ST St (option error)) before wait draws cfg op key rem attempt delay last s s' :
  (forall s s', R s s' -> (fn s).1 = (fn s').1 /\ R (fn s).2 (fn s').2) -> R s s' ->
  (do_loop fn before wait draws cfg op key rem attempt delay last s).1 = (do_loop fn before wait draws cfg op key rem attempt delay last s').1
  /\ R (do_loop fn before wait draws cfg op key rem attempt delay last s).2 (do_loop fn before wait draws cfg op key rem attempt delay last s').2.
Proof.
  intros Hfn. revert attempt delay last s s'. induction rem as [|rem IH]; intros attempt delay last s s' HR; cbn [do_loop]; [done|].
  case_match; [done|]. destruct (Hfn s s' HR) as [E1 E2]. destruct (fn s) as [e s1], (fn s') as [e' s1']. cbn in E1, E2. subst e'.
  destruct e; [|done]. repeat case_match; try done. by apply IH.
Qed.

Section Agreement.

(** The nodes agree on the owner of a key, no call fails, and no caller gives up. *)
Context (key owner : bytes).
Context (all_clustered : forall n, ce_clustered ce n = true).
Context (agree_local : forall n node, ce_isLocal ce n node key = bool_decide (node = owner)).
Context (agree_route : forall n node, ce_route ce n node key = inr owner).
Context (calls_start : forall n, ce_open ce n = None) (answers_arrive : forall n, ce_lost ce n = None).
Context (calm : RetryEnv) (calm_retry : forall n, ce_retry ce n = calm).

Lemma same_retry {A} op (fn : C (error + A)) c c' :
  (forall c c', untouched c c' -> same_run (fn c) (fn c')) -> untouched c c' ->
  same_run (retry_op ce op key fn c) (retry_op ce op key fn c').
Proof using calm_retry.
  intros Hfn Hu. unfold retry_op. unfold mbind, ST_bind, consult. rewrite !calm_retry. unfold retry_with, DoWithKey.
  set (R := fun s s' : option A * Cluster DB SM => s.1 = s'.1 /\ untouched s.2 s'.2).
  match goal with |- same_run (match do_loop ?f ?b ?wt ?d ?cf ?o ?k ?n ?a ?dl ?l ?s with _ => _ end) (match do_loop _ _ _ _ _ _ _ _ _ _ _ ?s' with _ => _ end) =>
    destruct (do_loop_related R f b wt d cf o k n a dl l s s') as [E1 E2] end.
  { intros [a1 c1] [a2 c2] [Ea Hc]. cbn in Ea, Hc. subst a2. unfold retry_run. cbn. destruct (Hfn c1 c2 Hc) as [E U].
    destruct (fn c1) as [r1 d1], (fn c2) as [r2 d2]. cbn in E, U. subst r2. by destruct r1. }
  { by split. }
  destruct (do_loop _ _ _ _ _ _ _ _ _ _ _ _) as [e [a d]], (do_loop _ _ _ _ _ _ _ _ _ _ _ _) as [e' [a' d']]. destruct E2 as [Ea Ed]. cbn in *.
  subst e' a'. by destruct e, a.
Qed.

Definition later c : Cluster DB SM := MkCluster (cl_world c) (S (cl_tick c)).

Lemma later_untouched c c' : untouched c c' -> untouched (later c) (later c').
Proof. done. Qed.

Lemma IsLocal_eq node c : IsLocal ce node key c = (bool_decide (node = owner), later c).
Proof using agree_local all_clustered. unfold IsLocal. rewrite all_clustered. unfold consult. by rewrite agree_local. Qed.

Lemma RouteContext_eq node c : RouteContext ce node key c = (inr owner, later c).
Proof using agree_route. unfold RouteContext, consult, mbind, ST_bind. by rewrite agree_route. Qed.

(** The unary requests that write. *)
Definition keyed (r : request) : option bytes :=
  match r with
  | RDelete k | RDeleteIfVersion k _ => Some k
  | RPutObjectIfVersion req => Some (vq_Key req)
  | _ => None
  end.

(** At the owner neither the metadata nor the peers matter. *)
Lemma owner_handles p p' ctx ctx' r c c' :
  keyed r = Some key -> untouched c c' -> same_run (handle ce owner p ctx r c) (handle ce owner p' ctx' r c').
Proof using agree_local all_clustered calm_retry.
  intros Hk Hu. assert (bool_decide (owner = owner) = true) as Ho by by apply bool_decide_true.
  destruct r as [| | |k| |req|k e| |]; try done; injection Hk as Hk; cbn [handle].
  - rewrite Hk. apply same_bind; [|by intros; apply same_ret]. unfold Service.Delete. destruct (decide (key = EmptyString)); [by apply same_ret|]. apply same_bind; [|by intros; apply same_ret].
    unfold Operations.Delete. rewrite !(ST_bind_eq _ _ _ _ _ (IsLocal_eq owner _)), Ho. unfold DeleteLocal.
    apply same_bind; [|by intros; apply same_ret]. apply same_retry; [|done]. intros. apply same_bind; [by apply same_at_node|by intros; apply same_ret].
  - unfold PutObjectIfVersion. destruct (decide (vq_Key req = EmptyString)); [by apply same_ret|]. apply same_bind; [|by intros; apply same_ret].
    unfold Operations.PutIfVersion. rewrite Hk, !(ST_bind_eq _ _ _ _ _ (IsLocal_eq owner _)), Ho. apply same_bind; [by apply same_at_node|by intros; apply same_ret].
  - rewrite Hk. unfold Service.DeleteIfVersion. destruct (decide (key = EmptyString)); [by apply same_ret|]. apply same_bind; [|by intros; apply same_ret].
    unfold Operations.DeleteIfVersion. rewrite !(ST_bind_eq _ _ _ _ _ (IsLocal_eq owner _)), Ho. apply same_bind; [by apply same_at_node|by intros; apply same_ret].
Qed.

(** What the interceptors add to a handler that runs. *)
Lemma intercepted_passes node p md r c :
  hops md <= MaxHops ->
  same_run ((x ← handle ce node p (MkCtx (Some md) []) r; mret match x with inl err => inl (wire_error err) | inr resp => inr resp end) c)
    (intercepted ce node p md r c).
Proof using all_clustered.
  intros Hh. assert (CheckHopCount (HopCount (ExtractRequestMetadata (MkCtx (Some md) []))) = None) as Hc.
  { unfold CheckHopCount. fold (hops md). by rewrite (proj2 (Z.ltb_ge MaxHops (hops md))) by lia. }
  unfold intercepted, UnaryServerRecoveryInterceptor. rewrite all_clustered.
  destruct (is_stream r); unfold StreamServerEpochInterceptor, UnaryServerEpochInterceptor; cbv beta; rewrite Hc;
    unfold mbind, ST_bind, mret, ST_ret, consult; destruct (handle ce node p _ r c) as [x c1]; by split.
Qed.

Lemma same_sym {A} (x y : A * Cluster DB SM) : same_run x y -> same_run y x.
Proof. intros [E U]. split; [done|]. intros n. by rewrite U. Qed.

Lemma same_trans {A} (x y z : A * Cluster DB SM) : same_run x y -> same_run y z -> same_run x z.
Proof. intros [E1 U1] [E2 U2]. split; [by etrans|by eapply untouched_trans]. Qed.

(** The owner's answer to a request. *)
Lemma owner_serves stuck fuel md md' r c c' :
  keyed r = Some key -> hops md <= MaxHops -> hops md' <= MaxHops -> untouched c c' ->
  same_run (serve ce stuck (S fuel) owner md r c) ((x ← intercepted ce owner (serve ce stuck fuel) md' r; mret (inr x)) c').
Proof using agree_local all_clustered calm_retry calls_start answers_arrive.
  intros Hk Hh Hh' Hu. cbn [serve]. unfold consult. unfold mbind at 1, ST_bind at 1. rewrite calls_start.
  apply same_bind.
  - eapply same_trans; [apply same_sym, intercepted_passes, Hh|]. eapply same_trans; [|by apply intercepted_passes].
    apply same_bind; [by apply owner_handles|by intros; apply same_ret].
  - intros x c1 c1' Hu1. unfold mbind, ST_bind, mret, ST_ret. by rewrite answers_arrive.
Qed.

Definition wired {A} (x : op_error + A) : op_error + A := match x with inl err => inl (wire_error err) | inr resp => inr resp end.

(** What a relaying node makes of the owner's answer. *)
Definition relayed (r : request) : op_error + response r -> op_error + response r :=
  match r return op_error + response r -> op_error + response r with
  | RDelete _ => fun y =>
      inr match (match y with
                 | inl err => Some err
                 | inr resp => if do_Success resp then None else Some (DeleteError (do_Error resp))
                 end) with
          | Some err => MkDelResp false (op_Error (mapStorageErrorToGRPC err))
          | None => MkDelResp true EmptyString
          end
  | RPutObjectIfVersion req => fun y => wired (cas_response (cas_outcome "PutIfVersion" (vq_Key req) y))
  | RDeleteIfVersion k _ => fun y =>
      wired match (match y with
                   | inl err => Some err
                   | inr resp =>
                       if decide (wo_Error resp <> EmptyString) then Some (operationError (wo_Error resp))
                       else if wo_Success resp then None
                       else Some (Plain (NewVersionMismatchError "DeleteIfVersion" k (wo_CurrentVersion resp)))
                   end) with
            | None => inr (MkDelVResp true 0 EmptyString)
            | Some err =>
                match op_IsVersionMismatch err with
                | Some current => inr (MkDelVResp false current EmptyString)
                | None => inl (mapStorageErrorToGRPC err)
                end
            end
  | _ => fun y => y
  end.

Lemma relayed_status err : exists code m, wire_error err = StatusError code m.
Proof. unfold wire_error. repeat case_match; eauto. Qed.

Lemma wired_mapped err : wire_error (mapStorageErrorToGRPC (wire_error err)) = wire_error err.
Proof. by destruct (relayed_status err) as (code & m & ->). Qed.

(** The owner's answer to a keyed request passes through a relay unchanged. *)
Lemma owner_answer_stable p md r c :
  keyed r = Some key -> key <> EmptyString -> hops md <= MaxHops ->
  relayed r (intercepted ce owner p md r c).1 = (intercepted ce owner p md r c).1.
Proof using all_clustered.
  intros Hk Hne Hh. rewrite <- (proj1 (intercepted_passes owner p md r c Hh)).
  unfold mbind, ST_bind. destruct r as [| | |k| |req|k e| |]; try done; injection Hk as Hk; cbn [handle].
  - unfold mbind, ST_bind, Service.Delete. rewrite decide_False by congruence. unfold mbind, ST_bind.
    destruct (Operations.Delete _ _ _ _ _ _) as [[err|] c1]; cbn; [|done]. by destruct err.
  - unfold PutObjectIfVersion. rewrite decide_False by congruence. unfold mbind, ST_bind.
    destruct (Operations.PutIfVersion _ _ _ _ _ _ _ _ _) as [[err|v] c1]; cbn; [|done]. destruct (op_IsVersionMismatch err) eqn:Em; cbn; [done|].
    destruct (relayed_status (mapStorageErrorToGRPC err)) as (code & m & E). by rewrite E.
  - unfold Service.DeleteIfVersion. rewrite decide_False by congruence. unfold mbind, ST_bind.
    destruct (Operations.DeleteIfVersion _ _ _ _ _ _ _) as [[err|] c1]; cbn; [|done]. destruct (op_IsVersionMismatch err) eqn:Em; cbn; [done|].
    destruct (relayed_status (mapStorageErrorToGRPC err)) as (code & m & E). by rewrite E.
Qed.

Lemma IncrementHopCount_passes md node : hops md <= MaxHops -> exists ctx', IncrementHopCount (MkCtx (Some md) []) node = inr ctx'.
Proof. intros Hh. unfold IncrementHopCount, CheckHopCount. fold (hops md). rewrite (proj2 (Z.ltb_ge MaxHops (hops md))) by lia. by eexists. Qed.

Lemma invoke_owner stuck fuel node md ctx' r c c' :
  keyed r = Some key -> hops md < MaxHops -> IncrementHopCount (MkCtx (Some md) []) node = inr ctx' -> untouched c c' ->
  same_run (invoke (serve ce stuck (S fuel)) owner ctx' r c) (intercepted ce owner (serve ce stuck fuel) md r c').
Proof using agree_local all_clustered calm_retry calls_start answers_arrive.
  intros Hk Hh Ei Hu. destruct (IncrementHopCount_carries (MkCtx (Some md) []) node ctx' eq_refl Ei) as [_ Hn]. fold (hops (outgoing ctx')) (hops md) in Hn.
  destruct (owner_serves stuck fuel (outgoing ctx') md r c c' Hk) as [E U]; [lia|lia|done|].
  unfold invoke, mbind, ST_bind in *. destruct (serve ce stuck (S fuel) owner (outgoing ctx') r c) as [x c1], (intercepted ce owner _ md r c') as [y c1'].
  cbn in *. subst x. by split.
Qed.

Lemma relay_handles stuck fuel node md r c c' :
  node <> owner -> keyed r = Some key -> key <> EmptyString -> hops md < MaxHops -> untouched c c' ->
  same_run ((x ← handle ce node (serve ce stuck (S fuel)) (MkCtx (Some md) []) r; mret (wired x)) c)
    ((y ← intercepted ce owner (serve ce stuck fuel) md r; mret (relayed r y)) c').
Proof using agree_local agree_route all_clustered calm_retry calls_start answers_arrive.
  intros Hn Hk Hne Hh Hu. destruct (IncrementHopCount_passes md node) as [ctx' Ei]; [lia|].
  assert (forall c, remote ce node (MkCtx (Some md) []) key c = (inr (ctx', owner), later c)) as Hr.
  { intros c0. unfold remote. rewrite Ei. by rewrite (ST_bind_eq _ _ _ _ _ (RouteContext_eq node c0)). }
  assert (forall c, IsLocal ce node key c = (false, later c)) as Hl.
  { intros c0. rewrite IsLocal_eq. by rewrite bool_decide_false. }
  assert (same_run ((y ← invoke (serve ce stuck (S fuel)) owner ctx' r; mret (relayed r y)) (later (later c)))
    ((y ← intercepted ce owner (serve ce stuck fuel) md r; mret (relayed r y)) c')) as Hrun.
  { apply same_bind; [by eapply invoke_owner|]. intros. by apply same_ret. }
  eapply same_trans; [|exact Hrun]. clear Hrun. destruct r as [| | |k| |req|k e| |]; try done; injection Hk as Hk; cbn [handle relayed].
  - unfold Service.Delete, Operations.Delete, deleteRemote. subst k. rewrite decide_False by done. unfold mbind, ST_bind. rewrite Hl. cbv beta iota. rewrite Hr. cbv beta iota.
    match goal with |- context [invoke ?a ?b ?x ?d ?e] => destruct (invoke a b x d e) as [y c1] end. by split.
  - unfold PutObjectIfVersion, Operations.PutIfVersion, putIfVersionRemote. rewrite Hk, decide_False by done. unfold mbind, ST_bind. rewrite Hl. cbv beta iota. rewrite Hr. cbv beta iota.
    assert (MkPutV key (vq_TtlSeconds req) (vq_Data req) (vq_ExpectedVersion req) = req) as -> by (rewrite <- Hk; by destruct req).
    match goal with |- context [invoke ?a ?b ?x ?d ?e] => destruct (invoke a b x d e) as [y c1] end. by split.
  - unfold Service.DeleteIfVersion, Operations.DeleteIfVersion, deleteIfVersionRemote. subst k. rewrite decide_False by done. unfold mbind, ST_bind. rewrite Hl. cbv beta iota. rewrite Hr. cbv beta iota.
    match goal with |- context [invoke ?a ?b ?x ?d ?e] => destruct (invoke a b x d e) as [y c1] end. by split.
Qed.

(** C5: it does not matter which node is asked. Where the nodes agree on the owner of a
    key and calls succeed, a delete, a conditional put or a conditional delete of the key
    sent to any node gets the answer the owner would give, errors and versions included,
    and has the effect on every node's storage that it has at the owner. *)
Theorem forwarding_transparent stuck fuel node md r c :
  keyed r = Some key -> key <> EmptyString -> hops md < MaxHops ->
  (serve ce stuck (2 + fuel) node md r c).1 = (serve ce stuck (2 + fuel) owner md r c).1
  /\ forall n, cl_world (serve ce stuck (2 + fuel) node md r c).2 n = cl_world (serve ce stuck (2 + fuel) owner md r c).2 n.
Proof using agree_local agree_route all_clustered calm_retry calls_start answers_arrive.
  intros Hk Hne Hh. destruct (decide (node = owner)) as [->|Hn]; [done|]. cbn [Nat.add].
  enough (same_run (serve ce stuck (S (S fuel)) owner md r c) (serve ce stuck (S (S fuel)) node md r c)) as [E U] by (split; [done|apply U]).
  eapply same_trans; [apply (owner_serves stuck (S fuel) md md r c c Hk); [lia|lia|done]|]. apply same_sym. cbn [serve].
  unfold consult. unfold mbind at 1, ST_bind at 1. rewrite calls_start.
  apply same_bind; [|intros x c1 c1' Hu1; unfold mbind, ST_bind, mret, ST_ret; by rewrite answers_arrive].
  eapply same_trans; [apply same_sym, intercepted_passes; lia|].
  eapply same_trans; [by apply (relay_handles stuck fuel node md r _ c)|].
  assert (hops md <= MaxHops) as Hle by lia. pose proof (owner_answer_stable (serve ce stuck fuel) md r c Hk Hne Hle) as Hs.
  eapply same_trans; [|eapply same_trans; [apply same_sym, (intercepted_passes owner (serve ce stuck fuel) md r c Hle)|
    eapply same_trans; [|apply (intercepted_passes owner (serve ce stuck (S fuel)) md r c Hle)]]].
  - unfold mbind, ST_bind. destruct (intercepted ce owner _ md r c) as [y c1]. cbn in *. by rewrite Hs.
  - apply same_bind; [by apply owner_handles|]. intros. by apply same_ret.
Qed.

(** ** What forwarding does to streams *)

Lemma wp_at {A} (k : C A) (a : A) c c' Q : k c = (a, c') -> Q a c' -> wp k Q c.
Proof. unfold wp. by intros ->. Qed.

(** A call that is started and answered. *)
Lemma wp_serve stuck fuel dest md r Q c :
  hops md <= MaxHops ->
  wp (handle ce dest (serve ce stuck fuel) (MkCtx (Some md) []) r) (fun x c' => forall c'', untouched c' c'' -> Q (inr (wired x)) c'') (later c) ->
  wp (serve ce stuck (S fuel) dest md r) Q c.
Proof using all_clustered answers_arrive calls_start.
  intros Hh Hw. cbn [serve]. apply wp_bind. unfold consult. apply (wp_at _ None _ (later c)); [by rewrite calls_start|]. apply wp_bind.
  destruct (intercepted_passes dest (serve ce stuck fuel) md r (later c) Hh) as [E U]. unfold wp in *.
  unfold mbind, ST_bind in *. destruct (intercepted ce dest _ md r (later c)) as [x c1]. cbn in *.
  destruct (handle ce dest _ _ r (later c)) as [y c2]. cbn in *. subst x. rewrite answers_arrive. by apply Hw.
Qed.

Section Streams.

Context (sends : forall n, ce_send ce n = None).

Lemma relay_send_all {A} (msgs : list A) Q c :
  (forall c', untouched c c' -> Q (msgs, None) c') -> wp (relay_send ce msgs) Q c.
Proof using sends.
  revert Q c. induction msgs as [|m msgs IH]; intros Q c HQ; cbn [relay_send]; [by apply wp_ret, HQ|].
  apply wp_bind, (wp_at _ None _ (later c)); [unfold consult; by rewrite sends|]. apply wp_bind, IH. intros c' U. apply wp_ret, HQ. exact U.
Qed.

(** The first attempt of a retried operation succeeds. *)
Lemma retry_first {A} op k (fn : C (error + A)) a Q c :
  re_before calm 0 = false -> wp fn (fun r c' => r = inr a /\ Q (inr a) c') (later c) -> wp (retry_op ce op k fn) Q c.
Proof using calm_retry.
  intros Hb Hw. unfold retry_op. apply wp_bind. apply (wp_at _ calm _ (later c)); [unfold consult; by rewrite calm_retry|].
  unfold wp in *. unfold retry_with, DoWithKey. change (Z.to_nat (MaxRetries DefaultConfig + 1)) with 6%nat. cbn [do_loop]. rewrite Hb. unfold retry_run. cbn [fst snd].
  destruct (fn (later c)) as [r c1]. cbn in Hw. destruct Hw as [-> HQ]. exact HQ.
Qed.

Lemma owner_get_miss p ctx start end_ Q c :
  re_before calm 0 = false ->
  (Storage.Get (ce_env ce owner) (ce_cfg ce owner) key start end_ (cl_world c owner)).1 = inr None ->
  (forall c', Q (inr ([], Some (StatusError NotFound "key not found"))) c') ->
  wp (handle ce owner p ctx (RGet (MkGet key start end_))) Q c.
Proof using agree_local all_clustered calm_retry.
  intros Hb Hmiss HQ. cbn [handle]. apply wp_bind. unfold Service.Get. apply wp_bind. eapply wp_at; [apply IsLocal_eq|].
  rewrite bool_decide_true by done. apply wp_bind. unfold GetLocal. apply (retry_first _ _ _ None); [done|].
  apply wp_at_node. intros r w c' E _. cbn in E. rewrite E in Hmiss. cbn in Hmiss. subst r. split; [done|]. apply wp_ret, wp_ret. apply HQ.
Qed.

(** A miss at the owner is an outage at any other node. Where the nodes agree on the
    owner of a key that is not stored and every call succeeds, a streamed [Get] sent to the
    owner ends in NotFound, and the same request sent to another node in Unavailable, the
    code a client takes for a broken connection; the operations layer of a third node
    that is routed there reports an error instead of a miss. *)
Theorem forwarded_miss_is_unavailable stuck fuel node md start end_ c :
  node <> owner -> hops md < MaxHops -> re_before calm 0 = false ->
  (Storage.Get (ce_env ce owner) (ce_cfg ce owner) key start end_ (cl_world c owner)).1 = inr None ->
  let req := RGet (MkGet key start end_) in
  let lost := StatusError Unavailable "error from remote node: rpc error: code = NotFound desc = key not found" in
  (serve ce stuck (2 + fuel) owner md req c).1 = inr (inr ([], Some (StatusError NotFound "key not found")))
  /\ (serve ce stuck (2 + fuel) node md req c).1 = inr (inr ([], Some lost))
  /\ remote_failure lost = inl lost.
Proof using agree_local agree_route all_clustered answers_arrive calls_start calm_retry sends.
  intros Hn Hh Hb Hmiss req lost. assert (hops md <= MaxHops) as Hle by lia. split_and!; [| |done].
  - refine (_ : wp (serve ce stuck (2 + fuel) owner md req) (fun x _ => x = inr (inr ([], Some (StatusError NotFound "key not found")))) c).
    apply wp_serve; [done|]. by apply owner_get_miss.
  - refine (_ : wp (serve ce stuck (2 + fuel) node md req) (fun x _ => x = inr (inr ([], Some lost))) c).
    apply wp_serve; [done|]. cbn [handle req]. apply wp_bind. unfold Service.Get. apply wp_bind. eapply wp_at; [apply IsLocal_eq|].
    rewrite bool_decide_false by done. unfold forwardStreamingGet, forward. apply wp_bind. eapply wp_at; [apply RouteContext_eq|].
    destruct (IncrementHopCount_passes md node Hle) as [ctx' Ei]. rewrite Ei.
    destruct (IncrementHopCount_carries (MkCtx (Some md) []) node ctx' eq_refl Ei) as [_ Hc]. fold (hops (outgoing ctx')) (hops md) in Hc.
    apply wp_bind, (wp_serve stuck fuel owner (outgoing ctx') (RGet (MkGet key start end_))); [lia|]. apply owner_get_miss; [done..|]. intros c1 c2 _. cbn [wired]. apply wp_bind. apply relay_send_all.
    intros c3 _. apply wp_ret, wp_ret. by intros c4 _.
Qed.
(** The body that the storage reads from the pipe. *)
Lemma read_all_pipe datas fin :
  fin <> Some EOF -> read_all (pipe_reader datas fin) = MkBody (sconcat datas) (as_error <$> fin).
Proof.
  intros Hf. unfold pipe_reader. induction datas as [|d datas IH]; cbn.
  - destruct fin as [err|]; [|done]. by destruct err.
  - cbn in IH. by rewrite IH.
Qed.

(** A put of messages at the owner is the storage's put of their data. *)
Lemma owner_put p ctx first rest fin Q c :
  pq_Key first = key -> key <> EmptyString -> pq_ShedOverBudget first = false -> fin <> Some EOF ->
  (forall x c', cl_world c' owner = (Storage.Put (ce_env ce owner) (ce_cfg ce owner) key
                   (MkBody (sconcat (pq_Data <$> first :: rest)) (as_error <$> fin)) (pq_TtlSeconds first) (cl_world c owner)).2 ->
     Q (inr x) c') ->
  wp (handle ce owner p ctx (RPut (first :: rest) fin)) Q c.
Proof using agree_local all_clustered.
  intros Hk Hne Hs Hf HQ. cbn [handle]. apply wp_bind. unfold Service.Put. rewrite Hk, decide_False by done.
  apply wp_bind. eapply wp_at; [apply IsLocal_eq|]. rewrite bool_decide_true by done. unfold handleLocalPut. rewrite Hs, Hk.
  apply wp_bind, wp_ret. apply wp_bind. unfold PutLocalWithOptions. apply wp_bind, wp_ret. cbn [pb_seeker pb_reader]. apply wp_bind.
  rewrite read_all_pipe by done. apply wp_at_node. intros r w c' E Hc. apply wp_ret, wp_ret, wp_ret, HQ. rewrite (Hc owner), decide_True by done.
  cbn [cl_world later] in E. by rewrite E.
Qed.

(** A body that breaks off early. *)
Lemma ReadFull_broken data e n : e <> unexpected_eof -> ReadFull (MkBody data (Some e)) n
  = if decide (n <= String.length data)%nat then (stake n data, None, MkBody (sdrop n data) (Some e))
    else (stake n data, Some e, MkBody EmptyString (Some e)).
Proof. intros He. unfold ReadFull. cbn [b_data b_err]. case_decide; [done|]. unfold unexpected_eof in He. by repeat case_match. Qed.

(** A put whose body breaks off stores nothing: it fails without a call of the database. *)
Lemma put_broken_body env cfg data e ttl (w : World DB SM) : e <> unexpected_eof ->
  wp (Storage.Put env cfg key (MkBody data (Some e)) ttl) (fun r w' => is_Some r /\ w_db w' = w_db w) w.
Proof using.
  intros He. unfold Storage.Put. rewrite ReadFull_broken by done.
  case_decide as Hlen; [|by apply wp_ret]. apply wp_bind.
  assert (wp (expiry_of env cfg ttl) (fun _ w' => w_db w' = w_db w) w) as Hex.
  { unfold expiry_of. case_match; [|by apply wp_ret]. apply wp_bind, wp_fun. by apply wp_ret. }
  eapply wp_mono; [exact Hex|]. intros expiry w1 Hw1. cbv beta.
  assert (slen (stake (firstReadSize cfg) data) = Z.of_nat (firstReadSize cfg)) as Hl.
  { unfold slen. rewrite slength_stake. lia. }
  destruct (Z.ltb_spec (inlineThreshold cfg) (slen (stake (firstReadSize cfg) data))) as [_|Hge];
    [|unfold firstReadSize in *; case_match; lia].
  apply wp_bind. unfold fm_Write, joinPrefix. cbn [b_data b_err]. apply wp_bind, wp_fun. cbn [fst snd new_uuid].
  apply wp_bind, wp_fun. cbn [fst snd syscall]. destruct (env_fault env _); [by apply wp_ret, wp_ret|].
  apply wp_bind, wp_fun. cbn [fst snd create_file]. apply wp_bind, wp_fun. cbn [fst snd syscall].
  assert (forall what path (w2 : World DB SM), w_db w2 = w_db w -> wp ((_ ← os_Remove env path; mret (inl what)) : World.M (DB := DB) (SM := SM) (error + bytes * Z * Z))
    (fun r w' => exists e, r = inl e /\ w_db w' = w_db w) w2) as Hrm.
  { intros what path w2 Hw2. apply wp_bind. unfold os_Remove. apply wp_bind, wp_fun. cbn [fst snd syscall].
    destruct (env_fault env _); [apply wp_ret, wp_ret; eauto|]. apply wp_fun. cbn. case_match; apply wp_ret; eauto. }
  destruct (env_fault env _); (eapply wp_mono; [by apply Hrm|]; intros r w' (err & -> & Hw'); by apply wp_ret).
Qed.

(** C38: an interrupted upload is stored. A node that is not the owner closes its stream to
    the owner for sending when the client's upload fails (a message larger than the limit,
    for example), and answers the client that its put failed. What the owner puts is all
    that had arrived, and whether it takes this for the whole value depends only on the
    half-close: if it arrives ([ce_halfclose] is [None] at the instant of the call) the
    truncated value is put like any other; if the call's context is cancelled first (as it
    is when the client disconnects) the body ends in an error. The same upload sent to the
    owner itself is a put whose body ends in the error. A put whose body ends in an error,
    other than [io.ErrUnexpectedEOF], leaves the database as it was. *)
Theorem interrupted_upload_is_stored stuck fuel node md first rest err c :
  node <> owner -> hops md < MaxHops -> pq_Key first = key -> key <> EmptyString -> pq_ShedOverBudget first = false ->
  err <> EOF -> (forall n, ce_halfclose ce n <> Some EOF) ->
  let put body := (Storage.Put (ce_env ce owner) (ce_cfg ce owner) key body (pq_TtlSeconds first) (cl_world c owner)).2 in
  let data := sconcat (pq_Data <$> first :: rest) in
  let relayed := serve ce stuck (2 + fuel) node md (RPut (first :: rest) (Some err)) c in
  let direct := serve ce stuck (2 + fuel) owner md (RPut (first :: rest) (Some err)) c in
  relayed.1 = inr (inr (put_refused ("error receiving chunk: " +:+ op_Error err)))
  /\ (exists n, cl_world relayed.2 owner = put (MkBody data (as_error <$> ce_halfclose ce n)))
  /\ cl_world direct.2 owner = put (MkBody data (Some (as_error err)))
  /\ (forall e, e <> unexpected_eof -> w_db (put (MkBody data (Some e))) = w_db (cl_world c owner)).
Proof using agree_local agree_route all_clustered answers_arrive calls_start sends.
  intros Hn Hh Hk Hne Hs He Hhalf put data relayed direct. assert (hops md <= MaxHops) as Hle by lia.
  assert (wp (serve ce stuck (2 + fuel) node md (RPut (first :: rest) (Some err)))
    (fun x c' => x = inr (inr (put_refused ("error receiving chunk: " +:+ op_Error err)))
       /\ exists n, cl_world c' owner = put (MkBody data (as_error <$> ce_halfclose ce n))) c) as [H1 H2].
  - apply wp_serve; [done|]. cbn [handle]. apply wp_bind. unfold Service.Put. rewrite Hk, decide_False by done.
    apply wp_bind. eapply wp_at; [apply IsLocal_eq|]. rewrite bool_decide_false by done. unfold forwardStreamingPut, forward. rewrite Hk.
    apply wp_bind. eapply wp_at; [apply RouteContext_eq|]. destruct (IncrementHopCount_passes md node Hle) as [ctx' Ei]. rewrite Ei.
    destruct (IncrementHopCount_carries (MkCtx (Some md) []) node ctx' eq_refl Ei) as [_ Hc]. fold (hops (outgoing ctx')) (hops md) in Hc.
    unfold relayPut. apply wp_bind, relay_send_all. intros c1 U1. cbv beta iota. apply wp_bind.
    apply (wp_at _ (ce_halfclose ce (cl_tick c1)) _ (later c1)); [reflexivity|].
    apply wp_bind, (wp_serve stuck fuel owner (outgoing ctx') (RPut (first :: rest) (ce_halfclose ce (cl_tick c1)))); [lia|].
    apply owner_put; try done. intros x c2 Hw c3 U3. apply wp_ret, wp_ret. intros c4 U4. split; [done|]. exists (cl_tick c1).
    rewrite (U4 owner), (U3 owner), Hw. cbn [cl_world later]. by rewrite (U1 owner).
  - split_and!; [exact H1|exact H2| |intros e Hu; by apply put_broken_body].
    refine (_ : wp (serve ce stuck (2 + fuel) owner md (RPut (first :: rest) (Some err))) (fun _ c' => cl_world c' owner = put (MkBody data (Some (as_error err)))) c).
    apply wp_serve; [done|]. apply owner_put; try done. { congruence. } intros x c2 Hw c3 U3. by rewrite (U3 owner), Hw.
Qed.

End Streams.

End Agreement.

End Forwarding.
