(* ===== verification/Topology.v ===== *)
(** * Topology: what the coordinator publishes and what the client keeps of it
    (coordinator/coordinator.go, validation.go, gossip/dns_provider.go; server/service/topology.go;
    client: topology.go, connection.go, cluster_client.go, simple_client.go, client.go, config.go, errors.go)

    The coordinator publishes nodes, tokens and the ring's epoch; the client's topology
    manager builds its token ring from them and keeps a pool of connections per node
    address. *)

From S2P Require Import Prelude Fnv Keys Errors TokenRing Ring Router Rpc.

Open Scope Z_scope.

(** ** The coordinator's answers *)

Record ClusterTopology := MkTopology {
  ct_Epoch : Z;
  ct_Nodes : list NodeInfo;
  ct_RingConfig : option (Z * list (bytes * list Z))  (** replication factor, tokens by node *)
}.

Definition GetClusterState (healthy : error + list InstanceDesc) (epoch : Z) : Z * list NodeInfo :=
  (epoch, GetAllNodes healthy).

(** The ring is read for the nodes, then for the tokens, then for the epoch. *)
Definition GetClusterTopology (nodes_view tokens_view : error + list InstanceDesc) (epoch replicationFactor : Z) : ClusterTopology :=
  MkTopology epoch (GetAllNodes nodes_view) (Some (replicationFactor, map_to_list (GetNodeTokens tokens_view))).

(** ** validation.go

    The texts of the errors are given without the quoted argument. *)

(** [net.SplitHostPort] as an interface: the host and the port, or the error. *)
Section Validation.

Context (SplitHostPort : bytes -> error + bytes * bytes).

Definition check_port (what : bytes) (portStr : bytes) : option error :=
  match Atoi portStr with
  | None => Some (EText (what +:+ " port must be a number"))
  | Some port => if (port <? 1) || (65535 <? port) then Some (EText (what +:+ " port must be between 1 and 65535")) else None
  end.

Definition validateBindAddress (addr fieldName : bytes) : option error :=
  if decide (addr = EmptyString) then Some (EText (fieldName +:+ " is required in cluster mode"))
  else match SplitHostPort addr with
       | inl err => Some (EWrap (fieldName +:+ " must be in format host:port or :port") err)
       | inr (_, portStr) => check_port fieldName portStr
       end.

Definition validateSeed (seed : bytes) : option error :=
  if decide (seed = EmptyString) then Some (EText "seed address is empty")
  else match SplitHostPort seed with
       | inl err => Some (EWrap "seed address must be in format host:port or IP:port" err)
       | inr (host, portStr) =>
           if decide (host = EmptyString) then Some (EText "seed address must have a host")
           else check_port "seed address" portStr
       end.

Fixpoint validateSeedAddresses (seeds : list bytes) : option error :=
  match seeds with
  | [] => None
  | seed :: seeds => match validateSeed seed with Some err => Some err | None => validateSeedAddresses seeds end
  end.

End Validation.

(** A rune is below 32 or 127 only as a single byte. *)
Definition is_control (c : ascii) : bool := ((N_of_ascii c <? 32) || (N_of_ascii c =? 127))%N.

Fixpoint has_control (s : bytes) : bool :=
  match s with EmptyString => false | String c s => is_control c || has_control s end.

Definition validateNodeID (nodeID : bytes) : option error :=
  if decide (nodeID = EmptyString) then Some (EText "node ID is required in cluster mode")
  else if 256 <? slen nodeID then Some (EText "node ID exceeds maximum length of 256 characters")
  else if has_control nodeID then Some (EText "node ID contains control character")
  else None.

(** ** The client's topology manager (topology.go) *)

Record TopologyManager := MkTM { tm_ring : ringState; tm_epoch : Z; tm_seeds : list bytes }.

(** The listen addresses of the active nodes. *)
Definition node_addresses (nodes : list NodeInfo) : gmap bytes bytes :=
  fold_left (fun addrs node =>
    if decide (ni_Status node = NodeStatusActive /\ ni_ListenAddress node <> EmptyString)
    then <[ni_ID node := ni_ListenAddress node]> addrs else addrs) nodes ∅.

(** The tokens of the active nodes. *)
Definition node_tokens (active : gmap bytes bytes) (cfg : option (Z * list (bytes * list Z))) : gmap bytes (list Z) :=
  match cfg with
  | None => ∅
  | Some (_, nts) =>
      fold_left (fun tokens nt => if decide (is_Some (active !! nt.1)) then <[nt.1 := nt.2]> tokens else tokens) nts ∅
  end.

(** The active nodes and whether anything changed. *)
Definition UpdateTopology (topology : option ClusterTopology) (tm : TopologyManager) : option (gset bytes) * bool * TopologyManager :=
  match topology with
  | None => (None, false, tm)
  | Some t =>
      if tm_epoch tm =? ct_Epoch t then (None, false, tm)
      else
        let addrs := node_addresses (ct_Nodes t) in
        let tokens := node_tokens addrs (ct_RingConfig t) in
        (Some (dom addrs), true, MkTM (Update (map_to_list tokens) addrs) (ct_Epoch t) (tm_seeds tm))
  end.

(** The answer of one address: the dial and the call, the error text of the response and
    its topology. *)
Record fetched := MkFetched { f_err : option error; f_Error : bytes; f_Topology : option ClusterTopology }.

Definition fetchTopologyFromAddress (answer : fetched) : error + ClusterTopology :=
  match f_err answer with
  | Some err => inl err
  | None =>
      if decide (f_Error answer <> EmptyString) then inl (EText ("topology error: " +:+ f_Error answer))
      else match f_Topology answer with
           | None => inl (EText "server returned empty topology")
           | Some t => inr t
           end
  end.

(** The first address that answers. *)
Fixpoint fetch_first (fetch : bytes -> fetched) (addrs : list bytes) : option ClusterTopology :=
  match addrs with
  | [] => None
  | addr :: addrs => match fetchTopologyFromAddress (fetch addr) with inr t => Some t | inl _ => fetch_first fetch addrs end
  end.

(** Known nodes first, then the seeds. *)
Definition FetchTopology (fetch : bytes -> fetched) (tm : TopologyManager) : error + ClusterTopology :=
  match fetch_first fetch ((map_to_list (GetNodeAddresses (tm_ring tm))).*2 ++ tm_seeds tm) with
  | Some t => inr t
  | None => inl (EText "failed to fetch topology from any node or seed address")
  end.

Definition RefreshTopology (fetch : bytes -> fetched) (tm : TopologyManager) : (error + bool) * TopologyManager :=
  match FetchTopology fetch tm with
  | inl err => (inl err, tm)
  | inr t => let '(_, changed, tm) := UpdateTopology (Some t) tm in (inr changed, tm)
  end.

(** [NewTopologyManager] with [initialize]. *)
Definition NewTopologyManager (fetch : bytes -> fetched) (seeds : list bytes) : error + TopologyManager :=
  match seeds with
  | [] => inl (EText "no seed addresses provided")
  | _ =>
      match fetch_first fetch seeds with
      | None => inl (EText "failed to fetch topology from any node")
      | Some t => inr (UpdateTopology (Some t) (MkTM NewTokenRing 0 seeds)).2
      end
  end.

(** [CacheService.GetTopology], without a coordinator or with what it returned. *)
Definition GetTopology (coordinator : option (error + ClusterTopology)) : fetched :=
  match coordinator with
  | None => MkFetched None "cluster mode not enabled" None
  | Some (inl err) => MkFetched None (Error err) None
  | Some (inr topology) => MkFetched None EmptyString (Some topology)
  end.

(** ** Connection pools (connection.go)

    Slots of client connections, [None] after a failed reconnect. *)

Record connection := MkConn {
  cn_address : bytes;
  cn_slots : list (option nat);
  cn_nextIndex : Z;
  cn_lastError : option (op_error * Z)   (** with its time *)
}.

Definition newConnection (addr : bytes) (poolSize : Z) (dialed : nat -> option nat) : option connection :=
  let n := Z.to_nat (if poolSize <=? 0 then 3 else poolSize) in
  match mapM dialed (seq 0 n) with
  | Some slots => Some (MkConn addr (Some <$> slots) 0 None)
  | None => None
  end.

Definition usable (s : connectivity) : bool := bool_decide (s <> TransientFailure) && bool_decide (s <> Shutdown).

Section Pool.

Context (state : nat -> connectivity).

(** The round-robin loop: the first usable slot among those it looks at. *)
Fixpoint pick (slots : list (option nat)) (start : Z) (n i : nat) : option nat :=
  match n with
  | O => None
  | S n =>
      match slots !! Z.to_nat (u64 (start + Z.of_nat i) mod Z.of_nat (length slots)) with
      | Some (Some c) => if usable (state c) then Some c else pick slots start n (S i)
      | _ => pick slots start n (S i)
      end
  end.

Fixpoint first_client (slots : list (option nat)) : option nat :=
  match slots with [] => None | Some c :: _ => Some c | None :: slots => first_client slots end.

Definition getClient (c : connection) : option nat * connection :=
  match cn_slots c with
  | [] => (None, c)
  | slots =>
      let start := u64 (cn_nextIndex c + 1) in
      let c := MkConn (cn_address c) slots start (cn_lastError c) in
      (match pick slots start (length slots) 0 with Some x => Some x | None => first_client slots end, c)
  end.

Definition healthy_slot (s : option nat) : bool :=
  match s with Some c => bool_decide (state c = Ready) || bool_decide (state c = Idle) | None => false end.

(** errors.go *)
Definition isRoutingError (err : option op_error) : bool :=
  match err with
  | None => false
  | Some err => match status_FromError err with
                | None => false
                | Some (c, _) => (c =? FailedPrecondition) || (c =? NotFound) || (c =? Unavailable)
                end
  end.

Definition isConnectionError (err : option op_error) : bool :=
  match err with
  | None => false
  | Some err => match status_FromError err with
                | None => true
                | Some (c, _) => (c =? Unavailable) || (c =? Internal) || (c =? Unknown) || (c =? DeadlineExceeded) || (c =? Canceled)
                end
  end.

Definition ConnectionErrorWindow : Z := 30000000000.

Definition isHealthy (now : Z) (c : connection) : bool :=
  existsb healthy_slot (cn_slots c)
  || match cn_lastError c with
     | Some (err, t) => negb ((now - t <? ConnectionErrorWindow) && isConnectionError (Some err))
     | None => true
     end.

Definition recordError (err : option op_error) (now : Z) (c : connection) : connection :=
  match err with
  | None => c
  | Some e => MkConn (cn_address c) (cn_slots c) (cn_nextIndex c) (Some (e, now))
  end.

(** [reconnectUnhealthy]: a slot that failed is dialed again, or emptied; the first error
    of a dial is kept. *)
Fixpoint reconnect_slots (dial : nat -> error + nat) (i : nat) (slots : list (option nat)) : list (option nat) * option error :=
  match slots with
  | [] => ([], None)
  | s :: slots =>
      let '(s, e1) := match s with
        | Some c => if usable (state c) then (Some c, None)
                    else match dial i with inr c => (Some c, None) | inl err => (None, Some err) end
        | None => (None, None)
        end in
      let '(slots, e2) := reconnect_slots dial (S i) slots in
      (s :: slots, match e1 with Some _ => e1 | None => e2 end)
  end.

Definition reconnectUnhealthy (dial : nat -> error + nat) (c : connection) : option error * connection :=
  let '(slots, err) := reconnect_slots dial 0 (cn_slots c) in
  (err, MkConn (cn_address c) slots (cn_nextIndex c) (match err with None => None | Some _ => cn_lastError c end)).

Definition getHealthStats (c : connection) : nat * nat :=
  (length (filter (fun s => healthy_slot s = true) (cn_slots c)), length (cn_slots c)).

End Pool.

(** ** The cluster client (cluster_client.go) *)

Record ClusterClient := MkClusterClient {
  cc_conns : gmap bytes connection;
  cc_tm : TopologyManager;
  cc_idx : Z;
  cc_lastRefresh : Z
}.

Definition add_connection (dial : bytes -> option connection) (conns : gmap bytes connection) (addr : bytes) : gmap bytes connection :=
  match conns !! addr with
  | Some _ => conns
  | None => match dial addr with Some conn => <[addr := conn]> conns | None => conns end
  end.

(** Dials the new addresses of the topology, then closes the connections of the others;
    [dial] is [newConnectionWithEpoch]. *)
Definition updateConnections (dial : bytes -> option connection) (c : ClusterClient) : ClusterClient :=
  let addrs := (map_to_list (GetNodeAddresses (tm_ring (cc_tm c)))).*2 in
  let conns := fold_left (add_connection dial) addrs (cc_conns c) in
  MkClusterClient (filter (fun kv => kv.1 ∈ addrs) conns) (cc_tm c) (cc_idx c) (cc_lastRefresh c).

Definition minRefreshInterval : Z := 100000000.

(** Whether a refresh is started: [swapped] is the outcome of the compare-and-swap. *)
Definition onEpochMismatch (clientEpoch serverEpoch now : Z) (swapped : bool) (c : ClusterClient) : bool * ClusterClient :=
  if serverEpoch =? clientEpoch then (false, c)
  else if i64 (now - cc_lastRefresh c) <? minRefreshInterval then (false, c)
  else if negb swapped then (false, c)
  else (true, MkClusterClient (cc_conns c) (cc_tm c) (cc_idx c) now).

Definition Route (c : ClusterClient) (key : bytes) : error + bytes :=
  match TokenRing.GetNodeForKey (tm_ring (cc_tm c)) key with
  | inl err => inl err
  | inr addr => match cc_conns c !! addr with
                | Some _ => inr addr
                | None => inl (EText ("no connection for address " +:+ addr))
                end
  end.

Definition addr_le (a b : bytes) : Prop := sle a b = true.
#[local] Instance addr_le_dec : RelDecision addr_le := fun a b => decide (sle a b = true).

(** [sort.Strings]. *)
Definition sorted_addresses (c : ClusterClient) : list bytes := merge_sort addr_le (map_to_list (cc_conns c)).*1.

Definition RoundRobinRoute (c : ClusterClient) : (error + bytes) * ClusterClient :=
  match sorted_addresses c with
  | [] => (inl (EText "no available connections"), c)
  | addrs =>
      let next := u32 (cc_idx c + 1) in
      let idx := u32 (next - 1) in
      (match addrs !! Z.to_nat (idx mod Z.of_nat (length addrs)) with Some a => inr a | None => inl (EText EmptyString) end,
       MkClusterClient (cc_conns c) (cc_tm c) next (cc_lastRefresh c))
  end.

Definition forceRefreshTopology (fetch : bytes -> fetched) (dial : bytes -> option connection) (c : ClusterClient) : bool * ClusterClient :=
  let '(r, tm) := RefreshTopology fetch (cc_tm c) in
  match r with
  | inl _ => (false, c)
  | inr _ => (true, updateConnections dial (MkClusterClient (cc_conns c) tm (cc_idx c) (cc_lastRefresh c)))
  end.

(** ** simple_client.go *)

Definition simple_Route (conns : list bytes) (key : bytes) : error + bytes :=
  match conns with
  | [] => inl (EText "no available connections")
  | _ => match conns !! Z.to_nat (fnv32a key mod Z.of_nat (length conns)) with
         | Some a => inr a
         | None => inl (EText EmptyString)
         end
  end.

(** The connections of [NewSimpleClient]: the addresses that could be dialled. *)
Fixpoint dial_all (dial : bytes -> error + connection) (addrs : list bytes) (lastErr : option error) : list connection * option error :=
  match addrs with
  | [] => ([], lastErr)
  | addr :: addrs =>
      match dial addr with
      | inl err => dial_all dial addrs (Some (EText ("failed to create connection for " +:+ addr +:+ ": " +:+ Error err)))
      | inr conn => let '(conns, lastErr) := dial_all dial addrs lastErr in (conn :: conns, lastErr)
      end
  end.

Lemma dial_all_spec dial addrs e : (dial_all dial addrs e).1 = [] -> forall addr, addr ∈ addrs -> exists err, dial addr = inl err.
Proof.
  revert e. induction addrs as [|a addrs IH]; intros e; cbn [dial_all]; [set_solver|]. destruct (dial a) as [err|c] eqn:E.
  - intros H addr [->|Hin]%elem_of_cons; [by eexists|]. by eapply IH.
  - by destruct (dial_all dial addrs e).
Qed.

(** [None] is a nil configuration. *)
Definition NewSimpleClient (dial : bytes -> error + connection) (Addrs : option (list bytes)) : error + list connection :=
  match Addrs with
  | None => inl (EText "config is required")
  | Some [] => inl (EText "at least one address is required")
  | Some addrs =>
      match dial_all dial addrs None with
      | ([], Some err) => inl (EText ("failed to create any connections, last error: " +:+ Error err))
      | ([], None) => inl (EText "failed to create any connections")
      | (conns, _) => inr conns
      end
  end.

(** The address of the connection, and the index after the call. *)
Definition simple_RoundRobinRoute (conns : list bytes) (currentIdx : Z) : (error + bytes) * Z :=
  match conns with
  | [] => (inl (EText "no available connections"), currentIdx)
  | _ =>
      let next := u32 (currentIdx + 1) in
      let idx := u32 (next - 1) in
      (match conns !! Z.to_nat (idx mod Z.of_nat (length conns)) with
       | Some a => inr a
       | None => inl (EText EmptyString)
       end, next)
  end.

(** The addresses of [n] calls. *)
Fixpoint round_robin (conns : list bytes) (n : nat) (currentIdx : Z) : list (error + bytes) :=
  match n with
  | O => []
  | S n => let '(a, next) := simple_RoundRobinRoute conns currentIdx in a :: round_robin conns n next
  end.

Lemma simple_RoundRobinRoute_at conns i : conns <> [] -> 0 <= i < 4294967296 ->
  exists a, conns !! Z.to_nat (i mod Z.of_nat (length conns)) = Some a /\ simple_RoundRobinRoute conns i = (inr a, u32 (i + 1)).
Proof.
  intros Hne Hi. unfold simple_RoundRobinRoute. assert (u32 (u32 (i + 1) - 1) = i) as ->.
  { unfold u32. rewrite Zminus_mod_idemp_l, Z.add_simpl_r. by apply Z.mod_small. }
  assert (0 < Z.of_nat (length conns)) as Hn by (destruct conns; cbn; [done|lia]).
  pose proof (Z.mod_pos_bound i _ Hn). destruct (lookup_lt_is_Some_2 conns (Z.to_nat (i mod Z.of_nat (length conns)))) as [a Ha]; [lia|].
  exists a. split; [done|]. destruct conns; [done|]. by rewrite Ha.
Qed.

(** As many calls in a row as there are connections reach every one of them, while the
    index does not wrap. *)
Lemma round_robin_reaches_all conns i a : 0 <= i -> i + Z.of_nat (length conns) <= 4294967296 -> a ∈ conns ->
  inr a ∈ round_robin conns (length conns) i.
Proof.
  intros Hi Hw Ha. assert (conns <> []) as Hne by (by intros ->; apply elem_of_nil in Ha).
  apply list_elem_of_lookup in Ha as [j Hj]. pose proof (lookup_lt_Some _ _ _ Hj) as Hlt.
  set (n := Z.of_nat (length conns)) in *. pose proof (Z.mod_pos_bound (Z.of_nat j - i) n ltac:(lia)) as Hk.
  set (k := Z.to_nat ((Z.of_nat j - i) mod n)).
  assert (forall m k i, (k < m)%nat -> 0 <= i -> i + Z.of_nat k < 4294967296 -> conns !! Z.to_nat ((i + Z.of_nat k) mod n) = Some a ->
    inr a ∈ round_robin conns m i) as Hgo.
  { clear -Hne. induction m as [|m IH]; intros k i Hk Hi Hb Hc; [lia|]. cbn [round_robin].
    destruct (simple_RoundRobinRoute_at conns i Hne ltac:(lia)) as (b & Hb' & ->).
    destruct k as [|k]; [rewrite Z.add_0_r in Hc; fold n in Hb'; simplify_eq; left|]. right.
    unfold u32, two32. rewrite Z.mod_small by lia. apply (IH k); [lia..|]. by replace (i + 1 + Z.of_nat k) with (i + Z.of_nat (S k)) by lia. }
  apply (Hgo _ k); [lia|done|lia|]. subst k. rewrite Z2Nat.id by lia. rewrite Zplus_mod_idemp_r. replace (i + (Z.of_nat j - i)) with (Z.of_nat j) by lia.
  rewrite Z.mod_small by lia. by rewrite Nat2Z.id.
Qed.

(** ** The pool hands out a usable client *)

Lemma pick_usable state slots start n i c : pick state slots start n i = Some c -> usable (state c) = true /\ Some c ∈ slots.
Proof.
  revert i. induction n as [|n IH]; intros i; cbn [pick]; [done|].
  destruct (slots !! _) as [[x|]|] eqn:E; [|apply IH|apply IH]. destruct (usable (state x)) eqn:Eu; [|apply IH].
  intros [= <-]. split; [done|]. by eapply list_elem_of_lookup_2.
Qed.

Lemma pick_skips state slots start n i k c :
  (i <= k < i + n)%nat -> slots !! Z.to_nat (u64 (start + Z.of_nat k) mod Z.of_nat (length slots)) = Some (Some c) -> usable (state c) = true ->
  is_Some (pick state slots start n i).
Proof.
  revert i. induction n as [|n IH]; intros i Hk Hc Hu; [lia|]. cbn [pick]. destruct (decide (k = i)) as [->|Hne].
  - rewrite Hc, Hu. by eexists.
  - repeat case_match; (by eexists) || (apply IH; [lia|done|done]).
Qed.

(** Every slot is one of those the loop looks at. *)
Lemma round_robin_covers (len : nat) start j :
  (j < len)%nat -> 0 <= start -> start + Z.of_nat len <= two64 ->
  exists k, (k < len)%nat /\ u64 (start + Z.of_nat k) mod Z.of_nat len = Z.of_nat j.
Proof.
  intros Hj Hs Hb. set (n := Z.of_nat len). exists (Z.to_nat ((Z.of_nat j - start) mod n)).
  pose proof (Z.mod_pos_bound (Z.of_nat j - start) n ltac:(lia)) as Hk. split; [lia|].
  rewrite Z2Nat.id by lia. rewrite u64_small by (unfold is_u64; lia). rewrite Zplus_mod_idemp_r.
  replace (start + (Z.of_nat j - start)) with (Z.of_nat j) by lia. apply Z.mod_small. lia.
Qed.

Lemma getClient_usable state c slot :
  Some slot ∈ cn_slots c -> usable (state slot) = true -> 0 <= cn_nextIndex c -> cn_nextIndex c + 1 + Z.of_nat (length (cn_slots c)) <= two64 ->
  exists x, (getClient state c).1 = Some x /\ usable (state x) = true /\ Some x ∈ cn_slots c.
Proof.
  intros Hin Hu H0 Hb. unfold getClient. destruct (cn_slots c) as [|s0 slots'] eqn:Es; [by apply not_elem_of_nil in Hin|]. rewrite <- Es in *.
  set (slots := cn_slots c) in *. apply list_elem_of_lookup_1 in Hin as [j Hj].
  assert (0 < length slots)%nat as Hlen by (rewrite Es; cbn; lia). pose proof (lookup_lt_Some _ _ _ Hj) as Hjl.
  rewrite (u64_small (cn_nextIndex c + 1)) by (unfold is_u64; lia).
  destruct (round_robin_covers (length slots) (cn_nextIndex c + 1) j Hjl) as (k & Hk & Ek); [lia|lia|].
  destruct (pick_skips state slots (cn_nextIndex c + 1) (length slots) 0 k slot) as [x Hx]; [lia|by rewrite Ek, Nat2Z.id|done|].
  cbn [fst]. rewrite Hx. exists x. split; [done|]. by eapply pick_usable.
Qed.

(** ** Connections follow the topology *)

Lemma fold_conns_lookup (dial : bytes -> option connection) addrs conns a :
  fold_left (add_connection dial) addrs conns !! a = match conns !! a with Some x => Some x | None => if decide (a ∈ addrs) then dial a else None end.
Proof.
  revert conns. induction addrs as [|b addrs IH]; intros conns; cbn [fold_left]; [by destruct (conns !! a)|].
  rewrite IH. clear IH. unfold add_connection. destruct (conns !! b) as [x|] eqn:Eb; [|destruct (dial b) as [x|] eqn:Ed].
  - destruct (conns !! a) eqn:Ea; [done|]. destruct (decide (a = b)) as [->|]; [congruence|]. repeat case_decide; set_solver.
  - destruct (decide (a = b)) as [->|Hne]; [rewrite lookup_insert_eq, Eb, decide_True by set_solver; done|].
    rewrite lookup_insert_ne by done. destruct (conns !! a); [done|]. repeat case_decide; set_solver.
  - destruct (conns !! a) eqn:Ea; [done|]. destruct (decide (a = b)) as [->|]; [|repeat case_decide; set_solver].
    rewrite Ed. by repeat case_decide.
Qed.

(** After an update the client has a connection for an address of the topology if it had
    one before or the dial succeeded, and for no other address. *)
Lemma updateConnections_spec dial c addr :
  cc_conns (updateConnections dial c) !! addr
  = if decide (addr ∈ (map_to_list (GetNodeAddresses (tm_ring (cc_tm c)))).*2)
    then match cc_conns c !! addr with Some x => Some x | None => dial addr end
    else None.
Proof.
  unfold updateConnections. cbn [cc_conns]. rewrite map_lookup_filter, fold_conns_lookup.
  set (addrs := (map_to_list _).*2). destruct (decide (addr ∈ addrs)) as [Hin|Hin].
  - destruct (cc_conns c !! addr) as [x|]; cbn; [by rewrite option_guard_True|]. destruct (dial addr); cbn; [by rewrite option_guard_True|done].
  - destruct (cc_conns c !! addr) as [x|]; cbn; [by rewrite option_guard_False|done].
Qed.

(** ** A topology with the same epoch is ignored *)

Definition same_view (d1 d2 : Desc) : Prop := view d1 ≡ₚ view d2 /\ NoDup d1.*1 /\ NoDup d2.*1 /\ clean_ids d1 /\ clean_ids d2.

(** A client does not notice what the epoch does not tell. Whatever a coordinator
    publishes of a ring (the healthy nodes with their addresses, the tokens), a client
    that has taken it over ignores every later answer for a ring with the same ids,
    states and token counts: nodes that have moved to other addresses, lost their
    heartbeat or changed their tokens are routed to as before. *)
Theorem same_epoch_is_ignored d1 d2 nodes1 tokens1 nodes2 tokens2 rf tm tm1 addr fetch :
  same_view d1 d2 ->
  tm1 = (UpdateTopology (Some (GetClusterTopology nodes1 tokens1 (ComputeRingEpoch (Some d1)) rf)) tm).2 ->
  fetch addr = MkFetched None EmptyString (Some (GetClusterTopology nodes2 tokens2 (ComputeRingEpoch (Some d2)) rf)) ->
  (forall a, fetch a = fetch addr \/ is_Some (f_err (fetch a))) -> addr ∈ tm_seeds tm ->
  RefreshTopology fetch tm1 = (inr false, tm1)
  /\ forall key, TokenRing.GetNodeForKey (tm_ring (RefreshTopology fetch tm1).2) key = TokenRing.GetNodeForKey (tm_ring tm1) key.
Proof.
  intros (Hv & N1 & N2 & C1 & C2) Etm Hf Hall Hseed.
  pose proof (proj2 (epoch_canonical d1 d2 N1 N2 C1 C2) Hv) as Ee.
  assert (tm_epoch tm1 = ComputeRingEpoch (Some d1) /\ tm_seeds tm1 = tm_seeds tm) as [Hep Hs].
  { subst tm1. unfold UpdateTopology, GetClusterTopology. cbn [ct_Epoch]. destruct (Z.eqb_spec (tm_epoch tm) (ComputeRingEpoch (Some d1))); by split. }
  assert (RefreshTopology fetch tm1 = (inr false, tm1)) as E; [|split; [done|intros; by rewrite E]].
  unfold RefreshTopology, FetchTopology.
  assert (forall addrs, addr ∈ addrs -> fetch_first fetch addrs = f_Topology (fetch addr)) as Hff.
  { intros addrs. induction addrs as [|a addrs IH]; intros Hin; [by apply not_elem_of_nil in Hin|]. cbn [fetch_first].
    destruct (Hall a) as [Ea|[e He]]; unfold fetchTopologyFromAddress.
    - by rewrite Ea, Hf.
    - rewrite He. apply IH. apply elem_of_cons in Hin as [->|Hin]; [|done]. by rewrite Hf in He. }
  rewrite Hff, Hf by (apply elem_of_app; right; by rewrite Hs). cbn [f_Topology].
  unfold UpdateTopology, GetClusterTopology. cbn [ct_Epoch]. rewrite Hep.
  match goal with |- context [?a =? ?b] => assert (a =? b = true) as -> by (apply Z.eqb_eq; exact Ee) end. done.
Qed.

(** ** Choosing the client (client.go, config.go, the constructors) *)

Definition ModeAuto : bytes := "auto".
Definition ModeSimple : bytes := "simple".
Definition ModeCluster : bytes := "cluster".
Definition DefaultRefreshInterval : Z := 30000000000.
Definition DefaultConnectionPoolSize : Z := 4.

(** The dial options are opaque and left out. *)
Record ClientConfig := MkClientConfig { cf_Addrs : list bytes; cf_Mode : bytes; cf_RefreshInterval : Z; cf_ConnectionPoolSize : Z }.

Definition SetDefaults (c : ClientConfig) : ClientConfig :=
  MkClientConfig (cf_Addrs c) (if decide (cf_Mode c = EmptyString) then ModeAuto else cf_Mode c)
    (if cf_RefreshInterval c =? 0 then DefaultRefreshInterval else cf_RefreshInterval c)
    (if cf_ConnectionPoolSize c <=? 0 then DefaultConnectionPoolSize else cf_ConnectionPoolSize c).

Inductive CacheClient := Simple (conns : list connection) | Clustered (c : ClusterClient).

Section Construction.

(** The answer of an address to [GetTopology], and its pool of the given size, which is
    dialled with or without the epoch interceptors. *)
Context (fetch : bytes -> fetched) (dial : Z -> bytes -> error + connection).

Definition has_topology (answer : fetched) : bool :=
  bool_decide (f_err answer = None) && bool_decide (f_Error answer = EmptyString) && bool_decide (is_Some (f_Topology answer)).

Definition detectMode (addrs : list bytes) : bytes :=
  if existsb (fun addr => has_topology (fetch addr)) addrs then ModeCluster else ModeSimple.

Definition NewClusterClient (config : option ClientConfig) : error + ClusterClient :=
  match config with
  | None => inl (EText "config is required")
  | Some config =>
      if decide (cf_Addrs config = []) then inl (EText "at least one address is required")
      else
        let config := SetDefaults config in
        match NewTopologyManager fetch (cf_Addrs config) with
        | inl err => inl (EWrap "failed to create topology manager" err)
        | inr topology =>
            inr (updateConnections (fun addr => match dial (cf_ConnectionPoolSize config) addr with inl _ => None | inr c => Some c end)
                   (MkClusterClient ∅ topology 0 0))
        end
  end.

Definition NewWithConfig (config : option ClientConfig) : error + CacheClient * bytes :=
  match config with
  | None => inl (EText "config is required")
  | Some config =>
      if decide (cf_Addrs config = []) then inl (EText "at least one address is required")
      else
        let config := SetDefaults config in
        let mode := if decide (cf_Mode config = ModeAuto) then detectMode (cf_Addrs config) else cf_Mode config in
        if decide (mode = ModeCluster) then
          match NewClusterClient (Some config) with inl err => inl err | inr c => inr (Clustered c, mode) end
        else if decide (mode = ModeSimple) then
          match NewSimpleClient (dial (cf_ConnectionPoolSize config)) (Some (cf_Addrs config)) with inl err => inl err | inr c => inr (Simple c, mode) end
        else inl (EText ("unknown mode: " +:+ mode))
  end.

Definition New (addrs : list bytes) : error + CacheClient * bytes :=
  match addrs with
  | [] => inl (EText "at least one address is required")
  | _ => NewWithConfig (Some (MkClientConfig addrs ModeAuto 0 0))
  end.

Lemma SetDefaults_idem c : SetDefaults (SetDefaults c) = SetDefaults c.
Proof. unfold SetDefaults. cbn [cf_Mode cf_RefreshInterval cf_ConnectionPoolSize cf_Addrs]. f_equal; repeat case_match; try done; bool_facts; try lia; simplify_eq. Qed.

(** The mode is detected by the rule that the topology manager fetches by. *)
Lemma detectMode_fetches addrs : detectMode addrs = ModeCluster <-> is_Some (fetch_first fetch addrs).
Proof.
  assert (ModeSimple <> ModeCluster) as Hm by (vm_compute; discriminate).
  unfold detectMode. induction addrs as [|a addrs IH]; cbn [existsb fetch_first]; [split; [done|by intros []]|].
  unfold fetchTopologyFromAddress, has_topology at 1. destruct (fetch a) as [[e|] t [top|]]; cbn [f_err f_Error f_Topology].
  1,2: by rewrite bool_decide_eq_false_2.
  - destruct (decide (t = EmptyString)) as [->|Ht].
    + rewrite decide_False by (intros H; by apply H). split; [by eexists|done].
    + by rewrite decide_True, (bool_decide_eq_false_2 (t = EmptyString)), andb_false_r by done.
  - rewrite (bool_decide_eq_false_2 (is_Some None)) by (by intros []). rewrite andb_false_r. by destruct (decide (t <> EmptyString)).
Qed.

(** In automatic mode, with seeds that answer alike when the mode is detected and when the
    topology is fetched, a client comes up as a cluster client exactly when a seed published
    its topology, with the ring of the first one that did; otherwise it needs one connection
    that can be dialled. *)
Lemma New_modes addrs : addrs <> [] ->
  match fetch_first fetch addrs with
  | Some t => exists c, New addrs = inr (Clustered c, ModeCluster) /\ cc_tm c = (UpdateTopology (Some t) (MkTM NewTokenRing 0 addrs)).2
  | None => match New addrs with
            | inr (c, mode) => mode = ModeSimple /\ exists conns, c = Simple conns /\ conns <> []
            | inl _ => forall addr, addr ∈ addrs -> exists e, dial DefaultConnectionPoolSize addr = inl e
            end
  end.
Proof.
  intros Hne. unfold New. destruct addrs as [|a0 addrs0]; [done|]. set (addrs := a0 :: addrs0) in *. unfold NewWithConfig. cbn [cf_Addrs].
  rewrite decide_False by done. cbv zeta. change (cf_Addrs (SetDefaults _)) with addrs. change (cf_Mode (SetDefaults _)) with ModeAuto.
  rewrite !(decide_True (P := ModeAuto = ModeAuto)) by done. pose proof (detectMode_fetches addrs) as Hd.
  destruct (fetch_first fetch addrs) as [t|] eqn:Ef.
  - rewrite (proj2 Hd) by done. rewrite (decide_True (P := ModeCluster = ModeCluster)) by done. unfold NewClusterClient. cbn [cf_Addrs SetDefaults]. rewrite decide_False by done.
    unfold NewTopologyManager, addrs. fold addrs. rewrite Ef. eexists. by split.
  - assert (detectMode addrs = ModeSimple) as ->.
    { unfold detectMode in *. destruct (existsb _ addrs); [|done]. by destruct (proj1 Hd eq_refl). }
    rewrite decide_False, decide_True by done. change (cf_ConnectionPoolSize (SetDefaults _)) with DefaultConnectionPoolSize.
    unfold NewSimpleClient, addrs. fold addrs. pose proof (dial_all_spec (dial DefaultConnectionPoolSize) addrs None) as Hs.
    destruct (dial_all _ addrs None) as [[|c conns] [e|]]; cbn in Hs; [by apply Hs..| |]; (split; [done|by eexists]).
Qed.

End Construction.

(** ** Closing and asking

    The first error of closing the connections, in the order of the iteration, and a client
    without connections. *)

Section Closing.

Context (close : connection -> option error).

Definition first_close_error (conns : list connection) : option error := head (omap close conns).

Definition simple_Close (conns : list connection) : option error * list connection := (first_close_error conns, []).

(** [order] is a permutation of the connections. *)
Definition cc_Close (order : list connection) (c : ClusterClient) : option error * ClusterClient :=
  (first_close_error order, MkClusterClient ∅ (cc_tm c) (cc_idx c) (cc_lastRefresh c)).

End Closing.

Definition simple_GetConnectedNodes (conns : list connection) : list bytes := merge_sort addr_le (cn_address <$> conns).
Definition cc_GetConnectedNodes (c : ClusterClient) : list bytes := sorted_addresses c.

(** A closed client routes nowhere. *)
Lemma closed_routes_nowhere close order c key :
  let c' := (cc_Close close order c).2 in
  (exists e, Topology.Route c' key = inl e) /\ (RoundRobinRoute c').1 = inl (EText "no available connections") /\ cc_GetConnectedNodes c' = [].
Proof.
  cbn. split_and!.
  - unfold Route. cbn. destruct (TokenRing.GetNodeForKey _ _); [by eexists|]. rewrite lookup_empty. by eexists.
  - unfold RoundRobinRoute, sorted_addresses. cbn. by rewrite map_to_list_empty.
  - unfold cc_GetConnectedNodes, sorted_addresses. cbn. by rewrite map_to_list_empty.
Qed.

(** ** The seeds of the gossip (coordinator/gossip/dns_provider.go) *)

Section Resolving.

(** The standard library's parsing of addresses, and the answers of the resolver: the
    [n]th lookup. *)
Context (SplitHostPort : bytes -> error + bytes * bytes) (is_IP : bytes -> bool) (LookupHost : nat -> bytes -> error + list bytes).

Record simpleDNSProvider := MkDNS { seedAddrs : list bytes; resolvedAddrs : list bytes }.

Definition newSimpleDNSProvider (seeds : list bytes) : simpleDNSProvider := MkDNS seeds [].

Fixpoint has_colon (s : bytes) : bool :=
  match s with EmptyString => false | String c s => bool_decide (c = ":"%char) || has_colon s end.

(** [net.JoinHostPort]. *)
Definition JoinHostPort (host port : bytes) : bytes :=
  if has_colon host then "[" +:+ host +:+ "]:" +:+ port else host +:+ ":" +:+ port.

(** One turn of the loop: the addresses it adds, or the error it collects. *)
Definition resolve_one (n : nat) (addr : bytes) : error + list bytes :=
  let '(host, port) := match SplitHostPort addr with inl _ => (addr, EmptyString) | inr hp => hp end in
  if is_IP host then inr [addr]
  else match LookupHost n host with
       | inl err => inl (EWrap host err)
       | inr ips => inr ((fun ip => if decide (port <> EmptyString) then JoinHostPort ip port else ip) <$> ips)
       end.

Fixpoint resolve_all (n : nat) (addrs : list bytes) : list bytes * list error :=
  match addrs with
  | [] => ([], [])
  | addr :: addrs =>
      let '(resolved, errs) := resolve_all (S n) addrs in
      match resolve_one n addr with
      | inl err => (resolved, err :: errs)
      | inr more => (more ++ resolved, errs)
      end
  end.

(** [errors.Join]: a text per line. *)
Fixpoint Join (errs : list error) : bytes :=
  match errs with
  | [] => EmptyString
  | [e] => Error e
  | e :: errs => Error e +:+ String "010"%char (Join errs)
  end.

Definition Resolve (n : nat) (addrs : list bytes) (p : simpleDNSProvider) : option error * simpleDNSProvider :=
  let '(resolved, resolveErrors) := resolve_all n addrs in
  (if bool_decide (resolved = []) && bool_decide (resolveErrors <> [])
   then Some (EText ("all DNS resolutions failed: " +:+ Join resolveErrors)) else None,
   MkDNS (seedAddrs p) resolved).

Definition Addresses (p : simpleDNSProvider) : list bytes :=
  match resolvedAddrs p with [] => seedAddrs p | l => l end.

(** The runs of a provider. *)
Inductive dns_reachable (seeds : list bytes) : simpleDNSProvider -> Prop :=
  | dns_new : dns_reachable seeds (newSimpleDNSProvider seeds)
  | dns_resolve p n addrs : dns_reachable seeds p -> dns_reachable seeds (Resolve n addrs p).2.

(** A provider with seeds always has addresses to join: what the last resolution found, or
    the seeds themselves. *)
Lemma dns_has_addresses seeds p : dns_reachable seeds p -> seeds <> [] ->
  Addresses p <> [] /\ (Addresses p = seeds \/ exists n addrs, Addresses p = (resolve_all n addrs).1).
Proof.
  intros Hr Hne. assert (seedAddrs p = seeds /\ (resolvedAddrs p = [] \/ exists n addrs, resolvedAddrs p = (resolve_all n addrs).1)) as [Hs Hres].
  { induction Hr as [|p n addrs Hr [IHs _]]; [split; [done|by left]|]. unfold Resolve. destruct (resolve_all n addrs) as [res errs] eqn:E.
    split; [done|]. right. exists n, addrs. by rewrite E. }
  unfold Addresses. rewrite Hs. destruct (resolvedAddrs p) as [|a l]; [by split; [|left]|]. split; [done|]. right.
  by destruct Hres as [|(n & addrs & E)]; [|exists n, addrs].
Qed.

(** An error says that no address resolved; the addresses found before are then gone, and
    the provider is back to its seeds. *)
Lemma failed_resolve_forgets n addrs p err : (Resolve n addrs p).1 = Some err ->
  Addresses (Resolve n addrs p).2 = seedAddrs p
  /\ forall i a, addrs !! i = Some a -> resolve_one (n + i) a = inr [] \/ exists e, resolve_one (n + i) a = inl e.
Proof.
  unfold Resolve. destruct (resolve_all n addrs) as [resolved errs] eqn:E. cbn. destruct (decide (resolved = [])) as [->|Hr]; [|by rewrite bool_decide_eq_false_2].
  intros _. split; [done|]. revert n errs E. induction addrs as [|a addrs IH]; intros n errs; cbn [resolve_all]; [done|].
  destruct (resolve_all (S n) addrs) as [res es] eqn:Ea. intros E.
  assert (res = [] /\ (resolve_one n a = inr [] \/ exists e, resolve_one n a = inl e)) as [-> Ha].
  { destruct (resolve_one n a) as [e|l]; simplify_eq; [eauto|]. destruct l; [|done]. cbn in *. by simplify_eq; auto. }
  intros [|i] x; cbn; [intros [= <-]; by rewrite Nat.add_0_r|]. rewrite Nat.add_succ_r. by apply (IH (S n) es).
Qed.

End Resolving.
