(* ===== verification/Client.v ===== *)
(** * The client's operations (client: operations.go, cas.go, cluster_client.go)

    [Operations] is shared by the simple and the cluster client: a router picks the
    connection, the stub is called, the answer is interpreted. The cluster client adds
    one retry after a refresh of its topology for the operations that may be repeated.
    [call] is the stub: a node of the cluster of Service.v, reached through the network. *)

From S2P Require Import Prelude Keys Errors Retry Message Merge Rocks World Files RangeReader Storage Wp Safety StorageSpec Listing ListingProps Heap ClusterList Cas TokenRing Ring Router Rpc StreamReader Operations Service ServiceProps Topology.

Open Scope Z_scope.

(** The client's errors: the stub's, the router's and its own texts, or a lost
    conditional write with the current version. *)
Inductive client_error :=
  | COther (err : op_error)
  | VersionMismatchError (key : bytes) (CurrentVersion : Z).

Section Client.

Context {St : Type}.
(** A stub of an address: the call cannot be started, or its answer. *)
Context (call : bytes -> forall r, ST St (op_error + (op_error + response r))).
(** [Router.Route], and whether the connection's pool has a client. *)
Context (route : bytes -> error + bytes) (has_client : bytes -> bool).

Definition no_client : op_error := Plain (EText "no healthy connections available").

Definition with_client {A} (key : bytes) (fail : op_error -> A) (k : bytes -> ST St A) : ST St A :=
  match route key with
  | inl err => mret (fail (Plain err))
  | inr addr => if has_client addr then k addr else mret (fail no_client)
  end.

Definition unary (addr : bytes) (r : request) : ST St (op_error + response r) :=
  x ← call addr r; mret match x with inl err => inl err | inr y => y end.

(** ** operations.go *)

(** The response is not looked at. *)
Definition Put (key data : bytes) (ttlSeconds : Z) : ST St (option op_error) :=
  with_client key Some (fun addr =>
    r ← unary addr (RPutObject (MkPut key ttlSeconds data false));
    mret match r with inl err => Some err | inr _ => None end).

(** The messages of [PutStream]: one per read with data, key and TTL on the first. The
    sends succeed; a node that answers before the last message is heard after it. *)
Fixpoint put_messages (key : bytes) (ttlSeconds : Z) (first : bool) (r : Reader) : list PutRequest * option op_error :=
  match r with
  | [] => ([], None)
  | (data, err) :: r =>
      let sent := if decide (data = EmptyString) then []
                  else [if first then MkPut key ttlSeconds data false else MkPut EmptyString 0 data false] in
      match err with
      | Some EOF => (sent, None)
      | Some err => (sent, Some err)
      | None =>
          let '(msgs, err) := put_messages key ttlSeconds (first && bool_decide (data = EmptyString)) r in
          (sent ++ msgs, err)
      end
  end.

Definition PutStream (key : bytes) (r : Reader) (ttlSeconds : Z) : ST St (option op_error) :=
  with_client key Some (fun addr =>
    match put_messages key ttlSeconds true r with
    | (msgs, Some err) => _ ← call addr (RPut msgs (Some gone)); mret (Some err)
    | (msgs, None) =>
        x ← unary addr (RPut msgs None);
        mret match x with
             | inl err => Some err
             | inr resp => if po_Success resp then None else Some (Plain (EText ("put failed: " +:+ po_Error resp)))
             end
    end).

(** [Get] and [GetRange] collect the chunks; [GetStream] and [GetRangeStream] write them. *)
Definition GetRange (key : bytes) (start end_ : Z) : ST St (op_error + bytes) :=
  with_client key inl (fun addr =>
    x ← call addr (RGet (MkGet key start end_));
    mret match x with
         | inl err | inr (inl err) | inr (inr (_, Some err)) => inl err
         | inr (inr (chunks, None)) => inr (sconcat chunks)
         end).

Definition Get (key : bytes) : ST St (op_error + bytes) := GetRange key 0 0.

(** What reached the writer, and the error. *)
Definition GetRangeStream (key : bytes) (start end_ : Z) : ST St (bytes * option op_error) :=
  with_client key (fun err => (EmptyString, Some err)) (fun addr =>
    x ← call addr (RGet (MkGet key start end_));
    mret match x with
         | inl err | inr (inl err) => (EmptyString, Some err)
         | inr (inr (chunks, fin)) => (sconcat chunks, fin)
         end).

(** The response is not looked at. *)
Definition Delete (key : bytes) : ST St (option op_error) :=
  with_client key Some (fun addr =>
    r ← unary addr (RDelete key);
    mret match r with inl err => Some err | inr _ => None end).

(** ** cas.go *)

Definition GetWithVersion (key : bytes) : ST St (op_error + bytes * Z * bool) :=
  with_client key inl (fun addr =>
    r ← unary addr (RGetObjectWithVersion key);
    mret match r with inl err => inl err | inr resp => inr (gv_Data resp, gv_Version resp, gv_Found resp) end).

Definition put_outcome (key : bytes) (r : op_error + PutIfVersionResponse) : client_error + Z :=
  match r with
  | inl err => inl (COther err)
  | inr resp =>
      if decide (vo_Error resp <> EmptyString) then inl (COther (Plain (EText (vo_Error resp))))
      else if vo_Success resp then inr (vo_NewVersion resp)
      else inl (VersionMismatchError key (vo_CurrentVersion resp))
  end.

Definition PutIfVersion (key data : bytes) (ttlSeconds expected : Z) : ST St (client_error + Z) :=
  with_client key (fun err => inl (COther err)) (fun addr =>
    r ← unary addr (RPutObjectIfVersion (MkPutV key ttlSeconds data expected));
    mret (put_outcome key r)).

Definition DeleteIfVersion (key : bytes) (expected : Z) : ST St (option client_error) :=
  with_client key (fun err => Some (COther err)) (fun addr =>
    r ← unary addr (RDeleteIfVersion key expected);
    mret match r with
         | inl err => Some (COther err)
         | inr resp =>
             if decide (wo_Error resp <> EmptyString) then Some (COther (Plain (EText (wo_Error resp))))
             else if wo_Success resp then None
             else Some (VersionMismatchError key (wo_CurrentVersion resp))
         end).

(** Key, TTL and expectation go first, then the data. *)
Fixpoint cas_messages (r : Reader) : list PutIfVersionRequest * option op_error :=
  match r with
  | [] => ([], None)
  | (data, err) :: r =>
      let sent := if decide (data = EmptyString) then [] else [MkPutV EmptyString 0 data 0] in
      match err with
      | Some EOF => (sent, None)
      | Some err => (sent, Some err)
      | None => let '(msgs, err) := cas_messages r in (sent ++ msgs, err)
      end
  end.

Definition PutStreamIfVersion (key : bytes) (r : Reader) (ttlSeconds expected : Z) : ST St (client_error + Z) :=
  with_client key (fun err => inl (COther err)) (fun addr =>
    let first := MkPutV key ttlSeconds EmptyString expected in
    match cas_messages r with
    | (msgs, Some err) => _ ← call addr (RPutStreamIfVersion (first :: msgs) (Some gone)); mret (inl (COther err))
    | (msgs, None) => x ← unary addr (RPutStreamIfVersion (first :: msgs) None); mret (put_outcome key x)
    end).

(** What reached the writer, and the version and presence. *)
Definition GetStreamWithVersion (key : bytes) : ST St (bytes * (op_error + Z * bool)) :=
  with_client key (fun err => (EmptyString, inl err)) (fun addr =>
    x ← call addr (RGetStreamWithVersion key);
    mret match x with
         | inl err | inr (inl err) => (EmptyString, inl err)
         | inr (inr ([], fin)) => (EmptyString, inl (default EOF fin))
         | inr (inr (first :: msgs, fin)) =>
             if gv_Found first then
               (gv_Data first +:+ sconcat (gv_Data <$> msgs),
                match fin with Some err => inl err | None => inr (gv_Version first, true) end)
             else (EmptyString, inr (gv_Version first, false))
         end).

End Client.

(** ** operations.go: listing *)

Section ClientList.

Context {St : Type}.
(** The stubs of an address. *)
Context (call_List : bytes -> ListRequest -> ST St (op_error + ListResponse bytes)).
Context (call_ListWithValues : bytes -> ListRequest -> ST St (op_error + ListResponse KeyValue)).
(** [Router.RoundRobinRoute], and whether the connection's pool has a client. *)
Context (route : error + bytes) (has_client : bytes -> bool).

Definition MaxPageLimit : Z := 1000.

Definition client_page_limit (limit : Z) : Z := if (limit <=? 0) || (MaxPageLimit <? limit) then MaxPageLimit else limit.

Definition list_page {A} (stub : bytes -> ListRequest -> ST St (op_error + ListResponse A)) (prefix : bytes) (limit : Z) (token : bytes)
    : ST St (op_error + list A * bytes * bool) :=
  with_client (fun _ => route) has_client EmptyString inl (fun addr =>
    r ← stub addr (MkListReq prefix EmptyString (client_page_limit limit) token);
    mret match r with
         | inl err => inl err
         | inr resp => inr (lr_Items resp, lr_ContinuationToken resp, lr_HasMore resp)
         end).

Definition ListPage (prefix : bytes) (limit : Z) (token : bytes) : ST St (op_error + list bytes * bytes * bool) :=
  list_page call_List prefix limit token.

(** The entries are copied field by field. *)
Definition ListPageWithValues (prefix : bytes) (limit : Z) (token : bytes) : ST St (op_error + list KeyValue * bytes * bool) :=
  list_page call_ListWithValues prefix limit token.

(** The loop of [List]: every page from one node. [ctxErr] is the context's error before a
    page; [None] when the fuel runs out before the last page. *)
Fixpoint List_pages (ctxErr : nat -> option op_error) (fuel : nat) (addr prefix token : bytes) (allKeys : list bytes)
    : ST St (option (op_error + list bytes)) :=
  match fuel with
  | O => mret None
  | S fuel =>
      match ctxErr fuel with
      | Some err => mret (Some (inl err))
      | None =>
          r ← call_List addr (MkListReq prefix EmptyString MaxPageLimit token);
          match r with
          | inl err => mret (Some (inl err))
          | inr resp =>
              let allKeys := allKeys ++ lr_Items resp in
              if negb (lr_HasMore resp) || bool_decide (lr_ContinuationToken resp = EmptyString) then mret (Some (inr allKeys))
              else List_pages ctxErr fuel addr prefix (lr_ContinuationToken resp) allKeys
          end
      end
  end.

Definition List (ctxErr : nat -> option op_error) (fuel : nat) (prefix : bytes) : ST St (option (op_error + list bytes)) :=
  with_client (fun _ => route) has_client EmptyString (fun err => Some (inl err)) (fun addr => List_pages ctxErr fuel addr prefix EmptyString []).

End ClientList.

(** ** cluster_client.go: retries

    The state is the client's routing table beside what the stubs act on. *)

Section ClusterRetry.

Context {St : Type} (call : bytes -> forall r, ST St (op_error + (op_error + response r))).
Context (has_client : bytes -> bool).
(** [forceRefreshTopology], with the new table. *)
Context (refresh : ClusterClient -> bool * ClusterClient).

Definition CC (A : Type) : Type := ST (ClusterClient * St) A.

(** An operation with the routing table of now. *)
Definition with_table {A} (op : (bytes -> error + bytes) -> ST St A) : CC A := fun s =>
  let '(a, st) := op (Topology.Route s.1) s.2 in (a, (s.1, st)).

Definition do_refresh : CC bool := fun s => let '(ok, cc) := refresh s.1 in (ok, (cc, s.2)).

(** [isRoutingError(err) && c.forceRefreshTopology(ctx)], then once more. *)
Definition once_more {A} (err_of : A -> option op_error) (op : (bytes -> error + bytes) -> ST St A) : CC A :=
  a ← with_table op;
  if isRoutingError (err_of a) then
    ok ← do_refresh;
    if (ok : bool) then with_table op else mret a
  else mret a.

Definition cc_Put (key data : bytes) (ttlSeconds : Z) : CC (option op_error) :=
  once_more id (fun route => Put call route has_client key data ttlSeconds).

Definition cc_Delete (key : bytes) : CC (option op_error) :=
  once_more id (fun route => Delete call route has_client key).

Definition left_of {A B} (x : A + B) : option A := match x with inl a => Some a | inr _ => None end.

Definition cc_GetWithVersion (key : bytes) : CC (op_error + bytes * Z * bool) :=
  once_more left_of (fun route => GetWithVersion call route has_client key).

(** Nothing may have reached the writer. *)
Definition cc_GetStreamWithVersion (key : bytes) : CC (bytes * (op_error + Z * bool)) :=
  once_more (fun r : bytes * (op_error + Z * bool) => if decide (r.1 = EmptyString) then left_of r.2 else None)
    (fun route => GetStreamWithVersion call route has_client key).

(** The streamed answer so far, and the error of [Recv] or of the routing before it:
    only the former is retried. *)
Definition stream_get (key : bytes) (start end_ : Z) (route : bytes -> error + bytes) : ST St (bytes * (op_error + option op_error)) :=
  with_client route has_client key (fun err => (EmptyString, inl err)) (fun addr =>
    x ← call addr (RGet (if decide (start = 0 /\ end_ = 0) then MkGet key 0 0 else MkGet key start end_));
    mret match x with
         | inl err => (EmptyString, inl err)
         | inr (inl err) => (EmptyString, inr (Some err))
         | inr (inr (chunks, fin)) => (sconcat chunks, inr fin)
         end).

(** [getStreamDataWithRetry] with a writer that takes everything, and [getDataWithRetry],
    which keeps the bytes instead: what was written, and the error. *)
Fixpoint getStreamDataWithRetry (retryCount : nat) (key : bytes) (start end_ : Z) : CC (bytes * option op_error) :=
  '(data, r) ← with_table (stream_get key start end_);
  match r with
  | inl err => mret (data, Some err)
  | inr None => mret (data, None)
  | inr (Some err) =>
      match retryCount with
      | S retryCount =>
          if isRoutingError (Some err) && bool_decide (data = EmptyString) then
            ok ← do_refresh;
            if (ok : bool) then
              '(more, e) ← getStreamDataWithRetry retryCount key start end_; mret (data +:+ more, e)
            else mret (data, Some err)
          else mret (data, Some err)
      | O => mret (data, Some err)
      end
  end.

Definition getDataWithRetry (retryCount : nat) (key : bytes) (start end_ : Z) : CC (op_error + bytes) :=
  '(data, err) ← getStreamDataWithRetry retryCount key start end_;
  mret match err with Some err => inl err | None => inr data end.

Definition cc_Get (key : bytes) : CC (op_error + bytes) := getDataWithRetry 1 key 0 0.
Definition cc_GetRange (key : bytes) (start end_ : Z) : CC (op_error + bytes) := getDataWithRetry 1 key start end_.

End ClusterRetry.

(** ** A read is one answer *)

Section OneAnswer.

Context {St : Type} (call : bytes -> forall r, ST St (op_error + (op_error + response r))).
Context (has_client : bytes -> bool) (refresh : ClusterClient -> bool * ClusterClient) (key : bytes).

(** The bytes are those of a streamed answer that ended in [fin]. *)
Definition answered (data : bytes) (fin : option op_error) : Prop :=
  exists addr req st st' chunks,
    call addr (RGet req) st = (inr (inr (chunks, fin)), st') /\ gq_Key req = key /\ data = sconcat chunks.

Lemma stream_get_one start end_ route st data r st' :
  stream_get call has_client key start end_ route st = ((data, r), st') ->
  (data = EmptyString /\ r <> inr None) \/ exists fin, answered data fin /\ r = inr fin.
Proof.
  unfold stream_get, with_client, mbind, ST_bind, mret, ST_ret. destruct (route key) as [e|addr]; [intros; simplify_eq/=; by left|].
  destruct (has_client addr); [|intros; simplify_eq/=; by left].
  set (q := if decide (start = 0 /\ end_ = 0) then _ else _). assert (gq_Key q = key) as Hq by (unfold q; by case_decide).
  destruct (call addr (RGet q) st) as [[e|[e|[chunks fin]]] st1] eqn:Ec; intros; simplify_eq/=; [by left|by left|].
  right. exists fin. split; [|done]. by exists addr, q, st, st', chunks.
Qed.

(** C11: a read never mixes two answers. Whatever a cluster client's read tries again
    after a refresh, the bytes that reach the caller's writer are those of one streamed
    answer, complete if the read succeeds; a retry starts only while nothing has been
    written. *)
Theorem read_is_one_answer n start end_ s data err s' :
  getStreamDataWithRetry call has_client refresh n key start end_ s = ((data, err), s') ->
  (data = EmptyString /\ err <> None) \/ exists fin, answered data fin /\ (err = None -> fin = None).
Proof.
  revert s data err s'. induction n as [|n IH]; intros s data err s'; cbn [getStreamDataWithRetry]; unfold mbind, ST_bind, mret, ST_ret, with_table;
    destruct (stream_get call has_client key start end_ (Topology.Route s.1) s.2) as [[d r] st] eqn:Eg; apply stream_get_one in Eg.
  - destruct r as [e|[e|]]; intros; simplify_eq/=; naive_solver.
  - destruct r as [e|[e|]]; [intros; simplify_eq/=; naive_solver| |intros; simplify_eq/=; naive_solver].
    destruct (isRoutingError (Some e) && bool_decide (d = EmptyString)) eqn:Eb; [|intros; simplify_eq/=; naive_solver].
    apply andb_true_iff in Eb as [_ Hd%bool_decide_eq_true_1]. unfold do_refresh. cbn [fst snd].
    destruct (refresh s.1) as [[] cc]; [|intros; simplify_eq/=; naive_solver].
    destruct (getStreamDataWithRetry call has_client refresh n key start end_ (cc, st)) as [[more e2] s2] eqn:E2.
    intros. simplify_eq/=. by eapply IH.
Qed.

End OneAnswer.

(** ** Failures the client does not report *)

Section Unreported.

Context {DB SM : Type} `{RocksDB DB} {PB : Protobuf} `{SegmentStore SM} (ce : ClusterEnv).
Context (key node : bytes) (md : MD).
(** The client asks the owner of the key, calls succeed, and no caller gives up. *)
Context (all_clustered : forall n, ce_clustered ce n = true) (own_key : forall n, ce_isLocal ce n node key = true).
Context (calls_start : forall n, ce_open ce n = None) (answers_arrive : forall n, ce_lost ce n = None).
Context (few_hops : hops md <= MaxHops) (has_key : key <> EmptyString).
Implicit Types c : Cluster DB SM.

Lemma wp_own_key Q c : Q true (later c) -> wp (IsLocal ce node key) Q c.
Proof using all_clustered own_key. intros HQ. unfold IsLocal. rewrite all_clustered. unfold wp, consult. cbn. by rewrite own_key. Qed.

Definition stub (stuck : status) (fuel : nat) (addr : bytes) (r : request) : C (DB := DB) (SM := SM) (op_error + (op_error + response r)) :=
  serve ce stuck (S fuel) addr md r.

(** The world in which the owner runs the operation: the call has come in and the owner
    has found the key to be its own. *)
Definition received (c : Cluster DB SM) : Cluster DB SM := later (later c).

Lemma put_answer stuck fuel data ttl err c :
  (PutLocalWithOptions ce node key (bytes_reader data) ttl false (received c)).1 = Some err ->
  (stub stuck fuel node (RPutObject (MkPut key ttl data false)) c).1 = inr (inr (putFailure err)).
Proof using all_clustered answers_arrive calls_start few_hops has_key own_key.
  intros Hput. refine (_ : wp (stub stuck fuel node (RPutObject (MkPut key ttl data false))) (fun x _ => x = inr (inr (putFailure err))) c).
  apply (wp_serve ce all_clustered calls_start answers_arrive); [done|]. cbn [handle]. apply wp_bind. unfold PutObject. cbn [pq_Key].
  rewrite decide_False by done. apply wp_bind. unfold PutWithOptions. apply wp_bind, wp_own_key. cbn [pq_Data pq_TtlSeconds pq_ShedOverBudget].
  apply (wp_at _ (Some err) _ (PutLocalWithOptions ce node key (bytes_reader data) ttl false (received c)).2); [rewrite <- Hput; apply surjective_pairing|].
  apply wp_ret, wp_ret. by intros c'' _.
Qed.

Lemma delete_answer stuck fuel err c :
  (DeleteLocal ce node key (received c)).1 = Some err ->
  (stub stuck fuel node (RDelete key) c).1 = inr (inr (MkDelResp false (op_Error (mapStorageErrorToGRPC err)))).
Proof using all_clustered answers_arrive calls_start few_hops has_key own_key.
  intros Hdel. refine (_ : wp (stub stuck fuel node (RDelete key)) (fun x _ => x = inr (inr (MkDelResp false (op_Error (mapStorageErrorToGRPC err))))) c).
  apply (wp_serve ce all_clustered calls_start answers_arrive); [done|]. cbn [handle]. apply wp_bind. unfold Service.Delete.
  rewrite decide_False by done. apply wp_bind. unfold Operations.Delete. apply wp_bind, wp_own_key.
  apply (wp_at _ (Some err) _ (DeleteLocal ce node key (received c)).2); [rewrite <- Hdel; apply surjective_pairing|].
  apply wp_ret, wp_ret. by intros c'' _.
Qed.

(** C39: the client reports a failed put or delete as done. When a put or a delete fails at
    the owner of the key, its retries included (a full disk, a failing write), the node
    answers with success = false and the error; the client's [Put] and [Delete] do not look
    at the response and return nil. *)
Theorem client_hides_failures stuck fuel data ttl err derr c :
  (PutLocalWithOptions ce node key (bytes_reader data) ttl false (received c)).1 = Some err ->
  (DeleteLocal ce node key (received c)).1 = Some derr ->
  ((stub stuck fuel node (RPutObject (MkPut key ttl data false)) c).1 = inr (inr (putFailure err))
   /\ (Client.Put (stub stuck fuel) (fun _ => inr node) (fun _ => true) key data ttl c).1 = None)
  /\ ((stub stuck fuel node (RDelete key) c).1 = inr (inr (MkDelResp false (op_Error (mapStorageErrorToGRPC derr))))
      /\ (Client.Delete (stub stuck fuel) (fun _ => inr node) (fun _ => true) key c).1 = None).
Proof using all_clustered answers_arrive calls_start few_hops has_key own_key.
  intros E1%(put_answer stuck fuel) E2%(delete_answer stuck fuel).
  split; (split; [done|]); unfold Client.Put, Client.Delete, with_client, unary, mbind, ST_bind.
  - destruct (stub stuck fuel node (RPutObject _) c) as [x c1]. cbn in E1. by subst x.
  - destruct (stub stuck fuel node (RDelete key) c) as [x c1]. cbn in E2. by subst x.
Qed.

(** A streamed put of an empty body sends no message: the node has no key and refuses. *)
Lemma empty_stream_refused stuck fuel ttl c :
  (Client.PutStream (stub stuck fuel) (fun _ => inr node) (fun _ => true) key [] ttl c).1 = Some (Plain (EText "put failed: EOF")).
Proof using all_clustered answers_arrive calls_start few_hops.
  assert ((stub stuck fuel node (RPut [] None) c).1 = inr (inr (put_refused "EOF"))) as E.
  { refine (_ : wp (stub stuck fuel node (RPut [] None)) (fun x _ => x = inr (inr (put_refused "EOF"))) c).
    apply (wp_serve ce all_clustered calls_start answers_arrive); [done|]. cbn [handle]. apply wp_bind, wp_ret, wp_ret. by intros c'' _. }
  unfold Client.PutStream, with_client, unary, mbind, ST_bind. cbn [put_messages]. destruct (stub stuck fuel node (RPut [] None) c) as [x c1]. cbn in E. by subst x.
Qed.

End Unreported.

(** ** Listing through every layer

    Client, service, operations and storage of a node that is not clustered. *)

Section ListThrough.

Context {DB SM : Type} {PB : Protobuf} {PL : ProtobufLaws} {RDB : RocksDB DB} {RL : RocksLaws DB} {SS : SegmentStore SM}.
Context (env : Env) (done_before done_wait : nat -> bool) (rnd : nat -> draw) (alive : done_before 0%nat = false).
Implicit Types (w : World DB SM) (m : gmap bytes bytes).

(** The node as the client sees it: the handler, its error as a status. *)
Definition single_stub (addr : bytes) (req : ListRequest) : M (DB := DB) (SM := SM) (op_error + ListResponse bytes) :=
  r ← Service.List (fun prefix limit token =>
        r ← ListPage_single env done_before done_wait rnd prefix limit token;
        mret match r with inl err => inl (Plain err) | inr x => inr x end) req;
  mret match r with inl err => inl (wire_error err) | inr resp => inr resp end.

Lemma retried_ok {A} op (c : M (DB := DB) (SM := SM) (error + A)) a w w' :
  c w = (inr a, w') -> retried done_before done_wait rnd op c w = (inr a, w').
Proof using alive. intros E. unfold retried, Do, DoWithKey. replace (Z.to_nat (MaxRetries DefaultConfig + 1)) with 6%nat by done. cbn [do_loop]. by rewrite alive, E. Qed.

(** A page of the store reaches the client with its continuation key. *)
Lemma single_stub_page addr p s ks last more w w' :
  ListKeysWithPagination env p s MaxPageLimit w = (inr (ks, last, more), w') ->
  single_stub addr (MkListReq p EmptyString MaxPageLimit s) w
  = (inr (MkListResp ks (if more && bool_decide (last <> EmptyString) then last else EmptyString) more), w').
Proof using alive.
  intros E. apply (retried_ok "ListKeysWithPagination") in E.
  unfold single_stub, Service.List, list_handler, ListPage_single, ClusterList.ListLocal, request_token. cbn [lq_Prefix lq_Limit lq_StartKey lq_ContinuationToken].
  rewrite decide_False by naive_solver. unfold mbind, ST_bind, mret, ST_ret. change (apply_limit (apply_limit MaxPageLimit)) with MaxPageLimit.
  by rewrite E.
Qed.

(** Following the tokens of the service is following the continuation keys of the store. *)
Lemma List_pages_follow addr p m fuel s acc ks w w' :
  represents (w_db w) m -> m !! MetadataPrefix = None -> s = EmptyString \/ has_prefix p s = true ->
  list_pages env fuel p s MaxPageLimit w = (Some ks, w') ->
  List_pages single_stub (fun _ => None) fuel addr p s acc w = (Some (inr (acc ++ ks)), w').
Proof using alive PL RL.
  intros Hm Hempty. revert s acc ks w Hm. induction fuel as [|fuel IH]; intros s acc ks w Hm Hs; cbn [list_pages List_pages]; [done|].
  unfold mbind, ST_bind, mret, ST_ret. destruct (ListKeysWithPagination env p s MaxPageLimit w) as [[e|[[k last] more]] w1] eqn:E; [done|].
  rewrite (single_stub_page addr _ _ _ _ _ _ _ E). cbn [lr_Items lr_ContinuationToken lr_HasMore]. destruct more; [|by intros [= <- <-]].
  destruct (page_token env p s MaxPageLimit m k last w w1 Hm Hempty Hs E) as (Hm1 & Hne & Hpre).
  rewrite (bool_decide_eq_true_2 (last <> EmptyString)) by done. cbn [andb negb orb]. rewrite bool_decide_eq_false_2 by done.
  destruct (list_pages env fuel p last MaxPageLimit w1) as [[rs|] w2] eqn:E2; [|done]. intros [= <- <-].
  rewrite (IH last (acc ++ k) rs w1 Hm1 (or_intror Hpre) E2). by rewrite <- app_assoc.
Qed.

(** C33: listing through every layer. The client's [List] on a node without a cluster
    follows the continuation tokens of the service, the operations and the storage, at
    1000 keys a page, to the last page, within as many calls as there are listed rows plus
    one, and returns, once and in increasing order, every stored key with the prefix that
    stayed unexpired, and no key that was absent or expired throughout. The iterator must
    not fail, and the empty key must not be stored: its page would end the listing. *)
Theorem client_lists_every_live_key node p m w :
  represents (w_db w) m -> ~ iter_failed (DB := DB) -> m !! MetadataPrefix = None ->
  let '(r, w') := List single_stub (inr node) (fun _ => true) (fun _ => None) (S (length (listed p m))) p w in
  exists ks, r = Some (inr ks) /\ lists env p m (w_tick w) (w_tick w') ks.
Proof using alive PL RL.
  intros Hm Hit Hempty. pose proof (list_pages_picked env (S (length (listed p m))) p EmptyString MaxPageLimit m w Hm Hit Hempty
    ltac:(done) (or_introl eq_refl) (Nat.lt_succ_diag_r _)) as Hp.
  destruct (list_pages env (S (length (listed p m))) p EmptyString MaxPageLimit w) as [r w'] eqn:E. eapply wp_run in Hp; [|exact E].
  destruct Hp as (_ & ks & -> & Hk). unfold List, with_client.
  rewrite (List_pages_follow node p m _ EmptyString [] ks w w' Hm Hempty (or_introl eq_refl) E).
  exists ks. split; [done|]. by apply picked_lists.
Qed.

End ListThrough.
