(* ===== verification/ServiceWitnesses.v ===== *)
(** * A cluster of two nodes at concrete inputs

    Node "b" owns every key; what is asked of "a" is forwarded. Each witness applies a
    theorem on forwarding, on streams or on the client to a run of the cluster. *)

From S2P Require Import Prelude Keys Errors Retry Message Merge ProtoInstance Wire Rocks RocksInstances World Files RangeReader Storage Wp Safety StorageSpec StorageProps Listing ListingProps ClusterList StorageWitnesses Cas TokenRing Ring Router Rpc StreamReader Operations Service ServiceProps Topology Client.

Open Scope Z_scope.

Definition s_calm : RetryEnv := MkRetryEnv (fun _ => false) (fun _ => false) (fun _ => Draw (Frac 0 1) true).

Definition s_ce : ClusterEnv :=
  MkClusterEnv (fun _ => true) (fun _ => w_env) (fun _ => w_cfg) (fun _ node _ => bool_decide (node = "b"%string)) (fun _ _ _ => inr "b"%string)
    (fun _ => None) (fun _ => None) (fun _ => None) (fun _ => None) (fun _ => s_calm) (fun _ _ => false) (fun _ => O) (fun _ => None) (fun _ => false) (fun _ _ => 0).

(** Two nodes that each take the other for the owner. *)
Definition s_loop : ClusterEnv :=
  MkClusterEnv (fun _ => true) (fun _ => w_env) (fun _ => w_cfg) (fun _ _ _ => false)
    (fun _ node _ => inr (if decide (node = "a"%string) then "b" else "a")%string)
    (fun _ => None) (fun _ => None) (fun _ => None) (fun _ => None) (fun _ => s_calm) (fun _ _ => false) (fun _ => O) (fun _ => None) (fun _ => false) (fun _ _ => 0).

Definition s_cluster : Cluster Journal unit := MkCluster (fun _ => w_empty) 0.
Definition s_stuck : status := (Internal, EmptyString).

(** A delete that goes in circles is refused after four hops. *)
Lemma forwarding_terminates_witness :
  visits (hops []) = 5%nat
  /\ (serve s_loop s_stuck 5 "a" [] (RDelete "k") s_cluster).1
     = inr (inr (MkDelResp false "rpc error: code = ResourceExhausted desc = max hop count exceeded (4 hops, max 3)"))
  /\ serve s_loop s_stuck 5 "a" [] (RDelete "k") s_cluster = serve s_loop (Unknown, "x"%string) 40 "a" [] (RDelete "k") s_cluster.
Proof.
  split; [vm_compute; reflexivity|]. split; [vm_compute; reflexivity|].
  apply (forwarding_terminates s_loop s_stuck (Unknown, "x"%string) 5 40 "a" [] (RDelete "k") s_cluster); apply Nat.leb_le; vm_compute; reflexivity.
Defined.

Definition s_cas : PutIfVersionRequest := MkPutV "k" 0 "v" 0.
Definition s_cas_run := serve s_ce s_stuck 5 "a" [] (RPutObjectIfVersion s_cas) s_cluster.

Lemma cas_applied_at_most_once_witness :
  s_cas_run.1 = inr (inr (MkPutVResp true 1700000000000000000 0 EmptyString))
  /\ exists node r w, cas_run s_ce s_cas node (cl_world s_cluster node) = (r, w) /\ changed_at node w s_cluster s_cas_run.2
       /\ r = inr 1700000000000000000.
Proof.
  assert (s_cas_run.1 = inr (inr (MkPutVResp true 1700000000000000000 0 EmptyString))) as E by (vm_compute; reflexivity). split; [exact E|].
  destruct (cas_applied_at_most_once s_ce s_stuck 5 "a" [] s_cas s_cluster s_cas_run.1 s_cas_run.2 (surjective_pairing _))
    as [[_ Hx]|(node & r & w & Er & Hc & Hx)].
  - destruct (Hx _ E) as [Hs _]. discriminate Hs.
  - exists node, r, w. split; [exact Er|]. split; [exact Hc|]. exact (Hx _ E).
Defined.

Lemma forwarding_transparent_witness :
  s_cas_run.1 = (serve s_ce s_stuck 5 "b" [] (RPutObjectIfVersion s_cas) s_cluster).1
  /\ cl_world s_cas_run.2 "b" = cl_world (serve s_ce s_stuck 5 "b" [] (RPutObjectIfVersion s_cas) s_cluster).2 "b".
Proof.
  destruct (forwarding_transparent s_ce "k" "b" (fun _ => eq_refl) (fun _ _ => eq_refl) (fun _ _ => eq_refl) (fun _ => eq_refl) (fun _ => eq_refl)
    s_calm (fun _ => eq_refl) s_stuck 3 "a" [] (RPutObjectIfVersion s_cas) s_cluster) as [E U].
  - reflexivity.
  - discriminate.
  - vm_compute. reflexivity.
  - split; [exact E|exact (U "b"%string)].
Defined.

Lemma forwarded_miss_is_unavailable_witness :
  (serve s_ce s_stuck 5 "a" [] (RGet (MkGet "k" 0 0)) s_cluster).1
  = inr (inr ([], Some (StatusError Unavailable "error from remote node: rpc error: code = NotFound desc = key not found"))).
Proof.
  apply (forwarded_miss_is_unavailable s_ce "k" "b" (fun _ => eq_refl) (fun _ _ => eq_refl) (fun _ _ => eq_refl) (fun _ => eq_refl) (fun _ => eq_refl)
    s_calm (fun _ => eq_refl) (fun _ => eq_refl) s_stuck 3 "a" [] 0 0 s_cluster).
  - discriminate.
  - vm_compute. reflexivity.
  - reflexivity.
  - vm_compute. reflexivity.
Defined.

(** An upload of which the first message arrives, and then an oversized one. *)
Definition s_first : PutRequest := MkPut "k" 0 "hel" false.
Definition s_too_large : op_error := StatusError ResourceExhausted "grpc: received message larger than max".
Definition s_upload := serve s_ce s_stuck 5 "a" [] (RPut [s_first] (Some s_too_large)) s_cluster.

(** The client is told that the put failed, and the key now holds what had arrived. *)
Lemma interrupted_upload_is_stored_witness :
  (exists text, s_upload.1 = inr (inr (put_refused text)))
  /\ (Storage.Get w_env w_cfg "k" 0 0 (cl_world s_upload.2 "b")).1 = inr (Some (get_reader "hel" 0 0))
  /\ cl_world s_upload.2 "b" = (Storage.Put w_env w_cfg "k" (MkBody "hel" None) 0 w_empty).2.
Proof.
  destruct (interrupted_upload_is_stored s_ce "k" "b" (fun _ => eq_refl) (fun _ _ => eq_refl) (fun _ _ => eq_refl) (fun _ => eq_refl) (fun _ => eq_refl)
    (fun _ => eq_refl) s_stuck 3 "a" [] s_first [] s_too_large s_cluster) as (E2 & [n E1] & _).
  - discriminate.
  - vm_compute. reflexivity.
  - reflexivity.
  - discriminate.
  - reflexivity.
  - discriminate.
  - discriminate.
  - split; [eexists; exact E2|]. split; [vm_compute; reflexivity|exact E1].
Defined.

(** ** The client *)

(** A node whose store fails every write: six attempts. *)
Definition s_full : Cluster Journal unit :=
  MkCluster (fun _ => w_world (<[MakeMetadataKey "k" := enc_message (MkVM INLINE "old" 0 EmptyString EmptyString 0 3 0 0 0 0)]> ∅)
    (repeat (Some (EText "IO error: No space left on device")) 6) 3) 0.
Definition s_put_err : option op_error := (PutLocalWithOptions s_ce "b" "k" (bytes_reader "v") 0 false (received s_full)).1.
Definition s_del_err : option op_error := (DeleteLocal s_ce "b" "k" (received s_full)).1.

Lemma client_hides_failures_witness :
  (Client.Put (stub s_ce [] s_stuck 4) (fun _ => inr "b"%string) (fun _ => true) "k" "v" 0 s_full).1 = None
  /\ (Client.Delete (stub s_ce [] s_stuck 4) (fun _ => inr "b"%string) (fun _ => true) "k" s_full).1 = None
  /\ exists e1 e2, s_put_err = Some e1 /\ s_del_err = Some e2.
Proof.
  destruct s_put_err as [e1|] eqn:E1; [|vm_compute in E1; discriminate E1]. destruct s_del_err as [e2|] eqn:E2; [|vm_compute in E2; discriminate E2].
  destruct (client_hides_failures (DB := Journal) (SM := unit) s_ce "k" "b" [] (fun _ => eq_refl) (fun _ => eq_refl) (fun _ => eq_refl) (fun _ => eq_refl)
    ltac:(vm_compute; discriminate) ltac:(discriminate) s_stuck 4 "v" 0 e1 e2 s_full E1 E2) as [[_ H1] [_ H2]].
  split; [exact H1|]. split; [exact H2|]. exists e1, e2. split; reflexivity.
Defined.

(** A node that answers a first read with a routing error and the next with the value. *)
Definition s_answers (addr : bytes) (r : request) : ST bool (op_error + (op_error + response r)) := fun moved =>
  match r with
  | RGet _ => (inr (inr (if moved then (["hel"; "lo"]%string, None) else ([], Some (StatusError NotFound "not the owner")))), true)
  | _ => (inl (StatusError Internal EmptyString), moved)
  end.

Definition s_cc : ClusterClient :=
  MkClusterClient {["b:1"%string := MkConn "b:1" [Some O] 0 None]} (MkTM (Update [("b"%string, [7])] {["b"%string := "b:1"%string]}) 1 ["b:1"%string]) 0 0.

(** The read is tried again after a refresh and returns the second answer. *)
Lemma read_is_one_answer_witness :
  (getStreamDataWithRetry s_answers (fun _ => true) (fun c => (true, c)) 1 "k" 0 0 (s_cc, false)).1 = ("hello"%string, None)
  /\ answered s_answers "k" "hello" None.
Proof.
  assert ((getStreamDataWithRetry s_answers (fun _ => true) (fun c => (true, c)) 1 "k" 0 0 (s_cc, false)).1 = ("hello"%string, None)) as E
    by (vm_compute; reflexivity).
  split; [exact E|].
  destruct (read_is_one_answer s_answers (fun _ => true) (fun c => (true, c)) "k" 1 0 0 (s_cc, false) "hello" None _ (run_fst _ _ E))
    as [[He _]|(fin & Ha & Hf)]; [discriminate He|]. rewrite <- (Hf eq_refl). exact Ha.
Defined.

(** Node n1 moves from "a:1" to "b:1" and keeps its tokens. *)
Definition s_inst (addr : bytes) : InstanceDesc := MkInst "n1" addr ACTIVE 0 [7].
Definition s_desc (addr : bytes) : Desc := [("n1"%string, s_inst addr)].
Definition s_topology (addr : bytes) : ClusterTopology :=
  GetClusterTopology (inr [s_inst addr]) (inr [s_inst addr]) (ComputeRingEpoch (Some (s_desc addr))) 1.
Definition s_tm : TopologyManager := (UpdateTopology (Some (s_topology "a:1")) (MkTM NewTokenRing 0 ["seed:1"%string])).2.

Lemma same_epoch_is_ignored_witness :
  RefreshTopology (fun _ => MkFetched None EmptyString (Some (s_topology "b:1"))) s_tm = (inr false, s_tm)
  /\ TokenRing.GetNodeForKey (tm_ring s_tm) "k" = inr "a:1"%string.
Proof.
  split; [|vm_compute; reflexivity].
  apply (same_epoch_is_ignored (s_desc "a:1") (s_desc "b:1") (inr [s_inst "a:1"]) (inr [s_inst "a:1"]) (inr [s_inst "b:1"]) (inr [s_inst "b:1"]) 1
    (MkTM NewTokenRing 0 ["seed:1"%string]) s_tm "seed:1").
  - unfold same_view, clean_ids. split; [reflexivity|]. repeat split; try (apply NoDup_singleton); constructor; (split; reflexivity) || constructor.
  - reflexivity.
  - reflexivity.
  - intros a. left. reflexivity.
  - apply list_elem_of_singleton. reflexivity.
Defined.

(** The keys of the listing as the client gets them: "a2" has expired. *)
Definition s_never : nat -> bool := fun _ => false.
Definition s_draw : nat -> draw := fun _ => Draw (Frac 0 1) true.
Definition s_listing (fuel : nat) :=
  Client.List (single_stub (DB := Journal) (SM := unit) w_env s_never s_never s_draw) (inr "a"%string) (fun _ => true) (fun _ => None) fuel "a" w_list_world.

Lemma client_lists_every_live_key_witness :
  (s_listing 4).1 = Some (inr ["a1"; "a3"]%string)
  /\ lists w_env "a" w_listing 0 (w_tick (s_listing 4).2) ["a1"; "a3"]%string.
Proof.
  pose proof (client_lists_every_live_key (SM := unit) w_env s_never s_never s_draw eq_refl "a" "a" w_listing w_list_world
    (conj eq_refl I) journal_iterates eq_refl) as H.
  assert (List.length (listed "a" w_listing) = 3%nat) as E by (vm_compute; reflexivity). rewrite E in H. fold (s_listing 4) in H.
  assert ((s_listing 4).1 = Some (inr ["a1"; "a3"]%string)) as E1 by (vm_compute; reflexivity).
  split; [exact E1|]. destruct (s_listing 4) as [r w']. destruct H as (ks & -> & Hk). cbn in E1. injection E1 as ->. exact Hk.
Defined.
