(* ===== verification/AccessUpdater.v ===== *)
(** * The access updater (storage/access_updater.go)

    Under LRU every read queues an access time; one goroutine collects them, drops those
    within [delay] of the last one recorded for their key, and writes the rest in
    batches to the access index that eviction walks. The channel is [w_access] of the
    world; reads queue with [Storage.Update]. *)

From S2P Require Import Prelude Keys Errors Message Merge Wire Rocks World Files RangeReader Storage Wp Safety StorageSpec StorageProps LiveSize SizeProps Version Cas CasSpec Listing ListingProps DeleteBatch Eviction EvictionProps DiskLimit Cleaner TtlProps ReconcileProps ProtoInstance StorageWitnesses.

Open Scope Z_scope.

#[local] Arguments has_prefix : simpl never.
#[local] Arguments apply_batch : simpl never.

(** ** The cache of recorded times

    [lru.Cache] of hashicorp/golang-lru as an interface. What it keeps of what was added
    is its own affair; a hit is the time last added for the key. *)
Class AccessLRU (L : Type) := {
  lru_Get : bytes -> L -> option Z * L;
  lru_Add : bytes -> Z -> L -> L
}.

Class AccessLRULaws (L : Type) `{AccessLRU L} := {
  lru_times : L -> gmap bytes Z;
  lru_Get_hit k l : (lru_Get k l).1 = lru_times l !! k;
  lru_Get_kept k k' l t : lru_times (lru_Get k l).2 !! k' = Some t -> lru_times l !! k' = Some t;
  lru_Add_kept k t l k' t' : lru_times (lru_Add k t l) !! k' = Some t' -> (k' = k /\ t' = t) \/ (k' <> k /\ lru_times l !! k' = Some t')
}.

Record accessUpdater (L : Type) := MkUpdater { au_lru : L; au_batch : gmap bytes Z }.
Arguments MkUpdater {L}.
Arguments au_lru {L}.
Arguments au_batch {L}.

(** [t.Sub(u)] saturates. *)
Definition time_Sub (t u : Z) : Z := Z.max (- two63) (Z.min (two63 - 1) (t - u)).

Section Updater.

Context {DB SM L : Type} `{Protobuf} `{RocksDB DB} `{SegmentStore SM} `{AccessLRU L} (env : Env).
(** The gate, and the order in which a map is ranged over. *)
Context (delay : Z) (range : gmap bytes Z -> list (bytes * Z)).
Notation M := (M (DB := DB) (SM := SM)).
Implicit Types u : accessUpdater L.

Definition addToBatch (key : bytes) (t : Z) u : accessUpdater L := MkUpdater (au_lru u) (<[key := t]> (au_batch u)).

Definition timeGateUpdate u (update : bytes * Z) : accessUpdater L :=
  let '(key, t) := update in
  let '(hit, lru) := lru_Get key (au_lru u) in
  let u := MkUpdater lru (au_batch u) in
  let stale := match hit with None => true | Some accessTime => delay <? time_Sub t accessTime end in
  if stale then
    let u := addToBatch key t u in MkUpdater (lru_Add key t (au_lru u)) (au_batch u)
  else u.

(** Drains the channel. *)
Definition collectUpdates u : M (accessUpdater L) := fun w =>
  (fold_left timeGateUpdate (w_access w) u, set_access [] w).

Definition maxBatchCount : nat := 1000.

(** The loop of [flushBatch] over the batch; a failed write is logged and dropped. *)
Fixpoint flush_loop (entries : list (bytes * Z)) (wb : list batch_op) : M () :=
  match entries with
  | [] => match wb with [] => mret () | _ => _ ← Write_ wb; mret () end
  | (key, t) :: entries =>
      r ← Get_ (MakeBucketedAccessIndexKey key);
      let newKey := MakeBucketedAccessKey (env_tz env) key t in
      let wb := wb ++ match r with inr (Some old) => [BDelete old] | _ => [] end
                   ++ [BPut newKey EmptyString; BPut (MakeBucketedAccessIndexKey key) newKey] in
      if (maxBatchCount <? length wb)%nat then _ ← Write_ wb; flush_loop entries [] else flush_loop entries wb
  end.

Definition flushBatch u : M (nat * accessUpdater L) :=
  if decide (au_batch u = ∅) then mret (O, u)
  else _ ← flush_loop (range (au_batch u)) []; mret (size (au_batch u), MkUpdater (au_lru u) ∅).

(** ** The goroutine

    What reaches it: a read queues an access; the select of [run] takes an update, a tick,
    a request to flush or the end. *)
Inductive event := EvAccess (key : bytes) (t : Z) | EvUpdate | EvTick | EvFlush | EvDone.

Definition drain u : M (accessUpdater L) := u ← collectUpdates u; '(_, u) ← flushBatch u; mret u.

Definition on_event (ev : event) u : M (accessUpdater L) :=
  match ev with
  | EvAccess key t => _ ← Storage.Update key t; mret u
  | EvUpdate => fun w => match w_access w with [] => (u, w) | x :: q => (timeGateUpdate u x, set_access q w) end
  | EvTick => '(_, u) ← flushBatch u; mret u
  | EvFlush | EvDone => drain u
  end.

(** [run] returns at [EvDone]; what is queued later stays in the channel. *)
Fixpoint run (evs : list event) u : M (accessUpdater L) :=
  match evs with
  | [] => mret u
  | EvDone :: _ => drain u
  | ev :: evs => u ← on_event ev u; run evs u
  end.

End Updater.

(** ** The index stays sound and the times follow the reads *)

(** The last access of every key in a log. *)
Definition last_access (log : list (bytes * Z)) : gmap bytes Z := fold_left (fun m a => <[a.1 := a.2]> m) log ∅.

Lemma last_access_snoc log k t : last_access (log ++ [(k, t)]) = <[k := t]> (last_access log).
Proof. unfold last_access. by rewrite fold_left_app. Qed.

Lemma time_Sub_exact t u : 0 <= t < two63 -> 0 <= u < two63 -> time_Sub t u = t - u.
Proof. unfold time_Sub, two63. lia. Qed.

Section UpdaterProps.

Context {DB SM L : Type} {PB : Protobuf} {PL : ProtobufLaws} {RDB : RocksDB DB} {RL : RocksLaws DB}.
Context {SS : SegmentStore SM} {AL : AccessLRU L} {LL : AccessLRULaws L} (env : Env) (cfg : Config).
Context (delay : Z) (range : gmap bytes Z -> list (bytes * Z)).
(** The updater runs under LRU; a range visits every entry of the map once. *)
Context (under_lru : is_fifo cfg = false) (range_all : forall m, range m ≡ₚ map_to_list m).
Implicit Types w : World DB SM.
Implicit Types m : gmap bytes bytes.
Implicit Types u : accessUpdater L.

Notation access_key k t := (MakeBucketedAccessKey (env_tz env) k t).
Notation backref k := (MakeBucketedAccessIndexKey k).
Definition time_ok (t : Z) : Prop := 0 <= t < two63.

Lemma lru_index : active_index cfg = lruEvictionIndex.
Proof using under_lru. unfold active_index. by rewrite under_lru. Qed.

Lemma access_key_entry k t : has_prefix (ei_prefix (active_index cfg)) (access_key k t) = true
  /\ (time_ok t -> ei_parseKey (active_index cfg) (access_key k t) = inr k).
Proof using under_lru.
  rewrite lru_index. cbn. split.
  - unfold GetOldestAccessBucketPrefix, MakeBucketedAccessKey, GetBucketedAccessKey. rewrite !sapp_assoc. apply has_prefix_app.
  - intros Ht. unfold lru_parseKey. by rewrite (proj1 (bucketed_key_parse _ _ _ Ht)).
Qed.

(** The rows an engine with a sound access index keeps. *)
Record rows_ok m : Prop := { ro_backrefs : backrefs_ok m; ro_sound : index_sound cfg m }.

(** What a flush of [entries] over the rows [m] leaves; with failing writes only that the
    rows are in order and no value was touched. *)
Definition flushed (entries : list (bytes * Z)) m m' : Prop :=
  rows_ok m' /\ (forall key, m' !! MakeMetadataKey key = m !! MakeMetadataKey key)
  /\ (~ write_failed (DB := DB) -> forall k, m' !! backref k =
        match (list_to_map entries : gmap bytes Z) !! k with Some t => Some (access_key k t) | None => m !! backref k end).

Lemma entry_staged m wb dels k t :
  rows_ok m -> Forall index_op wb -> index_sound cfg (apply_batch m wb) -> replaces cfg m dels k -> time_ok t ->
  let wb' := wb ++ dels ++ [BPut (access_key k t) EmptyString; BPut (backref k) (access_key k t)] in
  Forall index_op wb' /\ index_sound cfg (apply_batch m wb')
  /\ apply_batch m wb' !! backref k = Some (access_key k t)
  /\ (forall k', k' <> k -> apply_batch m wb' !! backref k' = apply_batch m wb !! backref k').
Proof using under_lru.
  intros [Hb Hs] Ho Hi Hr Ht wb'. destruct (access_key_entry k t) as [Hp Hk]. specialize (Hk Ht).
  assert (wb' = wb ++ entry_ops cfg dels k (access_key k t)) as -> by (unfold wb', entry_ops; by rewrite lru_index).
  assert (forall k, backref k = ei_backrefKey (active_index cfg) k) as Eb by (intros; by rewrite lru_index).
  rewrite apply_batch_app. rewrite Eb. destruct (entry_ops_backrefs cfg m (apply_batch m wb) dels k _ Hb Hr Hp) as [E1 E2]. split_and!.
  - apply Forall_app. split; [done|]. by eapply entry_ops_index.
  - by eapply entry_ops_sound.
  - exact E1.
  - intros k' Hne. rewrite Eb. by apply E2.
Qed.

Lemma wp_flush_write m wb (Q : option error -> World DB SM -> Prop) w :
  represents (w_db w) m -> rows_ok m -> Forall index_op wb -> index_sound cfg (apply_batch m wb) ->
  (forall m' r w', represents (w_db w') m' -> w_access w' = w_access w -> rows_ok m' ->
     (forall key, m' !! MakeMetadataKey key = m !! MakeMetadataKey key) ->
     (~ write_failed (DB := DB) -> m' = apply_batch m wb) -> Q r w') ->
  wp (Write_ wb) Q w.
Proof.
  intros Hm [Hb Hs] Ho Hi HQ. eapply (wp_Write_failing m); [exact Hm|by apply plain_regular, index_op_plain|..].
  - intros e db Hdb Hf. by apply (HQ m).
  - intros db Hdb. apply (HQ (apply_batch m wb)); try done; [|intros; by apply index_rows].
    split; [exact (index_op_backrefs wb m Ho Hb)|done].
Qed.

Lemma wp_flush_loop entries : forall m wb (Q : () -> World DB SM -> Prop) w,
  NoDup entries.*1 -> Forall (fun a => time_ok a.2) entries -> represents (w_db w) m -> rows_ok m ->
  Forall index_op wb -> index_sound cfg (apply_batch m wb) ->
  (forall k, k ∈ entries.*1 -> apply_batch m wb !! backref k = m !! backref k) ->
  (forall m' w', represents (w_db w') m' -> w_access w' = w_access w ->
     flushed entries (apply_batch m wb) m' -> Q () w') ->
  wp (flush_loop env entries wb) Q w.
Proof using under_lru.
  induction entries as [|[k t] entries IH]; intros m wb Q w Hnd Ht Hm Hok Ho Hi Hpend HQ; cbn [flush_loop].
  - assert (forall m' w', represents (w_db w') m' -> w_access w' = w_access w -> rows_ok m' ->
      (forall key, m' !! MakeMetadataKey key = m !! MakeMetadataKey key) -> (~ write_failed (DB := DB) -> m' = apply_batch m wb) -> Q () w') as Hend.
    { intros m' w' H1 H2 H3 H4 H5. apply (HQ m'); try done. split_and!; [done| |].
      - intros key. rewrite H4. symmetry. by apply index_rows.
      - intros Hw k. by rewrite (H5 Hw). }
    destruct wb as [|op wb]; [by apply wp_ret, (Hend m)|]. apply wp_bind. eapply wp_flush_write; [exact Hm|done..|]. intros m' r w' H1 H2 H3 H4 H5. by apply wp_ret, (Hend m').
  - apply NoDup_cons in Hnd as [Hk Hnd]. apply Forall_cons in Ht as [Hkt Ht]. cbn in Hkt.
    assert (forall dels w1, replaces cfg m dels k -> represents (w_db w1) m -> w_access w1 = w_access w ->
      wp (let wb := wb ++ dels ++ [BPut (access_key k t) EmptyString; BPut (backref k) (access_key k t)] in
          if (maxBatchCount <? length wb)%nat then _ ← Write_ wb; flush_loop env entries [] else flush_loop env entries wb) Q w1) as Hstep.
    { intros dels w1 Hr Hm1 Ha. cbv zeta. destruct (entry_staged m wb dels k t Hok Ho Hi Hr Hkt) as (Ho' & Hi' & E1 & E2).
      set (wb' := wb ++ _) in *. clearbody wb'.
      assert (forall m', flushed entries (apply_batch m wb') m' -> flushed ((k, t) :: entries) (apply_batch m wb) m') as Hf.
      { intros m' (F1 & F2 & F3). split_and!; [done| |].
        - intros key. rewrite F2, !index_rows by done. done.
        - intros Hw k'. rewrite F3 by done. cbn [list_to_map foldr]. destruct (decide (k' = k)) as [->|Hne].
          + rewrite not_elem_of_list_to_map_1 by done. cbn. by rewrite lookup_insert_eq.
          + cbn. rewrite lookup_insert_ne by done. by rewrite E2. }
      assert (forall k', k' ∈ entries.*1 -> apply_batch m wb' !! backref k' = m !! backref k') as Hpend'.
      { intros k' Hk'. rewrite E2 by (intros ->; done). apply Hpend. cbn. by right. }
      destruct (_ <? _)%nat.
      - apply wp_bind. eapply wp_flush_write; [exact Hm1|done..|]. intros m1 r w2 H1 H2 H3 H4 H5.
        apply (IH m1 []); try done; [by apply H3|]. intros m' w' G1 G2 G3. apply (HQ m'); [done|congruence|]. apply Hf.
        destruct G3 as (F1 & F2 & F3). split_and!; [done| |intros Hw; by rewrite <- (H5 Hw); apply F3].
        intros key. rewrite F2. unfold apply_batch at 1. cbn. rewrite H4. symmetry. by apply index_rows.
      - apply (IH m wb'); try done. intros m' w' G1 G2 G3. apply (HQ m'); [done|congruence|]. by apply Hf. }
    apply wp_bind. eapply (wp_Get m); [exact Hm|..].
    + intros e db Hdb. apply (Hstep []); [by left|done..].
    + intros db Hdb. destruct (m !! backref k) as [o|] eqn:Eo; [|by apply (Hstep []); [left|..]].
      apply (Hstep [BDelete o]); [|done..]. right. exists o. by rewrite lru_index.
Qed.

(** ** What is recorded of the reads *)

(** The time a flush will leave for a key, if nothing else is read. *)
Definition recorded u m (k : bytes) (t : Z) : Prop :=
  match au_batch u !! k with
  | Some t' => t' = t
  | None => m !! backref k = Some (access_key k t) /\ time_ok t
  end.

(** Of the updates taken from the channel: pending times are among them, the cache knows
    only recorded times, and every key has one recorded that is at most [delay] behind
    its last access. *)
Record follows (processed : list (bytes * Z)) u m : Prop := {
  fo_batch k t : au_batch u !! k = Some t -> time_ok t /\ (k, t) ∈ processed;
  fo_lru k t : lru_times (au_lru u) !! k = Some t -> recorded u m k t /\ (k, t) ∈ processed;
  fo_last k t : last_access processed !! k = Some t -> exists t', recorded u m k t' /\ (k, t') ∈ processed /\ t - t' <= delay
}.

Lemma follows_gate processed u m k t :
  0 <= delay -> time_ok t -> follows processed u m -> follows (processed ++ [(k, t)]) (timeGateUpdate delay u (k, t)) m.
Proof.
  intros Hd Ht [F1 F2 F3]. unfold timeGateUpdate. pose proof (lru_Get_hit k (au_lru u)) as Hh. pose proof (lru_Get_kept k) as Hg.
  specialize (fun k' t' => Hg k' (au_lru u) t'). destruct (lru_Get k (au_lru u)) as [hit lru]. cbn in Hh, Hg. subst hit.
  assert (forall k' t', (k', t') ∈ processed -> (k', t') ∈ processed ++ [(k, t)]) as Hin by (intros; apply elem_of_app; by left).
  destruct (lru_times (au_lru u) !! k) as [at_|] eqn:Eh; [destruct (Z.ltb_spec delay (time_Sub t at_)) as [Hs|Hs]|].
  2: { destruct (F2 k at_ Eh) as [Hr Hp]. assert (time_ok at_) as Hat.
    { unfold recorded in Hr. destruct (au_batch u !! k) eqn:Eb; [subst; by apply (F1 k)|apply Hr]. }
    rewrite time_Sub_exact in Hs by done. split; cbn.
    - intros k' t' E. destruct (F1 _ _ E). auto.
    - intros k' t' E. destruct (F2 k' t' (Hg _ _ E)). auto.
    - intros k' t'. rewrite last_access_snoc. destruct (decide (k' = k)) as [->|Hne].
      + rewrite lookup_insert_eq. intros [= <-]. exists at_. auto.
      + rewrite lookup_insert_ne by done. intros (t2 & H1 & H2 & H3)%F3. exists t2. auto. }
  all: assert ((k, t) ∈ processed ++ [(k, t)]) as Hnew by (apply elem_of_app; right; by left).
  all: assert (forall k' t', k' <> k -> recorded u m k' t' -> recorded (MkUpdater (lru_Add k t lru) (<[k := t]> (au_batch u))) m k' t') as Hother
    by (intros k' t' Hne; unfold recorded; cbn; by rewrite lookup_insert_ne).
  all: assert (recorded (MkUpdater (lru_Add k t lru) (<[k := t]> (au_batch u))) m k t) as Hself by (unfold recorded; cbn; by rewrite lookup_insert_eq).
  all: split; cbn;
    [intros k' t'; destruct (decide (k' = k)) as [->|Hne]; [rewrite lookup_insert_eq; by intros [= <-]|rewrite lookup_insert_ne by done; intros E; destruct (F1 _ _ E); auto]
    |intros k' t' [[-> ->]|[Hne E]]%lru_Add_kept; [done|destruct (F2 k' t' (Hg _ _ E)); auto]
    |intros k' t'; rewrite last_access_snoc; destruct (decide (k' = k)) as [->|Hne];
      [rewrite lookup_insert_eq; intros [= <-]; exists t; split_and!; [done|done|lia]
      |rewrite lookup_insert_ne by done; intros (t2 & H1 & H2 & H3)%F3; exists t2; auto]].
Qed.

Lemma follows_updates queue processed u m :
  0 <= delay -> Forall (fun a => time_ok a.2) queue -> follows processed u m ->
  follows (processed ++ queue) (fold_left (timeGateUpdate delay) queue u) m.
Proof.
  intros Hd Hq. revert processed u. induction Hq as [|[k t] queue Ht Hq IH]; intros processed u F; [by rewrite app_nil_r|].
  cbn [fold_left]. replace (processed ++ (k, t) :: queue) with ((processed ++ [(k, t)]) ++ queue) by by rewrite <- app_assoc.
  by apply IH, follows_gate.
Qed.

Lemma follows_flush processed u m m' :
  ~ write_failed (DB := DB) -> flushed (range (au_batch u)) m m' -> follows processed u m -> follows processed (MkUpdater (au_lru u) ∅) m'.
Proof using range_all.
  intros Hw (_ & _ & Hf) [F1 F2 F3]. specialize (Hf Hw).
  assert (list_to_map (range (au_batch u)) = au_batch u) as El.
  { rewrite <- (list_to_map_to_list (au_batch u)) at 2. apply list_to_map_proper; [|apply range_all].
    rewrite (range_all (au_batch u)). apply NoDup_fst_map_to_list. }
  assert (forall k t, recorded u m k t -> recorded (MkUpdater (au_lru u) ∅) m' k t) as Hr.
  { intros k t. unfold recorded. cbn. rewrite lookup_empty, Hf, El. destruct (au_batch u !! k) eqn:E; [|done].
    intros <-. split; [done|]. by apply (F1 k). }
  split; cbn.
  - intros k t E. by rewrite lookup_empty in E.
  - intros k t E. destruct (F2 k t E). auto.
  - intros k t (t' & H1 & H2 & H3)%F3. exists t'. auto.
Qed.

(** ** The goroutine *)

Definition accepts (ev : event) w : list (bytes * Z) :=
  match ev with
  | EvAccess k t => if (length (w_access w) <? accessBufferSize)%nat then [(k, t)] else []
  | _ => []
  end.

(** The accesses that found room in the channel while the goroutine ran. *)
Fixpoint accepted (evs : list event) u w : list (bytes * Z) :=
  match evs with
  | [] | EvDone :: _ => []
  | ev :: evs => let '(u', w') := on_event env delay range ev u w in accepts ev w ++ accepted evs u' w'
  end.

Definition event_ok (ev : event) : Prop := match ev with EvAccess _ t => time_ok t | _ => True end.

Record updater_inv m0 (log : list (bytes * Z)) u w : Prop := {
  ui_rows : exists m processed, represents (w_db w) m /\ rows_ok m /\ (forall key, m !! MakeMetadataKey key = m0 !! MakeMetadataKey key)
    /\ log = processed ++ w_access w /\ (~ write_failed (DB := DB) -> follows processed u m);
  ui_queue : Forall (fun a => time_ok a.2) (w_access w);
  ui_batch : forall k t, au_batch u !! k = Some t -> time_ok t
}.

Lemma gate_times u a :
  time_ok a.2 -> (forall k t, au_batch u !! k = Some t -> time_ok t) -> forall k t, au_batch (timeGateUpdate delay u a) !! k = Some t -> time_ok t.
Proof.
  destruct a as [k' t']. intros Ht Hb k t. unfold timeGateUpdate. destruct (lru_Get k' (au_lru u)) as [hit lru].
  destruct (match hit with None => true | Some at_ => delay <? time_Sub t' at_ end); cbn; [|apply Hb].
  destruct (decide (k = k')) as [->|Hne]; [rewrite lookup_insert_eq; by intros [= <-]|rewrite lookup_insert_ne by done; apply Hb].
Qed.

Lemma updates_times queue u :
  Forall (fun a => time_ok a.2) queue -> (forall k t, au_batch u !! k = Some t -> time_ok t) ->
  forall k t, au_batch (fold_left (timeGateUpdate delay) queue u) !! k = Some t -> time_ok t.
Proof. intros Hq. revert u. induction Hq as [|a queue Ha Hq IH]; intros u Hb; [done|]. apply IH. by apply gate_times. Qed.

Lemma wp_flushBatch m0 log u w :
  updater_inv m0 log u w ->
  wp (flushBatch env range u) (fun r w' => updater_inv m0 log r.2 w' /\ au_batch r.2 = ∅ /\ w_access w' = w_access w) w.
Proof using range_all under_lru.
  intros [(m & processed & Hm & Hok & Hv & Hlog & Hf) Hq Hb]. unfold flushBatch. destruct (decide _) as [He|_]; [apply wp_ret; split; [|done]; split; eauto 10|].
  apply wp_bind. apply (wp_flush_loop (range (au_batch u)) m []); try done.
  - rewrite (range_all (au_batch u)). apply NoDup_fst_map_to_list.
  - apply Forall_forall. intros [k t] Hin. rewrite (range_all (au_batch u)) in Hin. apply elem_of_map_to_list in Hin. by eapply Hb.
  - by apply Hok.
  - intros m' w' Hm' Ha Hfl. apply wp_ret. cbn. split_and!; [|done|done]. destruct Hfl as (H1 & H2 & H3). split; cbn.
    + exists m', processed. split_and!; [done|done|intros; by rewrite H2|by rewrite Ha|]. intros Hw. by apply (follows_flush processed u m); [|split_and!|apply Hf].
    + by rewrite Ha.
    + intros k t E. by rewrite lookup_empty in E.
Qed.

Lemma wp_updater_drain m0 log u w :
  0 <= delay -> updater_inv m0 log u w ->
  wp (drain env delay range u) (fun u' w' => updater_inv m0 log u' w' /\ au_batch u' = ∅ /\ w_access w' = []) w.
Proof using range_all under_lru.
  intros Hd [(m & processed & Hm & Hok & Hv & Hlog & Hf) Hq Hb]. unfold drain, collectUpdates. apply wp_bind. unfold wp at 1. cbn [fst snd].
  apply wp_bind. eapply wp_mono; [apply (wp_flushBatch m0 log)|].
  - split; [|by apply Forall_nil_2|by apply updates_times]. exists m, log. cbn. rewrite app_nil_r. split_and!; try done.
    intros Hw. rewrite Hlog. apply follows_updates; auto.
  - intros [n u'] w' (H1 & H2 & H3). by apply wp_ret.
Qed.

Lemma wp_on_event m0 log ev u w :
  0 <= delay -> event_ok ev -> updater_inv m0 log u w ->
  wp (on_event env delay range ev u) (fun u' w' => updater_inv m0 (log ++ accepts ev w) u' w') w.
Proof using range_all under_lru.
  intros Hd He Hi. destruct ev as [k t| | | |]; cbn [on_event accepts]; rewrite ?app_nil_r.
  - destruct Hi as [(m & processed & Hm & Hok & Hv & Hlog & Hf) Hq Hb]. unfold Storage.Update. apply wp_bind. unfold wp at 1. cbn [fst snd]. apply wp_ret.
    destruct (_ <? _)%nat; [|rewrite app_nil_r; split; eauto 10]. split; cbn; [|apply Forall_app; by split; [|apply Forall_singleton]|done].
    exists m, processed. subst log. rewrite <- app_assoc. by split_and!.
  - destruct Hi as [(m & processed & Hm & Hok & Hv & Hlog & Hf) Hq Hb]. unfold wp. destruct (w_access w) as [|[k t] q] eqn:Ea.
    + cbn. split; [|by rewrite Ea|done]. exists m, processed. by rewrite Ea.
    + apply Forall_cons in Hq as [Hk Hq]. cbn [fst snd]. split; [|done|by apply gate_times]. cbn.
      exists m, (processed ++ [(k, t)]). split_and!; try done; [by rewrite <- app_assoc|]. intros Hw. apply follows_gate; auto.
  - apply wp_bind. eapply wp_mono; [by apply (wp_flushBatch m0 log)|]. intros [n u'] w' (H1 & _). by apply wp_ret.
  - eapply wp_mono; [by apply (wp_updater_drain m0 log)|]. by intros u' w' (H1 & _).
  - eapply wp_mono; [by apply (wp_updater_drain m0 log)|]. by intros u' w' (H1 & _).
Qed.

Lemma wp_updater_run m0 evs fin : forall log u w,
  0 <= delay -> Forall event_ok evs -> fin = EvFlush \/ fin = EvDone -> updater_inv m0 log u w ->
  wp (run env delay range (evs ++ [fin]) u)
    (fun u' w' => updater_inv m0 (log ++ accepted (evs ++ [fin]) u w) u' w' /\ au_batch u' = ∅ /\ w_access w' = []) w.
Proof using range_all under_lru.
  induction evs as [|ev evs IH]; intros log u w Hd He Hfin Hi.
  - destruct Hfin as [-> | ->]; cbn [app run on_event accepted accepts].
    + apply wp_bind. eapply wp_mono; [by apply (wp_updater_drain m0 log)|]. intros u' w' Hd'. apply wp_ret.
      destruct (drain env delay range u w). by rewrite !app_nil_r.
    + rewrite app_nil_r. by apply (wp_updater_drain m0 log).
  - apply Forall_cons in He as [Hev He]. cbn [app]. assert (ev = EvDone \/ ev <> EvDone) as [->|Hne] by (destruct ev; auto).
    + cbn [run accepted]. rewrite app_nil_r. by apply (wp_updater_drain m0 log).
    + assert (run env delay range (ev :: evs ++ [fin]) u = (u ← on_event env delay range ev u; run env delay range (evs ++ [fin]) u)) as -> by by destruct ev.
      assert (accepted (ev :: evs ++ [fin]) u w = accepts ev w ++ (let '(u', w') := on_event env delay range ev u w in accepted (evs ++ [fin]) u' w')) as ->
        by (destruct ev; try done; cbn; by destruct (on_event _ _ _ _ _ _)).
      apply wp_bind. pose proof (wp_on_event m0 log ev u w Hd Hev Hi) as Hw. unfold wp in Hw |- * at 1.
      destruct (on_event env delay range ev u w) as [u1 w1]. rewrite app_assoc. by apply IH.
Qed.

(** C14: the index follows the reads. Whatever the order of reads, ticks and requests to
    flush, and whatever fails, the access index stays sound and no value is touched. With
    working writes, once the updater has drained its channel, every key that was read has
    an entry whose time is that of one of its reads and at most [delay] behind its last
    read that found room in the channel. *)
Theorem access_times_follow_reads m u w evs fin u' w' :
  0 <= delay -> Forall event_ok evs -> fin = EvFlush \/ fin = EvDone ->
  represents (w_db w) m -> rows_ok m -> lru_times (au_lru u) = ∅ -> au_batch u = ∅ -> w_access w = [] ->
  run env delay range (evs ++ [fin]) u w = (u', w') ->
  exists m', represents (w_db w') m' /\ rows_ok m' /\ (forall key, m' !! MakeMetadataKey key = m !! MakeMetadataKey key)
    /\ (~ write_failed (DB := DB) -> forall k t, last_access (accepted (evs ++ [fin]) u w) !! k = Some t ->
         exists t', m' !! backref k = Some (access_key k t') /\ is_Some (m' !! access_key k t')
           /\ (k, t') ∈ accepted (evs ++ [fin]) u w /\ t - t' <= delay).
Proof using range_all under_lru.
  intros Hd He Hfin Hm Hok Hl Hb Ha E. assert (updater_inv m [] u w) as Hi.
  { split; [|rewrite Ha; by apply Forall_nil_2|intros k t; by rewrite Hb, lookup_empty]. exists m, []. split_and!; try done.
    intros _. split; intros k t; [by rewrite Hb, lookup_empty|by rewrite Hl, lookup_empty|]. unfold last_access. cbn. by rewrite lookup_empty. }
  pose proof (wp_updater_run m evs fin [] u w Hd He Hfin Hi) as Hw. unfold wp in Hw. rewrite E in Hw. cbn [fst snd app] in Hw.
  destruct Hw as ([(m' & processed & Hm' & Hok' & Hv & Hlog & Hf) _ _] & Hb' & Ha'). exists m'. split_and!; try done.
  intros Hwf k t Hk. rewrite Ha', app_nil_r in Hlog. rewrite Hlog in Hk |- *. destruct (fo_last _ _ _ (Hf Hwf) k t Hk) as (t' & Hr & Hin & Hle).
  exists t'. unfold recorded in Hr. rewrite Hb', lookup_empty in Hr. destruct Hr as [Hr _]. split_and!; try done.
  apply (ro_sound _ Hok' k). by rewrite lru_index.
Qed.

End UpdaterProps.

(** ** A concrete run

    A cache of the two most recent keys. *)
#[local] Notation recent := (list (bytes * Z)).

Definition others (k : bytes) (l : recent) : recent := filter (fun a => a.1 <> k) l.

#[local] Instance recent_lru : AccessLRU recent := {|
  lru_Get k l := match (list_to_map l : gmap bytes Z) !! k with Some t => (Some t, (k, t) :: others k l) | None => (None, l) end;
  lru_Add k t l := take 2 ((k, t) :: others k l) |}.

Lemma others_lookup k k' l : k' <> k -> (list_to_map (others k l) : gmap bytes Z) !! k' = (list_to_map l : gmap bytes Z) !! k'.
Proof.
  intros Hne. unfold others. induction l as [|[k2 t2] l IH]; [done|]. rewrite filter_cons. cbn [fst]. case_decide as Hk; cbn.
  - destruct (decide (k2 = k')) as [->|]; [by rewrite !lookup_insert_eq|by rewrite !lookup_insert_ne].
  - subst k2. by rewrite lookup_insert_ne.
Qed.

Lemma take_lookup n l k t : (list_to_map (take n l) : gmap bytes Z) !! k = Some t -> (list_to_map l : gmap bytes Z) !! k = Some t.
Proof.
  revert l. induction n as [|n IH]; intros [|[k2 t2] l]; cbn; try done.
  destruct (decide (k2 = k)) as [->|]; [by rewrite !lookup_insert_eq|rewrite !lookup_insert_ne by done; apply IH].
Qed.

#[local] Instance recent_laws : AccessLRULaws recent.
Proof.
  refine {| lru_times l := list_to_map l : gmap bytes Z |}; cbn [lru_Get lru_Add recent_lru].
  - intros k l. by destruct (_ !! k).
  - intros k k' l t. destruct ((list_to_map l : gmap bytes Z) !! k) as [t0|] eqn:E; [|done]. cbn. destruct (decide (k' = k)) as [->|Hne].
    + rewrite lookup_insert_eq. by intros [= <-].
    + rewrite lookup_insert_ne by done. by rewrite others_lookup.
  - intros k t l k' t' E%take_lookup. cbn in E. destruct (decide (k' = k)) as [->|Hne].
    + rewrite lookup_insert_eq in E. injection E as <-. by left.
    + rewrite lookup_insert_ne, others_lookup in E by done. by right.
Defined.

Definition a_cfg : Config := MkConfig 4 0 10 1000 EvictionPolicyLRU "/d".
Definition a_reads : list event := [EvAccess "k" 100; EvUpdate; EvAccess "k" 150; EvTick; EvAccess "j" 160; EvAccess "k" 900; EvUpdate; EvAccess "k" 950].
Definition a_run := run w_env 100 map_to_list (a_reads ++ [EvFlush]) (MkUpdater [] ∅) w_empty.

(** The read at 950 is within the gate of the one at 900. *)
Lemma access_times_follow_reads_witness :
  accepted w_env 100 map_to_list (a_reads ++ [EvFlush]) (MkUpdater [] ∅) w_empty = [("k", 100); ("k", 150); ("j", 160); ("k", 900); ("k", 950)]%string
  /\ exists m' t', represents (RocksLaws := reliable_laws) (w_db a_run.2) m'
       /\ m' !! MakeBucketedAccessIndexKey "k" = Some (MakeBucketedAccessKey (env_tz w_env) "k" t') /\ 950 - t' <= 100.
Proof.
  assert (accepted w_env 100 map_to_list (a_reads ++ [EvFlush]) (MkUpdater [] ∅) w_empty = [("k", 100); ("k", 150); ("j", 160); ("k", 900); ("k", 950)]%string) as El
    by (vm_compute; reflexivity).
  split; [exact El|].
  destruct (access_times_follow_reads (RL := reliable_laws) w_env a_cfg 100 map_to_list eq_refl (fun m => reflexivity _) ∅ (MkUpdater [] ∅) w_empty a_reads EvFlush
    a_run.1 a_run.2) as (m' & Hm' & _ & _ & Hk).
  - lia.
  - repeat constructor; unfold two63; lia.
  - left. reflexivity.
  - split; reflexivity.
  - split; intros k e E; rewrite lookup_empty in E; discriminate E.
  - reflexivity.
  - reflexivity.
  - reflexivity.
  - apply surjective_pairing.
  - rewrite El in Hk. destruct (Hk reliable_writes "k"%string 950 eq_refl) as (t' & H1 & _ & _ & H2). exists m', t'. split; [exact Hm'|]. split; [exact H1|exact H2].
Defined.
