(* ===== verification/MemoryCache.v ===== *)
(** * The in-memory client (client/memory.go)

    A double of the real client for tests: values, stamps and fences in three maps under
    one lock. Its conditional operations are meant to behave like those of storage; the
    theorems compare them with [casAdmits] and [delete_admits] of Cas.v, the rules that
    storage applies. Every reading of the clock is a consultation of [now]. *)

From S2P Require Import Prelude Keys Errors Message Merge Rocks World Files RangeReader Storage Cas Rpc Operations Client.

Open Scope Z_scope.

(** [None] is the zero time: no expiration. *)
Record cacheEntry := MkEntry { ent_value : bytes; ent_expiresAt : option Z }.

Record MemoryCache := MkMem {
  mc_data : gmap bytes cacheEntry;
  mc_versions : gmap bytes Z;
  mc_versionCounter : Z;
  mc_fences : gmap bytes Z;
  mc_tick : nat
}.

Definition memoryLegacyVersion : Z := 1.

Definition NewMemoryCache : MemoryCache := MkMem ∅ ∅ memoryLegacyVersion ∅ 0.

(** [ctx.Err()] comes first in every operation. *)
Definition guarded {A} (ctxErr : option op_error) (fail : op_error -> A) (k : ST MemoryCache A) : ST MemoryCache A :=
  match ctxErr with Some err => mret (fail err) | None => k end.

Definition key_not_found : op_error := StatusError NotFound "key not found".
Definition invalid_range : op_error := StatusError InvalidArgument "invalid range".

Section Memory.

Context (now : nat -> Z).
Notation M := (ST MemoryCache).

Definition time_now : M Z := fun s => (now (mc_tick s), MkMem (mc_data s) (mc_versions s) (mc_versionCounter s) (mc_fences s) (S (mc_tick s))).
Definition load {A} (f : MemoryCache -> A) : M A := fun s => (f s, s).

Definition set_entry (key : bytes) (entry : cacheEntry) : M () := fun s =>
  ((), MkMem (<[key := entry]> (mc_data s)) (mc_versions s) (mc_versionCounter s) (mc_fences s) (mc_tick s)).
(** [delete(m.data, key)] and [delete(m.versions, key)]. *)
Definition drop_value (key : bytes) : M () := fun s =>
  ((), MkMem (delete key (mc_data s)) (delete key (mc_versions s)) (mc_versionCounter s) (mc_fences s) (mc_tick s)).
Definition drop_version (key : bytes) : M () := fun s =>
  ((), MkMem (mc_data s) (delete key (mc_versions s)) (mc_versionCounter s) (mc_fences s) (mc_tick s)).
Definition drop_fence (key : bytes) : M () := fun s =>
  ((), MkMem (mc_data s) (mc_versions s) (mc_versionCounter s) (delete key (mc_fences s)) (mc_tick s)).
Definition set_version (key : bytes) (v : Z) : M () := fun s =>
  ((), MkMem (mc_data s) (<[key := v]> (mc_versions s)) (mc_versionCounter s) (mc_fences s) (mc_tick s)).
Definition set_fence (key : bytes) (f : Z) : M () := fun s =>
  ((), MkMem (mc_data s) (mc_versions s) (mc_versionCounter s) (<[key := f]> (mc_fences s)) (mc_tick s)).
(** [m.versionCounter++], and its new value. *)
Definition next_version : M Z := fun s =>
  let v := u64 (mc_versionCounter s + 1) in (v, MkMem (mc_data s) (mc_versions s) v (mc_fences s) (mc_tick s)).

Definition liveLocked (key : bytes) : M bool :=
  d ← load mc_data;
  match d !! key with
  | None => mret false
  | Some entry =>
      match ent_expiresAt entry with
      | None => mret true
      | Some expiresAt => t ← time_now; mret (t <? expiresAt)
      end
  end.

Definition effectiveVersionLocked (key : bytes) : M Z :=
  live ← liveLocked key;
  if negb live then mret 0
  else vs ← load mc_versions;
       mret (let v := default 0 (vs !! key) in if v =? 0 then memoryLegacyVersion else v).

Definition dropLocked (key : bytes) : M () := _ ← drop_value key; drop_fence key.

(** Whether an entry has expired for the reads, strictly after its time. *)
Definition after_expiry (entry : cacheEntry) : M bool :=
  match ent_expiresAt entry with
  | None => mret false
  | Some expiresAt => t ← time_now; mret (expiresAt <? t)
  end.

Definition expireLocked (key : bytes) : M () :=
  d ← load mc_data;
  match d !! key with
  | None => mret ()
  | Some entry =>
      match ent_expiresAt entry with
      | None => mret ()
      | Some expiresAt => t ← time_now; if t <? expiresAt then mret () else drop_value key
      end
  end.

Definition absenceTokenLocked (key : bytes) : M Z :=
  fs ← load mc_fences;
  match fs !! key with Some f => mret f | None => next_version end.

Definition admitsLocked (key : bytes) (expected : Z) : M (bool * Z) :=
  live ← liveLocked key;
  if (live : bool) then cur ← effectiveVersionLocked key; mret (cur =? expected, cur)
  else fs ← load mc_fences;
       mret match fs !! key with Some f => ((expected =? 0) || (f <=? expected), f) | None => (true, 0) end.

(** ** Conditional operations *)

Definition mem_GetWithVersion (ctxErr : option op_error) (key : bytes) : M (op_error + bytes * Z * bool) :=
  guarded ctxErr inl (
    live ← liveLocked key;
    if negb live then t ← absenceTokenLocked key; mret (inr (EmptyString, t, false))
    else
      d ← load mc_data;
      v ← effectiveVersionLocked key;
      mret (inr (match d !! key with Some entry => ent_value entry | None => EmptyString end, v, true))).

(** [time.Duration(ttlSeconds) * time.Second] wraps. *)
Definition new_entry (data : bytes) (ttlSeconds : Z) : M cacheEntry :=
  if 0 <? ttlSeconds then t ← time_now; mret (MkEntry data (Some (t + i64 (ttlSeconds * 1000000000))))
  else mret (MkEntry data None).

Definition mem_PutIfVersion (ctxErr : option op_error) (key data : bytes) (ttlSeconds expected : Z) : M (client_error + Z) :=
  guarded ctxErr (fun err => inl (COther err)) (
    '(ok, cur) ← admitsLocked key expected;
    if negb ok then mret (inl (VersionMismatchError key cur))
    else
      _ ← drop_fence key;
      entry ← new_entry data ttlSeconds;
      v ← next_version;
      _ ← set_entry key entry;
      _ ← set_version key v;
      mret (inr v)).

(** The switch of [DeleteIfVersion]: the version to report if the delete is refused. *)
Definition delete_refused (key : bytes) (expected : Z) : M (option Z) :=
  live ← liveLocked key;
  if (live : bool) then
    cur ← effectiveVersionLocked key;
    mret (if cur =? expected then None else Some cur)
  else
    fs ← load mc_fences;
    mret match fs !! key with
         | Some f => if (expected =? 0) || (f <=? expected) then None else Some f
         | None => if expected =? 0 then None else Some 0
         end.

Definition mem_DeleteIfVersion (ctxErr : option op_error) (key : bytes) (expected : Z) : M (option client_error) :=
  guarded ctxErr (fun err => Some (COther err)) (
    refused ← delete_refused key expected;
    match refused with
    | Some cur => mret (Some (VersionMismatchError key cur))
    | None =>
        _ ← drop_value key;
        v ← next_version;
        _ ← set_fence key v;
        mret None
    end).

(** ** Plain operations *)

Definition mem_Put (ctxErr : option op_error) (key data : bytes) (ttlSeconds : Z) : M (option op_error) :=
  guarded ctxErr Some (
    entry ← new_entry data ttlSeconds;
    _ ← set_entry key entry;
    _ ← drop_fence key;
    _ ← drop_version key;
    mret None).

(** The entry a read uses, after the lazy expiry. *)
Definition read_entry (key : bytes) : M (op_error + bytes) :=
  d ← load mc_data;
  match d !! key with
  | None => mret (inl key_not_found)
  | Some entry =>
      expired ← after_expiry entry;
      if (expired : bool) then _ ← expireLocked key; mret (inl key_not_found)
      else mret (inr (ent_value entry))
  end.

Definition mem_Get (ctxErr : option op_error) (key : bytes) : M (op_error + bytes) := guarded ctxErr inl (read_entry key).

Definition mem_GetRange (ctxErr : option op_error) (key : bytes) (start end_ : Z) : M (op_error + bytes) :=
  guarded ctxErr inl (
    r ← read_entry key;
    mret match r with
         | inl err => inl err
         | inr value =>
             let dataLen := slen value in
             let start := if start <? 0 then 0 else start in
             let end_ := if end_ <=? 0 then dataLen - 1 else if dataLen <=? end_ then dataLen - 1 else end_ in
             if (dataLen <=? start) || (end_ <? start) then inl invalid_range
             else inr (stake (Z.to_nat (end_ - start + 1)) (sdrop (Z.to_nat start) value))
         end).

Definition mem_Delete (ctxErr : option op_error) (key : bytes) : M (option op_error) :=
  guarded ctxErr Some (
    d ← load mc_data;
    match d !! key with
    | None => mret (Some key_not_found)
    | Some _ => _ ← dropLocked key; mret None
    end).

(** ** Listing *)

Definition key_le (a b : bytes) : Prop := sle a b = true.
#[local] Instance key_le_dec : RelDecision key_le := fun a b => decide (sle a b = true).

Definition unexpired_at (t : Z) (entry : cacheEntry) : bool :=
  match ent_expiresAt entry with None => true | Some expiresAt => negb (expiresAt <? t) end.

Definition listed (t : Z) (prefix : bytes) (d : gmap bytes cacheEntry) : list bytes :=
  merge_sort key_le (filter (fun r => unexpired_at t r.2 && has_prefix prefix r.1 = true) (map_to_list d)).*1.

Definition mem_List (ctxErr : option op_error) (prefix : bytes) : M (op_error + list bytes) :=
  guarded ctxErr inl (d ← load mc_data; t ← time_now; mret (inr (listed t prefix d))).

Definition page_limit (limit : Z) : Z := if limit <=? 0 then 1000 else if 1000 <? limit then 1000 else limit.

(** The index of the first key after the token, 0 if there is none. *)
Fixpoint first_after (token : bytes) (i : nat) (keys : list bytes) : nat :=
  match keys with
  | [] => O
  | k :: keys => if slt token k then i else first_after token (S i) keys
  end.

(** The page of a sorted list of keys: the keys, the next token and whether more follow. *)
Definition page_of (allKeys : list bytes) (limit : Z) (token : bytes) : list bytes * bytes * bool :=
  let startIdx := if decide (token = EmptyString) then O else first_after token 0 allKeys in
  let past_end := bool_decide (token <> EmptyString) && (startIdx =? 0)%nat
                  && match last allKeys with Some k => sle k token | None => false end in
  if past_end then ([], EmptyString, false)
  else
    let endIdx := Nat.min (startIdx + Z.to_nat (page_limit limit)) (length allKeys) in
    let keys := take (endIdx - startIdx) (drop startIdx allKeys) in
    let hasMore := (endIdx <? length allKeys)%nat in
    (keys, if hasMore then default EmptyString (last keys) else EmptyString, hasMore).

Definition mem_ListPage (ctxErr : option op_error) (prefix : bytes) (limit : Z) (token : bytes) : M (op_error + list bytes * bytes * bool) :=
  guarded ctxErr inl (
    r ← mem_List ctxErr prefix;
    mret match r with inl err => inl err | inr allKeys => inr (page_of allKeys limit token) end).

Definition mem_ListPageWithValues (ctxErr : option op_error) (prefix : bytes) (limit : Z) (token : bytes) : M (op_error + list (bytes * bytes) * bytes * bool) :=
  guarded ctxErr inl (
    d ← load mc_data;
    t ← time_now;
    let '(keys, next, more) := page_of (listed t prefix d) limit token in
    mret (inr ((fun k => (k, match d !! k with Some entry => ent_value entry | None => EmptyString end)) <$> keys, next, more))).

Definition mem_Close : M () := fun s => ((), MkMem ∅ ∅ (mc_versionCounter s) ∅ (mc_tick s)).

(** ** Streams *)

(** [io.ReadAll(r)], then the put. *)
Definition mem_PutStream (ctxErr : option op_error) (key : bytes) (body : op_error + bytes) (ttlSeconds : Z) : M (option op_error) :=
  guarded ctxErr Some match body with inl err => mret (Some err) | inr data => mem_Put ctxErr key data ttlSeconds end.

Definition mem_PutStreamIfVersion (ctxErr : option op_error) (key : bytes) (body : op_error + bytes) (ttlSeconds expected : Z) : M (client_error + Z) :=
  guarded ctxErr (fun err => inl (COther err))
    match body with inl err => mret (inl (COther err)) | inr data => mem_PutIfVersion ctxErr key data ttlSeconds expected end.

(** [write] is the error of the caller's writer. *)
Definition mem_GetStreamWithVersion (ctxErr write : option op_error) (key : bytes) : M (op_error + option bytes * Z * bool) :=
  r ← mem_GetWithVersion ctxErr key;
  mret match r with
       | inl err => inl err
       | inr (_, version, false) => inr (None, version, false)
       | inr (data, version, true) => match write with Some err => inl err | None => inr (Some data, version, true) end
       end.

End Memory.

(** ** The rules of storage *)

Section Rules.

Context (now : nat -> Z).
Implicit Types s : MemoryCache.

(** Stamps are above the legacy version and at most the counter; a fenced key holds no
    value, and only a stored value has a stamp. *)
Record mem_ok s : Prop := {
  mk_counter : memoryLegacyVersion <= mc_versionCounter s;
  mk_versions k v : mc_versions s !! k = Some v -> memoryLegacyVersion < v <= mc_versionCounter s /\ is_Some (mc_data s !! k);
  mk_fences k f : mc_fences s !! k = Some f -> memoryLegacyVersion < f <= mc_versionCounter s /\ mc_data s !! k = None
}.

Definition live_at (t : Z) (entry : cacheEntry) : bool :=
  match ent_expiresAt entry with None => true | Some x => t <? x end.

(** What storage calls the state of the row, at the next reading of the clock. *)
Definition mem_state s (key : bytes) : casRowState * Z :=
  let dead := match mc_fences s !! key with Some f => (casFenced, f) | None => (casAbsent, 0) end in
  match mc_data s !! key with
  | Some entry => if live_at (now (mc_tick s)) entry then (casLive, default VersionLegacy (mc_versions s !! key)) else dead
  | None => dead
  end.

(** The entry of the key does not expire between two readings of the clock. *)
Definition steady s (key : bytes) : Prop :=
  forall entry, mc_data s !! key = Some entry -> live_at (now (mc_tick s)) entry = true -> live_at (now (S (mc_tick s))) entry = true.

(** The state as an operation sees it, which reads the clock once for the liveness of the
    key and again for its version: an entry that expires in between is live at version 0. *)
Definition seen s (key : bytes) : casRowState * Z :=
  match mem_state s key, mc_data s !! key with
  | (casLive, v), Some entry => (casLive, if live_at (now (S (mc_tick s))) entry then v else 0)
  | st, _ => st
  end.

Definition rows_of s (k : bytes) : option cacheEntry * option Z * option Z := (mc_data s !! k, mc_versions s !! k, mc_fences s !! k).

(** The same rows and the same counter. *)
Definition same_rows s s' : Prop := (forall k, rows_of s' k = rows_of s k) /\ mc_versionCounter s' = mc_versionCounter s.

Lemma liveLocked_spec s key :
  mem_ok s -> exists s', liveLocked now key s = (bool_decide ((mem_state s key).1 = casLive), s')
    /\ mc_data s' = mc_data s /\ mc_versions s' = mc_versions s /\ mc_fences s' = mc_fences s /\ mc_versionCounter s' = mc_versionCounter s
    /\ (forall entry, mc_data s !! key = Some entry -> live_at (now (mc_tick s')) entry = live_at (now (S (mc_tick s))) entry).
Proof.
  intros Hok. unfold liveLocked, mem_state, live_at, mbind, ST_bind, mret, ST_ret, load, time_now.
  destruct (mc_data s !! key) as [[value [x|]]|] eqn:E; cbn.
  - eexists. split; [apply (f_equal2 pair); [|reflexivity]; destruct (now (mc_tick s) <? x); [done|]; by destruct (mc_fences s !! key)|].
    split_and!; try done; by intros ? [= <-].
  - eexists. split; [done|]. split_and!; try done; by intros ? [= <-].
  - eexists. split; [apply (f_equal2 pair); [|reflexivity]; by destruct (mc_fences s !! key)|]. by split_and!.
Qed.

Lemma effectiveVersion_spec s key :
  mem_ok s -> exists s', effectiveVersionLocked now key s
      = (match (mem_state s key).1 with casLive => (mem_state s key).2 | _ => 0 end, s')
    /\ mc_data s' = mc_data s /\ mc_versions s' = mc_versions s /\ mc_fences s' = mc_fences s /\ mc_versionCounter s' = mc_versionCounter s.
Proof.
  intros Hok. unfold effectiveVersionLocked, mbind, ST_bind, mret, ST_ret, load.
  destruct (liveLocked_spec s key Hok) as (s1 & E & D & V & F & C & _). rewrite E. case_bool_decide as Hl; cbn [negb].
  - exists s1. split; [|done]. f_equal. rewrite V. rewrite Hl. unfold mem_state in *.
    assert (default 0 (mc_versions s !! key) = 0 -> mc_versions s !! key = None) as H0.
    { destruct (mc_versions s !! key) as [v|] eqn:Ev; [|done]. cbn. destruct (mk_versions s Hok key v Ev). unfold memoryLegacyVersion in *. lia. }
    destruct (mc_data s !! key) as [entry|]; [destruct (live_at _ entry)|]; [|by destruct (mc_fences s !! key)..]. cbn.
    destruct (Z.eqb_spec (default 0 (mc_versions s !! key)) 0) as [Hz|Hz]; [by rewrite (H0 Hz)|]. by destruct (mc_versions s !! key).
  - exists s1. split; [|done]. f_equal. by destruct (mem_state s key) as [[] ?].
Qed.

(** What the second reading of the clock makes of the version. *)
Lemma seen_again s s1 key :
  mc_data s1 = mc_data s -> mc_versions s1 = mc_versions s -> mc_fences s1 = mc_fences s ->
  (forall entry, mc_data s !! key = Some entry -> live_at (now (mc_tick s1)) entry = live_at (now (S (mc_tick s))) entry) ->
  (mem_state s key).1 = casLive ->
  seen s key = (casLive, match (mem_state s1 key).1 with casLive => (mem_state s1 key).2 | _ => 0 end).
Proof.
  intros D V F Ht Hl. unfold seen. unfold mem_state in *. rewrite D, V, F.
  destruct (mc_data s !! key) as [entry|]; [|by destruct (mc_fences s !! key)]. rewrite (Ht entry eq_refl).
  destruct (live_at (now (mc_tick s)) entry); [|by destruct (mc_fences s !! key)].
  destruct (live_at (now (S (mc_tick s))) entry); [done|]. by destruct (mc_fences s !! key).
Qed.

Lemma seen_dead s key : (mem_state s key).1 <> casLive -> seen s key = mem_state s key.
Proof. intros Hl. unfold seen. destruct (mem_state s key) as [[] v]; done. Qed.

Lemma seen_live s key : (seen s key).1 = (mem_state s key).1.
Proof. unfold seen. destruct (mem_state s key) as [[] v]; [..|by destruct (mc_data s !! key)]; done. Qed.

Lemma seen_steady s key : steady s key -> seen s key = mem_state s key.
Proof.
  intros Hst. unfold seen. unfold mem_state. destruct (mc_data s !! key) as [entry|] eqn:E; [|by destruct (mc_fences s !! key)].
  destruct (live_at (now (mc_tick s)) entry) eqn:El; [by rewrite (Hst entry E El)|by destruct (mc_fences s !! key)].
Qed.

Lemma mem_ok_same s s' :
  mc_data s' = mc_data s -> mc_versions s' = mc_versions s -> mc_fences s' = mc_fences s -> mc_versionCounter s' = mc_versionCounter s -> mem_ok s -> mem_ok s'.
Proof. intros D V F C [H1 H2 H3]. split; rewrite ?D, ?V, ?F, ?C; auto. Qed.

Lemma admits_spec s key expected :
  mem_ok s -> exists s', admitsLocked now key expected s
      = ((casAdmits (seen s key).1 (seen s key).2 expected, (seen s key).2), s')
    /\ mc_data s' = mc_data s /\ mc_versions s' = mc_versions s /\ mc_fences s' = mc_fences s /\ mc_versionCounter s' = mc_versionCounter s.
Proof.
  intros Hok. unfold admitsLocked, mbind, ST_bind, mret, ST_ret, load.
  destruct (liveLocked_spec s key Hok) as (s1 & E & D & V & F & C & Ht). rewrite E.
  case_bool_decide as Hl.
  - destruct (effectiveVersion_spec s1 key) as (s2 & E2 & D2 & V2 & F2 & C2); [by apply (mem_ok_same s)|]. rewrite E2, (seen_again s s1 key D V F Ht Hl).
    exists s2. split; [done|]. split_and!; congruence.
  - exists s1. split; [|done]. rewrite F, seen_dead by done. unfold mem_state in *.
    destruct (mc_data s !! key) as [entry|]; [destruct (live_at _ entry)|]; [done|by destruct (mc_fences s !! key)..].
Qed.

Lemma next_version_fresh s : mem_ok s -> mc_versionCounter s < two64 - 1 -> u64 (mc_versionCounter s + 1) = mc_versionCounter s + 1.
Proof. intros Hok Hlt. pose proof (mk_counter s Hok) as Hc. unfold memoryLegacyVersion in Hc. apply u64_small. unfold is_u64. lia. Qed.

Lemma new_entry_spec data ttl s : exists entry s', new_entry now data ttl s = (entry, s') /\ ent_value entry = data
  /\ mc_data s' = mc_data s /\ mc_versions s' = mc_versions s /\ mc_fences s' = mc_fences s /\ mc_versionCounter s' = mc_versionCounter s.
Proof. unfold new_entry. destruct (0 <? ttl); by eexists _, _. Qed.

(** A conditional put, in terms of the rules of storage. *)
Definition put_follows s key data expected (r : (client_error + Z) * MemoryCache) : Prop :=
  let '(state, cur) := seen s key in
  match r with
  | (inr v, s') =>
      casAdmits state cur expected = true /\ mc_versionCounter s < v /\ mem_ok s' /\ (forall k, k <> key -> rows_of s' k = rows_of s k)
      /\ (exists entry, rows_of s' key = (Some entry, Some v, None) /\ ent_value entry = data)
  | (inl (VersionMismatchError k c), s') => casAdmits state cur expected = false /\ k = key /\ c = cur /\ same_rows s s'
  | (inl (COther _), _) => False
  end.

Lemma PutIfVersion_follows s key data ttl expected :
  mem_ok s -> mc_versionCounter s < two64 - 1 -> put_follows s key data expected (mem_PutIfVersion now None key data ttl expected s).
Proof.
  intros Hok Hlt. unfold put_follows, mem_PutIfVersion, guarded. unfold mbind, ST_bind, mret, ST_ret.
  destruct (admits_spec s key expected Hok) as (s1 & -> & D & V & F & C). destruct (seen s key) as [state cur]. cbn [fst snd].
  destruct (casAdmits state cur expected); cbn [negb]; [|by split_and!; [..|split; [intros k; unfold rows_of; by rewrite D, V, F|]]].
  destruct (new_entry_spec data ttl (drop_fence key s1).2) as (entry & s2 & E2 & Hv & D2 & V2 & F2 & C2). unfold drop_fence in *. cbn in D2, V2, F2, C2, E2. rewrite E2.
  unfold next_version, set_entry, set_version. cbn. rewrite D2, V2, F2, C2, D, V, F, C, (next_version_fresh s Hok Hlt).
  destruct Hok as [H1 H2 H3]. split_and!; [done|lia| | |].
  - split; cbn; unfold memoryLegacyVersion in *; [lia| |].
    + intros k v. destruct (decide (k = key)) as [->|Hne]; [rewrite !lookup_insert_eq; intros [= <-]; split; [lia|done]|].
      rewrite !lookup_insert_ne by done. intros E. destruct (H2 k v E). split; [lia|done].
    + intros k f [Hne E]%lookup_delete_Some. rewrite lookup_insert_ne by done. destruct (H3 k f E). split; [lia|done].
  - intros k Hne. unfold rows_of. cbn. by rewrite !lookup_insert_ne, lookup_delete_ne by done.
  - exists entry. unfold rows_of. cbn. by rewrite !lookup_insert_eq, lookup_delete_eq.
Qed.

Definition delete_follows s key expected (r : option client_error * MemoryCache) : Prop :=
  let '(state, cur) := seen s key in
  match r with
  | (None, s') =>
      delete_admits state cur expected = true /\ mem_ok s' /\ (forall k, k <> key -> rows_of s' k = rows_of s k)
      /\ (exists fence, rows_of s' key = (None, None, Some fence) /\ mc_versionCounter s < fence)
  | (Some (VersionMismatchError k c), s') => delete_admits state cur expected = false /\ k = key /\ c = cur /\ same_rows s s'
  | (Some (COther _), _) => False
  end.

Lemma delete_refused_spec s key expected :
  mem_ok s -> exists s', delete_refused now key expected s
      = (if delete_admits (seen s key).1 (seen s key).2 expected then None else Some (seen s key).2, s')
    /\ mc_data s' = mc_data s /\ mc_versions s' = mc_versions s /\ mc_fences s' = mc_fences s /\ mc_versionCounter s' = mc_versionCounter s.
Proof.
  intros Hok. unfold delete_refused, mbind, ST_bind, mret, ST_ret, load.
  destruct (liveLocked_spec s key Hok) as (s1 & -> & D & V & F & C & Ht).
  case_bool_decide as Hl.
  - destruct (effectiveVersion_spec s1 key) as (s2 & E2 & D2 & V2 & F2 & C2); [by apply (mem_ok_same s)|]. rewrite E2, (seen_again s s1 key D V F Ht Hl). exists s2.
    split; [done|]. split_and!; congruence.
  - exists s1. split; [|done]. rewrite F, seen_dead by done. unfold mem_state in *.
    destruct (mc_data s !! key) as [entry|]; [destruct (live_at _ entry)|]; [done|by destruct (mc_fences s !! key)..].
Qed.

Lemma DeleteIfVersion_follows s key expected :
  mem_ok s -> mc_versionCounter s < two64 - 1 -> delete_follows s key expected (mem_DeleteIfVersion now None key expected s).
Proof.
  intros Hok Hlt. unfold delete_follows, mem_DeleteIfVersion, guarded. unfold mbind, ST_bind, mret, ST_ret.
  destruct (delete_refused_spec s key expected Hok) as (s2 & E2 & D2 & V2 & F2 & C2).
  rewrite E2. destruct (seen s key) as [state cur]. cbn [fst snd]. destruct (delete_admits state cur expected).
  2: { split_and!; try done. split; [intros k; unfold rows_of; by rewrite D2, V2, F2|done]. }
  cbn. rewrite D2, V2, F2, C2, (next_version_fresh s Hok Hlt). destruct Hok as [H1 H2 H3]. split_and!; [done| | |].
  - split; cbn; unfold memoryLegacyVersion in *; [lia| |].
    + intros k v [Hne E]%lookup_delete_Some. rewrite lookup_delete_ne by done. destruct (H2 k v E). split; [lia|done].
    + intros k f. destruct (decide (k = key)) as [->|Hne]; [rewrite lookup_insert_eq, lookup_delete_eq; intros [= <-]; split; [lia|done]|].
      rewrite lookup_insert_ne, lookup_delete_ne by done. intros E. destruct (H3 k f E). split; [lia|done].
  - intros k Hne. unfold rows_of. cbn. by rewrite !lookup_delete_ne, lookup_insert_ne by done.
  - eexists. unfold rows_of. cbn. rewrite !lookup_delete_eq, lookup_insert_eq. split; [done|lia].
Qed.

Definition get_follows s key (r : (op_error + bytes * Z * bool) * MemoryCache) : Prop :=
  let '(state, cur) := seen s key in
  match r with
  | (inr (data, v, true), s') => state = casLive /\ v = cur /\ ent_value <$> mc_data s !! key = Some data /\ same_rows s s'
  | (inr (_, v, false), s') =>
      state <> casLive /\ (if decide (state = casFenced) then v = cur else mc_versionCounter s < v) /\ (forall k, rows_of s' k = rows_of s k)
  | (inl _, _) => False
  end.

Lemma GetWithVersion_follows s key :
  mem_ok s -> mc_versionCounter s < two64 - 1 -> get_follows s key (mem_GetWithVersion now None key s).
Proof.
  intros Hok Hlt. unfold get_follows, mem_GetWithVersion, guarded. unfold mbind, ST_bind, mret, ST_ret, load.
  destruct (liveLocked_spec s key Hok) as (s1 & -> & D & V & F & C & Ht).
  case_bool_decide as Hl; cbn [negb].
  - destruct (effectiveVersion_spec s1 key) as (s2 & E2 & D2 & V2 & F2 & C2); [by apply (mem_ok_same s)|]. rewrite E2, D, (seen_again s s1 key D V F Ht Hl).
    assert (is_Some (mc_data s !! key)) as [entry E] by (unfold mem_state in Hl; destruct (mc_data s !! key); [done|by destruct (mc_fences s !! key)]).
    rewrite E. split_and!; try done. split; [|congruence]. intros k. unfold rows_of. by rewrite D2, V2, F2, D, V, F.
  - unfold absenceTokenLocked, mbind, ST_bind, mret, ST_ret, load. rewrite F.
    assert (match mc_fences s !! key with Some f => seen s key = (casFenced, f) | None => seen s key = (casAbsent, 0) end) as Es.
    { rewrite seen_dead by done. unfold mem_state in *. destruct (mc_data s !! key) as [entry|]; [destruct (live_at _ entry)|]; [done|by destruct (mc_fences s !! key)..]. }
    destruct (mc_fences s !! key) as [f|]; rewrite Es in *; cbn in *.
    + split_and!; [done|done|]. intros k. unfold rows_of. by rewrite D, V, F.
    + rewrite C, (next_version_fresh s Hok Hlt). split_and!; [done|rewrite decide_False by done; lia|]. intros k. unfold rows_of. cbn. by rewrite D, V, F.
Qed.

(** C8: the double decides like storage, for the state of the key that the operation sees:
    its liveness at one reading of the clock and its version at the next. A conditional put
    succeeds exactly when [casAdmits] admits it for that state, a conditional delete exactly
    when [delete_admits] does; a refusal reports the version that storage would report and
    changes nothing, a success issues a stamp above all earlier ones, stores the value or
    the fence and touches no other key; a versioned read returns the version of a live key,
    the fence of a deleted one and a fresh stamp otherwise. The state seen is the state of
    the key, unless its entry expires between the two readings: then it is a live key at
    version 0, which the versioned read returns as found. *)
Theorem memory_follows_storage_rules s key data ttl expected :
  mem_ok s -> mc_versionCounter s < two64 - 1 ->
  put_follows s key data expected (mem_PutIfVersion now None key data ttl expected s)
  /\ delete_follows s key expected (mem_DeleteIfVersion now None key expected s)
  /\ get_follows s key (mem_GetWithVersion now None key s)
  /\ (steady s key -> seen s key = mem_state s key)
  /\ (~ steady s key -> seen s key = (casLive, 0) /\ exists data, (mem_GetWithVersion now None key s).1 = inr (data, 0, true)).
Proof.
  intros Hok Hlt. split_and!; [by apply PutIfVersion_follows|by apply DeleteIfVersion_follows|by apply GetWithVersion_follows|apply seen_steady|].
  intros Hst. assert (seen s key = (casLive, 0)) as Hs.
  { unfold seen. unfold mem_state. destruct (mc_data s !! key) as [entry|] eqn:E; [|by destruct Hst; intros entry; rewrite E].
    destruct (live_at (now (mc_tick s)) entry) eqn:E1; [|by destruct Hst; intros e; rewrite E; intros [= <-]; rewrite E1].
    destruct (live_at (now (S (mc_tick s))) entry) eqn:E2; [|done]. destruct Hst. intros e. rewrite E. by intros [= <-]. }
  split; [done|]. pose proof (GetWithVersion_follows s key Hok Hlt) as Hg. unfold get_follows in Hg. rewrite Hs in Hg.
  destruct (mem_GetWithVersion now None key s) as [[e|[[d v] []]] s']; [done| |by destruct Hg]. destruct Hg as (_ & -> & _). by exists d.
Qed.

End Rules.

(** ** Listing in pages *)

#[local] Instance key_le_total : Total key_le.
Proof. intros a b. apply sle_total. Qed.
#[local] Instance key_le_trans : Transitive key_le.
Proof. intros a b c. apply sle_trans. Qed.

Lemma first_after_spec token : forall keys i, Sorted key_le keys ->
  exists n, (n <= length keys)%nat /\ Forall (fun k => sle k token = true) (take n keys) /\ Forall (fun k => slt token k = true) (drop n keys)
    /\ first_after token i keys = (if decide (n = length keys) then O else i + n)%nat.
Proof.
  induction keys as [|k keys IH]; intros i Hs; [by exists O|]. cbn [first_after]. destruct (slt token k) eqn:E.
  - exists O. split_and!; [cbn; lia|by apply Forall_nil_2| |rewrite decide_False by done; lia]. cbn. apply Forall_cons. split; [done|].
    apply Sorted_StronglySorted in Hs; [|apply _]. inversion_clear Hs as [|? ? _ Hk]. eapply Forall_impl; [exact Hk|]. intros x Hx. by eapply slt_sle_trans.
  - apply Sorted_inv in Hs as [Hs _]. destruct (IH (S i) Hs) as (n & H1 & H2 & H3 & H4). exists (S n). split_and!; [cbn; lia| |done|].
    + cbn. apply Forall_cons. split; [|done]. unfold sle. by rewrite E.
    + rewrite H4. cbn. repeat case_decide; lia.
Qed.

(** A page holds the smallest keys after the token, up to the limit, and says whether
    more follow; the next token is its last key. *)
Lemma page_of_spec allKeys limit token keys next more :
  Sorted key_le allKeys -> token <> EmptyString -> page_of allKeys limit token = (keys, next, more) ->
  let after := filter (fun k => slt token k = true) allKeys in
  keys = take (Z.to_nat (page_limit limit)) after /\ (more = true <-> (Z.to_nat (page_limit limit) < length after)%nat)
  /\ (more = true -> last keys = Some next).
Proof.
  intros Hs Ht. unfold page_of. rewrite decide_False, bool_decide_true by done. cbn [andb].
  destruct (first_after_spec token allKeys 0 Hs) as (n & Hn & Hbefore & Hafter & E). rewrite E. set (lim := Z.to_nat (page_limit limit)).
  assert (0 < lim)%nat as Hlim by (unfold lim, page_limit; repeat case_match; bool_facts; lia).
  assert (filter (fun k => slt token k = true) allKeys = drop n allKeys) as ->.
  { rewrite <- (take_drop n allKeys) at 1. rewrite filter_app.
    assert (filter (fun k => slt token k = true) (take n allKeys) = []) as ->.
    { clear -Hbefore. induction Hbefore as [|k l Hk Hl IH]; [done|]. rewrite filter_cons_False; [done|]. unfold sle in Hk. by destruct (slt token k). }
    cbn. clear -Hafter. induction Hafter as [|k l Hk Hl IH]; [done|]. rewrite filter_cons_True by done. by rewrite IH. }
  assert (length (drop n allKeys) = length allKeys - n)%nat as Hlen by apply length_drop.
  destruct (decide (n = length allKeys)) as [->|Hne].
  - rewrite drop_all. cbn [Nat.eqb andb]. rewrite take_nil. assert (forall k, last allKeys = Some k -> sle k token = true) as Hl.
    { intros k Hk. rewrite take_ge in Hbefore by lia. rewrite Forall_forall in Hbefore. apply Hbefore. apply last_Some in Hk as [l ->]. set_solver. }
    destruct (last allKeys) as [k|] eqn:El.
    + rewrite (Hl k eq_refl). intros [= <- <- <-]. split_and!; [done|split; [done|cbn; lia]|done].
    + apply last_None in El. subst allKeys. cbn. rewrite Nat.min_0_r. intros [= <- <- <-]. split_and!; [done|split; [done|lia]|done].
  - replace (_ && _) with false.
    2: { symmetry. destruct n; [|done]. cbn. destruct (last allKeys) as [k|] eqn:El; [|done]. rewrite drop_0, Forall_forall in Hafter.
      apply last_Some in El as [l ->]. specialize (Hafter k). unfold sle. rewrite Hafter; [done|set_solver]. }
    cbn [Nat.add]. intros [= <- <- <-]. assert (take (Nat.min (n + lim) (length allKeys) - n) (drop n allKeys) = take lim (drop n allKeys)) as ->.
    { destruct (Nat.le_ge_cases (n + lim) (length allKeys)); [f_equal; lia|]. rewrite !take_ge by lia. done. }
    split_and!; [done|rewrite Nat.ltb_lt, Hlen; lia|]. intros Hm. rewrite Hm. destruct (last (take lim (drop n allKeys))) eqn:El; [done|].
    apply last_None in El. apply (f_equal length) in El. rewrite length_take, Hlen in El. apply Nat.ltb_lt in Hm. cbn in El. lia.
Qed.

(** ** Concrete runs *)

Definition m_now (n : nat) : Z := Z.of_nat n.

(** A key that was put and then deleted with its version. *)
Definition m_deleted : MemoryCache :=
  (mem_DeleteIfVersion m_now None "k" 2 (mem_PutIfVersion m_now None "k" "v" 0 0 NewMemoryCache).2).2.

(** The writer that saw the value loses to the delete; one that saw the fence does not. *)
Lemma memory_follows_storage_rules_witness :
  (mem_PutIfVersion m_now None "k" "w" 0 2 m_deleted).1 = inl (VersionMismatchError "k" 3)
  /\ put_follows m_now m_deleted "k" "w" 2 (mem_PutIfVersion m_now None "k" "w" 0 2 m_deleted)
  /\ (mem_PutIfVersion m_now None "k" "w" 0 3 m_deleted).1 = inr 4.
Proof.
  split; [vm_compute; reflexivity|]. split; [|vm_compute; reflexivity].
  apply (memory_follows_storage_rules m_now m_deleted "k" "w" 0 2).
  - split.
    + vm_compute. discriminate.
    + intros k v E. change (mc_versions m_deleted) with (delete "k"%string (<["k"%string := 2]> ∅ : gmap bytes Z)) in E.
      apply lookup_delete_Some in E as [Hne E]. rewrite lookup_insert_ne, lookup_empty in E by congruence. discriminate E.
    + intros k f E. change (mc_fences m_deleted) with (<["k"%string := 3]> (delete "k"%string ∅) : gmap bytes Z) in E.
      destruct (decide (k = "k"%string)) as [->|Hne].
      * rewrite lookup_insert_eq in E. injection E as <-. split; [|vm_compute; reflexivity]. change (1 < 3 <= 3). lia.
      * rewrite lookup_insert_ne, delete_empty, lookup_empty in E by congruence. discriminate E.
  - vm_compute. reflexivity.
Defined.

(** An entry that expires between the two readings of the clock in [GetWithVersion] is
    reported as found with version 0, which a later put takes for put-if-absent. *)
Lemma GetWithVersion_torn :
  (mem_GetWithVersion m_now None "k" (MkMem {["k"%string := MkEntry "v" (Some 1)]} ∅ 1 ∅ 0)).1 = inr ("v"%string, 0, true).
Proof. reflexivity. Qed.

(** A delete of a missing key fails, where the node's [Delete] reports success. *)
Lemma Delete_missing key : (mem_Delete None key NewMemoryCache).1 = Some key_not_found.
Proof. reflexivity. Qed.
