(* ===== verification/Embedded.v ===== *)
(** * Configuration and the embedded client (storage/storage.go, embedded/client.go)

    The defaults a storage is built with, and the client that runs a node in the caller's
    process: it calls the operations layer of Operations.v directly and translates a lost
    conditional write into the client's error. *)

From S2P Require Import Prelude Keys Errors Retry Message Merge Rocks World Files RangeReader Storage Cas TokenRing Ring Router Rpc StreamReader Operations Service ServiceProps Topology Client.

Open Scope Z_scope.

(** ** The storage's configuration

    Durations are in nanoseconds; [F] is float64, of which the code only tests
    whether it is zero. The settings of the background workers are left out. *)

Class Float64 (F : Type) := {
  float_zero : F;
  float_is_zero : F -> bool
}.

Definition DefaultInlineThreshold : Z := 65536.
Definition DefaultCompactThreshold : Z := 67108864.
Definition DefaultSegmentSize : Z := 268435456.
Definition DefaultFdCacheSize : Z := 10000.
Definition DefaultDeleteBatchSize : Z := 1000.
Definition DefaultEvictionPolicy : bytes := EvictionPolicyLRU.

Record StorageConfig (F : Type) := MkSC {
  sc_DiskPath : bytes;
  sc_TTL : Z;
  sc_InlineThreshold : Z;
  sc_CompactThreshold : Z;
  sc_SegmentSize : Z;
  sc_FdCacheSize : Z;
  sc_MaxDiskUsage : Z;
  sc_ShedDiskRatio : F;
  sc_DeleteBatchSize : Z;
  sc_EvictionPolicy : bytes
}.
Arguments MkSC {F}.
Arguments sc_DiskPath {F}. Arguments sc_TTL {F}. Arguments sc_InlineThreshold {F}. Arguments sc_CompactThreshold {F}.
Arguments sc_SegmentSize {F}. Arguments sc_FdCacheSize {F}. Arguments sc_MaxDiskUsage {F}. Arguments sc_ShedDiskRatio {F}.
Arguments sc_DeleteBatchSize {F}. Arguments sc_EvictionPolicy {F}.

Definition positive_or (default x : Z) : Z := if x <=? 0 then default else x.

(** The first part of [NewStorageWithConfig]. *)
Definition with_defaults {F} (c : StorageConfig F) : StorageConfig F :=
  let segmentSize := positive_or DefaultSegmentSize (sc_SegmentSize c) in
  let compactThreshold := positive_or DefaultCompactThreshold (sc_CompactThreshold c) in
  let compactThreshold := if segmentSize <=? compactThreshold then segmentSize - 1 else compactThreshold in
  let policy := sc_EvictionPolicy c in
  MkSC (sc_DiskPath c) (sc_TTL c) (positive_or DefaultInlineThreshold (sc_InlineThreshold c)) compactThreshold segmentSize
    (positive_or DefaultFdCacheSize (sc_FdCacheSize c)) (sc_MaxDiskUsage c) (sc_ShedDiskRatio c)
    (positive_or DefaultDeleteBatchSize (sc_DeleteBatchSize c))
    (if decide (policy = EvictionPolicyLRU \/ policy = EvictionPolicyFIFO) then policy else DefaultEvictionPolicy).

(** The fields of [Storage] that the operations of Storage.v read. *)
Definition storage_config {F} (filesPath : bytes) (c : StorageConfig F) : World.Config :=
  let c := with_defaults c in
  MkConfig (sc_InlineThreshold c) (sc_TTL c) (sc_CompactThreshold c) (sc_MaxDiskUsage c) (sc_EvictionPolicy c) filesPath.

(** What a storage is started with: an object that compaction may move fits a segment, the
    policy is one of the two, and the access updater runs under a cap exactly unless the
    policy is FIFO. *)
Lemma with_defaults_ok {F} filesPath (c : StorageConfig F) :
  let d := with_defaults c in
  0 <= sc_CompactThreshold d < sc_SegmentSize d /\ 0 < sc_InlineThreshold d /\ 0 < sc_FdCacheSize d /\ 0 < sc_DeleteBatchSize d
  /\ (sc_EvictionPolicy d = EvictionPolicyLRU \/ sc_EvictionPolicy d = EvictionPolicyFIFO)
  /\ (0 < sc_MaxDiskUsage c -> has_updater (storage_config filesPath c) = negb (is_fifo (storage_config filesPath c)))
  /\ with_defaults d = d.
Proof.
  cbv zeta. unfold with_defaults, positive_or, storage_config, DefaultSegmentSize, DefaultCompactThreshold, DefaultInlineThreshold, DefaultFdCacheSize, DefaultDeleteBatchSize.
  cbn. set (pol := if decide _ then _ else _).
  assert (pol = EvictionPolicyLRU \/ pol = EvictionPolicyFIFO) as Hp by (unfold pol; case_decide; [done|by left]).
  split_and!; try (repeat case_match; bool_facts; lia); [done| |].
  - intros Hm. unfold has_updater, is_fifo. cbn. fold pol. rewrite (proj2 (Z.ltb_lt 0 (sc_MaxDiskUsage c))) by lia. cbn.
    destruct Hp as [-> | ->]; done.
  - fold pol. f_equal; try (repeat case_match; bool_facts; lia). by rewrite decide_True.
Qed.

(** ** The embedded client *)

Record EmbeddedConfig (F : Type) := MkEC {
  ec_DiskPath : bytes;
  ec_TTL : Z;                 (** nanoseconds *)
  ec_MaxDiskUsage : Z;
  ec_ShedDiskRatio : F;
  ec_InlineThreshold : Z;
  ec_NodeID : bytes;
  ec_ClusterAddr : bytes;
  ec_Storage : option (StorageConfig F)
}.
Arguments MkEC {F}.
Arguments ec_DiskPath {F}. Arguments ec_TTL {F}. Arguments ec_MaxDiskUsage {F}. Arguments ec_ShedDiskRatio {F}.
Arguments ec_InlineThreshold {F}. Arguments ec_NodeID {F}. Arguments ec_ClusterAddr {F}. Arguments ec_Storage {F}.

Definition Validate {F} (c : EmbeddedConfig F) : option error :=
  if decide (ec_DiskPath c = EmptyString) then Some (EText "DiskPath is required")
  else if ec_TTL c <=? 0 then Some (EText "TTL must be positive")
  else None.

Definition IsClusterMode {F} (c : EmbeddedConfig F) : bool :=
  bool_decide (ec_NodeID c <> EmptyString) && bool_decide (ec_ClusterAddr c <> EmptyString).

(** [int(c.TTL.Seconds())]: exact for whole seconds, and below 2^24 seconds. *)
Definition ttl_seconds (ttl : Z) : Z := ttl ÷ 1000000000.

Definition buildStorageConfig `{Float64 F} (c : EmbeddedConfig F) : StorageConfig F :=
  let sc := default (MkSC EmptyString 0 0 0 0 0 0 float_zero 0 EmptyString) (ec_Storage c) in
  MkSC (ec_DiskPath c) (ttl_seconds (ec_TTL c))
    (if 0 <? ec_InlineThreshold c then ec_InlineThreshold c else sc_InlineThreshold sc)
    (sc_CompactThreshold sc) (sc_SegmentSize sc) (sc_FdCacheSize sc)
    (if ec_MaxDiskUsage c =? 0 then sc_MaxDiskUsage sc else ec_MaxDiskUsage c)
    (if float_is_zero (ec_ShedDiskRatio c) then sc_ShedDiskRatio sc else ec_ShedDiskRatio c)
    (sc_DeleteBatchSize sc) (sc_EvictionPolicy sc).

(** A valid TTL below a second becomes 0, with which nothing expires. *)
Lemma short_ttl_never_expires `{Float64 F} (c : EmbeddedConfig F) :
  0 < ec_TTL c < 1000000000 -> ec_DiskPath c <> EmptyString -> Validate c = None /\ sc_TTL (buildStorageConfig c) = 0.
Proof.
  intros Ht Hd. unfold Validate, buildStorageConfig, ttl_seconds. cbn. rewrite decide_False by done. split; [|by apply Z.quot_small; lia].
  by rewrite (proj2 (Z.leb_gt (ec_TTL c) 0)) by lia.
Qed.

(** [casClientError] *)
Definition casClientError (key : bytes) (err : op_error) : client_error :=
  match op_IsVersionMismatch err with
  | Some current => VersionMismatchError key current
  | None => COther err
  end.

Section Embedded.

Context {DB SM : Type} `{RocksDB DB} {PB : Protobuf} `{SegmentStore SM} (ce : ClusterEnv) (self : bytes).
Context (peer : Peer (DB := DB) (SM := SM)).
Notation C := (C (DB := DB) (SM := SM)).

Definition emb_Put (ctx : context) (key data : bytes) (ttlSeconds : Z) : C (option op_error) := PutBytes ce self peer ctx key data ttlSeconds.

(** A missing key is nil data and no error. *)
Definition emb_GetRange (fuel : nat) (size : nat -> nat) (ctx : context) (key : bytes) (start end_ : Z) : C (option (op_error + option bytes)) :=
  Operations.GetRange ce self peer fuel size ctx key start end_.
Definition emb_Get (fuel : nat) (size : nat -> nat) (ctx : context) (key : bytes) : C (option (op_error + option bytes)) :=
  GetBytes ce self peer fuel size ctx key.
Definition emb_Delete (ctx : context) (key : bytes) : C (option op_error) := Operations.Delete ce self peer ctx key.
Definition emb_GetWithVersion (ctx : context) (key : bytes) : C (op_error + option bytes * Z * bool) := Operations.GetWithVersion ce self peer ctx key.

Definition emb_PutIfVersion (ctx : context) (key data : bytes) (ttlSeconds expected : Z) : C (client_error + Z) :=
  r ← Operations.PutIfVersion ce self peer ctx key data ttlSeconds expected;
  mret match r with inl err => inl (casClientError key err) | inr v => inr v end.

Definition emb_DeleteIfVersion (ctx : context) (key : bytes) (expected : Z) : C (option client_error) :=
  e ← Operations.DeleteIfVersion ce self peer ctx key expected; mret (casClientError key <$> e).

(** [PutStream] and [PutStreamSheddable]. *)
Definition emb_PutStream (shed : bool) (ctx : context) (key : bytes) (body : PutBody) (ttlSeconds : Z) : C (option op_error) :=
  PutWithOptions ce self peer ctx key body ttlSeconds shed.

Definition emb_PutStreamIfVersion (ctx : context) (key : bytes) (body : Reader) (ttlSeconds expected : Z) : C (client_error + Z) :=
  r ← Operations.PutStreamIfVersion ce self peer ctx key body ttlSeconds expected;
  mret match r with inl err => inl (casClientError key err) | inr v => inr v end.

Definition emb_GetStreamWithVersion (ctx : context) (key : bytes) : C (bytes * (op_error + Z * bool)) :=
  Operations.GetStreamWithVersion ce self peer ctx key.

(** [GetRangeStream]: what reached the writer; a missing key writes nothing. *)
Definition emb_GetRangeStream (fuel : nat) (size : nat -> nat) (w : Writer) (ctx : context) (key : bytes) (start end_ : Z) : C (option (op_error + bytes * bool)) :=
  Operations.GetRangeStream ce self peer fuel size w ctx key start end_.

End Embedded.

(** ** Both clients tell the same story *)

(** Two outcomes of a conditional write that a caller treats alike. *)
Definition same_outcome (a b : client_error + Z) : Prop :=
  match a, b with
  | inr v, inr v' => v = v'
  | inl (VersionMismatchError k c), inl (VersionMismatchError k' c') => k = k' /\ c = c'
  | inl (COther _), inl (COther _) => True
  | _, _ => False
  end.

Section Agreement.

Context {DB SM : Type} `{RocksDB DB} {PB : Protobuf} `{SegmentStore SM} (ce : ClusterEnv).
Context (key node : bytes) (md : MD).
(** The key belongs to the node that both clients use, and calls arrive. *)
Context (all_clustered : forall n, ce_clustered ce n = true) (own_key : forall n, ce_isLocal ce n node key = true).
Context (calls_start : forall n, ce_open ce n = None) (answers_arrive : forall n, ce_lost ce n = None).
Context (few_hops : hops md <= MaxHops) (has_key : key <> EmptyString).
Implicit Types c : Cluster DB SM.

(** At the owner of a key a conditional put through the embedded client and one over the
    network have the same outcome: the new version, the version that won, or a failure. *)
Lemma embedded_agrees_with_client stuck fuel peer ctx data ttl expected c :
  same_outcome (Client.PutIfVersion (stub ce md stuck fuel) (fun _ => inr node) (fun _ => true) key data ttl expected c).1
    (emb_PutIfVersion ce node peer ctx key data ttl expected (later c)).1.
Proof using all_clustered answers_arrive calls_start few_hops has_key own_key.
  set (x := (local_PutIfVersion ce node key (MkBody data None) ttl expected (received c)).1).
  assert (forall p k, (Operations.PutIfVersion ce node p k key data ttl expected (later c)).1 = x) as Hops.
  { intros p k. refine (_ : wp (Operations.PutIfVersion ce node p k key data ttl expected) (fun r _ => r = x) (later c)).
    unfold Operations.PutIfVersion. apply wp_bind. apply (wp_own_key ce key node all_clustered own_key). unfold wp, x, received.
    reflexivity. }
  assert ((stub ce md stuck fuel node (RPutObjectIfVersion (MkPutV key ttl data expected)) c).1 = inr (wired (cas_response x))) as E.
  { refine (_ : wp (stub ce md stuck fuel node (RPutObjectIfVersion (MkPutV key ttl data expected))) (fun r _ => r = inr (wired (cas_response x))) c).
    apply (wp_serve ce all_clustered calls_start answers_arrive); [done|]. cbn [handle]. unfold PutObjectIfVersion. cbn [vq_Key].
    rewrite decide_False by done. apply wp_bind. unfold wp. cbn [vq_Data vq_TtlSeconds vq_ExpectedVersion].
    specialize (Hops (serve ce stuck fuel) (MkCtx (Some md) [])). destruct (Operations.PutIfVersion _ _ _ _ _ _ _ _ _) as [r c1]. cbn in Hops. subst r. by intros c'' _. }
  unfold Client.PutIfVersion, emb_PutIfVersion, with_client, unary, mbind, ST_bind. specialize (Hops peer ctx).
  destruct (stub ce md stuck fuel node _ c) as [r c1]. cbn in E. subst r. destruct (Operations.PutIfVersion _ _ _ _ _ _ _ _ _) as [r c2]. cbn in Hops. subst r.
  destruct x as [err|v]; cbn; [|done]. unfold casClientError. by destruct (op_IsVersionMismatch err) as [cur|].
Qed.

End Agreement.
